(* ===== verification/_CoqProject ===== *)
-Q . S2P
Prelude.v
Clock.v
Locator.v
Patch.v
SumTree.v
SumCursor.v
CursorSpec.v
CursorWalk.v
SumIter.v
KeyedTree.v
TreeMap.v
UndoMap.v
Points.v
Text.v
Bitmap.v
SelectBit.v
Chunk.v
ChunkSpec.v
Rope.v
RopeText.v
RopeSpec.v
RopeClip.v
RopeProps.v
OperationQueue.v
History.v
LineEnding.v
Fragment.v
Builders.v
Snapshot.v
Cells.v
Convergence.v
Replica.v
SnapshotSpec.v
LocalEdit.v
LocalEditSpec.v
VersionedOffset.v
RemoteEdit.v
RemoteEditSpec.v
ApplyUndo.v
ApplyUndoSpec.v
Offsets.v
Anchor.v
Selection.v
AnchorSpec.v
Buffer.v
BufferSpec.v
BufferInv.v
BufferRemote.v
Delivery.v
Places.v
AnchorOrder.v
AnchorSummaries.v
BufferRuns.v
Network.v
BufferProps.v
NetworkProps.v
AnchorProps.v
