(* ===== verification/Prelude.v ===== *)
(** * Verified text stack of the Zagent editor

    The crates [clock], [sum_tree], [rope] and [text] under [crates/] hold the
    text of every buffer: characters in chunks, chunks in a balanced tree with
    summaries, versions of the text as patches, and the undo history, all of
    them shared between replicas through logical clocks. This library models
    them in Gallina, translated from the Rust sources, and proves them correct.

    ** Parts and how they interact

    - [Clock] (clock.rs): [Lamport] timestamps and the version vectors [Global];
      every other part that orders operations uses them.
    - [Locator] (locator.rs): dense identifiers for the places of fragments.
    - [Patch] (patch.rs, subscription.rs): edits between versions of a text,
      their composition, and topics that publish them to subscriptions.
    - [SumTree] (sum_tree.rs): the B+ tree. The classes [Summary], [Item] and
      [Dimension] are the traits of the source; [SummaryLaws] and
      [DimensionLaws] are what a client promises, and every later tree is an
      instance that discharges them.
    - [SumCursor], [CursorSpec], [CursorWalk], [SumIter] (cursor.rs): cursors,
      filtered cursors and iterators. A cursor denotes a place in the list of
      the items ([spot]); the operations are proved against that list.
    - [KeyedTree] (sum_tree.rs), [TreeMap] (tree_map.rs), [UndoMap]
      (undo_map.rs): trees sorted by key, maps and sets, undo counters.
    - [Points] (point.rs, point_utf16.rs, unclipped.rs), [Text] (the functions
      of [str] that are used, and [TextSummary] of rope.rs): positions and
      measures of text. A [str] is the list of its scalar values; byte offsets
      count the UTF-8 lengths of its characters.
    - [Bitmap], [SelectBit], [Chunk], [ChunkSpec] (chunk.rs): chunks of at most
      128 bytes with bitmaps over their bytes, and the queries that are
      computed from the bitmaps.
    - [Rope] (rope.rs, offset_utf16.rs): ropes, their cursors and conversions,
      on the tree and the chunks. [RopeText] proves the editing operations,
      [RopeSpec] the conversions at character boundaries, [RopeClip] those
      elsewhere and clipping, [RopeProps] states the properties of editing and
      holds the samples. [TextDimensionLaws], [TextKey] and [LineMeasure] are
      the interfaces by which one proof serves all kinds of positions.
    - [History] (text.rs): the undo and redo stacks of a buffer, which record
      operations in a [TreeMap] and take ids from a [Lamport] clock.
    - [OperationQueue] (operation_queue.rs): operations that wait, in the order
      of their timestamps. [LineEnding] (text.rs): detecting, normalizing and
      applying line endings.
    - [Fragment], [Builders], [Snapshot] (text.rs): a buffer is a sequence of
      fragments of insertions, visible or deleted, in a tree, with two ropes
      for the visible and the deleted text, and trees that lead from an
      insertion to its fragments and from an edit to what it changed.
      [SnapshotSpec] holds the invariant [snapshot_ok]: the fragments with
      their texts are a list of parts that the trees and ropes agree on.
    - [LocalEdit] ([BufferSnapshot::apply_edit_internal]) and [ApplyUndo]
      ([Buffer::apply_undo], [fragment_ids_for_edits]) rebuild the snapshot;
      [LocalEditSpec] and [ApplyUndoSpec] prove what becomes of the parts.
    - [Offsets] (text.rs, anchor.rs): the traits [ToOffset], [ToPoint], ... as
      classes. [Buffer] (text.rs): the struct [Buffer] with its calls; what the
      platform decides is in a record [Platform] with [PlatformLaws].
      [BufferSpec] proves creation, [BufferInv] the invariant [buffer_ok] of
      edits and undos, [BufferRuns] runs of calls, [BufferProps] the properties
      with samples that compute whole edits.
    - [VersionedOffset], [RemoteEdit] ([Buffer::apply_remote_edit]) and, in
      [Buffer], [apply_op], [apply_ops] and [flush_deferred_ops]: operations of
      other replicas. What they should do is said on a simpler state: [Cells] has
      the text as a list of characters with their insertions and deletions and
      [integrate], what an edit does to it; [Convergence] proves that concurrent
      edits commute, [Replica] adds undos and gives the meaning of operations,
      [receive]. [RemoteEditSpec] proves that the fragments follow [integrate],
      [BufferRemote] that buffers follow [receive], [Delivery] that batches in
      any order do. [Network] is a transition system of buffers that call, send
      and receive, and [NetworkProps] has its properties.
    - [Anchor] (anchor.rs, text.rs): anchors, how they are made, compared and
      resolved, alone or many in one pass. [AnchorSpec] proves where they
      resolve on the list of characters, [AnchorOrder] what [cmp] compares
      there, [AnchorSummaries] the pass with two cursors, [Places] that operations
      keep the order of characters; [AnchorProps] has the properties in networks.
      [Selection] (selection.rs): pairs of ends that move.

    In each file a record or inductive type has the fields and constructors of
    the source, and a module [<Type>Ops] has one definition for every function,
    under the name it has there. Theorems that are properties of the program
    have a comment that begins with a number C1, C2, ...; a theorem
    [<name>_witness] applies the property to concrete data.

    ** What the theorems show

    - Clocks and locators: order, least upper bounds, fresh identifiers strictly
      between neighbours, the growth of identifiers under appending.
    - Patches: composition of patches is composition of changes; subscriptions
      get what happened since they were read, in every run of a topic.
    - Trees: well-formedness is kept by every operation and the items are those
      of the list operation; searching and cursors agree with linear search;
      iteration ends and yields the items; sorted trees are finite maps and
      sets, also for batches of edits; the undo map converges whatever the
      order of the operations.
    - Text: a summary is a homomorphism from text and is what splitting the
      text into lines gives; selection of bits agrees with counting; a chunk
      answers from its bitmaps as its text says.
    - Ropes: every operation keeps the sizes that the code asserts in its tests
      and acts on the text as the operation on strings; all conversions are
      inverse to each other at character boundaries. Elsewhere points are
      answered as at the longest prefix of their row, except that in a debug
      build [debug_panic!] panics for those that the code takes for mistakes,
      and clipping goes to the nearest boundary: of characters, or of the
      graphemes of what the chunk has of the row.
    - History: safety of every run of the operations, undo and redo as
      inverses, what is merged, and lost by merging, and what is grouped.
    - Buffers: editing the fragments is replacing ranges of the text, with
      the patch and the operation that say so; every call that may be made
      keeps the invariant; undoing a run of edits restores the text and
      redoing it the text after; undos commute. The key is [view]: what would
      show if a set of edits were undone. An edit changes no view in which it
      is undone ([follows]), an undo changes no view at all ([retouched]).
    - Networks: from buffers of one text, in every run of calls and of batches
      of operations that arrive late, out of order or again, nothing panics; the
      text of a buffer is what the operations mean that it has observed, so that
      buffers with the same operations have the same text; and when nothing is
      missing, nothing waits.
    - Anchors: an anchor resolves to where it was made, sticks to its character
      through all that happens to any replica and is valid exactly when that
      character shows, and anchors compare the same everywhere; resolving many
      at once is resolving each.

    ** Conventions and bounds

    - A result in [option] is [None] when the code panics: failed assertions,
      [unwrap] of [None], indices out of range, and subtractions that underflow
      ([usize_sub]). Theorems show [returns m P]: the call gives a value, and
      it satisfies [P].
    - Where the build decides, the definition has [debug_assertions] for
      [cfg!(debug_assertions)]: [debug_panic!] ([ChunkOps.debug_panic]) panics
      with it and logs without, [assert_char_boundary] likewise. The assertion of
      [Global::observe] is in [GlobalOps.observe_asserting]; in a network it
      never fails, since no replica has the id that it excludes
      ([NetworkProps.observe_asserts]). Messages for the log are left out.
    - [usize] additions are exact. 32-bit fields are exact too where a theorem
      bounds them ([summary_fits], and [fits]: texts of less than 2^32 bytes);
      timestamps wrap ([u32_add]), casts to [u32] truncate ([as_u32]); the selection of bits checks 64-bit sums.
    - Recursion follows the structure, or has fuel that the caller computes
      from the data (the number of items, bytes or edits); the theorems on the
      callers show that it is enough, so that running out is never the answer.
    - Constants are those of a release build: [TREE_BASE] 6, chunks of 128
      bytes, 4 chunks to a small [push]; tests of the crates use smaller ones.
    - Loops over fragments have the size of the tree as fuel; the loop that cuts
      texts into fragments has the number of characters. [MAX_INSERTION_LEN]
      is a parameter between 4 (a character must fit) and 2^32, since the
      tests of the crate use 16 and the release build 2^32 - 1; a buffer of
      less than 2^32 bytes keeps the offsets in insertions exact.
    - The stack of a tree cursor holds 16 entries ([STACK_CAPACITY]), and
      joining trees does not restore the least fill of nodes, from which a bound
      on the height would follow. Theorems on cursors therefore assume that the
      tree is lower than the stack ([shallow], [slice_lowb], [replace_lowb],
      [snapshot_low]); for an operation on a buffer the conditions on what it
      reads and computes are collected in [edit_fits], [undo_fits] and [op_fits], and for
      batches, at each of their steps, in [receive_fits].
    - Sharing ([Arc]), references and clones are erased: the trees are
      persistent values, and the code copies a node before it changes it
      unless it is the only owner. The iterators that [summaries_for_anchors]
      returns are lists. Unstable sorts are a parameter with its
      specification ([Sorting]), [HashMap]s a list of pairs in the order of
      iteration ([count_entries]), the regular expression of line separators a
      parameter with what it is documented to match ([LineSeparators]). Parallel construction builds
      the parts of a level independently, and the model builds them in order. The grapheme segmentation of [unicode_segmentation] is a
      parameter with the rules of Unicode that the code relies on
      ([GraphemeRules]).

    ** Not modelled

    The edits since a version
    and the edited ranges of a transaction, the chunk, byte and line iterators of
    ropes: queries that change no state, left for later work. All crates above
    the text stack: language support, projects, collaboration, agents and the
    user interface are input and output, glue to libraries and services, or
    presentation. The channels of the tasks that wait for edits are not part of a
    buffer's state here: they only send notifications. *)

From Stdlib Require Import NArith ZArith Lia.
From stdpp Require Export base option numbers list_numbers list.

#[global] Set Default Proof Using "Type".

Create HintDb zed discriminated.

(** ** Scope and notations *)

Declare Scope zed_scope.
Delimit Scope zed_scope with zed.

(** ** Machine integers *)

Definition u16_modulus : N := 65536.
Definition u32_modulus : N := 4294967296.

(** [+] on [u32] in a release build, and the casts [as u16] and [as u32]: the result wraps. *)
Definition u32_add (a b : N) : N := (a + b) mod u32_modulus.
Definition as_u16 (a : N) : N := a mod u16_modulus.
Definition as_u32 (n : N) : N := n mod u32_modulus.

Notation "a +u32 b" := (u32_add a b) (at level 50, left associativity) : zed_scope.
Open Scope zed_scope.

Lemma u32_add_small (a b : N) : (a + b < u32_modulus)%N → a +u32 b = (a + b)%N.
Proof. intros H. unfold u32_add. by apply N.mod_small. Qed.

Lemma as_u32_small (n : N) : (n < u32_modulus)%N → as_u32 n = n.
Proof. apply N.mod_small. Qed.

Lemma u32_add_bound (a b : N) : (a +u32 b < u32_modulus)%N.
Proof. unfold u32_add, u32_modulus. by apply N.mod_lt. Qed.

(** [a - b] on [usize]: [None] is the overflow panic of a checked build. *)
Definition usize_sub (a b : N) : option N :=
  if (b <=? a)%N then Some (a - b)%N else None.

Lemma usize_sub_le (a b : N) : (b <= a)%N → usize_sub a b = Some (a - b)%N.
Proof. intros H. unfold usize_sub. by destruct (N.leb_spec b a); [|lia]. Qed.

Lemma N_add_sub_l (a b : N) : (a + b - a)%N = b.
Proof. lia. Qed.

(** The length of a list as a [usize]. *)
Definition len {A} (l : list A) : N := N.of_nat (length l).

Lemma len_nil {A} : len (@nil A) = 0%N.
Proof. done. Qed.
Lemma len_cons {A} (x : A) l : len (x :: l) = (1 + len l)%N.
Proof. unfold len. simpl. lia. Qed.
Lemma len_app {A} (l k : list A) : len (l ++ k) = (len l + len k)%N.
Proof. unfold len. rewrite length_app. lia. Qed.

Lemma to_nat_len {A} (l : list A) : N.to_nat (len l) = length l.
Proof. unfold len. lia. Qed.

(** A [Range<T>] of Rust. *)
Record Range (T : Type) := mkRange { start : T; stop : T }.
Arguments mkRange {T} _ _.
Arguments start {T} _.
Arguments stop {T} _.
Notation "a ..: b" := (mkRange a b) (at level 51, no associativity) : zed_scope.

#[export] Instance Range_eq_dec {T} `{!EqDecision T} : EqDecision (Range T).
Proof. solve_decision. Defined.

(** ** Orderings *)

(** [Ordering::then_with] of the Rust standard library. *)
Definition then_with (c d : comparison) : comparison :=
  match c with Eq => d | _ => c end.

(** [max] of [std::cmp] returns its second argument on a tie. *)
Definition cmp_max {A} (cmp : A → A → comparison) (a b : A) : A :=
  match cmp a b with Gt => a | _ => b end.

(** A lawful three-way comparison, what [Ord] promises in Rust. *)
Class TotalOrd {A} (cmp : A → A → comparison) : Prop := {
  ord_eq : ∀ a b, cmp a b = Eq ↔ a = b;
  ord_antisym : ∀ a b, cmp b a = CompOpp (cmp a b);
  ord_lt_trans : ∀ a b c, cmp a b = Lt → cmp b c = Lt → cmp a c = Lt }.
Arguments ord_eq {A} cmp {_} a b.
Arguments ord_antisym {A} cmp {_} a b.
Arguments ord_lt_trans {A} cmp {_} a b c.

(** ** Updates of the front of a slice by a zip

    [for (l, r) in left.iter_mut().zip(right) { *l = f(l, r) }]: the elements
    of [left] past the end of [right] stay. *)
Fixpoint zip_update {A B} (f : A → B → A) (l : list A) (r : list B) : list A :=
  match l, r with
  | a :: l, b :: r => f a b :: zip_update f l r
  | _, _ => l
  end.

Lemma length_zip_update {A B} (f : A → B → A) l r :
  length (zip_update f l r) = length l.
Proof. revert r; induction l as [|a l IH]; intros [|b r]; simpl; auto. Qed.

Lemma lookup_zip_update {A B} (f : A → B → A) l r i :
  zip_update f l r !! i =
  match l !! i, r !! i with
  | Some a, Some b => Some (f a b)
  | o, _ => o
  end.
Proof.
  revert r i; induction l as [|a l IH]; intros [|b r] [|i]; simpl; auto.
  by destruct (l !! i).
Qed.

(** ** Lists *)

Lemma filter_ext_in {A} (P Q : A → Prop) `{!∀ x, Decision (P x), !∀ x, Decision (Q x)} (l : list A) :
  (∀ x, x ∈ l → P x ↔ Q x) → filter P l = filter Q l.
Proof.
  induction l as [|x l IH]; intros Hpq; [done|]. rewrite !filter_cons, IH.
  - by rewrite (decide_ext (P x) (Q x)) by (apply Hpq; left).
  - intros y Hy. apply Hpq. by right.
Qed.

Lemma filter_all {A} (P : A → Prop) `{!∀ x, Decision (P x)} (l : list A) :
  (∀ x, x ∈ l → P x) → filter P l = l.
Proof.
  induction l as [|x l IH]; intros Hp; [done|]. rewrite filter_cons_True by (apply Hp; left).
  f_equal. apply IH. intros y Hy. apply Hp. by right.
Qed.

Lemma filter_none {A} (P : A → Prop) `{!∀ x, Decision (P x)} (l : list A) :
  (∀ x, x ∈ l → ¬ P x) → filter P l = [].
Proof.
  induction l as [|x l IH]; intros Hp; [done|]. rewrite filter_cons_False by (apply Hp; left).
  apply IH. intros y Hy. apply Hp. by right.
Qed.

Lemma elem_of_drop {A} (l : list A) k x :
  x ∈ drop k l → ∃ i, (k <= i)%nat ∧ l !! i = Some x.
Proof.
  intros H. apply list_elem_of_lookup in H as [i Hi]. rewrite lookup_drop in Hi.
  exists (k + i)%nat. split; [lia|done].
Qed.

Definition sum_nat (l : list nat) : nat := foldr Nat.add 0%nat l.

#[global] Arguments sum_nat : simpl never.

Lemma sum_nat_cons x l : sum_nat (x :: l) = (x + sum_nat l)%nat.
Proof. done. Qed.

Lemma sum_nat_app l k : sum_nat (l ++ k) = (sum_nat l + sum_nat k)%nat.
Proof. induction l as [|x l IH]; simpl; [done|]. rewrite !sum_nat_cons, IH. lia. Qed.

(** ** Computations that do not fail *)

(** [m] returns a value that satisfies [P]. *)
Definition returns {A} (m : option A) (P : A → Prop) : Prop :=
  ∃ a, m = Some a ∧ P a.

Lemma returns_ret {A} (a : A) (P : A → Prop) : P a → returns (Some a) P.
Proof. intros H. by exists a. Qed.

Lemma returns_bind {A B} (m : option A) (k : A → option B) P Q :
  returns m P → (∀ a, P a → returns (k a) Q) → returns (m ≫= k) Q.
Proof. intros (a & -> & Ha) H. by apply H. Qed.

Lemma returns_fmap {A B} (m : option A) (f : A → B) (Q : B → Prop) :
  returns m (λ a, Q (f a)) → returns (f <$> m) Q.
Proof. intros (a & -> & Ha). by exists (f a). Qed.

Lemma returns_mono {A} (m : option A) (P Q : A → Prop) :
  returns m P → (∀ a, P a → Q a) → returns m Q.
Proof. intros (a & -> & Ha) H. exists a. auto. Qed.

(** ** Loops

    [step] runs one iteration: [inl] goes on, [inr] leaves the loop, [None]
    panics. [iterate] is the loop with a bound on the number of iterations. *)
Fixpoint iterate {A B} (step : A → option (A + B)) (fuel : nat) (a : A) : option B :=
  match fuel with
  | O => None
  | S fuel =>
      r ← step a;
      match r with
      | inl a => iterate step fuel a
      | inr b => Some b
      end
  end.

(** [n] iterations lead from [a] to [a']. *)
Inductive nsteps_to {A B} (step : A → option (A + B)) : nat → A → A → Prop :=
| nsteps_to_refl a : nsteps_to step 0 a a
| nsteps_to_step n a a' a'' :
    step a = Some (inl a') → nsteps_to step n a' a'' → nsteps_to step (S n) a a''.
#[export] Hint Constructors nsteps_to : zed.

Section loops.
Context {A B : Type} (step : A → option (A + B)).

Lemma nsteps_to_trans n m a b c :
  nsteps_to step n a b → nsteps_to step m b c → nsteps_to step (n + m) a c.
Proof. induction 1; simpl; eauto with zed. Qed.

Lemma nsteps_to_one a b : step a = Some (inl b) → nsteps_to step 1 a b.
Proof. eauto with zed. Qed.

Lemma iterate_nsteps n k a b :
  nsteps_to step n a b → iterate step (n + k) a = iterate step k b.
Proof. induction 1 as [|n a b c Hs _ IH]; simpl; [done|]. by rewrite Hs. Qed.

(** Reaching a state that leaves the loop within the bound. *)
Lemma iterate_exit n fuel a b r :
  nsteps_to step n a b → step b = Some (inr r) → (n < fuel)%nat →
  iterate step fuel a = Some r.
Proof.
  intros Hn Hb Hf. replace fuel with (n + S (fuel - S n))%nat by lia.
  rewrite (iterate_nsteps n _ a b) by done. simpl. by rewrite Hb.
Qed.

End loops.

(** ** Tactics *)

(** Case analysis on a boolean test in the goal or a hypothesis, leaving the
    proposition that the test decides. *)
Ltac cases_bool :=
  repeat match goal with
  | |- context [N.leb ?a ?b] => destruct (N.leb_spec a b)
  | |- context [N.ltb ?a ?b] => destruct (N.ltb_spec a b)
  | |- context [N.eqb ?a ?b] => destruct (N.eqb_spec a b)
  | |- context [Z.leb ?a ?b] => destruct (Z.leb_spec a b)
  | |- context [Z.ltb ?a ?b] => destruct (Z.ltb_spec a b)
  | |- context [Z.eqb ?a ?b] => destruct (Z.eqb_spec a b)
  | |- context [Nat.leb ?a ?b] => destruct (Nat.leb_spec a b)
  | |- context [Nat.ltb ?a ?b] => destruct (Nat.ltb_spec a b)
  | |- context [Nat.eqb ?a ?b] => destruct (Nat.eqb_spec a b)
  end.

#[export] Hint Resolve u32_add_bound : zed.
Create Rewrite HintDb zed.
#[export] Hint Rewrite @length_zip_update : zed.
Create Rewrite HintDb len.
#[export] Hint Rewrite @len_nil @len_cons @len_app @length_app : len.

(** Linear arithmetic after the lengths of concatenations are unfolded. *)
Ltac len_lia := autorewrite with len in *; lia.

(** ** Comparisons of [N] and their lexicographic products *)

#[export] Instance N_compare_total : TotalOrd N.compare.
Proof.
  split.
  - apply N.compare_eq_iff.
  - intros a b. apply N.compare_antisym.
  - intros a b c. rewrite !N.compare_lt_iff. lia.
Qed.

Section TotalOrd.
Context {A : Type} (cmp : A → A → comparison) `{!TotalOrd cmp}.

Lemma ord_refl a : cmp a a = Eq.
Proof using Type*. by apply (ord_eq cmp). Qed.

Lemma ord_gt_lt a b : cmp a b = Gt ↔ cmp b a = Lt.
Proof using Type*. rewrite (ord_antisym cmp a b). by destruct (cmp a b). Qed.

Lemma ord_le_lt_trans a b c : cmp a b ≠ Gt → cmp b c = Lt → cmp a c = Lt.
Proof using Type*.
  intros Hab Hbc. destruct (cmp a b) eqn:E; [| |done].
  - apply (ord_eq cmp) in E as ->. done.
  - by eapply (ord_lt_trans cmp).
Qed.

Lemma ord_lt_le_trans a b c : cmp a b = Lt → cmp b c ≠ Gt → cmp a c = Lt.
Proof using Type*.
  intros Hab Hbc. destruct (cmp b c) eqn:E; [| |done].
  - apply (ord_eq cmp) in E as ->. done.
  - by eapply (ord_lt_trans cmp).
Qed.

Lemma ord_le_trans a b c : cmp a b ≠ Gt → cmp b c ≠ Gt → cmp a c ≠ Gt.
Proof using Type*.
  intros Hab Hbc. destruct (cmp b c) eqn:E; [| |done].
  - apply (ord_eq cmp) in E. by rewrite <- E.
  - by rewrite (ord_le_lt_trans _ _ _ Hab E).
Qed.

Lemma cmp_max_assoc a b c : cmp_max cmp (cmp_max cmp a b) c = cmp_max cmp a (cmp_max cmp b c).
Proof using Type*.
  assert (∀ x y, cmp_max cmp x y = if decide (cmp x y = Gt) then x else y) as Hmax.
  { intros x y. unfold cmp_max. by destruct (cmp x y). }
  pose proof (ord_le_trans a b c) as Hle. rewrite !Hmax.
  destruct (decide (cmp a b = Gt)) as [Hab|Hab], (decide (cmp b c = Gt)) as [Hbc|Hbc].
  - rewrite ?(decide_True _ _ Hab), decide_True; [done|].
    rewrite ord_gt_lt in *. by apply (ord_lt_trans cmp _ b).
  - done.
  - by rewrite ?(decide_True _ _ Hbc), ?(decide_False _ _ Hab).
  - rewrite ?(decide_False _ _ Hbc), decide_False; [done|]. by apply Hle.
Qed.

(** A type that is ordered through two projections, first one first, as a
    derived [Ord] or a [cmp(..).then_with(..)] does. *)
Context {B C : Type} (cmpB : B → B → comparison) `{!TotalOrd cmpB}.
Context (p : C → A) (q : C → B) (ext : ∀ x y, p x = p y → q x = q y → x = y).

Lemma lex_total :
  TotalOrd (λ x y, then_with (cmp (p x) (p y)) (cmpB (q x) (q y))).
Proof using Type*.
  split.
  - intros x y. destruct (cmp (p x) (p y)) eqn:E; simpl.
    + rewrite (ord_eq cmp) in E. rewrite (ord_eq cmpB). split; [by apply ext|congruence].
    + split; [done|intros ->]. by rewrite ord_refl in E.
    + split; [done|intros ->]. by rewrite ord_refl in E.
  - intros x y. rewrite (ord_antisym cmp (p x)), (ord_antisym cmpB (q x)).
    by destruct (cmp (p x) (p y)).
  - intros x y z. destruct (cmp (p x) (p y)) eqn:E1; simpl; [| |done].
    + apply (ord_eq cmp) in E1. rewrite E1. destruct (cmp (p y) (p z)); simpl; try done.
      apply (ord_lt_trans cmpB).
    + intros _. destruct (cmp (p y) (p z)) eqn:E2; simpl; [| |done].
      * apply (ord_eq cmp) in E2. rewrite <- E2. by rewrite E1.
      * by rewrite (ord_lt_trans cmp _ _ _ E1 E2).
Qed.
End TotalOrd.
