(* ===== verification/Clock.v ===== *)
(** * Logical clocks: [crates/clock/src/clock.rs]

    [Lamport] timestamps with their total order, and [Global], the version
    vector that every replica keeps of the timestamps it has observed. *)

From stdpp Require Import countable.
From S2P Require Import Prelude.

Open Scope N_scope.

(** A replica id is a [u16], a sequence number a [u32]. *)
Abbreviation ReplicaId := N (only parsing).
Abbreviation Seq := N (only parsing).

Module Replica.

Definition LOCAL : ReplicaId := 0.
Definition REMOTE_SERVER : ReplicaId := 1.
Definition AGENT : ReplicaId := 2.
Definition LOCAL_BRANCH : ReplicaId := 3.
Definition FIRST_COLLAB_ID : ReplicaId := 8.

Definition is_remote (r : ReplicaId) : bool :=
  (r =? REMOTE_SERVER) || (FIRST_COLLAB_ID <=? r).

End Replica.

(** ** Lamport timestamps *)

Record Lamport := mkLamport { value : Seq; replica_id : ReplicaId }.

#[export] Instance Lamport_eq_dec : EqDecision Lamport.
Proof. solve_decision. Defined.

#[export] Instance Lamport_countable : Countable Lamport.
Proof.
  apply (inj_countable' (λ t, (value t, replica_id t)) (λ p, mkLamport p.1 p.2)).
  by intros [].
Defined.

Module LamportOps.

Definition MIN : Lamport := mkLamport 0 0.
Definition MAX : Lamport := mkLamport (u32_modulus - 1) (u16_modulus - 1).

(** [Ord for Lamport]: the sequence number first, the replica id to break
    ties between concurrent events. *)
Definition cmp (a b : Lamport) : comparison :=
  then_with (value a ?= value b) (replica_id a ?= replica_id b).

Definition new (r : ReplicaId) : Lamport := mkLamport 1 r.

Definition as_u64 (t : Lamport) : N :=
  N.lor (N.shiftl (value t) 32) (replica_id t).

(** [tick] returns the timestamp to use and the advanced clock. *)
Definition tick (t : Lamport) : Lamport * Lamport :=
  (t, mkLamport (value t +u32 1) (replica_id t)).

Definition observe (t other : Lamport) : Lamport :=
  mkLamport (N.max (value t) (value other) +u32 1) (replica_id t).

(** The values that the integer types of the two fields can hold. *)
Definition in_range (t : Lamport) : Prop :=
  value t < u32_modulus ∧ replica_id t < u16_modulus.

#[export] Instance cmp_total : TotalOrd cmp.
Proof.
  apply (lex_total N.compare N.compare). intros [] []; simpl. congruence.
Qed.

End LamportOps.

(** ** Version vectors *)

Record Global := mkGlobal { values : list Seq }.

#[export] Instance Global_eq_dec : EqDecision Global.
Proof. solve_decision. Defined.

Module GlobalOps.

Definition new : Global := mkGlobal [].

Definition get (g : Global) (r : ReplicaId) : Seq :=
  default 0 (values g !! N.to_nat r).

(** [if n > v.len() { v.resize(n, 0) }] *)
Definition grow (n : nat) (v : list Seq) : list Seq :=
  if (length v <? n)%nat then resize n 0 v else v.

(** [observe], after its debug assertion. *)
Definition observe (g : Global) (t : Lamport) : Global :=
  if 0 <? value t then
    let v := grow (N.to_nat (replica_id t) + 1) (values g) in
    mkGlobal (alter (λ entry, N.max entry (value t)) (N.to_nat (replica_id t)) v)
  else g.

(** [observe] in a debug build: [debug_assert_ne!] on the replica id. *)
Definition observe_asserting (debug_assertions : bool) (g : Global) (t : Lamport) : option Global :=
  if debug_assertions && (replica_id t =? replica_id LamportOps.MAX) then None else Some (observe g t).

Definition join (g other : Global) : Global :=
  mkGlobal (zip_update N.max (grow (length (values other)) (values g)) (values other)).

Definition meet_entry (left right : Seq) : Seq :=
  if left =? 0 then right else if right =? 0 then left else N.min left right.

(** [new_len] of [meet]: one past the last position of the zipped part
    whose updated entry is not zero. *)
Fixpoint meet_new_len (ix new_len : nat) (l r : list Seq) : nat :=
  match l, r with
  | a :: l, b :: r =>
      meet_new_len (S ix)
        (if meet_entry a b =? 0 then new_len else (ix + 1)%nat) l r
  | _, _ => new_len
  end.

Definition meet (g other : Global) : Global :=
  let v := grow (length (values other)) (values g) in
  let v' := zip_update meet_entry v (values other) in
  let new_len := meet_new_len 0 0 v (values other) in
  mkGlobal (if (length (values other) =? length v')%nat then take new_len v' else v').

Definition observed (g : Global) (t : Lamport) : bool :=
  value t <=? get g (replica_id t).

Definition iter (g : Global) : list Lamport :=
  imap (λ i s, mkLamport s (as_u16 (N.of_nat i))) (values g).

Definition observed_any (g other : Global) : bool :=
  existsb (λ '(l, r), (0 <? value r) && (value r <=? value l))
    (zip (iter g) (iter other)).

Definition observed_all (g other : Global) : bool :=
  if (length (values g) <? length (values other))%nat then false
  else forallb (λ '(l, r), value r <=? value l) (zip (iter g) (iter other)).

Definition changed_since (g other : Global) : bool :=
  (length (values other) <? length (values g))%nat
  || existsb (λ '(l, r), r <? l) (zip (values g) (values other)).

(** [max_by_key] keeps the last of several maximal elements. *)
Definition most_recent (g : Global) : option Lamport :=
  foldl (λ best t, match best with
                   | None => Some t
                   | Some b => Some (if value t <? value b then b else t)
                   end) None (iter g).

Definition from_iter (locals : list Lamport) : Global :=
  foldl observe new locals.

End GlobalOps.

(** ** Lookup after each operation *)

Section lookups.
Import GlobalOps.
Implicit Types (g h : Global) (r : ReplicaId) (t : Lamport).

Definition at_ (v : list Seq) (i : nat) : Seq := default 0 (v !! i).

Lemma get_at g r : get g r = at_ (values g) (N.to_nat r).
Proof. done. Qed.

Lemma at_ge v i : (length v ≤ i)%nat → at_ v i = 0.
Proof. intros H. unfold at_. by rewrite lookup_ge_None_2. Qed.

Lemma length_grow n v : length (grow n v) = Nat.max n (length v).
Proof. unfold grow. cases_bool; rewrite ?length_resize; lia. Qed.

Lemma at_grow n v i : at_ (grow n v) i = at_ v i.
Proof.
  unfold grow. cases_bool; [|done]. unfold at_.
  destruct (decide (i < length v)%nat) as [Hi|Hi].
  - by rewrite lookup_resize by lia.
  - rewrite (lookup_ge_None_2 v i) by lia.
    destruct (decide (i < n)%nat).
    + by rewrite lookup_resize_new by lia.
    + by rewrite lookup_resize_old by lia.
Qed.

Lemma at_alter f i j v :
  at_ (alter f i v) j =
  if decide (i = j ∧ (i < length v)%nat) then f (at_ v i) else at_ v j.
Proof.
  unfold at_. case_decide as H.
  - destruct H as [-> H]. rewrite list_lookup_alter_eq.
    by destruct (lookup_lt_is_Some_2 v j H) as [x ->].
  - destruct (decide (i = j)) as [->|Hij].
    + rewrite list_lookup_alter_eq, lookup_ge_None_2 by (apply not_and_l in H; lia).
      done.
    + by rewrite list_lookup_alter_ne.
Qed.

Lemma at_zip_update f v w i :
  (length w ≤ length v)%nat →
  at_ (zip_update f v w) i =
  if decide (i < length w)%nat then f (at_ v i) (at_ w i) else at_ v i.
Proof.
  intros Hlen. unfold at_. rewrite lookup_zip_update. case_decide as Hi.
  - destruct (lookup_lt_is_Some_2 w i Hi) as [y Hy].
    destruct (lookup_lt_is_Some_2 v i) as [x Hx]; [lia|]. by rewrite Hx, Hy.
  - rewrite (lookup_ge_None_2 w i) by lia. by destruct (v !! i).
Qed.

Lemma get_new r : get new r = 0.
Proof. done. Qed.

Lemma get_observe g t r :
  get (observe g t) r =
  if replica_id t =? r then N.max (get g r) (value t) else get g r.
Proof.
  unfold observe. destruct (N.ltb_spec 0 (value t)).
  - rewrite !get_at. simpl. rewrite at_alter, at_grow, length_grow.
    case_decide as E.
    + destruct E as [E _]. apply N2Nat.inj in E as ->. by rewrite N.eqb_refl.
    + destruct (N.eqb_spec (replica_id t) r); [|by rewrite at_grow].
      subst. destruct E. split; [done|]. lia.
  - destruct (N.eqb_spec (replica_id t) r); lia.
Qed.

Lemma get_join g h r : get (join g h) r = N.max (get g r) (get h r).
Proof.
  rewrite !get_at. unfold join. simpl.
  rewrite at_zip_update by (rewrite length_grow; lia). rewrite at_grow.
  case_decide; [done|]. rewrite (at_ge (values h)) by lia. lia.
Qed.

Lemma meet_new_len_le ix n (l r' : list Seq) :
  (n ≤ ix)%nat → (meet_new_len ix n l r' ≤ ix + Nat.min (length l) (length r'))%nat.
Proof.
  revert ix n r'. induction l as [|a l IH]; intros ix n [|b r'] H; simpl; try lia.
  etransitivity; [apply IH|]; cases_bool; lia.
Qed.

Lemma meet_new_len_mono ix n (l r' : list Seq) :
  (n ≤ ix)%nat → (n ≤ meet_new_len ix n l r')%nat.
Proof.
  revert ix n r'. induction l as [|a l IH]; intros ix n [|b r'] H; simpl; try lia.
  etransitivity; [|apply IH]; cases_bool; lia.
Qed.

(** Past [new_len] every updated entry is zero, *)
Lemma meet_new_len_zero ix n (l r' : list Seq) i :
  (i < Nat.min (length l) (length r'))%nat →
  (meet_new_len ix n l r' ≤ ix + i)%nat → (n ≤ ix)%nat →
  meet_entry (at_ l i) (at_ r' i) = 0.
Proof.
  revert ix n r' i. induction l as [|a l IH]; intros ix n [|b r'] i Hi H Hn;
    simpl in *; try lia.
  destruct i as [|i].
  - destruct (N.eqb_spec (meet_entry a b) 0); [done|].
    pose proof (meet_new_len_mono (S ix) (ix + 1) l r'). lia.
  - apply (IH (S ix) (if meet_entry a b =? 0 then n else (ix + 1)%nat) r' i); try lia.
    cases_bool; lia.
Qed.

(** and the entry just before it is not. *)
Lemma meet_new_len_last ix n (l r' : list Seq) :
  (n < meet_new_len ix n l r')%nat → (n ≤ ix)%nat →
  ∃ i, meet_new_len ix n l r' = (ix + i + 1)%nat ∧
       (i < Nat.min (length l) (length r'))%nat ∧
       meet_entry (at_ l i) (at_ r' i) ≠ 0.
Proof.
  revert ix n r'. induction l as [|a l IH]; intros ix n [|b r'] H Hn; simpl in *; try lia.
  set (n' := if meet_entry a b =? 0 then n else (ix + 1)%nat) in *.
  destruct (decide (n' < meet_new_len (S ix) n' l r')%nat) as [Hlt|Hge].
  - destruct (IH (S ix) n' r' Hlt) as (i & E & Hi & Hm).
    { subst n'; cases_bool; lia. }
    exists (S i). split; [lia|]. split; [lia|]. done.
  - pose proof (meet_new_len_mono (S ix) n' l r') as Hmono.
    exists 0%nat. subst n'. unfold at_. simpl.
    destruct (N.eqb_spec (meet_entry a b) 0); [lia|].
    split; [lia|]. split; [lia|done].
Qed.

Lemma at_take n v i : at_ (take n v) i = if decide (i < n)%nat then at_ v i else 0.
Proof.
  unfold at_. case_decide.
  - by rewrite lookup_take_lt by lia.
  - by rewrite lookup_take_ge by lia.
Qed.

Lemma get_meet g h r : get (meet g h) r = meet_entry (get g r) (get h r).
Proof.
  rewrite !get_at. unfold meet. cbv zeta. cbn [values].
  set (i := N.to_nat r). set (v := grow _ _).
  assert (Hv : length v = Nat.max (length (values h)) (length (values g)))
    by apply length_grow.
  assert (Hz : at_ (zip_update meet_entry v (values h)) i
               = meet_entry (at_ (values g) i) (at_ (values h) i)).
  { rewrite at_zip_update by lia. unfold v at 1 2. rewrite at_grow.
    case_decide; [done|]. rewrite (at_ge (values h)) by lia.
    unfold meet_entry. cases_bool; lia. }
  rewrite length_zip_update. cases_bool; [|done].
  rewrite at_take. case_decide as Hi; [done|].
  destruct (decide (i < length (values h))%nat) as [Hlt|Hge].
  - symmetry. rewrite <- (at_grow (length (values h)) (values g) i).
    apply (meet_new_len_zero 0 0); fold v; lia.
  - by rewrite !at_ge by lia.
Qed.

End lookups.

(** ** Canonical form

    No version vector the editor builds ends in a zero. [PartialEq] on [Global]
    is derived, and [observed_all] and [changed_since] compare lengths first:
    they mean what they say only because of this. *)

Section normal.
Import GlobalOps.
Implicit Types (g h : Global) (r : ReplicaId) (t : Lamport) (v : list Seq).

Definition normal_list v : Prop := v = [] ∨ at_ v (length v - 1) ≠ 0.
Definition normal g : Prop := normal_list (values g).

Lemma normal_last v i : normal_list v → (i < length v)%nat →
  ∃ j, (i ≤ j)%nat ∧ at_ v j ≠ 0.
Proof.
  intros [->|H] Hi; simpl in *; [lia|]. exists (length v - 1)%nat. split; [lia|done].
Qed.

Lemma normal_at_length v n :
  normal_list v → (∀ i, (n ≤ i)%nat → at_ v i = 0) → (length v ≤ n)%nat.
Proof.
  intros Hv H. destruct (decide (n < length v)%nat) as [Hlt|]; [|lia].
  destruct (normal_last v n Hv Hlt) as (j & Hj & Hne). by destruct Hne; apply H.
Qed.

Lemma at_ext v w : length v = length w → (∀ i, at_ v i = at_ w i) → v = w.
Proof.
  intros Hlen H. apply list_eq_same_length with (length w); [done|done|].
  intros i x y Hi Hx Hy. specialize (H i). unfold at_ in H. by rewrite Hx, Hy in H.
Qed.

Lemma get_ext_at g h : (∀ r, get g r = get h r) → ∀ i, at_ (values g) i = at_ (values h) i.
Proof. intros H i. specialize (H (N.of_nat i)). by rewrite !get_at, Nat2N.id in H. Qed.

Lemma normal_new : normal new.
Proof. by left. Qed.

Lemma normal_observe g t : normal g → normal (observe g t).
Proof.
  unfold normal, observe. destruct (N.ltb_spec 0 (value t)) as [Ht|]; [|done].
  intros Hg. right. cbn [values]. set (k := N.to_nat (replica_id t)).
  rewrite length_alter, length_grow, at_alter, length_grow.
  case_decide as E; cbv beta; [lia|]. rewrite at_grow.
  replace (Nat.max (k + 1) (length (values g)) - 1)%nat
    with (length (values g) - 1)%nat by lia.
  destruct Hg as [Hg|Hg]; [|done]. rewrite Hg in E. simpl in E.
  destruct E. split; lia.
Qed.

(** [join] keeps, at the end of the longer vector, its non-zero last entry. *)
Lemma normal_join g h : normal g → normal h → normal (join g h).
Proof.
  unfold normal, normal_list, join. intros Hg Hh. cbn [values].
  rewrite length_zip_update, length_grow.
  destruct (decide (Nat.max (length (values h)) (length (values g)) = 0)%nat) as [Hz|Hz].
  { left. apply nil_length_inv. rewrite length_zip_update, length_grow. lia. }
  right. rewrite at_zip_update by (rewrite length_grow; lia). rewrite at_grow.
  assert (Hgl : values g = [] → length (values g) = 0%nat) by (intros ->; done).
  assert (Hhl : values h = [] → length (values h) = 0%nat) by (intros ->; done).
  destruct (decide (length (values g) < length (values h))%nat) as [Hlt|Hge].
  - destruct Hh as [Hh|Hh]; [apply Hhl in Hh; lia|].
    rewrite Nat.max_l by lia. rewrite decide_True by lia. lia.
  - destruct Hg as [Hg|Hg]; [apply Hgl in Hg; lia|].
    rewrite Nat.max_r by lia. case_decide; lia.
Qed.

Lemma normal_take_meet (l r' : list Seq) :
  length l = length r' →
  normal_list (take (meet_new_len 0 0 l r') (zip_update meet_entry l r')).
Proof.
  intros Hlen. pose proof (meet_new_len_le 0 0 l r').
  destruct (decide (0 < meet_new_len 0 0 l r')%nat) as [Hpos|Hz].
  - destruct (meet_new_len_last 0 0 l r') as (i & E & Hi & Hne); [done|lia|].
    right. rewrite length_take, length_zip_update, E.
    rewrite Nat.min_l by lia. rewrite at_take, decide_True by lia.
    replace (0 + i + 1 - 1)%nat with i by lia.
    rewrite at_zip_update, decide_True by lia. done.
  - left. replace (meet_new_len 0 0 l r') with 0%nat by lia. done.
Qed.

Lemma normal_meet g h : normal g → normal h → normal (meet g h).
Proof.
  unfold normal at 1 3, meet. intros Hg _. cbn [values].
  rewrite length_zip_update, length_grow. cases_bool.
  - apply normal_take_meet. rewrite length_grow. lia.
  - assert (Hgt : (length (values h) < length (values g))%nat) by lia.
    right. rewrite length_zip_update, length_grow.
    rewrite at_zip_update by (rewrite length_grow; lia). rewrite at_grow.
    rewrite decide_False by lia.
    replace (Nat.max _ _ - 1)%nat with (length (values g) - 1)%nat by lia.
    destruct Hg as [Hg|Hg]; [rewrite Hg in Hgt; simpl in Hgt; lia|done].
Qed.

Lemma normal_from_iter ts : normal (from_iter ts).
Proof.
  unfold from_iter. rewrite <- (rev_involutive ts). generalize (rev ts). clear ts.
  induction l as [|t l IH]; [apply normal_new|]. simpl. rewrite foldl_app. simpl.
  by apply normal_observe.
Qed.

End normal.

#[export] Hint Resolve normal_new normal_observe normal_join normal_meet
  normal_from_iter : zed.

(** ** What the tests on version vectors decide *)

Section tests.
Import GlobalOps.
Implicit Types (g h : Global) (r : ReplicaId) (t : Lamport) (v w : list Seq).

Lemma existsb_imap (f : Seq → Seq → bool) (a b : nat → ReplicaId) v w :
  existsb (λ '(l, r), f (value l) (value r))
    (zip (imap (λ i s, mkLamport s (a i)) v) (imap (λ i s, mkLamport s (b i)) w)) =
  existsb (λ '(l, r), f l r) (zip v w).
Proof.
  revert w a b. induction v as [|x v IH]; intros [|y w] a b; simpl; try done.
  f_equal. apply (IH w (a ∘ S) (b ∘ S)).
Qed.

Lemma existsb_iter (f : Seq → Seq → bool) g h :
  existsb (λ '(l, r), f (value l) (value r)) (zip (iter g) (iter h)) =
  existsb (λ '(l, r), f l r) (zip (values g) (values h)).
Proof. apply existsb_imap. Qed.

Lemma forallb_negb {A} (f : A → A → bool) l :
  forallb (λ '(x, y), f x y) l = negb (existsb (λ '(x, y), negb (f x y)) l).
Proof. induction l as [|[x y] l IH]; simpl; [done|]. rewrite IH. by destruct (f x y). Qed.

Lemma existsb_zip (f : Seq → Seq → bool) v w :
  existsb (λ '(l, r), f l r) (zip v w) = true ↔
  ∃ i, (i < length v)%nat ∧ (i < length w)%nat ∧ f (at_ v i) (at_ w i) = true.
Proof.
  revert w. induction v as [|x v IH]; intros [|y w]; simpl.
  1-3: split; [done|intros (?&?&?&?); lia].
  rewrite orb_true_iff, IH. split.
  - intros [H|(i&?&?&?)]; [exists 0%nat|exists (S i)]; (repeat split; [lia|lia|done]).
  - intros ([|i]&?&?&?); [by left|right]. exists i. repeat split; [lia|lia|done].
Qed.

Lemma observed_all_zip g h :
  observed_all g h = true ↔
  (length (values h) ≤ length (values g))%nat ∧ ∀ r, get h r ≤ get g r.
Proof.
  unfold observed_all. cases_bool.
  - split; [done|]. intros [? _]. lia.
  - rewrite (forallb_negb (λ x y : Lamport, value y <=? value x)), negb_true_iff, <- not_true_iff_false.
    rewrite (existsb_iter (λ l r, negb (r <=? l))), existsb_zip. split.
    + intros Hn. split; [lia|]. intros r. rewrite !get_at.
      destruct (decide (N.to_nat r < length (values h))%nat).
      * apply N.nlt_ge. intros Hlt. apply Hn. exists (N.to_nat r).
        split; [lia|]. split; [lia|]. apply negb_true_iff. by apply N.leb_gt.
      * rewrite (at_ge (values h)) by lia. lia.
    + intros [_ Hle] (i & Hi & _ & Hneg). specialize (Hle (N.of_nat i)).
      rewrite !get_at, Nat2N.id in Hle. apply negb_true_iff, N.leb_gt in Hneg. lia.
Qed.

(** [observed_all] is the order of version vectors in canonical form. *)
Lemma observed_all_iff g h :
  normal h → observed_all g h = true ↔ ∀ r, get h r ≤ get g r.
Proof.
  intros Hh. rewrite observed_all_zip. split; [tauto|]. intros H. split; [|done].
  apply normal_at_length; [done|]. intros i Hi. specialize (H (N.of_nat i)).
  rewrite !get_at, Nat2N.id, (at_ge (values g)) in H by done. lia.
Qed.

Lemma global_ext g h : normal g → normal h → (∀ r, get g r = get h r) → g = h.
Proof.
  intros Hg Hh H. pose proof (get_ext_at g h H) as Hat.
  destruct g as [v], h as [w]. f_equal. apply at_ext; [|done]. apply Nat.le_antisymm.
  - apply normal_at_length; [done|]. intros i Hi. simpl in Hat. rewrite Hat. by apply at_ge.
  - apply normal_at_length; [done|]. intros i Hi. simpl in Hat. rewrite <- Hat. by apply at_ge.
Qed.

Lemma observed_any_iff g h :
  observed_any g h = true ↔ ∃ r, 0 < get h r ∧ get h r ≤ get g r.
Proof.
  unfold observed_any.
  rewrite (existsb_iter (λ l r, (0 <? r) && (r <=? l))), existsb_zip. split.
  - intros (i & _ & _ & H). exists (N.of_nat i). rewrite !get_at, Nat2N.id.
    apply andb_true_iff in H as [H1%N.ltb_lt H2%N.leb_le]. done.
  - intros (r & H1 & H2). rewrite !get_at in *. exists (N.to_nat r).
    assert (∀ v, 0 < at_ v (N.to_nat r) → (N.to_nat r < length v)%nat).
    { intros v Hv. destruct (decide (N.to_nat r < length v)%nat); [done|].
      rewrite at_ge in Hv by lia. lia. }
    split; [apply H; lia|]. split; [by apply H|].
    apply andb_true_iff. rewrite N.ltb_lt, N.leb_le. done.
Qed.

Lemma changed_since_iff g h :
  normal g → changed_since g h = true ↔ ∃ r, get h r < get g r.
Proof.
  intros Hg. unfold changed_since. rewrite orb_true_iff, Nat.ltb_lt, existsb_zip.
  split.
  - intros [Hlen|(i & _ & _ & H%N.ltb_lt)].
    + destruct (normal_last (values g) (length (values h)) Hg Hlen) as (j & Hj & Hne).
      exists (N.of_nat j). rewrite !get_at, Nat2N.id, (at_ge (values h)) by done. lia.
    + exists (N.of_nat i). by rewrite !get_at, Nat2N.id.
  - intros (r & H). rewrite !get_at in H.
    destruct (decide (length (values h) < length (values g))%nat); [by left|right].
    destruct (decide (N.to_nat r < length (values g))%nat).
    + exists (N.to_nat r). split; [lia|]. split; [lia|]. by apply N.ltb_lt.
    + rewrite (at_ge (values g)) in H by lia. lia.
Qed.

Lemma observed_iff g t : observed g t = true ↔ value t ≤ get g (replica_id t).
Proof. apply N.leb_le. Qed.

End tests.

(** ** Properties *)

(** The version vectors a replica can hold: built by the operations of the
    interface. *)
Inductive built : Global → Prop :=
  | built_new : built GlobalOps.new
  | built_observe g t : built g → built (GlobalOps.observe g t)
  | built_join g h : built g → built h → built (GlobalOps.join g h)
  | built_meet g h : built g → built h → built (GlobalOps.meet g h).

Lemma built_normal g : built g → normal g.
Proof. induction 1; auto with zed. Qed.
#[export] Hint Resolve built_normal : zed.
#[export] Hint Constructors built : zed.

(** On the version vectors that the operations build, [observed_all] is the
    pointwise order, [changed_since] its strict failure, [observed_any] a common
    observed sequence number, and the derived equality is agreement on every
    replica, although the code compares vector lengths. *)
Theorem version_vector_tests g h :
  built g → built h →
  (GlobalOps.observed_all g h = true ↔ ∀ r, GlobalOps.get h r ≤ GlobalOps.get g r) ∧
  (GlobalOps.changed_since g h = true ↔ ∃ r, GlobalOps.get h r < GlobalOps.get g r) ∧
  (GlobalOps.observed_any g h = true ↔
     ∃ r, 0 < GlobalOps.get h r ∧ GlobalOps.get h r ≤ GlobalOps.get g r) ∧
  (g = h ↔ ∀ r, GlobalOps.get g r = GlobalOps.get h r).
Proof.
  intros Hg Hh. split; [by apply observed_all_iff; auto with zed|].
  split; [by apply changed_since_iff; auto with zed|].
  split; [apply observed_any_iff|].
  split; [by intros ->|]. apply global_ext; auto with zed.
Qed.

Example version_vector_tests_witness :
  let g := GlobalOps.from_iter [mkLamport 3 0; mkLamport 7 2] in
  let h := GlobalOps.from_iter [mkLamport 7 2] in
  built g ∧ built h ∧
  (g = h ↔ ∀ r, GlobalOps.get g r = GlobalOps.get h r).
Proof.
  assert (Hg : built (GlobalOps.from_iter [mkLamport 3 0; mkLamport 7 2])).
  { apply (built_observe (GlobalOps.observe GlobalOps.new (mkLamport 3 0))).
    apply built_observe, built_new. }
  assert (Hh : built (GlobalOps.from_iter [mkLamport 7 2])).
  { apply built_observe, built_new. }
  split; [exact Hg|]. split; [exact Hh|].
  exact (proj2 (proj2 (proj2 (version_vector_tests _ _ Hg Hh)))).
Defined.

Lemma observed_all_trans g h k :
  normal h → normal k →
  GlobalOps.observed_all g h = true → GlobalOps.observed_all h k = true →
  GlobalOps.observed_all g k = true.
Proof.
  intros Hh Hk. rewrite !observed_all_iff by done. intros H1 H2 r.
  etransitivity; [apply H2|apply H1].
Qed.

(** C30: [join] is the least upper bound of two version vectors for
    [observed_all], and [observe] is the join with one timestamp. *)
Theorem join_least_upper_bound g h k :
  built g → built h → built k →
  GlobalOps.observed_all (GlobalOps.join g h) g = true ∧
  GlobalOps.observed_all (GlobalOps.join g h) h = true ∧
  (GlobalOps.observed_all k g = true → GlobalOps.observed_all k h = true →
   GlobalOps.observed_all k (GlobalOps.join g h) = true) ∧
  GlobalOps.join g h = GlobalOps.join h g ∧
  GlobalOps.join (GlobalOps.join g h) k = GlobalOps.join g (GlobalOps.join h k) ∧
  GlobalOps.join g g = g ∧
  (∀ t, GlobalOps.observe g t = GlobalOps.join g (GlobalOps.from_iter [t])).
Proof.
  intros Hg Hh Hk. rewrite !observed_all_iff by auto with zed.
  split_and!.
  1,2: intros r; rewrite get_join; lia.
  - intros H1 H2 r. rewrite get_join. specialize (H1 r). specialize (H2 r). lia.
  - apply global_ext; auto with zed. intros r. rewrite !get_join. lia.
  - apply global_ext; auto 6 with zed. intros r. rewrite !get_join. lia.
  - apply global_ext; auto with zed. intros r. rewrite !get_join. lia.
  - intros t. apply global_ext; auto with zed. intros r.
    rewrite get_join. unfold GlobalOps.from_iter. simpl. rewrite !get_observe.
    cases_bool; rewrite ?get_new; lia.
Qed.

Example join_least_upper_bound_witness :
  let g := GlobalOps.observe GlobalOps.new (mkLamport 3 0) in
  let h := GlobalOps.observe GlobalOps.new (mkLamport 7 2) in
  GlobalOps.join g h = mkGlobal [3; 0; 7] ∧ GlobalOps.join g h = GlobalOps.join h g.
Proof.
  split; [reflexivity|].
  refine (proj1 (proj2 (proj2 (proj2 (join_least_upper_bound
    (GlobalOps.observe GlobalOps.new (mkLamport 3 0))
    (GlobalOps.observe GlobalOps.new (mkLamport 7 2)) GlobalOps.new _ _ _)))));
  repeat constructor.
Defined.

Lemma as_u64_sum t :
  LamportOps.in_range t →
  LamportOps.as_u64 t = value t * 4294967296 + replica_id t ∧
  replica_id t < 4294967296.
Proof.
  intros [_ Hr]. unfold u16_modulus in Hr. split; [|lia].
  unfold LamportOps.as_u64. change 4294967296 with (2 ^ 32).
  rewrite <- (N.shiftl_mul_pow2 (value t) 32).
  assert (Hland : N.land (N.shiftl (value t) 32) (replica_id t) = 0).
  { apply N.bits_inj_0. intros i. rewrite N.land_spec.
    destruct (N.ltb_spec i 32).
    - by rewrite N.shiftl_spec_low.
    - rewrite (N.bits_above_log2 (replica_id t)); [apply andb_false_r|].
      destruct (decide (replica_id t = 0)) as [->|]; [simpl; lia|].
      apply N.log2_lt_pow2; [lia|]. apply N.lt_le_trans with (2 ^ 32).
      + simpl. lia.
      + apply N.pow_le_mono_r; lia. }
  rewrite <- N.lxor_lor by done. by rewrite N.add_nocarry_lxor.
Qed.

(** The clock that stamps operations: packing a timestamp into a [u64] keeps
    the order that decides between concurrent edits, a tick hands out a timestamp
    below everything the clock hands out later, and observing a remote timestamp
    puts the clock above it, as long as the sequence number does not overflow. *)
Theorem lamport_clock a b :
  LamportOps.in_range a → LamportOps.in_range b →
  (LamportOps.as_u64 a ?= LamportOps.as_u64 b) = LamportOps.cmp a b ∧
  (N.max (value a) (value b) + 1 < u32_modulus →
   LamportOps.cmp (LamportOps.tick a).1 (LamportOps.tick a).2 = Lt ∧
   LamportOps.cmp a (LamportOps.observe a b) = Lt ∧
   LamportOps.cmp b (LamportOps.observe a b) = Lt ∧
   LamportOps.in_range (LamportOps.observe a b) ∧
   replica_id (LamportOps.observe a b) = replica_id a).
Proof.
  intros Ha Hb. destruct (as_u64_sum a Ha) as [-> Ha']. destruct (as_u64_sum b Hb) as [-> Hb'].
  split.
  - unfold LamportOps.cmp. destruct (N.compare_spec (value a) (value b)) as [E|E|E]; simpl.
    + rewrite E. destruct (N.compare_spec (replica_id a) (replica_id b));
        [apply N.compare_eq_iff|apply N.compare_lt_iff|apply N.compare_gt_iff]; lia.
    + apply N.compare_lt_iff. nia.
    + apply N.compare_gt_iff. nia.
  - intros Hmax. unfold LamportOps.cmp, LamportOps.tick, LamportOps.observe.
    simpl. rewrite !u32_add_small by lia.
    assert (∀ x y d, x < y → then_with (x ?= y) d = Lt) as Hlt.
    { intros x y d Hxy. apply N.compare_lt_iff in Hxy. by rewrite Hxy. }
    split_and!; try (apply Hlt; lia); [|done].
    split; simpl; [lia|apply Ha].
Qed.

Example lamport_clock_witness :
  LamportOps.as_u64 (mkLamport 2 1) = 8589934593 ∧
  (LamportOps.as_u64 (mkLamport 2 1) ?= LamportOps.as_u64 (mkLamport 2 8)) =
  LamportOps.cmp (mkLamport 2 1) (mkLamport 2 8).
Proof.
  split; [reflexivity|].
  apply (lamport_clock (mkLamport 2 1) (mkLamport 2 8)); split; reflexivity.
Defined.
