(* ===== verification/Locator.v ===== *)
(** * Fractional identifiers: [crates/text/src/locator.rs]

    A [Locator] names the place of a fragment in the buffer. New fragments get an
    identifier strictly between those of their neighbours. *)

From S2P Require Import Prelude.

Open Scope N_scope.

Definition u64_modulus : N := 18446744073709551616.
Definition u64_max : N := u64_modulus - 1.

(** The derived [Ord] of a slice: lexicographic, a proper prefix first. *)
Fixpoint slice_cmp (a b : list N) : comparison :=
  match a, b with
  | [], [] => Eq
  | [], _ :: _ => Lt
  | _ :: _, [] => Gt
  | x :: a, y :: b => then_with (x ?= y) (slice_cmp a b)
  end.

Record Locator := mkLocator { digits : list N }.

#[export] Instance Locator_eq_dec : EqDecision Locator.
Proof. solve_decision. Defined.

Module LocatorOps.

Definition min : Locator := mkLocator [0].
Definition max : Locator := mkLocator [u64_max].

Definition cmp (a b : Locator) : comparison := slice_cmp (digits a) (digits b).

(** [assign] overwrites [self] with the digits of [other]. *)
Definition assign (self other : Locator) : Locator :=
  mkLocator (digits other).

(** The loop of [between] over the two infinitely padded digit sequences,
    zero on the left and [u64::MAX] on the right. [saturating_sub] on [u64] is
    the truncated subtraction of [N]. *)
Fixpoint between_loop (fuel : nat) (lhs rhs : list N) : option (list N) :=
  match fuel with
  | O => None
  | S fuel =>
      let l := hd 0 lhs in
      let r := hd u64_max rhs in
      let mid := l + N.shiftr (r - l) 48 in
      if l <? mid then Some [mid]
      else cons mid <$> between_loop fuel (tail lhs) (tail rhs)
  end.

(** The loop stops at the latest one digit after both sequences end. *)
Definition between_fuel (lhs rhs : Locator) : nat :=
  S (Nat.max (length (digits lhs)) (length (digits rhs))).

Definition between (lhs rhs : Locator) : Locator :=
  mkLocator (default [] (between_loop (between_fuel lhs rhs) (digits lhs) (digits rhs))).

Definition len (l : Locator) : nat := length (digits l).
Definition is_empty (l : Locator) : bool := (len l =? 0)%nat.

End LocatorOps.

(** ** The order on digit sequences *)

#[export] Instance slice_cmp_total : TotalOrd slice_cmp.
Proof.
  split.
  - induction a as [|x a IH]; intros [|y b]; simpl; try done.
    destruct (N.compare_spec x y); simpl; [|split; [done|intros; simplify_eq; lia]..].
    rewrite IH. split; [by intros ->; subst|by intros [= ? ?]].
  - induction a as [|x a IH]; intros [|y b]; simpl; try done.
    rewrite (ord_antisym N.compare x y), (IH b). by destruct (x ?= y).
  - induction a as [|x a IH]; intros [|y b] [|z c]; simpl; try done.
    destruct (N.compare_spec x y), (N.compare_spec y z); simpl; try done; subst;
      intros H1 H2.
    + rewrite N.compare_refl. simpl. eauto.
    + by rewrite (proj2 (N.compare_lt_iff y z)).
    + by rewrite (proj2 (N.compare_lt_iff x z)).
    + by rewrite (proj2 (N.compare_lt_iff x z)) by lia.
Qed.

#[export] Instance Locator_cmp_total : TotalOrd LocatorOps.cmp.
Proof.
  unfold LocatorOps.cmp. split.
  - intros [a] [b]; simpl. rewrite (ord_eq slice_cmp). split; [by intros ->|by intros [=]].
  - intros a b. apply (ord_antisym slice_cmp).
  - intros a b c. apply (ord_lt_trans slice_cmp).
Qed.

(** Every identifier but [min] ends in a non-zero digit: [between] makes them so. *)
Definition ends_pos (l : list N) : Prop := l ≠ [] ∧ last l ≠ Some 0.
Definition in_u64 (l : list N) : Prop := Forall (λ d, d < u64_modulus) l.

Section between.
Import LocatorOps.

Lemma shiftr48_lt d : 0 < d → N.shiftr d 48 < d.
Proof.
  intros Hd. rewrite N.shiftr_div_pow2. apply N.div_lt; [done|]. by compute.
Qed.

Lemma shiftr48_le d : N.shiftr d 48 ≤ d.
Proof.
  destruct (decide (d = 0)) as [->|]; [done|]. pose proof (shiftr48_lt d). lia.
Qed.

Lemma between_loop_gt n l r m : between_loop n l r = Some m → slice_cmp l m = Lt.
Proof.
  revert l r m. induction n as [|n IH]; intros l r m; simpl; [done|].
  destruct (N.ltb_spec (hd 0 l) (hd 0 l + N.shiftr (hd u64_max r - hd 0 l) 48)) as [Hlt|Hge].
  - intros [= <-]. destruct l as [|x l]; simpl in *; [done|].
    by rewrite (proj2 (N.compare_lt_iff x _)) by done.
  - intros (m' & Hm & ->)%fmap_Some. destruct l as [|x l]; simpl in *; [done|].
    rewrite (proj2 (N.compare_eq_iff x _)) by lia. simpl. by eapply IH.
Qed.

Lemma ends_pos_tail x l : l ≠ [] → ends_pos (x :: l) → ends_pos l.
Proof. intros Hl [_ H]. by destruct l. Qed.

Lemma between_loop_lt n l r m :
  slice_cmp l r = Lt → ends_pos r →
  between_loop n l r = Some m → slice_cmp m r = Lt.
Proof.
  revert l r m. induction n as [|n IH]; intros l [|b r] m Hlr Hr; simpl; try done.
  { by destruct l. }
  assert (Hnil : hd 0 l < b ∨ hd 0 l = b ∧ slice_cmp (tail l) r = Lt).
  { destruct l as [|a l]; simpl in *.
    - destruct (decide (b = 0)) as [->|]; [right|left; lia].
      split; [done|]. destruct r; [by destruct Hr|done].
    - destruct (N.compare_spec a b); simpl in *; [by right|by left|done]. }
  set (d := b - hd 0 l).
  destruct (N.ltb_spec (hd 0 l) (hd 0 l + N.shiftr d 48)) as [Hlt|Hge].
  - intros [= <-]. simpl. pose proof (shiftr48_lt d) as Hd.
    rewrite (proj2 (N.compare_lt_iff _ b)); [done|].
    destruct Hnil as [H|[H _]]; [lia|]. subst d. rewrite H, N.sub_diag, N.shiftr_0_l in Hlt. lia.
  - intros (m' & Hm & ->)%fmap_Some. simpl.
    destruct Hnil as [H|[H Ht]].
    + by rewrite (proj2 (N.compare_lt_iff _ b)) by lia.
    + rewrite (proj2 (N.compare_eq_iff _ b)) by lia. simpl.
      eapply IH; [exact Ht| |exact Hm]. eapply ends_pos_tail; [|exact Hr].
      intros ->. by destruct (tail l).
Qed.

Lemma between_loop_ends n l r m : between_loop n l r = Some m → ends_pos m.
Proof.
  revert l r m. induction n as [|n IH]; intros l r m; simpl; [done|].
  destruct (N.ltb_spec (hd 0 l) (hd 0 l + N.shiftr (hd u64_max r - hd 0 l) 48)).
  - intros [= <-]. split; [done|]. simpl. intros [=]. lia.
  - intros (m' & Hm & ->)%fmap_Some. destruct (IH _ _ _ Hm) as [H1 H2].
    split; [done|]. by destruct m'.
Qed.

Lemma hd_bound d l : d < u64_modulus → in_u64 l → hd d l < u64_modulus.
Proof. intros Hd Hl. destruct l; [done|]. by inversion Hl. Qed.

Lemma between_loop_u64 n l r m :
  in_u64 l → in_u64 r → between_loop n l r = Some m → in_u64 m.
Proof.
  revert l r m. induction n as [|n IH]; intros l r m Hl Hr; simpl; [done|].
  assert (hd 0 l < u64_modulus) by (by apply hd_bound).
  assert (hd u64_max r < u64_modulus) by (by apply hd_bound).
  pose proof (shiftr48_le (hd u64_max r - hd 0 l)).
  assert (hd 0 l + N.shiftr (hd u64_max r - hd 0 l) 48 < u64_modulus) by lia.
  destruct (N.ltb_spec (hd 0 l) (hd 0 l + N.shiftr (hd u64_max r - hd 0 l) 48)).
  - intros [= <-]. by repeat constructor.
  - intros (m' & Hm & ->)%fmap_Some. constructor; [done|].
    eapply IH; [| |exact Hm]; by apply Forall_tail.
Qed.

Lemma between_loop_total n l r :
  (length l < n)%nat → (length r < n)%nat →
  ∃ m, between_loop n l r = Some m ∧ (length m ≤ n)%nat.
Proof.
  revert l r. induction n as [|n IH]; intros l r Hl Hr; simpl; [lia|].
  destruct (N.ltb_spec (hd 0 l) (hd 0 l + N.shiftr (hd u64_max r - hd 0 l) 48)) as [|Hge].
  - eexists. split; [done|]. simpl. lia.
  - assert (length l ≠ 0 ∨ length r ≠ 0)%nat as Hne.
    { destruct l, r; simpl; try lia. by compute in Hge. }
    destruct (IH (tail l) (tail r)) as (m & -> & Hm).
    1,2: destruct l, r; simpl in *; lia.
    eexists. split; [done|]. simpl. lia.
Qed.

Lemma between_digits l r :
  between_loop (between_fuel l r) (digits l) (digits r) = Some (digits (between l r)) ∧
  (len (between l r) ≤ between_fuel l r)%nat.
Proof.
  destruct (between_loop_total (between_fuel l r) (digits l) (digits r)) as (m & Hm & Hlen);
    unfold between_fuel; try lia.
  unfold between, len. fold (between_fuel l r). rewrite Hm. done.
Qed.

End between.

(** Identifiers as the buffer holds them. *)
Definition locator_ok (l : Locator) : Prop := ends_pos (digits l) ∧ in_u64 (digits l).

Lemma between_ok l r :
  in_u64 (digits l) → in_u64 (digits r) → locator_ok (LocatorOps.between l r).
Proof.
  intros Hl Hr. destruct (between_digits l r) as [E _]. split.
  - by eapply between_loop_ends.
  - by eapply between_loop_u64; [| |exact E].
Qed.

Lemma between_lower l r : LocatorOps.cmp l (LocatorOps.between l r) = Lt.
Proof. destruct (between_digits l r) as [E _]. by eapply between_loop_gt. Qed.

Lemma between_upper l r :
  LocatorOps.cmp l r = Lt → ends_pos (digits r) →
  LocatorOps.cmp (LocatorOps.between l r) r = Lt.
Proof.
  intros Hlr Hr. destruct (between_digits l r) as [E _]. by eapply between_loop_lt.
Qed.

Lemma max_ok : locator_ok LocatorOps.max.
Proof. split; [done|]. by repeat constructor. Qed.
Lemma min_u64 : in_u64 (digits LocatorOps.min).
Proof. by repeat constructor. Qed.

#[export] Hint Resolve between_lower between_upper max_ok min_u64 between_ok : zed.

(** ** Properties *)

(** C31: [between] returns an identifier strictly between two ordered ones, never
    overflows a [u64] digit, terminates within one digit of the longer argument,
    and its result ends in a non-zero digit, so it can bound a later call. *)
Theorem between_strict l r :
  in_u64 (digits l) → locator_ok r → LocatorOps.cmp l r = Lt →
  LocatorOps.cmp l (LocatorOps.between l r) = Lt ∧
  LocatorOps.cmp (LocatorOps.between l r) r = Lt ∧
  locator_ok (LocatorOps.between l r) ∧
  (LocatorOps.len (LocatorOps.between l r)
     ≤ S (Nat.max (LocatorOps.len l) (LocatorOps.len r)))%nat.
Proof.
  intros Hl [Hr Hr'] Hlr.
  split; [auto with zed|]. split; [auto with zed|]. split; [auto with zed|].
  apply between_digits.
Qed.

Example between_strict_witness :
  LocatorOps.between LocatorOps.min LocatorOps.max = mkLocator [65535] ∧
  LocatorOps.cmp LocatorOps.min (LocatorOps.between LocatorOps.min LocatorOps.max) = Lt.
Proof.
  split; [vm_compute; reflexivity|].
  apply (between_strict LocatorOps.min LocatorOps.max); [apply min_u64|apply max_ok|].
  reflexivity.
Defined.

(** The non-zero last digit is needed: of two ordered sequences of digits such as
    the ones of the unit test [test_locators], the second may end in zeros, and then
    the result lies above it. *)
Lemma between_above_zero_digit :
  LocatorOps.cmp (mkLocator [5]) (mkLocator [5; 0]) = Lt ∧
  LocatorOps.cmp (mkLocator [5; 0])
    (LocatorOps.between (mkLocator [5]) (mkLocator [5; 0])) = Lt.
Proof. by vm_compute. Qed.

(** *** Depth under sequential typing *)

Definition append_after (n : nat) (prev : Locator) : Locator :=
  Nat.iter n (λ p, LocatorOps.between p LocatorOps.max) prev.

Lemma between_one_digit a b :
  a + 281474976710656 ≤ b →
  LocatorOps.between (mkLocator [a]) (mkLocator [b])
  = mkLocator [a + N.shiftr (b - a) 48].
Proof.
  intros Hab. unfold LocatorOps.between. simpl.
  destruct (N.ltb_spec a (a + N.shiftr (b - a) 48)) as [|Hge]; [done|].
  exfalso. rewrite N.shiftr_div_pow2 in Hge.
  assert (1 ≤ (b - a) / 2 ^ 48); [|lia].
  apply N.div_le_lower_bound; [done|]. change (2 ^ 48) with 281474976710656. lia.
Qed.

Lemma append_after_digit n :
  N.of_nat n ≤ 281470681743360 →
  ∃ a, append_after n LocatorOps.min = mkLocator [a] ∧ a ≤ N.of_nat n * 65535.
Proof.
  induction n as [|n IH]; intros Hn; [exists 0; split; [done|lia]|].
  destruct IH as (a & E & Ha); [lia|]. unfold append_after in *. simpl. rewrite E.
  unfold LocatorOps.max. rewrite between_one_digit by (unfold u64_max, u64_modulus; lia).
  eexists. split; [done|].
  assert (N.shiftr (u64_max - a) 48 ≤ 65535); [|lia].
  rewrite N.shiftr_div_pow2. change (2 ^ 48) with 281474976710656.
  apply N.lt_succ_r. apply N.div_lt_upper_bound; [done|]. unfold u64_max, u64_modulus. lia.
Qed.

(** Chaining new fragments one after the other at the end of a buffer keeps
    identifiers one digit long for the first 281470681743360 insertions: what the
    shift by 48 bits is for. *)
Theorem sequential_append_depth n :
  N.of_nat n ≤ 281470681743360 →
  LocatorOps.len (append_after n LocatorOps.min) = 1%nat.
Proof. intros Hn. by destruct (append_after_digit n Hn) as (a & -> & _). Qed.

Example sequential_append_depth_witness :
  append_after 3 LocatorOps.min = mkLocator [196605] ∧
  LocatorOps.len (append_after 3 LocatorOps.min) = 1%nat.
Proof. split; [vm_compute; reflexivity|]. apply sequential_append_depth. by compute. Defined.
