(* ===== verification/Patch.v ===== *)
(** * Patches: [crates/text/src/patch.rs], [crates/text/src/subscription.rs]

    A [Patch] is a list of edits between an old and a new version of a text.
    [compose] merges two consecutive patches, [Topic::publish] composes the
    edits of a buffer into every live subscription. *)

From stdpp Require Import sets relations.
From S2P Require Import Prelude.

Open Scope N_scope.

(** ** Edits *)

Record Edit (D : Type) := mkEdit { old : Range D; new : Range D }.
Arguments mkEdit {D} _ _.
Arguments old {D} _.
Arguments new {D} _.

#[export] Instance Edit_eq_dec {D} `{!EqDecision D} : EqDecision (Edit D).
Proof. solve_decision. Defined.

Module EditOps.

Definition is_empty (e : Edit N) : bool :=
  (start (old e) =? stop (old e)) && (start (new e) =? stop (new e)).

Definition old_len (e : Edit N) : option N := usize_sub (stop (old e)) (start (old e)).
Definition new_len (e : Edit N) : option N := usize_sub (stop (new e)) (start (new e)).

Definition flatten {D1 D2} (e : Edit (D1 * D2)) : Edit D1 * Edit D2 :=
  (mkEdit ((start (old e)).1 ..: (stop (old e)).1) ((start (new e)).1 ..: (stop (new e)).1),
   mkEdit ((start (old e)).2 ..: (stop (old e)).2) ((start (new e)).2 ..: (stop (new e)).2)).

End EditOps.

(** ** Patches of [usize] positions *)

Abbreviation Patch := (list (Edit N)) (only parsing).

Module PatchOps.

Definition empty : Patch := [].

(** The assertions of [Patch::new] in a debug build. *)
Fixpoint new_assertions (last_edit : option (Edit N)) (edits : list (Edit N)) : bool :=
  match edits with
  | [] => true
  | edit :: edits =>
      match last_edit with
      | Some last_edit => (stop (old last_edit) <? start (old edit))
                          && (stop (new last_edit) <? start (new edit))
      | None => true
      end && new_assertions (Some edit) edits
  end.

Definition new (edits : list (Edit N)) : option Patch :=
  if new_assertions None edits then Some edits else None.

Definition invert (p : Patch) : Patch :=
  map (λ e, mkEdit (Patch.new e) (old e)) p.

Definition is_empty (p : Patch) : bool :=
  match p with [] => true | _ => false end.

Definition push_maybe_empty (p : Patch) (edit : Edit N) : Patch :=
  match last p with
  | Some l =>
      if start (old edit) <=? stop (old l) then
        alter (λ l, mkEdit (start (old l) ..: stop (old edit))
                           (start (Patch.new l) ..: stop (Patch.new edit)))
              (pred (length p)) p
      else p ++ [edit]
  | None => p ++ [edit]
  end.

Definition push (p : Patch) (edit : Edit N) : Patch :=
  if EditOps.is_empty edit then p else push_maybe_empty p edit.

(** *** [compose] *)

(** The local variables of the loop. The two peekable iterators are the lists
    of the edits that are left; [peek_mut] updates their heads. *)
Record compose_state := mkCompose {
  old_edits : list (Edit N);
  new_edits : list (Edit N);
  composed : Patch;
  old_start : N;
  new_start : N }.

(** [composed.push(..)] followed by the two assignments to the positions. *)
Definition emit (s : compose_state) (old_start' new_start' old_end new_end : N)
    (os ns : list (Edit N)) : compose_state :=
  mkCompose os ns
    (push (composed s) (mkEdit (old_start' ..: old_end) (new_start' ..: new_end)))
    old_end new_end.

Definition push_old (s : compose_state) (old_edit : Edit N) (os : list (Edit N)) :
    option compose_state :=
  catchup ← usize_sub (start (old old_edit)) (old_start s);
  let o := old_start s + catchup in
  let n := new_start s + catchup in
  ol ← EditOps.old_len old_edit;
  nl ← EditOps.new_len old_edit;
  Some (emit s o n (o + ol) (n + nl) os (new_edits s)).

Definition push_new (s : compose_state) (new_edit : Edit N) (ns : list (Edit N)) :
    option compose_state :=
  catchup ← usize_sub (start (Patch.new new_edit)) (new_start s);
  let o := old_start s + catchup in
  let n := new_start s + catchup in
  ol ← EditOps.old_len new_edit;
  nl ← EditOps.new_len new_edit;
  Some (emit s o n (o + ol) (n + nl) (old_edits s) ns).

(** The first half of the intersecting case: up to the later of the two
    starts. Both heads stay, one of them shortened. *)
Definition align (s : compose_state) (oe ne : Edit N) (os ns : list (Edit N)) :
    option compose_state :=
  if start (Patch.new oe) <? start (old ne) then
    catchup ← usize_sub (start (old oe)) (old_start s);
    let o := old_start s + catchup in
    let n := new_start s + catchup in
    overshoot ← usize_sub (start (old ne)) (start (Patch.new oe));
    let old_end := N.min (o + overshoot) (stop (old oe)) in
    let new_end := n + overshoot in
    let oe' := mkEdit (old_end ..: stop (old oe))
                 (start (Patch.new oe) + overshoot ..: stop (Patch.new oe)) in
    Some (emit s o n old_end new_end (oe' :: os) (ne :: ns))
  else
    catchup ← usize_sub (start (Patch.new ne)) (new_start s);
    let o := old_start s + catchup in
    let n := new_start s + catchup in
    overshoot ← usize_sub (start (Patch.new oe)) (start (old ne));
    let old_end := o + overshoot in
    let new_end := N.min (n + overshoot) (stop (Patch.new ne)) in
    let ne' := mkEdit (start (old ne) + overshoot ..: stop (old ne))
                 (new_end ..: stop (Patch.new ne)) in
    Some (emit s o n old_end new_end (oe :: os) (ne' :: ns)).

(** The second half: up to the earlier of the two ends, consuming that edit. *)
Definition consume (s : compose_state) (oe ne : Edit N) (os ns : list (Edit N)) :
    option compose_state :=
  ool ← EditOps.old_len oe;
  onl ← EditOps.new_len oe;
  nol ← EditOps.old_len ne;
  nnl ← EditOps.new_len ne;
  if stop (old ne) <? stop (Patch.new oe) then
    let old_end := old_start s + N.min ool nol in
    let new_end := new_start s + nnl in
    let oe' := mkEdit (old_end ..: stop (old oe)) (stop (old ne) ..: stop (Patch.new oe)) in
    Some (emit s (old_start s) (new_start s) old_end new_end (oe' :: os) ns)
  else
    let old_end := old_start s + ool in
    let new_end := new_start s + N.min onl nnl in
    let ne' := mkEdit (stop (Patch.new oe) ..: stop (old ne)) (new_end ..: stop (Patch.new ne)) in
    Some (emit s (old_start s) (new_start s) old_end new_end os (ne' :: ns)).

Definition intersect (s : compose_state) (oe ne : Edit N) (os ns : list (Edit N)) :
    option compose_state :=
  s ← align s oe ne os ns;
  match old_edits s, new_edits s with
  | oe :: os, ne :: ns => consume s oe ne os ns
  | _, _ => None
  end.

(** One iteration; [Some None] is the [break]. *)
Definition compose_step (s : compose_state) : option (option compose_state) :=
  match old_edits s, new_edits s with
  | [], [] => Some None
  | oe :: os, [] => Some <$> push_old s oe os
  | [], ne :: ns => Some <$> push_new s ne ns
  | oe :: os, ne :: ns =>
      if stop (Patch.new oe) <? start (old ne) then Some <$> push_old s oe os
      else if stop (old ne) <? start (Patch.new oe) then Some <$> push_new s ne ns
      else Some <$> intersect s oe ne os ns
  end.

Fixpoint compose_loop (fuel : nat) (s : compose_state) : option Patch :=
  match fuel with
  | O => None
  | S fuel =>
      r ← compose_step s;
      match r with
      | None => Some (composed s)
      | Some s => compose_loop fuel s
      end
  end.

(** Every iteration consumes an edit, so one more iteration than there are
    edits reaches the [break]. [None] is an arithmetic panic. *)
Definition compose (p : Patch) (new_edits : list (Edit N)) : option Patch :=
  compose_loop (S (length p + length new_edits)) (mkCompose p new_edits [] 0 0).

(** *** Position maps *)

(** [binary_search_by(|probe| probe.old.start.cmp(&old))] followed by the match
    on its result: the last edit that starts at or before [old]. *)
Fixpoint partition_point (p : Patch) (pos : N) : nat :=
  match p with
  | e :: p => if start (old e) <? pos then S (partition_point p pos) else O
  | [] => O
  end.

Definition search_ix (p : Patch) (pos : N) : option nat :=
  let ix := partition_point p pos in
  match p !! ix with
  | Some e => if start (old e) =? pos then Some ix
              else match ix with O => None | S ix => Some ix end
  | None => match ix with O => None | S ix => Some ix end
  end.

Definition old_to_new (p : Patch) (pos : N) : N :=
  match search_ix p pos with
  | None => pos
  | Some ix =>
      match p !! ix with
      | Some edit =>
          if stop (old edit) <=? pos then stop (Patch.new edit) + (pos - stop (old edit))
          else start (Patch.new edit)
      | None => pos
      end
  end.

Definition edit_for_old_position (p : Patch) (pos : N) : Edit N :=
  match search_ix p pos with
  | None => mkEdit (pos ..: pos) (pos ..: pos)
  | Some ix =>
      match p !! ix with
      | Some edit =>
          if stop (old edit) <? pos then
            let translated := stop (Patch.new edit) + (pos - stop (old edit)) in
            mkEdit (pos ..: pos) (translated ..: translated)
          else edit
      | None => mkEdit (pos ..: pos) (pos ..: pos)
      end
  end.

(** The closure gets the edit by mutable reference: it returns the edit as it
    leaves it, and whether to keep it. *)
Definition retain_mut (f : Edit N → Edit N * bool) (p : Patch) : Patch :=
  omap (λ e, let '(e, keep) := f e in if keep then Some e else None) p.

End PatchOps.

(** ** Subscriptions

    A subscription owns a cell with a patch; the topic keeps weak references.
    [cells !! i] is [Some (Some p)] while subscription [i] is alive and
    [Some None] once it has been dropped. *)
Record Topics := mkTopics { cells : list (option Patch); topic : list nat }.

Module TopicOps.

Definition subscribe (t : Topics) : nat * Topics :=
  let subscription := length (cells t) in
  (subscription, mkTopics (cells t ++ [Some []]) (topic t ++ [subscription])).

(** The closure that [publish] passes to [retain], over all the references. *)
Fixpoint publish_retain (cs : list (option Patch)) (subscriptions : list nat)
    (edits : list (Edit N)) : option (list (option Patch) * list nat) :=
  match subscriptions with
  | [] => Some (cs, [])
  | i :: subscriptions =>
      match cs !! i with
      | Some (Some patch) =>
          patch' ← PatchOps.compose patch edits;
          '(cs, kept) ← publish_retain (<[i := Some patch']> cs) subscriptions edits;
          Some (cs, i :: kept)
      | _ => publish_retain cs subscriptions edits
      end
  end.

Definition publish (t : Topics) (edits : list (Edit N)) : option Topics :=
  '(cs, kept) ← publish_retain (cells t) (topic t) edits;
  Some (mkTopics cs kept).

(** [mem::take] on the cell of a live subscription. *)
Definition consume (t : Topics) (i : nat) : option (Patch * Topics) :=
  match cells t !! i with
  | Some (Some p) => Some (p, mkTopics (<[i := Some []]> (cells t)) (topic t))
  | _ => None
  end.

(** The owner drops its [Subscription]. *)
Definition drop (t : Topics) (i : nat) : Topics :=
  mkTopics (<[i := None]> (cells t)) (topic t).

End TopicOps.

(** ** What a patch says about two texts

    [patched o n p a b]: from position [o] of the old text, whose rest is [a],
    and position [n] of the new text, whose rest is [b], the edits [p] replace
    parts of [a] and leave the gaps between them alone. *)
Inductive patched {X} : N → N → Patch → list X → list X → Prop :=
| patched_nil o n a : patched o n [] a a
| patched_cons o n gap del ins p a b o' n' o'' n'' :
    o' = o + len gap → n' = n + len gap →
    o'' = o' + len del → n'' = n' + len ins →
    patched o'' n'' p a b →
    patched o n (mkEdit (o' ..: o'') (n' ..: n'') :: p) (gap ++ del ++ a) (gap ++ ins ++ b).

#[export] Hint Constructors patched : zed.

(** Edits do not touch: what [Patch::new] asserts. *)
Definition separated (p : Patch) : Prop :=
  ∀ i e f, p !! i = Some e → p !! S i = Some f →
    stop (old e) < start (old f) ∧ stop (new e) < start (new f).

Section patched.
Context {X : Type}.
Implicit Types (a b c : list X).

Lemma patched_invert o n p a b :
  patched o n p a b → patched n o (PatchOps.invert p) b a.
Proof. induction 1; simpl; econstructor; eauto. Qed.

Lemma patched_uninvert o n p a b :
  patched n o (PatchOps.invert p) b a → patched o n p a b.
Proof.
  intros H. apply patched_invert in H. revert H. unfold PatchOps.invert.
  rewrite map_map. rewrite (map_ext _ id), map_id; [done|by intros [[] []]].
Qed.

Lemma patched_nil_inv o n a b : patched o n [] a b → a = b.
Proof. by inversion 1. Qed.

Lemma patched_cons_inv o n e p a b :
  patched o n (e :: p) a b →
  ∃ gap del ins a' b',
    e = mkEdit (o + len gap ..: o + len gap + len del) (n + len gap ..: n + len gap + len ins) ∧
    a = gap ++ del ++ a' ∧ b = gap ++ ins ++ b' ∧
    patched (o + len gap + len del) (n + len gap + len ins) p a' b'.
Proof. inversion 1; subst. do 5 eexists. eauto. Qed.

(** An unchanged stretch of the old text is read off the new one. *)
Lemma patched_skip o n p x a b :
  patched o n p (x ++ a) b →
  match p with [] => True | e :: _ => o + len x <= start (old e) end →
  ∃ b', b = x ++ b' ∧ patched (o + len x) (n + len x) p a b'.
Proof.
  intros H. inversion H as [? ? ?|? ? gap del ins p' ? ? ? ? ? ? Ho Hn Ho' Hn' Hp]; subst.
  - intros _. exists a. split; [done|constructor].
  - simpl. intros Hle. assert (len x <= len gap) as Hl by lia.
    match goal with E : _ ++ _ = x ++ a |- _ => rename E into Happ end.
    apply app_eq_inv in Happ as [(k & Hg & Ha)|(k & Hg & Ha)]; clear H; subst.
    + rewrite <- app_assoc. eexists. split; [done|].
      apply patched_cons; len_lia || done.
    + destruct k as [|y k]; [|len_lia].
      rewrite app_nil_r in *. simpl in Ha. subst. eexists. split; [done|].
      apply (patched_cons _ _ [] del ins); rewrite ?len_nil; lia || done.
Qed.

Lemma patched_extend o n p a b g :
  patched o n p a b → patched o n p (a ++ g) (b ++ g).
Proof. induction 1; rewrite <- ?app_assoc; econstructor; eauto. Qed.

Lemma patched_snoc o n p a b del ins :
  patched o n p a b →
  patched o n (p ++ [mkEdit (o + len a ..: o + len a + len del) (n + len b ..: n + len b + len ins)])
    (a ++ del) (b ++ ins).
Proof.
  intros H. remember (len del) as d eqn:Hd. remember (len ins) as i eqn:Hi.
  induction H; simpl.
  - rewrite <- (app_nil_r del), <- (app_nil_r ins).
    apply patched_cons; subst; done || constructor.
  - rewrite <- !app_assoc. apply patched_cons; [done..|]. subst.
    match goal with IH : patched _ _ _ _ _ |- patched _ _ (_ ++ [?e]) _ _ =>
      match type of IH with patched _ _ (_ ++ [?e']) _ _ => replace e with e'; [done|] end end.
    autorewrite with len. f_equal; f_equal; lia.
Qed.

Lemma patched_snoc_inv o n p l a b :
  patched o n (p ++ [l]) a b →
  ∃ a1 b1 del ins g, a = a1 ++ del ++ g ∧ b = b1 ++ ins ++ g ∧ patched o n p a1 b1 ∧
    l = mkEdit (o + len a1 ..: o + len a1 + len del) (n + len b1 ..: n + len b1 + len ins).
Proof.
  revert o n a b. induction p as [|e p IH]; intros o n a b H; simpl in H;
    apply patched_cons_inv in H as (gap & del & ins & a' & b' & -> & -> & -> & H).
  - apply patched_nil_inv in H as ->. exists gap, gap, del, ins, b'. split_and!; try done. constructor.
  - apply IH in H as (a1 & b1 & del' & ins' & g & -> & -> & Hp & ->).
    exists (gap ++ del ++ a1), (gap ++ ins ++ b1), del', ins', g.
    rewrite <- !app_assoc. split_and!; [done..| |].
    + by apply patched_cons.
    + autorewrite with len. f_equal; f_equal; lia.
Qed.

End patched.

(** ** Building a patch *)

Lemma alter_snoc {A} (f : A → A) l x :
  alter f (pred (length (l ++ [x]))) (l ++ [x]) = l ++ [f x].
Proof.
  rewrite length_app, Nat.add_1_r. simpl.
  rewrite alter_app_r_alt by lia. by rewrite Nat.sub_diag.
Qed.

Lemma separated_snoc p e :
  separated (p ++ [e]) ↔
  separated p ∧ ∀ l, last p = Some l → stop (old l) < start (old e) ∧ stop (new l) < start (new e).
Proof.
  unfold separated. split.
  - intros H. split.
    + intros i x y Hx Hy. apply (H i); by apply lookup_app_l_Some.
    + intros l Hl. rewrite last_lookup in Hl. apply (H (pred (length p))).
      * by apply lookup_app_l_Some.
      * assert (length p ≠ 0)%nat by (by destruct p).
        rewrite lookup_app_r by lia. by replace (S (pred (length p)) - length p)%nat with 0%nat by lia.
  - intros [H Hl] i x y Hx Hy.
    destruct (decide (S i < length p)%nat) as [Hi|Hi].
    + rewrite lookup_app_l in Hx, Hy by lia. by eapply H.
    + apply lookup_lt_Some in Hy as Hlt. rewrite length_app in Hlt. simpl in Hlt.
      assert (S i = length p) as Hp by lia.
      rewrite lookup_app_l in Hx by lia. rewrite lookup_app_r in Hy by lia.
      rewrite Hp, Nat.sub_diag in Hy. injection Hy as <-. apply Hl.
      rewrite last_lookup. by rewrite <- Hp.
Qed.

Lemma new_assertions_separated p l :
  separated (option_list l ++ p) → PatchOps.new_assertions l p = true.
Proof.
  revert l. induction p as [|e p IH]; intros l H; simpl; [done|].
  rewrite IH.
  - rewrite andb_true_r. destruct l as [l|]; [|done].
    destruct (H 0%nat l e) as [H1 H2]; [done..|].
    apply andb_true_iff. by rewrite !N.ltb_lt.
  - intros i x y Hx Hy. destruct l as [l|]; [|by eapply H].
    by apply (H (S i)).
Qed.

Lemma new_separated p : PatchOps.new p = Some p → separated p.
Proof.
  unfold PatchOps.new. destruct (PatchOps.new_assertions None p) eqn:H; [intros _|done].
  change p with (option_list None ++ p). revert H. generalize (@None (Edit N)).
  induction p as [|e p IH]; intros l H; simpl in *.
  - intros i x y Hx Hy. destruct l, i; done.
  - apply andb_true_iff in H as [H1 H2]. specialize (IH _ H2). simpl in IH.
    destruct l as [l|]; [|done]. apply andb_true_iff in H1 as [H1%N.ltb_lt H1'%N.ltb_lt].
    intros [|i] x y Hx Hy; simpl in *; [|by eapply IH].
    by injection Hx as <-; injection Hy as <-.
Qed.

Section push.
Context {X : Type}.
Implicit Types (a b : list X).

Lemma push_maybe_empty_patched p a b del ins :
  patched 0 0 p a b → separated p →
  let e := mkEdit (len a ..: len a + len del) (len b ..: len b + len ins) in
  patched 0 0 (PatchOps.push_maybe_empty p e) (a ++ del) (b ++ ins) ∧
  separated (PatchOps.push_maybe_empty p e).
Proof.
  intros Hp Hs e. unfold PatchOps.push_maybe_empty.
  destruct p as [|l p _] using rev_ind.
  { apply patched_nil_inv in Hp as ->. simpl. split.
    - rewrite <- (app_nil_r del), <- (app_nil_r ins). apply patched_cons; done || constructor.
    - intros i x y Hx Hy. by destruct i. }
  pose proof (patched_snoc_inv _ _ _ _ _ _ Hp) as (a1 & b1 & d & i & g & -> & -> & Hp1 & ->).
  rewrite last_snoc. cbn [start stop old new e].
  apply separated_snoc in Hs as [Hs Hl].
  destruct (N.leb_spec (len (a1 ++ d ++ g)) (0 + len a1 + len d)) as [Hle|Hgt].
  - assert (g = []) as -> by (destruct g; [done|len_lia]).
    rewrite alter_snoc. cbn [start stop old new]. rewrite !app_nil_r, <- !app_assoc. split.
    + replace (len (a1 ++ d) + len del) with (0 + len a1 + len (d ++ del)) by len_lia.
      replace (len (b1 ++ i) + len ins) with (0 + len b1 + len (i ++ ins)) by len_lia.
      by apply patched_snoc.
    + apply separated_snoc. split; [done|]. intros l Hll. by apply Hl in Hll.
  - split.
    + apply (patched_snoc _ _ _ _ _ del ins) in Hp. exact Hp.
    + apply separated_snoc. split; [by apply separated_snoc|]. intros l Hll.
      rewrite last_snoc in Hll. injection Hll as <-. simpl. len_lia.
Qed.

Lemma push_patched p a b del ins e :
  patched 0 0 p a b → separated p →
  e = mkEdit (len a ..: len a + len del) (len b ..: len b + len ins) →
  patched 0 0 (PatchOps.push p e) (a ++ del) (b ++ ins) ∧ separated (PatchOps.push p e).
Proof.
  intros Hp Hs ->. unfold PatchOps.push, EditOps.is_empty. cbn [start stop old new].
  destruct (N.eqb_spec (len a) (len a + len del)) as [Hd|]; simpl.
  - destruct (N.eqb_spec (len b) (len b + len ins)) as [Hi|].
    + assert (del = []) as -> by (destruct del; [done|len_lia]).
      assert (ins = []) as -> by (destruct ins; [done|len_lia]).
      by rewrite !app_nil_r.
    + by apply push_maybe_empty_patched.
  - by apply push_maybe_empty_patched.
Qed.

End push.

(** ** Composition *)

(** Sums of lengths, flattened. *)
Ltac len_norm := autorewrite with len in *; rewrite ?N.add_assoc in *.


Lemma split_min {X} (k : N) (d : list X) :
  ∃ d1 d2, d = d1 ++ d2 ∧ len d1 = N.min k (len d).
Proof.
  exists (take (N.to_nat k) d), (drop (N.to_nat k) d).
  split; [by rewrite take_drop|]. unfold len. rewrite length_take. lia.
Qed.

Lemma app_eq_shorter {X} (x y k l : list X) :
  x ++ y = k ++ l → len x <= len k → ∃ k', k = x ++ k' ∧ y = k' ++ l.
Proof.
  intros H Hl. apply app_eq_inv in H as [(z & -> & ->)|(z & -> & ->)]; [|by eauto].
  assert (z = []) as -> by (destruct z; [done|len_lia]).
  exists []. by rewrite !app_nil_r.
Qed.

Section compose.
Context {X : Type}.
Implicit Types (a b c A C : list X).

(** The loop has composed the prefixes [A0] and [C0]; the edits that are left
    describe the suffixes, through a suffix of the text in the middle. *)
Definition compose_inv A C (s : PatchOps.compose_state) : Prop :=
  ∃ A0 C0 a bt c k,
    A = A0 ++ a ∧ C = C0 ++ c ∧
    PatchOps.old_start s = len A0 ∧ PatchOps.new_start s = len C0 ∧
    patched 0 0 (PatchOps.composed s) A0 C0 ∧ separated (PatchOps.composed s) ∧
    patched (len A0) k (PatchOps.old_edits s) a bt ∧
    patched k (len C0) (PatchOps.new_edits s) bt c.

Lemma patched_skip_new o n p x a b :
  patched o n p a (x ++ b) →
  match p with [] => True | e :: _ => n + len x <= start (new e) end →
  ∃ a', a = x ++ a' ∧ patched (o + len x) (n + len x) p a' b.
Proof.
  intros H Hle. apply patched_invert, patched_skip in H as (a' & -> & H).
  - exists a'. split; [done|]. by apply patched_uninvert.
  - by destruct p.
Qed.

Lemma emit_inv s A0 C0 g del ins a' c' bt' k' o n oe ne os ns :
  PatchOps.old_start s = len A0 → PatchOps.new_start s = len C0 →
  patched 0 0 (PatchOps.composed s) A0 C0 → separated (PatchOps.composed s) →
  o = len A0 + len g → n = len C0 + len g → oe = o + len del → ne = n + len ins →
  patched oe k' os a' bt' → patched k' ne ns bt' c' →
  compose_inv (A0 ++ g ++ del ++ a') (C0 ++ g ++ ins ++ c') (PatchOps.emit s o n oe ne os ns).
Proof.
  intros Ho Hn Hp Hs -> -> -> -> Ha Hc.
  exists (A0 ++ g ++ del), (C0 ++ g ++ ins), a', bt', c', k'. unfold PatchOps.emit.
  cbn [PatchOps.old_start PatchOps.new_start PatchOps.composed PatchOps.old_edits PatchOps.new_edits].
  apply (patched_extend _ _ _ _ _ g) in Hp.
  edestruct (push_patched _ _ _ del ins _ Hp Hs eq_refl) as [Hp' Hs'].
  rewrite <- !app_assoc in Hp'. autorewrite with len in *. rewrite <- !app_assoc, !N.add_assoc in *.
  split_and!; done || lia.
Qed.

Lemma push_old_inv A C s oe os :
  compose_inv A C s → PatchOps.old_edits s = oe :: os →
  match PatchOps.new_edits s with [] => True | ne :: _ => stop (new oe) < start (old ne) end →
  ∃ s', PatchOps.push_old s oe os = Some s' ∧ compose_inv A C s' ∧
    PatchOps.old_edits s' = os ∧ PatchOps.new_edits s' = PatchOps.new_edits s.
Proof.
  intros (A0 & C0 & a & bt & c & k & -> & -> & Ho & Hn & Hp & Hs & Ha & Hc) Hos Hlt.
  rewrite Hos in Ha. apply patched_cons_inv in Ha as (g & del & ins & a' & b' & -> & -> & -> & Ha).
  rewrite app_assoc in Hc. apply patched_skip in Hc as (c' & -> & Hc).
  2:{ destruct (PatchOps.new_edits s); [done|]. simpl in Hlt. len_lia. }
  unfold PatchOps.push_old, EditOps.old_len, EditOps.new_len. cbn [start stop old new].
  rewrite Ho, Hn, !usize_sub_le by lia. simpl. eexists. split; [done|]. split; [|done].
  rewrite <- app_assoc. eapply emit_inv; try eassumption; lia || len_lia || idtac.
  - replace (len A0 + _ + _) with (len A0 + len g + len del) by lia. done.
  - replace (len C0 + _ + _) with (len C0 + len (g ++ ins)) by len_lia.
    by replace (k + len g + len ins) with (k + len (g ++ ins)) by len_lia.
Qed.

Lemma push_new_inv A C s ne ns :
  compose_inv A C s → PatchOps.new_edits s = ne :: ns →
  match PatchOps.old_edits s with [] => True | oe :: _ => stop (old ne) < start (new oe) end →
  ∃ s', PatchOps.push_new s ne ns = Some s' ∧ compose_inv A C s' ∧
    PatchOps.new_edits s' = ns ∧ PatchOps.old_edits s' = PatchOps.old_edits s.
Proof.
  intros (A0 & C0 & a & bt & c & k & -> & -> & Ho & Hn & Hp & Hs & Ha & Hc) Hns Hlt.
  rewrite Hns in Hc. apply patched_cons_inv in Hc as (g & del & ins & b' & c' & -> & -> & -> & Hc).
  rewrite app_assoc in Ha. apply patched_skip_new in Ha as (a' & -> & Ha).
  2:{ destruct (PatchOps.old_edits s); [done|]. simpl in Hlt. len_lia. }
  unfold PatchOps.push_new, EditOps.old_len, EditOps.new_len. cbn [start stop old new].
  rewrite Ho, Hn, !usize_sub_le by lia. simpl. eexists. split; [done|]. split; [|done].
  rewrite <- app_assoc. eapply emit_inv; try eassumption; lia || len_lia || idtac.
  - replace (len A0 + _ + _) with (len A0 + len (g ++ del)) by len_lia. done.
  - replace (len C0 + _ + _) with (len C0 + len g + len ins) by lia.
    by replace (k + len (g ++ del)) with (k + len g + len del) by len_lia.
Qed.

(** Both heads start at the same position of the middle text. *)
Definition aligned A C (s : PatchOps.compose_state) oe os ne ns : Prop :=
  PatchOps.old_edits s = oe :: os ∧ PatchOps.new_edits s = ne :: ns ∧
  compose_inv A C s ∧
  start (old oe) = PatchOps.old_start s ∧ start (new ne) = PatchOps.new_start s ∧
  start (new oe) = start (old ne).

Lemma patched_head o n del ins p a b o'' n'' :
  o'' = o + len del → n'' = n + len ins →
  patched o'' n'' p a b →
  patched o n (mkEdit (o ..: o'') (n ..: n'') :: p) (del ++ a) (ins ++ b).
Proof. intros -> -> H. by apply (patched_cons _ _ [] del ins); rewrite ?len_nil; lia || done. Qed.

Lemma align_inv A C s oe os ne ns :
  compose_inv A C s → PatchOps.old_edits s = oe :: os → PatchOps.new_edits s = ne :: ns →
  start (old ne) <= stop (new oe) → start (new oe) <= stop (old ne) →
  ∃ s' oe' ne', PatchOps.align s oe ne os ns = Some s' ∧ aligned A C s' oe' os ne' ns.
Proof.
  intros (A0 & C0 & a & bt & c & k & -> & -> & Ho & Hn & Hp & Hs & Ha & Hc) Hos Hns H1 H2.
  rewrite Hos in Ha. rewrite Hns in Hc.
  apply patched_cons_inv in Ha as (g & d & i & a' & b' & -> & -> & -> & Ha).
  apply patched_cons_inv in Hc as (g2 & d2 & i2 & b2 & c' & -> & Hbt & -> & Hc).
  cbn [start stop old new] in *.
  unfold PatchOps.align. cbn [start stop old new].
  destruct (N.ltb_spec (k + len g) (k + len g2)) as [Hlt|Hge].
  - apply app_eq_shorter in Hbt as (x & -> & Hbt); [|lia].
    symmetry in Hbt. apply app_eq_shorter in Hbt as (i' & -> & Hbt); [|len_lia].
    rewrite Ho, Hn, !usize_sub_le by len_lia. simpl.
    destruct (split_min (len x) d) as (d1 & d' & -> & Hd1).
    do 3 eexists. split; [done|].
    assert (k + len (g ++ x) - (k + len g) = len x) as -> by len_lia.
    assert (N.min (len A0 + (len A0 + len g - len A0) + len x)
              (len A0 + len g + len (d1 ++ d')) = len A0 + len g + len d1) as -> by len_lia.
    assert (len A0 + (len A0 + len g - len A0) = len A0 + len g) as -> by lia.
    replace (len C0 + (len A0 + len g - len A0)) with (len C0 + len g) by lia.
    repeat split; cbn; [|len_lia..].
    rewrite <- !app_assoc.
    eapply (emit_inv _ _ _ _ _ _ _ _ (i' ++ b') (k + len g + len x)); try done; [ | ].
    + apply (patched_head _ _ d' i'); [len_lia..|]. by len_norm.
    + rewrite <- Hbt. replace (len C0 + len g + len x) with (len C0 + len (g ++ x)) by len_lia.
      replace (k + len g + len x) with (k + len (g ++ x)) by len_lia.
      by apply patched_head.
  - symmetry in Hbt. apply app_eq_shorter in Hbt as (x & -> & Hbt); [|lia].
    symmetry in Hbt. apply app_eq_shorter in Hbt as (d' & -> & Hbt); [|len_lia].
    rewrite Ho, Hn, !usize_sub_le by len_lia. simpl.
    destruct (split_min (len x) i2) as (i1 & i' & -> & Hi1).
    do 3 eexists. split; [done|].
    assert (k + len (g2 ++ x) - (k + len g2) = len x) as -> by len_lia.
    assert (N.min (len C0 + (len C0 + len g2 - len C0) + len x)
              (len C0 + len g2 + len (i1 ++ i')) = len C0 + len g2 + len i1) as -> by len_lia.
    assert (len C0 + (len C0 + len g2 - len C0) = len C0 + len g2) as -> by lia.
    replace (len A0 + (len C0 + len g2 - len C0)) with (len A0 + len g2) by lia.
    repeat split; cbn; [|len_lia..].
    rewrite <- !app_assoc.
    eapply (emit_inv _ _ _ _ _ _ _ _ (i ++ b') (k + len g2 + len x)); try done; [ | ].
    + replace (len A0 + len g2 + len x) with (len A0 + len (g2 ++ x)) by len_lia.
      replace (k + len g2 + len x) with (k + len (g2 ++ x)) by len_lia.
      by apply patched_head.
    + rewrite Hbt. apply (patched_head _ _ d' i'); [len_lia..|]. by len_norm.
Qed.

Lemma patched_head_inv o n e p a b :
  patched o n (e :: p) a b → start (old e) = o →
  ∃ d i a' b', e = mkEdit (o ..: o + len d) (n ..: n + len i) ∧
    a = d ++ a' ∧ b = i ++ b' ∧ patched (o + len d) (n + len i) p a' b'.
Proof.
  intros H Ho. apply patched_cons_inv in H as (g & d & i & a' & b' & -> & -> & -> & H).
  simpl in Ho. assert (g = []) as -> by (destruct g; [done|len_lia]).
  exists d, i, a', b'. rewrite len_nil, !N.add_0_r in *. done.
Qed.

Lemma consume_inv A C s oe os ne ns :
  aligned A C s oe os ne ns →
  ∃ s', PatchOps.consume s oe ne os ns = Some s' ∧ compose_inv A C s' ∧
    (length (PatchOps.old_edits s') + length (PatchOps.new_edits s') =
     S (length os + length ns))%nat.
Proof.
  intros (Hos & Hns & (A0 & C0 & a & bt & c & k & -> & -> & Ho & Hn & Hp & Hs & Ha & Hc) & Ho' & Hn' & Hm).
  rewrite Hos in Ha. rewrite Hns in Hc. rewrite Ho in Ho'. rewrite Hn in Hn'.
  apply patched_head_inv in Ha as (d & i & a' & b' & -> & -> & -> & Ha); [|done].
  apply patched_invert in Hc. simpl in Hc.
  apply patched_head_inv in Hc as (i2 & d2 & c' & b2 & He & -> & Hbt & Hc); [|done].
  apply patched_uninvert in Hc. destruct ne as [ne1 ne2]. injection He as -> ->.
  unfold PatchOps.consume, EditOps.old_len, EditOps.new_len. cbn [start stop old new] in *.
  rewrite Ho, Hn, !usize_sub_le by lia. simpl. rewrite !N_add_sub_l.
  destruct (N.ltb_spec (k + len d2) (k + len i)) as [Hlt|Hge].
  - symmetry in Hbt. apply app_eq_shorter in Hbt as (i' & -> & Hbt); [|lia].
    destruct (split_min (len d2) d) as (d1 & d' & -> & Hd1).
    rewrite N.min_comm, <- Hd1, <- app_assoc.
    eexists. split; [done|]. split; [|simpl; lia].
    eapply (emit_inv _ _ _ [] d1 i2 _ _ (i' ++ b') (k + len d2));
      rewrite ?len_nil, ?N.add_0_r; try done; [|by rewrite <- Hbt].
    apply patched_head; [len_lia..|]. by len_norm.
  - apply app_eq_shorter in Hbt as (d' & -> & Hbt); [|lia].
    destruct (split_min (len i) i2) as (i1 & i' & -> & Hi1).
    rewrite <- Hi1, <- app_assoc.
    eexists. split; [done|]. split; [|simpl; lia].
    eapply (emit_inv _ _ _ [] d i1 _ _ b' (k + len i));
      rewrite ?len_nil, ?N.add_0_r; try done.
    rewrite Hbt. apply patched_head; [len_lia..|]. by len_norm.
Qed.

Lemma intersect_inv A C s oe os ne ns :
  compose_inv A C s → PatchOps.old_edits s = oe :: os → PatchOps.new_edits s = ne :: ns →
  start (old ne) <= stop (new oe) → start (new oe) <= stop (old ne) →
  ∃ s', PatchOps.intersect s oe ne os ns = Some s' ∧ compose_inv A C s' ∧
    (length (PatchOps.old_edits s') + length (PatchOps.new_edits s') =
     S (length os + length ns))%nat.
Proof.
  intros H Hos Hns H1 H2.
  destruct (align_inv _ _ _ _ _ _ _ H Hos Hns H1 H2) as (s1 & oe' & ne' & Ha & Hal).
  unfold PatchOps.intersect. rewrite Ha. simpl.
  destruct (Hal) as (-> & -> & _). by apply consume_inv.
Qed.

Lemma compose_step_inv A C s :
  compose_inv A C s →
  match PatchOps.compose_step s with
  | None => False
  | Some None => PatchOps.old_edits s = [] ∧ PatchOps.new_edits s = []
  | Some (Some s') => compose_inv A C s' ∧
      (S (length (PatchOps.old_edits s') + length (PatchOps.new_edits s')) =
       length (PatchOps.old_edits s) + length (PatchOps.new_edits s))%nat
  end.
Proof.
  intros H. unfold PatchOps.compose_step.
  destruct (PatchOps.old_edits s) as [|oe os] eqn:Eo, (PatchOps.new_edits s) as [|ne ns] eqn:En.
  - done.
  - destruct (push_new_inv _ _ _ _ _ H En) as (s' & -> & Hs' & E1 & E2); [by rewrite Eo|].
    simpl. split; [done|]. rewrite E1, E2, Eo. simpl. lia.
  - destruct (push_old_inv _ _ _ _ _ H Eo) as (s' & -> & Hs' & E1 & E2); [by rewrite En|].
    simpl. split; [done|]. rewrite E1, E2, En. simpl. lia.
  - destruct (N.ltb_spec (stop (new oe)) (start (old ne))).
    { destruct (push_old_inv _ _ _ _ _ H Eo) as (s' & -> & Hs' & E1 & E2); [by rewrite En|].
      simpl. split; [done|]. rewrite E1, E2, En. simpl. lia. }
    destruct (N.ltb_spec (stop (old ne)) (start (new oe))).
    { destruct (push_new_inv _ _ _ _ _ H En) as (s' & -> & Hs' & E1 & E2); [by rewrite Eo|].
      simpl. split; [done|]. rewrite E1, E2, Eo. simpl. lia. }
    destruct (intersect_inv _ _ _ _ _ _ _ H Eo En) as (s' & -> & Hs' & Hl); [done..|].
    simpl. split; [done|lia].
Qed.

Lemma compose_loop_inv A C fuel s :
  compose_inv A C s →
  (length (PatchOps.old_edits s) + length (PatchOps.new_edits s) < fuel)%nat →
  ∃ r, PatchOps.compose_loop fuel s = Some r ∧ patched 0 0 r A C ∧ separated r.
Proof.
  revert s. induction fuel as [|fuel IH]; intros s H Hf; [lia|]. simpl.
  pose proof (compose_step_inv _ _ _ H) as Hstep.
  destruct (PatchOps.compose_step s) as [[s'|]|]; [| |done]; simpl.
  - destruct Hstep as [H' Hl]. apply IH; [done|lia].
  - destruct Hstep as [Eo En].
    destruct H as (A0 & C0 & a & bt & c & k & -> & -> & Ho & Hn & Hp & Hs & Ha & Hc).
    rewrite Eo in Ha. rewrite En in Hc.
    apply patched_nil_inv in Ha as ->. apply patched_nil_inv in Hc as ->.
    eexists. split; [done|]. split; [|done]. by apply patched_extend.
Qed.

End compose.

(** C24: [compose] never panics or runs out of iterations on consecutive
    patches; its result describes the change from the first text to the last
    and passes the assertions of [Patch::new]. *)
Theorem compose_patched {X} (a b c : list X) (p q : Patch)
    (Hp : patched 0 0 p a b) (Hq : patched 0 0 q b c) :
  ∃ r, PatchOps.compose p q = Some r ∧ patched 0 0 r a c ∧ PatchOps.new r = Some r.
Proof.
  destruct (compose_loop_inv a c (S (length p + length q)) (PatchOps.mkCompose p q [] 0 0))
    as (r & Hr & Hac & Hs).
  - exists [], [], a, b, c, 0. split_and!; try done. constructor.
  - simpl. lia.
  - exists r. split_and!; [done..|]. unfold PatchOps.new.
    by rewrite new_assertions_separated.
Qed.

(** [abcd], then [aXXcd], then [aXd]. *)
Definition sample_p : Patch := [mkEdit (1 ..: 2) (1 ..: 3)].
Definition sample_q : Patch := [mkEdit (2 ..: 4) (2 ..: 2)].

Lemma sample_p_patched : patched 0 0 sample_p [1; 2; 3; 4] [1; 8; 8; 3; 4].
Proof. by apply (patched_cons 0 0 [1] [2] [8; 8] [] [3; 4] [3; 4]); try constructor. Qed.

Lemma sample_q_patched : patched 0 0 sample_q [1; 8; 8; 3; 4] [1; 8; 4].
Proof. by apply (patched_cons 0 0 [1; 8] [8; 3] [] [] [4] [4]); try constructor. Qed.

Example compose_patched_witness :
  PatchOps.compose sample_p sample_q = Some [mkEdit (1 ..: 3) (1 ..: 2)] ∧
  ∃ r, PatchOps.compose sample_p sample_q = Some r ∧
    patched 0 0 r [1; 2; 3; 4] [1; 8; 4] ∧ PatchOps.new r = Some r.
Proof.
  split; [by vm_compute|].
  apply (compose_patched [1; 2; 3; 4] [1; 8; 8; 3; 4] [1; 8; 4] sample_p sample_q);
    [apply sample_p_patched|apply sample_q_patched].
Defined.

(** ** Position maps *)

Section positions.
Context {X : Type}.
Implicit Types (a b : list X).

Lemma patched_split o n p1 e p2 a b :
  patched o n (p1 ++ e :: p2) a b →
  ∃ a1 b1 d i a2 b2, a = a1 ++ d ++ a2 ∧ b = b1 ++ i ++ b2 ∧ patched o n p1 a1 b1 ∧
    e = mkEdit (o + len a1 ..: o + len a1 + len d) (n + len b1 ..: n + len b1 + len i) ∧
    patched (o + len a1 + len d) (n + len b1 + len i) p2 a2 b2.
Proof.
  revert o n a b. induction p1 as [|f p1 IH]; intros o n a b H; simpl in H;
    apply patched_cons_inv in H as (g & d & i & a2 & b2 & -> & -> & -> & H).
  - exists g, g, d, i, a2, b2. split_and!; done || constructor.
  - apply IH in H as (a1 & b1 & d' & i' & a3 & b3 & -> & -> & Hp & -> & H).
    exists (g ++ d ++ a1), (g ++ i ++ b1), d', i', a3, b3.
    rewrite <- !app_assoc. split_and!; [done|done|by apply patched_cons|by len_norm|by len_norm].
Qed.

Lemma partition_point_spec p x :
  let ix := PatchOps.partition_point p x in
  (∀ i e, (i < ix)%nat → p !! i = Some e → start (old e) < x) ∧
  (∀ e, p !! ix = Some e → x <= start (old e)) ∧ (ix <= length p)%nat.
Proof.
  induction p as [|e p (IH1 & IH2 & IH3)]; simpl; [split_and!; [lia|done|lia]|].
  destruct (N.ltb_spec (start (old e)) x); split_and!; simpl; try lia; try done.
  - intros [|i] f Hi Hf; simpl in Hf; [by injection Hf as ->|]. eapply IH1; [|done]. lia.
  - intros f Hf. injection Hf as ->. lia.
Qed.

Lemma starts_increasing p i j e f :
  separated p → (∀ e, e ∈ p → start (old e) <= stop (old e)) →
  (i < j)%nat → p !! i = Some e → p !! j = Some f → start (old e) < start (old f).
Proof.
  intros Hs Hle Hij He. induction Hij as [|j Hij IH] in f |- *; intros Hf.
  - destruct (Hs _ _ _ He Hf). specialize (Hle e (list_elem_of_lookup_2 _ _ _ He)). lia.
  - destruct (p !! j) as [g|] eqn:Hg; [|apply lookup_lt_Some in Hf; apply lookup_ge_None in Hg; lia].
    specialize (IH _ eq_refl). destruct (Hs _ _ _ Hg Hf).
    specialize (Hle g (list_elem_of_lookup_2 _ _ _ Hg)). lia.
Qed.

Lemma separated_before p i j e f :
  separated p → (∀ e, e ∈ p → start (old e) <= stop (old e)) →
  (i < j)%nat → p !! i = Some e → p !! j = Some f → stop (old e) < start (old f).
Proof.
  intros Hs Hle Hij He Hf. destruct (p !! S i) as [g|] eqn:Hg;
    [|apply lookup_lt_Some in Hf; apply lookup_ge_None in Hg; lia].
  destruct (Hs _ _ _ He Hg). destruct (decide (j = S i)) as [->|].
  - by simplify_eq.
  - pose proof (starts_increasing p (S i) j g f Hs Hle ltac:(lia) Hg Hf). lia.
Qed.

(** The last edit that starts at or before [x]. *)
Lemma search_ix_spec p x :
  separated p → (∀ e, e ∈ p → start (old e) <= stop (old e)) →
  match PatchOps.search_ix p x with
  | None => ∀ e, e ∈ p → x < start (old e)
  | Some ix => ∃ e, p !! ix = Some e ∧ start (old e) <= x ∧
      ∀ f, f ∈ drop (S ix) p → x < start (old f)
  end.
Proof.
  intros Hs Hle. unfold PatchOps.search_ix.
  destruct (partition_point_spec p x) as (H1 & H2 & H3).
  set (ix := PatchOps.partition_point p x) in *. clearbody ix.
  pose proof (λ i j e f, starts_increasing p i j e f Hs Hle) as Hmono.
  destruct (p !! ix) as [e|] eqn:He; [destruct (N.eqb_spec (start (old e)) x) as [<-|Hne]|].
  - exists e. split_and!; [done|lia|]. intros f (i & Hi & Hf)%elem_of_drop. by apply (Hmono ix i).
  - specialize (H2 _ eq_refl).
    assert (∀ f i, (ix <= i)%nat → p !! i = Some f → x < start (old f)) as Hgt.
    { intros f i Hi Hf. destruct (decide (i = ix)) as [->|]; [|].
      - rewrite He in Hf. injection Hf as <-. lia.
      - specialize (Hmono ix i e f ltac:(lia) He Hf). lia. }
    destruct ix as [|ix].
    + intros f [i Hi]%list_elem_of_lookup. eapply Hgt; [|done]. lia.
    + destruct (p !! ix) as [g|] eqn:Hg; [|apply lookup_lt_Some in He; apply lookup_ge_None in Hg; lia].
      exists g. split_and!; [done|by apply N.lt_le_incl, (H1 ix); lia || done|].
      intros f (i & Hi & Hf)%elem_of_drop. by apply (Hgt f i).
  - apply lookup_ge_None in He. destruct ix as [|ix].
    + destruct p; [|simpl in He; lia]. by intros f ?%elem_of_nil.
    + destruct (p !! ix) as [g|] eqn:Hg; [|apply lookup_ge_None in Hg; lia].
      exists g. split_and!; [done|by apply N.lt_le_incl, (H1 ix); lia || done|].
      intros f (i & Hi & Hf)%elem_of_drop. apply lookup_lt_Some in Hf. lia.
Qed.

Lemma patched_ranges o n p a b e :
  patched o n p a b → e ∈ p →
  o <= start (old e) ∧ start (old e) <= stop (old e) ∧ stop (old e) <= o + len a ∧
  start (new e) <= stop (new e) ∧ stop (new e) <= n + len b.
Proof.
  intros H (p1 & p2 & ->)%list_elem_of_split.
  apply patched_split in H as (a1 & b1 & d & i & a2 & b2 & -> & -> & _ & -> & _).
  simpl. len_lia.
Qed.

Lemma lookup_at_eq a1 b1 (r : list X) x :
  len a1 <= x → (a1 ++ r) !! N.to_nat x = (b1 ++ r) !! N.to_nat (len b1 + (x - len a1)).
Proof.
  intros H. unfold len in *. rewrite !lookup_app_r by lia. f_equal. lia.
Qed.

(** Past the last edit that starts at or before [x], the texts agree. *)
Lemma patched_tail o n p a b x :
  patched o n p a b → (∀ f, f ∈ p → x < start (old f)) → o <= x → x <= o + len a →
  n + (x - o) <= n + len b ∧ a !! N.to_nat (x - o) = b !! N.to_nat (x - o).
Proof.
  intros H Hf Ho Hx.
  destruct (split_min (x - o) a) as (a1 & a2 & -> & Hl).
  assert (len a1 = x - o) as Ha1 by len_lia. clear Hl.
  rewrite <- Ha1, to_nat_len.
  destruct a2 as [|y a2].
  - destruct p as [|f p]; [apply patched_nil_inv in H as <-; split; [len_lia|done]|].
    destruct (patched_ranges _ _ _ _ _ f H ltac:(left)) as (? & ? & ? & _).
    specialize (Hf f ltac:(left)). len_lia.
  - rewrite cons_middle, app_assoc in H. apply patched_skip in H as (b' & -> & _).
    + rewrite <- app_assoc. simpl. rewrite !list_lookup_middle by done. split; [len_lia|done].
    + destruct p as [|f p]; [done|]. specialize (Hf f ltac:(left)). len_lia.
Qed.

End positions.

(** A position that no edit replaces is mapped to where its text is in the
    new version, a position inside an edit to the start of the new text. An
    edit that touches the position is the one [edit_for_old_position] returns,
    and without one the answer is the empty edit between the two positions. *)
Theorem old_to_new_tracks {X} (a b : list X) (p : Patch) (x : N)
    (Hp : patched 0 0 p a b) (Hs : PatchOps.new p = Some p) (Hx : x <= len a) :
  PatchOps.old_to_new p x <= len b ∧
  (∀ e, e ∈ p → start (old e) <= x → x < stop (old e) → PatchOps.old_to_new p x = start (new e)) ∧
  ((∀ e, e ∈ p → x < start (old e) ∨ stop (old e) <= x) →
    a !! N.to_nat x = b !! N.to_nat (PatchOps.old_to_new p x)) ∧
  (∀ e, e ∈ p → start (old e) <= x → x <= stop (old e) → PatchOps.edit_for_old_position p x = e) ∧
  ((∀ e, e ∈ p → x < start (old e) ∨ stop (old e) < x) →
    PatchOps.edit_for_old_position p x =
    mkEdit (x ..: x) (PatchOps.old_to_new p x ..: PatchOps.old_to_new p x)).
Proof.
  apply new_separated in Hs.
  assert (∀ e, e ∈ p → start (old e) <= stop (old e)) as Hle.
  { intros e He. by destruct (patched_ranges _ _ _ _ _ _ Hp He) as (? & ? & _). }
  pose proof (search_ix_spec p x Hs Hle) as Hix.
  unfold PatchOps.old_to_new, PatchOps.edit_for_old_position.
  destruct (PatchOps.search_ix p x) as [ix|].
  - destruct Hix as (e & He & Hex & Hd). rewrite He.
    pose proof (take_drop_middle _ _ _ He) as Hmid.
    assert (∀ f, f ∈ p → start (old f) <= x → f = e ∨ stop (old f) < start (old e)) as Huniq.
    { intros f (i & Hf)%list_elem_of_lookup Hfx. destruct (decide (i < ix)%nat).
      { right. by eapply (separated_before p i ix). }
      destruct (decide (i = ix)) as [->|]; [left; by simplify_eq|].
      assert (x < start (old f)); [|lia]. apply Hd.
      apply list_elem_of_lookup. exists (i - S ix)%nat. rewrite lookup_drop.
      by replace (S ix + (i - S ix))%nat with i by lia. }
    assert (e ∈ p) as Hin by (by apply list_elem_of_lookup; exists ix).
    rewrite <- Hmid in Hp. clear Hmid.
    apply patched_split in Hp as (a1 & b1 & d & i & a2 & b2 & -> & -> & _ & -> & Hp).
    cbn [start stop old new] in *. rewrite !N.add_0_l in *.
    destruct (N.leb_spec (len a1 + len d) x) as [Hout|Hins].
    + apply (patched_tail _ _ _ _ _ x) in Hp as [Hle' Heq]; [|done|lia|len_lia].
      split_and!; [len_lia|..].
      * intros f Hf Hfx Hxf. destruct (Huniq f Hf Hfx) as [->|]; simpl in *; lia.
      * intros _. rewrite !lookup_app_r by (unfold len in *; lia).
        unfold len in *. replace (N.to_nat x - length a1 - length d)%nat with
          (N.to_nat (x - (N.of_nat (length a1) + N.of_nat (length d)))) by lia.
        rewrite Heq. f_equal. lia.
      * intros f Hf Hfx Hxf. destruct (Huniq f Hf Hfx) as [->|]; [|lia].
        simpl in Hxf. destruct (N.ltb_spec (len a1 + len d) x); [lia|done].
      * intros Hno. destruct (Hno _ Hin); simpl in *; [lia|].
        destruct (N.ltb_spec (len a1 + len d) x); [done|lia].
    + split_and!; [len_lia|..].
      * intros f Hf Hfx Hxf. destruct (Huniq f Hf Hfx) as [->|]; [done|lia].
      * intros Hno. destruct (Hno _ Hin); simpl in *; lia.
      * intros f Hf Hfx Hxf. destruct (Huniq f Hf Hfx) as [->|]; [|lia].
        destruct (N.ltb_spec (len a1 + len d) x); [lia|done].
      * intros Hno. destruct (Hno _ Hin); simpl in *; lia.
  - apply (patched_tail _ _ _ _ _ x) in Hp as [Hle' Heq]; [|done|lia..].
    rewrite N.sub_0_r in *. split_and!; [done| | done | |done].
    + intros e He. specialize (Hix e He). lia.
    + intros e He. specialize (Hix e He). lia.
Qed.

Example old_to_new_tracks_witness :
  PatchOps.old_to_new sample_p 2 = 3 ∧
  PatchOps.old_to_new sample_p 2 <= len [1; 8; 8; 3; 4].
Proof.
  split; [by vm_compute|].
  apply (old_to_new_tracks [1; 2; 3; 4] [1; 8; 8; 3; 4] sample_p 2);
    [apply sample_p_patched|reflexivity|vm_compute; discriminate].
Defined.

(** ** Subscriptions see every change once *)

Section subscriptions.
Context {X : Type}.

(** A run of a topic beside the text it is about. [seen] is the text at the
    time of each subscription's last [consume]. *)
Record run := mkRun { topics : Topics; text : list X; seen : list (list X) }.

Inductive step : run → run → Prop :=
| step_subscribe r :
    step r (mkRun (TopicOps.subscribe (topics r)).2 (text r) (seen r ++ [text r]))
| step_publish r q t' text' :
    patched 0 0 q (text r) text' → TopicOps.publish (topics r) q = Some t' →
    step r (mkRun t' text' (seen r))
| step_consume r i p t' :
    TopicOps.consume (topics r) i = Some (p, t') →
    step r (mkRun t' (text r) (<[i := text r]> (seen r)))
| step_drop r i :
    step r (mkRun (TopicOps.drop (topics r) i) (text r) (seen r)).

Definition initial (a : list X) : run := mkRun (mkTopics [] []) a [].

(** Every live cell is referenced by the topic exactly once, and holds the
    change from what its owner has seen to the current text. *)
Record run_ok (r : run) : Prop := {
  ok_seen : length (seen r) = length (cells (topics r));
  ok_nodup : NoDup (topic (topics r));
  ok_bound : ∀ i, i ∈ topic (topics r) → (i < length (cells (topics r)))%nat;
  ok_live : ∀ i p, cells (topics r) !! i = Some (Some p) → i ∈ topic (topics r);
  ok_patch : ∀ i p a, cells (topics r) !! i = Some (Some p) → seen r !! i = Some a →
    patched 0 0 p a (text r) }.

Definition live (cs : list (option Patch)) (i : nat) : Prop :=
  is_Some (mjoin (cs !! i)).

#[local] Instance live_dec cs i : Decision (live cs i).
Proof. unfold live. apply _. Defined.

(** [publish] composes the edits into every live cell and drops the dead
    references. *)
Lemma publish_retain_spec q subs cs :
  NoDup subs →
  (∀ i p, i ∈ subs → cs !! i = Some (Some p) → is_Some (PatchOps.compose p q)) →
  ∃ cs', TopicOps.publish_retain cs subs q = Some (cs', filter (live cs) subs) ∧
    ∀ i, cs' !! i = if decide (i ∈ subs) then (λ c, c ≫= λ p, PatchOps.compose p q) <$> cs !! i
                    else cs !! i.
Proof.
  revert cs. induction subs as [|i subs IH]; intros cs Hnd Hc; cbn [TopicOps.publish_retain].
  { exists cs. split; [done|]. intros i. by rewrite decide_False by set_solver. }
  apply NoDup_cons in Hnd as [Hi Hnd]. rewrite filter_cons.
  destruct (cs !! i) as [[p|]|] eqn:Ei; simpl.
  2-3: destruct (IH cs) as (cs' & -> & Hcs'); [done|intros j pj Hj; apply Hc; by right|];
    exists cs'; split; [by rewrite decide_False by (unfold live; rewrite Ei; by intros [? ?])|];
    intros j; rewrite Hcs'; destruct (decide (j = i)) as [->|];
    [by rewrite decide_False, decide_True, Ei by (done || left)
    |by rewrite (decide_ext (j ∈ i :: subs) (j ∈ subs)) by (rewrite elem_of_cons; tauto)].
  destruct (Hc i p) as [p' Hp']; [left|done|]. rewrite Hp'. simpl.
  assert (i < length cs)%nat as Hlt by (by eapply lookup_lt_Some).
  destruct (IH (<[i:=Some p']> cs)) as (cs' & -> & Hcs'); [done|..].
  { intros j pj Hj. rewrite list_lookup_insert_ne by (by intros ->). apply Hc. by right. }
  simpl. exists cs'. split.
  - rewrite decide_True by (unfold live; by rewrite Ei). do 3 f_equal. apply filter_ext_in.
    intros j Hj. unfold live. by rewrite list_lookup_insert_ne by (by intros ->).
  - intros j. rewrite Hcs'. destruct (decide (j = i)) as [->|].
    + rewrite decide_False, decide_True by (done || left).
      rewrite list_lookup_insert_eq, Ei by done. simpl. by rewrite Hp'.
    + rewrite list_lookup_insert_ne by done.
      by rewrite (decide_ext (j ∈ i :: subs) (j ∈ subs)) by (rewrite elem_of_cons; tauto).
Qed.

Lemma publish_spec q t :
  NoDup (topic t) → (∀ i p, cells t !! i = Some (Some p) → i ∈ topic t) →
  (∀ i p, cells t !! i = Some (Some p) → is_Some (PatchOps.compose p q)) →
  TopicOps.publish t q =
    Some (mkTopics ((λ c, c ≫= λ p, PatchOps.compose p q) <$> cells t)
                   (filter (live (cells t)) (topic t))).
Proof.
  intros Hnd Hin Hc.
  destruct (publish_retain_spec q (topic t) (cells t)) as (cs' & Hr & Hcs'); [done|by eauto|].
  unfold TopicOps.publish. rewrite Hr. simpl. do 2 f_equal.
  apply list_eq. intros i. rewrite Hcs', list_lookup_fmap.
  destruct (decide (i ∈ topic t)) as [|Hn]; [done|].
  destruct (cells t !! i) as [[p|]|] eqn:Ei; [|done..]. by apply Hin in Ei.
Qed.

Lemma compose_exists (a b c : list X) p q :
  patched 0 0 p a b → patched 0 0 q b c →
  ∃ r, PatchOps.compose p q = Some r ∧ patched 0 0 r a c ∧ separated r.
Proof.
  intros Hp Hq.
  apply (compose_loop_inv a c (S (length p + length q)) (PatchOps.mkCompose p q [] 0 0));
    [|simpl; lia].
  exists [], [], a, b, c, 0. split_and!; try done. constructor.
Qed.

Lemma publish_ok r q text' :
  run_ok r → patched 0 0 q (text r) text' →
  ∃ t', TopicOps.publish (topics r) q = Some t' ∧ run_ok (mkRun t' text' (seen r)).
Proof.
  intros [Hl Hnd Hb Hin Hpt] Hq.
  assert (∀ i p, cells (topics r) !! i = Some (Some p) →
    ∃ a p', seen r !! i = Some a ∧ PatchOps.compose p q = Some p' ∧ patched 0 0 p' a text') as Hc.
  { intros i p Hi. destruct (lookup_lt_is_Some_2 (seen r) i) as [a Ha].
    { rewrite Hl. by eapply lookup_lt_Some. }
    destruct (compose_exists a (text r) text' p q) as (p' & ? & ? & _); eauto. }
  eexists. split.
  { apply publish_spec; [done..|]. intros i p Hi. destruct (Hc i p Hi) as (? & ? & _ & -> & _). eauto. }
  assert (∀ i p', ((λ c, c ≫= λ p, PatchOps.compose p q) <$> cells (topics r)) !! i = Some (Some p') →
    ∃ p, cells (topics r) !! i = Some (Some p) ∧ PatchOps.compose p q = Some p') as Hcs.
  { intros i p'. rewrite list_lookup_fmap.
    destruct (cells (topics r) !! i) as [[p|]|]; simpl; naive_solver. }
  split; cbn [topics cells topic seen text].
  - by rewrite length_fmap.
  - by apply NoDup_filter.
  - intros i [_ Hi]%list_elem_of_filter. rewrite length_fmap. by apply Hb.
  - intros i p' (p & Hp & _)%Hcs. apply list_elem_of_filter. split; [|by eauto].
    unfold live. by rewrite Hp.
  - intros i p' a (p & Hp & Hp')%Hcs Ha. destruct (Hc i p Hp) as (? & ? & ? & ? & ?). by simplify_eq.
Qed.

Lemma step_ok r r' : run_ok r → step r r' → run_ok r'.
Proof.
  intros Hok. inversion 1 as [|? q t' text' Hq Ht|? i p t' Hc|? i]; subst.
  2:{ destruct (publish_ok r q text' Hok Hq) as (t1 & ? & ?). by simplify_eq. }
  all: destruct Hok as [Hl Hnd Hb Hin Hpt].
  - split; cbn [topics cells topic seen text TopicOps.subscribe snd].
    + rewrite !length_app. simpl. lia.
    + apply NoDup_app. split_and!; [done| |apply NoDup_singleton].
      intros i Hi%Hb ->%list_elem_of_singleton. lia.
    + intros i [Hi%Hb| ->%list_elem_of_singleton]%elem_of_app; rewrite length_app; simpl; lia.
    + intros i p [Hi|[Hge Hi]]%lookup_app_Some; apply elem_of_app; [left; by eauto|right].
      apply lookup_lt_Some in Hi. simpl in Hi. apply list_elem_of_singleton. lia.
    + intros i p a [Hi|[Hge Hi]]%lookup_app_Some Ha.
      * rewrite lookup_app_l in Ha by (rewrite Hl; by eapply lookup_lt_Some). by eapply Hpt.
      * rewrite lookup_app_r, Hl in Ha by lia.
        destruct (i - length (cells (topics r)))%nat; [|done]. simpl in *. simplify_eq. constructor.
  - unfold TopicOps.consume in Hc. destruct (cells (topics r) !! i) as [[p'|]|] eqn:Ei; [|done..].
    simplify_eq. split; cbn [topics cells topic seen text]; rewrite ?length_insert; try done.
    + intros j pj. destruct (decide (j = i)) as [->|]; [by eauto|].
      rewrite list_lookup_insert_ne by done. apply Hin.
    + intros j pj a. destruct (decide (j = i)) as [->|].
      * rewrite !list_lookup_insert_eq by (rewrite ?Hl; by eapply lookup_lt_Some).
        intros ? ?. simplify_eq. constructor.
      * rewrite !list_lookup_insert_ne by done. apply Hpt.
  - assert (∀ j p, <[i:=None]> (cells (topics r)) !! j = Some (Some p) →
      cells (topics r) !! j = Some (Some p)) as Hd.
    { intros j p. rewrite list_lookup_insert_Some. naive_solver. }
    split; cbn [topics cells topic seen text TopicOps.drop]; rewrite ?length_insert; try done.
    + intros j p Hj%Hd. by eauto.
    + intros j p a Hj%Hd. by apply Hpt.
Qed.

Lemma steps_ok a r : rtc step (initial a) r → run_ok r.
Proof.
  intros H. cut (run_ok (initial a)).
  - induction H; eauto using step_ok.
  - split; simpl; [done|constructor|by intros ? ?%elem_of_nil|done|done].
Qed.

End subscriptions.

(** C25: whatever subscribers do, publishing the edits of a text never panics,
    and what a live subscription hands out is a patch from the text its owner
    saw last to the current text; consuming twice yields nothing. *)
Theorem subscription_patches {X} (a : list X) (r : run)
    (Hr : rtc step (initial a) r) :
  (∀ q text', patched 0 0 q (text r) text' → is_Some (TopicOps.publish (topics r) q)) ∧
  (∀ i p t' a', TopicOps.consume (topics r) i = Some (p, t') → seen r !! i = Some a' →
    patched 0 0 p a' (text r) ∧ ∃ t'', TopicOps.consume t' i = Some ([], t'')).
Proof.
  apply steps_ok in Hr. split.
  - intros q text' Hq. destruct (publish_ok r q text' Hr Hq) as (t' & -> & _). eauto.
  - intros i p t' a' Hc Ha. unfold TopicOps.consume in *.
    destruct (cells (topics r) !! i) as [[p'|]|] eqn:Ei; [|done..]. simplify_eq. simpl.
    rewrite list_lookup_insert_eq by (by eapply lookup_lt_Some).
    split; [by eapply ok_patch|by eexists].
Qed.

(** One subscription, one published patch. *)
Definition sample_run : run :=
  mkRun (mkTopics [Some sample_p] [0%nat]) [1; 8; 8; 3; 4] [[1; 2; 3; 4]].

Lemma sample_run_reachable : rtc step (initial [1; 2; 3; 4]) sample_run.
Proof.
  eapply rtc_l; [apply step_subscribe|].
  eapply rtc_l; [|apply rtc_refl].
  by apply (step_publish (mkRun (mkTopics [Some []] [0%nat]) [1; 2; 3; 4] [[1; 2; 3; 4]]) sample_p);
    [apply sample_p_patched|].
Qed.

Example subscription_patches_witness :
  patched 0 0 sample_p [1; 2; 3; 4] [1; 8; 8; 3; 4] ∧
  ∃ t'', TopicOps.consume (mkTopics [Some []] [0%nat]) 0 = Some ([], t'').
Proof.
  exact (proj2 (subscription_patches _ _ sample_run_reachable) 0%nat sample_p
    (mkTopics [Some []] [0%nat]) [1; 2; 3; 4] eq_refl eq_refl).
Defined.
