(* ===== verification/SumTree.v ===== *)
(** * The summed B+ tree: [crates/sum_tree/src/sum_tree.rs]

    Nodes cache the summaries of their children; every operation that builds a
    node is translated with the capacity checks of its fixed-size vectors, so
    [None] is a panic. The tree is shown to behave as the list of its items. *)

From S2P Require Import Prelude.

#[local] Unset Default Proof Using.
#[local] Arguments Nat.mul : simpl never.
#[local] Arguments Nat.div : simpl never.

(** ** Interfaces *)

(** [Summary]: the trait's [zero] and [add_summary] for a context [Cx]. *)
Class Summary (S Cx : Type) := {
  szero : Cx → S;
  sadd : Cx → S → S → S }.

(** [Item]. *)
Class Item (T S Cx : Type) := { isummary : Cx → T → S }.

(** [Dimension]: what a summary type can be measured by. *)
Class Dimension (D S Cx : Type) := {
  dzero : Cx → D;
  dadd : Cx → D → S → D }.
Arguments dzero {D} S {Cx _} cx.

#[export] Hint Mode Summary + - : typeclass_instances.
#[export] Hint Mode Item + - - : typeclass_instances.
#[export] Hint Mode Dimension + + - : typeclass_instances.

(** A summary is a dimension of itself. *)
Definition summary_dimension {S Cx} `{!Summary S Cx} : Dimension S S Cx :=
  {| dzero := szero; dadd := sadd |}.

#[export] Instance unit_dimension {S Cx} : Dimension () S Cx :=
  {| dzero _ := (); dadd _ _ _ := () |}.

(** [Dimensions<D1, D2, D3>]. *)
#[export] Instance pair_dimension {D1 D2 S Cx} `{!Dimension D1 S Cx, !Dimension D2 S Cx} :
  Dimension (D1 * D2) S Cx :=
  {| dzero cx := (dzero S cx, dzero S cx); dadd cx d s := (dadd cx d.1 s, dadd cx d.2 s) |}.

(** What the tree relies on: the cached summary of a concatenation can be
    computed from the parts. Some summaries keep the last key, so [szero] is
    only asked to be a left unit. *)
Class SummaryLaws (S Cx : Type) `{!Summary S Cx} (cx : Cx) : Prop := {
  sadd_zero_l : ∀ s : S, sadd cx (szero cx) s = s;
  sadd_assoc : ∀ a b c : S, sadd cx (sadd cx a b) c = sadd cx a (sadd cx b c) }.

Class DimensionAdd (D S Cx : Type) `{!Summary S Cx, !Dimension D S Cx} (cx : Cx) : Prop := {
  dadd_sadd : ∀ (d : D) (a b : S), dadd cx d (sadd cx a b) = dadd cx (dadd cx d a) b }.

(** Only measuring an empty tree relies on the zero of the summary. *)
Class DimensionLaws (D S Cx : Type) `{!Summary S Cx, !Dimension D S Cx} (cx : Cx) : Prop := {
  dimension_add :: DimensionAdd D S Cx cx;
  dadd_zero : dadd cx (dzero S cx : D) (szero cx : S) =@{D} dzero S cx }.

Inductive Bias := BiasLeft | BiasRight.

#[export] Instance Bias_eq_dec : EqDecision Bias.
Proof. solve_decision. Defined.

Definition bias_invert (b : Bias) : Bias :=
  match b with BiasLeft => BiasRight | BiasRight => BiasLeft end.

(** ** Nodes *)

#[local] Set Warnings "-register-all".

Inductive Node (T S : Type) :=
| Internal (height : nat) (summary : S) (child_summaries : list S) (child_trees : list (Node T S))
| Leaf (summary : S) (items : list T) (item_summaries : list S).
Arguments Internal {T S} _ _ _ _.
Arguments Leaf {T S} _ _ _.

Abbreviation SumTree := Node (only parsing).

Definition TREE_BASE : nat := 6.

(** Filling an [ArrayVec] of capacity [2 * TREE_BASE], which panics when there
    are more elements. *)
Definition array_vec {A} (l : list A) : option (list A) :=
  if (length l <=? 2 * TREE_BASE)%nat then Some l else None.

(** The last element replaced by [f]'s first result; [None] when the vector is
    empty ([last_mut().unwrap()]). *)
Definition with_last {A R} (f : A → option (A * R)) : list A → option (list A * R) :=
  fix go l :=
    match l with
    | [] => None
    | [x] => '(x', r) ← f x; Some ([x'], r)
    | x :: l => '(l', r) ← go l; Some (x :: l', r)
    end.

Module NodeOps.
Section NodeOps.
Context {T S : Type}.
Implicit Types t : Node T S.

Definition is_leaf t : bool :=
  match t with Leaf _ _ _ => true | Internal _ _ _ _ => false end.

Definition height t : nat :=
  match t with Internal h _ _ _ => h | Leaf _ _ _ => 0%nat end.

Definition summary t : S :=
  match t with Internal _ s _ _ => s | Leaf s _ _ => s end.

Definition child_summaries t : list S :=
  match t with Internal _ _ cs _ => cs | Leaf _ _ is_ => is_ end.

Definition child_trees t : option (list (Node T S)) :=
  match t with Internal _ _ _ ts => Some ts | Leaf _ _ _ => None end.

Definition items t : option (list T) :=
  match t with Leaf _ is_ _ => Some is_ | Internal _ _ _ _ => None end.

Definition is_underflowing t : bool :=
  match t with
  | Internal _ _ _ ts => (length ts <? TREE_BASE)%nat
  | Leaf _ is_ _ => (length is_ <? TREE_BASE)%nat
  end.

(** [SumTree::is_empty]. *)
Definition is_empty t : bool :=
  match t with
  | Internal _ _ _ _ => false
  | Leaf _ is_ _ => match is_ with [] => true | _ => false end
  end.

Fixpoint leftmost_leaf t : option (Node T S) :=
  match t with
  | Leaf _ _ _ => Some t
  | Internal _ _ _ ts =>
      match ts with [] => None | c :: _ => leftmost_leaf c end
  end.

Fixpoint rightmost_leaf t : option (Node T S) :=
  match t with
  | Leaf _ _ _ => Some t
  | Internal _ _ _ ts =>
      (fix go ts :=
         match ts with
         | [] => None
         | [c] => rightmost_leaf c
         | _ :: ts => go ts
         end) ts
  end.

Definition first t : option (option T) :=
  l ← leftmost_leaf t; is_ ← items l; Some (head is_).

Definition last_summary t : option (option S) :=
  l ← rightmost_leaf t; Some (last (child_summaries l)).

Definition last t : option (option T) :=
  l ← rightmost_leaf t; is_ ← items l; Some (last is_).

End NodeOps.
End NodeOps.

(** ** Operations *)

Module TreeOps.
Import NodeOps.
Section TreeOps.
Context {T S Cx : Type} `{!Summary S Cx, !Item T S Cx} (cx : Cx).
Implicit Types t : Node T S.

(** [fn sum]. *)
Definition sum (l : list S) : S := foldl (sadd cx) (szero cx) l.

Definition from_summary (s : S) : Node T S := Leaf s [] [].

Definition new : Node T S := Leaf (szero cx) [] [].

(** *** Bulk construction *)

(** A leaf of [from_iter]: the summary starts from the first item's. *)
Definition leaf_of (is_ : list T) : option (Node T S) :=
  is_ ← array_vec is_;
  item_summaries ← array_vec (isummary cx <$> is_);
  match item_summaries with
  | [] => None
  | s :: ss => Some (Leaf (foldl (sadd cx) s ss) is_ item_summaries)
  end.

(** [while iter.peek().is_some()]: every turn takes at least one item. *)
Fixpoint from_iter_leaves (fuel : nat) (iter : list T) : option (list (Node T S)) :=
  match iter with
  | [] => Some []
  | _ =>
      match fuel with
      | O => None
      | Datatypes.S fuel =>
          leaf ← leaf_of (take (2 * TREE_BASE) iter);
          leaves ← from_iter_leaves fuel (drop (2 * TREE_BASE) iter);
          Some (leaf :: leaves)
      end
  end.

(** Adding [child_node] to the parent that is being filled. *)
Definition add_child (parent child_node : Node T S) : option (Node T S) :=
  match parent with
  | Leaf _ _ _ => None
  | Internal height summary child_summaries child_trees =>
      child_summaries' ← array_vec (child_summaries ++ [NodeOps.summary child_node]);
      child_trees' ← array_vec (child_trees ++ [child_node]);
      Some (Internal height (sadd cx summary (NodeOps.summary child_node))
              child_summaries' child_trees')
  end.

(** [for child_node in nodes.drain(..)] and the [extend] after it. *)
Fixpoint fill_parents (height : nat) (current_parent_node : option (Node T S))
    (nodes : list (Node T S)) : option (list (Node T S)) :=
  match nodes with
  | [] => Some (option_list current_parent_node)
  | child_node :: nodes =>
      let parent_node := default (Internal height (szero cx) [] []) current_parent_node in
      parent_node ← add_child parent_node child_node;
      child_trees ← NodeOps.child_trees parent_node;
      if (length child_trees =? 2 * TREE_BASE)%nat then
        parent_nodes ← fill_parents height None nodes;
        Some (parent_node :: parent_nodes)
      else fill_parents height (Some parent_node) nodes
  end.

(** [while nodes.len() > 1]: a level has fewer nodes than the one below. *)
Fixpoint build_levels (fuel height : nat) (nodes : list (Node T S)) : option (Node T S) :=
  match nodes with
  | [] => Some new
  | [node] => Some node
  | _ =>
      match fuel with
      | O => None
      | Datatypes.S fuel =>
          nodes ← fill_parents (height + 1) None nodes;
          build_levels fuel (height + 1) nodes
      end
  end.

Definition from_iter (iter : list T) : option (Node T S) :=
  nodes ← from_iter_leaves (length iter) iter;
  build_levels (length nodes) 0 nodes.

(** [from_par_iter]: the chunks of a level are built independently, so the
    model builds them in order. *)
Definition parent_of (height : nat) (child_nodes : list (Node T S)) : option (Node T S) :=
  child_trees ← array_vec child_nodes;
  child_summaries ← array_vec (NodeOps.summary <$> child_trees);
  match child_summaries with
  | [] => None
  | s :: ss => Some (Internal height (foldl (sadd cx) s ss) child_summaries child_trees)
  end.

Fixpoint par_parents (fuel height : nat) (nodes : list (Node T S)) : option (list (Node T S)) :=
  match nodes with
  | [] => Some []
  | _ =>
      match fuel with
      | O => None
      | Datatypes.S fuel =>
          parent ← parent_of height (take (2 * TREE_BASE) nodes);
          parents ← par_parents fuel height (drop (2 * TREE_BASE) nodes);
          Some (parent :: parents)
      end
  end.

Fixpoint par_levels (fuel height : nat) (nodes : list (Node T S)) : option (Node T S) :=
  match nodes with
  | [] => Some new
  | [node] => Some node
  | _ =>
      match fuel with
      | O => None
      | Datatypes.S fuel =>
          nodes ← par_parents (length nodes) (height + 1) nodes;
          par_levels fuel (height + 1) nodes
      end
  end.

Definition from_par_iter (iter : list T) : option (Node T S) :=
  nodes ← from_iter_leaves (length iter) iter;
  par_levels (length nodes) 0 nodes.

(** *** Appending *)

(** Splitting a node of [child_count > 2 * TREE_BASE] children: the left node
    keeps the first half, rounded up. *)
Definition midpoint (child_count : nat) : nat :=
  Nat.div (child_count + child_count mod 2) 2.

Definition from_child_trees (left right : Node T S) : option (Node T S) :=
  child_summaries ← array_vec [summary left; summary right];
  child_trees ← array_vec [left; right];
  Some (Internal (height left + 1) (sum child_summaries) child_summaries child_trees).

(** The last part of the [Internal] arm of [push_tree_recursive]. *)
Definition push_children (height : nat) (summary : S) (child_summaries : list S)
    (child_trees : list (Node T S)) (summaries_to_append : list S)
    (trees_to_append : list (Node T S)) : option (Node T S * option (Node T S)) :=
  let child_count := (length child_trees + length trees_to_append)%nat in
  if (2 * TREE_BASE <? child_count)%nat then
    let all_summaries := child_summaries ++ summaries_to_append in
    let all_trees := child_trees ++ trees_to_append in
    left_summaries ← array_vec (take (midpoint child_count) all_summaries);
    right_summaries ← array_vec (drop (midpoint child_count) all_summaries);
    left_trees ← array_vec (take (midpoint child_count) all_trees);
    right_trees ← array_vec (drop (midpoint child_count) all_trees);
    Some (Internal height (sum left_summaries) left_summaries left_trees,
          Some (Internal height (sum right_summaries) right_summaries right_trees))
  else
    child_summaries ← array_vec (child_summaries ++ summaries_to_append);
    child_trees ← array_vec (child_trees ++ trees_to_append);
    Some (Internal height summary child_summaries child_trees, None).

(** The [Leaf] arm. *)
Definition push_items (s : S) (items : list T) (item_summaries : list S)
    (other : Node T S) : option (Node T S * option (Node T S)) :=
  other_items ← NodeOps.items other;
  let child_count := (length items + length other_items)%nat in
  if (2 * TREE_BASE <? child_count)%nat then
    let all_items := items ++ other_items in
    let all_summaries := item_summaries ++ child_summaries other in
    left_items ← array_vec (take (midpoint child_count) all_items);
    right_items ← array_vec (drop (midpoint child_count) all_items);
    left_summaries ← array_vec (take (midpoint child_count) all_summaries);
    right_summaries ← array_vec (drop (midpoint child_count) all_summaries);
    Some (Leaf (sum left_summaries) left_items left_summaries,
          Some (Leaf (sum right_summaries) right_items right_summaries))
  else
    items ← array_vec (items ++ other_items);
    item_summaries ← array_vec (item_summaries ++ child_summaries other);
    Some (Leaf (sadd cx s (summary other)) items item_summaries, None).

(** The tree left in [self] and the returned split. [None] for a
    [height_delta] below zero, which panics. *)
Fixpoint push_tree_recursive (self other : Node T S) {struct self} :
    option (Node T S * option (Node T S)) :=
  match self with
  | Internal height_ summary_ child_summaries_ child_trees_ =>
      let summary' := sadd cx summary_ (summary other) in
      if (height_ <? height other)%nat then None else
      let height_delta := (height_ - height other)%nat in
      if (height_delta =? 0)%nat then
        trees_to_append ← child_trees other;
        push_children height_ summary' child_summaries_ child_trees_
          (child_summaries other) trees_to_append
      else if (height_delta =? 1)%nat && negb (is_underflowing other) then
        push_children height_ summary' child_summaries_ child_trees_ [summary other] [other]
      else
        '(child_trees', tree_to_append) ← with_last (λ c, push_tree_recursive c other) child_trees_;
        last_child ← list.last child_trees';
        '(child_summaries', _) ← with_last (λ _, Some (summary last_child, ())) child_summaries_;
        match tree_to_append with
        | Some split_tree =>
            push_children height_ summary' child_summaries' child_trees'
              [summary split_tree] [split_tree]
        | None => push_children height_ summary' child_summaries' child_trees' [] []
        end
  | Leaf summary_ items_ item_summaries_ => push_items summary_ items_ item_summaries_ other
  end.

(** [merge_into_right]: what is left in [large], and the returned node. *)
Definition merge_into_right (small large : Node T S) :
    option (Node T S * option (Node T S)) :=
  match small, large with
  | Internal _ small_summary small_child_summaries small_child_trees,
    Internal height summary child_summaries child_trees =>
      let total_child_count := (length child_trees + length small_child_trees)%nat in
      if (total_child_count <=? 2 * TREE_BASE)%nat then
        all_trees ← array_vec (small_child_trees ++ child_trees);
        all_summaries ← array_vec (small_child_summaries ++ child_summaries);
        Some (Internal height (sadd cx small_summary summary) all_summaries all_trees, None)
      else
        let midpoint := Nat.div (total_child_count + 1) 2 in
        let all_trees := small_child_trees ++ child_trees in
        let all_summaries := small_child_summaries ++ child_summaries in
        left_trees ← array_vec (take midpoint all_trees);
        child_trees ← array_vec (drop midpoint all_trees);
        left_summaries ← array_vec (take midpoint all_summaries);
        child_summaries ← array_vec (drop midpoint all_summaries);
        Some (Internal height (sum child_summaries) child_summaries child_trees,
              Some (Internal height (sum left_summaries) left_summaries left_trees))
  | Leaf small_summary small_items small_item_summaries,
    Leaf summary items item_summaries =>
      let total_child_count := (length small_items + length items)%nat in
      if (total_child_count <=? 2 * TREE_BASE)%nat then
        all_items ← array_vec (small_items ++ items);
        all_summaries ← array_vec (small_item_summaries ++ item_summaries);
        Some (Leaf (sadd cx small_summary summary) all_items all_summaries, None)
      else
        let midpoint := Nat.div (total_child_count + 1) 2 in
        let all_items := small_items ++ items in
        let all_summaries := small_item_summaries ++ item_summaries in
        left_items ← array_vec (take midpoint all_items);
        items ← array_vec (drop midpoint all_items);
        left_summaries ← array_vec (take midpoint all_summaries);
        item_summaries ← array_vec (drop midpoint all_summaries);
        Some (Leaf (sum item_summaries) items item_summaries,
              Some (Leaf (sum left_summaries) left_items left_summaries))
  | _, _ => None
  end.

(** [append_large]: what is left in [large], and the returned node. *)
Fixpoint append_large (small large : Node T S) {struct large} :
    option (Node T S * option (Node T S)) :=
  if (height small =? height large)%nat then
    if negb (is_underflowing small) then Some (large, Some small)
    else merge_into_right small large
  else
    match large with
    | Leaf _ _ _ => None
    | Internal height_ summary_ child_summaries_ child_trees_ =>
        let full_summary := sadd cx (summary small) summary_ in
        match child_trees_, child_summaries_ with
        | first :: trees, _ :: summaries =>
            '(first, res) ← append_large small first;
            let child_summaries_ := summary first :: summaries in
            let child_trees_ := first :: trees in
            match res with
            | Some tree =>
                if (length child_trees_ <? 2 * TREE_BASE)%nat then
                  child_summaries_ ← array_vec (summary tree :: child_summaries_);
                  child_trees_ ← array_vec (tree :: child_trees_);
                  Some (Internal height_ full_summary child_summaries_ child_trees_, None)
                else
                  new_child_summaries ← array_vec (summary tree :: take TREE_BASE child_summaries_);
                  new_child_trees ← array_vec (tree :: take TREE_BASE child_trees_);
                  let child_summaries_ := drop TREE_BASE child_summaries_ in
                  let child_trees_ := drop TREE_BASE child_trees_ in
                  Some (Internal height_ (sum child_summaries_) child_summaries_ child_trees_,
                        Some (Internal height_ (sum new_child_summaries)
                                new_child_summaries new_child_trees))
            | None => Some (Internal height_ full_summary child_summaries_ child_trees_, None)
            end
        | _, _ => None
        end
    end.

Definition append (self other : Node T S) : option (Node T S) :=
  if is_empty self then Some other
  else if is_empty other then Some self
  else if (height self <? height other)%nat then
    '(other, tree) ← append_large self other;
    match tree with
    | Some tree => from_child_trees tree other
    | None => Some other
    end
  else
    '(self, split_tree) ← push_tree_recursive self other;
    match split_tree with
    | Some split_tree => from_child_trees self split_tree
    | None => Some self
    end.

Definition extend (self : Node T S) (iter : list T) : option (Node T S) :=
  other ← from_iter iter; append self other.

Definition par_extend (self : Node T S) (iter : list T) : option (Node T S) :=
  other ← from_par_iter iter; append self other.

Definition push (self : Node T S) (item : T) : option (Node T S) :=
  let s := isummary cx item in
  append self (Leaf s [item] [s]).

Definition from_item (item : T) : option (Node T S) := push new item.

(** *** Updating an end *)

Fixpoint update_last_recursive (f : T → T) (self : Node T S) :
    option (Node T S * option S) :=
  match self with
  | Internal height_ _ child_summaries_ child_trees_ =>
      '(child_trees, last_summary) ← with_last (λ c, update_last_recursive f c) child_trees_;
      last_summary ← last_summary;
      '(child_summaries, _) ← with_last (λ _, Some (last_summary, ())) child_summaries_;
      let s := sum child_summaries in
      Some (Internal height_ s child_summaries child_trees, Some s)
  | Leaf summary_ items_ item_summaries_ =>
      match list.last items_, list.last item_summaries_ with
      | Some item, Some _ =>
          let item := f item in
          '(items, _) ← with_last (λ _, Some (item, ())) items_;
          '(item_summaries, _) ← with_last (λ _, Some (isummary cx item, ())) item_summaries_;
          let s := sum item_summaries in
          Some (Leaf s items item_summaries, Some s)
      | _, _ => Some (self, None)
      end
  end.

Definition update_last (self : Node T S) (f : T → T) : option (Node T S) :=
  fst <$> update_last_recursive f self.

Fixpoint update_first_recursive (f : T → T) (self : Node T S) :
    option (Node T S * option S) :=
  match self with
  | Internal height_ _ child_summaries_ child_trees_ =>
      match child_summaries_, child_trees_ with
      | _ :: summaries, first_child :: trees =>
          '(first_child, first_summary) ← update_first_recursive f first_child;
          first_summary ← first_summary;
          let child_summaries := first_summary :: summaries in
          let s := sum child_summaries in
          Some (Internal height_ s child_summaries (first_child :: trees), Some s)
      | _, _ => None
      end
  | Leaf summary_ items_ item_summaries_ =>
      match items_, item_summaries_ with
      | item :: items, _ :: item_summaries =>
          let item := f item in
          let item_summaries := isummary cx item :: item_summaries in
          let s := sum item_summaries in
          Some (Leaf s (item :: items) item_summaries, Some s)
      | _, _ => Some (self, None)
      end
  end.

Definition update_first (self : Node T S) (f : T → T) : option (Node T S) :=
  fst <$> update_first_recursive f self.

(** *** Searching *)

Section find.
Context {D : Type} `{!Dimension D S Cx}.

Definition extent (self : Node T S) : D := dadd cx (dzero S cx) (summary self).

(** [target.cmp(&position, cx)]. *)
Variable target : D → comparison.
Variable bias : Bias.

Definition target_in_child (child_end : D) : bool :=
  match target child_end with
  | Lt => true
  | Eq => bool_decide (bias = BiasLeft)
  | Gt => false
  end.

Definition entry_found (exact : bool) (child_end : D) : bool :=
  if exact then match target child_end with Eq => true | _ => false end
  else target_in_child child_end.

(** The result and the final value of [position]. *)
Fixpoint scan_leaf (exact : bool) (position : D) (items : list T) (summaries : list S) :
    option (T * D) * D :=
  match items, summaries with
  | item :: items, item_summary :: summaries =>
      let child_end := dadd cx position item_summary in
      if entry_found exact child_end then (Some (item, child_end), position)
      else scan_leaf exact child_end items summaries
  | _, _ => (None, position)
  end.

Fixpoint find_iterate (exact : bool) (position : D) (this : Node T S) {struct this} :
    option (T * D) * D :=
  match this with
  | Internal _ _ child_summaries child_trees =>
      (fix go position child_trees child_summaries :=
         match child_trees, child_summaries with
         | child_tree :: child_trees, child_summary :: child_summaries =>
             let child_end := dadd cx position child_summary in
             if target_in_child child_end then find_iterate exact position child_tree
             else go child_end child_trees child_summaries
         | _, _ => (None, position)
         end) position child_trees child_summaries
  | Leaf _ items item_summaries => scan_leaf exact position items item_summaries
  end.

Definition beyond (tree_end : D) : bool :=
  match target tree_end with
  | Gt => true
  | Eq => bool_decide (bias = BiasRight)
  | Lt => false
  end.

Definition find_with (exact : bool) (self : Node T S) : D * D * option T :=
  let tree_end := dadd cx (dzero S cx) (summary self) in
  if beyond tree_end then (tree_end, tree_end, None)
  else match find_iterate exact (dzero S cx) self with
       | (Some (item, end_), pos) => (pos, end_, Some item)
       | (None, pos) => (pos, pos, None)
       end.

Definition find_exact := find_with true.
Definition find := find_with false.

(** [find_with_prev]: also the item before the one that is found. *)
Fixpoint scan_leaf_prev (prev : option T) (position : D) (items : list T) (summaries : list S) :
    option (option T * T * D) * D :=
  match items, summaries with
  | item :: items, item_summary :: summaries =>
      let child_end := dadd cx position item_summary in
      if entry_found false child_end then (Some (prev, item, child_end), position)
      else scan_leaf_prev (Some item) child_end items summaries
  | _, _ => (None, position)
  end.

(** [None] is the panic of [child_tree.last()]. *)
Fixpoint find_with_prev_iterate (prev : option T) (position : D) (this : Node T S)
    {struct this} : option (option (option T * T * D) * D) :=
  match this with
  | Internal _ _ child_summaries child_trees =>
      (fix go prev position child_trees child_summaries {struct child_trees} :=
         match child_trees, child_summaries with
         | child_tree :: child_trees, child_summary :: child_summaries =>
             let child_end := dadd cx position child_summary in
             if target_in_child child_end then find_with_prev_iterate prev position child_tree
             else prev ← last child_tree; go prev child_end child_trees child_summaries
         | _, _ => Some (None, position)
         end) prev position child_trees child_summaries
  | Leaf _ items item_summaries => Some (scan_leaf_prev prev position items item_summaries)
  end.

Definition find_with_prev (self : Node T S) : option (D * D * option (option T * T)) :=
  let tree_end := dadd cx (dzero S cx) (summary self) in
  if beyond tree_end then Some (tree_end, tree_end, None)
  else '(r, pos) ← find_with_prev_iterate None (dzero S cx) self;
       Some match r with
            | Some (prev, item, end_) => (pos, end_, Some (prev, item))
            | None => (pos, pos, None)
            end.

End find.
End TreeOps.
End TreeOps.

(** ** Well-formed trees *)

Import NodeOps TreeOps.

Section summaries.
Context {S Cx : Type} `{!Summary S Cx} (cx : Cx) `{!SummaryLaws S Cx cx}.

Lemma foldl_sadd a (l : list S) : l ≠ [] → foldl (sadd cx) a l = sadd cx a (sum cx l).
Proof.
  revert a. induction l as [|x l IH]; intros a Hl; [done|].
  unfold sum. simpl. destruct l as [|y l]; [simpl; by rewrite sadd_zero_l|].
  rewrite !IH by done. by rewrite sadd_zero_l, sadd_assoc.
Qed.

Lemma sum_first s (l : list S) : sum cx (s :: l) = foldl (sadd cx) s l.
Proof. unfold sum. simpl. by rewrite sadd_zero_l. Qed.

Lemma sum_app (a b : list S) : b ≠ [] → sum cx (a ++ b) = sadd cx (sum cx a) (sum cx b).
Proof. intros Hb. unfold sum at 1 2. rewrite foldl_app. by apply foldl_sadd. Qed.

End summaries.

Section forest.
Context {T S : Type}.
Implicit Types t : Node T S.

(** The items of a tree, in order: what it abstracts to. *)
Fixpoint tree_items t : list T :=
  match t with
  | Leaf _ is_ _ => is_
  | Internal _ _ _ ts => concat (tree_items <$> ts)
  end.

Definition forest_items (ts : list (Node T S)) : list T := concat (tree_items <$> ts).

Lemma forest_items_app ts us : forest_items (ts ++ us) = forest_items ts ++ forest_items us.
Proof. unfold forest_items. by rewrite fmap_app, concat_app. Qed.

Lemma forest_items_cons t us : forest_items (t :: us) = tree_items t ++ forest_items us.
Proof. done. Qed.

Lemma forest_items_one t : forest_items [t] = tree_items t.
Proof. unfold forest_items. simpl. by rewrite app_nil_r. Qed.

End forest.

Section wf.
Context {T S Cx : Type} `{!Summary S Cx, !Item T S Cx} (cx : Cx) `{!SummaryLaws S Cx cx}.
Implicit Types t : Node T S.

Definition total (l : list T) : S := sum cx (isummary cx <$> l).

(** A non-empty tree whose leaves are at depth [h], whose nodes are within
    capacity, and whose cached summaries are right. Nodes may be underfull:
    [append] does not restore the minimal fill of a B-tree. *)
Fixpoint wf (h : nat) t : Prop :=
  match h, t with
  | O, Leaf s is_ ss =>
      is_ ≠ [] ∧ (length is_ ≤ 2 * TREE_BASE)%nat ∧ ss = isummary cx <$> is_ ∧ s = total is_
  | Datatypes.S h, Internal n s cs ts =>
      n = Datatypes.S h ∧ ts ≠ [] ∧ (length ts ≤ 2 * TREE_BASE)%nat ∧
      cs = summary <$> ts ∧ s = total (forest_items ts) ∧ Forall (wf h) ts
  | _, _ => False
  end.

(** What the operations preserve: an empty leaf or a well-formed tree. *)
Definition tree_ok t : Prop := t = new cx ∨ ∃ h, wf h t.

Lemma total_app (a b : list T) : b ≠ [] → total (a ++ b) = sadd cx (total a) (total b).
Proof. intros Hb. unfold total. rewrite fmap_app. apply (sum_app cx). by destruct b. Qed.

Lemma wf_items h t : wf h t → tree_items t ≠ [].
Proof.
  revert t. induction h as [|h IH]; intros []; simpl; try done.
  - by intros [Hne _].
  - intros (_ & Hne & _ & _ & _ & Hf). destruct child_trees0 as [|c cs]; [done|].
    apply Forall_cons in Hf as [Hc _]. simpl. intros [Hn _]%app_eq_nil. by apply (IH c).
Qed.

Lemma wf_summary h t : wf h t → summary t = total (tree_items t).
Proof.
  destruct h, t; simpl; try done.
  - by intros (_ & _ & _ & ->).
  - by intros (_ & _ & _ & _ & -> & _).
Qed.

Lemma wf_height h t : wf h t → height t = h.
Proof. destruct h, t; simpl; naive_solver. Qed.

Lemma wf_not_empty h t : wf h t → is_empty t = false.
Proof. destruct h, t as [|? [] ?]; simpl; naive_solver. Qed.

Lemma forest_items_ne h ts : Forall (wf h) ts → ts ≠ [] → forest_items ts ≠ [].
Proof.
  intros Hf Hne. destruct ts as [|c cs]; [done|]. apply Forall_cons in Hf as [Hc _].
  rewrite forest_items_cons. intros [Hn _]%app_eq_nil. by apply (wf_items h c).
Qed.

Lemma sum_summaries h ts : Forall (wf h) ts → sum cx (summary <$> ts) = total (forest_items ts).
Proof.
  intros Hf. induction ts as [|t ts IH] using rev_ind; [done|].
  apply Forall_app in Hf as [Hf [Ht _]%Forall_cons].
  rewrite fmap_app, sum_app, forest_items_app, forest_items_one, total_app, IH by
    (done || by eapply wf_items). f_equal.
  rewrite <- (wf_summary _ _ Ht). apply sadd_zero_l.
Qed.

Lemma wf_leaf is_ :
  is_ ≠ [] → (length is_ ≤ 2 * TREE_BASE)%nat →
  wf 0 (Leaf (sum cx (isummary cx <$> is_)) is_ (isummary cx <$> is_)).
Proof. by intros Hne Hl. Qed.

Lemma wf_internal h ts :
  ts ≠ [] → (length ts ≤ 2 * TREE_BASE)%nat → Forall (wf h) ts →
  wf (Datatypes.S h) (Internal (Datatypes.S h) (sum cx (summary <$> ts)) (summary <$> ts) ts).
Proof. intros Hne Hl Hf. simpl. split_and!; try done. by eapply sum_summaries. Qed.

End wf.

Lemma array_vec_ok {A} (l : list A) : (length l ≤ 2 * TREE_BASE)%nat → array_vec l = Some l.
Proof. intros H. unfold array_vec. by destruct (Nat.leb_spec (length l) (2 * TREE_BASE)); [|lia]. Qed.

Lemma with_last_snoc {A R} (f : A → option (A * R)) l x :
  with_last f (l ++ [x]) = '(x', r) ← f x; Some (l ++ [x'], r).
Proof.
  induction l as [|y l IH]; [done|].
  simpl. destruct (l ++ [x]) eqn:E; [by apply app_eq_nil in E as [_ ?]|].
  rewrite IH. by destruct (f x) as [[x' r]|].
Qed.

Lemma midpoint_bounds n :
  (2 * TREE_BASE < n ≤ 4 * TREE_BASE)%nat →
  (0 < midpoint n ≤ 2 * TREE_BASE ∧ 0 < n - midpoint n ≤ 2 * TREE_BASE)%nat.
Proof.
  unfold midpoint, TREE_BASE. intros H.
  pose proof (Nat.div_mod_eq n 2). pose proof (Nat.mod_upper_bound n 2 ltac:(lia)).
  pose proof (Nat.div_mod_eq (n + n mod 2) 2).
  pose proof (Nat.mod_upper_bound (n + n mod 2) 2 ltac:(lia)). lia.
Qed.

(** ** Appending keeps the tree well-formed and concatenates the items *)

Section append.
Context {T S Cx : Type} `{!Summary S Cx, !Item T S Cx} (cx : Cx) `{!SummaryLaws S Cx cx}.
Implicit Types t : Node T S.
Implicit Types ts us : list (Node T S).

Definition opt_items (o : option (Node T S)) : list T := default [] (tree_items <$> o).

(** A node and its split to the right (or, with the arguments of the
    concatenation swapped, to the left). *)
Definition split_right (h : nat) (l : list T) (p : Node T S * option (Node T S)) : Prop :=
  wf cx h p.1 ∧ (∀ t, p.2 = Some t → wf cx h t) ∧ tree_items p.1 ++ opt_items p.2 = l.

Definition split_left (h : nat) (l : list T) (p : Node T S * option (Node T S)) : Prop :=
  wf cx h p.1 ∧ (∀ t, p.2 = Some t → wf cx h t) ∧ opt_items p.2 ++ tree_items p.1 = l.

(** The two halves of an overfull list of children, or of items. *)
Lemma halves_internal h ts m :
  Forall (wf cx h) ts →
  (0 < m ≤ 2 * TREE_BASE)%nat → (0 < length ts - m ≤ 2 * TREE_BASE)%nat →
  let node ts := Internal (Datatypes.S h) (sum cx (summary <$> ts)) (summary <$> ts) ts in
  wf cx (Datatypes.S h) (node (take m ts)) ∧ wf cx (Datatypes.S h) (node (drop m ts)) ∧
  forest_items (take m ts) ++ forest_items (drop m ts) = forest_items ts.
Proof.
  intros Hf H1 H2 node. split_and!.
  - apply (wf_internal cx); [|rewrite length_take; lia|by apply Forall_take].
    intros E%(f_equal length). rewrite length_take in E. simpl in E. lia.
  - apply (wf_internal cx); [|rewrite length_drop; lia|by apply Forall_drop].
    intros E%(f_equal length). rewrite length_drop in E. simpl in E. lia.
  - by rewrite <- forest_items_app, take_drop.
Qed.

Lemma halves_leaf (l : list T) m :
  (0 < m ≤ 2 * TREE_BASE)%nat → (0 < length l - m ≤ 2 * TREE_BASE)%nat →
  let leaf l := Leaf (sum cx (isummary cx <$> l)) l (isummary cx <$> l) in
  wf cx 0 (leaf (take m l)) ∧ wf cx 0 (leaf (drop m l)).
Proof.
  intros H1 H2 leaf. split.
  - apply (wf_leaf cx); [|rewrite length_take; lia].
    intros E%(f_equal length). rewrite length_take in E. simpl in E. lia.
  - apply (wf_leaf cx); [|rewrite length_drop; lia].
    intros E%(f_equal length). rewrite length_drop in E. simpl in E. lia.
Qed.

Lemma push_children_ok h s ts us :
  Forall (wf cx h) (ts ++ us) → ts ≠ [] →
  (length ts ≤ 2 * TREE_BASE)%nat → (length us ≤ 2 * TREE_BASE)%nat →
  s = total cx (forest_items (ts ++ us)) →
  returns (push_children cx (Datatypes.S h) s (summary <$> ts) ts (summary <$> us) us)
    (split_right (Datatypes.S h) (forest_items (ts ++ us))).
Proof.
  intros Hf Hne Hl1 Hl2 Hs. unfold push_children. rewrite <- !fmap_app, <- length_app.
  destruct (Nat.ltb_spec (2 * TREE_BASE) (length (ts ++ us))) as [Hlt|Hle].
  - assert (length (ts ++ us) ≤ 4 * TREE_BASE)%nat by (rewrite length_app; lia).
    destruct (midpoint_bounds (length (ts ++ us))) as [Hm1 Hm2]; [lia|].
    destruct (halves_internal h (ts ++ us) _ Hf Hm1 Hm2) as (H1 & H2 & H3).
    rewrite <- !fmap_take, <- !fmap_drop.
    rewrite !array_vec_ok by (rewrite ?length_fmap, ?length_take, ?length_drop; lia). simpl.
    apply returns_ret. split_and!; [done| |done]. intros t Ht. by injection Ht as <-.
  - rewrite !array_vec_ok by (rewrite ?length_fmap; lia). simpl. apply returns_ret.
    split_and!; [|done|simpl; by rewrite app_nil_r].
    simpl. split_and!; try done. by destruct ts.
Qed.

Lemma push_items_ok (is_ js : list T) :
  is_ ≠ [] → js ≠ [] → (length is_ ≤ 2 * TREE_BASE)%nat → (length js ≤ 2 * TREE_BASE)%nat →
  returns (push_items cx (total cx is_) is_ (isummary cx <$> is_)
             (Leaf (total cx js) js (isummary cx <$> js)))
    (split_right 0 (is_ ++ js)).
Proof.
  intros Hne1 Hne2 Hl1 Hl2. unfold push_items. simpl. rewrite <- !fmap_app, <- length_app.
  destruct (Nat.ltb_spec (2 * TREE_BASE) (length (is_ ++ js))) as [Hlt|Hle].
  - assert (length (is_ ++ js) ≤ 4 * TREE_BASE)%nat by (rewrite length_app; lia).
    destruct (midpoint_bounds (length (is_ ++ js))) as [Hm1 Hm2]; [lia|].
    destruct (halves_leaf (is_ ++ js) _ Hm1 Hm2) as (H1 & H2).
    rewrite <- !fmap_take, <- !fmap_drop.
    rewrite !array_vec_ok by (rewrite ?length_fmap, ?length_take, ?length_drop; lia). simpl.
    apply returns_ret. split_and!; [done| |].
    + intros t Ht. by injection Ht as <-.
    + apply take_drop.
  - rewrite !array_vec_ok by (rewrite ?length_fmap; lia). simpl. apply returns_ret.
    split_and!; [|done|simpl; by rewrite app_nil_r].
    simpl. split_and!; try done; [by destruct is_|]. by rewrite total_app.
Qed.

Lemma wf_internal_inv h t :
  wf cx (Datatypes.S h) t →
  ∃ ts, t = Internal (Datatypes.S h) (total cx (forest_items ts)) (summary <$> ts) ts ∧
    ts ≠ [] ∧ (length ts ≤ 2 * TREE_BASE)%nat ∧ Forall (wf cx h) ts.
Proof. destruct t; simpl; [|done]. intros (-> & ? & ? & -> & -> & ?). by eexists. Qed.

Lemma wf_leaf_inv t :
  wf cx 0 t →
  ∃ l, t = Leaf (total cx l) l (isummary cx <$> l) ∧ l ≠ [] ∧ (length l ≤ 2 * TREE_BASE)%nat.
Proof. destruct t; simpl; [done|]. intros (? & ? & -> & ->). by eexists. Qed.

Lemma push_tree_recursive_ok h h' self other :
  wf cx h self → wf cx h' other → (h' ≤ h)%nat →
  returns (push_tree_recursive cx self other) (split_right h (tree_items self ++ tree_items other)).
Proof.
  revert self. induction h as [|h IH]; intros self Hs Ho Hle.
  { assert (h' = 0)%nat as -> by lia.
    apply wf_leaf_inv in Hs as (l & -> & ? & ?), Ho as (k & -> & ? & ?). by apply push_items_ok. }
  pose proof (wf_height _ _ _ Ho) as Hho. pose proof (wf_summary _ _ _ Ho) as Hso.
  pose proof (wf_items _ _ _ Ho) as Hne.
  apply wf_internal_inv in Hs as (ts & -> & Hts & Hl & Hf).
  cbn [push_tree_recursive]. rewrite Hho.
  assert (sadd cx (total cx (forest_items ts)) (summary other) =
          total cx (forest_items ts ++ tree_items other)) as -> by (by rewrite Hso, total_app).
  change (tree_items (Internal _ _ _ ts)) with (forest_items ts).
  destruct (Nat.ltb_spec (Datatypes.S h) h'); [lia|].
  destruct (Nat.eqb_spec (Datatypes.S h - h') 0) as [Hd|Hd].
  - assert (h' = Datatypes.S h) as -> by lia.
    apply wf_internal_inv in Ho as (us & -> & Hus & Hl' & Hf'). simpl.
    change (concat _) with (forest_items us). rewrite <- forest_items_app.
    apply push_children_ok; try done. by apply Forall_app.
  - destruct (_ && _) eqn:Hb.
    + apply andb_true_iff in Hb as [Hb%Nat.eqb_eq _]. assert (h' = h) as -> by lia.
      rewrite <- (forest_items_one other), <- forest_items_app.
      apply (push_children_ok h _ ts [other]); try done; [|unfold TREE_BASE; simpl; lia].
      apply Forall_app. split; [done|by repeat constructor].
    + clear Hb. destruct ts as [|c ts _] using rev_ind; [done|].
      apply Forall_app in Hf as [Hf [Hc _]%Forall_cons].
      destruct (IH c Hc Ho ltac:(lia)) as ([c' o] & Hr & Hc' & Ho' & Hi).
      rewrite with_last_snoc, Hr. simpl. rewrite last_snoc. simpl.
      rewrite fmap_app. change (summary <$> [c]) with [summary c]. rewrite with_last_snoc. simpl.
      rewrite !forest_items_app, forest_items_one, <- app_assoc. simpl in Hi. rewrite <- Hi.
      rewrite length_app in Hl. simpl in Hl.
      assert (Forall (wf cx h) (ts ++ [c'])) by (apply Forall_app; by repeat constructor).
      change [summary c'] with (summary <$> [c']). rewrite <- fmap_app.
      destruct o as [t|]; simpl.
      * specialize (Ho' t eq_refl). change (opt_items (Some t)) with (tree_items t).
        rewrite app_assoc, <- (forest_items_one c'), <- (forest_items_one t), <- !forest_items_app.
        apply (push_children_ok h _ (ts ++ [c']) [t]); simpl; try done; [..|unfold TREE_BASE; lia].
        -- apply Forall_app. split; [done|by repeat constructor].
        -- by destruct ts.
        -- rewrite length_app. simpl. lia.
      * change (opt_items None) with (@nil T).
        rewrite app_nil_r, <- (forest_items_one c'), <- forest_items_app.
        pose proof (push_children_ok h (total cx (forest_items (ts ++ [c']))) (ts ++ [c']) []) as Hp.
        rewrite app_nil_r in Hp. apply Hp; try done; [by destruct ts| |unfold TREE_BASE; simpl; lia].
        rewrite length_app. simpl. lia.
Qed.

Lemma merge_into_right_ok h small large :
  wf cx h small → wf cx h large →
  returns (merge_into_right cx small large) (split_left h (tree_items small ++ tree_items large)).
Proof.
  intros Hs Hl.
  assert (∀ n, (2 * TREE_BASE < n ≤ 4 * TREE_BASE →
    0 < (n + 1) / 2 ≤ 2 * TREE_BASE ∧ 0 < n - (n + 1) / 2 ≤ 2 * TREE_BASE)%nat) as Hmid.
  { intros n. unfold TREE_BASE. intros Hn. pose proof (Nat.div_mod_eq (n + 1) 2).
    pose proof (Nat.mod_upper_bound (n + 1) 2 ltac:(lia)). lia. }
  destruct h as [|h].
  - apply wf_leaf_inv in Hs as (l & -> & Hne1 & Hl1), Hl as (k & -> & Hne2 & Hl2). simpl.
    rewrite <- !fmap_app, <- length_app.
    destruct (Nat.leb_spec (length (l ++ k)) (2 * TREE_BASE)) as [Hle|Hgt].
    + rewrite !array_vec_ok by (rewrite ?length_fmap; lia). simpl. apply returns_ret.
      split_and!; [|done|done]. simpl. rewrite total_app by done. split_and!; try done. by destruct l.
    + destruct (Hmid (length (l ++ k))) as [Hm1 Hm2]; [split; [done|rewrite length_app; lia]|].
      destruct (halves_leaf (l ++ k) _ Hm1 Hm2) as (H1 & H2). rewrite <- !fmap_take, <- !fmap_drop.
      rewrite !array_vec_ok by (rewrite ?length_fmap, ?length_take, ?length_drop; lia). simpl.
      apply returns_ret. split_and!; [done| |apply take_drop]. intros t Ht. by injection Ht as <-.
  - apply wf_internal_inv in Hs as (ts & -> & Hne1 & Hl1 & Hf1).
    apply wf_internal_inv in Hl as (us & -> & Hne2 & Hl2 & Hf2). simpl.
    assert (Forall (wf cx h) (ts ++ us)) as Hf by (by apply Forall_app).
    change (concat _ ++ concat _) with (forest_items ts ++ forest_items us).
    rewrite <- !fmap_app, Nat.add_comm, <- length_app, <- forest_items_app.
    destruct (Nat.leb_spec (length (ts ++ us)) (2 * TREE_BASE)) as [Hle|Hgt].
    + rewrite !array_vec_ok by (rewrite ?length_fmap; lia). simpl. apply returns_ret.
      split_and!; [|done|done]. simpl. split_and!; try done; [by destruct ts|].
      pose proof (forest_items_ne cx h us Hf2 Hne2).
      by rewrite forest_items_app, total_app.
    + destruct (Hmid (length (ts ++ us))) as [Hm1 Hm2]; [split; [done|rewrite length_app; lia]|].
      destruct (halves_internal h (ts ++ us) _ Hf Hm1 Hm2) as (H1 & H2 & H3).
      rewrite <- !fmap_take, <- !fmap_drop.
      rewrite !array_vec_ok by (rewrite ?length_fmap, ?length_take, ?length_drop; lia). simpl.
      apply returns_ret. split_and!; [done| |done]. intros t Ht. by injection Ht as <-.
Qed.

(** The first child has been replaced by [c], with the split [o] before it. *)
Lemma insert_first_ok h s c o ts :
  wf cx h c → (∀ t, o = Some t → wf cx h t) → Forall (wf cx h) ts →
  (length (c :: ts) ≤ 2 * TREE_BASE)%nat →
  s = total cx (opt_items o ++ forest_items (c :: ts)) →
  let child_summaries := summary c :: (summary <$> ts) in
  let child_trees := c :: ts in
  returns
    match o with
    | Some tree =>
        if (length child_trees <? 2 * TREE_BASE)%nat then
          child_summaries ← array_vec (summary tree :: child_summaries);
          child_trees ← array_vec (tree :: child_trees);
          Some (Internal (Datatypes.S h) s child_summaries child_trees, None)
        else
          new_child_summaries ← array_vec (summary tree :: take TREE_BASE child_summaries);
          new_child_trees ← array_vec (tree :: take TREE_BASE child_trees);
          let child_summaries := drop TREE_BASE child_summaries in
          let child_trees := drop TREE_BASE child_trees in
          Some (Internal (Datatypes.S h) (sum cx child_summaries) child_summaries child_trees,
                Some (Internal (Datatypes.S h) (sum cx new_child_summaries)
                        new_child_summaries new_child_trees))
    | None => Some (Internal (Datatypes.S h) s child_summaries child_trees, None)
    end (split_left (Datatypes.S h) (opt_items o ++ forest_items (c :: ts))).
Proof.
  intros Hc Ho Hf Hl -> cs ts'.
  assert (cs = summary <$> ts') as -> by done.
  assert (Forall (wf cx h) ts') as Hf' by (by constructor).
  assert (ts' ≠ []) as Hne by done. change (length ts' ≤ 2 * TREE_BASE)%nat in Hl.
  change (c :: ts) with ts'. clearbody ts'. clear c ts Hc Hf. rename Hf' into Hf, ts' into ts.
  destruct o as [t|]; [specialize (Ho t eq_refl)|].
  - change (opt_items (Some t)) with (tree_items t). rewrite <- forest_items_cons.
    destruct (Nat.ltb_spec (length ts) (2 * TREE_BASE)) as [Hlt|Hge].
    + rewrite !array_vec_ok by (simpl; rewrite ?length_fmap; lia). simpl. apply returns_ret.
      split_and!; [|done|done]. simpl. split_and!; try done. by constructor.
    + rewrite <- fmap_take, <- fmap_drop.
      change (summary t :: (summary <$> take TREE_BASE ts)) with (summary <$> t :: take TREE_BASE ts).
      rewrite !array_vec_ok by (rewrite ?length_fmap; simpl; rewrite length_take; unfold TREE_BASE; lia).
      simpl. apply returns_ret. split_and!.
      * apply wf_internal; [done|..|by apply Forall_drop].
        -- intros E%(f_equal length). rewrite length_drop in E. revert E Hge. unfold TREE_BASE. simpl. lia.
        -- rewrite length_drop. lia.
      * intros t' Ht'. injection Ht' as <-.
        apply (wf_internal cx h (t :: take TREE_BASE ts)); [done| |].
        -- simpl. rewrite length_take. unfold TREE_BASE. lia.
        -- constructor; [done|]. by apply Forall_take.
      * change (forest_items (t :: take TREE_BASE ts) ++ forest_items (drop TREE_BASE ts) =
                forest_items (t :: ts)).
        by rewrite <- forest_items_app, <- app_comm_cons, take_drop.
  - change (opt_items None) with (@nil T). simpl. apply returns_ret. split_and!; [|done|done].
    simpl. by split_and!.
Qed.

Lemma same_height_ok h small large :
  wf cx h small → wf cx h large →
  returns (if negb (is_underflowing small) then Some (large, Some small)
           else merge_into_right cx small large)
    (split_left h (tree_items small ++ tree_items large)).
Proof.
  intros Hs Hl. destruct (negb _); [|by apply merge_into_right_ok].
  apply returns_ret. split_and!; [done| |done]. intros t Ht. by injection Ht as <-.
Qed.

Lemma append_large_ok h h' small large :
  wf cx h small → wf cx h' large → (h ≤ h')%nat →
  returns (append_large cx small large) (split_left h' (tree_items small ++ tree_items large)).
Proof.
  intros Hs. pose proof (wf_height _ _ _ Hs) as Hh. pose proof (wf_summary _ _ _ Hs) as Hsum.
  revert large. induction h' as [|h' IH]; intros large Hl Hle.
  - assert (h = 0)%nat as -> by lia. pose proof (same_height_ok _ _ _ Hs Hl) as Hm.
    apply wf_leaf_inv in Hl as (l & -> & _ & _). cbn [append_large]. rewrite Hh. exact Hm.
  - pose proof (wf_items _ _ _ Hl) as Hne.
    destruct (decide (h = Datatypes.S h')) as [->|Hneq].
    + pose proof (same_height_ok _ _ _ Hs Hl) as Hm.
      apply wf_internal_inv in Hl as (ts & -> & _). cbn [append_large]. rewrite Hh.
      cbn [height]. rewrite Nat.eqb_refl. exact Hm.
    + apply wf_internal_inv in Hl as (ts & -> & Hts & Hlen & Hf). cbn [append_large height].
      rewrite Hh. destruct (Nat.eqb_spec h (Datatypes.S h')); [done|].
      destruct ts as [|c ts]; [done|]. apply Forall_cons in Hf as [Hc Hf].
      destruct (IH c Hc ltac:(lia)) as ([c' o] & Hr & Hc' & Ho & Hi). simpl in Hc', Ho, Hi.
      cbn [fmap list_fmap]. rewrite Hr. simpl.
      change (concat (tree_items <$> c :: ts)) with (forest_items (c :: ts)).
      rewrite forest_items_cons, app_assoc, <- Hi, <- app_assoc, <- forest_items_cons.
      apply (insert_first_ok h'); try done.
      rewrite Hsum, <- total_app by done. f_equal.
      rewrite !forest_items_cons, app_assoc, <- Hi. by rewrite <- app_assoc.
Qed.

Lemma from_child_trees_ok h l r :
  wf cx h l → wf cx h r →
  returns (from_child_trees cx l r) (λ t, tree_ok cx t ∧ tree_items t = tree_items l ++ tree_items r).
Proof.
  intros Hl Hr. unfold from_child_trees. rewrite !array_vec_ok by (unfold TREE_BASE; simpl; lia).
  simpl. apply returns_ret. split; [|simpl; by rewrite app_nil_r].
  right. exists (Datatypes.S h). rewrite (wf_height _ _ _ Hl), Nat.add_1_r.
  apply (wf_internal cx h [l; r]); [done|unfold TREE_BASE; simpl; lia|by repeat constructor].
Qed.

Lemma tree_ok_new : tree_ok cx (new cx : Node T S).
Proof. by left. Qed.

Lemma append_ok self other :
  tree_ok cx self → tree_ok cx other →
  returns (append cx self other) (λ t, tree_ok cx t ∧ tree_items t = tree_items self ++ tree_items other).
Proof.
  intros Hself Hother. unfold append.
  destruct Hself as [->|[h Hs]]; [by apply returns_ret|]. rewrite (wf_not_empty _ _ _ Hs).
  destruct Hother as [->|[h' Ho]].
  { apply returns_ret. split; [right; by exists h|]. simpl. by rewrite app_nil_r. }
  rewrite (wf_not_empty _ _ _ Ho), (wf_height _ _ _ Hs), (wf_height _ _ _ Ho).
  destruct (Nat.ltb_spec h h').
  - eapply returns_bind; [by apply (append_large_ok h h'); [..|lia]|].
    intros [o [t|]] (H1 & H2 & <-); simpl in *.
    + apply (from_child_trees_ok h'); auto.
    + apply returns_ret. split; [right; by exists h'|done].
  - eapply returns_bind; [by apply (push_tree_recursive_ok h h')|].
    intros [o [t|]] (H1 & H2 & <-); simpl in *.
    + apply (from_child_trees_ok h); auto.
    + apply returns_ret. split; [right; by exists h|]. change (opt_items None) with (@nil T).
      by rewrite app_nil_r.
Qed.

(** *** Bulk construction *)

Lemma leaf_of_ok (l : list T) :
  l ≠ [] → (length l ≤ 2 * TREE_BASE)%nat →
  returns (leaf_of cx l) (λ t, wf cx 0 t ∧ tree_items t = l).
Proof.
  intros Hne Hl. unfold leaf_of. rewrite array_vec_ok by done. simpl.
  rewrite array_vec_ok by (rewrite length_fmap; done). simpl.
  destruct l as [|x l]; [done|]. apply returns_ret. split; [|done].
  cbn [fmap list_fmap]. rewrite <- (sum_first cx). by apply (wf_leaf cx (x :: l)).
Qed.

Lemma from_iter_leaves_ok fuel (l : list T) :
  (length l ≤ fuel)%nat →
  returns (from_iter_leaves cx fuel l) (λ ts, Forall (wf cx 0) ts ∧ forest_items ts = l).
Proof.
  revert l. induction fuel as [|fuel IH]; intros [|x l] Hl; try (simpl in Hl; lia);
    cbn [from_iter_leaves]; try by apply returns_ret.
  eapply returns_bind.
  { apply leaf_of_ok; [unfold TREE_BASE; done|rewrite length_take; lia]. }
  intros leaf [Hwf Hit]. eapply returns_bind.
  { apply IH. rewrite length_drop. unfold TREE_BASE. simpl in *. lia. }
  intros ts [Hf Hts]. apply returns_ret. split; [by constructor|].
  by rewrite forest_items_cons, Hit, Hts, take_drop.
Qed.

(** A parent that is being filled: it has room for another child. *)
Definition open_parent (h : nat) (o : option (Node T S)) (ts : list (Node T S)) : Prop :=
  default (Internal (Datatypes.S h) (szero cx) [] []) o =
    Internal (Datatypes.S h) (total cx (forest_items ts)) (summary <$> ts) ts ∧
  (o = None ↔ ts = []) ∧ Forall (wf cx h) ts ∧ (length ts < 2 * TREE_BASE)%nat.

Lemma add_child_ok h o ts c :
  open_parent h o ts → wf cx h c →
  add_child cx (default (Internal (Datatypes.S h) (szero cx) [] []) o) c =
    Some (Internal (Datatypes.S h) (total cx (forest_items (ts ++ [c])))
            (summary <$> ts ++ [c]) (ts ++ [c])).
Proof.
  intros (-> & _ & Hf & Hl) Hc. simpl.
  rewrite !array_vec_ok by (rewrite length_app, ?length_fmap; simpl; lia). simpl.
  rewrite fmap_app, forest_items_app, forest_items_one, (total_app cx) by (by eapply wf_items).
  by rewrite <- (wf_summary _ _ _ Hc).
Qed.

Lemma fill_parents_ok h o ts nodes :
  open_parent h o ts → Forall (wf cx h) nodes →
  returns (fill_parents cx (Datatypes.S h) o nodes) (λ ps,
    Forall (wf cx (Datatypes.S h)) ps ∧
    forest_items ps = forest_items (ts ++ nodes) ∧
    (12 * length ps ≤ length ts + length nodes + 11)%nat).
Proof.
  revert o ts. induction nodes as [|c nodes IH]; intros o ts Ho Hf; cbn [fill_parents].
  - apply returns_ret. destruct Ho as (Ho & Hemp & Hts & Hl). rewrite app_nil_r.
    destruct o as [t|]; simpl in *.
    + subst t. assert (ts ≠ []) as Hne by (intros ->; destruct Hemp as [_ H]; by specialize (H eq_refl)).
      rewrite forest_items_one. split_and!; [|done|].
      * constructor; [|done]. simpl. split_and!; try done. lia.
      * destruct ts; [done|]. simpl. lia.
    + destruct Hemp as [-> _]; [|done]. split_and!; done || simpl; lia.
  - apply Forall_cons in Hf as [Hc Hf]. rewrite (add_child_ok h o ts c Ho Hc). simpl.
    destruct Ho as (_ & _ & Hts & Hl).
    assert (Forall (wf cx h) (ts ++ [c])) as Hts' by (apply Forall_app; split; [done|by repeat constructor]).
    rewrite (cons_middle c ts nodes), app_assoc.
    destruct (Nat.eqb_spec (length (ts ++ [c])) (2 * TREE_BASE)) as [Hfull|Hnot].
    + eapply returns_bind.
      { apply (IH None []); [|done]. split_and!; [done|done|done|unfold TREE_BASE; simpl; lia]. }
      intros ps (Hps & Hit & Hlen). apply returns_ret. split_and!.
      * constructor; [|done]. simpl. split_and!; try done; [by destruct ts|lia].
      * rewrite forest_items_cons, Hit, (forest_items_app (ts ++ [c])). done.
      * rewrite length_app in Hfull. unfold TREE_BASE in Hfull. simpl in *. lia.
    + rewrite length_app in Hnot. simpl in Hnot.
      eapply returns_mono; [apply (IH (Some _) (ts ++ [c])); [|done]|].
      * split_and!; [done|by destruct ts|done|]. rewrite length_app. simpl. lia.
      * intros ps (Hps & Hit & Hlen). split_and!; [done|done|].
        rewrite length_app in Hlen. simpl in *. lia.
Qed.

Lemma build_levels_ok fuel h nodes :
  Forall (wf cx h) nodes → (length nodes ≤ fuel)%nat →
  returns (build_levels cx fuel h nodes) (λ t, tree_ok cx t ∧ tree_items t = forest_items nodes).
Proof.
  revert h nodes. induction fuel as [|fuel IH]; intros h nodes Hf Hl.
  all: destruct nodes as [|t [|t' nodes]]; try (simpl in Hl; lia); cbn [build_levels].
  1, 2: apply returns_ret; split; [apply tree_ok_new|done].
  { apply returns_ret. apply Forall_cons in Hf as [Ht _]. rewrite forest_items_one.
    split; [right; by exists h|done]. }
  rewrite Nat.add_1_r. eapply returns_bind.
  { apply (fill_parents_ok h None []); [|exact Hf].
    split_and!; [done|done|done|unfold TREE_BASE; simpl; lia]. }
  intros ps (Hps & Hit & Hlen). eapply returns_mono; [apply IH; [done|simpl in *; lia]|].
  intros t'' [Hok Hi]. split; [done|]. by rewrite Hi, Hit.
Qed.

Lemma from_iter_ok (l : list T) :
  returns (from_iter cx l) (λ t, tree_ok cx t ∧ tree_items t = l).
Proof.
  eapply returns_bind; [by apply from_iter_leaves_ok|].
  intros ts [Hf <-]. by apply build_levels_ok.
Qed.

End append.

(** ** Ends of the tree *)

Section ends.
Context {T S Cx : Type} `{!Summary S Cx, !Item T S Cx} (cx : Cx) `{!SummaryLaws S Cx cx}.
Implicit Types t : Node T S.
Implicit Types ts us : list (Node T S).

Lemma update_last_recursive_ok f h t l x :
  wf cx h t → tree_items t = l ++ [x] →
  ∃ t', update_last_recursive cx f t = Some (t', Some (total cx (l ++ [f x]))) ∧
    wf cx h t' ∧ tree_items t' = l ++ [f x].
Proof.
  revert t l. induction h as [|h IH]; intros t l Hwf Hit.
  - apply wf_leaf_inv in Hwf as (k & -> & Hne & Hl). simpl in Hit. subst k.
    cbn [update_last_recursive]. rewrite fmap_app, last_snoc. cbn [fmap list_fmap].
    rewrite last_snoc, !with_last_snoc. simpl.
    change ((isummary cx <$> l) ++ [isummary cx (f x)]) with ((isummary cx <$> l) ++ (isummary cx <$> [f x])).
    rewrite <- fmap_app. eexists. split; [done|]. split; [|done].
    apply (wf_leaf cx); [by destruct l|]. rewrite length_app in *. done.
  - apply wf_internal_inv in Hwf as (ts & -> & Hts & Hl & Hf).
    destruct ts as [|c ts _] using rev_ind; [done|].
    apply Forall_app in Hf as [Hf [Hc _]%Forall_cons].
    change (tree_items _) with (forest_items (ts ++ [c])) in Hit.
    rewrite forest_items_app, forest_items_one in Hit.
    destruct (exists_last (wf_items cx h c Hc)) as (k & y & Hk). rewrite Hk, app_assoc in Hit.
    apply app_inj_tail in Hit as [<- ->].
    destruct (IH c k Hc Hk) as (c' & Hr & Hc' & Hi).
    cbn [update_last_recursive]. rewrite with_last_snoc, Hr. simpl.
    rewrite fmap_app. change (summary <$> [c]) with [summary c]. rewrite with_last_snoc. simpl.
    rewrite <- Hi, <- (wf_summary _ _ _ Hc').
    change ((summary <$> ts) ++ [summary c']) with ((summary <$> ts) ++ (summary <$> [c'])).
    assert (Forall (wf cx h) (ts ++ [c'])) as Hf' by (apply Forall_app; split; [done|by repeat constructor]).
    rewrite <- fmap_app, <- (app_assoc _ k), <- Hi, <- (forest_items_one c'), <- forest_items_app.
    rewrite <- (sum_summaries cx h) by done. eexists. split; [done|]. split; [|done].
    apply (wf_internal cx); [by destruct ts| |done]. rewrite length_app in *. done.
Qed.

Lemma update_first_recursive_ok f h t l x :
  wf cx h t → tree_items t = x :: l →
  ∃ t', update_first_recursive cx f t = Some (t', Some (total cx (f x :: l))) ∧
    wf cx h t' ∧ tree_items t' = f x :: l.
Proof.
  revert t l. induction h as [|h IH]; intros t l Hwf Hit.
  - apply wf_leaf_inv in Hwf as (k & -> & Hne & Hl). simpl in Hit. subst k.
    cbn [update_first_recursive fmap list_fmap]. eexists. split; [done|]. split; [|done].
    by apply (wf_leaf cx (f x :: l)).
  - apply wf_internal_inv in Hwf as (ts & -> & Hts & Hl & Hf).
    destruct ts as [|c ts]; [done|]. apply Forall_cons in Hf as [Hc Hf].
    change (tree_items _) with (forest_items (c :: ts)) in Hit. rewrite forest_items_cons in Hit.
    destruct (tree_items c) as [|y k] eqn:Hk; [by apply (wf_items cx h c Hc) in Hk|].
    simpl in Hit. injection Hit as -> <-.
    destruct (IH c k Hc Hk) as (c' & Hr & Hc' & Hi).
    cbn [update_first_recursive fmap list_fmap]. rewrite Hr. simpl.
    rewrite <- Hi, <- (wf_summary _ _ _ Hc').
    change (summary c' :: (summary <$> ts)) with (summary <$> c' :: ts).
    assert (Forall (wf cx h) (c' :: ts)) as Hf' by (by constructor).
    rewrite app_comm_cons, <- Hi, <- forest_items_cons, <- (sum_summaries cx h) by done.
    eexists. split; [done|]. split; [|done]. by apply (wf_internal cx).
Qed.

Lemma update_last_ok t f l x :
  tree_ok cx t → tree_items t = l ++ [x] →
  returns (update_last cx t f) (λ t', tree_ok cx t' ∧ tree_items t' = l ++ [f x]).
Proof.
  intros [->|[h Ht]] Hit; [by destruct l|].
  destruct (update_last_recursive_ok f h t l x Ht Hit) as (t' & Hr & Ht' & Hi).
  unfold update_last. rewrite Hr. apply returns_ret. split; [right; by exists h|done].
Qed.

Lemma update_first_ok t f l x :
  tree_ok cx t → tree_items t = x :: l →
  returns (update_first cx t f) (λ t', tree_ok cx t' ∧ tree_items t' = f x :: l).
Proof.
  intros [->|[h Ht]] Hit; [done|].
  destruct (update_first_recursive_ok f h t l x Ht Hit) as (t' & Hr & Ht' & Hi).
  unfold update_first. rewrite Hr. apply returns_ret. split; [right; by exists h|done].
Qed.

Lemma update_empty (f : T → T) :
  update_last cx (new cx) f = Some (new cx : Node T S) ∧
  update_first cx (new cx) f = Some (new cx : Node T S).
Proof. done. Qed.

Lemma rightmost_leaf_ok h t :
  wf cx h t → ∃ l s k, rightmost_leaf t = Some (Leaf s l (isummary cx <$> l)) ∧
    l ≠ [] ∧ tree_items t = k ++ l.
Proof.
  revert t. induction h as [|h IH]; intros t Hwf.
  - apply wf_leaf_inv in Hwf as (l & -> & Hne & Hl). by exists l, (total cx l), [].
  - apply wf_internal_inv in Hwf as (ts & -> & Hts & _ & Hf).
    destruct ts as [|c ts _] using rev_ind; [done|].
    apply Forall_app in Hf as [Hf [Hc _]%Forall_cons].
    destruct (IH c Hc) as (l & s & k & Hr & Hne & Hit).
    exists l, s, (forest_items ts ++ k). split_and!; [|done|].
    + rewrite <- Hr. clear. cbn [rightmost_leaf]. generalize (total cx (forest_items (ts ++ [c]))).
      intros _. induction ts as [|a ts IH]; [done|]. simpl. rewrite IH. by destruct ts.
    + change (tree_items _) with (forest_items (ts ++ [c])).
      by rewrite forest_items_app, forest_items_one, Hit, app_assoc.
Qed.

Lemma leftmost_leaf_ok h t :
  wf cx h t → ∃ l s k, leftmost_leaf t = Some (Leaf s l (isummary cx <$> l)) ∧
    l ≠ [] ∧ tree_items t = l ++ k.
Proof.
  revert t. induction h as [|h IH]; intros t Hwf.
  - apply wf_leaf_inv in Hwf as (l & -> & Hne & Hl). exists l, (total cx l), []. by rewrite app_nil_r.
  - apply wf_internal_inv in Hwf as (ts & -> & Hts & _ & Hf).
    destruct ts as [|c ts]; [done|]. apply Forall_cons in Hf as [Hc Hf].
    destruct (IH c Hc) as (l & s & k & Hr & Hne & Hit).
    exists l, s, (k ++ forest_items ts). split_and!; [done..|].
    change (tree_items _) with (forest_items (c :: ts)). by rewrite forest_items_cons, Hit, app_assoc.
Qed.

Lemma last_ok t : tree_ok cx t → last t = Some (list.last (tree_items t)).
Proof.
  intros [->|[h Ht]]; [done|]. destruct (rightmost_leaf_ok h t Ht) as (l & s & k & Hr & Hne & ->).
  unfold last. rewrite Hr. simpl. rewrite last_app. by destruct (last_is_Some l) as [_ [x ->]].
Qed.

Lemma last_summary_ok t : tree_ok cx t → last_summary t = Some (isummary cx <$> list.last (tree_items t)).
Proof.
  intros [->|[h Ht]]; [done|]. destruct (rightmost_leaf_ok h t Ht) as (l & s & k & Hr & Hne & ->).
  unfold last_summary. rewrite Hr. simpl. rewrite last_app, fmap_last.
  by destruct (last_is_Some l) as [_ [x ->]].
Qed.

Lemma first_ok t : tree_ok cx t → first t = Some (head (tree_items t)).
Proof.
  intros [->|[h Ht]]; [done|]. destruct (leftmost_leaf_ok h t Ht) as (l & s & k & Hr & Hne & ->).
  unfold first. rewrite Hr. simpl. by destruct l.
Qed.

Lemma is_empty_ok t : tree_ok cx t → is_empty t = bool_decide (tree_items t = []).
Proof.
  intros [->|[h Ht]]; [done|]. rewrite (wf_not_empty _ _ _ Ht).
  symmetry. by apply bool_decide_eq_false, (wf_items cx h).
Qed.

Lemma summary_ok t : tree_ok cx t → summary t = total cx (tree_items t).
Proof. intros [->|[h Ht]]; [done|]. by eapply wf_summary. Qed.

End ends.

(** ** Searching is a linear scan *)

Section find.
Context {T S Cx : Type} `{!Summary S Cx, !Item T S Cx} (cx : Cx) `{!SummaryLaws S Cx cx}.
Context {D : Type} `{!Dimension D S Cx, !DimensionAdd D S Cx cx}.
Variable target : D → comparison.
Variable bias : Bias.
Implicit Types (t : Node T S) (l k : list T) (d : D).

Abbreviation inside := (target_in_child target bias).

(** The position after the items [l], starting from [d]. *)
Definition posn d l : D := foldl (dadd cx) d (isummary cx <$> l).

Lemma posn_app d l k : posn d (l ++ k) = posn (posn d l) k.
Proof. unfold posn. by rewrite fmap_app, foldl_app. Qed.

Lemma posn_snoc d l x : posn d (l ++ [x]) = dadd cx (posn d l) (isummary cx x).
Proof. by rewrite posn_app. Qed.

Lemma dadd_foldl d s (ss : list S) :
  dadd cx d (foldl (sadd cx) s ss) = foldl (dadd cx) (dadd cx d s) ss.
Proof. revert s. induction ss as [|s' ss IH]; intros s; [done|]. simpl. by rewrite IH, dadd_sadd. Qed.

Lemma dadd_total d l : l ≠ [] → dadd cx d (total cx l) = posn d l.
Proof.
  intros Hl. destruct l as [|x l]; [done|]. unfold total. cbn [fmap list_fmap].
  rewrite (sum_first cx). apply dadd_foldl.
Qed.

Lemma dadd_summary d h t : wf cx h t → dadd cx d (summary t) = posn d (tree_items t).
Proof. intros Ht. rewrite (wf_summary cx h) by done. apply dadd_total. by eapply wf_items. Qed.

(** The items form a sequence along which the target, once passed, stays
    passed: what a sorted dimension gives. *)
Definition monotone d l : Prop :=
  ∀ a b, a ≠ [] → prefix (a ++ b) l → inside (posn d a) = true → inside (posn d (a ++ b)) = true.

Lemma monotone_app_l d l k : monotone d (l ++ k) → monotone d l.
Proof. intros H a b Ha Hp. apply H; [done|]. by apply prefix_app_r. Qed.

Lemma monotone_app_r d l k : monotone d (l ++ k) → monotone (posn d l) k.
Proof.
  intros H a b Ha Hp. rewrite <- !posn_app, app_assoc. apply H.
  - by destruct l.
  - rewrite <- app_assoc. by apply prefix_app.
Qed.

(** The first item whose end is past the target. *)
Definition scan exact d l : option (T * D) * D :=
  scan_leaf cx target bias exact d l (isummary cx <$> l).

Lemma scan_cons exact d x l :
  scan exact d (x :: l) =
    if entry_found target bias exact (dadd cx d (isummary cx x))
    then (Some (x, dadd cx d (isummary cx x)), d)
    else scan exact (dadd cx d (isummary cx x)) l.
Proof. done. Qed.

Lemma scan_skip d l k :
  monotone d (l ++ k) → l ≠ [] → inside (posn d l) = false → scan false d (l ++ k) = scan false (posn d l) k.
Proof.
  revert d. induction l as [|x l IH]; intros d Hm Hne Hout; [done|].
  simpl. rewrite scan_cons. cbn [entry_found].
  destruct (inside (dadd cx d (isummary cx x))) eqn:E.
  - specialize (Hm [x] l ltac:(done) (prefix_app_r _ _ _ ltac:(done)) E).
    simpl in Hm. by rewrite Hout in Hm.
  - destruct l as [|y l]; [done|]. apply IH; [|done|done].
    apply (monotone_app_r d [x] ((y :: l) ++ k)). exact Hm.
Qed.

Lemma scan_stop d l k :
  l ≠ [] → inside (posn d l) = true → scan false d (l ++ k) = scan false d l.
Proof.
  revert d. induction l as [|x l IH]; intros d Hne Hin; [done|].
  simpl. rewrite !scan_cons. cbn [entry_found].
  destruct (inside (dadd cx d (isummary cx x))) eqn:E; [done|].
  destruct l as [|y l]; [unfold posn in Hin; simpl in Hin; congruence|]. by apply IH.
Qed.

Lemma scan_none d l : (∀ a, a ≠ [] → prefix a l → inside (posn d a) = false) → scan false d l = (None, posn d l).
Proof.
  revert d. induction l as [|x l IH]; intros d H; [done|].
  rewrite scan_cons. cbn [entry_found].
  assert (inside (dadd cx d (isummary cx x)) = false) as ->.
  { apply (H [x]); [done|]. by apply prefix_cons, prefix_nil. }
  apply IH. intros a Ha Hp. apply (H (x :: a)); [done|]. by apply prefix_cons.
Qed.

Lemma find_iterate_ok h t d :
  wf cx h t → monotone d (tree_items t) →
  find_iterate cx target bias false d t = scan false d (tree_items t).
Proof.
  revert t d. induction h as [|h IH]; intros t d Hwf Hm.
  { apply wf_leaf_inv in Hwf as (l & -> & _). done. }
  apply wf_internal_inv in Hwf as (ts & -> & _ & _ & Hf).
  change (tree_items _) with (forest_items ts) in Hm |- *. cbn [find_iterate].
  clear -IH Hf Hm SummaryLaws0 DimensionAdd0.
  induction ts as [|c ts IHts] in d, Hf, Hm |- *; [done|].
  apply Forall_cons in Hf as [Hc Hf]. cbn [fmap list_fmap]. rewrite (dadd_summary d h c Hc).
  rewrite forest_items_cons in *. pose proof (wf_items _ _ _ Hc) as Hne.
  destruct (inside (posn d (tree_items c))) eqn:E.
  - rewrite IH by (done || by eapply monotone_app_l). symmetry. by apply scan_stop.
  - rewrite IHts by (done || by eapply monotone_app_r). symmetry. by apply scan_skip.
Qed.

(** [find] of the tree, as a computation on the list of items. *)
Definition find_in_list l : D * D * option T :=
  match scan false (dzero S cx) l with
  | (Some (item, end_), pos) => (pos, end_, Some item)
  | (None, pos) => (pos, pos, None)
  end.

Lemma beyond_inside d : beyond target bias d = negb (inside d).
Proof. unfold beyond, target_in_child. by destruct (target d), bias. Qed.

Lemma monotone_beyond d l :
  monotone d l → inside (posn d l) = false → ∀ a, a ≠ [] → prefix a l → inside (posn d a) = false.
Proof.
  intros Hm Hout a Ha [b ->]. destruct (inside (posn d a)) eqn:E; [|done].
  by rewrite (Hm a b) in Hout.
Qed.

(** A tree that is not empty. *)
Lemma find_wf h t : wf cx h t → monotone (dzero S cx) (tree_items t) → find cx target bias t = find_in_list (tree_items t).
Proof.
  intros Ht Hm. unfold find, find_with, find_in_list. rewrite beyond_inside, (dadd_summary _ h t Ht).
  destruct (inside _) eqn:E; simpl; [by rewrite (find_iterate_ok h)|]. rewrite scan_none; [done|]. by apply monotone_beyond.
Qed.

Lemma find_ok `{!DimensionLaws D S Cx cx} t :
  tree_ok cx t → monotone (dzero S cx) (tree_items t) →
  find cx target bias t = find_in_list (tree_items t).
Proof.
  intros [->|[h Ht]] Hm; [|by apply (find_wf h)]. unfold find, find_with, find_in_list. rewrite beyond_inside.
  rewrite (dadd_zero (D:=D) : dadd cx (dzero S cx) (summary (new cx)) = dzero S cx). by destruct (inside _).
Qed.

(** *** [find_with_prev] *)

Definition scan_prev prev d l : option (option T * T * D) * D :=
  scan_leaf_prev cx target bias prev d l (isummary cx <$> l).

Lemma scan_prev_cons prev d x l :
  scan_prev prev d (x :: l) =
    if inside (dadd cx d (isummary cx x)) then (Some (prev, x, dadd cx d (isummary cx x)), d)
    else scan_prev (Some x) (dadd cx d (isummary cx x)) l.
Proof. done. Qed.

Lemma scan_prev_skip prev d l k :
  monotone d (l ++ k) → l ≠ [] → inside (posn d l) = false →
  scan_prev prev d (l ++ k) = scan_prev (list.last l) (posn d l) k.
Proof.
  revert prev d. induction l as [|x l IH]; intros prev d Hm Hne Hout; [done|].
  simpl. rewrite scan_prev_cons.
  destruct (inside (dadd cx d (isummary cx x))) eqn:E.
  - specialize (Hm [x] l ltac:(done) (prefix_app_r _ _ _ ltac:(done)) E).
    simpl in Hm. by rewrite Hout in Hm.
  - destruct l as [|y l]; [done|]. apply IH; [|done|done].
    apply (monotone_app_r d [x] ((y :: l) ++ k)). exact Hm.
Qed.

Lemma scan_prev_stop prev d l k :
  l ≠ [] → inside (posn d l) = true → scan_prev prev d (l ++ k) = scan_prev prev d l.
Proof.
  revert prev d. induction l as [|x l IH]; intros prev d Hne Hin; [done|].
  simpl. rewrite !scan_prev_cons.
  destruct (inside (dadd cx d (isummary cx x))) eqn:E; [done|].
  destruct l as [|y l]; [unfold posn in Hin; simpl in Hin; congruence|]. by apply IH.
Qed.

Lemma find_with_prev_iterate_ok h t prev d :
  wf cx h t → monotone d (tree_items t) →
  find_with_prev_iterate cx target bias prev d t = Some (scan_prev prev d (tree_items t)).
Proof.
  revert t prev d. induction h as [|h IH]; intros t prev d Hwf Hm.
  { apply wf_leaf_inv in Hwf as (l & -> & _). done. }
  apply wf_internal_inv in Hwf as (ts & -> & _ & _ & Hf).
  change (tree_items _) with (forest_items ts) in Hm |- *. cbn [find_with_prev_iterate].
  clear -IH Hf Hm SummaryLaws0 DimensionAdd0.
  induction ts as [|c ts IHts] in prev, d, Hf, Hm |- *; [done|].
  apply Forall_cons in Hf as [Hc Hf]. cbn [fmap list_fmap]. rewrite (dadd_summary d h c Hc).
  rewrite forest_items_cons in *. pose proof (wf_items _ _ _ Hc) as Hne.
  destruct (inside (posn d (tree_items c))) eqn:E.
  - rewrite IH by (done || by eapply monotone_app_l). f_equal. symmetry. by apply scan_prev_stop.
  - rewrite (last_ok cx c) by (right; by exists h). cbn [mbind option_bind].
    rewrite IHts by (done || by eapply monotone_app_r). f_equal. symmetry. by apply scan_prev_skip.
Qed.

(** The previous item is the one before the item that [scan] finds. *)
Lemma scan_prev_scan p d l :
  match scan_prev (list.last p) d l with
  | (Some (prev, x, e), pos) => scan false d l = (Some (x, e), pos) ∧
      ∃ a b, l = a ++ x :: b ∧ prev = list.last (p ++ a)
  | (None, pos) => scan false d l = (None, pos)
  end.
Proof.
  revert p d. induction l as [|x l IH]; intros p d; [done|].
  rewrite scan_prev_cons, scan_cons. cbn [entry_found].
  destruct (inside _).
  - split; [done|]. exists [], l. by rewrite app_nil_r.
  - specialize (IH (p ++ [x]) (dadd cx d (isummary cx x))). rewrite last_snoc in IH.
    destruct (scan_prev _ _ _) as [[[[prev y] e]|] pos]; [|done].
    destruct IH as [? (a & b & -> & ->)]. split; [done|]. exists (x :: a), b.
    split; [done|]. by rewrite <- app_assoc.
Qed.

Lemma find_with_prev_ok `{!DimensionLaws D S Cx cx} t :
  tree_ok cx t → monotone (dzero S cx) (tree_items t) →
  returns (find_with_prev cx target bias t) (λ '(pos, e, r),
    (pos, e, snd <$> r) = find_in_list (tree_items t) ∧
    ∀ prev x, r = Some (prev, x) → ∃ a b, tree_items t = a ++ x :: b ∧ prev = list.last a).
Proof.
  intros Hok Hm. pose proof (find_ok t Hok Hm) as Hfind. unfold find, find_with in Hfind.
  unfold find_with_prev. destruct (beyond _ _ _) eqn:Eb.
  { apply returns_ret. split; [by rewrite <- Hfind|done]. }
  destruct Hok as [->|[h Ht]].
  { apply returns_ret. split; [by rewrite <- Hfind|done]. }
  rewrite (find_with_prev_iterate_ok h) by done. simpl. unfold find_in_list.
  pose proof (scan_prev_scan [] (dzero S cx) (tree_items t)) as Hs. simpl in Hs.
  destruct (scan_prev _ _ _) as [[[[prev x] e]|] pos]; apply returns_ret.
  - destruct Hs as [-> Hs]. split; [done|]. intros ? ? E. by simplify_eq.
  - rewrite Hs. done.
Qed.

(** What they find, when the target is past [a] and not past the next item. *)
Section split.
Context (h : nat) (t : Node T S) (a k : list T) (Ht : wf cx h t) (Hk : tree_items t = a ++ k).
Context (Hm : monotone (dzero S cx) (tree_items t)).
Context (Ha : a ≠ [] → inside (posn (dzero S cx) a) = false).

Lemma find_split x r : k = x :: r → inside (posn (dzero S cx) (a ++ [x])) = true →
  find cx target bias t = (posn (dzero S cx) a, posn (dzero S cx) (a ++ [x]), Some x).
Proof using Ha Hk Hm Ht DimensionAdd0 SummaryLaws0.
  intros -> Hx. rewrite (find_wf h) by done. unfold find_in_list. rewrite Hk in *.
  assert (scan false (dzero S cx) (a ++ x :: r) = scan false (posn (dzero S cx) a) (x :: r)) as ->.
  { destruct a as [|y l]; [done|]. apply scan_skip; [done|done|by apply Ha]. }
  rewrite scan_cons. cbn [entry_found]. rewrite posn_snoc in *. by rewrite Hx.
Qed.

Lemma find_with_prev_split : match k with [] => True | x :: _ => inside (posn (dzero S cx) (a ++ [x])) = true end →
  ∃ p e, find_with_prev cx target bias t = Some (p, e, match k with [] => None | x :: _ => Some (list.last a, x) end).
Proof using Ha Hk Hm Ht DimensionAdd0 SummaryLaws0.
  intros Hx. unfold find_with_prev. rewrite beyond_inside, (dadd_summary _ h t Ht), (find_with_prev_iterate_ok h) by done.
  pose proof (wf_items cx h t Ht) as Hne. rewrite Hk in *. destruct k as [|x r].
  { rewrite app_nil_r in *. rewrite (Ha Hne). by eexists _, _. }
  assert (inside (posn (dzero S cx) (a ++ x :: r)) = true) as ->.
  { rewrite (cons_middle x a r), app_assoc. apply Hm; [by destruct a|by rewrite <- app_assoc|done]. }
  assert (scan_prev None (dzero S cx) (a ++ x :: r) = scan_prev (list.last a) (posn (dzero S cx) a) (x :: r)) as ->.
  { destruct a as [|y l]; [done|]. apply scan_prev_skip; [done|done|by apply Ha]. }
  rewrite scan_prev_cons, posn_snoc in *. rewrite Hx. by eexists _, _.
Qed.
End split.

(** *** [find_exact] *)

Definition is_eq (d : D) : bool := match target d with Eq => true | _ => false end.

(** Once the target is strictly passed, it stays so. *)
Definition strictly_monotone d l : Prop :=
  ∀ a b, a ≠ [] → prefix (a ++ b) l → target (posn d a) = Lt → target (posn d (a ++ b)) = Lt.

Lemma scan_exact d l :
  bias = BiasLeft → strictly_monotone d l →
  (scan true d l).1 = p ← (scan false d l).1; if is_eq p.2 then Some p else None.
Proof.
  intros Hb. revert d. induction l as [|x l IH]; intros d Hm; [done|].
  rewrite !scan_cons. unfold entry_found, target_in_child. rewrite Hb. cbn [bool_decide].
  assert (strictly_monotone (dadd cx d (isummary cx x)) l) as Hm'.
  { intros a b Ha Hp. apply (Hm (x :: a) b); [done|]. by apply prefix_cons. }
  destruct (target (dadd cx d (isummary cx x))) eqn:E; simpl.
  - unfold is_eq. by rewrite E.
  - unfold is_eq. rewrite E.
    assert (∀ a, prefix a l → target (posn (dadd cx d (isummary cx x)) a) = Lt) as Hall.
    { intros a Hp. apply (Hm [x] a); [done| |done]. by apply prefix_cons. }
    clear -Hall. revert Hall. generalize (dadd cx d (isummary cx x)).
    induction l as [|y l IHl]; intros d' Hall; [done|]. rewrite scan_cons. unfold entry_found.
    assert (target (dadd cx d' (isummary cx y)) = Lt) as ->
      by (apply (Hall [y]); by apply prefix_cons, prefix_nil).
    apply IHl. intros a Hp. apply (Hall (y :: a)). by apply prefix_cons.
  - by apply IH.
Qed.

Lemma strictly_monotone_app d l k :
  strictly_monotone d (l ++ k) → strictly_monotone d l ∧ strictly_monotone (posn d l) k.
Proof.
  intros H. split; intros a b Ha Hp.
  - apply H; [done|]. by apply prefix_app_r.
  - rewrite <- !posn_app, app_assoc. apply H; [by destruct l|].
    rewrite <- app_assoc. by apply prefix_app.
Qed.

Lemma find_iterate_exact_ok h t d :
  bias = BiasLeft → wf cx h t → monotone d (tree_items t) → strictly_monotone d (tree_items t) →
  (find_iterate cx target bias true d t).1 =
    p ← (scan false d (tree_items t)).1; if is_eq p.2 then Some p else None.
Proof.
  intros Hb. revert t d. induction h as [|h IH]; intros t d Hwf Hm Hs.
  { apply wf_leaf_inv in Hwf as (l & -> & _). by apply scan_exact. }
  apply wf_internal_inv in Hwf as (ts & -> & _ & _ & Hf).
  change (tree_items _) with (forest_items ts) in Hm, Hs |- *. cbn [find_iterate].
  clear -IH Hf Hm Hs SummaryLaws0 DimensionAdd0.
  induction ts as [|c ts IHts] in d, Hf, Hm, Hs |- *; [done|].
  apply Forall_cons in Hf as [Hc Hf]. cbn [fmap list_fmap]. rewrite (dadd_summary d h c Hc).
  rewrite forest_items_cons in *. pose proof (wf_items _ _ _ Hc) as Hne.
  apply strictly_monotone_app in Hs as [Hs1 Hs2].
  destruct (inside (posn d (tree_items c))) eqn:E.
  - rewrite IH by (done || by eapply monotone_app_l). by rewrite scan_stop.
  - rewrite IHts by (done || by eapply monotone_app_r). by rewrite scan_skip.
Qed.

Lemma find_exact_ok `{!DimensionLaws D S Cx cx} t :
  bias = BiasLeft → tree_ok cx t →
  monotone (dzero S cx) (tree_items t) → strictly_monotone (dzero S cx) (tree_items t) →
  (find_exact cx target bias t).2 =
    p ← (scan false (dzero S cx) (tree_items t)).1; if is_eq p.2 then Some p.1 else None.
Proof.
  intros Hb Hok Hm Hs. unfold find_exact, find_with. rewrite beyond_inside.
  destruct Hok as [->|[h Ht]].
  { simpl. by destruct (negb _). }
  pose proof (find_iterate_exact_ok h t _ Hb Ht Hm Hs) as He.
  rewrite (dadd_summary _ h) by done. destruct (inside _) eqn:E; simpl.
  - destruct (find_iterate _ _ _ _ _ _) as [[[x e]|] pos]; simpl in *;
    destruct (scan _ _ _) as [[[y e']|] pos']; simpl in *; try done; destruct (is_eq e'); by simplify_eq.
  - rewrite scan_none; [done|]. by apply monotone_beyond.
Qed.

End find.

(** ** Parallel construction *)

Section par.
Context {T S Cx : Type} `{!Summary S Cx, !Item T S Cx} (cx : Cx) `{!SummaryLaws S Cx cx}.
Implicit Types ts us : list (Node T S).

Lemma parent_of_ok h ts :
  ts ≠ [] → (length ts ≤ 2 * TREE_BASE)%nat → Forall (wf cx h) ts →
  returns (parent_of cx (Datatypes.S h) ts)
    (λ t, wf cx (Datatypes.S h) t ∧ tree_items t = forest_items ts).
Proof.
  intros Hne Hl Hf. unfold parent_of. rewrite array_vec_ok by done. simpl.
  rewrite array_vec_ok by (by rewrite length_fmap). simpl.
  destruct ts as [|c ts]; [done|]. apply returns_ret. split; [|done].
  cbn [fmap list_fmap]. rewrite <- (sum_first cx). by apply (wf_internal cx h (c :: ts)).
Qed.

Lemma par_parents_ok fuel h ts :
  (length ts ≤ fuel)%nat → Forall (wf cx h) ts →
  returns (par_parents cx fuel (Datatypes.S h) ts) (λ ps,
    Forall (wf cx (Datatypes.S h)) ps ∧ forest_items ps = forest_items ts ∧
    (12 * length ps ≤ length ts + 11)%nat).
Proof.
  revert ts. induction fuel as [|fuel IH]; intros [|t ts] Hl Hf; try (simpl in Hl; lia);
    cbn [par_parents].
  1, 2: apply returns_ret; split_and!; [done|done|simpl; lia].
  eapply returns_bind.
  { apply (parent_of_ok h); [unfold TREE_BASE; done|rewrite length_take; lia|by apply Forall_take]. }
  intros p [Hwf Hit]. eapply returns_bind.
  { apply IH; [rewrite length_drop; unfold TREE_BASE; simpl in *; lia|by apply Forall_drop]. }
  intros ps (Hps & Hits & Hlen). apply returns_ret. split_and!; [by constructor|..].
  - by rewrite forest_items_cons, Hit, Hits, <- forest_items_app, take_drop.
  - rewrite length_drop in Hlen. unfold TREE_BASE in Hlen. simpl in *. lia.
Qed.

Lemma par_levels_ok fuel h ts :
  Forall (wf cx h) ts → (length ts ≤ fuel)%nat →
  returns (par_levels cx fuel h ts) (λ t, tree_ok cx t ∧ tree_items t = forest_items ts).
Proof.
  revert h ts. induction fuel as [|fuel IH]; intros h ts Hf Hl.
  all: destruct ts as [|t [|t' ts]]; try (simpl in Hl; lia); cbn [par_levels].
  1, 2: apply returns_ret; split; [apply tree_ok_new|done].
  { apply returns_ret. apply Forall_cons in Hf as [Ht _]. rewrite forest_items_one.
    split; [right; by exists h|done]. }
  rewrite Nat.add_1_r. eapply returns_bind; [by apply (par_parents_ok _ h)|].
  intros ps (Hps & Hit & Hlen). eapply returns_mono; [apply IH; [done|simpl in *; lia]|].
  intros t'' [Hok Hi]. split; [done|]. by rewrite Hi, Hit.
Qed.

Lemma from_par_iter_ok (l : list T) :
  returns (from_par_iter cx l) (λ t, tree_ok cx t ∧ tree_items t = l).
Proof.
  eapply returns_bind; [by apply from_iter_leaves_ok|].
  intros ts [Hf <-]. by apply par_levels_ok.
Qed.

(** *** Adding items at the end *)

Lemma push_ok (t : Node T S) (x : T) :
  tree_ok cx t → returns (push cx t x) (λ u, tree_ok cx u ∧ tree_items u = tree_items t ++ [x]).
Proof.
  intros Hok. apply (append_ok cx); [done|]. right. exists 0%nat. simpl.
  split_and!; try done; [unfold TREE_BASE; lia|].
  unfold total, TreeOps.sum. simpl. by rewrite (sadd_zero_l (cx := cx)).
Qed.

Lemma extend_ok (t : Node T S) (l : list T) :
  tree_ok cx t → returns (extend cx t l) (λ u, tree_ok cx u ∧ tree_items u = tree_items t ++ l).
Proof.
  intros Hok. unfold extend. eapply returns_bind; [by apply from_iter_ok|].
  intros o [Ho <-]. by apply append_ok.
Qed.

Lemma par_extend_ok (t : Node T S) (l : list T) :
  tree_ok cx t → returns (par_extend cx t l) (λ u, tree_ok cx u ∧ tree_items u = tree_items t ++ l).
Proof.
  intros Hok. unfold par_extend. eapply returns_bind; [by apply from_par_iter_ok|].
  intros o [Ho <-]. by apply append_ok.
Qed.

End par.

(** ** The properties of the tree *)

Section properties.
Context {T S Cx : Type} `{!Summary S Cx, !Item T S Cx} (cx : Cx).
Implicit Types t u : Node T S.

(** A computation that builds a well-formed tree with the items [l]. *)
Definition builds (m : option (Node T S)) (l : list T) : Prop :=
  returns m (λ t, tree_ok cx t ∧ tree_items t = l).

(** C17: building and changing trees never panics, keeps them balanced, within
    capacity and with correct cached summaries, and does to the items what the
    list operations do. *)
Theorem sum_tree_builds (Hlaws : SummaryLaws S Cx cx) :
  (∀ l, builds (from_iter cx l) l ∧ builds (from_par_iter cx l) l) ∧
  (∀ t u, tree_ok cx t → tree_ok cx u → builds (append cx t u) (tree_items t ++ tree_items u)) ∧
  (∀ t x, tree_ok cx t → builds (push cx t x) (tree_items t ++ [x])) ∧
  (∀ t l, tree_ok cx t →
    builds (extend cx t l) (tree_items t ++ l) ∧ builds (par_extend cx t l) (tree_items t ++ l)) ∧
  (∀ t f l x, tree_ok cx t → tree_items t = l ++ [x] → builds (update_last cx t f) (l ++ [f x])) ∧
  (∀ t f l x, tree_ok cx t → tree_items t = x :: l → builds (update_first cx t f) (f x :: l)).
Proof.
  split_and!.
  - intros l. split; [by apply from_iter_ok|by apply from_par_iter_ok].
  - intros t u Ht Hu. by apply append_ok.
  - intros t x Ht. by apply push_ok.
  - intros t l Ht. split; [by apply extend_ok|by apply par_extend_ok].
  - intros t f l x. by apply update_last_ok.
  - intros t f l x. by apply update_first_ok.
Qed.

(** The accessors read the items, through the cached summaries where the
    code does. *)
Theorem sum_tree_reads (Hlaws : SummaryLaws S Cx cx) t (Hok : tree_ok cx t) :
  is_empty t = bool_decide (tree_items t = []) ∧
  summary t = total cx (tree_items t) ∧
  first t = Some (head (tree_items t)) ∧
  last t = Some (list.last (tree_items t)) ∧
  last_summary t = Some (isummary cx <$> list.last (tree_items t)) ∧
  ∀ (D : Type) (Hdim : Dimension D S Cx), DimensionLaws D S Cx cx →
    extent cx t =@{D} posn cx (dzero S cx) (tree_items t).
Proof.
  split_and!.
  - by apply (is_empty_ok cx).
  - by apply summary_ok.
  - by apply (first_ok cx).
  - by apply (last_ok cx).
  - by apply last_summary_ok.
  - intros D Hdim Hd. unfold extent.
    destruct Hok as [->|[h Ht]]; [apply (dadd_zero (D := D))|by apply (dadd_summary cx _ h)].
Qed.

(** When the target is monotone along the items, [find] is the linear
    search for the first item whose end is not before the target, and
    [find_with_prev] also returns the item before that one. *)
Theorem find_linear {D : Type} {Hdim : Dimension D S Cx} (Hlaws : SummaryLaws S Cx cx)
    (Hd : DimensionLaws D S Cx cx) (target : D → comparison) (bias : Bias) t
    (Hok : tree_ok cx t) (Hm : monotone cx target bias (dzero S cx) (tree_items t)) :
  find cx target bias t = find_in_list cx target bias (tree_items t) ∧
  returns (find_with_prev cx target bias t) (λ '(pos, end_, r),
    (pos, end_, snd <$> r) = find_in_list cx target bias (tree_items t) ∧
    ∀ prev x, r = Some (prev, x) → ∃ a b, tree_items t = a ++ x :: b ∧ prev = list.last a).
Proof. split; [by apply (find_ok cx target bias t)|by apply (find_with_prev_ok cx target bias t)]. Qed.

End properties.

(** ** A concrete tree: bytes summarized by their sum *)

Module Samples.

#[local] Instance sum_summary : Summary N () := {| szero _ := 0%N; sadd _ a b := (a + b)%N |}.
#[local] Instance sum_item : Item N N () := {| isummary _ x := x |}.
#[local] Instance sum_dimension : Dimension N N () := summary_dimension.

Lemma sum_laws : SummaryLaws N () ().
Proof. split; intros; simpl; lia. Qed.

Lemma sum_dim_laws : DimensionLaws N N () ().
Proof. split; [split|]; intros; simpl; lia. Qed.

Lemma sum_dim_add : DimensionAdd N N () ().
Proof. apply sum_dim_laws. Qed.

Definition sample : Node N N := Leaf 6%N [1; 2; 3]%N [1; 2; 3]%N.

Lemma sample_ok : tree_ok () sample.
Proof. right. exists 0%nat. simpl. split_and!; try done. unfold TREE_BASE. lia. Qed.

Example sum_tree_builds_witness :
  (∃ t, append () sample sample = Some t ∧ tree_items t = [1; 2; 3; 1; 2; 3]%N) ∧
  builds () (append () sample sample) ([1; 2; 3; 1; 2; 3]%N).
Proof.
  split; [by eexists|].
  exact (proj1 (proj2 (sum_tree_builds () sum_laws)) sample sample sample_ok sample_ok).
Defined.

Example sum_tree_reads_witness :
  first sample = Some (Some 1%N) ∧ is_empty sample = bool_decide (tree_items sample = []).
Proof. split; [done|]. exact (proj1 (sum_tree_reads () sum_laws sample sample_ok)). Defined.

(** Seeking the position [2]: it is inside the second item. *)
Lemma sample_monotone b (l : list N) :
  monotone (S := N) () (N.compare 2) b (dzero N ()) l.
Proof.
  intros p q Hp _. unfold target_in_child. rewrite posn_app.
  assert (∀ d : N, (d <= posn (T := N) (S := N) () d q)%N) as Hle.
  { clear. induction q as [|x q IH]; intros d; [by simpl|].
    specialize (IH (d + x)%N). change (posn () d (x :: q)) with (posn () (d + x)%N q). lia. }
  specialize (Hle (posn () (dzero N ()) p)).
  destruct (N.compare_spec 2 (posn () (dzero N ()) p)),
    (N.compare_spec 2 (posn () (posn () (dzero N ()) p) q)); try done; try lia.
Qed.

Example find_linear_witness :
  find () (N.compare 2) BiasLeft sample = (1, 3, Some 2)%N ∧
  find () (N.compare 2) BiasLeft sample = find_in_list () (N.compare 2) BiasLeft (tree_items sample).
Proof.
  split; [by vm_compute|].
  exact (proj1 (find_linear () sum_laws sum_dim_laws (N.compare 2) BiasLeft sample sample_ok
    (sample_monotone _ _))).
Defined.

End Samples.
