(* ===== verification/SumCursor.v ===== *)
(** * Cursors over a summed tree: [crates/sum_tree/src/cursor.rs]

    A cursor is a stack of nodes with indices. The loops are translated with
    the bound [loop_fuel] on their iterations and with the panics of the stack
    (capacity 16), of indexing and of the assertions as [None]. Every operation
    is shown to move a place in the list of items. *)

From S2P Require Import Prelude SumTree.
Import NodeOps TreeOps.

#[local] Unset Default Proof Using.
#[local] Arguments Nat.mul : simpl never.

(** ** Cursors *)

Record StackEntry (T S D : Type) := mkEntry {
  etree : Node T S;
  index : nat;
  eposition : D }.
Arguments mkEntry {T S D} _ _ _.
Arguments etree {T S D} _.
Arguments index {T S D} _.
Arguments eposition {T S D} _.

(** The head of [stack] is the last entry of the code's vector. *)
Record Cursor (T S D : Type) := mkCursor {
  tree : Node T S;
  stack : list (StackEntry T S D);
  position : D;
  did_seek : bool;
  at_end : bool }.
Arguments mkCursor {T S D} _ _ _ _ _.
Arguments tree {T S D} _.
Arguments stack {T S D} _.
Arguments position {T S D} _.
Arguments did_seek {T S D} _.
Arguments at_end {T S D} _.

Definition STACK_CAPACITY : nat := 16.

(** [SeekAggregate]: what [seek_internal] does with the part it skips. *)
Class SeekAggregate (A T S : Type) := {
  begin_leaf : A → A;
  end_leaf : A → option A;
  push_item : A → T → S → option A;
  push_tree : A → Node T S → S → option A }.

(** The number of nodes and items. *)
Fixpoint weight {T S} (t : Node T S) : nat :=
  match t with
  | Leaf _ items _ => Datatypes.S (length items)
  | Internal _ _ _ ts => Datatypes.S (sum_nat (weight <$> ts))
  end.

(** Each turn of a loop pushes or pops a node or passes an item or a child, and
    none of these happens twice. *)
Definition loop_fuel {T S} (t : Node T S) : nat := (3 * weight t + 1)%nat.

Module CursorOps.
Section CursorOps.
Context {T S Cx D : Type} `{!Summary S Cx, !Item T S Cx, !Dimension D S Cx} (cx : Cx).
Implicit Types (c : Cursor T S D) (e : StackEntry T S D) (t : Node T S).

Definition new (t : Node T S) : Cursor T S D :=
  mkCursor t [] (dzero S cx) false (is_empty t).

Definition reset c : Cursor T S D :=
  mkCursor (tree c) [] (dzero S cx) false (is_empty (tree c)).

Definition start c : D := position c.

Definition set_stack c (st : list (StackEntry T S D)) : Cursor T S D :=
  mkCursor (tree c) st (position c) (did_seek c) (at_end c).
Definition set_position c (p : D) : Cursor T S D :=
  mkCursor (tree c) (stack c) p (did_seek c) (at_end c).
Definition set_flags c (did_seek at_end : bool) : Cursor T S D :=
  mkCursor (tree c) (stack c) (position c) did_seek at_end.

(** [stack.push(..).unwrap_oob()]. *)
Definition push_entry e (st : list (StackEntry T S D)) : option (list (StackEntry T S D)) :=
  if (length st <? STACK_CAPACITY)%nat then Some (e :: st) else None.

(** *** Reading *)

Definition item c : option (option T) :=
  if did_seek c then
    match stack c with
    | entry :: _ =>
        match etree entry with
        | Leaf _ items _ =>
            if (index entry =? length items)%nat then Some None
            else Some <$> (items !! index entry)
        | Internal _ _ _ _ => None
        end
    | [] => Some None
    end
  else None.

Definition item_summary c : option (option S) :=
  if did_seek c then
    match stack c with
    | entry :: _ =>
        match etree entry with
        | Leaf _ _ item_summaries =>
            if (index entry =? length item_summaries)%nat then Some None
            else Some <$> (item_summaries !! index entry)
        | Internal _ _ _ _ => None
        end
    | [] => Some None
    end
  else None.

Definition end_ c : option D :=
  s ← item_summary c;
  Some match s with
       | Some item_summary => dadd cx (start c) item_summary
       | None => start c
       end.

(** [for entry in stack.iter().rev().skip(1)]. [child_trees] panics on a leaf
    and [len() - 1] on an empty vector. *)
Fixpoint next_leaf_in (st : list (StackEntry T S D)) : option (option (Node T S)) :=
  match st with
  | [] => Some None
  | entry :: st =>
      child_trees ← child_trees (etree entry);
      match length child_trees with
      | O => None
      | Datatypes.S n =>
          if (index entry <? n)%nat then
            child ← child_trees !! (index entry + 1)%nat;
            Some <$> leftmost_leaf child
          else next_leaf_in st
      end
  end.

Definition next_leaf c : option (option (Node T S)) := next_leaf_in (List.tl (stack c)).

Definition next_item c : option (option T) :=
  if did_seek c then
    match stack c with
    | entry :: _ =>
        items ← items (etree entry);
        match length items with
        | O => None
        | Datatypes.S n =>
            if (index entry =? n)%nat then
              next_leaf ← next_leaf c;
              match next_leaf with
              | Some next_leaf =>
                  next_items ← NodeOps.items next_leaf;
                  Some <$> head next_items
              | None => Some None
              end
            else Some <$> (items !! (index entry + 1)%nat)
        end
    | [] => if at_end c then Some None else first (tree c)
    end
  else None.

Fixpoint prev_leaf_in (st : list (StackEntry T S D)) : option (option (Node T S)) :=
  match st with
  | [] => Some None
  | entry :: st =>
      if negb (index entry =? 0)%nat then
        child_trees ← child_trees (etree entry);
        child ← child_trees !! (index entry - 1)%nat;
        Some <$> rightmost_leaf child
      else prev_leaf_in st
  end.

Definition prev_leaf c : option (option (Node T S)) := prev_leaf_in (List.tl (stack c)).

Definition prev_item c : option (option T) :=
  if did_seek c then
    match stack c with
    | entry :: _ =>
        if (index entry =? 0)%nat then
          prev_leaf ← prev_leaf c;
          match prev_leaf with
          | Some prev_leaf =>
              prev_items ← NodeOps.items prev_leaf;
              Some <$> list.last prev_items
          | None => Some None
          end
        else
          items ← items (etree entry);
          Some <$> (items !! (index entry - 1)%nat)
    | [] => if at_end c then last (tree c) else Some None
    end
  else None.

(** *** Searching forward *)

Section search.
Variable filter_node : S → bool.

(** [while entry.index() < child_summaries.len()] on an internal node: the
    entry and the cursor's position move together. *)
Fixpoint skip_children (entry : StackEntry T S D) (pos : D) (child_summaries : list S) :
    StackEntry T S D * D :=
  match child_summaries with
  | next_summary :: child_summaries =>
      if filter_node next_summary then (entry, pos)
      else skip_children
             (mkEntry (etree entry) (index entry + 1) (dadd cx (eposition entry) next_summary))
             (dadd cx pos next_summary) child_summaries
  | [] => (entry, pos)
  end.

(** One turn of the [while] loop of [search_forward], with the variable
    [descend]; [inr (c, true)] is the [return] in the middle of the loop. *)
Definition forward_step (s : Cursor T S D * bool) :
    option ((Cursor T S D * bool) + (Cursor T S D * bool)) :=
  let '(c, descend) := s in
  match stack c with
  | [] => Some (inr (c, false))
  | entry :: st =>
      match etree entry with
      | Internal _ _ child_summaries child_trees =>
          let entry := if descend then entry
                       else mkEntry (etree entry) (index entry + 1) (position c) in
          let '(entry, pos) := skip_children entry (position c) (drop (index entry) child_summaries) in
          let c := set_position c pos in
          match child_trees !! index entry with
          | Some subtree =>
              st ← push_entry (mkEntry subtree 0 pos) (entry :: st);
              Some (inl (set_stack c st, true))
          | None => Some (inl (set_stack c st, false))
          end
      | Leaf _ _ item_summaries =>
          '(entry, pos) ←
            (if descend then Some (entry, position c)
             else item_summary ← item_summaries !! index entry;
                  Some (mkEntry (etree entry) (index entry + 1)
                          (dadd cx (eposition entry) item_summary),
                        dadd cx (position c) item_summary));
          let '(entry, pos) := skip_children entry pos (drop (index entry) item_summaries) in
          let c := set_position c pos in
          if (index entry <? length item_summaries)%nat
          then Some (inr (set_stack c (entry :: st), true))
          else Some (inl (set_stack c st, false))
      end
  end.

Definition search_forward c : option (Cursor T S D) :=
  '(c, descend) ←
    match stack c with
    | [] =>
        if at_end c then Some (set_flags c true true, false)
        else
          st ← push_entry (mkEntry (tree c) 0 (dzero S cx)) [];
          Some (set_flags (set_stack c st) true false, true)
    | _ :: _ => Some (c, false)
    end;
  '(c, returned) ← iterate forward_step (loop_fuel (tree c)) (c, descend);
  Some (if (returned : bool) then c
        else set_flags c (did_seek c) (match stack c with [] => true | _ => false end)).

(** *** Searching backward *)

Definition backward_step (s : Cursor T S D * bool) :
    option ((Cursor T S D * bool) + Cursor T S D) :=
  let '(c, descending) := s in
  match stack c with
  | [] => Some (inr c)
  | entry :: st =>
      let pos := match st with parent :: _ => eposition parent | [] => dzero S cx end in
      if negb descending && (index entry =? 0)%nat then
        Some (inl (set_stack (set_position c pos) st, descending))
      else
        let ix := if descending then index entry else (index entry - 1)%nat in
        if (length (child_summaries (etree entry)) <? ix)%nat then None else
        let pos := foldl (dadd cx) pos (take ix (child_summaries (etree entry))) in
        let entry := mkEntry (etree entry) ix pos in
        let c := set_position c pos in
        summary ← child_summaries (etree entry) !! ix;
        let descending := filter_node summary in
        match etree entry with
        | Internal _ _ _ child_trees =>
            if descending then
              tree ← child_trees !! ix;
              match length (child_summaries tree) with
              | O => None
              | Datatypes.S n =>
                  st ← push_entry (mkEntry tree n (dzero S cx)) (entry :: st);
                  Some (inl (set_stack c st, descending))
              end
            else Some (inl (set_stack c (entry :: st), descending))
        | Leaf _ _ _ =>
            if descending then Some (inr (set_stack c (entry :: st)))
            else Some (inl (set_stack c (entry :: st), descending))
        end
  end.

Definition search_backward c : option (Cursor T S D) :=
  let c := if did_seek c then c else set_flags c true true in
  c ←
    (if at_end c then
       let c := set_flags (set_position c (dzero S cx)) true (is_empty (tree c)) in
       if is_empty (tree c) then Some c
       else
         st ← push_entry
                (mkEntry (tree c) (length (child_summaries (tree c)))
                   (dadd cx (dzero S cx) (summary (tree c)))) (stack c);
         Some (set_stack c st)
     else Some c);
  iterate backward_step (loop_fuel (tree c)) (c, false).

End search.

Definition next c : option (Cursor T S D) := search_forward (λ _, true) c.
Definition prev c : option (Cursor T S D) := search_backward (λ _, true) c.

(** *** Iterating *)

(** [Iterator::next] of [FilterCursor], and of [Cursor] with the filter that
    accepts everything. *)
Definition iter_next (filter_node : S → bool) c : option (option T * Cursor T S D) :=
  c ← (if did_seek c then Some c else search_forward filter_node c);
  item ← item c;
  match item with
  | Some item => c ← search_forward filter_node c; Some (Some item, c)
  | None => Some (None, c)
  end.

(** A consumer that takes items until there is none, at most [fuel] times. *)
Fixpoint collect (filter_node : S → bool) (fuel : nat) c : option (list T) :=
  match fuel with
  | O => None
  | Datatypes.S fuel =>
      '(item, c) ← iter_next filter_node c;
      match item with
      | Some item => items ← collect filter_node fuel c; Some (item :: items)
      | None => Some []
      end
  end.

(** [SumTree::items]: the loop over [item] and [next]. *)
Fixpoint items_loop (fuel : nat) c : option (list T) :=
  match fuel with
  | O => None
  | Datatypes.S fuel =>
      item ← item c;
      match item with
      | Some item => c ← next c; items ← items_loop fuel c; Some (item :: items)
      | None => Some []
      end
  end.

Definition items (t : Node T S) : option (list T) :=
  c ← next (new t); items_loop (weight t) c.

(** *** Seeking *)

Section seek.
Context {A : Type} `{!SeekAggregate A T S}.
Variable target : D → comparison.
Variable bias : Bias.

(** [comparison == Greater || (comparison == Equal && bias == Right)]. *)
Definition skips (child_end : D) : bool :=
  match target child_end with
  | Gt => true
  | Eq => bool_decide (bias = BiasRight)
  | Lt => false
  end.

(** The [for] loop over the children: the child to enter, if there is one. *)
Fixpoint seek_children (entry : StackEntry T S D) (pos : D) (aggregate : A)
    (child_trees : list (Node T S)) (child_summaries : list S) :
    option (StackEntry T S D * D * A * option (Node T S)) :=
  match child_trees, child_summaries with
  | child_tree :: child_trees, child_summary :: child_summaries =>
      let child_end := dadd cx pos child_summary in
      if skips child_end then
        aggregate ← push_tree aggregate child_tree child_summary;
        seek_children (mkEntry (etree entry) (index entry + 1) child_end) child_end aggregate
          child_trees child_summaries
      else Some (entry, pos, aggregate, Some child_tree)
  | _, _ => Some (entry, pos, aggregate, None)
  end.

(** The [for] loop over the items: whether it stops at an item. *)
Fixpoint seek_items (entry : StackEntry T S D) (pos : D) (aggregate : A)
    (items : list T) (item_summaries : list S) :
    option (StackEntry T S D * D * A * bool) :=
  match items, item_summaries with
  | item :: items, item_summary :: item_summaries =>
      let child_end := dadd cx pos item_summary in
      if skips child_end then
        aggregate ← push_item aggregate item item_summary;
        seek_items (mkEntry (etree entry) (index entry + 1) (eposition entry)) child_end aggregate
          items item_summaries
      else Some (entry, pos, aggregate, true)
  | _, _ => Some (entry, pos, aggregate, false)
  end.

(** One turn of ['outer], with the variable [ascending]. *)
Definition seek_step (s : Cursor T S D * bool * A) :
    option ((Cursor T S D * bool * A) + (Cursor T S D * A)) :=
  let '(c, ascending, aggregate) := s in
  match stack c with
  | [] => Some (inr (c, aggregate))
  | entry :: st =>
      match etree entry with
      | Internal _ _ child_summaries child_trees =>
          let entry := if ascending : bool
                       then mkEntry (etree entry) (index entry + 1) (position c) else entry in
          if (length child_trees <? index entry)%nat then None else
          '(entry, pos, aggregate, child) ←
            seek_children entry (position c) aggregate
              (drop (index entry) child_trees) (drop (index entry) child_summaries);
          let c := set_position c pos in
          match child with
          | Some child_tree =>
              st ← push_entry (mkEntry child_tree 0 pos) (entry :: st);
              Some (inl (set_stack c st, false, aggregate))
          | None => Some (inl (set_stack c st, true, aggregate))
          end
      | Leaf _ items item_summaries =>
          let aggregate := begin_leaf aggregate in
          if (length items <? index entry)%nat then None else
          '(entry, pos, aggregate, stopped) ←
            seek_items entry (position c) aggregate
              (drop (index entry) items) (drop (index entry) item_summaries);
          let c := set_position c pos in
          aggregate ← end_leaf aggregate;
          if (stopped : bool) then Some (inr (set_stack c (entry :: st), aggregate))
          else Some (inl (set_stack c st, true, aggregate))
      end
  end.

Definition seek_internal c (aggregate : A) : option (bool * Cursor T S D * A) :=
  if match target (position c) with Lt => true | _ => false end then None else
  c ← (if did_seek c then Some c
       else st ← push_entry (mkEntry (tree c) 0 (dzero S cx)) (stack c);
            Some (set_flags (set_stack c st) true (at_end c)));
  '(c, aggregate) ← iterate seek_step (loop_fuel (tree c)) (c, false, aggregate);
  let c := set_flags c (did_seek c) (match stack c with [] => true | _ => false end) in
  end_ ← (if decide (bias = BiasLeft) then
            s ← item_summary c;
            Some match s with Some summary => dadd cx (position c) summary | None => position c end
          else Some (position c));
  Some (match target end_ with Eq => true | _ => false end, c, aggregate).

End seek.

(** The three aggregates. *)
#[export] Instance unit_aggregate : SeekAggregate () T S :=
  {| begin_leaf a := a; end_leaf a := Some a; push_item a _ _ := Some a; push_tree a _ _ := Some a |}.

Record SliceSeekAggregate := mkSlice {
  slice_tree : Node T S;
  leaf_items : list T;
  leaf_item_summaries : list S;
  leaf_summary : S }.

#[export] Instance slice_aggregate : SeekAggregate SliceSeekAggregate T S :=
  {| begin_leaf a := a;
     end_leaf a :=
       tree ← append cx (slice_tree a) (Leaf (leaf_summary a) (leaf_items a) (leaf_item_summaries a));
       Some (mkSlice tree [] [] (szero cx));
     push_item a item summary :=
       items ← array_vec (leaf_items a ++ [item]);
       item_summaries ← array_vec (leaf_item_summaries a ++ [summary]);
       Some (mkSlice (slice_tree a) items item_summaries (sadd cx (leaf_summary a) summary));
     push_tree a tree _ :=
       tree ← append cx (slice_tree a) tree;
       Some (mkSlice tree (leaf_items a) (leaf_item_summaries a) (leaf_summary a)) |}.

Record SummarySeekAggregate (O : Type) := mkSummaryAggregate { aggregate_position : O }.
Arguments mkSummaryAggregate {O} _.
Arguments aggregate_position {O} _.

#[export] Instance summary_aggregate {O} `{!Dimension O S Cx} :
  SeekAggregate (SummarySeekAggregate O) T S :=
  {| begin_leaf a := a;
     end_leaf a := Some a;
     push_item a _ s := Some (mkSummaryAggregate (dadd cx (aggregate_position a) s));
     push_tree a _ s := Some (mkSummaryAggregate (dadd cx (aggregate_position a) s)) |}.

Definition seek (target : D → comparison) (bias : Bias) c : option (bool * Cursor T S D) :=
  '(found, c, _) ← seek_internal target bias (reset c) ();
  Some (found, c).

Definition seek_forward (target : D → comparison) (bias : Bias) c : option (bool * Cursor T S D) :=
  '(found, c, _) ← seek_internal target bias c ();
  Some (found, c).

Definition slice (end_ : D → comparison) (bias : Bias) c : option (Node T S * Cursor T S D) :=
  '(_, c, slice) ← seek_internal end_ bias c (mkSlice (TreeOps.new cx) [] [] (szero cx));
  Some (slice_tree slice, c).

(** The target [End] is after every position. *)
Definition suffix c : option (Node T S * Cursor T S D) := slice (λ _, Gt) BiasRight c.

Definition summary {O} `{!Dimension O S Cx} (end_ : D → comparison) (bias : Bias) c :
    option (O * Cursor T S D) :=
  '(_, c, summary) ← seek_internal end_ bias c (mkSummaryAggregate (dzero S cx : O));
  Some (aggregate_position summary, c).

End CursorOps.

#[global] Arguments mkSummaryAggregate {O} _.
#[global] Arguments aggregate_position {O} _.
End CursorOps.
