(* ===== verification/CursorSpec.v ===== *)
(** * What a cursor stands for, and seeking

    A cursor denotes a place in the list of items of its tree ([spot]). This
    file relates stacks to places and proves [seek_internal] and the operations
    built on it against the list. *)

From S2P Require Import Prelude SumTree SumCursor.
Import NodeOps TreeOps CursorOps.

#[local] Unset Default Proof Using.
#[local] Arguments Nat.mul : simpl never.

(** ** Places *)

(** [On b x r]: at item [x], after the items [b] and before the items [r].
    [Before] is where [prev] ends; a [Fresh] cursor has not been moved yet. *)
Inductive spot (T : Type) :=
| Fresh | Before | On (b : list T) (x : T) (r : list T) | Past.
Arguments Fresh {T}.
Arguments Before {T}.
Arguments On {T} _ _ _.
Arguments Past {T}.

(** The place between [b] and [r]. *)
Definition spot_of {T} (b r : list T) : spot T :=
  match r with x :: r => On b x r | [] => Past end.

Lemma tree_items_internal {T S} n (s : S) cs (ts : list (Node T S)) :
  tree_items (Internal n s cs ts) = forest_items ts.
Proof. done. Qed.

Section path.
Context {T S Cx D : Type} `{!Summary S Cx, !Item T S Cx, !Dimension D S Cx} (cx : Cx).
Context `{!SummaryLaws S Cx cx, !DimensionAdd D S Cx cx}.
Implicit Types (c : Cursor T S D) (e : StackEntry T S D) (t root : Node T S).
Implicit Types (ts : list (Node T S)) (st : list (StackEntry T S D)) (a b l : list T).

Abbreviation pos := (posn (T := T) (S := S) (D := D) cx (dzero S cx)).

(** The entries [st] lead from [root] to its subtree [t] of height [h], with
    the items [b] before it and [a] after it. *)
Inductive path root : list (StackEntry T S D) → nat → Node T S → list T → list T → Prop :=
| path_root h : wf cx h root → path root [] h root [] []
| path_child st h s cs ts b a i t p :
    path root st (Datatypes.S h) (Internal (Datatypes.S h) s cs ts) b a →
    ts !! i = Some t → p = pos (b ++ forest_items (take i ts)) →
    path root (mkEntry (Internal (Datatypes.S h) s cs ts) i p :: st) h t
      (b ++ forest_items (take i ts)) (forest_items (drop (Datatypes.S i) ts) ++ a).

Lemma path_wf root st h t b a : path root st h t b a → wf cx h t.
Proof.
  induction 1 as [|st h s cs ts b a i t p _ IH Hi]; [done|].
  apply wf_internal_inv in IH as (ts' & [= -> -> ->] & _ & _ & Hf).
  by eapply Forall_lookup_1.
Qed.

Lemma path_items root st h t b a :
  path root st h t b a → tree_items root = b ++ tree_items t ++ a.
Proof.
  induction 1 as [|st h s cs ts b a i t p Hp IH Hi]; [by rewrite app_nil_r|].
  rewrite IH, tree_items_internal. rewrite <- (take_drop_middle ts i t Hi) at 1.
  rewrite forest_items_app, forest_items_cons. by rewrite <- !app_assoc.
Qed.

Lemma path_height root st h t b a :
  path root st h t b a → height root = (length st + h)%nat.
Proof.
  induction 1 as [h Hwf|st h s cs ts b a i t p Hp IH Hi]; simpl; [by apply (wf_height cx)|lia].
Qed.

Lemma weight_height h t : wf cx h t → (h + 2 <= weight t)%nat.
Proof.
  revert t. induction h as [|h IH]; intros t Hwf.
  - apply wf_leaf_inv in Hwf as (l & -> & Hne & _). simpl. destruct l; [done|simpl; lia].
  - apply wf_internal_inv in Hwf as (ts & -> & Hne & _ & Hf). simpl.
    destruct ts as [|t ts]; [done|]. apply Forall_cons in Hf as [Ht _].
    specialize (IH t Ht). cbn [fmap list_fmap]. rewrite sum_nat_cons. lia.
Qed.

Lemma pos_app b l : pos (b ++ l) = posn cx (pos b) l.
Proof. apply posn_app. Qed.

(** A stack whose top is the item [x] of a leaf. *)
Inductive stack_on root : list (StackEntry T S D) → list T → T → list T → Prop :=
| stack_on_leaf st t b a l1 x l2 p :
    path root st 0 t b a → tree_items t = l1 ++ x :: l2 →
    stack_on root (mkEntry t (length l1) p :: st) (b ++ l1) x (l2 ++ a).

(** What a cursor denotes. *)
Inductive cursor_at c : spot T → Prop :=
| at_fresh :
    tree_ok cx (tree c) → stack c = [] → did_seek c = false →
    at_end c = is_empty (tree c) → position c = pos [] → cursor_at c Fresh
| at_before :
    (∃ h, wf cx h (tree c)) → stack c = [] → did_seek c = true → at_end c = false →
    position c = pos [] → cursor_at c Before
| at_past :
    tree_ok cx (tree c) → stack c = [] → did_seek c = true → at_end c = true →
    position c = pos (tree_items (tree c)) → cursor_at c Past
| at_on b x r :
    stack_on (tree c) (stack c) b x r → did_seek c = true → at_end c = false →
    position c = pos b → cursor_at c (On b x r).

Lemma stack_on_wf root st b x r : stack_on root st b x r → ∃ h, wf cx h root.
Proof.
  intros [st' t b' a l1 y l2 p Hp _]. clear -Hp.
  remember 0%nat as h eqn:E. clear E. induction Hp; eauto.
Qed.

Lemma cursor_at_ok c sp : cursor_at c sp → tree_ok cx (tree c).
Proof.
  intros [? | Hwf | ? | b x r Hs]; try done.
  - by right.
  - right. by eapply stack_on_wf.
Qed.

Lemma cursor_at_items c b x r : cursor_at c (On b x r) → tree_items (tree c) = b ++ x :: r.
Proof.
  inversion 1 as [| | |? ? ? Hs]; subst. destruct Hs as [st t b a l1 x l2 p Hp Hi].
  rewrite (path_items _ _ _ _ _ _ Hp), Hi. by rewrite <- !app_assoc.
Qed.

(** ** Reading at a place *)

Definition spot_item (sp : spot T) : option T :=
  match sp with On _ x _ => Some x | _ => None end.

(** The items before the place: [start] is their extent. *)
Definition spot_start c (sp : spot T) : list T :=
  match sp with Fresh | Before => [] | On b _ _ => b | Past => tree_items (tree c) end.

Lemma stack_on_top root st b x r :
  stack_on root st b x r →
  ∃ s l i p st', st = mkEntry (Leaf s l (isummary cx <$> l)) i p :: st' ∧ l !! i = Some x ∧
    (i < length l)%nat.
Proof.
  intros [st' t b' a l1 y l2 p Hp Hi].
  pose proof (path_wf _ _ _ _ _ _ Hp) as Hwf. apply wf_leaf_inv in Hwf as (l & -> & _ & _).
  simpl in Hi. subst l. do 5 eexists. split; [done|].
  rewrite list_lookup_middle by done. rewrite length_app. simpl. split; [done|lia].
Qed.

Lemma item_ok c sp : cursor_at c sp → sp ≠ Fresh → item c = Some (spot_item sp).
Proof.
  intros Hat Hsp. destruct Hat as [? | ? E1 E2 | ? E1 E2 | b x r Hs Hd]; [done|..];
    unfold item; rewrite ?E2, ?E1; try done.
  rewrite Hd. destruct (stack_on_top _ _ _ _ _ Hs) as (s & l & i & p & st & -> & Hl & Hi).
  simpl. destruct (Nat.eqb_spec i (length l)); [lia|]. by rewrite Hl.
Qed.

Lemma item_summary_ok c sp :
  cursor_at c sp → sp ≠ Fresh → item_summary c = Some (isummary cx <$> spot_item sp).
Proof.
  intros Hat Hsp. destruct Hat as [? | ? E1 E2 | ? E1 E2 | b x r Hs Hd]; [done|..];
    unfold item_summary; rewrite ?E2, ?E1; try done.
  rewrite Hd. destruct (stack_on_top _ _ _ _ _ Hs) as (s & l & i & p & st & -> & Hl & Hi).
  simpl. rewrite length_fmap. destruct (Nat.eqb_spec i (length l)); [lia|].
  by rewrite list_lookup_fmap, Hl.
Qed.

Lemma start_ok c sp : cursor_at c sp → start c = pos (spot_start c sp).
Proof. by intros [|? ? ? ? | |]. Qed.

Lemma end_ok c sp :
  cursor_at c sp → sp ≠ Fresh →
  end_ cx c = Some (pos (spot_start c sp ++ option_list (spot_item sp))).
Proof.
  intros Hat Hsp. unfold end_. rewrite (item_summary_ok c sp), (start_ok c sp) by done. simpl.
  destruct (spot_item sp); simpl; [by rewrite posn_snoc|by rewrite app_nil_r].
Qed.

End path.

(** ** Seeking *)

(** What [seek_internal] asks of an aggregate: [R a l p] says that [a] has
    collected [l], and [p] of the leaf that is being scanned. *)
Class AggregateLaws {A T S Cx : Type} `{!Summary S Cx, !Item T S Cx, !SeekAggregate A T S}
    (cx : Cx) (R : A → list T → list T → Prop) : Prop := {
  agg_begin a l p : R a l p → R (begin_leaf a) l p;
  agg_push_tree a l h t :
    R a l [] → wf cx h t →
    returns (push_tree a t (NodeOps.summary t)) (λ a', R a' (l ++ tree_items t) []);
  agg_push_item a l p x :
    R a l p → (length p < 2 * TREE_BASE)%nat →
    returns (push_item a x (isummary cx x)) (λ a', R a' l (p ++ [x]));
  agg_end a l p :
    R a l p → (length p ≤ 2 * TREE_BASE)%nat →
    returns (end_leaf a) (λ a', R a' (l ++ p) []) }.

(** Whole subtrees of a tree with the items [all] are passed only when the
    measure of their summary is that of their items. A dimension that adds up has
    this for all targets; a dimension that can be undefined on a subtree has it
    for targets that enter then. *)
Class Prunes {T S Cx D : Type} `{!Summary S Cx, !Item T S Cx, !Dimension D S Cx} (cx : Cx)
    (target : D → comparison) (bias : Bias) (all : list T) : Prop :=
  prunes d h (t : Node T S) b a : wf cx h t → all = b ++ tree_items t ++ a →
    skips target bias (dadd cx d (NodeOps.summary t)) = true →
    dadd cx d (NodeOps.summary t) = posn cx d (tree_items t).

#[export] Instance add_prunes {T S Cx D : Type} `{!Summary S Cx, !Item T S Cx, !Dimension D S Cx} (cx : Cx)
    `{!SummaryLaws S Cx cx, !DimensionAdd D S Cx cx} (target : D → comparison) (bias : Bias) (all : list T) :
  Prunes cx target bias all.
Proof. intros d h t b a Ht _ _. by apply (dadd_summary cx d h). Qed.

Section seek.
Context {T S Cx D : Type} `{!Summary S Cx, !Item T S Cx, !Dimension D S Cx} (cx : Cx).
Context {A : Type} `{!SeekAggregate A T S} (R : A → list T → list T → Prop) `{!AggregateLaws cx R}.
Variable target : D → comparison.
Variable bias : Bias.
Implicit Types (c : Cursor T S D) (e : StackEntry T S D) (t root : Node T S).
Implicit Types (ts : list (Node T S)) (st : list (StackEntry T S D)) (a b l r m : list T).

Abbreviation pos := (posn (T := T) (S := S) (D := D) cx (dzero S cx)).
Abbreviation skips := (skips target bias).

(** The items whose end the target is not inside of, and the rest. *)
Fixpoint seek_split (d : D) r : list T * list T :=
  match r with
  | [] => ([], [])
  | x :: r' =>
      let d' := dadd cx d (isummary cx x) in
      if skips d' then let '(m, r'') := seek_split d' r' in (x :: m, r'') else ([], r)
  end.

Lemma skips_inside d : skips d = negb (target_in_child target bias d).
Proof. unfold CursorOps.skips, target_in_child. by destruct (target d), bias. Qed.

Lemma seek_split_app d r : (seek_split d r).1 ++ (seek_split d r).2 = r.
Proof.
  revert d. induction r as [|x r IH]; intros d; [done|]. simpl.
  destruct (skips _); [|done]. specialize (IH (dadd cx d (isummary cx x))).
  destruct (seek_split _ r) as [m r'']. simpl in *. by rewrite IH.
Qed.

Lemma seek_split_skip d l r :
  monotone cx target bias d (l ++ r) → (l ≠ [] → skips (posn cx d l) = true) →
  seek_split d (l ++ r) =
    (l ++ (seek_split (posn cx d l) r).1, (seek_split (posn cx d l) r).2).
Proof.
  revert d. induction l as [|x l IH]; intros d Hm Hs.
  - simpl. by destruct (seek_split _ r).
  - specialize (Hs ltac:(done)). simpl.
    assert (skips (dadd cx d (isummary cx x)) = true) as ->.
    { rewrite skips_inside in *. destruct (target_in_child target bias (dadd _ _ _)) eqn:E; [|done].
      specialize (Hm [x] l ltac:(done) (prefix_app_r _ _ _ ltac:(done)) E).
      simpl in Hm. by rewrite Hm in Hs. }
    rewrite IH; [done| |by intros _].
    apply (monotone_app_r cx target bias d [x] (l ++ r)). exact Hm.
Qed.

Lemma seek_split_stop d l r :
  l ≠ [] → skips (posn cx d l) = false →
  seek_split d (l ++ r) = ((seek_split d l).1, (seek_split d l).2 ++ r) ∧ (seek_split d l).2 ≠ [].
Proof.
  revert d. induction l as [|x l IH]; intros d Hne Hs; [done|]. simpl.
  destruct (skips (dadd cx d (isummary cx x))) eqn:E; [|done].
  destruct l as [|y l]; [unfold posn in Hs; simpl in Hs; congruence|].
  destruct (IH (dadd cx d (isummary cx x)) ltac:(done) Hs) as [-> Hn].
  destruct (seek_split _ (y :: l)) as [m r']. done.
Qed.

Lemma seek_split_found d l r m x k : seek_split d l = (m, x :: k) → seek_split d (l ++ r) = (m, x :: k ++ r).
Proof.
  revert d m. induction l as [|y l IH]; intros d m H; [done|]. simpl in *.
  destruct (skips _); [|by injection H as <- <- <-].
  destruct (seek_split (dadd cx d (isummary cx y)) l) as [m' r'] eqn:E. injection H as <- ->. by rewrite (IH _ _ E).
Qed.

Lemma seek_split_all d l :
  monotone cx target bias d l → (l ≠ [] → skips (posn cx d l) = true) → seek_split d l = (l, []).
Proof.
  intros Hm Hs. pose proof (seek_split_skip d l []) as H. rewrite app_nil_r in H.
  rewrite H by done. simpl. by rewrite app_nil_r.
Qed.

(** When the search runs to the end, the end is skipped. *)
Lemma seek_split_none d l m : seek_split d l = (m, []) → m = l ∧ (l ≠ [] → skips (posn cx d l) = true).
Proof.
  intros H. pose proof (seek_split_app d l) as Happ. rewrite H in Happ. cbn in Happ. rewrite app_nil_r in Happ. split; [done|].
  intros Hne. destruct (skips (posn cx d l)) eqn:E; [done|]. destruct (seek_split_stop d l [] Hne E) as [_ Hn]. by rewrite H in Hn.
Qed.

(** *** The inner loops *)

Variable root : Node T S.
Context `{!Prunes cx target bias (tree_items root)}.

Lemma seek_children_ok h ts entry d (agg : A) l b a :
  Forall (wf cx h) ts → tree_items root = b ++ forest_items ts ++ a → R agg l [] → monotone cx target bias d (forest_items ts) →
  eposition entry = d →
  ∃ j agg', (j ≤ length ts)%nat ∧
    seek_children cx target bias entry d agg ts (NodeOps.summary <$> ts) =
      Some (mkEntry (etree entry) (index entry + j) (posn cx d (forest_items (take j ts))),
            posn cx d (forest_items (take j ts)), agg', ts !! j) ∧
    R agg' (l ++ forest_items (take j ts)) [] ∧
    (forest_items (take j ts) ≠ [] → skips (posn cx d (forest_items (take j ts))) = true).
Proof.
  revert entry d agg l b. induction ts as [|t ts IH]; intros entry d agg l b Hf Hall HR Hm <-.
  { exists 0%nat, agg. rewrite take_0. cbn [seek_children fmap list_fmap lookup list_lookup].
    rewrite Nat.add_0_r. change (forest_items []) with (@nil T). rewrite app_nil_r.
    destruct entry. split_and!; done. }
  apply Forall_cons in Hf as [Ht Hf]. rewrite forest_items_cons in Hm, Hall. rewrite <- app_assoc in Hall.
  cbn [seek_children fmap list_fmap].
  destruct (skips (dadd cx (eposition entry) (NodeOps.summary t))) eqn:E.
  - pose proof (prunes _ h t b _ Ht Hall E) as Ed. rewrite app_assoc in Hall. rewrite Ed in *.
    destruct (agg_push_tree (R := R) agg l h t HR Ht) as (agg1 & -> & HR1). simpl.
    apply (monotone_app_r cx) in Hm.
    destruct (IH (mkEntry (etree entry) (index entry + 1) (posn cx (eposition entry) (tree_items t)))
      _ agg1 _ _ Hf Hall HR1 Hm eq_refl) as (j & agg' & Hj & Hr & HR' & Hs).
    exists (Datatypes.S j), agg'. cbn [etree index eposition] in Hr. rewrite Hr. simpl.
    rewrite forest_items_cons, (posn_app cx), app_assoc, <- Nat.add_assoc.
    split_and!; [lia|done|done|].
    intros _. destruct (forest_items (take j ts)) eqn:Ej; [done|]. by apply Hs.
  - exists 0%nat, agg. rewrite take_0, Nat.add_0_r. change (forest_items []) with (@nil T).
    rewrite app_nil_r. destruct entry. split_and!; try done. lia.
Qed.

Lemma seek_items_ok entry d (agg : A) l p k :
  R agg l p → (length p + length k ≤ 2 * TREE_BASE)%nat →
  ∃ agg', seek_items cx target bias entry d agg k (isummary cx <$> k) =
      Some (mkEntry (etree entry) (index entry + length (seek_split d k).1) (eposition entry),
            posn cx d (seek_split d k).1, agg',
            match (seek_split d k).2 with [] => false | _ => true end) ∧
    R agg' l (p ++ (seek_split d k).1).
Proof.
  revert entry d agg p. induction k as [|x k IH]; intros entry d agg p HR Hl.
  { exists agg. simpl. rewrite Nat.add_0_r, app_nil_r. by destruct entry. }
  cbn [seek_items seek_split fmap list_fmap]. destruct (skips _) eqn:E.
  - destruct (agg_push_item (R := R) agg l p x HR) as (agg1 & -> & HR1); [simpl in Hl; lia|]. simpl.
    destruct (IH (mkEntry (etree entry) (index entry + 1) (eposition entry))
      (dadd cx d (isummary cx x)) agg1 _ HR1) as (agg' & Hr & HR').
    { rewrite length_app. simpl in *. lia. }
    exists agg'. cbn [etree index eposition] in Hr. rewrite Hr.
    destruct (seek_split (dadd cx d (isummary cx x)) k) as [m r]. simpl in *.
    rewrite <- Nat.add_assoc, <- app_assoc in *. done.
  - exists agg. simpl. rewrite Nat.add_0_r, app_nil_r. by destruct entry.
Qed.

(** *** One turn of the loop *)

Variable ended : bool.

Definition cur st (d : D) : Cursor T S D := mkCursor root st d true ended.

Abbreviation step := (seek_step cx target bias (A := A)).

(** From [s], after [n] turns, the loop stops at the item [x]. *)
Definition stops (n : nat) (s : Cursor T S D * bool * A) b x r l : Prop :=
  ∃ s' st agg, nsteps_to step n s s' ∧ step s' = Some (inr (cur st (pos b), agg)) ∧
    stack_on cx root st b x r ∧ R agg l [].

Lemma stops_step n s s' b x r l :
  step s = Some (inl s') → stops n s' b x r l → stops (Datatypes.S n) s b x r l.
Proof.
  intros Hs (s1 & st & agg & Hn & H). exists s1, st, agg. split; [|done]. by eapply nsteps_to_step.
Qed.

Lemma leaf_step st t b a l1 k p asc (agg : A) l :
  path cx root st 0 t b a → tree_items t = l1 ++ k → R agg l [] →
  let d := pos (b ++ l1) in
  let s := (cur (mkEntry t (length l1) p :: st) d, asc, agg) in
  match (seek_split d k).2 with
  | x :: r => ∀ m, m = (seek_split d k).1 → stops 0 s ((b ++ l1) ++ m) x (r ++ a) (l ++ m)
  | [] => ∃ agg', step s = Some (inl (cur st (pos (b ++ tree_items t)), true, agg')) ∧ R agg' (l ++ k) []
  end.
Proof.
  intros Hp Hi HR d s. pose proof (path_wf _ _ _ _ _ _ _ Hp) as Hwf.
  apply wf_leaf_inv in Hwf as (l' & -> & _ & Hlen). simpl in Hi. subst l'.
  rewrite length_app in Hlen.
  assert (drop (length l1) (isummary cx <$> l1 ++ k) = isummary cx <$> k) as Hdrop.
  { rewrite fmap_app, drop_app_length'; [done|by rewrite length_fmap]. }
  destruct (seek_items_ok
    (mkEntry (Leaf (total cx (l1 ++ k)) (l1 ++ k) (isummary cx <$> l1 ++ k)) (length l1) p) d
    (begin_leaf agg) l [] k) as (agg1 & Hit & HR1); [by apply agg_begin|simpl; lia|].
  destruct (agg_end (R := R) agg1 l _ HR1) as (agg2 & Hend & HR2).
  { simpl. pose proof (f_equal length (seek_split_app d k)) as E. rewrite length_app in E. lia. }
  simpl in HR2. cbn [index etree eposition] in Hit.
  assert (step s = match (seek_split d k).2 with
    | [] => Some (inl (cur st (posn cx d (seek_split d k).1), true, agg2))
    | _ => Some (inr (cur (mkEntry (Leaf (total cx (l1 ++ k)) (l1 ++ k) (isummary cx <$> l1 ++ k))
             (length l1 + length (seek_split d k).1) p :: st) (posn cx d (seek_split d k).1), agg2))
    end) as Hstep.
  { subst s. cbn [seek_step stack cur etree index]. rewrite length_app.
    destruct (Nat.ltb_spec (length l1 + length k) (length l1)); [lia|].
    rewrite drop_app_length. rewrite Hdrop. cbn [position cur]. rewrite Hit. simpl.
    rewrite Hend. simpl. by destruct (seek_split d k).2. }
  pose proof (seek_split_app d k) as Hsp.
  destruct (seek_split d k) as [m [|x r]]; cbn [fst snd] in *.
  - exists agg2. rewrite app_nil_r in Hsp. subst m. split; [|done].
    rewrite Hstep. subst d. by rewrite <- posn_app, <- app_assoc.
  - intros ? ->. exists s. do 2 eexists. split; [constructor|]. rewrite Hstep. subst d.
    rewrite <- posn_app. split; [done|]. split; [|done].
    rewrite <- length_app, <- app_assoc.
    eapply stack_on_leaf; [done|]. simpl. by rewrite <- Hsp, <- app_assoc.
Qed.

Lemma node_step st h t b a i i0 p (asc : bool) (agg : A) l ts :
  path cx root st (Datatypes.S h) t b a → child_trees t = Some ts → R agg l [] →
  (length st + 1 < STACK_CAPACITY)%nat → (i <= length ts)%nat →
  (if asc then i = (i0 + 1)%nat else i = i0 ∧ p = pos (b ++ forest_items (take i ts))) →
  let d := pos (b ++ forest_items (take i ts)) in
  monotone cx target bias d (forest_items (drop i ts)) →
  let s := (cur (mkEntry t i0 p :: st) d, asc, agg) in
  ∃ j agg', (i <= j <= length ts)%nat ∧
    let b' := b ++ forest_items (take j ts) in
    R agg' (l ++ forest_items (drop i (take j ts))) [] ∧
    (forest_items (drop i (take j ts)) ≠ [] → skips (pos b') = true) ∧
    match ts !! j with
    | None => step s = Some (inl (cur st (pos (b ++ tree_items t)), true, agg'))
    | Some t' =>
        let st' := mkEntry t j (pos b') :: st in
        path cx root st' h t' b' (forest_items (drop (Datatypes.S j) ts) ++ a) ∧
        step s = Some (inl (cur (mkEntry t' 0 (pos b') :: st') (pos b'), false, agg'))
    end.
Proof.
  intros Hp Hts HR Hcap Hi Hasc d Hm s. pose proof (path_wf _ _ _ _ _ _ _ Hp) as Hwf.
  apply wf_internal_inv in Hwf as (ts' & -> & _ & _ & Hf). injection Hts as ->.
  pose (e := mkEntry (Internal (Datatypes.S h) (total cx (forest_items ts)) (NodeOps.summary <$> ts) ts) i d).
  destruct (seek_children_ok h (drop i ts) e d agg l (b ++ forest_items (take i ts)) a) as (j & agg' & Hj & Hr & HR' & Hs);
    [by apply Forall_drop| |done|done|done|].
  { rewrite (path_items _ _ _ _ _ _ _ Hp), tree_items_internal, <- app_assoc. f_equal.
    by rewrite (app_assoc (forest_items _)), <- forest_items_app, take_drop. }
  rewrite length_drop in Hj.
  assert (posn cx d (forest_items (take j (drop i ts))) = pos (b ++ forest_items (take (i + j) ts))) as Hpos.
  { subst d. rewrite <- posn_app, <- app_assoc, <- forest_items_app. by rewrite take_take_drop. }
  exists (i + j)%nat, agg'. split; [lia|]. cbn zeta.
  assert (drop i (take (i + j) ts) = take j (drop i ts)) as Hdt by (by rewrite take_drop_commute).
  rewrite Hdt. split_and!; [done|by rewrite <- Hpos|].
  assert (step s = '(entry, ps, aggregate, child) ←
     seek_children cx target bias e d agg (drop i ts) (NodeOps.summary <$> drop i ts);
     match child with
     | Some child_tree =>
         st ← push_entry (mkEntry child_tree 0 ps) (entry :: st);
         Some (inl (cur st ps, false, aggregate))
     | None => Some (inl (cur st ps, true, aggregate))
     end) as ->.
  { subst s. cbn [seek_step stack cur etree index position].
    assert ((if asc then mkEntry (Internal (Datatypes.S h) (total cx (forest_items ts)) (NodeOps.summary <$> ts) ts) (i0 + 1) d
             else mkEntry (Internal (Datatypes.S h) (total cx (forest_items ts)) (NodeOps.summary <$> ts) ts) i0 p) = e) as Hent.
    { subst e. destruct asc; [by subst i|]. by destruct Hasc as [-> ->]. }
    rewrite Hent. cbn [index e].
    destruct (Nat.ltb_spec (length ts) i); [lia|]. rewrite <- fmap_drop. done. }
  rewrite Hr, Hpos. simpl. rewrite lookup_drop in *.
  destruct (ts !! (i + j)%nat) as [t'|] eqn:Et.
  - split; [exact (path_child cx root _ _ _ _ _ _ _ _ _ _ Hp Et eq_refl)|].
    unfold push_entry. simpl. destruct (Nat.ltb_spec (Datatypes.S (length st)) STACK_CAPACITY); [done|lia].
  - apply lookup_ge_None in Et. rewrite take_ge by lia. done.
Qed.

(** *** The whole loop *)

(** From [s], with the items [b] passed, the loop searches the items [k]: it
    stops at one of them, or has passed them all after [n] turns, with the
    stack [st]; [a] are the items after [k]. *)
Definition outcome (n : nat) (s : Cursor T S D * bool * A) b (k a : list T) st l : Prop :=
  let '(m, r) := seek_split (pos b) k in
  match r with
  | x :: r => stops n s (b ++ m) x (r ++ a) (l ++ m)
  | [] => ∃ agg, nsteps_to step n s (cur st (pos (b ++ k)), true, agg) ∧ R agg (l ++ k) []
  end.

Lemma outcome_nil b a st (agg : A) l : R agg l [] → outcome 0 (cur st (pos b), true, agg) b [] a st l.
Proof. intros HR. exists agg. rewrite !app_nil_r. split; [constructor|done]. Qed.

(** A turn that passes the items [k]. *)
Lemma outcome_step n s s' b k k' a st l : step s = Some (inl s') → monotone cx target bias (pos b) (k ++ k') →
  (k ≠ [] → skips (pos (b ++ k)) = true) → outcome n s' (b ++ k) k' a st (l ++ k) → outcome (Datatypes.S n) s b (k ++ k') a st l.
Proof.
  intros Hs Hm Hk. unfold outcome. rewrite seek_split_skip by (done || by rewrite <- posn_app). rewrite <- posn_app.
  destruct (seek_split (pos (b ++ k)) k') as [m [|x r]]; cbn [fst snd]; rewrite <- ?app_assoc.
  - intros (agg & Hn & HR). exists agg. split; [by eapply nsteps_to_step|done].
  - intros H. by eapply stops_step.
Qed.

(** Searching one part after the other. *)
Lemma outcome_trans n s b k k' a st st' l N : monotone cx target bias (pos b) (k ++ k') → outcome n s b k (k' ++ a) st l →
  (∀ agg, R agg (l ++ k) [] → ∃ n', (n' <= N)%nat ∧ outcome n' (cur st (pos (b ++ k)), true, agg) (b ++ k) k' a st' (l ++ k)) →
  ∃ n', (n' <= n + N)%nat ∧ outcome n' s b (k ++ k') a st' l.
Proof.
  intros Hm Hout Hrest. unfold outcome in *. destruct (seek_split (pos b) k) as [m [|x r]] eqn:E.
  - destruct Hout as (agg & Hn & HR). destruct (seek_split_none _ _ _ E) as [-> Hk]. destruct (Hrest agg HR) as (n' & Hle & Hout).
    exists (n + n')%nat. split; [lia|]. rewrite seek_split_skip by done. rewrite <- posn_app.
    destruct (seek_split (pos (b ++ k)) k') as [m [|x r]]; cbn [fst snd]; rewrite <- ?app_assoc in *.
    + destruct Hout as (agg' & Hn' & HR'). exists agg'. split; [by eapply nsteps_to_trans|done].
    + destruct Hout as (s' & st1 & agg' & Hn' & H). exists s', st1, agg'. split; [by eapply nsteps_to_trans|done].
  - exists n. split; [lia|]. rewrite (seek_split_found _ _ k' _ _ _ E). by rewrite <- app_assoc.
Qed.

Definition forest_weight ts : nat := sum_nat (weight <$> ts).

Lemma forest_weight_drop ts i t : ts !! i = Some t → forest_weight (drop i ts) = (weight t + forest_weight (drop (Datatypes.S i) ts))%nat.
Proof. intros H. by rewrite (drop_S _ t i). Qed.

Lemma forest_weight_le ts i j : (i <= j)%nat → (forest_weight (drop j ts) <= forest_weight (drop i ts))%nat.
Proof.
  intros Hij. unfold forest_weight. replace j with (i + (j - i))%nat by lia. rewrite <- drop_drop.
  generalize (drop i ts). intros l. rewrite <- (take_drop (j - i) l) at 2. rewrite fmap_app, sum_nat_app. lia.
Qed.

Lemma path_weight st h t b a : path cx root st h t b a → (weight t <= weight root)%nat.
Proof.
  induction 1 as [h|st h s cs ts b a i t p Hp IH Hi _]; [done|]. pose proof (forest_weight_drop ts i t Hi) as E.
  pose proof (forest_weight_le ts 0 i ltac:(lia)) as E2. rewrite drop_0 in E2.
  change (weight (Internal (Datatypes.S h) s cs ts)) with (Datatypes.S (forest_weight ts)) in IH. lia.
Qed.

(** The children of a node, from the [i]-th on, when entering a child is understood. *)
Lemma node_ok h st t b a ts : path cx root st (Datatypes.S h) t b a → child_trees t = Some ts → (length st + Datatypes.S h < STACK_CAPACITY)%nat →
  (∀ st t b a (agg : A) l, path cx root st h t b a → (length st + h < STACK_CAPACITY)%nat → R agg l [] →
    monotone cx target bias (pos b) (tree_items t) →
    ∃ n, (n + 1 <= 2 * weight t)%nat ∧ outcome n (cur (mkEntry t 0 (pos b) :: st) (pos b), false, agg) b (tree_items t) a st l) →
  ∀ k i i0 p (asc : bool) (agg : A) l, (k + i = length ts)%nat → R agg l [] →
  (if asc then i = (i0 + 1)%nat else i = i0 ∧ p = pos (b ++ forest_items (take i ts))) →
  let b' := b ++ forest_items (take i ts) in
  monotone cx target bias (pos b') (forest_items (drop i ts)) →
  ∃ n, (n <= 1 + 2 * forest_weight (drop i ts))%nat ∧
    outcome n (cur (mkEntry t i0 p :: st) (pos b'), asc, agg) b' (forest_items (drop i ts)) a st l.
Proof.
  intros Hp Hts Hcap Henter k. induction k as [k IH] using lt_wf_ind. intros i i0 p asc agg l Hk HR Hasc b' Hm.
  destruct (node_step st h t b a i i0 p asc agg l ts Hp Hts HR ltac:(lia) ltac:(lia) Hasc Hm) as (j & agg1 & Hj & HR1 & Hsk & Hstep).
  cbn zeta in HR1, Hsk, Hstep.
  assert (forest_items (drop i ts) = forest_items (drop i (take j ts)) ++ forest_items (drop j ts)) as Hdr.
  { rewrite <- forest_items_app. f_equal. rewrite <- (take_drop j ts) at 1. rewrite drop_app_le by (rewrite length_take; lia). done. }
  assert (b ++ forest_items (take j ts) = b' ++ forest_items (drop i (take j ts))) as Hb'.
  { unfold b'. rewrite <- app_assoc, <- forest_items_app. do 2 f_equal. rewrite <- (take_drop i (take j ts)) at 1. by rewrite take_take, Nat.min_l by lia. }
  rewrite Hdr in Hm |- *. pose proof (monotone_app_r _ _ _ _ _ _ Hm) as Hm'. rewrite <- posn_app, <- Hb' in Hm'. rewrite Hb' in Hsk.
  pose proof (forest_weight_le ts i j ltac:(lia)) as Hw.
  destruct (ts !! j) as [t'|] eqn:Ej.
  - destruct Hstep as [Hp' Hstep]. rewrite (drop_S _ t' j) in Hm, Hm' |- * by done. rewrite forest_items_cons in Hm, Hm' |- *.
    rewrite (forest_weight_drop ts j t' Ej) in Hw. assert (j < length ts)%nat as Hlt by by eapply lookup_lt_Some.
    destruct (Henter _ t' _ _ agg1 (l ++ forest_items (drop i (take j ts))) Hp') as (n1 & Hn1 & Hout); [simpl; lia|done|by eapply monotone_app_l|].
    destruct (outcome_trans n1 _ _ _ (forest_items (drop (Datatypes.S j) ts)) a _ st _ (1 + 2 * forest_weight (drop (Datatypes.S j) ts)) Hm' Hout)
      as (n & Hn & Hout').
    { intros agg2 HR2. pose proof (monotone_app_r _ _ _ _ _ _ Hm') as Hm2. rewrite <- posn_app in Hm2.
      assert ((b ++ forest_items (take j ts)) ++ tree_items t' = b ++ forest_items (take (Datatypes.S j) ts)) as Hbt.
      { rewrite (take_S_r _ _ t') by done. by rewrite forest_items_app, forest_items_one, app_assoc. }
      rewrite Hbt in *. apply (IH (length ts - Datatypes.S j)%nat); [lia|lia|done|lia|done]. }
    exists (Datatypes.S n). split; [lia|]. eapply outcome_step; [exact Hstep|done|done|]. by rewrite <- Hb'.
  - apply lookup_ge_None in Ej. exists 1%nat. split; [lia|]. rewrite (drop_ge ts j) in Hm |- * by lia.
    eapply outcome_step; [exact Hstep|done|done|]. rewrite <- Hb', take_ge by lia.
    destruct (wf_internal_inv cx h t (path_wf _ _ _ _ _ _ _ Hp)) as (ts' & -> & _). injection Hts as ->. apply outcome_nil.
    by rewrite take_ge in HR1 by lia.
Qed.

(** Entering a subtree: the loop stops inside it, or pops it. *)
Lemma enter_ok h st t b a (agg : A) l :
  path cx root st h t b a → (length st + h < STACK_CAPACITY)%nat → R agg l [] →
  monotone cx target bias (pos b) (tree_items t) →
  ∃ n, (n + 1 <= 2 * weight t)%nat ∧ outcome n (cur (mkEntry t 0 (pos b) :: st) (pos b), false, agg) b (tree_items t) a st l.
Proof.
  revert st t b a agg l. induction h as [|h IH]; intros st t b a agg l Hp Hcap HR Hm.
  - pose proof (leaf_step st t b a [] (tree_items t) (pos b) false agg l Hp eq_refl HR) as Hl.
    rewrite app_nil_r in Hl. cbn zeta in Hl. pose proof (weight_height cx 0 t (path_wf _ _ _ _ _ _ _ Hp)) as Hw.
    unfold outcome. destruct (seek_split (pos b) (tree_items t)) as [m [|x r]]; cbn [fst snd] in Hl.
    + destruct Hl as (agg' & Hs & HR'). exists 1%nat. split; [lia|]. exists agg'. split; [by apply nsteps_to_one|done].
    + exists 0%nat. split; [lia|]. by apply Hl.
  - destruct (wf_internal_inv cx h t (path_wf _ _ _ _ _ _ _ Hp)) as (ts & Ht & _ & _ & Hf).
    assert (tree_items t = forest_items ts ∧ weight t = Datatypes.S (forest_weight ts)) as [Hit Hw] by by rewrite Ht.
    assert (b ++ forest_items (take 0 ts) = b) as Eb by by rewrite take_0, app_nil_r.
    destruct (node_ok h st t b a ts Hp ltac:(by rewrite Ht) Hcap IH (length ts) 0 0 (pos b) false agg l) as (n & Hn & Hout);
      [lia|done|by rewrite Eb|by rewrite Eb, drop_0, <- Hit|]. rewrite Eb in Hout.
    exists n. rewrite drop_0 in Hn, Hout.
    rewrite Hit, Hw. split; [lia|done].
Qed.

(** After a subtree has been popped, the rest of the tree. *)
Lemma popped st h t b a (agg : A) l :
  path cx root st h t b a → (length st + h < STACK_CAPACITY)%nat → R agg l [] →
  monotone cx target bias (pos (b ++ tree_items t)) a →
  ∃ n, (n + 2 * weight t <= 2 * weight root)%nat ∧ outcome n (cur st (pos (b ++ tree_items t)), true, agg) (b ++ tree_items t) a [] [] l.
Proof.
  intros Hp. revert agg l. induction Hp as [h Hwf|st h s' cs ts b a i t p Hp IH Hi ->]; intros agg l Hcap HR Hm.
  { exists 0%nat. split; [lia|]. by apply outcome_nil. }
  assert ((b ++ forest_items (take i ts)) ++ tree_items t = b ++ forest_items (take (Datatypes.S i) ts)) as Hbt.
  { rewrite (take_S_r _ _ t) by done. by rewrite forest_items_app, forest_items_one, app_assoc. }
  rewrite Hbt in *. assert (i < length ts)%nat as Hlt by (by eapply lookup_lt_Some). simpl in Hcap.
  destruct (node_ok h st _ b a ts Hp eq_refl ltac:(lia) (enter_ok h) (length ts - Datatypes.S i) (Datatypes.S i) i
    (pos (b ++ forest_items (take i ts))) true agg l) as (n & Hn & Hout); [lia|done|lia|by eapply monotone_app_l|].
  rewrite <- (app_nil_r a) in Hout.
  destruct (outcome_trans n _ _ _ a [] _ [] l (2 * weight root - 2 * weight (Internal (Datatypes.S h) s' cs ts)) Hm Hout) as (n' & Hn' & Hout').
  { intros agg' HR'. pose proof (monotone_app_r _ _ _ _ _ _ Hm) as Hm'. rewrite <- posn_app in Hm'.
    assert ((b ++ forest_items (take (Datatypes.S i) ts)) ++ forest_items (drop (Datatypes.S i) ts) = b ++ forest_items ts) as Hall.
    { by rewrite <- app_assoc, <- forest_items_app, take_drop. }
    rewrite Hall in *. destruct (IH agg' (l ++ forest_items (drop (Datatypes.S i) ts)) ltac:(lia) HR' Hm') as (n2 & Hn2 & Hout2).
    exists n2. split; [lia|done]. }
  exists n'. split; [|done]. pose proof (path_weight _ _ _ _ _ Hp) as Hw.
  pose proof (forest_weight_drop ts i t Hi) as E. pose proof (forest_weight_le ts 0 i ltac:(lia)) as E2. rewrite drop_0 in E2.
  change (weight (Internal (Datatypes.S h) s' cs ts)) with (Datatypes.S (forest_weight ts)) in *. lia.
Qed.

End seek.

Section operations.
Context {T S Cx D : Type} `{!Summary S Cx, !Item T S Cx, !Dimension D S Cx} (cx : Cx).
Implicit Types (c : Cursor T S D) (t root : Node T S) (b l r m : list T) (st : list (StackEntry T S D)).

Abbreviation pos := (posn (T := T) (S := S) (D := D) cx (dzero S cx)).

Definition spot_rest c (sp : spot T) : list T :=
  match sp with Fresh | Before => tree_items (tree c) | On _ x r => x :: r | Past => [] end.

Lemma spot_start_rest c sp :
  cursor_at cx c sp → tree_items (tree c) = spot_start c sp ++ spot_rest c sp.
Proof.
  intros Hat. destruct sp; simpl; [done|done|by eapply cursor_at_items|by rewrite app_nil_r].
Qed.

Lemma path_length root st h t b a :
  path cx root st h t b a → (length st ≤ height root)%nat.
Proof. intros Hp. apply path_height in Hp. lia. Qed.

Section seek.
Context {A : Type} `{!SeekAggregate A T S} (R : A → list T → list T → Prop) `{!AggregateLaws cx R}.
Variable target : D → comparison.
Variable bias : Bias.

Abbreviation step := (seek_step cx target bias (A := A)).
Abbreviation split := (seek_split cx target bias).

(** The loop from any place but [Before]. *)
Definition loop_result root (s : Cursor T S D * bool * A) b r : Prop :=
  ∃ n s' st agg, (n < loop_fuel root)%nat ∧ nsteps_to step n s s' ∧
    step s' = Some (inr (mkCursor root st (pos (b ++ (split (pos b) r).1)) true (at_end s.1.1), agg)) ∧
    R agg (split (pos b) r).1 [] ∧
    match (split (pos b) r).2 with
    | x :: r' => stack_on cx root st (b ++ (split (pos b) r).1) x r'
    | [] => st = []
    end.

Lemma outcome_result root ended n s b r :
  (n < loop_fuel root)%nat → at_end s.1.1 = ended → tree_items root = b ++ r →
  outcome cx R target bias root ended n s b r [] [] [] → loop_result root s b r.
Proof.
  intros Hn <- Hit. unfold outcome, loop_result. pose proof (seek_split_app cx target bias (pos b) r) as Happ.
  destruct (split (pos b) r) as [m [|x r']]; cbn [fst snd] in *.
  - intros (agg & Hns & HR). rewrite app_nil_r in Happ. subst m. by exists n, (cur root (at_end s.1.1) [] (pos (b ++ r)), true, agg), [], agg.
  - rewrite app_nil_r. intros (s' & st & agg & Hns & Hs & Hon & HR). by exists n, s', st, agg.
Qed.

Lemma loop_on root `{!Prunes cx target bias (tree_items root)} ended st b x r (agg : A) :
  stack_on cx root st b x r → (height root < STACK_CAPACITY)%nat → R agg [] [] →
  monotone cx target bias (pos b) (x :: r) →
  loop_result root (cur root ended st (pos b), false, agg) b (x :: r).
Proof.
  intros Hon Hcap HR Hm. destruct Hon as [st t b a l1 x l2 p Hp Hi].
  pose proof (path_height _ _ _ _ _ _ _ Hp) as Hh. pose proof (path_weight cx root _ _ _ _ _ Hp) as Hw.
  pose proof (weight_height cx 0 t (path_wf _ _ _ _ _ _ _ Hp)) as Hw'.
  pose proof (leaf_step cx R target bias root ended st t b a l1 (x :: l2) p false agg [] Hp Hi HR) as Hl.
  rewrite app_comm_cons in *. cbn zeta in Hl. set (s := (cur root ended _ _, false, agg)) in *.
  assert (∃ n, (n <= 1)%nat ∧ outcome cx R target bias root ended n s (b ++ l1) (x :: l2) (a ++ []) st []) as (n & Hn & Hout).
  { unfold outcome. rewrite app_nil_r. destruct (split (pos (b ++ l1)) (x :: l2)) as [m [|y k]]; cbn [fst snd] in Hl.
    - destruct Hl as (agg1 & Hs & HR1). exists 1%nat. split; [done|]. exists agg1. split; [|done]. apply nsteps_to_one. rewrite Hs, Hi. by rewrite app_assoc.
    - exists 0%nat. split; [lia|]. by apply Hl. }
  assert (b ++ tree_items t = (b ++ l1) ++ x :: l2) as Hbt by by rewrite Hi, app_assoc.
  destruct (outcome_trans cx R target bias root ended n s (b ++ l1) (x :: l2) a [] st [] [] (2 * weight root - 2 * weight t) Hm Hout) as (n' & Hn' & Hout').
  { intros agg' HR'. pose proof (monotone_app_r _ _ _ _ _ _ Hm) as Hm'. rewrite <- posn_app, <- Hbt in Hm'. rewrite <- Hbt.
    destruct (popped cx R target bias root ended st 0 t b a agg' ([] ++ x :: l2) Hp ltac:(lia) HR' Hm') as (n2 & Hn2 & Hout2). exists n2. split; [lia|done]. }
  eapply (outcome_result root ended n'); [unfold loop_fuel; lia|done| |exact Hout'].
  rewrite (path_items _ _ _ _ _ _ _ Hp), Hi. by rewrite <- !app_assoc.
Qed.

Lemma loop_fresh root `{!Prunes cx target bias (tree_items root)} ended h (agg : A) :
  wf cx h root → (height root < STACK_CAPACITY)%nat → R agg [] [] →
  monotone cx target bias (pos []) (tree_items root) →
  loop_result root (cur root ended [mkEntry root 0 (pos [])] (pos []), false, agg) [] (tree_items root).
Proof.
  intros Hwf Hcap HR Hm. pose proof (wf_height _ _ _ Hwf) as Hh.
  destruct (enter_ok cx R target bias root ended h [] root [] [] agg [] (path_root (D := D) cx root h Hwf)) as (n & Hn & Hout); [simpl; lia|done..|].
  eapply (outcome_result root ended n); [unfold loop_fuel; lia|done..].
Qed.

(** On an empty tree the root leaf is popped at once. *)
Lemma loop_empty ended (agg : A) :
  R agg [] [] →
  loop_result (TreeOps.new cx)
    (cur (TreeOps.new cx) ended [mkEntry (TreeOps.new cx) 0 (pos [])] (pos []), false, agg) [] [].
Proof.
  intros HR. destruct (agg_end (R := R) (begin_leaf agg) [] [] (agg_begin _ _ _ HR)) as (agg' & He & HR').
  { unfold TREE_BASE. simpl. lia. }
  eexists 1%nat, _, [], agg'. split_and!; [unfold loop_fuel; simpl; lia| | |done|done].
  - apply nsteps_to_one. cbn. rewrite He. reflexivity.
  - done.
Qed.

Definition found_at (b m r : list T) : bool :=
  match target (pos (b ++ m ++ if decide (bias = BiasLeft) then option_list (head r) else [])) with
  | Eq => true
  | _ => false
  end.

Lemma seek_internal_ok c sp (agg : A) `{!Prunes cx target bias (tree_items (tree c))} :
  cursor_at cx c sp → sp ≠ Before → (height (tree c) < STACK_CAPACITY)%nat → R agg [] [] →
  target (position c) ≠ Lt →
  monotone cx target bias (pos (spot_start c sp)) (spot_rest c sp) →
  returns (seek_internal cx target bias c agg) (λ '(found, c', agg'),
    let b := spot_start c sp in
    let '(m, r) := split (pos b) (spot_rest c sp) in
    tree c' = tree c ∧ cursor_at cx c' (spot_of (b ++ m) r) ∧ R agg' m [] ∧
    found = found_at b m r).
Proof.
  intros Hat Hsp Hcap HR Htgt Hm.
  pose proof (spot_start_rest c sp Hat) as Hitems.
  pose proof (cursor_at_ok cx c sp Hat) as Hok.
  assert (∃ c1, (if did_seek c then Some c
       else st ← push_entry (mkEntry (tree c) 0 (dzero S cx)) (stack c);
            Some (set_flags (set_stack c st) true (at_end c))) = Some c1 ∧ tree c1 = tree c ∧
    loop_result (tree c) (c1, false, agg) (spot_start c sp) (spot_rest c sp)) as (c1 & Hc1 & Ht1 & Hloop).
  { destruct Hat as [Hok' Es Ed Ee Ep | Hwf Es Ed Ee Ep | Hok' Es Ed Ee Ep | b x r Hs Ed Ee Ep];
      [ |done| | ]; rewrite Ed, ?Es.
    - eexists. split; [done|]. split; [done|]. cbn [spot_start spot_rest].
      destruct c as [t st p ds ae]. cbn [tree stack position did_seek at_end] in *. subst.
      destruct Hok' as [->|[h Hwf]]; [by apply loop_empty|by eapply loop_fresh].
    - exists c. split; [done|]. split; [done|]. cbn [spot_start spot_rest].
      destruct c as [t st p ds ae]. cbn [tree stack position did_seek at_end] in *. subst.
      exists 0%nat. do 3 eexists. split_and!; [unfold loop_fuel; lia|constructor| |exact HR|done].
      cbn. by rewrite app_nil_r.
    - exists c. split; [done|]. split; [done|]. cbn [spot_start spot_rest].
      destruct c as [t st p ds ae]. cbn [tree stack position did_seek at_end] in *. subst.
      by apply loop_on. }
  unfold seek_internal. rewrite Hc1.
  assert (match target (position c) with Lt => true | _ => false end = false) as ->
    by (by destruct (target (position c))).
  destruct Hloop as (n & s' & st & agg' & Hn & Hns & Hs & HR' & Hst). cbn [mbind option_bind].
  rewrite Ht1, (iterate_exit _ n _ _ _ _ Hns Hs Hn). cbn [mbind option_bind].
  pose proof (seek_split_app cx target bias (pos (spot_start c sp)) (spot_rest c sp)) as Happ.
  destruct (split (pos (spot_start c sp)) (spot_rest c sp)) as [m r]. cbn [fst snd] in *.
  set (c' := set_flags _ _ _).
  assert (cursor_at cx c' (spot_of (spot_start c sp ++ m) r)) as Hat'.
  { destruct r as [|x r]; cbn [spot_of].
    - subst st. rewrite app_nil_r in Happ. apply at_past; try done.
      subst m. change (pos (spot_start c sp ++ spot_rest c sp) = pos (tree_items (tree c))).
      by rewrite Hitems.
    - subst c'. destruct Hst. apply at_on; [by econstructor|done..]. }
  assert (spot_of (spot_start c sp ++ m) r ≠ Fresh) as Hnf by (by destruct r).
  assert (position c' = pos (spot_start c sp ++ m)) as Hpos by done.
  assert (item_summary c' = Some (isummary cx <$> head r)) as Hsum.
  { rewrite (item_summary_ok cx c' _ Hat' Hnf). by destruct r. }
  unfold found_at. destruct (decide (bias = BiasLeft)).
  - rewrite Hsum. cbn [mbind option_bind]. apply returns_ret. split_and!; [done|done|done|].
    rewrite Hpos, app_assoc. destruct r as [|x r]; simpl; [by rewrite app_nil_r|by rewrite posn_snoc].
  - cbn [mbind option_bind]. apply returns_ret. split_and!; [done|done|done|].
    by rewrite Hpos, app_nil_r.
Qed.

End seek.
End operations.

(** ** The aggregates *)

Section aggregates.
Context {T S Cx : Type} `{!Summary S Cx, !Item T S Cx} (cx : Cx) `{!SummaryLaws S Cx cx}.

(** A slice holds a well-formed tree of the items it has collected. *)
Definition slice_holds (a : SliceSeekAggregate (T := T) (S := S)) (l p : list T) : Prop :=
  tree_ok cx (slice_tree a) ∧ tree_items (slice_tree a) = l ∧
  leaf_items a = p ∧ leaf_item_summaries a = isummary cx <$> p ∧ leaf_summary a = total cx p.

#[export] Instance slice_laws :
  AggregateLaws (SeekAggregate0 := slice_aggregate cx) cx slice_holds.
Proof.
  split.
  - done.
  - intros a l h t (Hok & Hit & Hp & Hs & Ht) Hwf. simpl.
    destruct (append_ok cx (slice_tree a) t Hok ltac:(right; by exists h)) as (t' & -> & Hok' & Hit').
    apply returns_ret. split_and!; try done. simpl. by rewrite Hit', Hit.
  - intros a l p x (Hok & Hit & Hp & Hs & Ht) Hlen. simpl.
    rewrite Hp, Hs. rewrite !array_vec_ok by (rewrite length_app, ?length_fmap; simpl; lia).
    apply returns_ret. split_and!; try done; simpl.
    + by rewrite fmap_app.
    + rewrite Ht. rewrite (total_app cx) by done. f_equal. symmetry. apply sadd_zero_l.
  - intros a l p (Hok & Hit & Hp & Hs & Ht) Hlen. simpl. rewrite Hp, Hs, Ht.
    destruct (append_ok cx (slice_tree a) (Leaf (total cx p) p (isummary cx <$> p)) Hok) as (t' & -> & Hok' & Hit').
    { destruct p as [|x p]; [by left|]. right. exists 0%nat. done. }
    apply returns_ret. split_and!; try done. simpl. by rewrite Hit', Hit.
Qed.

#[export] Instance unit_laws : AggregateLaws (A := ()) cx (λ _ (l p : list T), True).
Proof. split; intros; simpl; try done; by apply returns_ret. Qed.

#[export] Instance summary_laws {O} `{!Dimension O S Cx, !DimensionAdd O S Cx cx} :
  AggregateLaws (SeekAggregate0 := summary_aggregate cx) cx
    (λ (a : SummarySeekAggregate O) (l p : list T), aggregate_position a = posn cx (dzero S cx) (l ++ p)).
Proof.
  split; simpl; intros.
  - done.
  - apply returns_ret. simpl. rewrite H, !app_nil_r, (posn_app cx). by apply (dadd_summary cx _ h).
  - apply returns_ret. simpl. by rewrite H, app_assoc, posn_snoc.
  - apply returns_ret. by rewrite app_nil_r.
Qed.

End aggregates.

(** ** The operations of a cursor that seek *)

Section properties.
Context {T S Cx D : Type} `{!Summary S Cx, !Item T S Cx, !Dimension D S Cx} (cx : Cx).
Implicit Types (c : Cursor T S D) (b m r : list T).

Abbreviation pos := (posn (T := T) (S := S) (D := D) cx (dzero S cx)).

(** A cursor on a tree no deeper than its stack. *)
Definition ready c (sp : spot T) : Prop :=
  cursor_at cx c sp ∧ sp ≠ Before ∧ (height (tree c) < STACK_CAPACITY)%nat.

Lemma new_ready (t : Node T S) :
  tree_ok cx t → (height t < STACK_CAPACITY)%nat → ready (CursorOps.new (D := D) cx t) Fresh.
Proof. intros Hok Hcap. split_and!; [by apply at_fresh|done..]. Qed.

Section lemmas.
Context `{!SummaryLaws S Cx cx}.
Variable target : D → comparison.
Variable bias : Bias.

Lemma slice_ok c sp `{!Prunes cx target bias (tree_items (tree c))} :
  ready c sp → target (position c) ≠ Lt →
  monotone cx target bias (pos (spot_start c sp)) (spot_rest c sp) →
  returns (slice cx target bias c) (λ '(t, c'),
    let '(m, r) := seek_split cx target bias (pos (spot_start c sp)) (spot_rest c sp) in
    tree_ok cx t ∧ tree_items t = m ∧ tree c' = tree c ∧
    cursor_at cx c' (spot_of (spot_start c sp ++ m) r)).
Proof.
  intros (Hat & Hsp & Hcap) Htarget Hm.
  assert (slice_holds cx (mkSlice (T := T) (S := S) (TreeOps.new cx) [] [] (szero cx)) [] []) as H0.
  { split_and!; try done. by left. }
  unfold slice. eapply returns_bind.
  { by apply (seek_internal_ok cx (slice_holds cx) target bias c sp). }
  intros [[f c'] a]; cbn beta iota zeta. destruct (seek_split _ _ _ _ _) as [m r].
  intros (Ht & Hat' & (Hok & Hit & _) & _). by apply returns_ret.
Qed.

Lemma seek_forward_ok c sp `{!Prunes cx target bias (tree_items (tree c))} :
  ready c sp → target (position c) ≠ Lt →
  monotone cx target bias (pos (spot_start c sp)) (spot_rest c sp) →
  returns (seek_forward cx target bias c) (λ '(found, c'),
    let b := spot_start c sp in
    let '(m, r) := seek_split cx target bias (pos b) (spot_rest c sp) in
    tree c' = tree c ∧ cursor_at cx c' (spot_of (b ++ m) r) ∧ found = found_at cx target bias b m r).
Proof.
  intros (Hat & Hsp & Hcap) Htarget Hm. unfold seek_forward. eapply returns_bind.
  { by apply (seek_internal_ok cx (λ _ _ _, True) target bias c sp). }
  intros [[f c'] a]; cbn beta iota zeta. destruct (seek_split _ _ _ _ _) as [m r].
  intros (Ht & Hat' & _ & ->). by apply returns_ret.
Qed.

Lemma seek_ok c sp `{!Prunes cx target bias (tree_items (tree c))} :
  ready c sp → target (dzero S cx) ≠ Lt → monotone cx target bias (pos []) (tree_items (tree c)) →
  returns (seek cx target bias c) (λ '(found, c'),
    let '(m, r) := seek_split cx target bias (pos []) (tree_items (tree c)) in
    tree c' = tree c ∧ cursor_at cx c' (spot_of m r) ∧ found = found_at cx target bias [] m r).
Proof.
  intros (Hat & _ & Hcap) Hzero Hm. pose proof (cursor_at_ok cx c sp Hat) as Hok.
  apply (seek_forward_ok (reset cx c) Fresh); [by apply new_ready|done|done].
Qed.

Lemma cursor_summary_ok {O : Type} `{!Dimension O S Cx, !DimensionAdd O S Cx cx} c sp `{!Prunes cx target bias (tree_items (tree c))} :
  ready c sp → target (position c) ≠ Lt →
  monotone cx target bias (pos (spot_start c sp)) (spot_rest c sp) →
  returns (summary cx target bias c) (λ '(o, c'),
    let b := spot_start c sp in
    let '(m, r) := seek_split cx target bias (pos b) (spot_rest c sp) in
    tree c' = tree c ∧ cursor_at cx c' (spot_of (b ++ m) r) ∧ o =@{O} posn cx (dzero S cx) m).
Proof.
  intros (Hat & Hsp & Hcap) Htarget Hm. unfold summary. eapply returns_bind.
  { by apply (seek_internal_ok cx
      (λ (a : SummarySeekAggregate O) l p, aggregate_position a = posn cx (dzero S cx) (l ++ p))
      target bias c sp). }
  intros [[f c'] a]; cbn beta iota zeta. destruct (seek_split _ _ _ _ _) as [m r].
  intros (Ht & Hat' & Ha & _). apply returns_ret. by rewrite app_nil_r in Ha.
Qed.

End lemmas.

Lemma suffix_ok `{!SummaryLaws S Cx cx, !DimensionAdd D S Cx cx} c sp :
  ready c sp →
  returns (suffix cx c) (λ '(t, c'),
    tree_ok cx t ∧ tree_items t = spot_rest c sp ∧ tree c' = tree c ∧ cursor_at cx c' Past).
Proof.
  intros Hr. eapply returns_mono; [by apply (slice_ok (λ _, Gt) BiasRight c sp)|].
  intros [t c']. by rewrite seek_split_all.
Qed.

(** C18: [slice] moves the cursor past the items that end before the target,
    and returns them as a well-formed tree; [suffix] returns the rest. Nothing
    panics and the loop ends within its bound. *)
Theorem cursor_slices (Hs : SummaryLaws S Cx cx) (Hd : DimensionAdd D S Cx cx)
    (target : D → comparison) (bias : Bias) c (sp : spot T)
    (Hready : ready c sp) (Htarget : target (position c) ≠ Lt)
    (Hm : monotone cx target bias (pos (spot_start c sp)) (spot_rest c sp)) :
  returns (slice cx target bias c) (λ '(t, c'),
    let '(m, r) := seek_split cx target bias (pos (spot_start c sp)) (spot_rest c sp) in
    tree_ok cx t ∧ tree_items t = m ∧ tree c' = tree c ∧
    cursor_at cx c' (spot_of (spot_start c sp ++ m) r)) ∧
  returns (suffix cx c) (λ '(t, c'),
    tree_ok cx t ∧ tree_items t = spot_rest c sp ∧ tree c' = tree c ∧ cursor_at cx c' Past).
Proof.
  split; [by apply (slice_ok target bias c sp)|by apply suffix_ok].
Qed.

(** [seek] from the start and [seek_forward] from the cursor's place stop
    at the first item whose end is not before the target, and say whether the
    target is met exactly there; [summary] measures the items that are passed. *)
Theorem cursor_seeks (Hs : SummaryLaws S Cx cx) (Hd : DimensionAdd D S Cx cx)
    (target : D → comparison) (bias : Bias) c (sp : spot T)
    (Hready : ready c sp) (Htarget : target (position c) ≠ Lt) (Hzero : target (dzero S cx) ≠ Lt)
    (Hm : monotone cx target bias (pos []) (tree_items (tree c))) :
  returns (seek cx target bias c) (λ '(found, c'),
    let '(m, r) := seek_split cx target bias (pos []) (tree_items (tree c)) in
    cursor_at cx c' (spot_of m r) ∧ found = found_at cx target bias [] m r) ∧
  returns (seek_forward cx target bias c) (λ '(found, c'),
    let b := spot_start c sp in
    let '(m, r) := seek_split cx target bias (pos b) (spot_rest c sp) in
    cursor_at cx c' (spot_of (b ++ m) r) ∧ found = found_at cx target bias b m r) ∧
  ∀ (O : Type) (Ho : Dimension O S Cx), DimensionAdd O S Cx cx →
    returns (summary cx target bias c) (λ '(o, c'),
      let b := spot_start c sp in
      let '(m, r) := seek_split cx target bias (pos b) (spot_rest c sp) in
      cursor_at cx c' (spot_of (b ++ m) r) ∧ o =@{O} posn cx (dzero S cx) m).
Proof.
  destruct Hready as (Hat & Hsp & Hcap).
  pose proof (cursor_at_ok cx c sp Hat) as Hok.
  assert (monotone cx target bias (pos (spot_start c sp)) (spot_rest c sp)) as Hm'.
  { rewrite (spot_start_rest cx c sp Hat) in Hm. by apply monotone_app_r in Hm. }
  split_and!.
  - eapply returns_mono; [by apply (seek_ok target bias c sp)|]. intros [f c'].
    destruct (seek_split _ _ _ _ _) as [m r]. by intros [_ H].
  - eapply returns_mono; [by apply (seek_forward_ok target bias c sp)|]. intros [f c']. cbn zeta.
    destruct (seek_split _ _ _ _ _) as [m r]. by intros [_ H].
  - intros O Ho Hlaws. eapply returns_mono; [by apply (cursor_summary_ok target bias c sp)|].
    intros [o c']. cbn zeta. destruct (seek_split _ _ _ _ _) as [m r]. by intros [_ H].
Qed.

End properties.

(** ** The rest of a tree, whatever the dimension

    The target of [suffix] looks at no position, so that the cursor takes the
    same turns when its positions are forgotten. *)

Section erase.
Context {T S Cx D : Type} `{!Summary S Cx, !Item T S Cx, !Dimension D S Cx} (cx : Cx) `{!SummaryLaws S Cx cx}.
Implicit Types (c : Cursor T S D) (e : StackEntry T S D) (st : list (StackEntry T S D)).

Definition erase_entry e : StackEntry T S () := mkEntry (etree e) (index e) ().
Definition erase c : Cursor T S () := mkCursor (tree c) (erase_entry <$> stack c) () (did_seek c) (at_end c).

Lemma unit_add : DimensionAdd () S Cx cx.
Proof. by split. Qed.

Lemma unit_pos (x y : ()) : x = y.
Proof. by destruct x, y. Qed.

Lemma erase_path root st h t b a : path cx root st h t b a → path cx root (erase_entry <$> st) h t b a.
Proof.
  induction 1 as [h Hwf|st h s cs ts b a i t p Hp IH Hi _]; [by constructor|].
  cbn [fmap list_fmap]. apply (path_child cx root _ h s cs); [done..|apply unit_pos].
Qed.

Lemma erase_at c sp : cursor_at cx c sp → cursor_at cx (erase c) sp.
Proof.
  intros [Hok Es Ed Ee Ep|Hok Es Ed Ee Ep|Hok Es Ed Ee Ep|b x r Hon Ed Ee Ep].
  - apply at_fresh; cbn; rewrite ?Es; done.
  - apply at_before; cbn; rewrite ?Es; done.
  - apply at_past; cbn; rewrite ?Es; try done. apply (unit_pos ()).
  - apply at_on; [|done|done|apply (unit_pos ())]. cbn. destruct Hon as [st u b a l1 x l2 p Hp Hi]. cbn [fmap list_fmap].
    apply (stack_on_leaf cx (tree c) (erase_entry <$> st) u b a l1 x l2 ()); [by apply erase_path|done].
Qed.

Section loop.
Context {A : Type} `{!SeekAggregate A T S}.
Implicit Types (agg : A) (asc : bool).

Abbreviation after_all := (λ _, Gt).

Lemma erase_children e d agg ts ss :
  seek_children cx after_all BiasRight (erase_entry e) () agg ts ss =
    (λ '(e, _, agg, child), (erase_entry e, (), agg, child)) <$> seek_children cx after_all BiasRight e d agg ts ss.
Proof.
  revert e d agg ss. induction ts as [|t ts IH]; intros e d agg [|s ss]; [done..|].
  cbn [seek_children]. destruct (push_tree agg t s) as [agg'|]; [|done]. cbn [mbind option_bind].
  exact (IH (mkEntry (etree e) (index e + 1) (dadd cx d s)) (dadd cx d s) agg' ss).
Qed.

Lemma erase_items e d agg l ss :
  seek_items cx after_all BiasRight (erase_entry e) () agg l ss =
    (λ '(e, _, agg, stopped), (erase_entry e, (), agg, stopped)) <$> seek_items cx after_all BiasRight e d agg l ss.
Proof.
  revert e d agg ss. induction l as [|x l IH]; intros e d agg [|s ss]; [done..|].
  cbn [seek_items]. destruct (push_item agg x s) as [agg'|]; [|done]. cbn [mbind option_bind].
  exact (IH (mkEntry (etree e) (index e + 1) (eposition e)) (dadd cx d s) agg' ss).
Qed.

Definition erase_state (s : Cursor T S D * bool * A) : Cursor T S () * bool * A := (erase s.1.1, s.1.2, s.2).
Definition erase_result (s : Cursor T S D * A) : Cursor T S () * A := (erase s.1, s.2).

Lemma erase_step s : seek_step cx after_all BiasRight (erase_state s) =
  (sum_map erase_state erase_result) <$> seek_step cx after_all BiasRight s.
Proof.
  destruct s as [[c asc] agg]. destruct c as [t st d ds ae]. destruct st as [|[u i p] st]; [done|].
  destruct u as [n su ss ts|su items ss]; cbn [seek_step erase_state erase fst snd stack fmap list_fmap erase_entry etree index position].
  - set (e := if asc then mkEntry (Internal n su ss ts) (i + 1) d else mkEntry (Internal n su ss ts) i p).
    assert ((if asc then _ else _) = erase_entry e) as -> by (unfold e; by destruct asc). cbn [index erase_entry].
    destruct (_ <? _)%nat; [done|]. change (mkEntry (etree e) (index e) ()) with (erase_entry e). rewrite (erase_children _ d).
    destruct (seek_children _ _ _ _ _ _ _ _) as [[[[e' d'] agg'] [t'|]]|]; cbn [fmap option_fmap option_map mbind option_bind]; [|done..].
    unfold push_entry. cbn [length]. rewrite length_fmap. by destruct (_ <? _)%nat.
  - destruct (_ <? _)%nat; [done|]. change (mkEntry (Leaf su items ss) i ()) with (erase_entry (mkEntry (Leaf su items ss) i p)).
    rewrite (erase_items _ d). destruct (seek_items _ _ _ _ _ _ _ _) as [[[[e d'] agg'] [|]]|]; cbn [fmap option_fmap option_map mbind option_bind]; [| |done];
      by destruct (end_leaf agg').
Qed.

Lemma erase_loop n s : iterate (seek_step cx after_all BiasRight) n (erase_state s) =
  erase_result <$> iterate (seek_step cx after_all BiasRight) n s.
Proof.
  revert s. induction n as [|n IH]; intros s; [done|]. cbn [iterate]. rewrite erase_step.
  destruct (seek_step _ _ _ s) as [[s'|r]|]; cbn; [apply IH|done..].
Qed.

Lemma erase_seek c agg : seek_internal cx after_all BiasRight (erase c) agg =
  (λ '(found, c, agg), (found, erase c, agg)) <$> seek_internal cx after_all BiasRight c agg.
Proof.
  unfold seek_internal. cbn [mbind option_bind].
  assert ((if did_seek (erase c) then Some (erase c)
    else st ← push_entry (mkEntry (tree (erase c)) 0 (dzero S cx)) (stack (erase c)); Some (set_flags (set_stack (erase c) st) true (at_end (erase c)))) =
    erase <$> (if did_seek c then Some c
      else st ← push_entry (mkEntry (tree c) 0 (dzero S cx)) (stack c); Some (set_flags (set_stack c st) true (at_end c)))) as ->.
  { destruct c as [t st d [] ae]; [done|]. cbn. unfold push_entry. cbn [length]. rewrite length_fmap. by destruct (_ <? _)%nat. }
  destruct (if did_seek c then _ else _) as [c1|]; [|done]. cbn [fmap option_fmap option_map mbind option_bind].
  change (erase c1, false, agg) with (erase_state (c1, false, agg)). change (tree (erase c)) with (tree c). rewrite erase_loop.
  destruct (iterate _ _ _) as [[c2 agg2]|]; [|done]. cbn. destruct c2 as [t2 [|e2 st2] d2 ds2 ae2]; done.
Qed.
End loop.

Lemma suffix_items c sp : ready cx c sp →
  returns (suffix cx c) (λ '(t, _), tree_ok cx t ∧ tree_items t = spot_rest c sp).
Proof.
  intros (Hat & Hsp & Hcap). pose proof unit_add.
  destruct (suffix_ok cx (erase c) sp) as ([t c'] & E & Ht & Hi & _); [by split_and!; [apply erase_at|..]|].
  unfold suffix, slice in *. rewrite erase_seek in E. destruct (seek_internal _ _ _ c _) as [[[f c1] agg]|]; [|done].
  cbn in E |- *. injection E as <- _. apply returns_ret. split; [done|]. rewrite Hi. by destruct sp.
Qed.
End erase.

(** ** A concrete cursor *)

Module Seeking.
Import SumTree.Samples.

#[local] Existing Instances sum_summary sum_item sum_dimension.

Definition fresh : Cursor N N N := CursorOps.new () sample.

Lemma fresh_ready : ready () fresh Fresh.
Proof.
  split_and!; [|done|vm_compute; lia]. apply at_fresh; try done. apply sample_ok.
Qed.

Example cursor_slices_witness :
  (∃ c, slice () (N.compare 2) BiasLeft fresh = Some (Leaf 1%N [1%N] [1%N], c)) ∧
  returns (suffix () fresh) (λ '(t, c'),
    tree_ok () t ∧ tree_items t = spot_rest fresh Fresh ∧ tree c' = tree fresh ∧ cursor_at () c' Past).
Proof.
  split; [vm_compute; by eexists|].
  exact (proj2 (cursor_slices () sum_laws sum_dim_add (N.compare 2) BiasLeft fresh Fresh
    fresh_ready ltac:(discriminate) (sample_monotone _ _))).
Defined.

Example cursor_seeks_witness :
  (∃ c, seek () (N.compare 3) BiasLeft fresh = Some (true, c)) ∧
  returns (seek () (N.compare 2) BiasLeft fresh) (λ '(found, c'),
    let '(m, r) := seek_split () (N.compare 2) BiasLeft (posn (T := N) (S := N) () (dzero N ()) [])
                     (tree_items (tree fresh)) in
    cursor_at () c' (spot_of m r) ∧ found = found_at () (N.compare 2) BiasLeft [] m r).
Proof.
  split; [vm_compute; by eexists|].
  exact (proj1 (cursor_seeks () sum_laws sum_dim_add (N.compare 2) BiasLeft fresh Fresh
    fresh_ready ltac:(discriminate) ltac:(discriminate) (sample_monotone _ _))).
Defined.

End Seeking.
