(* ===== verification/CursorWalk.v ===== *)
(** * Walking a cursor: [next], [prev] and filtered searches

    [search_forward] and [search_backward] of
    [crates/sum_tree/src/cursor.rs] move to the nearest item that a filter on
    summaries accepts, skipping subtrees whose summary it rejects. *)

From S2P Require Import Prelude SumTree SumCursor CursorSpec.
Import NodeOps TreeOps CursorOps.

#[local] Unset Default Proof Using.
#[local] Arguments Nat.mul : simpl never.

(** The subtrees that a filter rejects are measured exactly by their summaries:
    always when the dimension adds up, and always when nothing is rejected. *)
Class PassesOver {T S Cx D : Type} `{!Summary S Cx, !Item T S Cx, !Dimension D S Cx} (cx : Cx)
    (f : S → bool) : Prop :=
  passes_over (d : D) h (t : Node T S) : wf cx h t → f (NodeOps.summary t) = false →
    dadd cx d (NodeOps.summary t) = posn cx d (tree_items t).

#[export] Instance add_passes {T S Cx D : Type} `{!Summary S Cx, !Item T S Cx, !Dimension D S Cx} (cx : Cx)
    `{!SummaryLaws S Cx cx, !DimensionAdd D S Cx cx} (f : S → bool) : PassesOver (T := T) (D := D) cx f.
Proof. intros d h t Ht _. by apply (dadd_summary cx d h). Qed.

#[export] Instance all_passes {T S Cx D : Type} `{!Summary S Cx, !Item T S Cx, !Dimension D S Cx} (cx : Cx) :
  PassesOver (T := T) (D := D) cx (λ _ : S, true).
Proof. done. Qed.

Section walk.
Context {T S Cx D : Type} `{!Summary S Cx, !Item T S Cx, !Dimension D S Cx} (cx : Cx).
Context `{!SummaryLaws S Cx cx}.
Variable f : S → bool.
Context `{!PassesOver (T := T) (D := D) cx f}.
Implicit Types (c : Cursor T S D) (e : StackEntry T S D) (t : Node T S).
Implicit Types (ts : list (Node T S)) (st : list (StackEntry T S D)) (a b l r m : list T).

Abbreviation pos := (posn (T := T) (S := S) (D := D) cx (dzero S cx)).
Abbreviation accepts x := (f (isummary cx x)).

(** A filter may accept the summary of a subtree none of whose items it
    accepts, but not the other way round. *)
Definition filter_sound : Prop :=
  ∀ l x, x ∈ l → accepts x = true → f (total cx l) = true.

(** The items before the first accepted one, and the rest. *)
Fixpoint forward_split r : list T * list T :=
  match r with
  | [] => ([], [])
  | x :: r' => if accepts x then ([], r) else let '(m, r'') := forward_split r' in (x :: m, r'')
  end.

Lemma forward_split_reject l r :
  (∀ x, x ∈ l → accepts x = false) →
  forward_split (l ++ r) = (l ++ (forward_split r).1, (forward_split r).2).
Proof.
  induction l as [|x l IH]; intros Hl; simpl; [by destruct (forward_split r)|].
  rewrite (Hl x) by left. rewrite IH; [done|]. intros y Hy. apply Hl. by right.
Qed.

Lemma forward_split_found l r x l' m :
  forward_split l = (m, x :: l') → forward_split (l ++ r) = (m, x :: l' ++ r).
Proof.
  revert m. induction l as [|y l IH]; intros m E; [done|]. simpl in *.
  destruct (accepts y); [by injection E as <- <- <-|].
  destruct (forward_split l) as [m' r'] eqn:E'. injection E as <- ->. by rewrite (IH m').
Qed.

Lemma forward_split_none l m : forward_split l = (m, []) → m = l ∧ ∀ x, x ∈ l → accepts x = false.
Proof.
  revert m. induction l as [|y l IH]; intros m E; [split; [by simpl in E; simplify_eq|by intros ? ?%elem_of_nil]|].
  simpl in E. destruct (accepts y) eqn:Ey; [done|]. destruct (forward_split l) as [m' r'].
  injection E as <- ->. destruct (IH m' eq_refl) as [-> H]. split; [done|].
  intros x [->|Hx]%elem_of_cons; auto.
Qed.

Lemma forward_split_app k : (forward_split k).1 ++ (forward_split k).2 = k.
Proof.
  induction k as [|x k IH]; [done|]. simpl. destruct (accepts x); [done|].
  destruct (forward_split k). simpl in *. by rewrite IH.
Qed.

Lemma rejects_items h t :
  filter_sound → wf cx h t → f (NodeOps.summary t) = false → ∀ x, x ∈ tree_items t → accepts x = false.
Proof.
  intros Hf Hwf Hs x Hx. rewrite (wf_summary cx h) in Hs by done.
  destruct (accepts x) eqn:E; [|done]. by rewrite (Hf _ x Hx E) in Hs.
Qed.

Lemma elem_forest x ts : x ∈ forest_items ts ↔ ∃ t, t ∈ ts ∧ x ∈ tree_items t.
Proof.
  unfold forest_items. rewrite list_elem_of_In, in_concat. split.
  - intros (l & Hl & Hx). apply list_elem_of_In, list_elem_of_fmap in Hl as (t & -> & Ht).
    exists t. split; [done|by apply list_elem_of_In].
  - intros (t & Ht & Hx). exists (tree_items t). split; apply list_elem_of_In; [|done].
    apply list_elem_of_fmap. eauto.
Qed.

(** *** The work that is left on a stack *)

Definition pending_entry e : nat :=
  match child_trees (etree e) with
  | Some ts => (1 + sum_nat ((λ t, 2 * weight t) <$> drop (Datatypes.S (index e)) ts))%nat
  | None => 0%nat
  end.
Definition pending st : nat := sum_nat (pending_entry <$> st).

Lemma sum_nat_double ts : sum_nat ((λ t, (2 * weight t)%nat) <$> ts) = (2 * sum_nat (weight <$> ts))%nat.
Proof. induction ts as [|t ts IH]; [done|]. cbn [fmap list_fmap]. rewrite !sum_nat_cons. lia. Qed.

Lemma weight_internal n (s : S) cs ts : weight (Internal n s cs ts) = Datatypes.S (sum_nat (weight <$> ts)).
Proof. done. Qed.

Lemma path_pending root st h t b a :
  path cx root st h t b a → (pending st + 2 * weight t ≤ 2 * weight root)%nat.
Proof.
  induction 1 as [|st h s cs ts b a i t p Hp IH Hi]; [unfold pending; simpl; lia|].
  rewrite weight_internal, <- (take_drop_middle ts i t Hi), fmap_app, sum_nat_app, fmap_cons, sum_nat_cons in IH.
  unfold pending in *. rewrite fmap_cons, sum_nat_cons. unfold pending_entry at 1.
  cbn [etree index child_trees]. rewrite sum_nat_double. lia.
Qed.

(** *** Searching forward *)

Abbreviation step := (forward_step (T := T) cx f).

Lemma skip_children_ok h ts (entry : StackEntry T S D) :
  Forall (wf cx h) ts →
  ∃ j, (j ≤ length ts)%nat ∧
    skip_children cx f entry (eposition entry) (NodeOps.summary <$> ts) =
      (mkEntry (etree entry) (index entry + j) (posn cx (eposition entry) (forest_items (take j ts))),
       posn cx (eposition entry) (forest_items (take j ts))) ∧
    (∀ t, t ∈ take j ts → f (NodeOps.summary t) = false) ∧
    (∀ t, ts !! j = Some t → f (NodeOps.summary t) = true).
Proof.
  revert entry. induction ts as [|t ts IH]; intros entry Hf.
  { exists 0%nat. rewrite take_0. cbn. rewrite Nat.add_0_r. destruct entry.
    split_and!; try done. by intros ? ?%elem_of_nil. }
  apply Forall_cons in Hf as [Ht Hf]. cbn [skip_children fmap list_fmap].
  destruct (f (NodeOps.summary t)) eqn:E.
  - exists 0%nat. rewrite take_0, Nat.add_0_r. destruct entry. cbn.
    split_and!; [lia|done|by intros ? ?%elem_of_nil|by intros ? [= <-]].
  - destruct (IH (mkEntry (etree entry) (index entry + 1) (dadd cx (eposition entry) (NodeOps.summary t))) Hf)
      as (j & Hj & Hr & H1 & H2). cbn [etree index eposition] in Hr.
    exists (Datatypes.S j). rewrite Hr. simpl. rewrite forest_items_cons, posn_app.
    rewrite <- Nat.add_assoc, (passes_over _ h t Ht E).
    split_and!; [lia|done| |done]. intros t' [->|Ht']%elem_of_cons; auto.
Qed.

Lemma skip_items_ok (entry : StackEntry T S D) (d : D) (k : list T) :
  ∃ p, skip_children cx f entry d (isummary cx <$> k) =
    (mkEntry (etree entry) (index entry + length (forward_split k).1) p,
     posn cx d (forward_split k).1).
Proof.
  revert entry d. induction k as [|x k IH]; intros entry d; cbn [skip_children fmap list_fmap forward_split].
  { exists (eposition entry). simpl. rewrite Nat.add_0_r. by destruct entry. }
  destruct (accepts x).
  - exists (eposition entry). simpl. rewrite Nat.add_0_r. by destruct entry.
  - edestruct IH as [p ->]. exists p. destruct (forward_split k) as [m r]. simpl.
    by rewrite <- Nat.add_assoc.
Qed.

Variable root : Node T S.
Hypothesis Hf : filter_sound.

Abbreviation cur := (cur root false).

(** From [s], after [n] turns, the search returns at the item [x]. *)
Definition returns_at (n : nat) (s : Cursor T S D * bool) b x r : Prop :=
  ∃ s' st, nsteps_to step n s s' ∧ step s' = Some (inr (cur st (pos b), true)) ∧
    stack_on cx root st b x r.

Lemma returns_at_steps n k s s' b x r :
  nsteps_to step n s s' → returns_at k s' b x r → returns_at (n + k) s b x r.
Proof.
  intros Hs (s1 & st & Hn & H). exists s1, st. split; [|done]. by eapply nsteps_to_trans.
Qed.

(** What the search does with the items [l] from [s] on: it stops at the first
    accepted one, or reaches [s'] within [n] turns. *)
Definition forward_over (n : nat) (s s' : Cursor T S D * bool) b l a : Prop :=
  match forward_split l with
  | (m, x :: r) => ∃ k, (k < n)%nat ∧ returns_at k s (b ++ m) x (r ++ a)
  | (_, []) => ∃ k, (k ≤ n)%nat ∧ nsteps_to step k s s'
  end.

Lemma forward_over_app n k s s' s'' b l l' a :
  forward_over n s s' b l (l' ++ a) → forward_over k s' s'' (b ++ l) l' a →
  forward_over (n + k) s s'' b (l ++ l') a.
Proof.
  intros H1 H2. unfold forward_over in *. destruct (forward_split l) as [m [|x r]] eqn:E.
  - apply forward_split_none in E as [-> Hl]. rewrite forward_split_reject by done.
    destruct H1 as (n' & Hn' & Hs). destruct (forward_split l') as [m' [|x r]]; simpl.
    + destruct H2 as (k' & Hk' & Hs'). exists (n' + k')%nat. split; [lia|]. by eapply nsteps_to_trans.
    + destruct H2 as (k' & Hk' & Hs'). exists (n' + k')%nat. split; [lia|].
      rewrite app_assoc. by eapply returns_at_steps.
  - rewrite (forward_split_found l l' x r m) by done. destruct H1 as (n' & Hn' & Hs).
    exists n'. split; [lia|]. by rewrite <- app_assoc.
Qed.

Lemma forward_over_mono n k s s' b l a :
  (n ≤ k)%nat → forward_over n s s' b l a → forward_over k s s' b l a.
Proof.
  intros Hnk H. unfold forward_over in *. destruct (forward_split l) as [m [|x r]];
    destruct H as (i & Hi & H); (exists i; split; [lia|done]).
Qed.

Lemma forward_over_step n s s' s'' b l a :
  step s = Some (inl s') → forward_over n s' s'' b l a → forward_over (Datatypes.S n) s s'' b l a.
Proof.
  intros Hs H. unfold forward_over in *. destruct (forward_split l) as [m [|x r]].
  - destruct H as (k & Hk & Hs'). exists (Datatypes.S k). split; [lia|]. by eapply nsteps_to_step.
  - destruct H as (k & Hk & Hs'). exists (Datatypes.S k). split; [lia|].
    apply (returns_at_steps 1 k _ s'); [by apply nsteps_to_one|done].
Qed.

Lemma forward_over_reject n s s' b l l' a :
  (∀ x, x ∈ l → accepts x = false) → forward_over n s s' (b ++ l) l' a →
  forward_over n s s' b (l ++ l') a.
Proof.
  intros Hl H. unfold forward_over in *. rewrite forward_split_reject by done.
  destruct (forward_split l') as [m [|x r]]; simpl; [done|]. by rewrite app_assoc.
Qed.

(** At a leaf, from the item after [l1]. *)
Lemma forward_leaf st t b a l1 k i0 p (descend : bool) d :
  path cx root st 0 t b a → tree_items t = l1 ++ k →
  (if descend then i0 = length l1 ∧ d = pos (b ++ l1)
   else ∃ l0 x, l1 = l0 ++ [x] ∧ i0 = length l0 ∧ d = pos (b ++ l0)) →
  forward_over 1 (cur (mkEntry t i0 p :: st) d, descend) (cur st (pos (b ++ tree_items t)), false)
    (b ++ l1) k a.
Proof.
  intros Hp Hi Hd. pose proof (path_wf _ _ _ _ _ _ _ Hp) as Hwf.
  apply wf_leaf_inv in Hwf as (l' & -> & _ & _). simpl in Hi. subst l'.
  set (leaf := Leaf _ _ _) in *.
  assert (∃ p', step (cur (mkEntry leaf i0 p :: st) d, descend) =
    let '(entry, ps) := skip_children cx f (mkEntry leaf (length l1) p') (pos (b ++ l1)) (isummary cx <$> k) in
    if (index entry <? length (isummary cx <$> l1 ++ k))%nat
    then Some (inr (cur (entry :: st) ps, true))
    else Some (inl (cur st ps, false))) as [p' Hstep].
  { assert (drop (length l1) (isummary cx <$> l1 ++ k) = isummary cx <$> k) as Hdrop.
    { rewrite fmap_app, drop_app_length'; [done|by rewrite length_fmap]. }
    destruct descend.
    - destruct Hd as [-> ->]. exists p. cbn [forward_step stack cur etree leaf index position mbind option_bind].
      rewrite Hdrop. by destruct (skip_children _ _ _ _ _).
    - destruct Hd as (l0 & x & -> & -> & ->). exists (dadd cx p (isummary cx x)).
      cbn [forward_step stack cur etree leaf index eposition position].
      assert ((isummary cx <$> (l0 ++ [x]) ++ k) !! length l0 = Some (isummary cx x)) as ->.
      { rewrite list_lookup_fmap, <- app_assoc. cbn [app]. by rewrite list_lookup_middle. }
      rewrite length_app in Hdrop. cbn [mbind option_bind length index] in Hdrop |- *.
      rewrite app_assoc, posn_snoc, length_app, Hdrop. by destruct (skip_children _ _ _ _ _). }
  destruct (skip_items_ok (mkEntry leaf (length l1) p') (pos (b ++ l1)) k) as [p'' Hsk].
  rewrite Hsk in Hstep. cbn [index etree] in Hstep. rewrite length_fmap, length_app in Hstep.
  pose proof (forward_split_app k) as Hmr. unfold forward_over.
  destruct (forward_split k) as [m [|x r]]; cbn [fst snd] in *; subst k.
  - exists 1%nat. split; [done|]. apply nsteps_to_one. rewrite Hstep.
    assert (tree_items leaf = l1 ++ m) as -> by (subst leaf; simpl; by rewrite app_nil_r).
    rewrite app_nil_r.
    rewrite <- posn_app, <- app_assoc. destruct (Nat.ltb_spec (length l1 + length m) (length l1 + length m)); [lia|done].
  - exists 0%nat. split; [lia|]. exists (cur (mkEntry leaf i0 p :: st) d, descend).
    eexists. split; [constructor|]. rewrite Hstep, length_app. cbn [length].
    destruct (Nat.ltb_spec (length l1 + length m) (length l1 + (length m + Datatypes.S (length r)))); [|lia].
    rewrite <- posn_app, <- length_app. split; [done|]. rewrite <- app_assoc.
    eapply stack_on_leaf; [exact Hp|]. simpl. by rewrite <- !app_assoc.
Qed.

Definition cost_from (i : nat) ts : nat := (1 + sum_nat ((λ t, 2 * weight t) <$> drop i ts))%nat.

(** One turn at an internal node: up to the first accepted child from [i] on. *)
Lemma forward_node_step st h t b a ts i i0 p (descend : bool) :
  path cx root st (Datatypes.S h) t b a → child_trees t = Some ts →
  (length st + 1 < STACK_CAPACITY)%nat → (i <= length ts)%nat →
  (if descend then i0 = i ∧ p = pos (b ++ forest_items (take i ts)) else (i0 + 1)%nat = i) →
  let s := (cur (mkEntry t i0 p :: st) (pos (b ++ forest_items (take i ts))), descend) in
  ∃ j, (i <= j <= length ts)%nat ∧
    (∀ x, x ∈ forest_items (drop i (take j ts)) → accepts x = false) ∧
    let b' := b ++ forest_items (take j ts) in
    match ts !! j with
    | None => step s = Some (inl (cur st (pos (b ++ tree_items t)), false))
    | Some t' => path cx root (mkEntry t j (pos b') :: st) h t' b' (forest_items (drop (Datatypes.S j) ts) ++ a) ∧
        step s = Some (inl (cur (mkEntry t' 0 (pos b') :: mkEntry t j (pos b') :: st) (pos b'), true))
    end.
Proof.
  intros Hp Hts Hcap Hi Hd s. pose proof (path_wf _ _ _ _ _ _ _ Hp) as Hwf.
  apply wf_internal_inv in Hwf as (ts' & -> & _ & _ & Hall). injection Hts as ->.
  set (node := Internal _ _ _ ts) in *.
  pose (e := mkEntry node i (pos (b ++ forest_items (take i ts)))).
  destruct (skip_children_ok h (drop i ts) e ltac:(by apply Forall_drop)) as (j & Hj & Hr & H1 & H2).
  rewrite length_drop in Hj. exists (i + j)%nat. split; [lia|].
  rewrite take_drop_commute in H1. split.
  { intros x (t & Ht & Hx)%elem_forest. specialize (H1 t Ht).
    eapply (rejects_items h); [done| |done|done]. eapply Forall_forall; [exact Hall|].
    apply elem_of_drop in Ht as (? & _ & Ht). apply lookup_take_Some in Ht as [Ht _].
    by eapply list_elem_of_lookup_2. }
  assert (posn cx (eposition e) (forest_items (take j (drop i ts))) = pos (b ++ forest_items (take (i + j) ts))) as Hpos.
  { cbn [e eposition]. rewrite <- posn_app, <- app_assoc, <- forest_items_app. by rewrite take_take_drop. }
  rewrite Hpos in Hr. cbn [e etree index eposition] in Hr.
  assert (step s = let '(entry, ps) := skip_children cx f e (pos (b ++ forest_items (take i ts))) (NodeOps.summary <$> drop i ts) in
    match ts !! index entry with
    | Some subtree => st' ← push_entry (mkEntry subtree 0 ps) (entry :: st); Some (inl (cur st' ps, true))
    | None => Some (inl (cur st ps, false))
    end) as ->.
  { subst s. cbn [forward_step stack cur etree node index position].
    assert ((if descend then mkEntry node i0 p else mkEntry node (i0 + 1) (pos (b ++ forest_items (take i ts)))) = e) as ->.
    { subst e. destruct descend; [by destruct Hd as [-> ->]|by subst i]. }
    rewrite <- fmap_drop. cbn [index e]. by destruct (skip_children _ _ _ _ _). }
  rewrite Hr. cbn [index]. rewrite lookup_drop in H2.
  destruct (ts !! (i + j)%nat) as [t'|] eqn:E.
  - split; [by eapply (path_child cx root st h)|].
    unfold push_entry. cbn [length]. destruct (Nat.ltb_spec (Datatypes.S (length st)) STACK_CAPACITY); [done|lia].
  - apply lookup_ge_None in E. by rewrite take_ge by lia.
Qed.

(** Subtrees of height [h] are walked within their cost. *)
Definition enters (h : nat) : Prop :=
  ∀ st t b a, path cx root st h t b a → (length st + h < STACK_CAPACITY)%nat →
    forward_over (2 * weight t - 1) (cur (mkEntry t 0 (pos b) :: st) (pos b), true)
      (cur st (pos (b ++ tree_items t)), false) b (tree_items t) a.

Lemma forward_from h st t b a ts i i0 p (descend : bool) :
  enters h → path cx root st (Datatypes.S h) t b a → child_trees t = Some ts →
  (length st + Datatypes.S h < STACK_CAPACITY)%nat → (i <= length ts)%nat →
  (if descend then i0 = i ∧ p = pos (b ++ forest_items (take i ts)) else (i0 + 1)%nat = i) →
  forward_over (cost_from i ts) (cur (mkEntry t i0 p :: st) (pos (b ++ forest_items (take i ts))), descend)
    (cur st (pos (b ++ tree_items t)), false) (b ++ forest_items (take i ts)) (forest_items (drop i ts)) a.
Proof.
  intros IH Hp Hts Hcap. remember (length ts - i)%nat as k eqn:Hk. symmetry in Hk.
  revert i i0 p descend Hk.
  induction k as [k IHk] using lt_wf_ind. intros i i0 p descend Hk Hi Hd.
  destruct (forward_node_step st h t b a ts i i0 p descend Hp Hts ltac:(lia) Hi Hd) as (j & Hj & Hrej & Hstep).
  cbn zeta in Hstep.
  assert (forest_items (drop i ts) = forest_items (drop i (take j ts)) ++ forest_items (drop j ts)) as Hsplit.
  { rewrite <- forest_items_app. f_equal. rewrite <- (take_drop j ts) at 1.
    rewrite drop_app_le by (rewrite length_take; lia). done. }
  assert (b ++ forest_items (take j ts) =
     (b ++ forest_items (take i ts)) ++ forest_items (drop i (take j ts))) as Hb'.
  { rewrite <- app_assoc, <- forest_items_app. do 2 f_equal. rewrite <- (take_drop i (take j ts)) at 1.
    by rewrite take_take, Nat.min_l by lia. }
  rewrite Hsplit. apply forward_over_reject; [done|]. rewrite <- Hb'.
  destruct (ts !! j) as [t'|] eqn:Ej.
  - destruct Hstep as [Hp' Hstep]. rewrite (drop_S _ t' j) by done. rewrite forest_items_cons.
    assert (1 + (2 * weight t' - 1 + cost_from (Datatypes.S j) ts) ≤ cost_from i ts)%nat as Hcost.
    { unfold cost_from. assert (drop i ts = drop i (take j ts) ++ t' :: drop (Datatypes.S j) ts) as ->.
      { rewrite <- (drop_S _ t' j) by done. rewrite <- (take_drop j ts) at 1.
        rewrite drop_app_le by (rewrite length_take; lia). done. }
      pose proof (weight_height cx h t' (path_wf _ _ _ _ _ _ _ Hp')).
      rewrite fmap_app, sum_nat_app, fmap_cons, sum_nat_cons. lia. }
    eapply forward_over_mono; [exact Hcost|]. eapply forward_over_step; [exact Hstep|].
    eapply forward_over_app; [apply IH; [exact Hp'|simpl; lia]|].
    rewrite <- app_assoc. replace (tree_items t') with (forest_items [t']) by apply forest_items_one.
    rewrite <- forest_items_app, <- (take_S_r _ _ t') by done.
    apply lookup_lt_Some in Ej. apply (IHk (length ts - Datatypes.S j)%nat); lia.
  - apply lookup_ge_None in Ej. rewrite drop_ge by lia. unfold forward_over. simpl.
    exists 1%nat. split; [unfold cost_from; lia|by apply nsteps_to_one].
Qed.

Lemma forward_enter h : enters h.
Proof.
  induction h as [|h IH]; intros st t b a Hp Hcap.
  { pose proof (forward_leaf st t b a [] (tree_items t) 0 (pos b) true (pos b) Hp eq_refl) as H.
    rewrite app_nil_r in H. specialize (H ltac:(done)).
    pose proof (weight_height cx 0 t (path_wf _ _ _ _ _ _ _ Hp)).
    eapply forward_over_mono; [|exact H]. lia. }
  pose proof (path_wf _ _ _ _ _ _ _ Hp) as Hwf.
  destruct (wf_internal_inv cx h t Hwf) as (ts & Ht & _ & _ & _).
  assert (child_trees t = Some ts) as Hts by (by rewrite Ht).
  pose proof (forward_from h st t b a ts 0 0 (pos b) true IH Hp Hts Hcap ltac:(lia)) as H.
  rewrite take_0, drop_0 in H. change (forest_items []) with (@nil T) in H. rewrite app_nil_r in H.
  assert (tree_items t = forest_items ts) as -> by (by rewrite Ht).
  assert (2 * weight t - 1 = cost_from 0 ts)%nat as ->.
  { unfold cost_from. rewrite Ht, weight_internal, drop_0, sum_nat_double. lia. }
  assert (tree_items t = forest_items ts) as Hit by (by rewrite Ht). rewrite <- Hit at 1.
  by apply H.
Qed.

(** After a subtree has been left, the rest of the tree. *)
Lemma forward_popped st h t b a :
  path cx root st h t b a → (length st + h < STACK_CAPACITY)%nat →
  forward_over (pending st) (cur st (pos (b ++ tree_items t)), false)
    (cur [] (pos (tree_items root)), false) (b ++ tree_items t) a [].
Proof.
  induction 1 as [h Hwf|st h s cs ts b a i t p Hp IH Hi]; intros Hcap.
  { exists 0%nat. split; [lia|]. simpl. constructor. }
  assert ((b ++ forest_items (take i ts)) ++ tree_items t = b ++ forest_items (take (Datatypes.S i) ts)) as ->.
  { rewrite (take_S_r _ _ t) by done. by rewrite forest_items_app, forest_items_one, app_assoc. }
  unfold pending. rewrite fmap_cons, sum_nat_cons. simpl in Hcap.
  apply lookup_lt_Some in Hi as Hlt.
  eapply forward_over_app.
  - unfold pending_entry. cbn [etree child_trees index]. rewrite app_nil_r.
    eapply (forward_from h _ _ _ _ _ _ _ _ false (forward_enter h) Hp); try done; lia.
  - rewrite <- app_assoc, <- forest_items_app, take_drop.
    rewrite tree_items_internal in IH. apply IH. lia.
Qed.

End walk.

Section forward.
Context {T S Cx D : Type} `{!Summary S Cx, !Item T S Cx, !Dimension D S Cx} (cx : Cx).
Context `{!SummaryLaws S Cx cx}.
Variable f : S → bool.
Context `{!PassesOver (T := T) (D := D) cx f}.
Hypothesis Hf : filter_sound (T := T) cx f.
Implicit Types (c : Cursor T S D) (a b l r m : list T).

Abbreviation pos := (posn (T := T) (S := S) (D := D) cx (dzero S cx)).

(** The items that [search_forward] has behind it, and those it looks at. *)
Definition ahead c (sp : spot T) : list T * list T :=
  match sp with
  | Fresh | Before => ([], tree_items (tree c))
  | On b x r => (b ++ [x], r)
  | Past => (tree_items (tree c), [])
  end.

Definition forward_spot c (sp : spot T) : spot T :=
  let '(b, l) := ahead c sp in
  spot_of (b ++ (forward_split cx f l).1) (forward_split cx f l).2.

(** The end of [search_forward]: from the loop's result to the cursor. *)
Lemma forward_result root h n s b l :
  wf cx h root → tree_items root = b ++ l → (n ≤ 2 * weight root)%nat →
  forward_over cx f root n s (cur root false [] (pos (tree_items root)), false) b l [] →
  returns ('(c, returned) ← iterate (forward_step cx f) (loop_fuel root) s;
           Some (if (returned : bool) then c
                 else set_flags c (did_seek c) (match stack c with [] => true | _ => false end)))
    (λ c', tree c' = root ∧
       cursor_at cx c' (spot_of (b ++ (forward_split cx f l).1) (forward_split cx f l).2)).
Proof.
  intros Hwf Hit Hn H. unfold forward_over in H.
  pose proof (forward_split_app cx f l) as Happ.
  destruct (forward_split cx f l) as [m [|x r]]; cbn [fst snd] in *.
  - destruct H as (k & Hk & Hs).
    rewrite (iterate_exit (forward_step cx f) k _ _ _ (cur root false [] (pos (tree_items root)), false) Hs);
      [|done|unfold loop_fuel; lia].
    apply returns_ret. split; [done|]. apply at_past; try done. right. by exists h.
  - destruct H as (k & Hk & s' & st & Hs & Hstep & Hon).
    rewrite (iterate_exit _ k _ _ _ _ Hs Hstep) by (unfold loop_fuel; lia).
    apply returns_ret. split; [done|]. rewrite app_nil_r in Hon. by apply at_on.
Qed.

Lemma forward_idle c (t : Node T S) d :
  stack c = [] → iterate (forward_step (T := T) cx f) (loop_fuel t) (c, d) = Some (c, false).
Proof.
  intros Es. apply (iterate_exit _ 0 _ _ (c, d)); [constructor| |unfold loop_fuel; lia].
  cbn. by rewrite Es.
Qed.

Lemma search_forward_ok c sp :
  cursor_at cx c sp → (height (tree c) < STACK_CAPACITY)%nat →
  returns (search_forward cx f c) (λ c', tree c' = tree c ∧ cursor_at cx c' (forward_spot c sp)).
Proof.
  intros Hat Hcap. pose proof (cursor_at_ok cx c sp Hat) as Hok.
  pose proof (spot_start_rest cx c sp Hat) as Hitems.
  unfold search_forward, forward_spot.
  assert (∀ h, wf cx h (tree c) → stack c = [] → position c = pos [] → at_end c = false →
    returns (search_forward cx f c) (λ c', tree c' = tree c ∧
      cursor_at cx c' (spot_of (forward_split cx f (tree_items (tree c))).1
                               (forward_split cx f (tree_items (tree c))).2))) as Hstart.
  { intros h Hwf Es Ep Ee. unfold search_forward. rewrite Es, Ee.
    destruct c as [t st p ds ae]. cbn [tree stack position did_seek at_end] in *. subst.
    pose proof (weight_height cx h t Hwf). pose proof (wf_height _ _ _ Hwf).
    apply (forward_result t h (2 * weight t - 1)
      (cur t false [mkEntry t 0 (pos [])] (pos []), true) [] (tree_items t) Hwf eq_refl); [lia|].
    apply (forward_enter cx f t Hf h [] t [] []); [by constructor|simpl; lia]. }
  destruct Hat as [_ Es Ed Ee Ep | [h Hwf] Es Ed Ee Ep | _ Es Ed Ee Ep | b x r Hon Ed Ee Ep];
    cbn [ahead].
  - destruct Hok as [Hn|[h Hwf]].
    + rewrite Es, Ee, Hn. cbn [is_empty TreeOps.new mbind option_bind]. rewrite forward_idle by done.
      apply returns_ret. split; [done|]. cbn. rewrite Es. apply at_past; try done; cbn; rewrite Hn; [by left|].
      by rewrite Ep.
    + rewrite (wf_not_empty _ _ _ Hwf) in Ee. by apply (Hstart h).
  - by apply (Hstart h).
  - rewrite Es, Ee. cbn [mbind option_bind]. rewrite forward_idle by done.
    apply returns_ret. split; [done|]. cbn. rewrite Es. by apply at_past.
  - destruct (stack_on_wf cx _ _ _ _ _ Hon) as [h Hwf]. cbn [spot_start spot_rest] in Hitems.
    destruct c as [t st p ds ae]. cbn [tree stack position did_seek at_end] in *. subst p ds ae.
    destruct Hon as [st t' b a l1 x l2 p Hp Hi].
    pose proof (path_height _ _ _ _ _ _ _ Hp). pose proof (wf_height _ _ _ Hwf).
    pose proof (path_pending cx t st 0 t' b a Hp). pose proof (weight_height cx 0 t' (path_wf _ _ _ _ _ _ _ Hp)).
    cbn [mbind option_bind].
    apply (forward_result t h (1 + pending st) _ ((b ++ l1) ++ [x]) (l2 ++ a) Hwf); [|lia|].
    { rewrite (path_items _ _ _ _ _ _ _ Hp), Hi. by rewrite <- !app_assoc. }
    eapply forward_over_app.
    + rewrite app_nil_r, <- (app_assoc b). eapply forward_leaf; [exact Hp| |].
      * rewrite Hi. by rewrite <- app_assoc.
      * by exists l1, x.
    + assert (((b ++ l1) ++ [x]) ++ l2 = b ++ tree_items t') as ->.
      { rewrite Hi. by rewrite <- !app_assoc. }
      apply (forward_popped cx f t Hf _ 0); [done|lia].
Qed.

End forward.

(** *** Searching backward *)

Section backward.
Context {T S Cx D : Type} `{!Summary S Cx, !Item T S Cx, !Dimension D S Cx} (cx : Cx).
Context `{!SummaryLaws S Cx cx, !DimensionAdd D S Cx cx}.
Variable f : S → bool.
Implicit Types (c : Cursor T S D) (e : StackEntry T S D) (t : Node T S).
Implicit Types (ts : list (Node T S)) (st : list (StackEntry T S D)) (a b l r m : list T).

Abbreviation pos := (posn (T := T) (S := S) (D := D) cx (dzero S cx)).
Abbreviation accepts x := (f (isummary cx x)).

(** The items up to the last accepted one, and the rejected ones after it. *)
Fixpoint backward_split l : list T * list T :=
  match l with
  | [] => ([], [])
  | x :: l' =>
      let '(k, m) := backward_split l' in
      match k with
      | [] => if accepts x then ([x], m) else ([], x :: m)
      | _ => (x :: k, m)
      end
  end.

Lemma backward_split_app l : (backward_split l).1 ++ (backward_split l).2 = l.
Proof.
  induction l as [|x l IH]; [done|]. simpl. destruct (backward_split l) as [[|y k] m]; simpl in *.
  - subst m. by destruct (accepts x).
  - by rewrite <- IH.
Qed.

Lemma backward_split_none l m : backward_split l = ([], m) → m = l ∧ ∀ x, x ∈ l → accepts x = false.
Proof.
  revert m. induction l as [|x l IH]; intros m E.
  { simpl in E. simplify_eq. split; [done|by intros ? ?%elem_of_nil]. }
  simpl in E. destruct (backward_split l) as [[|y k] m'] eqn:E'; [|done].
  destruct (accepts x) eqn:Ex; [done|]. injection E as <-.
  destruct (IH m' eq_refl) as [-> H]. split; [done|]. intros y [->|Hy]%elem_of_cons; auto.
Qed.

Lemma backward_split_found l k m r :
  backward_split l = (k, m) → k ≠ [] → backward_split (r ++ l) = (r ++ k, m).
Proof.
  intros E Hk. induction r as [|x r IH]; [done|]. simpl. rewrite IH.
  destruct (r ++ k) eqn:Erk; [|done]. by apply app_eq_nil in Erk as [_ ?].
Qed.

Lemma backward_split_snoc l y :
  backward_split (l ++ [y]) =
    if accepts y then (l ++ [y], []) else ((backward_split l).1, (backward_split l).2 ++ [y]).
Proof.
  destruct (accepts y) eqn:E.
  - apply (backward_split_found [y] [y] []); [|done]. simpl. by rewrite E.
  - induction l as [|x l IH]; simpl; [by rewrite E|]. rewrite IH.
    destruct (backward_split l) as [[|z k] m]; simpl; [|done]. by destruct (accepts x).
Qed.

Lemma backward_split_reject l l' :
  (∀ x, x ∈ l' → accepts x = false) →
  backward_split (l ++ l') = ((backward_split l).1, (backward_split l).2 ++ l').
Proof.
  induction l' as [|y l' IH] using rev_ind; intros Hl.
  { rewrite !app_nil_r. by destruct (backward_split l). }
  rewrite app_assoc, backward_split_snoc, IH.
  - rewrite Hl by (apply elem_of_app; right; by left). by rewrite app_assoc.
  - intros x Hx. apply Hl, elem_of_app. by left.
Qed.

Variable root : Node T S.
Hypothesis Hf : filter_sound (T := T) cx f.

Abbreviation step := (backward_step (T := T) cx f).
Abbreviation cur := (cur root false).

Definition arrives_at (n : nat) (s : Cursor T S D * bool) b x r : Prop :=
  ∃ s' st, nsteps_to step n s s' ∧ step s' = Some (inr (cur st (pos b))) ∧ stack_on cx root st b x r.

(** What the search does with the items [l] before [s]. *)
Definition backward_over (n : nat) (s s' : Cursor T S D * bool) b l a : Prop :=
  ((backward_split l).1 = [] → ∃ k, (k ≤ n)%nat ∧ nsteps_to step k s s') ∧
  ∀ k0 y, (backward_split l).1 = k0 ++ [y] →
    ∃ k, (k < n)%nat ∧ arrives_at k s (b ++ k0) y ((backward_split l).2 ++ a).

Lemma arrives_at_steps n k s s' b x r :
  nsteps_to step n s s' → arrives_at k s' b x r → arrives_at (n + k) s b x r.
Proof. intros Hs (s1 & st & Hn & H). exists s1, st. split; [|done]. by eapply nsteps_to_trans. Qed.

Lemma backward_over_app n k s s' s'' b l l' a :
  backward_over n s s' (b ++ l) l' a → backward_over k s' s'' b l (l' ++ a) →
  backward_over (n + k) s s'' b (l ++ l') a.
Proof.
  intros [H1 H1'] [H2 H2'].
  destruct (backward_split l') as [k' m'] eqn:E. cbn [fst snd] in *.
  destruct k' as [|y k' _] using rev_ind.
  - apply backward_split_none in E as [-> Hl]. unfold backward_over.
    rewrite backward_split_reject by done. cbn [fst snd].
    destruct (H1 eq_refl) as (i & Hi & Hs). split.
    + intros E. destruct (H2 E) as (j & Hj & Hs'). exists (i + j)%nat. split; [lia|].
      by eapply nsteps_to_trans.
    + intros k0 z E. destruct (H2' k0 z E) as (j & Hj & Hs'). exists (i + j)%nat. split; [lia|].
      rewrite <- app_assoc. by eapply arrives_at_steps.
  - unfold backward_over. rewrite (backward_split_found _ _ _ _ E) by (by destruct k').
    cbn [fst snd]. split; [intros E'; by destruct l, k'|].
    intros k0 z Ek. rewrite app_assoc in Ek. apply app_inj_tail in Ek as [<- <-].
    destruct (H1' k' y eq_refl) as (i & Hi & Hs). exists i. split; [lia|]. by rewrite app_assoc.
Qed.

Lemma backward_over_step n s s' s'' b l a :
  step s = Some (inl s') → backward_over n s' s'' b l a → backward_over (Datatypes.S n) s s'' b l a.
Proof.
  intros Hs [H1 H2]. split.
  - intros E. destruct (H1 E) as (k & Hk & Hs'). exists (Datatypes.S k). split; [lia|].
    by eapply nsteps_to_step.
  - intros k0 y E. destruct (H2 k0 y E) as (k & Hk & Hs'). exists (Datatypes.S k). split; [lia|].
    apply (arrives_at_steps 1 k _ s'); [by apply nsteps_to_one|done].
Qed.

Lemma backward_over_reject n s s' b l l' a :
  (∀ x, x ∈ l' → accepts x = false) → backward_over n s s' b l (l' ++ a) →
  backward_over n s s' b (l ++ l') a.
Proof.
  intros Hl [H1 H2]. unfold backward_over. rewrite backward_split_reject by done. cbn [fst snd].
  split; [done|]. intros k0 y E. rewrite <- app_assoc. by apply H2.
Qed.

Lemma backward_over_mono n k s s' b l a :
  (n ≤ k)%nat → backward_over n s s' b l a → backward_over k s s' b l a.
Proof.
  intros Hnk [H1 H2]. split.
  - intros E. destruct (H1 E) as (i & Hi & H). exists i. split; [lia|done].
  - intros k0 y E. destruct (H2 k0 y E) as (i & Hi & H). exists i. split; [lia|done].
Qed.

(** The search resumes at child or item [i] of a node, exclusive. *)
Definition resumes_at (descending : bool) (i0 i : nat) : Prop :=
  if descending then Datatypes.S i0 = i else i0 = i.

Lemma parent_position st h t b a :
  path cx root st h t b a →
  match st with parent :: _ => eposition parent | [] => dzero S cx end = pos b.
Proof. by intros []. Qed.

Lemma backward_pop st h t b a p d :
  path cx root st h t b a →
  step (cur (mkEntry t 0 p :: st) d, false) = Some (inl (cur st (pos b), false)).
Proof.
  intros Hp. cbn [backward_step stack CursorSpec.cur index negb andb Nat.eqb].
  by rewrite (parent_position _ _ _ _ _ Hp).
Qed.

(** One turn that is not a pop: the child or item [ix] is looked at. *)
Lemma backward_look st h t b a (descending : bool) i0 ix p d l s :
  path cx root st h t b a → resumes_at descending i0 (Datatypes.S ix) →
  (∀ d : D, foldl (dadd cx) d (take ix (child_summaries t)) = posn cx d l) →
  child_summaries t !! ix = Some s →
  step (cur (mkEntry t i0 p :: st) d, descending) =
    let P := pos (b ++ l) in
    let entry := mkEntry t ix P in
    match t with
    | Internal _ _ _ child_trees =>
        if f s then
          tree ← child_trees !! ix;
          match length (child_summaries tree) with
          | O => None
          | Datatypes.S n =>
              st ← push_entry (mkEntry tree n (dzero S cx)) (entry :: st);
              Some (inl (cur st P, true))
          end
        else Some (inl (cur (entry :: st) P, false))
    | Leaf _ _ _ =>
        if f s then Some (inr (cur (entry :: st) P))
        else Some (inl (cur (entry :: st) P, false))
    end.
Proof.
  intros Hp Hr Hl Hs. cbn [backward_step stack CursorSpec.cur index etree].
  rewrite (parent_position _ _ _ _ _ Hp).
  assert (negb descending && (i0 =? 0)%nat = false) as ->.
  { unfold resumes_at in Hr. destruct descending; [done|]. by subst i0. }
  assert ((if descending then i0 else (i0 - 1)%nat) = ix) as ->.
  { unfold resumes_at in Hr. destruct descending; lia. }
  apply lookup_lt_Some in Hs as Hlt.
  destruct (Nat.ltb_spec (length (child_summaries t)) ix); [lia|].
  rewrite Hl, Hs. rewrite <- posn_app. cbn [mbind option_bind]. destruct t, (f s); try done.
Qed.

Lemma backward_leaf st t b a l1 l2 (descending : bool) i0 p d :
  path cx root st 0 t b a → tree_items t = l1 ++ l2 →
  resumes_at descending i0 (length l1) →
  backward_over (Datatypes.S (length l1)) (cur (mkEntry t i0 p :: st) d, descending)
    (cur st (pos b), false) b l1 (l2 ++ a).
Proof.
  intros Hp. revert l2 descending i0 p d. induction l1 as [|y l1 IH] using rev_ind;
    intros l2 descending i0 p d Hi Hr.
  { split; [|intros k0 y E; by destruct k0]. intros _. exists 1%nat. split; [done|].
    apply nsteps_to_one. destruct descending; simpl in Hr; [done|]. subst i0. by eapply backward_pop. }
  pose proof (path_wf _ _ _ _ _ _ _ Hp) as Hwf.
  destruct (wf_leaf_inv cx t Hwf) as (l' & Ht & _ & _).
  assert (l' = (l1 ++ [y]) ++ l2) as -> by (by rewrite Ht in Hi).
  rewrite length_app, Nat.add_1_r in Hr |- *.
  assert (child_summaries t = isummary cx <$> l1 ++ y :: l2) as Hcs.
  { rewrite Ht. simpl. by rewrite <- app_assoc. }
  pose proof (backward_look st 0 t b a descending i0 (length l1) p d l1 (isummary cx y) Hp Hr) as Hstep.
  rewrite Hcs in Hstep. specialize (Hstep ltac:(intros d'; by rewrite <- fmap_take, take_app_length)
    ltac:(by rewrite list_lookup_fmap, list_lookup_middle)).
  cbn zeta in Hstep. destruct (f (isummary cx y)) eqn:Ey.
  - split; [rewrite backward_split_snoc, Ey; intros E; by destruct l1|].
    intros k0 z E. rewrite backward_split_snoc, Ey in E |- *. cbn [fst snd app] in *.
    apply app_inj_tail in E as [<- <-]. exists 0%nat. split; [lia|].
    exists (cur (mkEntry t i0 p :: st) d, descending). eexists. split; [constructor|].
    split; [rewrite Hstep; destruct t; [by inversion Ht|]; reflexivity|].
    eapply stack_on_leaf; [exact Hp|]. by rewrite Hi, <- app_assoc.
  - apply (backward_over_reject _ _ _ _ l1 [y]); [by intros x ->%list_elem_of_singleton|].
    rewrite app_assoc. eapply backward_over_step; [rewrite Hstep; destruct t; [by inversion Ht|]; reflexivity|].
    apply IH; [|done]. by rewrite Hi, <- app_assoc.
Qed.

Lemma foldl_summaries h ts (d : D) :
  Forall (wf cx h) ts → foldl (dadd cx) d (NodeOps.summary <$> ts) = posn cx d (forest_items ts).
Proof.
  intros Hall. revert d. induction Hall as [|t ts Ht _ IH]; intros d; [done|].
  rewrite fmap_cons. simpl. by rewrite IH, forest_items_cons, posn_app, (dadd_summary cx _ h).
Qed.

Definition backward_enters (h : nat) : Prop :=
  ∀ st t b a i0 p d, path cx root st h t b a → (length st + h < STACK_CAPACITY)%nat →
    Datatypes.S i0 = length (child_summaries t) →
    backward_over (2 * weight t - 1) (cur (mkEntry t i0 p :: st) d, true)
      (cur st (pos b), false) b (tree_items t) a.

Lemma backward_node h st t b a ts i i0 p d (descending : bool) :
  backward_enters h → path cx root st (Datatypes.S h) t b a → child_trees t = Some ts →
  (length st + Datatypes.S h < STACK_CAPACITY)%nat → (i ≤ length ts)%nat → resumes_at descending i0 i →
  backward_over (1 + 2 * sum_nat (weight <$> take i ts)) (cur (mkEntry t i0 p :: st) d, descending)
    (cur st (pos b), false) b (forest_items (take i ts)) (forest_items (drop i ts) ++ a).
Proof.
  intros IH Hp Hts Hcap. revert i0 p d descending.
  induction i as [|i IHi]; intros i0 p d descending Hi Hr.
  { rewrite take_0. split; [|intros k0 y E; by destruct k0]. intros _. exists 1%nat. split; [simpl; lia|].
    apply nsteps_to_one. destruct descending; simpl in Hr; [done|]. subst i0. by eapply backward_pop. }
  pose proof (path_wf _ _ _ _ _ _ _ Hp) as Hwf.
  destruct (wf_internal_inv cx h t Hwf) as (ts' & Ht & _ & _ & Hall).
  assert (ts' = ts) as -> by (rewrite Ht in Hts; by injection Hts).
  destruct (lookup_lt_is_Some_2 ts i ltac:(lia)) as [t' Ht'].
  assert (child_summaries t = NodeOps.summary <$> ts) as Hcs by (by rewrite Ht).
  pose proof (backward_look st _ t b a descending i0 i p d (forest_items (take i ts)) (NodeOps.summary t') Hp Hr) as Hstep.
  rewrite Hcs in Hstep. specialize (Hstep
    ltac:(intros d'; rewrite <- fmap_take; eapply foldl_summaries; by apply Forall_take)
    ltac:(by rewrite list_lookup_fmap, Ht')).
  cbn zeta in Hstep.
  rewrite (take_S_r _ _ t') by done. rewrite forest_items_app, forest_items_one.
  rewrite fmap_app, sum_nat_app, fmap_cons, sum_nat_cons.
  specialize (IHi i (pos (b ++ forest_items (take i ts))) (pos (b ++ forest_items (take i ts))) false ltac:(lia) eq_refl).
  rewrite (drop_S _ t' i) in IHi by done. rewrite forest_items_cons, <- app_assoc in IHi.
  destruct (f (NodeOps.summary t')) eqn:E.
  - rewrite Ht in Hp. rewrite Ht in Hstep, IHi.
    pose proof (path_child cx root st h _ _ ts b a i t' _ Hp Ht' eq_refl) as Hp'.
    pose proof (path_wf _ _ _ _ _ _ _ Hp') as Hwf'. pose proof (weight_height cx h t' Hwf') as Hw.
    rewrite Ht' in Hstep. cbn [mbind option_bind] in Hstep.
    assert (∃ n, length (child_summaries t') = Datatypes.S n) as [n Hn].
    { destruct h as [|h'].
      - apply wf_leaf_inv in Hwf' as (l & -> & Hne & _). simpl. rewrite length_fmap.
        destruct l; [done|by eexists].
      - apply wf_internal_inv in Hwf' as (us & -> & Hne & _ & _). simpl. rewrite length_fmap.
        destruct us; [done|by eexists]. }
    rewrite Hn in Hstep. unfold push_entry in Hstep. cbn [length] in Hstep.
    destruct (Nat.ltb_spec (Datatypes.S (length st)) STACK_CAPACITY); [|lia].
    rewrite Ht. eapply backward_over_mono; [|eapply backward_over_step; [exact Hstep|];
      eapply backward_over_app; [apply IH; [exact Hp'|simpl; lia|done]|exact IHi]]. simpl. lia.
  - eapply backward_over_reject.
    { apply (rejects_items cx f h t'); [done| |done]. by eapply Forall_lookup_1. }
    eapply backward_over_mono; [|eapply backward_over_step; [rewrite Hstep; destruct t; [|by inversion Ht]; reflexivity|]; exact IHi].
    pose proof (weight_height cx h t' ltac:(by eapply Forall_lookup_1)). simpl. lia.
Qed.

Lemma backward_enter h : backward_enters h.
Proof.
  induction h as [|h IH]; intros st t b a i0 p d Hp Hcap Hi.
  - pose proof (path_wf _ _ _ _ _ _ _ Hp) as Hwf.
    pose proof (backward_leaf st t b a (tree_items t) [] true i0 p d Hp) as H.
    rewrite app_nil_r in H. apply wf_leaf_inv in Hwf as (l & -> & Hne & _).
    simpl in Hi. rewrite length_fmap in Hi.
    eapply backward_over_mono; [|by apply H]. simpl. destruct l; [done|simpl; lia].
  - pose proof (path_wf _ _ _ _ _ _ _ Hp) as Hwf.
    destruct (wf_internal_inv cx h t Hwf) as (ts & Ht & _ & _ & _).
    assert (child_trees t = Some ts) as Hts by (by rewrite Ht).
    assert (Datatypes.S i0 = length ts) as Hi' by (rewrite Hi, Ht; simpl; by rewrite length_fmap).
    pose proof (backward_node h st t b a ts (length ts) i0 p d true IH Hp Hts Hcap ltac:(lia) Hi') as H.
    rewrite take_ge, drop_ge in H by lia. change (forest_items [] ++ a) with a in H.
    assert (tree_items t = forest_items ts) as -> by (by rewrite Ht).
    eapply backward_over_mono; [|exact H]. rewrite Ht, weight_internal. lia.
Qed.

(** What is left before a subtree that has been popped. *)
Definition pending_before (st : list (StackEntry T S D)) : nat :=
  sum_nat ((λ e, match child_trees (etree e) with
                 | Some ts => 1 + 2 * sum_nat (weight <$> take (index e) ts)
                 | None => 0 end)%nat <$> st).

Lemma path_pending_before st h t b a :
  path cx root st h t b a → (pending_before st + 2 * weight t ≤ 2 * weight root)%nat.
Proof.
  induction 1 as [|st h s cs ts b a i t p Hp IH Hi]; [unfold pending_before; simpl; lia|].
  rewrite weight_internal, <- (take_drop_middle ts i t Hi), fmap_app, sum_nat_app, fmap_cons, sum_nat_cons in IH.
  unfold pending_before in *. rewrite fmap_cons, sum_nat_cons.
  cbn [etree index child_trees]. lia.
Qed.

Lemma backward_popped st h t b a :
  path cx root st h t b a → (length st + h < STACK_CAPACITY)%nat →
  backward_over (pending_before st) (cur st (pos b), false) (cur [] (pos []), false) [] b (tree_items t ++ a).
Proof.
  induction 1 as [h Hwf|st h s cs ts b a i t p Hp IH Hi]; intros Hcap.
  { split; [|intros k0 y E; by destruct k0]. intros _. exists 0%nat. split; [lia|constructor]. }
  unfold pending_before. rewrite fmap_cons, sum_nat_cons. simpl in Hcap.
  apply lookup_lt_Some in Hi as Hlt.
  assert (tree_items t ++ forest_items (drop (Datatypes.S i) ts) ++ a = forest_items (drop i ts) ++ a) as ->.
  { rewrite (drop_S _ t i) by done. by rewrite forest_items_cons, app_assoc. }
  eapply backward_over_app.
  - cbn [etree child_trees index].
    apply (backward_node h st _ b a ts i i _ _ false (backward_enter h) Hp); try done; lia.
  - rewrite app_assoc, <- forest_items_app, take_drop. rewrite tree_items_internal in IH. apply IH. lia.
Qed.

End backward.

Section backward_top.
Context {T S Cx D : Type} `{!Summary S Cx, !Item T S Cx, !Dimension D S Cx} (cx : Cx).
Context `{!SummaryLaws S Cx cx, !DimensionAdd D S Cx cx}.
Variable f : S → bool.
Hypothesis Hf : filter_sound (T := T) cx f.
Implicit Types (c : Cursor T S D) (a b l r m : list T).

Abbreviation pos := (posn (T := T) (S := S) (D := D) cx (dzero S cx)).

(** The items that [search_backward] looks at, and those after them. *)
Definition behind c (sp : spot T) : list T * list T :=
  match sp with
  | Fresh | Past => (tree_items (tree c), [])
  | On b x r => (b, x :: r)
  | Before => ([], tree_items (tree c))
  end.

Definition backward_spot c (sp : spot T) : spot T :=
  let '(l, r) := behind c sp in
  let '(k, m) := backward_split cx f l in
  match list.last k with
  | Some y => On (List.removelast k) y (m ++ r)
  | None => if is_empty (tree c) then Past else Before
  end.

Lemma backward_result (root : Node T S) h n s l r :
  wf cx h root → (n ≤ 2 * weight root + 2)%nat →
  backward_over cx f root n s (cur root false [] (pos []), false) [] l r →
  returns (iterate (backward_step cx f) (loop_fuel root) s) (λ c', tree c' = root ∧
    cursor_at cx c' match list.last (backward_split cx f l).1 with
                    | Some y => On (List.removelast (backward_split cx f l).1) y ((backward_split cx f l).2 ++ r)
                    | None => Before
                    end).
Proof.
  intros Hwf Hn [H1 H2]. pose proof (weight_height cx h root Hwf).
  destruct (backward_split cx f l) as [k m]. cbn [fst snd] in *.
  destruct k as [|y k _] using rev_ind.
  - destruct (H1 eq_refl) as (j & Hj & Hs).
    rewrite (iterate_exit (backward_step cx f) j _ _ _ (cur root false [] (pos [])) Hs);
      [|done|unfold loop_fuel; lia].
    apply returns_ret. split; [done|]. apply at_before; try done. by exists h.
  - rewrite last_snoc, List.removelast_last.
    destruct (H2 k y eq_refl) as (j & Hj & s' & st & Hs & Hstep & Hon).
    rewrite (iterate_exit _ j _ _ _ _ Hs Hstep) by (unfold loop_fuel; lia).
    apply returns_ret. split; [done|]. by apply at_on.
Qed.

Lemma backward_root (root : Node T S) h p d :
  wf cx h root → (height root < STACK_CAPACITY)%nat →
  backward_over cx f root (2 * weight root)
    (cur root false [mkEntry root (length (child_summaries root)) p] d, false)
    (cur root false [] (pos []), false) [] (tree_items root) [].
Proof.
  intros Hwf Hcap. pose proof (wf_height _ _ _ Hwf). destruct h as [|h].
  - pose proof (path_root (D := D) cx root 0 Hwf) as Hp.
    pose proof (backward_leaf cx f root [] root [] [] (tree_items root) [] false
      (length (child_summaries root)) p d Hp) as Hl.
    rewrite !app_nil_r in Hl. apply wf_leaf_inv in Hwf as (l & -> & Hne & _).
    eapply backward_over_mono; [|apply Hl; [done|simpl; by rewrite length_fmap]].
    simpl. destruct l; [done|simpl; lia].
  - pose proof (path_root (D := D) cx root _ Hwf) as Hp.
    destruct (wf_internal_inv cx h root Hwf) as (ts & Ht & _ & _ & _).
    assert (length (child_summaries root) = length ts) as Hlen by (rewrite Ht; simpl; by rewrite length_fmap).
    assert (child_trees root = Some ts) as Hts by (by rewrite Ht).
    pose proof (backward_node cx f root Hf h [] root [] [] ts (length ts)
      (length (child_summaries root)) p d false (backward_enter cx f root Hf h) Hp Hts
      ltac:(simpl; lia) ltac:(lia) Hlen) as Hn.
    rewrite take_ge, drop_ge in Hn by lia.
    assert (tree_items root = forest_items ts) as -> by (by rewrite Ht).
    eapply backward_over_mono; [|exact Hn]. rewrite Ht, weight_internal. lia.
Qed.

Lemma search_backward_ok c sp :
  cursor_at cx c sp → (height (tree c) < STACK_CAPACITY)%nat →
  returns (search_backward cx f c) (λ c', tree c' = tree c ∧ cursor_at cx c' (backward_spot c sp)).
Proof.
  intros Hat Hcap. pose proof (cursor_at_ok cx c sp Hat) as Hok.
  assert (∀ ds, stack c = [] → tree_ok cx (tree c) →
    returns
      (c ← (let c := set_flags (set_position (set_flags c ds true) (dzero S cx)) true (is_empty (tree c)) in
            if is_empty (tree c) then Some c
            else st ← push_entry (mkEntry (tree c) (length (child_summaries (tree c)))
                     (dadd cx (dzero S cx) (NodeOps.summary (tree c)))) (stack c);
                 Some (set_stack c st));
       iterate (backward_step cx f) (loop_fuel (tree c)) (c, false))
      (λ c', tree c' = tree c ∧
        cursor_at cx c' match list.last (backward_split cx f (tree_items (tree c))).1 with
          | Some y => On (List.removelast (backward_split cx f (tree_items (tree c))).1) y
                        ((backward_split cx f (tree_items (tree c))).2 ++ [])
          | None => if is_empty (tree c) then Past else Before end)) as Hend.
  { intros ds Es [Hn|[h Hwf]]; destruct c as [t st p ds' ae];
      cbn [tree stack position did_seek at_end] in *; subst.
    - cbn. rewrite (iterate_exit (backward_step cx f) 0 _ _ _
        (mkCursor (TreeOps.new cx) [] (dzero S cx) true true) (nsteps_to_refl _ _));
        [|done|unfold loop_fuel; lia].
      apply returns_ret. split; [done|]. by apply at_past.
    - rewrite (wf_not_empty _ _ _ Hwf). cbn [mbind option_bind tree set_flags set_position stack].
      rewrite (wf_not_empty _ _ _ Hwf). unfold push_entry. simpl length.
      change (0 <? STACK_CAPACITY)%nat with true. cbn [mbind option_bind].
      apply (backward_result t h (2 * weight t)); [done|lia|]. by apply (backward_root t h). }
  unfold search_backward, backward_spot.
  destruct Hat as [_ Es Ed Ee Ep | [h Hwf] Es Ed Ee Ep | _ Es Ed Ee Ep | b x r Hon Ed Ee Ep]; cbn [behind].
  - rewrite Ed. destruct (backward_split _ _ _) as [k m]. by apply Hend.
  - rewrite Ed, Ee. cbn [mbind option_bind]. rewrite (wf_not_empty _ _ _ Hwf).
    rewrite (iterate_exit (backward_step cx f) 0 _ _ _ c (nsteps_to_refl _ _));
      [|cbn; by rewrite Es|unfold loop_fuel; lia].
    apply returns_ret. split; [done|]. apply at_before; try done. by exists h.
  - rewrite Ed. destruct c as [t st p ds ae]. cbn [tree stack position did_seek at_end] in *. subst.
    destruct (backward_split _ _ _) as [k m]. by apply (Hend true).
  - destruct (stack_on_wf cx _ _ _ _ _ Hon) as [h Hwf]. rewrite (wf_not_empty _ _ _ Hwf).
    destruct c as [t st p ds ae]. cbn [tree stack position did_seek at_end] in *. subst p ds ae.
    cbn [mbind option_bind tree].
    destruct Hon as [st t' b a l1 x l2 p Hp Hi].
    pose proof (path_height _ _ _ _ _ _ _ Hp). pose proof (wf_height _ _ _ Hwf).
    pose proof (path_pending_before cx t st 0 t' b a Hp).
    pose proof (backward_result t h (Datatypes.S (length l1) + pending_before st)
      (cur t false (mkEntry t' (length l1) p :: st) (pos (b ++ l1)), false) (b ++ l1) (x :: l2 ++ a) Hwf) as Hres.
    destruct (backward_split cx f (b ++ l1)) as [k m]. apply Hres.
    + assert (length l1 ≤ weight t')%nat; [|lia].
      pose proof (path_wf _ _ _ _ _ _ _ Hp) as Hwf'. apply wf_leaf_inv in Hwf' as (l & -> & _).
      simpl in Hi |- *. subst l. rewrite length_app. lia.
    + eapply backward_over_app.
      * simpl. rewrite app_comm_cons. by eapply (backward_leaf cx f t).
      * assert (l1 ++ x :: l2 ++ a = tree_items t' ++ a) as -> by (by rewrite Hi, <- app_assoc).
        apply (backward_popped cx f t Hf _ 0); [done|lia].
Qed.

End backward_top.

(** *** The neighbours of a place *)

Section neighbours.
Context {T S Cx D : Type} `{!Summary S Cx, !Item T S Cx, !Dimension D S Cx} (cx : Cx).
Context `{!SummaryLaws S Cx cx, !DimensionAdd D S Cx cx}.
Implicit Types (c : Cursor T S D) (a b l r m : list T) (st : list (StackEntry T S D)).

Lemma next_leaf_ok root st h t b a :
  path cx root st h t b a →
  match a with
  | [] => next_leaf_in st = Some None
  | x :: _ => ∃ s l cs, next_leaf_in st = Some (Some (Leaf s (x :: l) cs))
  end.
Proof.
  induction 1 as [|st h s cs ts b a i t p Hp IH Hi]; [done|].
  cbn [next_leaf_in etree child_trees mbind option_bind index].
  apply lookup_lt_Some in Hi as Hlt. destruct (length ts) as [|n] eqn:El; [lia|].
  destruct (Nat.ltb_spec i n) as [Hin|Hin].
  - destruct (lookup_lt_is_Some_2 ts (i + 1) ltac:(lia)) as [c Hc]. rewrite Hc. cbn [mbind option_bind].
    assert (wf cx h c) as Hwf.
    { apply path_wf in Hp. apply wf_internal_inv in Hp as (ts' & [= -> -> ->] & _ & _ & Hf).
      by eapply Forall_lookup_1. }
    destruct (leftmost_leaf_ok cx h c Hwf) as (l & s' & k & -> & Hne & Hit).
    rewrite (drop_S _ c) by (by rewrite <- Nat.add_1_r). rewrite forest_items_cons, Hit.
    destruct l as [|x l]; [done|]. simpl. by do 3 eexists.
  - rewrite drop_ge by lia. change (forest_items [] ++ a) with a. exact IH.
Qed.

Lemma prev_leaf_ok root st h t b a :
  path cx root st h t b a →
  match list.last b with
  | None => prev_leaf_in st = Some None
  | Some x => ∃ s l cs, prev_leaf_in st = Some (Some (Leaf s (l ++ [x]) cs))
  end.
Proof.
  induction 1 as [|st h s cs ts b a i t p Hp IH Hi]; [done|].
  cbn [prev_leaf_in etree child_trees mbind option_bind index].
  apply lookup_lt_Some in Hi as Hlt.
  destruct (Nat.eqb_spec i 0) as [->|Hn]; cbn [negb].
  - rewrite take_0. change (forest_items []) with (@nil T). by rewrite app_nil_r.
  - destruct (lookup_lt_is_Some_2 ts (i - 1) ltac:(lia)) as [c Hc]. rewrite Hc. cbn [mbind option_bind].
    assert (wf cx h c) as Hwf.
    { apply path_wf in Hp. apply wf_internal_inv in Hp as (ts' & [= -> -> ->] & _ & _ & Hf).
      by eapply Forall_lookup_1. }
    destruct (rightmost_leaf_ok cx h c Hwf) as (l & s' & k & -> & Hne & Hit).
    assert (take i ts = take (i - 1) ts ++ [c]) as ->.
    { rewrite <- (take_S_r _ _ c) by done. f_equal. lia. }
    rewrite forest_items_app, forest_items_one, Hit, !app_assoc.
    destruct l as [|x l _] using rev_ind; [done|]. rewrite app_assoc, last_snoc. by do 3 eexists.
Qed.

Lemma next_item_ok c sp :
  cursor_at cx c sp → sp ≠ Fresh → next_item c = Some (head (ahead c sp).2).
Proof.
  intros Hat Hsp. pose proof (cursor_at_ok cx c sp Hat) as Hok.
  destruct Hat as [ | [h Hwf] Es Ed Ee Ep | _ Es Ed Ee Ep | b x r Hon Ed Ee Ep]; [done|..];
    unfold next_item; rewrite Ed.
  - rewrite Es, Ee. by apply (first_ok cx).
  - by rewrite Es, Ee.
  - unfold next_leaf. destruct Hon as [st t b a l1 x l2 p Hp Hi]. cbn [ahead List.tl].
    pose proof (path_wf _ _ _ _ _ _ _ Hp) as Hwf. apply wf_leaf_inv in Hwf as (l & -> & _).
    simpl in Hi. subst l. cbn [etree NodeOps.items mbind option_bind index].
    rewrite length_app. cbn [length]. rewrite Nat.add_succ_r.
    destruct (Nat.eqb_spec (length l1) (length l1 + length l2)) as [E|E].
    + assert (l2 = []) as -> by (destruct l2; [done|simpl in E; lia]).
      pose proof (next_leaf_ok _ _ _ _ _ _ Hp) as Hnext. cbn [app].
      destruct a as [|y a]; [by rewrite Hnext|]. destruct Hnext as (s & l & cs & ->). done.
    + destruct l2 as [|y l2]; [simpl in E; lia|]. cbn [app head].
      rewrite lookup_app_r by lia. by replace (length l1 + 1 - length l1)%nat with 1%nat by lia.
Qed.

Lemma prev_item_ok c sp :
  cursor_at cx c sp → sp ≠ Fresh → prev_item c = Some (list.last (spot_start c sp)).
Proof.
  intros Hat Hsp. pose proof (cursor_at_ok cx c sp Hat) as Hok.
  destruct Hat as [ | [h Hwf] Es Ed Ee Ep | _ Es Ed Ee Ep | b x r Hon Ed Ee Ep]; [done|..];
    unfold prev_item; rewrite Ed.
  - by rewrite Es, Ee.
  - rewrite Es, Ee. by apply (last_ok cx).
  - unfold prev_leaf. destruct Hon as [st t b a l1 x l2 p Hp Hi]. cbn [spot_start List.tl].
    pose proof (path_wf _ _ _ _ _ _ _ Hp) as Hwf. apply wf_leaf_inv in Hwf as (l & -> & _).
    simpl in Hi. subst l. cbn [etree NodeOps.items mbind option_bind index].
    destruct l1 as [|y l1 _] using rev_ind.
    + cbn [length Nat.eqb]. rewrite app_nil_r. pose proof (prev_leaf_ok _ _ _ _ _ _ Hp) as Hprev.
      destruct (list.last b) as [y|]; [|by rewrite Hprev].
      destruct Hprev as (s & l & cs & ->). cbn. by rewrite last_snoc.
    + rewrite length_app. simpl length. destruct (Nat.eqb_spec (length l1 + 1) 0); [lia|].
      rewrite app_assoc, last_snoc. replace (length l1 + 1 - 1)%nat with (length l1) by lia.
      rewrite <- app_assoc. simpl. by rewrite list_lookup_middle.
Qed.

End neighbours.

(** ** Iteration *)

(** [next], from any place. *)
Lemma next_from_ok {T S Cx D : Type} `{!Summary S Cx, !Item T S Cx, !Dimension D S Cx} (cx : Cx)
    `{!SummaryLaws S Cx cx} (c : Cursor T S D) sp :
  cursor_at cx c sp → (height (tree c) < STACK_CAPACITY)%nat →
  returns (next cx c) (λ c', tree c' = tree c ∧
    cursor_at cx c' (spot_of (ahead c sp).1 (ahead c sp).2)).
Proof.
  intros Hat Hcap. assert (filter_sound (T := T) cx (λ _, true)) as Hf by done.
  eapply returns_mono; [by apply (search_forward_ok cx (λ _, true) Hf c sp)|].
  intros c' [Ht Hc']. split; [done|]. unfold forward_spot in Hc'. destruct (ahead c sp) as [b l].
  destruct l as [|y l]; cbn [forward_split fst snd] in *; by rewrite app_nil_r in Hc'.
Qed.

Lemma next_ok {T S Cx D : Type} `{!Summary S Cx, !Item T S Cx, !Dimension D S Cx} (cx : Cx)
    `{!SummaryLaws S Cx cx} (c : Cursor T S D) b x r :
  cursor_at cx c (On b x r) → (height (tree c) < STACK_CAPACITY)%nat →
  returns (next cx c) (λ c', tree c' = tree c ∧ cursor_at cx c' (spot_of (b ++ [x]) r)).
Proof. apply (next_from_ok cx c (On b x r)). Qed.

Lemma prev_ok {T S Cx D : Type} `{!Summary S Cx, !Item T S Cx, !Dimension D S Cx} (cx : Cx)
    `{!SummaryLaws S Cx cx, !DimensionAdd D S Cx cx} (c : Cursor T S D) sp :
  cursor_at cx c sp → (height (tree c) < STACK_CAPACITY)%nat →
  returns (prev cx c) (λ c', tree c' = tree c ∧ cursor_at cx c'
    match list.last (behind c sp).1 with
    | Some y => On (List.removelast (behind c sp).1) y (behind c sp).2
    | None => if is_empty (tree c) then Past else Before
    end).
Proof.
  intros Hat Hcap. assert (filter_sound (T := T) cx (λ _, true)) as Hf by done.
  eapply returns_mono; [by apply (search_backward_ok cx (λ _, true) Hf c sp)|].
  intros c' [Ht Hc']. split; [done|]. unfold backward_spot in Hc'.
  destruct (behind c sp) as [l r]. cbn [fst snd].
  assert (backward_split cx (λ _, true) l = (l, [])) as E.
  { destruct l as [|y l _] using rev_ind; [done|]. by rewrite backward_split_snoc. }
  by rewrite E in Hc'.
Qed.

Section iteration.
Context {T S Cx D : Type} `{!Summary S Cx, !Item T S Cx, !Dimension D S Cx} (cx : Cx).
Context `{!SummaryLaws S Cx cx, !DimensionAdd D S Cx cx}.
Implicit Types (c : Cursor T S D) (b l r : list T).

Lemma weight_items (t : Node T S) : tree_ok cx t → (length (tree_items t) < weight t)%nat.
Proof.
  intros [->|[h Hwf]]; [simpl; lia|]. revert t Hwf. induction h as [|h IH]; intros t Hwf.
  - apply wf_leaf_inv in Hwf as (l & -> & _). simpl. lia.
  - apply wf_internal_inv in Hwf as (ts & -> & _ & _ & Hf). rewrite weight_internal, tree_items_internal.
    assert (length (forest_items ts) ≤ sum_nat (weight <$> ts))%nat; [|lia].
    induction Hf as [|t ts Ht _ IHts]; [done|]. rewrite forest_items_cons, length_app, fmap_cons, sum_nat_cons.
    specialize (IH t Ht). lia.
Qed.

Lemma spot_of_not_fresh b r : spot_of b r ≠ Fresh.
Proof. by destruct r. Qed.

Lemma items_loop_ok fuel c b r :
  cursor_at cx c (spot_of b r) → (height (tree c) < STACK_CAPACITY)%nat → (length r < fuel)%nat →
  items_loop cx fuel c = Some r.
Proof.
  assert (filter_sound (T := T) cx (λ _, true)) as Htrue by done.
  revert c b r. induction fuel as [|fuel IH]; intros c b r Hat Hcap Hl; [lia|].
  cbn [items_loop]. rewrite (item_ok cx c _ Hat (spot_of_not_fresh _ _)).
  destruct r as [|x r]; [done|]. cbn [spot_of spot_item mbind option_bind].
  destruct (search_forward_ok cx (λ _, true) Htrue c _ Hat Hcap) as (c' & Hc & Ht & Hat').
  unfold next. rewrite Hc. cbn [mbind option_bind]. unfold forward_spot in Hat'. cbn [ahead spot_of] in Hat'.
  assert (forward_split cx (λ _, true) r = ([], r)) as E by (by destruct r).
  rewrite E in Hat'. cbn [fst snd] in Hat'. rewrite app_nil_r in Hat'.
  rewrite (IH c' _ r Hat'); [done|by rewrite Ht|simpl in Hl; lia].
Qed.

Variable f : S → bool.
Hypothesis Hf : filter_sound (T := T) cx f.

Lemma filter_forward_split l :
  filter (λ x, f (isummary cx x) = true) l =
    filter (λ x, f (isummary cx x) = true) (forward_split cx f l).2 ∧
  match (forward_split cx f l).2 with [] => True | x :: _ => f (isummary cx x) = true end.
Proof.
  induction l as [|x l [IH1 IH2]]; [done|]. simpl. destruct (f (isummary cx x)) eqn:E; [done|].
  rewrite filter_cons_False by (by rewrite E). rewrite IH1.
  by destruct (forward_split cx f l).
Qed.

Lemma collect_on fuel c b r :
  cursor_at cx c (spot_of b r) → (height (tree c) < STACK_CAPACITY)%nat → (length r < fuel)%nat →
  match r with [] => True | x :: _ => f (isummary cx x) = true end →
  collect cx f fuel c = Some (filter (λ x, f (isummary cx x) = true) r).
Proof.
  revert c b r. induction fuel as [|fuel IH]; intros c b r Hat Hcap Hl Hr; [lia|].
  cbn [collect]. unfold iter_next.
  assert (did_seek c = true) as -> by (by destruct r; inversion Hat).
  cbn [mbind option_bind]. rewrite (item_ok cx c _ Hat (spot_of_not_fresh _ _)).
  destruct r as [|x r]; [done|]. cbn [spot_of spot_item mbind option_bind].
  destruct (search_forward_ok cx f Hf c _ Hat Hcap) as (c' & Hc & Ht & Hat').
  rewrite Hc. cbn [mbind option_bind]. unfold forward_spot in Hat'. cbn [ahead spot_of] in Hat'.
  rewrite filter_cons_True by done.
  pose proof (filter_forward_split r) as [Hfl Hacc]. rewrite Hfl.
  pose proof (f_equal length (forward_split_app cx f r)) as Hlen. rewrite length_app in Hlen.
  rewrite (IH c' _ _ Hat'); [done|by rewrite Ht|simpl in Hl; lia|done].
Qed.

Lemma collect_fresh (t : Node T S) :
  tree_ok cx t → (height t < STACK_CAPACITY)%nat →
  collect cx f (Datatypes.S (length (tree_items t))) (CursorOps.new (D := D) cx t) =
    Some (filter (λ x, f (isummary cx x) = true) (tree_items t)).
Proof.
  intros Hok Hcap.
  destruct (search_forward_ok (D := D) cx f Hf (CursorOps.new cx t) Fresh) as (c & Hc & Ht & Hat);
    [by apply at_fresh|done|].
  unfold forward_spot in Hat. cbn [ahead tree CursorOps.new] in *.
  pose proof (filter_forward_split (tree_items t)) as [Hfl Hacc]. rewrite Hfl.
  pose proof (f_equal length (forward_split_app cx f (tree_items t))) as Hlen. rewrite length_app in Hlen.
  assert (did_seek c = true) as Hds by (by destruct (forward_split cx f (tree_items t)).2; inversion Hat).
  rewrite <- (collect_on (Datatypes.S (length (tree_items t))) c _ _ Hat); [|by rewrite Ht|lia|done].
  cbn [collect]. unfold iter_next. cbn [did_seek CursorOps.new]. rewrite Hc, Hds. done.
Qed.

End iteration.

(** ** The properties of walking *)

Section properties.
Context {T S Cx D : Type} `{!Summary S Cx, !Item T S Cx, !Dimension D S Cx} (cx : Cx).
Implicit Types (c : Cursor T S D) (b r : list T).

Abbreviation pos := (posn (T := T) (S := S) (D := D) cx (dzero S cx)).

(** A search with a filter that accepts every subtree of an accepted item
    moves to the next, or the previous, accepted item of the list; it neither
    panics nor exceeds the bound of its loop. *)
Theorem cursor_filtered_walk (Hs : SummaryLaws S Cx cx) (Hd : DimensionAdd D S Cx cx)
    (f : S → bool) (Hf : filter_sound (T := T) cx f) c (sp : spot T)
    (Hat : cursor_at cx c sp) (Hcap : (height (tree c) < STACK_CAPACITY)%nat) :
  returns (search_forward cx f c) (λ c', tree c' = tree c ∧ cursor_at cx c' (forward_spot cx f c sp)) ∧
  returns (search_backward cx f c) (λ c', tree c' = tree c ∧ cursor_at cx c' (backward_spot cx f c sp)).
Proof. split; [by apply (search_forward_ok cx f Hf)|by apply search_backward_ok]. Qed.

(** [next] and [prev] step through the items one by one, and the cursor
    reads the item, its neighbours and its extent off the list. *)
Theorem cursor_steps (Hs : SummaryLaws S Cx cx) (Hd : DimensionAdd D S Cx cx)
    c b (x : T) r (Hat : cursor_at cx c (On b x r)) (Hcap : (height (tree c) < STACK_CAPACITY)%nat) :
  item c = Some (Some x) ∧ start c = pos b ∧ end_ cx c = Some (pos (b ++ [x])) ∧
  next_item c = Some (head r) ∧ prev_item c = Some (list.last b) ∧
  returns (next cx c) (λ c', cursor_at cx c' (spot_of (b ++ [x]) r)) ∧
  returns (prev cx c) (λ c', cursor_at cx c'
    match list.last b with Some y => On (List.removelast b) y (x :: r) | None => Before end).
Proof.
  pose proof (cursor_at_items cx c b x r Hat) as Hit.
  split_and!.
  - by apply (item_ok cx c (On b x r)).
  - by apply (start_ok cx c (On b x r)).
  - by apply (end_ok cx c (On b x r)).
  - by apply (next_item_ok cx c (On b x r)).
  - by apply (prev_item_ok cx c (On b x r)).
  - eapply returns_mono; [by apply (next_ok cx c b x r)|]. by intros c' [_ H].
  - eapply returns_mono; [by apply (prev_ok cx c (On b x r))|]. intros c' [_ H]. cbn [behind fst snd] in H.
    rewrite (is_empty_ok cx) in H by (by eapply cursor_at_ok).
    rewrite bool_decide_false in H; [done|]. rewrite Hit. by destruct b.
Qed.

(** C36: iterating a filtered cursor yields the accepted items in order, and
    [SumTree::items] all of them. *)
Theorem cursor_iterates (Hs : SummaryLaws S Cx cx) (Hd : DimensionAdd D S Cx cx)
    (f : S → bool) (Hf : filter_sound (T := T) cx f) (t : Node T S)
    (Hok : tree_ok cx t) (Hcap : (height t < STACK_CAPACITY)%nat) :
  collect cx f (Datatypes.S (length (tree_items t))) (CursorOps.new (D := D) cx t) =
    Some (filter (λ x, f (isummary cx x) = true) (tree_items t)) ∧
  CursorOps.items (D := D) cx t = Some (tree_items t).
Proof.
  split.
  - by apply collect_fresh.
  - unfold CursorOps.items. assert (filter_sound (T := T) cx (λ _, true)) as Htrue by done.
    destruct (search_forward_ok (D := D) cx (λ _, true) Htrue (CursorOps.new cx t) Fresh)
      as (c & Hc & Ht & Hat); [by apply at_fresh|done|].
    unfold next. rewrite Hc. cbn [mbind option_bind].
    unfold forward_spot in Hat. cbn [ahead tree CursorOps.new] in *.
    assert (forward_split cx (λ _, true) (tree_items t) = ([], tree_items t)) as E by (by destruct (tree_items t)).
    rewrite E in Hat. cbn [fst snd app] in Hat.
    apply (items_loop_ok cx (weight t) c [] (tree_items t)); [done|by rewrite Ht|].
    by apply (weight_items cx).
Qed.

End properties.

(** ** A concrete walk *)

Module Walking.
Import SumTree.Samples CursorSpec.Seeking.

#[local] Existing Instances sum_summary sum_item sum_dimension.

(** Summaries of at least [2]: items, and subtrees that may hold such items. *)
Definition at_least_2 (s : N) : bool := (2 <=? s)%N.

Lemma at_least_2_sound : filter_sound (T := N) (S := N) () at_least_2.
Proof.
  intros l x Hx Ha. unfold at_least_2 in *. apply N.leb_le in Ha. apply N.leb_le.
  assert (∀ d : N, (d + x <= foldl N.add d l)%N) as H; [|specialize (H 0%N)].
  { induction l as [|y l IH]; intros d; [by apply elem_of_nil in Hx|]. simpl.
    apply elem_of_cons in Hx as [->|Hx].
    - clear. assert (∀ l (e : N), (e <= foldl N.add e l)%N) as Hle.
      { clear. induction l as [|z l IH]; intros e; simpl; [lia|]. specialize (IH (e + z)%N). lia. }
      apply Hle.
    - specialize (IH Hx (d + y)%N). lia. }
  simpl in Ha. change (total () l) with (foldl N.add 0%N (id <$> l)). rewrite list_fmap_id. lia.
Qed.

Lemma fresh_at : cursor_at () fresh Fresh.
Proof. apply fresh_ready. Qed.

Example cursor_filtered_walk_witness :
  (∃ c, search_forward () at_least_2 fresh = Some c ∧ item c = Some (Some 2%N)) ∧
  returns (search_forward () at_least_2 fresh) (λ c',
    tree c' = tree fresh ∧ cursor_at () c' (forward_spot () at_least_2 fresh Fresh)).
Proof.
  split; [vm_compute; by eexists|].
  exact (proj1 (cursor_filtered_walk () sum_laws sum_dim_add at_least_2 at_least_2_sound fresh Fresh
    fresh_at ltac:(vm_compute; lia))).
Defined.

(** After two steps the cursor is at the second item. *)
Definition second : Cursor N N N :=
  mkCursor sample [mkEntry sample 1 1%N] 1%N true false.

Lemma second_at : cursor_at () second (On [1%N] 2%N [3%N]).
Proof.
  apply at_on; [|done|done|done].
  apply (stack_on_leaf (D := N) () sample [] sample [] [] [1%N] 2%N [3%N] 1%N); [|done].
  apply path_root. simpl. split_and!; try done. unfold TREE_BASE. lia.
Qed.

Example cursor_steps_witness :
  (c ← next () fresh; next () c) = Some second ∧ item second = Some (Some 2%N).
Proof.
  split; [by vm_compute|].
  exact (proj1 (cursor_steps () sum_laws sum_dim_add second [1%N] 2%N [3%N] second_at
    ltac:(vm_compute; lia))).
Defined.

Example cursor_iterates_witness :
  collect () at_least_2 4 fresh = Some [2; 3]%N ∧
  CursorOps.items (D := N) () sample = Some (tree_items sample).
Proof.
  split; [by vm_compute|].
  exact (proj2 (cursor_iterates (D := N) () sum_laws sum_dim_add at_least_2 at_least_2_sound sample sample_ok
    ltac:(vm_compute; lia))).
Defined.

End Walking.
