(* ===== verification/SumIter.v ===== *)
(** * Plain iteration over a summed tree: [Iter] in [crates/sum_tree/src/cursor.rs]

    [Iter] has its own loop over a stack of nodes. It is shown to take the
    turns of [search_forward] with a filter that accepts everything, and hence
    to yield the items of the tree in order. *)

From S2P Require Import Prelude SumTree SumCursor CursorSpec CursorWalk.
Import NodeOps TreeOps CursorOps.

#[local] Unset Default Proof Using.
#[local] Arguments Nat.mul : simpl never.

(** The head of [istack] is the last entry of the code's vector. *)
Record Iter (T S : Type) := mkIter {
  itree : Node T S;
  istack : list (StackEntry T S ()) }.
Arguments mkIter {T S} _ _.
Arguments itree {T S} _.
Arguments istack {T S} _.

Module IterOps.
Section IterOps.
Context {T S : Type}.
Implicit Types (it : Iter T S) (st : list (StackEntry T S ())) (e : StackEntry T S ()).

Definition new (t : Node T S) : Iter T S := mkIter t [].

(** One turn of the [while] loop of [next], with the variable [descend];
    [inr (Some x, _)] is the [return] inside the loop. *)
Definition step (s : list (StackEntry T S ()) * bool) :
    option ((list (StackEntry T S ()) * bool) + (option T * list (StackEntry T S ()))) :=
  let '(st, descend) := s in
  match st with
  | [] => Some (inr (None, []))
  | entry :: st =>
      let entry := if descend : bool then entry
                   else mkEntry (etree entry) (index entry + 1) (eposition entry) in
      match etree entry with
      | Internal _ _ _ child_trees =>
          match child_trees !! index entry with
          | Some subtree =>
              st ← push_entry (mkEntry subtree 0 ()) (entry :: st); Some (inl (st, true))
          | None => Some (inl (st, false))
          end
      | Leaf _ items _ =>
          match items !! index entry with
          | Some next_item => Some (inr (Some next_item, entry :: st))
          | None => Some (inl (st, false))
          end
      end
  end.

Definition next it : option (option T * Iter T S) :=
  '(st, descend) ←
    match istack it with
    | [] => st ← push_entry (mkEntry (itree it) 0 ()) []; Some (st, true)
    | st => Some (st, false)
    end;
  '(item, st) ← iterate step (loop_fuel (itree it)) (st, descend);
  Some (item, mkIter (itree it) st).

Definition last it : option (option T) := NodeOps.last (itree it).

(** The lower bound; the subtraction panics below zero. *)
Definition size_hint it : option N :=
  match istack it with
  | top :: _ => usize_sub (len (child_summaries (etree top))) (N.of_nat (index top))
  | [] => Some (len (child_summaries (itree it)))
  end.

(** A consumer that takes items until there is none, at most [fuel] times. *)
Fixpoint collect (fuel : nat) it : option (list T) :=
  match fuel with
  | O => None
  | Datatypes.S fuel =>
      '(item, it) ← next it;
      match item with
      | Some item => items ← collect fuel it; Some (item :: items)
      | None => Some []
      end
  end.

(** [SumTree::iter] and a consumer of all of it. *)
Definition to_list (t : Node T S) : option (list T) := collect (weight t) (new t).

(** [Iterator::eq] on two iterators, as [PartialEq for SumTree] uses it. *)
Fixpoint iter_eq `{!EqDecision T} (fuel : nat) (a b : Iter T S) : option bool :=
  match fuel with
  | O => None
  | Datatypes.S fuel =>
      '(x, a) ← next a;
      match x with
      | None => '(y, _) ← next b; Some (match y with None => true | Some _ => false end)
      | Some x =>
          '(y, b) ← next b;
          match y with
          | None => Some false
          | Some y => if bool_decide (x = y) then iter_eq fuel a b else Some false
          end
      end
  end.

Definition eq `{!EqDecision T} (t u : Node T S) : option bool := iter_eq (weight t) (new t) (new u).

End IterOps.
End IterOps.

(** ** What an iterator has left *)

Section iter.
Context {T S Cx : Type} `{!Summary S Cx, !Item T S Cx} (cx : Cx) `{!SummaryLaws S Cx cx}.
Implicit Types (c : Cursor T S ()) (st : list (StackEntry T S ())) (it : Iter T S).
Implicit Types (t : Node T S) (b r : list T).

#[local] Instance unit_dimension_laws : DimensionAdd () S Cx cx.
Proof. by split. Qed.

Abbreviation accept := (λ _ : S, true).

(** The entries are nodes of a well-formed tree. *)
Definition entries_wf st : Prop := Forall (λ e, ∃ h, wf cx h (etree e)) st.

Lemma push_entry_inv (e : StackEntry T S ()) st st' :
  push_entry e st = Some st' → st' = e :: st.
Proof. unfold push_entry. destruct (_ <? _)%nat; [by intros [= <-]|done]. Qed.

(** Each turn of [search_forward] is a turn of [next]. *)
Lemma step_forward t p ds ae st d s :
  entries_wf st →
  forward_step cx accept (mkCursor t st p ds ae, d) = Some s →
  match s with
  | inl (c, d') => IterOps.step (st, d) = Some (inl (stack c, d')) ∧
      c = mkCursor t (stack c) () ds ae ∧ entries_wf (stack c)
  | inr (c, true) => ∃ x, IterOps.step (st, d) = Some (inr (Some x, stack c)) ∧
      CursorOps.item (mkCursor t (stack c) () true false) = Some (Some x)
  | inr (c, false) => IterOps.step (st, d) = Some (inr (None, stack c)) ∧ stack c = []
  end.
Proof.
  intros Hwf. destruct st as [|[u i []] st]; [by intros [= <-]|].
  apply Forall_cons in Hwf as [[h Hu] Hwf]. cbn [etree] in Hu.
  destruct h as [|h].
  - apply wf_leaf_inv in Hu as (l & -> & Hne & Hl).
    cbn [forward_step stack etree IterOps.step index eposition position].
    set (i' := if d then i else (i + 1)%nat). intros Hs.
    assert (s = if (i' <? length l)%nat
      then inr (mkCursor t (mkEntry (Leaf (total cx l) l (isummary cx <$> l)) i' () :: st) () ds ae, true)
      else inl (mkCursor t st () ds ae, false)) as ->.
    { destruct d; cbn [mbind option_bind index etree] in Hs; subst i'.
      - destruct (drop i (isummary cx <$> l)) as [|? ?];
          cbn [skip_children index set_position set_stack tree stack position did_seek at_end] in Hs;
          rewrite length_fmap in Hs; destruct p; destruct (i <? length l)%nat; by injection Hs as <-.
      - destruct ((isummary cx <$> l) !! i) as [y|]; [|done]. cbn [mbind option_bind index etree] in Hs.
        destruct (drop (i + 1) (isummary cx <$> l)) as [|? ?];
          cbn [skip_children index set_position set_stack tree stack position did_seek at_end] in Hs;
          rewrite length_fmap in Hs; destruct p; destruct (i + 1 <? length l)%nat; by injection Hs as <-. }
    assert ((if d then mkEntry (Leaf (total cx l) l (isummary cx <$> l)) i ()
      else mkEntry (Leaf (total cx l) l (isummary cx <$> l)) (i + 1) ()) =
      mkEntry (Leaf (total cx l) l (isummary cx <$> l)) i' ()) as -> by (by destruct d).
    cbn [etree index]. destruct (Nat.ltb_spec i' (length l)).
    + destruct (lookup_lt_is_Some_2 l i' ltac:(done)) as [x Hx]. exists x. rewrite Hx. split; [done|].
      unfold CursorOps.item. cbn [did_seek stack etree index]. rewrite Hx.
      by destruct (Nat.eqb_spec i' (length l)); [lia|].
    + rewrite lookup_ge_None_2 by lia. by split_and!.
  - apply wf_internal_inv in Hu as (ts & -> & Hne & Hl & Hf).
    cbn [forward_step stack etree IterOps.step index eposition position].
    set (i' := if d then i else (i + 1)%nat).
    set (node := Internal _ _ _ _).
    assert ((if d then mkEntry node i () else mkEntry node (i + 1) p) = mkEntry node i' ()) as ->
      by (by destruct d, p).
    assert ((if d then mkEntry node i () else mkEntry node (i + 1) ()) = mkEntry node i' ()) as ->
      by (by destruct d).
    assert (∀ k, skip_children cx accept (mkEntry node i' ()) p k = (mkEntry node i' (), ())) as ->
      by (by intros [|? ?]; destruct p).
    subst node. cbn [index etree]. destruct (ts !! i') as [u|] eqn:Eu; [|by intros [= <-]; split_and!].
    cbn [set_position set_stack stack tree position did_seek at_end].
    destruct (push_entry _ _) as [st'|] eqn:Ep; [|done]. intros [= <-]. cbn [stack].
    split_and!; [done|done|].
    apply push_entry_inv in Ep as ->. constructor; [exists h; by eapply Forall_lookup_1|].
    constructor; [|done]. by exists (Datatypes.S h).
Qed.

Lemma iterate_forward fuel t p ds ae st d c (ret : bool) :
  entries_wf st →
  iterate (forward_step cx accept) fuel (mkCursor t st p ds ae, d) = Some (c, ret) →
  ∃ o, iterate IterOps.step fuel (st, d) = Some (o, stack c) ∧
    if ret then CursorOps.item (mkCursor t (stack c) () true false) = Some o else o = None ∧ stack c = [].
Proof.
  revert st p d. induction fuel as [|fuel IH]; intros st p d Hwf; [done|]. cbn [iterate].
  destruct (forward_step _ _ _) as [s|] eqn:Es; [|done]. cbn [mbind option_bind].
  apply step_forward in Es; [|done]. destruct s as [[c' d']|[c' [|]]].
  - destruct Es as (-> & Hc & Hwf'). rewrite Hc. cbn [mbind option_bind]. by apply IH.
  - destruct Es as (x & -> & Hx). intros [= <- <-]. by exists (Some x).
  - destruct Es as [-> Hx]. intros [= <- <-]. by exists None.
Qed.

(** [it] will yield the items [r] of its tree. Once there is none left, the
    next call starts again. *)
Definition yields it r : Prop :=
  ∃ b, tree_items (itree it) = b ++ r ∧
  match istack it with
  | [] => b = []
  | st => ∃ l x, b = l ++ [x] ∧ cursor_at cx (mkCursor (itree it) st () true false) (On l x r)
  end.

Lemma stack_on_entries root st b x r :
  stack_on (D := ()) cx root st b x r → entries_wf st.
Proof.
  intros [st' t b' a l1 y l2 p Hp _].
  constructor; [by exists 0%nat; eapply path_wf|]. clear -Hp.
  induction Hp as [|st h s cs ts b a i t p Hp IH Hi Hpos]; [constructor|].
  constructor; [|done]. cbn [etree]. exists (Datatypes.S h). by eapply path_wf.
Qed.

Lemma iter_next_ok it r :
  tree_ok cx (itree it) → (height (itree it) < STACK_CAPACITY)%nat → yields it r →
  returns (IterOps.next it) (λ '(o, it'), o = head r ∧ itree it' = itree it ∧
    match r with [] => istack it' = [] | _ :: r => yields it' r end).
Proof.
  intros Hok Hcap (b & Hit & Hst). destruct it as [t st]. cbn [itree istack] in *.
  assert (∀ sp, cursor_at cx (mkCursor t st () true false) sp →
    (ahead (mkCursor t st () true false) sp).2 = r →
    (ahead (mkCursor t st () true false) sp).1 = b → entries_wf st →
    (∃ h, wf cx h t) →
    returns (IterOps.next (mkIter t st)) (λ '(o, it'), o = head r ∧ itree it' = t ∧
      match r with [] => istack it' = [] | _ :: r => yields it' r end)) as Hgo.
  { intros sp Hat Hr Hb Hwf [h Ht].
    assert (filter_sound (T := T) cx accept) as Htrue by done.
    destruct (search_forward_ok cx accept Htrue _ sp Hat Hcap) as (c & Hc & Htc & Hatc).
    unfold forward_spot in Hatc. rewrite (surjective_pairing (ahead _ sp)), Hr, Hb in Hatc.
    assert (forward_split cx accept r = ([], r)) as E by (by destruct r).
    rewrite E in Hatc. cbn [fst snd] in Hatc. rewrite app_nil_r in Hatc.
    assert (∀ st1 d1, entries_wf st1 →
      ('(c, returned) ← iterate (forward_step cx accept) (loop_fuel t) (mkCursor t st1 () true false, d1);
       Some (if (returned : bool) then c
         else set_flags c (did_seek c) (match stack c with [] => true | _ => false end))) = Some c →
      returns ('(item, st) ← iterate IterOps.step (loop_fuel t) (st1, d1); Some (item, mkIter t st))
        (λ '(o, it'), o = head r ∧ itree it' = t ∧
           match r with [] => istack it' = [] | _ :: r => yields it' r end)) as Hend; cycle 1.
    { unfold search_forward in Hc. unfold IterOps.next. destruct st as [|e st]; cbn in Hc |- *.
      - apply Hend; [|exact Hc]. constructor; [by exists h|constructor].
      - by apply Hend. }
    intros st1 d1 Hwf1 Hc1. destruct (iterate (forward_step _ _) _ _) as [[c' ret]|] eqn:Ei; [|done].
    destruct (iterate_forward _ _ _ _ _ _ _ _ _ Hwf1 Ei) as (o & -> & Ho).
    cbn [mbind option_bind] in *. apply returns_ret. injection Hc1 as <-. cbn [tree] in Htc.
    destruct ret; cbn in Htc, Hatc.
    - destruct r as [|x r]; cbn [spot_of] in Hatc.
      + inversion Hatc as [| |_ Es Ed Ee Ep|]. rewrite Es in *. cbn in Ho. injection Ho as <-. done.
      + inversion Hatc as [| | |? ? ? Hon Ed Ee Ep]. rewrite Htc in Hon.
        assert (cursor_at cx (mkCursor t (stack c') () true false) (On b x r)) as Hat'.
        { apply at_on; [done..|]. by destruct (posn _ _ _). }
        rewrite (item_ok cx _ _ Hat') in Ho by done. injection Ho as <-. split_and!; [done|done|].
        exists (b ++ [x]). split; [by rewrite <- app_assoc|]. cbn [istack].
        destruct (stack c') as [|e st'] eqn:Es; [by inversion Hon|]. by exists b, x.
    - destruct Ho as [-> Es]. destruct r as [|x r]; [by rewrite Es|].
      inversion Hatc as [| | |? ? ? Hon]. cbn in Hon. rewrite Es in Hon. inversion Hon. }
  destruct st as [|e st].
  - subst b. cbn [app] in Hit. destruct Hok as [->|[h Hwf]].
    + cbn in Hit. subst r. by apply returns_ret.
    + apply (Hgo Before); [|done|done|constructor|by exists h].
      apply at_before; try done. by exists h.
  - destruct Hst as (l & x & -> & Hat). apply (Hgo (On l x r)); try done.
    + inversion Hat as [| | |? ? ? Hon]. by eapply stack_on_entries.
    + inversion Hat as [| | |? ? ? Hon]. by eapply stack_on_wf.
Qed.

Lemma collect_ok fuel it r :
  tree_ok cx (itree it) → (height (itree it) < STACK_CAPACITY)%nat → yields it r →
  (length r < fuel)%nat → IterOps.collect fuel it = Some r.
Proof.
  revert it r. induction fuel as [|fuel IH]; intros it r Hok Hcap Hy Hl; [lia|]. cbn [IterOps.collect].
  destruct (iter_next_ok it r Hok Hcap Hy) as ([o it'] & -> & -> & Ht & Hy'). cbn [mbind option_bind].
  destruct r as [|x r]; cbn [head]; [done|].
  rewrite (IH it' r); [done|by rewrite Ht|by rewrite Ht|done|simpl in Hl; lia].
Qed.

Lemma new_yields t : yields (IterOps.new t) (tree_items t).
Proof. by exists []. Qed.

Lemma to_list_ok t :
  tree_ok cx t → (height t < STACK_CAPACITY)%nat → IterOps.to_list t = Some (tree_items t).
Proof.
  intros Hok Hcap. apply collect_ok; [done|done|apply new_yields|by apply (weight_items cx)].
Qed.

Lemma iter_eq_ok `{!EqDecision T} fuel (i j : Iter T S) r k :
  tree_ok cx (itree i) → (height (itree i) < STACK_CAPACITY)%nat → yields i r →
  tree_ok cx (itree j) → (height (itree j) < STACK_CAPACITY)%nat → yields j k →
  (length r < fuel)%nat → IterOps.iter_eq fuel i j = Some (bool_decide (r = k)).
Proof.
  revert i j r k. induction fuel as [|fuel IH]; intros i j r k Hi Hci Hyi Hj Hcj Hyj Hl; [lia|].
  cbn [IterOps.iter_eq].
  destruct (iter_next_ok i r Hi Hci Hyi) as ([o i'] & -> & -> & Hti & Hyi').
  destruct (iter_next_ok j k Hj Hcj Hyj) as ([o j'] & -> & -> & Htj & Hyj'). cbn [mbind option_bind].
  destruct r as [|x r], k as [|y k]; cbn [head]; [by rewrite bool_decide_true by done|
    by rewrite bool_decide_false by done|by rewrite bool_decide_false by done|].
  case_bool_decide as E; [|symmetry; rewrite bool_decide_false; [done|congruence]].
  rewrite (IH i' j' r k); rewrite ?Hti, ?Htj; try done; [|simpl in Hl; lia].
  f_equal. apply bool_decide_ext. naive_solver.
Qed.

End iter.

(** ** The properties of iteration *)

(** [iter] yields the items of a tree in order, with no panic and within
    the bound of its loop; [last] is the last of them, and two trees are equal
    when their items are, whatever their shapes. *)
Theorem iter_yields_items {T S Cx : Type} `{!Summary S Cx, !Item T S Cx} (cx : Cx)
    (Hs : SummaryLaws S Cx cx) (t : Node T S) (Hok : tree_ok cx t)
    (Hcap : (height t < STACK_CAPACITY)%nat) :
  IterOps.to_list t = Some (tree_items t) ∧
  IterOps.last (IterOps.new t) = Some (list.last (tree_items t)) ∧
  ∀ `{!EqDecision T} (u : Node T S), tree_ok cx u → (height u < STACK_CAPACITY)%nat →
    IterOps.eq t u = Some (bool_decide (tree_items t = tree_items u)).
Proof.
  split_and!.
  - by apply (to_list_ok cx).
  - by apply (last_ok cx).
  - intros Heq u Hu Hcu. apply (iter_eq_ok cx); try done; [apply new_yields..|].
    by apply (weight_items cx).
Qed.

(** ** A concrete iteration *)

Module Iterating.
Import SumTree.Samples.

#[local] Existing Instances sum_summary sum_item sum_dimension.

Example iter_yields_items_witness :
  IterOps.eq sample (Leaf 3%N [1; 2]%N [1; 2]%N) = Some false ∧
  IterOps.to_list sample = Some (tree_items sample).
Proof.
  split; [by vm_compute|].
  exact (proj1 (iter_yields_items () sum_laws sample sample_ok ltac:(vm_compute; lia))).
Defined.

(** After the last item has been taken, [size_hint] still announces one. *)
Example size_hint_overestimates :
  ∃ it1 it2 it3, IterOps.next (IterOps.new sample) = Some (Some 1%N, it1) ∧
    IterOps.next it1 = Some (Some 2%N, it2) ∧ IterOps.next it2 = Some (Some 3%N, it3) ∧
    fst <$> IterOps.next it3 = Some None ∧ IterOps.size_hint it3 = Some 1%N.
Proof. do 3 eexists. by vm_compute. Qed.

End Iterating.
