(* ===== verification/KeyedTree.v ===== *)
(** * Trees sorted by key: the [KeyedItem] operations of [crates/sum_tree/src/sum_tree.rs]

    When the items carry keys and the key is a dimension of the tree, the tree
    is an ordered map. The operations are proved against the sorted list of
    items, and then as operations on a finite map. *)

From stdpp Require Import sets sorting.
From S2P Require Import Prelude SumTree SumCursor CursorSpec CursorWalk.
Import NodeOps TreeOps CursorOps.

#[local] Unset Default Proof Using.
#[local] Arguments Nat.mul : simpl never.

(** [KeyedItem]. *)
Class KeyedItem (T K : Type) := { key : T → K }.

(** [enum Edit]. *)
Inductive Edit (T K : Type) := Insert (item : T) | Remove (key : K).
Arguments Insert {T K} item.
Arguments Remove {T K} key.

(** [sort_unstable_by_key]: some permutation that is sorted by [le]. *)
Class Sorting {A} (le : A → A → Prop) (sort : list A → list A) : Prop := {
  sort_perm l : sort l ≡ₚ l;
  sort_sorted l : StronglySorted le (sort l) }.

(** ** Operations *)

Module KeyedOps.
Section KeyedOps.
Context {T S Cx K : Type} `{!Summary S Cx, !Item T S Cx, !Dimension K S Cx, !KeyedItem T K}.
Context `{!EqDecision K} (kcmp : K → K → comparison) (cx : Cx).
Implicit Types (t : Node T S) (c : Cursor T S K).

Definition insert_or_replace (self : Node T S) (item : T) : option (Node T S * option T) :=
  let cursor := CursorOps.new cx self in
  '(new_tree, cursor) ← slice cx (kcmp (key item)) BiasLeft cursor;
  cursor_item ← CursorOps.item cursor;
  '(replaced, cursor) ←
    match cursor_item with
    | Some cursor_item =>
        if bool_decide (key cursor_item = key item)
        then cursor ← next cx cursor; Some (Some cursor_item, cursor)
        else Some (None, cursor)
    | None => Some (None, cursor)
    end;
  new_tree ← push cx new_tree item;
  '(suffix, _) ← suffix cx cursor;
  new_tree ← append cx new_tree suffix;
  Some (new_tree, replaced).

Definition remove (self : Node T S) (k : K) : option (Node T S * option T) :=
  let cursor := CursorOps.new cx self in
  '(new_tree, cursor) ← slice cx (kcmp k) BiasLeft cursor;
  cursor_item ← CursorOps.item cursor;
  '(removed, cursor) ←
    match cursor_item with
    | Some item =>
        if bool_decide (key item = k)
        then cursor ← next cx cursor; Some (Some item, cursor)
        else Some (None, cursor)
    | None => Some (None, cursor)
    end;
  '(suffix, _) ← suffix cx cursor;
  new_tree ← append cx new_tree suffix;
  Some (new_tree, removed).

Definition edit_key (e : Edit T K) : K :=
  match e with Insert item => key item | Remove k => k end.

(** The variables of the loop of [edit]. *)
Record EditState := mkEditState {
  new_tree : Node T S;
  buffered_items : list T;
  removed : list T;
  cursor : Cursor T S K }.

(** One turn of [for edit in edits]. *)
Definition edit_step (st : EditState) (e : Edit T K) : option EditState :=
  let new_key := edit_key e in
  old_item ← CursorOps.item (cursor st);
  '(st, old_item) ←
    (if match old_item with
        | Some old_item => match kcmp (key old_item) new_key with Lt => true | _ => false end
        | None => false
        end
     then
       new_tree ← extend cx (new_tree st) (buffered_items st);
       '(slice, cursor) ← slice cx (kcmp new_key) BiasLeft (cursor st);
       new_tree ← append cx new_tree slice;
       old_item ← CursorOps.item cursor;
       Some (mkEditState new_tree [] (removed st) cursor, old_item)
     else Some (st, old_item));
  st ←
    match old_item with
    | Some old_item =>
        if bool_decide (key old_item = new_key) then
          cursor ← next cx (cursor st);
          Some (mkEditState (new_tree st) (buffered_items st) (removed st ++ [old_item]) cursor)
        else Some st
    | None => Some st
    end;
  Some match e with
       | Insert item => mkEditState (new_tree st) (buffered_items st ++ [item]) (removed st) (cursor st)
       | Remove _ => st
       end.

Fixpoint edit_loop (st : EditState) (edits : list (Edit T K)) : option EditState :=
  match edits with
  | [] => Some st
  | e :: edits => st ← edit_step st e; edit_loop st edits
  end.

(** The new tree and the removed items. *)
Definition edit (sort : list (Edit T K) → list (Edit T K)) (self : Node T S)
    (edits : list (Edit T K)) : option (Node T S * list T) :=
  match edits with
  | [] => Some (self, [])
  | _ =>
      let edits := sort edits in
      '(_, cursor) ← seek cx (kcmp (dzero S cx)) BiasLeft (CursorOps.new cx self);
      st ← edit_loop (mkEditState (TreeOps.new cx) [] [] cursor) edits;
      new_tree ← extend cx (new_tree st) (buffered_items st);
      '(suffix, _) ← suffix cx (KeyedOps.cursor st);
      new_tree ← append cx new_tree suffix;
      Some (new_tree, removed st)
  end.

Definition get (self : Node T S) (k : K) : option T :=
  (find_exact cx (kcmp k) BiasLeft self).2.

End KeyedOps.
End KeyedOps.
Import KeyedOps.

(** ** Sorted lists of items *)

(** What keys promise: they are ordered, no key is below the zero of the
    dimension, and after an item the dimension is the item's key. *)
Class KeyedLaws {T S Cx K : Type} `{!Summary S Cx, !Item T S Cx, !Dimension K S Cx, !KeyedItem T K}
    (kcmp : K → K → comparison) (cx : Cx) : Prop := {
  keyed_ord :: TotalOrd kcmp;
  keyed_zero (k : K) : kcmp (dzero S cx) k ≠ Gt;
  keyed_dadd (d : K) (x : T) : kcmp d (key x) ≠ Gt → dadd cx d (isummary cx x) = key x }.

Section sorted.
Context {T S Cx K : Type} `{!Summary S Cx, !Item T S Cx, !Dimension K S Cx, !KeyedItem T K}.
Context (kcmp : K → K → comparison) (cx : Cx) `{!KeyedLaws kcmp cx}.
Implicit Types (l b r m : list T) (k : K) (x y : T).

Abbreviation pos := (posn (T := T) (S := S) (D := K) cx (dzero S cx)).

Definition key_lt (x y : T) : Prop := kcmp (key x) (key y) = Lt.

(** The items are in the order of their keys, and no key occurs twice. *)
Definition ksorted (l : list T) : Prop := StronglySorted key_lt l.

Lemma ksorted_app l m :
  ksorted (l ++ m) ↔ ksorted l ∧ ksorted m ∧ ∀ x y, x ∈ l → y ∈ m → key_lt x y.
Proof.
  unfold ksorted. induction l as [|x l IH]; cbn [app].
  - split; [intros H; split_and!; [constructor|done|by intros ? ? ?%elem_of_nil]|by intros (_ & H & _)].
  - split.
    + intros [H Hx]%StronglySorted_inv. apply IH in H as (Hl & Hm & Hlm). apply Forall_app in Hx as [Hx Hxm].
      split_and!; [by constructor|done|]. intros y z [->|Hy]%elem_of_cons Hz; [|by apply Hlm].
      by eapply Forall_forall in Hxm.
    + intros ([H Hx]%StronglySorted_inv & Hm & Hlm). constructor.
      * apply IH. split_and!; [done|done|]. intros y z Hy. apply Hlm. by right.
      * apply Forall_app. split; [done|]. apply Forall_forall. intros y Hy. apply Hlm; [by left|done].
Qed.

Lemma ksorted_filter (P : T → Prop) `{!∀ x, Decision (P x)} l : ksorted l → ksorted (filter P l).
Proof.
  intros Hs. induction Hs as [|x l Hl IH Hx]; [constructor|]. rewrite filter_cons.
  destruct (decide (P x)); [|done]. constructor; [done|].
  apply Forall_forall. intros y [_ Hy]%list_elem_of_filter. by eapply Forall_forall in Hx.
Qed.

Lemma pos_last l :
  ksorted l → pos l = match list.last l with Some x => key x | None => dzero S cx end.
Proof.
  induction l as [|x l IH] using rev_ind; [done|]. intros Hs.
  apply ksorted_app in Hs as (Hl & _ & Hlx).
  rewrite posn_snoc, last_snoc, (IH Hl). apply keyed_dadd.
  destruct (list.last l) as [y|] eqn:E; [|apply keyed_zero].
  apply last_Some in E as [l' ->]. unfold key_lt in Hlx.
  rewrite Hlx; [done|by apply elem_of_app; right; left|by left].
Qed.

Lemma pos_snoc l x : ksorted (l ++ [x]) → pos (l ++ [x]) = key x.
Proof. intros Hs. by rewrite pos_last, last_snoc by done. Qed.

(** *** Seeking a key *)

Variable bias : Bias.

(** The cursor passes the items with a smaller key, and with bias right the
    item with the key too. *)
Definition passed k x : bool := skips (kcmp k) bias (key x).

Lemma passed_mono k x y : key_lt x y → passed k y = true → passed k x = true.
Proof.
  unfold passed, skips, key_lt. intros Hxy Hy.
  destruct (kcmp k (key y)) eqn:E; [| |].
  - apply (ord_eq kcmp) in E. subst k. apply (ord_gt_lt kcmp) in Hxy. by rewrite Hxy.
  - done.
  - apply (ord_gt_lt kcmp) in E. assert (kcmp (key x) k = Lt) as Hx by (by eapply (ord_lt_trans kcmp)).
    apply (ord_gt_lt kcmp) in Hx. by rewrite Hx.
Qed.

(** A target that, once it passes an item, passes the items with smaller keys. *)
Definition seekable (target : K → comparison) : Prop :=
  ∀ x y, key_lt x y → skips target bias (key y) = true → skips target bias (key x) = true.

Lemma passed_seekable k : seekable (kcmp k).
Proof. intros x y. apply passed_mono. Qed.

Section target.
Variable target : K → comparison.
Hypothesis Hseek : seekable target.

Abbreviation skipped := (λ x : T, skips target bias (key x)).

Lemma skipped_monotone b r : ksorted (b ++ r) → monotone cx target bias (pos b) r.
Proof.
  intros Hs p q Hp [s ->] Hin. rewrite <- !posn_app, !app_assoc in *.
  apply ksorted_app in Hs as (Hs & _ & _).
  destruct q as [|y q _] using rev_ind; [by rewrite app_nil_r|].
  destruct p as [|x p _] using rev_ind; [done|].
  rewrite (app_assoc b p) in *. rewrite (app_assoc (_ ++ [x]) q) in *.
  pose proof Hs as Hsx. apply ksorted_app in Hsx as (Hsy & _ & Hlt).
  apply ksorted_app in Hsy as (Hsy & _ & _).
  rewrite pos_snoc in Hin by done. rewrite pos_snoc by done.
  specialize (Hlt x y). destruct (skipped y) eqn:E; cbn beta in E.
  - apply (Hseek x) in E; [|apply Hlt; [set_solver|by left]]. by rewrite skips_inside, Hin in E.
  - rewrite skips_inside in E. by apply Bool.negb_false_iff in E.
Qed.

Lemma filter_skipped_none x r :
  ksorted (x :: r) → skipped x = false →
  filter (λ y, skipped y = true) (x :: r) = [] ∧ filter (λ y, skipped y = false) (x :: r) = x :: r.
Proof.
  intros [_ Hx]%StronglySorted_inv Hk. rewrite Forall_forall in Hx.
  assert (∀ y, y ∈ x :: r → skipped y = false) as H.
  { intros y [->|Hy]%elem_of_cons; [done|]. destruct (skipped y) eqn:E; [|done].
    by rewrite (Hseek x y (Hx y Hy) E) in Hk. }
  split; [apply filter_none; intros y Hy; by rewrite H|by apply filter_all].
Qed.

Lemma seek_split_skipped b r :
  ksorted (b ++ r) →
  seek_split cx target bias (pos b) r =
    (filter (λ x, skipped x = true) r, filter (λ x, skipped x = false) r).
Proof.
  revert b. induction r as [|x r IH]; intros b Hs; [done|]. cbn [seek_split].
  rewrite cons_middle, app_assoc in Hs. pose proof Hs as Hsx. apply ksorted_app in Hsx as (Hbx & _ & _).
  assert (dadd cx (pos b) (isummary cx x) = pos (b ++ [x])) as Hd by (by rewrite posn_snoc).
  rewrite Hd. rewrite (pos_snoc b x Hbx) at 1. destruct (skips target bias (key x)) eqn:E.
  - rewrite (IH (b ++ [x]) Hs). rewrite !filter_cons. by rewrite !decide_True, decide_False by congruence.
  - rewrite <- app_assoc in Hs. apply ksorted_app in Hs as (_ & Hs & _). cbn [app] in Hs.
    by destruct (filter_skipped_none x r Hs E) as [-> ->].
Qed.

End target.

(** The same for a key. *)
Lemma filter_passed_none k x r :
  ksorted (x :: r) → passed k x = false →
  filter (λ y, passed k y = true) (x :: r) = [] ∧ filter (λ y, passed k y = false) (x :: r) = x :: r.
Proof. apply filter_skipped_none, passed_seekable. Qed.

Lemma passed_monotone k b r : ksorted (b ++ r) → monotone cx (kcmp k) bias (pos b) r.
Proof. apply skipped_monotone, passed_seekable. Qed.

Lemma seek_split_key k b r :
  ksorted (b ++ r) →
  seek_split cx (kcmp k) bias (pos b) r =
    (filter (λ x, passed k x = true) r, filter (λ x, passed k x = false) r).
Proof. apply seek_split_skipped, passed_seekable. Qed.

End sorted.

(** ** Cursors on a sorted tree *)

Section cursors.
Context {T S Cx K : Type} `{!Summary S Cx, !Item T S Cx, !Dimension K S Cx, !KeyedItem T K}.
Context `{!EqDecision K} (kcmp : K → K → comparison) (cx : Cx).
Context `{!KeyedLaws kcmp cx, !SummaryLaws S Cx cx, !DimensionLaws K S Cx cx}.
Implicit Types (l b r m : list T) (k : K) (x y : T) (t : Node T S) (c : Cursor T S K).

Abbreviation pos := (posn (T := T) (S := S) (D := K) cx (dzero S cx)).
Abbreviation ksorted := (ksorted (T := T) kcmp).
Abbreviation ahead_of k bias r := (filter (λ x, passed kcmp bias k x = false) r).
Abbreviation behind_of k bias r := (filter (λ x, passed kcmp bias k x = true) r).

(** A map: a well-formed tree of items in the order of their keys, that a
    cursor's stack can hold. *)
Definition keyed_ok t : Prop :=
  tree_ok cx t ∧ ksorted (tree_items t) ∧ (height t < STACK_CAPACITY)%nat.

(** [c] is between the items [b] and [r] of a map. *)
Definition between t c b r : Prop :=
  ready cx c (spot_of b r) ∧ tree c = t ∧ tree_items t = b ++ r ∧ ksorted (b ++ r).

Lemma spot_of_start c b r : tree_items (tree c) = b ++ r → spot_start c (spot_of b r) = b.
Proof. destruct r; simpl; [|done]. by rewrite app_nil_r. Qed.

Lemma spot_of_rest c b r : spot_rest c (spot_of b r) = r.
Proof. by destruct r. Qed.

Lemma ready_spot_of c b r :
  cursor_at cx c (spot_of b r) → (height (tree c) < STACK_CAPACITY)%nat → ready cx c (spot_of b r).
Proof. intros Hat Hcap. split_and!; [done|by destruct r|done]. Qed.

Lemma target_not_lt k b :
  ksorted b → (∀ x, x ∈ b → kcmp (key x) k ≠ Gt) → kcmp k (pos b) ≠ Lt.
Proof.
  intros Hs Hb. rewrite (pos_last kcmp) by done.
  destruct (list.last b) as [x|] eqn:E.
  - apply last_Some in E as [l ->]. rewrite <- (ord_gt_lt kcmp). apply Hb. set_solver.
  - rewrite <- (ord_gt_lt kcmp). apply (keyed_zero (T := T)).
Qed.

Section target.
Variable target : K → comparison.
Variable bias : Bias.
Hypothesis Hseek : seekable (T := T) kcmp bias target.
Hypothesis Hzero : target (dzero S cx) ≠ Lt.

Abbreviation skipped := (λ x : T, skips target bias (key x)).

Lemma between_split t c :
  keyed_ok t → tree c = t →
  cursor_at cx c (spot_of (seek_split cx target bias (pos []) (tree_items t)).1
                          (seek_split cx target bias (pos []) (tree_items t)).2) →
  between t c (filter (λ x, skipped x = true) (tree_items t))
              (filter (λ x, skipped x = false) (tree_items t)).
Proof.
  intros (Hok & Hs & Hcap) Ht.
  pose proof (seek_split_app cx target bias (pos []) (tree_items t)) as Happ. revert Happ.
  rewrite (seek_split_skipped kcmp cx bias target Hseek []) by done. cbn [fst snd].
  intros Happ Hat. unfold between. rewrite Happ. split_and!; try done.
  apply ready_spot_of; [done|by rewrite Ht].
Qed.

Lemma between_fresh_target t :
  keyed_ok t →
  returns (slice cx target bias (CursorOps.new cx t)) (λ '(s, c),
    tree_ok cx s ∧ tree_items s = filter (λ x, skipped x = true) (tree_items t) ∧
    between t c (filter (λ x, skipped x = true) (tree_items t))
                (filter (λ x, skipped x = false) (tree_items t))).
Proof.
  intros Hk. pose proof Hk as (Hok & Hs & Hcap). eapply returns_mono.
  - apply (slice_ok cx target bias (CursorOps.new cx t) Fresh); [by apply new_ready|done|].
    by apply (skipped_monotone kcmp cx bias target Hseek []).
  - intros [s c]. cbn [spot_start spot_rest tree CursorOps.new].
    pose proof (between_split t c Hk) as Hb. revert Hb.
    rewrite (seek_split_skipped kcmp cx bias target Hseek []) by done. cbn [fst snd app].
    intros Hb (Hs1 & Hs2 & Ht & Hat). split_and!; [done..|by apply Hb].
Qed.

Lemma between_seek_target t c sp :
  keyed_ok t → ready cx c sp → tree c = t →
  returns (seek cx target bias c) (λ '(_, c'),
    between t c' (filter (λ x, skipped x = true) (tree_items t))
                 (filter (λ x, skipped x = false) (tree_items t))).
Proof.
  intros Hk Hr <-. pose proof Hk as (Hok & Hs & Hcap). eapply returns_mono.
  - apply (seek_ok cx target bias c sp); [done|done|].
    by apply (skipped_monotone kcmp cx bias target Hseek []).
  - intros [f c'] Hc. pose proof (between_split (tree c) c' Hk) as Hb.
    rewrite (surjective_pairing (seek_split _ _ _ _ _)) in Hc. destruct Hc as (Ht & Hat & _). by apply Hb.
Qed.

End target.

Lemma key_target_zero k : kcmp k (dzero S cx) ≠ Lt.
Proof. rewrite <- (ord_gt_lt kcmp). apply (keyed_zero (T := T)). Qed.

Lemma between_fresh t k bias :
  keyed_ok t →
  returns (slice cx (kcmp k) bias (CursorOps.new cx t)) (λ '(s, c),
    tree_ok cx s ∧ tree_items s = behind_of k bias (tree_items t) ∧
    between t c (behind_of k bias (tree_items t)) (ahead_of k bias (tree_items t))).
Proof. apply between_fresh_target; [apply (passed_seekable kcmp cx)|apply key_target_zero]. Qed.

Lemma between_seek t k bias :
  keyed_ok t →
  returns (seek cx (kcmp k) bias (CursorOps.new cx t)) (λ '(_, c),
    between t c (behind_of k bias (tree_items t)) (ahead_of k bias (tree_items t))).
Proof.
  intros Hk. pose proof Hk as (Hok & Hs & Hcap).
  eapply between_seek_target; [apply (passed_seekable kcmp cx)|apply key_target_zero|done|by apply new_ready|done].
Qed.

Lemma between_slice t c b r k bias :
  between t c b r → (∀ x, x ∈ b → kcmp (key x) k ≠ Gt) →
  returns (slice cx (kcmp k) bias c) (λ '(s, c'),
    tree_ok cx s ∧ tree_items s = behind_of k bias r ∧
    between t c' (b ++ behind_of k bias r) (ahead_of k bias r)).
Proof.
  intros (Hr & Ht & Hit & Hs) Hb. pose proof Hr as (Hat & _ & Hcap).
  assert (spot_start c (spot_of b r) = b) as Hstart by (apply spot_of_start; by rewrite Ht).
  eapply returns_mono.
  - apply (slice_ok cx (kcmp k) bias c (spot_of b r)); [done| |].
    + change (kcmp k (CursorOps.start c) ≠ Lt). rewrite (start_ok cx c _ Hat), Hstart.
      apply target_not_lt; [by apply ksorted_app in Hs as (? & _)|done].
    + rewrite Hstart, spot_of_rest. by apply (passed_monotone kcmp).
  - intros [s c']. rewrite Hstart, spot_of_rest.
    pose proof (seek_split_app cx (kcmp k) bias (pos b) r) as Happ. revert Happ.
    rewrite (seek_split_key kcmp) by done. cbn [fst snd].
    intros Happ (Hs1 & Hs2 & Ht' & Hat'). split_and!; [done..|].
    unfold between. rewrite <- app_assoc, Happ. split_and!; try done.
    + apply ready_spot_of; [done|by rewrite Ht'].
    + by rewrite Ht'.
Qed.

Lemma between_item t c b r : between t c b r → CursorOps.item c = Some (head r).
Proof.
  intros ((Hat & _) & _). rewrite (item_ok cx c _ Hat (spot_of_not_fresh _ _)). by destruct r.
Qed.

Lemma between_end t c b r :
  between t c b r → end_ cx c = Some (pos (b ++ option_list (head r))).
Proof.
  intros ((Hat & _) & Ht & Hit & _). rewrite (end_ok cx c _ Hat (spot_of_not_fresh _ _)).
  rewrite spot_of_start by (by rewrite Ht). by destruct r.
Qed.

Lemma between_next t c b x r :
  between t c b (x :: r) → returns (next cx c) (λ c', between t c' (b ++ [x]) r).
Proof.
  intros ((Hat & _ & Hcap) & Ht & Hit & Hs).
  eapply returns_mono; [by apply (next_ok cx c b x r)|]. intros c' [Ht' Hat'].
  unfold between. rewrite <- app_assoc. split_and!; try done; [|by rewrite Ht'].
  apply ready_spot_of; [done|by rewrite Ht'].
Qed.

Lemma between_suffix t c b r :
  between t c b r → returns (suffix cx c) (λ '(s, _), tree_ok cx s ∧ tree_items s = r).
Proof.
  intros (Hr & _). eapply returns_mono; [by apply (suffix_ok cx c _ Hr)|].
  intros [s c']. rewrite spot_of_rest. by intros (? & ? & _).
Qed.

(** [for item in cursor]: one turn. *)
Lemma between_iter_next t c b r :
  between t c b r →
  returns (CursorOps.iter_next cx (λ _, true) c) (λ '(o, c'), o = head r ∧
    match r with [] => True | x :: r' => between t c' (b ++ [x]) r' end).
Proof.
  intros Hb. pose proof Hb as ((Hat & _) & _). unfold CursorOps.iter_next.
  assert (did_seek c = true) as -> by (by destruct r; inversion Hat).
  cbn [mbind option_bind]. rewrite (between_item _ _ _ _ Hb). cbn [mbind option_bind].
  destruct r as [|x r]; cbn [head]; [by apply returns_ret|].
  eapply returns_bind; [exact (between_next _ _ _ _ _ Hb)|]. intros c' Hc'. by apply returns_ret.
Qed.

(** *** Splitting a sorted list at a key *)

Lemma passed_left k x : passed kcmp BiasLeft k x = true ↔ kcmp (key x) k = Lt.
Proof.
  unfold passed, skips. rewrite <- (ord_gt_lt kcmp). by destruct (kcmp k (key x)).
Qed.

Lemma passed_right k x : passed kcmp BiasRight k x = true ↔ kcmp (key x) k ≠ Gt.
Proof.
  unfold passed, skips. rewrite (ord_gt_lt kcmp). by destruct (kcmp k (key x)).
Qed.

Lemma elem_of_passed k bias x r :
  x ∈ r ↔ x ∈ behind_of k bias r ∨ x ∈ ahead_of k bias r.
Proof. rewrite !list_elem_of_filter. destruct (passed kcmp bias k x); naive_solver. Qed.

(** What is left when the item with the key [k], if there is one, is dropped. *)
Definition drop_key k r : option T * list T :=
  match r with
  | x :: r' => if bool_decide (key x = k) then (Some x, r') else (None, r)
  | [] => (None, r)
  end.

Lemma drop_key_ahead k r :
  ksorted r → (∀ x, x ∈ r → passed kcmp BiasLeft k x = false) →
  (∀ x, (drop_key k r).1 = Some x ↔ x ∈ r ∧ key x = k) ∧
  (drop_key k r).2 = filter (λ x, key x ≠ k) r ∧
  (∀ x, x ∈ (drop_key k r).2 → kcmp k (key x) = Lt).
Proof.
  intros Hs Hr. destruct r as [|x r]; [split_and!; [set_solver|done|set_solver]|]. simpl.
  pose proof Hs as [_ Hx]%StronglySorted_inv. rewrite Forall_forall in Hx. unfold key_lt in Hx.
  assert (∀ y, y ∈ x :: r → key y ≠ k → kcmp k (key y) = Lt) as Hlt.
  { intros y Hy Hk. specialize (Hr y Hy). unfold passed, skips in Hr.
    destruct (kcmp k (key y)) eqn:E; try done. apply (ord_eq kcmp) in E. congruence. }
  assert (∀ y, y ∈ r → key x = k → key y ≠ k) as Hne.
  { intros y Hy <- E. specialize (Hx y Hy). rewrite E, (ord_refl kcmp) in Hx. done. }
  case_bool_decide as E; cbn [fst snd].
  - rewrite filter_cons_False by tauto. rewrite filter_all by (intros y Hy; by apply Hne).
    split_and!; [|done|].
    + intros y. rewrite elem_of_cons. split; [intros [= <-]; auto|]. intros [[->|Hy] Hk]; [done|].
      by destruct (Hne y Hy E).
    + intros y Hy. apply Hlt; [by right|by apply Hne].
  - assert (∀ y, y ∈ x :: r → key y ≠ k) as Hall.
    { intros y [->|Hy]%elem_of_cons Hk; [done|]. specialize (Hx y Hy).
      specialize (Hlt x ltac:(left) E). rewrite <- Hk in Hlt.
      apply (ord_gt_lt kcmp) in Hlt. congruence. }
    rewrite filter_all by done. split_and!; [|done|].
    + intros y. split; [done|]. intros [Hy Hk]. by destruct (Hall y).
    + intros y Hy. by apply Hlt, Hall.
Qed.

(** The code that takes the cursor's item when it has the key. *)
Lemma between_take {A} t c b r k (f : T → A) :
  between t c b r →
  returns (match head r with
           | Some x => if bool_decide (key x = k)
                       then cursor ← next cx c; Some (Some (f x), cursor)
                       else Some (None, c)
           | None => Some (None, c)
           end) (λ '(o, c'), o = f <$> (drop_key k r).1 ∧ ∃ b', between t c' b' (drop_key k r).2).
Proof.
  intros Hb. destruct r as [|x r]; simpl.
  { apply returns_ret. split; [done|]. by exists b. }
  case_bool_decide as E; [|apply returns_ret; split; [done|by exists b]].
  eapply returns_bind; [exact (between_next _ _ _ _ _ Hb)|]. intros c' Hc'. apply returns_ret.
  split; [done|by exists (b ++ [x])].
Qed.

Lemma ksorted_insert b x r :
  ksorted b → ksorted r → (∀ y, y ∈ b → kcmp (key y) (key x) = Lt) →
  (∀ y, y ∈ r → kcmp (key x) (key y) = Lt) → ksorted (b ++ [x] ++ r).
Proof.
  intros Hb Hr Hbx Hxr. apply ksorted_app. split_and!; [done| |].
  - constructor; [done|]. by apply Forall_forall.
  - intros y z Hy [->|Hz]%elem_of_cons; [by apply Hbx|].
    unfold key_lt. eapply (ord_lt_trans kcmp); [by apply Hbx|by apply Hxr].
Qed.

(** *** The operations on the list *)

Abbreviation below k r := (behind_of k BiasLeft r).
Abbreviation above k r := (filter (λ x, key x ≠ k) (ahead_of k BiasLeft r)).

Lemma ahead_drop k r :
  ksorted r →
  (∀ x, (drop_key k (ahead_of k BiasLeft r)).1 = Some x ↔ x ∈ r ∧ key x = k) ∧
  (drop_key k (ahead_of k BiasLeft r)).2 = above k r ∧
  (∀ x, x ∈ above k r → kcmp k (key x) = Lt).
Proof.
  intros Hs. destruct (drop_key_ahead k (ahead_of k BiasLeft r)) as (H1 & H2 & H3).
  { by apply (ksorted_filter kcmp). }
  { intros x [? _]%list_elem_of_filter. done. }
  rewrite H2 in H3. split_and!; [|done|done]. intros x. rewrite H1, list_elem_of_filter.
  split; [naive_solver|]. intros [Hx <-]. split_and!; try done.
  apply Bool.not_true_is_false. rewrite passed_left, (ord_refl kcmp). done.
Qed.

Lemma insert_or_replace_ok t x :
  keyed_ok t →
  returns (insert_or_replace kcmp cx t x) (λ '(u, o),
    tree_ok cx u ∧ ksorted (tree_items u) ∧
    tree_items u = below (key x) (tree_items t) ++ [x] ++ above (key x) (tree_items t) ∧
    ∀ y, o = Some y ↔ y ∈ tree_items t ∧ key y = key x).
Proof.
  intros Hok. pose proof Hok as (_ & Hs & _). destruct (ahead_drop (key x) _ Hs) as (Hd1 & Hd2 & Hd3).
  unfold insert_or_replace. eapply returns_bind; [by apply (between_fresh t (key x) BiasLeft)|].
  intros [nt c] (Hn & Hni & Hc). rewrite (between_item _ _ _ _ Hc). cbn [mbind option_bind].
  eapply returns_bind; [exact (between_take t c _ _ (key x) id Hc)|].
  intros [o c'] [-> [b' Hc']]. rewrite Hd2 in Hc'.
  eapply returns_bind; [by apply push_ok|]. intros nt1 [Hn1 Hni1].
  eapply returns_bind; [exact (between_suffix _ _ _ _ Hc')|]. intros [s c''] [Hsx Hsi].
  eapply returns_bind; [by apply (append_ok cx)|]. intros u [Hu Hui]. apply returns_ret.
  assert (tree_items u = below (key x) (tree_items t) ++ [x] ++ above (key x) (tree_items t)) as E.
  { by rewrite Hui, Hni1, Hni, Hsi, <- app_assoc. }
  rewrite option_fmap_id. split_and!; [done| |done|done].
  rewrite E. apply ksorted_insert; [by apply (ksorted_filter kcmp)| | |done].
  - by apply (ksorted_filter kcmp), (ksorted_filter kcmp).
  - intros y [Hy _]%list_elem_of_filter. by apply passed_left.
Qed.

Lemma remove_ok t k :
  keyed_ok t →
  returns (remove kcmp cx t k) (λ '(u, o),
    tree_ok cx u ∧ tree_items u = filter (λ y, key y ≠ k) (tree_items t) ∧
    ∀ y, o = Some y ↔ y ∈ tree_items t ∧ key y = k).
Proof.
  intros Hok. pose proof Hok as (_ & Hs & _). destruct (ahead_drop k _ Hs) as (Hd1 & Hd2 & Hd3).
  unfold remove. eapply returns_bind; [by apply (between_fresh t k BiasLeft)|].
  intros [nt c] (Hn & Hni & Hc). rewrite (between_item _ _ _ _ Hc). cbn [mbind option_bind].
  eapply returns_bind; [exact (between_take t c _ _ k id Hc)|].
  intros [o c'] [-> [b' Hc']]. rewrite Hd2 in Hc'.
  eapply returns_bind; [exact (between_suffix _ _ _ _ Hc')|]. intros [s c''] [Hsx Hsi].
  eapply returns_bind; [by apply (append_ok cx)|]. intros u [Hu Hui]. apply returns_ret.
  rewrite option_fmap_id. split_and!; [done| |done].
  destruct Hc as (_ & _ & Hit & _). rewrite Hui, Hni, Hsi.
  trans (filter (λ y, key y ≠ k) (below k (tree_items t) ++ ahead_of k BiasLeft (tree_items t)));
    [|by rewrite <- Hit].
  rewrite filter_app. f_equal. symmetry. apply filter_all.
  intros y [Hy _]%list_elem_of_filter <-. apply passed_left in Hy. by rewrite (ord_refl kcmp) in Hy.
Qed.

End cursors.

(** ** Batches of edits *)

Section edit.
Context {T S Cx K : Type} `{!Summary S Cx, !Item T S Cx, !Dimension K S Cx, !KeyedItem T K}.
Context `{!EqDecision K} (kcmp : K → K → comparison) (cx : Cx).
Context `{!KeyedLaws kcmp cx, !SummaryLaws S Cx cx, !DimensionLaws K S Cx cx}.
Implicit Types (l b r m : list T) (k : K) (x y : T) (t : Node T S) (c : Cursor T S K).
Implicit Types (e : Edit T K) (es : list (Edit T K)) (st : EditState (T := T) (S := S) (K := K)).

Abbreviation ksorted := (ksorted (T := T) kcmp).
Abbreviation keyed_ok := (keyed_ok kcmp cx).
Abbreviation ahead_of k r := (filter (λ x, passed kcmp BiasLeft k x = false) r).
Abbreviation behind_of k r := (filter (λ x, passed kcmp BiasLeft k x = true) r).

Definition inserted e : list T := match e with Insert x => [x] | Remove _ => [] end.

Definition edit_le (e e' : Edit T K) : Prop := kcmp (edit_key e) (edit_key e') ≠ Gt.

(** A batch, in order, on a sorted list: the new list and what it replaces. *)
Fixpoint edit_items r es : list T * list T :=
  match es with
  | [] => (r, [])
  | e :: es =>
      let '(o, r') := drop_key (edit_key e) (ahead_of (edit_key e) r) in
      let '(out, removed) := edit_items r' es in
      (behind_of (edit_key e) r ++ inserted e ++ out, option_list o ++ removed)
  end.

(** The state of the loop: [b] is behind the cursor, [r] ahead of it. *)
Definition editing (t : Node T S) st b r : Prop :=
  tree_ok cx (new_tree st) ∧ between kcmp cx t (cursor st) b r.

(** [done] items and [gone] ones: what the state has produced so far. *)
Definition produced st : list T := tree_items (new_tree st) ++ buffered_items st.

Lemma editing_flush t st b r e :
  editing t st b r → (∀ x, x ∈ b → kcmp (key x) (edit_key e) ≠ Gt) →
  returns
    (if match head r with
        | Some old_item => match kcmp (key old_item) (edit_key e) with Lt => true | _ => false end
        | None => false
        end
     then
       new_tree ← extend cx (new_tree st) (buffered_items st);
       '(slice, cursor) ← slice cx (kcmp (edit_key e)) BiasLeft (cursor st);
       new_tree ← append cx new_tree slice;
       old_item ← CursorOps.item cursor;
       Some (mkEditState new_tree [] (removed st) cursor, old_item)
     else Some (st, head r)) (λ '(st', o),
    o = head (ahead_of (edit_key e) r) ∧ removed st' = removed st ∧
    produced st' = produced st ++ behind_of (edit_key e) r ∧
    editing t st' (b ++ behind_of (edit_key e) r) (ahead_of (edit_key e) r)).
Proof.
  intros [Hn Hb] Hbe. pose proof Hb as (_ & _ & _ & Hs). apply (ksorted_app kcmp) in Hs as (_ & Hs & _).
  destruct r as [|x r].
  { apply returns_ret. cbn [head]. unfold filter. simpl. rewrite !app_nil_r. done. }
  cbn [head]. destruct (passed kcmp BiasLeft (edit_key e) x) eqn:E.
  - pose proof E as E'. rewrite (passed_left kcmp cx) in E'. rewrite E'.
    eapply returns_bind; [by apply (extend_ok cx)|]. intros nt1 [Hn1 Hi1].
    eapply returns_bind; [exact (between_slice kcmp cx t _ b (x :: r) (edit_key e) BiasLeft Hb Hbe)|].
    intros [s c] (Hs1 & Hsi & Hc).
    eapply returns_bind; [by apply (append_ok cx)|]. intros nt2 [Hn2 Hi2].
    rewrite (between_item kcmp cx _ _ _ _ Hc). apply returns_ret.
    split_and!; [done|done| |by split]. unfold produced. cbn [new_tree buffered_items].
    by rewrite Hi2, Hi1, Hsi, app_nil_r, <- app_assoc.
  - assert (match kcmp (key x) (edit_key e) with Lt => true | _ => false end = false) as ->.
    { destruct (kcmp (key x) (edit_key e)) eqn:E'; [done| |done].
      apply (passed_left kcmp cx) in E'. congruence. }
    destruct (filter_passed_none kcmp cx BiasLeft (edit_key e) x r Hs E) as [-> ->].
    apply returns_ret. rewrite !app_nil_r. by split_and!.
Qed.

Lemma editing_take t st b r k :
  editing t st b r → (∀ x, x ∈ b → kcmp (key x) k ≠ Gt) →
  returns
    (match head r with
     | Some old_item =>
         if bool_decide (key old_item = k) then
           cursor ← next cx (cursor st);
           Some (mkEditState (new_tree st) (buffered_items st) (removed st ++ [old_item]) cursor)
         else Some st
     | None => Some st
     end) (λ st',
    removed st' = removed st ++ option_list (drop_key k r).1 ∧ produced st' = produced st ∧
    ∃ b', editing t st' b' (drop_key k r).2 ∧ ∀ x, x ∈ b' → kcmp (key x) k ≠ Gt).
Proof.
  intros [Hn Hb] Hbk. destruct r as [|x r]; simpl.
  { apply returns_ret. rewrite app_nil_r. split_and!; [done|done|]. by exists b. }
  case_bool_decide as E; cycle 1.
  { apply returns_ret. rewrite app_nil_r. split_and!; [done|done|]. by exists b. }
  eapply returns_bind; [exact (between_next kcmp cx _ _ _ _ _ Hb)|]. intros c Hc. apply returns_ret.
  split_and!; [done|done|]. exists (b ++ [x]). split; [by split|].
  intros y [Hy| ->%list_elem_of_singleton]%elem_of_app; [by apply Hbk|].
  by rewrite E, (ord_refl kcmp).
Qed.

Lemma edit_step_ok t st b r e :
  editing t st b r → (∀ x, x ∈ b → kcmp (key x) (edit_key e) ≠ Gt) →
  let '(o, r') := drop_key (edit_key e) (ahead_of (edit_key e) r) in
  returns (edit_step kcmp cx st e) (λ st',
    removed st' = removed st ++ option_list o ∧
    produced st' = produced st ++ behind_of (edit_key e) r ++ inserted e ∧
    ∃ b', editing t st' b' r' ∧ ∀ x, x ∈ b' → kcmp (key x) (edit_key e) ≠ Gt).
Proof.
  intros Hst Hbe. destruct (drop_key _ _) as [o r'] eqn:Ed.
  pose proof Hst as [_ Hb]. unfold edit_step. rewrite (between_item kcmp cx _ _ _ _ Hb).
  cbn [mbind option_bind]. eapply returns_bind; [by apply (editing_flush t st b r e)|].
  intros [st1 o1] (-> & Hr1 & Hp1 & Hst1).
  assert (∀ x, x ∈ b ++ behind_of (edit_key e) r → kcmp (key x) (edit_key e) ≠ Gt) as Hbe1.
  { intros x [Hx|[Hx _]%list_elem_of_filter]%elem_of_app; [by apply Hbe|].
    apply (passed_left kcmp cx) in Hx. by rewrite Hx. }
  eapply returns_bind; [by apply (editing_take t st1 _ _ (edit_key e) Hst1)|]. rewrite Ed. cbn [fst snd].
  intros st2 (Hr2 & Hp2 & b' & [Hn2 Hb2] & Hbe2). apply returns_ret.
  rewrite Hr1 in Hr2. rewrite Hp1 in Hp2. destruct e as [x|k]; cbn [inserted].
  - split_and!; [done| |by exists b']. unfold produced in *. cbn [new_tree buffered_items].
    by rewrite app_assoc, Hp2, <- app_assoc.
  - rewrite app_nil_r. split_and!; [done|done|by exists b'].
Qed.

Lemma edit_loop_ok t es st b r :
  editing t st b r → (∀ x e, x ∈ b → e ∈ es → kcmp (key x) (edit_key e) ≠ Gt) →
  StronglySorted edit_le es →
  returns (edit_loop kcmp cx st es) (λ st', ∃ b' r',
    editing t st' b' r' ∧ produced st' ++ r' = produced st ++ (edit_items r es).1 ∧
    removed st' = removed st ++ (edit_items r es).2).
Proof.
  revert st b r. induction es as [|e es IH]; intros st b r Hst Hbe Hs.
  { apply returns_ret. exists b, r. rewrite app_nil_r. done. }
  apply StronglySorted_inv in Hs as [Hs He]. rewrite Forall_forall in He.
  cbn [edit_loop edit_items]. pose proof (edit_step_ok t st b r e Hst) as Hstep.
  destruct (drop_key _ _) as [o r1]. eapply returns_bind; [apply Hstep; intros x Hx; apply Hbe; [done|left]|].
  intros st1 (Hr1 & Hp1 & b1 & Hst1 & Hb1).
  eapply returns_mono; [apply (IH st1 b1 r1 Hst1); [|done]|].
  - intros x e' Hx He'. specialize (Hb1 x Hx). specialize (He e' He'). unfold edit_le in He.
    destruct (kcmp (edit_key e) (edit_key e')) eqn:E; [| |done].
    + apply (ord_eq kcmp) in E. by rewrite <- E.
    + by rewrite (ord_le_lt_trans kcmp _ _ _ Hb1 E).
  - intros st' (b' & r' & Hst' & Hp' & Hr'). destruct (edit_items r1 es) as [out rem].
    exists b', r'. split_and!; [done| |].
    + rewrite Hp', Hp1. cbn [fst]. by rewrite <- !app_assoc.
    + rewrite Hr', Hr1. cbn [snd]. by rewrite <- app_assoc.
Qed.

Lemma edit_ok sort t es :
  Sorting edit_le sort → keyed_ok t → es ≠ [] →
  returns (KeyedOps.edit kcmp cx sort t es) (λ '(u, removed),
    tree_ok cx u ∧ (tree_items u, removed) = edit_items (tree_items t) (sort es)).
Proof.
  intros Hsort Hok Hne. unfold KeyedOps.edit. destruct es as [|e0 es0]; [done|].
  generalize (e0 :: es0). clear Hne e0 es0. intros es.
  eapply returns_bind; [by apply (between_seek kcmp cx t (dzero S cx) BiasLeft)|].
  intros [f c] Hc. pose proof Hok as (Hok' & Hs & Hcap).
  assert (behind_of (dzero S cx) (tree_items t) = []) as Hnil.
  { apply filter_none. intros x _ Hx. apply (passed_left kcmp cx) in Hx.
    apply (ord_gt_lt kcmp) in Hx. by apply (keyed_zero (T := T)) in Hx. }
  pose proof Hc as (_ & _ & Hit & _). rewrite Hnil in Hc, Hit. cbn [app] in Hit. rewrite <- Hit in Hc.
  eapply returns_bind.
  { apply (edit_loop_ok t (sort es) (mkEditState (TreeOps.new cx) [] [] c) [] (tree_items t)).
    - split; [by left|done].
    - by intros x e ?%elem_of_nil.
    - apply sort_sorted. }
  intros st' (b' & r' & [Hn' Hb'] & Hp' & Hr'). cbn [app produced new_tree buffered_items removed] in *.
  eapply returns_bind; [by apply (extend_ok cx)|]. intros nt [Hn Hni].
  eapply returns_bind; [exact (between_suffix kcmp cx _ _ _ _ Hb')|]. intros [s c'] [Hsx Hsi].
  eapply returns_bind; [by apply (append_ok cx)|]. intros u [Hu Hui]. apply returns_ret.
  split; [done|]. rewrite Hui, Hni, Hsi, Hr'. unfold produced in Hp'. cbn in Hp'.
  rewrite Hp'. by destruct (edit_items _ _).
Qed.

End edit.

(** ** As a finite map *)

Section map.
Context {T S Cx K : Type} `{!Summary S Cx, !Item T S Cx, !Dimension K S Cx, !KeyedItem T K}.
Context `{!EqDecision K} (kcmp : K → K → comparison) (cx : Cx).
Context `{!KeyedLaws kcmp cx, !SummaryLaws S Cx cx, !DimensionLaws K S Cx cx}.
Implicit Types (l b r m : list T) (k : K) (x y : T) (t : Node T S).
Implicit Types (e : Edit T K) (es : list (Edit T K)).

Abbreviation ksorted := (ksorted (T := T) kcmp).
Abbreviation keyed_ok := (keyed_ok kcmp cx).

(** The item with the key [k], as a linear search finds it. *)
Definition lookup_key k l : option T := head (filter (λ x, key x = k) l).

Lemma ksorted_key_inj l x y : ksorted l → x ∈ l → y ∈ l → key x = key y → x = y.
Proof.
  intros Hs Hx Hy Hk. induction Hs as [|z l Hl IH Hz]; [by apply elem_of_nil in Hx|].
  rewrite Forall_forall in Hz. unfold key_lt in Hz.
  apply elem_of_cons in Hx as [->|Hx], Hy as [->|Hy]; [done| | |by apply IH].
  - specialize (Hz y Hy). by rewrite Hk, (ord_refl kcmp) in Hz.
  - specialize (Hz x Hx). by rewrite Hk, (ord_refl kcmp) in Hz.
Qed.

Lemma ksorted_ext l m : ksorted l → ksorted m → (∀ x, x ∈ l ↔ x ∈ m) → l = m.
Proof.
  intros Hl. revert m. induction Hl as [|x l Hl IH Hx]; intros m Hm Hlm.
  { destruct m as [|y m]; [done|]. specialize (Hlm y). set_solver. }
  destruct m as [|y m]; [specialize (Hlm x); set_solver|].
  apply StronglySorted_inv in Hm as [Hm Hy]. rewrite Forall_forall in Hx, Hy. unfold key_lt in Hx, Hy.
  assert (∀ a b : T, kcmp (key a) (key b) = Lt → kcmp (key b) (key a) = Lt → False) as Hasym.
  { intros a b Hab Hba. apply (ord_gt_lt kcmp) in Hba. congruence. }
  assert (∀ a : T, kcmp (key a) (key a) = Lt → False) as Hirr by (intros a; by rewrite (ord_refl kcmp)).
  assert (x = y) as ->.
  { pose proof (Hlm x) as H1. pose proof (Hlm y) as H2. rewrite !elem_of_cons in H1, H2.
    destruct (proj1 H1 ltac:(by left)) as [?|Hxm]; [done|].
    destruct (proj2 H2 ltac:(by left)) as [?|Hyl]; [done|].
    exfalso. by eapply Hasym; [apply Hx|apply Hy]. }
  f_equal. apply IH; [done|]. intros z. specialize (Hlm z). rewrite !elem_of_cons in Hlm.
  split; intros Hz.
  - destruct (proj1 Hlm ltac:(by right)) as [->|?]; [|done]. exfalso. by eapply Hirr, Hx.
  - destruct (proj2 Hlm ltac:(by right)) as [->|?]; [|done]. exfalso. by eapply Hirr, Hy.
Qed.

Lemma lookup_key_Some l k x : ksorted l → lookup_key k l = Some x ↔ x ∈ l ∧ key x = k.
Proof.
  intros Hs. unfold lookup_key. split.
  - intros Hh. apply head_Some_elem_of, list_elem_of_filter in Hh. tauto.
  - intros [Hx Hk]. assert (x ∈ filter (λ x, key x = k) l) as Hxl by (by apply list_elem_of_filter).
    destruct (filter _ l) as [|y l'] eqn:E; [by apply elem_of_nil in Hxl|].
    assert (y ∈ filter (λ x, key x = k) l) as [Hky Hy]%list_elem_of_filter by (rewrite E; left).
    simpl. f_equal. apply (ksorted_key_inj l); [done..|congruence].
Qed.

Lemma lookup_key_ext l k o :
  ksorted l → (∀ x, o = Some x ↔ x ∈ l ∧ key x = k) → o = lookup_key k l.
Proof. intros Hs Ho. apply option_eq. intros x. by rewrite Ho, lookup_key_Some. Qed.

(** *** [get] *)

Lemma scan_key k b r :
  ksorted (b ++ r) →
  (scan cx (kcmp k) BiasLeft false (posn cx (dzero S cx : K) b) r).1 =
    (λ x, (x, key x)) <$> head (filter (λ x, passed kcmp BiasLeft k x = false) r).
Proof.
  revert b. induction r as [|x r IH]; intros b Hs; [done|].
  rewrite cons_middle, app_assoc in Hs. pose proof Hs as Hsx. apply (ksorted_app kcmp) in Hsx as (Hbx & _ & _).
  rewrite scan_cons. cbn [entry_found].
  assert (dadd cx (posn cx (dzero S cx : K) b) (isummary cx x) = posn cx (dzero S cx) (b ++ [x])) as ->
    by (by rewrite posn_snoc).
  specialize (IH (b ++ [x]) Hs). rewrite (pos_snoc kcmp cx b x Hbx) in *.
  assert (passed kcmp BiasLeft k x = negb (target_in_child (kcmp k) BiasLeft (key x))) as Hp
    by (unfold passed, skips, target_in_child; by destruct (kcmp k (key x))).
  destruct (target_in_child (kcmp k) BiasLeft (key x)).
  - rewrite filter_cons_True by done. done.
  - rewrite filter_cons_False by (by rewrite Hp). exact IH.
Qed.

Lemma strict_monotone k b r :
  ksorted (b ++ r) → strictly_monotone cx (kcmp k) (posn cx (dzero S cx : K) b) r.
Proof.
  intros Hs p q Hp [s ->] Hlt. rewrite <- !(posn_app cx), !app_assoc in *.
  apply (ksorted_app kcmp) in Hs as (Hs & _ & _).
  destruct q as [|y q _] using rev_ind; [by rewrite app_nil_r|].
  destruct p as [|x p _] using rev_ind; [done|].
  rewrite (app_assoc b p) in *. rewrite (app_assoc (_ ++ [x]) q) in *.
  pose proof Hs as Hsx. apply (ksorted_app kcmp) in Hsx as (Hsy & _ & Hxy).
  apply (ksorted_app kcmp) in Hsy as (Hsy & _ & _).
  rewrite (pos_snoc kcmp) in Hlt by done. rewrite (pos_snoc kcmp) by done.
  apply (ord_lt_trans kcmp _ (key x)); [done|]. apply Hxy; [set_solver|by left].
Qed.

Lemma get_ok t k : keyed_ok t → get kcmp cx t k = lookup_key k (tree_items t).
Proof.
  intros (Hok & Hs & _). apply lookup_key_ext; [done|]. intros x. unfold get.
  rewrite (find_exact_ok cx (kcmp k) BiasLeft t eq_refl Hok);
    [|by apply (passed_monotone kcmp cx BiasLeft k [])|by apply (strict_monotone k [])].
  pose proof (scan_key k [] (tree_items t) Hs) as Hscan. unfold posn at 1 in Hscan. simpl in Hscan.
  rewrite Hscan. clear Hscan.
  pose proof (drop_key_ahead kcmp cx k (filter (λ x, passed kcmp BiasLeft k x = false) (tree_items t)))
    as (Hd & _).
  { by apply (ksorted_filter kcmp). }
  { by intros y [? _]%list_elem_of_filter. }
  specialize (Hd x). rewrite list_elem_of_filter in Hd.
  assert (key x = k → passed kcmp BiasLeft k x = false) as Hpx.
  { intros <-. apply Bool.not_true_is_false. rewrite (passed_left kcmp cx), (ord_refl kcmp). done. }
  transitivity ((drop_key k (filter (λ x, passed kcmp BiasLeft k x = false) (tree_items t))).1 = Some x);
    [|naive_solver].
  destruct (filter _ (tree_items t)) as [|y l]; [done|]. cbn [head fmap option_fmap option_map mbind option_bind].
  cbn [drop_key]. unfold is_eq. cbn [snd fst]. destruct (kcmp k (key y)) eqn:E.
  - apply (ord_eq kcmp) in E. by rewrite bool_decide_true.
  - rewrite bool_decide_false; [done|]. intros <-. by rewrite (ord_refl kcmp) in E.
  - rewrite bool_decide_false; [done|]. intros <-. by rewrite (ord_refl kcmp) in E.
Qed.

(** The first item that is not below the key, when it has the key. *)
Lemma ahead_lookup k l :
  ksorted l →
  (drop_key k (filter (λ x, passed kcmp BiasLeft k x = false) l)).1 = lookup_key k l.
Proof.
  intros Hs. apply lookup_key_ext; [done|]. by destruct (ahead_drop kcmp cx k l Hs) as (H & _).
Qed.

(** [key.cmp(&cursor.end())] tells whether the cursor's item has the key. *)
Lemma between_end_eq t c k :
  k ≠ dzero S cx →
  between kcmp cx t c (filter (λ x, passed kcmp BiasLeft k x = true) (tree_items t))
                      (filter (λ x, passed kcmp BiasLeft k x = false) (tree_items t)) →
  ∃ d, end_ cx c = Some d ∧
    match kcmp k d with Eq => true | _ => false end =
    match head (filter (λ x, passed kcmp BiasLeft k x = false) (tree_items t)) with
    | Some x => bool_decide (key x = k)
    | None => false
    end.
Proof.
  intros Hzero Hb. eexists. split; [exact (between_end kcmp cx _ _ _ _ Hb)|]. destruct Hb as (_ & _ & _ & Hs).
  set (b := filter (λ x, passed kcmp BiasLeft k x = true) (tree_items t)) in *.
  set (r := filter (λ x, passed kcmp BiasLeft k x = false) (tree_items t)) in *.
  destruct r as [|x r]; cbn [head option_list].
  - change (option_list (@None T)) with (@nil T). rewrite app_nil_r in *. destruct (kcmp k _) eqn:E; [|done|done]. exfalso.
    apply (ord_eq kcmp) in E. rewrite (pos_last kcmp cx) in E by done.
    destruct (list.last b) as [x|] eqn:El.
    + apply last_Some_elem_of, list_elem_of_filter in El as [Hx _].
      apply (passed_left kcmp cx) in Hx. by rewrite E, (ord_refl kcmp) in Hx.
    + done.
  - change (option_list (Some x)) with [x].
    rewrite (pos_snoc kcmp cx) by (rewrite cons_middle, app_assoc in Hs; by apply (ksorted_app kcmp) in Hs as [? _]).
    destruct (kcmp k (key x)) eqn:E.
    + apply (ord_eq kcmp) in E. by rewrite bool_decide_true.
    + rewrite bool_decide_false; [done|]. intros <-. by rewrite (ord_refl kcmp) in E.
    + rewrite bool_decide_false; [done|]. intros <-. by rewrite (ord_refl kcmp) in E.
Qed.

(** *** One key *)

Lemma insert_map_ok t x :
  keyed_ok t →
  returns (insert_or_replace kcmp cx t x) (λ '(u, replaced),
    tree_ok cx u ∧ ksorted (tree_items u) ∧ replaced = lookup_key (key x) (tree_items t) ∧
    ∀ k, lookup_key k (tree_items u) =
           if decide (k = key x) then Some x else lookup_key k (tree_items t)).
Proof.
  intros Hok. pose proof Hok as (_ & Hsort & _).
  eapply returns_mono; [by apply (insert_or_replace_ok kcmp cx)|].
  intros [u o] (Hu & Hus & Hui & Ho).
  split_and!; [done|done|by apply lookup_key_ext|]. intros k. symmetry.
  apply lookup_key_ext; [done|]. intros y. rewrite Hui, !elem_of_app, list_elem_of_singleton, list_elem_of_filter.
  pose proof (elem_of_passed kcmp (key x) BiasLeft y (tree_items t)) as Hy.
  rewrite !list_elem_of_filter in Hy. rewrite list_elem_of_filter.
  assert (passed kcmp BiasLeft (key x) y = true → key y ≠ key x) as Hlt.
  { intros Hp Hk'. apply (passed_left kcmp cx) in Hp. by rewrite Hk', (ord_refl kcmp) in Hp. }
  case_decide as Ek; subst.
  - rewrite list_elem_of_filter. naive_solver.
  - rewrite lookup_key_Some by done. rewrite list_elem_of_filter. naive_solver.
Qed.

Lemma filter_lookup k k' l :
  ksorted l →
  lookup_key k' (filter (λ y, key y ≠ k) l) = if decide (k' = k) then None else lookup_key k' l.
Proof.
  intros Hs. symmetry. apply lookup_key_ext; [by apply (ksorted_filter kcmp)|]. intros y.
  rewrite list_elem_of_filter. case_decide; [naive_solver|]. rewrite lookup_key_Some by done. naive_solver.
Qed.

Lemma remove_map_ok t k :
  keyed_ok t →
  returns (remove kcmp cx t k) (λ '(u, removed),
    tree_ok cx u ∧ ksorted (tree_items u) ∧ removed = lookup_key k (tree_items t) ∧
    ∀ k', lookup_key k' (tree_items u) =
            if decide (k' = k) then None else lookup_key k' (tree_items t)).
Proof.
  intros Hok. pose proof Hok as (_ & Hsort & _).
  eapply returns_mono; [by apply (remove_ok kcmp cx)|]. intros [u o] (Hu & Hui & Ho).
  rewrite Hui. split_and!; [done|by apply (ksorted_filter kcmp)|by apply lookup_key_ext|].
  intros k'. by apply filter_lookup.
Qed.

(** *** A batch whose keys are distinct *)

Definition edit_lt (e e' : Edit T K) : Prop := kcmp (edit_key e) (edit_key e') = Lt.

Lemma edits_strict es :
  StronglySorted (edit_le kcmp) es → NoDup (edit_key <$> es) → StronglySorted edit_lt es.
Proof.
  induction 1 as [|e es Hes IH He]; intros Hnd; [constructor|].
  rewrite fmap_cons in Hnd. apply NoDup_cons in Hnd as [Hne Hnd]. constructor; [by apply IH|].
  rewrite Forall_forall in *. intros e' He'. specialize (He e' He'). unfold edit_le, edit_lt in *.
  destruct (kcmp (edit_key e) (edit_key e')) eqn:E; [|done|done].
  apply (ord_eq kcmp) in E. destruct Hne. rewrite E. by apply list_elem_of_fmap_2.
Qed.

Lemma passed_app k r :
  ksorted r →
  filter (λ x, passed kcmp BiasLeft k x = true) r ++ filter (λ x, passed kcmp BiasLeft k x = false) r = r.
Proof.
  intros Hs. pose proof (seek_split_app cx (kcmp k) BiasLeft (posn (T := T) (S := S) (D := K) cx (dzero S cx) []) r) as Happ.
  by rewrite (seek_split_key kcmp cx BiasLeft k []) in Happ.
Qed.

Lemma drop_key_app k r : option_list (drop_key k r).1 ++ (drop_key k r).2 = r.
Proof. destruct r as [|x r]; simpl; [done|]. by case_bool_decide. Qed.

Lemma ksorted_replace e b r :
  ksorted b → ksorted r → (∀ y, y ∈ b → kcmp (key y) (edit_key e) = Lt) →
  (∀ y, y ∈ r → kcmp (edit_key e) (key y) = Lt) → ksorted (b ++ inserted e ++ r).
Proof.
  intros Hb Hr Hbe Her. destruct e as [x|k]; [by apply (ksorted_insert kcmp cx)|].
  apply ksorted_app. split_and!; [done|done|]. intros x y Hx Hy.
  unfold key_lt. eapply (ord_lt_trans kcmp); [by apply Hbe|by apply Her].
Qed.

(** The keys of the batch that the list has are replaced, the others stay. *)
Lemma edit_items_ok es r :
  ksorted r → StronglySorted edit_lt es →
  ksorted (edit_items kcmp r es).1 ∧
  (∀ x, x ∈ (edit_items kcmp r es).1 ↔ Insert x ∈ es ∨ x ∈ r ∧ key x ∉ edit_key <$> es) ∧
  (edit_items kcmp r es).2 = filter (λ x, key x ∈ edit_key <$> es) r.
Proof.
  revert r. induction es as [|e es IH]; intros r Hs Hes.
  { cbn [edit_items fst snd fmap list_fmap]. split_and!; [done| |].
    - intros x. rewrite !elem_of_nil. naive_solver.
    - symmetry. apply filter_none. intros x _. apply not_elem_of_nil. }
  apply StronglySorted_inv in Hes as [Hes He]. rewrite Forall_forall in He. unfold edit_lt in He.
  cbn [edit_items]. set (k := edit_key e) in *. pose proof (passed_app k r Hs) as Happ.
  pose proof (drop_key_app k (filter (λ x, passed kcmp BiasLeft k x = false) r)) as Hdrop.
  destruct (ahead_drop kcmp cx k r Hs) as (Hd1 & Hd2 & Hd3).
  destruct (drop_key _ _) as [o r'] eqn:Ed. cbn [fst snd] in *.
  set (b := filter (λ x, passed kcmp BiasLeft k x = true) r) in *.
  assert (∀ x, x ∈ b → kcmp (key x) k = Lt) as Hb.
  { intros x [Hx _]%list_elem_of_filter. by apply (passed_left kcmp cx). }
  assert (∀ x, x ∈ r' → key x ≠ k) as Hr' by (subst r'; by intros x [? _]%list_elem_of_filter).
  assert (∀ x, x ∈ b → key x ∉ edit_key <$> e :: es) as Hbk.
  { intros x Hx (e' & Hk & [->|He']%elem_of_cons)%list_elem_of_fmap; specialize (Hb x Hx); fold k in Hk.
    - by rewrite Hk, (ord_refl kcmp) in Hb.
    - specialize (He e' He'). rewrite Hk in Hb. apply (ord_gt_lt kcmp) in Hb. congruence. }
  assert (ksorted r') as Hs'.
  { rewrite Hd2. by do 2 apply (ksorted_filter kcmp). }
  destruct (IH r' Hs' Hes) as (IHs & IHm & IHr). destruct (edit_items kcmp r' es) as [out rem].
  cbn [fst snd] in *. split_and!.
  - apply ksorted_replace; [by apply (ksorted_filter kcmp)|done|done|].
    intros y [Hy|[Hy _]]%IHm; [by apply (He _ Hy)|by apply Hd3; rewrite <- Hd2].
  - intros x. rewrite !elem_of_app, IHm, fmap_cons, not_elem_of_cons, elem_of_cons. fold k.
    assert (x ∈ inserted e ↔ Insert x = e) as -> by (destruct e; simpl; set_solver).
    assert (x ∈ r ↔ x ∈ b ∨ o = Some x ∨ x ∈ r') as ->.
    { rewrite <- Happ, <- Hdrop, !elem_of_app. destruct o; simpl; set_solver. }
    specialize (Hbk x). rewrite fmap_cons, not_elem_of_cons in Hbk. specialize (Hr' x).
    specialize (Hd1 x). naive_solver.
  - rewrite IHr. trans (filter (λ x, key x ∈ edit_key <$> e :: es) (b ++ option_list o ++ r'));
      [|by rewrite Hdrop, Happ].
    rewrite !filter_app, (filter_none _ b Hbk). cbn [app]. f_equal.
    + symmetry. apply filter_all. intros x Hx. assert (o = Some x) as [_ Hk]%Hd1 by (destruct o; set_solver).
      rewrite fmap_cons, Hk. left.
    + apply filter_ext_in. intros x Hx. rewrite fmap_cons, elem_of_cons. specialize (Hr' x Hx). tauto.
Qed.

(** The edit for a key of the batch. *)
Definition edit_for k es : option (Edit T K) := head (filter (λ e, edit_key e = k) es).

Lemma edit_for_Some k es e : NoDup (edit_key <$> es) → e ∈ es → edit_key e = k → edit_for k es = Some e.
Proof.
  unfold edit_for. induction es as [|e' es IH]; intros Hnd He Hk; [by apply elem_of_nil in He|].
  rewrite fmap_cons in Hnd. apply NoDup_cons in Hnd as [Hne Hnd].
  apply elem_of_cons in He as [->|He].
  - by rewrite filter_cons_True.
  - rewrite filter_cons_False; [by apply IH|]. intros Hk'. destruct Hne. rewrite Hk', <- Hk.
    by apply list_elem_of_fmap_2.
Qed.

Lemma edit_for_None k es : k ∉ edit_key <$> es → edit_for k es = None.
Proof.
  intros Hk. unfold edit_for. rewrite filter_none; [done|]. intros e He <-.
  by apply Hk, list_elem_of_fmap_2.
Qed.

(** The members of the result: the insertions, and what no edit names. *)
Lemma edit_members sort t es :
  Sorting (edit_le kcmp) sort → keyed_ok t → NoDup (edit_key <$> es) →
  returns (KeyedOps.edit kcmp cx sort t es) (λ '(u, removed),
    tree_ok cx u ∧ ksorted (tree_items u) ∧
    ∀ x, x ∈ tree_items u ↔ Insert x ∈ es ∨ x ∈ tree_items t ∧ key x ∉ edit_key <$> es).
Proof.
  intros Hsort Hok Hnd. pose proof Hok as (Hok' & Hs & _).
  destruct (decide (es = [])) as [->|Hne].
  { apply returns_ret. split_and!; [done|done|]. intros x. rewrite !elem_of_nil. naive_solver. }
  eapply returns_mono; [by apply (edit_ok kcmp cx sort t es Hsort)|]. intros [u removed] [Hu Hi].
  pose proof (sort_perm (le := edit_le kcmp) (sort := sort) es) as Hperm.
  destruct (edit_items_ok (sort es) (tree_items t) Hs) as (Hus & Hum & _).
  { apply edits_strict; [apply sort_sorted|]. by rewrite Hperm. }
  rewrite <- Hi in Hus, Hum. cbn [fst] in *. split_and!; [done|done|]. intros x. by rewrite Hum, Hperm.
Qed.

Lemma edit_map_ok sort t es :
  Sorting (edit_le kcmp) sort → keyed_ok t → NoDup (edit_key <$> es) →
  returns (KeyedOps.edit kcmp cx sort t es) (λ '(u, removed),
    tree_ok cx u ∧ ksorted (tree_items u) ∧
    (∀ k, lookup_key k (tree_items u) =
       match edit_for k es with
       | Some (Insert x) => Some x
       | Some (Remove _) => None
       | None => lookup_key k (tree_items t)
       end) ∧
    removed = filter (λ x, key x ∈ edit_key <$> es) (tree_items t)).
Proof.
  intros Hsort Hok Hnd. pose proof Hok as (Hok' & Hs & _).
  destruct (decide (es = [])) as [->|Hne].
  { apply returns_ret. split_and!; [done|done|done|]. symmetry. apply filter_none.
    intros x _. apply not_elem_of_nil. }
  eapply returns_mono; [by apply (edit_ok kcmp cx sort t es Hsort)|]. intros [u removed] [Hu Hi].
  pose proof (sort_perm (le := edit_le kcmp) (sort := sort) es) as Hperm.
  destruct (edit_items_ok (sort es) (tree_items t) Hs) as (Hus & Hum & Hur).
  { apply edits_strict; [apply sort_sorted|]. by rewrite Hperm. }
  rewrite <- Hi in Hus, Hum, Hur. cbn [fst snd] in *. split_and!; [done|done| |].
  - intros k. symmetry. apply lookup_key_ext; [done|]. intros x. rewrite Hum, Hperm.
    destruct (decide (k ∈ edit_key <$> es)) as [Hk|Hk].
    + apply list_elem_of_fmap in Hk as (e & -> & He). rewrite (edit_for_Some _ es e) by done.
      assert (∀ e', e' ∈ es → edit_key e' = edit_key e → e' = e) as Hinj.
      { intros e' He' Hk. apply (edit_for_Some _ es e') in Hk; [|done..].
        rewrite (edit_for_Some _ es e) in Hk by done. by injection Hk. }
      assert (key x = edit_key e → key x ∈ edit_key <$> es) as Hin.
      { intros ->. by apply list_elem_of_fmap_2. }
      pose proof (Hinj (Insert x)) as Hx. cbn [edit_key] in Hx.
      destruct e as [y|k']; cbn [edit_key] in *.
      * split; [intros [= ->]; auto|]. intros [[Hi'|[_ Hi']] Hk]; [|tauto]. specialize (Hx Hi' Hk). congruence.
      * split; [done|]. intros [[Hi'|[_ Hi']] Hk]; [|tauto]. specialize (Hx Hi' Hk). congruence.
    + rewrite edit_for_None, lookup_key_Some by done. split; [naive_solver|].
      intros [[Hi'|[Hi' _]] <-]; [|done]. destruct Hk. by apply (list_elem_of_fmap_2 edit_key) in Hi'.
  - rewrite Hur. apply filter_ext_in. intros x _. by rewrite Hperm.
Qed.

End map.

(** A sort by keys exists: merge sort. *)
Lemma merge_sort_sorting {A K} (kcmp : K → K → comparison) `{!TotalOrd kcmp} (f : A → K) :
  Sorting (λ a b, kcmp (f a) (f b) ≠ Gt) (merge_sort (λ a b, kcmp (f a) (f b) ≠ Gt)).
Proof.
  assert (Total (λ a b, kcmp (f a) (f b) ≠ Gt)) as Htotal.
  { intros a b. rewrite (ord_antisym kcmp (f a)). destruct (kcmp (f a) (f b)); auto. }
  assert (Transitive (λ a b, kcmp (f a) (f b) ≠ Gt)) as Htrans.
  { intros a b c Hab Hbc. destruct (kcmp (f b) (f c)) eqn:E; [| |done].
    - apply (ord_eq kcmp) in E. by rewrite <- E.
    - by rewrite (ord_le_lt_trans kcmp _ _ _ Hab E). }
  split.
  - intros l. apply merge_sort_Permutation.
  - intros l. by apply StronglySorted_merge_sort.
Qed.

(** ** The properties of keyed trees *)

Section properties.
Context {T S Cx K : Type} `{!Summary S Cx, !Item T S Cx, !Dimension K S Cx, !KeyedItem T K}.
Context `{!EqDecision K} (kcmp : K → K → comparison) (cx : Cx).

(** C26: a tree sorted by key is a map: [get] looks a key up, [insert_or_replace]
    and [remove] change the item of one key and return the old one, and the
    tree stays sorted, balanced and correctly summarized; nothing panics. *)
Theorem keyed_tree_is_map (Hk : KeyedLaws (T := T) kcmp cx) (Hs : SummaryLaws S Cx cx)
    (Hd : DimensionLaws K S Cx cx) (t : Node T S) (Hok : keyed_ok kcmp cx t) :
  (∀ k, get kcmp cx t k = lookup_key k (tree_items t)) ∧
  (∀ x, returns (insert_or_replace kcmp cx t x) (λ '(u, replaced),
    tree_ok cx u ∧ ksorted kcmp (tree_items u) ∧ replaced = lookup_key (key x) (tree_items t) ∧
    ∀ k, lookup_key k (tree_items u) =
           if decide (k = key x) then Some x else lookup_key k (tree_items t))) ∧
  (∀ k, returns (remove kcmp cx t k) (λ '(u, removed),
    tree_ok cx u ∧ ksorted kcmp (tree_items u) ∧ removed = lookup_key k (tree_items t) ∧
    ∀ k', lookup_key k' (tree_items u) =
            if decide (k' = k) then None else lookup_key k' (tree_items t))).
Proof.
  split_and!; [intros k; by apply get_ok|intros x; by apply insert_map_ok|intros k; by apply remove_map_ok].
Qed.

(** C27: a batch of edits with distinct keys, in whatever order it is given and
    however the unstable sort breaks ties, replaces the items of its keys and
    leaves the others; the items that were replaced are returned in order. *)
Theorem edit_applies_batch (Hk : KeyedLaws (T := T) kcmp cx) (Hs : SummaryLaws S Cx cx)
    (Hd : DimensionLaws K S Cx cx) (t : Node T S) (Hok : keyed_ok kcmp cx t)
    (sort : list (Edit T K) → list (Edit T K)) (Hsort : Sorting (edit_le kcmp) sort)
    (es : list (Edit T K)) (Hes : NoDup (edit_key <$> es)) :
  returns (KeyedOps.edit kcmp cx sort t es) (λ '(u, removed),
    tree_ok cx u ∧ ksorted kcmp (tree_items u) ∧
    (∀ k, lookup_key k (tree_items u) =
       match edit_for k es with
       | Some (Insert x) => Some x
       | Some (Remove _) => None
       | None => lookup_key k (tree_items t)
       end) ∧
    removed = filter (λ x, key x ∈ edit_key <$> es) (tree_items t)).
Proof. by apply edit_map_ok. Qed.

End properties.

(** ** A concrete keyed tree *)

Module Keying.

(** Numbers as their own keys; a summary is the last key. *)
#[local] Instance last_summary : Summary N () := {| szero _ := 0%N; sadd _ _ b := b |}.
#[local] Instance number_item : Item N N () := {| isummary _ x := x |}.
#[local] Instance last_dimension : Dimension N N () := summary_dimension.
#[local] Instance number_key : KeyedItem N N := {| key x := x |}.

Lemma last_laws : SummaryLaws N () ().
Proof. by split. Qed.
Lemma last_dim_laws : DimensionLaws N N () ().
Proof. by split; [split|]. Qed.
Lemma number_laws : KeyedLaws (T := N) N.compare ().
Proof. split; [apply _| |done]. intros k. simpl. by destruct k. Qed.

Definition sample : Node N N := Leaf 7%N [2; 5; 7]%N [2; 5; 7]%N.

Lemma keyed_sample_ok : keyed_ok N.compare () sample.
Proof.
  split_and!.
  - right. exists 0%nat. simpl. split_and!; try done. unfold TREE_BASE. lia.
  - repeat constructor.
  - vm_compute. lia.
Qed.

Example keyed_tree_is_map_witness :
  (fst <$> insert_or_replace N.compare () sample 4%N) = Some (Leaf 7%N [2; 4; 5; 7]%N [2; 4; 5; 7]%N) ∧
  get N.compare () sample 5%N = lookup_key 5%N (tree_items sample).
Proof.
  split; [by vm_compute|].
  exact (proj1 (keyed_tree_is_map N.compare () number_laws last_laws last_dim_laws sample keyed_sample_ok) 5%N).
Defined.

Definition sort_edits : list (Edit N N) → list (Edit N N) :=
  merge_sort (λ a b, N.compare (edit_key a) (edit_key b) ≠ Gt).

Definition batch : list (Edit N N) := [Remove 5%N; Insert 1%N].

Example edit_applies_batch_witness :
  KeyedOps.edit N.compare () sort_edits sample batch =
    Some (Leaf 7%N [1; 2; 7]%N [1; 2; 7]%N, [5%N]) ∧
  returns (KeyedOps.edit N.compare () sort_edits sample batch) (λ '(u, removed),
    tree_ok () u ∧ ksorted N.compare (tree_items u) ∧
    (∀ k, lookup_key k (tree_items u) =
       match edit_for k batch with
       | Some (Insert x) => Some x
       | Some (Remove _) => None
       | None => lookup_key k (tree_items sample)
       end) ∧
    removed = filter (λ x, key x ∈ edit_key <$> batch) (tree_items sample)).
Proof.
  split; [by vm_compute|].
  exact (edit_applies_batch N.compare () number_laws last_laws last_dim_laws sample keyed_sample_ok
    sort_edits (merge_sort_sorting N.compare edit_key) batch
    ltac:(apply (bool_decide_unpack (NoDup (edit_key <$> batch))); vm_compute; exact I)).
Defined.

End Keying.
