(* ===== verification/TreeMap.v ===== *)
(** * Ordered maps on trees: [crates/sum_tree/src/tree_map.rs]

    [TreeMap] wraps a keyed tree whose summary is the last key. References and
    clones are erased; [Ord] and [Eq] of the key type are a three-way
    comparison and a decidable equality that agree. *)

From stdpp Require Import sets sorting.
From S2P Require Import Prelude SumTree SumCursor CursorSpec CursorWalk SumIter KeyedTree.
Import NodeOps TreeOps CursorOps.

#[local] Unset Default Proof Using.
#[local] Arguments Nat.mul : simpl never.

(** ** Data *)

Record MapEntry (K V : Type) := mkMapEntry { ekey : K; evalue : V }.
Arguments mkMapEntry {K V} _ _.
Arguments ekey {K V} _.
Arguments evalue {K V} _.

(** [MapKey] and, references being erased, [MapKeyRef]. *)
Record MapKey (K : Type) := mkMapKey { map_key : option K }.
Arguments mkMapKey {K} _.
Arguments map_key {K} _.

#[export] Instance MapKey_eq_dec {K} `{!EqDecision K} : EqDecision (MapKey K).
Proof. solve_decision. Defined.

(** The derived [Ord] of [Option]: [None] comes first. *)
Definition map_key_cmp {K} (cmp : K → K → comparison) (a b : MapKey K) : comparison :=
  match map_key a, map_key b with
  | None, None => Eq
  | None, Some _ => Lt
  | Some _, None => Gt
  | Some a, Some b => cmp a b
  end.

#[export] Instance map_key_summary {K} : Summary (MapKey K) () :=
  {| szero _ := mkMapKey None; sadd _ _ summary := summary |}.

#[export] Instance map_key_dimension {K} : Dimension (MapKey K) (MapKey K) () :=
  {| dzero _ := mkMapKey None; dadd _ _ summary := summary |}.

#[export] Instance map_entry_item {K V} : Item (MapEntry K V) (MapKey K) () :=
  {| isummary _ entry := mkMapKey (Some (ekey entry)) |}.

#[export] Instance map_entry_key {K V} : KeyedItem (MapEntry K V) (MapKey K) :=
  {| key entry := mkMapKey (Some (ekey entry)) |}.

Definition TreeMap (K V : Type) : Type := Node (MapEntry K V) (MapKey K).

(** ** Operations *)

Module TreeMapOps.
Section TreeMapOps.
Context {K V : Type} `{!EqDecision K} (cmp : K → K → comparison).
Implicit Types (m : TreeMap K V) (k : K) (v : V).

(** The iteration order of the batches; see [KeyedOps.edit]. *)
Variable sort : list (KeyedTree.Edit (MapEntry K V) (MapKey K)) →
                list (KeyedTree.Edit (MapEntry K V) (MapKey K)).

Abbreviation cursor := (Cursor (MapEntry K V) (MapKey K) (MapKey K)).

(** The seek target [MapKeyRef(Some(key))]. *)
Definition target k : MapKey K → comparison := map_key_cmp cmp (mkMapKey (Some k)).

Definition from_ordered_entries (entries : list (K * V)) : option (TreeMap K V) :=
  from_iter () ((λ '(k, v), mkMapEntry k v) <$> entries).

Definition is_empty m : bool := NodeOps.is_empty m.

Definition get m k : option V :=
  let '(_, _, item) := find () (target k) BiasLeft m in
  match item with
  | Some item => if bool_decide (Some k = map_key (key item)) then Some (evalue item) else None
  | None => None
  end.

Definition contains_key m k : bool := match get m k with Some _ => true | None => false end.

Definition insert m k v : option (TreeMap K V) :=
  fst <$> KeyedOps.insert_or_replace (map_key_cmp cmp) () m (mkMapEntry k v).

Definition insert_or_replace m k v : option (TreeMap K V * option V) :=
  '(m, replaced) ← KeyedOps.insert_or_replace (map_key_cmp cmp) () m (mkMapEntry k v);
  Some (m, option_map evalue replaced).

Definition extend m (iter : list (K * V)) : option (TreeMap K V) :=
  fst <$> KeyedOps.edit (map_key_cmp cmp) () sort m ((λ '(k, v), Insert (mkMapEntry k v)) <$> iter).

Definition clear m : TreeMap K V := TreeOps.new ().

Definition remove m k : option (TreeMap K V * option V) :=
  let cursor := CursorOps.new () m in
  '(new_tree, cursor) ← slice () (target k) BiasLeft cursor;
  end_ ← end_ () cursor;
  '(removed, cursor) ←
    match target k end_ with
    | Eq =>
        item ← CursorOps.item cursor;
        item ← item;
        cursor ← next () cursor;
        Some (Some (evalue item), cursor)
    | _ => Some (None, cursor)
    end;
  '(suffix, _) ← suffix () cursor;
  new_tree ← append () new_tree suffix;
  Some (new_tree, removed).

(** [MapSeekTargetAdaptor]. *)
Definition adaptor (cmp_cursor : K → comparison) (cursor_location : MapKey K) : comparison :=
  match map_key cursor_location with Some key => cmp_cursor key | None => Gt end.

Definition remove_range m (start end_ : K → comparison) : option (TreeMap K V) :=
  let cursor := CursorOps.new () m in
  '(new_tree, cursor) ← slice () (adaptor start) BiasLeft cursor;
  '(_, cursor) ← seek () (adaptor end_) BiasLeft cursor;
  '(suffix, _) ← suffix () cursor;
  append () new_tree suffix.

Definition closest m k : option (option (K * V)) :=
  '(_, cursor) ← seek () (target k) BiasRight (CursorOps.new () m);
  cursor ← prev () cursor;
  item ← CursorOps.item cursor;
  Some (option_map (λ item, (ekey item, evalue item)) item).

(** The iterator, consumed to its end. *)
Definition iter_from m k : option (list (K * V)) :=
  '(_, cursor) ← seek () (target k) BiasLeft (CursorOps.new () m);
  entries ← CursorOps.collect () (λ _, true) (weight m) cursor;
  Some (List.map (λ entry, (ekey entry, evalue entry)) entries).

(** [f] returns its result and the value it leaves behind the reference. *)
Definition update {R} m k (f : V → R * V) : option (TreeMap K V * option R) :=
  let cursor := CursorOps.new () m in
  '(new_tree, cursor) ← slice () (target k) BiasLeft cursor;
  end_ ← end_ () cursor;
  '(new_tree, result, cursor) ←
    match target k end_ with
    | Eq =>
        item ← CursorOps.item cursor;
        updated ← item;
        let '(result, value) := f (evalue updated) in
        new_tree ← push () new_tree (mkMapEntry (ekey updated) value);
        cursor ← next () cursor;
        Some (new_tree, Some result, cursor)
    | _ => Some (new_tree, None, cursor)
    end;
  '(suffix, _) ← suffix () cursor;
  new_tree ← append () new_tree suffix;
  Some (new_tree, result).

(** [while let Some(item) = cursor.item()]. The predicate may be stateful: [s]
    is threaded through its calls. *)
Fixpoint retain_loop {St} (fuel : nat) (predicate : St → K → V → bool * St) (s : St)
    (new_map : TreeMap K V) (c : cursor) : option (TreeMap K V * St) :=
  match fuel with
  | O => None
  | Datatypes.S fuel =>
      item ← CursorOps.item c;
      match item with
      | Some item =>
          let '(keep, s) := predicate s (ekey item) (evalue item) in
          new_map ← (if keep : bool then push () new_map item else Some new_map);
          c ← next () c;
          retain_loop fuel predicate s new_map c
      | None => Some (new_map, s)
      end
  end.

Definition retain {St} m (predicate : St → K → V → bool * St) (s : St) : option (TreeMap K V * St) :=
  c ← next () (CursorOps.new () m);
  retain_loop (weight m) predicate s (TreeOps.new ()) c.

(** [iter] and [values], consumed to their ends. *)
Definition iter m : option (list (K * V)) :=
  entries ← IterOps.to_list m; Some (List.map (λ entry, (ekey entry, evalue entry)) entries).
Definition values m : option (list V) :=
  entries ← IterOps.to_list m; Some (List.map evalue entries).

Definition first m : option (option (K * V)) :=
  entry ← NodeOps.first m; Some (option_map (λ entry, (ekey entry, evalue entry)) entry).
Definition last m : option (option (K * V)) :=
  entry ← NodeOps.last m; Some (option_map (λ entry, (ekey entry, evalue entry)) entry).

Definition insert_tree m (other : TreeMap K V) : option (TreeMap K V) :=
  entries ← iter other;
  fst <$> KeyedOps.edit (map_key_cmp cmp) () sort m ((λ '(k, v), Insert (mkMapEntry k v)) <$> entries).

End TreeMapOps.
End TreeMapOps.

(** ** The map behind a tree *)

Section laws.
Context {K V : Type} `{!EqDecision K} (cmp : K → K → comparison) `{!TotalOrd cmp}.

#[export] Instance map_key_total : TotalOrd (map_key_cmp cmp).
Proof.
  split.
  - intros [[a|]] [[b|]]; unfold map_key_cmp; simpl; try done. rewrite (ord_eq cmp). naive_solver.
  - intros [[a|]] [[b|]]; unfold map_key_cmp; simpl; try done. apply (ord_antisym cmp).
  - intros [[a|]] [[b|]] [[c|]]; unfold map_key_cmp; simpl; try done. apply (ord_lt_trans cmp).
Qed.

#[export] Instance map_summary_laws : SummaryLaws (MapKey K) () ().
Proof. by split. Qed.

#[export] Instance map_dimension_laws : DimensionLaws (MapKey K) (MapKey K) () ().
Proof. by split; [split|]. Qed.

#[export] Instance map_keyed_laws : KeyedLaws (T := MapEntry K V) (map_key_cmp cmp) ().
Proof. split; [apply _| |done]. by intros [[k|]]. Qed.

End laws.

Section map.
Context {K V : Type} `{!EqDecision K} (cmp : K → K → comparison) `{!TotalOrd cmp}.
Implicit Types (m : TreeMap K V) (k : K) (v : V) (x : MapEntry K V).

Import TreeMapOps.

(** A map whose entries are in the order of their keys. *)
Definition map_ok m : Prop := keyed_ok (map_key_cmp cmp) () m.

(** A map that an operation returns; its height is not bounded here. *)
Definition map_built m : Prop := tree_ok () m ∧ ksorted (map_key_cmp cmp) (tree_items m).

Definition pair_of x : K * V := (ekey x, evalue x).

(** The entries in order, and the value of a key. *)
Definition entries m : list (K * V) := List.map pair_of (tree_items m).

Definition map_at k m : option V := option_map evalue (lookup_key (mkMapKey (Some k)) (tree_items m)).

Abbreviation K_ k := (mkMapKey (Some k)).
Abbreviation behind_ k l := (filter (λ x : MapEntry K V, passed (map_key_cmp cmp) BiasLeft (K_ k) x = true) l).
Abbreviation ahead_ k l := (filter (λ x : MapEntry K V, passed (map_key_cmp cmp) BiasLeft (K_ k) x = false) l).

Lemma get_map m k : map_ok m → get cmp m k = map_at k m.
Proof.
  intros (Hok & Hs & _). unfold get, map_at. rewrite <- (ahead_lookup (map_key_cmp cmp) ()) by done.
  rewrite (find_ok () (target cmp k) BiasLeft m Hok)
    by (by apply (passed_monotone (map_key_cmp cmp) () BiasLeft (K_ k) [])).
  unfold find_in_list.
  pose proof (scan_key (map_key_cmp cmp) () (K_ k) [] (tree_items m) Hs) as Hscan.
  unfold posn at 1 in Hscan. cbn [fmap list_fmap foldl] in Hscan. fold (target cmp k) in Hscan.
  destruct (scan _ _ _ _ _ _) as [o pos]. cbn [fst] in Hscan. subst o.
  destruct (ahead_ k (tree_items m)) as [|x r]; [done|]. simpl.
  destruct (decide (ekey x = k)) as [<-|Hne].
  - by rewrite !bool_decide_true.
  - rewrite !bool_decide_false by congruence. done.
Qed.

(** The test of [remove] and [update] on the key at the cursor's end. *)
Lemma at_key m c k :
  between (map_key_cmp cmp) () m c (behind_ k (tree_items m)) (ahead_ k (tree_items m)) →
  ∃ d, end_ () c = Some d ∧
    match target cmp k d with
    | Eq => ∃ x r, ahead_ k (tree_items m) = x :: r ∧ ekey x = k
    | _ => drop_key (K_ k) (ahead_ k (tree_items m)) = (None, ahead_ k (tree_items m))
    end.
Proof.
  intros Hb. assert (K_ k ≠ dzero (MapKey K) ()) as Hz by discriminate.
  destruct (between_end_eq (map_key_cmp cmp) () m c (K_ k) Hz Hb) as (d & Hd & He).
  exists d. split; [done|]. revert He. unfold target.
  destruct (ahead_ k (tree_items m)) as [|x r]; cbn [head drop_key].
  - by destruct (map_key_cmp cmp (K_ k) d).
  - case_bool_decide as E; destruct (map_key_cmp cmp (K_ k) d); try done.
    intros _. exists x, r. split; [done|]. by injection E.
Qed.

(** The entry of [k] and the entries after it. *)
Lemma ahead_split m k :
  map_ok m →
  map_at k m = option_map evalue (drop_key (K_ k) (ahead_ k (tree_items m))).1 ∧
  filter (λ x, ekey x ≠ k) (tree_items m) =
    behind_ k (tree_items m) ++ (drop_key (K_ k) (ahead_ k (tree_items m))).2.
Proof.
  intros (Hok & Hs & _). unfold map_at. rewrite <- (ahead_lookup (map_key_cmp cmp) ()) by done.
  split; [done|]. destruct (ahead_drop (map_key_cmp cmp) () (K_ k) _ Hs) as (_ & -> & _).
  rewrite <- (passed_app (map_key_cmp cmp) () (K_ k) (tree_items m) Hs) at 1.
  rewrite filter_app. f_equal.
  - apply filter_all. intros x [Hx _]%list_elem_of_filter <-. apply (passed_left (map_key_cmp cmp) ()) in Hx.
    by rewrite (ord_refl (map_key_cmp cmp)) in Hx.
  - apply filter_ext_in. intros x _. cbn [key map_entry_key]. naive_solver.
Qed.

Lemma remove_map m k :
  map_ok m →
  returns (remove cmp m k) (λ '(u, o),
    tree_ok () u ∧ tree_items u = filter (λ x, ekey x ≠ k) (tree_items m) ∧ o = map_at k m).
Proof.
  intros Hok. destruct (ahead_split m k Hok) as [-> ->]. unfold remove.
  eapply returns_bind; [by apply (between_fresh (map_key_cmp cmp) () m (K_ k) BiasLeft)|].
  intros [nt c] (Hn & Hni & Hb). destruct (at_key m c k Hb) as (d & -> & Hd). cbn [mbind option_bind].
  assert (returns
    (match target cmp k d with
     | Eq => item ← CursorOps.item c; item ← item; cursor ← next () c; Some (Some (evalue item), cursor)
     | _ => Some (None, c)
     end) (λ '(o, c'), o = option_map evalue (drop_key (K_ k) (ahead_ k (tree_items m))).1 ∧
       ∃ b', between (map_key_cmp cmp) () m c' b' (drop_key (K_ k) (ahead_ k (tree_items m))).2)) as Htake.
  { pose proof (between_item (map_key_cmp cmp) () _ _ _ _ Hb) as Hi. destruct (target cmp k d).
    - destruct Hd as (x & r & Hr & Hk). rewrite Hr in *. rewrite Hi. cbn [head mbind option_bind drop_key].
      rewrite bool_decide_true by (by rewrite <- Hk).
      eapply returns_bind; [exact (between_next (map_key_cmp cmp) () _ _ _ _ _ Hb)|].
      intros c' Hc'. apply returns_ret. split; [done|eexists; exact Hc'].
    - rewrite Hd. apply returns_ret. split; [done|eexists; exact Hb].
    - rewrite Hd. apply returns_ret. split; [done|eexists; exact Hb]. }
  eapply returns_bind; [exact Htake|]. intros [o c'] [-> [b' Hc']].
  eapply returns_bind; [exact (between_suffix (map_key_cmp cmp) () _ _ _ _ Hc')|]. intros [s c''] [Hsx Hsi].
  eapply returns_bind; [by apply (append_ok ())|]. intros u [Hu Hui]. apply returns_ret.
  split_and!; [done| |done]. by rewrite Hui, Hni, Hsi.
Qed.

Lemma update_map {R} m k (f : V → R * V) :
  map_ok m →
  returns (update cmp m k f) (λ '(u, o),
    tree_ok () u ∧ o = option_map (λ v, fst (f v)) (map_at k m) ∧
    tree_items u =
      (λ x, if bool_decide (ekey x = k) then mkMapEntry (ekey x) (snd (f (evalue x))) else x)
        <$> tree_items m).
Proof.
  intros Hok. pose proof Hok as (_ & Hs & _). destruct (ahead_split m k Hok) as [-> Hne]. unfold update.
  eapply returns_bind; [by apply (between_fresh (map_key_cmp cmp) () m (K_ k) BiasLeft)|].
  intros [nt c] (Hn & Hni & Hb). destruct (at_key m c k Hb) as (d & -> & Hd). cbn [mbind option_bind].
  set (g := λ x, _ : MapEntry K V).
  assert (∀ l : list (MapEntry K V), (∀ x, x ∈ l → ekey x ≠ k) → g <$> l = l) as Hg.
  { intros l Hl. rewrite <- (list_fmap_id l) at 2. apply list_fmap_ext. intros i x Hx.
    apply list_elem_of_lookup_2 in Hx. unfold g. by rewrite bool_decide_false by (by apply Hl). }
  pose proof (passed_app (map_key_cmp cmp) () (K_ k) (tree_items m) Hs) as Happ.
  assert (∀ x, x ∈ behind_ k (tree_items m) ++ (drop_key (K_ k) (ahead_ k (tree_items m))).2 → ekey x ≠ k) as Hall.
  { rewrite <- Hne. by intros x [? _]%list_elem_of_filter. }
  assert (returns
    (match target cmp k d with
     | Eq =>
         item ← CursorOps.item c;
         updated ← item;
         let '(result, value) := f (evalue updated) in
         new_tree ← push () nt (mkMapEntry (ekey updated) value);
         cursor ← next () c;
         Some (new_tree, Some result, cursor)
     | _ => Some (nt, None, c)
     end) (λ '(nt', o, c'), tree_ok () nt' ∧
       o = option_map (λ v, fst (f v)) (option_map evalue (drop_key (K_ k) (ahead_ k (tree_items m))).1) ∧
       ∃ b' r', between (map_key_cmp cmp) () m c' b' r' ∧ tree_items nt' ++ r' = g <$> tree_items m)) as Htake.
  { pose proof (between_item (map_key_cmp cmp) () _ _ _ _ Hb) as Hi. destruct (target cmp k d).
    - destruct Hd as (x & r & Hr & Hk). rewrite Hr in *. rewrite Hi. cbn [head mbind option_bind drop_key] in *.
      rewrite bool_decide_true in * by (by rewrite <- Hk). cbn [snd] in Hall.
      destruct (f (evalue x)) as [res v] eqn:Ef.
      eapply returns_bind; [by apply (push_ok ())|]. intros nt1 [Hn1 Hi1].
      eapply returns_bind; [exact (between_next (map_key_cmp cmp) () _ _ _ _ _ Hb)|].
      intros c' Hc'. apply returns_ret. split_and!; [done|simpl; by rewrite Ef|]. do 2 eexists. split; [exact Hc'|].
      rewrite Hi1, Hni. rewrite <- Happ at 2. rewrite fmap_app, fmap_cons, <- app_assoc. cbn [app]. f_equal; [|f_equal].
      + symmetry. apply Hg. intros y Hy. apply Hall. set_solver.
      + unfold g. by rewrite bool_decide_true, Ef.
      + symmetry. apply Hg. intros y Hy. apply Hall. set_solver.
    - rewrite Hd in *. apply returns_ret. split_and!; [done|done|]. do 2 eexists. split; [exact Hb|].
      rewrite Hni, Happ. symmetry. apply Hg. rewrite <- Happ. exact Hall.
    - rewrite Hd in *. apply returns_ret. split_and!; [done|done|]. do 2 eexists. split; [exact Hb|].
      rewrite Hni, Happ. symmetry. apply Hg. rewrite <- Happ. exact Hall. }
  eapply returns_bind; [exact Htake|]. intros [[nt' o] c'] (Hn' & -> & b' & r' & Hc' & Hit).
  eapply returns_bind; [exact (between_suffix (map_key_cmp cmp) () _ _ _ _ Hc')|]. intros [s c''] [Hsx Hsi].
  eapply returns_bind; [by apply (append_ok ())|]. intros u [Hu Hui]. apply returns_ret.
  split_and!; [done|done|]. by rewrite Hui, Hsi.
Qed.

(** *** Ranges and traversals *)

Definition clear_cursor m : Cursor (MapEntry K V) (MapKey K) (MapKey K) := CursorOps.new () m.

(** What a user's [MapSeekTarget] promises: keys after a key that is not before
    the target are not before it either. *)
Definition upward (t : K → comparison) : Prop :=
  ∀ a b, cmp a b = Lt → t b = Gt → t a = Gt.

Lemma adaptor_seekable t :
  upward t → seekable (T := MapEntry K V) (map_key_cmp cmp) BiasLeft (adaptor t).
Proof.
  intros Ht x y Hxy. unfold key_lt, map_key_cmp, skips, adaptor in *. simpl in *.
  specialize (Ht (ekey x) (ekey y) Hxy). destruct (t (ekey y)) eqn:E; try done. by rewrite Ht.
Qed.

Lemma adaptor_skips t x :
  skips (adaptor t) BiasLeft (key x) = match t (ekey x) with Gt => true | _ => false end.
Proof. unfold skips, adaptor. simpl. by destruct (t (ekey x)). Qed.

Lemma remove_range_map m start end_ :
  map_ok m → upward start → upward end_ →
  returns (remove_range m start end_) (λ u, tree_ok () u ∧
    tree_items u = filter (λ x, start (ekey x) = Gt) (tree_items m) ++
                   filter (λ x, end_ (ekey x) ≠ Gt) (tree_items m)).
Proof.
  intros Hok Hst Hen. unfold remove_range.
  eapply returns_bind.
  { apply (between_fresh_target (map_key_cmp cmp) () (adaptor start) BiasLeft); [by apply adaptor_seekable|done|done]. }
  intros [nt c] (Hn & Hni & Hb). pose proof Hb as (Hr & Ht & _).
  eapply returns_bind.
  { assert (adaptor end_ (dzero (MapKey K) ()) ≠ Lt) as Hz by done.
    eapply (between_seek_target (map_key_cmp cmp) () (adaptor end_) BiasLeft (adaptor_seekable end_ Hen)
      Hz m c _ Hok Hr Ht). }
  intros [f c'] Hc'.
  eapply returns_bind; [exact (between_suffix (map_key_cmp cmp) () _ _ _ _ Hc')|]. intros [s c''] [Hsx Hsi].
  eapply returns_mono; [by apply (append_ok ())|]. intros u [Hu Hui]. split; [done|].
  rewrite Hui, Hni, Hsi. f_equal; apply filter_ext_in; intros x _; rewrite adaptor_skips.
  - by destruct (start (ekey x)).
  - by destruct (end_ (ekey x)).
Qed.

(** A cursor between entries, moved back by one. *)
Lemma prev_item_between m c b r :
  between (map_key_cmp cmp) () m c b r → tree_ok () m →
  returns (c' ← prev () c; CursorOps.item c') (λ o, o = list.last b).
Proof.
  intros ((Hat & _ & Hcap) & Ht & Hit & _) Hok.
  eapply returns_bind; [by apply (prev_ok () c _ Hat)|]. intros c' [Ht' Hat'].
  assert ((behind c (spot_of b r)).1 = b) as Hb.
  { destruct r; simpl; [|done]. by rewrite Ht, Hit, app_nil_r. }
  rewrite Hb in Hat'. eexists. split; [apply (item_ok () c' _ Hat')|].
  - destruct (list.last b); [done|]. by destruct (NodeOps.is_empty (tree c)).
  - destruct (list.last b); [done|]. by destruct (NodeOps.is_empty (tree c)).
Qed.

Lemma closest_map m k :
  map_ok m →
  closest cmp m k = Some (option_map pair_of (list.last (filter (λ x, cmp (ekey x) k ≠ Gt) (tree_items m)))).
Proof.
  intros Hok. pose proof Hok as (Hok' & Hs & _). unfold closest, target.
  destruct (between_seek (map_key_cmp cmp) () m (K_ k) BiasRight Hok) as ([f c] & -> & Hc).
  cbn [mbind option_bind]. destruct (prev_item_between m c _ _ Hc Hok') as (o & Ho & ->).
  destruct (prev () c) as [c'|]; [|done]. cbn [mbind option_bind] in *. rewrite Ho. cbn [mbind option_bind].
  do 3 f_equal. apply filter_ext_in. intros x _. exact (passed_right (map_key_cmp cmp) () (K_ k) x).
Qed.

Lemma iter_from_map m k :
  map_ok m →
  iter_from cmp m k = Some (List.map pair_of (filter (λ x, cmp (ekey x) k ≠ Lt) (tree_items m))).
Proof.
  intros Hok. pose proof Hok as (Hok' & Hs & Hcap). unfold iter_from, target.
  destruct (between_seek (map_key_cmp cmp) () m (K_ k) BiasLeft Hok) as ([f c] & -> & ((Hat & _) & Ht & Hit & _)).
  cbn [mbind option_bind].
  assert (filter_sound (T := MapEntry K V) () (λ _ : MapKey K, true)) as Hf by done.
  rewrite (collect_on () (λ _, true) Hf (weight m) c _ _ Hat); cycle 1.
  - by rewrite Ht.
  - pose proof (weight_items () m Hok') as Hw. rewrite Hit, length_app in Hw. lia.
  - by destruct (ahead_ k (tree_items m)).
  - cbn [mbind option_bind]. do 2 f_equal. rewrite filter_all by done. apply filter_ext_in. intros x _.
    assert (passed (map_key_cmp cmp) BiasLeft (K_ k) x = true ↔ cmp (ekey x) k = Lt) as Hp
      by exact (passed_left (map_key_cmp cmp) () (K_ k) x).
    destruct (passed _ _ _ _); naive_solver.
Qed.

(** The predicate is asked about every entry in order. *)
Fixpoint retain_list {St} (p : St → K → V → bool * St) (s : St) (l : list (MapEntry K V)) :
    list (MapEntry K V) * St :=
  match l with
  | [] => ([], s)
  | x :: l =>
      let '(keep, s) := p s (ekey x) (evalue x) in
      let '(l, s) := retain_list p s l in
      (if keep : bool then x :: l else l, s)
  end.

Lemma retain_loop_map {St} (p : St → K → V → bool * St) fuel s u c b r :
  cursor_at () c (spot_of b r) → (height (tree c) < STACK_CAPACITY)%nat → (length r < fuel)%nat →
  tree_ok () u →
  returns (retain_loop fuel p s u c) (λ '(u', s'),
    tree_ok () u' ∧ (tree_items u', s') = (tree_items u ++ (retain_list p s r).1, (retain_list p s r).2)).
Proof.
  revert s u c b r. induction fuel as [|fuel IH]; intros s u c b r Hat Hcap Hl Hu; [lia|].
  cbn [retain_loop]. rewrite (item_ok () c _ Hat (spot_of_not_fresh _ _)). cbn [mbind option_bind].
  destruct r as [|x r]; cbn [spot_of spot_item retain_list].
  { apply returns_ret. by rewrite app_nil_r. }
  destruct (p s (ekey x) (evalue x)) as [keep s1].
  eapply (returns_bind _ _ (λ u1, tree_ok () u1 ∧ tree_items u1 = tree_items u ++ if keep then [x] else [])).
  { destruct keep; [by apply (push_ok ())|]. apply returns_ret. by rewrite app_nil_r. }
  intros u1 [Hu1 Hi1]. eapply returns_bind; [by apply (next_ok () c b x r)|]. intros c' [Ht Hat'].
  eapply returns_mono; [apply (IH s1 u1 c' _ r Hat'); [by rewrite Ht|simpl in Hl; lia|done]|].
  intros [u' s'] [Hu' ->]. destruct (retain_list p s1 r) as [l s2]. cbn [fst snd]. split; [done|].
  f_equal. rewrite Hi1, <- app_assoc. by destruct keep.
Qed.

Lemma retain_map {St} m (p : St → K → V → bool * St) s :
  map_ok m →
  returns (retain m p s) (λ '(u, s'), tree_ok () u ∧ (tree_items u, s') = retain_list p s (tree_items m)).
Proof.
  intros (Hok & _ & Hcap). unfold retain.
  assert (filter_sound (T := MapEntry K V) () (λ _ : MapKey K, true)) as Hf by done.
  eapply returns_bind.
  { apply (search_forward_ok (D := MapKey K) () _ Hf (CursorOps.new () m) Fresh); [by apply at_fresh|done]. }
  intros c [Ht Hat]. unfold forward_spot in Hat. cbn [ahead tree CursorOps.new] in *.
  assert (forward_split () (λ _, true) (tree_items m) = ([], tree_items m)) as E by (by destruct (tree_items m)).
  rewrite E in Hat. cbn [fst snd app] in Hat.
  eapply returns_mono.
  - apply (retain_loop_map p (weight m) s (TreeOps.new ()) c [] (tree_items m) Hat);
      [by rewrite Ht|by apply (weight_items ())|by left].
  - intros [u s'] [Hu ->]. split; [done|]. by destruct (retain_list _ _ _).
Qed.

End map.

(** *** As a function from keys to values *)

Section properties.
Context {K V : Type} `{!EqDecision K} (cmp : K → K → comparison) `{!TotalOrd cmp}.
Implicit Types (m : TreeMap K V) (k : K) (v : V) (x : MapEntry K V) (l : list (K * V)).

Import TreeMapOps.

Lemma map_at_Some m k v :
  ksorted (map_key_cmp cmp) (tree_items m) → map_at k m = Some v ↔ mkMapEntry k v ∈ tree_items m.
Proof.
  intros Hs. unfold map_at.
  pose proof (λ x, lookup_key_Some (map_key_cmp cmp) () (tree_items m) (mkMapKey (Some k)) x Hs) as H.
  destruct (lookup_key _ _) as [[k' v']|]; simpl.
  - destruct (proj1 (H _) eq_refl) as [Hx [= ->]]. split; [by intros [= <-]|].
    intros Hv. by injection (proj2 (H (mkMapEntry k v)) (conj Hv eq_refl)) as ->.
  - split; [done|]. intros Hv. by pose proof (proj2 (H (mkMapEntry k v)) (conj Hv eq_refl)).
Qed.

Lemma map_at_ext m k o :
  ksorted (map_key_cmp cmp) (tree_items m) →
  (∀ v, o = Some v ↔ mkMapEntry k v ∈ tree_items m) → map_at k m = o.
Proof. intros Hs Ho. apply option_eq. intros v. by rewrite map_at_Some, Ho. Qed.

(** The value of the first pair with the key. *)
Definition assoc k l : option V := option_map snd (head (filter (λ p, p.1 = k) l)).

Definition insertions l : list (KeyedTree.Edit (MapEntry K V) (MapKey K)) :=
  (λ '(k, v), Insert (mkMapEntry k v)) <$> l.

Lemma edit_for_insertions k l :
  edit_for (mkMapKey (Some k)) (insertions l) = option_map (λ v, Insert (mkMapEntry k v)) (assoc k l).
Proof.
  unfold edit_for, assoc, insertions. induction l as [|[k' v] l IH]; [done|].
  rewrite fmap_cons, !filter_cons. cbn [KeyedOps.edit_key key map_entry_key ekey fst].
  destruct (decide (k' = k)) as [->|Hk]; [by rewrite decide_True|].
  rewrite decide_False by congruence. exact IH.
Qed.

Lemma ksorted_same_keys (g : MapEntry K V → MapEntry K V) (l : list (MapEntry K V)) :
  (∀ x, ekey (g x) = ekey x) → ksorted (map_key_cmp cmp) l → ksorted (map_key_cmp cmp) (g <$> l).
Proof.
  intros Hg Hl. induction Hl as [|x l Hl IH Hx]; [constructor|]. rewrite fmap_cons. constructor; [done|].
  apply Forall_fmap. eapply Forall_impl; [exact Hx|]. intros y. unfold key_lt. simpl. by rewrite !Hg.
Qed.

Lemma insertions_keys l : KeyedOps.edit_key <$> insertions l = (λ k, mkMapKey (Some k)) <$> l.*1.
Proof. unfold insertions. rewrite <- !list_fmap_compose. by apply list_fmap_ext; intros i [k v] _. Qed.

Lemma insertions_NoDup l : NoDup l.*1 → NoDup (KeyedOps.edit_key <$> insertions l).
Proof. intros Hl. rewrite insertions_keys. apply NoDup_fmap_2; [|done]. by intros a b [= ->]. Qed.

Lemma ksorted_NoDup m : ksorted (map_key_cmp cmp) (tree_items m) → NoDup (entries m).*1.
Proof.
  intros Hs. unfold entries. induction Hs as [|x l Hs IH Hx]; [constructor|].
  cbn [List.map fmap list_fmap]. constructor; [|done].
  intros (p & Hp & Hin)%list_elem_of_fmap. apply list_elem_of_In, in_map_iff in Hin as (y & <- & Hy%list_elem_of_In).
  rewrite Forall_forall in Hx. specialize (Hx y Hy). unfold key_lt, map_key_cmp in Hx. simpl in *.
  by rewrite Hp, (ord_refl cmp) in Hx.
Qed.

Lemma assoc_entries m k : assoc k (entries m) = map_at k m.
Proof.
  unfold assoc, map_at, lookup_key, entries. induction (tree_items m) as [|x l IH]; [done|].
  cbn [List.map]. rewrite !filter_cons. cbn [pair_of fst key map_entry_key].
  destruct (decide (ekey x = k)) as [->|Hk]; [by rewrite decide_True|].
  rewrite decide_False by congruence. exact IH.
Qed.

Lemma edit_insertions sort m l :
  Sorting (edit_le (map_key_cmp cmp)) sort → map_ok cmp m → NoDup l.*1 →
  returns (fst <$> KeyedOps.edit (map_key_cmp cmp) () sort m (insertions l)) (λ u,
    map_built cmp u ∧ ∀ k, map_at k u = match assoc k l with Some v => Some v | None => map_at k m end).
Proof.
  intros Hsort Hok Hl. apply returns_fmap. eapply returns_mono.
  - by apply (edit_map_ok (map_key_cmp cmp) () sort m (insertions l) Hsort Hok), insertions_NoDup.
  - intros [u o] (Hu & Hs & Hat & _). split; [done|]. intros k. unfold map_at.
    rewrite Hat, edit_for_insertions. by destruct (assoc k l).
Qed.

(** C29: a [TreeMap] is a map: looking up, inserting, removing and updating one
    key act on that key only and report its old value, [extend] with distinct
    keys and [insert_tree] overwrite the keys they bring; nothing panics. *)
Theorem tree_map_is_map (sort : list (KeyedTree.Edit (MapEntry K V) (MapKey K)) → _)
    (Hsort : Sorting (edit_le (map_key_cmp cmp)) sort) m (Hok : map_ok cmp m) :
  (∀ k, get cmp m k = map_at k m ∧ contains_key cmp m k = bool_decide (is_Some (map_at k m))) ∧
  (∀ k v, returns (insert_or_replace cmp m k v) (λ '(u, old),
    insert cmp m k v = Some u ∧ map_built cmp u ∧ old = map_at k m ∧
    ∀ k', map_at k' u = if decide (k' = k) then Some v else map_at k' m)) ∧
  (∀ k, returns (remove cmp m k) (λ '(u, old), map_built cmp u ∧ old = map_at k m ∧
    ∀ k', map_at k' u = if decide (k' = k) then None else map_at k' m)) ∧
  (∀ (R : Type) k (f : V → R * V), returns (update cmp m k f) (λ '(u, result),
    map_built cmp u ∧ result = option_map (λ v, fst (f v)) (map_at k m) ∧
    ∀ k', map_at k' u =
      if decide (k' = k) then option_map (λ v, snd (f v)) (map_at k m) else map_at k' m)) ∧
  (∀ l, NoDup l.*1 → returns (extend cmp sort m l) (λ u, map_built cmp u ∧
    ∀ k, map_at k u = match assoc k l with Some v => Some v | None => map_at k m end)) ∧
  (∀ other, map_ok cmp other → returns (insert_tree cmp sort m other) (λ u, map_built cmp u ∧
    ∀ k, map_at k u = match map_at k other with Some v => Some v | None => map_at k m end)).
Proof.
  pose proof Hok as (Hok' & Hs & Hcap). split_and!.
  - intros k. unfold contains_key. rewrite (get_map cmp) by done. split; [done|].
    destruct (map_at k m); symmetry; [by apply bool_decide_eq_true|].
    apply bool_decide_eq_false. by intros [? ?].
  - intros k v. unfold insert, insert_or_replace.
    destruct (insert_map_ok (map_key_cmp cmp) () m (mkMapEntry k v) Hok) as ([u o] & -> & Hu & Hus & -> & Hl).
    apply returns_ret. split_and!; [done|by split|done|]. intros k'. unfold map_at. rewrite Hl.
    cbn [key map_entry_key ekey]. destruct (decide (k' = k)) as [->|Hk]; [by rewrite decide_True|].
    by rewrite decide_False by congruence.
  - intros k. eapply returns_mono; [by apply (remove_map cmp)|]. intros [u o] (Hu & Hi & ->).
    assert (ksorted (map_key_cmp cmp) (tree_items u)) as Hus by (rewrite Hi; by apply (ksorted_filter _)).
    split_and!; [by split|done|]. intros k'. apply map_at_ext; [done|]. intros v.
    rewrite Hi, list_elem_of_filter. cbn [ekey]. case_decide; [naive_solver|]. rewrite map_at_Some by done. naive_solver.
  - intros R k f. eapply returns_mono; [by apply (update_map cmp)|]. intros [u o] (Hu & -> & Hi).
    set (g := λ x, _ : MapEntry K V) in Hi.
    assert (∀ x, ekey (g x) = ekey x) as Hg by (intros x; unfold g; by case_bool_decide).
    assert (ksorted (map_key_cmp cmp) (tree_items u)) as Hus by (rewrite Hi; by apply ksorted_same_keys).
    split_and!; [by split|done|]. intros k'. apply map_at_ext; [done|]. intros v.
    rewrite Hi, list_elem_of_fmap. unfold g. case_decide as Hk.
    + subst k'. destruct (map_at k m) as [w|] eqn:Ew; simpl.
      * apply (map_at_Some m k w Hs) in Ew as Hw. split.
        { intros [= <-]. exists (mkMapEntry k w). by rewrite bool_decide_true. }
        intros ([k' w'] & He & Hx). simpl in He. case_bool_decide; [|congruence]. injection He as Hv Hkv.
        subst. apply (map_at_Some m) in Hx; [|done]. congruence.
      * split; [done|]. intros ([k' w'] & He & Hx). simpl in He. case_bool_decide; [|congruence].
        subst. apply (map_at_Some m) in Hx; [|done]. congruence.
    + rewrite (map_at_Some m) by done. split.
      * intros Hx. exists (mkMapEntry k' v). by rewrite bool_decide_false.
      * intros ([k2 w'] & He & Hx). simpl in He. case_bool_decide; congruence.
  - intros l Hl. by apply edit_insertions.
  - intros other (Hoo & Hos & Hoc). unfold insert_tree, iter. rewrite (to_list_ok () other Hoo Hoc).
    cbn [mbind option_bind]. eapply returns_mono.
    + apply (edit_insertions sort m (entries other) Hsort Hok). by apply ksorted_NoDup.
    + intros u [Hu Hat]. split; [done|]. intros k. by rewrite Hat, assoc_entries.
Qed.

(** C37: traversals and ranges. The entries come in the order of their keys;
    [closest] is the last entry whose key is at most the given one, [iter_from]
    yields the entries from a key on, [remove_range] keeps those before its
    start and those not before its end, and [retain] asks its predicate once
    for every entry, in order. *)
Theorem tree_map_traversals m (Hok : map_ok cmp m) :
  iter m = Some (entries m) ∧ values m = Some (entries m).*2 ∧
  first m = Some (head (entries m)) ∧ last m = Some (list.last (entries m)) ∧
  is_empty m = bool_decide (entries m = []) ∧
  StronglySorted (λ p q, cmp p.1 q.1 = Lt) (entries m) ∧
  (∀ k, closest cmp m k = Some (list.last (filter (λ p, cmp p.1 k ≠ Gt) (entries m)))) ∧
  (∀ k, iter_from cmp m k = Some (filter (λ p, cmp p.1 k ≠ Lt) (entries m))) ∧
  (∀ start end_, upward cmp start → upward cmp end_ →
    returns (remove_range m start end_) (λ u, tree_ok () u ∧
      entries u = filter (λ p, start p.1 = Gt) (entries m) ++ filter (λ p, end_ p.1 ≠ Gt) (entries m))) ∧
  (∀ (St : Type) (p : St → K → V → bool * St) s,
    returns (retain m p s) (λ '(u, s'), tree_ok () u ∧ (tree_items u, s') = retain_list p s (tree_items m))).
Proof.
  pose proof Hok as (Hok' & Hs & Hcap).
  assert (∀ (P : K * V → Prop) `{!∀ p, Decision (P p)} (l : list (MapEntry K V)),
    filter P (List.map pair_of l) = List.map pair_of (filter (λ x : MapEntry K V, P (pair_of x)) l)) as Hfilter.
  { intros P HP l. induction l as [|x l IH]; [done|]. cbn [List.map]. rewrite !filter_cons, IH.
    by case_decide. }
  split_and!.
  - unfold iter. by rewrite (to_list_ok () m Hok' Hcap).
  - unfold values. rewrite (to_list_ok () m Hok' Hcap). simpl. unfold entries. f_equal.
    symmetry. apply List.map_map.
  - unfold first. rewrite (first_ok () m Hok'). simpl. unfold entries. by destruct (tree_items m).
  - unfold last. rewrite (last_ok () m Hok'). simpl. unfold entries. f_equal.
    change (List.map pair_of (tree_items m)) with (pair_of <$> tree_items m). by rewrite fmap_last.
  - unfold is_empty. rewrite (is_empty_ok () m Hok'). apply bool_decide_ext. unfold entries.
    by destruct (tree_items m).
  - unfold entries. induction Hs as [|x l Hl IH Hx]; [constructor|]. cbn [List.map]. constructor; [done|].
    apply Forall_forall. intros p (y & <- & Hy%list_elem_of_In)%list_elem_of_In%in_map_iff.
    rewrite Forall_forall in Hx. exact (Hx y Hy).
  - intros k. rewrite (closest_map cmp) by done. unfold entries. rewrite Hfilter.
    change (List.map pair_of ?l) with (pair_of <$> l). by rewrite fmap_last.
  - intros k. rewrite (iter_from_map cmp) by done. unfold entries. by rewrite Hfilter.
  - intros start end_ Hst Hen. eapply returns_mono; [by apply (remove_range_map cmp)|].
    intros u [Hu Hi]. split; [done|]. unfold entries. by rewrite Hi, !Hfilter, List.map_app.
  - intros St p s. by apply (retain_map cmp).
Qed.

End properties.

(** ** Sets *)

Definition TreeSet (K : Type) : Type := TreeMap K ().

Module TreeSetOps.
Section TreeSetOps.
Context {K : Type} `{!EqDecision K} (cmp : K → K → comparison).
Variable sort : list (KeyedTree.Edit (MapEntry K ()) (MapKey K)) →
                list (KeyedTree.Edit (MapEntry K ()) (MapKey K)).
Implicit Types (s : TreeSet K) (k : K).

Definition from_ordered_entries (entries : list K) : option (TreeSet K) :=
  TreeMapOps.from_ordered_entries ((λ key, (key, ())) <$> entries).
Definition is_empty s : bool := TreeMapOps.is_empty s.
Definition insert s k : option (TreeSet K) := TreeMapOps.insert cmp s k ().
Definition remove s k : option (TreeSet K * bool) :=
  '(s, removed) ← TreeMapOps.remove cmp s k;
  Some (s, match removed with Some _ => true | None => false end).
Definition extend s (iter : list K) : option (TreeSet K) :=
  TreeMapOps.extend cmp sort s ((λ key, (key, ())) <$> iter).
Definition contains s k : bool := match TreeMapOps.get cmp s k with Some _ => true | None => false end.
Definition iter s : option (list K) := option_map (List.map fst) (TreeMapOps.iter s).
Definition iter_from s k : option (list K) := option_map (List.map fst) (TreeMapOps.iter_from cmp s k).

End TreeSetOps.
End TreeSetOps.

Section set.
Context {K : Type} `{!EqDecision K} (cmp : K → K → comparison) `{!TotalOrd cmp}.

(** The members of a set. *)
Definition members (s : TreeSet K) : list K := (entries s).*1.

Lemma members_at (s : TreeSet K) k :
  ksorted (map_key_cmp cmp) (tree_items s) → k ∈ members s ↔ map_at k s = Some ().
Proof.
  intros Hs. rewrite (map_at_Some cmp) by done. unfold members, entries.
  rewrite list_elem_of_fmap. split.
  - intros ([k' []] & -> & Hp). apply list_elem_of_In, in_map_iff in Hp as ([k2 []] & [= <-] & Hx).
    by apply list_elem_of_In.
  - intros Hx. exists (k, ()). split; [done|]. apply list_elem_of_In, in_map_iff.
    exists (mkMapEntry k ()). split; [done|]. by apply list_elem_of_In.
Qed.

Lemma set_extend_ok (sort : list (KeyedTree.Edit (MapEntry K ()) (MapKey K)) → _) (s : TreeSet K) l :
  Sorting (edit_le (map_key_cmp cmp)) sort → map_ok cmp s → NoDup l →
  returns (TreeSetOps.extend cmp sort s l) (λ u, map_built cmp u ∧
    ∀ k, k ∈ members u ↔ k ∈ l ∨ k ∈ members s).
Proof.
  intros Hsort Hok Hl. pose proof Hok as (Hok' & Hs & Hcap). unfold TreeSetOps.extend, TreeMapOps.extend. eapply returns_mono.
  + apply (edit_insertions cmp sort s _ Hsort Hok). rewrite <- list_fmap_compose.
    assert ((fst ∘ λ key : K, (key, ())) <$> l = l) as -> by exact (list_fmap_id l). done.
  + intros u [Hu Hat]. split; [done|]. intros k. destruct Hu as [Hu Hus].
    rewrite !members_at, Hat by done.
    assert (assoc k ((λ key : K, (key, ())) <$> l) = if decide (k ∈ l) then Some () else None) as ->.
    { clear. unfold assoc. induction l as [|x l IH]; [done|]. rewrite fmap_cons, filter_cons. cbn [fst].
      destruct (decide (x = k)) as [->|Hx]; [by rewrite decide_True by left|]. rewrite IH.
      apply decide_ext. rewrite elem_of_cons. naive_solver. }
    case_decide; naive_solver.
Qed.

(** A [TreeSet] is a set: [contains] is membership, [insert], [remove] and
    [extend] change the members as their names say, and iteration is in order.
    Unlike for a map, [remove] says whether the key was there. *)
Theorem tree_set_is_set (sort : list (KeyedTree.Edit (MapEntry K ()) (MapKey K)) → _)
    (Hsort : Sorting (edit_le (map_key_cmp cmp)) sort) (s : TreeSet K) (Hok : map_ok cmp s) :
  (∀ k, TreeSetOps.contains cmp s k = bool_decide (k ∈ members s)) ∧
  TreeSetOps.iter s = Some (members s) ∧
  (∀ k, returns (TreeSetOps.insert cmp s k) (λ u, map_built cmp u ∧
    ∀ k', k' ∈ members u ↔ k' = k ∨ k' ∈ members s)) ∧
  (∀ k, returns (TreeSetOps.remove cmp s k) (λ '(u, present), map_built cmp u ∧
    present = bool_decide (k ∈ members s) ∧ ∀ k', k' ∈ members u ↔ k' ≠ k ∧ k' ∈ members s)) ∧
  (∀ l, NoDup l → returns (TreeSetOps.extend cmp sort s l) (λ u, map_built cmp u ∧
    ∀ k, k ∈ members u ↔ k ∈ l ∨ k ∈ members s)).
Proof.
  pose proof Hok as (Hok' & Hs & Hcap).
  assert (∀ k, match map_at k s with Some _ => true | None => false end = bool_decide (k ∈ members s)) as Hmem.
  { intros k. pose proof (members_at s k Hs) as Hk. destruct (map_at k s) as [[]|].
    - symmetry. apply bool_decide_eq_true. tauto.
    - symmetry. apply bool_decide_eq_false. naive_solver. }
  split_and!.
  - intros k. unfold TreeSetOps.contains. by rewrite (get_map cmp) by done.
  - unfold TreeSetOps.iter, TreeMapOps.iter. by rewrite (to_list_ok () s Hok' Hcap).
  - intros k. unfold TreeSetOps.insert, TreeMapOps.insert.
    destruct (insert_map_ok (map_key_cmp cmp) () s (mkMapEntry k ()) Hok) as ([u o] & -> & Hu & Hus & _ & Hl).
    apply returns_ret. split; [by split|]. intros k'. rewrite !members_at by done. unfold map_at. cbn [fst].
    rewrite Hl. cbn [key map_entry_key ekey]. destruct (decide (k' = k)) as [->|Hk].
    + rewrite decide_True by done. naive_solver.
    + rewrite decide_False by congruence. naive_solver.
  - intros k. unfold TreeSetOps.remove. eapply returns_bind; [by apply (remove_map cmp)|].
    intros [u o] (Hu & Hi & ->). apply returns_ret.
    assert (ksorted (map_key_cmp cmp) (tree_items u)) as Hus by (rewrite Hi; by apply (ksorted_filter _)).
    split_and!; [by split|apply Hmem|]. intros k'. rewrite !members_at, !(map_at_Some cmp) by done.
    by rewrite Hi, list_elem_of_filter.
  - intros l Hl. by apply set_extend_ok.
Qed.

End set.

(** ** A concrete map *)

Module Mapping.

Definition sort_entries {V} : list (KeyedTree.Edit (MapEntry N V) (MapKey N)) → _ :=
  merge_sort (λ a b, map_key_cmp N.compare (KeyedOps.edit_key a) (KeyedOps.edit_key b) ≠ Gt).

Lemma sort_entries_ok {V} : Sorting (edit_le (T := MapEntry N V) (map_key_cmp N.compare)) sort_entries.
Proof. apply (merge_sort_sorting (map_key_cmp N.compare) KeyedOps.edit_key). Qed.

Definition leaf {V} (l : list (N * V)) : TreeMap N V :=
  let items := (λ '(k, v), mkMapEntry k v) <$> l in
  Leaf (total () items) items (isummary () <$> items).

Definition sample : TreeMap N N := leaf [(1, 10); (4, 40); (6, 60)]%N.
Definition sample_set : TreeSet N := leaf [(1, ()); (4, ())]%N.

Lemma map_sample_ok : map_ok N.compare sample.
Proof.
  split_and!; [|repeat constructor|vm_compute; lia].
  right. exists 0%nat. simpl. split_and!; try done. unfold TREE_BASE. lia.
Qed.

Lemma sample_set_ok : map_ok N.compare sample_set.
Proof.
  split_and!; [|repeat constructor|vm_compute; lia].
  right. exists 0%nat. simpl. split_and!; try done. unfold TREE_BASE. lia.
Qed.

Example tree_map_is_map_witness :
  TreeMapOps.remove N.compare sample 4%N = Some (leaf [(1, 10); (6, 60)]%N, Some 40%N) ∧
  TreeMapOps.extend N.compare sort_entries sample [(5, 50); (1, 11)]%N =
    Some (leaf [(1, 11); (4, 40); (5, 50); (6, 60)]%N) ∧
  TreeMapOps.get N.compare sample 4%N = map_at 4%N sample.
Proof.
  split_and!; [by vm_compute|by vm_compute|].
  exact (proj1 (proj1 (tree_map_is_map N.compare sort_entries sort_entries_ok sample map_sample_ok) 4%N)).
Defined.

Example tree_map_traversals_witness :
  TreeMapOps.closest N.compare sample 5%N = Some (Some (4, 40)%N) ∧
  TreeMapOps.remove_range sample (N.compare 2) (N.compare 6) = Some (leaf [(1, 10); (6, 60)]%N) ∧
  TreeMapOps.iter sample = Some (entries sample).
Proof.
  split_and!; [by vm_compute|by vm_compute|].
  exact (proj1 (tree_map_traversals N.compare sample map_sample_ok)).
Defined.

Example tree_set_is_set_witness :
  TreeSetOps.remove N.compare sample_set 4%N = Some (leaf [(1, ())]%N, true) ∧
  TreeSetOps.contains N.compare sample_set 2%N = bool_decide (2%N ∈ members sample_set).
Proof.
  split; [by vm_compute|].
  exact (proj1 (tree_set_is_set N.compare sort_entries sort_entries_ok sample_set sample_set_ok) 2%N).
Defined.

(** [extend] with a key given twice stores both entries: the order of the keys
    is no longer strict, and one of the values is unreachable. *)
Example extend_duplicates :
  TreeMapOps.extend N.compare sort_entries sample [(5, 50); (5, 51)]%N =
    Some (leaf [(1, 10); (4, 40); (5, 50); (5, 51); (6, 60)]%N).
Proof. by vm_compute. Qed.

End Mapping.
