(* ===== verification/UndoMap.v ===== *)
(** * Undo counts: [crates/text/src/undo_map.rs]

    Every undo or redo of an edit raises a counter of the edit; the edit is
    undone while the highest counter is odd. The counters of concurrent
    operations are kept in a tree sorted by edit and by operation. *)

From stdpp Require Import sets sorting.
From S2P Require Import Prelude Clock SumTree SumCursor CursorSpec CursorWalk KeyedTree.
Import NodeOps TreeOps CursorOps.

#[local] Unset Default Proof Using.
#[local] Arguments Nat.mul : simpl never.
#[local] Open Scope N_scope.
#[local] Existing Instance LamportOps.cmp_total.

(** ** Data *)

Record UndoMapKey := mkUndoMapKey { edit_id : Lamport; undo_id : Lamport }.

#[export] Instance UndoMapKey_eq_dec : EqDecision UndoMapKey.
Proof. solve_decision. Defined.

(** The derived [Ord]. *)
Definition undo_key_cmp (a b : UndoMapKey) : comparison :=
  then_with (LamportOps.cmp (edit_id a) (edit_id b)) (LamportOps.cmp (undo_id a) (undo_id b)).

(** The field [undo_count] is a [u32]. *)
Record UndoMapEntry := mkUndoMapEntry { ukey : UndoMapKey; entry_count : N }.

#[export] Instance UndoMapEntry_eq_dec : EqDecision UndoMapEntry.
Proof. solve_decision. Defined.

Definition undo_key_zero : UndoMapKey := mkUndoMapKey LamportOps.MIN LamportOps.MIN.

#[export] Instance undo_map_item : Item UndoMapEntry UndoMapKey () := {| isummary _ entry := ukey entry |}.
#[export] Instance undo_map_keyed : KeyedItem UndoMapEntry UndoMapKey := {| key entry := ukey entry |}.
#[export] Instance undo_key_summary : Summary UndoMapKey () :=
  {| szero _ := undo_key_zero; sadd _ := cmp_max undo_key_cmp |}.
#[export] Instance undo_key_dimension : Dimension UndoMapKey UndoMapKey () := summary_dimension.

Definition UndoMap : Type := Node UndoMapEntry UndoMapKey.

(** [UndoOperation]; the entries of the [HashMap] in the order in which it
    iterates over them. *)
Record UndoOperation := mkUndoOperation {
  timestamp : Lamport;
  version : Global;
  counts : list (Lamport * N) }.

(** ** Operations *)

Module UndoMapOps.

Definition edits (undo : UndoOperation) : list (Edit UndoMapEntry UndoMapKey) :=
  (λ '(edit_id, count), Insert (mkUndoMapEntry (mkUndoMapKey edit_id (timestamp undo)) count))
    <$> counts undo.

Definition insert (sort : list (Edit UndoMapEntry UndoMapKey) → list (Edit UndoMapEntry UndoMapKey))
    (m : UndoMap) (undo : UndoOperation) : option UndoMap :=
  fst <$> KeyedOps.edit undo_key_cmp () sort m (edits undo).

(** The loops of [undo_count] and [was_undone]: the second also asks whether
    the operation has been observed. *)
Fixpoint count_loop (fuel : nat) (seen : Lamport → bool) (id : Lamport) (undo_count_ : N)
    (c : Cursor UndoMapEntry UndoMapKey UndoMapKey) : option N :=
  match fuel with
  | O => None
  | Datatypes.S fuel =>
      '(entry, c) ← iter_next () (λ _, true) c;
      match entry with
      | Some entry =>
          if negb (bool_decide (edit_id (ukey entry) = id)) then Some undo_count_
          else count_loop fuel seen id
                 (if seen (undo_id (ukey entry)) then N.max undo_count_ (entry_count entry)
                  else undo_count_) c
      | None => Some undo_count_
      end
  end.

Definition count (seen : Lamport → bool) (m : UndoMap) (id : Lamport) : option N :=
  '(_, c) ← seek () (undo_key_cmp (mkUndoMapKey id LamportOps.MIN)) BiasLeft (CursorOps.new () m);
  count_loop (weight m) seen id 0 c.

Definition undo_count (m : UndoMap) (id : Lamport) : option N := count (λ _, true) m id.

Definition is_undone (m : UndoMap) (id : Lamport) : option bool :=
  c ← undo_count m id; Some (c mod 2 =? 1).

Definition was_undone (m : UndoMap) (id : Lamport) (version : Global) : option bool :=
  c ← count (GlobalOps.observed version) m id; Some (c mod 2 =? 1).

End UndoMapOps.
Import UndoMapOps.

(** ** Keys *)

#[export] Instance undo_key_total : TotalOrd undo_key_cmp.
Proof. apply (lex_total LamportOps.cmp LamportOps.cmp). intros [] []; simpl. congruence. Qed.

Lemma lamport_min_le t : LamportOps.cmp LamportOps.MIN t ≠ Gt.
Proof.
  destruct t as [v r]. unfold LamportOps.cmp. simpl. by destruct v, r.
Qed.

Lemma undo_zero_le k : undo_key_cmp undo_key_zero k ≠ Gt.
Proof.
  unfold undo_key_cmp. simpl. pose proof (lamport_min_le (edit_id k)). pose proof (lamport_min_le (undo_id k)).
  by destruct (LamportOps.cmp LamportOps.MIN (edit_id k)).
Qed.

#[export] Instance undo_summary_laws : SummaryLaws UndoMapKey () ().
Proof.
  split.
  - intros k. unfold sadd, szero. simpl. unfold cmp_max. pose proof (undo_zero_le k).
    by destruct (undo_key_cmp undo_key_zero k).
  - intros a b c. apply (cmp_max_assoc undo_key_cmp).
Qed.

#[export] Instance undo_dimension_laws : DimensionLaws UndoMapKey UndoMapKey () ().
Proof. split; [split|done]. intros d a b. symmetry. apply (cmp_max_assoc undo_key_cmp). Qed.

#[export] Instance undo_keyed_laws : KeyedLaws (T := UndoMapEntry) undo_key_cmp ().
Proof.
  split; [apply _|apply undo_zero_le|]. intros d x Hd. unfold dadd. simpl. unfold cmp_max. simpl in Hd.
  by destruct (undo_key_cmp d (ukey x)).
Qed.

(** ** Counting *)

Definition undo_ok (m : UndoMap) : Prop := keyed_ok undo_key_cmp () m.

Section counts.
Implicit Types (m : UndoMap) (x : UndoMapEntry) (l r : list UndoMapEntry) (id : Lamport).

Definition raise (seen : Lamport → bool) (n : N) x : N :=
  if seen (undo_id (ukey x)) then N.max n (entry_count x) else n.

Abbreviation about id := (λ x, edit_id (ukey x) = id).

Lemma key_min_le id x : edit_id (ukey x) = id → undo_key_cmp (mkUndoMapKey id LamportOps.MIN) (ukey x) ≠ Gt.
Proof.
  intros <-. unfold undo_key_cmp. simpl. rewrite (ord_refl LamportOps.cmp). simpl. apply lamport_min_le.
Qed.

(** After the first entry of a later edit there is none of the edit. *)
Lemma about_prefix id x r :
  ksorted undo_key_cmp (x :: r) → passed undo_key_cmp BiasLeft (mkUndoMapKey id LamportOps.MIN) x = false →
  edit_id (ukey x) ≠ id → filter (about id) r = [].
Proof.
  intros [_ Hx]%StronglySorted_inv Hp Hne. rewrite Forall_forall in Hx.
  apply filter_none. intros y Hy <-. specialize (Hx y Hy). unfold key_lt in Hx. simpl in Hx.
  assert (¬ undo_key_cmp (ukey x) (mkUndoMapKey (edit_id (ukey y)) LamportOps.MIN) = Lt) as Hn.
  { intros H. pose proof (proj2 (passed_left undo_key_cmp () (mkUndoMapKey (edit_id (ukey y)) LamportOps.MIN) x) H). congruence. }
  unfold undo_key_cmp in Hx, Hn. simpl in *.
  destruct (LamportOps.cmp (edit_id (ukey x)) (edit_id (ukey y))) eqn:E; [|done|done].
  by apply (ord_eq LamportOps.cmp) in E.
Qed.

Lemma count_loop_ok fuel seen id n t c b r :
  between undo_key_cmp () t c b r → (length r < fuel)%nat →
  (∀ x, x ∈ r → passed undo_key_cmp BiasLeft (mkUndoMapKey id LamportOps.MIN) x = false) →
  count_loop fuel seen id n c = Some (foldl (raise seen) n (filter (about id) r)).
Proof.
  revert n c b r. induction fuel as [|fuel IH]; intros n c b r Hb Hl Hr; [lia|]. cbn [count_loop].
  destruct (between_iter_next undo_key_cmp () t c b r Hb) as ([o c'] & -> & -> & Hb').
  cbn [mbind option_bind]. destruct r as [|x r]; cbn [head]; [done|].
  pose proof Hb as (_ & _ & _ & Hs). apply (ksorted_app undo_key_cmp) in Hs as (_ & Hs & _).
  case_bool_decide as Hx; cbn [negb].
  - rewrite filter_cons_True by done. cbn [foldl]. eapply (IH _ c' _ r Hb'); [simpl in Hl; lia|].
    intros y Hy. apply Hr. by right.
  - rewrite filter_cons_False, (about_prefix id x r Hs); [done|apply Hr; left|done|done].
Qed.

Lemma count_ok seen m id :
  undo_ok m → count seen m id = Some (foldl (raise seen) 0 (filter (about id) (tree_items m))).
Proof.
  intros Hok. pose proof Hok as (Hok' & Hs & _). unfold count.
  destruct (between_seek undo_key_cmp () m (mkUndoMapKey id LamportOps.MIN) BiasLeft Hok) as ([f c] & -> & Hc).
  cbn [mbind option_bind]. rewrite (count_loop_ok (weight m) seen id 0 m c _ _ Hc).
  - do 2 f_equal. set (k := mkUndoMapKey id LamportOps.MIN).
    assert (filter (about id) (filter (λ x, passed undo_key_cmp BiasLeft k x = true) (tree_items m)) = []) as Hb.
    { apply filter_none. intros x [Hx _]%list_elem_of_filter Hid. apply (passed_left undo_key_cmp ()) in Hx.
      apply key_min_le in Hid. apply (ord_gt_lt undo_key_cmp) in Hx. done. }
    rewrite <- (passed_app undo_key_cmp () k (tree_items m) Hs) at 2. by rewrite filter_app, Hb.
  - pose proof (weight_items () m Hok') as Hw. destruct Hc as (_ & _ & Hit & _).
    rewrite Hit, length_app in Hw. lia.
  - by intros x [Hx _]%list_elem_of_filter.
Qed.

(** [n] is the highest count of the entries of [id] that have been seen. *)
Definition highest (seen : Lamport → bool) l id (n : N) : Prop :=
  (∀ x, x ∈ l → edit_id (ukey x) = id → seen (undo_id (ukey x)) = true → entry_count x ≤ n) ∧
  (n = 0 ∨ ∃ x, x ∈ l ∧ edit_id (ukey x) = id ∧ seen (undo_id (ukey x)) = true ∧ entry_count x = n).

Lemma raise_highest seen l id : highest seen l id (foldl (raise seen) 0 (filter (about id) l)).
Proof.
  induction l as [|x l [IH1 IH2]] using rev_ind; [split; [by intros ? ?%elem_of_nil|by left]|].
  rewrite filter_app, foldl_app.
  assert (filter (about id) [x] = if decide (edit_id (ukey x) = id) then [x] else []) as -> by done.
  set (n := foldl _ _ _) in *. case_decide as Hx; cbn [foldl]; unfold raise; [destruct (seen _) eqn:Es|]; split.
  - intros y [Hy| ->%list_elem_of_singleton]%elem_of_app Hid Hsy; [specialize (IH1 y Hy Hid Hsy); lia|lia].
  - destruct (N.max_spec n (entry_count x)) as [[_ ->]|[_ ->]].
    + right. exists x. split_and!; [set_solver|done..].
    + destruct IH2 as [?|(y & Hy & ?)]; [by left|right; exists y; split; [set_solver|done]].
  - intros y [Hy| ->%list_elem_of_singleton]%elem_of_app Hid Hsy; [by apply IH1|congruence].
  - destruct IH2 as [?|(y & Hy & ?)]; [by left|right; exists y; split; [set_solver|done]].
  - intros y [Hy| ->%list_elem_of_singleton]%elem_of_app Hid Hsy; [by apply IH1|congruence].
  - destruct IH2 as [?|(y & Hy & ?)]; [by left|right; exists y; split; [set_solver|done]].
Qed.

(** C28: [undo_count] is the highest count recorded for an edit, and
    [was_undone] looks at the operations of a version only; an edit is undone
    when the count is odd. The loops end and nothing panics. *)
Theorem undo_counts m (Hok : undo_ok m) id (v : Global) :
  (∃ n, UndoMapOps.undo_count m id = Some n ∧ highest (λ _, true) (tree_items m) id n ∧
        is_undone m id = Some (n mod 2 =? 1)) ∧
  (∃ n, highest (GlobalOps.observed v) (tree_items m) id n ∧ was_undone m id v = Some (n mod 2 =? 1)).
Proof.
  split.
  - eexists. unfold is_undone, UndoMapOps.undo_count. rewrite (count_ok _ m id Hok).
    split_and!; [done|apply raise_highest|done].
  - eexists. unfold was_undone. rewrite (count_ok _ m id Hok). split; [apply raise_highest|done].
Qed.

End counts.

(** ** Recording operations *)

Section insert.
Implicit Types (m : UndoMap) (x : UndoMapEntry) (u : UndoOperation) (us : list UndoOperation).
Variable sort : list (Edit UndoMapEntry UndoMapKey) → list (Edit UndoMapEntry UndoMapKey).
Hypothesis Hsort : Sorting (edit_le undo_key_cmp) sort.

(** The entries that an operation records. A [HashMap] has each key once. *)
Definition records u x : Prop :=
  undo_id (ukey x) = timestamp u ∧ (edit_id (ukey x), entry_count x) ∈ counts u.

Definition well_formed u : Prop := NoDup (counts u).*1.

Lemma edits_records u x : Insert x ∈ edits u ↔ records u x.
Proof using Type.
  unfold edits, records. rewrite list_elem_of_fmap. split.
  - by intros ([e n] & [= ->] & Hin).
  - intros [Ht Hin]. exists (edit_id (ukey x), entry_count x). destruct x as [[e i] n]. simpl in *. by subst.
Qed.

Lemma edits_key u k : k ∈ KeyedOps.edit_key <$> edits u ↔ undo_id k = timestamp u ∧ edit_id k ∈ (counts u).*1.
Proof using Type.
  unfold edits. rewrite <- list_fmap_compose, list_elem_of_fmap. split.
  - intros ([e n] & -> & Hin). simpl. split; [done|]. apply list_elem_of_fmap. by exists (e, n).
  - intros [Ht ([e n] & He & Hin)%list_elem_of_fmap]. exists (e, n). destruct k. simpl in *. by subst.
Qed.

Lemma edits_NoDup u : well_formed u → NoDup (KeyedOps.edit_key <$> edits u).
Proof using Type.
  intros Hn.
  assert (KeyedOps.edit_key <$> edits u = (λ e, mkUndoMapKey e (timestamp u)) <$> (counts u).*1) as ->.
  { unfold edits. rewrite <- !list_fmap_compose. apply list_fmap_ext. by intros i [e n] _. }
  apply NoDup_fmap_2; [by intros a b [= ->]|done].
Qed.

Lemma insert_ok m u :
  undo_ok m → well_formed u →
  returns (insert sort m u) (λ m', tree_ok () m' ∧ ksorted undo_key_cmp (tree_items m') ∧
    ∀ x, x ∈ tree_items m' ↔
      records u x ∨ x ∈ tree_items m ∧ ¬ (undo_id (ukey x) = timestamp u ∧ edit_id (ukey x) ∈ (counts u).*1)).
Proof using Hsort.
  intros Hok Hu. apply returns_fmap. eapply returns_mono.
  - by apply (edit_members undo_key_cmp () sort m (edits u) Hsort Hok), edits_NoDup.
  - intros [m' o] (Hm & Hs & Hi). split_and!; [done|done|]. intros x. cbn [fst].
    by rewrite Hi, edits_records, edits_key.
Qed.

(** A sequence of operations recorded one after the other, on maps that the
    cursor's stack can hold. *)
Inductive recorded : UndoMap → list UndoOperation → UndoMap → Prop :=
| recorded_nil m : recorded m [] m
| recorded_cons m u us m1 m2 :
    insert sort m u = Some m1 → (height m1 < STACK_CAPACITY)%nat → recorded m1 us m2 →
    recorded m (u :: us) m2.

(** The timestamps of the operations are new and distinct. *)
Definition fresh_in m us : Prop :=
  NoDup (timestamp <$> us) ∧ ∀ x u, x ∈ tree_items m → u ∈ us → undo_id (ukey x) ≠ timestamp u.

Lemma recorded_ok m us m' :
  recorded m us m' → undo_ok m → Forall well_formed us → fresh_in m us →
  undo_ok m' ∧ ∀ x, x ∈ tree_items m' ↔ x ∈ tree_items m ∨ ∃ u, u ∈ us ∧ records u x.
Proof using Hsort.
  intros Hrec. induction Hrec as [m|m u us m1 m2 Hi Hcap Hrec IH]; intros Hok Hwf [Hnd Hfr].
  { split; [done|]. intros x. split; [auto|]. intros [?|(u & ?%elem_of_nil & _)]; done. }
  apply Forall_cons in Hwf as [Hu Hwf]. rewrite fmap_cons in Hnd. apply NoDup_cons in Hnd as [Hut Hnd].
  destruct (insert_ok m u Hok Hu) as (m1' & Hi' & Hm1 & Hs1 & Hx1). rewrite Hi in Hi'. injection Hi' as <-.
  destruct IH as [Hok2 Hx2]; [done|done| |].
  { split; [done|]. intros x v [[Ht _]|[Hx _]]%Hx1 Hv.
    - rewrite Ht. intros E. apply Hut. rewrite E. by apply list_elem_of_fmap_2.
    - apply Hfr; [done|by right]. }
  split; [done|]. intros x. rewrite Hx2, Hx1. specialize (Hfr x u).
  assert (u ∈ u :: us) as Huu by left. split.
  - intros [[Hr|[Hx _]]|(v & Hv & Hr)]; [right; by exists u|by left|right; exists v; split; [by right|done]].
  - intros [Hx|(v & [->|Hv]%elem_of_cons & Hr)]; [left; right; split; [done|naive_solver]|by left; left|right; by exists v].
Qed.

(** The map converges. Replicas that record the same operations, in
    whatever order they arrive, hold the same entries and agree on which edits
    are undone. *)
Theorem undo_map_converges m us vs m1 m2
    (Hok : undo_ok m) (Hwf : Forall well_formed us) (Hfresh : fresh_in m us) (Hperm : us ≡ₚ vs)
    (H1 : recorded m us m1) (H2 : recorded m vs m2) :
  tree_items m1 = tree_items m2 ∧
  ∀ id v, is_undone m1 id = is_undone m2 id ∧ was_undone m1 id v = was_undone m2 id v.
Proof using Hsort.
  destruct (recorded_ok m us m1 H1 Hok Hwf Hfresh) as [Hok1 Hx1].
  destruct (recorded_ok m vs m2 H2 Hok) as [Hok2 Hx2].
  { by rewrite <- Hperm. }
  { destruct Hfresh as [Hnd Hfr]. split; [by rewrite <- Hperm|]. intros x u Hx Hu. apply Hfr; [done|].
    by rewrite Hperm. }
  assert (tree_items m1 = tree_items m2) as E.
  { pose proof Hok1 as (_ & Hs1 & _). pose proof Hok2 as (_ & Hs2 & _).
    apply (ksorted_ext undo_key_cmp () _ _ Hs1 Hs2). intros x. rewrite Hx1, Hx2.
    by setoid_rewrite Hperm. }
  split; [done|]. intros id v. unfold is_undone, was_undone, UndoMapOps.undo_count.
  rewrite !count_ok by done. by rewrite E.
Qed.

End insert.

(** ** A concrete map *)

Module Undoing.

Definition sort_edits : list (Edit UndoMapEntry UndoMapKey) → list (Edit UndoMapEntry UndoMapKey) :=
  merge_sort (λ a b, undo_key_cmp (KeyedOps.edit_key a) (KeyedOps.edit_key b) ≠ Gt).

Lemma sort_edits_ok : Sorting (edit_le (T := UndoMapEntry) undo_key_cmp) sort_edits.
Proof. apply (merge_sort_sorting undo_key_cmp KeyedOps.edit_key). Qed.

Definition e1 : Lamport := mkLamport 1 0.
Definition e2 : Lamport := mkLamport 2 1.
Definition undo1 : UndoOperation := mkUndoOperation (mkLamport 3 0) GlobalOps.new [(e1, 1); (e2, 1)].
Definition undo2 : UndoOperation := mkUndoOperation (mkLamport 3 1) GlobalOps.new [(e1, 2)].

Definition none : UndoMap := TreeOps.new ().
Definition run (us : list UndoOperation) : UndoMap :=
  default none (foldl (λ m u, m ← m; insert sort_edits m u) (Some none) us).

Lemma none_ok : undo_ok none.
Proof. split_and!; [by left|constructor|vm_compute; lia]. Qed.

Lemma run_ok : undo_ok (run [undo1; undo2]).
Proof.
  assert (run [undo1; undo2] = ltac:(let t := eval vm_compute in (run [undo1; undo2]) in exact t)) as ->
    by (vm_compute; reflexivity).
  split_and!.
  - right. exists 0%nat. vm_compute. split_and!; try done. lia.
  - vm_compute. repeat constructor.
  - vm_compute. lia.
Qed.

Example undo_counts_witness :
  (is_undone (run [undo1; undo2]) e1 = Some false ∧ is_undone (run [undo1; undo2]) e2 = Some true) ∧
  (∃ n, UndoMapOps.undo_count (run [undo1; undo2]) e1 = Some n ∧
        highest (λ _, true) (tree_items (run [undo1; undo2])) e1 n ∧
        is_undone (run [undo1; undo2]) e1 = Some (n mod 2 =? 1)).
Proof.
  split; [by vm_compute|].
  exact (proj1 (undo_counts (run [undo1; undo2]) run_ok e1 GlobalOps.new)).
Defined.

Lemma run12 : recorded sort_edits none [undo1; undo2] (run [undo1; undo2]).
Proof.
  eapply recorded_cons; [vm_compute; reflexivity|vm_compute; lia|].
  eapply recorded_cons; [vm_compute; reflexivity|vm_compute; lia|]. constructor.
Qed.

Lemma run21 : recorded sort_edits none [undo2; undo1] (run [undo2; undo1]).
Proof.
  eapply recorded_cons; [vm_compute; reflexivity|vm_compute; lia|].
  eapply recorded_cons; [vm_compute; reflexivity|vm_compute; lia|]. constructor.
Qed.

Lemma undos_ok : Forall well_formed [undo1; undo2] ∧ fresh_in none [undo1; undo2].
Proof.
  split.
  - apply Forall_cons; split; [|apply Forall_cons; split; [|constructor]];
      (apply (bool_decide_unpack (NoDup _)); vm_compute; exact I).
  - split; [apply (bool_decide_unpack (NoDup _)); vm_compute; exact I|by intros x u ?%elem_of_nil].
Qed.

Example undo_map_converges_witness :
  [undo1; undo2] ≡ₚ [undo2; undo1] ∧
  tree_items (run [undo1; undo2]) = tree_items (run [undo2; undo1]).
Proof.
  split; [apply Permutation_swap|].
  exact (proj1 (undo_map_converges sort_edits sort_edits_ok none [undo1; undo2] [undo2; undo1] _ _
    none_ok (proj1 undos_ok) (proj2 undos_ok) (Permutation_swap undo2 undo1 []) run12 run21)).
Defined.

End Undoing.
