(* ===== verification/Points.v ===== *)
(** * Positions in a text: [crates/rope/src/point.rs], [point_utf16.rs] and [unclipped.rs]

    A point is a row and a column; the sources have the same code for columns
    in bytes and in UTF-16 units, which are one type here, indexed by the unit.
    Additions on [u32] are exact; the bounds under which they are exact in the
    code are stated where points are summed up over a text. *)

From S2P Require Import Prelude.

#[local] Open Scope N_scope.

Inductive Units := Utf8 | Utf16.

Record PointOf (u : Units) := mkPoint { row : N; column : N }.
Arguments mkPoint {u} _ _.
Arguments row {u} _.
Arguments column {u} _.

Abbreviation Point := (PointOf Utf8).
Abbreviation PointUtf16 := (PointOf Utf16).

#[export] Instance PointOf_eq_dec {u} : EqDecision (PointOf u).
Proof. solve_decision. Defined.

Module PointOps.
Section PointOps.
Context {u : Units}.
Implicit Types p q : PointOf u.

Definition new (row column : N) : PointOf u := mkPoint row column.
Definition zero : PointOf u := new 0 0.
Definition MAX : PointOf u := new (u32_modulus - 1) (u32_modulus - 1).

Definition row_range (range : Range N) : Range (PointOf u) :=
  mkPoint (start range) 0 ..: mkPoint (stop range) 0.

Definition is_zero p : bool := (row p =? 0) && (column p =? 0).

(** The comparison of [(row << 32) | column] as 64-bit integers. *)
Definition packed p : N := N.lor (N.shiftl (row p) 32) (column p).
Definition cmp p q : comparison := packed p ?= packed q.

(** The comparison compiled for targets with 32-bit pointers. *)
Definition cmp_32 p q : comparison :=
  match row p ?= row q with
  | Eq => column p ?= column q
  | comparison => comparison
  end.

Definition add p q : PointOf u :=
  if row q =? 0 then new (row p) (column p + column q)
  else new (row p + row q) (column q).

(** [None] is the failure of [debug_assert!(other <= self)]; after it, the
    subtractions do not underflow. *)
Definition sub p q : option (PointOf u) :=
  match cmp q p with
  | Gt => None
  | _ =>
      if row p =? row q then c ← usize_sub (column p) (column q); Some (new 0 c)
      else r ← usize_sub (row p) (row q); Some (new r (column p))
  end.

Definition saturating_sub p q : option (PointOf u) :=
  match cmp p q with Lt => Some zero | _ => sub p q end.

(** The values that the two fields can hold. *)
Definition in_range p : Prop := row p < u32_modulus ∧ column p < u32_modulus.

End PointOps.
End PointOps.
Import PointOps.

(** [Unclipped]: a point that may be past the end of its row. *)
Record Unclipped (T : Type) := mkUnclipped { unclipped : T }.
Arguments mkUnclipped {T} _.
Arguments unclipped {T} _.

(** ** Points measure text *)

Section points.
Context {u : Units}.
Implicit Types p q r : PointOf u.

Lemma point_ext p q : row p = row q → column p = column q → p = q.
Proof. destruct p, q; simpl; congruence. Qed.

Lemma add_zero_l p : add zero p = p.
Proof. destruct p as [r c]. unfold add, zero, new. simpl. by destruct (N.eqb_spec r 0) as [->|]. Qed.

Lemma add_zero_r p : add p zero = p.
Proof. destruct p. unfold add, zero, new. simpl. by rewrite N.add_0_r. Qed.

Lemma add_assoc p q r : add (add p q) r = add p (add q r).
Proof.
  destruct p, q, r. unfold add, new. simpl.
  repeat (match goal with |- context [?a =? 0] => destruct (N.eqb_spec a 0) end; simpl; try lia);
    f_equal; lia.
Qed.

(** The order that the packing of row and column into one word implements. *)
Lemma packed_sum p : column p < u32_modulus → packed p = row p * u32_modulus + column p.
Proof.
  intros Hc. unfold packed.
  assert (N.land (N.shiftl (row p) 32) (column p) = 0) as Hland.
  { apply N.bits_inj_0. intros i. rewrite N.land_spec.
    destruct (N.ltb_spec i 32); [by rewrite N.shiftl_spec_low|].
    rewrite (N.bits_above_log2 (column p)), andb_false_r; [done|].
    destruct (N.eq_dec (column p) 0) as [->|Hn]; [simpl; lia|].
    apply N.log2_lt_pow2; [lia|]. apply N.lt_le_trans with (2 ^ 32); [exact Hc|].
    by apply N.pow_le_mono_r. }
  by rewrite <- N.lxor_lor, <- N.add_nocarry_lxor, N.shiftl_mul_pow2.
Qed.

Lemma cmp_lex p q : in_range p → in_range q → cmp p q = cmp_32 p q.
Proof.
  intros [_ Hp] [_ Hq]. unfold cmp, cmp_32. rewrite !packed_sum by done.
  unfold u32_modulus in *.
  destruct (N.compare_spec (row p) (row q)) as [->| |];
    destruct (N.compare_spec (column p) (column q));
    first [apply N.compare_eq_iff | apply N.compare_lt_iff | apply N.compare_gt_iff]; lia.
Qed.

Definition le p q : Prop := row p < row q ∨ row p = row q ∧ column p <= column q.

Lemma cmp_32_le p q : cmp_32 p q ≠ Gt ↔ le p q.
Proof.
  unfold cmp_32, le.
  destruct (N.compare_spec (row p) (row q)); destruct (N.compare_spec (column p) (column q));
    split; intros; try done; try lia; by left.
Qed.

Lemma cmp_le p q : in_range p → in_range q → cmp p q ≠ Gt ↔ le p q.
Proof. intros. rewrite cmp_lex by done. apply cmp_32_le. Qed.

Lemma le_add p q : le p (add p q).
Proof. unfold le, add. destruct (N.eqb_spec (row q) 0); simpl; lia. Qed.

Lemma sub_below p q : in_range p → in_range q → le p q →
  ∃ d, sub q p = Some d ∧ add p d = q ∧ in_range d.
Proof.
  intros Hp Hq Hle. unfold sub.
  pose proof (proj2 (cmp_le p q Hp Hq) Hle) as Hcmp.
  assert (∃ d, (if row q =? row p then c ← usize_sub (column q) (column p); Some (new 0 c)
    else r ← usize_sub (row q) (row p); Some (new r (column q))) = Some d ∧ add p d = q ∧ in_range d)
    as Hd.
  { unfold in_range, le in *. destruct (N.eqb_spec (row q) (row p)) as [Heq|Hne].
    - rewrite (usize_sub_le (column q) (column p)) by lia. eexists. split; [done|].
      split; [apply point_ext; unfold add; simpl; lia|simpl; lia].
    - rewrite (usize_sub_le (row q) (row p)) by lia. eexists. split; [done|].
      split; [|simpl; lia]. unfold add. simpl.
      destruct (N.eqb_spec (row q - row p) 0); [lia|]. apply point_ext; simpl; lia. }
  by destruct (cmp p q).
Qed.

Lemma add_cancel p d d' : add p d = add p d' → d = d'.
Proof.
  unfold add. destruct p, d as [r c], d' as [r' c']. simpl.
  destruct (N.eqb_spec r 0), (N.eqb_spec r' 0); intros [=]; apply point_ext; simpl; lia.
Qed.

Lemma sub_above p q : in_range p → in_range q → ¬ le p q →
  sub q p = None ∧ saturating_sub q p = Some zero.
Proof.
  intros Hp Hq Hle. unfold saturating_sub, sub.
  rewrite !cmp_lex by done. unfold cmp_32, le in *.
  destruct (N.compare_spec (row p) (row q)), (N.compare_spec (row q) (row p));
    try lia; [|done].
  destruct (N.compare_spec (column p) (column q)), (N.compare_spec (column q) (column p));
    try lia; done.
Qed.

(** For positions whose row and column are 32-bit values, comparing the packed words (the
    64-bit build) is comparing rows and then columns (the 32-bit build); a position can be
    subtracted from a later one, and the difference is the one displacement that leads from the
    one to the other; subtracting from an earlier position fails, and gives zero when the
    subtraction saturates. *)
Theorem points_ordered p q (Hp : in_range p) (Hq : in_range q) :
  cmp p q = cmp_32 p q ∧
  (cmp p q ≠ Gt →
   ∃ d, sub q p = Some d ∧ saturating_sub q p = Some d ∧ in_range d ∧
        ∀ d', add p d' = q ↔ d' = d) ∧
  (cmp p q = Gt → sub q p = None ∧ saturating_sub q p = Some zero).
Proof.
  split; [by apply cmp_lex|]. rewrite cmp_le by done. split.
  - intros Hle. destruct (sub_below p q Hp Hq Hle) as (d & Hd & Hadd & Hr).
    exists d. split; [done|]. split; [|split; [done|]].
    + unfold saturating_sub. destruct (cmp q p) eqn:Hc; [done| |done].
      exfalso. rewrite cmp_lex in Hc by done. revert Hc. unfold cmp_32, le in *.
      destruct (N.compare_spec (row q) (row p)); [|lia|done].
      destruct (N.compare_spec (column q) (column p)); [done|lia|done].
    + intros d'. split; [|by intros ->]. rewrite <- Hadd. apply add_cancel.
  - intros Hgt. apply sub_above; [done..|]. rewrite <- cmp_le by done. intros Hn. by apply Hn.
Qed.
End points.

Lemma points_ordered_witness :
  cmp (new 2 7 : Point) (new 4 3) = cmp_32 (new 2 7 : Point) (new 4 3) ∧
  sub (new 4 3 : Point) (new 2 7) = Some (new 2 3) ∧
  sub (new 2 7 : Point) (new 4 3) = None.
Proof.
  assert (in_range (new 2 7 : Point)) as H1 by (split; vm_compute; reflexivity).
  assert (in_range (new 4 3 : Point)) as H2 by (split; vm_compute; reflexivity).
  destruct (points_ordered _ _ H1 H2) as (Hc & _ & _).
  destruct (points_ordered _ _ H2 H1) as (_ & _ & Hgt).
  split; [exact Hc|]. split; [vm_compute; reflexivity|]. apply Hgt. vm_compute. reflexivity.
Defined.
