(* ===== verification/Text.v ===== *)
(** * Strings and their measures: [TextSummary] of [crates/rope/src/rope.rs]

    A [&str] is the list of its characters; byte offsets, UTF-8 encoding and the
    string methods that the sources call are defined over it. A [TextSummary]
    holds the lengths of a text in bytes, characters and UTF-16 units, the
    position of its end, and its first, last and longest rows. *)

From S2P Require Import Prelude Points.
Import PointOps.

#[local] Open Scope N_scope.

(** ** Strings *)

(** A [char] is a Unicode scalar value. *)
Abbreviation char := N (only parsing).
Abbreviation str := (list N) (only parsing).

Definition is_scalar (c : char) : bool := (c <? 0xD800) || ((0xE000 <=? c) && (c <? 0x110000)).
Definition newline_char : char := 10.
Definition tab_char : char := 9.

Module Str.

Definition len_utf8 (c : char) : N :=
  if c <? 0x80 then 1 else if c <? 0x800 then 2 else if c <? 0x10000 then 3 else 4.
Definition len_utf16 (c : char) : N := if c <? 0x10000 then 1 else 2.

Definition continuation (c : char) (shift : N) : N := 128 + N.shiftr c shift mod 64.

Definition encode_utf8 (c : char) : list N :=
  if c <? 0x80 then [c]
  else if c <? 0x800 then [192 + N.shiftr c 6; continuation c 0]
  else if c <? 0x10000 then [224 + N.shiftr c 12; continuation c 6; continuation c 0]
  else [240 + N.shiftr c 18; continuation c 12; continuation c 6; continuation c 0].

Fixpoint as_bytes (s : str) : list N :=
  match s with [] => [] | c :: s => encode_utf8 c ++ as_bytes s end.

(** [str::len], in bytes, and the number of UTF-16 units. *)
Fixpoint length_utf8 (s : str) : N :=
  match s with [] => 0 | c :: s => len_utf8 c + length_utf8 s end.
Fixpoint length_utf16 (s : str) : N :=
  match s with [] => 0 | c :: s => len_utf16 c + length_utf16 s end.

Fixpoint is_char_boundary (s : str) (i : N) : bool :=
  (i =? 0) ||
  match s with
  | [] => false
  | c :: s => (len_utf8 c <=? i) && is_char_boundary s (i - len_utf8 c)
  end.

(** [str::split_at]; [None] is the panic off a character boundary. *)
Fixpoint split_at (s : str) (mid : N) : option (str * str) :=
  if mid =? 0 then Some ([], s)
  else match s with
  | [] => None
  | c :: s =>
      if len_utf8 c <=? mid then
        '(l, r) ← split_at s (mid - len_utf8 c); Some (c :: l, r)
      else None
  end.

(** [&s[range]]. *)
Definition slice (s : str) (range : Range N) : option str :=
  '(s, _) ← split_at s (stop range);
  if start range <=? stop range then snd <$> split_at s (start range) else None.

Fixpoint floor_char_boundary (s : str) (i : N) : N :=
  match s with
  | [] => 0
  | c :: s =>
      if len_utf8 c <=? i then len_utf8 c + floor_char_boundary s (i - len_utf8 c) else 0
  end.

Fixpoint ceil_char_boundary (s : str) (i : N) : N :=
  if i =? 0 then 0
  else match s with
  | [] => 0
  | c :: s => len_utf8 c + ceil_char_boundary s (i - len_utf8 c)
  end.

(** [s.split('\n')]. *)
Fixpoint split_lines (s : str) : list str :=
  match s with
  | [] => [[]]
  | c :: s =>
      if c =? newline_char then [] :: split_lines s
      else match split_lines s with
           | [] => [[c]]
           | line :: lines => (c :: line) :: lines
           end
  end.

End Str.

(** [Point::parse_str]; the casts [as u32] wrap. *)
Definition parse_str (s : str) : Point :=
  foldl (λ _ '(row, line), mkPoint (row mod u32_modulus) (Str.length_utf8 line mod u32_modulus))
    zero (zip (N.of_nat <$> seq 0 (length (Str.split_lines s))) (Str.split_lines s)).

(** ** Byte offsets in strings *)

Section strings.
Implicit Types (s a b : str) (c i mid : N).
Import Str.

Lemma len_utf8_bounds c : 1 <= len_utf8 c <= 4.
Proof. unfold len_utf8. repeat (case_match; [lia|]). lia. Qed.
Lemma len_utf16_bounds c : 1 <= len_utf16 c <= len_utf8 c.
Proof.
  unfold len_utf16, len_utf8.
  destruct (N.ltb_spec c 0x80), (N.ltb_spec c 0x800), (N.ltb_spec c 0x10000); lia.
Qed.

Lemma encode_length c : len (encode_utf8 c) = len_utf8 c.
Proof. unfold encode_utf8, len_utf8. by repeat (case_match; [done|]). Qed.
Lemma as_bytes_length s : len (as_bytes s) = length_utf8 s.
Proof. induction s as [|c s IH]; simpl; [done|]. by rewrite len_app, encode_length, IH. Qed.

Lemma length_utf8_app a b : length_utf8 (a ++ b) = length_utf8 a + length_utf8 b.
Proof. induction a as [|c a IH]; simpl; [done|]. rewrite IH. lia. Qed.
Lemma length_utf16_app a b : length_utf16 (a ++ b) = length_utf16 a + length_utf16 b.
Proof. induction a as [|c a IH]; simpl; [done|]. rewrite IH. lia. Qed.
Lemma as_bytes_app a b : as_bytes (a ++ b) = as_bytes a ++ as_bytes b.
Proof. induction a as [|c a IH]; simpl; [done|]. by rewrite IH, app_assoc. Qed.

Lemma length_utf8_zero s : length_utf8 s = 0 ↔ s = [].
Proof. destruct s as [|c s]; simpl; [done|]. pose proof (len_utf8_bounds c). split; [lia|done]. Qed.
Lemma length_utf16_le s : length_utf16 s <= length_utf8 s.
Proof. induction s as [|c s IH]; simpl; [done|]. pose proof (len_utf16_bounds c). lia. Qed.
Lemma length_le_utf16 s : len s <= length_utf16 s.
Proof.
  induction s as [|c s IH]; simpl; [done|]. rewrite len_cons. pose proof (len_utf16_bounds c). lia.
Qed.

Lemma split_at_app a b : split_at (a ++ b) (length_utf8 a) = Some (a, b).
Proof.
  induction a as [|c a IH]; simpl; [by destruct b|]. pose proof (len_utf8_bounds c).
  destruct (N.eqb_spec (len_utf8 c + length_utf8 a) 0); [lia|].
  destruct (N.leb_spec (len_utf8 c) (len_utf8 c + length_utf8 a)); [|lia].
  by rewrite N_add_sub_l, IH.
Qed.

(** What [split_at] and [is_char_boundary] decide. *)
Lemma split_at_some s mid a b : split_at s mid = Some (a, b) → s = a ++ b ∧ length_utf8 a = mid.
Proof.
  revert mid a. induction s as [|c s IH]; intros mid a; simpl;
    (destruct (N.eqb_spec mid 0) as [->|]; [by intros [= <- <-]|]); [done|].
  destruct (N.leb_spec (len_utf8 c) mid); [|done].
  destruct (split_at s (mid - len_utf8 c)) as [[l r]|] eqn:Hs; simpl; [|done].
  intros [= <- <-]. apply IH in Hs as [-> Hl]. simpl. split; [done|lia].
Qed.

Lemma is_char_boundary_split s i : is_char_boundary s i = bool_decide (is_Some (split_at s i)).
Proof.
  revert i. induction s as [|c s IH]; intros i; simpl; destruct (N.eqb_spec i 0); try done.
  destruct (N.leb_spec (len_utf8 c) i); [|done]. simpl. rewrite IH.
  by destruct (split_at s (i - len_utf8 c)) as [[]|].
Qed.

(** A character boundary cuts the string in two. *)
Lemma boundary_cut s i : is_char_boundary s i = true →
  ∃ a b, s = a ++ b ∧ length_utf8 a = i ∧ split_at s i = Some (a, b).
Proof.
  rewrite is_char_boundary_split, bool_decide_eq_true. intros [[a b] Hs]. exists a, b.
  by pose proof (split_at_some _ _ _ _ Hs) as [-> ->].
Qed.

Lemma boundary_app a b : is_char_boundary (a ++ b) (length_utf8 a) = true.
Proof. by rewrite is_char_boundary_split, split_at_app. Qed.
Lemma boundary_0 s : is_char_boundary s 0 = true.
Proof. by destruct s. Qed.
Lemma boundary_len s : is_char_boundary s (length_utf8 s) = true.
Proof. rewrite <- (app_nil_r s) at 1. apply boundary_app. Qed.
Lemma boundary_le s i : is_char_boundary s i = true → i <= length_utf8 s.
Proof. intros (a & b & -> & <- & _)%boundary_cut. rewrite length_utf8_app. lia. Qed.

(** Past a prefix, boundaries are those of the rest. *)
Lemma boundary_shift a b i :
  is_char_boundary (a ++ b) (length_utf8 a + i) = is_char_boundary b i.
Proof.
  induction a as [|c a IH]; simpl; [done|]. pose proof (len_utf8_bounds c).
  destruct (N.eqb_spec (len_utf8 c + length_utf8 a + i) 0); [lia|].
  destruct (N.leb_spec (len_utf8 c) (len_utf8 c + length_utf8 a + i)); [|lia]. simpl.
  rewrite <- IH. f_equal. lia.
Qed.

Lemma boundary_in_prefix a b i : i <= length_utf8 a →
  is_char_boundary (a ++ b) i = is_char_boundary a i.
Proof.
  revert i. induction a as [|c a IH]; intros i Hi; simpl in *.
  - replace i with 0 by lia. by rewrite boundary_0.
  - destruct (N.eqb_spec i 0); [done|]. simpl. destruct (N.leb_spec (len_utf8 c) i); [|done].
    simpl. apply IH. lia.
Qed.

Lemma slice_app a b d : slice (a ++ b ++ d) (length_utf8 a ..: length_utf8 a + length_utf8 b) = Some b.
Proof.
  unfold slice. simpl. rewrite app_assoc, <- length_utf8_app, split_at_app. simpl.
  destruct (N.leb_spec (length_utf8 a) (length_utf8 (a ++ b))) as [_|H].
  - by rewrite split_at_app.
  - rewrite length_utf8_app in H. lia.
Qed.

Lemma floor_boundary s i : is_char_boundary s (floor_char_boundary s i) = true.
Proof.
  revert i. induction s as [|c s IH]; intros i; simpl; [done|].
  destruct (N.leb_spec (len_utf8 c) i); [|done].
  destruct (N.leb_spec (len_utf8 c) (len_utf8 c + floor_char_boundary s (i - len_utf8 c))); [|lia].
  rewrite N_add_sub_l, IH. apply orb_true_r.
Qed.

Lemma floor_le s i : floor_char_boundary s i <= i.
Proof.
  revert i. induction s as [|c s IH]; intros i; simpl; [lia|].
  destruct (N.leb_spec (len_utf8 c) i); [|lia]. specialize (IH (i - len_utf8 c)). lia.
Qed.

Lemma floor_greatest s i j :
  is_char_boundary s j = true → j <= i → j <= floor_char_boundary s i.
Proof.
  revert i j. induction s as [|c s IH]; intros i j; simpl; destruct (N.eqb_spec j 0); try (simpl; lia).
  simpl. destruct (N.leb_spec (len_utf8 c) j); [simpl|done]. intros Hj Hle.
  destruct (N.leb_spec (len_utf8 c) i); [|lia].
  specialize (IH (i - len_utf8 c) _ Hj). lia.
Qed.

Lemma ceil_boundary s i : is_char_boundary s (ceil_char_boundary s i) = true.
Proof.
  revert i. induction s as [|c s IH]; intros i; simpl; (destruct (N.eqb_spec i 0); [done|]); [done|].
  destruct (N.leb_spec (len_utf8 c) (len_utf8 c + ceil_char_boundary s (i - len_utf8 c))); [|lia].
  rewrite N_add_sub_l, IH. apply orb_true_r.
Qed.

Lemma ceil_ge s i : i <= length_utf8 s → i <= ceil_char_boundary s i.
Proof.
  revert i. induction s as [|c s IH]; intros i; simpl; destruct (N.eqb_spec i 0); try lia.
  intros Hi. specialize (IH (i - len_utf8 c)). lia.
Qed.

Lemma ceil_least s i j :
  is_char_boundary s j = true → i <= j → ceil_char_boundary s i <= j.
Proof.
  revert i j. induction s as [|c s IH]; intros i j; simpl; destruct (N.eqb_spec i 0); try lia.
  destruct (N.eqb_spec j 0); [lia|]. simpl.
  destruct (N.leb_spec (len_utf8 c) j); [simpl|done]. intros Hj Hle.
  specialize (IH (i - len_utf8 c) _ Hj). lia.
Qed.

Lemma ceil_le s i : ceil_char_boundary s i <= length_utf8 s.
Proof.
  revert i. induction s as [|c s IH]; intros i; simpl; destruct (N.eqb_spec i 0); try lia.
  specialize (IH (i - len_utf8 c)). lia.
Qed.

Lemma ceil_past s i : length_utf8 s < i → ceil_char_boundary s i = length_utf8 s.
Proof.
  revert i. induction s as [|c s IH]; intros i; simpl; (destruct (N.eqb_spec i 0); [lia|]); [done|].
  intros Hi. by rewrite IH by lia.
Qed.

Lemma floor_id s i : is_char_boundary s i = true → floor_char_boundary s i = i.
Proof.
  intros Hi. pose proof (floor_le s i). pose proof (floor_greatest s i i Hi). lia.
Qed.
Lemma ceil_id s i : is_char_boundary s i = true → ceil_char_boundary s i = i.
Proof.
  intros Hi. pose proof (ceil_least s i i Hi). pose proof (ceil_ge s i).
  pose proof (boundary_le s i Hi). lia.
Qed.

(** Lines: the line that a text starts with, and the rest. *)
Lemma split_lines_ne s : ∃ line lines, split_lines s = line :: lines.
Proof.
  destruct s as [|c s]; simpl; [by eexists _, _|]. case_match; [by eexists _, _|].
  case_match; by eexists _, _.
Qed.

Lemma split_lines_snoc s c : ∃ ls l, split_lines s = ls ++ [l] ∧
  split_lines (s ++ [c]) = if c =? newline_char then ls ++ [l; []] else ls ++ [l ++ [c]].
Proof.
  induction s as [|d s (ls & l & Hs & Hsc)]; simpl.
  - exists [], []. by case_match.
  - rewrite Hs, Hsc. destruct (d =? newline_char).
    + exists ([] :: ls), l. split; [done|]. by case_match.
    + destruct ls as [|l' ls]; simpl.
      * exists [], (d :: l). split; [done|]. by case_match.
      * exists ((d :: l') :: ls), l. split; [done|]. by case_match.
Qed.
End strings.

(** ** Summaries *)

(** The field [len] of the source is [tlen] here. *)
Record TextSummary := mkTextSummary {
  tlen : N;
  chars : N;
  len_utf16 : N;
  lines : Point;
  first_line_chars : N;
  last_line_chars : N;
  last_line_len_utf16 : N;
  longest_row : N;
  longest_row_chars : N }.

#[export] Instance TextSummary_eq_dec : EqDecision TextSummary.
Proof. solve_decision. Defined.

Module TextSummaryOps.

Definition zero : TextSummary := mkTextSummary 0 0 0 PointOps.zero 0 0 0 0 0.

Definition lines_utf16 (s : TextSummary) : PointUtf16 :=
  mkPoint (row (lines s)) (last_line_len_utf16 s).

Definition newline : TextSummary := mkTextSummary 1 1 1 (PointOps.new 1 0) 0 0 0 0 0.

Definition add_newline (s : TextSummary) : TextSummary :=
  {| tlen := tlen s + 1;
     chars := chars s;
     len_utf16 := len_utf16 s + (len_utf16 s + 1);
     lines := add (lines s) (PointOps.new 1 0);
     first_line_chars := first_line_chars s;
     last_line_chars := 0;
     last_line_len_utf16 := 0;
     longest_row := longest_row s;
     longest_row_chars := longest_row_chars s |}.

(** One turn of the loop of [From<&str>]; [len] is set after the loop. *)
Definition from_step (s : TextSummary) (c : char) : TextSummary :=
  let lines' := if c =? newline_char then add (lines s) (PointOps.new 1 0)
                else mkPoint (row (lines s)) (column (lines s) + Str.len_utf8 c) in
  let last_line_len_utf16' := if c =? newline_char then 0
                              else last_line_len_utf16 s + Str.len_utf16 c in
  let last_line_chars' := if c =? newline_char then 0 else last_line_chars s + 1 in
  {| tlen := tlen s;
     chars := chars s + 1;
     len_utf16 := len_utf16 s + Str.len_utf16 c;
     lines := lines';
     first_line_chars := if row lines' =? 0 then last_line_chars' else first_line_chars s;
     last_line_chars := last_line_chars';
     last_line_len_utf16 := last_line_len_utf16';
     longest_row := if longest_row_chars s <? last_line_chars' then row lines' else longest_row s;
     longest_row_chars :=
       if longest_row_chars s <? last_line_chars' then last_line_chars' else longest_row_chars s |}.

Definition from (text : str) : TextSummary :=
  let s := foldl from_step zero text in
  {| tlen := Str.length_utf8 text;
     chars := chars s;
     len_utf16 := len_utf16 s;
     lines := lines s;
     first_line_chars := first_line_chars s;
     last_line_chars := last_line_chars s;
     last_line_len_utf16 := last_line_len_utf16 s;
     longest_row := longest_row s;
     longest_row_chars := longest_row_chars s |}.

(** [AddAssign]: the two tests on the longest row, then the other fields. *)
Definition add_assign (s other : TextSummary) : TextSummary :=
  let joined_chars := last_line_chars s + first_line_chars other in
  let '(row1, chars1) :=
    if longest_row_chars s <? joined_chars then (row (lines s), joined_chars)
    else (longest_row s, longest_row_chars s) in
  let '(row2, chars2) :=
    if chars1 <? longest_row_chars other
    then (row (lines s) + longest_row other, longest_row_chars other) else (row1, chars1) in
  {| tlen := tlen s + tlen other;
     chars := chars s + chars other;
     len_utf16 := len_utf16 s + len_utf16 other;
     lines := add (lines s) (lines other);
     first_line_chars :=
       if row (lines s) =? 0 then first_line_chars s + first_line_chars other
       else first_line_chars s;
     last_line_chars :=
       if row (lines other) =? 0 then last_line_chars s + first_line_chars other
       else last_line_chars other;
     last_line_len_utf16 :=
       if row (lines other) =? 0 then last_line_len_utf16 s + last_line_len_utf16 other
       else last_line_len_utf16 other;
     longest_row := row2;
     longest_row_chars := chars2 |}.

End TextSummaryOps.
Import TextSummaryOps.
#[local] Arguments TextSummaryOps.from : simpl never.
#[local] Arguments TextSummaryOps.add_assign : simpl never.

(** ** Laws of summaries *)

(** The longer of two rows, the first one on a tie. *)
Definition longer (p q : N * N) : N * N := if snd p <? snd q then q else p.
Definition shift_row (r : N) (p : N * N) : N * N := (r + fst p, snd p).
Definition longest (s : TextSummary) : N * N := (longest_row s, longest_row_chars s).

Lemma longer_assoc p q r : longer (longer p q) r = longer p (longer q r).
Proof.
  unfold longer. destruct (N.ltb_spec (snd p) (snd q)), (N.ltb_spec (snd q) (snd r)); simpl.
  all: repeat match goal with |- context [?a <? ?b] => destruct (N.ltb_spec a b) end; done || lia.
Qed.

(** A row that grows is compared once. *)
Lemma longer_grown p r n m : n <= m → longer (longer p (r, n)) (r, m) = longer p (r, m).
Proof.
  intros Hn. unfold longer. simpl.
  destruct (N.ltb_spec (snd p) n), (N.ltb_spec (snd p) m); simpl; try lia;
    repeat match goal with |- context [?a <? ?b] => destruct (N.ltb_spec a b) end; try done; try lia.
  by replace m with n by lia.
Qed.

Lemma longer_shift r p q : shift_row r (longer p q) = longer (shift_row r p) (shift_row r q).
Proof. unfold longer, shift_row. simpl. by case_match. Qed.

Lemma longer_absorb p q : snd q <= snd p → longer p q = p.
Proof. intros H. unfold longer. by destruct (N.ltb_spec (snd p) (snd q)); [lia|]. Qed.

Lemma shift_row_add r r' p : shift_row r (shift_row r' p) = shift_row (r + r') p.
Proof. unfold shift_row. simpl. f_equal. lia. Qed.

Lemma shift_row_0 r n : shift_row r (0, n) = (r, n).
Proof. unfold shift_row. simpl. by rewrite N.add_0_r. Qed.

Lemma longest_add s t :
  longest (add_assign s t) =
  longer (longer (longest s) (row (lines s), last_line_chars s + first_line_chars t))
         (shift_row (row (lines s)) (longest t)).
Proof.
  unfold add_assign, longest, longer, shift_row. simpl.
  destruct (longest_row_chars s <? last_line_chars s + first_line_chars t); simpl;
    by destruct (_ <? longest_row_chars t).
Qed.

(** The fields of a sum other than the longest row. *)
Lemma add_fields s t :
  tlen (add_assign s t) = tlen s + tlen t ∧
  chars (add_assign s t) = chars s + chars t ∧
  len_utf16 (add_assign s t) = len_utf16 s + len_utf16 t ∧
  lines (add_assign s t) = add (lines s) (lines t) ∧
  first_line_chars (add_assign s t) =
    (if row (lines s) =? 0 then first_line_chars s + first_line_chars t else first_line_chars s) ∧
  last_line_chars (add_assign s t) =
    (if row (lines t) =? 0 then last_line_chars s + first_line_chars t else last_line_chars t) ∧
  last_line_len_utf16 (add_assign s t) =
    (if row (lines t) =? 0 then last_line_len_utf16 s + last_line_len_utf16 t
     else last_line_len_utf16 t).
Proof.
  unfold add_assign.
  destruct (longest_row_chars s <? last_line_chars s + first_line_chars t); simpl;
    destruct (_ <? longest_row_chars t); done.
Qed.

Lemma summary_ext s t :
  tlen s = tlen t → chars s = chars t → len_utf16 s = len_utf16 t → lines s = lines t →
  first_line_chars s = first_line_chars t → last_line_chars s = last_line_chars t →
  last_line_len_utf16 s = last_line_len_utf16 t → longest s = longest t → s = t.
Proof. destruct s, t. unfold longest. simpl. intros. by simplify_eq. Qed.

(** What every summary of a text satisfies, and sums preserve. *)
Definition goodb (s : TextSummary) : bool :=
  (first_line_chars s <=? longest_row_chars s) && (last_line_chars s <=? longest_row_chars s) &&
  implb (first_line_chars s =? longest_row_chars s) (longest_row s =? 0) &&
  implb (row (lines s) =? 0)
    ((first_line_chars s =? longest_row_chars s) && (last_line_chars s =? longest_row_chars s)).

Record good (s : TextSummary) : Prop := {
  good_first : first_line_chars s <= longest_row_chars s;
  good_last : last_line_chars s <= longest_row_chars s;
  good_tie : first_line_chars s = longest_row_chars s → longest_row s = 0;
  good_row : row (lines s) = 0 →
    first_line_chars s = longest_row_chars s ∧ last_line_chars s = longest_row_chars s }.

Lemma goodb_good s : goodb s = true ↔ good s.
Proof.
  unfold goodb. rewrite !andb_true_iff, !N.leb_le, !implb_true_iff, andb_true_iff, !N.eqb_eq.
  split; [intros [[[? ?] ?] ?]; by constructor|intros []; by split_and!].
Qed.

Lemma good_zero : good zero.
Proof. by apply goodb_good. Qed.

Lemma add_row {u} (p q : PointOf u) : row (add p q) = row p + row q.
Proof. unfold add. destruct (N.eqb_spec (row q) 0); simpl; lia. Qed.

Lemma good_add s t : good s → good t → good (add_assign s t).
Proof.
  intros [Hf Hl Ht Hr] [Hf' Hl' Ht' Hr'].
  destruct (add_fields s t) as (_ & _ & _ & Hlines & Hfirst & Hlast & _).
  pose proof (longest_add s t) as Hlong. unfold longest, longer, shift_row in Hlong. simpl in Hlong.
  apply goodb_good. unfold goodb. rewrite Hlines, Hfirst, Hlast, add_row.
  destruct (N.ltb_spec (longest_row_chars s) (last_line_chars s + first_line_chars t)) in Hlong;
    simpl in Hlong;
    match type of Hlong with context [?a <? ?b] => destruct (N.ltb_spec a b) in Hlong end;
    injection Hlong as -> ->;
    destruct (N.eqb_spec (row (lines s)) 0) as [E|E]; destruct (N.eqb_spec (row (lines t)) 0) as [E'|E'];
    try (destruct (Hr E)); try (destruct (Hr' E'));
    rewrite !andb_true_iff, !N.leb_le, !implb_true_iff, andb_true_iff, !N.eqb_eq; lia.
Qed.

Lemma longer_grown_zero r n : longer (r, 0) (r, 0 + n) = (r, n).
Proof.
  unfold longer. cbn [fst snd]. destruct (N.ltb_spec 0 (0 + n)); f_equal; lia.
Qed.

Lemma add_zero_summary_l s : good s → add_assign zero s = s.
Proof.
  intros [Hf _ Ht Hr]. destruct (add_fields zero s) as (H1 & H2 & H3 & H4 & H5 & H6 & H7).
  simpl in H5, H6, H7.
  apply summary_ext; rewrite ?H1, ?H2, ?H3, ?H4, ?H5, ?H6, ?H7, ?longest_add; try done.
  - apply add_zero_l.
  - destruct (N.eqb_spec (row (lines s)) 0) as [E|]; [|done]. destruct (Hr E). lia.
  - by destruct (row (lines s) =? 0).
  - change (longer (longer (0, 0) (0, 0 + first_line_chars s)) (shift_row 0 (longest s)) = longest s).
    rewrite longer_grown_zero. unfold longer, shift_row, longest. cbn [fst snd].
    destruct (N.ltb_spec (first_line_chars s) (longest_row_chars s)); [done|].
    rewrite Ht by lia. f_equal. lia.
Qed.

Lemma add_zero_summary_r s : good s → add_assign s zero = s.
Proof.
  intros [_ Hl _ _]. destruct (add_fields s zero) as (H1 & H2 & H3 & H4 & H5 & H6 & H7).
  simpl in H5, H6, H7.
  apply summary_ext; rewrite ?H1, ?H2, ?H3, ?H4, ?H5, ?H6, ?H7, ?longest_add; simpl; try lia.
  - apply add_zero_r.
  - by case_match; [lia|].
  - rewrite (longer_absorb (longest s)) by (simpl; lia). apply longer_absorb. simpl. lia.
Qed.

(** A single row in the middle is joined from both sides in either order. *)
Lemma longer_one_row p q r a f b :
  longer (longer (longer (longer p (r, a + f)) (r, f)) (r, a + f + b)) q =
  longer (longer p (r, a + (f + b))) (longer (longer (r, f) (r, f + b)) q).
Proof.
  rewrite (longer_assoc p (r, a + f) (r, f)), (longer_absorb (r, a + f)) by (simpl; lia).
  rewrite longer_grown, N.add_assoc by lia. rewrite <- !longer_assoc. f_equal.
  rewrite !(longer_assoc p). rewrite !(longer_absorb (r, a + f + b)) by (simpl; lia). done.
Qed.

Lemma longest_assoc s t u : good t →
  longest (add_assign (add_assign s t) u) = longest (add_assign s (add_assign t u)).
Proof.
  intros [Hf Hl Ht Hr]. rewrite !longest_add, longer_shift, longer_shift, shift_row_add.
  destruct (add_fields s t) as (_ & _ & _ & -> & _ & -> & _).
  destruct (add_fields t u) as (_ & _ & _ & _ & -> & _).
  rewrite add_row. destruct (N.eqb_spec (row (lines t)) 0) as [E|E].
  - destruct (Hr E) as [Hfirst Hlast]. rewrite E, N.add_0_r.
    assert (shift_row (row (lines s)) (longest t) = (row (lines s), first_line_chars t)) as ->.
    { unfold longest. by rewrite (Ht Hfirst), <- Hfirst, shift_row_0. }
    rewrite shift_row_0.
    replace (last_line_chars t) with (first_line_chars t) by lia. apply longer_one_row.
  - rewrite <- !longer_assoc. done.
Qed.

Lemma add_assoc_summary s t u : good t →
  add_assign (add_assign s t) u = add_assign s (add_assign t u).
Proof.
  intros Hgood. pose proof Hgood as [Hf Hl Ht Hr].
  destruct (add_fields s t) as (A1 & A2 & A3 & A4 & A5 & A6 & A7).
  destruct (add_fields t u) as (B1 & B2 & B3 & B4 & B5 & B6 & B7).
  destruct (add_fields (add_assign s t) u) as (C1 & C2 & C3 & C4 & C5 & C6 & C7).
  destruct (add_fields s (add_assign t u)) as (D1 & D2 & D3 & D4 & D5 & D6 & D7).
  apply summary_ext; [..|by apply longest_assoc].
  all: rewrite ?C1, ?C2, ?C3, ?C4, ?C5, ?C6, ?C7, ?D1, ?D2, ?D3, ?D4, ?D5, ?D6, ?D7,
         ?A1, ?A2, ?A3, ?A4, ?A5, ?A6, ?A7, ?B1, ?B2, ?B3, ?B4, ?B5, ?B6, ?B7, ?add_row; try lia.
  - apply add_assoc.
  - destruct (N.eqb_spec (row (lines s)) 0), (N.eqb_spec (row (lines t)) 0),
      (N.eqb_spec (row (lines s) + row (lines t)) 0); lia.
  - destruct (N.eqb_spec (row (lines t)) 0) as [E|], (N.eqb_spec (row (lines u)) 0),
      (N.eqb_spec (row (lines t) + row (lines u)) 0); try lia. 
  - destruct (N.eqb_spec (row (lines t)) 0), (N.eqb_spec (row (lines u)) 0),
      (N.eqb_spec (row (lines t) + row (lines u)) 0); lia.
Qed.

(** ** The summary of a text *)

Lemma from_newline : from [newline_char] = newline.
Proof. done. Qed.

Lemma from_char c : c ≠ newline_char →
  from [c] = mkTextSummary (Str.len_utf8 c) 1 (Str.len_utf16 c) (mkPoint 0 (Str.len_utf8 c))
               1 1 (Str.len_utf16 c) 0 1.
Proof.
  intros Hc. unfold from. simpl. unfold from_step.
  replace (c =? newline_char) with false by (symmetry; by apply N.eqb_neq).
  simpl. by rewrite N.add_0_r.
Qed.

(** A turn of the loop adds the summary of one character. *)
Lemma from_step_add s c : good s →
  add_assign s (from [c]) =
  let s' := from_step s c in
  mkTextSummary (tlen s + Str.len_utf8 c) (chars s') (len_utf16 s') (lines s') (first_line_chars s')
    (last_line_chars s') (last_line_len_utf16 s') (longest_row s') (longest_row_chars s').
Proof.
  intros [Hf Hl Ht Hr]. destruct (add_fields s (from [c])) as (H1 & H2 & H3 & H4 & H5 & H6 & H7).
  destruct (N.eq_dec c newline_char) as [->|Hc].
  - rewrite from_newline in *. apply summary_ext; rewrite ?H1, ?H2, ?H3, ?H4, ?H5, ?H6, ?H7; try done.
    + change (first_line_chars newline) with 0. rewrite N.add_0_r.
      unfold from_step. cbn [first_line_chars N.eqb Pos.eqb newline_char]. rewrite add_row.
      change (row (PointOps.new 1 0 : Point)) with 1.
      destruct (N.eqb_spec (row (lines s) + 1) 0); [lia|]. by destruct (row (lines s) =? 0).
    + rewrite longest_add. rewrite (longer_absorb (longest s)) by (simpl; lia).
      rewrite longer_absorb by (simpl; lia). unfold from_step, longest. simpl.
      by destruct (N.ltb_spec (longest_row_chars s) 0); [lia|].
  - rewrite (from_char c Hc) in *. unfold from_step.
    replace (c =? newline_char) with false by (symmetry; by apply N.eqb_neq).
    apply summary_ext; rewrite ?H1, ?H2, ?H3, ?H4, ?H5, ?H6, ?H7; try done; simpl.
    + destruct (N.eqb_spec (row (lines s)) 0) as [E|]; [|done]. destruct (Hr E). lia.
    + rewrite longest_add. unfold longest at 2. simpl. rewrite shift_row_0, longer_assoc.
      rewrite (longer_absorb (row (lines s), _)) by (simpl; lia). unfold longer, longest. simpl.
      by destruct (longest_row_chars s <? last_line_chars s + 1).
Qed.

Lemma from_snoc a c : good (from a) → from (a ++ [c]) = add_assign (from a) (from [c]).
Proof.
  intros Hgood. rewrite from_step_add by done. unfold from. rewrite foldl_app. simpl.
  rewrite length_utf8_app. simpl. by rewrite N.add_0_r.
Qed.

Lemma good_char c : good (from [c]).
Proof.
  apply goodb_good. destruct (N.eq_dec c newline_char) as [->|Hc]; [done|]. by rewrite from_char.
Qed.

Lemma good_from a : good (from a).
Proof.
  induction a as [|c a IH] using rev_ind; [apply good_zero|].
  rewrite from_snoc by done. apply good_add; [done|apply good_char].
Qed.

Lemma from_app a b : from (a ++ b) = add_assign (from a) (from b).
Proof.
  induction b as [|c b IH] using rev_ind.
  - rewrite app_nil_r. symmetry. apply add_zero_summary_r, good_from.
  - rewrite app_assoc, !from_snoc, IH by apply good_from.
    apply add_assoc_summary, good_from.
Qed.

Lemma from_add_newline a : from (a ++ [newline_char]) = add_assign (from a) newline.
Proof. by rewrite from_app, from_newline. Qed.

(** What a summary says about the lines of its text. *)
Record describes (text : list N) (ls : list (list N)) (s : TextSummary) : Prop := {
  desc_lines : ∃ init l, ls = init ++ [l] ∧
    row (lines s) = len init ∧ column (lines s) = Str.length_utf8 l ∧
    last_line_chars s = len l ∧ last_line_len_utf16 s = Str.length_utf16 l;
  desc_first : ∃ l rest, ls = l :: rest ∧ first_line_chars s = len l;
  desc_len : tlen s = Str.length_utf8 text ∧ chars s = len text ∧ len_utf16 s = Str.length_utf16 text;
  desc_longest : ∃ l, ls !! N.to_nat (longest_row s) = Some l ∧ len l = longest_row_chars s;
  desc_longest_first : ∀ i l, ls !! i = Some l →
    len l <= longest_row_chars s ∧ (N.of_nat i < longest_row s → len l < longest_row_chars s) }.

Lemma len_snoc {A} (l : list A) x : len (l ++ [x]) = len l + 1.
Proof. rewrite len_app. done. Qed.

(** The first of the longest lines, when the last line is new or has grown. *)
Lemma longest_snoc (init : list str) (l l' : str) r n :
  (∃ k, (init ++ [l]) !! N.to_nat r = Some k ∧ len k = n) →
  (∀ i k, (init ++ [l]) !! i = Some k → len k <= n ∧ (N.of_nat i < r → len k < n)) →
  len l <= len l' →
  let '(r', n') := longer (r, n) (len init, len l') in
  (∃ k, (init ++ [l']) !! N.to_nat r' = Some k ∧ len k = n') ∧
  (∀ i k, (init ++ [l']) !! i = Some k → len k <= n' ∧ (N.of_nat i < r' → len k < n')).
Proof.
  intros (k & Hk & Hn) Hmax Hll. unfold longer. cbn [fst snd].
  destruct (N.ltb_spec n (len l')) as [Hlt|Hge].
  - split.
    + exists l'. rewrite to_nat_len. by rewrite list_lookup_middle.
    + intros i k' Hi. apply lookup_snoc_Some in Hi as [[Hi Hk']|[-> <-]].
      * destruct (Hmax i k') as [Hle _]; [by apply lookup_app_l_Some|]. lia.
      * split; [done|]. unfold len. lia.
  - assert (∀ i, i ≠ length init → (init ++ [l']) !! i = (init ++ [l]) !! i) as Hsame.
    { intros i Hi. destruct (decide (i < length init)%nat).
      - by rewrite !lookup_app_l.
      - by rewrite !lookup_ge_None_2 by (rewrite length_app; simpl; lia). }
    split.
    + destruct (decide (N.to_nat r = length init)) as [Hr|Hr].
      * rewrite Hr, list_lookup_middle in Hk |- * by done. simplify_eq. exists l'. split; [done|lia].
      * exists k. by rewrite Hsame.
    + intros i k' Hi. destruct (decide (i = length init)) as [->|Hne].
      * rewrite list_lookup_middle in Hi by done. simplify_eq. split; [done|]. intros Hlt.
        apply lookup_lt_Some in Hk. rewrite length_app in Hk. simpl in Hk. lia.
      * apply (Hmax i). by rewrite <- Hsame.
Qed.

Lemma newline_step a init l : Str.split_lines a = init ++ [l] →
  describes a (init ++ [l]) (from a) →
  describes (a ++ [newline_char]) (init ++ [l; []]) (from (a ++ [newline_char])).
Proof.
  intros Hls [(init' & l' & Heq & Hrow & Hcol & Hlast & Hlast16) (f & rest & Hf & Hfirst)
    (Hlen & Hchars & H16) (k & Hk & Hkn) Hmax].
  apply app_inj_tail in Heq as [<- <-]. rewrite from_add_newline.
  destruct (add_fields (from a) newline) as (F1 & F2 & F3 & F4 & F5 & F6 & F7).
  pose proof (longest_add (from a) newline) as Hlong.
  pose proof (good_from a) as [_ Hgl _ _].
  change (first_line_chars newline) with 0 in Hlong.
  rewrite (longer_absorb (longest (from a))) in Hlong by (cbn [snd longest]; lia).
  rewrite longer_absorb in Hlong by (cbn [snd shift_row longest newline longest_row_chars]; lia).
  apply pair_equal_spec in Hlong as [Hr Hn].
  rewrite (app_assoc init [l] [[]] : init ++ [l; []] = _).
  constructor; rewrite ?F1, ?F2, ?F3, ?F4, ?F5, ?F6, ?F7, ?Hr, ?Hn.
  - exists (init ++ [l]), []. rewrite len_snoc, add_row.
    change (row (lines newline)) with 1. rewrite Hrow. by split_and!.
  - exists f, (rest ++ [[]]). rewrite Hf. split; [done|].
    change (first_line_chars newline) with 0. rewrite N.add_0_r. by destruct (row (lines (from a)) =? 0).
  - rewrite length_utf8_app, length_utf16_app, len_snoc, Hlen, Hchars, H16. done.
  - exists k. split; [|done]. by apply lookup_app_l_Some.
  - intros i m [[_ Hi]|[-> <-]]%lookup_snoc_Some; [by apply Hmax|].
    split; [rewrite len_nil; lia|]. apply lookup_lt_Some in Hk. lia.
Qed.

Lemma char_step a init l c : c ≠ newline_char → Str.split_lines a = init ++ [l] →
  describes a (init ++ [l]) (from a) →
  describes (a ++ [c]) (init ++ [l ++ [c]]) (from (a ++ [c])).
Proof.
  intros Hc Hls [(init' & l' & Heq & Hrow & Hcol & Hlast & Hlast16) (f & rest & Hf & Hfirst)
    (Hlen & Hchars & H16) Hk Hmax].
  apply app_inj_tail in Heq as [<- <-].
  rewrite from_snoc by apply good_from.
  pose proof (add_fields (from a) (from [c])) as (F1 & F2 & F3 & F4 & F5 & F6 & F7).
  pose proof (longest_add (from a) (from [c])) as Hlong.
  pose proof (longest_snoc init l (l ++ [c]) _ _ Hk Hmax) as Hlongest.
  rewrite len_snoc in Hlongest. specialize (Hlongest ltac:(lia)).
  rewrite (from_char c Hc) in *. cbn [lines row first_line_chars last_line_chars] in *.
  unfold longest at 3 in Hlong. cbn [longest_row longest_row_chars] in Hlong.
  rewrite shift_row_0, longer_assoc, (longer_absorb (row (lines (from a)), _)) in Hlong
    by (cbn [snd]; lia).
  rewrite Hrow, Hlast in Hlong. unfold longest at 2 in Hlong. rewrite <- Hlong in Hlongest.
  destruct Hlongest as [Hk' Hmax'].
  constructor; rewrite ?F1, ?F2, ?F3, ?F4, ?F5, ?F6, ?F7; [| | |done|done].
  - exists init, (l ++ [c]). rewrite len_snoc, length_utf8_app, length_utf16_app, add_row.
    cbn. rewrite Hrow, Hcol, Hlast, Hlast16. split_and!; lia || done.
  - rewrite Hrow, Hfirst. destruct init as [|f' init]; simpl in Hf; injection Hf as -> <-.
    + exists (f ++ [c]), []. split; [done|]. by rewrite len_snoc.
    + exists f, (init ++ [l ++ [c]]). by rewrite len_cons; destruct (N.eqb_spec (1 + len init) 0); [lia|].
  - rewrite length_utf8_app, length_utf16_app, len_snoc, Hlen, Hchars, H16. cbn. split_and!; lia.
Qed.

Lemma from_describes a : describes a (Str.split_lines a) (from a).
Proof.
  induction a as [|c a IH] using rev_ind.
  - constructor; [by exists [], []|by exists [], []|done|by exists []|].
    intros i l Hi. apply list_lookup_singleton_Some in Hi as [-> <-]. done.
  - destruct (split_lines_snoc a c) as (init & l & Hls & ->). rewrite Hls in IH.
    destruct (N.eqb_spec c newline_char) as [->|Hc].
    + by apply newline_step.
    + by apply char_step.
Qed.

Lemma parse_str_lines a init l : Str.split_lines a = init ++ [l] →
  parse_str a = mkPoint (len init mod u32_modulus) (Str.length_utf8 l mod u32_modulus).
Proof.
  intros Hls. unfold parse_str. rewrite Hls, length_app, seq_app, fmap_app.
  rewrite (zip_with_app (λ x y, (x, y)) (N.of_nat <$> seq 0 (length init)) _ init [l]) by (by rewrite length_fmap, length_seq).
  by rewrite foldl_app.
Qed.

(** No field exceeds the length of the text. *)
Lemma from_bounds a :
  row (lines (from a)) <= tlen (from a) ∧ column (lines (from a)) <= tlen (from a) ∧
  chars (from a) <= tlen (from a) ∧ len_utf16 (from a) <= tlen (from a) ∧
  longest_row_chars (from a) <= chars (from a) ∧ longest_row (from a) <= tlen (from a) ∧
  last_line_len_utf16 (from a) <= len_utf16 (from a).
Proof.
  induction a as [|c a (I1 & I2 & I3 & I4 & I5 & I6 & I7)] using rev_ind; [by vm_compute|].
  rewrite from_snoc, from_step_add by apply good_from.
  pose proof (good_from a) as [_ Hl _ _]. pose proof (len_utf8_bounds c).
  pose proof (len_utf16_bounds c). unfold from_step.
  assert (last_line_chars (from a) <= chars (from a)) by lia.
  destruct (N.eqb_spec c newline_char) as [->|Hc]; cbn [tlen chars len_utf16 lines row column
    longest_row_chars longest_row last_line_len_utf16]; rewrite ?add_row; cbn [row column];
    match goal with |- context [?a <? ?b] => destruct (N.ltb_spec a b) end;
    unfold add; cbn; split_and!; try lia.
Qed.

(** ** Properties *)

(** C33: the one pass of [TextSummary::from] computes what splitting the text into lines says: the
    lengths in bytes, characters and UTF-16 units, the number of line ends and the length of the
    last line, the characters of the first and last lines, and the first of the longest lines. *)
Theorem from_summarizes text :
  let ls := Str.split_lines text in
  let s := from text in
  tlen s = Str.length_utf8 text ∧ chars s = len text ∧ len_utf16 s = Str.length_utf16 text ∧
  (∃ init l, ls = init ++ [l] ∧ lines s = mkPoint (len init) (Str.length_utf8 l) ∧
     lines_utf16 s = mkPoint (len init) (Str.length_utf16 l) ∧ last_line_chars s = len l) ∧
  (∃ l rest, ls = l :: rest ∧ first_line_chars s = len l) ∧
  (∃ l, ls !! N.to_nat (longest_row s) = Some l ∧ len l = longest_row_chars s) ∧
  (∀ i l, ls !! i = Some l →
     len l <= longest_row_chars s ∧ (N.of_nat i < longest_row s → len l < longest_row_chars s)).
Proof.
  destruct (from_describes text)
    as [(init & l & Hls & Hrow & Hcol & Hlast & H16) Hfirst (? & ? & ?) Hk Hmax].
  split_and!; try done. exists init, l. split; [done|].
  split; [by apply point_ext|]. split; [|done]. unfold lines_utf16. by rewrite Hrow, H16.
Qed.

(** C34: summaries are a monoid homomorphism from texts: the summary of a concatenation is the sum of
    the summaries, also for the position of its end in UTF-16 units; adding [newline()] is
    appending a line feed. *)
Theorem summaries_concatenate a b c :
  from (a ++ b) = add_assign (from a) (from b) ∧
  lines_utf16 (from (a ++ b)) = add (lines_utf16 (from a)) (lines_utf16 (from b)) ∧
  add_assign (add_assign (from a) (from b)) (from c) =
    add_assign (from a) (add_assign (from b) (from c)) ∧
  add_assign zero (from a) = from a ∧ add_assign (from a) zero = from a ∧
  from (a ++ [newline_char]) = add_assign (from a) newline.
Proof.
  split_and!; [apply from_app| |apply add_assoc_summary, good_from|apply add_zero_summary_l, good_from
    |apply add_zero_summary_r, good_from|apply from_add_newline].
  rewrite from_app. destruct (add_fields (from a) (from b)) as (_ & _ & _ & Hl & _ & _ & H16).
  unfold lines_utf16. rewrite Hl, H16, add_row. unfold add. cbn.
  destruct (N.eqb_spec (row (lines (from b))) 0) as [E|]; [|done]. by rewrite E, N.add_0_r.
Qed.

(** C38: while a text is shorter than 2^32 bytes, no 32-bit field of its summary overflows, nor does the
    intermediate length that adding the summaries of two parts compares; and the casts of
    [Point::parse_str] lose nothing, so it gives the end of the text. *)
Theorem summary_fits text (Hfits : Str.length_utf8 text < u32_modulus) :
  let s := from text in
  in_range (lines s) ∧ in_range (lines_utf16 s) ∧
  first_line_chars s < u32_modulus ∧ last_line_chars s < u32_modulus ∧
  longest_row s < u32_modulus ∧ longest_row_chars s < u32_modulus ∧
  (∀ a b, text = a ++ b → last_line_chars (from a) + first_line_chars (from b) < u32_modulus) ∧
  parse_str text = lines s.
Proof.
  destruct (from_bounds text) as (B1 & B2 & B3 & B4 & B5 & B6 & B7).
  destruct (from_describes text) as [(init & l & Hls & Hrow & Hcol & _ & H16) _ (Hlen & _) _ _].
  pose proof (good_from text) as [Hf Hl _ _]. rewrite Hlen in *.
  cbn zeta. unfold in_range, lines_utf16. cbn [row column]. split_and!; try lia.
  - intros a b ->. rewrite length_utf8_app in *.
    destruct (from_bounds a) as (_ & _ & Ba & _ & Ba' & _).
    destruct (from_bounds b) as (_ & _ & Bb & _ & Bb' & _).
    destruct (from_describes a) as [_ _ (La & _) _ _]. destruct (from_describes b) as [_ _ (Lb & _) _ _].
    pose proof (good_from a) as [_ Hla _ _]. pose proof (good_from b) as [Hfb _ _ _]. lia.
  - rewrite (parse_str_lines _ _ _ Hls). rewrite <- Hrow, <- Hcol.
    rewrite !N.mod_small by lia. by destruct (lines (from text)).
Qed.

Lemma summary_fits_witness :
  Str.length_utf8 [104; 233; 10; 128512] = 8 ∧
  parse_str [104; 233; 10; 128512] = lines (from [104; 233; 10; 128512]).
Proof.
  split; [reflexivity|].
  assert (Str.length_utf8 [104; 233; 10; 128512] < u32_modulus) as H by (vm_compute; reflexivity).
  destruct (summary_fits _ H) as (_ & _ & _ & _ & _ & _ & _ & Hp). exact Hp.
Defined.

(** [add_newline] is not the addition of [newline()]. *)
Example add_newline_differs :
  add_newline (from [97; 98]) ≠ from [97; 98; 10] ∧
  len_utf16 (add_newline (from [97; 98])) = 5 ∧ len_utf16 (from [97; 98; 10]) = 3.
Proof. by vm_compute. Qed.
