(* ===== verification/Bitmap.v ===== *)
(** * Bitmaps: the unsigned integer methods that [crates/rope/src/chunk.rs] calls

    A bitmap of width [w] is a number below 2^w; it is read as the list of its
    bits, least significant first, over which the integer methods are list
    operations. *)

From S2P Require Import Prelude.

#[local] Open Scope N_scope.

(** ** Methods of unsigned integers of width [w] *)

Module Bits.

Fixpoint pos_ones (p : positive) : N :=
  match p with xH => 1 | xO p => pos_ones p | xI p => 1 + pos_ones p end.
Definition count_ones (v : N) : N := match v with 0 => 0 | N.pos p => pos_ones p end.

Fixpoint pos_trailing (p : positive) : N :=
  match p with xO p => 1 + pos_trailing p | _ => 0 end.
Definition trailing_zeros (w v : N) : N := match v with 0 => w | N.pos p => pos_trailing p end.
Definition leading_zeros (w v : N) : N := w - N.size v.

(** [<<] and [>>] panic when the shift is not below the width. *)
Definition shl (w v n : N) : option N :=
  if n <? w then Some (N.shiftl v n mod 2 ^ w) else None.
Definition shr (w v n : N) : option N := if n <? w then Some (N.shiftr v n) else None.

Definition unbounded_shl (w v n : N) : N := if n <? w then N.shiftl v n mod 2 ^ w else 0.
Definition unbounded_shr (w v n : N) : N := if n <? w then N.shiftr v n else 0.
Definition wrapping_sub (w a b : N) : N := (a + 2 ^ w - b) mod 2 ^ w.
Definition lnot (w v : N) : N := 2 ^ w - 1 - v.

Fixpoint from_le_bytes (bytes : list N) : N :=
  match bytes with [] => 0 | b :: bytes => b + 256 * from_le_bytes bytes end.

End Bits.
Import Bits.

(** ** Bitmaps as lists of bits *)

Fixpoint of_bits (l : list bool) : N :=
  match l with [] => 0 | b :: l => N.b2n b + 2 * of_bits l end.

(** The number of set bits, the place of the first one, and the end of the last one. *)
Fixpoint trues (l : list bool) : N :=
  match l with [] => 0 | b :: l => N.b2n b + trues l end.
Fixpoint first_true (l : list bool) : option N :=
  match l with [] => None | b :: l => if b then Some 0 else N.succ <$> first_true l end.
Fixpoint last_true (l : list bool) : N :=
  match l with
  | [] => 0
  | b :: l => match last_true l with 0 => N.b2n b | n => 1 + n end
  end.

Section bits.
Implicit Types (l k : list bool) (b : bool).

Lemma of_bits_cons b l : of_bits (b :: l) = if b then N.succ_double (of_bits l) else N.double (of_bits l).
Proof. cbn [of_bits]. destruct b; by destruct (of_bits l). Qed.

Lemma of_bits_lt l : of_bits l < 2 ^ len l.
Proof.
  induction l as [|b l IH]; simpl; [done|]. rewrite len_cons, N.pow_add_r.
  change (2 ^ 1) with 2. destruct b; simpl; lia.
Qed.

Lemma of_bits_app l k : of_bits (l ++ k) = of_bits l + 2 ^ len l * of_bits k.
Proof.
  induction l as [|b l IH]; simpl; [destruct (of_bits k); done|].
  rewrite IH, len_cons, N.pow_add_r. change (2 ^ 1) with 2. lia.
Qed.

Lemma of_bits_false n : of_bits (replicate n false) = 0.
Proof. induction n as [|n IH]; simpl; [done|]. by rewrite IH. Qed.

Lemma testbit_of_bits l i : N.testbit (of_bits l) i = nth (N.to_nat i) l false.
Proof.
  revert i. induction l as [|b l IH]; intros i; [by destruct (N.to_nat i)|].
  destruct (N.eq_dec i 0) as [->|Hi]; simpl of_bits.
  - rewrite (N.add_comm (N.b2n b)), N.testbit_0_r. done.
  - replace i with (N.succ (N.pred i)) at 1 by lia.
    rewrite (N.add_comm (N.b2n b)), N.testbit_succ_r, IH.
    by replace (N.to_nat i) with (Datatypes.S (N.to_nat (N.pred i))) by lia.
Qed.

(** A mask of low bits keeps a prefix, a shift drops one. *)
Lemma of_bits_mod l n : of_bits l mod 2 ^ n = of_bits (take (N.to_nat n) l).
Proof.
  destruct (decide (N.to_nat n <= length l)%nat) as [Hn|Hn].
  - rewrite <- (take_drop (N.to_nat n) l) at 1. rewrite of_bits_app.
    assert (len (take (N.to_nat n) l) = n) as -> by (unfold len; rewrite length_take; lia).
    rewrite N.mul_comm, N.Div0.mod_add. apply N.mod_small.
    eapply N.lt_le_trans; [apply of_bits_lt|]. apply N.pow_le_mono_r; [done|].
    unfold len. rewrite length_take. lia.
  - rewrite take_ge by lia. apply N.mod_small. eapply N.lt_le_trans; [apply of_bits_lt|].
    apply N.pow_le_mono_r; [done|]. unfold len. lia.
Qed.

Lemma of_bits_mask l n : N.land (of_bits l) (2 ^ n - 1) = of_bits (take (N.to_nat n) l).
Proof. rewrite <- of_bits_mod, <- N.land_ones, N.ones_equiv. f_equal. lia. Qed.

Lemma of_bits_shiftr l n : N.shiftr (of_bits l) n = of_bits (drop (N.to_nat n) l).
Proof.
  apply N.bits_inj. intros i. rewrite N.shiftr_spec', !testbit_of_bits.
  rewrite !nth_lookup, lookup_drop. do 2 f_equal. lia.
Qed.

(** Bits above a prefix are added by a shift and [|]. *)
Lemma of_bits_lor l k : N.lor (of_bits l) (N.shiftl (of_bits k) (len l)) = of_bits (l ++ k).
Proof.
  apply N.bits_inj. intros i. rewrite N.lor_spec, !testbit_of_bits, !nth_lookup.
  destruct (N.ltb_spec i (len l)) as [Hi|Hi].
  - rewrite N.shiftl_spec_low, orb_false_r, lookup_app_l by (done || unfold len in *; lia). done.
  - rewrite N.shiftl_spec_high', testbit_of_bits, nth_lookup by done.
    rewrite (lookup_ge_None_2 l) by (unfold len in *; lia). simpl.
    rewrite lookup_app_r by (unfold len in *; lia). do 2 f_equal. unfold len in *. lia.
Qed.

Lemma shiftl_fits w l k : len l + len k <= w →
  N.shiftl (of_bits k) (len l) mod 2 ^ w = N.shiftl (of_bits k) (len l).
Proof.
  intros Hw. apply N.mod_small. rewrite N.shiftl_mul_pow2.
  apply N.lt_le_trans with (2 ^ len k * 2 ^ len l).
  - apply N.mul_lt_mono_pos_r; [|apply of_bits_lt]. apply N.neq_0_lt_0. by apply N.pow_nonzero.
  - rewrite <- N.pow_add_r. apply N.pow_le_mono_r; [done|lia].
Qed.

Lemma count_of_bits l : count_ones (of_bits l) = trues l.
Proof.
  induction l as [|b l IH]; [done|]. rewrite of_bits_cons. simpl trues. rewrite <- IH.
  destruct b, (of_bits l); done.
Qed.

Lemma of_bits_zero l : of_bits l = 0 ↔ first_true l = None.
Proof.
  induction l as [|b l IH]; [done|]. simpl. destruct b; simpl.
  - split; [lia|done].
  - destruct (first_true l); simpl; split; intros H; try done; [|by destruct IH as [_ ->]].
    destruct IH as [IH _]. by assert (Some n = None) by (apply IH; lia).
Qed.

Lemma trailing_of_bits w l : trailing_zeros w (of_bits l) = default w (first_true l).
Proof.
  induction l as [|b l IH]; [done|]. rewrite of_bits_cons. destruct b; simpl first_true.
  - by destruct (of_bits l).
  - pose proof (of_bits_zero l) as Hz. destruct (of_bits l) as [|p].
    + by rewrite (proj1 Hz eq_refl).
    + destruct (first_true l) as [n|]; [|by destruct Hz as [_ Hz]; specialize (Hz eq_refl)].
      simpl in *. rewrite IH. lia.
Qed.

Lemma last_true_zero l : last_true l = 0 ↔ of_bits l = 0.
Proof.
  induction l as [|b l IH]; [done|]. simpl. destruct (last_true l) as [|p] eqn:Hl.
  - rewrite (proj1 IH eq_refl). destruct b; simpl; lia.
  - destruct (N.eq_dec (of_bits l) 0) as [H0|H0]; [by apply IH in H0|]. split; [done|]. lia.
Qed.

Lemma last_true_le l : last_true l <= len l.
Proof.
  induction l as [|b l IH]; [done|]. rewrite len_cons. simpl.
  destruct (last_true l); [destruct b; simpl; lia|lia].
Qed.

Lemma size_of_bits l : N.size (of_bits l) = last_true l.
Proof.
  induction l as [|b l IH]; [done|]. rewrite of_bits_cons. simpl last_true.
  pose proof (last_true_zero l) as Hz. destruct (of_bits l) as [|p].
  - rewrite (proj2 Hz eq_refl). by destruct b.
  - rewrite <- IH. by destruct b; simpl; rewrite N.add_1_l || idtac.
Qed.

Lemma leading_of_bits w l : leading_zeros w (of_bits l) = w - last_true l.
Proof. unfold leading_zeros. by rewrite size_of_bits. Qed.

(** Counting, and the ends, over concatenations. *)
Lemma trues_app l k : trues (l ++ k) = trues l + trues k.
Proof. induction l as [|b l IH]; simpl; [done|]. rewrite IH. lia. Qed.
Lemma trues_false n : trues (replicate n false) = 0.
Proof. induction n as [|n IH]; simpl; [done|]. by rewrite IH. Qed.
Lemma trues_le l : trues l <= len l.
Proof. induction l as [|b l IH]; [done|]. rewrite len_cons. destruct b; simpl; lia. Qed.

Lemma trues_zero l : trues l = 0 ↔ ∀ i, l !! i ≠ Some true.
Proof.
  induction l as [|b l IH]; [done|]. destruct b; simpl.
  - split; [lia|]. intros H. by specialize (H 0%nat).
  - rewrite IH. split; [intros H [|i]; simpl; [done|apply H]|]. intros H i. apply (H (Datatypes.S i)).
Qed.

Lemma first_true_none l : first_true l = None ↔ trues l = 0.
Proof.
  induction l as [|b l IH]; [done|]. destruct b; simpl; [split; [done|lia]|].
  rewrite N.add_0_l, <- IH. by destruct (first_true l).
Qed.

Lemma first_true_app_l l k n : first_true l = Some n → first_true (l ++ k) = Some n.
Proof.
  revert n. induction l as [|b l IH]; intros n; [done|]. simpl. destruct b; [done|].
  destruct (first_true l); simpl; [|done]. intros [= <-]. by rewrite (IH n0).
Qed.

Lemma first_true_app_r l k : trues l = 0 → first_true (l ++ k) = N.add (len l) <$> first_true k.
Proof.
  induction l as [|b l IH]; simpl.
  - intros _. by destruct (first_true k) as [[]|].
  - destruct b; simpl; [lia|]. intros Hl. rewrite IH by done.
    destruct (first_true k); simpl; [|done]. f_equal. rewrite len_cons. lia.
Qed.

Lemma last_true_trues l : last_true l = 0 ↔ trues l = 0.
Proof. by rewrite last_true_zero, of_bits_zero, first_true_none. Qed.

Lemma last_true_app_r l k : trues k = 0 → last_true (l ++ k) = last_true l.
Proof.
  intros Hk. induction l as [|b l IH]; simpl; [by apply last_true_trues|]. by rewrite IH.
Qed.

Lemma last_true_app_l l k : trues k ≠ 0 → last_true (l ++ k) = len l + last_true k.
Proof.
  intros Hk. induction l as [|b l IH]; simpl; [by rewrite len_nil|]. rewrite IH, len_cons.
  assert (last_true k ≠ 0) by (by rewrite last_true_trues).
  destruct (len l + last_true k) eqn:E; lia.
Qed.
End bits.
