(* ===== verification/SelectBit.v ===== *)
(** * Selecting the n-th set bit: [nth_set_bit] of [crates/rope/src/chunk.rs]

    The branchless search counts the bits of ever larger groups in parallel and
    then descends from the largest groups to a single bit. *)

From S2P Require Import Prelude Bitmap.
Import Bits.

#[local] Open Scope N_scope.

(** ** The code *)

Module Select.

Definition u64_max : N := 2 ^ 64 - 1.
Definition u64_add (a b : N) : option N := if a + b <=? u64_max then Some (a + b) else None.

Definition to_bits (w : nat) (v : N) : list bool := (λ i, N.testbit v (N.of_nat i)) <$> seq 0 w.
Definition reverse_bits (v : N) : N := of_bits (reverse (to_bits 64 v)).

(** Two lines of the branchless select: [s -= (t.wrapping_sub(n) & 256) >> k] and
    [n -= t & (t.wrapping_sub(n) >> 8)]. *)
Definition narrow (s n t k : N) : option (N * N) :=
  s ← usize_sub s (N.shiftr (N.land (wrapping_sub 64 t n) 256) k);
  n ← usize_sub n (N.land t (N.shiftr (wrapping_sub 64 t n) 8));
  Some (s, n).

(** [None] is an overflow of a checked build. *)
Definition nth_set_bit_u64 (v n : N) : option N :=
  let v := reverse_bits v in
  let s := 64 in
  a ← usize_sub v (N.land (N.shiftr v 1) (u64_max / 3));
  b ← u64_add (N.land a (u64_max / 5)) (N.land (N.shiftr a 2) (u64_max / 5));
  c ← u64_add b (N.shiftr b 4);
  let c := N.land c (u64_max / 0x11) in
  d ← u64_add c (N.shiftr c 8);
  let d := N.land d (u64_max / 0x101) in
  t ← u64_add (N.shiftr d 32) (N.shiftr d 48);
  '(s, n) ← narrow s n t 3;
  p ← usize_sub s 16;
  let t := N.land (N.shiftr d p) 0xff in
  '(s, n) ← narrow s n t 4;
  p ← usize_sub s 8;
  let t := N.land (N.shiftr c p) 0xf in
  '(s, n) ← narrow s n t 5;
  p ← usize_sub s 4;
  let t := N.land (N.shiftr b p) 0x7 in
  '(s, n) ← narrow s n t 6;
  p ← usize_sub s 2;
  let t := N.land (N.shiftr a p) 0x3 in
  '(s, n) ← narrow s n t 7;
  p ← usize_sub s 1;
  let t := N.land (N.shiftr v p) 0x1 in
  s ← usize_sub s (N.shiftr (N.land (wrapping_sub 64 t n) 256) 8);
  p ← usize_sub 65 s;
  usize_sub p 1.

Definition nth_set_bit (v n : N) : option N :=
  let low := v mod 2 ^ 64 in
  let high := N.shiftr v 64 mod 2 ^ 64 in
  let low_count := count_ones low in
  if low_count <? n then
    i ← nth_set_bit_u64 high (n - low_count);
    Some (64 + i)
  else nth_set_bit_u64 low n.

End Select.
Import Select.

Example select_sample :
  nth_set_bit 0x5000000000000000A1 1 = Some 0 ∧ nth_set_bit 0x5000000000000000A1 3 = Some 7 ∧
  nth_set_bit 0x5000000000000000A1 5 = Some 70.
Proof. by vm_compute. Qed.

(** ** Numbers as lists of digits *)

(** The digits in base 2^w, the lowest first. *)
Fixpoint digits (w : N) (ds : list N) : N :=
  match ds with [] => 0 | d :: ds => d + 2 ^ w * digits w ds end.

(** Neighbours, added up or joined into a larger digit. *)
Fixpoint sums (ds : list N) : list N :=
  match ds with lo :: hi :: ds => (lo + hi) :: sums ds | _ => [] end.
Fixpoint pairs (ds : list N) : list (N * N) :=
  match ds with lo :: hi :: ds => (lo, hi) :: pairs ds | _ => [] end.

Section digits.
Implicit Types (ds : list N) (ps : list (N * N)) (w : N).

Lemma of_bits_digits l : of_bits l = digits 1 (N.b2n <$> l).
Proof. induction l as [|b l IH]; [done|]. cbn [of_bits digits fmap list_fmap]. by rewrite IH. Qed.

Lemma digits_add w ps :
  digits w ((λ '(lo, hi), lo + hi) <$> ps) = digits w (fst <$> ps) + digits w (snd <$> ps).
Proof. induction ps as [|[lo hi] ps IH]; [done|]. cbn [fmap list_fmap digits fst snd]. rewrite IH. lia. Qed.

Lemma testbit_joined w a b i : a < 2 ^ w →
  N.testbit (a + 2 ^ w * b) i = if i <? w then N.testbit a i else N.testbit b (i - w).
Proof.
  intros Ha. destruct (N.ltb_spec i w).
  - rewrite <- (N.mod_pow2_bits_low (a + _) w i) by done. f_equal.
    by rewrite N.mul_comm, N.Div0.mod_add, N.mod_small.
  - replace i with (i - w + w) at 1 by lia. rewrite <- N.div_pow2_bits. f_equal.
    rewrite N.mul_comm, N.div_add, N.div_small by (done || by apply N.pow_nonzero). done.
Qed.

Lemma pow_pos w : 0 < 2 ^ w.
Proof. apply N.neq_0_lt_0. by apply N.pow_nonzero. Qed.

Lemma pow_double w : 2 ^ (2 * w) = 2 ^ w * 2 ^ w.
Proof. replace (2 * w) with (w + w) by lia. by rewrite N.pow_add_r. Qed.

Lemma shiftr_joined w a b : a < 2 ^ w → N.shiftr (a + 2 ^ w * b) w = b.
Proof.
  intros Ha. rewrite N.shiftr_div_pow2, N.mul_comm, N.div_add, N.div_small; [done|done|].
  by apply N.pow_nonzero.
Qed.

(** Masks act on the low digits and on the rest. *)
Lemma land_low w x y m : x < 2 ^ w →
  N.land (x + 2 ^ w * y) (2 ^ w - 1 + 2 ^ w * m) = x + 2 ^ w * N.land y m.
Proof.
  intros Hx. pose proof (pow_pos w). apply N.bits_inj. intros i.
  rewrite N.land_spec, !testbit_joined by lia. destruct (N.ltb_spec i w).
  - replace (2 ^ w - 1) with (N.ones w) by (rewrite N.ones_equiv; lia).
    by rewrite N.ones_spec_low, andb_true_r.
  - by rewrite N.land_spec.
Qed.

Lemma land_high w x m : N.land x (2 ^ w * m) = 2 ^ w * N.land (N.shiftr x w) m.
Proof.
  rewrite !(N.mul_comm (2 ^ w)), <- !N.shiftl_mul_pow2.
  apply N.bits_inj. intros i. rewrite N.land_spec. destruct (N.ltb_spec i w).
  - by rewrite !N.shiftl_spec_low, andb_false_r.
  - rewrite !N.shiftl_spec_high', N.land_spec, N.shiftr_spec' by done.
    by replace (i - w + w) with i by lia.
Qed.

Lemma land_disjoint w x y : x < 2 ^ w → N.land x (2 ^ w * y) = 0.
Proof.
  intros Hx. rewrite land_high, N.shiftr_div_pow2, N.div_small by done. by rewrite N.mul_0_r.
Qed.

(** The mask that keeps the low half of every double digit. *)
Definition half_mask w (n : nat) : N := digits (2 * w) (replicate n (2 ^ w - 1)).
Definition joined w ps : N := digits (2 * w) ((λ '(lo, hi), lo + 2 ^ w * hi) <$> ps).

Lemma joined_cons w lo hi ps : joined w ((lo, hi) :: ps) = lo + 2 ^ w * (hi + 2 ^ w * joined w ps).
Proof. unfold joined. cbn [fmap list_fmap digits]. rewrite pow_double. lia. Qed.
Lemma half_mask_S w n : half_mask w (Datatypes.S n) = 2 ^ w - 1 + 2 ^ w * (2 ^ w * half_mask w n).
Proof. unfold half_mask. cbn [replicate digits]. rewrite pow_double. lia. Qed.

Definition bounded (B : N) (ps : list (N * N)) : Prop := Forall (λ p, fst p <= B ∧ snd p <= B) ps.

Lemma land_lo w B ps : B < 2 ^ w → bounded B ps →
  N.land (joined w ps) (half_mask w (length ps)) = digits (2 * w) (fst <$> ps).
Proof.
  intros HB. induction 1 as [|[lo hi] ps [Hlo Hhi] Hps IH]; [done|]. simpl in Hlo, Hhi.
  cbn [length]. rewrite joined_cons, half_mask_S, land_low, land_high, shiftr_joined by lia.
  cbn [fmap list_fmap digits fst]. rewrite IH, pow_double. lia.
Qed.

Lemma land_hi w B ps : B < 2 ^ w → bounded B ps →
  N.land (N.shiftr (joined w ps) w) (half_mask w (length ps)) = digits (2 * w) (snd <$> ps).
Proof.
  intros HB. induction 1 as [|[lo hi] ps [Hlo Hhi] Hps IH];
    [change (joined w []) with 0; by rewrite N.shiftr_0_l|]. simpl in Hlo, Hhi.
  cbn [length]. rewrite joined_cons, half_mask_S, shiftr_joined, land_low, land_high by lia.
  cbn [fmap list_fmap digits snd]. rewrite IH, pow_double. lia.
Qed.

Lemma joined_low w B ps : B < 2 ^ w → bounded B ps →
  ∃ lo rest, lo <= B ∧ joined w ps = lo + 2 ^ w * rest.
Proof.
  intros HB [|[lo hi] ps' [Hlo _] _].
  - exists 0, 0. split; [lia|]. by rewrite N.mul_0_r.
  - eexists lo, _. split; [done|]. apply joined_cons.
Qed.

(** Adding a shifted copy adds up the halves of each double digit, when they leave a bit free. *)
Lemma land_sum w B ps : 2 * B < 2 ^ w → bounded B ps →
  N.land (joined w ps + N.shiftr (joined w ps) w) (half_mask w (length ps)) =
  digits (2 * w) ((λ '(lo, hi), lo + hi) <$> ps).
Proof.
  intros HB. induction 1 as [|[lo hi] ps [Hlo Hhi] Hps IH];
    [change (joined w []) with 0; by rewrite N.shiftr_0_l|]. simpl in Hlo, Hhi.
  cbn [length]. rewrite joined_cons, half_mask_S, shiftr_joined by lia.
  destruct (joined_low w B ps ltac:(lia) Hps) as (lo' & rest & Hlo' & HR).
  assert (lo + 2 ^ w * (hi + 2 ^ w * joined w ps) + (hi + 2 ^ w * joined w ps) =
    lo + hi + 2 ^ w * ((hi + lo') + 2 ^ w * (joined w ps + rest))) as -> by (rewrite HR at 2; lia).
  rewrite land_low, land_high, shiftr_joined by lia.
  cbn [fmap list_fmap digits]. rewrite <- IH, pow_double.
  assert (N.shiftr (joined w ps) w = rest) as -> by (rewrite HR; apply shiftr_joined; lia). lia.
Qed.

Lemma joined_digits w ps :
  joined w ps = digits (2 * w) (fst <$> ps) + 2 ^ w * digits (2 * w) (snd <$> ps).
Proof.
  unfold joined. induction ps as [|[lo hi] ps IH]; cbn [fmap list_fmap digits fst snd]; lia.
Qed.

(** *** Levels of counts *)

Lemma pairs_ind (P : list N → Prop) :
  P [] → (∀ x, P [x]) → (∀ x y ds, P ds → P (x :: y :: ds)) → ∀ ds, P ds.
Proof.
  intros H0 H1 H2 ds. enough (P ds ∧ ∀ x, P (x :: ds)) by tauto.
  induction ds as [|x ds [IH1 IH2]]; [by split|]. split; [apply IH2|]. intros y. by apply H2.
Qed.

Lemma sums_pairs ds : sums ds = (λ '(lo, hi), lo + hi) <$> pairs ds.
Proof. induction ds as [| |lo hi ds IH] using pairs_ind; [done..|]. simpl. by rewrite IH. Qed.

Lemma digits_pairs w ds : Nat.even (length ds) = true → digits w ds = joined w (pairs ds).
Proof.
  induction ds as [| |lo hi ds IH] using pairs_ind; [done..|]. intros He.
  cbn [pairs]. rewrite joined_cons, <- IH by exact He. cbn [digits]. lia.
Qed.

Lemma pairs_bounded B ds : Forall (λ d, d <= B) ds → bounded B (pairs ds).
Proof.
  induction ds as [| |lo hi ds IH] using pairs_ind; [constructor..|].
  intros [? Hd]%Forall_cons_1. apply Forall_cons_1 in Hd as [? Hd].
  constructor; [done|]. by apply IH.
Qed.

Lemma sums_bounded B ds : Forall (λ d, d <= B) ds → Forall (λ d, d <= 2 * B) (sums ds).
Proof.
  induction ds as [| |lo hi ds IH] using pairs_ind; [constructor..|].
  intros [? Hd]%Forall_cons_1. apply Forall_cons_1 in Hd as [? Hd].
  constructor; [lia|]. by apply IH.
Qed.

Lemma length_pairs ds : length (pairs ds) = Nat.div2 (length ds).
Proof. induction ds as [| |lo hi ds IH] using pairs_ind; [done..|]. simpl. by rewrite IH. Qed.
Lemma length_sums ds : length (sums ds) = Nat.div2 (length ds).
Proof. rewrite sums_pairs, length_fmap. apply length_pairs. Qed.

Lemma digits_le w B ds : Forall (λ d, d <= B) ds → digits w ds <= digits w (replicate (length ds) B).
Proof.
  induction 1 as [|d ds Hd Hds IH]; [done|]. cbn [length replicate digits].
  pose proof (pow_pos w). nia.
Qed.

(** [ds] counts the bits of [l] in groups of [n]. *)
Definition counts (n : nat) (l : list bool) (ds : list N) : Prop :=
  length l = (n * length ds)%nat ∧
  ∀ k, nth k ds 0 = trues (take n (drop (n * k) l)).

Lemma counts_bits l : counts 1 l (N.b2n <$> l).
Proof.
  split; [rewrite length_fmap; lia|]. intros k. rewrite Nat.mul_1_l, nth_lookup, list_lookup_fmap.
  destruct (l !! k) as [b|] eqn:Hk; simpl.
  - rewrite (drop_S _ _ _ Hk). simpl. lia.
  - apply lookup_ge_None in Hk. by rewrite drop_ge.
Qed.

Lemma nth_sums ds k : Nat.even (length ds) = true →
  nth k (sums ds) 0 = nth (2 * k) ds 0 + nth (2 * k + 1) ds 0.
Proof.
  revert k. induction ds as [| |lo hi ds IH] using pairs_ind; intros k He; [by destruct k| done|].
  destruct k as [|k]; [done|]. cbn [sums nth]. rewrite (IH k) by exact He.
  by replace (2 * Datatypes.S k)%nat with (Datatypes.S (Datatypes.S (2 * k)))%nat by lia.
Qed.

Lemma counts_sums n l ds : Nat.even (length ds) = true → counts n l ds → counts (2 * n) l (sums ds).
Proof.
  intros He [Hlen Hn]. split.
  - rewrite length_sums. apply Nat.even_spec in He as [m Hm]. rewrite Hlen, Hm, Nat.div2_double. lia.
  - intros k. rewrite nth_sums, !Hn by done.
    rewrite <- trues_app. f_equal.
    replace (n * (2 * k + 1))%nat with (2 * n * k + n)%nat by lia.
    replace (n * (2 * k))%nat with (2 * n * k)%nat by lia.
    rewrite <- drop_drop, take_take_drop. f_equal. lia.
Qed.

(** Reading a digit. *)
Lemma digits_shiftr w ds k : Forall (λ d, d < 2 ^ w) ds →
  N.shiftr (digits w ds) (w * N.of_nat k) = digits w (drop k ds).
Proof.
  intros Hds. revert k. induction Hds as [|d ds Hd Hds IH]; intros [|k].
  - by rewrite N.mul_0_r.
  - by rewrite N.shiftr_0_l.
  - by rewrite N.mul_0_r, N.shiftr_0_r.
  - replace (w * N.of_nat (Datatypes.S k)) with (w + w * N.of_nat k) by lia.
    rewrite <- N.shiftr_shiftr. cbn [digits drop]. by rewrite shiftr_joined, IH.
Qed.

Lemma digit_at w j ds k : j <= w → Forall (λ d, d < 2 ^ j) ds →
  N.land (N.shiftr (digits w ds) (w * N.of_nat k)) (2 ^ j - 1) = nth k ds 0.
Proof.
  intros Hj Hds. pose proof (pow_pos j).
  assert (2 ^ j <= 2 ^ w) by (by apply N.pow_le_mono_r).
  rewrite digits_shiftr by (eapply Forall_impl; [done|]; simpl; intros; lia).
  replace (2 ^ j - 1) with (N.ones j) by (rewrite N.ones_equiv; lia). rewrite N.land_ones.
  destruct (ds !! k) as [d|] eqn:Hk.
  - rewrite (drop_S _ _ _ Hk), nth_lookup, Hk. cbn [digits default].
    replace w with (j + (w - j)) at 1 by lia. rewrite N.pow_add_r, <- N.mul_assoc, N.mul_comm.
    rewrite N.Div0.mod_add. apply N.mod_small. exact (Forall_lookup_1 _ _ _ _ Hds Hk).
  - rewrite nth_lookup, Hk. apply lookup_ge_None in Hk. rewrite drop_ge by done. cbn.
    apply N.mod_small. done.
Qed.
End digits.

(** ** The binary search *)

Section search.

(** The borrow of [t - n], above the low eight bits, is all ones exactly when [t < n]; bits of [t]
    from 2^16 on, as in the first step, do not disturb it. *)
Lemma borrow t g n : t < 256 → g <= 16 → 1 <= n <= 64 →
  let q := wrapping_sub 64 (t + 65536 * g) n in
  N.land q 256 = (if t <? n then 256 else 0) ∧
  N.land (t + 65536 * g) (N.shiftr q 8) = (if t <? n then t else 0).
Proof.
  intros Ht Hg Hn q.
  assert (N.land q 256 = 256 * (N.shiftr q 8 mod 2)) as ->.
  { change 256 with (2 ^ 8 * 1). rewrite land_high. f_equal. by rewrite (N.land_ones _ 1). }
  assert (N.shiftr q 8 =
    if t <? n then (if g =? 0 then 2 ^ 56 - 1 else 255 + 2 ^ 8 * (g - 1)) else 2 ^ 8 * g) as ->.
  { rewrite N.shiftr_div_pow2. change (2 ^ 8) with 256. unfold q, wrapping_sub.
    change (2 ^ 64) with 18446744073709551616. change (2 ^ 56) with 72057594037927936. symmetry.
    destruct (N.ltb_spec t n), (N.eqb_spec g 0).
    - rewrite N.mod_small by lia. apply (N.div_unique _ _ _ (256 + t - n)); lia.
    - apply (N.div_unique _ _ _ (256 + t - n)); [lia|]. symmetry.
      apply (N.mod_unique _ _ 1); lia.
    - apply (N.div_unique _ _ _ (t - n)); [lia|]. symmetry. apply (N.mod_unique _ _ 1); lia.
    - apply (N.div_unique _ _ _ (t - n)); [lia|]. symmetry. apply (N.mod_unique _ _ 1); lia. }
  change 65536 with (2 ^ 8 * 2 ^ 8). rewrite <- N.mul_assoc.
  destruct (N.ltb_spec t n); [destruct (N.eqb_spec g 0) as [->|]|].
  - split; [done|]. rewrite !N.mul_0_r, N.add_0_r. change (2 ^ 56 - 1) with (N.ones 56).
    rewrite N.land_ones. apply N.mod_small. change (2 ^ 56) with 72057594037927936. lia.
  - split.
    + replace (255 + 2 ^ 8 * (g - 1)) with (1 + (127 + 128 * (g - 1)) * 2) by lia.
      by rewrite N.Div0.mod_add.
    + change 255 with (2 ^ 8 - 1). rewrite land_low by (change (2 ^ 8) with 256; lia).
      rewrite N.land_comm, land_disjoint by (change (2 ^ 8) with 256; lia). lia.
  - split.
    + replace (2 ^ 8 * g) with (0 + 128 * g * 2) by lia. by rewrite N.Div0.mod_add.
    + rewrite land_high, shiftr_joined by (change (2 ^ 8) with 256; lia).
      rewrite N.land_comm, land_disjoint by (change (2 ^ 8) with 256; lia). done.
Qed.

(** A window of the bits, from [i] up. *)
Definition window (l : list bool) (i n : nat) : N := trues (take n (drop i l)).

(** The bit looked for is the [n]-th from the top in the window of [w] bits that ends at [s], and
    the [n0]-th from the top in [l]. *)
Definition inside (l : list bool) (w : nat) (n0 s n : N) : Prop :=
  ∃ k : nat, s = N.of_nat (w * (k + 1)) ∧ 1 <= n <= window l (w * k) w ∧
    n + trues (drop (N.to_nat s) l) = n0.

Lemma window_le l i n : window l i n <= N.of_nat n.
Proof.
  unfold window. etrans; [apply trues_le|]. unfold len. rewrite length_take. lia.
Qed.

Lemma window_split l i n m : window l i (n + m) = window l i n + window l (i + n) m.
Proof. unfold window. by rewrite <- trues_app, <- drop_drop, take_take_drop. Qed.

Lemma window_drop l i n : window l i n + trues (drop (i + n) l) = trues (drop i l).
Proof. unfold window. by rewrite <- trues_app, <- drop_drop, take_drop. Qed.

(** One step: with [t] the count of the upper half, the search goes on in one of the halves. *)
Lemma inside_half l h n0 s n : (0 < h)%nat → inside l (2 * h) n0 s n →
  let t := window l (N.to_nat (s - N.of_nat h)) h in
  inside l h n0 (if t <? n then s - N.of_nat h else s) (if t <? n then n - t else n).
Proof.
  intros Hh (k & -> & Hn & H0). cbn zeta.
  replace (N.to_nat (N.of_nat (2 * h * (k + 1)) - N.of_nat h)) with (2 * h * k + h)%nat by lia.
  replace (2 * h)%nat with (h + h)%nat in Hn at 2 by lia. rewrite window_split in Hn.
  rewrite Nat2N.id in H0.
  destruct (N.ltb_spec (window l (2 * h * k + h) h) n).
  - exists (2 * k)%nat. split; [lia|]. replace (h * (2 * k))%nat with (2 * h * k)%nat by lia.
    split; [lia|]. replace (N.to_nat _) with (2 * h * k + h)%nat by lia.
    rewrite <- (window_drop l (2 * h * k + h) h).
    replace (2 * h * k + h + h)%nat with (2 * h * (k + 1))%nat by lia. lia.
  - exists (2 * k + 1)%nat. replace (h * (2 * k + 1))%nat with (2 * h * k + h)%nat by lia.
    split; [lia|]. split; [lia|]. by rewrite Nat2N.id.
Qed.

Lemma inside_ge l w n0 s n : inside l w n0 s n → N.of_nat w <= s.
Proof. intros (k & -> & _). nia. Qed.

Lemma inside_n l w n0 s n : (w ≤ 64)%nat → inside l w n0 s n → 1 <= n <= 64.
Proof. intros Hw (k & _ & Hn & _). pose proof (window_le l (w * k) w). lia. Qed.

Lemma inside_digit l w h n0 s n ds : (0 < h)%nat → (w = 2 * h)%nat → inside l w n0 s n →
  counts h l ds → ∃ k, s - N.of_nat h = N.of_nat h * N.of_nat k ∧
    nth k ds 0 = window l (N.to_nat (s - N.of_nat h)) h.
Proof.
  intros Hh -> (k & -> & _) [_ Hds]. exists (2 * k + 1)%nat. split; [lia|].
  rewrite Hds. unfold window. do 3 f_equal. nia.
Qed.

(** The lines of one step, on a count [t] of the upper half. *)
Lemma narrow_ok l h w n0 s n t g j : (0 < h)%nat → (w = 2 * h)%nat → (w ≤ 64)%nat →
  inside l w n0 s n → t = window l (N.to_nat (s - N.of_nat h)) h → g <= 16 →
  N.shiftr 256 j = N.of_nat h →
  ∃ s' n', narrow s n (t + 65536 * g) j = Some (s', n') ∧ inside l h n0 s' n'.
Proof.
  intros Hh -> Hw Hin Ht Hg Hj. pose proof (inside_ge _ _ _ _ _ Hin) as Hs.
  pose proof (inside_n _ _ _ _ _ Hw Hin) as Hn.
  pose proof (window_le l (N.to_nat (s - N.of_nat h)) h).
  destruct (borrow t g n) as [Hb1 Hb2]; [lia..|].
  pose proof (inside_half l h n0 s n Hh Hin) as Hhalf. cbn zeta in Hhalf. rewrite <- Ht in Hhalf.
  unfold narrow. rewrite Hb1, Hb2. destruct (N.ltb_spec t n).
  - rewrite Hj. eexists _, _. rewrite !usize_sub_le by lia. by split.
  - rewrite N.shiftr_0_l. eexists _, _. rewrite !usize_sub_le by lia. simpl.
    rewrite !N.sub_0_r. by split.
Qed.

Lemma narrow_digit l ds h w n0 s n b j m : (0 < h)%nat → (w = 2 * h)%nat → (w ≤ 64)%nat →
  inside l w n0 s n → counts h l ds → N.of_nat h = b → m <= b → Forall (λ d, d < 2 ^ m) ds →
  N.shiftr 256 j = b →
  ∃ p s' n', usize_sub s b = Some p ∧
    N.land (N.shiftr (digits b ds) p) (2 ^ m - 1) = window l (N.to_nat p) h ∧
    narrow s n (window l (N.to_nat p) h) j = Some (s', n') ∧ inside l h n0 s' n'.
Proof.
  intros Hh Hw Hw' Hin Hc <- Hm Hds Hj. pose proof (inside_ge _ _ _ _ _ Hin) as Hs.
  destruct (inside_digit _ _ _ _ _ _ _ Hh Hw Hin Hc) as (k & Hk & Hnth).
  destruct (narrow_ok l h w n0 s n _ 0 j Hh Hw Hw' Hin eq_refl ltac:(lia) Hj) as (s' & n' & Hnar & Hin').
  rewrite N.mul_0_r, N.add_0_r in Hnar.
  exists (s - N.of_nat h), s', n'. rewrite usize_sub_le by lia. split_and!; try done.
  rewrite <- Hnth, Hk. by apply digit_at.
Qed.
End search.

(** ** Correctness *)

(** What the search answers: the place of the [n]-th set bit. *)
Definition is_nth (l : list bool) (n i : N) : Prop :=
  l !! N.to_nat i = Some true ∧ trues (take (N.to_nat i) l) = n - 1.

Section correct.
Implicit Types l : list bool.

Lemma to_bits_of_bits l : to_bits (length l) (of_bits l) = l.
Proof.
  apply list_eq. intros i. unfold to_bits. rewrite list_lookup_fmap.
  destruct (decide (i < length l)%nat) as [Hi|Hi].
  - rewrite lookup_seq_lt by done. simpl. rewrite testbit_of_bits, Nat2N.id, nth_lookup.
    by destruct (lookup_lt_is_Some_2 _ _ Hi) as [b ->].
  - rewrite lookup_seq_ge, lookup_ge_None_2 by lia. done.
Qed.

Lemma trues_reverse l : trues (reverse l) = trues l.
Proof. induction l as [|b l IH]; [done|]. rewrite reverse_cons, trues_app, IH. simpl. lia. Qed.

Lemma bits_bounded l : Forall (λ d, d <= 1) (N.b2n <$> l).
Proof. apply Forall_fmap, Forall_true. by intros []. Qed.

Lemma bounded_lt B m ds : B < m → Forall (λ d, d <= B) ds → Forall (λ d, d < m) ds.
Proof. intros Hm Hds. eapply Forall_impl; [exact Hds|]. simpl. lia. Qed.

(** The four parallel counts. *)
Lemma pair_counts ds : length ds = 64%nat → Forall (λ d, d <= 1) ds →
  usize_sub (digits 1 ds) (N.land (N.shiftr (digits 1 ds) 1) (u64_max / 3)) = Some (digits 2 (sums ds)).
Proof.
  intros Hlen Hds. pose proof (pairs_bounded _ _ Hds) as Hb.
  assert (Nat.even (length ds) = true) as He by by rewrite Hlen.
  change (u64_max / 3) with (half_mask 1 32).
  replace 32%nat with (length (pairs ds)) by by rewrite length_pairs, Hlen.
  rewrite (digits_pairs 1 ds He), (land_hi 1 1 (pairs ds)) by done.
  rewrite joined_digits, usize_sub_le by lia. f_equal.
  change (2 ^ 1) with 2. change (2 * 1) with 2. rewrite sums_pairs, digits_add. lia.
Qed.

Lemma digits_small w m ds : length ds = m → 
  ∀ B M, Forall (λ d, d <= B) ds → digits w (replicate m B) <= M → digits w ds <= M.
Proof. intros <- B M Hds HM. etrans; [by apply digits_le|done]. Qed.

Lemma nibble_counts ds : length ds = 32%nat → Forall (λ d, d <= 2) ds →
  u64_add (N.land (digits 2 ds) (u64_max / 5)) (N.land (N.shiftr (digits 2 ds) 2) (u64_max / 5)) =
  Some (digits 4 (sums ds)).
Proof.
  intros Hlen Hds. pose proof (pairs_bounded _ _ Hds) as Hb.
  assert (Nat.even (length ds) = true) as He by by rewrite Hlen.
  change (u64_max / 5) with (half_mask 2 16).
  replace 16%nat with (length (pairs ds)) by by rewrite length_pairs, Hlen.
  rewrite (digits_pairs 2 ds He), (land_hi 2 2 (pairs ds)), (land_lo 2 2 (pairs ds)) by done.
  unfold u64_add. rewrite <- digits_add, <- sums_pairs. change (2 * 2) with 4.
  destruct (N.leb_spec (digits 4 (sums ds)) u64_max) as [|H]; [done|]. apply N.lt_nge in H. destruct H.
  apply (digits_small 4 16 _ ltac:(by rewrite length_sums, Hlen) 4); [|by vm_compute].
  by apply (sums_bounded 2).
Qed.

(** Two levels computed by adding a shifted copy. *)
Lemma group_counts w B m ds mask : length ds = m → Nat.even m = true →
  Forall (λ d, d <= B) ds → 2 * B < 2 ^ w → mask = half_mask w (Nat.div2 m) →
  2 * digits w (replicate m B) <= u64_max →
  ∃ c, u64_add (digits w ds) (N.shiftr (digits w ds) w) = Some c ∧
    N.land c mask = digits (2 * w) (sums ds).
Proof.
  intros Hlen He Hds HB -> Hmax.
  pose proof (pairs_bounded _ _ Hds) as Hb. rewrite <- Hlen in He.
  eexists. split.
  - unfold u64_add. pose proof (digits_le w _ _ Hds) as Hle. rewrite Hlen in Hle.
    assert (N.shiftr (digits w ds) w <= digits w ds).
    { rewrite N.shiftr_div_pow2. apply N.Div0.div_le_upper_bound. pose proof (pow_pos w). nia. }
    destruct (N.leb_spec (digits w ds + N.shiftr (digits w ds) w) u64_max); [done|lia].
  - replace (Nat.div2 m) with (length (pairs ds)) by by rewrite length_pairs, Hlen.
    by rewrite (digits_pairs w ds He), (land_sum w B), <- sums_pairs.
Qed.

Lemma inside_start l n : length l = 64%nat → 1 <= n <= trues l → inside l 64 n 64 n.
Proof.
  intros Hlen Hn. exists 0%nat. split; [done|]. split.
  - unfold window. by rewrite drop_0, take_ge by lia.
  - rewrite drop_ge by (rewrite Hlen; done). simpl. lia.
Qed.

(** The counts of the groups of 2, 4, 8 and 16 bits, as the code computes them. *)
Record levels (l : list bool) (d1 d2 d3 d4 : list N) (c d : N) : Prop := {
  level_1 : counts 2 l d1 ∧ Forall (λ x, x < 2 ^ 2) d1;
  level_2 : counts 4 l d2 ∧ Forall (λ x, x < 2 ^ 3) d2;
  level_3 : counts 8 l d3 ∧ Forall (λ x, x < 2 ^ 4) d3;
  level_4 : counts 16 l d4 ∧ Forall (λ x, x <= 16) d4;
  level_a : usize_sub (of_bits l) (N.land (N.shiftr (of_bits l) 1) (u64_max / 3)) = Some (digits 2 d1);
  level_b : u64_add (N.land (digits 2 d1) (u64_max / 5))
              (N.land (N.shiftr (digits 2 d1) 2) (u64_max / 5)) = Some (digits 4 d2);
  level_c : u64_add (digits 4 d2) (N.shiftr (digits 4 d2) 4) = Some c ∧
            N.land c (u64_max / 0x11) = digits 8 d3;
  level_d : u64_add (digits 8 d3) (N.shiftr (digits 8 d3) 8) = Some d ∧
            N.land d (u64_max / 0x101) = digits 16 d4 }.

Lemma level_up n m l ds B : length ds = (2 * m)%nat → counts n l ds → Forall (λ d, d <= B) ds →
  length (sums ds) = m ∧ counts (2 * n) l (sums ds) ∧ Forall (λ d, d <= 2 * B) (sums ds).
Proof.
  intros Hlen Hc Hds. split; [by rewrite length_sums, Hlen, Nat.div2_double|].
  split; [|by apply sums_bounded]. apply counts_sums; [|done]. rewrite Hlen, Nat.even_spec. by exists m.
Qed.

Lemma levels_exist l : length l = 64%nat → ∃ d1 d2 d3 d4 c d, levels l d1 d2 d3 d4 c d.
Proof.
  intros Hlen. pose proof (bits_bounded l) as B0. pose proof (counts_bits l) as C0.
  assert (length (N.b2n <$> l) = 64%nat) as L0 by by rewrite length_fmap.
  destruct (level_up _ 32 _ _ _ L0 C0 B0) as (L1 & C1 & B1).
  destruct (level_up _ 16 _ _ _ L1 C1 B1) as (L2 & C2 & B2).
  destruct (level_up _ 8 _ _ _ L2 C2 B2) as (L3 & C3 & B3).
  destruct (level_up _ 4 _ _ _ L3 C3 B3) as (L4 & C4 & B4).
  destruct (group_counts 4 4 16 _ (u64_max / 0x11) L2 eq_refl B2) as (c & Hc);
    [done|done|by vm_compute|].
  destruct (group_counts 8 8 8 _ (u64_max / 0x101) L3 eq_refl B3) as (d & Hd);
    [done|done|by vm_compute|].
  eexists _, _, _, _, c, d. constructor; [| | | | | |exact Hc|exact Hd].
  - split; [exact C1|]. by apply (bounded_lt 2).
  - split; [exact C2|]. by apply (bounded_lt 4).
  - split; [exact C3|]. by apply (bounded_lt 8).
  - by split.
  - rewrite of_bits_digits. by apply pair_counts.
  - by apply nibble_counts.
Qed.

(** The first step reads the two upper counts of 16 bits out of [d]. *)
Lemma first_count l d4 : length l = 64%nat → counts 16 l d4 → Forall (λ x, x <= 16) d4 →
  ∃ g, u64_add (N.shiftr (digits 16 d4) 32) (N.shiftr (digits 16 d4) 48) =
         Some (window l 32 32 + 65536 * g) ∧ g <= 16.
Proof.
  intros Hlen [Hl Hc] Hb. rewrite Hlen in Hl.
  destruct d4 as [|x0 [|x1 [|x2 [|x3 [|? ?]]]]]; simpl in Hl; try lia.
  pose proof (bounded_lt 16 (2 ^ 16) _ eq_refl Hb) as Hlt.
  pose proof (digits_shiftr 16 _ 2 Hlt) as H2. pose proof (digits_shiftr 16 _ 3 Hlt) as H3.
  pose proof (Hc 2%nat) as E2. pose proof (Hc 3%nat) as E3.
  inversion_clear Hb as [|? ? _ Hb1]. inversion_clear Hb1 as [|? ? _ Hb2].
  inversion_clear Hb2 as [|? ? Hx2 Hb3]. inversion_clear Hb3 as [|? ? Hx3 _].
  change (16 * N.of_nat 2) with 32 in H2. change (16 * N.of_nat 3) with 48 in H3.
  rewrite H2, H3. exists x3. split; [|done].
  assert (window l 32 32 = x2 + x3) as ->.
  { change 32%nat with (16 + 16)%nat at 2. rewrite (window_split l 32 16 16). cbn [nth] in E2, E3. by rewrite E2, E3. }
  cbn [drop digits]. change (2 ^ 16) with 65536. unfold u64_add.
  destruct (N.leb_spec (x2 + 65536 * (x3 + 65536 * 0) + (x3 + 65536 * 0)) u64_max) as [_|H].
  - f_equal. lia.
  - change u64_max with 18446744073709551615 in H. lia.
Qed.

(** The last step looks at one bit. *)
Lemma last_step l n0 s n : inside l 2 n0 s n →
  ∃ p s', usize_sub s 1 = Some p ∧
    usize_sub s (N.shiftr (N.land (wrapping_sub 64 (N.land (N.shiftr (of_bits l) p) 0x1) n) 256) 8) =
      Some s' ∧
    1 <= s' ∧ l !! N.to_nat (s' - 1) = Some true ∧ trues (drop (N.to_nat s') l) = n0 - 1.
Proof.
  intros Hin. pose proof (inside_ge _ _ _ _ _ Hin) as Hs.
  pose proof (inside_n l 2 n0 s n ltac:(lia) Hin) as Hn.
  set (t := window l (N.to_nat (s - 1)) 1).
  assert (N.land (N.shiftr (of_bits l) (s - 1)) 0x1 = t) as Ht.
  { unfold t, window. rewrite of_bits_shiftr, (of_bits_mask _ 1 : N.land _ 1 = _).
    change (N.to_nat 1) with 1%nat.
    destruct (drop (N.to_nat (s - 1)) l) as [|[] r]; done. }
  pose proof (window_le l (N.to_nat (s - 1)) 1) as Htle. fold t in Htle.
  destruct (borrow t 0 n) as [Hb _]; [lia..|]. rewrite N.mul_0_r, N.add_0_r in Hb.
  pose proof (inside_half l 1 n0 s n ltac:(lia) Hin) as Hhalf. cbn zeta in Hhalf.
  change (N.of_nat 1) with 1 in Hhalf. fold t in Hhalf.
  exists (s - 1), (if t <? n then s - 1 else s). rewrite usize_sub_le, Ht, Hb by lia.
  split; [done|]. split.
  { destruct (t <? n); [change (N.shiftr 256 8) with 1|change (N.shiftr 0 8) with 0];
      rewrite usize_sub_le, ?N.sub_0_r by lia; done. }
  destruct Hhalf as (k & Hk & Hw & Hd). rewrite Hk in Hd |- *. rewrite Nat2N.id in Hd |- *.
  split; [lia|]. rewrite Nat.mul_1_l in *.
  replace (N.to_nat (N.of_nat (k + 1) - 1)) with k by lia. unfold window in Hw.
  destruct (drop k l) as [|b r] eqn:Hdrop.
  - change (trues (take 1 [])) with 0 in Hw. lia.
  - change (trues (take 1 (b :: r))) with (N.b2n b + 0) in Hw.
    assert (b = true) as -> by (destruct b; [done|change (N.b2n false) with 0 in Hw; lia]).
    rewrite <- (Nat.add_0_r k), <- lookup_drop, Hdrop. split; [done|].
    change (N.b2n true) with 1 in Hw. rewrite Nat.add_0_r. lia.
Qed.

Lemma is_nth_reverse l n s : length l = 64%nat → 1 <= s <= 64 →
  l !! N.to_nat (s - 1) = Some true → trues (drop (N.to_nat s) l) = n - 1 →
  is_nth (reverse l) n (64 - s).
Proof.
  intros Hlen Hs Hbit Htr. split.
  - rewrite reverse_lookup by lia. rewrite Hlen, <- Hbit. f_equal. lia.
  - rewrite take_reverse, trues_reverse, Hlen, <- Htr. do 2 f_equal. lia.
Qed.

Lemma nth_set_bit_u64_reverse l n : length l = 64%nat → 1 <= n <= trues l →
  ∃ i, nth_set_bit_u64 (of_bits (reverse l)) n = Some i ∧ i < 64 ∧ is_nth (reverse l) n i.
Proof.
  intros Hlen Hn.
  destruct (levels_exist l Hlen) as (d1 & d2 & d3 & d4 & c & d &
    [[C1 B1] [C2 B2] [C3 B3] [C4 B4] Ha Hb [Hc Hc'] [Hd Hd']]).
  assert (Forall (λ x, x < 2 ^ 8) d4) as B4' by (by apply (bounded_lt 16)).
  destruct (first_count l d4 Hlen C4 B4) as (g & Ht & Hg).
  pose proof (inside_start l n Hlen Hn) as I0.
  destruct (narrow_ok l 32 64 n 64 n (window l 32 32) g 3) as (s1 & n1 & N1 & I1);
    [lia|lia|lia|done|done|done|done|].
  destruct (narrow_digit l d4 16 32 n s1 n1 16 4 8) as (p2 & s2 & n2 & P2 & T2 & N2 & I2);
    [lia|lia|lia|done|done|done|done|done|done|].
  destruct (narrow_digit l d3 8 16 n s2 n2 8 5 4) as (p3 & s3 & n3 & P3 & T3 & N3 & I3);
    [lia|lia|lia|done|done|done|done|done|done|].
  destruct (narrow_digit l d2 4 8 n s3 n3 4 6 3) as (p4 & s4 & n4 & P4 & T4 & N4 & I4);
    [lia|lia|lia|done|done|done|done|done|done|].
  destruct (narrow_digit l d1 2 4 n s4 n4 2 7 2) as (p5 & s5 & n5 & P5 & T5 & N5 & I5);
    [lia|lia|lia|done|done|done|done|done|done|].
  destruct (last_step l n s5 n5 I5) as (p6 & s6 & P6 & S6 & Hs6 & Hbit & Htr).
  assert (s6 <= 64) as Hle.
  { apply lookup_lt_Some in Hbit. rewrite Hlen in Hbit. lia. }
  exists (64 - s6). split; [|split; [lia|by apply is_nth_reverse]].
  unfold nth_set_bit_u64, reverse_bits.
  assert (reverse (to_bits 64 (of_bits (reverse l))) = l) as ->.
  { rewrite <- Hlen, <- length_reverse, to_bits_of_bits. apply reverse_involutive. }
  change (2 ^ 8 - 1) with 0xff in T2. change (2 ^ 4 - 1) with 0xf in T3.
  change (2 ^ 3 - 1) with 0x7 in T4. change (2 ^ 2 - 1) with 0x3 in T5.
  rewrite Ha. cbn [mbind option_bind]. rewrite Hb. cbn [mbind option_bind].
  rewrite Hc. cbn [mbind option_bind]. rewrite Hc', Hd. cbn [mbind option_bind]. rewrite Hd', Ht.
  cbn [mbind option_bind]. rewrite N1. cbn [mbind option_bind]. rewrite P2. cbn [mbind option_bind].
  rewrite T2, N2. cbn [mbind option_bind]. rewrite P3. cbn [mbind option_bind].
  rewrite T3, N3. cbn [mbind option_bind]. rewrite P4. cbn [mbind option_bind].
  rewrite T4, N4. cbn [mbind option_bind]. rewrite P5. cbn [mbind option_bind].
  rewrite T5, N5. cbn [mbind option_bind]. rewrite P6. cbn [mbind option_bind].
  rewrite S6. cbn [mbind option_bind]. rewrite !usize_sub_le by lia. cbn [mbind option_bind].
  rewrite usize_sub_le by lia. f_equal. lia.
Qed.

Lemma nth_set_bit_u64_ok l n : length l = 64%nat → 1 <= n <= trues l →
  ∃ i, nth_set_bit_u64 (of_bits l) n = Some i ∧ i < 64 ∧ is_nth l n i.
Proof.
  intros Hlen Hn. destruct (nth_set_bit_u64_reverse (reverse l) n) as (i & Hi).
  - by rewrite length_reverse.
  - by rewrite trues_reverse.
  - exists i. by rewrite reverse_involutive in Hi.
Qed.

Lemma is_nth_app_l l k n i : is_nth l n i → is_nth (l ++ k) n i.
Proof.
  intros [Hl Ht]. pose proof (lookup_lt_Some _ _ _ Hl). split.
  - by apply lookup_app_l_Some.
  - by rewrite take_app_le by lia.
Qed.

Lemma is_nth_app_r l k n i : trues l < n → is_nth k (n - trues l) i → is_nth (l ++ k) n (len l + i).
Proof.
  intros Hn [Hl Ht]. assert (N.to_nat (len l + i) = length l + N.to_nat i)%nat as E
    by (unfold len; lia). split; rewrite E.
  - by rewrite lookup_app_r, Nat.add_comm, Nat.add_sub by lia.
  - rewrite take_app_add, trues_app, Ht. lia.
Qed.

Lemma is_nth_pad l m n i : is_nth (l ++ replicate m false) n i → is_nth l n i.
Proof.
  intros [Hl Ht]. destruct (decide (N.to_nat i < length l)%nat) as [Hi|Hi].
  - rewrite lookup_app_l in Hl by done. rewrite take_app_le in Ht by lia. by split.
  - rewrite lookup_app_r in Hl by lia. by apply lookup_replicate in Hl as [? _].
Qed.

Lemma of_bits_pad l m : of_bits (l ++ replicate m false) = of_bits l.
Proof. rewrite of_bits_app, of_bits_false. lia. Qed.

Lemma nth_set_bit_128 l n : length l = 128%nat → 1 <= n <= trues l →
  ∃ i, nth_set_bit (of_bits l) n = Some i ∧ is_nth l n i.
Proof.
  intros Hlen Hn.
  assert (length (take 64 l) = 64%nat) as Hlow by (rewrite length_take; lia).
  assert (length (drop 64 l) = 64%nat) as Hhigh by (rewrite length_drop; lia).
  assert (trues l = trues (take 64 l) + trues (drop 64 l)) as Htr by by rewrite <- trues_app, take_drop.
  unfold nth_set_bit. rewrite of_bits_mod, of_bits_shiftr, of_bits_mod, count_of_bits.
  change (N.to_nat 64) with 64%nat. rewrite (take_ge (drop 64 l)) by lia.
  destruct (N.ltb_spec (trues (take 64 l)) n).
  - destruct (nth_set_bit_u64_ok _ (n - trues (take 64 l)) Hhigh) as (i & -> & _ & Hi); [lia|].
    exists (64 + i). split; [done|].
    pose proof (is_nth_app_r _ _ n i H Hi) as Hr. unfold len in Hr.
    by rewrite Hlow, take_drop in Hr.
  - destruct (nth_set_bit_u64_ok _ n Hlow) as (i & -> & _ & Hi); [lia|].
    exists i. split; [done|]. rewrite <- (take_drop 64 l). by apply is_nth_app_l.
Qed.

(** [nth_set_bit] finds the [n]-th set bit of a bitmap. *)
Lemma nth_set_bit_ok l n : (length l ≤ 128)%nat → 1 <= n <= trues l →
  ∃ i, nth_set_bit (of_bits l) n = Some i ∧ is_nth l n i.
Proof.
  intros Hlen Hn. destruct (nth_set_bit_128 (l ++ replicate (128 - length l) false) n) as (i & Hi & H).
  - rewrite length_app, length_replicate. lia.
  - by rewrite trues_app, trues_false, N.add_0_r.
  - rewrite of_bits_pad in Hi. exists i. split; [done|]. by eapply is_nth_pad.
Qed.

(** *** A reference definition *)

(** The places of the set bits, by one pass over them. *)
Fixpoint nth_true l (n : N) : option N :=
  match l with
  | [] => None
  | b :: l => if b && (n =? 1) then Some 0 else N.succ <$> nth_true l (if b then n - 1 else n)
  end.

Lemma is_nth_true l n i : 1 <= n → is_nth l n i → nth_true l n = Some i.
Proof.
  revert n i. induction l as [|b l IH]; intros n i Hn [Hl Ht]; [by destruct (N.to_nat i)|].
  simpl. destruct (N.eq_dec i 0) as [->|Hi].
  - injection Hl as ->. simpl in Ht. by replace n with 1 by lia.
  - replace (N.to_nat i) with (Datatypes.S (N.to_nat (i - 1))) in Hl, Ht by lia. simpl in Hl, Ht.
    assert (N.succ (i - 1) = i) as Hs by lia. destruct b; simpl in *.
    + destruct (N.eqb_spec n 1); [lia|].
      rewrite (IH (n - 1) (i - 1)); [simpl; by rewrite Hs|lia|]. split; [done|lia].
    + rewrite (IH n (i - 1)); [simpl; by rewrite Hs|lia|]. split; [done|lia].
Qed.

Lemma nth_true_none l n : trues l < n → nth_true l n = None.
Proof.
  revert n. induction l as [|b l IH]; intros n; [done|]. destruct b; simpl; intros Hn.
  - destruct (N.eqb_spec n 1); [lia|]. by rewrite IH by lia.
  - by rewrite IH by lia.
Qed.

(** C35: the branchless selection over parallel bit counts is the linear search for the [n]-th set bit:
    on any bitmap of at most 128 bits and any [n] from 1 up to the number of its set bits, no
    subtraction of the 64-bit code overflows and it gives the place of that bit. *)
Theorem nth_set_bit_selects l n (Hlen : (length l ≤ 128)%nat) (Hn : 1 <= n <= trues l) :
  ∃ i, nth_set_bit (of_bits l) n = Some i ∧ nth_true l n = Some i ∧
       l !! N.to_nat i = Some true ∧ trues (take (N.to_nat i) l) = n - 1.
Proof.
  destruct (nth_set_bit_ok l n Hlen Hn) as (i & Hi & Hnth).
  exists i. split; [done|]. split; [by apply is_nth_true; [lia|]|exact Hnth].
Qed.
End correct.

Lemma nth_set_bit_selects_witness :
  nth_set_bit (of_bits (replicate 70 false ++ [true; false; true])) 2 = Some 72.
Proof.
  destruct (nth_set_bit_selects (replicate 70 false ++ [true; false; true]) 2) as (i & Hi & Href & _).
  - cbn. lia.
  - vm_compute. split; discriminate.
  - rewrite Hi. vm_compute in Href. by injection Href as <-.
Defined.
