(* ===== verification/Chunk.v ===== *)
(** * Chunks of text: [crates/rope/src/chunk.rs]

    A chunk holds up to 128 bytes of text and four bitmaps over its bytes, which
    mark the characters, the UTF-16 units, the line feeds and the tabs; its
    queries are computed from the bitmaps. *)

From Stdlib Require Import ZArith.
From S2P Require Import Prelude SumTree Points Text Bitmap SelectBit.
Import Bits PointOps.

#[local] Open Scope N_scope.

(** ** Data *)

Definition MAX_BASE : N := 128.
Definition MIN_BASE : N := MAX_BASE / 2.

(** [ChunkSlice] borrows what [Chunk] owns; both are this record. The bitmaps
    are the fields [chars], [chars_utf16], [newlines] and [tabs]. *)
Record ChunkSlice := mkSlice {
  bm_chars : N;
  bm_chars_utf16 : N;
  bm_newlines : N;
  bm_tabs : N;
  text : str }.
Abbreviation Chunk := ChunkSlice (only parsing).

#[export] Instance ChunkSlice_eq_dec : EqDecision ChunkSlice.
Proof. solve_decision. Defined.

(** The iterator [Tabs] and its items. *)
Record Tabs := mkTabs { tabs_tabs : N; tabs_chars : N }.
Record TabPosition := mkTabPosition { byte_offset : N; char_offset : N }.

Module ChunkOps.

(** *** Masks *)

Definition saturating_shl_mask (offset : N) : N := wrapping_sub 128 (unbounded_shl 128 1 offset) 1.
Definition saturating_shr_mask (offset : N) : N :=
  lnot 128 (unbounded_shr 128 (2 ^ 128 - 1) offset).

(** *** Construction *)

(** [util::is_utf8_char_boundary]: [(b as i8) >= -0x40]. *)
Definition as_i8 (b : N) : Z := if b <? 128 then Z.of_N b else (Z.of_N b - 256)%Z.
Definition is_utf8_char_boundary (b : N) : bool := (-0x40 <=? as_i8 b)%Z.

(** The bits that one test sets over eight bytes. *)
Definition flag_byte (test : N → bool) (chunk : list N) : N :=
  foldl (λ acc '(ix, b), N.lor acc (N.shiftl (N.b2n (test b)) ix)) 0
    (zip (N.of_nat <$> seq 0 (length chunk)) chunk).

(** The loop over groups of eight bytes, for one of the four arrays. *)
Fixpoint flag_bytes (fuel : nat) (test : N → bool) (bytes : list N) : list N :=
  match fuel, bytes with
  | Datatypes.S fuel, _ :: _ =>
      let chunk := take (Nat.min (length bytes) 8) bytes in
      let rest := drop (Nat.min (length bytes) 8) bytes in
      flag_byte test chunk :: flag_bytes fuel test rest
  | _, _ => []
  end.

Definition bitmap_of (test : N → bool) (bytes : list N) : N :=
  let written := flag_bytes 16 test bytes in
  from_le_bytes (written ++ replicate (16 - length written) 0).

(** [None] is the panic of [push_str(text).unwrap()] on more than [MAX_BASE] bytes. *)
Definition new (text : str) : option Chunk :=
  if Str.length_utf8 text <=? MAX_BASE then
    let bytes := Str.as_bytes text in
    let chars := bitmap_of is_utf8_char_boundary bytes in
    chars_utf16 ← shl 128 (bitmap_of (λ b, 240 <=? b) bytes) 1;
    Some (mkSlice chars (N.lor chars_utf16 chars) (bitmap_of (λ b, b =? 10) bytes)
            (bitmap_of (λ b, b =? 9) bytes) text)
  else None.

Definition empty : Chunk := mkSlice 0 0 0 0 [].

Definition is_empty (slice : ChunkSlice) : bool := Str.length_utf8 (text slice) =? 0.

Definition push_text (a b : str) : option str :=
  if Str.length_utf8 a + Str.length_utf8 b <=? MAX_BASE then Some (a ++ b) else None.

Definition append (c : Chunk) (slice : ChunkSlice) : option Chunk :=
  if is_empty slice then Some c
  else
    let base_ix := Str.length_utf8 (text c) in
    chars ← shl 128 (bm_chars slice) base_ix;
    chars_utf16 ← shl 128 (bm_chars_utf16 slice) base_ix;
    newlines ← shl 128 (bm_newlines slice) base_ix;
    tabs ← shl 128 (bm_tabs slice) base_ix;
    text' ← push_text (text c) (text slice);
    Some (mkSlice (N.lor (bm_chars c) chars) (N.lor (bm_chars_utf16 c) chars_utf16)
            (N.lor (bm_newlines c) newlines) (N.lor (bm_tabs c) tabs) text').

Definition prepend (c : Chunk) (slice : ChunkSlice) : option Chunk :=
  if is_empty slice then Some c
  else if Str.length_utf8 (text c) =? 0 then new (text slice)
  else
    let shift := Str.length_utf8 (text slice) in
    chars ← shl 128 (bm_chars c) shift;
    chars_utf16 ← shl 128 (bm_chars_utf16 c) shift;
    newlines ← shl 128 (bm_newlines c) shift;
    tabs ← shl 128 (bm_tabs c) shift;
    new_text ← push_text [] (text slice);
    new_text ← push_text new_text (text c);
    Some (mkSlice (N.lor (bm_chars slice) chars) (N.lor (bm_chars_utf16 slice) chars_utf16)
            (N.lor (bm_newlines slice) newlines) (N.lor (bm_tabs slice) tabs) new_text).

Definition push_str (c : Chunk) (s : str) : option Chunk := slice ← new s; append c slice.
Definition prepend_str (c : Chunk) (s : str) : option Chunk := slice ← new s; prepend c slice.

(** *** Boundaries and slices *)

Definition is_char_boundary (c : ChunkSlice) (offset : N) : bool :=
  negb (N.land (unbounded_shl 128 1 (as_u32 offset)) (bm_chars c) =? 0)
    || (offset =? Str.length_utf8 (text c)).

(** [Chunk::floor_char_boundary]: the loop over the bytes before [index]. *)
Fixpoint floor_loop (bytes : list N) (i : nat) : option N :=
  match i with
  | O => Some 0
  | Datatypes.S i' =>
      b ← bytes !! i;
      if is_utf8_char_boundary b then Some (N.of_nat i) else floor_loop bytes i'
  end.

Definition floor_char_boundary (c : Chunk) (index : N) : option N :=
  if Str.length_utf8 (text c) <=? index then Some (Str.length_utf8 (text c))
  else floor_loop (Str.as_bytes (text c)) (N.to_nat index).

(** [Into<Chunk>]: the text must fit. *)
Definition into_chunk (slice : ChunkSlice) : option Chunk :=
  if Str.length_utf8 (text slice) <=? MAX_BASE then Some slice else None.

Definition map_bits (f : N → N) (c : ChunkSlice) (s : str) : ChunkSlice :=
  mkSlice (f (bm_chars c)) (f (bm_chars_utf16 c)) (f (bm_newlines c)) (f (bm_tabs c)) s.

Definition split_at (c : ChunkSlice) (mid : N) : option (ChunkSlice * ChunkSlice) :=
  if mid =? MAX_BASE then Some (c, empty)
  else
    one ← shl 128 1 mid;
    let mask := one - 1 in
    '(left_text, right_text) ← Str.split_at (text c) mid;
    Some (map_bits (λ v, N.land v mask) c left_text,
          map_bits (λ v, N.shiftr v mid) c right_text).

(** Off a boundary the range is adjusted, after a line in the log. *)
Definition slice (c : ChunkSlice) (range : Range N) : option ChunkSlice :=
  if start range =? MAX_BASE then Some empty
  else
    let start' := if is_char_boundary c (start range) then start range
                  else Str.ceil_char_boundary (text c) (start range) in
    let stop' := if is_char_boundary c (stop range) then stop range
                 else if stop range <? start' then start'
                 else Str.floor_char_boundary (text c) (stop range) in
    let mask := wrapping_sub 128 (unbounded_shl 128 1 (as_u32 stop')) 1 in
    if start' <? 128 then
      s ← Str.slice (text c) (start' ..: stop');
      Some (map_bits (λ v, N.shiftr (N.land v mask) start') c s)
    else None.

(** *** Measures *)

Definition len (c : ChunkSlice) : N := Str.length_utf8 (text c).
Definition len_utf16 (c : ChunkSlice) : N := count_ones (bm_chars_utf16 c).

Definition lines (c : ChunkSlice) : option Point :=
  let row := count_ones (bm_newlines c) in
  unused ← usize_sub 128 (len c);
  column ← usize_sub (leading_zeros 128 (bm_newlines c)) unused;
  Some (PointOps.new row column).

Definition first_line_chars (c : ChunkSlice) : N :=
  count_ones (N.land (bm_chars c) (saturating_shl_mask (trailing_zeros 128 (bm_newlines c)))).
Definition last_line_chars (c : ChunkSlice) : N :=
  count_ones (N.land (bm_chars c) (saturating_shr_mask (leading_zeros 128 (bm_newlines c)))).
Definition last_line_len_utf16 (c : ChunkSlice) : N :=
  count_ones (N.land (bm_chars_utf16 c) (saturating_shr_mask (leading_zeros 128 (bm_newlines c)))).

(** The cast [as u8]. *)
Definition as_u8 (n : N) : N := n mod 256.

Record RowScan := mkRowScan {
  scan_chars : N; scan_newlines : N; scan_total : N; scan_row : N;
  scan_longest_row : N; scan_longest_row_chars : N }.

(** A turn of the loop of [longest_row]. *)
Definition row_step (s : RowScan) : option RowScan :=
  let newline_ix := trailing_zeros 128 (scan_newlines s) in
  one ← shl 128 1 newline_ix;
  let row_chars := as_u8 (count_ones (N.land (scan_chars s) (one - 1))) in
  newlines ← shr 128 (scan_newlines s) newline_ix;
  chars ← shr 128 (scan_chars s) newline_ix;
  Some {| scan_chars := N.shiftr chars 1;
          scan_newlines := N.shiftr newlines 1;
          scan_total := scan_total s + row_chars + 1;
          scan_row := scan_row s + 1;
          scan_longest_row :=
            if scan_longest_row_chars s <? row_chars then scan_row s else scan_longest_row s;
          scan_longest_row_chars :=
            if scan_longest_row_chars s <? row_chars then row_chars
            else scan_longest_row_chars s |}.

Fixpoint row_loop (fuel : nat) (s : RowScan) : option RowScan :=
  if 0 <? scan_newlines s then
    match fuel with
    | O => None
    | Datatypes.S fuel => s ← row_step s; row_loop fuel s
    end
  else Some s.

(** The row, its characters, and all characters ([total_chars]); every turn of the loop takes one
    of at most 128 line feeds. *)
Definition longest_row (c : ChunkSlice) : option (N * N * N) :=
  s ← row_loop 128 (mkRowScan (bm_chars c) (bm_newlines c) 0 0 0 0);
  let row_chars := as_u8 (count_ones (scan_chars s)) in
  let total := scan_total s + row_chars in
  Some (if scan_longest_row_chars s <? row_chars then (scan_row s, row_chars, total)
        else (scan_longest_row s, scan_longest_row_chars s, total)).

Definition text_summary (c : ChunkSlice) : option TextSummary :=
  '(longest_row, longest_row_chars, chars) ← longest_row c;
  lines ← lines c;
  Some (mkTextSummary (len c) chars (len_utf16 c) lines (first_line_chars c) (last_line_chars c)
          (last_line_len_utf16 c) longest_row longest_row_chars).

(** *** Conversions *)

Definition low_mask (offset : N) : N := wrapping_sub 128 (unbounded_shl 128 1 offset) 1.

Definition offset_to_point (c : ChunkSlice) (offset : N) : option Point :=
  let mask := low_mask (as_u32 offset) in
  let row := count_ones (N.land (bm_newlines c) mask) in
  newline_ix ← usize_sub 128 (leading_zeros 128 (N.land (bm_newlines c) mask));
  column ← usize_sub offset newline_ix;
  Some (PointOps.new row (as_u32 column)).

Definition offset_range_for_row (c : ChunkSlice) (row : N) : option (Range N) :=
  row_start ←
    (if 0 <? row then i ← Select.nth_set_bit (bm_newlines c) row; Some (i + 1) else Some 0);
  row_len ←
    (if row_start =? MAX_BASE then Some 0
     else
       rest ← shr 128 (bm_newlines c) row_start;
       room ← usize_sub (len c) row_start;
       Some (N.min (trailing_zeros 128 rest) room));
  Some (row_start ..: row_start + row_len).

(** [debug_panic!]: with debug assertions a panic, else a line in the log and
    the code goes on. *)
Definition debug_panic {A} (debug_assertions : bool) (rest : option A) : option A :=
  if debug_assertions then None else rest.

Definition point_to_offset (debug_assertions : bool) (c : ChunkSlice) (point : Point) : option N :=
  max_point ← lines c;
  if row max_point <? row point then debug_panic debug_assertions (Some (len c))
  else
    range ← offset_range_for_row c (row point);
    if stop range - start range <? column point then debug_panic debug_assertions (Some (stop range))
    else Some (start range + column point).

Definition offset_to_offset_utf16 (c : ChunkSlice) (offset : N) : N :=
  count_ones (N.land (bm_chars_utf16 c) (low_mask (as_u32 offset))).

Definition point_to_offset_utf16 (debug_assertions : bool) (c : ChunkSlice) (point : Point) : option N :=
  max_point ← lines c;
  if row max_point <? row point then debug_panic debug_assertions (Some (len_utf16 c))
  else offset ← point_to_offset debug_assertions c point; Some (offset_to_offset_utf16 c offset).

Definition offset_utf16_to_offset (c : ChunkSlice) (target : N) : option N :=
  if target =? 0 then Some 0
  else
    i ← Select.nth_set_bit (bm_chars_utf16 c) target;
    let ix := i + 1 in
    if ix =? MAX_BASE then Some MAX_BASE
    else
      rest ← shr 128 (bm_chars_utf16 c) ix;
      room ← usize_sub (len c) ix;
      Some (ix + N.min (trailing_zeros 128 rest) room).

Definition offset_to_point_utf16 (c : ChunkSlice) (offset : N) : option PointUtf16 :=
  let mask := saturating_shl_mask (as_u32 offset) in
  let row := count_ones (N.land (bm_newlines c) mask) in
  newline_ix ← usize_sub 128 (leading_zeros 128 (N.land (bm_newlines c) mask));
  column ←
    (if newline_ix =? MAX_BASE then Some 0
     else rest ← shr 128 (N.land (bm_chars_utf16 c) mask) newline_ix; Some (count_ones rest));
  Some (PointOps.new row column).

Definition point_to_point_utf16 (debug_assertions : bool) (c : ChunkSlice) (point : Point) : option PointUtf16 :=
  offset ← point_to_offset debug_assertions c point; offset_to_point_utf16 c offset.

(** The loops that step back to a character boundary. *)
Fixpoint step_back (fuel : nat) (boundary : N → bool) (offset : N) : option N :=
  if boundary offset then Some offset
  else match fuel with
  | O => None
  | Datatypes.S fuel => offset ← usize_sub offset 1; step_back fuel boundary offset
  end.

Definition point_utf16_to_offset (debug_assertions : bool) (c : ChunkSlice) (point : PointUtf16) (clip : bool) :
    option N :=
  max_point ← lines c;
  if row max_point <? row point then
    (if negb clip then debug_panic debug_assertions (Some (len c)) else Some (len c))
  else
    range ← offset_range_for_row c (row point);
    line ← slice c range;
    if last_line_len_utf16 line <? column point then
      (if negb clip then debug_panic debug_assertions (Some (stop range)) else Some (stop range))
    else if 0 <? column point then
      o ← offset_utf16_to_offset line (column point);
      let offset := start range + o in
      if Str.is_char_boundary (text c) offset then Some offset
      else
        offset ← usize_sub offset 1;
        offset ← step_back (N.to_nat MAX_BASE) (Str.is_char_boundary (text c)) offset;
        if negb clip then debug_panic debug_assertions (Some offset) else Some offset
    else Some (start range).

Definition unclipped_point_utf16_to_point (c : ChunkSlice) (point : Unclipped PointUtf16) :
    option Point :=
  let p := unclipped point in
  max_point ← lines c;
  if row max_point <? row p then Some max_point
  else
    range ← offset_range_for_row c (row p);
    line ← slice c range;
    if column p =? 0 then Some (PointOps.new (row p) 0)
    else if len_utf16 line <=? column p then Some (PointOps.new (row p) (len line))
    else
      column ← offset_utf16_to_offset line (column p);
      column ← step_back (N.to_nat MAX_BASE) (Str.is_char_boundary (text line)) column;
      Some (PointOps.new (row p) column).

(** *** Clipping *)

(** The loops that step in the direction of a bias. *)
Fixpoint step_to (fuel : nat) (boundary : N → bool) (bias : Bias) (offset : N) : option N :=
  if boundary offset then Some offset
  else match fuel with
  | O => None
  | Datatypes.S fuel =>
      offset ← (match bias with BiasLeft => usize_sub offset 1 | BiasRight => Some (offset + 1) end);
      step_to fuel boundary bias offset
  end.

Definition clip_offset_utf16 (c : ChunkSlice) (target : N) (bias : Bias) : option N :=
  if target =? 0 then Some 0
  else if len_utf16 c <=? target then Some (len_utf16 c)
  else
    offset ← offset_utf16_to_offset c target;
    offset ← step_to (N.to_nat MAX_BASE) (Str.is_char_boundary (text c)) bias offset;
    Some (offset_to_offset_utf16 c offset).

Definition clip_point_utf16 (c : ChunkSlice) (point : Unclipped PointUtf16) (bias : Bias) :
    option PointUtf16 :=
  let p := unclipped point in
  max_point ← lines c;
  if row max_point <? row p then
    Some (PointOps.new (row max_point) (last_line_len_utf16 c))
  else
    range ← offset_range_for_row c (row p);
    line ← slice c range;
    column ← clip_offset_utf16 line (column p) bias;
    Some (PointOps.new (row p) column).

(** Grapheme boundaries are those of the crate [unicode_segmentation]. *)
Definition clip_point (grapheme_boundary : str → N → bool) (c : ChunkSlice) (point : Point)
    (bias : Bias) : option Point :=
  max_point ← lines c;
  if row max_point <? row point then Some max_point
  else
    range ← offset_range_for_row c (row point);
    line ← slice c range;
    if column point =? 0 then Some point
    else if len line <=? column point then Some (PointOps.new (row point) (len line))
    else
      let bytes := Str.as_bytes (text line) in
      before ← bytes !! N.to_nat (column point - 1);
      at_ ← bytes !! N.to_nat (column point);
      if (before <? 128) && (at_ <? 128) then Some (PointOps.new (row point) (column point))
      else
        column ← step_to (N.to_nat MAX_BASE)
          (λ column, is_char_boundary line column && grapheme_boundary (text line) column)
          bias (column point);
        Some (PointOps.new (row point) column).

(** *** Tabs *)

Definition tabs (c : ChunkSlice) : Tabs := mkTabs (bm_tabs c) (bm_chars c).

Definition tabs_next (t : Tabs) : option (option TabPosition * Tabs) :=
  if tabs_tabs t =? 0 then Some (None, t)
  else
    let tab_offset := trailing_zeros 128 (tabs_tabs t) in
    one ← shl 128 1 tab_offset;
    let char_offset := count_ones (N.land (tabs_chars t) (one - 1)) in
    Some (Some (mkTabPosition tab_offset char_offset),
          mkTabs (N.lxor (tabs_tabs t) one) (tabs_chars t)).

End ChunkOps.
Import ChunkOps.
#[local] Abbreviation from := TextSummaryOps.from.
#[local] Arguments TextSummaryOps.from : simpl never.
#[local] Arguments TextSummaryOps.add_assign : simpl never.

(** ** What the bitmaps mean *)

(** The marks of one character: [first] on its first byte, [second] on the next one. *)
Definition marks (first second : bool) (c : char) : list bool :=
  take (N.to_nat (Str.len_utf8 c)) [first; second; false; false].

Definition char_marks (c : char) : list bool := marks true false c.
Definition utf16_marks (c : char) : list bool := marks true (negb (c <? 0x10000)) c.
Definition newline_marks (c : char) : list bool := marks (c =? newline_char) false c.
Definition tab_marks (c : char) : list bool := marks (c =? tab_char) false c.

Fixpoint marked (m : char → list bool) (s : str) : list bool :=
  match s with [] => [] | c :: s => m c ++ marked m s end.

(** The bitmaps of a text of at most 128 bytes. *)
Definition chunk_of (s : str) : ChunkSlice :=
  mkSlice (of_bits (marked char_marks s)) (of_bits (marked utf16_marks s))
    (of_bits (marked newline_marks s)) (of_bits (marked tab_marks s)) s.
Definition chunk_okb (c : ChunkSlice) : bool :=
  bool_decide (c = chunk_of (text c)) && (len c <=? MAX_BASE).

Class Marking (m : char → list bool) : Prop := { marking_len c : Prelude.len (m c) = Str.len_utf8 c }.

#[export] Hint Mode Marking ! : typeclass_instances.

Lemma marks_len f g c : Prelude.len (marks f g c) = Str.len_utf8 c.
Proof.
  unfold Prelude.len, marks. pose proof (len_utf8_bounds c). rewrite length_take. simpl. lia.
Qed.

#[export] Instance char_marking : Marking char_marks := {| marking_len := marks_len _ _ |}.
#[export] Instance utf16_marking : Marking utf16_marks := {| marking_len c := marks_len _ _ c |}.
#[export] Instance newline_marking : Marking newline_marks := {| marking_len c := marks_len _ _ c |}.
#[export] Instance tab_marking : Marking tab_marks := {| marking_len c := marks_len _ _ c |}.

Section marks.
Implicit Types (s a b : str) (c : char).

Lemma marked_app m a b : marked m (a ++ b) = marked m a ++ marked m b.
Proof. induction a as [|c a IH]; simpl; [done|]. by rewrite IH, app_assoc. Qed.

Lemma marked_len m `{!Marking m} s : Prelude.len (marked m s) = Str.length_utf8 s.
Proof. induction s as [|c s IH]; simpl; [done|]. by rewrite len_app, marking_len, IH. Qed.

Lemma marked_length m `{!Marking m} s : length (marked m s) = N.to_nat (Str.length_utf8 s).
Proof. rewrite <- (marked_len m). by rewrite to_nat_len. Qed.

(** Cutting the text at a boundary cuts its bitmaps. *)
Lemma marked_take m `{!Marking m} a b :
  take (N.to_nat (Str.length_utf8 a)) (marked m (a ++ b)) = marked m a.
Proof. rewrite marked_app. apply take_app_length'. symmetry. by apply marked_length. Qed.
Lemma marked_drop m `{!Marking m} a b :
  drop (N.to_nat (Str.length_utf8 a)) (marked m (a ++ b)) = marked m b.
Proof. rewrite marked_app. apply drop_app_length'. symmetry. by apply marked_length. Qed.

Lemma marks_fit m `{!Marking m} s : Str.length_utf8 s <= MAX_BASE → (length (marked m s) ≤ 128)%nat.
Proof. rewrite marked_length by done. unfold MAX_BASE. lia. Qed.

Lemma trues_marks f g c : trues (marks f g c) = N.b2n f + if Str.len_utf8 c =? 1 then 0 else N.b2n g.
Proof.
  unfold marks. pose proof (len_utf8_bounds c).
  assert (Str.len_utf8 c = 1 ∨ Str.len_utf8 c = 2 ∨ Str.len_utf8 c = 3 ∨ Str.len_utf8 c = 4)
    as [-> |[-> |[-> | ->]]] by lia; by destruct f, g.
Qed.

Lemma trues_chars s : trues (marked char_marks s) = Prelude.len s.
Proof.
  induction s as [|c s IH]; [done|]. simpl. rewrite trues_app, IH, len_cons. unfold char_marks.
  rewrite trues_marks. by case_match.
Qed.

Lemma trues_utf16 s : trues (marked utf16_marks s) = Str.length_utf16 s.
Proof.
  induction s as [|c s IH]; [done|]. simpl. rewrite trues_app, IH. f_equal. unfold utf16_marks.
  rewrite trues_marks. unfold Str.len_utf16, Str.len_utf8.
  destruct (N.ltb_spec c 0x10000); simpl; [by case_match|].
  destruct (N.ltb_spec c 0x80), (N.ltb_spec c 0x800); try lia. done.
Qed.

(** The number of line feeds. *)
Fixpoint newlines_in s : N :=
  match s with [] => 0 | c :: s => N.b2n (c =? newline_char) + newlines_in s end.

Lemma trues_newlines s : trues (marked newline_marks s) = newlines_in s.
Proof.
  induction s as [|c s IH]; [done|]. simpl. rewrite trues_app, IH. f_equal. unfold newline_marks.
  rewrite trues_marks. simpl. case_match; lia.
Qed.

Lemma newlines_in_app a b : newlines_in (a ++ b) = newlines_in a + newlines_in b.
Proof. induction a as [|c a IH]; simpl; [done|]. rewrite IH. lia. Qed.

Lemma newlines_in_from s : newlines_in s = row (Text.lines (TextSummaryOps.from s)).
Proof.
  induction s as [|c s IH]; [done|]. change (c :: s) with ([c] ++ s).
  rewrite newlines_in_app, from_app, IH.
  destruct (add_fields (TextSummaryOps.from [c]) (TextSummaryOps.from s)) as (_ & _ & _ & -> & _).
  rewrite add_row. f_equal. cbn [newlines_in]. rewrite N.add_0_r.
  destruct (N.eqb_spec c newline_char) as [->|Hc]; [done|]. by rewrite from_char.
Qed.

(** A text without line feeds is one line. *)
Lemma one_line s : newlines_in s = 0 →
  TextSummaryOps.from s = mkTextSummary (Str.length_utf8 s) (Prelude.len s) (Str.length_utf16 s)
    (mkPoint 0 (Str.length_utf8 s)) (Prelude.len s) (Prelude.len s) (Str.length_utf16 s)
    0 (Prelude.len s).
Proof.
  intros Hs. pose proof (newlines_in_from s) as Hrow. rewrite Hs in Hrow.
  destruct (from_describes s) as [(init & l & Hls & Hr & Hc & Hl & H16) _ (H1 & H2 & H3) _ _].
  pose proof (good_from s) as [_ _ Ht Hg]. destruct (Hg (eq_sym Hrow)) as [Hf Hl'].
  rewrite <- Hrow in Hr. symmetry in Hr.
  assert (init = []) as -> by (destruct init; [done|rewrite len_cons in Hr; lia]).
  assert (l = s) as ->.
  { clear -Hls Hs. revert l Hls. induction s as [|c s IH]; intros l Hls; simpl in *; [by injection Hls|].
    destruct (N.eqb_spec c newline_char); simpl in Hs; [lia|].
    destruct (split_lines_ne s) as (l' & ls & Hs'). rewrite Hs' in *. injection Hls as <- ->.
    f_equal. by apply IH. }
  rewrite Hl in Hl'. destruct (TextSummaryOps.from s) as [? ? ? [] ? ? ? ? ?]. simpl in *.
  specialize (Ht Hf). simplify_eq. f_equal; congruence.
Qed.
End marks.

(** A text of a chunk leaves the bitmaps within their width. *)
Ltac fits :=
  apply marks_fit; [typeclasses eauto|];
  rewrite ?length_utf8_app in *; unfold MAX_BASE in *; lia.

(** ** Masks *)

Section masks.
Implicit Types l : list bool.

Lemma low_mask_eq offset : low_mask offset = 2 ^ N.min offset 128 - 1.
Proof.
  unfold low_mask, unbounded_shl, wrapping_sub. destruct (N.ltb_spec offset 128).
  - rewrite N.shiftl_1_l, N.min_l by lia.
    assert (2 ^ offset < 2 ^ 128) by (apply N.pow_lt_mono_r; lia).
    pose proof (pow_pos offset). rewrite (N.mod_small (2 ^ offset)) by done.
    symmetry. apply (N.mod_unique _ _ 1); [lia|]. lia.
  - by rewrite N.min_r by lia.
Qed.

Lemma low_mask_take l offset : (length l ≤ 128)%nat →
  N.land (of_bits l) (low_mask offset) = of_bits (take (N.to_nat offset) l).
Proof.
  intros Hl. rewrite low_mask_eq, of_bits_mask. destruct (N.le_gt_cases offset 128).
  - by rewrite N.min_l.
  - by rewrite N.min_r, !take_ge by lia.
Qed.

Lemma shl_one offset : offset < 128 → shl 128 1 offset = Some (2 ^ offset).
Proof.
  intros H. unfold shl. destruct (N.ltb_spec offset 128); [|lia].
  rewrite N.shiftl_1_l, N.mod_small; [done|]. apply N.pow_lt_mono_r; lia.
Qed.

Lemma shl_bits l k : (length l + length k ≤ 128)%nat → (length l < 128)%nat →
  shl 128 (of_bits k) (Prelude.len l) = Some (N.shiftl (of_bits k) (Prelude.len l)).
Proof.
  intros Hlen Hl. unfold shl. unfold Prelude.len at 1. destruct (N.ltb_spec (N.of_nat (length l)) 128); [|lia].
  by rewrite shiftl_fits by (unfold Prelude.len; lia).
Qed.

Lemma shr_bits l n : n < 128 → shr 128 (of_bits l) n = Some (of_bits (drop (N.to_nat n) l)).
Proof. intros Hn. unfold shr. destruct (N.ltb_spec n 128); [|lia]. by rewrite of_bits_shiftr. Qed.

(** Counting what a high mask keeps. *)
Lemma high_mask_eq k : k <= 128 → saturating_shr_mask (128 - k) = 2 ^ k * (2 ^ (128 - k) - 1).
Proof.
  intros Hk. unfold saturating_shr_mask, lnot, unbounded_shr.
  assert (2 ^ 128 = 2 ^ k * 2 ^ (128 - k)) as E by (rewrite <- N.pow_add_r; f_equal; lia).
  pose proof (pow_pos k). pose proof (pow_pos (128 - k)).
  assert ((if 128 - k <? 128 then N.shiftr (2 ^ 128 - 1) (128 - k) else 0) = 2 ^ k - 1) as ->.
  { destruct (N.ltb_spec (128 - k) 128).
    - rewrite N.shiftr_div_pow2. symmetry. apply (N.div_unique _ _ _ (2 ^ (128 - k) - 1)); [lia|].
      rewrite E. nia.
    - by replace k with 0 by lia. }
  rewrite E. nia.
Qed.

Lemma high_mask_count l k : (length l ≤ 128)%nat → k <= 128 →
  count_ones (N.land (of_bits l) (saturating_shr_mask (128 - k))) = trues (drop (N.to_nat k) l).
Proof.
  intros Hl Hk. rewrite high_mask_eq, land_high, of_bits_shiftr, of_bits_mask by done.
  rewrite (take_ge (drop _ _)) by (rewrite length_drop; lia).
  assert (2 ^ k * of_bits (drop (N.to_nat k) l) =
    of_bits (replicate (N.to_nat k) false ++ drop (N.to_nat k) l)) as ->.
  { rewrite of_bits_app, of_bits_false. unfold Prelude.len. rewrite length_replicate, N2Nat.id. lia. }
  by rewrite count_of_bits, trues_app, trues_false.
Qed.
End masks.

(** ** Lines of a text *)

(** [p] ends where a row starts; [r] starts where a row ends. *)
Definition row_start (p : str) : Prop := p = [] ∨ ∃ q, p = q ++ [newline_char].
Definition row_end (r : str) : Prop := r = [] ∨ ∃ q, r = newline_char :: q.

Section lines.
Implicit Types (s a b p l r : list N) (n : N).

Lemma last_line_exists s : ∃ p l, s = p ++ l ∧ newlines_in l = 0 ∧ row_start p.
Proof.
  induction s as [|c s (p & l & -> & Hl & Hp)] using rev_ind.
  - exists [], []. split_and!; [done|done|by left].
  - destruct (N.eqb_spec c newline_char) as [->|Hc].
    + exists ((p ++ l) ++ [newline_char]), []. rewrite app_nil_r. split_and!; [done|done|].
      right. by eexists.
    + exists p, (l ++ [c]). rewrite app_assoc. split_and!; [done| |done].
      rewrite newlines_in_app, Hl. simpl. by destruct (N.eqb_spec c newline_char).
Qed.

Lemma first_line_exists s : ∃ l r, s = l ++ r ∧ newlines_in l = 0 ∧ row_end r.
Proof.
  induction s as [|c s (l & r & -> & Hl & Hr)].
  - exists [], []. split_and!; [done|done|by left].
  - destruct (N.eqb_spec c newline_char) as [->|Hc].
    + exists [], (newline_char :: l ++ r). split_and!; [done|done|]. right. by eexists.
    + exists (c :: l), r. split_and!; [done| |done]. simpl.
      by destruct (N.eqb_spec c newline_char).
Qed.

(** Row [n], where the text has it. *)
Lemma row_exists s n : n <= newlines_in s →
  ∃ p l r, s = p ++ l ++ r ∧ newlines_in p = n ∧ newlines_in l = 0 ∧ row_start p ∧ row_end r.
Proof.
  revert n. induction s as [|c s IH] using rev_ind; intros n Hn.
  - exists [], [], []. simpl in *. split_and!; [done|lia|done|by left|by left].
  - rewrite newlines_in_app in Hn. simpl in Hn. destruct (N.leb_spec n (newlines_in s)) as [H|H].
    + destruct (IH n H) as (p & l & r & -> & Hp & Hl & Hps & Hr).
      destruct Hr as [->|[q ->]].
      * destruct (N.eqb_spec c newline_char) as [->|Hc].
        -- exists p, l, [newline_char]. rewrite app_nil_r, <- app_assoc. split_and!; try done.
           right. by eexists.
        -- exists p, (l ++ [c]), []. rewrite !app_nil_r, <- app_assoc. split_and!; try done.
           ++ rewrite newlines_in_app, Hl. simpl. by destruct (N.eqb_spec c newline_char).
           ++ by left.
      * exists p, l, (newline_char :: q ++ [c]). rewrite <- !app_assoc. split_and!; try done.
        right. by eexists.
    + destruct (N.eqb_spec c newline_char) as [->|Hc]; simpl in Hn; [|lia].
      exists (s ++ [newline_char]), [], []. rewrite app_nil_r. split_and!; try done.
      * rewrite newlines_in_app. simpl. lia.
      * right. by eexists.
      * by left.
Qed.

Lemma marked_newline_zero l : newlines_in l = 0 → trues (marked newline_marks l) = 0.
Proof. by rewrite trues_newlines. Qed.

Lemma row_start_summary p : row_start p →
  Text.lines (from p) = mkPoint (newlines_in p) 0 ∧ Text.last_line_chars (from p) = 0 ∧
  Text.last_line_len_utf16 (from p) = 0 ∧
  last_true (marked newline_marks p) = Str.length_utf8 p.
Proof.
  intros [->|[q ->]]; [done|]. rewrite from_add_newline.
  destruct (add_fields (from q) TextSummaryOps.newline) as (_ & _ & _ & -> & _ & -> & ->).
  split_and!; [|done|done|].
  - apply point_ext; [|done]. rewrite add_row, newlines_in_app, newlines_in_from. done.
  - rewrite marked_app, last_true_app_l by done. by rewrite (marked_len newline_marks), length_utf8_app.
Qed.

Lemma row_end_summary r : row_end r →
  Text.first_line_chars (from r) = 0 ∧
  first_true (marked newline_marks r) = if Str.length_utf8 r =? 0 then None else Some 0.
Proof.
  intros [->|[q ->]]; [done|]. split; [|by cbn; destruct (Str.length_utf8 q)].
  change (newline_char :: q) with ([newline_char] ++ q). rewrite from_app.
  destruct (add_fields (from [newline_char]) (from q)) as (_ & _ & _ & _ & -> & _). done.
Qed.

Lemma last_line_summary p l : row_start p → newlines_in l = 0 →
  Text.lines (from (p ++ l)) = mkPoint (newlines_in p) (Str.length_utf8 l) ∧
  Text.last_line_chars (from (p ++ l)) = Prelude.len l ∧
  Text.last_line_len_utf16 (from (p ++ l)) = Str.length_utf16 l ∧
  last_true (marked newline_marks (p ++ l)) = Str.length_utf8 p.
Proof.
  intros Hp Hl. destruct (row_start_summary p Hp) as (P1 & P2 & P3 & P4).
  rewrite from_app, marked_app, last_true_app_r, P4 by by apply marked_newline_zero.
  destruct (add_fields (from p) (from l)) as (_ & _ & _ & -> & _ & -> & ->).
  rewrite (one_line l Hl), P1, P2, P3. done.
Qed.

Lemma first_line_summary l r : newlines_in l = 0 → row_end r →
  Text.first_line_chars (from (l ++ r)) = Prelude.len l ∧
  first_true (marked newline_marks (l ++ r)) =
    if Str.length_utf8 r =? 0 then None else Some (Str.length_utf8 l).
Proof.
  intros Hl Hr. destruct (row_end_summary r Hr) as [R1 R2].
  rewrite from_app, marked_app, first_true_app_r, R2 by by apply marked_newline_zero.
  destruct (add_fields (from l) (from r)) as (_ & _ & _ & _ & -> & _).
  rewrite (one_line l Hl), R1, (marked_len newline_marks). simpl.
  split; [lia|]. destruct (Str.length_utf8 r =? 0); simpl; [done|]. by rewrite N.add_0_r.
Qed.
End lines.

(** ** The measures of a chunk *)

Section measures.
Implicit Types (s p l r : list N).

Lemma len_utf16_ok s : len_utf16 (chunk_of s) = Str.length_utf16 s.
Proof. unfold len_utf16. cbn [bm_chars_utf16 chunk_of]. by rewrite count_of_bits, trues_utf16. Qed.

Lemma lines_ok s : Str.length_utf8 s <= MAX_BASE → lines (chunk_of s) = Some (Text.lines (from s)).
Proof.
  intros Hlen. destruct (last_line_exists s) as (p & l & -> & Hl & Hp).
  destruct (last_line_summary p l Hp Hl) as (-> & _ & _ & Hlast).
  rewrite length_utf8_app in Hlen. unfold MAX_BASE in Hlen.
  unfold lines, len. cbn [bm_newlines chunk_of text].
  rewrite count_of_bits, leading_of_bits, trues_newlines, Hlast, newlines_in_app, Hl, length_utf8_app.
  rewrite usize_sub_le by lia. cbn [mbind option_bind]. rewrite usize_sub_le by lia. cbn.
  f_equal. apply point_ext; cbn; lia.
Qed.

Lemma first_line_chars_ok s : Str.length_utf8 s <= MAX_BASE →
  first_line_chars (chunk_of s) = Text.first_line_chars (from s).
Proof.
  intros Hlen. destruct (first_line_exists s) as (l & r & -> & Hl & Hr).
  destruct (first_line_summary l r Hl Hr) as [-> Hfirst].
  unfold first_line_chars. change saturating_shl_mask with low_mask. cbn [bm_newlines bm_chars chunk_of].
  rewrite trailing_of_bits, Hfirst, low_mask_take, count_of_bits by fits.
  destruct (N.eqb_spec (Str.length_utf8 r) 0) as [Hr0|Hr0]; cbn [from_option id].
  - apply length_utf8_zero in Hr0 as ->. rewrite app_nil_r, take_ge, trues_chars; [done|].
    rewrite app_nil_r in Hlen. fits.
  - by rewrite (marked_take char_marks), trues_chars.
Qed.

Lemma last_line_masked m `{!Marking m} p l : row_start p → newlines_in l = 0 →
  Str.length_utf8 (p ++ l) <= MAX_BASE →
  count_ones (N.land (of_bits (marked m (p ++ l)))
    (saturating_shr_mask (leading_zeros 128 (of_bits (marked newline_marks (p ++ l)))))) =
  trues (marked m l).
Proof.
  intros Hp Hl Hlen. destruct (last_line_summary p l Hp Hl) as (_ & _ & _ & Hlast).
  rewrite leading_of_bits, Hlast. rewrite length_utf8_app in Hlen. unfold MAX_BASE in Hlen.
  rewrite high_mask_count, (marked_drop m) by first [lia|fits].
  done.
Qed.

Lemma last_line_chars_ok s : Str.length_utf8 s <= MAX_BASE →
  last_line_chars (chunk_of s) = Text.last_line_chars (from s).
Proof.
  intros Hlen. destruct (last_line_exists s) as (p & l & -> & Hl & Hp).
  destruct (last_line_summary p l Hp Hl) as (_ & -> & _). unfold last_line_chars.
  cbn [bm_newlines bm_chars chunk_of]. by rewrite (last_line_masked char_marks), trues_chars.
Qed.

Lemma last_line_len_utf16_ok s : Str.length_utf8 s <= MAX_BASE →
  last_line_len_utf16 (chunk_of s) = Text.last_line_len_utf16 (from s).
Proof.
  intros Hlen. destruct (last_line_exists s) as (p & l & -> & Hl & Hp).
  destruct (last_line_summary p l Hp Hl) as (_ & _ & -> & _). unfold last_line_len_utf16.
  cbn [bm_newlines bm_chars_utf16 chunk_of]. by rewrite (last_line_masked utf16_marks), trues_utf16.
Qed.
End measures.

(** ** The scan for the longest row *)

Section longest_row.
Implicit Types (s p l r : list N).

Definition scan_of (s : str) (row lr lc total : N) : RowScan :=
  mkRowScan (of_bits (marked char_marks s)) (of_bits (marked newline_marks s)) total row lr lc.

Lemma len_le_utf8 s : Prelude.len s <= Str.length_utf8 s.
Proof. pose proof (length_le_utf16 s). pose proof (length_utf16_le s). lia. Qed.

(** A turn of the loop takes a line and its line feed off the text. *)
Lemma row_step_ok l s row lr lc total :
  newlines_in l = 0 → Str.length_utf8 (l ++ newline_char :: s) <= MAX_BASE →
  row_step (scan_of (l ++ newline_char :: s) row lr lc total) =
  let '(lr', lc') := longer (lr, lc) (row, Prelude.len l) in
  Some (scan_of s (row + 1) lr' lc' (total + Prelude.len l + 1)).
Proof.
  intros Hl Hlen.
  destruct (first_line_summary l (newline_char :: s) Hl) as [_ Hfirst]; [right; by eexists|].
  replace (Str.length_utf8 (newline_char :: s) =? 0) with false in Hfirst
    by (symmetry; apply N.eqb_neq; cbn; lia).
  pose proof (len_le_utf8 l) as Hll.
  assert (Str.length_utf8 l < 128) as Hl128
    by (rewrite length_utf8_app in Hlen; cbn in Hlen; unfold MAX_BASE in Hlen; lia).
  unfold row_step, scan_of. cbn [scan_newlines scan_chars scan_total scan_row scan_longest_row
    scan_longest_row_chars].
  rewrite trailing_of_bits, Hfirst. cbn [from_option id].
  rewrite shl_one, !shr_bits by done. cbn [mbind option_bind].
  rewrite !of_bits_shiftr, of_bits_mask, (marked_take char_marks), count_of_bits, trues_chars.
  rewrite (marked_drop char_marks), (marked_drop newline_marks).
  unfold as_u8. rewrite N.mod_small by lia. unfold longer. cbn [fst snd].
  by destruct (lc <? Prelude.len l).
Qed.

Lemma row_loop_nil fuel s row lr lc total : newlines_in s = 0 →
  row_loop fuel (scan_of s row lr lc total) = Some (scan_of s row lr lc total).
Proof.
  intros Hs. assert (scan_newlines (scan_of s row lr lc total) = 0) as Hz.
  { apply of_bits_zero, first_true_none. by rewrite trues_newlines. }
  destruct fuel; cbn [row_loop]; by rewrite Hz.
Qed.

Lemma longer_first x (r : N) s :
  longer (longer x (r, Text.first_line_chars (from s))) (shift_row r (longest (from s))) =
  longer x (shift_row r (longest (from s))).
Proof.
  pose proof (good_from s) as [Hf _ Ht _]. unfold longest, shift_row, longer. cbn [fst snd].
  destruct (N.ltb_spec (snd x) (Text.first_line_chars (from s))); cbn [fst snd]; [|done].
  destruct (N.ltb_spec (Text.first_line_chars (from s)) (longest_row_chars (from s)));
    destruct (N.ltb_spec (snd x) (longest_row_chars (from s))); try lia; [done|].
  rewrite Ht by lia. f_equal; lia.
Qed.

(** A line ahead of a text is a candidate before the rows of the text. *)
Lemma longest_cons l s : newlines_in l = 0 →
  longest (from (l ++ newline_char :: s)) =
  longer (0, Prelude.len l) (shift_row 1 (longest (from s))).
Proof.
  intros Hl. change (l ++ newline_char :: s) with (l ++ [newline_char] ++ s).
  rewrite app_assoc, from_app, from_add_newline, longest_add.
  destruct (add_fields (from l) TextSummaryOps.newline) as (_ & _ & _ & Hlines & _ & Hlast & _).
  assert (longest (TextSummaryOps.add_assign (from l) TextSummaryOps.newline) = (0, Prelude.len l)) as ->.
  { rewrite longest_add, (one_line l Hl). unfold longest, shift_row. cbn -[longer].
    rewrite N.add_0_r, (longer_absorb (0, Prelude.len l)) by (cbn [snd]; lia).
    apply longer_absorb. cbn [snd]. lia. }
  rewrite Hlines, Hlast, (one_line l Hl). cbn -[longer shift_row longest].
  rewrite N.add_0_l. apply longer_first.
Qed.

Lemma row_loop_ok fuel s row lr lc total :
  newlines_in s <= N.of_nat fuel → Str.length_utf8 s <= MAX_BASE →
  returns (row_loop fuel (scan_of s row lr lc total)) (λ sc,
    let row_chars := as_u8 (count_ones (scan_chars sc)) in
    scan_total sc + row_chars = total + Prelude.len s ∧
    longer (scan_longest_row sc, scan_longest_row_chars sc) (scan_row sc, row_chars) =
      longer (lr, lc) (shift_row row (longest (from s)))).
Proof.
  revert s row lr lc total. induction fuel as [|fuel IH]; intros s row lr lc total Hfuel Hlen;
    (destruct (N.eq_dec (newlines_in s) 0) as [Hs|Hs]; [|try lia]).
  1, 2: rewrite row_loop_nil by done; eexists; split; [done|];
    cbn [scan_of scan_chars scan_total scan_row scan_longest_row scan_longest_row_chars];
    rewrite count_of_bits, trues_chars; unfold as_u8; pose proof (len_le_utf8 s);
    unfold MAX_BASE in Hlen; rewrite N.mod_small, (one_line s Hs) by lia;
    unfold longest; cbn [longest_row longest_row_chars]; by rewrite shift_row_0.
  destruct (first_line_exists s) as (l & r & -> & Hl & [->|[s' ->]]).
  { rewrite app_nil_r in Hs. lia. }
  rewrite newlines_in_app, Hl in Hfuel. cbn [newlines_in] in Hfuel. rewrite N.eqb_refl in Hfuel.
  assert (Str.length_utf8 s' <= MAX_BASE) as Hlen'.
  { rewrite length_utf8_app in Hlen. cbn in Hlen. lia. }
  assert (scan_newlines (scan_of (l ++ newline_char :: s') row lr lc total) ≠ 0) as Hz.
  { cbn [scan_of scan_newlines]. rewrite of_bits_zero, first_true_none, trues_newlines. done. }
  cbn [row_loop]. destruct (N.ltb_spec 0 (scan_newlines (scan_of (l ++ newline_char :: s') row lr lc total)));
    [|lia].
  rewrite row_step_ok by done. destruct (longer (lr, lc) (row, Prelude.len l)) as [lr' lc'] eqn:E.
  cbn [mbind option_bind].
  destruct (IH s' (row + 1) lr' lc' (total + Prelude.len l + 1)) as (sc & Hsc & Htot & Hlong); [|done|].
  { cbn in Hfuel. lia. }
  exists sc. split; [done|]. split.
  - rewrite Htot. change (newline_char :: s') with ([newline_char] ++ s').
    rewrite !len_app. change (Prelude.len [newline_char]) with 1. lia.
  - rewrite Hlong, <- E, longest_cons, longer_shift, shift_row_0, shift_row_add by done.
    apply longer_assoc.
Qed.

(** [longest_row] gives the longest row and the number of characters. *)
Lemma longest_row_ok s : Str.length_utf8 s <= MAX_BASE →
  longest_row (chunk_of s) =
  Some (Text.longest_row (from s), longest_row_chars (from s), Prelude.len s).
Proof.
  intros Hlen. assert (newlines_in s <= 128) as Hfuel.
  { rewrite <- trues_newlines. etrans; [apply trues_le|]. by rewrite (marked_len newline_marks). }
  destruct (row_loop_ok 128 s 0 0 0 0 Hfuel Hlen) as (sc & Hsc & Htot & Hlong).
  unfold longest_row. change (row_loop 128 _) with (row_loop 128 (scan_of s 0 0 0 0)).
  rewrite Hsc. cbn [mbind option_bind]. rewrite Htot, N.add_0_l. f_equal.
  assert (longer (0, 0) (shift_row 0 (longest (from s))) = longest (from s)) as E.
  { unfold longer, longest, shift_row. cbn [fst snd]. pose proof (good_from s) as [Hf _ Ht _].
    destruct (N.ltb_spec 0 (longest_row_chars (from s))); [done|].
    rewrite Ht by lia. f_equal. lia. }
  rewrite E in Hlong. unfold longest in Hlong. unfold longer in Hlong. cbn [snd] in Hlong.
  by case_match; apply pair_equal_spec in Hlong as [<- <-].
Qed.

(** The summary of a chunk is that of its text. *)
Lemma text_summary_ok s : Str.length_utf8 s <= MAX_BASE → text_summary (chunk_of s) = Some (from s).
Proof.
  intros Hlen. unfold text_summary. rewrite longest_row_ok, lines_ok by done.
  cbn [mbind option_bind].
  rewrite len_utf16_ok, first_line_chars_ok, last_line_chars_ok, last_line_len_utf16_ok by done.
  unfold len. cbn [text chunk_of].
  destruct (from_describes s) as [_ _ (<- & <- & <-) _ _]. by destruct (from s).
Qed.
End longest_row.

(** ** Building chunks *)

Section building.
Implicit Types (s a b : list N) (c : N) (l : list bool).

Lemma lor_cons (p q : bool) x y :
  N.lor (N.b2n p + 2 * x) (N.b2n q + 2 * y) = N.b2n (p || q) + 2 * N.lor x y.
Proof.
  apply N.bits_inj. intros i. rewrite N.lor_spec.
  destruct (N.eq_dec i 0) as [->|Hi].
  - rewrite !(N.add_comm (N.b2n _)), !N.testbit_0_r. done.
  - replace i with (N.succ (N.pred i)) by lia.
    rewrite !(N.add_comm (N.b2n _)), !N.testbit_succ_r. by rewrite N.lor_spec.
Qed.

Lemma flag_byte_ok test chunk : flag_byte test chunk = of_bits (test <$> chunk).
Proof.
  unfold flag_byte. induction chunk as [|b chunk IH] using rev_ind; [done|].
  rewrite length_app, seq_app, !fmap_app.
  rewrite (zip_with_app pair (N.of_nat <$> seq 0 (length chunk)) _ chunk [b])
    by (by rewrite length_fmap, length_seq).
  rewrite foldl_app, IH. cbn [foldl zip_with seq fmap list_fmap].
  rewrite <- of_bits_lor. unfold Prelude.len. rewrite length_fmap, Nat.add_0_l.
  simpl. by destruct (test b).
Qed.

Lemma from_le_zeros bytes n : from_le_bytes (bytes ++ replicate n 0) = from_le_bytes bytes.
Proof.
  induction bytes as [|b bytes IH]; cbn [app from_le_bytes]; [|by rewrite IH].
  induction n as [|n IH]; [done|]. cbn [replicate from_le_bytes]. by rewrite IH.
Qed.

Lemma flag_bytes_ok fuel test bytes : (length bytes ≤ 8 * fuel)%nat →
  from_le_bytes (flag_bytes fuel test bytes) = of_bits (test <$> bytes).
Proof.
  revert bytes. induction fuel as [|fuel IH]; intros bytes Hlen.
  { destruct bytes; [done|]. simpl in Hlen. lia. }
  destruct bytes as [|x rest] eqn:Hb; [done|]. rewrite <- Hb in *. clear x rest Hb.
  destruct (decide (length bytes = 0)%nat) as [H0|H0]; [by apply nil_length_inv in H0 as ->|].
  assert (flag_bytes (Datatypes.S fuel) test bytes =
    flag_byte test (take (Nat.min (length bytes) 8) bytes) ::
      flag_bytes fuel test (drop (Nat.min (length bytes) 8) bytes)) as -> by by destruct bytes.
  cbn [from_le_bytes]. rewrite flag_byte_ok, IH by (rewrite length_drop; lia).
  destruct (decide (length bytes <= 8)%nat) as [Hs|Hs].
  - rewrite Nat.min_l, take_ge, drop_ge by lia. cbn. lia.
  - rewrite Nat.min_r by lia. rewrite <- (take_drop 8 bytes) at 3.
    rewrite fmap_app, of_bits_app. do 2 f_equal.
    unfold Prelude.len. rewrite length_fmap, length_take, Nat.min_l by lia. done.
Qed.

Lemma bitmap_of_ok test bytes : (length bytes ≤ 128)%nat →
  bitmap_of test bytes = of_bits (test <$> bytes).
Proof. intros Hlen. unfold bitmap_of. rewrite from_le_zeros. apply flag_bytes_ok. lia. Qed.

(** *** The marks of the bytes of a character *)

Lemma continuation_bounds c k : 128 <= Str.continuation c k < 192.
Proof. unfold Str.continuation. pose proof (N.mod_lt (N.shiftr c k) 64 ltac:(done)) as H.
  generalize dependent (N.shiftr c k mod 64). intros r Hr. lia. Qed.

(** The first byte of an encoding, and the continuation bytes. *)
Lemma encode_bytes c : is_scalar c = true → ∃ x rest,
  Str.encode_utf8 c = x :: rest ∧ length (x :: rest) = N.to_nat (Str.len_utf8 c) ∧
  Forall (λ y, 128 <= y < 192) rest ∧
  (c < 0x80 → x = c) ∧ (0x80 <= c → 192 <= x) ∧ (240 <= x ↔ 0x10000 <= c).
Proof.
  intros Hc. unfold is_scalar in Hc.
  assert (c < 0x110000) as Hmax.
  { apply orb_true_iff in Hc as [?%N.ltb_lt|[_ ?%N.ltb_lt]%andb_true_iff]; lia. }
  assert (∀ n k, c < n * 2 ^ k → N.shiftr c k < n) as Hshift.
  { intros n k Hn. rewrite N.shiftr_div_pow2. apply N.Div0.div_lt_upper_bound. by rewrite N.mul_comm. }
  unfold Str.encode_utf8, Str.len_utf8.
  destruct (N.ltb_spec c 0x80); [|destruct (N.ltb_spec c 0x800); [|destruct (N.ltb_spec c 0x10000)]];
    eexists _, _; (split; [reflexivity|]); (split; [reflexivity|]);
    (split; [repeat constructor; apply continuation_bounds|]).
  - lia.
  - pose proof (Hshift 32 6 ltac:(cbn; lia)). lia.
  - pose proof (Hshift 16 12 ltac:(cbn; lia)). lia.
  - pose proof (Hshift 5 18 ltac:(cbn; lia)). lia.
Qed.

Lemma marks_first f c : marks f false c = f :: replicate (N.to_nat (Str.len_utf8 c) - 1) false.
Proof.
  unfold marks. pose proof (len_utf8_bounds c).
  assert (Str.len_utf8 c = 1 ∨ Str.len_utf8 c = 2 ∨ Str.len_utf8 c = 3 ∨ Str.len_utf8 c = 4)
    as [-> |[-> |[-> | ->]]] by lia; done.
Qed.

(** A test that no continuation byte passes marks the first byte at most. *)
Lemma test_marks (test : N → bool) (f : char → bool) c : is_scalar c = true →
  (∀ x, 128 <= x < 192 → test x = false) →
  (∀ x, (c < 0x80 → x = c) → (0x80 <= c → 192 <= x) → (240 <= x ↔ 0x10000 <= c) → test x = f c) →
  test <$> Str.encode_utf8 c = marks (f c) false c.
Proof.
  intros Hc Hcont Hfirst. destruct (encode_bytes c Hc) as (x & rest & -> & Hlen & Hrest & H1 & H2 & H3).
  rewrite marks_first. cbn [fmap list_fmap]. rewrite Hfirst by done. f_equal.
  simpl in Hlen. replace (N.to_nat (Str.len_utf8 c) - 1)%nat with (length rest) by lia.
  clear Hlen. induction Hrest as [|y rest Hy Hrest IH]; [done|].
  cbn [fmap list_fmap length replicate]. by rewrite Hcont, <- IH.
Qed.

Lemma test_marked (test : N → bool) (f : char → bool) s :
  forallb is_scalar s = true →
  (∀ x, 128 <= x < 192 → test x = false) →
  (∀ c x, (c < 0x80 → x = c) → (0x80 <= c → 192 <= x) → (240 <= x ↔ 0x10000 <= c) → test x = f c) →
  test <$> Str.as_bytes s = marked (λ c, marks (f c) false c) s.
Proof.
  intros Hs Hcont Hfirst. induction s as [|c s IH]; [done|].
  simpl in Hs. apply andb_true_iff in Hs as [Hc Hs]. cbn [Str.as_bytes marked].
  rewrite fmap_app, IH by done. f_equal.
  apply (test_marks test f c Hc Hcont). intros x. apply Hfirst.
Qed.

Lemma is_utf8_char_boundary_spec x : is_utf8_char_boundary x = (x <? 128) || (192 <=? x).
Proof.
  unfold is_utf8_char_boundary, as_i8.
  destruct (N.ltb_spec x 128), (N.leb_spec 192 x); cbn; first [apply Z.leb_le|apply Z.leb_gt]; lia.
Qed.

(** The shifted marks of the surrogate pairs, over those of the characters. *)
Lemma utf16_lor s :
  N.lor (2 * of_bits (marked (λ c, marks (negb (c <? 0x10000)) false c) s))
        (of_bits (marked char_marks s)) = of_bits (marked utf16_marks s).
Proof.
  induction s as [|c s IH]; [done|]. cbn [marked].
  set (rest := marked (λ c, marks (negb (c <? 0x10000)) false c) s) in *.
  set (rest1 := marked char_marks s) in *. set (rest2 := marked utf16_marks s) in *.
  unfold char_marks, utf16_marks, marks.
  assert (∀ p q x y, N.lor (2 * (N.b2n p + 2 * x)) (N.b2n q + 2 * y) =
    N.b2n q + 2 * N.lor (N.b2n p + 2 * x) y) as Hshift.
  { intros p q x y. apply (lor_cons false q). }
  assert (∀ x y, N.lor (N.b2n false + 2 * x) y = N.lor (2 * x) y) as Hz by done.
  unfold Str.len_utf8.
  destruct (N.ltb_spec c 0x10000), (N.ltb_spec c 0x80), (N.ltb_spec c 0x800); try lia;
    change (N.to_nat 1) with 1%nat; change (N.to_nat 2) with 2%nat; change (N.to_nat 3) with 3%nat;
    change (N.to_nat 4) with 4%nat; cbn [take app of_bits negb];
    repeat first [rewrite Hz, Hshift | rewrite Hshift | rewrite lor_cons, orb_false_r];
    rewrite ?Hz; by rewrite ?IH.
Qed.

Lemma lor_small x y : N.lor x y mod 2 ^ 128 = N.lor x y → x mod 2 ^ 128 = x.
Proof.
  intros H. apply N.bits_inj. intros i. destruct (N.ltb_spec i 128).
  - by apply N.mod_pow2_bits_low.
  - rewrite N.mod_pow2_bits_high by done.
    assert (N.testbit (N.lor x y) i = false) as Hl by (rewrite <- H; by apply N.mod_pow2_bits_high).
    rewrite N.lor_spec in Hl. by apply orb_false_iff in Hl as [-> _].
Qed.

End building.

(** Deciding a test on a byte. *)
Ltac test_byte :=
  intros; rewrite ?is_utf8_char_boundary_spec; unfold newline_char, tab_char;
  repeat match goal with
  | |- context [?x =? ?y] => destruct (N.eqb_spec x y)
  | |- context [?x <? ?y] => destruct (N.ltb_spec x y)
  | |- context [?x <=? ?y] => destruct (N.leb_spec x y)
  end; done || lia.

Section constructing.
Implicit Types (s a b : list N) (l : list bool).

Lemma new_ok s : forallb is_scalar s = true → Str.length_utf8 s <= MAX_BASE →
  new s = Some (chunk_of s).
Proof.
  intros Hs Hlen. unfold new. destruct (N.leb_spec (Str.length_utf8 s) MAX_BASE); [|lia].
  assert (length (Str.as_bytes s) ≤ 128)%nat as Hbytes.
  { pose proof (as_bytes_length s). unfold Prelude.len, MAX_BASE in *. lia. }
  rewrite !bitmap_of_ok by done.
  rewrite (test_marked is_utf8_char_boundary (λ _, true)) by (done || test_byte).
  rewrite (test_marked (λ x, x =? 10) (λ c, c =? newline_char)) by (done || test_byte).
  rewrite (test_marked (λ x, x =? 9) (λ c, c =? tab_char)) by (done || test_byte).
  rewrite (test_marked (λ x, 240 <=? x) (λ c, negb (c <? 0x10000))) by (done || test_byte).
  unfold shl. cbn [N.ltb N.compare Pos.compare Pos.compare_cont mbind option_bind].
  assert (N.shiftl (of_bits (marked (λ c, marks (negb (c <? 0x10000)) false c) s)) 1 mod 2 ^ 128 =
    2 * of_bits (marked (λ c, marks (negb (c <? 0x10000)) false c) s)) as ->.
  { rewrite N.shiftl_mul_pow2, N.mul_comm. change (2 ^ 1) with 2.
    eapply lor_small. rewrite utf16_lor, of_bits_mod, take_ge; [done|]. fits. }
  unfold chunk_of. by rewrite <- utf16_lor.
Qed.

(** *** Joining *)

Lemma chunk_of_app a b :
  chunk_of (a ++ b) =
  mkSlice (of_bits (marked char_marks a ++ marked char_marks b))
    (of_bits (marked utf16_marks a ++ marked utf16_marks b))
    (of_bits (marked newline_marks a ++ marked newline_marks b))
    (of_bits (marked tab_marks a ++ marked tab_marks b)) (a ++ b).
Proof. unfold chunk_of. by rewrite !marked_app. Qed.

Lemma shl_marked m `{!Marking m} a b : Str.length_utf8 (a ++ b) <= MAX_BASE → b ≠ [] →
  shl 128 (of_bits (marked m b)) (Str.length_utf8 a) =
  Some (N.shiftl (of_bits (marked m b)) (Prelude.len (marked m a))).
Proof.
  intros Hlen Hb. rewrite <- (marked_len m a). rewrite length_utf8_app in Hlen.
  assert (Str.length_utf8 b ≠ 0) by by rewrite length_utf8_zero. unfold MAX_BASE in Hlen.
  apply shl_bits; rewrite !(marked_length m) by done; lia.
Qed.

Lemma push_text_ok a b : Str.length_utf8 (a ++ b) <= MAX_BASE → push_text a b = Some (a ++ b).
Proof.
  intros H. unfold push_text. rewrite <- length_utf8_app. destruct (N.leb_spec (Str.length_utf8 (a ++ b)) MAX_BASE); [done|lia].
Qed.

Lemma chunk_append_ok a b : Str.length_utf8 (a ++ b) <= MAX_BASE →
  append (chunk_of a) (chunk_of b) = Some (chunk_of (a ++ b)).
Proof.
  intros Hlen. unfold append, is_empty. cbn [text chunk_of].
  destruct (N.eqb_spec (Str.length_utf8 b) 0) as [H0|H0].
  { apply length_utf8_zero in H0 as ->. by rewrite app_nil_r. }
  assert (b ≠ []) as Hb by (by rewrite <- length_utf8_zero).
  cbn [chunk_of bm_chars bm_chars_utf16 bm_newlines bm_tabs].
  rewrite !shl_marked by (done || typeclasses eauto). cbn [mbind option_bind]. rewrite push_text_ok by done.
  cbn [mbind option_bind]. by rewrite chunk_of_app, !of_bits_lor.
Qed.

Lemma prepend_ok a b : forallb is_scalar a = true → Str.length_utf8 (a ++ b) <= MAX_BASE →
  prepend (chunk_of b) (chunk_of a) = Some (chunk_of (a ++ b)).
Proof.
  intros Ha Hlen. unfold prepend, is_empty. cbn [text chunk_of].
  destruct (N.eqb_spec (Str.length_utf8 a) 0) as [H0|H0].
  { by apply length_utf8_zero in H0 as ->. }
  destruct (N.eqb_spec (Str.length_utf8 b) 0) as [H1|H1].
  { apply length_utf8_zero in H1 as ->. rewrite app_nil_r in *. by apply new_ok. }
  assert (b ≠ []) as Hb by (by rewrite <- length_utf8_zero).
  cbn [chunk_of bm_chars bm_chars_utf16 bm_newlines bm_tabs].
  rewrite !shl_marked by (done || typeclasses eauto). cbn [mbind option_bind].
  rewrite (push_text_ok [] a) by (rewrite length_utf8_app in Hlen; cbn; lia).
  cbn [mbind option_bind app]. rewrite push_text_ok by done.
  cbn [mbind option_bind]. by rewrite chunk_of_app, !of_bits_lor.
Qed.

(** Text that does not fit makes both panic. *)
Lemma append_overflow a b : b ≠ [] → MAX_BASE < Str.length_utf8 (a ++ b) →
  append (chunk_of a) (chunk_of b) = None.
Proof.
  intros Hb Hlen. unfold append, is_empty. cbn [text chunk_of].
  destruct (N.eqb_spec (Str.length_utf8 b) 0) as [H0|H0]; [by apply length_utf8_zero in H0|].
  repeat match goal with
  | |- (mbind _ (shl ?w ?v ?n)) = None => destruct (shl w v n); [cbn [mbind option_bind]|done]
  end.
  unfold push_text. rewrite <- length_utf8_app.
  by destruct (N.leb_spec (Str.length_utf8 (a ++ b)) MAX_BASE); [lia|].
Qed.
End constructing.

(** ** Cutting chunks *)

Section cutting.
Implicit Types (s a b d : list N) (i j mid : N).

Lemma boundary_mark s i :
  nth (N.to_nat i) (marked char_marks s) false || (i =? Str.length_utf8 s) = Str.is_char_boundary s i.
Proof.
  revert i. induction s as [|c s IH]; intros i; cbn [marked Str.is_char_boundary Str.length_utf8].
  { destruct (N.to_nat i); cbn; by rewrite orb_false_r. }
  pose proof (len_utf8_bounds c).
  destruct (N.eqb_spec i 0) as [->|Hi]; [by unfold char_marks; rewrite marks_first|].
  pose proof (marking_len (m := char_marks) c) as Hm. unfold Prelude.len in Hm. cbn [orb].
  destruct (N.leb_spec (Str.len_utf8 c) i); cbn [andb].
  - rewrite <- IH, app_nth2 by lia. f_equal; [f_equal; lia|].
    destruct (N.eqb_spec i (Str.len_utf8 c + Str.length_utf8 s)),
      (N.eqb_spec (i - Str.len_utf8 c) (Str.length_utf8 s)); lia || done.
  - rewrite app_nth1 by lia. destruct (N.eqb_spec i (Str.len_utf8 c + Str.length_utf8 s)); [lia|].
    rewrite orb_false_r. unfold char_marks. rewrite marks_first.
    destruct (N.to_nat i) as [|k] eqn:Hk; [lia|]. cbn [nth].
    rewrite nth_lookup. destruct (replicate _ false !! k) as [x|] eqn:Hx; [|done].
    by apply lookup_replicate in Hx as [-> _].
Qed.

Lemma is_char_boundary_ok s i : Str.length_utf8 s <= MAX_BASE → i < u32_modulus →
  is_char_boundary (chunk_of s) i = Str.is_char_boundary s i.
Proof.
  intros Hlen Hu. rewrite <- boundary_mark. unfold is_char_boundary. cbn [chunk_of bm_chars text].
  rewrite as_u32_small by done. f_equal. rewrite <- testbit_of_bits. unfold unbounded_shl.
  destruct (N.ltb_spec i 128) as [Hi|Hi].
  - rewrite N.shiftl_1_l, N.mod_small by (apply N.pow_lt_mono_r; lia).
    replace (2 ^ i) with (2 ^ i * 1) by lia. rewrite N.land_comm, land_high.
    rewrite (N.land_ones _ 1 : N.land _ 1 = _). change (2 ^ 1) with 2.
    rewrite <- N.bit0_mod, N.shiftr_spec', N.add_0_l. pose proof (pow_pos i).
    destruct (N.testbit (of_bits (marked char_marks s)) i); cbn [N.b2n].
    + destruct (N.eqb_spec (2 ^ i * 1) 0); [lia|done].
    + by rewrite N.mul_0_r.
  - rewrite N.land_0_l. cbn. symmetry. rewrite testbit_of_bits, nth_lookup.
    rewrite lookup_ge_None_2; [done|]. assert (length (marked char_marks s) ≤ 128)%nat by fits. lia.
Qed.

(** Halves of a chunk. *)
Lemma map_bits_take a b mask : 
  (∀ l, (length l ≤ 128)%nat → N.land (of_bits l) mask = of_bits (take (N.to_nat (Str.length_utf8 a)) l)) →
  Str.length_utf8 (a ++ b) <= MAX_BASE →
  map_bits (λ v, N.land v mask) (chunk_of (a ++ b)) a = chunk_of a.
Proof.
  intros Hmask Hlen. unfold map_bits. cbn [chunk_of bm_chars bm_chars_utf16 bm_newlines bm_tabs].
  rewrite !Hmask by fits.
  by rewrite (marked_take char_marks), (marked_take utf16_marks), (marked_take newline_marks),
    (marked_take tab_marks).
Qed.

Lemma map_bits_drop a b :
  map_bits (λ v, N.shiftr v (Str.length_utf8 a)) (chunk_of (a ++ b)) b = chunk_of b.
Proof.
  unfold map_bits. cbn [chunk_of bm_chars bm_chars_utf16 bm_newlines bm_tabs].
  rewrite !of_bits_shiftr.
  by rewrite (marked_drop char_marks), (marked_drop utf16_marks), (marked_drop newline_marks),
    (marked_drop tab_marks).
Qed.

Lemma split_at_ok a b : Str.length_utf8 (a ++ b) <= MAX_BASE →
  split_at (chunk_of (a ++ b)) (Str.length_utf8 a) = Some (chunk_of a, chunk_of b).
Proof.
  intros Hlen. unfold split_at. destruct (N.eqb_spec (Str.length_utf8 a) MAX_BASE) as [H|H].
  - rewrite length_utf8_app in Hlen.
    assert (b = []) as -> by (apply length_utf8_zero; lia). by rewrite app_nil_r.
  - rewrite length_utf8_app in Hlen. unfold MAX_BASE in *. rewrite shl_one by lia.
    cbn [mbind option_bind text chunk_of]. rewrite split_at_app. cbn [mbind option_bind].
    fold (chunk_of (a ++ b)). rewrite map_bits_drop, map_bits_take; [done| |].
    + intros l _. apply of_bits_mask.
    + rewrite length_utf8_app. unfold MAX_BASE. lia.
Qed.

(** Off a boundary [split_at] panics. *)
Lemma split_at_panics s mid : Str.length_utf8 s <= MAX_BASE → mid ≠ MAX_BASE →
  Str.is_char_boundary s mid = false → split_at (chunk_of s) mid = None.
Proof.
  intros Hlen Hmid Hb. unfold split_at. destruct (N.eqb_spec mid MAX_BASE); [done|].
  destruct (shl 128 1 mid); [|done]. cbn [mbind option_bind text chunk_of].
  rewrite is_char_boundary_split in Hb. apply bool_decide_eq_false in Hb.
  destruct (Str.split_at s mid); [|done]. by destruct Hb.
Qed.

Lemma chunk_slice_ok a b d : Str.length_utf8 (a ++ b ++ d) <= MAX_BASE →
  slice (chunk_of (a ++ b ++ d)) (Str.length_utf8 a ..: Str.length_utf8 a + Str.length_utf8 b) =
  Some (chunk_of b).
Proof.
  intros Hlen. unfold slice. cbn [start stop].
  pose proof Hlen as Hlen'. rewrite !length_utf8_app in Hlen'. unfold MAX_BASE in Hlen'.
  destruct (N.eqb_spec (Str.length_utf8 a) MAX_BASE) as [H|H]; unfold MAX_BASE in H.
  { assert (b = []) as -> by (apply length_utf8_zero; lia). done. }
  rewrite !is_char_boundary_ok by (done || unfold u32_modulus; lia). rewrite boundary_app.
  rewrite <- length_utf8_app, app_assoc, boundary_app, as_u32_small by (rewrite length_utf8_app; unfold u32_modulus; lia).
  destruct (N.ltb_spec (Str.length_utf8 a) 128); [|lia].
  cbn [text chunk_of]. rewrite <- app_assoc, length_utf8_app, slice_app. cbn [mbind option_bind].
  rewrite app_assoc, <- length_utf8_app.
  set (v := map_bits _ _ _).
  assert (v = map_bits (λ v, N.shiftr v (Str.length_utf8 a))
    (map_bits (λ v, N.land v (low_mask (Str.length_utf8 (a ++ b)))) (chunk_of ((a ++ b) ++ d)) (a ++ b)) b)
    as -> by done.
  rewrite map_bits_take, map_bits_drop; [done| |by rewrite <- app_assoc].
  intros l Hl. by apply low_mask_take.
Qed.
End cutting.

(** ** Offsets and points *)

Section offsets.
Implicit Types (s a b p l r : list N) (n : N).

Lemma marked_prefix_masked m `{!Marking m} a b : Str.length_utf8 (a ++ b) <= MAX_BASE →
  N.land (of_bits (marked m (a ++ b))) (low_mask (Str.length_utf8 a)) = of_bits (marked m a).
Proof. intros Hlen. rewrite low_mask_take by fits. by rewrite (marked_take m). Qed.

Lemma as_u32_prefix a b : Str.length_utf8 (a ++ b) <= MAX_BASE → as_u32 (Str.length_utf8 a) = Str.length_utf8 a.
Proof. rewrite length_utf8_app. unfold MAX_BASE. intros Hlen. apply as_u32_small. unfold u32_modulus. lia. Qed.

Lemma offset_to_point_ok a b : Str.length_utf8 (a ++ b) <= MAX_BASE →
  offset_to_point (chunk_of (a ++ b)) (Str.length_utf8 a) = Some (Text.lines (from a)).
Proof.
  intros Hlen. unfold offset_to_point. rewrite (as_u32_prefix a b) by done. cbn [chunk_of bm_newlines].
  rewrite (marked_prefix_masked newline_marks) by done.
  destruct (last_line_exists a) as (p & l & -> & Hl & Hp).
  destruct (last_line_summary p l Hp Hl) as (-> & _ & _ & Hlast).
  rewrite !length_utf8_app in Hlen. unfold MAX_BASE in Hlen.
  rewrite count_of_bits, leading_of_bits, trues_newlines, Hlast, newlines_in_app, Hl, length_utf8_app.
  rewrite usize_sub_le by lia. cbn [mbind option_bind]. rewrite usize_sub_le by lia. cbn.
  rewrite as_u32_small by (unfold u32_modulus; lia). f_equal. apply point_ext; cbn; lia.
Qed.

Lemma offset_to_offset_utf16_ok a b : Str.length_utf8 (a ++ b) <= MAX_BASE →
  offset_to_offset_utf16 (chunk_of (a ++ b)) (Str.length_utf8 a) = Str.length_utf16 a.
Proof.
  intros Hlen. unfold offset_to_offset_utf16. rewrite (as_u32_prefix a b) by done. cbn [chunk_of bm_chars_utf16].
  by rewrite (marked_prefix_masked utf16_marks), count_of_bits, trues_utf16.
Qed.

Lemma offset_to_point_utf16_ok a b : Str.length_utf8 (a ++ b) <= MAX_BASE →
  offset_to_point_utf16 (chunk_of (a ++ b)) (Str.length_utf8 a) =
  Some (TextSummaryOps.lines_utf16 (from a)).
Proof.
  intros Hlen. unfold offset_to_point_utf16. rewrite (as_u32_prefix a b) by done. change saturating_shl_mask with low_mask.
  cbn [chunk_of bm_newlines bm_chars_utf16].
  rewrite (marked_prefix_masked newline_marks), (marked_prefix_masked utf16_marks) by done.
  destruct (last_line_exists a) as (p & l & -> & Hl & Hp).
  destruct (last_line_summary p l Hp Hl) as (Hlines & _ & H16 & Hlast).
  rewrite !length_utf8_app in Hlen. unfold MAX_BASE in *.
  rewrite count_of_bits, leading_of_bits, trues_newlines, Hlast, newlines_in_app, Hl.
  rewrite usize_sub_le by lia. cbn [mbind option_bind].
  unfold TextSummaryOps.lines_utf16. rewrite Hlines, H16, N.add_0_r.
  replace (128 - (128 - Str.length_utf8 p)) with (Str.length_utf8 p) by lia.
  destruct (N.eqb_spec (Str.length_utf8 p) 128) as [H|H]; cbn [mbind option_bind].
  - assert (l = []) as -> by (apply length_utf8_zero; lia). done.
  - rewrite shr_bits by lia. cbn [mbind option_bind].
    by rewrite (marked_drop utf16_marks), count_of_bits, trues_utf16.
Qed.

(** *** Rows *)

Lemma is_nth_unique bits n i j : 1 <= n → is_nth bits n i → is_nth bits n j → i = j.
Proof.
  intros Hn Hi%is_nth_true Hj%is_nth_true; [|done..]. rewrite Hi in Hj. by injection Hj.
Qed.

Lemma nth_set_bit_at bits n i : (length bits ≤ 128)%nat → 1 <= n → is_nth bits n i →
  Select.nth_set_bit (of_bits bits) n = Some i.
Proof.
  intros Hlen Hn Hi. destruct (nth_set_bit_ok bits n Hlen) as (j & Hj & Hnth).
  - split; [done|]. destruct Hi as [Hl Ht].
    rewrite <- (take_drop (N.to_nat i) bits), trues_app, Ht, (drop_S _ _ _ Hl). cbn. lia.
  - rewrite Hj. f_equal. by apply (is_nth_unique bits n).
Qed.

Lemma offset_range_for_row_ok p l r : Str.length_utf8 (p ++ l ++ r) <= MAX_BASE →
  row_start p → newlines_in l = 0 → row_end r →
  offset_range_for_row (chunk_of (p ++ l ++ r)) (newlines_in p) =
  Some (Str.length_utf8 p ..: Str.length_utf8 p + Str.length_utf8 l).
Proof.
  intros Hlen Hp Hl Hr. pose proof Hlen as Hlen'. rewrite !length_utf8_app in Hlen'.
  unfold MAX_BASE in Hlen'. unfold offset_range_for_row. cbn [chunk_of bm_newlines].
  assert ((if 0 <? newlines_in p then
    i ← Select.nth_set_bit (of_bits (marked newline_marks (p ++ l ++ r))) (newlines_in p); Some (i + 1)
    else Some 0) = Some (Str.length_utf8 p)) as ->.
  { destruct Hp as [->|[q ->]]; [done|]. rewrite newlines_in_app, length_utf8_app. cbn [newlines_in].
    rewrite N.eqb_refl. cbn [N.b2n]. destruct (N.ltb_spec 0 (newlines_in q + (1 + 0))); [|lia].
    rewrite (nth_set_bit_at _ _ (Str.length_utf8 q)); [done|fits|lia|].
    rewrite <- app_assoc, marked_app. split.
    - rewrite lookup_app_r by (rewrite marked_length by typeclasses eauto; lia).
      rewrite marked_length, Nat.sub_diag by typeclasses eauto. done.
    - rewrite take_app_length' by (symmetry; by apply (marked_length newline_marks)). rewrite trues_newlines. lia. }
  cbn [mbind option_bind].
  destruct (N.eqb_spec (Str.length_utf8 p) MAX_BASE) as [H|H]; unfold MAX_BASE in H.
  { assert (l = []) as -> by (apply length_utf8_zero; lia). cbn. do 2 f_equal. }
  rewrite shr_bits by lia. cbn [mbind option_bind]. rewrite (marked_drop newline_marks), trailing_of_bits.
  destruct (first_line_summary l r Hl Hr) as [_ ->].
  unfold len. cbn [text chunk_of]. rewrite !length_utf8_app, usize_sub_le by lia. cbn [mbind option_bind].
  do 2 f_equal. destruct (N.eqb_spec (Str.length_utf8 r) 0); cbn [from_option id]; lia.
Qed.

Lemma point_to_offset_row debug_assertions p l r (pt : Point) : Str.length_utf8 (p ++ l ++ r) <= MAX_BASE →
  row_start p → newlines_in l = 0 → row_end r → row pt = newlines_in p →
  point_to_offset debug_assertions (chunk_of (p ++ l ++ r)) pt =
  if debug_assertions && (Str.length_utf8 l <? column pt) then None
  else Some (Str.length_utf8 p + N.min (column pt) (Str.length_utf8 l)).
Proof.
  intros Hlen Hp Hl Hr Hrow. unfold point_to_offset. rewrite lines_ok by done. cbn [mbind option_bind].
  rewrite <- newlines_in_from, Hrow, !newlines_in_app.
  destruct (N.ltb_spec (newlines_in p + (newlines_in l + newlines_in r)) (newlines_in p)); [lia|].
  rewrite offset_range_for_row_ok by done. cbn [mbind option_bind start stop]. rewrite N_add_sub_l.
  destruct (N.ltb_spec (Str.length_utf8 l) (column pt)); rewrite ?andb_true_r, ?andb_false_r.
  - destruct debug_assertions; [done|]. cbn [debug_panic]. f_equal. lia.
  - f_equal. lia.
Qed.

(** Past the last row the debug assertion fails. *)
Lemma point_to_offset_past debug_assertions s (pt : Point) : Str.length_utf8 s <= MAX_BASE → newlines_in s < row pt →
  point_to_offset debug_assertions (chunk_of s) pt = debug_panic debug_assertions (Some (Str.length_utf8 s)).
Proof.
  intros Hlen Hrow. unfold point_to_offset. rewrite lines_ok by done. cbn [mbind option_bind].
  rewrite <- newlines_in_from. by destruct (N.ltb_spec (newlines_in s) (row pt)); [|lia].
Qed.

(** A prefix ends in a row of the text. *)
Lemma prefix_row a b : ∃ p l l' r, a = p ++ l ∧ b = l' ++ r ∧ row_start p ∧ newlines_in (l ++ l') = 0 ∧
  row_end r ∧ Text.lines (from a) = mkPoint (newlines_in p) (Str.length_utf8 l) ∧
  TextSummaryOps.lines_utf16 (from a) = mkPoint (newlines_in p) (Str.length_utf16 l).
Proof.
  destruct (last_line_exists a) as (p & l & -> & Hl & Hp).
  destruct (first_line_exists b) as (l' & r & -> & Hl' & Hr).
  destruct (last_line_summary p l Hp Hl) as (Hlines & _ & H16 & _).
  exists p, l, l', r. split_and!; try done.
  - by rewrite newlines_in_app, Hl, Hl'.
  - unfold TextSummaryOps.lines_utf16. by rewrite Hlines, H16.
Qed.

Lemma point_to_offset_ok debug_assertions a b : Str.length_utf8 (a ++ b) <= MAX_BASE →
  point_to_offset debug_assertions (chunk_of (a ++ b)) (Text.lines (from a)) = Some (Str.length_utf8 a).
Proof.
  destruct (prefix_row a b) as (p & l & l' & r & -> & -> & Hp & Hl & Hr & Hlines & _).
  rewrite Hlines. replace ((p ++ l) ++ l' ++ r) with (p ++ (l ++ l') ++ r) by by rewrite <- !app_assoc.
  intros Hlen. rewrite (point_to_offset_row _ p (l ++ l') r) by done. cbn [column].
  rewrite !length_utf8_app. destruct (N.ltb_spec (Str.length_utf8 l + Str.length_utf8 l') (Str.length_utf8 l)); [lia|].
  rewrite andb_false_r. f_equal. lia.
Qed.

Lemma point_to_offset_utf16_ok debug_assertions a b : Str.length_utf8 (a ++ b) <= MAX_BASE →
  point_to_offset_utf16 debug_assertions (chunk_of (a ++ b)) (Text.lines (from a)) = Some (Str.length_utf16 a).
Proof.
  intros Hlen. unfold point_to_offset_utf16. rewrite lines_ok, point_to_offset_ok by done.
  cbn [mbind option_bind]. rewrite <- !newlines_in_from, newlines_in_app.
  destruct (N.ltb_spec (newlines_in a + newlines_in b) (newlines_in a)); [lia|].
  by rewrite offset_to_offset_utf16_ok.
Qed.

Lemma point_to_point_utf16_ok debug_assertions a b : Str.length_utf8 (a ++ b) <= MAX_BASE →
  point_to_point_utf16 debug_assertions (chunk_of (a ++ b)) (Text.lines (from a)) =
  Some (TextSummaryOps.lines_utf16 (from a)).
Proof.
  intros Hlen. unfold point_to_point_utf16. rewrite point_to_offset_ok by done.
  cbn [mbind option_bind]. by apply offset_to_point_utf16_ok.
Qed.

(** *** UTF-16 offsets *)

(** A count of UTF-16 units is reached at the end of a character, or between the two units of one. *)
Lemma utf16_cut s n : n <= Str.length_utf16 s →
  (∃ a b, s = a ++ b ∧ Str.length_utf16 a = n) ∨
  (∃ a c b, s = a ++ c :: b ∧ 0x10000 <= c ∧ Str.length_utf16 a + 1 = n).
Proof.
  revert n. induction s as [|c s IH]; intros n Hn; cbn [Str.length_utf16] in Hn.
  { left. exists [], []. split; [done|]. cbn. lia. }
  destruct (N.eq_dec n 0) as [->|H0]; [left; by exists [], (c :: s)|].
  destruct (N.leb_spec (Str.len_utf16 c) n).
  - destruct (IH (n - Str.len_utf16 c)) as [(a & b & -> & Ha)|(a & d & b & -> & Hd & Ha)]; [lia| |].
    + left. exists (c :: a), b. split; [done|]. cbn. lia.
    + right. exists (c :: a), d, b. split; [done|]. split; [done|]. cbn. lia.
  - right. exists [], c, s. split; [done|]. unfold Str.len_utf16 in *.
    destruct (N.ltb_spec c 0x10000); [lia|]. split; [done|]. cbn. lia.
Qed.

(** The bits from a set one to the next. *)
Lemma next_unit s n pre (k : nat) post : Str.length_utf8 s <= MAX_BASE →
  marked utf16_marks s = pre ++ true :: replicate k false ++ post → 1 <= n → trues pre = n - 1 →
  (post = [] ∨ ∃ post', post = true :: post') →
  offset_utf16_to_offset (chunk_of s) n = Some (Prelude.len pre + 1 + N.of_nat k).
Proof.
  intros Hlen Hbits Hn Hpre Hpost. unfold offset_utf16_to_offset.
  destruct (N.eqb_spec n 0); [lia|]. cbn [chunk_of bm_chars_utf16].
  pose proof (marked_length utf16_marks s) as Hl. rewrite Hbits in Hl.
  rewrite !length_app in Hl. cbn [length] in Hl. rewrite length_app, length_replicate in Hl.
  rewrite (nth_set_bit_at _ _ (Prelude.len pre)) by
    first [done | fits | split; rewrite Hbits; unfold Prelude.len; rewrite Nat2N.id;
      [by apply list_lookup_middle|by rewrite take_app_length]].
  unfold MAX_BASE in *. cbn [mbind option_bind]. unfold Prelude.len at 1.
  destruct (N.eqb_spec (N.of_nat (length pre) + 1) 128) as [H|H].
  { unfold Prelude.len. f_equal. lia. }
  unfold Prelude.len. rewrite shr_bits by lia. cbn [mbind option_bind].
  unfold len. cbn [text chunk_of]. rewrite usize_sub_le by lia. cbn [mbind option_bind].
  rewrite trailing_of_bits, Hbits.
  replace (drop (N.to_nat (N.of_nat (length pre) + 1)) (pre ++ true :: replicate k false ++ post))
    with (replicate k false ++ post)
    by (rewrite cons_middle, app_assoc, drop_app_length' by (rewrite length_app; cbn; lia); done).
  rewrite first_true_app_r by apply trues_false. unfold Prelude.len. rewrite length_replicate.
  f_equal. destruct Hpost as [->|[post' ->]]; cbn [first_true fmap option_fmap option_map from_option id length] in *; lia.
Qed.

Lemma utf16_marks_bmp c : c < 0x10000 →
  utf16_marks c = true :: replicate (N.to_nat (Str.len_utf8 c) - 1) false.
Proof.
  intros Hc. unfold utf16_marks. destruct (N.ltb_spec c 0x10000); [|lia]. apply marks_first.
Qed.

Lemma utf16_marks_pair c : 0x10000 <= c →
  utf16_marks c = [true; true; false; false] ∧ Str.len_utf8 c = 4 ∧ Str.len_utf16 c = 2.
Proof.
  intros Hc. unfold utf16_marks, marks, Str.len_utf8, Str.len_utf16.
  destruct (N.ltb_spec c 0x10000), (N.ltb_spec c 0x80), (N.ltb_spec c 0x800); lia || done.
Qed.

Lemma marked_utf16_head b : marked utf16_marks b = [] ∨ ∃ post, marked utf16_marks b = true :: post.
Proof.
  destruct b as [|c b]; [by left|]. right. cbn [marked]. destruct (N.ltb_spec c 0x10000).
  - rewrite utf16_marks_bmp by done. by eexists.
  - destruct (utf16_marks_pair c) as [-> _]; [done|]. by eexists.
Qed.

(** At the end of a prefix the conversion gives its length in bytes. *)
Lemma offset_utf16_to_offset_ok a b : Str.length_utf8 (a ++ b) <= MAX_BASE →
  offset_utf16_to_offset (chunk_of (a ++ b)) (Str.length_utf16 a) = Some (Str.length_utf8 a).
Proof.
  intros Hlen. destruct a as [|c a _] using rev_ind; [done|].
  rewrite length_utf16_app, length_utf8_app. cbn [Str.length_utf16 Str.length_utf8].
  pose proof (marked_len utf16_marks a) as Ha. pose proof (marked_utf16_head b) as Hb.
  rewrite !N.add_0_r. destruct (N.ltb_spec c 0x10000) as [Hc|Hc].
  - rewrite (next_unit _ _ (marked utf16_marks a) (N.to_nat (Str.len_utf8 c) - 1) (marked utf16_marks b)).
    + rewrite Ha. pose proof (len_utf8_bounds c). f_equal. lia.
    + done.
    + rewrite !marked_app. cbn [marked]. by rewrite app_nil_r, utf16_marks_bmp, <- app_assoc.
    + unfold Str.len_utf16. destruct (N.ltb_spec c 0x10000); lia.
    + rewrite trues_utf16. unfold Str.len_utf16. destruct (N.ltb_spec c 0x10000); lia.
    + done.
  - destruct (utf16_marks_pair c Hc) as (Hm & H8 & H16).
    rewrite (next_unit _ _ (marked utf16_marks a ++ [true]) 2 (marked utf16_marks b)).
    + rewrite len_app, Ha, H8. f_equal. change (Prelude.len [true]) with 1. lia.
    + done.
    + rewrite !marked_app. cbn [marked]. by rewrite Hm, app_nil_r, <- !app_assoc.
    + lia.
    + rewrite trues_app, trues_utf16. cbn. lia.
    + done.
Qed.

(** Between the units of a pair it gives the second byte of the character. *)
Lemma offset_utf16_to_offset_mid a c b : Str.length_utf8 (a ++ c :: b) <= MAX_BASE → 0x10000 <= c →
  offset_utf16_to_offset (chunk_of (a ++ c :: b)) (Str.length_utf16 a + 1) =
    Some (Str.length_utf8 a + 1) ∧
  Str.is_char_boundary (a ++ c :: b) (Str.length_utf8 a + 1) = false.
Proof.
  intros Hlen Hc. destruct (utf16_marks_pair c Hc) as (Hm & H8 & _). split.
  - rewrite (next_unit _ _ (marked utf16_marks a) 0 (true :: false :: false :: marked utf16_marks b)).
    + rewrite (marked_len utf16_marks). f_equal. cbn. lia.
    + done.
    + rewrite marked_app. cbn [marked]. by rewrite Hm.
    + lia.
    + rewrite trues_utf16. lia.
    + right. by eexists.
  - rewrite boundary_shift. cbn [Str.is_char_boundary]. rewrite H8. done.
Qed.

(** The floor of a UTF-16 offset: the longest prefix of whole characters. *)
Fixpoint utf16_floor (s : str) (n : N) : N :=
  match s with
  | [] => 0
  | c :: s => if Str.len_utf16 c <=? n then Str.len_utf8 c + utf16_floor s (n - Str.len_utf16 c) else 0
  end.

Lemma utf16_floor_app a b : utf16_floor (a ++ b) (Str.length_utf16 a) = Str.length_utf8 a.
Proof.
  induction a as [|c a IH]; cbn [app utf16_floor Str.length_utf16 Str.length_utf8].
  - destruct b as [|c b]; [done|]. cbn. pose proof (len_utf16_bounds c).
    by destruct (N.leb_spec (Str.len_utf16 c) 0); [lia|].
  - destruct (N.leb_spec (Str.len_utf16 c) (Str.len_utf16 c + Str.length_utf16 a)); [|lia].
    by rewrite N_add_sub_l, IH.
Qed.

Lemma utf16_floor_mid a c b : 0x10000 <= c →
  utf16_floor (a ++ c :: b) (Str.length_utf16 a + 1) = Str.length_utf8 a.
Proof.
  intros Hc. induction a as [|d a IH]; cbn [app utf16_floor Str.length_utf16 Str.length_utf8].
  - destruct (utf16_marks_pair c Hc) as (_ & _ & ->). done.
  - destruct (N.leb_spec (Str.len_utf16 d) (Str.len_utf16 d + Str.length_utf16 a + 1)); [|lia].
    rewrite <- IH. do 2 f_equal. lia.
Qed.

Lemma utf16_floor_past s n : Str.length_utf16 s <= n → utf16_floor s n = Str.length_utf8 s.
Proof.
  revert n. induction s as [|c s IH]; intros n Hn; cbn [utf16_floor Str.length_utf8]; [done|].
  cbn [Str.length_utf16] in Hn. destruct (N.leb_spec (Str.len_utf16 c) n); [|lia].
  rewrite IH by lia. done.
Qed.
End offsets.
