(* ===== verification/ChunkSpec.v ===== *)
(** * Chunks answer as their text says

    Clipping, the UTF-16 conversions and the tab iterator of
    [crates/rope/src/chunk.rs], and the properties of the component. *)

From S2P Require Import Prelude SumTree Points Text Bitmap SelectBit Chunk.
Import Bits PointOps ChunkOps.

#[local] Open Scope N_scope.
#[local] Abbreviation from := TextSummaryOps.from.
#[local] Arguments TextSummaryOps.from : simpl never.
#[local] Arguments TextSummaryOps.add_assign : simpl never.

(** ** The loops over offsets *)

Section steps.
Variable boundary : N → bool.

(** Stepping left stops at the last boundary before, stepping right at the first one after. *)
Lemma step_to_left fuel o : boundary 0 = true → o <= N.of_nat fuel →
  ∃ k, step_to fuel boundary BiasLeft o = Some k ∧ boundary k = true ∧ k <= o ∧
    ∀ j, k < j <= o → boundary j = false.
Proof using Type.
  intros H0. revert o. induction fuel as [|fuel IH]; intros o Ho; cbn [step_to].
  - replace o with 0 by lia. rewrite H0. exists 0. split_and!; [done|done|lia|lia].
  - destruct (boundary o) eqn:Hb; [exists o; split_and!; [done|done|lia|lia]|].
    destruct (N.eq_dec o 0) as [->|Hne]; [congruence|].
    rewrite usize_sub_le by lia. cbn [mbind option_bind].
    destruct (IH (o - 1)) as (k & Hk & Hbk & Hle & Hj); [lia|]. exists k. split_and!; [done|done|lia|].
    intros j Hjo. destruct (N.eq_dec j o) as [->|]; [done|]. apply Hj. lia.
Qed.

Lemma step_to_right fuel o L : boundary L = true → o <= L → L - o <= N.of_nat fuel →
  ∃ k, step_to fuel boundary BiasRight o = Some k ∧ boundary k = true ∧ o <= k <= L ∧
    ∀ j, o <= j < k → boundary j = false.
Proof using Type.
  intros HL. revert o. induction fuel as [|fuel IH]; intros o Ho Hf; cbn [step_to].
  - replace o with L by lia. rewrite HL. exists L. split_and!; [done|done|lia|lia|lia].
  - destruct (boundary o) eqn:Hb; [exists o; split_and!; [done|done|lia|lia|lia]|].
    destruct (N.eq_dec o L) as [->|Hne]; [congruence|]. cbn [mbind option_bind].
    destruct (IH (o + 1)) as (k & Hk & Hbk & Hle & Hj); [lia|lia|].
    exists k. split_and!; [done|done|lia|lia|].
    intros j Hjo. destruct (N.eq_dec j o) as [->|]; [done|]. apply Hj. lia.
Qed.

Lemma step_back_one fuel o : boundary (o + 1) = false → boundary o = true →
  step_back (Datatypes.S fuel) boundary (o + 1) = Some o.
Proof using Type.
  intros H1 H0. cbn [step_back]. rewrite H1, usize_sub_le by lia. cbn [mbind option_bind].
  replace (o + 1 - 1) with o by lia. destruct fuel; cbn [step_back]; by rewrite H0.
Qed.
End steps.

(** ** UTF-16 points *)

Section utf16.
Implicit Types (s a b p l r : list N) (n : N).

Lemma line_utf16 l : newlines_in l = 0 → Str.length_utf8 l <= MAX_BASE →
  last_line_len_utf16 (chunk_of l) = Str.length_utf16 l.
Proof. intros Hl Hlen. rewrite last_line_len_utf16_ok, one_line by done. done. Qed.

(** The UTF-16 offsets at the ends of characters. *)
Fixpoint utf16_boundary (s : str) (n : N) : bool :=
  (n =? 0) ||
  match s with
  | [] => false
  | c :: s => (Str.len_utf16 c <=? n) && utf16_boundary s (n - Str.len_utf16 c)
  end.

Lemma utf16_boundary_shift a b n : utf16_boundary b n = true →
  utf16_boundary (a ++ b) (Str.length_utf16 a + n) = true.
Proof.
  intros Hn. induction a as [|c a IH]; cbn [app Str.length_utf16]; [exact Hn|].
  cbn [utf16_boundary]. pose proof (len_utf16_bounds c).
  destruct (N.leb_spec (Str.len_utf16 c) (Str.len_utf16 c + Str.length_utf16 a + n)); [|lia].
  replace (Str.len_utf16 c + Str.length_utf16 a + n - Str.len_utf16 c) with (Str.length_utf16 a + n)
    by lia. rewrite IH. by rewrite orb_true_r.
Qed.

Lemma utf16_boundary_app a b : utf16_boundary (a ++ b) (Str.length_utf16 a) = true.
Proof.
  rewrite <- (N.add_0_r (Str.length_utf16 a)). apply utf16_boundary_shift. by destruct b.
Qed.

Lemma utf16_boundary_mid a c b : 0x10000 <= c →
  utf16_boundary (a ++ c :: b) (Str.length_utf16 a + 1) = false.
Proof.
  intros Hc. destruct (utf16_marks_pair c Hc) as (_ & _ & H16).
  induction a as [|d a IH]; cbn [app utf16_boundary Str.length_utf16].
  - by rewrite H16.
  - pose proof (len_utf16_bounds d).
    destruct (N.eqb_spec (Str.len_utf16 d + Str.length_utf16 a + 1) 0); [lia|].
    replace (Str.len_utf16 d + Str.length_utf16 a + 1 - Str.len_utf16 d) with (Str.length_utf16 a + 1)
      by lia. rewrite IH. apply andb_false_r.
Qed.

Lemma utf16_boundary_past s n : Str.length_utf16 s < n → utf16_boundary s n = false.
Proof.
  revert n. induction s as [|c s IH]; intros n Hn; cbn [utf16_boundary Str.length_utf16] in *; destruct (N.eqb_spec n 0); [lia|done|lia|].
  rewrite IH by lia. apply andb_false_r.
Qed.

(** What [offset_utf16_to_offset] and a step back to a boundary come to. *)
Lemma utf16_floor_spec s n : Str.length_utf8 s <= MAX_BASE → n <= Str.length_utf16 s →
  ∃ o, offset_utf16_to_offset (chunk_of s) n = Some o ∧ o <= Str.length_utf8 s ∧
    Str.is_char_boundary s (utf16_floor s n) = true ∧
    (o = utf16_floor s n ∧ utf16_boundary s n = true ∨
     o = utf16_floor s n + 1 ∧ Str.is_char_boundary s o = false ∧ utf16_boundary s n = false).
Proof.
  intros Hlen [(a & b & -> & <-)|(a & c & b & -> & Hc & <-)]%utf16_cut.
  - exists (Str.length_utf8 a). rewrite utf16_floor_app, offset_utf16_to_offset_ok by done.
    rewrite length_utf8_app. split_and!; [done|lia|apply boundary_app|left; split; [done|apply utf16_boundary_app]].
  - destruct (offset_utf16_to_offset_mid a c b Hlen Hc) as [Ho Hb].
    exists (Str.length_utf8 a + 1). rewrite utf16_floor_mid by done.
    destruct (utf16_marks_pair c Hc) as (_ & H8 & _).
    rewrite length_utf8_app. cbn [Str.length_utf8].
    split_and!; [done|lia|apply boundary_app|right; split_and!; [done|done|by apply utf16_boundary_mid]].
Qed.

Lemma utf16_floor_0 s : utf16_floor s 0 = 0.
Proof. apply (utf16_floor_app [] s). Qed.

Lemma utf16_boundary_0 s : utf16_boundary s 0 = true.
Proof. by destruct s. Qed.

Lemma point_utf16_to_offset_row debug_assertions clip p l r (pt : PointUtf16) : Str.length_utf8 (p ++ l ++ r) <= MAX_BASE →
  row_start p → newlines_in l = 0 → row_end r → row pt = newlines_in p →
  point_utf16_to_offset debug_assertions (chunk_of (p ++ l ++ r)) pt clip =
  if debug_assertions && negb clip && negb (utf16_boundary l (column pt)) then None
  else Some (Str.length_utf8 p + utf16_floor l (column pt)).
Proof.
  intros Hlen Hp Hl Hr Hrow. pose proof Hlen as Hlen'. rewrite !length_utf8_app in Hlen'.
  unfold point_utf16_to_offset. rewrite lines_ok by done. cbn [mbind option_bind].
  rewrite <- newlines_in_from, Hrow, !newlines_in_app.
  destruct (N.ltb_spec (newlines_in p + (newlines_in l + newlines_in r)) (newlines_in p)); [lia|].
  rewrite offset_range_for_row_ok by done. cbn [mbind option_bind start stop].
  rewrite chunk_slice_ok by done. cbn [mbind option_bind].
  rewrite line_utf16 by (done || lia).
  destruct (N.ltb_spec (Str.length_utf16 l) (column pt)).
  { rewrite utf16_floor_past, utf16_boundary_past by lia. by destruct debug_assertions, clip. }
  destruct (N.ltb_spec 0 (column pt)).
  2:{ replace (column pt) with 0 by lia. by rewrite utf16_floor_0, N.add_0_r, utf16_boundary_0, andb_false_r. }
  destruct (utf16_floor_spec l (column pt)) as (o & -> & Hole & Hb & Ho); [lia|done|]. cbn [mbind option_bind].
  assert (∀ i, i <= Str.length_utf8 l →
    Str.is_char_boundary (p ++ l ++ r) (Str.length_utf8 p + i) = Str.is_char_boundary l i) as Hin.
  { intros i Hi. rewrite boundary_shift. by apply boundary_in_prefix. }
  pose proof (boundary_le _ _ Hb) as Hble. cbn [chunk_of text].
  destruct Ho as [[-> ->]|(-> & Hnb & ->)].
  - by rewrite Hin, Hb, andb_false_r.
  - rewrite Hin, Hnb by done. rewrite usize_sub_le by lia. cbn [mbind option_bind].
    replace (Str.length_utf8 p + (utf16_floor l (column pt) + 1) - 1) with
      (Str.length_utf8 p + utf16_floor l (column pt)) by lia.
    change (N.to_nat MAX_BASE) with 128%nat. cbn [step_back]. rewrite Hin, Hb by done. by destruct debug_assertions, clip.
Qed.

Lemma point_utf16_to_offset_past debug_assertions clip s (pt : PointUtf16) : Str.length_utf8 s <= MAX_BASE →
  newlines_in s < row pt →
  point_utf16_to_offset debug_assertions (chunk_of s) pt clip =
    if debug_assertions && negb clip then None else Some (Str.length_utf8 s).
Proof.
  intros Hlen Hrow. unfold point_utf16_to_offset. rewrite lines_ok by done. cbn [mbind option_bind].
  rewrite <- newlines_in_from. destruct (N.ltb_spec (newlines_in s) (row pt)); [|lia]. by destruct debug_assertions, clip.
Qed.

Lemma unclipped_point_row p l r (pt : PointUtf16) : Str.length_utf8 (p ++ l ++ r) <= MAX_BASE →
  row_start p → newlines_in l = 0 → row_end r → row pt = newlines_in p →
  unclipped_point_utf16_to_point (chunk_of (p ++ l ++ r)) (mkUnclipped pt) =
  Some (mkPoint (row pt) (utf16_floor l (column pt))).
Proof.
  intros Hlen Hp Hl Hr Hrow. pose proof Hlen as Hlen'. rewrite !length_utf8_app in Hlen'.
  unfold unclipped_point_utf16_to_point. cbn [unclipped].
  rewrite lines_ok by done. cbn [mbind option_bind].
  rewrite <- newlines_in_from, Hrow, !newlines_in_app.
  destruct (N.ltb_spec (newlines_in p + (newlines_in l + newlines_in r)) (newlines_in p)); [lia|].
  rewrite offset_range_for_row_ok by done. cbn [mbind option_bind].
  rewrite chunk_slice_ok by done. cbn [mbind option_bind]. rewrite len_utf16_ok.
  destruct (N.eqb_spec (column pt) 0) as [->|H0]; [by rewrite utf16_floor_0|].
  destruct (N.leb_spec (Str.length_utf16 l) (column pt)); [by rewrite utf16_floor_past|].
  destruct (utf16_floor_spec l (column pt)) as (o & -> & Hole & Hb & Ho); [lia|lia|].
  cbn [mbind option_bind chunk_of text]. change (N.to_nat MAX_BASE) with (Datatypes.S 127).
  destruct Ho as [[-> _]|(-> & Hnb & _)].
  - cbn [step_back]. by rewrite Hb.
  - by rewrite step_back_one.
Qed.

(** *** Clipping *)

(** The next boundary after the first byte of a character. *)
Lemma boundary_inside a c b i : 0 < i < Str.len_utf8 c →
  Str.is_char_boundary (a ++ c :: b) (Str.length_utf8 a + i) = false.
Proof.
  intros Hi. rewrite boundary_shift. cbn [Str.is_char_boundary].
  destruct (N.eqb_spec i 0), (N.leb_spec (Str.len_utf8 c) i); lia || done.
Qed.

Lemma clip_offset_utf16_cut a b bias : Str.length_utf8 (a ++ b) <= MAX_BASE →
  clip_offset_utf16 (chunk_of (a ++ b)) (Str.length_utf16 a) bias = Some (Str.length_utf16 a).
Proof.
  intros Hlen. unfold clip_offset_utf16. rewrite len_utf16_ok, length_utf16_app.
  destruct (N.eqb_spec (Str.length_utf16 a) 0) as [->|]; [done|].
  destruct (N.leb_spec (Str.length_utf16 a + Str.length_utf16 b) (Str.length_utf16 a)); [f_equal; lia|].
  rewrite offset_utf16_to_offset_ok by done. cbn [mbind option_bind chunk_of text].
  change (N.to_nat MAX_BASE) with 128%nat. cbn [step_to]. rewrite boundary_app. cbn [mbind option_bind].
  fold (chunk_of (a ++ b)). by rewrite offset_to_offset_utf16_ok.
Qed.

Lemma clip_offset_utf16_mid a c b bias : Str.length_utf8 (a ++ c :: b) <= MAX_BASE → 0x10000 <= c →
  clip_offset_utf16 (chunk_of (a ++ c :: b)) (Str.length_utf16 a + 1) bias =
  Some (match bias with BiasLeft => Str.length_utf16 a | BiasRight => Str.length_utf16 a + 2 end).
Proof.
  intros Hlen Hc. destruct (utf16_marks_pair c Hc) as (_ & H8 & H16).
  destruct (offset_utf16_to_offset_mid a c b Hlen Hc) as [Ho _].
  unfold clip_offset_utf16. rewrite len_utf16_ok, length_utf16_app. cbn [Str.length_utf16].
  destruct (N.eqb_spec (Str.length_utf16 a + 1) 0); [lia|].
  destruct (N.leb_spec (Str.length_utf16 a + (Str.len_utf16 c + Str.length_utf16 b))
    (Str.length_utf16 a + 1)); [lia|].
  rewrite Ho. cbn [mbind option_bind]. change (N.to_nat MAX_BASE) with 128%nat.
  assert (∀ i, 0 < i < 4 → Str.is_char_boundary (text (chunk_of (a ++ c :: b))) (Str.length_utf8 a + i) = false)
    as Hin by (intros i Hi; apply boundary_inside; lia).
  destruct bias; cbn [step_to].
  - rewrite Hin, usize_sub_le by lia. cbn [mbind option_bind].
    replace (Str.length_utf8 a + 1 - 1) with (Str.length_utf8 a) by lia.
    cbn [chunk_of text]. rewrite boundary_app. cbn [mbind option_bind].
    fold (chunk_of (a ++ c :: b)). by rewrite offset_to_offset_utf16_ok.
  - rewrite Hin by lia. cbn [mbind option_bind]. rewrite <- N.add_assoc. change (1 + 1) with 2.
    rewrite Hin by lia. cbn [mbind option_bind]. rewrite <- N.add_assoc. change (2 + 1) with 3.
    rewrite Hin by lia. cbn [mbind option_bind]. rewrite <- N.add_assoc. change (3 + 1) with 4.
    replace (Str.length_utf8 a + 4) with (Str.length_utf8 (a ++ [c]))
      by (rewrite length_utf8_app; cbn [Str.length_utf8]; lia).
    change (a ++ c :: b) with (a ++ [c] ++ b) in *. rewrite app_assoc in *. cbn [chunk_of text].
    rewrite boundary_app. cbn [mbind option_bind]. fold (chunk_of ((a ++ [c]) ++ b)).
    rewrite offset_to_offset_utf16_ok by done. rewrite length_utf16_app. cbn [Str.length_utf16].
    f_equal. lia.
Qed.

Lemma clip_offset_utf16_past s n bias : Str.length_utf16 s <= n →
  clip_offset_utf16 (chunk_of s) n bias = Some (Str.length_utf16 s).
Proof.
  intros Hn. unfold clip_offset_utf16. rewrite len_utf16_ok.
  destruct (N.eqb_spec n 0); [f_equal; lia|]. by destruct (N.leb_spec (Str.length_utf16 s) n); [|lia].
Qed.

Lemma clip_point_utf16_row p l r (pt : PointUtf16) bias m : Str.length_utf8 (p ++ l ++ r) <= MAX_BASE →
  row_start p → newlines_in l = 0 → row_end r → row pt = newlines_in p →
  clip_offset_utf16 (chunk_of l) (column pt) bias = Some m →
  clip_point_utf16 (chunk_of (p ++ l ++ r)) (mkUnclipped pt) bias = Some (mkPoint (row pt) m).
Proof.
  intros Hlen Hp Hl Hr Hrow Hm. unfold clip_point_utf16. cbn [unclipped].
  rewrite lines_ok by done. cbn [mbind option_bind].
  rewrite <- newlines_in_from, Hrow, !newlines_in_app.
  destruct (N.ltb_spec (newlines_in p + (newlines_in l + newlines_in r)) (newlines_in p)); [lia|].
  rewrite offset_range_for_row_ok by done. cbn [mbind option_bind].
  rewrite chunk_slice_ok by done. cbn [mbind option_bind]. by rewrite Hm.
Qed.
End utf16.

(** ** Clipping to grapheme boundaries *)

(** The byte at a place is the first one of a character exactly at a boundary. *)
Lemma byte_boundary s i x : forallb is_scalar s = true →
  Str.as_bytes s !! N.to_nat i = Some x →
  is_utf8_char_boundary x = Str.is_char_boundary s i.
Proof.
  intros Hs Hx. rewrite <- boundary_mark.
  assert (marked char_marks s = is_utf8_char_boundary <$> Str.as_bytes s) as ->.
  { symmetry. apply (test_marked is_utf8_char_boundary (λ _, true)); [done|test_byte|test_byte]. }
  rewrite nth_lookup, list_lookup_fmap, Hx. cbn [fmap option_fmap option_map from_option id].
  pose proof (as_bytes_length s) as Hlen. unfold Prelude.len in Hlen. apply lookup_lt_Some in Hx.
  destruct (N.eqb_spec i (Str.length_utf8 s)); [lia|]. by rewrite orb_false_r.
Qed.

Section graphemes.
Implicit Types (s p l r : list N).

(** [GraphemeCursor::is_boundary] of the crate [unicode_segmentation], after the rules of Unicode:
    a text has boundaries at its start and its end (GB1, GB2), and between two ASCII characters
    unless they are CR and LF (GB3 to GB5, GB999). *)
Variable grapheme_boundary : str → N → bool.

Record GraphemeRules : Prop := {
  grapheme_start s : grapheme_boundary s 0 = true;
  grapheme_end s : grapheme_boundary s (Str.length_utf8 s) = true;
  grapheme_ascii s (i : N) x y : forallb is_scalar s = true → 0 < i →
    Str.as_bytes s !! N.to_nat (i - 1) = Some x → Str.as_bytes s !! N.to_nat i = Some y →
    x < 128 → y < 128 → y ≠ newline_char → grapheme_boundary s i = true }.

(** [k] is the boundary that clipping [o] towards [bias] finds. *)
Definition nearest (boundary : N → bool) (bias : Bias) (o k : N) : Prop :=
  boundary k = true ∧
  match bias with
  | BiasLeft => k <= o ∧ ∀ j, k < j <= o → boundary j = false
  | BiasRight => o <= k ∧ ∀ j, o <= j < k → boundary j = false
  end.

Lemma nearest_here boundary bias o : boundary o = true → nearest boundary bias o o.
Proof. intros H. split; [done|]. destruct bias; (split; [lia|intros; lia]). Qed.

Lemma step_to_nearest boundary fuel bias o L : boundary 0 = true → boundary L = true →
  o <= L → L <= N.of_nat fuel →
  ∃ k, step_to fuel boundary bias o = Some k ∧ nearest boundary bias o k.
Proof.
  intros H0 HL Ho Hf. destruct bias.
  - destruct (step_to_left boundary fuel o) as (k & ? & ? & ? & ?); [done|lia|]. by exists k.
  - destruct (step_to_right boundary fuel o L) as (k & ? & ? & [? _] & ?); [done|done|lia|]. by exists k.
Qed.

Definition at_grapheme l (k : N) : bool := Str.is_char_boundary l k && grapheme_boundary l k.

Lemma ends_at_grapheme l : GraphemeRules →
  at_grapheme l 0 = true ∧ at_grapheme l (Str.length_utf8 l) = true.
Proof.
  intros [H0 H1 _]. unfold at_grapheme. by rewrite boundary_0, boundary_len, H0, H1.
Qed.

Lemma newline_free_bytes l (i : N) : newlines_in l = 0 → forallb is_scalar l = true →
  Str.as_bytes l !! N.to_nat i ≠ Some newline_char.
Proof.
  intros Hl Hs Hi. rewrite <- trues_newlines, trues_zero in Hl. apply (Hl (N.to_nat i)).
  assert (marked newline_marks l = (λ x, x =? 10) <$> Str.as_bytes l) as ->.
  { symmetry. apply (test_marked (λ x, x =? 10) (λ c, c =? newline_char)); [done|test_byte|test_byte]. }
  by rewrite list_lookup_fmap, Hi.
Qed.

Lemma clip_point_row p l r (pt : Point) bias : GraphemeRules →
  forallb is_scalar l = true → Str.length_utf8 (p ++ l ++ r) <= MAX_BASE →
  row_start p → newlines_in l = 0 → row_end r → row pt = newlines_in p →
  ∃ k, clip_point grapheme_boundary (chunk_of (p ++ l ++ r)) pt bias = Some (mkPoint (row pt) k) ∧
    nearest (at_grapheme l) bias (N.min (column pt) (Str.length_utf8 l)) k.
Proof.
  intros HG Hs Hlen Hp Hl Hr Hrow. pose proof Hlen as Hlen'. rewrite !length_utf8_app in Hlen'.
  destruct (ends_at_grapheme l HG) as [G0 G1].
  unfold clip_point. rewrite lines_ok by done. cbn [mbind option_bind].
  rewrite <- newlines_in_from, Hrow, !newlines_in_app.
  destruct (N.ltb_spec (newlines_in p + (newlines_in l + newlines_in r)) (newlines_in p)); [lia|].
  rewrite offset_range_for_row_ok by done. cbn [mbind option_bind].
  rewrite chunk_slice_ok by done. cbn [mbind option_bind]. unfold len. cbn [text chunk_of].
  destruct (N.eqb_spec (column pt) 0) as [H0|H0].
  { exists 0. rewrite H0. split; [f_equal; by apply point_ext|].
    rewrite N.min_0_l. by apply nearest_here. }
  destruct (N.leb_spec (Str.length_utf8 l) (column pt)) as [Hc|Hc].
  { exists (Str.length_utf8 l). split; [done|]. rewrite N.min_r by done. by apply nearest_here. }
  rewrite N.min_l by lia. pose proof (as_bytes_length l) as Hb. unfold Prelude.len in Hb.
  destruct (lookup_lt_is_Some_2 (Str.as_bytes l) (N.to_nat (column pt - 1))) as [x Hx]; [lia|].
  destruct (lookup_lt_is_Some_2 (Str.as_bytes l) (N.to_nat (column pt))) as [y Hy]; [lia|].
  rewrite Hx. cbn [mbind option_bind]. rewrite Hy. cbn [mbind option_bind].
  assert (∀ k, k <= 128 → is_char_boundary (chunk_of l) k && grapheme_boundary l k = at_grapheme l k) as Hat.
  { intros k Hk. unfold at_grapheme. by rewrite is_char_boundary_ok by (unfold u32_modulus; lia). }
  unfold MAX_BASE in Hlen'.
  destruct ((x <? 128) && (y <? 128)) eqn:Hascii.
  - apply andb_true_iff in Hascii as [Hx128%N.ltb_lt Hy128%N.ltb_lt].
    exists (column pt). split; [done|]. apply nearest_here. unfold at_grapheme.
    rewrite <- (byte_boundary l (column pt) y), is_utf8_char_boundary_spec by done.
    destruct (N.ltb_spec y 128); [|lia]. cbn.
    apply (grapheme_ascii HG l (column pt) x y); try done; [lia|].
    intros ->. by apply (newline_free_bytes l (column pt)).
  - destruct (step_to_nearest (λ k, is_char_boundary (chunk_of l) k && grapheme_boundary l k)
      (N.to_nat MAX_BASE) bias (column pt) (Str.length_utf8 l)) as (k & Hk & Hnear);
      [by rewrite Hat|by rewrite Hat by lia|lia|unfold MAX_BASE in *; lia|].
    rewrite Hk. cbn [mbind option_bind]. exists k. split; [done|].
    destruct Hnear as [Hbk Hj]. assert (k <= 128) as Hk128.
    { destruct bias; [lia|]. destruct (N.le_gt_cases k 128) as [|Hgt]; [done|]. destruct Hj as [_ Hj].
      specialize (Hj (Str.length_utf8 l) ltac:(lia)). rewrite Hat, G1 in Hj by lia. done. }
    rewrite Hat in Hbk by done. split; [done|].
    destruct bias; (split; [apply Hj|]); intros j Hjo; rewrite <- Hat by lia; by apply Hj.
Qed.
End graphemes.

(** ** Tabs *)

Section tabs.
Implicit Types (s a r x y : list N).

(** The tabs of a text with the bytes and the characters before them. *)
Fixpoint tab_positions (bytes_ chars_ : N) (s : str) : list TabPosition :=
  match s with
  | [] => []
  | c :: s =>
      (if c =? tab_char then [mkTabPosition bytes_ chars_] else []) ++
      tab_positions (bytes_ + Str.len_utf8 c) (chars_ + 1) s
  end.

(** Consuming the iterator. *)
Fixpoint tabs_collect (fuel : nat) (t : Tabs) : option (list TabPosition) :=
  match fuel with
  | O => None
  | Datatypes.S fuel =>
      '(position, t) ← tabs_next t;
      match position with
      | None => Some []
      | Some position => rest ← tabs_collect fuel t; Some (position :: rest)
      end
  end.

Lemma clear_bit pre post :
  N.lxor (of_bits (pre ++ true :: post)) (2 ^ Prelude.len pre) = of_bits (pre ++ false :: post).
Proof.
  apply N.bits_inj. intros i. rewrite N.lxor_spec, N.pow2_bits_eqb, !testbit_of_bits, !nth_lookup.
  destruct (N.eqb_spec (Prelude.len pre) i) as [<-|Hi].
  - rewrite to_nat_len, !list_lookup_middle by done. done.
  - rewrite xorb_false_r. destruct (decide (N.to_nat i < length pre)%nat).
    + by rewrite !lookup_app_l by done.
    + rewrite !lookup_app_r by lia.
      destruct (N.to_nat i - length pre)%nat eqn:E; [unfold Prelude.len in Hi; lia|done].
Qed.

(** The iterator after the tabs of [a]. *)
Definition tabs_after a r : Tabs :=
  mkTabs (of_bits (replicate (N.to_nat (Str.length_utf8 a)) false ++ marked tab_marks r))
    (of_bits (marked char_marks (a ++ r))).

Lemma first_tab r : trues (marked tab_marks r) = 0 ∨
  ∃ x y, r = x ++ tab_char :: y ∧ trues (marked tab_marks x) = 0.
Proof.
  induction r as [|c r IH]; [by left|]. destruct (N.eqb_spec c tab_char) as [->|Hc].
  - right. by exists [], r.
  - assert (trues (tab_marks c) = 0) as Ht.
    { unfold tab_marks. rewrite trues_marks. destruct (N.eqb_spec c tab_char); [done|]. by case_match. }
    destruct IH as [IH|(x & y & -> & Hx)]; [left|right].
    + cbn [marked]. by rewrite trues_app, Ht, IH.
    + exists (c :: x), y. split; [done|]. cbn [marked]. by rewrite trues_app, Ht, Hx.
Qed.

Lemma tab_positions_app a r bytes_ chars_ : trues (marked tab_marks a) = 0 →
  tab_positions bytes_ chars_ (a ++ r) =
  tab_positions (bytes_ + Str.length_utf8 a) (chars_ + Prelude.len a) r.
Proof.
  revert bytes_ chars_. induction a as [|c a IH]; intros bytes_ chars_ Ha.
  { cbn. by rewrite !N.add_0_r. }
  cbn [marked] in Ha. rewrite trues_app in Ha. cbn [app tab_positions Str.length_utf8].
  rewrite IH, len_cons by lia. unfold tab_marks in Ha. rewrite trues_marks in Ha.
  destruct (N.eqb_spec c tab_char); cbn [N.b2n] in Ha; [lia|]. cbn [app]. f_equal; lia.
Qed.

Lemma tabs_next_some a x y : Str.length_utf8 (a ++ x ++ tab_char :: y) <= MAX_BASE →
  trues (marked tab_marks x) = 0 →
  tabs_next (tabs_after a (x ++ tab_char :: y)) =
  Some (Some (mkTabPosition (Str.length_utf8 (a ++ x)) (Prelude.len (a ++ x))),
        tabs_after (a ++ x ++ [tab_char]) y).
Proof.
  intros Hlen Hx. pose proof Hlen as Hlen'. rewrite !length_utf8_app in Hlen'. cbn [Str.length_utf8] in Hlen'.
  change (Str.len_utf8 tab_char) with 1 in Hlen'. unfold MAX_BASE in Hlen'.
  assert (replicate (N.to_nat (Str.length_utf8 a)) false ++ marked tab_marks (x ++ tab_char :: y) =
    replicate (N.to_nat (Str.length_utf8 (a ++ x))) false ++ true :: marked tab_marks y) as Hbits.
  { rewrite marked_app, app_assoc, length_utf8_app, N2Nat.inj_add, replicate_add, <- app_assoc.
    rewrite <- app_assoc. f_equal. change (marked tab_marks (tab_char :: y)) with (true :: marked tab_marks y).
    f_equal. rewrite <- (marked_length tab_marks x).
    clear - Hx. induction (marked tab_marks x) as [|b l IH]; [done|]. cbn in *. destruct b; cbn in Hx; [lia|].
    f_equal. apply IH. lia. }
  unfold tabs_next, tabs_after. cbn [tabs_tabs tabs_chars]. rewrite Hbits.
  set (pre := replicate (N.to_nat (Str.length_utf8 (a ++ x))) false).
  assert (Prelude.len pre = Str.length_utf8 (a ++ x)) as Hpre
    by (unfold pre, Prelude.len; rewrite length_replicate; lia).
  assert (first_true (pre ++ true :: marked tab_marks y) = Some (Str.length_utf8 (a ++ x))) as Hf.
  { rewrite first_true_app_r by apply trues_false. cbn. by rewrite N.add_0_r, Hpre. }
  destruct (N.eqb_spec (of_bits (pre ++ true :: marked tab_marks y)) 0) as [H0|_].
  { apply of_bits_zero in H0. congruence. }
  rewrite trailing_of_bits, Hf. cbn [from_option id]. rewrite length_utf8_app.
  rewrite shl_one by lia. cbn [mbind option_bind].
  rewrite <- length_utf8_app, of_bits_mask, app_assoc, (marked_take char_marks), count_of_bits, trues_chars.
  do 2 f_equal. f_equal.
  - rewrite <- Hpre, clear_bit. f_equal. unfold pre. rewrite (app_assoc a x), (length_utf8_app (a ++ x) [tab_char]).
    cbn [Str.length_utf8]. change (Str.len_utf8 tab_char) with 1.
    replace (N.to_nat (Str.length_utf8 (a ++ x) + (1 + 0))) with (N.to_nat (Str.length_utf8 (a ++ x)) + 1)%nat
      by lia. rewrite replicate_add, <- app_assoc. done.
  - by rewrite <- !app_assoc.
Qed.

Lemma tabs_collect_ok fuel a r : Str.length_utf8 (a ++ r) <= MAX_BASE →
  (length r < fuel)%nat →
  tabs_collect fuel (tabs_after a r) = Some (tab_positions (Str.length_utf8 a) (Prelude.len a) r).
Proof.
  revert a r. induction fuel as [|fuel IH]; intros a r Hlen Hfuel; [lia|]. cbn [tabs_collect].
  destruct (first_tab r) as [Hr|(x & y & -> & Hx)].
  - assert (tabs_next (tabs_after a r) = Some (None, tabs_after a r)) as ->.
    { unfold tabs_next, tabs_after. cbn [tabs_tabs].
      destruct (N.eqb_spec (of_bits (replicate (N.to_nat (Str.length_utf8 a)) false ++ marked tab_marks r)) 0)
        as [|H0]; [done|]. destruct H0. apply of_bits_zero, first_true_none.
      by rewrite trues_app, trues_false. }
    cbn [mbind option_bind]. rewrite <- (app_nil_r r), tab_positions_app by done. done.
  - rewrite tabs_next_some by done. cbn [mbind option_bind].
    rewrite length_app in Hfuel. cbn [length] in Hfuel.
    rewrite IH; [|by rewrite <- !app_assoc|lia]. cbn [mbind option_bind].
    rewrite (tab_positions_app x) by done. cbn [tab_positions]. rewrite N.eqb_refl. cbn [app].
    rewrite !length_utf8_app, !len_app. cbn [Str.length_utf8].
    change (Prelude.len [tab_char]) with 1. do 3 f_equal; lia.
Qed.
End tabs.

(** ** Properties *)

Section properties.
Implicit Types (s a b d p l r : list N) (i j mid n : N).

Lemma floor_step s i : 0 < i → Str.is_char_boundary s i = false →
  Str.floor_char_boundary s i = Str.floor_char_boundary s (i - 1).
Proof.
  intros Hi Hb. pose proof (floor_boundary s i) as B1. pose proof (floor_boundary s (i - 1)) as B2.
  pose proof (floor_le s i). pose proof (floor_le s (i - 1)).
  assert (Str.floor_char_boundary s i ≠ i) by congruence.
  pose proof (floor_greatest s (i - 1) _ B1 ltac:(lia)).
  pose proof (floor_greatest s i _ B2 ltac:(lia)). lia.
Qed.

Lemma floor_char_boundary_ok s i : forallb is_scalar s = true →
  floor_char_boundary (chunk_of s) i = Some (Str.floor_char_boundary s i).
Proof.
  intros Hs. unfold floor_char_boundary. cbn [chunk_of text].
  destruct (N.leb_spec (Str.length_utf8 s) i) as [Hle|Hlt].
  { f_equal. pose proof (floor_greatest s i _ (boundary_len s) Hle).
    pose proof (boundary_le _ _ (floor_boundary s i)). lia. }
  rewrite <- (N2Nat.id i) at 2. assert (N.to_nat i < length (Str.as_bytes s))%nat as Hn.
  { pose proof (as_bytes_length s). unfold Prelude.len in *. lia. }
  clear Hlt. revert Hn. generalize (N.to_nat i). clear i. intros i. induction i as [|i IH]; intros Hn.
  { cbn [floor_loop]. f_equal. symmetry. apply floor_id, boundary_0. }
  cbn [floor_loop]. destruct (lookup_lt_is_Some_2 _ _ Hn) as [x Hx]. rewrite Hx. cbn [mbind option_bind].
  rewrite (byte_boundary s (N.of_nat (Datatypes.S i)) x Hs) by by rewrite Nat2N.id.
  destruct (Str.is_char_boundary s (N.of_nat (Datatypes.S i))) eqn:Hb.
  - by rewrite floor_id.
  - rewrite IH by lia. f_equal. rewrite (floor_step s (N.of_nat (Datatypes.S i))) by (done || lia).
    f_equal. lia.
Qed.

(** C32: a chunk always holds the bitmaps of its text. Building one from a string, pushing and
    prepending strings give the chunk of the concatenation when it has at most 128 bytes, and panic
    otherwise; splitting and slicing at character boundaries give the chunks of the parts, and
    splitting elsewhere panics; the bitmap test for boundaries is that of [str], for offsets that fit the
    [u32] that it casts them to, and so is the byte test. *)
Theorem chunk_holds_text a b d (Ha : forallb is_scalar a = true) (Hb : forallb is_scalar b = true)
    (Hlen : Str.length_utf8 (a ++ b ++ d) <= MAX_BASE) :
  let s := a ++ b ++ d in
  new a = Some (chunk_of a) ∧
  push_str (chunk_of a) b = Some (chunk_of (a ++ b)) ∧
  prepend_str (chunk_of b) a = Some (chunk_of (a ++ b)) ∧
  split_at (chunk_of s) (Str.length_utf8 a) = Some (chunk_of a, chunk_of (b ++ d)) ∧
  slice (chunk_of s) (Str.length_utf8 a ..: Str.length_utf8 (a ++ b)) = Some (chunk_of b) ∧
  (∀ i, i < u32_modulus → is_char_boundary (chunk_of s) i = Str.is_char_boundary s i) ∧
  (∀ i, floor_char_boundary (chunk_of a) i = Some (Str.floor_char_boundary a i)) ∧
  (∀ i, i ≠ MAX_BASE → Str.is_char_boundary s i = false → split_at (chunk_of s) i = None) ∧
  (∀ c, MAX_BASE < Str.length_utf8 c → new c = None) ∧
  (∀ c, c ≠ [] → MAX_BASE < Str.length_utf8 (a ++ c) → append (chunk_of a) (chunk_of c) = None).
Proof.
  pose proof Hlen as Hlen'. rewrite !length_utf8_app in Hlen'.
  assert (Str.length_utf8 (a ++ b) <= MAX_BASE) as Hab by (rewrite length_utf8_app; lia).
  cbn zeta. split_and!.
  - apply new_ok; [done|lia].
  - unfold push_str. rewrite new_ok by (done || lia). cbn [mbind option_bind]. by apply chunk_append_ok.
  - unfold prepend_str. rewrite new_ok by (done || lia). cbn [mbind option_bind]. by apply prepend_ok.
  - by apply split_at_ok.
  - rewrite length_utf8_app. by apply chunk_slice_ok.
  - intros i. by apply is_char_boundary_ok.
  - intros i. by apply floor_char_boundary_ok.
  - intros i. by apply split_at_panics.
  - intros c Hc. unfold new. by destruct (N.leb_spec (Str.length_utf8 c) MAX_BASE); [lia|].
  - intros c. apply append_overflow.
Qed.

(** The summary that a chunk computes from its bitmaps by counting and by scanning for line feeds
    is the summary of its text, character by character; the scan ends within its 128 turns. The
    tab iterator yields every tab with its byte and character offsets, in order. *)
Theorem chunk_summarizes s (Hlen : Str.length_utf8 s <= MAX_BASE) :
  text_summary (chunk_of s) = Some (from s) ∧
  tabs_collect (Datatypes.S (length s)) (tabs (chunk_of s)) = Some (tab_positions 0 0 s).
Proof.
  split; [by apply text_summary_ok|].
  apply (tabs_collect_ok (Datatypes.S (length s)) [] s); [done|lia].
Qed.

Lemma utf16_row_at a b : ∃ p l l' r, a = p ++ l ∧ a ++ b = p ++ (l ++ l') ++ r ∧ row_start p ∧
  newlines_in (l ++ l') = 0 ∧ row_end r ∧ Text.lines (from a) = mkPoint (newlines_in p) (Str.length_utf8 l) ∧
  TextSummaryOps.lines_utf16 (from a) = mkPoint (newlines_in p) (Str.length_utf16 l).
Proof.
  destruct (prefix_row a b) as (p & l & l' & r & -> & -> & Hp & Hl & Hr & Hlines & H16).
  exists p, l, l', r. split_and!; try done. by rewrite <- !app_assoc.
Qed.

Lemma point_utf16_to_offset_ok debug_assertions clip a b : Str.length_utf8 (a ++ b) <= MAX_BASE →
  point_utf16_to_offset debug_assertions (chunk_of (a ++ b)) (TextSummaryOps.lines_utf16 (from a)) clip = Some (Str.length_utf8 a).
Proof.
  destruct (utf16_row_at a b) as (p & l & l' & r & -> & -> & Hp & Hl & Hr & _ & ->). intros Hlen.
  rewrite (point_utf16_to_offset_row _ _ p (l ++ l') r) by done. cbn [column].
  by rewrite utf16_boundary_app, andb_false_r, utf16_floor_app, length_utf8_app.
Qed.

Lemma unclipped_point_ok a b : Str.length_utf8 (a ++ b) <= MAX_BASE →
  unclipped_point_utf16_to_point (chunk_of (a ++ b)) (mkUnclipped (TextSummaryOps.lines_utf16 (from a))) =
  Some (Text.lines (from a)).
Proof.
  destruct (utf16_row_at a b) as (p & l & l' & r & -> & -> & Hp & Hl & Hr & -> & ->). intros Hlen.
  rewrite (unclipped_point_row p (l ++ l') r) by done. cbn [row column]. by rewrite utf16_floor_app.
Qed.

(** At every character boundary of a chunk, the conversions between byte offsets, UTF-16 offsets,
    points and UTF-16 points give the measures of the text before the boundary, and converting
    back gives the boundary again. *)
Theorem chunk_offsets_roundtrip debug_assertions a b (Hlen : Str.length_utf8 (a ++ b) <= MAX_BASE) :
  let c := chunk_of (a ++ b) in
  offset_to_point c (tlen (from a)) = Some (Text.lines (from a)) ∧
  point_to_offset debug_assertions c (Text.lines (from a)) = Some (tlen (from a)) ∧
  offset_to_offset_utf16 c (tlen (from a)) = Text.len_utf16 (from a) ∧
  offset_utf16_to_offset c (Text.len_utf16 (from a)) = Some (tlen (from a)) ∧
  offset_to_point_utf16 c (tlen (from a)) = Some (TextSummaryOps.lines_utf16 (from a)) ∧
  point_utf16_to_offset debug_assertions c (TextSummaryOps.lines_utf16 (from a)) false = Some (tlen (from a)) ∧
  point_to_offset_utf16 debug_assertions c (Text.lines (from a)) = Some (Text.len_utf16 (from a)) ∧
  point_to_point_utf16 debug_assertions c (Text.lines (from a)) = Some (TextSummaryOps.lines_utf16 (from a)) ∧
  unclipped_point_utf16_to_point c (mkUnclipped (TextSummaryOps.lines_utf16 (from a))) =
    Some (Text.lines (from a)).
Proof.
  destruct (from_describes a) as [_ _ (-> & _ & ->) _ _]. cbn zeta.
  split_and!.
  - by apply offset_to_point_ok.
  - by apply point_to_offset_ok.
  - by apply offset_to_offset_utf16_ok.
  - by apply offset_utf16_to_offset_ok.
  - by apply offset_to_point_utf16_ok.
  - by apply point_utf16_to_offset_ok.
  - by apply point_to_offset_utf16_ok.
  - by apply point_to_point_utf16_ok.
  - by apply unclipped_point_ok.
Qed.

Lemma clip_offset_utf16_nearest s n bias : Str.length_utf8 s <= MAX_BASE →
  ∃ m, clip_offset_utf16 (chunk_of s) n bias = Some m ∧
       nearest (utf16_boundary s) bias (N.min n (Str.length_utf16 s)) m.
Proof.
  intros Hlen. destruct (N.le_gt_cases (Str.length_utf16 s) n) as [Hn|Hn].
  { exists (Str.length_utf16 s). rewrite clip_offset_utf16_past, N.min_r by done. split; [done|].
    apply nearest_here. rewrite <- (app_nil_r s) at 1. apply utf16_boundary_app. }
  rewrite N.min_l by lia.
  destruct (utf16_cut s n) as [(a & b & -> & <-)|(a & c & b & -> & Hc & <-)]; [lia| |].
  - exists (Str.length_utf16 a). rewrite clip_offset_utf16_cut by done. split; [done|].
    apply nearest_here, utf16_boundary_app.
  - eexists. split; [by apply clip_offset_utf16_mid|].
    pose proof (utf16_boundary_mid a c b Hc) as Hmid. destruct bias; split.
    + apply utf16_boundary_app.
    + split; [lia|]. intros j Hj. by replace j with (Str.length_utf16 a + 1) by lia.
    + destruct (utf16_marks_pair c Hc) as (_ & _ & H16).
      replace (Str.length_utf16 a + 2) with (Str.length_utf16 (a ++ [c]))
        by (rewrite length_utf16_app; cbn [Str.length_utf16]; lia).
      change (a ++ c :: b) with (a ++ [c] ++ b). rewrite app_assoc. apply utf16_boundary_app.
    + split; [lia|]. intros j Hj. by replace j with (Str.length_utf16 a + 1) by lia.
Qed.

(** The conversions of points outside the text. In a release build they clamp: for a row of the text, a byte
    column past the end of the row gives the end of the row, and a UTF-16 column is rounded down to the
    end of a character, within the row; for a row past the last one they give the end of the text. With
    debug assertions they panic there, unless the point is to be clipped. *)
Theorem chunk_points_clamp debug_assertions p l r (Hlen : Str.length_utf8 (p ++ l ++ r) <= MAX_BASE)
    (Hp : row_start p) (Hl : newlines_in l = 0) (Hr : row_end r) :
  let s := p ++ l ++ r in
  let c := chunk_of s in
  (∀ col, point_to_offset debug_assertions c (PointOps.new (newlines_in p) col) =
     if debug_assertions && (Str.length_utf8 l <? col) then None
     else Some (Str.length_utf8 p + N.min col (Str.length_utf8 l))) ∧
  (∀ col clip, point_utf16_to_offset debug_assertions c (PointOps.new (newlines_in p) col) clip =
     if debug_assertions && negb clip && negb (utf16_boundary l col) then None
     else Some (Str.length_utf8 p + utf16_floor l col)) ∧
  (∀ col, unclipped_point_utf16_to_point c (mkUnclipped (PointOps.new (newlines_in p) col)) =
     Some (PointOps.new (newlines_in p) (utf16_floor l col))) ∧
  (∀ past col, newlines_in s < past →
     point_to_offset debug_assertions c (PointOps.new past col) =
       (if debug_assertions then None else Some (Str.length_utf8 s)) ∧
     (∀ clip, point_utf16_to_offset debug_assertions c (PointOps.new past col) clip =
       if debug_assertions && negb clip then None else Some (Str.length_utf8 s)) ∧
     unclipped_point_utf16_to_point c (mkUnclipped (PointOps.new past col)) = Some (Text.lines (from s))).
Proof.
  cbn zeta. split_and!.
  - intros col. by rewrite (point_to_offset_row _ p l r).
  - intros col clip. by rewrite (point_utf16_to_offset_row _ _ p l r).
  - intros col. by rewrite (unclipped_point_row p l r).
  - intros past col Hpast. rewrite point_to_offset_past by done.
    split_and!; [done|intros clip; by rewrite point_utf16_to_offset_past|]. unfold unclipped_point_utf16_to_point. rewrite lines_ok by done.
    cbn [mbind option_bind unclipped PointOps.new row]. rewrite <- newlines_in_from.
    by destruct (N.ltb_spec (newlines_in (p ++ l ++ r)) past); [|lia].
Qed.

(** Clipping finds the nearest valid position in the direction of the bias: [clip_offset_utf16]
    and [clip_point_utf16] the nearest end of a character, and [clip_point], for any grapheme
    segmentation that keeps the rules of Unicode, the nearest character boundary that is also a
    grapheme boundary, within the row; the stepping loops end and never leave the text. *)
Theorem chunk_clips grapheme_boundary p l r bias (HG : GraphemeRules grapheme_boundary)
    (Hlen : Str.length_utf8 (p ++ l ++ r) <= MAX_BASE) (Hs : forallb is_scalar l = true)
    (Hp : row_start p) (Hl : newlines_in l = 0) (Hr : row_end r) :
  let c := chunk_of (p ++ l ++ r) in
  (∀ n, ∃ m, clip_offset_utf16 c n bias = Some m ∧
     nearest (utf16_boundary (p ++ l ++ r)) bias (N.min n (Str.length_utf16 (p ++ l ++ r))) m) ∧
  (∀ col, ∃ m, clip_point_utf16 c (mkUnclipped (PointOps.new (newlines_in p) col)) bias =
       Some (PointOps.new (newlines_in p) m) ∧
     nearest (utf16_boundary l) bias (N.min col (Str.length_utf16 l)) m) ∧
  (∀ col, ∃ k, clip_point grapheme_boundary c (PointOps.new (newlines_in p) col) bias =
       Some (PointOps.new (newlines_in p) k) ∧
     nearest (at_grapheme grapheme_boundary l) bias (N.min col (Str.length_utf8 l)) k).
Proof.
  cbn zeta. split_and!.
  - intros n. by apply clip_offset_utf16_nearest.
  - intros col. pose proof Hlen as Hlen'. rewrite !length_utf8_app in Hlen'.
    destruct (clip_offset_utf16_nearest l col bias) as (m & Hm & Hnear); [lia|].
    exists m. split; [|done]. by apply (clip_point_utf16_row p l r (PointOps.new (newlines_in p) col)).
  - intros col. apply (clip_point_row grapheme_boundary p l r (PointOps.new (newlines_in p) col)); done.
Qed.
End properties.

(** ** Samples *)

Module Chunking.

(** The text [hé😀⏎a⇥b], in which the characters take 1 to 4 bytes. *)
Definition head : str := [104; 233; 128512].
Definition tail : str := [10; 97; 9; 98].

Lemma simple_graphemes : GraphemeRules Str.is_char_boundary.
Proof.
  constructor; [apply boundary_0|apply boundary_len|].
  intros s i x y Hs _ _ Hy _ Hlt _. rewrite <- (byte_boundary s i y Hs Hy), is_utf8_char_boundary_spec.
  by destruct (N.ltb_spec y 128); [|lia].
Qed.

Example chunk_sample :
  new (head ++ tail) = Some (chunk_of (head ++ tail)) ∧
  bm_chars_utf16 (chunk_of (head ++ tail)) = 0x79B ∧ bm_newlines (chunk_of (head ++ tail)) = 0x80 ∧
  tab_positions 0 0 (head ++ tail) = [mkTabPosition 9 5].
Proof. by vm_compute. Qed.

Lemma chunk_holds_text_witness :
  push_str (chunk_of head) tail = Some (chunk_of (head ++ tail)) ∧
  split_at (chunk_of (head ++ tail)) 2 = None.
Proof.
  assert (forallb is_scalar head = true) as Ha by reflexivity.
  assert (forallb is_scalar tail = true) as Hb by reflexivity.
  assert (Str.length_utf8 (head ++ tail ++ []) <= MAX_BASE) as Hl by (vm_compute; discriminate).
  destruct (chunk_holds_text head tail [] Ha Hb Hl) as (_ & Hpush & _ & _ & _ & _ & _ & Hsplit & _).
  split; [exact Hpush|]. apply Hsplit; [discriminate|reflexivity].
Defined.

Lemma chunk_summarizes_witness :
  text_summary (chunk_of (head ++ tail)) = Some (from (head ++ tail)).
Proof.
  assert (Str.length_utf8 (head ++ tail) <= MAX_BASE) as Hl by (vm_compute; discriminate).
  destruct (chunk_summarizes (head ++ tail) Hl) as [Hs _]. exact Hs.
Defined.

Lemma chunk_offsets_roundtrip_witness :
  offset_utf16_to_offset (chunk_of (head ++ tail)) 4 = Some 7 ∧
  offset_to_point (chunk_of (head ++ tail)) 7 = Some (PointOps.new 0 7).
Proof.
  assert (Str.length_utf8 (head ++ tail) <= MAX_BASE) as Hl by (vm_compute; discriminate).
  destruct (chunk_offsets_roundtrip true head tail Hl) as (Hp & _ & _ & Ho & _).
  split; [exact Ho|exact Hp].
Defined.

Lemma chunk_points_clamp_witness :
  point_utf16_to_offset true (chunk_of (head ++ tail)) (PointOps.new 0 3) true = Some 3 ∧
  point_utf16_to_offset true (chunk_of (head ++ tail)) (PointOps.new 0 3) false = None.
Proof.
  assert (Str.length_utf8 ([] ++ head ++ tail) <= MAX_BASE) as Hl by (vm_compute; discriminate).
  assert (row_start []) as Hp by (left; reflexivity).
  assert (newlines_in head = 0) as Hn by reflexivity.
  assert (row_end tail) as Hr by (right; eexists; reflexivity).
  destruct (chunk_points_clamp true [] head tail Hl Hp Hn Hr) as (_ & H & _). split; [exact (H 3 true)|exact (H 3 false)].
Defined.

Lemma chunk_clips_witness :
  ∃ k, clip_point Str.is_char_boundary (chunk_of (head ++ tail)) (PointOps.new 0 5) BiasRight =
         Some (PointOps.new 0 k) ∧
       nearest (at_grapheme Str.is_char_boundary head) BiasRight 5 k.
Proof.
  assert (Str.length_utf8 ([] ++ head ++ tail) <= MAX_BASE) as Hl by (vm_compute; discriminate).
  assert (forallb is_scalar head = true) as Hs by reflexivity.
  assert (row_start []) as Hp by (left; reflexivity).
  assert (newlines_in head = 0) as Hn by reflexivity.
  assert (row_end tail) as Hr by (right; eexists; reflexivity).
  destruct (chunk_clips Str.is_char_boundary [] head tail BiasRight simple_graphemes Hl Hs Hp Hn Hr)
    as (_ & _ & H). exact (H 5).
Defined.

End Chunking.
