(* ===== verification/Rope.v ===== *)
(** * Ropes: [Rope] and [Cursor] of [crates/rope/src/rope.rs]

    A rope is a summed tree of chunks. The items of the tree are chunks with
    the invariant that their private fields keep (their bitmaps are those of
    their text), and its summaries are text summaries with the invariant of
    [Text.good]; with them the laws of the tree hold. [None] is a panic. *)

From S2P Require Import Prelude SumTree SumCursor CursorSpec CursorWalk Points Text Chunk.
Import NodeOps TreeOps PointOps.

#[local] Unset Default Proof Using.
#[local] Arguments Nat.mul : simpl never.
#[local] Open Scope N_scope.

(** ** Data *)

(** The invariant of [Chunk]. The text of a chunk is a [str], whose characters
    are scalar values. *)
Definition chunk_validb (c : Chunk) : bool := chunk_okb c && forallb is_scalar (text c).

(** An item of the tree. *)
Record Piece := mkPiece { chunk : Chunk; chunk_valid : chunk_validb chunk = true }.

(** Where an operation stores a chunk in the tree. The operations on chunks
    keep the invariant, so that this never fails: see [seal_ok]. *)
Definition seal (c : Chunk) : option Piece :=
  match bool_dec (chunk_validb c) true with
  | left valid => Some (mkPiece c valid)
  | right _ => None
  end.

(** The field [text] of the source is [stext] here. *)
Record ChunkSummary := mkChunkSummary { stext : TextSummary; stext_good : goodb stext = true }.

Lemma piece_ext p q : chunk p = chunk q → p = q.
Proof. destruct p as [c H], q as [c' H']. simpl. intros <-. f_equal. apply (proof_irrel H H'). Qed.
Lemma chunk_summary_ext s t : stext s = stext t → s = t.
Proof. destruct s as [s H], t as [s' H']. simpl. intros <-. f_equal. apply (proof_irrel H H'). Qed.

(** The text of a chunk. *)
Definition ptext (p : Piece) : str := text (chunk p).

Lemma piece_chunk p : chunk p = chunk_of (ptext p) ∧ Str.length_utf8 (ptext p) <= MAX_BASE ∧
  forallb is_scalar (ptext p) = true.
Proof.
  destruct p as [c Hv]. unfold ptext. simpl. unfold chunk_validb, chunk_okb in Hv.
  apply andb_true_iff in Hv as [[H1 H2]%andb_true_iff H3].
  apply bool_decide_eq_true in H1. apply N.leb_le in H2. done.
Qed.

Lemma piece_summary_ok p : ChunkOps.text_summary (chunk p) = Some (TextSummaryOps.from (ptext p)).
Proof. destruct (piece_chunk p) as (-> & H & _). by apply text_summary_ok. Qed.

Lemma piece_summary_good p s : ChunkOps.text_summary (chunk p) = Some s → goodb s = true.
Proof. rewrite piece_summary_ok. intros [= <-]. apply goodb_good, good_from. Qed.

Definition piece_summary (p : Piece) : ChunkSummary :=
  match ChunkOps.text_summary (chunk p) as o return ChunkOps.text_summary (chunk p) = o → ChunkSummary with
  | Some s => λ H, mkChunkSummary s (piece_summary_good p s H)
  | None => λ H, False_rect _ (eq_ind None (λ o, if o then False else True) I _
                                 (eq_trans (eq_sym H) (piece_summary_ok p)))
  end eq_refl.

Lemma chunk_summary_add_good (s t : ChunkSummary) :
  goodb (TextSummaryOps.add_assign (stext s) (stext t)) = true.
Proof. apply goodb_good, good_add; apply goodb_good, stext_good. Qed.

#[export] Instance chunk_summary : Summary ChunkSummary () := {|
  szero _ := mkChunkSummary TextSummaryOps.zero eq_refl;
  sadd _ s t := mkChunkSummary (TextSummaryOps.add_assign (stext s) (stext t))
                  (chunk_summary_add_good s t) |}.
#[export] Instance chunk_item : Item Piece ChunkSummary () := {| isummary _ := piece_summary |}.

(** *** Dimensions *)

(** [OffsetUtf16] of [offset_utf16.rs]. *)
Record OffsetUtf16 := mkOffsetUtf16 { units : N }.

Definition utf16_add (a b : OffsetUtf16) : OffsetUtf16 := mkOffsetUtf16 (units a + units b).
Definition utf16_sub (a b : OffsetUtf16) : option OffsetUtf16 :=
  mkOffsetUtf16 <$> usize_sub (units a) (units b).

(** [TextDimension]. *)
Class TextDimension (D : Type) := {
  td_zero : D;
  from_text_summary : TextSummary → D;
  from_chunk : ChunkSlice → option D;
  td_add : D → D → D }.

#[export] Instance text_summary_td : TextDimension TextSummary := {|
  td_zero := TextSummaryOps.zero;
  from_text_summary s := s;
  from_chunk := ChunkOps.text_summary;
  td_add := TextSummaryOps.add_assign |}.

#[export] Instance usize_td : TextDimension N := {|
  td_zero := 0;
  from_text_summary s := tlen s;
  from_chunk c := Some (ChunkOps.len c);
  td_add := N.add |}.

#[export] Instance offset_utf16_td : TextDimension OffsetUtf16 := {|
  td_zero := mkOffsetUtf16 0;
  from_text_summary s := mkOffsetUtf16 (Text.len_utf16 s);
  from_chunk c := Some (mkOffsetUtf16 (ChunkOps.len_utf16 c));
  td_add := utf16_add |}.

#[export] Instance point_td : TextDimension Point := {|
  td_zero := PointOps.zero;
  from_text_summary s := Text.lines s;
  from_chunk := ChunkOps.lines;
  td_add := PointOps.add |}.

#[export] Instance point_utf16_td : TextDimension PointUtf16 := {|
  td_zero := PointOps.zero;
  from_text_summary := TextSummaryOps.lines_utf16;
  from_chunk c := l ← ChunkOps.lines c; Some (mkPoint (row l) (ChunkOps.last_line_len_utf16 c));
  td_add := PointOps.add |}.

#[export] Instance pair_td {D1 D2} `{!TextDimension D1, !TextDimension D2} : TextDimension (D1 * D2) := {|
  td_zero := (td_zero, td_zero);
  from_text_summary s := (from_text_summary s, from_text_summary s);
  from_chunk c := d1 ← from_chunk c; d2 ← from_chunk c; Some (d1, d2);
  td_add d e := (td_add d.1 e.1, td_add d.2 e.2) |}.

(** [Dimension<ChunkSummary>]: each of the dimensions adds its part of the summary. *)
#[export] Instance text_dimension {D} `{!TextDimension D} : Dimension D ChunkSummary () | 10 := {|
  dzero _ := td_zero;
  dadd _ d s := td_add d (from_text_summary (stext s)) |}.

Record Rope := mkRope { chunks : Node Piece ChunkSummary }.

(** ** Operations *)

Module RopeOps.
Implicit Types (r : Rope) (s : str) (offset : N).

Definition new : Rope := mkRope (TreeOps.new ()).

Definition summary r : TextSummary := stext (NodeOps.summary (chunks r)).
Definition len r : N := extent () (chunks r).
Definition is_empty r : bool := len r =? 0.
Definition max_point r : Point := extent () (chunks r).
Definition max_point_utf16 r : PointUtf16 := extent () (chunks r).

(** *** Boundaries *)

Definition is_char_boundary r offset : option bool :=
  if NodeOps.is_empty (chunks r) then Some (offset =? 0)
  else
    let '(start, _, item) := find () (N.compare offset) BiasLeft (chunks r) in
    match item with
    | Some p => chunk_offset ← usize_sub offset start; Some (ChunkOps.is_char_boundary (chunk p) chunk_offset)
    | None => Some false
    end.

Definition floor_char_boundary r (index : N) : option N :=
  if len r <=? index then Some (len r)
  else
    let '(start, _, item) := find () (N.compare index) BiasLeft (chunks r) in
    chunk_offset ← usize_sub index start;
    Some match item with
         | Some p => start + Str.floor_char_boundary (ptext p) chunk_offset
         | None => len r
         end.

Definition ceil_char_boundary r (index : N) : option N :=
  if len r <? index then Some (len r)
  else
    let '(start, _, item) := find () (N.compare index) BiasLeft (chunks r) in
    chunk_offset ← usize_sub index start;
    Some match item with
         | Some p => start + Str.ceil_char_boundary (ptext p) chunk_offset
         | None => len r
         end.

Definition clip_offset r offset (bias : Bias) : option N :=
  match bias with
  | BiasLeft => floor_char_boundary r offset
  | BiasRight => ceil_char_boundary r offset
  end.

(** *** Growing *)

(** [SumTree::update_last] with a closure that also changes a variable [v] it
    has captured: the closure runs once, on the last chunk, if there is one. *)
Definition update_last_chunk {V} r (f : Chunk → V → option (Chunk * V)) (v : V) : option (Rope * V) :=
  last ← NodeOps.last (chunks r);
  match last with
  | Some p =>
      '(c, v) ← f (chunk p) v;
      p ← seal c;
      t ← update_last () (chunks r) (λ _, p);
      Some (mkRope t, v)
  | None => Some (r, v)
  end.

(** How much of a text of [text_len] bytes the last chunk takes. *)
Definition split_ix (boundary : N → bool) (last_len text_len : N) : option N :=
  if last_len + text_len <=? MAX_BASE then Some text_len
  else ChunkOps.step_to (N.to_nat MAX_BASE) boundary BiasRight (N.min (MIN_BASE - last_len) text_len).

(** The closures of [push] and of [push_chunk]. *)
Definition fill_last (last_chunk : Chunk) (text : str) : option (Chunk * str) :=
  ix ← split_ix (Str.is_char_boundary text) (ChunkOps.len last_chunk) (Str.length_utf8 text);
  '(suffix, remainder) ← Str.split_at text ix;
  last_chunk ← ChunkOps.push_str last_chunk suffix;
  Some (last_chunk, remainder).

Definition fill_last_chunk (last_chunk : Chunk) (c : ChunkSlice) : option (Chunk * ChunkSlice) :=
  ix ← split_ix (ChunkOps.is_char_boundary c) (ChunkOps.len last_chunk) (ChunkOps.len c);
  '(suffix, remainder) ← ChunkOps.split_at c ix;
  last_chunk ← ChunkOps.append last_chunk suffix;
  Some (last_chunk, remainder).

(** [while !text.is_empty()]: every turn takes at least one character. *)
Fixpoint cut_chunks (fuel : nat) (text : str) : option (list str) :=
  match text with
  | [] => Some []
  | _ =>
      match fuel with
      | O => None
      | Datatypes.S fuel =>
          ix ← ChunkOps.step_back (N.to_nat MAX_BASE) (Str.is_char_boundary text)
                 (N.min MAX_BASE (Str.length_utf8 text));
          '(chunk, remainder) ← Str.split_at text ix;
          new_chunks ← cut_chunks fuel remainder;
          Some (chunk :: new_chunks)
      end
  end.

Definition piece_new s : option Piece := c ← ChunkOps.new s; seal c.

Definition NUM_CHUNKS : N := 4.
Definition PARALLEL_THRESHOLD : N := 84 * (2 * N.of_nat TREE_BASE).

Definition push_large r (text : str) : option Rope :=
  new_chunks ← cut_chunks (length text) text;
  pieces ← mapM piece_new new_chunks;
  mkRope <$> (if PARALLEL_THRESHOLD <=? Prelude.len new_chunks then par_extend () (chunks r) pieces
              else extend () (chunks r) pieces).

(** [new_chunks] is a vector of capacity [NUM_CHUNKS]. *)
Definition push r (text : str) : option Rope :=
  '(r, text) ← update_last_chunk r fill_last text;
  if Str.length_utf8 text =? 0 then Some r
  else if NUM_CHUNKS * MAX_BASE - NUM_CHUNKS * 4 <? Str.length_utf8 text then push_large r text
  else
    new_chunks ← cut_chunks (length text) text;
    if Prelude.len new_chunks <=? NUM_CHUNKS then
      pieces ← mapM piece_new new_chunks;
      mkRope <$> extend () (chunks r) pieces
    else None.

Definition push_chunk r (c : ChunkSlice) : option Rope :=
  '(r, c) ← update_last_chunk r fill_last_chunk c;
  if ChunkOps.is_empty c then Some r
  else c ← ChunkOps.into_chunk c; p ← seal c; mkRope <$> TreeOps.push () (chunks r) p.

Definition append r (rope : Rope) : option Rope :=
  first ← NodeOps.first (chunks rope);
  last ← NodeOps.last (chunks r);
  match first with
  | Some p =>
      if match last with Some c => ChunkOps.len (chunk c) <? MIN_BASE | None => false end
         || (ChunkOps.len (chunk p) <? MIN_BASE) then
        r ← push_chunk r (chunk p);
        let c := CursorOps.new (D := ()) () (chunks rope) in
        c ← CursorOps.next () c;
        c ← CursorOps.next () c;
        '(suffix, _) ← CursorOps.suffix () c;
        mkRope <$> TreeOps.append () (chunks r) suffix
      else mkRope <$> TreeOps.append () (chunks r) (chunks rope)
  | None => mkRope <$> TreeOps.append () (chunks r) (chunks rope)
  end.

(** [From<&str>] and [FromIterator<&str>]. *)
Definition from (text : str) : option Rope := push new text.
Definition from_iter (iter : list str) : option Rope :=
  foldl (λ rope s, r ← rope; push r s) (Some new) iter.

Definition push_front r (text : str) : option Rope :=
  if Str.length_utf8 text =? 0 then Some r
  else if is_empty r then push r text
  else
    first ← NodeOps.first (chunks r);
    match first with
    | Some p =>
        if ChunkOps.len (chunk p) + Str.length_utf8 text <=? MAX_BASE then
          c ← ChunkOps.prepend_str (chunk p) text;
          p ← seal c;
          mkRope <$> update_first () (chunks r) (λ _, p)
        else rope ← from text; append rope r
    | None => rope ← from text; append rope r
    end.

(** *** Cursors *)

(** The record [Cursor] of [rope.rs]. *)
Record RopeCursor := mkRopeCursor {
  rope : Rope;
  cchunks : Cursor Piece ChunkSummary N;
  offset : N }.

Definition cursor r (offset : N) : option RopeCursor :=
  '(_, c) ← CursorOps.seek () (N.compare offset) BiasRight (CursorOps.new () (chunks r));
  Some (mkRopeCursor r c offset).

(** The two assertions of [seek_forward], [slice] and [summary]. *)
Definition in_bounds (c : RopeCursor) (end_offset : N) : bool :=
  (offset c <=? end_offset) && (end_offset <=? len (rope c)).

Definition seek_forward (c : RopeCursor) (end_offset : N) : option RopeCursor :=
  if in_bounds c end_offset then
    '(_, cs) ← CursorOps.seek_forward () (N.compare end_offset) BiasRight (cchunks c);
    Some (mkRopeCursor (rope c) cs end_offset)
  else None.

(** The part of the chunk under the cursor that [slice] and [summary] take. *)
Definition start_slice (c : RopeCursor) (end_offset : N) : option (option ChunkSlice) :=
  item ← CursorOps.item (cchunks c);
  match item with
  | Some start_chunk =>
      let start := CursorOps.start (cchunks c) in
      start_ix ← usize_sub (offset c) start;
      chunk_end ← CursorOps.end_ () (cchunks c);
      end_ix ← usize_sub (N.min end_offset chunk_end) start;
      Some <$> ChunkOps.slice (chunk start_chunk) (start_ix ..: end_ix)
  | None => Some None
  end.

(** The part of the chunk in which they end. *)
Definition end_slice (cs : Cursor Piece ChunkSummary N) (end_offset : N) : option (option ChunkSlice) :=
  item ← CursorOps.item cs;
  match item with
  | Some end_chunk =>
      end_ix ← usize_sub end_offset (CursorOps.start cs);
      Some <$> ChunkOps.slice (chunk end_chunk) (0 ..: end_ix)
  | None => Some None
  end.

Definition push_slice r (c : option ChunkSlice) : option Rope :=
  match c with Some c => push_chunk r c | None => Some r end.

Definition slice_cursor (c : RopeCursor) (end_offset : N) : option (Rope * RopeCursor) :=
  if in_bounds c end_offset then
    first ← start_slice c end_offset;
    slice ← push_slice new first;
    chunk_end ← CursorOps.end_ () (cchunks c);
    if chunk_end <? end_offset then
      cs ← CursorOps.next () (cchunks c);
      '(t, cs) ← CursorOps.slice () (N.compare end_offset) BiasRight cs;
      slice ← append slice (mkRope t);
      last ← end_slice cs end_offset;
      slice ← push_slice slice last;
      Some (slice, mkRopeCursor (rope c) cs end_offset)
    else Some (slice, mkRopeCursor (rope c) (cchunks c) end_offset)
  else None.

Definition add_slice {D} `{!TextDimension D} (d : D) (c : option ChunkSlice) : option D :=
  match c with Some c => e ← from_chunk c; Some (td_add d e) | None => Some d end.

Definition summary_cursor {D} `{!TextDimension D} (c : RopeCursor) (end_offset : N) :
    option (D * RopeCursor) :=
  if in_bounds c end_offset then
    first ← start_slice c end_offset;
    summary ← add_slice (td_zero : D) first;
    chunk_end ← CursorOps.end_ () (cchunks c);
    if chunk_end <? end_offset then
      cs ← CursorOps.next () (cchunks c);
      '(d, cs) ← CursorOps.summary () (N.compare end_offset) BiasRight cs;
      last ← end_slice cs end_offset;
      summary ← add_slice (td_add summary d) last;
      Some (summary, mkRopeCursor (rope c) cs end_offset)
    else Some (summary, mkRopeCursor (rope c) (cchunks c) end_offset)
  else None.

Definition suffix_cursor (c : RopeCursor) : option Rope := fst <$> slice_cursor c (len (rope c)).

Definition slice r (range : Range N) : option Rope :=
  c ← cursor r 0; c ← seek_forward c (start range); fst <$> slice_cursor c (stop range).

Definition replace r (range : Range N) (text : str) : option Rope :=
  c ← cursor r 0;
  '(prefix, c) ← slice_cursor c (start range);
  new_rope ← append new prefix;
  c ← seek_forward c (stop range);
  new_rope ← push new_rope text;
  suffix ← suffix_cursor c;
  append new_rope suffix.

(** *** Conversions *)

(** The common end of the conversions: the rest of the position is converted
    in the chunk that holds it. *)
Definition convert {A B} (sub : A → A → option A) (plus : B → B → B) (zero : B)
    (in_chunk : ChunkSlice → A → option B) (position : A) (start : A * B) (item : option Piece) : option B :=
  overshoot ← sub position start.1;
  inner ← (match item with Some p => in_chunk (chunk p) overshoot | None => Some zero end);
  Some (plus start.2 inner).

(** [find] by the first of two dimensions, and the same by a cursor. *)
Definition find_by {A B} `{!TextDimension A, !TextDimension B} (cmp : A → comparison) (bias : Bias) r :
    (A * B) * option Piece :=
  let '(start, _, item) := find () (λ d : A * B, cmp d.1) bias (chunks r) in (start, item).

Definition seek_by {A B} `{!TextDimension A, !TextDimension B} (cmp : A → comparison) (bias : Bias) r :
    option ((A * B) * option Piece) :=
  '(_, c) ← CursorOps.seek () (λ d : A * B, cmp d.1) bias (CursorOps.new () (chunks r));
  item ← CursorOps.item c;
  Some (CursorOps.start c, item).

Definition utf16_cmp (a b : OffsetUtf16) : comparison := units a ?= units b.
Definition is_ge (c : comparison) : bool := match c with Lt => false | _ => true end.

Definition offset_to_offset_utf16 r offset : option OffsetUtf16 :=
  if tlen (summary r) <=? offset then Some (mkOffsetUtf16 (Text.len_utf16 (summary r)))
  else
    let '(start, item) := find_by (N.compare offset) BiasLeft r in
    convert usize_sub utf16_add (mkOffsetUtf16 0)
      (λ c o, Some (mkOffsetUtf16 (ChunkOps.offset_to_offset_utf16 c o))) offset start item.

Definition offset_utf16_to_offset r (offset : OffsetUtf16) : option N :=
  if is_ge (utf16_cmp offset (mkOffsetUtf16 (Text.len_utf16 (summary r)))) then Some (tlen (summary r))
  else
    let '(start, item) := find_by (utf16_cmp offset) BiasLeft r in
    convert utf16_sub N.add 0 (λ c o, ChunkOps.offset_utf16_to_offset c (units o)) offset start item.

Definition offset_to_point r offset : option Point :=
  if tlen (summary r) <=? offset then Some (Text.lines (summary r))
  else
    let '(start, item) := find_by (N.compare offset) BiasLeft r in
    convert usize_sub add zero ChunkOps.offset_to_point offset start item.

Definition offset_to_point_utf16 r offset : option PointUtf16 :=
  if tlen (summary r) <=? offset then Some (TextSummaryOps.lines_utf16 (summary r))
  else
    let '(start, item) := find_by (N.compare offset) BiasLeft r in
    convert usize_sub add zero ChunkOps.offset_to_point_utf16 offset start item.

Definition point_to_point_utf16 (debug_assertions : bool) r (point : Point) : option PointUtf16 :=
  if is_ge (cmp point (Text.lines (summary r))) then Some (TextSummaryOps.lines_utf16 (summary r))
  else
    let '(start, item) := find_by (cmp point) BiasLeft r in
    convert sub add zero (ChunkOps.point_to_point_utf16 debug_assertions) point start item.

Definition point_utf16_to_point (debug_assertions : bool) r (point : PointUtf16) : option Point :=
  if is_ge (cmp point (TextSummaryOps.lines_utf16 (summary r))) then Some (Text.lines (summary r))
  else
    '(start, item) ← seek_by (cmp point) BiasLeft r;
    convert sub add zero
      (λ c overshoot, o ← ChunkOps.point_utf16_to_offset debug_assertions c overshoot false; ChunkOps.offset_to_point c o)
      point start item.

Definition point_to_offset (debug_assertions : bool) r (point : Point) : option N :=
  if is_ge (cmp point (Text.lines (summary r))) then Some (tlen (summary r))
  else
    let '(start, item) := find_by (cmp point) BiasLeft r in
    convert sub N.add 0 (ChunkOps.point_to_offset debug_assertions) point start item.

Definition point_to_offset_utf16 (debug_assertions : bool) r (point : Point) : option OffsetUtf16 :=
  if is_ge (cmp point (Text.lines (summary r))) then Some (mkOffsetUtf16 (Text.len_utf16 (summary r)))
  else
    '(start, item) ← seek_by (cmp point) BiasLeft r;
    convert sub utf16_add (mkOffsetUtf16 0)
      (λ c p, mkOffsetUtf16 <$> ChunkOps.point_to_offset_utf16 debug_assertions c p) point start item.

Definition point_utf16_to_offset_impl (debug_assertions : bool) r (point : PointUtf16) (clip : bool) : option N :=
  if is_ge (cmp point (TextSummaryOps.lines_utf16 (summary r))) then Some (tlen (summary r))
  else
    let '(start, item) := find_by (cmp point) BiasLeft r in
    convert sub N.add 0 (λ c p, ChunkOps.point_utf16_to_offset debug_assertions c p clip) point start item.

Definition point_utf16_to_offset (debug_assertions : bool) r (point : PointUtf16) : option N :=
  point_utf16_to_offset_impl debug_assertions r point false.

Definition unclipped_point_utf16_to_offset (debug_assertions : bool) r (point : Unclipped PointUtf16) : option N :=
  point_utf16_to_offset_impl debug_assertions r (unclipped point) true.

Definition point_utf16_to_offset_utf16_impl (debug_assertions : bool) r (point : PointUtf16) (clip : bool) :
    option OffsetUtf16 :=
  if is_ge (cmp point (TextSummaryOps.lines_utf16 (summary r)))
  then Some (mkOffsetUtf16 (Text.len_utf16 (summary r)))
  else
    '(start, item) ← seek_by (cmp point) BiasLeft r;
    convert sub utf16_add (mkOffsetUtf16 0)
      (λ c overshoot, o ← ChunkOps.point_utf16_to_offset debug_assertions c overshoot clip;
                      Some (mkOffsetUtf16 (ChunkOps.offset_to_offset_utf16 c o))) point start item.

Definition point_utf16_to_offset_utf16 (debug_assertions : bool) r (point : PointUtf16) : option OffsetUtf16 :=
  point_utf16_to_offset_utf16_impl debug_assertions r point false.

Definition unclipped_point_utf16_to_point r (point : Unclipped PointUtf16) : option Point :=
  if is_ge (cmp (unclipped point) (TextSummaryOps.lines_utf16 (summary r))) then Some (Text.lines (summary r))
  else
    let '(start, item) := find_by (cmp (unclipped point)) BiasLeft r in
    convert sub add zero (λ c p, ChunkOps.unclipped_point_utf16_to_point c (mkUnclipped p))
      (unclipped point) start item.

(** *** Clipping *)

Definition clip_offset_utf16 r (offset : OffsetUtf16) (bias : Bias) : option OffsetUtf16 :=
  let '(start, _, item) := find () (utf16_cmp offset) BiasRight (chunks r) in
  match item with
  | Some p =>
      overshoot ← utf16_sub offset start;
      o ← ChunkOps.clip_offset_utf16 (chunk p) (units overshoot) bias;
      Some (utf16_add start (mkOffsetUtf16 o))
  | None => Some (mkOffsetUtf16 (Text.len_utf16 (summary r)))
  end.

Definition clip_point (grapheme_boundary : str → N → bool) r (point : Point) (bias : Bias) : option Point :=
  let '(start, _, item) := find () (cmp point) BiasRight (chunks r) in
  match item with
  | Some p =>
      overshoot ← sub point start;
      p ← ChunkOps.clip_point grapheme_boundary (chunk p) overshoot bias;
      Some (add start p)
  | None => Some (Text.lines (summary r))
  end.

Definition clip_point_utf16 r (point : Unclipped PointUtf16) (bias : Bias) : option PointUtf16 :=
  let '(start, _, item) := find () (cmp (unclipped point)) BiasRight (chunks r) in
  match item with
  | Some p =>
      overshoot ← sub (unclipped point) start;
      p ← ChunkOps.clip_point_utf16 (chunk p) (mkUnclipped overshoot) bias;
      Some (add start p)
  | None => Some (TextSummaryOps.lines_utf16 (summary r))
  end.

Definition line_len (grapheme_boundary : str → N → bool) r (row : N) : option N :=
  column <$> clip_point grapheme_boundary r (PointOps.new row (u32_modulus - 1)) BiasLeft.

Definition slice_rows (debug_assertions : bool) r (range : Range N) : option Rope :=
  start ← point_to_offset debug_assertions r (PointOps.new (start range) 0);
  stop ← point_to_offset debug_assertions r (PointOps.new (stop range) 0);
  slice r (start ..: stop).

End RopeOps.
