(* ===== verification/RopeText.v ===== *)
(** * Ropes hold text: the editing operations of [crates/rope/src/rope.rs]

    A rope denotes the concatenation of the texts of its chunks. The operations
    keep the sizes of chunks that the code asserts in its tests, never panic on
    character boundaries within the text, and change the text as the operation
    on strings does. *)

From S2P Require Import Prelude SumTree SumCursor CursorSpec CursorWalk Points Text Chunk ChunkSpec Rope.
Import NodeOps TreeOps PointOps RopeOps.

#[local] Unset Default Proof Using.
#[local] Arguments Nat.mul : simpl never.
#[local] Arguments TextSummaryOps.from : simpl never.
#[local] Open Scope N_scope.

Implicit Types (r : Rope) (p : Piece) (l k : list Piece) (s : str).

(** ** What a rope denotes *)

Definition texts l : str := mjoin (ptext <$> l).
Definition rope_text r : str := texts (tree_items (chunks r)).

Lemma texts_app l k : texts (l ++ k) = texts l ++ texts k.
Proof. unfold texts. by rewrite fmap_app, join_app. Qed.
Lemma texts_cons p l : texts (p :: l) = ptext p ++ texts l.
Proof. done. Qed.
Lemma texts_one p : texts [p] = ptext p.
Proof. apply app_nil_r. Qed.

(** The text of a [str]. *)
Definition scalars s : Prop := forallb is_scalar s = true.

Lemma scalars_app a b : scalars (a ++ b) ↔ scalars a ∧ scalars b.
Proof. unfold scalars. by rewrite forallb_app, andb_true_iff. Qed.

Lemma scalars_texts l : scalars (texts l).
Proof.
  induction l as [|p l IH]; [done|]. rewrite texts_cons. apply scalars_app.
  split; [apply (piece_chunk p)|done].
Qed.

(** *** The sizes of chunks *)

(** The assertion of [check_invariants] on the chunks other than the last one. *)
Definition long s : Prop := MIN_BASE <= Str.length_utf8 s + 3.

Record sized l : Prop := {
  sized_nonempty : Forall (λ p, ptext p ≠ []) l;
  sized_long a p b : l = a ++ p :: b → b ≠ [] → long (ptext p) }.

Definition ends_long l : Prop := ∀ a p, l = a ++ [p] → long (ptext p).

Lemma sized_nil : sized [].
Proof. split; [done|]. by intros [|q a] p b. Qed.

Lemma sized_one p : ptext p ≠ [] → sized [p].
Proof. intros H. split; [by constructor|]. intros [|q [|q' a]] p' b; by intros [=]. Qed.

Lemma sized_app l k : sized l → sized k → (k ≠ [] → ends_long l) → sized (l ++ k).
Proof.
  intros [Hl1 Hl2] [Hk1 Hk2] Hlk. split; [by apply Forall_app|]. intros a p b Heq Hb.
  apply app_eq_app in Heq as (m & [[-> Hm]|[-> Hm]]).
  - destruct m as [|q m]; cbn [app] in Hm.
    + destruct k as [|q k]; [done|]. injection Hm as <- <-. by apply (Hk2 [] p b).
    + injection Hm as <- ->. destruct m as [|q m].
      * apply (Hlk Hb a p). done.
      * by apply (Hl2 a p (q :: m)).
  - by apply (Hk2 m p b).
Qed.

Lemma sized_app_inv l k : sized (l ++ k) → sized l ∧ sized k ∧ (k ≠ [] → ends_long l).
Proof.
  intros [[Hl Hk]%Forall_app H]. split_and!.
  - split; [done|]. intros a p b -> Hb. apply (H a p (b ++ k)); [by rewrite <- app_assoc|]. by destruct b.
  - split; [done|]. intros a p b -> Hb. apply (H (l ++ a) p b); [by rewrite <- app_assoc|done].
  - intros Hne a p ->. apply (H a p k); [by rewrite <- app_assoc|done].
Qed.

Record rope_ok r : Prop := {
  rope_tree : tree_ok () (chunks r);
  rope_sized : sized (tree_items (chunks r)) }.

(** A computation that returns a well-formed rope of the text [s]. *)
Definition holds (m : option Rope) s : Prop := returns m (λ r, rope_ok r ∧ rope_text r = s).

(** Cursors need a stack entry for every level of the tree. *)
Definition shallow r : Prop := (height (chunks r) < STACK_CAPACITY)%nat.

(** ** The laws of the tree *)

#[export] Instance chunk_summary_laws : SummaryLaws ChunkSummary () ().
Proof.
  split.
  - intros s. apply chunk_summary_ext. apply add_zero_summary_l, goodb_good, stext_good.
  - intros a b c. apply chunk_summary_ext. apply add_assoc_summary, goodb_good, stext_good.
Qed.

(** What a [TextDimension] promises: it measures text, measures add up, and the
    measure of a chunk can be computed from its bitmaps. *)
Class TextDimensionLaws (D : Type) `{!TextDimension D} : Prop := {
  td_zero_from : from_text_summary TextSummaryOps.zero =@{D} td_zero;
  td_from_add (s t : TextSummary) : good s → good t →
    from_text_summary (TextSummaryOps.add_assign s t) =@{D}
    td_add (from_text_summary s) (from_text_summary t);
  td_add_assoc (d : D) (s t : TextSummary) : good s → good t →
    td_add d (from_text_summary (TextSummaryOps.add_assign s t)) =
    td_add (td_add d (from_text_summary s)) (from_text_summary t);
  td_chunk s : Str.length_utf8 s <= MAX_BASE →
    from_chunk (chunk_of s) = Some (from_text_summary (TextSummaryOps.from s) : D) }.

#[export] Instance text_summary_td_laws : TextDimensionLaws TextSummary.
Proof.
  split; cbn [td_zero from_text_summary from_chunk td_add text_summary_td]; try done.
  - intros d s t Hs _. symmetry. by apply add_assoc_summary.
  - apply text_summary_ok.
Qed.

Lemma tlen_from s : tlen (TextSummaryOps.from s) = Str.length_utf8 s.
Proof. by destruct (from_describes s) as [_ _ (-> & _) _ _]. Qed.
Lemma len_utf16_from s : Text.len_utf16 (TextSummaryOps.from s) = Str.length_utf16 s.
Proof. by destruct (from_describes s) as [_ _ (_ & _ & ->) _ _]. Qed.

#[export] Instance usize_td_laws : TextDimensionLaws N.
Proof.
  split; cbn [td_zero from_text_summary from_chunk td_add usize_td]; try done.
  - intros s t _ _. by destruct (add_fields s t) as (-> & _).
  - intros d s t _ _. destruct (add_fields s t) as (-> & _). lia.
Qed.

#[export] Instance offset_utf16_td_laws : TextDimensionLaws OffsetUtf16.
Proof.
  split; cbn [td_zero from_text_summary from_chunk td_add offset_utf16_td]; unfold utf16_add; cbn [units].
  - done.
  - intros s t _ _. by destruct (add_fields s t) as (_ & _ & -> & _).
  - intros d s t _ _. destruct (add_fields s t) as (_ & _ & -> & _). f_equal. lia.
  - intros s _. by rewrite len_utf16_ok, len_utf16_from.
Qed.

#[export] Instance point_td_laws : TextDimensionLaws Point.
Proof.
  split; cbn [td_zero from_text_summary from_chunk td_add point_td].
  - done.
  - intros s t _ _. by destruct (add_fields s t) as (_ & _ & _ & -> & _).
  - intros d s t _ _. destruct (add_fields s t) as (_ & _ & _ & -> & _). symmetry. apply add_assoc.
  - apply lines_ok.
Qed.

Lemma lines_utf16_add (s t : TextSummary) :
  TextSummaryOps.lines_utf16 (TextSummaryOps.add_assign s t) =
  add (TextSummaryOps.lines_utf16 s) (TextSummaryOps.lines_utf16 t).
Proof.
  unfold TextSummaryOps.lines_utf16.
  destruct (add_fields s t) as (_ & _ & _ & -> & _ & _ & ->). rewrite add_row.
  unfold add, new. cbn [row column].
  destruct (N.eqb_spec (row (Text.lines t)) 0) as [->|]; [by rewrite N.add_0_r|done].
Qed.

#[export] Instance point_utf16_td_laws : TextDimensionLaws PointUtf16.
Proof.
  split; cbn [td_zero from_text_summary from_chunk td_add point_utf16_td].
  - done.
  - intros s t _ _. apply lines_utf16_add.
  - intros d s t _ _. rewrite lines_utf16_add. symmetry. apply add_assoc.
  - intros s Hs. by rewrite lines_ok, last_line_len_utf16_ok.
Qed.

#[export] Instance pair_td_laws {D1 D2} `{TextDimensionLaws D1, TextDimensionLaws D2} :
  TextDimensionLaws (D1 * D2).
Proof.
  split; cbn [td_zero from_text_summary from_chunk td_add pair_td fst snd].
  - by rewrite !td_zero_from.
  - intros s t Hs Ht. by rewrite !td_from_add.
  - intros d s t Hs Ht. by rewrite !td_add_assoc.
  - intros s Hs. by rewrite !td_chunk.
Qed.

Section dimensions.
Context {D : Type} `{TextDimensionLaws D}.

#[export] Instance text_dimension_laws : DimensionLaws D ChunkSummary () ().
Proof.
  split; [split|]; cbn [dadd dzero text_dimension].
  - intros d a b. apply td_add_assoc; apply goodb_good, stext_good.
  - cbn [szero chunk_summary stext]. rewrite <- td_zero_from, <- td_from_add by apply good_zero.
    f_equal.
Qed.

(** The measure of a text. *)
Definition measure s : D := from_text_summary (TextSummaryOps.from s).

Lemma measure_nil : measure [] = td_zero.
Proof. apply td_zero_from. Qed.

Lemma measure_app a b : measure (a ++ b) = td_add (measure a) (measure b).
Proof. unfold measure. rewrite from_app. apply td_from_add; apply good_from. Qed.

Lemma stext_piece p : stext (piece_summary p) = TextSummaryOps.from (ptext p).
Proof.
  unfold piece_summary. generalize (piece_summary_good p), (piece_summary_ok p).
  intros Hg Hok. destruct (ChunkOps.text_summary (chunk p)); [|done]. simpl. congruence.
Qed.

(** The position after some chunks is the measure of their text. *)
Lemma posn_texts l : posn () (td_zero : D) l = measure (texts l).
Proof.
  induction l as [|p l IH] using rev_ind; [symmetry; apply measure_nil|].
  rewrite posn_snoc, IH, texts_app, measure_app, texts_one. cbn [dadd text_dimension isummary chunk_item].
  by rewrite stext_piece.
Qed.
End dimensions.

(** ** Storing chunks *)

Lemma seal_ok s : scalars s → Str.length_utf8 s <= MAX_BASE →
  ∃ p, seal (chunk_of s) = Some p ∧ chunk p = chunk_of s ∧ ptext p = s.
Proof.
  intros Hs Hlen. assert (chunk_validb (chunk_of s) = true) as Hv.
  { unfold chunk_validb, chunk_okb. cbn [chunk_of text ChunkOps.len].
    rewrite bool_decide_true by done. apply andb_true_iff. split; [by apply N.leb_le|exact Hs]. }
  unfold seal. destruct (bool_dec _ true) as [H|]; [|done]. by eexists.
Qed.

Lemma piece_new_ok s : scalars s → Str.length_utf8 s <= MAX_BASE →
  ∃ p, piece_new s = Some p ∧ ptext p = s.
Proof.
  intros Hs Hlen. unfold piece_new. rewrite new_ok by done. cbn [mbind option_bind].
  destruct (seal_ok s Hs Hlen) as (p & -> & _ & Hp). by exists p.
Qed.

Lemma pieces_new_ok (ss : list str) : Forall (λ s, scalars s ∧ Str.length_utf8 s <= MAX_BASE) ss →
  ∃ l, mapM piece_new ss = Some l ∧ ptext <$> l = ss.
Proof.
  induction 1 as [|s ss [Hs Hlen] _ (l & Hl & <-)]; [by exists []|].
  destruct (piece_new_ok s Hs Hlen) as (p & Hp & <-). exists (p :: l). simpl. by rewrite Hp, Hl.
Qed.

Lemma rope_last_ok r : tree_ok () (chunks r) →
  NodeOps.last (chunks r) = Some (list.last (tree_items (chunks r))).
Proof. apply (SumTree.last_ok ()). Qed.

Lemma update_last_chunk_nil {V} r (f : Chunk → V → option (Chunk * V)) v :
  tree_ok () (chunks r) → tree_items (chunks r) = [] → update_last_chunk r f v = Some (r, v).
Proof. intros Hok Hl. unfold update_last_chunk. by rewrite rope_last_ok, Hl. Qed.

Lemma update_last_chunk_snoc {V} r (f : Chunk → V → option (Chunk * V)) v v' l p s :
  tree_ok () (chunks r) → tree_items (chunks r) = l ++ [p] →
  f (chunk p) v = Some (chunk_of s, v') → scalars s → Str.length_utf8 s <= MAX_BASE →
  returns (update_last_chunk r f v) (λ '(r', w), w = v' ∧ tree_ok () (chunks r') ∧
    ∃ q, tree_items (chunks r') = l ++ [q] ∧ ptext q = s).
Proof.
  intros Hok Hl Hf Hs Hlen. unfold update_last_chunk. rewrite rope_last_ok, Hl, last_snoc by done.
  cbn [mbind option_bind]. rewrite Hf. cbn [mbind option_bind].
  destruct (seal_ok s Hs Hlen) as (q & -> & _ & Hq). cbn [mbind option_bind].
  eapply returns_bind; [by apply (update_last_ok () _ (λ _, q) l p)|].
  intros t [Ht Hi]. apply returns_ret. split_and!; [done|done|]. by exists q.
Qed.

(** A character has at most four bytes. *)
Lemma ceil_near s (i : N) : Str.ceil_char_boundary s i <= i + 3.
Proof.
  revert i. induction s as [|c s IH]; intros i; simpl; destruct (N.eqb_spec i 0); try lia.
  pose proof (len_utf8_bounds c). destruct (N.le_gt_cases (Str.len_utf8 c) i).
  - specialize (IH (i - Str.len_utf8 c)). lia.
  - replace (i - Str.len_utf8 c) with 0 by lia.
    replace (Str.ceil_char_boundary s 0) with 0 by (by destruct s). lia.
Qed.

Lemma floor_near s (i : N) : i <= Str.length_utf8 s → i <= Str.floor_char_boundary s i + 3.
Proof.
  revert i. induction s as [|c s IH]; intros i Hi; simpl in *; [lia|].
  pose proof (len_utf8_bounds c). destruct (N.leb_spec (Str.len_utf8 c) i); [|lia].
  specialize (IH (i - Str.len_utf8 c)). lia.
Qed.

(** What the last chunk takes: all, or enough to reach [MIN_BASE]. *)
Lemma split_ix_ok s boundary (n : N) : n <= MAX_BASE →
  (∀ i, i < u32_modulus → boundary i = Str.is_char_boundary s i) →
  ∃ u w, s = u ++ w ∧ split_ix boundary n (Str.length_utf8 s) = Some (Str.length_utf8 u) ∧
    n + Str.length_utf8 u <= MAX_BASE ∧
    (w = [] ∨ MIN_BASE <= n + Str.length_utf8 u ∧ (u = [] ∨ long w)).
Proof.
  intros Hn Hb. unfold split_ix, long. change MIN_BASE with 64. unfold MAX_BASE in *.
  destruct (N.leb_spec (n + Str.length_utf8 s) 128).
  { exists s, []. rewrite app_nil_r. split_and!; [done|done|done|by left]. }
  remember (N.min (64 - n) (Str.length_utf8 s)) as o eqn:Ho.
  pose proof (ceil_near s o). pose proof (ceil_ge s o ltac:(lia)).
  assert (o = 0 → Str.ceil_char_boundary s o = 0) as Hz by (intros ->; by destruct s).
  destruct (step_to_right boundary (N.to_nat 128) o (Str.ceil_char_boundary s o)) as (k & Hk & Hbk & Hok & _);
    [rewrite Hb by (unfold u32_modulus; lia); apply ceil_boundary|done|lia|].
  rewrite Hb in Hbk by (unfold u32_modulus; lia). destruct (boundary_cut _ _ Hbk) as (u & w & -> & <- & _).
  exists u, w. rewrite length_utf8_app in *. split_and!; [done|done|lia|]. right. split; [lia|].
  destruct u as [|c u]; [by left|]. right. cbn [Str.length_utf8] in *. pose proof (len_utf8_bounds c). lia.
Qed.

Lemma fill_last_ok a s : scalars s → Str.length_utf8 a <= MAX_BASE →
  ∃ u w, s = u ++ w ∧ fill_last (chunk_of a) s = Some (chunk_of (a ++ u), w) ∧
    Str.length_utf8 (a ++ u) <= MAX_BASE ∧
    (w = [] ∨ MIN_BASE <= Str.length_utf8 (a ++ u) ∧ (u = [] ∨ long w)).
Proof.
  intros Hs Ha. destruct (split_ix_ok s (Str.is_char_boundary s) (Str.length_utf8 a) Ha) as
    (u & w & -> & Hix & Hlen & Hw); [done|].
  exists u, w. apply scalars_app in Hs as [Hu _]. rewrite length_utf8_app. split_and!; [done| |done|done].
  unfold fill_last, ChunkOps.len. cbn [chunk_of text]. rewrite Hix. cbn [mbind option_bind].
  rewrite split_at_app. cbn [mbind option_bind]. unfold ChunkOps.push_str.
  rewrite new_ok by (done || lia). cbn [mbind option_bind].
  by rewrite chunk_append_ok by by rewrite length_utf8_app.
Qed.

Lemma fill_last_chunk_ok a s : Str.length_utf8 s <= MAX_BASE → Str.length_utf8 a <= MAX_BASE →
  ∃ u w, s = u ++ w ∧ fill_last_chunk (chunk_of a) (chunk_of s) = Some (chunk_of (a ++ u), chunk_of w) ∧
    Str.length_utf8 (a ++ u) <= MAX_BASE ∧
    (w = [] ∨ MIN_BASE <= Str.length_utf8 (a ++ u) ∧ (u = [] ∨ long w)).
Proof.
  intros Hs Ha.
  destruct (split_ix_ok s (ChunkOps.is_char_boundary (chunk_of s)) (Str.length_utf8 a) Ha) as
    (u & w & -> & Hix & Hlen & Hw); [intros i; by apply is_char_boundary_ok|].
  exists u, w. rewrite length_utf8_app. split_and!; [done| |done|done].
  unfold fill_last_chunk, ChunkOps.len. cbn [chunk_of text]. rewrite Hix. cbn [mbind option_bind].
  rewrite split_at_ok by done. cbn [mbind option_bind].
  by rewrite chunk_append_ok by by rewrite length_utf8_app.
Qed.

(** ** Pushing *)

Lemma rope_ok_cases r : rope_ok r →
  tree_items (chunks r) = [] ∨ ∃ l p, tree_items (chunks r) = l ++ [p] ∧ sized l ∧ ends_long l ∧ ptext p ≠ [].
Proof.
  intros [_ Hs]. destruct (tree_items (chunks r)) as [|p l _] using rev_ind; [by left|]. right. exists l, p.
  apply sized_app_inv in Hs as (Hl & [Hp _] & Hlong). rewrite Forall_singleton in Hp.
  split_and!; [done|done|by apply Hlong|exact Hp].
Qed.

(** After filling the last chunk of a rope: all of [s] is stored, or a rest [w]
    is left and the last chunk is long. *)
Lemma filled_ok {V} r (f : Chunk → V → option (Chunk * V)) (v : V) (rest : str → V) s :
  rope_ok r → scalars s → v = rest s →
  (∀ a, Str.length_utf8 a <= MAX_BASE → ∃ u w, s = u ++ w ∧
    f (chunk_of a) v = Some (chunk_of (a ++ u), rest w) ∧ Str.length_utf8 (a ++ u) <= MAX_BASE ∧
    (w = [] ∨ MIN_BASE <= Str.length_utf8 (a ++ u) ∧ (u = [] ∨ long w))) →
  returns (update_last_chunk r f v) (λ '(r', v'), ∃ u w, s = u ++ w ∧ v' = rest w ∧ rope_ok r' ∧
    rope_text r' = rope_text r ++ u ∧
    (w ≠ [] → ends_long (tree_items (chunks r')) ∧ (u = [] ∨ long w)) ∧
    (w = [] → u ≠ [] → long s → ends_long (tree_items (chunks r')))).
Proof.
  intros Hok Hs -> Hf. pose proof Hok as [Ht Hz].
  destruct (rope_ok_cases r Hok) as [Hl|(l & p & Hl & Hsl & Hel & Hp)].
  - rewrite update_last_chunk_nil by done. apply returns_ret. exists [], s.
    rewrite app_nil_r. split_and!; [done..| |by intros _ []].
    intros _. split; [|by left]. rewrite Hl. by intros [|q a] q' Heq.
  - destruct (piece_chunk p) as (Hc & Hlen & Hsc). destruct (Hf _ Hlen) as (u & w & -> & Hfu & Hau & Hw).
    apply scalars_app in Hs as [Hu _]. rewrite <- Hc in Hfu.
    eapply returns_mono; [eapply (update_last_chunk_snoc r f _ (rest w) l p); [done|done|exact Hfu| |done]|].
    { by apply scalars_app. }
    intros [r' v'] (-> & Ht' & q & Hq & Hqt). exists u, w.
    assert (∀ b c, l ++ [q] = b ++ [c] → c = q) as Hlast by (intros b c [_ [=]]%app_inj_2; done).
    split_and!; [done|done| | | |].
    + split; [done|]. rewrite Hq. apply sized_app; [done| |done]. apply sized_one.
      rewrite Hqt. by destruct (ptext p).
    + unfold rope_text. by rewrite Hq, Hl, !texts_app, !texts_one, Hqt, app_assoc.
    + intros Hne. destruct Hw as [->|[H64 Hw]]; [done|]. split; [|done].
      intros b c Heq. rewrite Hq in Heq. rewrite (Hlast b c Heq), Hqt. unfold long. lia.
    + intros -> Hne Hlong b c Heq. rewrite Hq in Heq. rewrite (Hlast b c Heq), Hqt.
      rewrite app_nil_r in Hlong. unfold long in *. rewrite length_utf8_app. lia.
Qed.

(** A longer rope: the items [l] are pushed after a rope whose last chunk is long. *)
Lemma extended_ok r l t : rope_ok r → sized l → (l ≠ [] → ends_long (tree_items (chunks r))) →
  tree_ok () t → tree_items t = tree_items (chunks r) ++ l →
  rope_ok (mkRope t) ∧ rope_text (mkRope t) = rope_text r ++ texts l.
Proof.
  intros [_ Hr] Hl Hlong Ht Hi. unfold rope_text. cbn [chunks]. rewrite Hi, texts_app.
  split; [|done]. split; cbn [chunks]; [done|]. rewrite Hi. by apply sized_app.
Qed.

Lemma ends_long_one l p : ends_long (l ++ [p]) ↔ long (ptext p).
Proof.
  split; [intros H; by apply (H l p)|]. intros H b c [_ [= ->]]%app_inj_2; done.
Qed.

(** A chunk that is long makes the rope end long. *)
Lemma push_chunk_ok r s : rope_ok r → scalars s → Str.length_utf8 s <= MAX_BASE →
  returns (push_chunk r (chunk_of s)) (λ r', rope_ok r' ∧ rope_text r' = rope_text r ++ s ∧
    (long s → ends_long (tree_items (chunks r')))).
Proof.
  intros Hok Hs Hlen. unfold push_chunk. eapply returns_bind.
  { apply (filled_ok r fill_last_chunk (chunk_of s) chunk_of s Hok Hs eq_refl).
    intros a Ha. by apply fill_last_chunk_ok. }
  intros [r1 c] (u & w & -> & -> & Hr1 & Htext & Hw & Hu).
  unfold ChunkOps.is_empty. cbn [chunk_of text].
  destruct (N.eqb_spec (Str.length_utf8 w) 0) as [E|E].
  - apply length_utf8_zero in E as ->. rewrite app_nil_r in *. apply returns_ret.
    split_and!; [done|done|]. intros Hlong. apply Hu; [done|by intros ->|done].
  - assert (w ≠ []) as Hwn by (by intros ->). destruct (Hw Hwn) as [Hend Hlong].
    apply scalars_app in Hs as [_ Hsw]. rewrite length_utf8_app in Hlen.
    unfold ChunkOps.into_chunk. cbn [chunk_of text].
    destruct (N.leb_spec (Str.length_utf8 w) MAX_BASE); [|lia]. cbn [mbind option_bind].
    destruct (seal_ok w Hsw ltac:(lia)) as (q & Hq & _ & Hqt). rewrite Hq. cbn [mbind option_bind].
    eapply returns_fmap, returns_mono; [by apply (push_ok ()), Hr1|].
    intros t [Ht Hi]. destruct (extended_ok r1 [q] t) as [Hok' Htext']; [done| |done|done|done|].
    { apply sized_one. by rewrite Hqt. }
    split_and!; [done| |].
    + by rewrite Htext', Htext, texts_one, Hqt, app_assoc.
    + intros Hs'. cbn [chunks]. rewrite Hi. apply ends_long_one. rewrite Hqt.
      destruct Hlong as [-> |]; [exact Hs'|done].
Qed.

(** *** Cutting a text into chunks *)

Lemma step_back_floor s (o : N) : o <= MAX_BASE →
  ChunkOps.step_back (N.to_nat MAX_BASE) (Str.is_char_boundary s) o = Some (Str.floor_char_boundary s o).
Proof.
  intros Ho. assert (∀ fuel b i, ChunkOps.step_back fuel b i = ChunkOps.step_to fuel b BiasLeft i) as ->.
  { induction fuel as [|fuel IH]; intros b i; cbn [ChunkOps.step_back ChunkOps.step_to]; [done|].
    destruct (b i); [done|]. destruct (usize_sub i 1); [apply IH|done]. }
  destruct (step_to_left (Str.is_char_boundary s) (N.to_nat MAX_BASE) o) as (k & -> & Hb & Hk & Hmax);
    [apply boundary_0|lia|].
  f_equal. pose proof (floor_greatest s o k Hb Hk). pose proof (floor_le s o).
  destruct (N.eq_dec k (Str.floor_char_boundary s o)); [done|].
  specialize (Hmax (Str.floor_char_boundary s o) ltac:(lia)). by rewrite floor_boundary in Hmax.
Qed.

(** The chunks of a text: each is filled up to a character boundary. *)
Record cut_well (ss : list str) : Prop := {
  cut_fits : Forall (λ s, s ≠ [] ∧ scalars s ∧ Str.length_utf8 s <= MAX_BASE) ss;
  cut_full a s b : ss = a ++ s :: b → b ≠ [] → MAX_BASE <= Str.length_utf8 s + 3 }.

Lemma cut_chunks_ok fuel s : scalars s → (length s ≤ fuel)%nat →
  ∃ ss, cut_chunks fuel s = Some ss ∧ mjoin ss = s ∧ cut_well ss.
Proof.
  revert s. induction fuel as [|fuel IH]; intros s Hs Hfuel;
    (destruct s as [|c s]; [exists []; split_and!; [done|done|split; [done|by intros [|??] ??]]|]);
    [simpl in Hfuel; lia|].
  cbn [cut_chunks]. pose proof (len_utf8_bounds c) as Hc. set (s' := c :: s) in *.
  assert (Str.len_utf8 c <= Str.length_utf8 s') as Hc' by (subst s'; cbn [Str.length_utf8]; lia).
  set (o := N.min MAX_BASE (Str.length_utf8 s')).
  assert (o <= MAX_BASE ∧ o <= Str.length_utf8 s') as [Ho1 Ho2] by (subst o; lia).
  rewrite step_back_floor by done. cbn [mbind option_bind].
  pose proof (floor_near s' o Ho2) as Hnear. pose proof (floor_le s' o) as Hle.
  destruct (boundary_cut _ _ (floor_boundary s' o)) as (u & w & Hs' & Hu & Hsplit).
  rewrite Hsplit. cbn [mbind option_bind].
  assert (u ≠ []) as Hne.
  { intros ->. cbn [Str.length_utf8] in Hu.
    assert (Str.is_char_boundary s' (Str.len_utf8 c) = true) as Hb.
    { pose proof (boundary_app [c] s) as Hb. cbn [Str.length_utf8] in Hb. by rewrite N.add_0_r in Hb. }
    pose proof (floor_greatest s' o _ Hb) as Hg. unfold o, MAX_BASE in *. lia. }
  rewrite Hs' in Hs, Hfuel. apply scalars_app in Hs as [Hsu Hsw].
  rewrite length_app in Hfuel.
  destruct (IH w) as (ss & -> & <- & [Hf Hl]); [done|destruct u; [done|simpl in Hfuel; lia]|].
  exists (u :: ss). cbn [mbind option_bind]. split_and!; [done|done|]. split.
  - constructor; [|done]. split_and!; [done|done|lia].
  - intros [|v a] t b Heq Hb; cbn [app] in Heq.
    + injection Heq as -> ->. rewrite Hu. destruct b as [|x b]; [done|].
      apply Forall_cons in Hf as [(Hx & _) _].
      assert (o ≠ Str.length_utf8 s') as Hlt.
      { intros E. rewrite E, (floor_id s') in Hu by apply boundary_len.
        rewrite Hs', length_utf8_app in Hu. cbn [mjoin list_join] in Hu. rewrite length_utf8_app in Hu.
        assert (Str.length_utf8 x = 0) as Hx0 by lia. by apply length_utf8_zero in Hx0. }
      subst o. lia.
    + injection Heq as <- ->. by apply (Hl a t b).
Qed.

Lemma cut_count (ss : list str) : cut_well ss →
  125 * (Prelude.len ss - 1) <= Str.length_utf8 (mjoin ss) ∧ (ss ≠ [] → 125 * (Prelude.len ss - 1) < Str.length_utf8 (mjoin ss)).
Proof.
  induction ss as [|s ss IH]; intros [Hf Hl]; [done|]. change (mjoin (s :: ss)) with (s ++ mjoin ss). rewrite length_utf8_app, len_cons.
  apply Forall_cons in Hf as [(Hs & _) Hf]. assert (cut_well ss) as Hw.
  { split; [done|]. intros a t b -> Hb. by apply (Hl (s :: a) t b). }
  destruct (IH Hw) as [IH1 IH2]. destruct ss as [|x ss].
  - destruct s as [|c s]; [done|]. cbn [Str.length_utf8]. pose proof (len_utf8_bounds c).
    change (Prelude.len []) with 0. split; [lia|intros _; lia].
  - pose proof (Hl [] s (x :: ss) eq_refl ltac:(done)) as Hs128. unfold MAX_BASE in Hs128.
    specialize (IH2 ltac:(done)). rewrite len_cons in *. split; [lia|intros _; lia].
Qed.

(** Pushing the chunks of the text [s] after a rope whose last chunk is long. *)
Lemma push_pieces_ok r (ss : list str) (grow : Node Piece ChunkSummary → list Piece → option (Node Piece ChunkSummary)) :
  rope_ok r → cut_well ss → (ss ≠ [] → ends_long (tree_items (chunks r))) →
  (∀ t l, tree_ok () t → returns (grow t l) (λ u, tree_ok () u ∧ tree_items u = tree_items t ++ l)) →
  holds (pieces ← mapM piece_new ss; mkRope <$> grow (chunks r) pieces) (rope_text r ++ mjoin ss).
Proof.
  intros Hok [Hf Hfull] Hlong Hgrow.
  destruct (pieces_new_ok ss) as (l & -> & Hl); [by eapply Forall_impl; [exact Hf|]; intros s (_ & ? & ?)|].
  cbn [mbind option_bind]. eapply returns_fmap, returns_mono; [apply Hgrow, Hok|].
  intros t [Ht Hi]. unfold texts in *. rewrite <- Hl. apply (extended_ok r l t); [done| | |done|done].
  - split.
    + apply Forall_forall. intros p Hp. rewrite Forall_forall in Hf.
      apply (Hf (ptext p)). rewrite <- Hl. by apply list_elem_of_fmap_2.
    + intros a p b -> Hb. rewrite fmap_app, fmap_cons in Hl.
      specialize (Hfull (ptext <$> a) (ptext p) (ptext <$> b) (eq_sym Hl)).
      unfold long. change MIN_BASE with 64. change MAX_BASE with 128 in Hfull.
      assert (ptext <$> b ≠ []) as Hbn by (by destruct b). specialize (Hfull Hbn). lia.
  - intros Hne. apply Hlong. by destruct l, ss.
Qed.

Lemma push_large_ok r s : rope_ok r → scalars s → (s ≠ [] → ends_long (tree_items (chunks r))) →
  holds (push_large r s) (rope_text r ++ s).
Proof.
  intros Hok Hs Hlong. unfold push_large.
  destruct (cut_chunks_ok (length s) s Hs) as (ss & -> & <- & Hw); [done|]. cbn [mbind option_bind].
  assert (ss ≠ [] → ends_long (tree_items (chunks r))) as Hlong'.
  { intros Hne. apply Hlong. destruct Hw as [Hf _]. destruct ss as [|x ss]; [done|].
    apply Forall_cons in Hf as [(Hx & _) _]. cbn [mjoin list_join]. by destruct x. }
  destruct (_ <=? _).
  - by apply (push_pieces_ok r ss (par_extend ())); [..|apply (par_extend_ok ())].
  - by apply (push_pieces_ok r ss (extend ())); [..|apply (extend_ok ())].
Qed.

Lemma rope_push_ok r s : rope_ok r → scalars s → holds (push r s) (rope_text r ++ s).
Proof.
  intros Hok Hs. unfold push. eapply returns_bind.
  { apply (filled_ok r fill_last s (λ s, s) s Hok Hs eq_refl). intros a Ha. by apply fill_last_ok. }
  intros [r1 s'] (u & w & -> & -> & Hr1 & Htext & Hw & _). apply scalars_app in Hs as [_ Hsw].
  destruct (N.eqb_spec (Str.length_utf8 w) 0) as [E|E].
  { apply length_utf8_zero in E as ->. rewrite app_nil_r. by apply returns_ret. }
  rewrite app_assoc, <- Htext. assert (w ≠ []) as Hne by (by intros ->).
  destruct (Hw Hne) as [Hlong _]. destruct (N.ltb_spec (NUM_CHUNKS * MAX_BASE - NUM_CHUNKS * 4) (Str.length_utf8 w)) as [Hbig|Hsmall].
  { by apply push_large_ok. }
  destruct (cut_chunks_ok (length w) w Hsw) as (ss & -> & <- & Hcut); [done|]. cbn [mbind option_bind].
  destruct (cut_count ss Hcut) as [Hcount _]. change (NUM_CHUNKS * MAX_BASE - NUM_CHUNKS * 4) with 496 in Hsmall.
  unfold NUM_CHUNKS. destruct (N.leb_spec (Prelude.len ss) 4); [|lia].
  apply (push_pieces_ok r1 ss (extend ())); [done|done| |apply (extend_ok ())]. by intros _.
Qed.

Lemma new_rope_ok : rope_ok new ∧ rope_text new = [].
Proof. split; [|done]. split; [by left|apply sized_nil]. Qed.

Lemma rope_from_ok s : scalars s → holds (from s) s.
Proof.
  intros Hs. destruct new_rope_ok as [Hok Hnew]. pose proof (rope_push_ok new s Hok Hs) as H.
  by rewrite Hnew in H.
Qed.

(** ** Appending *)

Lemma unit_laws_dim : DimensionLaws () ChunkSummary () ().
Proof. by split; [split|]. Qed.

#[local] Existing Instance unit_laws_dim.

(** The chunks after the first one. *)
Lemma tail_ok r p l : tree_ok () (chunks r) → shallow r → tree_items (chunks r) = p :: l →
  returns (CursorOps.next () (CursorOps.new (D := ()) () (chunks r))) (λ c,
    returns (CursorOps.next () c) (λ c', returns (CursorOps.suffix () c') (λ '(t, _),
      tree_ok () t ∧ tree_items t = l))).
Proof.
  intros Hok Hsh Hi.
  assert (cursor_at () (CursorOps.new (D := ()) () (chunks r)) Fresh) as Hat by by apply at_fresh.
  eapply returns_mono; [by apply (next_from_ok () _ _ Hat)|]. intros c [Ht Hc].
  cbn [ahead fst snd CursorOps.new tree] in Ht, Hc. rewrite Hi in Hc. cbn [spot_of] in Hc.
  eapply returns_mono; [apply (next_from_ok () _ _ Hc); by rewrite Ht|]. intros c' [Ht' Hc'].
  cbn [ahead fst snd] in Hc'. eapply returns_mono.
  { apply (suffix_ok () c' (spot_of ([] ++ [p]) l)). split_and!; [done|by destruct l|by rewrite Ht', Ht]. }
  intros [t c''] (Hokt & Hit & _). split; [done|]. rewrite Hit. by destruct l.
Qed.

Lemma rope_first_ok r : tree_ok () (chunks r) →
  NodeOps.first (chunks r) = Some (head (tree_items (chunks r))).
Proof. apply (SumTree.first_ok ()). Qed.

Lemma rope_append_ok r r' : rope_ok r → rope_ok r' → shallow r' →
  holds (append r r') (rope_text r ++ rope_text r').
Proof.
  intros Hr Hr' Hsh. pose proof Hr as [Ht Hs]. pose proof Hr' as [Ht' Hs'].
  unfold append. rewrite rope_first_ok, rope_last_ok by done. cbn [mbind option_bind].
  assert (∀ l, tree_items (chunks r') = l → (l ≠ [] → ends_long (tree_items (chunks r))) →
    holds (mkRope <$> TreeOps.append () (chunks r) (chunks r')) (rope_text r ++ rope_text r')) as Happ.
  { intros l Hl Hlong. eapply returns_fmap, returns_mono; [by apply (append_ok ())|].
    intros t [Hok Hi]. rewrite Hl in Hi, Hs'. replace (rope_text r') with (texts l) by (by rewrite <- Hl).
    by apply (extended_ok r l). }
  destruct (tree_items (chunks r')) as [|p l] eqn:Hl; cbn [head]; [by apply (Happ [])|].
  destruct (match list.last _ with Some c => _ | None => false end || _) eqn:E.
  - destruct (piece_chunk p) as (Hc & Hlen & Hsc). rewrite Hc.
    apply (sized_app_inv [p] l) in Hs' as (Hp & Hsl & Hlong).
    destruct Hp as [Hp _]. rewrite Forall_singleton in Hp.
    eapply returns_bind; [by apply push_chunk_ok|]. intros r1 (Hr1 & Htext & Hend).
    destruct (tail_ok r' p l Ht' Hsh Hl) as (c & Hc1 & c' & Hc2 & [t c''] & Hc3 & Htt & Hti).
    cbn zeta. rewrite Hc1. cbn [mbind option_bind]. rewrite Hc2. cbn [mbind option_bind].
    rewrite Hc3. cbn [mbind option_bind]. eapply returns_fmap, returns_mono; [by apply (append_ok ()), Htt; apply Hr1|].
    intros u [Hu Hui]. destruct (extended_ok r1 l u) as [Hok' Htext']; [done|done| |done|by rewrite Hui, Hti|].
    { intros Hne. apply Hend. apply (Hlong Hne [] p eq_refl). }
    split; [done|]. rewrite Htext', Htext. unfold rope_text. by rewrite Hl, texts_cons, app_assoc.
  - apply (Happ (p :: l)); [done|]. intros _ a q Hq. rewrite Hq, last_snoc in E.
    apply orb_false_iff in E as [E _]. destruct (piece_chunk q) as (Hc & _).
    rewrite Hc in E. unfold ChunkOps.len in E. cbn [chunk_of text] in E. apply N.ltb_ge in E.
    unfold long. lia.
Qed.

Lemma extent_ok {D} `{TextDimensionLaws D} r : rope_ok r → extent () (chunks r) = measure (D := D) (rope_text r).
Proof.
  intros [Hok _]. unfold extent, rope_text. pose proof (posn_texts (D := D) (tree_items (chunks r))) as Hp.
  destruct Hok as [->|[h Hh]]; [etransitivity; [apply (dadd_zero (D := D))|exact (eq_sym measure_nil)]|]. etransitivity; [by eapply (dadd_summary ())|exact Hp].
Qed.

Lemma rope_len r : rope_ok r → len r = Str.length_utf8 (rope_text r).
Proof.
  intros Hok. unfold len. rewrite extent_ok by done. apply tlen_from.
Qed.

Lemma from_iter_ok' (iter : list str) : Forall scalars iter → holds (RopeOps.from_iter iter) (mjoin iter).
Proof.
  intros Hs. unfold RopeOps.from_iter. destruct new_rope_ok as [Hok Hnew].
  assert (∀ m s, holds m s → holds (foldl (λ rope t, r ← rope; push r t) m iter) (s ++ mjoin iter)) as H.
  { induction Hs as [|t iter Ht _ IH]; intros m s Hm; cbn [foldl].
    - by rewrite app_nil_r.
    - change (mjoin (t :: iter)) with (t ++ mjoin iter). rewrite app_assoc. apply IH.
      destruct Hm as (r & -> & Hr & <-). by apply rope_push_ok. }
  apply (H (Some new) []). by exists new.
Qed.

Lemma push_front_ok r s : rope_ok r → shallow r → scalars s → holds (push_front r s) (s ++ rope_text r).
Proof.
  intros Hok Hsh Hs. unfold push_front, is_empty.
  destruct (N.eqb_spec (Str.length_utf8 s) 0) as [E|E].
  { apply length_utf8_zero in E as ->. by exists r. }
  rewrite rope_len by done. destruct (N.eqb_spec (Str.length_utf8 (rope_text r)) 0) as [E'|E'].
  { apply length_utf8_zero in E'. pose proof (rope_push_ok r s Hok Hs) as H. rewrite E' in *.
    by rewrite app_nil_r. }
  rewrite rope_first_ok by apply Hok. cbn [mbind option_bind].
  destruct (tree_items (chunks r)) as [|p l] eqn:Hl.
  { unfold rope_text in E'. by rewrite Hl in E'. }
  cbn [head]. destruct (piece_chunk p) as (Hc & Hlen & Hsc).
  destruct (N.leb_spec (ChunkOps.len (chunk p) + Str.length_utf8 s) MAX_BASE) as [Hfit|_].
  - assert (Str.length_utf8 (s ++ ptext p) <= MAX_BASE) as Hfit'.
    { rewrite length_utf8_app. unfold ChunkOps.len in Hfit. unfold ptext. lia. }
    rewrite Hc. unfold ChunkOps.prepend_str. rewrite length_utf8_app in Hfit'.
    rewrite new_ok by (done || lia). cbn [mbind option_bind]. rewrite <- length_utf8_app in Hfit'.
    rewrite prepend_ok by done. cbn [mbind option_bind].
    destruct (seal_ok (s ++ ptext p)) as (q & -> & _ & Hq); [by apply scalars_app|done|].
    cbn [mbind option_bind]. destruct Hok as [Ht Hz].
    eapply returns_fmap, returns_mono; [by apply (update_first_ok () _ (λ _, q) l p)|].
    intros t [Htt Hi]. unfold rope_text. cbn [chunks]. rewrite Hi, Hl, !texts_cons, Hq, app_assoc.
    split; [|done]. split; cbn [chunks]; [done|]. rewrite Hi. rewrite Hl in Hz.
    apply (sized_app_inv [p] l) in Hz as ([Hp _] & Hsl & Hlong). rewrite Forall_singleton in Hp.
    apply (sized_app [q] l); [|done|].
    + apply sized_one. rewrite Hq. by intros [_ ?]%app_nil.
    + intros Hne. apply (ends_long_one []). rewrite Hq. specialize (Hlong Hne [] p eq_refl).
      unfold long in *. rewrite length_utf8_app. lia.
  - destruct (rope_from_ok s Hs) as (r1 & -> & Hr1 & <-). cbn [mbind option_bind].
    by apply rope_append_ok.
Qed.

(** ** Cursors *)

(** Two ways to cut a text. *)
Lemma prefix_cut (a b c d : str) : a ++ b = c ++ d → Str.length_utf8 a <= Str.length_utf8 c →
  ∃ u, c = a ++ u ∧ b = u ++ d.
Proof.
  intros Heq Hle. apply app_eq_app in Heq as (u & [[-> ->]|[-> ->]]); [|by exists u].
  rewrite length_utf8_app in Hle. assert (Str.length_utf8 u = 0) as Hu by lia.
  apply length_utf8_zero in Hu as ->. exists []. by rewrite !app_nil_r.
Qed.

(** A position of a dimension is compared through a number [k]. *)
Section measured.
Context {D : Type} `{TextDimensionLaws D} (k_ : D → N).

Definition key_at l : N := k_ (posn () (td_zero : D) l).

(** The chunks of [l] are in the order of their positions. *)
Definition ordered l : Prop := ∀ a b d, l = a ++ b ++ d → key_at a <= key_at (a ++ b).

Definition passes (bias : Bias) (v n : N) : Prop :=
  match bias with BiasLeft => n < v | BiasRight => n <= v end.

Lemma skips_passes v bias d : CursorOps.skips (λ d, v ?= k_ d) bias d = true ↔ passes bias v (k_ d).
Proof.
  unfold CursorOps.skips, passes. destruct (N.compare_spec v (k_ d)), bias;
    rewrite ?bool_decide_eq_true; (split; [try done; lia|]; try done; lia).
Qed.

Lemma target_monotone v bias b l : ordered (b ++ l) →
  monotone () (λ d, v ?= k_ d) bias (posn () (td_zero : D) b) l.
Proof.
  intros Hord x y Hx [z ->] Hin.
  assert (key_at (b ++ x) <= key_at ((b ++ x) ++ y)) as Hle.
  { apply (Hord (b ++ x) y z). by rewrite <- !app_assoc. }
  rewrite <- !(posn_app ()), <- !app_assoc in *. unfold key_at in Hle.
  rewrite <- negb_false_iff, <- skips_inside in *.
  apply not_true_iff_false. intros Hs. apply not_true_iff_false in Hin. apply Hin.
  apply skips_passes in Hs. apply skips_passes. destruct bias; simpl in *; lia.
Qed.

(** Where seeking stops. *)
Lemma seek_split_measured v bias b l :
  let '(m, r) := seek_split () (λ d, v ?= k_ d) bias (posn () (td_zero : D) b) l in
  l = m ++ r ∧ (m = [] ∨ passes bias v (key_at (b ++ m))) ∧
  match r with x :: _ => ¬ passes bias v (key_at (b ++ m ++ [x])) | [] => True end.
Proof.
  revert b. induction l as [|x l IH]; intros b; cbn [seek_split]; [by split; [|split; [left|]]|].
  rewrite <- (posn_snoc ()). destruct (CursorOps.skips _ _ _) eqn:E.
  - specialize (IH (b ++ [x])). destruct (seek_split _ _ _ _ _) as [m r].
    destruct IH as (-> & Hm & Hr). split_and!; [done| |].
    + right. apply skips_passes in E. destruct Hm as [->|Hm]; [exact E|by rewrite <- app_assoc in Hm].
    + destruct r as [|y r]; [done|]. by rewrite <- app_assoc in Hr.
  - split_and!; [done|by left|]. intros Hp%skips_passes. unfold key_at in *.
    change (b ++ [] ++ [x]) with (b ++ [x]) in Hp. congruence.
Qed.
End measured.

(** Byte offsets. *)
Section offsets.
Implicit Types (a d m u w : str).

#[local] Abbreviation pos := (posn (T := Piece) (S := ChunkSummary) (D := N) () (dzero ChunkSummary ())).

Lemma key_len l : key_at (D := N) (λ n, n) l = Str.length_utf8 (texts l).
Proof. unfold key_at. by rewrite posn_texts. Qed.

Lemma pos_len l : pos l = Str.length_utf8 (texts l).
Proof. apply key_len. Qed.

Lemma ordered_len l : ordered (D := N) (λ n, n) l.
Proof. intros x y z _. rewrite !key_len, texts_app, length_utf8_app. lia. Qed.

Lemma offset_monotone v bias b l :
  monotone () (N.compare v) bias (pos b) l.
Proof. apply (target_monotone (D := N) (λ n, n) v bias b l), ordered_len. Qed.

(** The place of the offset after [a]: in the chunk [x], after the chunks [b]. *)
Definition within b k a d : Prop :=
  match k with
  | x :: k => ∃ u w, a = texts b ++ u ∧ ptext x = u ++ w ∧ d = w ++ texts k
  | [] => a = texts b ∧ d = []
  end.

Lemma within_text b k a d : within b k a d → texts (b ++ k) = a ++ d.
Proof.
  destruct k as [|x k]; simpl; [intros [-> ->]; by rewrite !app_nil_r|].
  intros (u & w & -> & Hx & ->). by rewrite texts_app, texts_cons, Hx, <- !app_assoc.
Qed.

Lemma within_le b k a d : within b k a d → Str.length_utf8 (texts b) <= Str.length_utf8 a.
Proof.
  destruct k as [|x k]; [by intros [-> _]|]. intros (u & w & -> & _). rewrite length_utf8_app. lia.
Qed.

Lemma seek_within b l a d : texts (b ++ l) = a ++ d → Str.length_utf8 (texts b) <= Str.length_utf8 a →
  let '(m, r) := seek_split () (N.compare (Str.length_utf8 a)) BiasRight (pos b) l in
  l = m ++ r ∧ within (b ++ m) r a d.
Proof.
  intros Htext Hle.
  pose proof (seek_split_measured (D := N) (λ n, n) (Str.length_utf8 a) BiasRight b l) as H.
  change (λ d : N, Str.length_utf8 a ?= d) with (N.compare (Str.length_utf8 a)) in H.
  change (posn () td_zero b) with (pos b) in H.
  destruct (seek_split _ _ _ _ _) as [m r]. destruct H as (-> & Hm & Hr). split; [done|].
  rewrite app_assoc, texts_app in Htext. unfold passes in *. rewrite key_len in Hm.
  destruct (prefix_cut (texts (b ++ m)) (texts r) a d Htext) as (u & -> & Hrest).
  { destruct Hm as [->|Hm]; [by rewrite app_nil_r|done]. }
  destruct r as [|x r].
  { symmetry in Hrest. apply app_nil in Hrest as [-> ->]. by rewrite app_nil_r. }
  rewrite key_len, app_assoc, texts_app, !length_utf8_app, texts_one in Hr. rewrite texts_cons in Hrest.
  destruct (prefix_cut u d (ptext x) (texts r)) as (w & Hx & ->); [done|lia|].
  by exists u, w.
Qed.

Record rcursor_at (c : RopeCursor) a d : Prop := {
  rc_ok : rope_ok (rope c);
  rc_shallow : shallow (rope c);
  rc_tree : tree (cchunks c) = chunks (rope c);
  rc_offset : offset c = Str.length_utf8 a;
  rc_place : ∃ b k, tree_items (chunks (rope c)) = b ++ k ∧
    cursor_at () (cchunks c) (spot_of b k) ∧ within b k a d }.

Lemma rc_text c a d : rcursor_at c a d → rope_text (rope c) = a ++ d.
Proof. intros [_ _ _ _ (b & k & Hi & _ & Hw)]. unfold rope_text. rewrite Hi. by apply within_text. Qed.

Lemma in_bounds_ok c a m d : rcursor_at c a (m ++ d) → in_bounds c (Str.length_utf8 (a ++ m)) = true.
Proof.
  intros Hc. unfold in_bounds. rewrite (rc_offset _ _ _ Hc), rope_len by apply Hc.
  rewrite (rc_text _ _ _ Hc), !length_utf8_app.
  apply andb_true_iff. split; apply N.leb_le; lia.
Qed.

Lemma spot_start_of (c : Cursor Piece ChunkSummary N) b k :
  tree_items (tree c) = b ++ k → spot_start c (spot_of b k) = b ∧ spot_rest c (spot_of b k) = k.
Proof. intros H. destruct k; simpl; [|done]. by rewrite H, app_nil_r. Qed.

Lemma cursor_ok r a d : rope_ok r → shallow r → rope_text r = a ++ d →
  returns (cursor r (Str.length_utf8 a)) (λ c, rope c = r ∧ rcursor_at c a d).
Proof.
  intros Hok Hsh Htext. unfold cursor. eapply returns_bind.
  { apply (seek_ok () (N.compare (Str.length_utf8 a)) BiasRight (CursorOps.new () (chunks r)) Fresh).
    - apply new_ready; [apply Hok|done].
    - cbn [dzero text_dimension td_zero usize_td]. by destruct (Str.length_utf8 a).
    - apply (offset_monotone _ _ []). }
  intros [f c]. cbn [tree CursorOps.new].
  pose proof (seek_within [] (tree_items (chunks r)) a d Htext) as Hw.
  destruct (seek_split _ _ _ _ _) as [m k]. intros (Ht & Hat & _).
  destruct Hw as [Hi Hw]; [simpl; lia|]. apply returns_ret. split; [done|].
  split; cbn [rope cchunks offset]; [done..|]. by exists m, k.
Qed.

Lemma rseek_forward_ok c a m d : rcursor_at c a (m ++ d) →
  returns (seek_forward c (Str.length_utf8 (a ++ m))) (λ c', rope c' = rope c ∧ rcursor_at c' (a ++ m) d).
Proof.
  intros Hc. unfold seek_forward. rewrite (in_bounds_ok c a m d Hc).
  pose proof (rc_text _ _ _ Hc) as Htext. destruct Hc as [Hok Hsh Ht Ho (b & k & Hi & Hat & Hw)].
  destruct (spot_start_of (cchunks c) b k) as [Hs Hr]; [by rewrite Ht|].
  pose proof (within_le _ _ _ _ Hw) as Hle.
  assert (Str.length_utf8 (texts b) <= Str.length_utf8 (a ++ m)) as Hle' by (rewrite length_utf8_app; lia).
  eapply returns_bind.
  { apply (seek_forward_ok () (N.compare (Str.length_utf8 (a ++ m))) BiasRight (cchunks c) (spot_of b k)).
    - split_and!; [done|by destruct k|by rewrite Ht].
    - rewrite (start_ok () _ _ Hat : position _ = _), Hs, pos_len. by apply N.compare_ge_iff.
    - apply offset_monotone. }
  intros [f c']. rewrite Hs, Hr. pose proof (seek_within b k (a ++ m) d) as Hw'.
  cbn zeta. destruct (seek_split _ _ _ _ _) as [m' k']. intros (Ht' & Hat' & _).
  destruct Hw' as [-> Hw']; [|done|].
  { rewrite <- app_assoc. rewrite <- Htext. unfold rope_text. by rewrite Hi. }
  apply returns_ret. split; [done|]. split; cbn [rope cchunks offset]; [done|done|by rewrite Ht'|done|].
  exists (b ++ m'), k'. by rewrite <- app_assoc.
Qed.

(** *** Slices *)

Definition sliced (o : option ChunkSlice) m : Prop :=
  match o with Some c => c = chunk_of m ∧ Str.length_utf8 m <= MAX_BASE ∧ scalars m | None => m = [] end.

Lemma push_slice_ok r o m : rope_ok r → sliced o m → holds (push_slice r o) (rope_text r ++ m).
Proof.
  intros Hok Ho. destruct o as [c|]; simpl in *.
  - destruct Ho as (-> & Hlen & Hm). eapply returns_mono; [by apply push_chunk_ok|].
    by intros r' (? & ? & _).
  - subst m. rewrite app_nil_r. by exists r.
Qed.

(** The part of the chunk under the cursor: the text [m] ends in this chunk, or
    the chunk ends before it. *)
Lemma start_slice_ok c a m d : rcursor_at c a (m ++ d) →
  ∃ m1 m2 o e, m = m1 ++ m2 ∧ start_slice c (Str.length_utf8 (a ++ m)) = Some o ∧ sliced o m1 ∧
    CursorOps.end_ () (cchunks c) = Some e ∧
    (m2 = [] ∧ (e <? Str.length_utf8 (a ++ m)) = false ∧
       rcursor_at (mkRopeCursor (rope c) (cchunks c) (Str.length_utf8 (a ++ m))) (a ++ m) d ∨
     m2 ≠ [] ∧ (e <? Str.length_utf8 (a ++ m)) = true ∧
       ∃ b x k, tree_items (chunks (rope c)) = b ++ x :: k ∧ texts (b ++ [x]) = a ++ m1 ∧
         texts k = m2 ++ d ∧ cursor_at () (cchunks c) (On b x k)).
Proof.
  intros Hc. pose proof Hc as [Hok Hsh Ht Ho (b & k & Hi & Hat & Hw)].
  destruct (spot_start_of (cchunks c) b k) as [Hs _]; [by rewrite Ht|].
  assert (spot_of b k ≠ Fresh) as Hnf by by destruct k.
  unfold start_slice. rewrite (item_ok () _ _ Hat Hnf), (end_ok () _ _ Hat Hnf), (start_ok () _ _ Hat), Hs, Ho.
  cbn [mbind option_bind]. destruct k as [|x k]; cbn [spot_of spot_item option_list].
  - destruct Hw as [Ha Hmd]. apply app_nil in Hmd as [-> ->]. exists [], [], None. eexists.
    rewrite !app_nil_r in *. split_and!; [done|done|done|done|]. left.
    split_and!; [done| |].
    + rewrite pos_len, Ha. apply N.ltb_irrefl.
    + rewrite <- Ho. by destruct c.
  - destruct Hw as (u & w & Ha & Hx & Hmd). destruct (piece_chunk x) as (Hcx & Hlen & Hsc).
    assert (texts (b ++ [x]) = a ++ w) as Hbx by (by rewrite texts_app, texts_one, Hx, Ha, app_assoc).
    change (option_list (Some x)) with [x]. rewrite !pos_len, Hbx, Hcx, Hx, !length_utf8_app.
    assert (Str.length_utf8 a = Str.length_utf8 (texts b) + Str.length_utf8 u) as Hal
      by (by rewrite Ha, length_utf8_app).
    rewrite usize_sub_le by lia. rewrite Hx in Hlen, Hsc. apply scalars_app in Hsc as [_ Hsw].
    cbn [mbind option_bind].
    destruct (N.le_gt_cases (Str.length_utf8 m) (Str.length_utf8 w)) as [Hle|Hgt].
    + destruct (prefix_cut m d w (texts k) Hmd Hle) as (w' & -> & ->).
      apply scalars_app in Hsw as [Hsm _]. rewrite !length_utf8_app in Hlen.
      exists m, []. do 2 eexists. rewrite app_nil_r. split_and!; [done| | |done|].
      * rewrite usize_sub_le by lia. cbn [mbind option_bind].
        replace (Str.length_utf8 a - Str.length_utf8 (texts b)) with (Str.length_utf8 u) by lia.
        replace (N.min _ _ - _) with (Str.length_utf8 u + Str.length_utf8 m) by (rewrite length_utf8_app; lia).
        rewrite chunk_slice_ok by (rewrite !length_utf8_app; lia). done.
      * split_and!; [done|lia|done].
      * left. split_and!; [done|apply N.ltb_ge; rewrite length_utf8_app; lia|].
        split; cbn [rope cchunks offset]; [done..|by rewrite length_utf8_app|].
        exists b, (x :: k). split_and!; [done|done|]. exists (u ++ m), w'.
        split_and!; [by rewrite Ha, app_assoc|by rewrite Hx, app_assoc|done].
    + destruct (prefix_cut w (texts k) m d) as (m' & -> & Hk); [done|lia|].
      exists w, m'. do 2 eexists. rewrite length_utf8_app in Hgt |- *. split_and!; [done| | |done|].
      * rewrite usize_sub_le by lia. cbn [mbind option_bind].
        replace (Str.length_utf8 a - Str.length_utf8 (texts b)) with (Str.length_utf8 u) by lia.
        replace (N.min _ _ - _) with (Str.length_utf8 u + Str.length_utf8 w) by lia.
        pose proof (chunk_slice_ok u w []) as Hcs. rewrite app_nil_r in Hcs. by rewrite Hcs.
      * rewrite length_utf8_app in Hlen. split_and!; [done|lia|done].
      * right. split_and!; [intros ->; simpl in Hgt; lia|apply N.ltb_lt; lia|].
        exists b, x, k. by split_and!.
Qed.

(** The part of the chunk in which the text [a] ends. *)
Lemma end_slice_ok (cs : Cursor Piece ChunkSummary N) b k a d :
  tree_items (tree cs) = b ++ k → cursor_at () cs (spot_of b k) → within b k a d →
  ∃ o u, end_slice cs (Str.length_utf8 a) = Some o ∧ sliced o u ∧ a = texts b ++ u.
Proof.
  intros Hi Hat Hw. assert (spot_of b k ≠ Fresh) as Hnf by by destruct k.
  destruct (spot_start_of cs b k Hi) as [Hs _].
  unfold end_slice. rewrite (item_ok () _ _ Hat Hnf), (start_ok () _ _ Hat), Hs, pos_len.
  cbn [mbind option_bind]. destruct k as [|x k]; cbn [spot_of spot_item].
  - destruct Hw as [-> _]. exists None, []. by rewrite app_nil_r.
  - destruct Hw as (u & w & -> & Hx & _). destruct (piece_chunk x) as (Hc & Hlen & Hsc).
    rewrite length_utf8_app, usize_sub_le, N_add_sub_l by lia. cbn [mbind option_bind].
    rewrite Hx in *. rewrite length_utf8_app in Hlen. apply scalars_app in Hsc as [Hu _].
    rewrite Hc. pose proof (chunk_slice_ok [] u w) as Hcs. cbn [app Str.length_utf8] in Hcs.
    rewrite N.add_0_l in Hcs.
    rewrite Hcs by (rewrite length_utf8_app; lia). do 2 eexists. split_and!; [done| |done].
    split_and!; [done|lia|done].
Qed.

(** The whole chunks in the middle, from the chunk after [x]. *)
Lemma middle_ok r (cs : Cursor Piece ChunkSummary N) b x k a m d :
  rope_ok r → shallow r → tree cs = chunks r → tree_items (chunks r) = b ++ x :: k →
  cursor_at () cs (On b x k) → texts (b ++ [x]) = a → texts k = m ++ d →
  returns (CursorOps.next () cs) (λ cs1,
    tree cs1 = chunks r ∧ cursor_at () cs1 (spot_of (b ++ [x]) k) ∧
    ready () cs1 (spot_of (b ++ [x]) k) ∧ N.compare (Str.length_utf8 (a ++ m)) (position cs1) ≠ Lt ∧
    spot_start cs1 (spot_of (b ++ [x]) k) = b ++ [x] ∧ spot_rest cs1 (spot_of (b ++ [x]) k) = k ∧
    let '(l, k') := seek_split () (N.compare (Str.length_utf8 (a ++ m))) BiasRight (pos (b ++ [x])) k in
    k = l ++ k' ∧ within ((b ++ [x]) ++ l) k' (a ++ m) d).
Proof.
  intros Hok Hsh Ht Hi Hat Ha Hk.
  eapply returns_mono; [apply (next_ok () _ _ _ _ Hat); by rewrite Ht|]. intros cs1 [Ht1 Hat1].
  rewrite Ht in Ht1. assert (tree_items (tree cs1) = (b ++ [x]) ++ k) as Hi1 by by rewrite Ht1, Hi, <- app_assoc.
  destruct (spot_start_of cs1 (b ++ [x]) k Hi1) as [Hs Hr].
  assert (ready () cs1 (spot_of (b ++ [x]) k)) as Hready by (split_and!; [done|by destruct k|by rewrite Ht1]).
  split; [done|]. split; [done|]. split; [done|]. split; [|split; [done|split; [done|]]].
  - rewrite (start_ok () _ _ Hat1 : position _ = _), Hs, pos_len, Ha, length_utf8_app.
    apply N.compare_ge_iff. lia.
  - apply seek_within; [|rewrite Ha, length_utf8_app; lia].
    by rewrite texts_app, Ha, Hk, <- app_assoc.
Qed.

(** A tree that the cursor's stack can hold, when there is one. *)
Definition lowb (m : option (Node Piece ChunkSummary)) : bool :=
  match m with Some t => (height t <? STACK_CAPACITY)%nat | None => true end.

(** The tree of the chunks in the middle of [slice]. *)
Definition middle c (e : N) : option (Node Piece ChunkSummary) :=
  cs ← CursorOps.next () (cchunks c); fst <$> CursorOps.slice () (N.compare e) BiasRight cs.

Lemma slice_cursor_ok c a m d : rcursor_at c a (m ++ d) →
  lowb (middle c (Str.length_utf8 (a ++ m))) = true →
  returns (slice_cursor c (Str.length_utf8 (a ++ m))) (λ '(q, c'),
    rope_ok q ∧ rope_text q = m ∧ rope c' = rope c ∧ rcursor_at c' (a ++ m) d).
Proof.
  intros Hc Hlow. unfold slice_cursor. rewrite (in_bounds_ok c a m d Hc).
  destruct (start_slice_ok c a m d Hc) as (m1 & m2 & o & e & -> & -> & Ho & -> & Hend).
  cbn [mbind option_bind]. destruct new_rope_ok as [Hnew Hnewt].
  destruct (push_slice_ok new o m1 Hnew Ho) as (q & -> & Hq & Hqt). rewrite Hnewt in Hqt.
  cbn [app] in Hqt. cbn [mbind option_bind].
  destruct Hend as [(-> & -> & Hc')|(Hne & -> & b & x & k & Hi & Ha & Hk & Hat)].
  { apply returns_ret. by rewrite app_nil_r in *. }
  pose proof Hc as [Hok Hsh Ht _ _]. rewrite (app_assoc a) in *.
  destruct (middle_ok (rope c) (cchunks c) b x k (a ++ m1) m2 d) as
    (cs1 & Hnext & Ht1 & Hat1 & Hready & Htarget & Hs & Hr & Hsplit); [done..|].
  unfold middle in Hlow. rewrite Hnext in *. cbn [mbind option_bind] in *.
  destruct (slice_ok () (N.compare (Str.length_utf8 ((a ++ m1) ++ m2))) BiasRight cs1 _ Hready Htarget) as
    ([t cs2] & Hslice & Hres); [apply offset_monotone|].
  rewrite Hslice in *. cbn [mbind option_bind fmap option_map fst lowb] in *. rewrite Hs, Hr in Hres.
  destruct (seek_split _ _ _ _ _) as [l k']. destruct Hsplit as [-> Hw].
  destruct Hres as (Htok & Hti & Ht2 & Hat2). rewrite Ht1 in Ht2.
  assert (rope_ok (mkRope t)) as Hrt.
  { split; cbn [chunks]; [done|]. rewrite Hti. destruct Hok as [_ Hz]. rewrite Hi in Hz.
    change (b ++ x :: l ++ k') with (b ++ [x] ++ l ++ k') in Hz.
    apply sized_app_inv in Hz as (_ & Hz & _). apply (sized_app_inv [x]) in Hz as (_ & Hz & _).
    by apply sized_app_inv in Hz as (Hz & _). }
  destruct (rope_append_ok q (mkRope t) Hq Hrt) as (q1 & -> & Hq1 & Hqt1); [by apply Nat.ltb_lt|].
  assert (tree_items (chunks (rope c)) = ((b ++ [x]) ++ l) ++ k') as Hi' by (by rewrite Hi, <- !app_assoc).
  destruct (end_slice_ok cs2 ((b ++ [x]) ++ l) k' ((a ++ m1) ++ m2) d) as (o2 & u & Ho2 & Hsl & Hu);
    [by rewrite Ht2|done|done|].
  cbn [mbind option_bind]. rewrite Ho2. cbn [mbind option_bind].
  destruct (push_slice_ok q1 o2 u Hq1 Hsl) as (q2 & -> & Hq2 & Hqt2).
  apply returns_ret. split_and!; [done| |done|].
  - rewrite Hqt2, Hqt1, Hqt. unfold rope_text. cbn [chunks]. rewrite Hti.
    rewrite texts_app, Ha, <- !app_assoc in Hu. do 2 apply app_inv_head in Hu. by rewrite Hu, <- app_assoc.
  - split; cbn [rope cchunks offset]; [done..|]. by exists ((b ++ [x]) ++ l), k'.
Qed.
End offsets.

(** *** The trees that [slice] and [replace] make on the way are not too deep *)

Definition andthen {A} (m : option A) (f : A → bool) : bool := match m with Some x => f x | None => true end.

Definition slice_lowb r (range : Range N) : bool :=
  andthen (c ← cursor r 0; seek_forward c (start range)) (λ c, lowb (middle c (stop range))).

Definition replace_lowb r (range : Range N) : bool :=
  andthen (cursor r 0) (λ c, lowb (middle c (start range)) &&
    andthen (slice_cursor c (start range)) (λ '(prefix, c), lowb (Some (chunks prefix)) &&
      andthen (seek_forward c (stop range)) (λ c, lowb (middle c (len r)) &&
        andthen (suffix_cursor c) (λ suffix, lowb (Some (chunks suffix)))))).

Section slices.
Implicit Types (a d m : str).

Lemma rope_slice_ok r a m d : rope_ok r → shallow r → rope_text r = a ++ m ++ d →
  slice_lowb r (Str.length_utf8 a ..: Str.length_utf8 (a ++ m)) = true →
  holds (slice r (Str.length_utf8 a ..: Str.length_utf8 (a ++ m))) m.
Proof.
  intros Hok Hsh Htext Hlow. unfold slice, slice_lowb in *. cbn [start stop] in *.
  destruct (cursor_ok r [] (a ++ m ++ d) Hok Hsh Htext) as (c0 & E0 & Hr0 & Hc0).
  cbn [Str.length_utf8] in E0. rewrite E0 in *. cbn [mbind option_bind] in *.
  destruct (rseek_forward_ok c0 [] a (m ++ d) Hc0) as (c1 & E1 & Hr1 & Hc1).
  cbn [app] in E1, Hc1. rewrite E1 in *. cbn [mbind option_bind andthen] in *.
  eapply returns_fmap, returns_mono; [by apply (slice_cursor_ok c1 a m d)|]. by intros [q c'] (? & ? & _).
Qed.

Lemma rope_replace_ok r a m d s : rope_ok r → shallow r → scalars s → rope_text r = a ++ m ++ d →
  replace_lowb r (Str.length_utf8 a ..: Str.length_utf8 (a ++ m)) = true →
  holds (replace r (Str.length_utf8 a ..: Str.length_utf8 (a ++ m)) s) (a ++ s ++ d).
Proof.
  intros Hok Hsh Hs Htext Hlow. unfold replace, replace_lowb in *. cbn [start stop] in *.
  destruct (cursor_ok r [] (a ++ m ++ d) Hok Hsh Htext) as (c0 & E0 & Hr0 & Hc0).
  cbn [Str.length_utf8] in E0. rewrite E0 in *. cbn [mbind option_bind andthen] in *.
  apply andb_true_iff in Hlow as [Hlow1 Hlow].
  destruct (slice_cursor_ok c0 [] a (m ++ d) Hc0 Hlow1) as ([p c1] & E1 & Hp & Hpt & Hr1 & Hc1).
  cbn [app] in E1, Hc1. rewrite E1 in *. cbn [mbind option_bind andthen] in *.
  apply andb_true_iff in Hlow as [Hlow2 Hlow]. apply Nat.ltb_lt in Hlow2.
  destruct new_rope_ok as [Hnew Hnewt].
  destruct (rope_append_ok new p Hnew Hp Hlow2) as (r1 & -> & Hr1' & Hr1t). cbn [mbind option_bind].
  destruct (rseek_forward_ok c1 a m d Hc1) as (c2 & E2 & Hr2 & Hc2).
  rewrite E2 in *. cbn [mbind option_bind andthen] in *. apply andb_true_iff in Hlow as [Hlow3 Hlow].
  destruct (rope_push_ok r1 s Hr1' Hs) as (r2 & -> & Hr2' & Hr2t). cbn [mbind option_bind].
  unfold suffix_cursor in *.
  assert (len (rope c2) = Str.length_utf8 ((a ++ m) ++ d)) as Hlen.
  { rewrite rope_len by apply Hc2. by rewrite (rc_text _ _ _ Hc2). }
  rewrite <- Hr0, <- Hr1, <- Hr2, Hlen in Hlow3. rewrite Hlen in *.
  rewrite <- (app_nil_r d) in Hc2 at 1.
  destruct (slice_cursor_ok c2 (a ++ m) d [] Hc2 Hlow3) as ([q c3] & E3 & Hq & Hqt & _).
  rewrite E3 in *. cbn [mbind option_bind andthen fmap option_map fst] in *. apply Nat.ltb_lt in Hlow.
  eapply returns_mono; [by apply rope_append_ok|]. intros r' [Hr' Hr't]. split; [done|].
  cbn [fst] in Hr't. by rewrite Hr't, Hr2t, Hr1t, Hnewt, Hpt, Hqt, <- app_assoc.
Qed.

(** The assertions of the cursor: a range that is reversed or ends past the text panics. *)
Lemma out_of_bounds_panics c (e : N) : in_bounds c e = false →
  seek_forward c e = None ∧ slice_cursor c e = None ∧
  ∀ D `{!TextDimension D}, summary_cursor (D := D) c e = None.
Proof. intros H. unfold seek_forward, slice_cursor, summary_cursor. by rewrite H. Qed.

Section summaries.
Context {D : Type} `{TextDimensionLaws D}.

Lemma add_slice_ok o m m' : sliced o m → add_slice (measure m') o = Some (measure (m' ++ m) : D).
Proof.
  destruct o as [c|]; simpl.
  - intros (-> & Hlen & _). rewrite td_chunk by done. cbn [mbind option_bind]. by rewrite measure_app.
  - intros ->. by rewrite app_nil_r.
Qed.

Lemma summary_cursor_ok c a m d : rcursor_at c a (m ++ d) →
  returns (summary_cursor (D := D) c (Str.length_utf8 (a ++ m))) (λ '(o, c'),
    o = measure m ∧ rope c' = rope c ∧ rcursor_at c' (a ++ m) d).
Proof.
  intros Hc. unfold summary_cursor. rewrite (in_bounds_ok c a m d Hc).
  destruct (start_slice_ok c a m d Hc) as (m1 & m2 & o & e & -> & -> & Ho & -> & Hend).
  cbn [mbind option_bind]. rewrite <- measure_nil, (add_slice_ok o m1 []) by done.
  cbn [mbind option_bind app].
  destruct Hend as [(-> & -> & Hc')|(Hne & -> & b & x & k & Hi & Ha & Hk & Hat)].
  { apply returns_ret. by rewrite app_nil_r in *. }
  pose proof Hc as [Hok Hsh Ht _ _]. rewrite (app_assoc a) in *.
  destruct (middle_ok (rope c) (cchunks c) b x k (a ++ m1) m2 d) as
    (cs1 & -> & Ht1 & Hat1 & Hready & Htarget & Hs & Hr & Hsplit); [done..|].
  cbn [mbind option_bind] in *.
  destruct (cursor_summary_ok () (N.compare (Str.length_utf8 ((a ++ m1) ++ m2))) BiasRight (O := D) cs1 _ Hready Htarget) as
    ([t cs2] & -> & Hres); [apply offset_monotone|].
  cbn [mbind option_bind] in *. cbn zeta in Hres. rewrite Hs, Hr in Hres.
  destruct (seek_split _ _ _ _ _) as [l k']. destruct Hsplit as [-> Hw].
  destruct Hres as (Ht2 & Hat2 & ->). rewrite Ht1 in Ht2.
  assert (tree_items (chunks (rope c)) = ((b ++ [x]) ++ l) ++ k') as Hi' by (by rewrite Hi, <- !app_assoc).
  destruct (end_slice_ok cs2 ((b ++ [x]) ++ l) k' ((a ++ m1) ++ m2) d) as (o2 & u & -> & Hsl & Hu);
    [by rewrite Ht2|done|done|].
  change (posn () (dzero ChunkSummary ()) l) with (posn () (td_zero : D) l).
  cbn [mbind option_bind]. rewrite posn_texts, <- measure_app, (add_slice_ok o2 u) by done.
  apply returns_ret. split_and!; [|done|].
  - rewrite texts_app, Ha, <- !app_assoc in Hu. do 2 apply app_inv_head in Hu. by rewrite Hu, <- app_assoc.
  - split; cbn [rope cchunks offset]; [done..|]. by exists ((b ++ [x]) ++ l), k'.
Qed.
End summaries.
End slices.
