(* ===== verification/RopeSpec.v ===== *)
(** * Positions in ropes: the conversions of [crates/rope/src/rope.rs]

    A conversion finds the chunk that holds a position by the first of two
    dimensions and converts the rest of the position in it. [Placed] states
    what a class of positions needs for this to give the right answer; at
    character boundaries the answers are the measures of the text before. *)

From S2P Require Import Prelude SumTree SumCursor CursorSpec CursorWalk Points Text Chunk ChunkSpec Rope RopeText.
Import NodeOps TreeOps PointOps RopeOps.

#[local] Unset Default Proof Using.
#[local] Arguments Nat.mul : simpl never.
#[local] Arguments TextSummaryOps.from : simpl never.
#[local] Open Scope N_scope.

Implicit Types (r : Rope) (l k : list Piece) (s a d u w : str).

(** ** Finding a chunk *)

(** The linear search of [find] and the split of [seek] stop at the same item. *)
Lemma find_seek_split {D} `{!Dimension D ChunkSummary ()} (target : D → comparison) bias l :
  find_in_list () target bias l =
  let '(m, k) := seek_split () target bias (dzero ChunkSummary ()) l in
  match k with
  | x :: _ => (posn () (dzero ChunkSummary ()) m, posn () (dzero ChunkSummary ()) (m ++ [x]), Some x)
  | [] => (posn () (dzero ChunkSummary ()) m, posn () (dzero ChunkSummary ()) m, None)
  end.
Proof.
  unfold find_in_list.
  assert (∀ p, scan () target bias false p l = let '(m, k) := seek_split () target bias p l in
    match k with
    | x :: _ => (Some (x, posn () p (m ++ [x])), posn () p m)
    | [] => (None, posn () p m)
    end) as ->.
  { induction l as [|x l IH]; intros p; [done|]. cbn [seek_split]. rewrite scan_cons. cbn [entry_found].
    rewrite skips_inside. destruct (target_in_child target bias (dadd () p (isummary () x))); cbn [negb].
    - done.
    - rewrite IH. destruct (seek_split _ _ _ _ l) as [m k]. by destruct k. }
  destruct (seek_split _ _ _ _ l) as [m k]. by destruct k.
Qed.

(** A dimension that is compared through a number, over the text [s]: longer
    prefixes come later, and positions can be subtracted. *)
Class TextKey (A : Type) `{!TextDimension A} (key : A → N) (sub : A → A → option A) s : Prop := {
  key_zero : key td_zero = 0;
  key_strict a u w : s = a ++ u ++ w → u ≠ [] → key (measure a) < key (measure (a ++ u));
  key_sub a u w : s = a ++ u ++ w → sub (measure (a ++ u)) (measure a) = Some (measure u : A) }.

#[export] Instance usize_key s : TextKey N (λ n, n) usize_sub s.
Proof.
  split; [done| |]; intros a u w _; unfold measure; cbn [from_text_summary usize_td];
    rewrite !tlen_from, length_utf8_app.
  - intros Hu. destruct u as [|c u]; [done|]. cbn [Str.length_utf8]. pose proof (len_utf8_bounds c). lia.
  - rewrite usize_sub_le by lia. f_equal. lia.
Qed.

Lemma length_utf16_pos u : u ≠ [] → 0 < Str.length_utf16 u.
Proof. destruct u as [|c u]; [done|]. cbn [Str.length_utf16]. pose proof (len_utf16_bounds c). lia. Qed.

#[export] Instance offset_utf16_key s : TextKey OffsetUtf16 units utf16_sub s.
Proof.
  split; [done| |]; intros a u w _; unfold measure, utf16_sub; cbn [from_text_summary offset_utf16_td units];
    rewrite !len_utf16_from, length_utf16_app.
  - intros Hu. pose proof (length_utf16_pos u Hu). lia.
  - rewrite usize_sub_le by lia. simpl. do 2 f_equal. lia.
Qed.

(** Points of a text of less than 2^32 bytes. *)
Definition fits s : Prop := Str.length_utf8 s < u32_modulus.

Lemma fits_prefix a u : fits (a ++ u) → fits a.
Proof. unfold fits. rewrite length_utf8_app. lia. Qed.

Lemma packed_add {x} (p q : PointOf x) : in_range p → in_range (add p q) → q ≠ zero →
  packed p < packed (add p q).
Proof.
  intros [_ Hp] [_ Hq] Hz. rewrite !packed_sum by done. clear Hq.
  unfold add, PointOps.new, u32_modulus in *. destruct p as [r c], q as [r' c']. cbn [row column] in *.
  destruct (N.eqb_spec r' 0) as [->|]; cbn [row column].
  - assert (c' ≠ 0) by (by intros ->). lia.
  - lia.
Qed.

Lemma sub_add {x} (p q : PointOf x) : in_range p → in_range (add p q) → sub (add p q) p = Some q.
Proof.
  intros Hp Hq. destruct (sub_below p (add p q) Hp Hq (le_add p q)) as (d & -> & Hd & _).
  f_equal. by apply (add_cancel p).
Qed.

Lemma lines_range s : fits s → in_range (Text.lines (TextSummaryOps.from s)).
Proof.
  unfold fits. intros Hs. destruct (from_bounds s) as (Hr & Hc & _). rewrite tlen_from in *.
  split; lia.
Qed.

Lemma lines_utf16_range s : fits s → in_range (TextSummaryOps.lines_utf16 (TextSummaryOps.from s)).
Proof.
  unfold fits. intros Hs. destruct (from_bounds s) as (Hr & _ & _ & H16 & _ & _ & Hl).
  rewrite tlen_from in *. split; cbn [TextSummaryOps.lines_utf16 row column]; lia.
Qed.

(** Points in bytes and in UTF-16 units measure rows alike: [width] measures a
    line. *)
Class LineMeasure (x : Units) `{!TextDimension (PointOf x)} (width : str → N) : Prop := {
  line_laws :: TextDimensionLaws (PointOf x);
  line_zero : td_zero =@{PointOf x} zero;
  line_add (p q : PointOf x) : td_add p q = add p q;
  line_range s : fits s → in_range (measure s : PointOf x);
  line_measure (p l : str) : row_start p → newlines_in l = 0 →
    measure (p ++ l) =@{PointOf x} mkPoint (newlines_in p) (width l);
  width_app a u : width (a ++ u) = width a + width u;
  width_pos u : u ≠ [] → 0 < width u }.

Lemma lines_utf16_measure (p l : str) : row_start p → newlines_in l = 0 →
  TextSummaryOps.lines_utf16 (TextSummaryOps.from (p ++ l)) = mkPoint (newlines_in p) (Str.length_utf16 l).
Proof.
  intros Hp Hl. destruct (last_line_summary p l Hp Hl) as (H1 & _ & H3 & _).
  unfold TextSummaryOps.lines_utf16. by rewrite H1, H3.
Qed.

Lemma length_utf8_pos u : u ≠ [] → 0 < Str.length_utf8 u.
Proof. destruct u as [|c u]; [done|]. cbn [Str.length_utf8]. pose proof (len_utf8_bounds c). lia. Qed.

#[export] Instance utf8_lines : LineMeasure Utf8 Str.length_utf8.
Proof.
  split; try done.
  - typeclasses eauto.
  - apply lines_range.
  - intros p l Hp Hl. apply (last_line_summary p l Hp Hl).
  - apply length_utf8_app.
  - apply length_utf8_pos.
Qed.

#[export] Instance utf16_lines : LineMeasure Utf16 Str.length_utf16.
Proof.
  split; try done.
  - typeclasses eauto.
  - apply lines_utf16_range.
  - apply lines_utf16_measure.
  - apply length_utf16_app.
  - apply length_utf16_pos.
Qed.

Section points.
Context {x : Units} `{!TextDimension (PointOf x)} (width : str → N) `{!LineMeasure x width}.

Lemma measure_ne u : u ≠ [] → measure u ≠@{PointOf x} zero.
Proof.
  intros Hu. destruct (last_line_exists u) as (p & l & -> & Hl & Hp).
  rewrite line_measure by done. unfold zero, PointOps.new. intros [= Hr Hw].
  destruct l as [|c l]; [|by pose proof (width_pos (width := width) (c :: l) ltac:(done)); lia].
  rewrite app_nil_r in Hu. destruct Hp as [->|[q ->]]; [done|].
  rewrite newlines_in_app in Hr. simpl in Hr. lia.
Qed.

#[export] Instance point_key s : fits s → TextKey (PointOf x) packed sub s.
Proof.
  pose proof (line_laws (width := width)) as Hlaws. intros Hs.
  split; [by rewrite (line_zero (width := width))| |]; intros a u w ->; rewrite app_assoc in Hs;
    apply fits_prefix in Hs; rewrite measure_app, (line_add (width := width)).
  - intros Hu. apply packed_add; [by eapply line_range, fits_prefix| |by apply measure_ne].
    rewrite <- (line_add (width := width)), <- measure_app. by apply (line_range (width := width)).
  - apply sub_add; [by eapply line_range, fits_prefix|].
    rewrite <- (line_add (width := width)), <- measure_app. by apply (line_range (width := width)).
Qed.
End points.

(** The chunk that [find] returns, with the position before it. *)
Section find.
Context {D : Type} `{TextDimensionLaws D} (k_ : D → N) (bias : Bias) (v : N).

Definition found r (start : D) (item : option Piece) : Prop :=
  match item with
  | Some x => ∃ b k, tree_items (chunks r) = b ++ x :: k ∧ start = measure (texts b) ∧
      (b = [] ∨ passes bias v (k_ (measure (texts b)))) ∧
      ¬ passes bias v (k_ (measure (texts (b ++ [x]))))
  | None => start = measure (rope_text r) ∧
      (tree_items (chunks r) = [] ∨ passes bias v (k_ (measure (rope_text r))))
  end.

Lemma find_located r : rope_ok r → ordered k_ (tree_items (chunks r)) →
  let '(start, _, item) := find () (λ p, v ?= k_ p) bias (chunks r) in found r start item.
Proof.
  intros [Hok _] Hord. rewrite (find_ok () (λ p, v ?= k_ p) bias (chunks r) Hok)
    by apply (target_monotone k_ v bias [] _ Hord).
  rewrite find_seek_split. pose proof (seek_split_measured k_ v bias [] (tree_items (chunks r))) as Hsp.
  change (posn () td_zero []) with (dzero ChunkSummary () : D) in Hsp.
  destruct (seek_split _ _ _ _ _) as [m k]. destruct Hsp as (Hi & Hm & Hk). unfold key_at in Hm, Hk.
  cbn [app] in Hm, Hk. rewrite posn_texts in Hm. destruct k as [|x k]; unfold found.
  - rewrite app_nil_r in Hi. unfold rope_text. rewrite Hi. split; [apply posn_texts|done].
  - rewrite posn_texts in Hk. exists m, k. split_and!; [done|apply posn_texts|done|done].
Qed.

(** A cursor stops at the same chunk. *)
Lemma seek_located r : rope_ok r → shallow r → ordered k_ (tree_items (chunks r)) → k_ td_zero = 0 →
  returns (CursorOps.seek () (λ p, v ?= k_ p) bias (CursorOps.new (D := D) () (chunks r))) (λ '(_, c),
    returns (CursorOps.item c) (λ item, found r (CursorOps.start c) item)).
Proof.
  intros Hok Hsh Hord Hz. eapply returns_mono.
  { apply (seek_ok () (λ p, v ?= k_ p) bias (CursorOps.new () (chunks r)) Fresh).
    - apply new_ready; [apply Hok|done].
    - cbn [dzero text_dimension]. rewrite Hz. by destruct v.
    - apply (target_monotone k_ v bias [] _ Hord). }
  intros [f c]. cbn [tree CursorOps.new].
  pose proof (seek_split_measured k_ v bias [] (tree_items (chunks r))) as Hsp.
  destruct (seek_split _ _ _ _ _) as [m k]. destruct Hsp as (Hi & Hm & Hk). unfold key_at in Hm, Hk.
  cbn [app] in Hm, Hk. rewrite posn_texts in Hm. intros (Ht & Hat & _).
  assert (spot_of m k ≠ Fresh) as Hnf by by destruct k.
  rewrite (item_ok () _ _ Hat Hnf), (start_ok () _ _ Hat). apply returns_ret.
  destruct k as [|x k]; unfold found; cbn [spot_of spot_item spot_start].
  - rewrite app_nil_r in Hi. unfold rope_text. rewrite Ht, Hi. split; [apply posn_texts|done].
  - rewrite posn_texts in Hk. exists m, k. split_and!; [done|apply posn_texts|done|done].
Qed.
End find.

Lemma key_ordered {D} `{TextDimensionLaws D} {A} `{!TextDimension A} (f : D → A) (key : A → N) sub_ l :
  (∀ s, f (measure s) = measure s) → TextKey A key sub_ (texts l) → ordered (λ d : D, key (f d)) l.
Proof.
  intros Hf [_ Hstrict _] a b d ->. unfold key_at. rewrite !posn_texts, !Hf, texts_app.
  rewrite !texts_app in Hstrict. destruct (texts b) as [|c u] eqn:E; [by rewrite app_nil_r|].
  specialize (Hstrict (texts a) (c :: u) (texts d) eq_refl ltac:(done)). lia.
Qed.

(** *** Positions that a chunk answers

    [place a d P]: the position [P] belongs after the text [a] and before [d];
    [ans a d P y]: [y] is a right answer there. Both can be read in the chunk that
    holds the position as in the whole text. *)
Record Placed {A B} `{!TextDimension A, !TextDimension B} (key : A → N) (sub_ : A → A → option A) s
    (place : str → str → A → Prop) (ans : str → str → A → B → Prop) : Prop := {
  place_le a d P : s = a ++ d → place a d P → key (measure a) <= key P;
  place_lt a c d P : s = a ++ c :: d → place a (c :: d) P → key P < key (measure (a ++ [c]));
  place_sub b u w z P : s = b ++ u ++ w ++ z → place (b ++ u) (w ++ z) P →
    w ≠ [] ∨ key P = key (measure (b ++ u)) →
    ∃ Q, sub_ P (measure b) = Some Q ∧ place u w Q ∧
         ∀ y, ans u w Q y → ans (b ++ u) (w ++ z) P (td_add (measure b) y) }.

Section convert.
Context {A B : Type} `{TextDimensionLaws A, TextDimensionLaws B} (key : A → N) (sub_ : A → A → option A).
Variables (place : str → str → A → Prop) (ans : str → str → A → B → Prop).
Variable in_chunk : ChunkSlice → A → option B.
Context r a d P (Htext : rope_text r = a ++ d) (Hkey : TextKey A key sub_ (rope_text r))
  (Hplaced : Placed key sub_ (rope_text r) place ans) (Hplace : place a d P).

Lemma key_mono u w z : rope_text r = u ++ w ++ z → key (measure u) <= key (measure (u ++ w)).
Proof.
  intros Hs. destruct w as [|c w]; [by rewrite app_nil_r|].
  destruct Hkey as [_ Hstrict _]. pose proof (Hstrict u (c :: w) z Hs ltac:(done)). lia.
Qed.

(** Where the place of the position is, by comparing it with a prefix of the text. *)
Lemma prefix_before u w : rope_text r = u ++ w → key (measure u) <= key P → ∃ m, a = u ++ m ∧ w = m ++ d.
Proof.
  intros Hs Hle. pose proof Htext as Heq. rewrite Hs in Heq.
  apply app_eq_app in Heq as (z & [[-> ->]|[-> ->]]); [|by exists z].
  destruct z as [|c z]; [exists []; by rewrite !app_nil_r|]. exfalso.
  pose proof (place_lt _ _ _ _ _ Hplaced a c (z ++ w) P Htext Hplace).
  pose proof (key_mono (a ++ [c]) z w) as Hm. rewrite <- !app_assoc in Hm. cbn [app] in Hm.
  specialize (Hm Htext). lia.
Qed.

Lemma prefix_after u w : rope_text r = u ++ w → key P < key (measure u) → ∃ m, m ≠ [] ∧ u = a ++ m ∧ d = m ++ w.
Proof.
  intros Hs Hlt. pose proof Htext as Heq. rewrite Hs in Heq.
  assert (∀ m, a = u ++ m → d ≠ w → w = m ++ d → False) as Hno.
  { intros m -> _ ->. pose proof (place_le _ _ _ _ _ Hplaced _ _ P Htext Hplace).
    pose proof (key_mono u m d Hs). lia. }
  apply app_eq_app in Heq as (z & [[-> ->]|[Ha Hw]]).
  - exists z. split_and!; [|done|done]. intros ->. rewrite app_nil_r in Hlt.
    pose proof (place_le _ _ _ _ _ Hplaced _ _ P Htext Hplace). lia.
  - exfalso. subst a. pose proof (place_le _ _ _ _ _ Hplaced _ _ P Htext Hplace).
    pose proof (key_mono u z d ltac:(by rewrite Hs, Hw)). lia.
Qed.

(** The chunk that [find] stops at holds the place. *)
Lemma placed_chunk bias b k x : tree_items (chunks r) = b ++ x :: k →
  b = [] ∨ passes bias (key P) (key (measure (texts b))) →
  ¬ passes bias (key P) (key (measure (texts (b ++ [x])))) →
  ∃ u w, a = texts b ++ u ∧ ptext x = u ++ w ∧ d = w ++ texts k ∧
    (w ≠ [] ∨ key P = key (measure (texts b ++ u))).
Proof.
  intros Hi Hb Hx. rewrite texts_app, texts_one in Hx.
  assert (rope_text r = texts b ++ ptext x ++ texts k) as Hs
    by (unfold rope_text; by rewrite Hi, texts_app, texts_cons).
  assert (∃ u, a = texts b ++ u ∧ ptext x ++ texts k = u ++ d) as (u & Ha & Hud).
  { destruct Hb as [->|Hb]; [by exists a; rewrite <- Htext, Hs|]. apply prefix_before; [done|].
    destruct bias; unfold passes in Hb; lia. }
  assert (rope_text r = (texts b ++ ptext x) ++ texts k) as Hs' by (by rewrite Hs, app_assoc).
  assert (key P < key (measure (texts b ++ ptext x)) ∨ key P = key (measure (texts b ++ ptext x))) as [Hlt|Heq]
    by (unfold passes in Hx; destruct bias; lia).
  - destruct (prefix_after _ _ Hs' Hlt) as (w & Hw & Hbx & Hd). exists u, w.
    rewrite Ha, <- app_assoc in Hbx. apply app_inv_head in Hbx. split_and!; [done..|by left].
  - destruct (prefix_before _ _ Hs' ltac:(lia)) as (m & Hm & Hk).
    pose proof (place_le _ _ _ _ _ Hplaced _ _ P Htext Hplace) as Hle. rewrite Hm in Hle.
    destruct m as [|c m].
    + rewrite app_nil_r in Hm. exists (ptext x), [].
      rewrite app_nil_r. split_and!; [done|done|done|by right].
    + exfalso. pose proof (key_strict (TextKey := Hkey) (texts b ++ ptext x) (c :: m) d) as Hst.
      rewrite <- Hk in Hst. specialize (Hst Hs' ltac:(done)). lia.
Qed.

Lemma placed_past (bias : Bias) : tree_items (chunks r) = [] ∨ passes bias (key P) (key (measure (rope_text r))) → d = [].
Proof.
  intros [Hi|Hp].
  - unfold rope_text in Htext. rewrite Hi in Htext. symmetry in Htext. by apply app_nil in Htext as [_ ->].
  - destruct (prefix_before (rope_text r) []) as (m & _ & Hm); [by rewrite app_nil_r| |].
    + destruct bias; unfold passes in Hp; lia.
    + symmetry in Hm. by apply app_nil in Hm as [_ ->].
Qed.

(** Any means that finds the chunk of the position asks it for the rest. *)
Lemma convert_found bias start item : d ≠ [] →
  found (D := A * B) (λ p, key p.1) bias (key P) r start item →
  ∃ b u w Q, Str.length_utf8 (u ++ w) <= MAX_BASE ∧ scalars (u ++ w) ∧ place u w Q ∧
    (∀ y, ans u w Q y → ans a d P (td_add (measure b) y)) ∧
    convert sub_ td_add td_zero in_chunk P start item = td_add (measure b) <$> in_chunk (chunk_of (u ++ w)) Q.
Proof.
  intros Hd Hf. destruct item as [x|]; cbn [found] in Hf.
  - destruct Hf as (b & k & Hi & -> & Hb & Hx).
    destruct (placed_chunk bias b k x Hi Hb Hx) as (u & w & Ha & Hxw & Hdw & Hw).
    destruct (place_sub _ _ _ _ _ Hplaced (texts b) u w (texts k) P) as (Q & HQ & HQp & Hans);
      [by rewrite Htext, Ha, Hdw, <- !app_assoc|by rewrite <- Ha, <- Hdw|done|].
    destruct (piece_chunk x) as (Hc & Hlen & Hsc). rewrite Hxw in Hlen, Hsc.
    exists (texts b), u, w, Q. split_and!; [done|done|done| |].
    + intros y. rewrite Ha, Hdw. by apply Hans.
    + unfold convert. cbn [fst snd].
      change (measure (texts b)).1 with (measure (D := A) (texts b)).
      change (measure (texts b)).2 with (measure (D := B) (texts b)).
      rewrite HQ. cbn [mbind option_bind]. rewrite Hc, Hxw. by destruct (in_chunk _ Q).
  - destruct Hd. destruct Hf as [_ Hf]. by apply (placed_past bias).
Qed.

Lemma pair_ordered : ordered (λ p : A * B, key p.1) (tree_items (chunks r)).
Proof. by apply (key_ordered (D := A * B) fst key sub_). Qed.

Lemma find_by_found : rope_ok r →
  let '(start, item) := find_by (B := B) (λ p, key P ?= key p) BiasLeft r in
  found (D := A * B) (λ p, key p.1) BiasLeft (key P) r start item.
Proof.
  intros Hok. unfold find_by.
  pose proof (find_located (D := A * B) (λ p, key p.1) BiasLeft (key P) r Hok pair_ordered) as Hf.
  change (@text_dimension (A * B) _) with (@pair_dimension A B ChunkSummary () _ _) in Hf.
  by destruct (find _ _ _ _) as [[start e] item].
Qed.

Lemma seek_by_found : rope_ok r → shallow r →
  returns (seek_by (B := B) (λ p, key P ?= key p) BiasLeft r)
    (λ '(start, item), found (D := A * B) (λ p, key p.1) BiasLeft (key P) r start item).
Proof.
  intros Hok Hsh. unfold seek_by.
  destruct (seek_located (D := A * B) (λ p, key p.1) BiasLeft (key P) r Hok Hsh pair_ordered)
    as ([f c] & Hs & item & Hi & Hf); [by apply (key_zero (key := key) (s := rope_text r))|].
  change (@text_dimension (A * B) _) with (@pair_dimension A B ChunkSummary () _ _) in *.
  rewrite Hs. cbn [mbind option_bind]. rewrite Hi. by apply returns_ret.
Qed.

(** When the chunk gives a right answer, ... *)
Section answers.
Hypothesis in_chunk_ok : ∀ u w Q, Str.length_utf8 (u ++ w) <= MAX_BASE → scalars (u ++ w) → place u w Q →
  returns (in_chunk (chunk_of (u ++ w)) Q) (ans u w Q).

Lemma convert_answers start item : d ≠ [] → found (D := A * B) (λ p, key p.1) BiasLeft (key P) r start item →
  returns (convert sub_ td_add td_zero in_chunk P start item) (ans a d P).
Proof.
  intros Hd Hf. destruct (convert_found _ _ _ Hd Hf) as (b & u & w & Q & Hlen & Hsc & HQ & Hans & ->).
  apply returns_fmap. eapply returns_mono; [by apply in_chunk_ok|exact Hans].
Qed.

Lemma convert_find : rope_ok r → d ≠ [] →
  returns (let '(start, item) := find_by (B := B) (λ p, key P ?= key p) BiasLeft r in
           convert sub_ td_add td_zero in_chunk P start item) (ans a d P).
Proof.
  intros Hok Hd. pose proof (find_by_found Hok) as Hf. destruct (find_by _ _ _). by apply convert_answers.
Qed.

Lemma convert_seek : rope_ok r → shallow r → d ≠ [] →
  returns ('(start, item) ← seek_by (B := B) (λ p, key P ?= key p) BiasLeft r;
           convert sub_ td_add td_zero in_chunk P start item) (ans a d P).
Proof.
  intros Hok Hsh Hd. eapply returns_bind; [by apply seek_by_found|]. intros [start item] Hf. by apply convert_answers.
Qed.
End answers.

(** ... and when it panics. *)
Section panics.
Hypothesis in_chunk_panics : ∀ u w Q, Str.length_utf8 (u ++ w) <= MAX_BASE → scalars (u ++ w) → place u w Q →
  in_chunk (chunk_of (u ++ w)) Q = None.

Lemma convert_panics start item : d ≠ [] → found (D := A * B) (λ p, key p.1) BiasLeft (key P) r start item →
  convert sub_ td_add td_zero in_chunk P start item = None.
Proof.
  intros Hd Hf. destruct (convert_found _ _ _ Hd Hf) as (b & u & w & Q & Hlen & Hsc & HQ & _ & ->). by rewrite in_chunk_panics.
Qed.

Lemma find_panics : rope_ok r → d ≠ [] →
  (let '(start, item) := find_by (B := B) (λ p, key P ?= key p) BiasLeft r in
   convert sub_ td_add td_zero in_chunk P start item) = None.
Proof.
  intros Hok Hd. pose proof (find_by_found Hok) as Hf. destruct (find_by _ _ _). by apply convert_panics.
Qed.

Lemma seek_panics : rope_ok r → shallow r → d ≠ [] →
  ('(start, item) ← seek_by (B := B) (λ p, key P ?= key p) BiasLeft r;
   convert sub_ td_add td_zero in_chunk P start item) = None.
Proof.
  intros Hok Hsh Hd. destruct (seek_by_found Hok Hsh) as ([start item] & -> & Hf). by apply convert_panics.
Qed.
End panics.
End convert.

(** *** At character boundaries *)

Lemma summary_text r : rope_ok r → summary r = TextSummaryOps.from (rope_text r).
Proof.
  intros [Hok _]. unfold summary, rope_text.
  pose proof (posn_texts (D := TextSummary) (tree_items (chunks r))) as Hp.
  change (measure (texts (tree_items (chunks r)))) with (TextSummaryOps.from (texts (tree_items (chunks r)))) in Hp.
  rewrite <- Hp. destruct Hok as [->|[h Hh]]; [done|].
  pose proof (dadd_summary (D := TextSummary) () td_zero h (chunks r) Hh) as Hd.
  etransitivity; [|exact Hd]. symmetry. apply add_zero_summary_l, goodb_good, stext_good.
Qed.

Section boundaries.
Context {A B : Type} `{TextDimensionLaws A, TextDimensionLaws B} (key : A → N) (sub_ : A → A → option A).
Variables (place : str → str → A → Prop) (ans : str → str → A → B → Prop).
Variable in_chunk : ChunkSlice → A → option B.
Hypothesis in_chunk_ok : ∀ u w Q, Str.length_utf8 (u ++ w) <= MAX_BASE → scalars (u ++ w) → place u w Q →
  returns (in_chunk (chunk_of (u ++ w)) Q) (ans u w Q).
Context r a d P (Hok : rope_ok r) (Htext : rope_text r = a ++ d) (Hkey : TextKey A key sub_ (rope_text r))
  (Hplaced : Placed key sub_ (rope_text r) place ans) (Hplace : place a d P)
  (Hend : d = [] → ans a d P (measure a)).

(** The first test of a conversion: is the position at the end of the text? *)
Lemma at_end : is_ge (key P ?= key (from_text_summary (summary r))) = bool_decide (d = []).
Proof.
  rewrite summary_text, Htext by done. change (from_text_summary _) with (measure (D := A) (a ++ d)).
  destruct d as [|c d'].
  - rewrite app_nil_r in *. pose proof (place_le _ _ _ _ _ Hplaced a [] P) as Hle.
    rewrite app_nil_r in Hle. specialize (Hle Htext Hplace).
    rewrite bool_decide_true by done. by destruct (N.compare_spec (key P) (key (measure a))); [| lia|].
  - assert (key P < key (measure (a ++ c :: d'))) as Hlt.
    { pose proof (place_lt _ _ _ _ _ Hplaced a c d' P Htext Hplace).
      pose proof (key_mono key sub_ r Hkey (a ++ [c]) d' []) as Hm. rewrite app_nil_r, <- app_assoc in Hm.
      specialize (Hm Htext). cbn [app] in Hm. lia. }
    apply N.compare_lt_iff in Hlt. by rewrite Hlt.
Qed.

Lemma at_end_text : d = [] → ans a d P (from_text_summary (summary r)).
Proof. intros Hd. rewrite summary_text, Htext, Hd, app_nil_r by done. rewrite <- Hd. by apply Hend. Qed.

Lemma placed_find (test : bool) : test = bool_decide (d = []) →
  returns (if test then Some (from_text_summary (summary r))
   else let '(start, item) := find_by (B := B) (λ p, key P ?= key p) BiasLeft r in
        convert sub_ td_add td_zero in_chunk P start item) (ans a d P).
Proof.
  intros ->. case_bool_decide as Hd; [by apply returns_ret, at_end_text|].
  by apply (convert_find key sub_ place ans in_chunk).
Qed.

Lemma placed_seek (test : bool) : shallow r → test = bool_decide (d = []) →
  returns (if test then Some (from_text_summary (summary r))
   else '(start, item) ← seek_by (B := B) (λ p, key P ?= key p) BiasLeft r;
        convert sub_ td_add td_zero in_chunk P start item) (ans a d P).
Proof.
  intros Hsh ->. case_bool_decide as Hd; [by apply returns_ret, at_end_text|].
  by apply (convert_seek key sub_ place ans in_chunk).
Qed.
End boundaries.

(** A position at a character boundary. *)
Definition exact {A} `{!TextDimension A} (a d : str) (P : A) : Prop := P = measure a.
Definition answer {A B} `{!TextDimension B} (a d : str) (P : A) (y : B) : Prop := y = measure a.

Lemma exact_placed {A B} `{TextDimensionLaws A, TextDimensionLaws B} (key : A → N) sub_ s :
  TextKey A key sub_ s → Placed (B := B) key sub_ s exact answer.
Proof.
  intros [Hz Hstrict Hsub]. unfold exact, answer. split.
  - intros a d P _ ->. lia.
  - intros a c d P Hs ->. by apply (Hstrict a [c] d).
  - intros b u w z P Hs -> _. exists (measure u). split; [by apply (Hsub b u (w ++ z))|].
    split; [done|]. intros y ->. by rewrite measure_app.
Qed.

Section exact.
Context {A B : Type} `{TextDimensionLaws A, TextDimensionLaws B} (key : A → N) (sub_ : A → A → option A).
Variable in_chunk : ChunkSlice → A → option B.
Hypothesis in_chunk_ok : ∀ u w, Str.length_utf8 (u ++ w) <= MAX_BASE →
  in_chunk (chunk_of (u ++ w)) (measure u) = Some (measure u).
Context r a d (Hok : rope_ok r) (Htext : rope_text r = a ++ d) (Hkey : TextKey A key sub_ (rope_text r)).

Lemma exact_in_chunk u w (Q : A) : Str.length_utf8 (u ++ w) <= MAX_BASE → scalars (u ++ w) → exact u w Q →
  returns (in_chunk (chunk_of (u ++ w)) Q) (answer u w Q).
Proof. intros Hlen _ ->. exists (measure u). split; [by apply in_chunk_ok|done]. Qed.

Lemma at_boundary : is_ge (key (measure a) ?= key (from_text_summary (summary r))) = bool_decide (d = []).
Proof. by apply (at_end (B := B) key sub_ exact answer r a d (measure a) Hok Htext Hkey (exact_placed key sub_ _ Hkey)). Qed.

Lemma boundary_find (test : bool) : test = bool_decide (d = []) →
  (if test then Some (from_text_summary (summary r))
   else let '(start, item) := find_by (B := B) (λ p, key (measure a) ?= key p) BiasLeft r in
        convert sub_ td_add td_zero in_chunk (measure a) start item) = Some (measure a).
Proof.
  intros Ht. destruct (placed_find key sub_ exact answer in_chunk exact_in_chunk r a d (measure a) Hok Htext Hkey
    (exact_placed key sub_ _ Hkey) eq_refl (λ _, eq_refl) test Ht) as (y & Hy & ->). exact Hy.
Qed.

Lemma boundary_seek (test : bool) : shallow r → test = bool_decide (d = []) →
  (if test then Some (from_text_summary (summary r))
   else '(start, item) ← seek_by (B := B) (λ p, key (measure a) ?= key p) BiasLeft r;
        convert sub_ td_add td_zero in_chunk (measure a) start item) = Some (measure a).
Proof.
  intros Hsh Ht. destruct (placed_seek key sub_ exact answer in_chunk exact_in_chunk r a d (measure a) Hok Htext Hkey
    (exact_placed key sub_ _ Hkey) eq_refl (λ _, eq_refl) test Hsh Ht) as (y & Hy & ->). exact Hy.
Qed.
End exact.

(** What the conversions rely on in a chunk. *)
Lemma measure_utf16 u : measure u = mkOffsetUtf16 (Str.length_utf16 u).
Proof. unfold measure. cbn [from_text_summary offset_utf16_td]. by rewrite len_utf16_from. Qed.

Section in_chunks.
Context (debug_assertions clip : bool) u w (Hlen : Str.length_utf8 (u ++ w) <= MAX_BASE).

Lemma chunk_offset_to_utf16 :
  Some (mkOffsetUtf16 (ChunkOps.offset_to_offset_utf16 (chunk_of (u ++ w)) (measure u))) = Some (measure u).
Proof. rewrite (measure_utf16 u). do 2 f_equal. by apply offset_to_offset_utf16_ok. Qed.

Lemma chunk_utf16_to_offset :
  ChunkOps.offset_utf16_to_offset (chunk_of (u ++ w)) (units (measure u)) = Some (measure u).
Proof. rewrite measure_utf16. by apply offset_utf16_to_offset_ok. Qed.

Lemma chunk_utf16_to_point :
  (o ← ChunkOps.point_utf16_to_offset debug_assertions (chunk_of (u ++ w)) (measure u) clip; ChunkOps.offset_to_point (chunk_of (u ++ w)) o) =
  Some (measure u).
Proof. rewrite point_utf16_to_offset_ok by done. by apply offset_to_point_ok. Qed.

Lemma chunk_point_to_utf16 :
  mkOffsetUtf16 <$> ChunkOps.point_to_offset_utf16 debug_assertions (chunk_of (u ++ w)) (measure u) = Some (measure u).
Proof. rewrite point_to_offset_utf16_ok, measure_utf16 by done. done. Qed.

Lemma chunk_point_utf16_to_utf16 :
  (o ← ChunkOps.point_utf16_to_offset debug_assertions (chunk_of (u ++ w)) (measure u) clip;
   Some (mkOffsetUtf16 (ChunkOps.offset_to_offset_utf16 (chunk_of (u ++ w)) o))) = Some (measure u).
Proof. rewrite point_utf16_to_offset_ok by done. apply chunk_offset_to_utf16. Qed.

Lemma chunk_offset_to_point : ChunkOps.offset_to_point (chunk_of (u ++ w)) (measure u) = Some (measure u).
Proof. by apply offset_to_point_ok. Qed.
Lemma chunk_point_to_offset : ChunkOps.point_to_offset debug_assertions (chunk_of (u ++ w)) (measure u) = Some (measure u).
Proof. by apply point_to_offset_ok. Qed.
Lemma chunk_offset_to_point_utf16 :
  ChunkOps.offset_to_point_utf16 (chunk_of (u ++ w)) (measure u) = Some (measure u).
Proof. by apply offset_to_point_utf16_ok. Qed.
Lemma chunk_point_utf16_to_offset :
  ChunkOps.point_utf16_to_offset debug_assertions (chunk_of (u ++ w)) (measure u) clip = Some (measure u).
Proof. by apply point_utf16_to_offset_ok. Qed.
Lemma chunk_point_to_point_utf16 :
  ChunkOps.point_to_point_utf16 debug_assertions (chunk_of (u ++ w)) (measure u) = Some (measure u).
Proof. by apply point_to_point_utf16_ok. Qed.
Lemma chunk_unclipped_point :
  ChunkOps.unclipped_point_utf16_to_point (chunk_of (u ++ w)) (mkUnclipped (measure u)) = Some (measure u).
Proof. by apply unclipped_point_ok. Qed.
End in_chunks.

Lemma point_to_offset_at debug_assertions r a d : rope_ok r → rope_text r = a ++ d → fits (rope_text r) →
  point_to_offset debug_assertions r (Text.lines (TextSummaryOps.from a)) = Some (tlen (TextSummaryOps.from a)).
Proof.
  intros Hok Htext Hfits. pose proof (point_key (x := Utf8) Str.length_utf8 (rope_text r) Hfits) as Hk.
  refine (boundary_find packed sub _ (chunk_point_to_offset debug_assertions) r a d Hok Htext Hk _ _).
  exact (at_boundary (B := N) packed sub r a d Hok Htext Hk).
Qed.

(** C19: at every character boundary of a rope of less than 2^32 bytes, the conversions between byte
    offsets, UTF-16 offsets, points and UTF-16 points give the measures of the text before the
    boundary; so converting there and back is the identity. None of their subtractions underflows,
    and no debug assertion fails. *)
Theorem rope_offsets_roundtrip debug_assertions r a d (Hok : rope_ok r) (Hsh : shallow r) (Htext : rope_text r = a ++ d)
    (Hfits : fits (rope_text r)) :
  let s := TextSummaryOps.from a in
  offset_to_point r (tlen s) = Some (Text.lines s) ∧
  point_to_offset debug_assertions r (Text.lines s) = Some (tlen s) ∧
  offset_to_offset_utf16 r (tlen s) = Some (mkOffsetUtf16 (Text.len_utf16 s)) ∧
  offset_utf16_to_offset r (mkOffsetUtf16 (Text.len_utf16 s)) = Some (tlen s) ∧
  offset_to_point_utf16 r (tlen s) = Some (TextSummaryOps.lines_utf16 s) ∧
  point_utf16_to_offset debug_assertions r (TextSummaryOps.lines_utf16 s) = Some (tlen s) ∧
  point_to_point_utf16 debug_assertions r (Text.lines s) = Some (TextSummaryOps.lines_utf16 s) ∧
  point_utf16_to_point debug_assertions r (TextSummaryOps.lines_utf16 s) = Some (Text.lines s) ∧
  point_to_offset_utf16 debug_assertions r (Text.lines s) = Some (mkOffsetUtf16 (Text.len_utf16 s)) ∧
  point_utf16_to_offset_utf16 debug_assertions r (TextSummaryOps.lines_utf16 s) = Some (mkOffsetUtf16 (Text.len_utf16 s)) ∧
  unclipped_point_utf16_to_point r (mkUnclipped (TextSummaryOps.lines_utf16 s)) = Some (Text.lines s).
Proof.
  intros s. pose proof (point_key (x := Utf8) Str.length_utf8 (rope_text r) Hfits) as Hp8.
  pose proof (point_key (x := Utf16) Str.length_utf16 (rope_text r) Hfits) as Hp16.
  pose proof (usize_key (rope_text r)) as Hk. pose proof (offset_utf16_key (rope_text r)) as Hk16.
  assert ((tlen (summary r) <=? tlen s) = bool_decide (d = [])) as Htest.
  { rewrite <- (at_boundary (A := N) (B := N) (λ n, n) usize_sub r a d Hok Htext Hk).
    change (from_text_summary (summary r)) with (tlen (summary r)). change (measure a) with (tlen s).
    unfold is_ge. destruct (N.leb_spec (tlen (summary r)) (tlen s)), (N.compare_spec (tlen s) (tlen (summary r))); done || lia. }
  assert (is_ge (cmp (Text.lines s) (Text.lines (summary r))) = bool_decide (d = [])) as Ht8
    by exact (at_boundary (B := N) packed sub r a d Hok Htext Hp8).
  assert (is_ge (cmp (TextSummaryOps.lines_utf16 s) (TextSummaryOps.lines_utf16 (summary r))) = bool_decide (d = []))
    as Ht16 by exact (at_boundary (B := N) packed sub r a d Hok Htext Hp16).
  assert (is_ge (utf16_cmp (mkOffsetUtf16 (Text.len_utf16 s)) (mkOffsetUtf16 (Text.len_utf16 (summary r)))) =
    bool_decide (d = [])) as Htu by exact (at_boundary (B := N) units utf16_sub r a d Hok Htext Hk16).
  split_and!.
  - exact (boundary_find (λ n, n) usize_sub _ chunk_offset_to_point r a d Hok Htext Hk _ Htest).
  - by apply (point_to_offset_at debug_assertions r a d).
  - exact (boundary_find (λ n, n) usize_sub (λ c o, Some (mkOffsetUtf16 (ChunkOps.offset_to_offset_utf16 c o)))
      chunk_offset_to_utf16 r a d Hok Htext Hk _ Htest).
  - exact (boundary_find units utf16_sub (λ c o, ChunkOps.offset_utf16_to_offset c (units o))
      chunk_utf16_to_offset r a d Hok Htext Hk16 _ Htu).
  - exact (boundary_find (λ n, n) usize_sub _ chunk_offset_to_point_utf16 r a d Hok Htext Hk _ Htest).
  - exact (boundary_find packed sub _ (chunk_point_utf16_to_offset debug_assertions false) r a d Hok Htext Hp16 _ Ht16).
  - exact (boundary_find packed sub _ (chunk_point_to_point_utf16 debug_assertions) r a d Hok Htext Hp8 _ Ht8).
  - exact (boundary_seek packed sub
      (λ c overshoot, o ← ChunkOps.point_utf16_to_offset debug_assertions c overshoot false; ChunkOps.offset_to_point c o)
      (chunk_utf16_to_point debug_assertions false) r a d Hok Htext Hp16 _ Hsh Ht16).
  - exact (boundary_seek packed sub (λ c p, mkOffsetUtf16 <$> ChunkOps.point_to_offset_utf16 debug_assertions c p)
      (chunk_point_to_utf16 debug_assertions) r a d Hok Htext Hp8 _ Hsh Ht8).
  - exact (boundary_seek packed sub
      (λ c overshoot, o ← ChunkOps.point_utf16_to_offset debug_assertions c overshoot false;
                      Some (mkOffsetUtf16 (ChunkOps.offset_to_offset_utf16 c o)))
      (chunk_point_utf16_to_utf16 debug_assertions false) r a d Hok Htext Hp16 _ Hsh Ht16).
  - exact (boundary_find packed sub (λ c p, ChunkOps.unclipped_point_utf16_to_point c (mkUnclipped p))
      chunk_unclipped_point r a d Hok Htext Hp16 _ Ht16).
Qed.
