(* ===== verification/RopeClip.v ===== *)
(** * Positions outside the text: clamping and clipping of [crates/rope/src/rope.rs]

    A position that is no character boundary belongs after the longest prefix
    of its row that ends at or before it. The conversions of points answer
    with that prefix, except where a debug build panics, and clipping goes to
    it or to the character after it. *)

From S2P Require Import Prelude SumTree SumCursor CursorSpec CursorWalk Points Text Chunk ChunkSpec Rope RopeText RopeSpec.
Import NodeOps TreeOps PointOps RopeOps.

#[local] Unset Default Proof Using.
#[local] Arguments Nat.mul : simpl never.
#[local] Arguments TextSummaryOps.from : simpl never.
#[local] Open Scope N_scope.

Implicit Types (r : Rope) (l k : list Piece) (s a d u w : str).

(** ** Positions in rows *)

Lemma le_trans {x} (p q o : PointOf x) : Points.le p q → Points.le q o → Points.le p o.
Proof. unfold Points.le. lia. Qed.

Lemma le_packed {x} (p q : PointOf x) : in_range p → in_range q → Points.le p q ↔ packed p <= packed q.
Proof.
  intros [_ Hp] [_ Hq]. rewrite !packed_sum by done. unfold Points.le, u32_modulus in *. lia.
Qed.

(** The position [P] belongs after [a]: in the last row of [a], at or after its
    end, and less than [inside c] into the next character [c] of the row. *)
Record rests {x} `{!TextDimension (PointOf x)} (inside : N → N) (a d : str) (P : PointOf x) : Prop := {
  rests_range : in_range P;
  rests_row : row P = newlines_in a;
  rests_column : column (measure a : PointOf x) <= column P;
  rests_inside c d' : d = c :: d' → c ≠ newline_char → column P < column (measure a : PointOf x) + inside c }.

Section rows.
Context {x : Units} `{!TextDimension (PointOf x)} (width : str → N) `{!LineMeasure x width}.
Variable inside : N → N.
Hypothesis inside_width : ∀ c, inside c <= width [c].

Lemma measure_row a : row (measure a : PointOf x) = newlines_in a.
Proof.
  destruct (last_line_exists a) as (p & l & -> & Hl & Hp).
  rewrite (line_measure (width := width)), newlines_in_app by done. cbn [row]. lia.
Qed.

Lemma add_measure a u : measure (a ++ u) = add (measure a) (measure u : PointOf x).
Proof. pose proof (line_laws (width := width)). by rewrite measure_app, (line_add (width := width)). Qed.

Lemma char_column a c : c ≠ newline_char →
  column (measure (a ++ [c]) : PointOf x) = column (measure a : PointOf x) + width [c].
Proof.
  intros Hc. assert (newlines_in [c] = 0) as Hl by (simpl; by destruct (N.eqb_spec c newline_char)).
  rewrite add_measure. pose proof (line_measure (x := x) (width := width) [] [c] (or_introl eq_refl) Hl) as Hm.
  cbn [app] in Hm. rewrite Hm. done.
Qed.

Lemma rests_le a d (P : PointOf x) : fits a → rests inside a d P → packed (measure a : PointOf x) <= packed P.
Proof.
  intros Hf [Hr Hrow Hcol _]. apply le_packed; [by apply (line_range (width := width))|done|].
  right. by rewrite measure_row.
Qed.

Lemma rests_lt a c d (P : PointOf x) : fits (a ++ [c]) → rests inside a (c :: d) P →
  packed P < packed (measure (a ++ [c]) : PointOf x).
Proof.
  intros Hf [Hr Hrow Hcol Hin]. apply N.lt_nge. rewrite <- le_packed by (done || by apply (line_range (width := width))).
  unfold Points.le. rewrite measure_row, newlines_in_app, Hrow. cbn [newlines_in].
  destruct (N.eqb_spec c newline_char) as [|Hc]; [cbn [N.b2n]; lia|].
  rewrite char_column by done. pose proof (inside_width c). specialize (Hin c d eq_refl Hc). lia.
Qed.

(** The rest of a position, in the chunk that holds it. *)
Lemma rests_shift b u w z (P : PointOf x) : fits (b ++ u) → rests inside (b ++ u) (w ++ z) P →
  ∃ Q, sub P (measure b) = Some Q ∧ add (measure b) Q = P ∧ rests inside u w Q.
Proof.
  intros Hf HP. pose proof (fits_prefix b u Hf) as Hfb.
  assert (in_range (measure (b ++ u) : PointOf x)) as Hbu by by apply (line_range (width := width)).
  assert (in_range (measure b : PointOf x)) as Hb by by apply (line_range (width := width)).
  pose proof HP as [Hr Hrow Hcol Hin].
  destruct (sub_below (measure b) P) as (Q & HQ & Hadd & HQr); [done|done| |].
  { apply le_trans with (measure (b ++ u)); [rewrite add_measure; apply le_add|].
    apply le_packed; [done|done|]. by apply (rests_le _ _ _ Hf HP). }
  exists Q. split; [done|]. split; [done|].
  rewrite newlines_in_app, <- Hadd, add_row, measure_row in Hrow. rewrite add_measure in Hcol, Hin.
  pose proof (measure_row u) as Hu. split; [done|lia| |].
  - rewrite <- Hadd in Hcol. unfold add, PointOps.new in Hcol.
    destruct (N.eqb_spec (row (measure u : PointOf x)) 0), (N.eqb_spec (row Q) 0); cbn [column] in Hcol; lia.
  - intros c w' -> Hc. specialize (Hin c (w' ++ z) eq_refl Hc).
    rewrite <- Hadd in Hin. unfold add, PointOps.new in Hin.
    destruct (N.eqb_spec (row (measure u : PointOf x)) 0), (N.eqb_spec (row Q) 0); cbn [column] in Hin; lia.
Qed.

Lemma rests_placed {B} `{!TextDimension B} s (ans : str → str → PointOf x → B → Prop) : fits s →
  (∀ b u w z P Q y, add (measure b) Q = P → rests inside u w Q → w ≠ [] ∨ Q = measure u →
     ans u w Q y → ans (b ++ u) (w ++ z) P (td_add (measure b) y)) →
  Placed packed sub s (rests inside) ans.
Proof.
  intros Hf Hans. split.
  - intros a d P ->. apply rests_le. by apply fits_prefix in Hf.
  - intros a c d P ->. apply rests_lt. apply (fits_prefix _ d). by rewrite <- app_assoc.
  - intros b u w z P -> HP Hw. rewrite app_assoc in Hf. apply fits_prefix in Hf.
    destruct (rests_shift b u w z P Hf HP) as (Q & HQ & Hadd & HQp). exists Q. split_and!; [done|done|].
    intros y. apply Hans; [done|done|]. destruct Hw as [Hw|Hw]; [by left|right].
    assert (in_range (measure (b ++ u) : PointOf x)) as Hbu by by apply (line_range (width := width)).
    pose proof (rests_range _ _ _ _ HP) as HPr.
    apply (add_cancel (measure b)). rewrite Hadd, <- add_measure.
    destruct HPr as [_ H1], Hbu as [_ H2]. rewrite !packed_sum in Hw by done. unfold u32_modulus in *.
    apply point_ext; lia.
Qed.
End rows.

(** *** In a chunk *)

(** The row of a chunk in which a position rests. *)
Lemma rests_in_row {x} `{!TextDimension (PointOf x)} width `{!LineMeasure x width} inside u w (Q : PointOf x) :
  rests inside u w Q → ∃ p m m' e, u = p ++ m ∧ w = m' ++ e ∧ row_start p ∧ newlines_in (m ++ m') = 0 ∧ row_end e ∧
    newlines_in u = newlines_in p ∧ column (measure u : PointOf x) = width m ∧
    width m <= column Q ∧ (m' = [] ∨ ∃ c n, m' = c :: n ∧ column Q < width m + inside c).
Proof.
  intros [_ _ Hcol Hin].
  destruct (prefix_row u w) as (p & m & m' & e & -> & -> & Hp & Hm & He & _ & _).
  pose proof Hm as Hm'. rewrite newlines_in_app in Hm'.
  rewrite (line_measure (width := width)) in * by (done || lia). cbn [column] in *.
  exists p, m, m', e. split_and!; try done.
  - rewrite newlines_in_app. lia.
  - destruct m' as [|c n]; [by left|]. right. exists c, n. split; [done|]. apply (Hin c (n ++ e)); [done|].
    intros ->. cbn [newlines_in] in Hm'. cbn in Hm'. lia.
Qed.





Section rests_in_chunk.
Context u w (Hlen : Str.length_utf8 (u ++ w) <= MAX_BASE).




End rests_in_chunk.

(** ** Clamping *)



Section clamped.
Context {x : Units} `{!TextDimension (PointOf x)} (width : str → N) `{!LineMeasure x width}.
Context (inside : N → N) (inside_width : ∀ c, inside c <= width [c]).
Context {B} `{TextDimensionLaws B}.
Variable asserts : bool.
Variable in_chunk : ChunkSlice → PointOf x → option B.
Hypothesis in_chunk_ok : ∀ u w, Str.length_utf8 (u ++ w) <= MAX_BASE → ∀ Q, rests inside u w Q →
  in_chunk (chunk_of (u ++ w)) Q = if asserts && bool_decide (Q ≠ measure u) then None else Some (measure u).
Context r a d (P : PointOf x) (Hok : rope_ok r) (Htext : rope_text r = a ++ d) (Hfits : fits (rope_text r))
  (HP : rests inside a d P).





End clamped.

(** A position in a row past the last one. *)
Lemma past_rows {x} `{!TextDimension (PointOf x)} width `{!LineMeasure x width} r (P : PointOf x) :
  rope_ok r → fits (rope_text r) → in_range P → newlines_in (rope_text r) < row P →
  is_ge (cmp P (from_text_summary (summary r))) = true.
Proof.
  intros Hok Hf HP Hrow. rewrite summary_text by done.
  change (from_text_summary _) with (measure (rope_text r) : PointOf x).
  pose proof (line_range (x := x) (width := width) _ Hf) as Hr. unfold cmp.
  rewrite <- (measure_row width) in Hrow. destruct HP as [_ H1], Hr as [_ H2]. rewrite !packed_sum by done.
  unfold u32_modulus in *.
  match goal with |- is_ge (?m ?= ?n) = _ => destruct (N.compare_spec m n) end; [done|lia|done].
Qed.

Section outside.
Context (debug_assertions : bool) r a d (Hok : rope_ok r) (Hsh : shallow r) (Htext : rope_text r = a ++ d)
  (Hfits : fits (rope_text r)).
#[local] Abbreviation s := (TextSummaryOps.from a).


End outside.


(** ** Clipping *)

(** [y] is the position that clipping [P] towards [bias] may give, when [P]
    belongs between [a] and [d]: to the left a part of [a] is given up, to the
    right a part of [d] is taken, which [reach] limits, given whether [P] is at
    the boundary itself. Nothing is, when [d] starts with an end. *)
Definition clipped {A} `{!TextDimension A} (ends : str → Prop) (reach : Bias → Prop → str → Prop) (bias : Bias)
    (a d : str) (P y : A) : Prop :=
  match bias with
  | BiasLeft => ∃ v v', a = v ++ v' ∧ y = measure v ∧ reach bias (P = measure a) v' ∧ (ends d → v' = [])
  | BiasRight => ∃ v v', d = v ++ v' ∧ y = measure (a ++ v) ∧ reach bias (P = measure a) v ∧
      (v = [] → P = measure a ∨ ends d) ∧ (ends d → v = [])
  end.

Lemma clipped_shift {A} `{TextDimensionLaws A} ends (reach : Bias → Prop → str → Prop) bias b u w z (P Q y : A) :
  (∀ (X Y : Prop) v, (X ↔ Y) → reach bias X v → reach bias Y v) →
  (w ≠ [] → ends (w ++ z) ↔ ends w) → ends [] → (Q = measure u ↔ P = measure (b ++ u)) →
  w ≠ [] ∨ Q = measure u →
  clipped ends reach bias u w Q y → clipped ends reach bias (b ++ u) (w ++ z) P (td_add (measure b) y).
Proof.
  intros Hreach Hends Hnil HPQ Hw. unfold clipped. destruct bias.
  - intros (v & v' & -> & -> & Hv & Hv'). exists (b ++ v), v'.
    split_and!; [by rewrite app_assoc|by rewrite measure_app|by apply (Hreach _ _ _ HPQ)|].
    intros He. apply Hv'. destruct w as [|c w]; [done|]. by apply Hends.
  - intros (v & v' & -> & -> & Hv & Hv1 & Hv2). exists v, (v' ++ z).
    split_and!; [by rewrite app_assoc|by rewrite <- app_assoc, <- measure_app|by apply (Hreach _ _ _ HPQ)| |];
      rewrite <- ?HPQ; (destruct (decide (v ++ v' = [])) as [He|Hne]; [|by rewrite (Hends Hne)]).
    + intros _. left. by destruct Hw.
    + by apply app_nil in He as [-> _].
Qed.

Section clip.
Context {A : Type} `{TextDimensionLaws A} (key : A → N) (sub_ : A → A → option A).
Variables (place : str → str → A → Prop) (ans : str → str → A → A → Prop).
Variable in_chunk : ChunkSlice → A → option A.
Context r (Hok : rope_ok r) (Hkey : TextKey A key sub_ (rope_text r)).

(** The common form of the clipping functions. *)
Definition clip_with P : option A :=
  let '(start, _, item) := find () (λ p, key P ?= key p) BiasRight (chunks r) in
  match item with
  | Some p => overshoot ← sub_ P start; y ← in_chunk (chunk p) overshoot; Some (td_add start y)
  | None => Some (from_text_summary (summary r))
  end.

Lemma ordered_key : ordered key (tree_items (chunks r)).
Proof. by apply (key_ordered (D := A) (λ p, p) key sub_). Qed.

(** The chunk that is asked, for a position that is not at the end of the text. *)
Lemma clip_located a d P : rope_text r = a ++ d → Placed key sub_ (rope_text r) place ans → place a d P →
  (∃ b x k u w Q, tree_items (chunks r) = b ++ x :: k ∧ ptext x = u ++ w ∧ a = texts b ++ u ∧ d = w ++ texts k ∧ w ≠ [] ∧
     Str.length_utf8 (u ++ w) <= MAX_BASE ∧ scalars (u ++ w) ∧ sub_ P (measure (texts b)) = Some Q ∧ place u w Q ∧
     (∀ y, ans u w Q y → ans a d P (td_add (measure (texts b)) y)) ∧
     clip_with P = td_add (measure (texts b)) <$> in_chunk (chunk_of (u ++ w)) Q) ∨
  d = [] ∧ clip_with P = Some (measure a).
Proof.
  intros Htext Hplaced Hplace. unfold clip_with.
  pose proof (find_located (D := A) key BiasRight (key P) r Hok ordered_key) as Hf.
  destruct (find _ _ _ _) as [[start e] item]. destruct item as [x|]; cbn [found] in Hf.
  - left. destruct Hf as (b & k & Hi & -> & Hb & Hx).
    destruct (placed_chunk key sub_ place ans r a d P Htext Hkey Hplaced Hplace BiasRight b k x Hi Hb Hx)
      as (u & w & Ha & Hxw & Hdw & Hw).
    destruct (place_sub _ _ _ _ _ Hplaced (texts b) u w (texts k) P) as (Q & HQ & HQp & Hans);
      [by rewrite Htext, Ha, Hdw, <- !app_assoc|by rewrite <- Ha, <- Hdw|done|].
    destruct (piece_chunk x) as (Hc & Hlen & Hsc). rewrite Hxw in Hlen, Hsc.
    assert (w ≠ []) as Hne.
    { intros ->. rewrite app_nil_r in Hxw. destruct Hx. unfold passes. rewrite texts_app, texts_one, Hxw, <- Ha.
      by apply (place_le _ _ _ _ _ Hplaced a d). }
    exists b, x, k, u, w, Q. split_and!; [done..| |].
    + intros y. rewrite Ha, Hdw. by apply Hans.
    + rewrite HQ. cbn [mbind option_bind]. rewrite Hc, Hxw. by destruct (in_chunk _ Q).
  - right. assert (d = []) as Hd
      by (destruct Hf as [_ Hf]; by apply (placed_past key sub_ place ans r a d P Htext Hkey Hplaced Hplace BiasRight)).
    split; [done|]. by rewrite summary_text, Htext, Hd, app_nil_r.
Qed.

Lemma clip_placed a d P : (∀ u w Q, Str.length_utf8 (u ++ w) <= MAX_BASE → scalars (u ++ w) → place u w Q →
    returns (in_chunk (chunk_of (u ++ w)) Q) (ans u w Q)) →
  rope_text r = a ++ d → Placed key sub_ (rope_text r) place ans →
  place a d P → (d = [] → ans a d P (measure a)) → returns (clip_with P) (ans a d P).
Proof.
  intros in_chunk_ok Htext Hplaced Hplace Hend.
  destruct (clip_located a d P Htext Hplaced Hplace) as [(b & x & k & u & w & Q & _ & _ & _ & _ & _ & Hlen & Hsc & _ & HQ & Hans & ->)|[Hd ->]].
  - apply returns_fmap. eapply returns_mono; [by apply in_chunk_ok|exact Hans].
  - by apply returns_ret, Hend.
Qed.

(** A position after the text is clipped to its end. *)
Lemma clip_past P : key (measure (rope_text r)) <= key P → clip_with P = Some (measure (rope_text r)).
Proof.
  intros HP. unfold clip_with. pose proof (find_located (D := A) key BiasRight (key P) r Hok ordered_key) as Hf.
  destruct (find _ _ _ _) as [[start e] item]. destruct item as [x|]; cbn [found] in Hf.
  - destruct Hf as (b & k & Hi & -> & _ & Hx). destruct Hx. unfold passes.
    assert (rope_text r = texts (b ++ [x]) ++ texts k) as Ht
      by (unfold rope_text; by rewrite Hi, <- texts_app, <- app_assoc).
    pose proof (key_mono key sub_ r Hkey (texts (b ++ [x])) (texts k) []) as Hm.
    rewrite app_nil_r, <- Ht in Hm. specialize (Hm eq_refl). lia.
  - by rewrite summary_text.
Qed.
End clip.

(** *** UTF-16 positions: to an end of the character *)

Definition one_char (bias : Bias) (here : Prop) (v : str) : Prop :=
  match bias with BiasLeft => v = [] | BiasRight => (length v ≤ 1)%nat ∧ (here → v = []) end.

Definition in_row (bias : Bias) (here : Prop) (v : str) : Prop := newlines_in v = 0.

Lemma one_char_iff bias (X Y : Prop) v : (X ↔ Y) → one_char bias X v → one_char bias Y v.
Proof. intros H. unfold one_char. destruct bias; [done|]. by rewrite H. Qed.

Lemma row_end_app w z : w ≠ [] → row_end (w ++ z) ↔ row_end w.
Proof.
  intros Hw. destruct w as [|c w]; [done|]. unfold row_end.
  split; intros [[=]|[q [= -> _]]]; right; by eexists.
Qed.

Lemma point_clipped_placed {x} `{!TextDimension (PointOf x)} width `{!LineMeasure x width} inside
    (Hin : ∀ c, inside c <= width [c]) (reach : Bias → Prop → str → Prop) bias s :
  (∀ (X Y : Prop) v, (X ↔ Y) → reach bias X v → reach bias Y v) → fits s →
  Placed (A := PointOf x) packed sub s (rests inside) (clipped row_end reach bias).
Proof.
  pose proof (line_laws (width := width)). intros Hreach Hf. apply (rests_placed width inside Hin); [done|].
  intros b u w z P Q y Hadd HQ Hw. apply clipped_shift; [done|apply row_end_app|by left| |done].
  rewrite <- Hadd, (add_measure width). split; [by intros ->|apply add_cancel].
Qed.

(** Clipping a column of a row, in UTF-16 units. *)
Lemma clip_column_utf16 m m' (n : N) bias : Str.length_utf8 (m ++ m') <= MAX_BASE →
  Str.length_utf16 m <= n → (m' = [] ∨ ∃ c m2, m' = c :: m2 ∧ n < Str.length_utf16 m + Str.len_utf16 c) →
  ∃ v v', m' = v ++ v' ∧
    ChunkOps.clip_offset_utf16 (chunk_of (m ++ m')) n bias = Some (Str.length_utf16 (m ++ v)) ∧
    one_char bias (n = Str.length_utf16 m) v ∧ (bias = BiasLeft → v = []) ∧
    (bias = BiasRight → v = [] → n = Str.length_utf16 m ∨ m' = []).
Proof.
  intros Hlen Hge Hin. destruct (decide (n = Str.length_utf16 m)) as [->|Hne].
  { exists [], m'. rewrite clip_offset_utf16_cut, app_nil_r by done.
    split_and!; [done|done|by destruct bias; simpl; auto with lia|done|by left]. }
  destruct Hin as [->|(c & m2 & -> & Hlt)].
  { exists [], []. rewrite !app_nil_r, clip_offset_utf16_past by (done || lia).
    split_and!; [done|done|by destruct bias; simpl; auto with lia|done|by right]. }
  pose proof (len_utf16_bounds c). assert (0x10000 <= c) as Hc.
  { unfold Str.len_utf16 in Hlt. destruct (N.ltb_spec c 0x10000); lia. }
  destruct (utf16_marks_pair c Hc) as (_ & _ & H16). replace n with (Str.length_utf16 m + 1) by lia.
  destruct bias.
  - exists [], (c :: m2). rewrite clip_offset_utf16_mid, app_nil_r by done. split_and!; [done..|intros [=]].
  - exists [c], m2. rewrite clip_offset_utf16_mid, length_utf16_app by done. cbn [Str.length_utf16].
    split_and!; [done|f_equal; lia|split; [simpl; lia|intros; lia]|done|done].
Qed.

(** A place in its row, and the row after [v] more of it. *)
Lemma row_measure {x} `{!TextDimension (PointOf x)} width `{!LineMeasure x width} p m v v' :
  row_start p → newlines_in (m ++ v ++ v') = 0 →
  measure (p ++ m ++ v) = mkPoint (newlines_in p) (width (m ++ v)) :> PointOf x.
Proof. intros Hp Hm. rewrite !newlines_in_app in Hm. apply line_measure; [done|]. rewrite newlines_in_app. lia. Qed.

Lemma exact_column {x} `{!TextDimension (PointOf x)} width `{!LineMeasure x width} p m (Q : PointOf x) :
  row_start p → newlines_in m = 0 → row Q = newlines_in p → Q = measure (p ++ m) ↔ column Q = width m.
Proof.
  intros Hp Hm HQ. rewrite (line_measure (width := width)) by done.
  split; [by intros ->|]. intros Hc. by apply point_ext.
Qed.

Lemma row_end_rest m' e : newlines_in m' = 0 → row_end e → row_end (m' ++ e) ↔ m' = [].
Proof.
  intros Hm He. split; [|by intros ->]. destruct m' as [|c m']; [done|]. intros [[=]|[q [= -> _]]].
  cbn in Hm. lia.
Qed.

Lemma clip_point_utf16_rest u w (Q : PointUtf16) bias : Str.length_utf8 (u ++ w) <= MAX_BASE →
  rests Str.len_utf16 u w Q →
  returns (ChunkOps.clip_point_utf16 (chunk_of (u ++ w)) (mkUnclipped Q) bias) (clipped row_end one_char bias u w Q).
Proof.
  intros Hlen HQ. pose proof (rests_row _ _ _ _ HQ) as Hrow.
  destruct (rests_in_row Str.length_utf16 _ _ _ _ HQ) as (p & m & m' & e & -> & -> & Hp & Hm & He & Hn & _ & Hge & Hin).
  replace ((p ++ m) ++ m' ++ e) with (p ++ (m ++ m') ++ e) in * by by rewrite <- !app_assoc.
  pose proof Hlen as Hlen'. rewrite !length_utf8_app in Hlen'.
  destruct (clip_column_utf16 m m' (column Q) bias) as (v & v' & -> & Hclip & Hv & Hl & Hr);
    [rewrite !length_utf8_app; lia|done|done|].
  eexists. split; [by apply (clip_point_utf16_row p (m ++ v ++ v') e); [..|congruence|]|].
  pose proof (exact_column Str.length_utf16 p m Q Hp ltac:(rewrite newlines_in_app in Hm; lia) ltac:(congruence)) as Hex.
  rewrite Hrow, Hn, <- (row_measure Str.length_utf16 p m v v') by done.
  pose proof Hm as Hm'. rewrite newlines_in_app in Hm'. destruct bias; unfold clipped.
  - rewrite Hl in * by done. exists (p ++ m), []. rewrite !app_nil_r. by split_and!.
  - exists v, (v' ++ e). rewrite row_end_rest by (done || lia).
    split_and!; [by rewrite app_assoc|by rewrite app_assoc|apply (one_char_iff _ _ _ _ (iff_sym Hex)), Hv| |].
    + rewrite Hex. by apply Hr.
    + by intros [-> _]%app_nil.
Qed.

(** *** Points: to a boundary between graphemes, in the row *)

Section graphemes.
Variable grapheme_boundary : str → N → bool.
Hypothesis HG : GraphemeRules grapheme_boundary.

(** Clipping a column of a row, in bytes. *)
Lemma clip_column m m' (n k : N) bias : Str.length_utf8 m <= n →
  (m' = [] ∨ ∃ c m2, m' = c :: m2 ∧ n < Str.length_utf8 m + Str.len_utf8 c) →
  nearest (at_grapheme grapheme_boundary (m ++ m')) bias (N.min n (Str.length_utf8 (m ++ m'))) k →
  match bias with
  | BiasLeft => ∃ v v', m = v ++ v' ∧ k = Str.length_utf8 v ∧ (m' = [] → v' = [])
  | BiasRight => ∃ v v', m' = v ++ v' ∧ k = Str.length_utf8 (m ++ v) ∧
      (v = [] → n = Str.length_utf8 m ∨ m' = [])
  end.
Proof.
  intros Hge Hin [Hk Hnear]. destruct (ends_at_grapheme grapheme_boundary (m ++ m') HG) as [_ Hend].
  pose proof Hk as [Hb _]%andb_true_iff. destruct (boundary_cut _ _ Hb) as (v & v' & Heq & <- & _).
  rewrite length_utf8_app in Hnear, Hend. destruct bias.
  - destruct Hnear as [Hle Hnear]. apply app_eq_app in Heq as (t & [[-> ->]|[-> ->]]).
    + exists v, t. split_and!; [done|done|]. intros Hm. rewrite Hm in Hend, Hnear. cbn [Str.length_utf8] in *.
      destruct t as [|b t]; [done|]. rewrite app_nil_r, length_utf8_app in *. cbn [Str.length_utf8] in *.
      pose proof (len_utf8_bounds b). rewrite N.add_0_r in *. rewrite Hnear in Hend; [done|lia].
    + destruct t as [|b t]; [exists m, []; rewrite !app_nil_r; by split_and!|]. exfalso.
      destruct Hin as [|(c & m2 & [= <- _] & Hlt)]; [done|]. rewrite length_utf8_app in Hle.
      cbn [Str.length_utf8] in *. lia.
  - destruct Hnear as [Hle _].
    assert (∃ t, v = m ++ t ∧ m' = t ++ v') as (t & -> & ->).
    { apply (prefix_cut m m' v v' Heq). lia. }
    exists t, v'. split_and!; [done|done|]. intros ->. rewrite app_nil_r in *. cbn [app] in *.
    destruct v' as [|b v']; [by right|left]. cbn [Str.length_utf8] in *. pose proof (len_utf8_bounds b). lia.
Qed.

Lemma clip_point_rest u w (Q : Point) bias : Str.length_utf8 (u ++ w) <= MAX_BASE → scalars (u ++ w) →
  rests Str.len_utf8 u w Q →
  returns (ChunkOps.clip_point grapheme_boundary (chunk_of (u ++ w)) Q bias) (clipped row_end in_row bias u w Q).
Proof.
  intros Hlen Hs HQ. pose proof (rests_row _ _ _ _ HQ) as Hrow.
  destruct (rests_in_row Str.length_utf8 _ _ _ _ HQ) as (p & m & m' & e & -> & -> & Hp & Hm & He & Hn & _ & Hge & Hin).
  replace ((p ++ m) ++ m' ++ e) with (p ++ (m ++ m') ++ e) in * by by rewrite <- !app_assoc.
  pose proof (exact_column Str.length_utf8 p m Q Hp ltac:(rewrite newlines_in_app in Hm; lia) ltac:(congruence)) as Hex.
  apply scalars_app in Hs as [_ [Hs _]%scalars_app].
  destruct (clip_point_row grapheme_boundary p (m ++ m') e Q bias) as (k & Hclip & Hk);
    [done|done|done|done|done|done|congruence|].
  exists (mkPoint (row Q) k). split; [done|]. apply clip_column in Hk; [|done|done].
  pose proof Hm as Hm'. rewrite newlines_in_app in Hm'. rewrite Hrow, Hn. destruct bias; unfold clipped, in_row.
  - destruct Hk as (v & v' & -> & -> & Hv). exists (p ++ v), v'. rewrite row_end_rest by (done || lia).
    rewrite newlines_in_app in Hm'.
    split_and!; [by rewrite app_assoc|by rewrite (line_measure (width := Str.length_utf8)) by (done || lia)|lia|done].
  - destruct Hk as (v & v' & -> & -> & Hv). exists v, (v' ++ e). rewrite row_end_rest by (done || lia).
    rewrite newlines_in_app in Hm'. split_and!; [by rewrite app_assoc| |lia|by rewrite Hex|by intros [-> _]%app_nil].
    by rewrite <- app_assoc, (row_measure Str.length_utf8 p m v v').
Qed.
End graphemes.

(** *** UTF-16 offsets *)

(** The offset [n] belongs after [a]. *)
Record rests_utf16 (a d : str) (n : OffsetUtf16) : Prop := {
  rests_utf16_le : Str.length_utf16 a <= units n;
  rests_utf16_inside c d' : d = c :: d' → units n < Str.length_utf16 a + Str.len_utf16 c }.

Lemma utf16_placed bias s :
  Placed units utf16_sub s rests_utf16 (clipped (λ d, d = []) one_char bias).
Proof.
  split.
  - intros a d n _ [Hle _]. by rewrite measure_utf16.
  - intros a c d n _ [_ Hin]. rewrite measure_utf16. cbn [units]. rewrite length_utf16_app. cbn [Str.length_utf16].
    specialize (Hin c d eq_refl). lia.
  - intros b u w z n Hs [Hle Hin] Hw. rewrite length_utf16_app in *. exists (mkOffsetUtf16 (units n - Str.length_utf16 b)).
    assert (Some n = Some (measure (b ++ u)) ↔ units n = Str.length_utf16 (b ++ u)) as Hex.
    { rewrite measure_utf16. split; [by intros [= ->]|]. destruct n as [n]. cbn [units]. by intros ->. }
    split; [|split].
    + rewrite (measure_utf16 b). unfold utf16_sub. cbn [units]. by rewrite usize_sub_le by lia.
    + split; cbn [units]; [lia|]. intros c w' ->. specialize (Hin c (w' ++ z) eq_refl). lia.
    + intros y. apply clipped_shift; [apply one_char_iff| |done| |].
      * intros Hne. destruct w; done.
      * rewrite !measure_utf16, length_utf16_app. destruct n as [n]. cbn [units] in *.
        split; intros [= E]; f_equal; lia.
      * destruct Hw as [Hw|Hw]; [by left|right]. rewrite measure_utf16 in *. cbn [units] in Hw.
        rewrite length_utf16_app in Hw. f_equal. lia.
Qed.

Lemma clip_offset_utf16_rest u w (Q : OffsetUtf16) bias : Str.length_utf8 (u ++ w) <= MAX_BASE → rests_utf16 u w Q →
  returns (mkOffsetUtf16 <$> ChunkOps.clip_offset_utf16 (chunk_of (u ++ w)) (units Q) bias)
    (clipped (λ d, d = []) one_char bias u w Q).
Proof.
  intros Hlen [Hle Hin]. assert (Q = measure u ↔ units Q = Str.length_utf16 u) as Hex.
  { rewrite measure_utf16. split; [by intros ->|]. destruct Q as [n]. cbn [units]. by intros ->. }
  destruct (clip_column_utf16 u w (units Q) bias Hlen Hle) as (v & v' & -> & -> & Hv & Hl & Hr).
  { destruct w as [|c w]; [by left|right]. exists c, w. split; [done|]. by apply (Hin c w). }
  apply returns_fmap, returns_ret. rewrite <- measure_utf16. destruct bias; unfold clipped.
  - rewrite Hl by done. exists u, []. rewrite !app_nil_r. by split_and!.
  - exists v, v'. split_and!; [done|done|by apply (one_char_iff _ _ _ _ (iff_sym Hex)), Hv| |].
    + rewrite Hex. by apply Hr.
    + by intros [-> _]%app_nil.
Qed.

(** ** Character boundaries *)

Section boundaries.
Implicit Types (b x z : str) (i : N).

Lemma floor_in b x z i : i <= Str.length_utf8 x →
  Str.floor_char_boundary (b ++ x ++ z) (Str.length_utf8 b + i) = Str.length_utf8 b + Str.floor_char_boundary x i.
Proof.
  intros Hi. pose proof (floor_boundary x i) as Hb. pose proof (floor_le x i). pose proof (boundary_le _ _ Hb).
  apply N.le_antisymm.
  - pose proof (floor_boundary (b ++ x ++ z) (Str.length_utf8 b + i)) as Hf.
    pose proof (floor_le (b ++ x ++ z) (Str.length_utf8 b + i)).
    remember (Str.floor_char_boundary (b ++ x ++ z) _) as f eqn:Ef.
    destruct (N.le_gt_cases f (Str.length_utf8 b)); [lia|].
    replace f with (Str.length_utf8 b + (f - Str.length_utf8 b)) in Hf |- * by lia.
    rewrite boundary_shift, boundary_in_prefix in Hf by lia.
    pose proof (floor_greatest x i _ Hf ltac:(lia)). lia.
  - apply floor_greatest; [|lia]. by rewrite boundary_shift, boundary_in_prefix.
Qed.

Lemma ceil_in b x z i : i <= Str.length_utf8 x →
  Str.ceil_char_boundary (b ++ x ++ z) (Str.length_utf8 b + i) = Str.length_utf8 b + Str.ceil_char_boundary x i.
Proof.
  intros Hi. pose proof (ceil_boundary x i) as Hb. pose proof (ceil_ge x i Hi). pose proof (ceil_le x i).
  apply N.le_antisymm.
  - apply ceil_least; [|lia]. by rewrite boundary_shift, boundary_in_prefix.
  - pose proof (ceil_boundary (b ++ x ++ z) (Str.length_utf8 b + i)) as Hf.
    pose proof (ceil_ge (b ++ x ++ z) (Str.length_utf8 b + i)) as Hge.
    rewrite !length_utf8_app in Hge. specialize (Hge ltac:(lia)).
    remember (Str.ceil_char_boundary (b ++ x ++ z) _) as f eqn:Ef.
    destruct (N.le_gt_cases f (Str.length_utf8 (b ++ x))) as [Hle|Hgt]; rewrite length_utf8_app in *; [|lia].
    replace f with (Str.length_utf8 b + (f - Str.length_utf8 b)) in Hf |- * by lia.
    rewrite boundary_shift, boundary_in_prefix in Hf by lia.
    pose proof (ceil_least x i _ Hf ltac:(lia)). lia.
Qed.

(** The chunk that holds an offset. *)
Lemma offset_located r i : rope_ok r →
  let '(start, _, item) := find () (N.compare i) BiasLeft (chunks r) in
  match item with
  | Some p => ∃ b z, rope_text r = b ++ ptext p ++ z ∧ start = Str.length_utf8 b ∧
      start <= i <= start + Str.length_utf8 (ptext p)
  | None => start = Str.length_utf8 (rope_text r) ∧ (tree_items (chunks r) = [] ∨ Str.length_utf8 (rope_text r) < i)
  end.
Proof.
  intros Hok. pose proof (find_located (D := N) (λ n, n) BiasLeft i r Hok (ordered_len _)) as Hf.
  change (λ p : N, i ?= p) with (N.compare i) in Hf.
  destruct (find _ _ _ _) as [[start e] [p|]]; unfold found in Hf.
  - destruct Hf as (b & k & Hi & -> & Hb & Hx). unfold passes, measure in *. cbn [from_text_summary usize_td] in *.
    rewrite !tlen_from in *. rewrite texts_app, texts_one, length_utf8_app in Hx.
    exists (texts b), (texts k). split_and!.
    + unfold rope_text. by rewrite Hi, texts_app, texts_cons.
    + done.
    + destruct Hb as [->|Hb]; [|lia]. apply N.le_0_l.
    + lia.
  - unfold passes, measure in Hf. cbn [from_text_summary usize_td] in Hf. rewrite tlen_from in Hf.
    exact Hf.
Qed.

Lemma is_char_boundary_in r i : rope_ok r →
  RopeOps.is_char_boundary r i = Some (Str.is_char_boundary (rope_text r) i).
Proof.
  intros Hok. unfold RopeOps.is_char_boundary. rewrite (is_empty_ok () _ (rope_tree _ Hok)).
  case_bool_decide as He.
  { unfold rope_text. rewrite He. f_equal. cbn. by destruct (i =? 0). }
  pose proof (offset_located r i Hok) as Hloc. destruct (find _ _ _ _) as [[start e] [p|]].
  - destruct Hloc as (b & z & -> & -> & Hge & Hle). destruct (piece_chunk p) as (Hc & Hlen & _).
    rewrite usize_sub_le by done. cbn [mbind option_bind]. rewrite Hc, is_char_boundary_ok by (unfold MAX_BASE, u32_modulus in *; lia).
    replace i with (Str.length_utf8 b + (i - Str.length_utf8 b)) at 2 by lia.
    by rewrite boundary_shift, boundary_in_prefix by lia.
  - destruct Hloc as [_ [Hi|Hlt]]; [done|]. f_equal. symmetry.
    destruct (Str.is_char_boundary (rope_text r) i) eqn:E; [|done]. apply boundary_le in E. lia.
Qed.

Lemma floor_in_rope r i : rope_ok r →
  RopeOps.floor_char_boundary r i = Some (Str.floor_char_boundary (rope_text r) i).
Proof.
  intros Hok. unfold RopeOps.floor_char_boundary. rewrite rope_len by done.
  destruct (N.leb_spec (Str.length_utf8 (rope_text r)) i) as [Hle|Hlt].
  { f_equal. pose proof (floor_greatest (rope_text r) i _ (boundary_len _) Hle).
    pose proof (boundary_le _ _ (floor_boundary (rope_text r) i)). lia. }
  pose proof (offset_located r i Hok) as Hloc. destruct (find _ _ _ _) as [[start e] [p|]].
  - destruct Hloc as (b & z & -> & -> & Hge & Hle). rewrite usize_sub_le by done. cbn [mbind option_bind].
    f_equal. rewrite <- (floor_in b (ptext p) z) by lia. f_equal. lia.
  - destruct Hloc as [_ [Hi|Hgt]]; [|lia]. unfold rope_text in Hlt. rewrite Hi in Hlt. cbn in Hlt. lia.
Qed.

Lemma ceil_in_rope r i : rope_ok r →
  RopeOps.ceil_char_boundary r i = Some (Str.ceil_char_boundary (rope_text r) i).
Proof.
  intros Hok. unfold RopeOps.ceil_char_boundary. rewrite rope_len by done.
  destruct (N.ltb_spec (Str.length_utf8 (rope_text r)) i) as [Hlt|Hle].
  { f_equal. symmetry. by apply ceil_past. }
  pose proof (offset_located r i Hok) as Hloc. destruct (find _ _ _ _) as [[start e] [p|]].
  - destruct Hloc as (b & z & -> & -> & Hge & Hp). rewrite usize_sub_le by done. cbn [mbind option_bind].
    f_equal. rewrite <- (ceil_in b (ptext p) z) by lia. f_equal. lia.
  - destruct Hloc as [-> [Hi|Hgt]]; [|lia]. unfold rope_text in *. rewrite Hi in *. cbn [texts fmap list_fmap mjoin list_join] in *.
    cbn in Hle. by replace i with 0 by lia.
Qed.
End boundaries.

(** ** What clipping gives *)

(** Every position in a row of the text belongs somewhere. *)
Lemma rests_exist {x} `{!TextDimension (PointOf x)} width `{!LineMeasure x width} s (P : PointOf x) :
  in_range P → row P <= newlines_in s → ∃ a d, s = a ++ d ∧ rests (λ c, width [c]) a d P.
Proof.
  intros HP Hrow. destruct (row_exists s (row P) Hrow) as (p & l & e & -> & Hn & Hl & Hp & He).
  assert (∃ m m', l = m ++ m' ∧ width m <= column P ∧
    ∀ c n, m' = c :: n → column P < width m + width [c]) as (m & m' & -> & Hm & Hin).
  { clear Hl Hrow. induction l as [|c l (m & m' & -> & Hm & Hin)] using rev_ind.
    - exists [], []. split_and!; [done| |done].
      pose proof (width_app (width := width) [] []) as Hw. cbn [app] in Hw. lia.
    - destruct m' as [|c' m'].
      + rewrite app_nil_r. destruct (N.le_gt_cases (width (m ++ [c])) (column P)) as [Hle|Hgt].
        * exists (m ++ [c]), []. by rewrite app_nil_r.
        * exists m, [c]. split_and!; [done|done|]. intros b n [= <- _]. by rewrite <- (width_app (width := width)).
      + exists m, (c' :: m' ++ [c]). rewrite <- app_assoc. split_and!; [done|done|]. intros b n [= <- _].
        by apply (Hin c' m'). }
  rewrite newlines_in_app in Hl.
  exists (p ++ m), (m' ++ e). split; [by rewrite <- !app_assoc|]. split; [done| | |].
  - rewrite newlines_in_app. lia.
  - rewrite (line_measure (width := width)) by (done || lia). done.
  - intros c d' Hc Hnl. rewrite (line_measure (width := width)) by (done || lia). cbn [column].
    destruct m' as [|b m']; [|injection Hc as -> _; by apply (Hin c m')].
    destruct He as [->|[q ->]]; [done|]. by injection Hc as <- _.
Qed.

Lemma clip_end {A} `{!TextDimension A} ends reach bias a (P : A) :
  ends [] → reach bias (P = measure a) [] → clipped ends reach bias a [] P (measure a).
Proof.
  intros He Hr. unfold clipped. destruct bias.
  - exists a, []. by rewrite app_nil_r.
  - exists [], []. split_and!; [done|by rewrite app_nil_r|done|intros _; by right|done].
Qed.

Lemma rests_eq {x} `{!TextDimension (PointOf x)} (f g : N → N) a d (P : PointOf x) :
  (∀ c, f c = g c) → rests f a d P → rests g a d P.
Proof. intros Hfg [H1 H2 H3 H4]. split; [done..|]. intros c d' Hd Hc. rewrite <- Hfg. by apply (H4 c d'). Qed.

Lemma clip_point_ok grapheme_boundary r a d bias (P : Point) : GraphemeRules grapheme_boundary → rope_ok r →
  rope_text r = a ++ d → fits (rope_text r) → rests (λ c, Str.length_utf8 [c]) a d P →
  returns (clip_point grapheme_boundary r P bias) (clipped row_end in_row bias a d P).
Proof.
  intros HG Hok Htext Hf HP.
  refine (clip_placed packed sub (rests (λ c, Str.length_utf8 [c])) (clipped row_end in_row bias)
    (λ c Q, ChunkOps.clip_point grapheme_boundary c Q bias) r Hok (point_key Str.length_utf8 _ Hf) a d P _ Htext _ HP _).
  - intros u w Q Hlen Hs HQ. apply clip_point_rest; [done..|]. eapply rests_eq, HQ. intros c. apply N.add_0_r.
  - by apply (point_clipped_placed Str.length_utf8).
  - intros ->. apply clip_end; [by left|done].
Qed.

(** [l] is what one chunk has of a row, between [p] and [e]; nothing at the end of the text. *)
Definition row_part r (p l e : str) : Prop :=
  newlines_in l = 0 ∧
  ((∃ b x k (u w : str), tree_items (chunks r) = b ++ x :: k ∧ ptext x = u ++ l ++ w ∧ p = texts b ++ u ∧ e = w ++ texts k ∧
      row_start u ∧ row_end w) ∨
   p = rope_text r ∧ l = [] ∧ e = []).

(** [P] is in the part [l] of its row, or in the last one when it is past the end of
    the row, and [y] is the boundary of graphemes of [l] that is nearest to it in
    the direction of the bias. *)
Definition nearest_grapheme (grapheme_boundary : str → N → bool) r bias (P y : Point) : Prop :=
  ∃ (p l e : str) (k : N), rope_text r = p ++ l ++ e ∧ row_part r p l e ∧ row P = newlines_in p ∧
    column (measure p : Point) <= column P ∧
    (column P <= column (measure p : Point) + Str.length_utf8 l ∨ row_end e) ∧
    nearest (at_grapheme grapheme_boundary l) bias (N.min (column P - column (measure p : Point)) (Str.length_utf8 l)) k ∧
    y = mkPoint (row P) (column (measure p : Point) + k).

(** A position of a row, seen from the chunk. *)
Lemma add_in_row (x c : str) (Q : Point) (k : N) : row_start x → row Q = newlines_in x →
  column (add (measure c) Q) = column (measure (c ++ x) : Point) + column Q ∧
  add (measure c) (mkPoint (row Q) k) = mkPoint (newlines_in (c ++ x)) (column (measure (c ++ x) : Point) + k) :> Point.
Proof.
  intros Hx HQ. rewrite (add_measure Str.length_utf8), newlines_in_app, HQ.
  assert (measure x = mkPoint (newlines_in x) 0 :> Point) as ->.
  { rewrite <- (app_nil_r x) at 1. by rewrite (line_measure (width := Str.length_utf8)). }
  unfold add, PointOps.new. cbn [row column]. rewrite HQ. pose proof (measure_row (x := Utf8) Str.length_utf8 c) as Hr.
  destruct (N.eqb_spec (newlines_in x) 0) as [E|E]; cbn [row column].
  - split; [lia|]. apply point_ext; cbn [row column]; lia.
  - split; [lia|]. apply point_ext; cbn [row column]; lia.
Qed.

Lemma clip_point_nearest grapheme_boundary r a d bias (P : Point) : GraphemeRules grapheme_boundary → rope_ok r →
  rope_text r = a ++ d → fits (rope_text r) → rests (λ c, Str.length_utf8 [c]) a d P →
  returns (clip_point grapheme_boundary r P bias) (nearest_grapheme grapheme_boundary r bias P).
Proof.
  intros HG Hok Htext Hf HP. pose proof HP as [HPr HProw HPcol _].
  destruct (clip_located packed sub (rests (λ c, Str.length_utf8 [c])) (clipped row_end in_row bias)
    (λ c Q, ChunkOps.clip_point grapheme_boundary c Q bias) r Hok (point_key Str.length_utf8 _ Hf) a d P Htext)
    as [(b & x & k & u & w & Q & Hi & Hxw & Ha & Hd & Hne & Hlen & Hsc & HQ & HQp & _ & Hclip)|[-> Hclip]].
  { by apply (point_clipped_placed Str.length_utf8). }
  { done. }
  - change (clip_point grapheme_boundary r P bias = td_add (measure (texts b)) <$> ChunkOps.clip_point grapheme_boundary (chunk_of (u ++ w)) Q bias) in Hclip.
    rewrite Hclip. apply returns_fmap. clear Hclip. subst a d. rewrite <- !app_assoc in Htext.
    destruct (rests_shift Str.length_utf8 (λ c, Str.length_utf8 [c]) (texts b) u w (texts k) P) as (Q' & E & Hadd & _); [|done|].
    { rewrite Htext, app_assoc in Hf. by apply fits_prefix in Hf. }
    rewrite E in HQ. injection HQ as ->. apply scalars_app in Hsc as Hsc'. pose proof (rests_row _ _ _ _ HQp) as Hrow.
    destruct (rests_in_row Str.length_utf8 _ _ _ _ HQp) as (p & m & m' & e & -> & -> & Hp & Hm & He & Hn & _ & Hge & Hin).
    replace ((p ++ m) ++ m' ++ e) with (p ++ (m ++ m') ++ e) in * by by rewrite <- !app_assoc.
    apply scalars_app in Hsc as [_ [Hsc _]%scalars_app].
    destruct (clip_point_row grapheme_boundary p (m ++ m') e Q bias) as (j & -> & Hj); [done..|congruence|].
    destruct (add_in_row p (texts b) Q j) as [Hcol Hy]; [done|congruence|]. rewrite Hadd in Hcol.
    apply returns_ret. exists (texts b ++ p), (m ++ m'), (e ++ texts k), j. rewrite !Hcol.
    split_and!.
    + by rewrite Htext, <- !app_assoc.
    + split; [done|]. left. exists b, x, k, p, e. split_and!; [done|by rewrite Hxw, <- !app_assoc|done..].
    + rewrite HProw, !newlines_in_app. rewrite newlines_in_app in Hn. lia.
    + lia.
    + destruct Hin as [->|(c & n & -> & Hlt)].
      * right. rewrite row_end_app; [done|]. by intros ->.
      * left. rewrite length_utf8_app. cbn [Str.length_utf8] in *. lia.
    + by rewrite N_add_sub_l.
    + etransitivity; [exact Hy|]. f_equal. rewrite HProw, !newlines_in_app in *. lia.
  - change (clip_point grapheme_boundary r P bias = Some (measure a)) in Hclip. rewrite Hclip. apply returns_ret.
    rewrite app_nil_r in Htext. exists a, [], [], 0. rewrite N.add_0_r, app_nil_r. split_and!; [done| |done|done| | |].
    + split; [done|]. by right.
    + right. by left.
    + rewrite N.min_0_r. by apply nearest_here, ends_at_grapheme.
    + rewrite HProw. apply point_ext; [apply (measure_row Str.length_utf8)|cbn [column]; lia].
Qed.

Lemma clip_point_utf16_ok r a d bias (P : PointUtf16) : rope_ok r → rope_text r = a ++ d → fits (rope_text r) →
  rests (λ c, Str.length_utf16 [c]) a d P →
  returns (clip_point_utf16 r (mkUnclipped P) bias) (clipped row_end one_char bias a d P).
Proof.
  intros Hok Htext Hf HP.
  refine (clip_placed packed sub (rests (λ c, Str.length_utf16 [c])) (clipped row_end one_char bias)
    (λ c Q, ChunkOps.clip_point_utf16 c (mkUnclipped Q) bias) r Hok (point_key Str.length_utf16 _ Hf) a d P _ Htext _ HP _).
  - intros u w Q Hlen Hs HQ. apply clip_point_utf16_rest; [done|]. eapply rests_eq, HQ. intros c. apply N.add_0_r.
  - by apply (point_clipped_placed Str.length_utf16); [|apply one_char_iff|].
  - intros ->. apply clip_end; [by left|]. by destruct bias; simpl; auto with lia.
Qed.

Lemma clip_offset_utf16_ok r a d bias n : rope_ok r → rope_text r = a ++ d → rests_utf16 a d n →
  returns (clip_offset_utf16 r n bias) (clipped (λ d, d = []) one_char bias a d n).
Proof.
  intros Hok Htext Hn.
  pose proof (clip_placed units utf16_sub rests_utf16 (clipped (λ d, d = []) one_char bias)
    (λ c Q, mkOffsetUtf16 <$> ChunkOps.clip_offset_utf16 c (units Q) bias)
    r Hok (offset_utf16_key _) a d n (λ u w Q Hlen _ HQ, clip_offset_utf16_rest u w Q bias Hlen HQ) Htext (utf16_placed bias _) Hn) as (y & Hy & Hans).
  { intros ->. apply clip_end; [done|]. by destruct bias; simpl; auto with lia. }
  exists y. split; [|done]. rewrite <- Hy. unfold clip_with, RopeOps.clip_offset_utf16.
  change (λ p, units n ?= units p) with (utf16_cmp n). destruct (find _ _ _ _) as [[start e] [p|]]; [|done].
  destruct (utf16_sub n start); [|done]. cbn [mbind option_bind].
  by destruct (ChunkOps.clip_offset_utf16 _ _ _).
Qed.

Lemma clip_point_past grapheme_boundary r bias (P : Point) : rope_ok r → fits (rope_text r) →
  newlines_in (rope_text r) < row P → in_range P → clip_point grapheme_boundary r P bias = Some (max_point r).
Proof.
  intros Hok Hf Hrow HP.
  unfold max_point. rewrite extent_ok by done.
  refine (clip_past packed sub (λ c Q, ChunkOps.clip_point grapheme_boundary c Q bias) r Hok
    (point_key Str.length_utf8 _ Hf) P _).
  pose proof (past_rows Str.length_utf8 r P Hok Hf HP Hrow) as Hge. rewrite summary_text in Hge by done.
  unfold cmp, is_ge in Hge. change (from_text_summary _) with (measure (rope_text r) : Point) in Hge.
  by destruct (N.compare_spec (packed P) (packed (measure (rope_text r) : Point))); [lia..|lia].
Qed.

Lemma line_len_ok grapheme_boundary r (p l e : str) : GraphemeRules grapheme_boundary → rope_ok r → fits (rope_text r) →
  rope_text r = p ++ l ++ e → row_start p → newlines_in l = 0 → row_end e →
  line_len grapheme_boundary r (newlines_in p) = Some (Str.length_utf8 l).
Proof.
  intros HG Hok Hf Htext Hp Hl He. rewrite app_assoc in Htext.
  pose proof Hf as Hpl. rewrite Htext in Hpl. apply fits_prefix in Hpl.
  pose proof (line_measure (x := Utf8) (width := Str.length_utf8) p l Hp Hl) as Hm.
  pose proof (line_range (x := Utf8) (width := Str.length_utf8) _ Hpl) as Hr. rewrite Hm in Hr. destruct Hr as [Hr1 Hr2].
  cbn [row column] in *. unfold line_len.
  destruct (clip_point_ok grapheme_boundary r (p ++ l) e BiasLeft
    (PointOps.new (newlines_in p) (u32_modulus - 1)) HG Hok Htext Hf) as (y & -> & Hy).
  - split.
    + split; [done|]. cbn [PointOps.new column]. unfold u32_modulus. lia.
    + rewrite newlines_in_app. cbn [PointOps.new row]. lia.
    + rewrite Hm. cbn [PointOps.new column]. lia.
    + intros c d' -> Hc. destruct He as [|[q [= ->]]]; done.
  - destruct Hy as (v & v' & Hv & -> & _ & Hnil). rewrite Hnil, app_nil_r in Hv by done. subst v.
    cbn [fmap option_fmap option_map]. by rewrite Hm.
Qed.

(** C21: the character boundaries of a rope are those of its text. Clipping gives a position of the
    text in the same row. UTF-16 positions stay at a boundary, and otherwise go to the start of the
    character to the left, to its end to the right. Points go to the nearest boundary of graphemes in
    the direction of the bias, of the part of their row that is in the same chunk ([nearest_grapheme]).
    A position past the end of its row goes to that end; so [line_len] is the length of the row. *)
Theorem rope_clips grapheme_boundary r bias (HG : GraphemeRules grapheme_boundary) (Hok : rope_ok r)
    (Hfits : fits (rope_text r)) :
  (∀ i, RopeOps.is_char_boundary r i = Some (Str.is_char_boundary (rope_text r) i) ∧
     RopeOps.clip_offset r i BiasLeft = Some (Str.floor_char_boundary (rope_text r) i) ∧
     RopeOps.clip_offset r i BiasRight = Some (Str.ceil_char_boundary (rope_text r) i)) ∧
  (∀ a d n, rope_text r = a ++ d → rests_utf16 a d n →
     returns (RopeOps.clip_offset_utf16 r n bias) (clipped (λ d, d = []) one_char bias a d n)) ∧
  (∀ P : PointUtf16, in_range P → row P <= newlines_in (rope_text r) → ∃ a d, rope_text r = a ++ d ∧
     rests (λ c, Str.length_utf16 [c]) a d P ∧
     returns (RopeOps.clip_point_utf16 r (mkUnclipped P) bias) (clipped row_end one_char bias a d P)) ∧
  (∀ P : Point, in_range P → row P <= newlines_in (rope_text r) → ∃ a d, rope_text r = a ++ d ∧
     rests (λ c, Str.length_utf8 [c]) a d P ∧
     returns (RopeOps.clip_point grapheme_boundary r P bias) (λ y, clipped row_end in_row bias a d P y ∧
       nearest_grapheme grapheme_boundary r bias P y)) ∧
  (∀ P : Point, newlines_in (rope_text r) < row P → in_range P →
     RopeOps.clip_point grapheme_boundary r P bias = Some (max_point r)) ∧
  (∀ p l e : str, rope_text r = p ++ l ++ e → row_start p → newlines_in l = 0 → row_end e →
     line_len grapheme_boundary r (newlines_in p) = Some (Str.length_utf8 l)).
Proof.
  split_and!.
  - intros i. split_and!; [by apply is_char_boundary_in|by apply floor_in_rope|by apply ceil_in_rope].
  - intros a d n Htext Hn. by apply clip_offset_utf16_ok.
  - intros P HP Hrow. destruct (rests_exist Str.length_utf16 _ P HP Hrow) as (a & d & Htext & Hrest).
    exists a, d. split_and!; [done|done|]. by apply clip_point_utf16_ok.
  - intros P HP Hrow. destruct (rests_exist Str.length_utf8 _ P HP Hrow) as (a & d & Htext & Hrest).
    exists a, d. split_and!; [done|done|].
    destruct (clip_point_ok grapheme_boundary r a d bias P) as (y & E & Hy); [done..|].
    destruct (clip_point_nearest grapheme_boundary r a d bias P) as (y' & E' & Hy'); [done..|].
    rewrite E in E'. injection E' as <-. by exists y.
  - intros P Hrow HP. by apply clip_point_past.
  - intros p l e Htext Hp Hl He. by apply (line_len_ok _ r p l e).
Qed.
