(* ===== verification/RopeProps.v ===== *)
(** * What ropes promise: building, cutting and reading back, with samples

    The properties of the editing operations of [crates/rope/src/rope.rs] and
    the samples for the properties of [RopeSpec] and [RopeClip]. *)

From S2P Require Import Prelude SumTree SumCursor CursorSpec CursorWalk Points Text Chunk ChunkSpec Rope RopeText RopeSpec RopeClip.
Import NodeOps TreeOps PointOps RopeOps.

#[local] Unset Default Proof Using.
#[local] Arguments Nat.mul : simpl never.
#[local] Arguments TextSummaryOps.from : simpl never.
#[local] Open Scope N_scope.

Implicit Types (r : Rope) (s a d m : str).

(** C15: ropes are always well formed and hold the text that the operations say: [from], [from_iter],
    [push], [push_front] and [append] concatenate, for texts of any size, without panics; every
    chunk is nonempty and, the last one aside, has the size that the code asserts; the summary,
    the length and the maxima are those of the text. *)
Theorem rope_builds r r' s iter (Hr : rope_ok r) (Hr' : rope_ok r') (Hsh : shallow r) (Hsh' : shallow r')
    (Hs : scalars s) (Hiter : Forall scalars iter) :
  holds (RopeOps.from s) s ∧
  holds (RopeOps.from_iter iter) (mjoin iter) ∧
  holds (RopeOps.push r s) (rope_text r ++ s) ∧
  holds (RopeOps.push_front r s) (s ++ rope_text r) ∧
  holds (RopeOps.append r r') (rope_text r ++ rope_text r') ∧
  RopeOps.summary r = TextSummaryOps.from (rope_text r) ∧
  RopeOps.len r = Str.length_utf8 (rope_text r) ∧
  RopeOps.is_empty r = bool_decide (rope_text r = []) ∧
  RopeOps.max_point r = Text.lines (TextSummaryOps.from (rope_text r)) ∧
  RopeOps.max_point_utf16 r = TextSummaryOps.lines_utf16 (TextSummaryOps.from (rope_text r)).
Proof.
  split_and!.
  - by apply rope_from_ok.
  - by apply from_iter_ok'.
  - by apply rope_push_ok.
  - by apply push_front_ok.
  - by apply rope_append_ok.
  - by apply summary_text.
  - by apply rope_len.
  - unfold RopeOps.is_empty. rewrite rope_len by done. case_bool_decide as He; [by rewrite He|].
    apply N.eqb_neq. pose proof (length_utf8_pos _ He). lia.
  - exact (extent_ok (D := Point) r Hr).
  - exact (extent_ok (D := PointUtf16) r Hr).
Qed.

(** The text of some whole rows. *)
Lemma slice_rows_at debug_assertions r a m d : rope_ok r → rope_text r = a ++ m ++ d → fits (rope_text r) →
  row_start a → row_start (a ++ m) →
  slice_rows debug_assertions r (newlines_in a ..: newlines_in (a ++ m)) =
  RopeOps.slice r (Str.length_utf8 a ..: Str.length_utf8 (a ++ m)).
Proof.
  intros Hok Htext Hfits Ha Ham. unfold slice_rows. cbn [start stop].
  pose proof (point_to_offset_at debug_assertions r a (m ++ d) Hok Htext Hfits) as H1.
  pose proof (point_to_offset_at debug_assertions r (a ++ m) d Hok) as H2. rewrite <- app_assoc in H2. specialize (H2 Htext Hfits).
  destruct (row_start_summary _ Ha) as (E1 & _), (row_start_summary _ Ham) as (E2 & _).
  rewrite E1, tlen_from in H1. rewrite E2, tlen_from in H2.
  unfold PointOps.new. rewrite H1, H2. done.
Qed.

(** A range that is reversed or ends past the text. *)
Lemma slice_out_of_range r (range : Range N) : (start range <=? stop range) && (stop range <=? len r) = false →
  RopeOps.slice r range = None.
Proof.
  intros Hr. unfold RopeOps.slice. destruct (cursor r 0) as [c|] eqn:Ec; [|done].
  cbn [mbind option_bind]. assert (rope c = r) as Hc.
  { unfold cursor in Ec. destruct (CursorOps.seek _ _ _ _) as [[f cs]|]; [|done]. by injection Ec as <-. }
  destruct (seek_forward c (start range)) as [c'|] eqn:Es; [|done]. cbn [mbind option_bind].
  assert (rope c' = r ∧ offset c' = start range) as [Hc' Ho].
  { unfold seek_forward in Es. destruct (in_bounds _ _); [|done].
    destruct (CursorOps.seek_forward _ _ _ _) as [[f cs]|]; [|done]. by injection Es as <-. }
  assert (in_bounds c' (stop range) = false) as Hb by (unfold in_bounds; by rewrite Hc', Ho).
  by destruct (out_of_bounds_panics c' _ Hb) as (_ & -> & _).
Qed.

Lemma replace_out_of_range r (range : Range N) s :
  (start range <=? stop range) && (stop range <=? len r) = false → RopeOps.replace r range s = None.
Proof.
  intros Hr. unfold RopeOps.replace. destruct (cursor r 0) as [c|] eqn:Ec; [|done].
  cbn [mbind option_bind]. assert (rope c = r) as Hc.
  { unfold cursor in Ec. destruct (CursorOps.seek _ _ _ _) as [[f cs]|]; [|done]. by injection Ec as <-. }
  destruct (slice_cursor c (start range)) as [[p c']|] eqn:Es; [|done]. cbn [mbind option_bind].
  assert (rope c' = r ∧ offset c' = start range) as [Hc' Ho].
  { unfold slice_cursor in Es. destruct (in_bounds _ _); [|done].
    repeat match type of Es with
    | (?m ≫= _) = Some _ => destruct m as [?|]; [cbn [mbind option_bind] in Es|done]
    | (if ?b then _ else _) = Some _ => destruct b
    | (let '(_, _) := ?p in _) = Some _ => destruct p
    end; by injection Es as _ <-. }
  destruct (append new p) as [r1|]; [|done]. cbn [mbind option_bind].
  assert (in_bounds c' (stop range) = false) as Hb by (unfold in_bounds; by rewrite Hc', Ho).
  by destruct (out_of_bounds_panics c' _ Hb) as (-> & _ & _).
Qed.

(** C16: cutting a rope at character boundaries cuts its text: [slice] gives the part of a range,
    [slice_rows] whole rows, [replace] puts a text in place of a range and keeps the rest, and
    [Cursor::summary] measures the part in every dimension; the ropes made are well formed. A
    range that is reversed or ends past the text panics. The conditions [slice_lowb]
    and [replace_lowb] say that the trees made on the way fit the stack of the cursors. *)
Theorem rope_cuts r a m d s (Hok : rope_ok r) (Hsh : shallow r) (Htext : rope_text r = a ++ m ++ d)
    (Hs : scalars s) :
  let range := Str.length_utf8 a ..: Str.length_utf8 (a ++ m) in
  (slice_lowb r range = true → holds (RopeOps.slice r range) m) ∧
  (slice_lowb r range = true → fits (rope_text r) → row_start a → row_start (a ++ m) →
     ∀ debug_assertions, holds (slice_rows debug_assertions r (newlines_in a ..: newlines_in (a ++ m))) m) ∧
  (replace_lowb r range = true → holds (RopeOps.replace r range s) (a ++ s ++ d)) ∧
  returns (c ← cursor r (start range); summary_cursor (D := TextSummary * (N * (OffsetUtf16 * (Point * PointUtf16)))) c (stop range))
    (λ '(measured, _), measured = measure m) ∧
  (∀ bad : Range N, (start bad <=? stop bad) && (stop bad <=? Str.length_utf8 (rope_text r)) = false →
     RopeOps.slice r bad = None ∧ RopeOps.replace r bad s = None).
Proof.
  intros range. split_and!.
  - intros Hlow. by apply (rope_slice_ok r a m d).
  - intros Hlow Hf Ha Ham debug_assertions. rewrite (slice_rows_at debug_assertions r a m d) by done. by apply (rope_slice_ok r a m d).
  - intros Hlow. by apply (rope_replace_ok r a m d).
  - eapply returns_bind; [by apply (cursor_ok r a (m ++ d))|]. intros c [_ Hc].
    eapply returns_mono; [by apply (summary_cursor_ok c a m d)|]. by intros [o c'] (-> & _).
  - intros bad Hbad. rewrite <- rope_len in Hbad by done.
    split; [by apply slice_out_of_range|by apply replace_out_of_range].
Qed.

(** ** Samples *)

Module Roping.

(** Thirty times the text [hé😀⏎a⇥b⏎]: 360 bytes, in three chunks. *)
Definition unit_text : str := [104; 233; 128512; 10; 97; 9; 98; 10].
Definition sample_text : str := mjoin (replicate 30 unit_text).
Definition prefix_text : str := mjoin (replicate 14 unit_text).
Definition rest_text : str := mjoin (replicate 16 unit_text).

Definition sample : Rope := match RopeOps.from sample_text with Some r => r | None => RopeOps.new end.

Example sample_chunks :
  (λ p, Str.length_utf8 (ptext p)) <$> tree_items (chunks sample) = [128; 127; 105] ∧
  match RopeOps.from sample_text with Some _ => true | None => false end = true.
Proof. by vm_compute. Qed.

Lemma sample_scalars : scalars sample_text.
Proof. vm_compute. reflexivity. Qed.

Lemma sample_holds : rope_ok sample ∧ rope_text sample = sample_text.
Proof.
  unfold sample. by destruct (rope_from_ok sample_text sample_scalars) as (r & -> & Hr).
Qed.

Lemma sample_shallow : shallow sample.
Proof. apply Nat.ltb_lt. vm_compute. reflexivity. Qed.

Lemma sample_fits : fits (rope_text sample).
Proof. rewrite (proj2 sample_holds). vm_compute. reflexivity. Qed.

Lemma sample_parts : rope_text sample = prefix_text ++ rest_text.
Proof. rewrite (proj2 sample_holds). reflexivity. Qed.

Lemma rope_builds_witness :
  holds (RopeOps.push sample unit_text) (rope_text sample ++ unit_text) ∧
  holds (RopeOps.append sample sample) (rope_text sample ++ rope_text sample).
Proof.
  assert (scalars unit_text) as Hs by reflexivity.
  assert (Forall scalars [unit_text; unit_text]) as Hi by (constructor; [|constructor; [|constructor]]; reflexivity).
  destruct (rope_builds sample sample unit_text _ (proj1 sample_holds) (proj1 sample_holds)
    sample_shallow sample_shallow Hs Hi) as (_ & _ & Hpush & _ & Happend & _).
  split; [exact Hpush|exact Happend].
Defined.

Lemma rope_cuts_witness :
  holds (RopeOps.slice sample (168 ..: 180)) unit_text ∧ RopeOps.slice sample (170 ..: 400) = None.
Proof.
  assert (scalars unit_text) as Hs by reflexivity.
  assert (rope_text sample = prefix_text ++ unit_text ++ mjoin (replicate 15 unit_text)) as Ht
    by exact sample_parts.
  destruct (rope_cuts sample prefix_text unit_text _ unit_text (proj1 sample_holds) sample_shallow Ht Hs)
    as (Hslice & _ & _ & _ & Hbad).
  split; [apply Hslice; vm_compute; reflexivity|].
  apply (Hbad (170 ..: 400)). rewrite (proj2 sample_holds). vm_compute. reflexivity.
Defined.

Lemma rope_offsets_roundtrip_witness :
  offset_to_point sample 168 = Some (PointOps.new 28 0) ∧
  offset_utf16_to_offset sample (mkOffsetUtf16 126) = Some 168.
Proof.
  destruct (rope_offsets_roundtrip true sample prefix_text rest_text (proj1 sample_holds) sample_shallow
    sample_parts sample_fits) as (Hp & _ & _ & Ho & _).
  split; [exact Hp|exact Ho].
Defined.


(** Graphemes in which an acute accent belongs to the character before it. *)
Definition accent_boundary (s : str) (i : N) : bool :=
  (i =? 0) || (i =? Str.length_utf8 s) ||
  match Str.split_at s i with Some (_, 769 :: _) => false | Some _ => true | None => false end.

Definition accented : str := replicate 127 97 ++ [769; 98].

(** A chunk knows nothing of the characters before it: where the accent starts one,
    clipping leaves a point within the grapheme. *)
Example clip_splits_grapheme :
  (r ← RopeOps.from accented; clip_point accent_boundary r (PointOps.new 0 127) BiasLeft) = Some (PointOps.new 0 127) ∧
  accent_boundary accented 127 = false ∧ accent_boundary accented 126 = true.
Proof. by vm_compute. Qed.

Lemma rope_clips_witness :
  line_len Str.is_char_boundary sample 28 = Some 7 ∧ RopeOps.clip_offset sample 172 BiasLeft = Some 171.
Proof.
  destruct (rope_clips Str.is_char_boundary sample BiasLeft Chunking.simple_graphemes (proj1 sample_holds) sample_fits)
    as (Hc & _ & _ & _ & _ & Hl).
  split.
  - apply (Hl prefix_text [104; 233; 128512] (10 :: drop 4 rest_text)).
    + exact sample_parts.
    + right. exists (take 111 prefix_text). reflexivity.
    + reflexivity.
    + right. by eexists.
  - destruct (Hc 172) as (_ & -> & _). rewrite (proj2 sample_holds). vm_compute. reflexivity.
Defined.

End Roping.
