(* ===== verification/OperationQueue.v ===== *)
(** * The queue of deferred operations: [crates/text/src/operation_queue.rs]

    The operations that a buffer cannot apply yet wait in a tree sorted by
    their timestamps. *)

From stdpp Require Import sets sorting.
From S2P Require Import Prelude Clock SumTree SumCursor CursorSpec CursorWalk SumIter KeyedTree UndoMap.
Import TreeOps.

#[local] Unset Default Proof Using.
#[local] Arguments Nat.mul : simpl never.
#[local] Open Scope N_scope.
#[local] Existing Instance LamportOps.cmp_total.

(** ** Data *)

(** The trait [Operation]. *)
Class Timestamped (T : Type) := lamport_timestamp : T → Lamport.

(** An [OperationKey] is a timestamp. *)
Record OperationSummary := mkOperationSummary { okey : Lamport; olen : N }.

(** What [add_summary] and [add] assert. *)
Definition ascending (a b : OperationSummary) : bool := bool_decide (LamportOps.cmp (okey a) (okey b) = Lt).

(** The sum, when the assertion holds; [queue_asserts] shows that it does
    for the parts of a queue. *)
#[export] Instance operation_summary : Summary OperationSummary () :=
  {| szero _ := mkOperationSummary LamportOps.MIN 0;
     sadd _ a b := mkOperationSummary (okey b) (olen a + olen b) |}.

#[export] Instance operation_key_dimension : Dimension Lamport OperationSummary () :=
  {| dzero _ := LamportOps.MIN; dadd _ _ s := okey s |}.

(** [OperationItem] is the operation. *)
#[export] Instance operation_item {T} `{!Timestamped T} : Item T OperationSummary () :=
  {| isummary _ op := mkOperationSummary (lamport_timestamp op) 1 |}.
#[export] Instance operation_keyed {T} `{!Timestamped T} : KeyedItem T Lamport :=
  {| key op := lamport_timestamp op |}.

(** [Vec::dedup_by_key]: of equal neighbours the first stays. *)
Definition dedup_by_key {A K} `{!EqDecision K} (f : A → K) (l : list A) : list A :=
  match l with
  | [] => []
  | x :: l =>
      x :: (fix go x l := match l with
            | [] => []
            | y :: l => if decide (f y = f x) then go x l else y :: go y l
            end) x l
  end.

Module QueueOps.
Section QueueOps.
Context {T : Type} `{!Timestamped T}.
Variable sort_ops : list T → list T.
Variable sort_edits : list (Edit T Lamport) → list (Edit T Lamport).
Implicit Types (q : Node T OperationSummary) (ops : list T).

Definition new : Node T OperationSummary := TreeOps.new ().

Definition len q : N := olen (NodeOps.summary q).

Definition is_empty q : bool := len q =? 0.

Definition insert q ops : option (Node T OperationSummary) :=
  let ops := dedup_by_key lamport_timestamp (sort_ops ops) in
  fst <$> KeyedOps.edit LamportOps.cmp () sort_edits q (Insert <$> ops).

(** The old queue, and what is left. *)
Definition drain q : Node T OperationSummary * Node T OperationSummary := (q, TreeOps.new ()).

(** All that the iterator yields. *)
Definition iter q : option (list T) := IterOps.to_list q.

End QueueOps.
End QueueOps.

(** ** Laws *)

#[export] Instance operation_laws : SummaryLaws OperationSummary () ().
Proof. split; [by intros []|]. intros a b c. cbn. by rewrite N.add_assoc. Qed.

#[export] Instance operation_dimension_laws : DimensionLaws Lamport OperationSummary () ().
Proof. by split; [split|]. Qed.

#[export] Instance operation_keyed_laws {T} `{!Timestamped T} : KeyedLaws (T := T) LamportOps.cmp ().
Proof. split; [apply _|apply lamport_min_le|done]. Qed.

Lemma NoDup_key_inj {A B} (f : A → B) l x y : NoDup (f <$> l) → x ∈ l → y ∈ l → f x = f y → x = y.
Proof.
  induction l as [|z l IH]; [by intros _ ?%elem_of_nil|]. cbn. intros [Hz Hn]%NoDup_cons [->|Hx]%elem_of_cons [->|Hy]%elem_of_cons E; [done| | |by apply IH].
  - destruct Hz. rewrite E. by apply list_elem_of_fmap_2.
  - destruct Hz. rewrite <- E. by apply list_elem_of_fmap_2.
Qed.

Section queue.
Context {T : Type} `{!Timestamped T}.
Context (sort_ops : list T → list T) (sort_edits : list (Edit T Lamport) → list (Edit T Lamport)).
Context (Hso : Sorting (λ a b, LamportOps.cmp (lamport_timestamp a) (lamport_timestamp b) ≠ Gt) sort_ops).
Context (Hse : Sorting (edit_le LamportOps.cmp) sort_edits).
Implicit Types (q : Node T OperationSummary) (ops l k : list T) (x y : T).

#[local] Abbreviation before x y := (LamportOps.cmp (lamport_timestamp x) (lamport_timestamp y) = Lt).

Definition queue_built q : Prop := tree_ok () q ∧ ksorted LamportOps.cmp (tree_items q).
Definition queue_ok q : Prop := keyed_ok LamportOps.cmp () q.

Lemma dedup_sorted ops : StronglySorted (λ a b, LamportOps.cmp (lamport_timestamp a) (lamport_timestamp b) ≠ Gt) ops →
  ksorted LamportOps.cmp (dedup_by_key lamport_timestamp ops) ∧ (∀ x, x ∈ dedup_by_key lamport_timestamp ops → x ∈ ops) ∧
  ∀ x, x ∈ ops → lamport_timestamp x ∈ lamport_timestamp <$> dedup_by_key lamport_timestamp ops.
Proof.
  destruct ops as [|x l]; [intros _; cbn; split_and!; [constructor|done|by intros ? ?%elem_of_nil]|]. cbn [dedup_by_key]. set (go := fix go x l := _).
  revert x. induction l as [|y l IH]; intros x Hs; cbn.
  { split_and!; [by repeat constructor|done|]. intros z ->%list_elem_of_singleton. by left. }
  apply StronglySorted_cons in Hs as [Hx Hs]. pose proof Hs as [Hy Hl]%StronglySorted_cons. pose proof Hx as [Hxy Hxl]%Forall_cons.
  case_decide as E.
  - destruct (IH x) as (H1 & H2 & H3); [by apply StronglySorted_cons|]. split_and!; [done| |].
    + intros z Hz. apply H2, elem_of_cons in Hz as [->|Hz]; [by left|]. by do 2 right.
    + intros z [->|[->|Hz]%elem_of_cons]%elem_of_cons; [left|rewrite E; left|]; apply H3; set_solver.
  - destruct (IH y Hs) as (H1 & H2 & H3). split_and!.
    + constructor; [done|]. apply Forall_forall. intros z Hz%H2. unfold key_lt. cbn [key operation_keyed].
      assert (before x y) as Hb.
      { destruct (LamportOps.cmp (lamport_timestamp x) (lamport_timestamp y)) eqn:C; [|done..]. by apply (ord_eq LamportOps.cmp) in C. }
      apply elem_of_cons in Hz as [->|Hz]; [done|]. rewrite Forall_forall in Hy. apply (ord_lt_le_trans LamportOps.cmp _ _ _ Hb). by apply Hy.
    + intros z [->|Hz]%elem_of_cons; [by left|]. right. by apply H2.
    + intros z [->|Hz]%elem_of_cons; [by left|]. right. by apply H3.
Qed.

(** The new operations replace those with the same timestamps. *)
Lemma queue_insert_ok q ops : queue_ok q →
  returns (QueueOps.insert sort_ops sort_edits q ops) (λ q', queue_built q' ∧
    (∀ x, x ∈ tree_items q' → x ∈ ops ∨ x ∈ tree_items q ∧ lamport_timestamp x ∉ lamport_timestamp <$> ops) ∧
    (∀ x, x ∈ tree_items q → lamport_timestamp x ∉ lamport_timestamp <$> ops → x ∈ tree_items q') ∧
    (∀ x, x ∈ ops → lamport_timestamp x ∈ lamport_timestamp <$> tree_items q') ∧
    (NoDup (lamport_timestamp <$> ops) → ∀ x, x ∈ ops → x ∈ tree_items q')).
Proof.
  intros Hq. unfold QueueOps.insert. destruct Hso as [Hperm Hsorted]. destruct (dedup_sorted (sort_ops ops) (Hsorted ops)) as (Hd & Hin & Hts).
  set (d := dedup_by_key _ _) in *.
  assert (∀ x, x ∈ d → x ∈ ops) as Hin' by (intros x Hx; rewrite <- (Hperm ops); by apply Hin).
  assert (∀ x, x ∈ ops → lamport_timestamp x ∈ lamport_timestamp <$> d) as Hts' by (intros x Hx; apply Hts; by rewrite (Hperm ops)).
  assert (∀ t, t ∈ lamport_timestamp <$> d ↔ t ∈ lamport_timestamp <$> ops) as Hiff.
  { intros t. rewrite !list_elem_of_fmap. split; [intros (x & -> & Hx); exists x; auto|]. intros (x & -> & Hx). by apply Hts', list_elem_of_fmap in Hx as (y & -> & Hy); [exists y]. }
  assert (KeyedOps.edit_key <$> (Insert <$> d) = lamport_timestamp <$> d) as Ek by by rewrite <- list_fmap_compose.
  eapply returns_fmap, returns_mono.
  { apply (edit_members LamportOps.cmp () sort_edits q (Insert <$> d) Hse Hq). rewrite Ek.
    clear -Hd. induction Hd as [|x l Hl IH Hx]; [constructor|]. cbn. constructor; [|done]. intros (y & E & Hy)%list_elem_of_fmap.
    rewrite Forall_forall in Hx. specialize (Hx y Hy). unfold key_lt in Hx. cbn in Hx. by rewrite E, (ord_refl LamportOps.cmp) in Hx. }
  intros [q' o] (Hq' & Hs' & Hx). cbn [fst]. rewrite Ek in Hx.
  assert (∀ x, Insert x ∈ Insert (K := Lamport) <$> d ↔ x ∈ d) as Hins.
  { intros x. rewrite list_elem_of_fmap. split; [by intros (y & [= ->] & Hy)|]. intros H. by exists x. }
  split_and!; [by split| | | |].
  - intros x [Hd'%Hins|[Hx1 Hx2]]%Hx; [left; by apply Hin'|right]. by rewrite <- Hiff.
  - intros x H1 H2. apply Hx. right. by rewrite Hiff.
  - intros x H%Hts'. apply list_elem_of_fmap in H as (y & -> & Hy). apply list_elem_of_fmap_2, Hx. left. by apply Hins.
  - intros Hnd x H. apply Hx. left. apply Hins. pose proof (Hts' x H) as (y & E & Hy)%list_elem_of_fmap.
    assert (x = y) as ->; [|done]. by apply (NoDup_key_inj lamport_timestamp ops); auto.
Qed.
End queue.

(** ** Lengths, iteration and the assertions *)

Section contents.
Context {T : Type} `{!Timestamped T}.
Implicit Types (q : Node T OperationSummary) (l k : list T) (x y : T).

Lemma total_operations l : total () l = mkOperationSummary (default LamportOps.MIN (list.last (lamport_timestamp <$> l))) (N.of_nat (length l)).
Proof.
  induction l as [|x l IH] using rev_ind; [done|]. rewrite (total_app ()) by done. rewrite IH, fmap_app, length_app.
  change (lamport_timestamp <$> [x]) with [lamport_timestamp x]. rewrite last_snoc. cbn. f_equal. lia.
Qed.

Lemma queue_len q : queue_built q → QueueOps.len q = N.of_nat (length (tree_items q)).
Proof. intros [Hq _]. unfold QueueOps.len. by rewrite (summary_ok () q Hq), total_operations. Qed.

Lemma queue_is_empty q : queue_built q → QueueOps.is_empty q = bool_decide (tree_items q = []).
Proof.
  intros Hq. unfold QueueOps.is_empty. rewrite queue_len by done. destruct (tree_items q) as [|x l]; [done|].
  cbn [length]. rewrite bool_decide_eq_false_2 by done. apply N.eqb_neq. lia.
Qed.

(** Sums of neighbouring parts of a queue pass the assertion. *)
Lemma ascending_parts l k : ksorted LamportOps.cmp (l ++ k) → l ≠ [] → k ≠ [] → ascending (total () l) (total () k) = true.
Proof.
  intros Hs Hl Hk. unfold ascending. apply bool_decide_eq_true. rewrite !total_operations. cbn [okey].
  destruct l as [|x l _] using rev_ind; [done|]. destruct k as [|y k _] using rev_ind; [done|].
  rewrite !fmap_app. change (lamport_timestamp <$> [?z]) with [lamport_timestamp z]. rewrite !last_snoc. cbn.
  apply (StronglySorted_app_1_elem_of (key_lt LamportOps.cmp) (l ++ [x]) (k ++ [y]) x y Hs); set_solver.
Qed.

Lemma ascending_first l : Forall (λ x, lamport_timestamp x ≠ LamportOps.MIN) l → l ≠ [] → ascending (szero ()) (total () l) = true.
Proof.
  intros Hf Hl. unfold ascending. apply bool_decide_eq_true. rewrite !total_operations. cbn [okey szero operation_summary].
  destruct l as [|x l _] using rev_ind; [done|]. rewrite fmap_app. change (lamport_timestamp <$> [x]) with [lamport_timestamp x]. rewrite last_snoc.
  rewrite Forall_app, Forall_singleton in Hf. destruct Hf as [_ Hx]. cbn.
  pose proof (lamport_min_le (lamport_timestamp x)) as Hm. destruct (LamportOps.cmp LamportOps.MIN _) eqn:E; [|done..].
  by apply (ord_eq LamportOps.cmp) in E.
Qed.
End contents.

(** ** The queue keeps operations in order *)

(** Inserting operations into a queue does not panic, and leaves each timestamp once: an
    operation replaces one of the same timestamp. All that is then taken out with [drain] and
    iterated comes in the order of the timestamps, [len] counts it, and [drain] leaves an empty
    queue. The sums that the nodes of the queue keep pass the assertion that keys ascend. *)
Theorem queue_in_order {T} `{!Timestamped T} sort_ops sort_edits q (ops : list T)
    (Hso : Sorting (λ a b, LamportOps.cmp (lamport_timestamp a) (lamport_timestamp b) ≠ Gt) sort_ops)
    (Hse : Sorting (edit_le LamportOps.cmp) sort_edits)
    (Hq : queue_ok q) (Hnd : NoDup (lamport_timestamp <$> ops))
    (Hlow : ∀ q', QueueOps.insert sort_ops sort_edits q ops = Some q' → (NodeOps.height q' < STACK_CAPACITY)%nat) :
  returns (QueueOps.insert sort_ops sort_edits q ops) (λ q', ∃ l,
    QueueOps.iter (QueueOps.drain q').1 = Some l ∧ QueueOps.is_empty (QueueOps.drain q').2 = true ∧
    StronglySorted (λ x y, LamportOps.cmp (lamport_timestamp x) (lamport_timestamp y) = Lt) l ∧
    (∀ x, x ∈ l ↔ x ∈ ops ∨ x ∈ tree_items q ∧ lamport_timestamp x ∉ lamport_timestamp <$> ops) ∧
    QueueOps.len q' = N.of_nat (length l) ∧
    ∀ a b c d, l = a ++ b ++ c ++ d → b ≠ [] → c ≠ [] → ascending (total () b) (total () c) = true).
Proof.
  destruct (queue_insert_ok sort_ops sort_edits Hso Hse q ops Hq) as (q' & E & Hb & H1 & H2 & _ & H3). specialize (Hlow q' E).
  rewrite E. apply returns_ret. pose proof Hb as [Hok Hs]. exists (tree_items q'). split_and!; try done.
  - by apply (to_list_ok ()).
  - intros x. specialize (H3 Hnd). split; [apply H1|]. intros [?|[??]]; [by apply H3|by apply H2].
  - by apply queue_len.
  - intros a b c d El. rewrite El in Hs. apply StronglySorted_app_1_r in Hs. rewrite app_assoc in Hs.
    apply StronglySorted_app_1_l in Hs. by apply ascending_parts.
Qed.

Module Queueing.

#[local] Instance lamport_operation : Timestamped Lamport := λ t, t.

Definition sort_ops : list Lamport → list Lamport := merge_sort (λ a b, LamportOps.cmp (lamport_timestamp a) (lamport_timestamp b) ≠ Gt).
Definition sort_edits : list (Edit Lamport Lamport) → list (Edit Lamport Lamport) := merge_sort (edit_le LamportOps.cmp).
Definition ops : list Lamport := [mkLamport 3 1; mkLamport 2 8; mkLamport 3 0].

Lemma queue_in_order_witness :
  returns (QueueOps.insert sort_ops sort_edits QueueOps.new ops) (λ q', QueueOps.len q' = 3 ∧
    QueueOps.iter (QueueOps.drain q').1 = Some [mkLamport 2 8; mkLamport 3 0; mkLamport 3 1]).
Proof.
  assert (Sorting (λ a b : Lamport, LamportOps.cmp (lamport_timestamp a) (lamport_timestamp b) ≠ Gt) sort_ops) as Hso
    by apply (merge_sort_sorting LamportOps.cmp lamport_timestamp).
  assert (Sorting (edit_le LamportOps.cmp) sort_edits) as Hse by apply (merge_sort_sorting LamportOps.cmp KeyedOps.edit_key).
  assert (queue_ok (T := Lamport) QueueOps.new) as Hq.
  { split_and!; [by left|constructor|]. vm_compute. lia. }
  assert (NoDup (lamport_timestamp <$> ops)) as Hnd by (apply (bool_decide_unpack _); by vm_compute).
  assert (∀ q', QueueOps.insert sort_ops sort_edits QueueOps.new ops = Some q' → (NodeOps.height q' < STACK_CAPACITY)%nat) as Hlow.
  { intros q' E. assert (NodeOps.height <$> QueueOps.insert sort_ops sort_edits QueueOps.new ops = Some 0%nat) as H by by vm_compute.
    rewrite E in H. injection H as ->. vm_compute. lia. }
  pose proof (queue_in_order sort_ops sort_edits QueueOps.new ops Hso Hse Hq Hnd Hlow) as (q' & E & l & Hl & _ & _ & _ & Hlen & _).
  exists q'. split; [done|].
  assert (QueueOps.iter <$> (fst <$> (QueueOps.drain <$> QueueOps.insert sort_ops sort_edits QueueOps.new ops)) =
    Some (Some [mkLamport 2 8; mkLamport 3 0; mkLamport 3 1])) as H by by vm_compute.
  rewrite E in H. cbn in H. injection H as H. cbn in Hl. rewrite H in Hl. injection Hl as <-. split; [by rewrite Hlen|done].
Defined.

End Queueing.
