(* ===== verification/History.v ===== *)
(** * Undo history: [History] of [crates/text/src/text.rs]

    The transactions of a buffer on an undo and a redo stack: opening and
    closing them, grouping, undoing and redoing, forgetting and merging.
    [None] is a panic: a failed assertion on the depth of nested transactions
    or an [unwrap] of an empty stack. *)

From stdpp Require Import sets relations.
From S2P Require Import Prelude Clock SumTree SumCursor CursorSpec KeyedTree TreeMap UndoMap Text Rope.

#[local] Unset Default Proof Using.
#[local] Open Scope N_scope.
#[local] Existing Instance LamportOps.cmp_total.

(** ** Data *)

(** The offsets of a range are [FullOffset]s: they count deleted text too. *)
Record EditOperation := mkEditOperation {
  edit_timestamp : Lamport;
  edit_version : Global;
  ranges : list (Range N);
  new_text : list str }.

Inductive Operation :=
  | OpEdit (edit : EditOperation)
  | OpUndo (undo : UndoOperation).

#[export] Instance EditOperation_eq_dec : EqDecision EditOperation.
Proof. solve_decision. Defined.
#[export] Instance UndoOperation_eq_dec : EqDecision UndoOperation.
Proof. solve_decision. Defined.
#[export] Instance Operation_eq_dec : EqDecision Operation.
Proof. solve_decision. Defined.

(** [Operation::timestamp]. *)
Definition op_timestamp (op : Operation) : Lamport :=
  match op with OpEdit edit => edit_timestamp edit | OpUndo undo => timestamp undo end.

(** [Operation::replica_id], and the version that [can_apply_op] looks at. *)
Definition op_replica_id (op : Operation) : ReplicaId := replica_id (op_timestamp op).
Definition op_version (op : Operation) : Global :=
  match op with OpEdit edit => edit_version edit | OpUndo undo => UndoMap.version undo end.

Record Transaction := mkTransaction { id : Lamport; edit_ids : list Lamport; tstart : Global }.

(** Points in time and durations are in nanoseconds; the difference of two
    [Instant]s is zero when the first is the earlier one. *)
Record HistoryEntry := mkHistoryEntry {
  transaction : Transaction;
  first_edit_at : N;
  last_edit_at : N;
  suppress_grouping : bool }.

(** The top of a stack is at the end of its list. *)
Record History := mkHistory {
  base_text : Rope;
  operations : TreeMap Lamport Operation;
  undo_stack : list HistoryEntry;
  redo_stack : list HistoryEntry;
  transaction_depth : N;
  group_interval : N }.

(** ** [Vec] as a stack *)

Section vec.
Context {A : Type}.
Implicit Types (l : list A) (p : A → bool).

Definition pop l : option (A * list A) :=
  match rev l with [] => None | x :: r => Some (x, rev r) end.

(** [last_mut], when there is a last item. *)
Definition change_last (f : A → A) l : option (list A) :=
  match pop l with Some (x, l) => Some (l ++ [f x]) | None => None end.

(** [iter().rposition]. *)
Fixpoint rposition p l : option nat :=
  match l with
  | [] => None
  | x :: l =>
      match rposition p l with
      | Some i => Some (Datatypes.S i)
      | None => if p x then Some O else None
      end
  end.

(** [iter().rfind]. *)
Definition rfind p l : option A := i ← rposition p l; l !! i.

Lemma pop_snoc l x : pop (l ++ [x]) = Some (x, l).
Proof. unfold pop. rewrite rev_app_distr. cbn [rev app]. by rewrite rev_involutive. Qed.

Lemma change_last_snoc f l x : change_last f (l ++ [x]) = Some (l ++ [f x]).
Proof. unfold change_last. by rewrite pop_snoc. Qed.

Lemma stack_cases l : l = [] ∨ ∃ k x, l = k ++ [x].
Proof. induction l as [|x l _] using rev_ind; [by left|right; by eexists _, _]. Qed.

Lemma rposition_none p l : rposition p l = None ↔ Forall (λ x, p x = false) l.
Proof.
  induction l as [|x l IH]; cbn [rposition]; [done|]. rewrite Forall_cons, <- IH.
  destruct (rposition p l); [by split; [|intros [_ ?]]|]. destruct (p x); by split; [|intros [? _]].
Qed.

Lemma rposition_some p l i : rposition p l = Some i →
  ∃ a x b, l = a ++ x :: b ∧ length a = i ∧ p x = true ∧ Forall (λ x, p x = false) b.
Proof.
  revert i. induction l as [|y l IH]; intros i; cbn [rposition]; [done|].
  destruct (rposition p l) as [j|] eqn:E.
  - intros [= <-]. destruct (IH j eq_refl) as (a & x & b & -> & <- & Hx & Hb).
    by exists (y :: a), x, b.
  - destruct (p y) eqn:Ey; [|done]. intros [= <-]. exists [], y, l. by rewrite <- rposition_none.
Qed.

Lemma rposition_app p a x b : p x = true → Forall (λ x, p x = false) b →
  rposition p (a ++ x :: b) = Some (length a).
Proof.
  intros Hx Hb. induction a as [|y a IH]; cbn [app rposition length]; [|by rewrite IH].
  apply rposition_none in Hb. by rewrite Hb, Hx.
Qed.
End vec.

(** ** Operations *)

Module HistoryOps.
Implicit Types (h : History) (now : N) (clock transaction_id op_id : Lamport).

(** Outside of tests the interval is 300 milliseconds. *)
Definition GROUP_INTERVAL : N := 300 * 10 ^ 6.

Definition new (base_text : Rope) : History :=
  mkHistory base_text (TreeOps.new ()) [] [] 0 GROUP_INTERVAL.

Definition set_undo h stack : History :=
  mkHistory (base_text h) (operations h) stack (redo_stack h) (transaction_depth h) (group_interval h).
Definition set_stacks h undo redo : History :=
  mkHistory (base_text h) (operations h) undo redo (transaction_depth h) (group_interval h).
Definition set_depth h depth : History :=
  mkHistory (base_text h) (operations h) (undo_stack h) (redo_stack h) depth (group_interval h).
Definition set_ids (t : Transaction) ids : Transaction := mkTransaction (id t) ids (tstart t).
Definition set_transaction (e : HistoryEntry) t : HistoryEntry :=
  mkHistoryEntry t (first_edit_at e) (last_edit_at e) (suppress_grouping e).

Definition push h (op : Operation) : option History :=
  operations ← TreeMapOps.insert LamportOps.cmp (operations h) (op_timestamp op) op;
  Some (mkHistory (base_text h) operations (undo_stack h) (redo_stack h) (transaction_depth h) (group_interval h)).

(** A new entry, of one point in time. *)
Definition entry_at (t : Transaction) now : HistoryEntry := mkHistoryEntry t now now false.

Definition start_transaction h (start : Global) now clock : History * Lamport * option Lamport :=
  let h := set_depth h (transaction_depth h + 1) in
  if transaction_depth h =? 1 then
    let '(id, clock) := LamportOps.tick clock in
    (set_undo h (undo_stack h ++ [entry_at (mkTransaction id [] start) now]), clock, Some id)
  else (h, clock, None).

Definition end_transaction h now : option (History * option HistoryEntry) :=
  if transaction_depth h =? 0 then None
  else
    let h := set_depth h (transaction_depth h - 1) in
    if transaction_depth h =? 0 then
      '(entry, stack) ← pop (undo_stack h);
      match edit_ids (transaction entry) with
      | [] => Some (set_undo h stack, None)
      | _ =>
          let entry := mkHistoryEntry (transaction entry) (first_edit_at entry) now (suppress_grouping entry) in
          Some (set_stacks h (stack ++ [entry]) [], Some entry)
      end
    else Some (h, None).

(** [Transaction::merge_in]. *)
Definition merge_in (t other : Transaction) : Transaction := set_ids t (edit_ids t ++ edit_ids other).

(** The entries to merge into [last_entry]. *)
Definition merge_entries (last_entry : HistoryEntry) (entries : list HistoryEntry) : HistoryEntry :=
  let merged := set_transaction last_entry
    (set_ids (transaction last_entry)
       (edit_ids (transaction last_entry) ++ mjoin ((λ e, edit_ids (transaction e)) <$> entries))) in
  match list.last entries with
  | Some entry => mkHistoryEntry (transaction merged) (first_edit_at merged) (last_edit_at entry) (suppress_grouping merged)
  | None => merged
  end.

Definition group_trailing h (n : nat) : option (History * option Lamport) :=
  if (n <=? length (undo_stack h))%nat then
    let new_len := (length (undo_stack h) - n)%nat in
    let '(entries_to_keep, entries_to_merge) := (take new_len (undo_stack h), drop new_len (undo_stack h)) in
    let stack :=
      match change_last (λ e, merge_entries e entries_to_merge) entries_to_keep with
      | Some stack => stack
      | None => entries_to_keep
      end in
    Some (set_undo h stack, (λ e, id (transaction e)) <$> list.last stack)
  else None.

(** The loop of [group]: [entries] are those before [entry], the last one first. *)
Fixpoint group_count (interval : N) (entry : HistoryEntry) (entries : list HistoryEntry) : nat :=
  match entries with
  | prev_entry :: entries =>
      if negb (suppress_grouping prev_entry) && (first_edit_at entry - last_edit_at prev_entry <? interval)
      then Datatypes.S (group_count interval prev_entry entries)
      else O
  | [] => O
  end.

Definition group h : option (History * option Lamport) :=
  group_trailing h
    match rev (undo_stack h) with
    | entry :: entries => group_count (group_interval h) entry entries
    | [] => O
    end.

(** The loop of [group_until]; the result is how many entries to group, if any. *)
Fixpoint group_until_count transaction_id (entries : list HistoryEntry) : option nat :=
  match entries with
  | entry :: entries =>
      if bool_decide (id (transaction entry) = transaction_id) then Some O
      else if suppress_grouping entry then None
      else Datatypes.S <$> group_until_count transaction_id entries
  | [] => None
  end.

Definition group_until h transaction_id : option History :=
  match group_until_count transaction_id (rev (undo_stack h)) with
  | Some count => fst <$> group_trailing h count
  | None => Some h
  end.

Definition finalize_last_transaction h : History * option Transaction :=
  match change_last (λ e, mkHistoryEntry (transaction e) (first_edit_at e) (last_edit_at e) true) (undo_stack h) with
  | Some stack => (set_undo h stack, transaction <$> list.last stack)
  | None => (h, None)
  end.

Definition push_transaction h (t : Transaction) now : option History :=
  if transaction_depth h =? 0 then Some (set_undo h (undo_stack h ++ [entry_at t now])) else None.

Definition push_empty_transaction h (start : Global) now clock : option (History * Lamport * Lamport) :=
  if transaction_depth h =? 0 then
    let '(id, clock) := LamportOps.tick clock in
    Some (set_undo h (undo_stack h ++ [entry_at (mkTransaction id [] start) now]), clock, id)
  else None.

Definition push_undo h op_id : option History :=
  if transaction_depth h =? 0 then None
  else
    match TreeMapOps.get LamportOps.cmp (operations h) op_id with
    | Some (OpEdit _) =>
        stack ← change_last (λ e, set_transaction e
                  (set_ids (transaction e) (edit_ids (transaction e) ++ [op_id]))) (undo_stack h);
        Some (set_undo h stack)
    | _ => Some h
    end.

Definition pop_undo h : option (History * option HistoryEntry) :=
  if transaction_depth h =? 0 then
    Some match pop (undo_stack h) with
         | Some (entry, stack) => (set_stacks h stack (redo_stack h ++ [entry]), Some entry)
         | None => (h, None)
         end
  else None.

(** The test of [rposition] and [rfind]. *)
Definition has_id transaction_id (e : HistoryEntry) : bool := bool_decide (id (transaction e) = transaction_id).

Definition remove_from_undo h transaction_id : option (History * option HistoryEntry) :=
  if transaction_depth h =? 0 then
    match rposition (has_id transaction_id) (undo_stack h) with
    | Some entry_ix =>
        entry ← undo_stack h !! entry_ix;
        Some (set_stacks h (delete entry_ix (undo_stack h)) (redo_stack h ++ [entry]), Some entry)
    | None => Some (h, None)
    end
  else None.

(** [target.extend(source.drain(entry_ix..).rev())], from the entry with the id on. *)
Definition move_until transaction_id (source target : list HistoryEntry) : list HistoryEntry * list HistoryEntry :=
  match rposition (has_id transaction_id) source with
  | Some entry_ix => (take entry_ix source, target ++ rev (drop entry_ix source))
  | None => (source, target)
  end.

Definition remove_from_undo_until h transaction_id : option (History * list HistoryEntry) :=
  if transaction_depth h =? 0 then
    let redo_stack_start_len := length (redo_stack h) in
    let '(undo, redo) := move_until transaction_id (undo_stack h) (redo_stack h) in
    Some (set_stacks h undo redo, drop redo_stack_start_len redo)
  else None.

Definition forget h transaction_id : option (History * option Transaction) :=
  if transaction_depth h =? 0 then
    match rposition (has_id transaction_id) (undo_stack h) with
    | Some entry_ix =>
        entry ← undo_stack h !! entry_ix;
        Some (set_stacks h (delete entry_ix (undo_stack h)) (redo_stack h), Some (transaction entry))
    | None =>
        match rposition (has_id transaction_id) (redo_stack h) with
        | Some entry_ix =>
            entry ← redo_stack h !! entry_ix;
            Some (set_stacks h (undo_stack h) (delete entry_ix (redo_stack h)), Some (transaction entry))
        | None => Some (h, None)
        end
    end
  else None.

(** [transaction]. *)
Definition get_transaction h transaction_id : option Transaction :=
  match rfind (has_id transaction_id) (undo_stack h) with
  | Some entry => Some (transaction entry)
  | None => transaction <$> rfind (has_id transaction_id) (redo_stack h)
  end.

(** A change through the reference that [transaction_mut] returns, if it does. *)
Definition transaction_mut h transaction_id (f : Transaction → Transaction) : option History :=
  let change := λ e, set_transaction e (f (transaction e)) in
  match rposition (has_id transaction_id) (undo_stack h) with
  | Some entry_ix => Some (set_stacks h (alter change entry_ix (undo_stack h)) (redo_stack h))
  | None =>
      match rposition (has_id transaction_id) (redo_stack h) with
      | Some entry_ix => Some (set_stacks h (undo_stack h) (alter change entry_ix (redo_stack h)))
      | None => None
      end
  end.

Definition merge_transactions h (transaction destination : Lamport) : option History :=
  '(h, transaction) ← forget h transaction;
  Some match transaction with
       | Some transaction => default h (transaction_mut h destination (λ d, merge_in d transaction))
       | None => h
       end.

Definition pop_redo h : option (History * option HistoryEntry) :=
  if transaction_depth h =? 0 then
    Some match pop (redo_stack h) with
         | Some (entry, stack) => (set_stacks h (undo_stack h ++ [entry]) stack, Some entry)
         | None => (h, None)
         end
  else None.

Definition remove_from_redo h transaction_id : option (History * list HistoryEntry) :=
  if transaction_depth h =? 0 then
    let undo_stack_start_len := length (undo_stack h) in
    let '(redo, undo) := move_until transaction_id (redo_stack h) (undo_stack h) in
    Some (set_stacks h undo redo, drop undo_stack_start_len undo)
  else None.

End HistoryOps.
Import HistoryOps.

(** ** Grouping *)

Section grouping.
Implicit Types (h : History) (e : HistoryEntry) (l a b : list HistoryEntry).

Definition tid e : Lamport := id (transaction e).
Definition edits l : list Lamport := mjoin ((λ e, edit_ids (transaction e)) <$> l).

Lemma edits_app a b : edits (a ++ b) = edits a ++ edits b.
Proof. unfold edits. by rewrite fmap_app, join_app. Qed.

(** The entries [e] and [b] as one. *)
Record merged e b e' : Prop := {
  merged_id : tid e' = tid e;
  merged_start : tstart (transaction e') = tstart (transaction e);
  merged_edits : edit_ids (transaction e') = edits (e :: b);
  merged_first : first_edit_at e' = first_edit_at e;
  merged_last : last_edit_at e' = last_edit_at (default e (list.last b));
  merged_suppress : suppress_grouping e' = suppress_grouping e }.

Lemma merge_entries_ok e b : merged e b (merge_entries e b).
Proof. unfold merge_entries. destruct (list.last b) eqn:E; split; by rewrite ?E. Qed.

Lemma group_trailing_ok h a e b : undo_stack h = a ++ e :: b →
  group_trailing h (length b) = Some (set_undo h (a ++ [merge_entries e b]), Some (tid e)).
Proof.
  intros Hu. unfold group_trailing. rewrite Hu, length_app. cbn [length].
  destruct (Nat.leb_spec (length b) (length a + Datatypes.S (length b))); [|lia].
  assert (length a + Datatypes.S (length b) - length b = length (a ++ [e]))%nat as ->
    by (rewrite length_app; cbn [length]; lia).
  change (a ++ e :: b) with (a ++ [e] ++ b). rewrite app_assoc, take_app_length, drop_app_length, change_last_snoc.
  rewrite last_snoc. cbn [fmap option_fmap option_map]. do 2 f_equal. unfold tid.
  f_equal. apply (merged_id e b), merge_entries_ok.
Qed.

(** Two entries in succession that [group] merges. *)
Definition close (interval : N) (p q : HistoryEntry) : Prop :=
  suppress_grouping p = false ∧ first_edit_at q - last_edit_at p < interval.

(** [e] and [b] in a row are close to each other. *)
Fixpoint linked (interval : N) e b : Prop :=
  match b with [] => True | q :: b => close interval e q ∧ linked interval q b end.

Lemma linked_snoc interval e b q p : list.last (e :: b) = Some p → close interval p q →
  linked interval e b → linked interval e (b ++ [q]).
Proof.
  revert e. induction b as [|x b IH]; intros e; cbn [app linked].
  - by intros [= ->].
  - intros Hp Hc [He Hb]. split; [done|]. by apply IH.
Qed.

Lemma group_count_ok interval e l : ∃ a x b, rev l ++ [e] = a ++ x :: b ∧
  group_count interval e l = length b ∧ linked interval x b ∧
  (∀ p, list.last a = Some p → ¬ close interval p x).
Proof.
  revert e. induction l as [|p l IH]; intros e; cbn [group_count rev].
  - exists [], e, []. by split_and!.
  - destruct (negb (suppress_grouping p) && _) eqn:E.
    + apply andb_true_iff in E as [E1%negb_true_iff E2%N.ltb_lt].
      destruct (IH p) as (a & x & b & Hl & -> & Hb & Ha).
      exists a, x, (b ++ [e]). rewrite length_app, Hl, <- app_assoc. cbn [length app].
      split_and!; [done|lia| |done]. apply (linked_snoc interval x b e p); [|by split|done].
      assert (list.last (a ++ x :: b) = Some p) as Hlast by (by rewrite <- Hl, last_snoc).
      rewrite last_app, last_cons in Hlast. rewrite last_cons. by destruct (list.last b).
    + exists (rev l ++ [p]), e, []. split_and!; [done|done|done|]. intros q. rewrite last_snoc. intros [= <-] [H1 H2].
      rewrite H1 in E. cbn [negb andb] in E. apply N.ltb_ge in E. lia.
Qed.
End grouping.

(** ** Runs *)

(** The operations on a history and on the clock of its buffer. *)
Inductive Event :=
  | Push (op : Operation)
  | StartTransaction (start : Global) (now : N)
  | EndTransaction (now : N)
  | Group
  | GroupUntil (id : Lamport)
  | FinalizeLast
  | PushTransaction (t : Transaction) (now : N)
  | PushEmptyTransaction (start : Global) (now : N)
  | PushUndo (op_id : Lamport)
  | PopUndo
  | RemoveFromUndo (id : Lamport)
  | RemoveFromUndoUntil (id : Lamport)
  | Forget (id : Lamport)
  | MergeTransactions (transaction destination : Lamport)
  | PopRedo
  | RemoveFromRedo (id : Lamport).

Definition State : Type := History * Lamport.

Definition run_event (e : Event) (st : State) : option State :=
  let '(h, clock) := st in
  match e with
  | Push op => h ← push h op; Some (h, clock)
  | StartTransaction start now => Some (start_transaction h start now clock).1
  | EndTransaction now => '(h, _) ← end_transaction h now; Some (h, clock)
  | Group => '(h, _) ← group h; Some (h, clock)
  | GroupUntil id => h ← group_until h id; Some (h, clock)
  | FinalizeLast => Some ((finalize_last_transaction h).1, clock)
  | PushTransaction t now => h ← push_transaction h t now; Some (h, clock)
  | PushEmptyTransaction start now => fst <$> push_empty_transaction h start now clock
  | PushUndo op_id => h ← push_undo h op_id; Some (h, clock)
  | PopUndo => '(h, _) ← pop_undo h; Some (h, clock)
  | RemoveFromUndo id => '(h, _) ← remove_from_undo h id; Some (h, clock)
  | RemoveFromUndoUntil id => '(h, _) ← remove_from_undo_until h id; Some (h, clock)
  | Forget id => '(h, _) ← forget h id; Some (h, clock)
  | MergeTransactions t d => h ← merge_transactions h t d; Some (h, clock)
  | PopRedo => '(h, _) ← pop_redo h; Some (h, clock)
  | RemoveFromRedo id => '(h, _) ← remove_from_redo h id; Some (h, clock)
  end.

Definition stacks (h : History) : list HistoryEntry := undo_stack h ++ redo_stack h.

(** The edits that can be undone or redone. *)
Definition stack_edits (h : History) : list Lamport := edits (stacks h).

(** [op_id] is an edit that the history has recorded. *)
Definition is_edit (h : History) (op_id : Lamport) : Prop :=
  ∃ edit, map_at op_id (operations h) = Some (OpEdit edit).

(** The clock has passed [t], or [t] is of another replica. *)
Definition passed_by (clock t : Lamport) : Prop := replica_id t = replica_id clock → value t < value clock.

(** When the operations may be called: within or outside of a transaction, as
    they assert; with new timestamps, while clocks do not overflow and the tree
    of operations fits the stack of the cursors. *)
Definition allowed (e : Event) (st : State) : Prop :=
  let '(h, clock) := st in
  match e with
  | Push op => (map_at (op_timestamp op) (operations h) = None ∨ map_at (op_timestamp op) (operations h) = Some op) ∧
      (∀ h', push h op = Some h' → (NodeOps.height (operations h') < STACK_CAPACITY)%nat)
  | StartTransaction _ _ => value clock + 1 < u32_modulus
  | EndTransaction _ => transaction_depth h ≠ 0
  | PushTransaction t _ => transaction_depth h = 0 ∧ ¬ (id t ∈ (tid <$> stacks h)) ∧ passed_by clock (id t) ∧
      NoDup (edit_ids t ++ edits (stacks h)) ∧ Forall (is_edit h) (edit_ids t)
  | PushEmptyTransaction _ _ => transaction_depth h = 0 ∧ value clock + 1 < u32_modulus
  | PushUndo op_id => transaction_depth h ≠ 0 ∧ op_id ∉ edits (stacks h)
  | Group | GroupUntil _ | FinalizeLast => True
  | _ => transaction_depth h = 0
  end.

Definition hstep (st st' : State) : Prop := ∃ e, allowed e st ∧ run_event e st = Some st'.

Record history_ok (st : State) : Prop := {
  ok_open : transaction_depth st.1 ≠ 0 → undo_stack st.1 ≠ [];
  ok_ids : NoDup (tid <$> stacks st.1);
  ok_clock : Forall (passed_by st.2) (tid <$> stacks st.1);
  ok_edits : NoDup (edits (stacks st.1));
  ok_recorded : Forall (is_edit st.1) (edits (stacks st.1));
  ok_operations : map_ok LamportOps.cmp (operations st.1) }.

Section runs.
Implicit Types (h : History) (e : HistoryEntry) (l a b k : list HistoryEntry) (c : Lamport).

Lemma edits_submseteq a b : a ⊆+ b → edits a ⊆+ edits b.
Proof.
  intros [k Hk]%submseteq_Permutation. unfold edits. rewrite Hk, fmap_app, join_app.
  apply submseteq_inserts_r. done.
Qed.

(** The operations that record nothing new. *)
Record kept h h' : Prop := {
  kept_operations : operations h' = operations h;
  kept_ids : (tid <$> stacks h') ⊆+ (tid <$> stacks h);
  kept_edits : edits (stacks h') ⊆+ edits (stacks h);
  kept_open : transaction_depth h' ≠ 0 → transaction_depth h ≠ 0 ∧ undo_stack h' ≠ [] }.

Lemma kept_entries h h' : operations h' = operations h → stacks h' ⊆+ stacks h →
  (transaction_depth h' ≠ 0 → transaction_depth h ≠ 0 ∧ undo_stack h' ≠ []) → kept h h'.
Proof. intros Ho Hs Hd. split; [done|by apply fmap_submseteq|by apply edits_submseteq|done]. Qed.

Lemma kept_trans h1 h2 h3 : kept h1 h2 → kept h2 h3 → kept h1 h3.
Proof. intros [O1 I1 E1 D1] [O2 I2 E2 D2]. split; [congruence|by etrans|by etrans|]. intros []%D2. split; [by apply D1|done]. Qed.

Lemma kept_refl h : (transaction_depth h ≠ 0 → undo_stack h ≠ []) → kept h h.
Proof. intros H. apply kept_entries; auto. Qed.

Lemma kept_ok h h' c : history_ok (h, c) → kept h h' → history_ok (h', c).
Proof.
  intros [H1 H2 H3 H4 H5 H6] [Ho Hi He Hd]. cbn [fst snd] in *. split; cbn [fst snd]; [by intros []%Hd| | | | |by rewrite Ho].
  - apply submseteq_Permutation in Hi as [k Hk]. rewrite Hk in H2. by apply NoDup_app in H2 as [? _].
  - apply Forall_forall. intros x Hx. rewrite Forall_forall in H3. apply H3. by eapply elem_of_submseteq.
  - apply submseteq_Permutation in He as [k Hk]. rewrite Hk in H4. by apply NoDup_app in H4 as [? _].
  - apply Forall_forall. intros x Hx. rewrite Forall_forall in H5. unfold is_edit. rewrite Ho. apply H5.
    by eapply elem_of_submseteq.
Qed.

Lemma stacks_set h u r : stacks (set_stacks h u r) = u ++ r.
Proof. done. Qed.
Lemma stacks_undo h u : stacks (set_undo h u) = u ++ redo_stack h.
Proof. done. Qed.

Lemma pop_undo_kept h : transaction_depth h = 0 → returns (pop_undo h) (λ '(h', _), kept h h').
Proof.
  intros Hd. unfold pop_undo. rewrite Hd, N.eqb_refl. apply returns_ret.
  destruct (stack_cases (undo_stack h)) as [Hu|(k & e & Hu)]; rewrite Hu.
  - cbn. apply kept_refl. by rewrite Hd.
  - rewrite pop_snoc. apply kept_entries; [done| |by cbn; rewrite Hd].
    rewrite stacks_set. unfold stacks. rewrite Hu. apply Permutation_submseteq.
    rewrite <- !app_assoc. apply Permutation_app_head, Permutation_app_comm.
Qed.

Lemma pop_redo_kept h : transaction_depth h = 0 → returns (pop_redo h) (λ '(h', _), kept h h').
Proof.
  intros Hd. unfold pop_redo. rewrite Hd, N.eqb_refl. apply returns_ret.
  destruct (stack_cases (redo_stack h)) as [Hu|(k & e & Hu)]; rewrite Hu.
  - cbn. apply kept_refl. by rewrite Hd.
  - rewrite pop_snoc. apply kept_entries; [done| |by cbn; rewrite Hd].
    rewrite stacks_set. unfold stacks. rewrite Hu. apply Permutation_submseteq.
    rewrite <- !app_assoc. apply Permutation_app_head, Permutation_app_comm.
Qed.

(** The entry that [rposition] finds. *)
Lemma has_id_split i l n : rposition (has_id i) l = Some n → ∃ a e b, l = a ++ e :: b ∧ tid e = i ∧
  l !! n = Some e ∧ delete n l = a ++ b ∧ take n l = a ∧ drop n l = e :: b ∧
  Forall (λ x, has_id i x = false) b ∧ ∀ f, alter f n l = a ++ f e :: b.
Proof.
  intros (a & e & b & -> & <- & He & Hb)%rposition_some. apply bool_decide_eq_true in He.
  exists a, e, b. split_and!; [done|done| | |by apply take_app_length|by apply drop_app_length|done|].
  - by apply list_lookup_middle.
  - by rewrite delete_middle.
  - intros f. by rewrite alter_app_r_alt, Nat.sub_diag by done.
Qed.

Lemma remove_from_undo_kept h i : transaction_depth h = 0 → returns (remove_from_undo h i) (λ '(h', _), kept h h').
Proof.
  intros Hd. unfold remove_from_undo. rewrite Hd, N.eqb_refl.
  destruct (rposition _ _) as [n|] eqn:E; [|apply returns_ret, kept_refl; by rewrite Hd].
  apply has_id_split in E as (a & e & b & Hu & _ & -> & -> & _). apply returns_ret, kept_entries; [done| |by cbn; rewrite Hd].
  rewrite stacks_set. unfold stacks. rewrite Hu. apply Permutation_submseteq. rewrite <- !app_assoc.
  apply Permutation_app_head. cbn [app]. rewrite app_assoc. symmetry. apply Permutation_cons_append.
Qed.

Lemma move_until_perm i l k : let '(l', k') := move_until i l k in l' ++ k' ≡ₚ l ++ k.
Proof.
  unfold move_until. destruct (rposition _ _) as [n|] eqn:E; [|done].
  apply has_id_split in E as (a & e & b & -> & _ & _ & _ & -> & -> & _).
  rewrite <- Permutation_rev, <- app_assoc. apply Permutation_app_head, Permutation_app_comm.
Qed.

Lemma remove_from_undo_until_kept h i :
  transaction_depth h = 0 → returns (remove_from_undo_until h i) (λ '(h', _), kept h h').
Proof.
  intros Hd. unfold remove_from_undo_until. rewrite Hd, N.eqb_refl.
  pose proof (move_until_perm i (undo_stack h) (redo_stack h)) as Hp. destruct (move_until _ _ _) as [u r].
  apply returns_ret, kept_entries; [done| |by cbn; rewrite Hd]. by apply Permutation_submseteq.
Qed.

Lemma remove_from_redo_kept h i :
  transaction_depth h = 0 → returns (remove_from_redo h i) (λ '(h', _), kept h h').
Proof.
  intros Hd. unfold remove_from_redo. rewrite Hd, N.eqb_refl.
  pose proof (move_until_perm i (redo_stack h) (undo_stack h)) as Hp. destruct (move_until _ _ _) as [r u].
  apply returns_ret, kept_entries; [done| |by cbn; rewrite Hd]. apply Permutation_submseteq.
  rewrite stacks_set. unfold stacks. rewrite Permutation_app_comm, Hp. apply Permutation_app_comm.
Qed.

Lemma forget_ok h i : transaction_depth h = 0 → returns (forget h i) (λ '(h', t), transaction_depth h' = 0 ∧
  operations h' = operations h ∧
  match t with
  | Some t => id t = i ∧ ∃ e, transaction e = t ∧ stacks h ≡ₚ e :: stacks h'
  | None => h' = h
  end).
Proof.
  intros Hd. unfold forget. rewrite Hd, N.eqb_refl.
  destruct (rposition _ (undo_stack h)) as [n|] eqn:E; [|destruct (rposition _ (redo_stack h)) as [n|] eqn:E']; [| |by apply returns_ret].
  - apply has_id_split in E as (a & e & b & Hu & He & -> & -> & _). apply returns_ret. split_and!; [done|done|done|].
    exists e. split; [done|]. rewrite stacks_set. unfold stacks. rewrite Hu, <- !app_assoc. symmetry. apply Permutation_middle.
  - apply has_id_split in E' as (a & e & b & Hu & He & -> & -> & _). apply returns_ret. split_and!; [done|done|done|].
    exists e. split; [done|]. rewrite stacks_set. unfold stacks. rewrite Hu, !app_assoc. symmetry. apply Permutation_middle.
Qed.

Lemma forget_kept h i : transaction_depth h = 0 → returns (forget h i) (λ '(h', _), kept h h').
Proof.
  intros Hd. eapply returns_mono; [by apply forget_ok|]. intros [h' t] (Hd' & Ho & Ht).
  destruct t as [t|]; [|subst h'; apply kept_refl; by rewrite Hd].
  destruct Ht as (_ & e & _ & Hp). apply kept_entries; [done| |by rewrite Hd'].
  rewrite Hp. by apply submseteq_cons.
Qed.

Lemma transaction_mut_ok h i f h' : transaction_mut h i f = Some h' →
  operations h' = operations h ∧ transaction_depth h' = transaction_depth h ∧
  ∃ a e b, stacks h = a ++ e :: b ∧ tid e = i ∧ stacks h' = a ++ set_transaction e (f (transaction e)) :: b.
Proof.
  unfold transaction_mut. intros Hm.
  destruct (rposition _ (undo_stack h)) as [n|] eqn:E; [|destruct (rposition _ (redo_stack h)) as [n|] eqn:E'; [|done]].
  - injection Hm as <-. apply has_id_split in E as (a & e & b & Hu & He & _ & _ & _ & _ & _ & Halt).
    split_and!; [done|done|]. exists a, e, (b ++ redo_stack h). rewrite stacks_set, Halt. unfold stacks. rewrite Hu.
    rewrite <- !app_assoc. by split_and!.
  - injection Hm as <-. apply has_id_split in E' as (a & e & b & Hu & He & _ & _ & _ & _ & _ & Halt).
    split_and!; [done|done|]. exists (undo_stack h ++ a), e, b. rewrite stacks_set, Halt. unfold stacks. rewrite Hu.
    rewrite <- !app_assoc. by split_and!.
Qed.

Lemma edits_cons e l : edits (e :: l) = edit_ids (transaction e) ++ edits l.
Proof. done. Qed.

Lemma merge_kept h t d : transaction_depth h = 0 → returns (merge_transactions h t d) (kept h).
Proof.
  intros Hd. unfold merge_transactions. eapply returns_bind; [by apply forget_ok|].
  intros [h' o] (Hd' & Ho & Ht). apply returns_ret. destruct o as [o|]; [|subst h'; apply kept_refl; by rewrite Hd].
  destruct Ht as (_ & e & <- & Hp).
  destruct (transaction_mut h' d _) as [h2|] eqn:Em; cbn [from_option Datatypes.id].
  - apply transaction_mut_ok in Em as (Ho2 & Hd2 & a & q & b & Hs & _ & Hs2). split.
    + congruence.
    + rewrite Hp, Hs, Hs2, fmap_cons, !fmap_app, !fmap_cons. apply submseteq_cons, reflexivity.
    + etrans; [|apply edits_submseteq, Permutation_submseteq; symmetry; exact Hp].
      rewrite edits_cons, Hs, Hs2, !edits_app, !edits_cons. cbn [transaction set_transaction merge_in set_ids edit_ids].
      apply Permutation_submseteq. rewrite <- app_assoc. 
      rewrite (Permutation_app_swap_app (edit_ids (transaction e)) (edits a)). apply Permutation_app_head.
      apply Permutation_app_swap_app.
    + by rewrite Hd2, Hd'.
  - apply kept_entries; [done| |by rewrite Hd']. rewrite Hp. by apply submseteq_cons.
Qed.

Lemma merged_kept h a e b e' : undo_stack h = a ++ e :: b → tid e' = tid e →
  edit_ids (transaction e') = edits (e :: b) → kept h (set_undo h (a ++ [e'])).
Proof.
  intros Hu Hi He. split; [done| | |cbn; intros H; split; [done|by destruct a]].
  - rewrite stacks_undo. unfold stacks. rewrite Hu, <- !app_assoc, !fmap_app, !fmap_cons, Hi.
    apply submseteq_skips_l. cbn [app]. apply submseteq_skip, submseteq_inserts_l, reflexivity.
  - rewrite stacks_undo. unfold stacks. rewrite Hu, !edits_app, (edits_cons e' []), He.
    change (edits []) with (@nil Lamport). by rewrite app_nil_r.
Qed.

Lemma group_kept h : (transaction_depth h ≠ 0 → undo_stack h ≠ []) → returns (group h) (λ '(h', _), kept h h').
Proof.
  intros Hd. unfold group. destruct (stack_cases (undo_stack h)) as [Hu|(k & e & Hu)].
  - rewrite Hu. cbn [rev]. unfold group_trailing. rewrite Hu. apply returns_ret. cbn.
    apply kept_entries; [done|unfold stacks; by rewrite Hu|]. intros H. by apply Hd in H.
  - rewrite Hu, rev_app_distr. cbn [rev app].
    destruct (group_count_ok (group_interval h) e (rev k)) as (a & x & b & Hl & -> & _). rewrite rev_involutive in Hl.
    rewrite Hl in Hu. rewrite (group_trailing_ok h a x b Hu). apply returns_ret.
    destruct (merge_entries_ok x b). by apply (merged_kept h a x b).
Qed.

Lemma group_until_count_ok i l n : group_until_count i l = Some n →
  ∃ a e b, rev l = a ++ e :: b ∧ length b = n ∧ tid e = i ∧ Forall (λ q, tid q ≠ i ∧ suppress_grouping q = false) b.
Proof.
  revert n. induction l as [|q l IH]; intros n; cbn [group_until_count rev]; [done|].
  case_bool_decide as Hq; [intros [= <-]; by exists (rev l), q, []|].
  destruct (suppress_grouping q) eqn:Es; [done|]. destruct (group_until_count i l) as [m|] eqn:E; [|done].
  intros [= <-]. destruct (IH m eq_refl) as (a & e & b & -> & <- & He & Hb).
  exists a, e, (b ++ [q]). rewrite <- app_assoc, length_app. cbn [app length].
  split_and!; [done|lia|done|]. apply Forall_app. split; [done|]. by constructor.
Qed.

Lemma group_until_kept h i : (transaction_depth h ≠ 0 → undo_stack h ≠ []) → returns (group_until h i) (kept h).
Proof.
  intros Hd. unfold group_until. destruct (group_until_count _ _) as [n|] eqn:E; [|by apply returns_ret, kept_refl].
  apply group_until_count_ok in E as (a & e & b & Hu & <- & _). rewrite rev_involutive in Hu.
  rewrite (group_trailing_ok h a e b Hu). apply returns_ret. destruct (merge_entries_ok e b). by apply (merged_kept h a e b).
Qed.

Lemma finalize_kept h : (transaction_depth h ≠ 0 → undo_stack h ≠ []) → kept h (finalize_last_transaction h).1.
Proof.
  intros Hd. unfold finalize_last_transaction. destruct (stack_cases (undo_stack h)) as [Hu|(k & e & Hu)]; rewrite Hu.
  - by apply kept_refl.
  - rewrite change_last_snoc. cbn [fst].
    apply (merged_kept h k e []); [done|done|]. rewrite edits_cons. symmetry. apply app_nil_r.
Qed.

Lemma end_transaction_ok h now : transaction_depth h ≠ 0 → undo_stack h ≠ [] →
  ∃ k e, undo_stack h = k ++ [e] ∧
  end_transaction h now =
    if transaction_depth h =? 1 then
      match edit_ids (transaction e) with
      | [] => Some (set_undo (set_depth h 0) k, None)
      | _ => let e' := mkHistoryEntry (transaction e) (first_edit_at e) now (suppress_grouping e) in
             Some (set_stacks (set_depth h 0) (k ++ [e']) [], Some e')
      end
    else Some (set_depth h (transaction_depth h - 1), None).
Proof.
  intros Hd Hu. destruct (stack_cases (undo_stack h)) as [|(k & e & Hk)]; [done|]. exists k, e. split; [done|].
  unfold end_transaction. destruct (N.eqb_spec (transaction_depth h) 0); [done|].
  cbn [transaction_depth set_depth undo_stack]. rewrite Hk, pop_snoc. cbn [mbind option_bind].
  destruct (N.eqb_spec (transaction_depth h) 1) as [E|E].
  - rewrite E. cbn [N.sub N.eqb Pos.sub_mask]. by destruct (edit_ids (transaction e)).
  - destruct (N.eqb_spec (transaction_depth h - 1) 0); [lia|done].
Qed.

Lemma end_kept h now : transaction_depth h ≠ 0 → undo_stack h ≠ [] → returns (end_transaction h now) (λ '(h', _), kept h h').
Proof.
  intros Hd Hu. destruct (end_transaction_ok h now Hd Hu) as (k & e & Hk & ->).
  destruct (N.eqb_spec (transaction_depth h) 1); [|by apply returns_ret, kept_entries].
  destruct (edit_ids (transaction e)) eqn:E; apply returns_ret.
  - apply kept_entries; [done| |done]. rewrite stacks_undo. unfold stacks. rewrite Hk.
    apply submseteq_skips_r, submseteq_inserts_r. done.
  - split; [done| | |done]; rewrite stacks_set; unfold stacks; rewrite Hk, app_nil_r.
    + rewrite !fmap_app. apply submseteq_inserts_r. done.
    + rewrite !edits_app. apply submseteq_inserts_r. done.
Qed.

Lemma opened_edits h t start now d :
  edits (stacks (set_undo (set_depth h d) (undo_stack h ++ [entry_at (mkTransaction t [] start) now]))) = edits (stacks h).
Proof. unfold stacks. cbn [undo_stack redo_stack set_undo set_depth]. by rewrite !edits_app, edits_cons, app_nil_r. Qed.

(** A new entry without edits, with a timestamp of the clock. *)
Lemma opened_ok h c start now d : history_ok (h, c) → value c + 1 < u32_modulus →
  history_ok (set_undo (set_depth h d) (undo_stack h ++ [entry_at (mkTransaction c [] start) now]),
              (LamportOps.tick c).2).
Proof.
  intros [H1 H2 H3 H4 H5 H6] Hc. cbn [fst snd] in *.
  set (e := entry_at _ now). set (h' := set_undo _ _).
  assert (stacks h' ≡ₚ e :: stacks h) as Hp.
  { unfold h', stacks. cbn [undo_stack redo_stack set_undo set_depth]. rewrite <- app_assoc. cbn [app].
    symmetry. apply Permutation_middle. }
  assert (edits (stacks h') = edits (stacks h)) as He by apply opened_edits.
  assert (value (LamportOps.tick c).2 = value c + 1) as Hv.
  { unfold LamportOps.tick, u32_add. cbn [snd value]. by apply N.mod_small. }
  split; cbn [fst snd].
  - intros _. by destruct (undo_stack h).
  - rewrite Hp. cbn [fmap list_fmap]. apply NoDup_cons. split; [|done].
    intros Hin. rewrite Forall_forall in H3. specialize (H3 _ Hin eq_refl). cbn in H3. lia.
  - rewrite Hp. cbn [fmap list_fmap]. apply Forall_cons. split.
    + intros _. rewrite Hv. cbn. lia.
    + eapply Forall_impl; [exact H3|]. intros t Ht Hr. rewrite Hv. specialize (Ht Hr). lia.
  - by rewrite He.
  - by rewrite He.
  - done.
Qed.

Lemma set_depth_ok h c d : history_ok (h, c) → undo_stack h ≠ [] → history_ok (set_depth h d, c).
Proof. intros [H1 H2 H3 H4 H5 H6] Hu. by split. Qed.

Lemma history_push_ok h c op : history_ok (h, c) → allowed (Push op) (h, c) → returns (push h op) (λ h', history_ok (h', c)).
Proof.
  intros [H1 H2 H3 H4 H5 H6] [Hop Hlow]. cbn [fst snd] in *. unfold push in *.
  destruct (insert_map_ok (map_key_cmp LamportOps.cmp) () (operations h) (mkMapEntry (op_timestamp op) op) H6)
    as ([u o] & Hins & Hu & Hus & _ & Hl).
  unfold TreeMapOps.insert in *. rewrite Hins in *. cbn [mbind option_bind fmap option_fmap option_map fst] in *.
  apply returns_ret. split; cbn [fst snd operations undo_stack redo_stack transaction_depth]; [done..| |].
  - eapply Forall_impl; [exact H5|]. intros t (edit & Ht). exists edit. cbn [operations]. unfold map_at in *.
    rewrite Hl. cbn [key map_entry_key ekey]. case_decide as E; [|done]. injection E as ->.
    destruct Hop as [Hop|Hop]; [by rewrite Hop in Ht|]. rewrite Hop in Ht. by injection Ht as ->.
  - split; [done|]. split; [done|]. specialize (Hlow _ eq_refl). exact Hlow.
Qed.

Lemma push_transaction_ok h c t now : history_ok (h, c) → allowed (PushTransaction t now) (h, c) →
  returns (push_transaction h t now) (λ h', history_ok (h', c)).
Proof.
  intros [H1 H2 H3 H4 H5 H6] (Hd & Hid & Hc & He & Hr). cbn [fst snd] in *. unfold push_transaction.
  rewrite Hd, N.eqb_refl. apply returns_ret. set (e := entry_at t now). set (h' := set_undo _ _).
  assert (stacks h' ≡ₚ e :: stacks h) as Hp.
  { unfold h', stacks. cbn [undo_stack redo_stack set_undo]. rewrite <- app_assoc. cbn [app].
    symmetry. apply Permutation_middle. }
  assert (edits (stacks h') ≡ₚ edit_ids t ++ edits (stacks h)) as Hed by (unfold edits; by rewrite Hp).
  split; cbn [fst snd]; rewrite ?Hp, ?Hed; [|by apply NoDup_cons|by apply Forall_cons|done|by apply Forall_app|done].
  intros _. by destruct (undo_stack h).
Qed.

Lemma push_undo_edits h op_id h' : push_undo h op_id = Some h' → operations h' = operations h ∧ transaction_depth h' = transaction_depth h ∧
  (edits (stacks h') = edits (stacks h) ∨ edits (stacks h') ≡ₚ op_id :: edits (stacks h)).
Proof.
  unfold push_undo. destruct (_ =? 0); [done|]. destruct (TreeMapOps.get _ _ _) as [[edit|u]|]; [|by intros [= <-]; eauto..].
  destruct (stack_cases (undo_stack h)) as [Hu|(k & e & Hu)]; rewrite Hu; [done|]. rewrite change_last_snoc. cbn [mbind option_bind]. intros [= <-].
  split_and!; [done|done|right]. unfold stacks. cbn [undo_stack redo_stack set_undo]. rewrite Hu, !edits_app, !(edits_cons _ []).
  cbn [transaction set_transaction set_ids edit_ids]. change (edits []) with (@nil Lamport).
  rewrite !app_nil_r, <- !app_assoc. rewrite !(app_assoc (edits k)). cbn [app]. symmetry. apply Permutation_middle.
Qed.

Lemma push_undo_ok h c op_id : history_ok (h, c) → allowed (PushUndo op_id) (h, c) →
  returns (push_undo h op_id) (λ h', history_ok (h', c)).
Proof.
  intros Hok (Hd & Hid). pose proof Hok as [H1 H2 H3 H4 H5 H6]. cbn [fst snd] in *. pose proof (push_undo_edits h op_id) as He. unfold push_undo in *.
  destruct (N.eqb_spec (transaction_depth h) 0); [done|].
  destruct (TreeMapOps.get LamportOps.cmp (operations h) op_id) as [[edit|u]|] eqn:Eg; [|by apply returns_ret..].
  rewrite (get_map LamportOps.cmp) in Eg by done.
  destruct (stack_cases (undo_stack h)) as [Hu|(k & e & Hu)]; [by specialize (H1 Hd)|].
  rewrite Hu, change_last_snoc in *. apply returns_ret. specialize (He _ eq_refl). set (e' := set_transaction e _) in *. set (h' := set_undo _ _) in *.
  assert ((tid <$> stacks h') = (tid <$> stacks h)) as Hi.
  { unfold h', stacks. cbn [undo_stack redo_stack set_undo]. by rewrite Hu, !fmap_app. }
  destruct He as (_ & _ & [He|He]); split; cbn [fst snd]; rewrite ?Hi, ?He; try done; try (intros _; by destruct k).
  - by apply NoDup_cons.
  - apply Forall_cons. split; [by exists edit|done].
Qed.

Lemma run_event_ok ev h c : history_ok (h, c) → allowed ev (h, c) → returns (run_event ev (h, c)) history_ok.
Proof.
  intros Hok Hall. pose proof (ok_open _ Hok) as Hopen. cbn [fst] in Hopen.
  assert (∀ {X} (m : option (History * X)), returns m (λ '(h', _), kept h h') →
    returns ('(h', _) ← m; Some (h', c)) history_ok) as Hkept.
  { intros X m Hm. eapply returns_bind; [exact Hm|]. intros [h' x] Hk. apply returns_ret. by eapply kept_ok. }
  assert (∀ m : option History, returns m (kept h) → returns (h' ← m; Some (h', c)) history_ok) as Hkept'.
  { intros m Hm. eapply returns_bind; [exact Hm|]. intros h' Hk. apply returns_ret. by eapply kept_ok. }
  assert (∀ m : option History, returns m (λ h', history_ok (h', c)) → returns (h' ← m; Some (h', c)) history_ok) as Hnew.
  { intros m Hm. eapply returns_bind; [exact Hm|]. intros h' Hk. by apply returns_ret. }
  destruct ev; cbn [run_event].
  - by apply Hnew, history_push_ok.
  - apply returns_ret. unfold start_transaction. cbn [transaction_depth set_depth].
    destruct (N.eqb_spec (transaction_depth h + 1) 1) as [E|E]; cbn [fst].
    + exact (opened_ok h c start now (transaction_depth h + 1) Hok Hall).
    + apply set_depth_ok; [done|]. apply Hopen. lia.
  - by apply Hkept, end_kept; [|apply Hopen].
  - by apply Hkept, group_kept.
  - by apply Hkept', group_until_kept.
  - apply returns_ret. eapply kept_ok; [done|]. by apply finalize_kept.
  - by apply Hnew, push_transaction_ok.
  - destruct Hall as [Hd Hc]. unfold push_empty_transaction. rewrite Hd, N.eqb_refl. apply returns_ret.
    pose proof (opened_ok h c start now (transaction_depth h) Hok Hc) as Ho. by destruct h.
  - by apply Hnew, push_undo_ok.
  - by apply Hkept, pop_undo_kept.
  - by apply Hkept, remove_from_undo_kept.
  - by apply Hkept, remove_from_undo_until_kept.
  - by apply Hkept, forget_kept.
  - by apply Hkept', merge_kept.
  - by apply Hkept, pop_redo_kept.
  - by apply Hkept, remove_from_redo_kept.
Qed.

(** The buffer starts with no history. *)
Lemma history_new_ok base c : history_ok (HistoryOps.new base, c).
Proof.
  split; cbn; [done|apply NoDup_nil_2|constructor|apply NoDup_nil_2|constructor|].
  split; [by left|]. split; [constructor|]. unfold STACK_CAPACITY. cbn. lia.
Qed.
End runs.

(** C22: in every run of the operations on a history from its creation, while the callers keep the
    depths that the code asserts, use new timestamps and record edits once: no operation panics,
    the undo stack is not empty within a transaction, no two entries of the stacks have the same
    id and none an id that the clock may still give, no edit is in two entries or twice in one,
    and every edit in the stacks is a recorded edit. *)
Theorem history_runs base clock st ev (Hrun : rtc hstep (HistoryOps.new base, clock) st) (Hev : allowed ev st) :
  history_ok st ∧ returns (run_event ev st) history_ok.
Proof.
  assert (∀ st0 st1, rtc hstep st0 st1 → history_ok st0 → history_ok st1) as Hruns.
  { intros st0 st1. induction 1 as [|[h c] st1 st2 (e & Hall & Hst) _ IH]; [done|]. intros H0. apply IH.
    destruct (run_event_ok e h c H0 Hall) as (st' & Hst' & Hok').
    rewrite Hst in Hst'. by injection Hst' as ->. }
  assert (history_ok st) as Hok by (apply (Hruns _ _ Hrun), history_new_ok).
  split; [done|]. destruct st as [h c]. by apply run_event_ok.
Qed.

(** ** Transactions, undo and redo *)

Section stacks.
Implicit Types (h : History) (e : HistoryEntry) (l a b k : list HistoryEntry) (i : Lamport).

Lemma no_id l i : i ∉ (tid <$> l) → Forall (λ x, has_id i x = false) l.
Proof.
  intros Hi. apply Forall_forall. intros x Hx. apply bool_decide_eq_false. intros <-.
  apply Hi. change (id (transaction x)) with (tid x). by apply list_elem_of_fmap_2.
Qed.

Lemma no_position l i : i ∉ (tid <$> l) → rposition (has_id i) l = None.
Proof. intros Hi. by apply rposition_none, no_id. Qed.

Lemma at_position a e b : NoDup (tid <$> (a ++ e :: b)) → rposition (has_id (tid e)) (a ++ e :: b) = Some (length a).
Proof.
  rewrite fmap_app. intros (_ & _ & [Hb _]%NoDup_cons)%NoDup_app.
  apply rposition_app; [by apply bool_decide_eq_true|by apply no_id].
Qed.

Lemma end_of_start h start t0 t1 c : end_transaction (start_transaction h start t0 c).1.1 t1 = Some (h, None).
Proof.
  unfold start_transaction. cbn [transaction_depth set_depth].
  destruct (N.eqb_spec (transaction_depth h + 1) 1) as [E|E]; cbn [fst LamportOps.tick].
  - unfold end_transaction. cbn [transaction_depth set_depth set_undo undo_stack].
    destruct (N.eqb_spec (transaction_depth h + 1) 0); [lia|].
    replace (transaction_depth h + 1 - 1) with (transaction_depth h) by lia.
    destruct (N.eqb_spec (transaction_depth h) 0); [|lia]. rewrite pop_snoc. cbn [mbind option_bind]. by destruct h.
  - unfold end_transaction. cbn [transaction_depth set_depth].
    destruct (N.eqb_spec (transaction_depth h + 1) 0); [lia|].
    replace (transaction_depth h + 1 - 1) with (transaction_depth h) by lia.
    destruct (N.eqb_spec (transaction_depth h) 0); [lia|]. by destruct h.
Qed.

Lemma push_undos h k t t0 t1 s (ids : list Lamport) : map_ok LamportOps.cmp (operations h) → Forall (is_edit h) ids →
  transaction_depth h ≠ 0 → undo_stack h = k ++ [mkHistoryEntry t t0 t1 s] →
  foldl (λ m op_id, h ← m; push_undo h op_id) (Some h) ids =
  Some (set_undo h (k ++ [mkHistoryEntry (set_ids t (edit_ids t ++ ids)) t0 t1 s])).
Proof.
  intros Hops. revert h t Hops. induction ids as [|x ids IH]; intros h t Hops Hids Hd Hu; cbn [foldl].
  - rewrite app_nil_r. destruct h, t. cbn in *. by subst.
  - apply Forall_cons in Hids as [[edit Hx] Hids].
    assert (push_undo h x = Some (set_undo h (k ++ [mkHistoryEntry (set_ids t (edit_ids t ++ [x])) t0 t1 s]))) as Hp.
    { unfold push_undo. destruct (N.eqb_spec (transaction_depth h) 0); [done|].
      by rewrite (get_map LamportOps.cmp), Hx, Hu, change_last_snoc. }
    cbn [mbind option_bind]. rewrite Hp.
    rewrite (IH (set_undo h (k ++ [mkHistoryEntry (set_ids t (edit_ids t ++ [x])) t0 t1 s])) (set_ids t (edit_ids t ++ [x])))
      by done.
    cbn [set_ids edit_ids id tstart]. by rewrite <- app_assoc.
Qed.

Lemma transaction_of_edits h start t0 t1 c (ids : list Lamport) : transaction_depth h = 0 →
  map_ok LamportOps.cmp (operations h) → ids ≠ [] → Forall (is_edit h) ids →
  let e := mkHistoryEntry (mkTransaction c ids start) t0 t1 false in
  (h ← foldl (λ m op_id, h ← m; push_undo h op_id) (Some (start_transaction h start t0 c).1.1) ids;
   end_transaction h t1) = Some (set_stacks h (undo_stack h ++ [e]) [], Some e).
Proof.
  intros Hd Hops Hne Hids e. unfold start_transaction. rewrite Hd. cbn [N.add N.eqb Pos.eqb transaction_depth set_depth fst LamportOps.tick].
  unfold entry_at. erewrite push_undos; [|done|done|done|done]. cbn [mbind option_bind].
  unfold end_transaction. cbn [transaction_depth set_undo set_depth undo_stack N.eqb N.sub Pos.sub_mask].
  rewrite pop_snoc. cbn [mbind option_bind transaction set_ids edit_ids app id tstart first_edit_at suppress_grouping].
  destruct ids; [done|]. unfold e. by destruct h; cbn in *; subst.
Qed.
End stacks.

Section laws.
Implicit Types (h : History) (e t : HistoryEntry) (l a b k : list HistoryEntry) (i : Lamport).

Lemma pop_redo_undo h k e : transaction_depth h = 0 → undo_stack h = k ++ [e] →
  ∃ h', pop_undo h = Some (h', Some e) ∧ undo_stack h' = k ∧ redo_stack h' = redo_stack h ++ [e] ∧
        pop_redo h' = Some (h, Some e).
Proof.
  intros Hd Hu. exists (set_stacks h k (redo_stack h ++ [e])). unfold pop_undo, pop_redo.
  rewrite Hd, Hu, pop_snoc. split_and!; [done|done|done|].
  cbn [transaction_depth set_stacks redo_stack undo_stack]. rewrite Hd, pop_snoc. cbn [N.eqb].
  do 2 f_equal. destruct h; cbn in *; by subst.
Qed.

Lemma pop_undo_redo h k e : transaction_depth h = 0 → redo_stack h = k ++ [e] →
  ∃ h', pop_redo h = Some (h', Some e) ∧ undo_stack h' = undo_stack h ++ [e] ∧ redo_stack h' = k ∧
        pop_undo h' = Some (h, Some e).
Proof.
  intros Hd Hu. exists (set_stacks h (undo_stack h ++ [e]) k). unfold pop_undo, pop_redo.
  rewrite Hd, Hu, pop_snoc. split_and!; [done|done|done|].
  cbn [transaction_depth set_stacks redo_stack undo_stack]. rewrite Hd, pop_snoc. cbn [N.eqb].
  do 2 f_equal. destruct h; cbn in *; by subst.
Qed.

Lemma move_until_at a e b l : NoDup (tid <$> (a ++ e :: b)) → move_until (tid e) (a ++ e :: b) l = (a, l ++ rev (e :: b)).
Proof.
  intros Hn. unfold move_until. rewrite at_position by done. by rewrite take_app_length, drop_app_length.
Qed.

Lemma NoDup_tids_app l k : NoDup (tid <$> (l ++ k)) → NoDup (tid <$> l) ∧ NoDup (tid <$> k) ∧
  ∀ e, e ∈ l → tid e ∉ (tid <$> k).
Proof.
  rewrite fmap_app. intros (Hl & Hlk & Hk)%NoDup_app. split_and!; [done|done|].
  intros e He. by apply Hlk, list_elem_of_fmap_2.
Qed.

(** Undoing up to a transaction, and redoing up to the last one undone. *)
Lemma redo_undo_until h a e b t : transaction_depth h = 0 → NoDup (tid <$> stacks h) →
  undo_stack h = a ++ e :: b → list.last (e :: b) = Some t →
  ∃ h', remove_from_undo_until h (tid e) = Some (h', rev (e :: b)) ∧ undo_stack h' = a ∧
        redo_stack h' = redo_stack h ++ rev (e :: b) ∧ remove_from_redo h' (tid t) = Some (h, e :: b).
Proof.
  intros Hd Hn Hu Ht. pose proof Hn as Hn'. unfold stacks in Hn. apply NoDup_tids_app in Hn as (Hnu & Hnr & Hur).
  rewrite Hu in Hnu, Hur. exists (set_stacks h a (redo_stack h ++ rev (e :: b))).
  unfold remove_from_undo_until, remove_from_redo. cbn [transaction_depth set_stacks undo_stack redo_stack].
  rewrite Hd, Hu, move_until_at, drop_app_length by done. split_and!; [done|done|done|].
  apply last_Some in Ht as [b' Hb']. rewrite Hb', rev_app_distr. cbn [rev app].
  assert (NoDup (tid <$> (redo_stack h ++ t :: rev b'))) as Hn2.
  { assert (stacks h ≡ₚ a ++ redo_stack h ++ t :: rev b') as Hp.
    { unfold stacks. rewrite Hu, Hb', <- app_assoc. apply Permutation_app_head. rewrite Permutation_app_comm.
      apply Permutation_app_head. rewrite <- Permutation_rev. symmetry. apply Permutation_cons_append. }
    rewrite Hp, fmap_app in Hn'. by apply NoDup_app in Hn' as (_ & _ & ?). }
  rewrite move_until_at by done. cbn [rev]. rewrite rev_involutive, <- Hb', drop_app_length.
  do 2 f_equal. destruct h; cbn in *; by subst.
Qed.

Lemma remove_undo_at h a e b : transaction_depth h = 0 → NoDup (tid <$> stacks h) → undo_stack h = a ++ e :: b →
  remove_from_undo h (tid e) = Some (set_stacks h (a ++ b) (redo_stack h ++ [e]), Some e) ∧
  forget h (tid e) = Some (set_stacks h (a ++ b) (redo_stack h), Some (transaction e)) ∧
  get_transaction h (tid e) = Some (transaction e).
Proof.
  intros Hd Hn Hu. apply NoDup_tids_app in Hn as (Hnu & _ & _). rewrite Hu in Hnu.
  unfold remove_from_undo, forget, get_transaction, rfind. rewrite Hd, Hu, at_position by done. cbn [N.eqb].
  cbn [mbind option_bind]. rewrite list_lookup_middle, delete_middle by done. by split_and!.
Qed.

Lemma forget_redo_at h a e b : transaction_depth h = 0 → NoDup (tid <$> stacks h) → redo_stack h = a ++ e :: b →
  forget h (tid e) = Some (set_stacks h (undo_stack h) (a ++ b), Some (transaction e)) ∧
  get_transaction h (tid e) = Some (transaction e).
Proof.
  intros Hd Hn Hr. apply NoDup_tids_app in Hn as (_ & Hnr & Hur).
  assert (tid e ∉ (tid <$> undo_stack h)) as Hno.
  { intros (x & Hx & Hin)%list_elem_of_fmap. apply Hur in Hin. rewrite <- Hx, Hr, fmap_app in Hin.
    apply Hin, elem_of_app. right. left. }
  rewrite Hr in Hnr. unfold forget, get_transaction, rfind. rewrite Hd, Hr, (no_position _ _ Hno), at_position by done.
  cbn [N.eqb mbind option_bind]. rewrite list_lookup_middle, delete_middle by done. by split_and!.
Qed.

Lemma unknown_id h i : transaction_depth h = 0 → i ∉ (tid <$> stacks h) →
  remove_from_undo h i = Some (h, None) ∧ remove_from_undo_until h i = Some (h, []) ∧
  remove_from_redo h i = Some (h, []) ∧ forget h i = Some (h, None) ∧ get_transaction h i = None ∧
  group_until h i = Some h.
Proof.
  intros Hd Hi. unfold stacks in Hi. rewrite fmap_app, elem_of_app in Hi.
  unfold remove_from_undo, remove_from_undo_until, remove_from_redo, forget, get_transaction, rfind, move_until.
  rewrite Hd, !no_position by tauto. cbn [N.eqb mbind option_bind fmap option_fmap option_map]. rewrite !drop_all.
  split_and!; [done|by destruct h|by destruct h|done|done|]. unfold group_until.
  destruct (group_until_count i (rev (undo_stack h))) as [n|] eqn:E; [|done].
  apply group_until_count_ok in E as (a & e & b & Hu & _ & <- & _). rewrite rev_involutive in Hu.
  destruct Hi. left. rewrite Hu, fmap_app. apply elem_of_app. right. left.
Qed.

(** What is left when a transaction is forgotten. *)
Lemma forget_ids h i h' x : NoDup (tid <$> stacks h) → forget h i = Some (h', Some x) → NoDup (tid <$> stacks h').
Proof.
  intros Hn. unfold forget, stacks in *. destruct (transaction_depth h =? 0); [|done].
  destruct (rposition _ (undo_stack h)) as [ix|].
  { destruct (undo_stack h !! ix); [|done]. cbn [mbind option_bind]. intros [= <- _]. cbn [set_stacks undo_stack redo_stack].
    eapply sublist_NoDup; [exact Hn|]. apply fmap_sublist, sublist_app; [apply sublist_delete|done]. }
  destruct (rposition _ (redo_stack h)) as [ix|]; [|done]. destruct (redo_stack h !! ix); [|done]. cbn [mbind option_bind].
  intros [= <- _]. cbn [set_stacks undo_stack redo_stack].
  eapply sublist_NoDup; [exact Hn|]. apply fmap_sublist, sublist_app; [done|apply sublist_delete].
Qed.

(** Merging a transaction that is forgotten into another, in either stack or in none. *)
Lemma merge_forgotten h i h' x : NoDup (tid <$> stacks h) → forget h i = Some (h', Some x) →
  (∀ a d b, undo_stack h' = a ++ d :: b → merge_transactions h i (tid d) =
     Some (set_stacks h' (a ++ set_transaction d (merge_in (transaction d) x) :: b) (redo_stack h'))) ∧
  (∀ a d b, redo_stack h' = a ++ d :: b → merge_transactions h i (tid d) =
     Some (set_stacks h' (undo_stack h') (a ++ set_transaction d (merge_in (transaction d) x) :: b))) ∧
  (∀ j, j ∉ (tid <$> stacks h') → merge_transactions h i j = Some h').
Proof.
  intros Hn Hf. pose proof (forget_ids h i h' x Hn Hf) as Hn'. apply NoDup_tids_app in Hn' as (Hnu & Hnr & Hur).
  unfold merge_transactions, transaction_mut. rewrite Hf. cbn [mbind option_bind]. split_and!.
  - intros a d b Hu. rewrite Hu in *. rewrite at_position by done. cbn [from_option Datatypes.id].
    by rewrite alter_app_r_alt, Nat.sub_diag by done.
  - intros a d b Hr. rewrite Hr in *. rewrite (no_position (undo_stack h')), at_position; [|done|].
    + cbn [from_option Datatypes.id]. by rewrite alter_app_r_alt, Nat.sub_diag by done.
    + intros (y & E & Hy)%list_elem_of_fmap. apply (Hur y Hy). rewrite <- E, fmap_app. apply elem_of_app. right. left.
  - intros j Hj. unfold stacks in Hj. rewrite fmap_app, elem_of_app in Hj. by rewrite !no_position by tauto.
Qed.

Lemma group_until_count_at a x b : tid x ∉ (tid <$> b) →
  group_until_count (tid x) (rev b ++ x :: a) = if forallb (λ q, negb (suppress_grouping q)) b then Some (length b) else None.
Proof.
  induction b as [|q b IH] using rev_ind; intros Hx; cbn [rev app group_until_count].
  - by rewrite bool_decide_true.
  - rewrite fmap_app, elem_of_app in Hx. rewrite rev_app_distr, forallb_app, length_app. cbn [rev app group_until_count forallb length].
    rewrite bool_decide_false; [|intros E; apply Hx; right; change (id (transaction q)) with (tid q) in E; rewrite <- E; left].
    destruct (suppress_grouping q); cbn [negb andb]; [by rewrite andb_false_r|]. rewrite andb_true_r, IH by tauto.
    destruct (forallb _ b); [|done]. cbn. f_equal. lia.
Qed.

(** C23: transactions, undo and redo outside of a transaction. An empty transaction leaves no trace;
    one with edits is put on the undo stack with its edits in order and clears the redo stack.
    Undoing and redoing are inverse to each other, one entry at a time and up to a given
    transaction; undoing and forgetting a given transaction act on that one only. Merging forgets the
    transaction and appends its edits to the destination, in either stack; when the destination is in
    neither, or is the transaction itself, the edits are lost. The other calls ignore an id that is in
    neither stack, and so does merging such a transaction. *)
Theorem history_undo_redo h (Hd : transaction_depth h = 0) (Hids : NoDup (tid <$> stacks h))
    (Hops : map_ok LamportOps.cmp (operations h)) :
  (∀ start (t0 t1 : N) clock, end_transaction (start_transaction h start t0 clock).1.1 t1 = Some (h, None)) ∧
  (∀ start (t0 t1 : N) clock edit_ids, edit_ids ≠ [] → Forall (is_edit h) edit_ids →
     let e := mkHistoryEntry (mkTransaction clock edit_ids start) t0 t1 false in
     (h ← foldl (λ m op_id, h ← m; push_undo h op_id) (Some (start_transaction h start t0 clock).1.1) edit_ids;
      end_transaction h t1) = Some (set_stacks h (undo_stack h ++ [e]) [], Some e)) ∧
  (∀ k e, undo_stack h = k ++ [e] → ∃ h', pop_undo h = Some (h', Some e) ∧
     undo_stack h' = k ∧ redo_stack h' = redo_stack h ++ [e] ∧ pop_redo h' = Some (h, Some e)) ∧
  (∀ k e, redo_stack h = k ++ [e] → ∃ h', pop_redo h = Some (h', Some e) ∧
     undo_stack h' = undo_stack h ++ [e] ∧ redo_stack h' = k ∧ pop_undo h' = Some (h, Some e)) ∧
  (∀ a e b t, undo_stack h = a ++ e :: b → list.last (e :: b) = Some t →
     ∃ h', remove_from_undo_until h (tid e) = Some (h', rev (e :: b)) ∧ undo_stack h' = a ∧
       redo_stack h' = redo_stack h ++ rev (e :: b) ∧ remove_from_redo h' (tid t) = Some (h, e :: b)) ∧
  (∀ a e b, undo_stack h = a ++ e :: b →
     remove_from_undo h (tid e) = Some (set_stacks h (a ++ b) (redo_stack h ++ [e]), Some e) ∧
     forget h (tid e) = Some (set_stacks h (a ++ b) (redo_stack h), Some (transaction e)) ∧
     get_transaction h (tid e) = Some (transaction e)) ∧
  (∀ a e b, redo_stack h = a ++ e :: b →
     forget h (tid e) = Some (set_stacks h (undo_stack h) (a ++ b), Some (transaction e)) ∧
     get_transaction h (tid e) = Some (transaction e)) ∧
  (∀ i h' x, forget h i = Some (h', Some x) →
     (∀ a d b, undo_stack h' = a ++ d :: b → merge_transactions h i (tid d) =
        Some (set_stacks h' (a ++ set_transaction d (merge_in (transaction d) x) :: b) (redo_stack h'))) ∧
     (∀ a d b, redo_stack h' = a ++ d :: b → merge_transactions h i (tid d) =
        Some (set_stacks h' (undo_stack h') (a ++ set_transaction d (merge_in (transaction d) x) :: b))) ∧
     (∀ j, j ∉ (tid <$> stacks h') → merge_transactions h i j = Some h')) ∧
  (∀ i, i ∉ (tid <$> stacks h) → remove_from_undo h i = Some (h, None) ∧ remove_from_undo_until h i = Some (h, []) ∧
     remove_from_redo h i = Some (h, []) ∧ forget h i = Some (h, None) ∧ get_transaction h i = None ∧
     group_until h i = Some h ∧ ∀ j, merge_transactions h i j = Some h).
Proof.
  split_and!.
  - intros. apply end_of_start.
  - intros. by apply transaction_of_edits.
  - intros. by apply pop_redo_undo.
  - intros. by apply pop_undo_redo.
  - intros. by apply redo_undo_until.
  - intros a e b Hu. by apply remove_undo_at.
  - intros. by apply forget_redo_at.
  - intros i h' x. by apply merge_forgotten.
  - intros i Hi. destruct (unknown_id h i Hd Hi) as (H1 & H2 & H3 & H4 & H5 & H6). split_and!; [done..|].
    intros j. unfold merge_transactions. by rewrite H4.
Qed.

(** C39: grouping joins the last entries of the undo stack into one: [group] the longest run of
    entries in which each follows the one before within the interval and none but the last is
    finalized; [group_until] those after a transaction, unless one of them is finalized. The joined
    entry has the id, the start and the beginning of its first part, the end of its last, and the
    edits of all in order; the entries before it and the redo stack stay as they are. *)
Theorem history_groups h k e (Hu : undo_stack h = k ++ [e]) :
  (∃ a x b x', k ++ [e] = a ++ x :: b ∧ group h = Some (set_undo h (a ++ [x']), Some (tid x)) ∧ merged x b x' ∧
     linked (group_interval h) x b ∧ ∀ p, list.last a = Some p → ¬ close (group_interval h) p x) ∧
  (∀ a x b, k ++ [e] = a ++ x :: b → tid x ∉ (tid <$> b) → ∃ x', merged x b x' ∧
     group_until h (tid x) = Some (if forallb (λ q, negb (suppress_grouping q)) b then set_undo h (a ++ [x']) else h)) ∧
  finalize_last_transaction h =
    (set_undo h (k ++ [mkHistoryEntry (transaction e) (first_edit_at e) (last_edit_at e) true]), Some (transaction e)).
Proof.
  split_and!.
  - destruct (group_count_ok (group_interval h) e (rev k)) as (a & x & b & Hl & Hc & Hlink & Ha).
    rewrite rev_involutive in Hl. exists a, x, b, (merge_entries x b).
    split_and!; [done| |apply merge_entries_ok|done|done].
    unfold group. rewrite Hu, rev_app_distr. cbn [rev app]. rewrite Hc. apply group_trailing_ok. by rewrite Hu, Hl.
  - intros a x b Hl Hx. exists (merge_entries x b). split; [apply merge_entries_ok|].
    unfold group_until. rewrite Hu, Hl, rev_app_distr. cbn [rev]. rewrite <- app_assoc. cbn [app].
    rewrite group_until_count_at by done. destruct (forallb _ b); [|done].
    by rewrite (group_trailing_ok h a x b) by by rewrite Hu.
  - unfold finalize_last_transaction. rewrite Hu, change_last_snoc. cbn. by rewrite last_snoc.
Qed.
End laws.

(** ** Samples *)

Module Undoing.

Definition stamp (n : N) : Lamport := mkLamport n 0.
Definition entry (n : N) (ids : list Lamport) (first last : N) : HistoryEntry :=
  mkHistoryEntry (mkTransaction (stamp n) ids GlobalOps.new) first last false.

(** Three entries to undo, the last two within the interval of 300 ms, and one to redo. *)
Definition first_entry : HistoryEntry := entry 1 [stamp 2] 0 10.
Definition second_entry : HistoryEntry := entry 3 [stamp 4; stamp 5] (10 ^ 9) (2 * 10 ^ 9).
Definition third_entry : HistoryEntry := entry 6 [stamp 7] (2 * 10 ^ 9 + 5) (2 * 10 ^ 9 + 6).
Definition undone_entry : HistoryEntry := entry 8 [stamp 9] (3 * 10 ^ 9) (3 * 10 ^ 9).

Definition sample : History :=
  mkHistory RopeOps.new (TreeOps.new ()) [first_entry; second_entry; third_entry] [undone_entry] 0 GROUP_INTERVAL.

Lemma sample_ids : NoDup (tid <$> stacks sample).
Proof. apply (bool_decide_unpack _). vm_compute. reflexivity. Qed.

Lemma sample_operations : map_ok LamportOps.cmp (operations sample).
Proof. exact (ok_operations _ (history_new_ok RopeOps.new (stamp 1))). Qed.

Example sample_grouped : edits <$> (undo_stack ∘ fst <$> group sample) = Some [stamp 2; stamp 4; stamp 5; stamp 7] ∧
  length <$> (undo_stack ∘ fst <$> group sample) = Some 2%nat.
Proof. by vm_compute. Qed.

(** Merging into a transaction that is in neither stack forgets the edits. *)
Example merge_missing_destination :
  edits ∘ undo_stack <$> merge_transactions sample (stamp 6) (stamp 10) = Some [stamp 2; stamp 4; stamp 5].
Proof. by vm_compute. Qed.

(** A buffer records an edit of another replica, and one is made in a transaction. *)
Definition an_edit : EditOperation := mkEditOperation (stamp 2) GlobalOps.new [0 ..: 0] [[104]].
Definition opened : State :=
  (start_transaction (mkHistory RopeOps.new (TreeOps.new ()) [] [] 0 GROUP_INTERVAL) GlobalOps.new 5 (stamp 1)).1.

Lemma history_runs_witness :
  history_ok opened ∧ returns (run_event (EndTransaction 7) opened) history_ok.
Proof.
  assert (rtc hstep (HistoryOps.new RopeOps.new, stamp 1) opened) as Hrun.
  { apply rtc_once. exists (StartTransaction GlobalOps.new 5). split; vm_compute; reflexivity. }
  assert (allowed (EndTransaction 7) opened) as Hev by (vm_compute; discriminate).
  exact (history_runs RopeOps.new (stamp 1) opened (EndTransaction 7) Hrun Hev).
Defined.

Lemma history_undo_redo_witness :
  (∃ h', pop_undo sample = Some (h', Some third_entry) ∧ pop_redo h' = Some (sample, Some third_entry)) ∧
  remove_from_undo sample (stamp 20) = Some (sample, None).
Proof.
  destruct (history_undo_redo sample eq_refl sample_ids sample_operations) as (_ & _ & Hpop & _ & _ & _ & _ & _ & Hno).
  split.
  - destruct (Hpop [first_entry; second_entry] third_entry eq_refl) as (h' & H1 & _ & _ & H2). by exists h'.
  - apply (Hno (stamp 20)). apply (bool_decide_unpack _). vm_compute. reflexivity.
Defined.

Lemma history_groups_witness :
  ∃ x', merged second_entry [third_entry] x' ∧
    group_until sample (stamp 3) = Some (set_undo sample ([first_entry] ++ [x'])).
Proof.
  destruct (history_groups sample [first_entry; second_entry] third_entry eq_refl) as (_ & Huntil & _).
  apply (Huntil [first_entry] second_entry [third_entry] eq_refl).
  apply (bool_decide_unpack _). vm_compute. reflexivity.
Defined.

End Undoing.
