(* ===== verification/LineEnding.v ===== *)
(** * Line endings: [LineEnding] of [crates/text/src/text.rs]

    Texts enter a buffer with line feeds only. The regular expression engine is
    a parameter: what the code asks of it is to replace all separators. *)

From S2P Require Import Prelude Points Text RopeText.

#[local] Open Scope N_scope.

Inductive LineEnding := Unix | Windows.

#[export] Instance LineEnding_eq_dec : EqDecision LineEnding.
Proof. solve_decision. Defined.

Definition carriage_return : char := 13.

(** Every [\r\n] and every other [\r] becomes [\n]: the meaning of the
    replacement of [\r\n|\r] by a line feed. *)
Fixpoint unix_lines (s : str) : str :=
  match s with
  | [] => []
  | c :: t =>
      if c =? carriage_return then
        match t with
        | d :: _ => if d =? newline_char then unix_lines t else newline_char :: unix_lines t
        | [] => [newline_char]
        end
      else c :: unix_lines t
  end.

(** [Regex::replace_all] on [LINE_SEPARATORS_REGEX] and a line feed. *)
Class LineSeparators (replace_all : str → str) : Prop := {
  replace_separators s : replace_all s = unix_lines s }.

#[export] Instance unix_lines_separators : LineSeparators unix_lines.
Proof. by split. Qed.

(** ** Operations *)

Module LineEndingOps.
Section LineEndingOps.
Variable replace_all : str → str.

(** On the platforms that are not Windows. *)
Definition default_ending : LineEnding := Unix.

Definition as_str (e : LineEnding) : str :=
  match e with Unix => [newline_char] | Windows => [carriage_return; newline_char] end.

Definition label (e : LineEnding) : str :=
  match e with Unix => [76; 70] | Windows => [67; 82; 76; 70] end.

(** [while !text.is_char_boundary(max_ix) { max_ix -= 1 }]. *)
Fixpoint step_back (fuel : nat) (text : str) (max_ix : N) : option N :=
  match fuel with
  | O => None
  | S fuel =>
      if Str.is_char_boundary text max_ix then Some max_ix
      else max_ix ← usize_sub max_ix 1; step_back fuel text max_ix
  end.

(** [str::find] of a line feed: its offset in bytes, and the character before
    it. A line feed is a byte of its own, and so is a carriage return. *)
Fixpoint find_newline (text : str) (ix : N) (before : option char) : option (N * option char) :=
  match text with
  | [] => None
  | c :: text =>
      if c =? newline_char then Some (ix, before)
      else find_newline text (ix + Str.len_utf8 c) (Some c)
  end.

Definition detect (text : str) : option LineEnding :=
  max_ix ← step_back 5 text (N.min (Str.length_utf8 text) 1000);
  '(head, _) ← Str.split_at text max_ix;
  Some (match find_newline head 0 None with
        | Some (ix, before) =>
            if (0 <? ix) && bool_decide (before = Some carriage_return) then Windows else Unix
        | None => default_ending
        end).

(** [normalize], [normalize_arc] and [normalize_cow]: the text is replaced when
    something matches. *)
Definition normalize (text : str) : str := replace_all text.

(** [str::replace] of every line feed. *)
Definition replace_newlines (text : str) : str :=
  mjoin ((λ c, if c =? newline_char then [carriage_return; newline_char] else [c]) <$> text).

Definition apply (self : LineEnding) (text : str) : option str :=
  found ← detect text;
  Some (match found, self with
        | Unix, Unix | Windows, Windows => text
        | Unix, Windows => replace_newlines text
        | Windows, Unix => normalize text
        end).

(** [str::lines]: the lines without their separators. *)
Definition strip_return (line : str) : str :=
  match last line with
  | Some c => if c =? carriage_return then removelast line else line
  | None => line
  end.

Fixpoint lines_from (line s : str) : list str :=
  match s with
  | [] => match line with [] => [] | _ => [line] end
  | c :: s => if c =? newline_char then strip_return line :: lines_from [] s else lines_from (line ++ [c]) s
  end.

Definition lines (s : str) : list str := lines_from [] s.

Definition ends_with_newline (s : str) : bool := bool_decide (last s = Some newline_char).

(** [chunks_with_line_ending] and [BufferSnapshot::text_with_line_endings], on
    the texts of the chunks of the rope. *)
Definition chunks_with_line_ending (chunks : list str) (e : LineEnding) : list str :=
  mjoin ((λ chunk, match lines chunk with [] => [] | line :: more => line :: mjoin ((λ line, [as_str e; line]) <$> more) end
                   ++ if ends_with_newline chunk then [as_str e] else []) <$> chunks).

Definition text_with_line_endings (chunks : list str) (e : LineEnding) : str := mjoin (chunks_with_line_ending chunks e).

End LineEndingOps.
End LineEndingOps.

(** ** Texts without carriage returns *)

Definition clean (s : str) : Prop := Forall (λ c, c ≠ carriage_return) s.

Lemma clean_app a b : clean (a ++ b) ↔ clean a ∧ clean b.
Proof. apply Forall_app. Qed.

Lemma unix_lines_clean s : clean (unix_lines s).
Proof.
  unfold clean. induction s as [|c s IH]; cbn [unix_lines]; [done|].
  destruct (N.eqb_spec c carriage_return); [|by constructor].
  destruct s as [|d s]; [by repeat constructor|]. destruct (d =? newline_char); [done|by constructor].
Qed.

Lemma clean_unix_lines s : clean s → unix_lines s = s.
Proof.
  induction 1 as [|c s Hc _ IH]; cbn [unix_lines]; [done|].
  destruct (N.eqb_spec c carriage_return); [done|]. by rewrite IH.
Qed.

Lemma unix_lines_scalars s : forallb is_scalar s = true → forallb is_scalar (unix_lines s) = true.
Proof.
  induction s as [|c s IH]; cbn [unix_lines forallb]; [done|]. intros [Hc Hs]%andb_true_iff. specialize (IH Hs).
  destruct (c =? carriage_return); [|cbn [forallb]; by rewrite Hc].
  destruct s as [|d s]; [done|]. destruct (d =? newline_char); [done|]. exact IH.
Qed.

Lemma unix_lines_length s : Str.length_utf8 (unix_lines s) <= Str.length_utf8 s.
Proof.
  induction s as [|c s IH]; cbn [unix_lines Str.length_utf8]; [lia|].
  destruct (N.eqb_spec c carriage_return) as [->|]; [|cbn [Str.length_utf8]; lia].
  assert (1 = Str.len_utf8 carriage_return) as H1 by done. assert (1 = Str.len_utf8 newline_char) as H2 by done.
  destruct s as [|d s]; [cbn [Str.length_utf8]; lia|].
  destruct (d =? newline_char); [lia|]. change (Str.length_utf8 (?c :: ?t)) with (Str.len_utf8 c + Str.length_utf8 t) at 1. lia.
Qed.

(** ** Writing a text with a line ending, and reading it again *)

Section endings.
Import LineEndingOps.
Implicit Types (s a b line : str) (e : LineEnding).

Definition with_ending e s : str := mjoin ((λ c, if c =? newline_char then as_str e else [c]) <$> s).

Lemma with_ending_app e a b : with_ending e (a ++ b) = with_ending e a ++ with_ending e b.
Proof. unfold with_ending. by rewrite fmap_app, join_app. Qed.

Lemma with_ending_cons e c s : with_ending e (c :: s) = (if c =? newline_char then as_str e else [c]) ++ with_ending e s.
Proof. done. Qed.

Lemma with_ending_unix s : with_ending Unix s = s.
Proof.
  induction s as [|c s IH]; [done|]. rewrite with_ending_cons, IH.
  by destruct (N.eqb_spec c newline_char) as [->|].
Qed.

Lemma unix_of_windows s : clean s → unix_lines (with_ending Windows s) = s.
Proof.
  induction 1 as [|c s Hc _ IH]; [done|]. rewrite with_ending_cons. destruct (N.eqb_spec c newline_char) as [->|Hn].
  - cbn [as_str app unix_lines]. rewrite N.eqb_refl. change (newline_char =? newline_char) with true. cbn [negb].
    change (newline_char =? carriage_return) with false. cbv iota. by rewrite IH.
  - cbn [app unix_lines]. destruct (N.eqb_spec c carriage_return); [done|]. by rewrite IH.
Qed.

Lemma unix_with_ending e s : clean s → unix_lines (with_ending e s) = s.
Proof. destruct e; [rewrite with_ending_unix; apply clean_unix_lines|apply unix_of_windows]. Qed.

(** Lines put together again. *)
Definition join_lines e (ls : list str) : str :=
  match ls with [] => [] | line :: more => line ++ mjoin ((λ line, as_str e ++ line) <$> more) end.

Lemma lines_nonempty line s : line ++ s ≠ [] → lines_from line s ≠ [].
Proof.
  revert line. induction s as [|c s IH]; intros line; cbn [lines_from].
  - rewrite app_nil_r. by destruct line.
  - intros _. destruct (c =? newline_char); [done|]. apply IH. by destruct line.
Qed.

Lemma clean_strip line : clean line → strip_return line = line.
Proof.
  intros Hl. unfold strip_return. destruct line as [|c line _] using rev_ind; [done|]. rewrite last_snoc.
  apply clean_app in Hl as [_ [Hc _]%Forall_cons]. by destruct (N.eqb_spec c carriage_return).
Qed.

Lemma lines_join e line s : clean line → clean s →
  join_lines e (lines_from line s) ++ (if ends_with_newline s then as_str e else []) = line ++ with_ending e s.
Proof.
  intros Hl Hs. revert line Hl. induction Hs as [|c s Hc Hs IH]; intros line Hl; cbn [lines_from].
  - destruct line; cbn; by rewrite ?app_nil_r.
  - rewrite with_ending_cons. assert (ends_with_newline (c :: s) = if decide (s = []) then c =? newline_char else ends_with_newline s) as ->.
    { unfold ends_with_newline. rewrite last_cons. case_decide as E.
      - subst s. cbn. destruct (N.eqb_spec c newline_char); [by rewrite bool_decide_eq_true_2; congruence|].
        by rewrite bool_decide_eq_false_2; congruence.
      - destruct (last s) eqn:El; [done|]. by apply last_None in El. }
    destruct (N.eqb_spec c newline_char) as [->|Hn].
    + rewrite clean_strip by done. cbn [join_lines]. rewrite <- app_assoc. f_equal. case_decide as E.
      { subst s. cbn. by rewrite app_nil_r. }
      pose proof (lines_nonempty [] s E) as Hne. specialize (IH [] ltac:(constructor)). cbn [app] in IH. rewrite <- IH.
      destruct (lines_from [] s) as [|l ls]; [done|]. cbn [join_lines fmap list_fmap].
      change (mjoin ((as_str e ++ l) :: ?k)) with ((as_str e ++ l) ++ mjoin k). by rewrite <- !app_assoc.
    + assert (clean (line ++ [c])) as Hlc by by apply clean_app; split; [|by constructor].
      rewrite app_assoc, <- (IH (line ++ [c]) Hlc). do 2 f_equal. by case_decide as E; [subst s|].
Qed.

Lemma chunks_text e chunks : Forall clean chunks → text_with_line_endings chunks e = with_ending e (mjoin chunks).
Proof.
  unfold text_with_line_endings, chunks_with_line_ending. induction 1 as [|s chunks Hs _ IH]; [done|].
  cbn [fmap list_fmap]. change (mjoin (?x :: ?l)) with (x ++ mjoin l). rewrite join_app. rewrite IH, with_ending_app. f_equal.
  change (with_ending e s) with ([] ++ with_ending e s). rewrite <- (lines_join e [] s), join_app by (constructor || done). f_equal; [|destruct (ends_with_newline s); cbn; by rewrite ?app_nil_r].
  change (lines_from [] s) with (lines s). destruct (lines s) as [|l ls]; [done|]. cbn [join_lines].
  change (mjoin (l :: ?k)) with (l ++ mjoin k). f_equal. induction ls as [|k ls IHls]; [done|].
  change (as_str e ++ k ++ mjoin (mjoin ((λ line, [as_str e; line]) <$> ls)) =
    (as_str e ++ k) ++ mjoin ((λ line, as_str e ++ line) <$> ls)). by rewrite IHls, app_assoc.
Qed.

(** *** Detecting *)

Lemma step_back_head s i : i <= Str.length_utf8 s → step_back 5 s i = Some (Str.floor_char_boundary s i).
Proof.
  intros Hi. pose proof (floor_near s i Hi) as Hn. pose proof (floor_le s i) as Hle.
  assert (∀ fuel j, Str.floor_char_boundary s i <= j → j <= i → j < Str.floor_char_boundary s i + N.of_nat fuel →
    step_back fuel s j = Some (Str.floor_char_boundary s i)) as Hgen; [|apply Hgen; lia].
  induction fuel as [|fuel IH]; intros j Hlo Hhi Hf; [lia|]. cbn [step_back].
  destruct (Str.is_char_boundary s j) eqn:E.
  - f_equal. pose proof (floor_greatest s i j E Hhi). lia.
  - assert (j ≠ Str.floor_char_boundary s i) by (intros ->; by rewrite floor_boundary in E).
    rewrite usize_sub_le by lia. cbn [mbind option_bind]. apply IH; lia.
Qed.

(** The first line feed, in the text after [a] whose last character is [b]. *)
Lemma find_newline_app s a ix (before : option char) : Forall (λ c, c ≠ newline_char) a →
  find_newline (a ++ newline_char :: s) ix before = Some (ix + Str.length_utf8 a, match last a with Some c => Some c | None => before end).
Proof.
  intros Ha. revert ix before. induction Ha as [|c a Hc Ha IH]; intros ix before; cbn [app find_newline].
  { by rewrite N.add_0_r. }
  destruct (N.eqb_spec c newline_char); [done|]. rewrite IH. cbn [Str.length_utf8]. rewrite N.add_assoc, last_cons.
  by destruct (last a).
Qed.

Lemma find_newline_none s ix (before : option char) : Forall (λ c, c ≠ newline_char) s → find_newline s ix before = None.
Proof.
  intros Hs. revert ix before. induction Hs as [|c s Hc _ IH]; intros ix before; [done|]. cbn [find_newline].
  destruct (N.eqb_spec c newline_char); [done|]. apply IH.
Qed.

Lemma detect_head s : ∃ head rest, s = head ++ rest ∧
  Str.length_utf8 head = Str.floor_char_boundary s (N.min (Str.length_utf8 s) 1000) ∧
  detect s = Some (match find_newline head 0 None with
                   | Some (ix, before) => if (0 <? ix) && bool_decide (before = Some carriage_return) then Windows else Unix
                   | None => default_ending end).
Proof.
  unfold detect. rewrite step_back_head by lia. cbn [mbind option_bind].
  destruct (boundary_cut s _ (floor_boundary s (N.min (Str.length_utf8 s) 1000))) as (a & b & Hs & Hl & E).
  rewrite E. cbn [mbind option_bind]. by exists a, b.
Qed.

(** A text without a line feed in its first bytes is taken for a Unix text. *)
Lemma detect_none s a b : s = a ++ b → Forall (λ c, c ≠ newline_char) a → (b = [] ∨ 1000 <= Str.length_utf8 a) →
  detect s = Some Unix.
Proof.
  intros Hs Ha Hb. destruct (detect_head s) as (h & r & Hh & Hl & ->). rewrite find_newline_none; [done|].
  pose proof (floor_le s (N.min (Str.length_utf8 s) 1000)) as Hle.
  destruct (prefix_cut h r a b) as (u & -> & _); [by rewrite <- Hh|..|by apply Forall_app in Ha as [? _]].
  rewrite Hl. destruct Hb as [->|?]; [|lia]. rewrite app_nil_r in Hs. subst s. lia.
Qed.

Lemma detect_at s a b : s = a ++ newline_char :: b → Forall (λ c, c ≠ newline_char) a → Str.length_utf8 a < 1000 →
  detect s = Some (if bool_decide (last a = Some carriage_return) then Windows else Unix).
Proof.
  intros Hs Ha Hl. destruct (detect_head s) as (h & r & Hh & Hlen & ->).
  assert (Str.length_utf8 (a ++ [newline_char]) <= Str.length_utf8 h) as Hle.
  { rewrite Hlen. apply floor_greatest.
    - rewrite Hs. change (newline_char :: b) with ([newline_char] ++ b). rewrite app_assoc. apply boundary_app.
    - rewrite Hs, !length_utf8_app. cbn [Str.length_utf8]. change (Str.len_utf8 newline_char) with 1. lia. }
  change (newline_char :: b) with ([newline_char] ++ b) in Hs. rewrite app_assoc in Hs. rewrite Hs in Hh.
  destruct (prefix_cut _ _ _ _ Hh Hle) as (u & -> & _). rewrite <- app_assoc. cbn [app]. rewrite find_newline_app by done.
  rewrite N.add_0_l. f_equal. destruct a as [|c a _] using rev_ind; [done|]. rewrite last_snoc, length_utf8_app.
  cbn [Str.length_utf8]. pose proof (len_utf8_bounds c). destruct (N.ltb_spec 0 (Str.length_utf8 a + (Str.len_utf8 c + 0))); [|lia].
  cbn [andb]. by case_bool_decide.
Qed.

Lemma with_ending_line e a : Forall (λ c, c ≠ newline_char) a → with_ending e a = a.
Proof.
  induction 1 as [|c a Hc _ IH]; [done|]. rewrite with_ending_cons, IH. by destruct (N.eqb_spec c newline_char).
Qed.

Lemma clean_last a : clean a → bool_decide (last a = Some carriage_return) = false.
Proof.
  intros Ha. apply bool_decide_eq_false. destruct a as [|c a _] using rev_ind; [done|]. rewrite last_snoc.
  apply clean_app in Ha as [_ [Hc _]%Forall_cons]. by intros [= ?].
Qed.

Lemma detect_with_ending e a b : clean a → Forall (λ c, c ≠ newline_char) a → Str.length_utf8 a < 999 →
  detect (with_ending e (a ++ newline_char :: b)) = Some e.
Proof.
  intros Hc Ha Hl. rewrite with_ending_app, with_ending_line, with_ending_cons by done.
  change (newline_char =? newline_char) with true. cbv iota. destruct e; cbn [as_str app].
  - rewrite (detect_at _ a (with_ending Unix b)) by (done || lia). by rewrite clean_last.
  - rewrite (detect_at _ (a ++ [carriage_return]) (with_ending Windows b)).
    + by rewrite last_snoc, bool_decide_eq_true_2.
    + by rewrite <- app_assoc.
    + apply Forall_app. split; [done|]. by constructor.
    + rewrite length_utf8_app. cbn [Str.length_utf8]. change (Str.len_utf8 carriage_return) with 1. lia.
Qed.

(** C40: writing a buffer with a line ending and reading the file again gives the same text; when
    there is a line feed in the first thousand bytes, the same line ending is detected, and
    [apply] brings the text to the file's ending and leaves the file alone. Normalising leaves
    no carriage return, does nothing the second time, and does not make a text longer. *)
Theorem line_endings_roundtrip replace_all (Hrepl : LineSeparators replace_all) e (chunks : list str) (Hc : Forall clean chunks) :
  normalize replace_all (text_with_line_endings chunks e) = mjoin chunks ∧
  (∀ a b, mjoin chunks = a ++ newline_char :: b → Forall (λ c, c ≠ newline_char) a → Str.length_utf8 a < 999 →
    detect (text_with_line_endings chunks e) = Some e ∧
    apply replace_all e (mjoin chunks) = Some (text_with_line_endings chunks e) ∧
    apply replace_all e (text_with_line_endings chunks e) = Some (text_with_line_endings chunks e)) ∧
  (∀ u, clean (normalize replace_all u) ∧ normalize replace_all (normalize replace_all u) = normalize replace_all u ∧
    Str.length_utf8 (normalize replace_all u) <= Str.length_utf8 u).
Proof.
  assert (clean (mjoin chunks)) as Hj by (apply Forall_join; exact Hc).
  unfold normalize. rewrite chunks_text, (replace_separators (replace_all := replace_all)), unix_with_ending by done.
  split_and!; [done| |].
  - intros a b E Ha Hl. assert (clean a) as Hca by (rewrite E in Hj; by apply clean_app in Hj as [? _]).
    assert (detect (mjoin chunks) = Some Unix) as Hu.
    { rewrite <- (with_ending_unix (mjoin chunks)), E. by apply detect_with_ending. }
    assert (detect (with_ending e (mjoin chunks)) = Some e) as He by (rewrite E; by apply detect_with_ending).
    split_and!; [done| |].
    + unfold apply. rewrite Hu. cbn [mbind option_bind]. destruct e; [by rewrite with_ending_unix|done].
    + unfold apply. rewrite He. by destruct e.
  - intros u. rewrite !(replace_separators (replace_all := replace_all)).
    split_and!; [apply unix_lines_clean|apply clean_unix_lines, unix_lines_clean|apply unix_lines_length].
Qed.

Lemma line_endings_roundtrip_witness :
  detect (text_with_line_endings [[97; 10; 10]; [98; 10; 99]] Windows) = Some Windows ∧
  unix_lines (text_with_line_endings [[97; 10; 10]; [98; 10; 99]] Windows) = [97; 10; 10; 98; 10; 99].
Proof.
  destruct (line_endings_roundtrip unix_lines _ Windows [[97; 10; 10]; [98; 10; 99]]) as (H & Hd & _).
  { repeat constructor; unfold carriage_return; lia. }
  split; [|exact H]. by apply (Hd [97] [10; 98; 10; 99]); [|repeat constructor; unfold newline_char; lia|].
Defined.
End endings.
