(* ===== verification/Fragment.v ===== *)
(** * Fragments: the pieces of a buffer, of [crates/text/src/text.rs]

    A buffer is a sequence of fragments of insertions; a fragment is visible or
    deleted. This file has the fragments with their summaries, the dimensions
    in which they are searched, and the records that lead from an insertion to
    its fragments and from an edit to what it changed. *)

From stdpp Require Import sets sorting.
From S2P Require Import Prelude Clock Locator SumTree KeyedTree UndoMap.

#[local] Unset Default Proof Using.
#[local] Open Scope N_scope.
#[local] Existing Instance LamportOps.cmp_total.

(** ** Data *)

(** The fields [timestamp], [len] and [id] of the source are [stamp], [flen]
    and [fid]. *)
Record Fragment := mkFragment {
  fid : Locator;
  stamp : Lamport;
  insertion_offset : N;
  flen : N;
  visible : bool;
  deletions : list Lamport;
  max_undos : Global }.

#[export] Instance Fragment_eq_dec : EqDecision Fragment.
Proof. solve_decision. Defined.

Record FragmentTextSummary := mkFragmentText { tvisible : N; tdeleted : N }.

Record InsertionFragmentKey := mkInsertionKey { kstamp : Lamport; ksplit : N }.

Record InsertionFragment := mkInsertionFragment {
  istamp : Lamport;
  split_offset : N;
  fragment_id : Locator }.

#[export] Instance InsertionFragmentKey_eq_dec : EqDecision InsertionFragmentKey.
Proof. solve_decision. Defined.
#[export] Instance InsertionFragment_eq_dec : EqDecision InsertionFragment.
Proof. solve_decision. Defined.

(** A timestamp is stored as two fields. *)
Record InsertionSlice := mkInsertionSlice {
  edit_id_value : N;
  edit_id_replica_id : ReplicaId;
  insertion_id_value : N;
  insertion_id_replica_id : ReplicaId;
  srange : Range N }.

#[export] Instance InsertionSlice_eq_dec : EqDecision InsertionSlice.
Proof. solve_decision. Defined.

(** The base text of a buffer is an insertion of the local replica. *)
Definition base_stamp : Lamport := LamportOps.new Replica.LOCAL.

(** ** Visibility *)

(** [Iterator::all] for a test that can panic. *)
Fixpoint all_ok {A} (p : A → option bool) (l : list A) : option bool :=
  match l with
  | [] => Some true
  | x :: l => b ← p x; if b : bool then all_ok p l else Some false
  end.

Module FragmentOps.
Implicit Types (f : Fragment) (undos : UndoMap) (version : Global).

Definition is_visible f undos : option bool :=
  undone ← UndoMapOps.is_undone undos (stamp f);
  if undone : bool then Some false else all_ok (UndoMapOps.is_undone undos) (deletions f).

Definition was_visible f version undos : option bool :=
  if negb (GlobalOps.observed version (stamp f)) then Some false
  else
    undone ← UndoMapOps.was_undone undos (stamp f) version;
    if undone : bool then Some false
    else all_ok (λ d, if negb (GlobalOps.observed version d) then Some true
                      else UndoMapOps.was_undone undos d version) (deletions f).

Definition insertion_fragment f : InsertionFragment :=
  mkInsertionFragment (stamp f) (insertion_offset f) (fid f).

Definition insert_new f : Edit InsertionFragment InsertionFragmentKey := Insert (insertion_fragment f).

(** [insertion_offset + len] is a sum of two [u32]. *)
Definition insertion_slice (edit_id : Lamport) f : InsertionSlice :=
  mkInsertionSlice (value edit_id) (replica_id edit_id) (value (stamp f)) (replica_id (stamp f))
    (insertion_offset f ..: insertion_offset f +u32 flen f).

End FragmentOps.

(** *** What the tests compute *)

Section visibility.
Implicit Types (f : Fragment) (undone : Lamport → bool).

Definition shows undone f : bool := negb (undone (stamp f)) && forallb undone (deletions f).

Lemma all_ok_Some {A} (p : A → option bool) (q : A → bool) l :
  (∀ x, x ∈ l → p x = Some (q x)) → all_ok p l = Some (forallb q l).
Proof.
  induction l as [|x l IH]; intros Hp; [done|]. cbn [all_ok forallb]. rewrite (Hp x) by left.
  cbn [mbind option_bind]. rewrite IH by (intros y Hy; apply Hp; by right). by destruct (q x).
Qed.

Lemma is_visible_ok undos undone f : (∀ t, UndoMapOps.is_undone undos t = Some (undone t)) →
  FragmentOps.is_visible f undos = Some (shows undone f).
Proof.
  intros Hu. unfold FragmentOps.is_visible, shows. rewrite Hu. cbn [mbind option_bind].
  destruct (undone (stamp f)); [done|]. by apply all_ok_Some.
Qed.

(** Visibility at a version: the edits and the undos that it has seen. *)
Definition showed (observed undone : Lamport → bool) f : bool :=
  observed (stamp f) && negb (undone (stamp f)) && forallb (λ d, negb (observed d) || undone d) (deletions f).

Lemma was_visible_ok undos undone version f :
  (∀ t, UndoMapOps.was_undone undos t version = Some (undone t)) →
  FragmentOps.was_visible f version undos = Some (showed (GlobalOps.observed version) undone f).
Proof.
  intros Hu. unfold FragmentOps.was_visible, showed. destruct (GlobalOps.observed version (stamp f)); [|done].
  rewrite Hu. cbn [mbind option_bind negb andb]. destruct (undone (stamp f)); [done|].
  apply all_ok_Some. intros d _. destruct (GlobalOps.observed version d); [apply Hu|done].
Qed.
End visibility.

(** ** Orders *)

(** The derived [Ord] of [InsertionFragmentKey]. *)
Definition insertion_key_cmp (a b : InsertionFragmentKey) : comparison :=
  then_with (LamportOps.cmp (kstamp a) (kstamp b)) (ksplit a ?= ksplit b).

#[export] Instance insertion_key_total : TotalOrd insertion_key_cmp.
Proof. apply (lex_total LamportOps.cmp N.compare). intros [] []; simpl. congruence. Qed.

Definition slice_edit (s : InsertionSlice) : Lamport := mkLamport (edit_id_value s) (edit_id_replica_id s).
Definition slice_insertion (s : InsertionSlice) : Lamport :=
  mkLamport (insertion_id_value s) (insertion_id_replica_id s).

(** [InsertionSlice::cmp]. *)
Definition insertion_slice_cmp (a b : InsertionSlice) : comparison :=
  then_with (LamportOps.cmp (slice_edit a) (slice_edit b))
    (then_with (LamportOps.cmp (slice_insertion a) (slice_insertion b))
      (then_with (start (srange a) ?= start (srange b)) (stop (srange a) ?= stop (srange b)))).

#[local] Instance range_total : TotalOrd (λ x y : Range N, then_with (start x ?= start y) (stop x ?= stop y)).
Proof. apply (lex_total N.compare N.compare (start (T := N)) stop). intros [] []; simpl; congruence. Qed.

#[local] Instance insertion_range_total : TotalOrd (λ x y : Lamport * Range N,
  then_with (LamportOps.cmp x.1 y.1) (then_with (start x.2 ?= start y.2) (stop x.2 ?= stop y.2))).
Proof.
  apply (lex_total LamportOps.cmp (λ x y, then_with (start x ?= start y) (stop x ?= stop y)) fst snd).
  intros [] []; simpl; congruence.
Qed.

#[export] Instance insertion_slice_total : TotalOrd insertion_slice_cmp.
Proof.
  apply (lex_total LamportOps.cmp (λ x y : Lamport * Range N,
    then_with (LamportOps.cmp x.1 y.1) (then_with (start x.2 ?= start y.2) (stop x.2 ?= stop y.2)))
    slice_edit (λ s, (slice_insertion s, srange s))).
  intros [] []. unfold slice_edit, slice_insertion; simpl. congruence.
Qed.

(** ** Summaries *)

Definition normalb (g : Global) : bool := match last (values g) with Some 0 => false | _ => true end.

Lemma normalb_normal g : normalb g = true ↔ normal g.
Proof.
  unfold normalb, normal, normal_list. destruct (values g) as [|x l _] using rev_ind; [by split; [left|]|].
  rewrite last_snoc, length_app. cbn [length]. replace (length l + 1 - 1)%nat with (length l) by lia.
  unfold at_. rewrite list_lookup_middle by done. cbn [default from_option]. unfold Datatypes.id.
  destruct x; split; try done; try (by right); try (by intros [?%app_nil|?]; naive_solver).
Qed.

(** [meet] trims the zeros at the end of its result, so that zero is neutral
    for versions that have none: the field [min_insertion_version], which is
    private, only holds such versions. *)
Record FragmentSummary := mkFragmentSummary {
  ftext : FragmentTextSummary;
  max_id : Locator;
  max_version : Global;
  min_insertion_version : Global;
  max_insertion_version : Global;
  min_normal : normalb min_insertion_version = true }.

Lemma fragment_summary_ext s t : ftext s = ftext t → max_id s = max_id t → max_version s = max_version t →
  min_insertion_version s = min_insertion_version t → max_insertion_version s = max_insertion_version t → s = t.
Proof.
  destruct s, t; simpl. intros -> -> -> -> ->. f_equal. apply eq_pi. intros x. apply _.
Qed.

Lemma observe_normal t : normalb (GlobalOps.observe GlobalOps.new t) = true.
Proof. apply normalb_normal. auto with zed. Qed.

Lemma meet_normalb g h : normalb g = true → normalb h = true → normalb (GlobalOps.meet g h) = true.
Proof. rewrite !normalb_normal. auto with zed. Qed.

Definition fragment_text (f : Fragment) : FragmentTextSummary :=
  if visible f then mkFragmentText (flen f) 0 else mkFragmentText 0 (flen f).

(** [Fragment::summary]. *)
Definition fragment_summary (f : Fragment) : FragmentSummary :=
  mkFragmentSummary (fragment_text f) (fid f)
    (GlobalOps.join (foldl GlobalOps.observe (GlobalOps.observe GlobalOps.new (stamp f)) (deletions f)) (max_undos f))
    (GlobalOps.observe GlobalOps.new (stamp f)) (GlobalOps.observe GlobalOps.new (stamp f))
    (observe_normal (stamp f)).

Definition text_add (a b : FragmentTextSummary) : FragmentTextSummary :=
  mkFragmentText (tvisible a + tvisible b) (tdeleted a + tdeleted b).

(** The context [Option<Global>] is the version that full offsets refer to. *)
#[export] Instance fragment_summary_monoid : Summary FragmentSummary (option Global) := {|
  szero _ := mkFragmentSummary (mkFragmentText 0 0) LocatorOps.min GlobalOps.new GlobalOps.new GlobalOps.new eq_refl;
  sadd _ s other := mkFragmentSummary (text_add (ftext s) (ftext other))
    (LocatorOps.assign (max_id s) (max_id other))
    (GlobalOps.join (max_version s) (max_version other))
    (GlobalOps.meet (min_insertion_version s) (min_insertion_version other))
    (GlobalOps.join (max_insertion_version s) (max_insertion_version other))
    (meet_normalb _ _ (min_normal s) (min_normal other)) |}.

#[export] Instance fragment_item : Item Fragment FragmentSummary (option Global) :=
  {| isummary _ := fragment_summary |}.

(** ** Dimensions *)

#[export] Instance fragment_text_dimension : Dimension FragmentTextSummary FragmentSummary (option Global) :=
  {| dzero _ := mkFragmentText 0 0; dadd _ d s := text_add d (ftext s) |}.

(** [usize] measures visible text. *)
#[export] Instance usize_dimension : Dimension N FragmentSummary (option Global) :=
  {| dzero _ := 0; dadd _ d s := d + tvisible (ftext s) |}.

(** [Option<&Locator>]: the identifier of the last fragment. *)
#[export] Instance locator_dimension : Dimension (option Locator) FragmentSummary (option Global) :=
  {| dzero _ := None; dadd _ _ s := Some (max_id s) |}.

(** [FullOffset] counts the deleted text, too. *)
Record FullOffset := mkFullOffset { full : N }.

#[export] Instance full_offset_dimension : Dimension FullOffset FragmentSummary (option Global) :=
  {| dzero _ := mkFullOffset 0; dadd _ d s := mkFullOffset (full d + (tvisible (ftext s) + tdeleted (ftext s))) |}.

(** ** Insertion fragments, in the order of their keys *)

Definition insertion_key (x : InsertionFragment) : InsertionFragmentKey := mkInsertionKey (istamp x) (split_offset x).

#[export] Instance insertion_item : Item InsertionFragment InsertionFragmentKey () :=
  {| isummary _ := insertion_key |}.
#[export] Instance insertion_keyed : KeyedItem InsertionFragment InsertionFragmentKey := {| key := insertion_key |}.
#[export] Instance insertion_summary : Summary InsertionFragmentKey () :=
  {| szero _ := mkInsertionKey LamportOps.MIN 0; sadd _ _ s := s |}.
#[export] Instance insertion_dimension : Dimension InsertionFragmentKey InsertionFragmentKey () := summary_dimension.

(** ** The laws of the interfaces *)

Section versions.
Import GlobalOps.
Implicit Types (g h k : Global).

Lemma length_join g h : length (values (join g h)) = Nat.max (length (values h)) (length (values g)).
Proof. unfold join. cbn [values]. by rewrite length_zip_update, length_grow. Qed.

Lemma global_at_ext g h : length (values g) = length (values h) → (∀ r, get g r = get h r) → g = h.
Proof. intros Hl H. pose proof (get_ext_at g h H). destruct g, h. f_equal. by apply at_ext. Qed.

Lemma join_new_l g : join new g = g.
Proof.
  apply global_at_ext; [rewrite length_join; simpl; lia|]. intros r. rewrite get_join, get_new. lia.
Qed.

Lemma join_assoc g h k : join (join g h) k = join g (join h k).
Proof.
  apply global_at_ext; [rewrite !length_join; lia|]. intros r. rewrite !get_join. lia.
Qed.

Lemma meet_new_l g : normal g → meet new g = g.
Proof.
  intros Hg. apply global_ext; [auto with zed|done|]. intros r. by rewrite get_meet, get_new.
Qed.

Lemma meet_assoc g h k : normal g → normal h → normal k → meet (meet g h) k = meet g (meet h k).
Proof.
  intros Hg Hh Hk. apply global_ext; [auto 6 with zed..|]. intros r. rewrite !get_meet.
  unfold meet_entry. destruct (N.eqb_spec (get g r) 0), (N.eqb_spec (get h r) 0), (N.eqb_spec (get k r) 0);
    cases_bool; lia.
Qed.
End versions.

#[export] Instance fragment_summary_laws cx : SummaryLaws FragmentSummary (option Global) cx.
Proof.
  split.
  - intros s. apply fragment_summary_ext; cbn [sadd szero fragment_summary_monoid ftext max_id max_version
      min_insertion_version max_insertion_version].
    + by destruct s as [[]].
    + by destruct s as [? []].
    + apply join_new_l.
    + apply meet_new_l, normalb_normal, min_normal.
    + apply join_new_l.
  - intros a b c. apply fragment_summary_ext; cbn [sadd szero fragment_summary_monoid ftext max_id max_version
      min_insertion_version max_insertion_version].
    + unfold text_add. cbn. f_equal; lia.
    + done.
    + apply join_assoc.
    + apply meet_assoc; apply normalb_normal, min_normal.
    + apply join_assoc.
Qed.

#[export] Instance fragment_text_laws cx : DimensionLaws FragmentTextSummary FragmentSummary (option Global) cx.
Proof. split; [split; intros; cbn; unfold text_add; cbn; f_equal; lia|done]. Qed.

#[export] Instance usize_laws cx : DimensionLaws N FragmentSummary (option Global) cx.
Proof. split; [split; intros; cbn; lia|done]. Qed.

#[export] Instance full_offset_laws cx : DimensionLaws FullOffset FragmentSummary (option Global) cx.
Proof. split; [split; intros; cbn; f_equal; lia|done]. Qed.

(** An empty tree has the least identifier, but no fragment. *)
#[export] Instance locator_laws cx : DimensionAdd (option Locator) FragmentSummary (option Global) cx.
Proof. split. intros d a b. cbn. by destruct (max_id b). Qed.

#[export] Instance pair_add {D1 D2 S Cx : Type} `{!Summary S Cx, !Dimension D1 S Cx, !Dimension D2 S Cx} cx
  `{!DimensionAdd D1 S Cx cx, !DimensionAdd D2 S Cx cx} : DimensionAdd (D1 * D2) S Cx cx.
Proof. split. intros [d1 d2] a b. cbn. by rewrite !dadd_sadd. Qed.

#[export] Instance insertion_summary_laws : SummaryLaws InsertionFragmentKey () ().
Proof. by split. Qed.

#[export] Instance insertion_dimension_laws : DimensionLaws InsertionFragmentKey InsertionFragmentKey () ().
Proof. by split; [split|]. Qed.

#[export] Instance insertion_keyed_laws : KeyedLaws (T := InsertionFragment) insertion_key_cmp ().
Proof.
  split; [apply _| |done]. intros [t n]. pose proof (lamport_min_le t) as Ht.
  unfold insertion_key_cmp. simpl. destruct (LamportOps.cmp LamportOps.MIN t); simpl; [|done..]. by destruct n.
Qed.
