(* ===== verification/Builders.v ===== *)
(** * The builders of an edit: [FragmentBuilder] and [RopeBuilder] of [crates/text/src/text.rs]

    An edit goes through the old fragments once, and collects the new ones in a
    [FragmentBuilder] and the new visible and deleted texts in a
    [RopeBuilder]. *)

From S2P Require Import Prelude Clock Locator SumTree SumCursor CursorSpec CursorWalk KeyedTree Text Chunk Rope RopeText Fragment.
Import NodeOps TreeOps.

#[local] Unset Default Proof Using.
#[local] Arguments Nat.mul : simpl never.
#[local] Open Scope N_scope.

(** ** Fragments *)

Inductive FragmentChunk :=
  | ChunkTree (t : Node Fragment FragmentSummary)
  | ChunkLoose (fragments : list Fragment).

Record FragmentBuilder := mkFragmentBuilder {
  fchunks : list FragmentChunk;
  fsummary : FragmentSummary }.

Module FragmentBuilderOps.
Implicit Types (b : FragmentBuilder) (cx : option Global) (fragment : Fragment).

Definition new (init : Node Fragment FragmentSummary) : FragmentBuilder :=
  mkFragmentBuilder (if NodeOps.is_empty init then [] else [ChunkTree init]) (NodeOps.summary init).

Definition append b (items : Node Fragment FragmentSummary) cx : FragmentBuilder :=
  if NodeOps.is_empty items then b
  else mkFragmentBuilder (fchunks b ++ [ChunkTree items]) (sadd cx (fsummary b) (NodeOps.summary items)).

Definition push b fragment cx : FragmentBuilder :=
  mkFragmentBuilder
    (match list.last (fchunks b) with
     | Some (ChunkLoose fragments) => List.removelast (fchunks b) ++ [ChunkLoose (fragments ++ [fragment])]
     | _ => fchunks b ++ [ChunkLoose [fragment]]
     end)
    (sadd cx (fsummary b) (isummary cx fragment)).

Definition chunk_tree cx (c : FragmentChunk) : option (Node Fragment FragmentSummary) :=
  match c with
  | ChunkTree subtree => Some subtree
  | ChunkLoose fragments =>
      if (1024 <? length fragments)%nat then from_par_iter cx fragments else from_iter cx fragments
  end.

Fixpoint append_chunks cx (tree : Node Fragment FragmentSummary) (cs : list FragmentChunk) :
    option (Node Fragment FragmentSummary) :=
  match cs with
  | [] => Some tree
  | c :: cs => t ← chunk_tree cx c; tree ← TreeOps.append cx tree t; append_chunks cx tree cs
  end.

Definition to_sum_tree b cx : option (Node Fragment FragmentSummary) :=
  append_chunks cx (TreeOps.new cx) (fchunks b).

Definition summary b : FragmentSummary := fsummary b.

End FragmentBuilderOps.

Section fragment_builder.
Implicit Types (b : FragmentBuilder) (l : list Fragment) (f : Fragment).

#[local] Abbreviation cx := (@None Global).

Definition chunk_items (c : FragmentChunk) : list Fragment :=
  match c with ChunkTree t => tree_items t | ChunkLoose l => l end.

Definition chunk_good (c : FragmentChunk) : Prop :=
  match c with ChunkTree t => tree_ok cx t | ChunkLoose _ => True end.

(** The builder has collected the fragments [l]. *)
Record holds_fragments b l : Prop := {
  hf_chunks : Forall chunk_good (fchunks b);
  hf_items : mjoin (chunk_items <$> fchunks b) = l;
  hf_summary : fsummary b = total cx l }.

Lemma builder_new (t : Node Fragment FragmentSummary) : tree_ok cx t →
  holds_fragments (FragmentBuilderOps.new t) (tree_items t).
Proof.
  intros Ht. unfold FragmentBuilderOps.new. rewrite (is_empty_ok cx) by done.
  rewrite (summary_ok cx) by done. case_bool_decide as He; split; cbn; try done.
  - by constructor.
  - by rewrite app_nil_r.
Qed.

Lemma builder_append b l (t : Node Fragment FragmentSummary) : holds_fragments b l → tree_ok cx t →
  holds_fragments (FragmentBuilderOps.append b t cx) (l ++ tree_items t).
Proof.
  intros [Hc <- Hs] Ht. unfold FragmentBuilderOps.append. rewrite (is_empty_ok cx) by done.
  case_bool_decide as He; [rewrite He, app_nil_r; by split|]. split; cbn.
  - apply Forall_app. by split; [|constructor].
  - rewrite fmap_app, join_app. cbn. by rewrite app_nil_r.
  - rewrite (total_app cx) by done. by rewrite Hs, (summary_ok cx).
Qed.

Lemma builder_push b l f : holds_fragments b l → holds_fragments (FragmentBuilderOps.push b f cx) (l ++ [f]).
Proof.
  intros [Hc <- Hs]. assert (total cx (mjoin (chunk_items <$> fchunks b) ++ [f]) =
    sadd cx (fsummary b) (isummary cx f)) as Ht.
  { rewrite (total_app cx) by done. rewrite Hs. f_equal. apply (sadd_zero_l (cx := cx)). }
  unfold FragmentBuilderOps.push. split; cbn [fchunks fsummary]; [| |by rewrite Ht].
  - destruct (fchunks b) as [|c cs _] using rev_ind; [by repeat constructor|]. rewrite last_snoc.
    apply Forall_app in Hc as [Hcs Hcc]. destruct c; [by rewrite !Forall_app, !Forall_singleton in *|].
    rewrite removelast_last. apply Forall_app. by split; [|constructor].
  - destruct (fchunks b) as [|c cs _] using rev_ind; [done|]. rewrite last_snoc.
    destruct c; [|rewrite removelast_last]; rewrite !fmap_app, !join_app; cbn; by rewrite !app_nil_r, <- ?app_assoc.
Qed.

Lemma append_chunks_ok cs (t : Node Fragment FragmentSummary) : tree_ok cx t → Forall chunk_good cs →
  builds cx (FragmentBuilderOps.append_chunks cx t cs) (tree_items t ++ mjoin (chunk_items <$> cs)).
Proof.
  intros Ht Hc. revert t Ht. induction Hc as [|c cs Hc _ IH]; intros t Ht; cbn [FragmentBuilderOps.append_chunks].
  { cbn. rewrite app_nil_r. by apply returns_ret. }
  eapply (returns_bind _ _ (λ u, tree_ok cx u ∧ tree_items u = chunk_items c)).
  { destruct c as [u|l]; [by apply returns_ret|]. cbn [FragmentBuilderOps.chunk_tree]. case_match; [destruct (from_par_iter_ok cx l) as (u & -> & ?)|destruct (from_iter_ok cx l) as (u & -> & ?)]; by apply returns_ret. }
  intros u [Hu Hi]. eapply returns_bind; [by apply (append_ok cx t u)|]. intros v [Hv Hvi].
  eapply returns_mono; [by apply IH|]. intros w [Hw Hwi]. split; [done|].
  rewrite Hwi, Hvi, Hi. cbn. by rewrite <- app_assoc.
Qed.

Lemma to_sum_tree_ok b l : holds_fragments b l → builds cx (FragmentBuilderOps.to_sum_tree b cx) l.
Proof.
  intros [Hc <- _]. apply (append_chunks_ok (fchunks b) (TreeOps.new cx)); [by left|done].
Qed.

(** What the summary of a sequence says. *)
Lemma total_max_id l : max_id (total cx l) = default LocatorOps.min (list.last (fid <$> l)).
Proof.
  induction l as [|f l _] using rev_ind; [done|]. rewrite (total_app cx) by done.
  rewrite fmap_app. change (fid <$> [f]) with [fid f]. rewrite last_snoc. cbn. by destruct (fid f).
Qed.

Fixpoint text_of l : FragmentTextSummary :=
  match l with [] => mkFragmentText 0 0 | f :: l => text_add (fragment_text f) (text_of l) end.

Lemma text_of_app l k : text_of (l ++ k) = text_add (text_of l) (text_of k).
Proof.
  unfold text_add. induction l as [|f l IH]; cbn [app text_of]; [by destruct (text_of k)|].
  rewrite IH. unfold text_add. cbn. f_equal; lia.
Qed.

Lemma total_text l : ftext (total cx l) = text_of l.
Proof.
  induction l as [|f l IH] using rev_ind; [done|]. rewrite (total_app cx), text_of_app, <- IH by done.
  cbn. unfold text_add. cbn. f_equal; lia.
Qed.
End fragment_builder.

(** ** Texts *)

Record RopeBuilder := mkRopeBuilder {
  old_visible_cursor : RopeOps.RopeCursor;
  old_deleted_cursor : RopeOps.RopeCursor;
  new_visible : Rope;
  new_deleted : Rope }.

Module RopeBuilderOps.
Implicit Types (b : RopeBuilder).

Definition new (old_visible_cursor old_deleted_cursor : RopeOps.RopeCursor) : RopeBuilder :=
  mkRopeBuilder old_visible_cursor old_deleted_cursor RopeOps.new RopeOps.new.

(** The text of the next [len] bytes of one of the old texts. *)
Definition take_text b (len : N) (was_visible : bool) : option (Rope * RopeBuilder) :=
  if was_visible then
    '(text, c) ← RopeOps.slice_cursor (old_visible_cursor b) (RopeOps.offset (old_visible_cursor b) + len);
    Some (text, mkRopeBuilder c (old_deleted_cursor b) (new_visible b) (new_deleted b))
  else
    '(text, c) ← RopeOps.slice_cursor (old_deleted_cursor b) (RopeOps.offset (old_deleted_cursor b) + len);
    Some (text, mkRopeBuilder (old_visible_cursor b) c (new_visible b) (new_deleted b)).

Definition push b (len : N) (was_visible is_visible : bool) : option RopeBuilder :=
  '(text, b) ← take_text b len was_visible;
  if is_visible then
    v ← RopeOps.append (new_visible b) text;
    Some (mkRopeBuilder (old_visible_cursor b) (old_deleted_cursor b) v (new_deleted b))
  else
    d ← RopeOps.append (new_deleted b) text;
    Some (mkRopeBuilder (old_visible_cursor b) (old_deleted_cursor b) (new_visible b) d).

Definition append b (len : FragmentTextSummary) : option RopeBuilder :=
  b ← push b (tvisible len) true true; push b (tdeleted len) false false.

(** With the debug assertion that fragments are not empty. *)
Definition push_fragment b (fragment : Fragment) (was_visible : bool) : option RopeBuilder :=
  if 0 <? flen fragment then push b (flen fragment) was_visible (visible fragment) else None.

Definition push_str b (text : str) : option RopeBuilder :=
  v ← RopeOps.push (new_visible b) text;
  Some (mkRopeBuilder (old_visible_cursor b) (old_deleted_cursor b) v (new_deleted b)).

Definition finish b : option (Rope * Rope) :=
  vs ← RopeOps.suffix_cursor (old_visible_cursor b);
  v ← RopeOps.append (new_visible b) vs;
  ds ← RopeOps.suffix_cursor (old_deleted_cursor b);
  d ← RopeOps.append (new_deleted b) ds;
  Some (v, d).

End RopeBuilderOps.

Section rope_builder.
Implicit Types (r : Rope) (a m d s : str) (b : RopeBuilder) (x y n : list (bool * str)).

(** A text cut in strips that are visible or not. *)
Definition side (w : bool) x : str := mjoin (snd <$> filter (λ p, p.1 = w) x).

Lemma side_nil w : side w [] = [].
Proof. done. Qed.

Lemma side_app w x y : side w (x ++ y) = side w x ++ side w y.
Proof. unfold side. by rewrite filter_app, fmap_app, join_app. Qed.

Lemma side_cons w v m x : side w ((v, m) :: x) = (if Bool.eqb v w then m else []) ++ side w x.
Proof. unfold side. rewrite filter_cons. cbn [fst]. by destruct v, w. Qed.

Lemma side_one w v m : side w [(v, m)] = if Bool.eqb v w then m else [].
Proof. by rewrite side_cons, app_nil_r. Qed.

(** The ropes that slicing makes fit the stacks of the cursors. *)
Record sliceable r : Prop := {
  sl_shallow : shallow r;
  sl_middle c a m d : RopeOps.rope c = r → rcursor_at c a (m ++ d) →
    lowb (middle c (Str.length_utf8 (a ++ m))) = true;
  sl_slice c a m d q c' : RopeOps.rope c = r → rcursor_at c a (m ++ d) →
    RopeOps.slice_cursor c (Str.length_utf8 (a ++ m)) = Some (q, c') → shallow q }.

Lemma sliceable_slice r c a m d : sliceable r → RopeOps.rope c = r → rcursor_at c a (m ++ d) →
  returns (RopeOps.slice_cursor c (RopeOps.offset c + Str.length_utf8 m)) (λ '(q, c'),
    rope_ok q ∧ shallow q ∧ rope_text q = m ∧ RopeOps.rope c' = r ∧ rcursor_at c' (a ++ m) d).
Proof.
  intros Hs Hr Hc. rewrite (rc_offset _ _ _ Hc), <- length_utf8_app.
  destruct (slice_cursor_ok c a m d Hc) as ([q c'] & E & Hq & Ht & Hr' & Hc'); [by eapply sl_middle|].
  rewrite E. apply returns_ret. split_and!; [done| |done|congruence|done]. by eapply sl_slice.
Qed.

Variables (rv rd : Rope).

(** The builder has read the strips [x], has the strips [y] ahead, and has
    written the strips [n]. *)
Record holds_texts b x y n : Prop := {
  ht_visible : RopeOps.rope (old_visible_cursor b) = rv;
  ht_deleted : RopeOps.rope (old_deleted_cursor b) = rd;
  ht_visible_at : rcursor_at (old_visible_cursor b) (side true x) (side true y);
  ht_deleted_at : rcursor_at (old_deleted_cursor b) (side false x) (side false y);
  ht_new_visible : rope_ok (new_visible b) ∧ rope_text (new_visible b) = side true n;
  ht_new_deleted : rope_ok (new_deleted b) ∧ rope_text (new_deleted b) = side false n }.

Lemma holds_texts_side b x y n x' y' n' : holds_texts b x y n →
  (∀ w, side w x = side w x') → (∀ w, side w y = side w y') → (∀ w, side w n = side w n') → holds_texts b x' y' n'.
Proof. intros [] Hx Hy Hn. rewrite !Hx, !Hy, !Hn in *. by split. Qed.

Hypothesis (Hv : sliceable rv) (Hd : sliceable rd).

Lemma rope_builder_new y : rope_ok rv → rope_ok rd → rope_text rv = side true y → rope_text rd = side false y →
  returns (v ← RopeOps.cursor rv 0; d ← RopeOps.cursor rd 0; Some (RopeBuilderOps.new v d))
    (λ b, holds_texts b [] y []).
Proof.
  intros Hrv Hrd Htv Htd.
  destruct (cursor_ok rv [] (side true y) Hrv (sl_shallow _ Hv) Htv) as (c & E & Hc & Hat).
  destruct (cursor_ok rd [] (side false y) Hrd (sl_shallow _ Hd) Htd) as (c' & E' & Hc' & Hat').
  cbn [Str.length_utf8] in E, E'. rewrite E. cbn [mbind option_bind]. rewrite E'. apply returns_ret.
  destruct new_rope_ok as [? ?]. by split.
Qed.

Lemma take_text_ok b x y n m w : holds_texts b x ((w, m) :: y) n →
  returns (RopeBuilderOps.take_text b (Str.length_utf8 m) w) (λ '(q, b'),
    rope_ok q ∧ shallow q ∧ rope_text q = m ∧ holds_texts b' (x ++ [(w, m)]) y n).
Proof.
  intros [Hrv Hrd Hav Had Hnv Hnd]. rewrite !side_cons in *. unfold RopeBuilderOps.take_text.
  destruct w; cbn [Bool.eqb app] in *.
  - destruct (sliceable_slice rv _ _ _ _ Hv Hrv Hav) as ([q c] & -> & Hq & Hs & Ht & Hr & Hc).
    cbn [mbind option_bind]. apply returns_ret. split_and!; [done..|].
    split; cbn; rewrite ?side_app, ?side_one; cbn [Bool.eqb]; rewrite ?app_nil_r; done.
  - destruct (sliceable_slice rd _ _ _ _ Hd Hrd Had) as ([q c] & -> & Hq & Hs & Ht & Hr & Hc).
    cbn [mbind option_bind]. apply returns_ret. split_and!; [done..|].
    split; cbn; rewrite ?side_app, ?side_one; cbn [Bool.eqb]; rewrite ?app_nil_r; done.
Qed.

Lemma rope_builder_push b x y n m w v : holds_texts b x ((w, m) :: y) n →
  returns (RopeBuilderOps.push b (Str.length_utf8 m) w v) (λ b', holds_texts b' (x ++ [(w, m)]) y (n ++ [(v, m)])).
Proof.
  intros Hb. unfold RopeBuilderOps.push. eapply returns_bind; [by apply (take_text_ok b x y n)|].
  intros [q b1] (Hq & Hs & <- & [Hrv Hrd Hav Had [Hnv Htv] [Hnd Htd]]). destruct v.
  - destruct (rope_append_ok (new_visible b1) q Hnv Hq Hs) as (r & -> & Hr & Ht).
    cbn [mbind option_bind]. apply returns_ret.
    split; cbn; rewrite ?(side_app _ n), ?side_one; cbn [Bool.eqb]; rewrite ?app_nil_r; try done.
    split; [done|]. by rewrite Ht, Htv.
  - destruct (rope_append_ok (new_deleted b1) q Hnd Hq Hs) as (r & -> & Hr & Ht).
    cbn [mbind option_bind]. apply returns_ret.
    split; cbn; rewrite ?(side_app _ n), ?side_one; cbn [Bool.eqb]; rewrite ?app_nil_r; try done.
    split; [done|]. by rewrite Ht, Htd.
Qed.

Lemma rope_builder_append b x y z n : holds_texts b x (y ++ z) n →
  returns (RopeBuilderOps.append b (mkFragmentText (Str.length_utf8 (side true y)) (Str.length_utf8 (side false y))))
    (λ b', holds_texts b' (x ++ y) z (n ++ y)).
Proof.
  intros Hb. unfold RopeBuilderOps.append. cbn [tvisible tdeleted].
  set (p := [(true, side true y); (false, side false y)]).
  assert (∀ w, side w y = side w p) as Hp.
  { intros w. unfold p. rewrite !side_cons, side_nil. destruct w; cbn [Bool.eqb app]; by rewrite ?app_nil_r. }
  assert (holds_texts b x (p ++ z) n) as Hb1.
  { eapply holds_texts_side; [done..| |done]. intros w. by rewrite !side_app, Hp. }
  eapply returns_bind; [by apply (rope_builder_push b x (tail p ++ z) n _ _ true)|]. intros b1 Hb2.
  eapply returns_mono; [by apply (rope_builder_push b1 (x ++ [(true, side true y)]) z (n ++ [(true, side true y)]) _ _ false)|].
  intros b2 Hb3.
  assert (∀ w k, side w ((k ++ [(true, side true y)]) ++ [(false, side false y)]) = side w (k ++ y)) as Hk.
  { intros w k. rewrite <- app_assoc, (side_app w k y), (side_app w k). f_equal. symmetry. apply Hp. }
  eapply holds_texts_side; [exact Hb3| |done|]; intros w; apply Hk.
Qed.

Lemma rope_builder_str b x y n s : holds_texts b x y n → scalars s →
  returns (RopeBuilderOps.push_str b s) (λ b', holds_texts b' x y (n ++ [(true, s)])).
Proof.
  intros [Hrv Hrd Hav Had [Hnv Htv] Hnd] Hs. unfold RopeBuilderOps.push_str.
  destruct (rope_push_ok (new_visible b) s Hnv Hs) as (r & -> & Hr & Ht). cbn [mbind option_bind].
  apply returns_ret. split; cbn; rewrite ?side_app, ?side_one; cbn [Bool.eqb]; rewrite ?app_nil_r; try done.
  split; [done|]. by rewrite Ht, Htv.
Qed.

Lemma suffix_text_ok c a d r : sliceable r → RopeOps.rope c = r → rcursor_at c a d →
  returns (RopeOps.suffix_cursor c) (λ q, rope_ok q ∧ shallow q ∧ rope_text q = d).
Proof.
  intros Hs Hr Hc. unfold RopeOps.suffix_cursor. pose proof (rc_text _ _ _ Hc) as Ht.
  assert (RopeOps.len (RopeOps.rope c) = RopeOps.offset c + Str.length_utf8 d) as ->.
  { rewrite rope_len by apply Hc. by rewrite Ht, length_utf8_app, (rc_offset _ _ _ Hc). }
  rewrite <- (app_nil_r d) in Hc. eapply returns_fmap, returns_mono; [by eapply sliceable_slice|].
  by intros [q c'] (? & ? & ? & _).
Qed.

Lemma rope_builder_finish b x y n : holds_texts b x y n →
  returns (RopeBuilderOps.finish b) (λ '(v, d),
    rope_ok v ∧ rope_text v = side true (n ++ y) ∧ rope_ok d ∧ rope_text d = side false (n ++ y)).
Proof.
  intros [Hrv Hrd Hav Had [Hnv Htv] [Hnd Htd]]. unfold RopeBuilderOps.finish.
  destruct (suffix_text_ok _ _ _ rv Hv Hrv Hav) as (q & -> & Hq & Hqs & Hqt). cbn [mbind option_bind].
  destruct (rope_append_ok (new_visible b) q Hnv Hq Hqs) as (v & -> & Hv' & Hvt). cbn [mbind option_bind].
  destruct (suffix_text_ok _ _ _ rd Hd Hrd Had) as (q' & -> & Hq' & Hqs' & Hqt'). cbn [mbind option_bind].
  destruct (rope_append_ok (new_deleted b) q' Hnd Hq' Hqs') as (d & -> & Hd' & Hdt). cbn [mbind option_bind].
  apply returns_ret. rewrite !side_app, Hvt, Hdt, Htv, Htd, Hqt, Hqt'. done.
Qed.
End rope_builder.

(** ** Ropes of one chunk *)

Lemma push_slice_new_low o q : RopeOps.push_slice RopeOps.new o = Some q → shallow q.
Proof.
  destruct o as [c|]; cbn [RopeOps.push_slice]; [|intros [= <-]; apply Nat.ltb_lt; reflexivity].
  unfold RopeOps.push_chunk. destruct (RopeOps.update_last_chunk _ _ _) as [[r c']|] eqn:E; [|done].
  cbn [mbind option_bind]. 
  assert (r = RopeOps.new) as ->. { revert E. unfold RopeOps.update_last_chunk. cbv. congruence. }
  destruct (ChunkOps.is_empty c'); [intros [= <-]; apply Nat.ltb_lt; reflexivity|].
  destruct (ChunkOps.into_chunk c') as [p|]; [|done]. cbn [mbind option_bind].
  destruct (Rope.seal p) as [p'|]; [|done]. cbn [mbind option_bind]. intros [= <-]. apply Nat.ltb_lt. reflexivity.
Qed.

Lemma single_sliceable r : rope_ok r → shallow r → (length (tree_items (chunks r)) <= 1)%nat → sliceable r.
Proof.
  intros Hok Hsh Hone. split; [done| |].
  - intros c a m d <- Hc. destruct Hc as [_ _ Ht _ (b & k & Hi & Hat & _)]. unfold middle.
    destruct (next_from_ok () (RopeOps.cchunks c) _ Hat) as (cs & -> & Hcs & Hat'); [by rewrite Ht|]. cbn [mbind option_bind].
    assert (ahead (RopeOps.cchunks c) (spot_of b k) = (tree_items (tree cs), [])) as Ea.
    { rewrite Hcs, Ht, Hi. destruct k as [|x k]; cbn [spot_of ahead]; [by rewrite Ht, Hi|].
      rewrite Hi, length_app in Hone. cbn [length] in Hone. destruct b, k; cbn in Hone; done || lia. }
    rewrite Ea in Hat'. cbn [fst snd spot_of] in Hat'.
    assert (ready () cs Past) as Hr by (split_and!; [done|done|by rewrite Hcs, Ht]).
    destruct (N.compare (Str.length_utf8 (a ++ m)) (position cs)) eqn:E.
    3: destruct (slice_ok () (N.compare (Str.length_utf8 (a ++ m))) BiasRight cs Past Hr) as ([t cs'] & -> & Hres); [by rewrite E|apply offset_monotone|].
    2: { unfold CursorOps.slice, CursorOps.seek_internal. by rewrite E. }
    destruct (slice_ok () (N.compare (Str.length_utf8 (a ++ m))) BiasRight cs Past Hr) as ([t cs'] & -> & Hres); [by rewrite E|apply offset_monotone|].
    all: cbn [spot_start spot_rest seek_split] in Hres; destruct Hres as ([->|(h & Hwf)] & Hti & _); [reflexivity|by apply wf_items in Hwf].
  - intros c a m d q c' <- Hc Hq. unfold RopeOps.slice_cursor in Hq. rewrite (in_bounds_ok c a m d Hc) in Hq.
    destruct (start_slice_ok c a m d Hc) as (m1 & m2 & o & e & -> & Hs & Ho & Hend & Hcase). rewrite Hs in Hq. cbn [mbind option_bind] in Hq.
    destruct (RopeOps.push_slice RopeOps.new o) as [q'|] eqn:Eq; [|done]. cbn [mbind option_bind] in Hq. rewrite Hend in Hq. cbn [mbind option_bind] in Hq.
    destruct Hcase as [(_ & E & _)|(Hne & _ & b & x & k & Hi & _ & Hk & _)].
    + rewrite E in Hq. injection Hq as <- _. by eapply push_slice_new_low.
    + rewrite Hi, length_app in Hone. cbn [length] in Hone. destruct k; [|cbn in Hone; lia]. by destruct m2.
Qed.
