(* ===== verification/Snapshot.v ===== *)
(** * Snapshots of a buffer and how an edit rebuilds them, of [crates/text/src/text.rs]

    A [BufferSnapshot] keeps the visible and the deleted text in two ropes, and
    the fragments that say how they interleave. This file has the record, its
    invariant, and the steps by which edits build the next snapshot: pieces of
    fragments, whole subtrees and new text are appended one after the other. *)

From stdpp Require Import sets relations.
From S2P Require Import Prelude Clock Locator SumTree SumCursor CursorSpec KeyedTree TreeMap UndoMap Text Rope RopeText LineEnding Fragment Builders.
Import TreeOps.

#[local] Unset Default Proof Using.
#[local] Arguments Nat.mul : simpl never.
#[local] Open Scope N_scope.
#[local] Existing Instance LamportOps.cmp_total.

(** ** Data *)

Record BufferSnapshot := mkSnapshot {
  visible_text : Rope;
  deleted_text : Rope;
  fragments : Node Fragment FragmentSummary;
  insertions : Node InsertionFragment InsertionFragmentKey;
  insertion_slices : TreeSet InsertionSlice;
  undo_map : UndoMap;
  sversion : Global;
  remote_id : N;
  sreplica_id : ReplicaId;
  line_ending : LineEnding }.

(** What an edit collects for the next snapshot: the variables [new_fragments],
    [new_ropes], [new_insertions], [insertion_slices] and [insertion_offset]. *)
Record Building := mkBuilding {
  new_fragments : FragmentBuilder;
  new_ropes : RopeBuilder;
  new_insertions : list (KeyedTree.Edit InsertionFragment InsertionFragmentKey);
  new_slices : list InsertionSlice;
  next_offset : N }.

Module BuildingOps.
Implicit Types (bd : Building) (fragment : Fragment).

(** [new_insertions.push(..); new_ropes.push_fragment(..); new_fragments.push(..)] *)
Definition push_part bd fragment (was_visible : bool) : option Building :=
  ropes ← RopeBuilderOps.push_fragment (new_ropes bd) fragment was_visible;
  Some (mkBuilding (FragmentBuilderOps.push (new_fragments bd) fragment None) ropes
    (new_insertions bd ++ [FragmentOps.insert_new fragment]) (new_slices bd) (next_offset bd)).

(** [insertion_slices.push(InsertionSlice::from_fragment(timestamp, ..))] *)
Definition push_slice bd (timestamp : Lamport) fragment : Building :=
  mkBuilding (new_fragments bd) (new_ropes bd) (new_insertions bd)
    (new_slices bd ++ [FragmentOps.insertion_slice timestamp fragment]) (next_offset bd).

(** [new_ropes.append(slice.summary().text); new_fragments.append(slice, ..)] *)
Definition append_slice bd (slice : Node Fragment FragmentSummary) : option Building :=
  ropes ← RopeBuilderOps.append (new_ropes bd) (ftext (NodeOps.summary slice));
  Some (mkBuilding (FragmentBuilderOps.append (new_fragments bd) slice None) ropes
    (new_insertions bd) (new_slices bd) (next_offset bd)).

(** A copy of [fragment], cut to the bytes from [from_] to [to_]; it starts at
    [base]. *)
Definition cut fragment (from_ to_ base : N) : option Fragment :=
  len ← usize_sub to_ from_;
  skipped ← usize_sub from_ base;
  Some (mkFragment (fid fragment) (stamp fragment) (insertion_offset fragment +u32 as_u32 skipped) (as_u32 len)
    (visible fragment) (deletions fragment) (max_undos fragment)).

Definition with_id fragment (id : Locator) : Fragment :=
  mkFragment id (stamp fragment) (insertion_offset fragment) (flen fragment) (visible fragment)
    (deletions fragment) (max_undos fragment).

(** [fragment.deletions.push(timestamp); fragment.visible = false] *)
Definition deleted fragment (timestamp : Lamport) : Fragment :=
  mkFragment (fid fragment) (stamp fragment) (insertion_offset fragment) (flen fragment) false
    (deletions fragment ++ [timestamp]) (max_undos fragment).

Definition max_id bd : Locator := Fragment.max_id (FragmentBuilderOps.summary (new_fragments bd)).

Section insertion.
Variable MAX_INSERTION_LEN : N.

Fixpoint insertion_loop (fuel : nat) (new_text : str) (timestamp : Lamport) (next_fragment_id : Locator)
    (edit_timestamp : Lamport) (text_offset : N) bd : option Building :=
  match fuel with
  | O => None
  | Datatypes.S fuel =>
      if text_offset <? Str.length_utf8 new_text then
        let target_end := N.min (Str.length_utf8 new_text) (text_offset + MAX_INSERTION_LEN) in
        let chunk_end := if target_end =? Str.length_utf8 new_text then target_end
                         else Str.floor_char_boundary new_text target_end in
        if chunk_end =? text_offset then Some bd
        else
          chunk_len ← usize_sub chunk_end text_offset;
          let fragment := mkFragment (LocatorOps.between (max_id bd) next_fragment_id) timestamp
            (next_offset bd) (as_u32 chunk_len) true [] GlobalOps.new in
          insertion_loop fuel new_text timestamp next_fragment_id edit_timestamp chunk_end
            (mkBuilding (FragmentBuilderOps.push (new_fragments bd) fragment None) (new_ropes bd)
              (new_insertions bd ++ [FragmentOps.insert_new fragment])
              (new_slices bd ++ [FragmentOps.insertion_slice edit_timestamp fragment])
              (next_offset bd +u32 as_u32 chunk_len))
      else Some bd
  end.

Definition push_fragments_for_insertion (new_text : str) (timestamp : Lamport) (next_fragment_id : Locator)
    (edit_timestamp : Lamport) bd : option Building :=
  bd ← insertion_loop (Datatypes.S (length new_text)) new_text timestamp next_fragment_id edit_timestamp 0 bd;
  ropes ← RopeBuilderOps.push_str (new_ropes bd) new_text;
  Some (mkBuilding (new_fragments bd) ropes (new_insertions bd) (new_slices bd) (next_offset bd)).

End insertion.

(** The end of an edit: what has been collected becomes the snapshot. The
    batch of insertions is sorted by an unstable sort, and so are the slices. *)
Definition finish (sort_insertions : list (KeyedTree.Edit InsertionFragment InsertionFragmentKey) → _)
    (sort_slices : list (KeyedTree.Edit (MapEntry InsertionSlice ()) (MapKey InsertionSlice)) → _)
    (s : BufferSnapshot) bd : option BufferSnapshot :=
  '(visible_text, deleted_text) ← RopeBuilderOps.finish (new_ropes bd);
  fragments ← FragmentBuilderOps.to_sum_tree (new_fragments bd) None;
  '(insertions, _) ← KeyedOps.edit insertion_key_cmp () sort_insertions (insertions s) (new_insertions bd);
  slices ← TreeSetOps.extend insertion_slice_cmp sort_slices (insertion_slices s) (new_slices bd);
  Some (mkSnapshot visible_text deleted_text fragments insertions slices (undo_map s) (sversion s)
    (remote_id s) (sreplica_id s) (line_ending s)).

End BuildingOps.

(** ** Parts: fragments with their texts *)

Abbreviation part := (Fragment * str)%type.

Section parts.
Implicit Types (p : part) (ps : list part) (f : Fragment) (s m : str).

Definition strips ps : list (bool * str) := (λ p, (visible p.1, p.2)) <$> ps.

Lemma strips_app ps qs : strips (ps ++ qs) = strips ps ++ strips qs.
Proof. apply fmap_app. Qed.

(** The bytes of the insertion [t], from [from_] on. *)
Definition units_of (t : Lamport) (from_ n : N) : list (Lamport * N) :=
  (λ i, (t, from_ + N.of_nat i)) <$> seq 0 (N.to_nat n).

Lemma units_of_add t o n k : units_of t o (n + k) = units_of t o n ++ units_of t (o + n) k.
Proof.
  unfold units_of. rewrite N2Nat.inj_add, seq_app, fmap_app. f_equal.
  rewrite Nat.add_0_l. replace (N.to_nat n) with (N.to_nat n + 0)%nat at 1 by lia.
  rewrite <- fmap_add_seq, <- list_fmap_compose. apply list_fmap_ext. intros _ i _.
  unfold compose. rewrite Nat2N.inj_add, N2Nat.id. by rewrite N.add_assoc.
Qed.

Lemma elem_of_units_of t o n x : x ∈ units_of t o n ↔ x.1 = t ∧ o <= x.2 < o + n.
Proof.
  unfold units_of. rewrite list_elem_of_fmap. split.
  - intros (i & -> & Hi). apply elem_of_seq in Hi. cbn [fst snd]. split; [done|lia].
  - destruct x as [t' i]. cbn [fst snd]. intros [-> Hi]. exists (N.to_nat (i - o)). rewrite elem_of_seq. split; [f_equal|]; lia.
Qed.

Definition punits p : list (Lamport * N) := units_of (stamp p.1) (insertion_offset p.1) (Str.length_utf8 p.2).
Definition units ps : list (Lamport * N) := mjoin (punits <$> ps).

Lemma units_app ps qs : units (ps ++ qs) = units ps ++ units qs.
Proof. unfold units. by rewrite fmap_app, join_app. Qed.

Lemma units_cons p ps : units (p :: ps) = punits p ++ units ps.
Proof. done. Qed.

Lemma units_one p : units [p] = punits p.
Proof. apply app_nil_r. Qed.

(** The first unit of a fragment, which is its key in the insertions. *)
Definition ukey_of f : Lamport * N := (stamp f, insertion_offset f).

Definition id_lt f g : Prop := LocatorOps.cmp (fid f) (fid g) = Lt.

Record part_ok p : Prop := {
  po_len : flen p.1 = Str.length_utf8 p.2;
  po_nonempty : p.2 ≠ [];
  po_fits : insertion_offset p.1 + flen p.1 < u32_modulus;
  po_id : locator_ok (fid p.1);
  po_max : LocatorOps.cmp (fid p.1) LocatorOps.max = Lt;
  po_clean : clean p.2 }.

Lemma first_unit p : p.2 ≠ [] → ukey_of p.1 ∈ punits p.
Proof.
  intros Hp. apply elem_of_units_of. cbn [fst snd ukey_of]. split; [done|].
  assert (Str.length_utf8 p.2 ≠ 0) by (by rewrite length_utf8_zero). lia.
Qed.

Lemma keys_NoDup ps : Forall part_ok ps → NoDup (units ps) → NoDup (ukey_of <$> ps.*1).
Proof.
  induction 1 as [|p ps Hp Hps IH]; [constructor|]. rewrite units_cons. intros (_ & Hd & Hn)%NoDup_app.
  cbn [fmap list_fmap]. constructor; [|by apply IH]. rewrite list_elem_of_fmap. intros (f & Ef & Hf).
  apply list_elem_of_fmap in Hf as (q & -> & Hq). eapply Hd; [apply first_unit, Hp|].
  apply list_elem_of_join. exists (punits q). split; [|by apply list_elem_of_fmap_2].
  rewrite Ef. apply first_unit. rewrite Forall_forall in Hps. by apply Hps.
Qed.

(** An edit [e] that made or deleted the fragment has a slice that covers it;
    the base text was not made by an edit. *)
Definition covered (slices : list InsertionSlice) f : Prop :=
  ∀ e, e ∈ stamp f :: deletions f → e ≠ base_stamp →
    ∃ x, x ∈ slices ∧ slice_edit x = e ∧ slice_insertion x = stamp f ∧
      start (srange x) <= insertion_offset f ∧ insertion_offset f + flen f <= stop (srange x).

Lemma covered_mono sl sl' f : (∀ x, x ∈ sl → x ∈ sl') → covered sl f → covered sl' f.
Proof. intros Hsl Hf e He Hb. destruct (Hf e He Hb) as (x & Hx & ?). exists x. auto. Qed.

Lemma slice_of_edit t f : slice_edit (FragmentOps.insertion_slice t f) = t.
Proof. by destruct t. Qed.
Lemma slice_of_insertion t f : slice_insertion (FragmentOps.insertion_slice t f) = stamp f.
Proof. cbn. unfold slice_insertion. cbn. by destruct (stamp f). Qed.
End parts.
