(* ===== verification/Cells.v ===== *)
(** * The replicated text, character by character

    The fragments of a buffer split and merge nothing that a user can see. Below
    them is a list of characters ([Cell]), each with the insertion that made it
    and the edits that deleted it. This file has the list that the parts of a
    snapshot stand for, and what an edit means on it ([integrate]): the
    reference for [apply_local_edit] and [apply_remote_edit] of
    [crates/text/src/text.rs]. *)

From stdpp Require Import gmap sets.
From S2P Require Import Prelude Clock Text Fragment Snapshot.

#[local] Unset Default Proof Using.
#[local] Open Scope N_scope.
#[local] Existing Instance LamportOps.cmp_total.

Record Cell := mkCell {
  cstamp : Lamport;
  coffset : N;
  cchar : N;
  cmarks : gset Lamport }.

#[export] Instance Cell_eq_dec : EqDecision Cell.
Proof. solve_decision. Defined.

(** ** The cells of a text *)

Section cells.
Implicit Types (t : Lamport) (ds : gset Lamport) (o : N) (s m : str) (f : Fragment) (p : part) (ps : list part).

Fixpoint text_cells t ds o s : list Cell :=
  match s with [] => [] | c :: s => mkCell t o c ds :: text_cells t ds (o + Str.len_utf8 c) s end.

Lemma text_cells_app t ds o s m : text_cells t ds o (s ++ m) = text_cells t ds o s ++ text_cells t ds (o + Str.length_utf8 s) m.
Proof.
  revert o. induction s as [|c s IH]; intros o; cbn [app text_cells Str.length_utf8]; [by rewrite N.add_0_r|].
  rewrite IH. by rewrite N.add_assoc.
Qed.

Lemma text_cells_length t ds o s : length (text_cells t ds o s) = length s.
Proof. revert o. induction s as [|c s IH]; intros o; [done|]. cbn [text_cells length]. by rewrite IH. Qed.

Lemma text_cells_nil t ds o s : text_cells t ds o s = [] → s = [].
Proof. by destruct s. Qed.

(** Where the cells are cut, the text is. *)
Lemma text_cells_split t ds o s g r : text_cells t ds o s = g ++ r →
  ∃ m w, s = m ++ w ∧ g = text_cells t ds o m ∧ r = text_cells t ds (o + Str.length_utf8 m) w.
Proof.
  revert o s. induction g as [|c g IH]; intros o s; cbn [app].
  { intros <-. exists [], s. cbn. by rewrite N.add_0_r. }
  destruct s as [|x s]; [done|]. cbn [text_cells]. intros [= <- H]. apply IH in H as (m & w & -> & -> & ->).
  exists (x :: m), w. cbn [text_cells Str.length_utf8]. by rewrite N.add_assoc.
Qed.

Definition fragment_marks f : gset Lamport := list_to_set (deletions f).

Definition part_cells p : list Cell := text_cells (stamp p.1) (fragment_marks p.1) (insertion_offset p.1) p.2.
Definition cells ps : list Cell := ps ≫= part_cells.

Lemma cells_app ps qs : cells (ps ++ qs) = cells ps ++ cells qs.
Proof. apply bind_app. Qed.

Lemma cells_cons p ps : cells (p :: ps) = part_cells p ++ cells ps.
Proof. done. Qed.

Lemma cells_one p : cells [p] = part_cells p.
Proof. apply app_nil_r. Qed.

Lemma elem_of_text_cells t ds o s c : c ∈ text_cells t ds o s → cstamp c = t ∧ cmarks c = ds.
Proof.
  revert o. induction s as [|x s IH]; intros o; cbn [text_cells]; [by intros ?%elem_of_nil|].
  intros [->|Hc]%elem_of_cons; [done|by eapply IH].
Qed.

Lemma elem_of_cells ps c : c ∈ cells ps → ∃ f, f ∈ ps.*1 ∧ cstamp c = stamp f ∧ cmarks c = fragment_marks f.
Proof.
  unfold cells. rewrite list_elem_of_bind. intros (p & [E1 E2]%elem_of_text_cells & Hp). exists p.1.
  split; [by apply list_elem_of_fmap_2|done].
Qed.
End cells.

(** ** What a replica shows *)

Section shown.
Implicit Types (u : Lamport → bool) (c : Cell) (cs : list Cell).

(** The insertion is not undone, and all deletions are. *)
Definition cell_shows u c : bool := negb (u (cstamp c)) && bool_decide (set_Forall (λ d, u d = true) (cmarks c)).

Definition cell_text u cs : str := cchar <$> filter (λ c, cell_shows u c = true) cs.

Lemma cell_text_app u cs ds : cell_text u (cs ++ ds) = cell_text u cs ++ cell_text u ds.
Proof. unfold cell_text. by rewrite filter_app, fmap_app. Qed.

Lemma cell_shows_ext u v c : (∀ t, u t = v t) → cell_shows u c = cell_shows v c.
Proof.
  intros H. unfold cell_shows. rewrite H. f_equal. apply bool_decide_ext.
  split; intros Hd d Hin; specialize (Hd d Hin); cbn in *; congruence.
Qed.

Lemma cell_text_ext u v cs : (∀ t, u t = v t) → cell_text u cs = cell_text v cs.
Proof. intros H. unfold cell_text. f_equal. apply list_filter_iff. intros c. by rewrite (cell_shows_ext u v c H). Qed.

Lemma marks_forall (P : Lamport → bool) f : bool_decide (set_Forall (λ d, P d = true) (fragment_marks f)) = forallb P (deletions f).
Proof.
  apply eq_true_iff_eq. rewrite bool_decide_eq_true, forallb_forall. unfold set_Forall, fragment_marks. split.
  - intros H d Hd. by apply H, elem_of_list_to_set, list_elem_of_In.
  - intros H d Hd%elem_of_list_to_set%list_elem_of_In. by apply H.
Qed.

Lemma text_cells_text u (t : Lamport) ds (o : N) (s : str) :
  cell_text u (text_cells t ds o s) = if cell_shows u (mkCell t 0 0 ds) then s else [].
Proof.
  unfold cell_text. revert o. induction s as [|c s IH]; intros o; cbn [text_cells]; [by destruct (cell_shows _ _)|].
  rewrite filter_cons. specialize (IH (o + Str.len_utf8 c)). unfold cell_shows in *. cbn [cstamp cmarks] in *.
  destruct (negb (u t) && _); [by rewrite decide_True, fmap_cons, IH by done|by rewrite decide_False, IH by done].
Qed.

Lemma part_cells_text u (p : part) : cell_text u (part_cells p) = if shows u p.1 then p.2 else [].
Proof. unfold part_cells. rewrite text_cells_text. unfold cell_shows, shows. cbn [cstamp cmarks]. by rewrite marks_forall. Qed.
End shown.

(** ** What an edit means *)

Section integrate.
Variable version : Global.
Variable undone_then : Lamport → bool.
Variable timestamp : Lamport.
Implicit Types (c : Cell) (cs g h d : list Cell) (n o k : N).

(** The version at which the edit was made has seen the character. *)
Definition known c : bool := GlobalOps.observed version (cstamp c).

(** The character was visible at that version. *)
Definition was_shown c : bool :=
  known c && negb (undone_then (cstamp c)) &&
  bool_decide (set_Forall (λ e, negb (GlobalOps.observed version e) || undone_then e = true) (cmarks c)).

Definition mark c : Cell := mkCell (cstamp c) (coffset c) (cchar c) ({[timestamp]} ∪ cmarks c).
Definition delete_cell c : Cell := if was_shown c then mark c else c.

(** The bytes that the version has seen. *)
Fixpoint known_width cs : N :=
  match cs with [] => 0 | c :: cs => (if known c then Str.len_utf8 (cchar c) else 0) + known_width cs end.

(** As few cells as have [n] of the bytes seen. *)
Fixpoint take_known n cs : option (list Cell * list Cell) :=
  if n =? 0 then Some ([], cs)
  else match cs with
       | [] => None
       | c :: cs =>
           n ← (if known c then usize_sub n (Str.len_utf8 (cchar c)) else Some n);
           '(g, r) ← take_known n cs;
           Some (c :: g, r)
       end.

Definition newer_cell c : bool := match LamportOps.cmp (cstamp c) timestamp with Gt => true | _ => false end.

Fixpoint take_newer cs : list Cell * list Cell :=
  match cs with
  | c :: cs' => if newer_cell c then let '(h, r) := take_newer cs' in (c :: h, r) else ([], cs)
  | [] => ([], [])
  end.

(** From the offset [o] on: the new text goes behind the last character before
    it that the version has seen, and behind newer concurrent ones; what was
    shown in the range is marked. [k] is the number of bytes inserted so far. *)
Fixpoint integrate_from o k (edits : list (Range N * str)) cs : option (list Cell) :=
  match edits with
  | [] => Some cs
  | (range, text) :: edits =>
      skipped ← usize_sub (start range) o;
      '(g, cs) ← take_known skipped cs;
      let '(h, cs) := take_newer cs in
      width ← usize_sub (stop range) (start range);
      '(d, cs) ← take_known width cs;
      rest ← integrate_from (stop range) (k + Str.length_utf8 text) edits cs;
      Some (g ++ h ++ text_cells timestamp ∅ k text ++ (delete_cell <$> d) ++ rest)
  end.

Definition integrate (edits : list (Range N * str)) cs : option (list Cell) := integrate_from 0 0 edits cs.

(** *** Lemmas *)

Lemma take_known_0 cs : take_known 0 cs = Some ([], cs).
Proof. by destruct cs. Qed.

Lemma known_width_app cs ds : known_width (cs ++ ds) = known_width cs + known_width ds.
Proof. induction cs as [|c cs IH]; cbn [app known_width]; lia. Qed.

Lemma take_known_some n cs g r : take_known n cs = Some (g, r) → cs = g ++ r ∧ known_width g = n.
Proof.
  revert n g. induction cs as [|c cs IH]; intros n g; cbn [take_known]; destruct (N.eqb_spec n 0) as [->|Hn]; try done.
  1, 2: by intros [= <- <-].
  cbn [known_width]. destruct (known c) eqn:Hc; [unfold usize_sub; destruct (N.leb_spec (Str.len_utf8 (cchar c)) n); [|done]|];
    cbn [mbind option_bind].
  - destruct (take_known _ cs) as [[g' r']|] eqn:E; [|done]. intros [= <- <-]. apply IH in E as [-> Hw].
    split; [done|]. cbn [known_width]. rewrite Hc. lia.
  - destruct (take_known n cs) as [[g' r']|] eqn:E; [|done]. intros [= <- <-]. apply IH in E as [-> Hw].
    split; [done|]. cbn [known_width]. by rewrite Hc.
Qed.

Lemma take_known_intro (n : N) g cs : known_width g = n → (∀ g' c, g = g' ++ [c] → known c = true) → take_known n (g ++ cs) = Some (g, cs).
Proof.
  revert n. induction g as [|c g IH]; intros n Hw Hl; cbn [known_width] in Hw; [subst n; apply take_known_0|].
  cbn [app take_known]. assert (n ≠ 0) as Hn.
  { destruct g as [|c' g _] using rev_ind.
    - rewrite (Hl [] c eq_refl) in Hw. pose proof (len_utf8_bounds (cchar c)). lia.
    - rewrite known_width_app in Hw. cbn [known_width] in Hw. rewrite (Hl (c :: g) c' eq_refl) in Hw. pose proof (len_utf8_bounds (cchar c')). lia. }
  destruct (N.eqb_spec n 0); [done|]. assert (∀ g' c', g = g' ++ [c'] → known c' = true) as Hl'.
  { intros g' c' ->. by apply (Hl (c :: g')). }
  destruct (known c); [rewrite usize_sub_le by lia|]; cbn [mbind option_bind]; rewrite IH; (done || lia).
Qed.

(** The search stops inside the cells that have the bytes. *)
Lemma take_known_in n a cs g r : take_known n (a ++ cs) = Some (g, r) → n <= known_width a → ∃ a', a = g ++ a' ∧ r = a' ++ cs.
Proof.
  revert n g. induction a as [|c a IH]; intros n g; cbn [app take_known known_width].
  { intros H Hn. assert (n = 0) as -> by lia. rewrite take_known_0 in H. injection H as <- <-. by exists []. }
  destruct (N.eqb_spec n 0) as [->|Hn]; [intros [= <- <-] _; by exists (c :: a)|]. intros H Hle.
  destruct (if known c then _ else _) as [n'|] eqn:En; [|done]. cbn [mbind option_bind] in H.
  destruct (take_known n' (a ++ cs)) as [[g' r']|] eqn:E; [|done]. injection H as <- <-.
  destruct (IH n' g' E) as (a' & -> & ->); [|by exists a']. destruct (known c); [|injection En as <-; lia].
  unfold usize_sub in En. destruct (N.leb_spec (Str.len_utf8 (cchar c)) n); [|done]. injection En as <-. lia.
Qed.

(** It goes past cells that have fewer, and past seen cells that have as many. *)
Lemma take_known_over n a cs g r : take_known n (a ++ cs) = Some (g, r) →
  known_width a < n ∨ known_width a <= n ∧ Forall (λ c, known c = true) a →
  ∃ g', g = a ++ g' ∧ take_known (n - known_width a) cs = Some (g', r).
Proof.
  revert n g. induction a as [|c a IH]; intros n g H Ha; cbn [known_width app] in *.
  { exists g. by rewrite N.sub_0_r. }
  cbn [take_known] in H. destruct (N.eqb_spec n 0) as [->|Hn].
  { destruct Ha as [|[Hle [Hc _]%Forall_cons]]; [lia|]. rewrite Hc in Hle. pose proof (len_utf8_bounds (cchar c)). lia. }
  destruct (known c) eqn:Hc; [unfold usize_sub in H; destruct (N.leb_spec (Str.len_utf8 (cchar c)) n); [|done]|]; cbn [mbind option_bind] in H.
  - destruct (take_known _ (a ++ cs)) as [[g' r']|] eqn:E; [|done]. injection H as <- <-.
    destruct (IH _ _ E) as (g2 & -> & E2); [destruct Ha as [|[? [_ ?]%Forall_cons]]; [left|right; split; [|done]]; lia|].
    exists g2. split; [done|]. by rewrite N.sub_add_distr.
  - destruct (take_known _ (a ++ cs)) as [[g' r']|] eqn:E; [|done]. injection H as <- <-.
    destruct (IH _ _ E) as (g2 & -> & E2); [destruct Ha as [|[? [? _]%Forall_cons]]; [left; lia|congruence]|].
    exists g2. split; [done|]. by rewrite N.add_0_l.
Qed.

Lemma known_text t ds o s : known_width (text_cells t ds o s) = if GlobalOps.observed version t then Str.length_utf8 s else 0.
Proof.
  revert o. induction s as [|c s IH]; intros o; cbn [text_cells known_width Str.length_utf8]; [by destruct (GlobalOps.observed _ _)|].
  rewrite IH. unfold known. cbn [cstamp cchar]. destruct (GlobalOps.observed _ _); lia.
Qed.

Lemma take_newer_app cs : (take_newer cs).1 ++ (take_newer cs).2 = cs.
Proof.
  induction cs as [|c cs IH]; [done|]. cbn [take_newer]. destruct (newer_cell c); [|done].
  destruct (take_newer cs). cbn in *. by rewrite IH.
Qed.
End integrate.

(** Only the values of what was undone count. *)
Lemma was_shown_ext version (u v : Lamport → bool) (c : Cell) : (∀ t, u t = v t) → was_shown version u c = was_shown version v c.
Proof.
  intros H. unfold was_shown. rewrite H. f_equal. apply bool_decide_ext. split; intros Hs e He; specialize (Hs e He); cbn in *.
  - by rewrite <- H.
  - by rewrite H.
Qed.

Lemma integrate_from_ext version (u v : Lamport → bool) (ts : Lamport) (o k : N) edits (cs : list Cell) : (∀ t, u t = v t) →
  integrate_from version u ts o k edits cs = integrate_from version v ts o k edits cs.
Proof.
  intros H. revert o k cs. induction edits as [|[range text] edits IH]; intros o k cs; [done|]. cbn [integrate_from].
  destruct (usize_sub (start range) o) as [n|]; [|done]. cbn [mbind option_bind].
  destruct (take_known version n cs) as [[g cs1]|]; [|done]. cbn [mbind option_bind]. destruct (take_newer ts cs1) as [h cs2].
  destruct (usize_sub (stop range) (start range)) as [w|]; [|done]. cbn [mbind option_bind].
  destruct (take_known version w cs2) as [[d cs3]|]; [|done]. cbn [mbind option_bind]. rewrite IH.
  destruct (integrate_from _ v _ _ _ edits cs3); [|done]. cbn [mbind option_bind]. do 5 f_equal.
  apply list_fmap_ext. intros _ c _. unfold delete_cell. by rewrite (was_shown_ext version u v).
Qed.

(** ** Replacing ranges *)

(** The bytes of the cells. *)
Definition cells_width (cs : list Cell) : N := Str.length_utf8 (cchar <$> cs).

Lemma cells_width_app cs ds : cells_width (cs ++ ds) = cells_width cs + cells_width ds.
Proof. unfold cells_width. by rewrite fmap_app, length_utf8_app. Qed.

Lemma text_cells_chars (t : Lamport) ds (o : N) (s : str) : cchar <$> text_cells t ds o s = s.
Proof. revert o. induction s as [|c s IH]; intros o; [done|]. cbn [text_cells fmap list_fmap cchar]. by rewrite IH. Qed.

(** The ranges of [edits] are replaced by texts of [ts], all cells counted;
    [del] is done to the cells in the ranges. *)
Inductive spliced (ts : Lamport) (del : Cell → Cell) : N → N → list (Range N * str) → list Cell → list Cell → Prop :=
  | spliced_nil o k cs : spliced ts del o k [] cs cs
  | spliced_cons o k range text edits g d cs z :
      start range = o + cells_width g → stop range = start range + cells_width d →
      spliced ts del (stop range) (k + Str.length_utf8 text) edits cs z →
      spliced ts del o k ((range, text) :: edits) (g ++ d ++ cs) (g ++ text_cells ts ∅ k text ++ (del <$> d) ++ z).

Lemma spliced_prefix ts del o k edits a cs z : spliced ts del (o + cells_width a) k edits cs z →
  spliced ts del o k edits (a ++ cs) (a ++ z).
Proof.
  intros H. inversion H as [o' k' cs' E1 E2 E3|o' k' range text edits' g d cs' z' Hs He Hr E1 E2 E3]; subst; [constructor|].
  rewrite !(app_assoc a). apply spliced_cons; [by rewrite cells_width_app, N.add_assoc|done|done].
Qed.

(** It is [integrate] where everything is known. *)
Lemma spliced_integrate version undone_then ts del o k edits cs z : spliced ts del o k edits cs z →
  Forall (λ c, known version c = true ∧ newer_cell ts c = false ∧ del c = delete_cell version undone_then ts c) cs →
  integrate_from version undone_then ts o k edits cs = Some z.
Proof.
  assert (∀ g, Forall (λ c, known version c = true ∧ newer_cell ts c = false ∧ del c = delete_cell version undone_then ts c) g →
    known_width version g = cells_width g) as Hwidth.
  { intros g. induction 1 as [|c g (Hk & _) _ IH]; [done|]. cbn [known_width]. rewrite Hk, IH. done. }
  assert (∀ g (r : list Cell), Forall (λ c, known version c = true ∧ newer_cell ts c = false ∧ del c = delete_cell version undone_then ts c) g →
    take_known version (cells_width g) (g ++ r) = Some (g, r)) as Htake.
  { intros g r Hg. apply take_known_intro; [by apply Hwidth|]. intros g' c ->. apply Forall_app in Hg as [_ Hc]. by apply Forall_singleton in Hc as (? & _). }
  induction 1 as [|o k range text edits g d cs z Hs He Hr IH]; [done|]. rewrite !Forall_app. intros (Hg & Hd & Hcs).
  cbn [integrate_from].
  assert (usize_sub (start range) o = Some (cells_width g)) as -> by (rewrite usize_sub_le by lia; f_equal; lia). cbn [mbind option_bind]. rewrite Htake by done. cbn [mbind option_bind].
  assert (take_newer ts (d ++ cs) = ([], d ++ cs)) as ->.
  { assert (Forall (λ c, newer_cell ts c = false) (d ++ cs)) as Hn by (apply Forall_app; split; eapply Forall_impl; [exact Hd|by intros c (_ & ? & _)|exact Hcs|by intros c (_ & ? & _)]).
    destruct (d ++ cs) as [|c l]; [done|]. apply Forall_cons in Hn as [Hc _]. cbn [take_newer]. by rewrite Hc. }
  assert (usize_sub (stop range) (start range) = Some (cells_width d)) as -> by (rewrite usize_sub_le by lia; f_equal; lia). cbn [mbind option_bind]. rewrite Htake by done. cbn [mbind option_bind].
  rewrite IH by done. cbn [mbind option_bind app]. do 4 f_equal. symmetry.
  apply list_fmap_ext. intros i c Hi. rewrite Forall_forall in Hd. by apply Hd, list_elem_of_lookup_2 with i.
Qed.
