(* ===== verification/Convergence.v ===== *)
(** * Edits that are concurrent commute

    [integrate] goes through the cells with the rest of the edits. Seen as a
    machine that passes cells and emits texts ([runs]), two such machines can go
    through the same cells one after the other, in either order: the cells that
    one emits are unknown to the other. It follows that replicas which apply the
    same edits, in any orders that respect causality, have the same cells. *)

From stdpp Require Import gmap sets sorting.
From S2P Require Import Prelude Clock Text Fragment Snapshot Cells.

#[local] Unset Default Proof Using.
#[local] Open Scope N_scope.
#[local] Existing Instance LamportOps.cmp_total.

(** ** Operations *)

(** An edit with its version, and with what was undone at that version. *)
Record EditOp := mkEditOp {
  ostamp : Lamport;
  oversion : Global;
  oundone : Lamport → bool;
  oedits : list (Range N * str) }.

Definition integrate_op (op : EditOp) (cs : list Cell) : option (list Cell) :=
  integrate (oversion op) (oundone op) (ostamp op) (oedits op) cs.

(** ** The machine *)

(** What is left to do: go on [n] bytes that are known, go past newer cells and
    then emit a text, or delete [n] bytes. The list has the other edits, each
    with its distance from the one before and its width. *)
Inductive State :=
  | Walk (n width : N) (text : str) (k : N) (rest : list (N * N * str))
  | Skip (width : N) (text : str) (k : N) (rest : list (N * N * str))
  | Delete (n k : N) (rest : list (N * N * str))
  | Done.

Definition walk (n width : N) (text : str) (k : N) rest : State :=
  if n =? 0 then Skip width text k rest else Walk n width text k rest.

Definition proceed (k : N) (rest : list (N * N * str)) : State :=
  match rest with [] => Done | (n, width, text) :: rest => walk n width text k rest end.

Definition delete (n k : N) rest : State := if n =? 0 then proceed k rest else Delete n k rest.

Section machine.
Variable op : EditOp.
Implicit Types (σ : State) (c : Cell) (cs z : list Cell).

#[local] Abbreviation V := (oversion op).
#[local] Abbreviation ts := (ostamp op).
#[local] Abbreviation is_known c := (known V c).

Definition held (head : option Cell) : bool := match head with Some c => newer_cell ts c | None => false end.

(** The text that is emitted before the cell at the head, if there is one. *)
Definition emits σ (head : option Cell) : option (list Cell * State) :=
  match σ with
  | Skip width text k rest =>
      if held head then None
      else Some (text_cells ts ∅ k text, delete width (k + Str.length_utf8 text) rest)
  | _ => None
  end.

(** How a cell is passed, and whether it is deleted. *)
Definition passes σ c : option (bool * State) :=
  if is_known c then
    match σ with
    | Walk n width text k rest => n ← usize_sub n (Str.len_utf8 (cchar c)); Some (false, walk n width text k rest)
    | Delete n k rest => n ← usize_sub n (Str.len_utf8 (cchar c)); Some (was_shown V (oundone op) c, delete n k rest)
    | _ => Some (false, σ)
    end
  else Some (false, σ).

Definition marked (deletes : bool) c : Cell := if deletes then mark ts c else c.

(** The machine makes [z] of [cs] in [n] steps. *)
Inductive runs : nat → State → list Cell → list Cell → Prop :=
  | runs_end : runs 0 Done [] []
  | runs_emit n σ cs t σ' z : emits σ (head cs) = Some (t, σ') → runs n σ' cs z → runs (S n) σ cs (t ++ z)
  | runs_pass n σ c cs b σ' z : emits σ (Some c) = None → passes σ c = Some (b, σ') → runs n σ' cs z →
      runs (S n) σ (c :: cs) (marked b c :: z).

(** *** It does what [integrate] does *)

Fixpoint script (o : N) (edits : list (Range N * str)) : option (list (N * N * str)) :=
  match edits with
  | [] => Some []
  | (range, text) :: edits =>
      n ← usize_sub (start range) o;
      width ← usize_sub (stop range) (start range);
      rest ← script (stop range) edits;
      Some ((n, width, text) :: rest)
  end.

Lemma passes_unknown σ c : is_known c = false → passes σ c = Some (false, σ).
Proof. unfold passes. by intros ->. Qed.

Lemma passes_done c : passes Done c = Some (false, Done).
Proof. unfold passes. by destruct (is_known c). Qed.

Lemma passes_skip (width k : N) text rest c : passes (Skip width text k rest) c = Some (false, Skip width text k rest).
Proof. unfold passes. by destruct (is_known c). Qed.

Lemma unknown_not_shown c : is_known c = false → was_shown V (oundone op) c = false.
Proof. unfold was_shown. by intros ->. Qed.

Lemma runs_done cs : runs (length cs) Done cs cs.
Proof. induction cs as [|c cs IH]; cbn [length]; [constructor|]. by apply (runs_pass _ Done c cs false Done); [|apply passes_done|]. Qed.

Lemma done_runs n cs z : runs n Done cs z → z = cs.
Proof.
  remember Done as σ eqn:E. induction 1 as [|n σ cs t σ' z He _ _|n σ c cs b σ' z He Hp _ IH]; subst; [done..|].
  rewrite passes_done in Hp. injection Hp as <- <-. by rewrite IH.
Qed.

(** The cells before the place, or those of a range: the two states that count. *)
Definition counting (n : N) c (σ : N → State) (b : bool) : option (bool * State) :=
  n ← (if is_known c then usize_sub n (Str.len_utf8 (cchar c)) else Some n); Some (b, σ n).

Lemma passes_walk (n width k : N) text rest c : n ≠ 0 → emits (walk n width text k rest) (Some c) = None ∧
  passes (walk n width text k rest) c = counting n c (λ n, walk n width text k rest) false.
Proof.
  intros Hn. assert (walk n width text k rest = Walk n width text k rest) as E by (unfold walk; by destruct (N.eqb_spec n 0)).
  unfold counting, passes. destruct (is_known c); cbn [mbind option_bind]; by rewrite E.
Qed.

Lemma passes_delete (n k : N) rest c : n ≠ 0 → emits (delete n k rest) (Some c) = None ∧
  passes (delete n k rest) c = counting n c (λ n, delete n k rest) (was_shown V (oundone op) c).
Proof.
  intros Hn. assert (delete n k rest = Delete n k rest) as E by (unfold delete; by destruct (N.eqb_spec n 0)).
  unfold counting, passes. destruct (is_known c) eqn:Hc; cbn [mbind option_bind]; rewrite E; [done|]. by rewrite unknown_not_shown.
Qed.

Lemma walks (n width k : N) text rest cs g r m z : take_known V n cs = Some (g, r) →
  runs m (Skip width text k rest) r z → ∃ m', runs m' (walk n width text k rest) cs (g ++ z).
Proof.
  revert n g. induction cs as [|c cs IH]; intros n g Ht Hr; cbn [take_known] in Ht; destruct (N.eqb_spec n 0) as [->|Hn]; try done;
    try (injection Ht as <- <-; by exists m).
  destruct (if is_known c then _ else _) as [n'|] eqn:Eg in Ht; [|done]. cbn [mbind option_bind] in Ht.
  destruct (take_known V n' cs) as [[g' r']|] eqn:E; [|done]. injection Ht as <- <-.
  destruct (IH n' g' E Hr) as [m' Hm']. exists (S m'). destruct (passes_walk n width k text rest c Hn) as [He Hp].
  apply (runs_pass m' _ c cs false (walk n' width text k rest)); [done|rewrite Hp; unfold counting; by rewrite Eg|done].
Qed.

Lemma deletes (n k : N) rest cs g r m z : take_known V n cs = Some (g, r) → runs m (proceed k rest) r z →
  ∃ m', runs m' (delete n k rest) cs ((delete_cell V (oundone op) ts <$> g) ++ z).
Proof.
  revert n g. induction cs as [|c cs IH]; intros n g Ht Hr; cbn [take_known] in Ht; destruct (N.eqb_spec n 0) as [->|Hn]; try done;
    try (injection Ht as <- <-; by exists m).
  destruct (if is_known c then _ else _) as [n'|] eqn:Eg in Ht; [|done]. cbn [mbind option_bind] in Ht.
  destruct (take_known V n' cs) as [[g' r']|] eqn:E; [|done]. injection Ht as <- <-.
  destruct (IH n' g' E Hr) as [m' Hm']. exists (S m'). destruct (passes_delete n k rest c Hn) as [He Hp].
  apply (runs_pass m' _ c cs _ (delete n' k rest)); [done|rewrite Hp; unfold counting; by rewrite Eg|done].
Qed.

Lemma skips (width k : N) text rest cs m z : runs m (delete width (k + Str.length_utf8 text) rest) (take_newer ts cs).2 z →
  ∃ m', runs m' (Skip width text k rest) cs ((take_newer ts cs).1 ++ text_cells ts ∅ k text ++ z).
Proof.
  induction cs as [|c cs IH]; cbn [take_newer]; intros Hr.
  { exists (S m). exact (runs_emit _ (Skip width text k rest) [] _ (delete width (k + Str.length_utf8 text) rest) z eq_refl Hr). }
  destruct (newer_cell ts c) eqn:Hc.
  - destruct (take_newer ts cs) as [h r]. cbn [fst snd app] in *. destruct (IH Hr) as [m' Hm']. exists (S m').
    apply (runs_pass m' (Skip width text k rest) c cs false (Skip width text k rest)); [cbn; by rewrite Hc|apply passes_skip|done].
  - exists (S m). cbn [fst snd app] in *.
    apply (runs_emit _ (Skip width text k rest) (c :: cs) _ (delete width (k + Str.length_utf8 text) rest)); [|done]. cbn. by rewrite Hc.
Qed.

Lemma integrate_runs (o k : N) edits cs z : integrate_from V (oundone op) ts o k edits cs = Some z →
  ∃ rest n, script o edits = Some rest ∧ runs n (proceed k rest) cs z.
Proof.
  revert o k cs z. induction edits as [|[range text] edits IH]; intros o k cs z H; cbn [integrate_from script] in *.
  { injection H as <-. exists [], (length cs). split; [done|]. apply runs_done. }
  destruct (usize_sub (start range) o) as [n|]; [|done]. cbn [mbind option_bind] in *.
  destruct (take_known V n cs) as [[g cs1]|] eqn:Hg; [|done]. cbn [mbind option_bind] in *.
  pose proof (λ w rest, skips w k text rest cs1) as Hskip. destruct (take_newer ts cs1) as [h cs2] eqn:Hh.
  destruct (usize_sub (stop range) (start range)) as [w|]; [|done]. cbn [mbind option_bind] in *.
  destruct (take_known V w cs2) as [[d cs3]|] eqn:Hd; [|done]. cbn [mbind option_bind] in *.
  destruct (integrate_from _ _ _ _ _ edits cs3) as [y|] eqn:Hy; [|done]. injection H as <-.
  destruct (IH _ _ _ _ Hy) as (rest & m & -> & Hr). cbn [mbind option_bind]. exists ((n, w, text) :: rest).
  destruct (deletes _ _ _ _ _ _ _ _ Hd Hr) as [m1 Hm1].
  destruct (Hskip _ _ _ _ Hm1) as [m2 Hm2]. cbn [fst] in Hm2.
  destruct (walks _ w k text rest _ _ _ _ _ Hg Hm2) as [m3 Hm3]. by exists m3.
Qed.

Lemma walked m (n width k : N) text rest cs z : runs m (walk n width text k rest) cs z →
  ∃ g r m' y, take_known V n cs = Some (g, r) ∧ runs m' (Skip width text k rest) r y ∧ z = g ++ y.
Proof.
  destruct (N.eqb_spec n 0) as [->|Hn]; [intros H; exists [], cs, m, z; by rewrite take_known_0|].
  remember (walk n width text k rest) as σ eqn:Eσ. intros H. revert n Hn Eσ.
  induction H as [|m σ cs t σ' z He _ _|m σ c cs b σ' z He Hp Hr IH]; intros n Hn Eσ.
  - unfold walk in Eσ. by destruct (N.eqb_spec n 0).
  - subst. unfold walk in He. by destruct (N.eqb_spec n 0).
  - subst. rewrite (proj2 (passes_walk n width k text rest c Hn)) in Hp. unfold counting in Hp. cbn [take_known].
    destruct (N.eqb_spec n 0); [done|]. destruct (if is_known c then _ else _) as [n'|]; [|done]. injection Hp as <- <-.
    cbn [mbind option_bind]. destruct (N.eqb_spec n' 0) as [->|Hn'].
    + exists [c], cs, m, z. by rewrite take_known_0.
    + destruct (IH n' Hn' eq_refl) as (g & r & m' & y & -> & Hy & ->). by exists (c :: g), r, m', y.
Qed.

Lemma deleted m (n k : N) rest cs z : runs m (delete n k rest) cs z →
  ∃ g r m' y, take_known V n cs = Some (g, r) ∧ runs m' (proceed k rest) r y ∧ z = (delete_cell V (oundone op) ts <$> g) ++ y.
Proof.
  destruct (N.eqb_spec n 0) as [->|Hn]; [intros H; exists [], cs, m, z; by rewrite take_known_0|].
  remember (delete n k rest) as σ eqn:Eσ. intros H. revert n Hn Eσ.
  induction H as [|m σ cs t σ' z He _ _|m σ c cs b σ' z He Hp Hr IH]; intros n Hn Eσ.
  - unfold delete in Eσ. by destruct (N.eqb_spec n 0).
  - subst. unfold delete in He. by destruct (N.eqb_spec n 0).
  - subst. rewrite (proj2 (passes_delete n k rest c Hn)) in Hp. unfold counting in Hp. cbn [take_known].
    destruct (N.eqb_spec n 0); [done|]. destruct (if is_known c then _ else _) as [n'|]; [|done]. injection Hp as <- <-.
    cbn [mbind option_bind]. destruct (N.eqb_spec n' 0) as [->|Hn'].
    + exists [c], cs, m, z. by rewrite take_known_0.
    + destruct (IH n' Hn' eq_refl) as (g & r & m' & y & -> & Hy & ->). by exists (c :: g), r, m', y.
Qed.

Lemma skipped m (width k : N) text rest cs z : runs m (Skip width text k rest) cs z →
  ∃ m' y, runs m' (delete width (k + Str.length_utf8 text) rest) (take_newer ts cs).2 y ∧
    z = (take_newer ts cs).1 ++ text_cells ts ∅ k text ++ y.
Proof.
  remember (Skip width text k rest) as σ eqn:Eσ. intros H.
  induction H as [|m σ cs t σ' z He Hr _|m σ c cs b σ' z He Hp Hr IH]; subst; [done|..].
  - exists m, z. cbn in He. destruct cs as [|c cs]; cbn in He; [|destruct (newer_cell ts c) eqn:Hc; [done|]];
      injection He as <- <-; [done|]. cbn [take_newer]. by rewrite Hc.
  - rewrite passes_skip in Hp. injection Hp as <- <-. destruct (IH eq_refl) as (m' & y & Hy & ->). exists m', y.
    cbn in He. cbn [take_newer]. destruct (newer_cell ts c); [|done]. by destruct (take_newer ts cs).
Qed.

Lemma runs_integrate (o k : N) edits rest m cs z : script o edits = Some rest → runs m (proceed k rest) cs z →
  integrate_from V (oundone op) ts o k edits cs = Some z.
Proof.
  revert o k rest m cs z. induction edits as [|[range text] edits IH]; intros o k rest m cs z Hs Hr; cbn [integrate_from script] in *.
  { injection Hs as <-. by rewrite (done_runs _ _ _ Hr). }
  destruct (usize_sub (start range) o) as [n|]; [|done]. cbn [mbind option_bind] in *.
  destruct (usize_sub (stop range) (start range)) as [w|]; [|done]. cbn [mbind option_bind] in *.
  destruct (script (stop range) edits) as [rest'|] eqn:E; [|done]. injection Hs as <-.
  destruct (walked _ _ _ _ _ _ _ _ Hr) as (g & r & m1 & y & -> & Hy & ->). cbn [mbind option_bind].
  destruct (skipped _ _ _ _ _ _ _ Hy) as (m2 & y' & Hy' & ->). destruct (take_newer ts r) as [h r2]. cbn [fst snd] in *.
  destruct (deleted _ _ _ _ _ _ Hy') as (d & r3 & m3 & y3 & -> & Hy3 & ->). cbn [mbind option_bind].
  by rewrite (IH _ _ _ _ _ _ E Hy3).
Qed.

Lemma runs_det m m' σ cs z y : runs m σ cs z → runs m' σ cs y → y = z.
Proof.
  intros H. revert m' y. induction H as [|m σ cs t σ' z He Hr IH|m σ c cs b σ' z He Hp Hr IH]; intros m' y Hy.
  - by rewrite (done_runs _ _ _ Hy).
  - inversion Hy; subst; cbn [head] in *; simplify_eq. f_equal. by eapply IH.
  - inversion Hy; subst; cbn [head] in *; simplify_eq. f_equal. by eapply IH.
Qed.
End machine.

(** ** Two machines on the same cells *)

(** An edit knows only what is older than it. *)
Definition well_made (op : EditOp) : Prop :=
  ∀ t, GlobalOps.observed (oversion op) t = true → LamportOps.cmp t (ostamp op) = Lt.

(** The first edit was made before the second arrived. *)
Definition unaware (op1 op2 : EditOp) : Prop := GlobalOps.observed (oversion op1) (ostamp op2) = false.

Section two.
Implicit Types (op : EditOp) (σ : State) (c : Cell) (u cs x y z : list Cell).

(** A machine leaves no trace by which one that does not know it is led. *)
Lemma emits_marked op op' σ b c : emits op σ (Some (marked op' b c)) = emits op σ (Some c).
Proof. by destruct σ, b. Qed.

Lemma known_marked op V b c : known V (marked op b c) = known V c.
Proof. by destruct b. Qed.

Lemma was_shown_marked op op' b c : unaware op op' →
  was_shown (oversion op) (oundone op) (marked op' b c) = was_shown (oversion op) (oundone op) c.
Proof.
  intros H. destruct b; [|done]. unfold was_shown, known, marked, mark. cbn [cstamp cmarks]. f_equal.
  apply bool_decide_ext. split; intros Hs e He.
  - apply Hs. set_solver.
  - apply elem_of_union in He as [->%elem_of_singleton|He]; [|by apply Hs]. by rewrite H.
Qed.

Lemma passes_marked op op' σ b c : unaware op op' → passes op σ (marked op' b c) = passes op σ c.
Proof.
  intros H. unfold passes. rewrite known_marked, was_shown_marked by done.
  by replace (cchar (marked op' b c)) with (cchar c) by (by destruct b).
Qed.

Lemma marked_comm op op' b b' c : marked op b (marked op' b' c) = marked op' b' (marked op b c).
Proof. destruct b, b'; try done. unfold marked, mark. cbn. f_equal. set_solver. Qed.

(** Cells that are not known are passed where nothing is to be emitted. *)
Lemma passes_over op n σ u cs z : Forall (λ c, known (oversion op) c = false ∧ emits op σ (Some c) = None) u →
  runs op n σ cs z → runs op (length u + n) σ (u ++ cs) (u ++ z).
Proof.
  intros Hu H. induction Hu as [|c u [Hk He] _ IH]; [done|]. cbn [length app].
  apply (runs_pass op _ σ c (u ++ cs) false σ); [done|by apply passes_unknown|done].
Qed.

Lemma runs_head op n σ cs z : runs op n σ cs z →
  match head z with
  | None => cs = []
  | Some c => cstamp c = ostamp op ∨ ∃ c', head cs = Some c' ∧ cstamp c = cstamp c'
  end.
Proof.
  induction 1 as [|n σ cs t σ' z He Hr IH|n σ c cs b σ' z He Hp Hr IH]; [done|..].
  - destruct t as [|c t]; [done|]. left. unfold emits in He. destruct σ; try done. destruct (held op (head cs)); [done|].
    injection He as Et _. assert (c ∈ c :: t) as Hc by left. rewrite <- Et in Hc. by apply elem_of_text_cells in Hc as [? _].
  - right. exists c. by destruct b.
Qed.

(** Nothing but a cell that is newer holds back a text. *)
Lemma emits_at op σ (h h' : option Cell) t σ' : emits op σ h = Some (t, σ') →
  held op h' = false → emits op σ h' = Some (t, σ').
Proof.
  unfold emits. destruct σ; try done. destruct (held op h); [done|]. intros [= <- <-] Hh.
  by rewrite Hh.
Qed.

Lemma emits_held op σ (h : option Cell) t σ' c : emits op σ h = Some (t, σ') → emits op σ (Some c) = None →
  newer_cell (ostamp op) c = true.
Proof. unfold emits. destruct σ; try done. cbn [held]. by destruct (newer_cell (ostamp op) c). Qed.

Lemma emits_stamps op σ (h : option Cell) t σ' : emits op σ h = Some (t, σ') → Forall (λ c, cstamp c = ostamp op) t.
Proof.
  unfold emits. destruct σ; try done. destruct (held op h); [done|]. intros [= <- _].
  apply Forall_forall. by intros c [? _]%elem_of_text_cells.
Qed.

Lemma emits_free op σ (h : option Cell) t σ' : emits op σ h = Some (t, σ') → held op h = false.
Proof. unfold emits. destruct σ; try done. by destruct (held op h). Qed.

(** Of two texts for one place, that of the newer edit is first. *)
Lemma emit_first op op' σ σ1 σ' cs t n z : LamportOps.cmp (ostamp op) (ostamp op') = Gt ∨ emits op' σ' (head cs) = None →
  unaware op' op → emits op σ (head cs) = Some (t, σ1) → runs op' n σ' cs z →
  emits op σ (head z) = Some (t, σ1) ∧ Forall (λ c, known (oversion op') c = false ∧ emits op' σ' (Some c) = None) t.
Proof.
  intros Hor Hun He Hr. pose proof (emits_free _ _ _ _ _ He) as Hf. split.
  - apply (emits_at _ _ _ _ _ _ He). destruct Hor as [Hgt|Hno].
    + pose proof (runs_head _ _ _ _ _ Hr) as Hh. destruct (head z) as [c|]; [|done]. cbn [held]. unfold newer_cell.
      destruct Hh as [->|(c' & Ec & ->)]; [by rewrite (ord_antisym LamportOps.cmp (ostamp op)), Hgt|]. by rewrite Ec in Hf.
    + inversion Hr; subst; cbn [head] in *; [done|congruence|]. by destruct b.
  - eapply Forall_impl; [by eapply emits_stamps|]. cbn. intros c Hc. split; [by unfold known; rewrite Hc|].
    destruct σ' as [| width text k rest | |]; try done. cbn [emits held]. unfold newer_cell. rewrite Hc.
    assert (LamportOps.cmp (ostamp op) (ostamp op') = Gt) as ->; [|done]. destruct Hor as [|Hno]; [done|].
    cbn [emits] in Hno. destruct (head cs) as [c0|]; cbn [held] in *; [|done]. unfold newer_cell in Hno, Hf.
    destruct (LamportOps.cmp (cstamp c0) (ostamp op')) eqn:E; try done. apply (ord_gt_lt LamportOps.cmp) in E. apply (ord_gt_lt LamportOps.cmp).
    apply (ord_lt_le_trans LamportOps.cmp _ (cstamp c0)); [done|]. by destruct (LamportOps.cmp (cstamp c0) (ostamp op)).
Qed.

Lemma diamond_emit op op' σ σ1 σ' cs t n y z : LamportOps.cmp (ostamp op) (ostamp op') = Gt ∨ emits op' σ' (head cs) = None →
  unaware op' op → emits op σ (head cs) = Some (t, σ1) → runs op' n σ' cs z →
  (∃ m1 m2 x, runs op' m2 σ' y x ∧ runs op m1 σ1 z x) → ∃ m1 m2 x, runs op' m2 σ' (t ++ y) x ∧ runs op m1 σ z x.
Proof.
  intros Hor Hun He Hr (m1 & m2 & x & H2 & H1). destruct (emit_first op op' σ σ1 σ' cs t n z Hor Hun He Hr) as [He' Ht].
  exists (S m1), (length t + m2)%nat, (t ++ x). split; [by apply passes_over|by apply (runs_emit _ _ σ z t σ1)].
Qed.

Lemma stamps_differ op1 op2 : ostamp op1 ≠ ostamp op2 →
  LamportOps.cmp (ostamp op1) (ostamp op2) = Gt ∨ LamportOps.cmp (ostamp op2) (ostamp op1) = Gt.
Proof.
  intros Hne. rewrite (ord_antisym LamportOps.cmp (ostamp op1)).
  destruct (LamportOps.cmp (ostamp op1) _) eqn:E; [by apply (ord_eq LamportOps.cmp) in E|by right|by left].
Qed.

(** The two machines, in either order. *)
Lemma diamond op1 op2 n1 n2 σ1 σ2 cs z1 z2 : ostamp op1 ≠ ostamp op2 → unaware op1 op2 → unaware op2 op1 →
  runs op1 n1 σ1 cs z1 → runs op2 n2 σ2 cs z2 → ∃ m1 m2 z, runs op2 m2 σ2 z1 z ∧ runs op1 m1 σ1 z2 z.
Proof.
  intros Hne Hu1 Hu2. remember (n1 + n2)%nat as n eqn:En. revert n1 n2 En σ1 σ2 cs z1 z2.
  induction (Nat.lt_wf_0 n) as [n _ IH]. intros n1 n2 -> σ1 σ2 cs z1 z2 H1 H2.
  assert (∀ t σ1', emits op1 σ1 (head cs) = Some (t, σ1') → 
    LamportOps.cmp (ostamp op1) (ostamp op2) = Gt ∨ emits op2 σ2 (head cs) = None →
    ∃ m1 m2 z, runs op2 m2 σ2 z1 z ∧ runs op1 m1 σ1 z2 z) as Hfirst.
  { intros t σ1' He Hor. inversion H1; subst; cbn [head] in *; simplify_eq.
    eapply (diamond_emit op1 op2); [exact Hor|done|eassumption|exact H2|]. eapply IH; [|reflexivity|eassumption|exact H2]. lia. }
  assert (∀ t σ2', emits op2 σ2 (head cs) = Some (t, σ2') → 
    LamportOps.cmp (ostamp op2) (ostamp op1) = Gt ∨ emits op1 σ1 (head cs) = None →
    ∃ m1 m2 z, runs op2 m2 σ2 z1 z ∧ runs op1 m1 σ1 z2 z) as Hsecond.
  { intros t σ2' He Hor. inversion H2; subst; cbn [head] in *; simplify_eq.
    edestruct (diamond_emit op2 op1) as (m1 & m2 & x & ? & ?); [exact Hor|done|eassumption|exact H1| |by eauto].
    edestruct (IH (n1 + n)%nat) as (m1 & m2 & x & ? & ?); [lia|reflexivity|exact H1|eassumption|by eauto]. }
  destruct (emits op1 σ1 (head cs)) as [[t1 σ1']|] eqn:E1, (emits op2 σ2 (head cs)) as [[t2 σ2']|] eqn:E2; eauto.
  { destruct (stamps_differ op1 op2 Hne); eauto. }
  clear Hfirst Hsecond. inversion H1; subst; cbn [head] in *; simplify_eq; inversion H2; subst; cbn [head] in *; simplify_eq.
  - exists 0%nat, 0%nat, []. split; constructor.
  - edestruct (IH (n + n0)%nat) as (m1 & m2 & x & Hx2 & Hx1); [lia|reflexivity|eassumption..|].
    eexists (S m1), (S m2), _. split.
    + eapply runs_pass; [by rewrite emits_marked|by rewrite passes_marked|exact Hx2].
    + rewrite marked_comm. eapply runs_pass; [by rewrite emits_marked|by rewrite passes_marked|exact Hx1].
Qed.

(** ** An edit goes through without the other *)

(** The known characters: all that a machine counts. *)
Definition seen_chars (V : Global) cs : str := cchar <$> filter (λ c, known V c = true) cs.

Lemma seen_cons V c cs : seen_chars V (c :: cs) = (if known V c then [cchar c] else []) ++ seen_chars V cs.
Proof.
  unfold seen_chars. rewrite filter_cons. destruct (known V c); [by rewrite decide_True|by rewrite decide_False].
Qed.

Lemma seen_app V cs x : seen_chars V (cs ++ x) = seen_chars V cs ++ seen_chars V x.
Proof. unfold seen_chars. by rewrite filter_app, fmap_app. Qed.

Lemma seen_unknown V u : Forall (λ c, known V c = false) u → seen_chars V u = [].
Proof. induction 1 as [|c u Hc _ IH]; [done|]. by rewrite seen_cons, Hc. Qed.

Lemma seen_split V cs a l : seen_chars V cs = a :: l →
  ∃ u c r, cs = u ++ c :: r ∧ Forall (λ c, known V c = false) u ∧ known V c = true ∧ cchar c = a ∧ seen_chars V r = l.
Proof.
  induction cs as [|c cs IH]; [done|]. rewrite seen_cons. destruct (known V c) eqn:Hc; cbn [app].
  - intros [= <- <-]. by exists [], c, cs.
  - intros (u & c' & r & -> & Hu & ? & ? & ?)%IH. exists (c :: u), c', r. by repeat split; [constructor|..].
Qed.

(** A run leaves what another edit knows. *)
Lemma runs_seen op op' n σ cs z : unaware op' op → runs op n σ cs z → seen_chars (oversion op') z = seen_chars (oversion op') cs.
Proof.
  intros Hu. induction 1 as [|n σ cs t σ' z He Hr IH|n σ c cs b σ' z He Hp Hr IH]; [done|..].
  - rewrite seen_app, seen_unknown, IH; [done|]. eapply Forall_impl; [by eapply emits_stamps|].
    intros c Hc. cbn in Hc. unfold known. by rewrite Hc.
  - rewrite !seen_cons, known_marked, IH. by destruct b.
Qed.

Lemma newer_unknown op cs : well_made op → Forall (λ c, known (oversion op) c = false) (take_newer (ostamp op) cs).1.
Proof.
  intros Hw. induction cs as [|c cs IH]; [constructor|]. cbn [take_newer]. destruct (newer_cell (ostamp op) c) eqn:Hc; [|constructor].
  destruct (take_newer (ostamp op) cs). constructor; [|done]. unfold known. destruct (GlobalOps.observed _ _) eqn:E; [|done].
  apply Hw in E. unfold newer_cell in Hc. by rewrite E in Hc.
Qed.

Lemma seen_take_newer op cs : well_made op → seen_chars (oversion op) (take_newer (ostamp op) cs).2 = seen_chars (oversion op) cs.
Proof.
  intros Hw. rewrite <- (take_newer_app (ostamp op) cs) at 2. by rewrite seen_app, (seen_unknown _ (take_newer _ _).1) by (by apply newer_unknown).
Qed.

(** Whether there is a run, depends on the known characters only. *)
Lemma runs_defined op n σ x z y : well_made op → runs op n σ x z → seen_chars (oversion op) y = seen_chars (oversion op) x →
  ∃ m w, runs op m σ y w.
Proof.
  intros Hw H. revert y. induction H as [|n σ cs t σ' z He Hr IH|n σ c cs b σ' z He Hp Hr IH]; intros y Hy.
  { exists (length y), y. apply runs_done. }
  { destruct σ as [|width text k rest| |]; try done. cbn [emits] in He. destruct (held op (head cs)); [done|]. injection He as <- <-.
    destruct (IH (take_newer (ostamp op) y).2) as (m & w & Hm); [by rewrite seen_take_newer|].
    destruct (skips op _ _ _ _ _ _ _ Hm) as [m' Hm']. by eexists m', _. }
  rewrite seen_cons in Hy. destruct (known (oversion op) c) eqn:Hc.
  2:{ rewrite passes_unknown in Hp by done. injection Hp as <- <-. by apply IH. }
  destruct (seen_split _ _ _ _ Hy) as (u & c' & r & -> & Hu & Hk & Hch & Hr').
  destruct (IH r Hr') as (m & w & Hm). unfold passes in Hp. rewrite Hc in Hp.
  assert (∃ b', passes op σ c' = Some (b', σ') ∧ ∀ c, known (oversion op) c = false ∨ c = c' → emits op σ (Some c) = None) as (b' & Hp' & He').
  { unfold passes. rewrite Hk, Hch. destruct σ as [n' width text k rest|width text k rest|n' k rest|].
    - destruct (usize_sub n' _); [|done]. injection Hp as <- <-. by exists false.
    - cbn [emits held] in He. unfold newer_cell in He. rewrite (Hw (cstamp c) Hc) in He. done.
    - destruct (usize_sub n' _); [|done]. injection Hp as <- <-. by eexists.
    - injection Hp as <- <-. by exists false. }
  assert (runs op (S m) σ (c' :: r) (marked op b' c' :: w)) as Hcr by (apply (runs_pass op m σ c' r b' σ'); [apply He'; by right|done..]).
  do 2 eexists. apply (passes_over op (S m) σ u (c' :: r)); [|exact Hcr].
  eapply Forall_impl; [exact Hu|]. cbn. intros c0 Hc0. split; [done|]. apply He'. by left.
Qed.
End two.

(** ** Orders of the same edits *)

Lemma integrate_machine op cs z : integrate_op op cs = Some z ↔ ∃ rest n, script 0 (oedits op) = Some rest ∧ runs op n (proceed 0 rest) cs z.
Proof.
  split; [apply integrate_runs|]. intros (rest & n & Hs & Hr). by apply (runs_integrate op 0 0 _ rest n).
Qed.

(** Two edits that do not know each other can be applied in the other order. *)
Lemma integrate_swap op1 op2 cs y z : ostamp op1 ≠ ostamp op2 → well_made op2 → unaware op1 op2 → unaware op2 op1 →
  integrate_op op1 cs = Some y → integrate_op op2 y = Some z →
  ∃ x, integrate_op op2 cs = Some x ∧ integrate_op op1 x = Some z.
Proof.
  intros Hne Hw Hu1 Hu2 (rest1 & n1 & Hs1 & H1)%integrate_machine (rest2 & n2 & Hs2 & H2)%integrate_machine.
  destruct (runs_defined op2 _ _ _ _ cs Hw H2) as (m & x & Hx); [symmetry; by eapply runs_seen|].
  destruct (diamond op1 op2 _ _ _ _ _ _ _ Hne Hu1 Hu2 H1 Hx) as (m1 & m2 & z' & Hz2 & Hz1).
  rewrite (runs_det _ _ _ _ _ _ _ Hz2 H2) in *. exists x. split; apply integrate_machine; eauto.
Qed.

(** Two edits that both can be applied, can be applied one after the other. *)
Lemma integrate_beside op1 op2 cs y x : ostamp op1 ≠ ostamp op2 → unaware op1 op2 → unaware op2 op1 →
  integrate_op op1 cs = Some y → integrate_op op2 cs = Some x → is_Some (integrate_op op2 y).
Proof.
  intros Hne Hu1 Hu2 (rest1 & n1 & Hs1 & H1)%integrate_machine (rest2 & n2 & Hs2 & H2)%integrate_machine.
  destruct (diamond op1 op2 _ _ _ _ _ _ _ Hne Hu1 Hu2 H1 H2) as (m1 & m2 & z & Hz & _). exists z. apply integrate_machine. eauto.
Qed.
