(* ===== verification/Replica.v ===== *)
(** * Replicas: the text as a replicated data type

    What a replica is, below trees, fragments and ropes: the characters ([Cell])
    and the undos that have arrived. [receive] is what an operation means; it is
    what the operations of [Buffer] are checked against. Replicas that receive
    the same operations, in any orders that respect causality, are equal
    ([receive_all_permuted]). *)

From stdpp Require Import gmap sets sorting.
From S2P Require Import Prelude Clock UndoMap Text History Cells Convergence.

#[local] Unset Default Proof Using.
#[local] Open Scope N_scope.
#[local] Existing Instance LamportOps.cmp_total.

(** ** Orders that respect causality *)

Section orders.
Context {Op St K : Type} (step : Op → St → option St) (R : relation Op) (key : Op → K) (made : Op → Prop).
Implicit Types (op o : Op) (ops : list Op) (st x y z : St).

(** Two operations that do not know each other can change places. *)
Hypothesis step_swap : ∀ o op st y z, key o ≠ key op → made op → R o op → R op o →
  step o st = Some y → step op y = Some z → ∃ x, step op st = Some x ∧ step o x = Some z.

Fixpoint run_steps ops st : option St :=
  match ops with
  | [] => Some st
  | op :: ops => st ← step op st; run_steps ops st
  end.

Lemma run_steps_app ops ops' st : run_steps (ops ++ ops') st = (y ← run_steps ops st; run_steps ops' y).
Proof.
  revert st. induction ops as [|op ops IH]; intros st; [done|]. cbn [app run_steps].
  destruct (step op st); [|done]. apply IH.
Qed.

Lemma run_steps_first ops op st z : made op → Forall (λ o, key o ≠ key op ∧ R o op ∧ R op o) ops →
  run_steps (ops ++ [op]) st = Some z → run_steps (op :: ops) st = Some z.
Proof using step_swap.
  intros Hw H. revert st. induction H as [|o ops (Hne & Hu1 & Hu2) _ IH]; intros st; [done|]. cbn [app run_steps].
  destruct (step o st) as [y|] eqn:Eo; [|done]. cbn [mbind option_bind]. intros Hy%IH. cbn [run_steps] in Hy.
  destruct (step op y) as [w|] eqn:Ew; [|done]. cbn [mbind option_bind] in Hy.
  destruct (step_swap o op st y w) as (x & -> & Hx); [done..|]. cbn [mbind option_bind]. by rewrite Hx.
Qed.

(** No operation knows one that comes later in the list. *)
Lemma run_steps_permuted ops ops' st z : ops ≡ₚ ops' → NoDup (key <$> ops) → Forall made ops →
  StronglySorted R ops → StronglySorted R ops' → run_steps ops st = Some z → run_steps ops' st = Some z.
Proof using step_swap.
  revert ops st. induction ops' as [|op ops' IH]; intros ops st Hp Hnd Hw Hc Hc'.
  { by apply Permutation_nil_r in Hp as ->. }
  assert (op ∈ ops) as (a & b & ->)%list_elem_of_split by (rewrite Hp; by left).
  assert (a ++ b ≡ₚ ops') as Hp' by (apply (Permutation_cons_inv (a := op)); by rewrite <- Hp, Permutation_middle).
  rewrite Forall_app, Forall_cons in Hw. destruct Hw as (Hwa & Hwop & Hwb).
  apply StronglySorted_app in Hc as (Hab & Hca & Hcb). apply StronglySorted_cons in Hcb as [_ Hcb].
  apply StronglySorted_cons in Hc' as [Hop Hc'].
  rewrite run_steps_app. cbn [run_steps]. destruct (run_steps a st) as [y|] eqn:Ey; [|done]. cbn [mbind option_bind].
  destruct (step op y) as [w|] eqn:Ew; [|done]. cbn [mbind option_bind]. intros Hz.
  assert (run_steps (op :: a) st = Some w) as Hfirst.
  { apply run_steps_first; [done| |by rewrite run_steps_app, Ey; cbn; rewrite Ew]. apply Forall_forall. intros o Ho. split_and!.
    - rewrite fmap_app, fmap_cons in Hnd. apply NoDup_app in Hnd as (_ & Hnd & _). intros Heq. eapply Hnd; [by apply list_elem_of_fmap_2|].
      rewrite Heq. by left.
    - apply Hab; [done|by left].
    - rewrite Forall_forall in Hop. apply Hop. rewrite <- Hp'. apply elem_of_app. by left. }
  cbn [run_steps] in *. destruct (step op st) as [x|]; [|done]. cbn [mbind option_bind] in *.
  apply (IH (a ++ b)); [done|..]; [|by apply Forall_app| |done|by rewrite run_steps_app, Hfirst].
  - rewrite <- Permutation_middle, fmap_cons in Hnd. by apply NoDup_cons in Hnd as [_ Hnd].
  - apply StronglySorted_app. split_and!; [|done..]. intros o1 o2 H1 H2. apply Hab; [done|by right].
Qed.

(** An operation that can be taken, can also be taken after others that do not know it. *)
Lemma run_steps_beside ops op st y z : (∀ o st y x, key o ≠ key op → R o op → R op o → step o st = Some y → step op st = Some x → is_Some (step op y)) →
  Forall (λ o, key o ≠ key op ∧ R o op ∧ R op o) ops → run_steps ops st = Some y → step op st = Some z → is_Some (step op y).
Proof.
  intros Hstep H. revert st z. induction H as [|o ops (Hne & Hu1 & Hu2) _ IH]; intros st z; cbn [run_steps].
  { intros [= ->] Hz. by exists z. }
  destruct (step o st) as [st'|] eqn:Eo; [|done]. cbn [mbind option_bind]. intros Hy Hz.
  destruct (Hstep o st st' z Hne Hu1 Hu2 Eo Hz) as [z' Hz']. by apply (IH st' z').
Qed.
End orders.

(** ** Undos *)

(** An edit, an undo, and the count that it gives the edit. *)
Definition UndoEntry : Type := Lamport * Lamport * N.

Section undos.
Implicit Types (us : gset UndoEntry) (e u : Lamport) (n k : N) (seen : Lamport → bool).

(** The highest count of the edit by an undo that has been seen. *)
Definition tops seen us e n : Prop :=
  (∀ u k, (e, u, k) ∈ us → seen u = true → k <= n) ∧ (n = 0 ∨ ∃ u, (e, u, n) ∈ us ∧ seen u = true).

Definition top_count seen us e : N :=
  foldr (λ x n, if bool_decide (x.1.1 = e) && seen x.1.2 then N.max x.2 n else n) 0 (elements us).

Definition was_at (V : Global) us e : bool := top_count (GlobalOps.observed V) us e mod 2 =? 1.
Definition undone_at us e : bool := top_count (λ _, true) us e mod 2 =? 1.

Lemma top_count_tops seen us e : tops seen us e (top_count seen us e).
Proof.
  unfold tops, top_count. setoid_rewrite <- elem_of_elements. induction (elements us) as [|[[e' u'] k'] l IH]; cbn [foldr fst snd].
  { split; [by intros u k ?%elem_of_nil|by left]. }
  destruct IH as [Hle Hex]. case_bool_decide as He; cbn [andb]; [destruct (seen u') eqn:Hu|].
  - split.
    + intros u k [[= _ -> ->]|Hin]%elem_of_cons Hs; [lia|]. specialize (Hle u k Hin Hs). lia.
    + destruct (N.max_spec k' (foldr (λ x n, if bool_decide (x.1.1 = e) && seen x.1.2 then N.max x.2 n else n) 0 l)) as [[_ ->]|[_ ->]].
      * destruct Hex as [->|(u & Hin & Hs)]; [by left|right]. exists u. split; [by right|done].
      * right. exists u'. split; [subst; by left|done].
  - split.
    + intros u k [[= _ -> ->]|Hin]%elem_of_cons Hs; [congruence|]. by apply (Hle u).
    + destruct Hex as [->|(u & Hin & Hs)]; [by left|right]. exists u. split; [by right|done].
  - split.
    + intros u k [[= -> _ _]|Hin]%elem_of_cons Hs; [done|]. by apply (Hle u).
    + destruct Hex as [->|(u & Hin & Hs)]; [by left|right]. exists u. split; [by right|done].
Qed.

Lemma tops_unique seen us e n k : tops seen us e n → tops seen us e k → n = k.
Proof.
  intros [H1 H2] [H3 H4]. apply N.le_antisymm.
  - destruct H2 as [->|(u & Hin & Hs)]; [lia|by eapply H3].
  - destruct H4 as [->|(u & Hin & Hs)]; [lia|by eapply H1].
Qed.

(** Undos that a version has not seen do not count there. *)
Lemma top_count_unseen seen us vs e : (∀ e u k, (e, u, k) ∈ vs → seen u = false) →
  top_count seen (us ∪ vs) e = top_count seen us e.
Proof.
  intros Hv. eapply tops_unique; [apply top_count_tops|]. destruct (top_count_tops seen us e) as [Hle Hex]. split.
  - intros u k [Hin|Hin]%elem_of_union Hs; [by eapply Hle|]. apply Hv in Hin. congruence.
  - destruct Hex as [->|(u & Hin & Hs)]; [by left|right]. exists u. split; [|done]. apply elem_of_union. by left.
Qed.
(** Where all undos have been seen, all count. *)
Lemma top_count_seen seen us e : (∀ e u k, (e, u, k) ∈ us → seen u = true) → top_count seen us e = top_count (λ _, true) us e.
Proof.
  intros Hs. eapply tops_unique; [apply top_count_tops|]. destruct (top_count_tops (λ _, true) us e) as [Hle Hex]. split.
  - intros u k Hin _. by eapply Hle.
  - destruct Hex as [->|(u & Hin & _)]; [by left|right]. exists u. split; [done|by eapply Hs].
Qed.
End undos.

(** ** Replicas *)

Record Replica := mkReplica { rcells : list Cell; rundos : gset UndoEntry }.

Section replicas.
Implicit Types (st : Replica) (op o : Operation) (ops : list Operation) (t : Lamport).

Definition undo_entries (u : UndoOperation) : gset UndoEntry :=
  list_to_set ((λ x, (x.1, timestamp u, x.2)) <$> counts u).

Definition edit_op st (e : EditOperation) : EditOp :=
  mkEditOp (edit_timestamp e) (edit_version e) (was_at (edit_version e) (rundos st)) (zip (ranges e) (new_text e)).

(** What an operation means. *)
Definition receive op st : option Replica :=
  match op with
  | OpEdit e => cs ← integrate_op (edit_op st e) (rcells st); Some (mkReplica cs (rundos st))
  | OpUndo u => Some (mkReplica (rcells st) (rundos st ∪ undo_entries u))
  end.

Definition receive_all : list Operation → Replica → option Replica := run_steps receive.

(** What the replica shows. *)
Definition replica_text st : str := cell_text (undone_at (rundos st)) (rcells st).

(** The version of an operation has only older ones. *)
Definition op_made op : Prop :=
  ∀ t, GlobalOps.observed (op_version op) t = true → LamportOps.cmp t (op_timestamp op) = Lt.

(** The first operation was made where the second had not arrived. *)
Definition op_unaware op1 op2 : Prop := GlobalOps.observed (op_version op1) (op_timestamp op2) = false.

Lemma undo_entries_unseen V (u : UndoOperation) us e : GlobalOps.observed V (timestamp u) = false →
  was_at V (us ∪ undo_entries u) e = was_at V us e.
Proof.
  intros Hu. unfold was_at. rewrite top_count_unseen; [done|]. intros e' u' k Hin. unfold undo_entries in Hin.
  apply elem_of_list_to_set, list_elem_of_fmap in Hin as (x & [= -> -> ->] & _). done.
Qed.

(** An edit that has not seen an undo is not changed by it. *)
Lemma edit_op_undone st (e : EditOperation) (u : UndoOperation) cs : GlobalOps.observed (edit_version e) (timestamp u) = false →
  integrate_op (edit_op (mkReplica (rcells st) (rundos st ∪ undo_entries u)) e) cs = integrate_op (edit_op st e) cs.
Proof. intros Hu. apply integrate_from_ext. intros t. cbn [rundos]. by apply undo_entries_unseen. Qed.

Lemma receive_swap o op st y z : op_timestamp o ≠ op_timestamp op → op_made op → op_unaware o op → op_unaware op o →
  receive o st = Some y → receive op y = Some z → ∃ x, receive op st = Some x ∧ receive o x = Some z.
Proof.
  intros Hne Hmade Hu1 Hu2. unfold op_unaware in *.
  destruct o as [e1|u1], op as [e2|u2]; cbn [receive op_version op_timestamp] in *.
  - destruct (integrate_op (edit_op st e1) (rcells st)) as [cs1|] eqn:E1; [|done]. cbn [mbind option_bind]. intros [= <-].
    change (edit_op (mkReplica cs1 (rundos st)) e2) with (edit_op st e2). cbn [rcells rundos].
    destruct (integrate_op (edit_op st e2) cs1) as [cs2|] eqn:E2; [|done]. cbn [mbind option_bind]. intros [= <-].
    destruct (integrate_swap (edit_op st e1) (edit_op st e2) (rcells st) cs1 cs2) as (x & Ex & Ez); [done..|].
    rewrite Ex. cbn [mbind option_bind]. eexists. split; [done|]. cbn [rcells rundos].
    change (edit_op (mkReplica x (rundos st)) e1) with (edit_op st e1). by rewrite Ez.
  - destruct (integrate_op (edit_op st e1) (rcells st)) as [cs1|] eqn:E1; [|done]. cbn [mbind option_bind]. intros [= <-] [= <-].
    eexists. split; [done|]. cbn [rcells rundos]. by rewrite edit_op_undone, E1.
  - intros [= <-]. cbn [rcells rundos]. rewrite edit_op_undone by done.
    destruct (integrate_op (edit_op st e2) (rcells st)) as [cs2|] eqn:E2; [|done]. cbn [mbind option_bind]. intros [= <-].
    by eexists.
  - intros [= <-] [= <-]. eexists. split; [done|]. cbn [rcells rundos]. do 2 f_equal. set_solver.
Qed.

Lemma receive_beside ops op st y z : Forall (λ o, op_timestamp o ≠ op_timestamp op ∧ op_unaware o op ∧ op_unaware op o) ops →
  receive_all ops st = Some y → receive op st = Some z → is_Some (receive op y).
Proof.
  apply run_steps_beside. clear. intros o st y x Hne Hu1 Hu2. unfold op_unaware in *.
  destruct o as [e1|u1], op as [e2|u2]; cbn [receive op_version op_timestamp] in *.
  - destruct (integrate_op (edit_op st e1) (rcells st)) as [cs1|] eqn:E1; [|done]. cbn [mbind option_bind]. intros [= <-].
    change (edit_op (mkReplica cs1 (rundos st)) e2) with (edit_op st e2). cbn [rcells rundos].
    destruct (integrate_op (edit_op st e2) (rcells st)) as [cs2|] eqn:E2; [|done]. intros _.
    destruct (integrate_beside (edit_op st e1) (edit_op st e2) (rcells st) cs1 cs2) as [x' ->]; [done..|]. by eexists.
  - intros _ _. by eexists.
  - intros [= <-]. cbn [rcells rundos]. rewrite edit_op_undone by done. destruct (integrate_op (edit_op st e2) (rcells st)); [|done]. intros _. by eexists.
  - intros _ _. by eexists.
Qed.

Lemma receive_all_permuted ops ops' st z : ops ≡ₚ ops' → NoDup (op_timestamp <$> ops) → Forall op_made ops →
  StronglySorted op_unaware ops → StronglySorted op_unaware ops' →
  receive_all ops st = Some z → receive_all ops' st = Some z.
Proof. apply run_steps_permuted, receive_swap. Qed.
End replicas.
