(* ===== verification/SnapshotSpec.v ===== *)
(** * The steps that build a snapshot, and its invariant

    An edit has read some parts of the old snapshot, has the others ahead, and
    has written new ones ([built]). Each step of the edits is shown to keep
    this relation, and a finished edit to give a well-formed snapshot. *)

From stdpp Require Import sets sorting.
From S2P Require Import Prelude Clock Locator SumTree SumCursor CursorSpec KeyedTree TreeMap UndoMap Text Rope RopeText LineEnding Fragment Builders Snapshot Cells.
Import TreeOps BuildingOps.

#[local] Unset Default Proof Using.
#[local] Arguments Nat.mul : simpl never.
#[local] Open Scope N_scope.
#[local] Existing Instance LamportOps.cmp_total.

(** ** Identifiers *)

Section ids.
Implicit Types (l k : list Fragment) (f g : Fragment).

Lemma id_lt_trans f g h : id_lt f g → id_lt g h → id_lt f h.
Proof. apply (ord_lt_trans LocatorOps.cmp). Qed.

Lemma min_lt (i : Locator) : locator_ok i → LocatorOps.cmp LocatorOps.min i = Lt.
Proof.
  destruct i as [[|d [|e l]]]; intros [[Hne Hl] _]; cbn in *; [done| |].
  - unfold LocatorOps.cmp. cbn. by destruct d.
  - unfold LocatorOps.cmp. cbn. by destruct d.
Qed.

Lemma sorted_insert l f k : StronglySorted id_lt (l ++ k) → (∀ g, g ∈ l → id_lt g f) → (∀ g, g ∈ k → id_lt f g) →
  StronglySorted id_lt ((l ++ [f]) ++ k).
Proof.
  rewrite !StronglySorted_app. intros (Hlk & Hl & Hk) Hlf Hfk. split_and!.
  - intros g h [Hg| ->%list_elem_of_singleton]%elem_of_app Hh; [by apply Hlk|by apply Hfk].
  - intros g h Hg ->%list_elem_of_singleton. by apply Hlf.
  - done.
  - by repeat constructor.
  - done.
Qed.

(** An identifier between the last of [l] and the first of [k] keeps the order. *)
Lemma between_sorted l f k : StronglySorted id_lt (l ++ k) →
  Forall (λ g, locator_ok (fid g)) (l ++ k) → Forall (λ g, LocatorOps.cmp (fid g) LocatorOps.max = Lt) (l ++ k) →
  fid f = LocatorOps.between (default LocatorOps.min (list.last (fid <$> l)))
            (match k with g :: _ => fid g | [] => LocatorOps.max end) →
  StronglySorted id_lt ((l ++ [f]) ++ k) ∧ locator_ok (fid f) ∧ LocatorOps.cmp (fid f) LocatorOps.max = Lt.
Proof.
  intros Hs Hok Hmax Hf. set (lo := default _ _) in Hf. set (hi := match k with [] => _ | _ => _ end) in Hf.
  assert (in_u64 (digits lo) ∧ ∀ g, g ∈ l → fid g = lo ∨ LocatorOps.cmp (fid g) lo = Lt) as [Hlo Hl].
  { unfold lo. destruct l as [|h l _] using rev_ind; [split; [apply min_u64|by intros ? ?%elem_of_nil]|].
    rewrite fmap_app. change (fid <$> [h]) with [fid h]. rewrite last_snoc. cbn [default from_option]. unfold Datatypes.id.
    rewrite <- app_assoc, !Forall_app, Forall_singleton in Hok. split; [apply Hok|].
    intros g [Hg| ->%list_elem_of_singleton]%elem_of_app; [right|by left].
    apply StronglySorted_app_1_l in Hs. apply (StronglySorted_app_1_elem_of _ _ _ _ _ Hs Hg). by left. }
  assert (locator_ok hi ∧ (hi = LocatorOps.max ∨ LocatorOps.cmp hi LocatorOps.max = Lt) ∧
    LocatorOps.cmp lo hi = Lt ∧ ∀ g, g ∈ k → fid g = hi ∨ LocatorOps.cmp hi (fid g) = Lt) as (Hhi & Hhm & Hlh & Hk).
  { assert (lo = LocatorOps.min ∨ ∃ h, h ∈ l ∧ lo = fid h) as Hcase.
    { unfold lo. destruct l as [|h l _] using rev_ind; [by left|right]. exists h. rewrite fmap_app.
      change (fid <$> [h]) with [fid h]. rewrite last_snoc. set_solver. }
    assert (∀ i, locator_ok i → (∀ h, h ∈ l → LocatorOps.cmp (fid h) i = Lt) → LocatorOps.cmp lo i = Lt) as Hmin.
    { intros i Hi Hh. destruct Hcase as [->|(h & Hhl & ->)]; [by apply min_lt|by apply Hh]. }
    rewrite Forall_app in Hok, Hmax. unfold hi. destruct k as [|h k].
    - split_and!; [apply max_ok|by left| |by intros ? ?%elem_of_nil].
      apply Hmin; [apply max_ok|]. intros h Hh. destruct Hmax as [Hmax _]. rewrite Forall_forall in Hmax. by apply Hmax.
    - destruct Hok as [_ [Hh _]%Forall_cons], Hmax as [_ [Hm _]%Forall_cons].
      split_and!; [done|by right| |].
      + apply Hmin; [done|]. intros g Hg. apply (StronglySorted_app_1_elem_of _ _ _ _ _ Hs Hg). by left.
      + apply StronglySorted_app_1_r, StronglySorted_cons in Hs as [Hs _]. rewrite Forall_forall in Hs.
        intros g [->|Hg]%elem_of_cons; [by left|right]. by apply Hs. }
  assert (LocatorOps.cmp lo (fid f) = Lt ∧ LocatorOps.cmp (fid f) hi = Lt) as [H1 H2].
  { rewrite Hf. split; [apply between_lower|]. apply between_upper; [done|apply Hhi]. }
  split_and!.
  - apply sorted_insert; [done| |]; unfold id_lt.
    + intros g Hg. destruct (Hl g Hg) as [->|?]; [done|]. by eapply (ord_lt_trans LocatorOps.cmp).
    + intros g Hg. destruct (Hk g Hg) as [->|?]; [done|]. by eapply (ord_lt_trans LocatorOps.cmp).
  - rewrite Hf. apply between_ok; [done|apply Hhi].
  - destruct Hhm as [<-|?]; [done|]. by eapply (ord_lt_trans LocatorOps.cmp).
Qed.
End ids.

(** ** Views *)

(** The text that is visible when the edits of [u] are undone. *)
Definition view (u : Lamport → bool) (ps : list part) : str := side true ((λ p, (shows u p.1, p.2)) <$> ps).

(** Timestamps of the fragments and of what deleted them. *)
Definition stamps (fs : list Fragment) : list Lamport := fs ≫= λ f, stamp f :: deletions f.

(** The units that an edit did not insert. *)
Definition older (ts : Lamport) (ps : list part) : list (Lamport * N) := filter (λ x, x.1 ≠ ts) (units ps).

Section views.
Implicit Types (ps qs : list part) (f : Fragment) (m : str) (u v : Lamport → bool) (ts : Lamport).

Lemma view_app u ps qs : view u (ps ++ qs) = view u ps ++ view u qs.
Proof. unfold view. by rewrite fmap_app, side_app. Qed.

Lemma view_one u f m : view u [(f, m)] = if shows u f then m else [].
Proof. unfold view. cbn [fmap list_fmap fst snd]. rewrite side_one. by destruct (shows u f). Qed.

Lemma view_shown u ps : Forall (λ f, visible f = shows u f) ps.*1 → view u ps = side true (strips ps).
Proof.
  intros H. unfold view, strips. f_equal. apply list_fmap_ext. intros i p Hp. f_equal. symmetry.
  rewrite Forall_fmap, Forall_forall in H. by apply H, (list_elem_of_lookup_2 _ i).
Qed.

(** It is a function of the cells. *)
Lemma view_cells u ps : view u ps = cell_text u (cells ps).
Proof.
  induction ps as [|[f m] ps IH]; [done|]. rewrite cells_cons, cell_text_app, part_cells_text, <- IH. cbn [fst snd].
  unfold view. cbn [fmap list_fmap fst snd]. rewrite side_cons. by destruct (shows u f).
Qed.

(** Undone edits do not show what they inserted. *)
Lemma shows_undone u f : u (stamp f) = true → shows u f = false.
Proof. intros H. unfold shows. by rewrite H. Qed.

Lemma stamps_app (fs gs : list Fragment) : stamps (fs ++ gs) = stamps fs ++ stamps gs.
Proof. apply bind_app. Qed.

Lemma stamps_one f : stamps [f] = stamp f :: deletions f.
Proof. apply app_nil_r. Qed.

Lemma elem_of_stamps t (fs : list Fragment) : t ∈ stamps fs ↔ ∃ f, f ∈ fs ∧ t ∈ stamp f :: deletions f.
Proof. unfold stamps. rewrite list_elem_of_bind. naive_solver. Qed.

Lemma older_app ts ps qs : older ts (ps ++ qs) = older ts ps ++ older ts qs.
Proof. unfold older. by rewrite units_app, filter_app. Qed.

Lemma older_new f m : older (stamp f) [(f, m)] = [].
Proof. unfold older. rewrite units_one. apply filter_none. intros x Hx Hne. apply elem_of_units_of in Hx as [E _]. by destruct Hne. Qed.

Lemma older_all ts ps : ts ∉ stamp <$> ps.*1 → older ts ps = units ps.
Proof.
  intros H. unfold older. apply filter_all. intros x (l & Hx & (p & -> & Hp)%list_elem_of_fmap)%list_elem_of_join Ets.
  apply elem_of_units_of in Hx as [E _]. apply H. rewrite <- Ets, E. by apply list_elem_of_fmap_2, list_elem_of_fmap_2.
Qed.
End views.

(** ** The relation *)

Section building.
Context (rv rd : Rope) (Hrv : sliceable rv) (Hrd : sliceable rd).
Context (ts : Lamport) (undone : Lamport → bool) (old_slices : list InsertionSlice) (old : list Fragment).
Implicit Types (bd : Building) (ps bu wr nps : list part) (f g : Fragment) (m s u : str).

(** Parts [bu] of the old snapshot have been read, [wr] are ahead; the parts
    [nps] have been written, of which [kept] are old fragments and [pushed] have
    an entry in [new_insertions]. *)
Record shaped bd bu wr nps (kept pushed : list Fragment) : Prop := {
  bt_fragments : holds_fragments (new_fragments bd) nps.*1;
  bt_parts : Forall part_ok nps;
  bt_ids : StronglySorted id_lt (nps.*1 ++ wr.*1);
  bt_ahead : Forall (λ g, locator_ok (fid g) ∧ LocatorOps.cmp (fid g) LocatorOps.max = Lt) wr.*1;
  bt_units : units nps ≡ₚ units bu ++ units_of ts 0 (next_offset bd);
  bt_insertions : new_insertions bd = FragmentOps.insert_new <$> pushed;
  bt_perm : nps.*1 ≡ₚ kept ++ pushed;
  bt_kept g : g ∈ kept → g ∈ old;
  bt_touched g : g ∈ bu.*1 → g ∈ kept ∨ ukey_of g ∈ ukey_of <$> pushed;
  bt_slices : ∃ marked, sublist marked pushed ∧ new_slices bd = FragmentOps.insertion_slice ts <$> marked;
  bt_covered : Forall (covered (old_slices ++ new_slices bd)) nps.*1;
  bt_shown : Forall (λ f, visible f = shows undone f) nps.*1;
  bt_views (w : Lamport → bool) : w ts = true → view w nps = view w bu;
  bt_order : older ts nps = older ts bu;
  bt_stamps t : t ∈ stamps nps.*1 → t = ts ∨ t ∈ stamps old }.

Record built bd bu wr nps (kept pushed : list Fragment) : Prop := {
  bt_shape : shaped bd bu wr nps kept pushed;
  bt_texts : holds_texts rv rd (new_ropes bd) (strips bu) (strips wr) (strips nps) }.

Lemma shaped_ids_ok bd bu wr nps kept pushed : shaped bd bu wr nps kept pushed →
  Forall (λ g, locator_ok (fid g)) (nps.*1 ++ wr.*1) ∧
  Forall (λ g, LocatorOps.cmp (fid g) LocatorOps.max = Lt) (nps.*1 ++ wr.*1).
Proof.
  intros []. assert (Forall (λ g, locator_ok (fid g) ∧ LocatorOps.cmp (fid g) LocatorOps.max = Lt) (nps.*1 ++ wr.*1)) as H.
  { apply Forall_app. split; [|done]. apply Forall_fmap. eapply Forall_impl; [done|]. intros p []. by split. }
  split; eapply Forall_impl; try exact H; by intros g [].
Qed.

Lemma shaped_max_id bd bu wr nps kept pushed : shaped bd bu wr nps kept pushed →
  BuildingOps.max_id bd = default LocatorOps.min (list.last (fid <$> nps.*1)).
Proof.
  intros []. unfold BuildingOps.max_id, FragmentBuilderOps.summary. rewrite (hf_summary _ _ bt_fragments0). apply total_max_id.
Qed.

Lemma parts_text nps : Forall part_ok nps →
  text_of nps.*1 = mkFragmentText (Str.length_utf8 (side true (strips nps))) (Str.length_utf8 (side false (strips nps))).
Proof.
  induction 1 as [|[f s] nps Hp _ IH]; [done|]. destruct Hp as [Hl _ _ _ _ _]. cbn [fst snd] in Hl.
  change (strips ((f, s) :: nps)) with ((visible f, s) :: strips nps). cbn [fmap list_fmap fst text_of].
  rewrite !side_cons, !length_utf8_app, IH. unfold text_add, fragment_text. rewrite Hl.
  destruct (visible f); cbn; f_equal; lia.
Qed.

Lemma shaped_text bd bu wr nps kept pushed : shaped bd bu wr nps kept pushed →
  tvisible (ftext (FragmentBuilderOps.summary (new_fragments bd))) = Str.length_utf8 (side true (strips nps)).
Proof.
  intros []. unfold FragmentBuilderOps.summary. rewrite (hf_summary _ _ bt_fragments0), total_text.
  by rewrite parts_text.
Qed.

(** The identifier of a part that is put before what is ahead. *)
Definition before_ahead wr : Locator := match wr with p :: _ => fid p.1 | [] => LocatorOps.max end.

Lemma shaped_between bd bu wr nps kept pushed f : shaped bd bu wr nps kept pushed →
  fid f = LocatorOps.between (BuildingOps.max_id bd) (before_ahead wr) →
  StronglySorted id_lt ((nps.*1 ++ [f]) ++ wr.*1) ∧ locator_ok (fid f) ∧ LocatorOps.cmp (fid f) LocatorOps.max = Lt.
Proof.
  intros Hb Hf. destruct (shaped_ids_ok _ _ _ _ _ _ Hb) as [H1 H2].
  apply between_sorted; [apply Hb|done..|]. rewrite Hf, (shaped_max_id _ _ _ _ _ _ Hb). by destruct wr.
Qed.

(** *** Writing one part *)

Definition marks (mark : bool) f : list InsertionSlice := if mark then [FragmentOps.insertion_slice ts f] else [].

Lemma shaped_push bd bu wr nps kept pushed f m (mark : bool) bu' wr' bd' :
  shaped bd bu wr nps kept pushed →
  new_fragments bd' = FragmentBuilderOps.push (new_fragments bd) f None →
  new_insertions bd' = new_insertions bd ++ [FragmentOps.insert_new f] →
  new_slices bd' = new_slices bd ++ marks mark f →
  units nps ++ punits (f, m) ≡ₚ units bu' ++ units_of ts 0 (next_offset bd') → part_ok (f, m) →
  StronglySorted id_lt ((nps.*1 ++ [f]) ++ wr'.*1) → (∀ g, g ∈ wr'.*1 → g ∈ wr.*1) →
  (∀ g, g ∈ bu'.*1 → g ∈ bu.*1 ∨ ukey_of g = ukey_of f) →
  covered (old_slices ++ new_slices bd') f →
  visible f = shows undone f →
  (∀ w : Lamport → bool, w ts = true → view w bu' = view w bu ++ view w [(f, m)]) → older ts bu' = older ts bu ++ older ts [(f, m)] →
  (∀ t, t ∈ stamp f :: deletions f → t = ts ∨ t ∈ stamps old) →
  shaped bd' bu' wr' (nps ++ [(f, m)]) kept (pushed ++ [f]).
Proof.
  intros [] Ef Ei Es Hunits Hf Hids Hsub Hg Hcov Hvis Hview Horder Hst. split.
  - rewrite Ef, fmap_app. by apply builder_push.
  - by apply Forall_app; split; [|constructor].
  - by rewrite fmap_app.
  - rewrite Forall_forall in *. auto.
  - by rewrite units_app, units_one.
  - by rewrite Ei, bt_insertions0, fmap_app.
  - rewrite fmap_app, bt_perm0, <- app_assoc. done.
  - done.
  - intros g Hgb. rewrite fmap_app. destruct (Hg g Hgb) as [H|H].
    + destruct (bt_touched0 g H) as [?|?]; [by left|right]. apply elem_of_app. by left.
    + right. rewrite H. apply elem_of_app. right. by left.
  - destruct bt_slices0 as (marked & Hm & E). rewrite Es, E. destruct mark; cbn [marks].
    + exists (marked ++ [f]). rewrite fmap_app. split; [by apply sublist_app|done].
    + exists marked. rewrite app_nil_r. split; [by apply sublist_inserts_r|done].
  - rewrite fmap_app. apply Forall_app. split; [|by constructor].
    eapply Forall_impl; [exact bt_covered0|]. intros g. apply covered_mono. rewrite Es. set_solver.
  - rewrite fmap_app. apply Forall_app. by split; [|constructor].
  - intros v Hv. by rewrite view_app, bt_views0, Hview.
  - by rewrite older_app, bt_order0, Horder.
  - intros t. rewrite fmap_app, stamps_app. intros [Ht|Ht]%elem_of_app; [by apply bt_stamps0|]. apply Hst. change ([(f, m)].*1) with [f] in Ht. by rewrite stamps_one in Ht.
Qed.

Lemma built_push bd bu wr nps kept pushed f m (was mark : bool) bu' wr' :
  built bd bu wr nps kept pushed →
  (∀ v, side v (strips wr) = side v ((was, m) :: strips wr')) →
  (∀ v, side v (strips bu') = side v (strips bu ++ [(was, m)])) →
  units bu' = units bu ++ punits (f, m) → part_ok (f, m) →
  StronglySorted id_lt ((nps.*1 ++ [f]) ++ wr'.*1) → (∀ g, g ∈ wr'.*1 → g ∈ wr.*1) →
  (∀ g, g ∈ bu'.*1 → g ∈ bu.*1 ∨ ukey_of g = ukey_of f) →
  covered (old_slices ++ new_slices bd ++ marks mark f) f →
  visible f = shows undone f →
  (∀ w : Lamport → bool, w ts = true → view w bu' = view w bu ++ view w [(f, m)]) →
  (∀ t, t ∈ stamp f :: deletions f → t = ts ∨ t ∈ stamps old) →
  returns (push_part (if mark then push_slice bd ts f else bd) f was) (λ bd',
    built bd' bu' wr' (nps ++ [(f, m)]) kept (pushed ++ [f]) ∧ next_offset bd' = next_offset bd).
Proof.
  intros [Hb Ht] Hwr Hbu Hunits Hf Hids Hsub Hg Hcov Hvis Hview Hst. unfold push_part.
  set (bd1 := if mark then _ else _).
  assert (new_fragments bd1 = new_fragments bd ∧ new_ropes bd1 = new_ropes bd ∧
    new_insertions bd1 = new_insertions bd ∧ next_offset bd1 = next_offset bd ∧
    new_slices bd1 = new_slices bd ++ marks mark f) as (E1 & E2 & E3 & E4 & E5).
  { unfold bd1, marks. destruct mark; cbn; by rewrite ?app_nil_r. }
  rewrite E1, E2, E3, E4, E5. eapply returns_bind.
  { unfold RopeBuilderOps.push_fragment. destruct Hf as [Hl Hne _ _ _ _]. cbn [fst snd] in *. rewrite Hl.
    assert (Str.length_utf8 m ≠ 0) by by rewrite length_utf8_zero. destruct (N.ltb_spec 0 (Str.length_utf8 m)); [|lia].
    apply (rope_builder_push rv rd Hrv Hrd _ (strips bu) (strips wr') (strips nps) m was).
    by eapply holds_texts_side; [exact Ht| | |]. }
  intros ropes Hropes. apply returns_ret. split; [|done]. split; cbn [Snapshot.new_ropes].
  - eapply (shaped_push bd bu wr nps kept pushed f m mark); cbn [new_fragments new_insertions new_slices next_offset]; try done.
    + rewrite (bt_units _ _ _ _ _ _ Hb), Hunits, <- !app_assoc. f_equiv. by rewrite Permutation_app_comm.
    + unfold older. by rewrite Hunits, filter_app, units_one.
  - eapply holds_texts_side; [exact Hropes| |done|]; intros v; [by rewrite Hbu|by rewrite strips_app].
Qed.

(** *** Writing a subtree, and going past a fragment that has been written *)

(** Old parts [l] are written as they are. *)
Lemma shaped_keep bd bu l wr nps kept pushed bd' : shaped bd bu (l ++ wr) nps kept pushed →
  holds_fragments (new_fragments bd') (nps ++ l).*1 → new_insertions bd' = new_insertions bd →
  new_slices bd' = new_slices bd → next_offset bd' = next_offset bd →
  Forall part_ok l → Forall (covered old_slices) l.*1 → Forall (λ f, visible f = shows undone f) l.*1 →
  (∀ g, g ∈ l.*1 → g ∈ old) → shaped bd' (bu ++ l) wr (nps ++ l) (kept ++ l.*1) pushed.
Proof.
  intros [] Hf Hi Hsl Hn Hl Hc Hs Ho. split; rewrite ?Hi, ?Hsl, ?Hn, ?fmap_app; try done.
  - by rewrite <- fmap_app.
  - by apply Forall_app.
  - by rewrite <- app_assoc, <- fmap_app.
  - rewrite fmap_app in bt_ahead0. by apply Forall_app in bt_ahead0 as [_ ?].
  - rewrite !units_app, bt_units0, <- !app_assoc. f_equiv. by rewrite Permutation_app_comm.
  - rewrite bt_perm0, <- !app_assoc. f_equiv. by rewrite Permutation_app_comm.
  - intros g [?|?]%elem_of_app; auto.
  - intros g [Hg|Hg]%elem_of_app; [|left; set_solver]. destruct (bt_touched0 g Hg); [left; set_solver|by right].
  - apply Forall_app. split; [done|]. eapply Forall_impl; [exact Hc|]. intros g. apply covered_mono. set_solver.
  - by apply Forall_app.
  - intros u Hu. by rewrite !view_app, bt_views0.
  - by rewrite !older_app, bt_order0.
  - intros v. rewrite stamps_app. intros [Hv|Hv]%elem_of_app; [by apply bt_stamps0|right].
    apply elem_of_stamps in Hv as (f & Hff & Hv). apply elem_of_stamps. exists f. auto.
Qed.

Lemma built_append bd bu l wr nps kept pushed (t : Node Fragment FragmentSummary) :
  built bd bu (l ++ wr) nps kept pushed → tree_ok None t → tree_items t = l.*1 →
  Forall part_ok l → Forall (covered old_slices) l.*1 → Forall (λ f, visible f = shows undone f) l.*1 →
  (∀ g, g ∈ l.*1 → g ∈ old) →
  returns (append_slice bd t) (λ bd',
    built bd' (bu ++ l) wr (nps ++ l) (kept ++ l.*1) pushed ∧ next_offset bd' = next_offset bd).
Proof.
  intros [Hb Ht] Htok Hti Hl Hc Hs Ho. unfold append_slice. eapply returns_bind.
  { rewrite (summary_ok None) by done. rewrite total_text, Hti, parts_text by done.
    apply (rope_builder_append rv rd Hrv Hrd _ (strips bu) (strips l) (strips wr) (strips nps)).
    by rewrite <- strips_app. }
  intros ropes Hropes. apply returns_ret. split; [|done]. split; [|cbn; by rewrite !strips_app].
  eapply shaped_keep; try done. cbn [new_fragments]. rewrite fmap_app, <- Hti. apply builder_append; [apply Hb|done].
Qed.

(** One fragment is written as it is. *)
Lemma built_keep bd bu x m wr nps kept pushed : built bd bu ((x, m) :: wr) nps kept pushed →
  part_ok (x, m) → covered old_slices x → visible x = shows undone x → x ∈ old →
  returns (ropes ← RopeBuilderOps.push_fragment (Snapshot.new_ropes bd) x (visible x);
    Some (mkBuilding (FragmentBuilderOps.push (new_fragments bd) x None) ropes (new_insertions bd) (new_slices bd) (next_offset bd)))
    (λ bd', built bd' (bu ++ [(x, m)]) wr (nps ++ [(x, m)]) (kept ++ [x]) pushed ∧ next_offset bd' = next_offset bd).
Proof.
  intros [Hb Ht] Hx Hc Hs Ho. eapply returns_bind.
  { unfold RopeBuilderOps.push_fragment. destruct Hx as [Hl Hne _ _ _ _]. cbn [fst snd] in *. rewrite Hl.
    assert (Str.length_utf8 m ≠ 0) by by rewrite length_utf8_zero. destruct (N.ltb_spec 0 (Str.length_utf8 m)); [|lia].
    apply (rope_builder_push rv rd Hrv Hrd _ (strips bu) (strips wr) (strips nps) m (visible x)). exact Ht. }
  intros ropes Hropes. apply returns_ret. split; [|done]. split; [|cbn; by rewrite !strips_app].
  change [x] with ([(x, m)].*1). eapply shaped_keep; try done; try by constructor.
  - rewrite fmap_app. apply builder_push, Hb.
  - by intros g ->%list_elem_of_singleton.
Qed.

(** The start of an edit: the parts [l] are kept as they are. *)
Lemma built_begin l wr (t : Node Fragment FragmentSummary) ropes :
  holds_texts rv rd ropes [] (strips (l ++ wr)) [] → tree_ok None t → tree_items t = l.*1 →
  Forall part_ok (l ++ wr) → StronglySorted id_lt (l ++ wr).*1 → Forall (covered old_slices) l.*1 →
  Forall (λ f, visible f = shows undone f) l.*1 → (∀ g, g ∈ l.*1 → g ∈ old) →
  returns (RopeBuilderOps.append ropes (ftext (FragmentBuilderOps.summary (FragmentBuilderOps.new t)))) (λ ropes',
    built (mkBuilding (FragmentBuilderOps.new t) ropes' [] [] 0) l wr l l.*1 []).
Proof.
  intros Ht Htok Hti Hp Hids Hc Hs Ho. apply Forall_app in Hp as [Hl Hwr].
  pose proof (builder_new t Htok) as Hf. rewrite Hti in Hf. unfold FragmentBuilderOps.summary.
  rewrite (hf_summary _ _ Hf), total_text, parts_text by done. rewrite strips_app in Ht.
  eapply returns_mono; [by apply (rope_builder_append rv rd Hrv Hrd _ [] (strips l) (strips wr) [])|].
  intros ropes' Hr. split; [|done]. split; cbn [new_fragments new_insertions new_slices next_offset]; try done.
  - by rewrite <- fmap_app.
  - apply Forall_fmap. eapply Forall_impl; [exact Hwr|]. intros p []. by split.
  - by rewrite app_nil_r.
  - by rewrite app_nil_r.
  - intros g Hg. by left.
  - by exists [].
  - by rewrite app_nil_r.
  - intros v (f & Hin & Hv)%elem_of_stamps. right. apply elem_of_stamps. exists f. auto.
Qed.

Lemma built_drop bd bu f wr nps kept pushed : built bd bu ((f, []) :: wr) nps kept pushed →
  built bd bu wr nps kept pushed.
Proof.
  intros [[] Ht]. split; [split; try done|].
  - cbn [fmap list_fmap] in bt_ids0. apply StronglySorted_app in bt_ids0 as (H1 & H2 & [_ H3]%StronglySorted_cons).
    apply StronglySorted_app. split_and!; [|done..]. intros x y Hx Hy. apply H1; [done|by right].
  - by apply Forall_cons in bt_ahead0 as [_ ?].
  - eapply holds_texts_side; [exact Ht|done| |done]. intros v.
    change (strips ((f, []) :: wr)) with ((visible f, []) :: strips wr). rewrite side_cons. by destruct (Bool.eqb _ _).
Qed.
(** *** Inserting a text *)

(** Where the loop cuts the text. *)
Lemma chunk_split a d (n : N) : 4 <= n → d ≠ [] →
  let total := Str.length_utf8 (a ++ d) in
  let target_end := N.min total (Str.length_utf8 a + n) in
  let chunk_end := if target_end =? total then target_end else Str.floor_char_boundary (a ++ d) target_end in
  ∃ m d', d = m ++ d' ∧ m ≠ [] ∧ Str.length_utf8 m <= n ∧ chunk_end = Str.length_utf8 (a ++ m).
Proof.
  intros Hn Hd total target_end chunk_end. unfold chunk_end. destruct (N.eqb_spec target_end total) as [He|He].
  { exists d, []. rewrite app_nil_r. split_and!; [done|done| |done]. unfold target_end, total in He.
    rewrite length_utf8_app in He. lia. }
  assert (target_end = Str.length_utf8 a + n) as Ht by (unfold target_end in *; lia).
  assert (target_end <= total) as Hle by (unfold target_end; lia).
  pose proof (floor_near (a ++ d) target_end Hle) as Hnear. pose proof (floor_le (a ++ d) target_end) as Hfl.
  pose proof (floor_boundary (a ++ d) target_end) as Hb. rewrite is_char_boundary_split in Hb.
  apply bool_decide_eq_true in Hb as [[x y] Hxy]. apply split_at_some in Hxy as [Hxy Hx].
  destruct (prefix_cut a d x y Hxy) as (m & -> & ->); [lia|]. rewrite length_utf8_app in Hx.
  exists m, y. rewrite length_utf8_app. split_and!; [done| |lia|lia].
  intros ->. change (Str.length_utf8 []) with 0 in Hx. lia.
Qed.

Lemma u32_add_fits (a b : N) : a + b < u32_modulus → a +u32 as_u32 b = a + b.
Proof. intros H. unfold as_u32. rewrite (N.mod_small b) by lia. by apply u32_add_small. Qed.

Context (MAX_INSERTION_LEN : N) (Hmax : 4 <= MAX_INSERTION_LEN < u32_modulus) (Hts : undone ts = false).

Lemma insertion_loop_ok fuel a d bd bu wr nps kept pushed :
  shaped bd bu wr nps kept pushed → (length d < fuel)%nat → clean d →
  next_offset bd + Str.length_utf8 d < u32_modulus →
  returns (insertion_loop MAX_INSERTION_LEN fuel (a ++ d) ts (before_ahead wr) ts (Str.length_utf8 a) bd) (λ bd',
    ∃ qs, shaped bd' bu wr (nps ++ qs) kept (pushed ++ qs.*1) ∧ Snapshot.new_ropes bd' = Snapshot.new_ropes bd ∧
      next_offset bd' = next_offset bd + Str.length_utf8 d ∧ mjoin (snd <$> qs) = d ∧
      Forall (λ q, visible q.1 = true) qs ∧ cells qs = text_cells ts ∅ (next_offset bd) d).
Proof.
  revert a d bd nps pushed. induction fuel as [|fuel IH]; intros a d bd nps pushed Hb Hfuel Hd Hfits; [lia|].
  cbn [insertion_loop]. rewrite length_utf8_app at 1. destruct (N.ltb_spec (Str.length_utf8 a) (Str.length_utf8 a + Str.length_utf8 d)) as [Hlt|Hge].
  2: { assert (d = []) as -> by (apply length_utf8_zero; lia). apply returns_ret. exists [].
    change (([] : list part).*1) with (@nil Fragment). rewrite !app_nil_r. by rewrite N.add_0_r. }
  assert (d ≠ []) as Hne by (intros ->; cbn in Hlt; lia).
  destruct (chunk_split a d MAX_INSERTION_LEN (proj1 Hmax) Hne) as (m & d' & -> & Hm & Hlen & ->).
  rewrite length_utf8_app in *. apply clean_app in Hd as [Hcm Hcd].
  assert (Str.length_utf8 m ≠ 0) as Hm0 by by rewrite length_utf8_zero.
  destruct (N.eqb_spec (Str.length_utf8 a + Str.length_utf8 m) (Str.length_utf8 a)); [lia|].
  rewrite usize_sub_le by lia. cbn [mbind option_bind]. rewrite N_add_sub_l.
  assert (as_u32 (Str.length_utf8 m) = Str.length_utf8 m) as Em.
  { apply N.mod_small. lia. }
  set (f := mkFragment _ _ _ _ _ _ _). set (bd1 := mkBuilding _ _ _ _ _).
  destruct (shaped_between bd bu wr nps kept pushed f Hb eq_refl) as (Hs & Hi & Hx).
  assert (shaped bd1 bu wr (nps ++ [(f, m)]) kept (pushed ++ [f])) as Hb1.
  { apply (shaped_push bd bu wr nps kept pushed f m true); try done.
    - rewrite (bt_units _ _ _ _ _ _ Hb), <- app_assoc. f_equiv. unfold bd1. cbn [next_offset].
      rewrite u32_add_fits by lia. by rewrite units_of_add.
    - split; [exact Em|exact Hm| |exact Hi|exact Hx|exact Hcm]. cbn. rewrite Em. lia.
    - intros g Hg. by left.
    - intros e He _. exists (FragmentOps.insertion_slice ts f). unfold bd1. cbn [new_slices].
      apply list_elem_of_singleton in He as ->. rewrite slice_of_edit, slice_of_insertion.
      split_and!; [set_solver|done|done|done|]. cbn [FragmentOps.insertion_slice srange stop f insertion_offset flen].
      rewrite u32_add_fits by lia. by rewrite Em.
    - cbn. unfold shows. cbn. by rewrite Hts.
    - intros u Hu. rewrite view_one, shows_undone by done. by rewrite app_nil_r.
    - change ts with (stamp f) at 3. by rewrite older_new, app_nil_r.
    - intros t Ht. left. by apply list_elem_of_singleton in Ht. }
  rewrite <- length_utf8_app, app_assoc. eapply returns_mono.
  { apply (IH (a ++ m) d' bd1 (nps ++ [(f, m)]) (pushed ++ [f]) Hb1); [|done|].
    - rewrite length_app in Hfuel. destruct m; [done|]. simpl in Hfuel. lia.
    - unfold bd1. cbn [next_offset]. rewrite u32_add_fits by lia. lia. }
  intros bd' (qs & Hb' & Hr & Ho & Hq & Hv & Hcs). exists ((f, m) :: qs). rewrite <- !app_assoc in Hb'.
  assert (next_offset bd1 = next_offset bd + Str.length_utf8 m) as E1 by (unfold bd1; cbn [next_offset]; by rewrite u32_add_fits by lia).
  split_and!; [done|done| |by rewrite <- Hq|by constructor|].
  - rewrite Ho, length_utf8_app, E1. lia.
  - rewrite cells_cons, Hcs, text_cells_app, E1. done.
Qed.

Lemma strips_visible qs : Forall (λ q, visible q.1 = true) qs → ∀ v, side v (strips qs) = side v [(true, mjoin (snd <$> qs))].
Proof.
  induction 1 as [|[f s] qs Hq _ IH]; intros v; [by destruct v|]. cbn [fst] in Hq.
  change (strips ((f, s) :: qs)) with ((visible f, s) :: strips qs). rewrite side_cons, IH, Hq, !side_one.
  destruct v; cbn; by rewrite ?app_nil_r.
Qed.

Lemma built_insert bd bu wr nps kept pushed s :
  built bd bu wr nps kept pushed → scalars s → clean s → next_offset bd + Str.length_utf8 s < u32_modulus →
  returns (push_fragments_for_insertion MAX_INSERTION_LEN s ts (before_ahead wr) ts bd) (λ bd',
    ∃ qs, built bd' bu wr (nps ++ qs) kept (pushed ++ qs.*1) ∧
      next_offset bd' = next_offset bd + Str.length_utf8 s ∧ cells qs = text_cells ts ∅ (next_offset bd) s ∧
      ∀ v, side v (strips qs) = side v [(true, s)]).
Proof.
  intros [Hb Ht] Hs Hc Hfits. unfold push_fragments_for_insertion. eapply returns_bind.
  { apply (insertion_loop_ok _ [] s bd bu wr nps kept pushed Hb); [lia|done|done]. }
  intros bd1 (qs & Hb1 & Hr & Ho & Hq & Hv & Hcs). rewrite Hr. eapply returns_bind.
  { apply (rope_builder_str rv rd _ (strips bu) (strips wr) (strips nps)); [exact Ht|exact Hs]. }
  intros ropes Hropes. apply returns_ret. exists qs. pose proof (strips_visible qs Hv) as Hside. rewrite Hq in Hside.
  split_and!; [split; [destruct Hb1; by split|]|done|done|done]. cbn [Snapshot.new_ropes].
  eapply holds_texts_side; [exact Hropes|done..|]. intros v. by rewrite strips_app, !side_app, Hside.
Qed.
End building.

(** ** The invariant of a snapshot *)

(** Whether an edit is undone. *)
Definition undone_in (m : UndoMap) (t : Lamport) : bool := default false (UndoMapOps.is_undone m t).

Lemma undone_in_ok m t : undo_ok m → UndoMapOps.is_undone m t = Some (undone_in m t).
Proof.
  intros Hm. unfold undone_in, UndoMapOps.is_undone, UndoMapOps.undo_count.
  by rewrite (count_ok (λ _, true) m t Hm).
Qed.

(** The parts of the snapshot are [ps]: their texts, in order, are the visible
    and the deleted text, their identifiers increase, no byte of an insertion is
    in two of them, all have their entries in the trees beside, and the visible
    ones are those that no edit deletes, as far as it is not undone. *)
Record snapshot_ok (s : BufferSnapshot) (ps : list part) : Prop := {
  so_fragments : tree_ok None (fragments s);
  so_items : tree_items (fragments s) = ps.*1;
  so_parts : Forall part_ok ps;
  so_visible : rope_ok (visible_text s) ∧ rope_text (visible_text s) = side true (strips ps);
  so_deleted : rope_ok (deleted_text s) ∧ rope_text (deleted_text s) = side false (strips ps);
  so_ids : StronglySorted id_lt ps.*1;
  so_units : NoDup (units ps);
  so_insertions : tree_ok () (insertions s) ∧ ksorted insertion_key_cmp (tree_items (insertions s)) ∧
    ∀ x, x ∈ tree_items (insertions s) ↔ x ∈ FragmentOps.insertion_fragment <$> ps.*1;
  so_slices : map_built insertion_slice_cmp (insertion_slices s);
  so_covered : Forall (covered (members (insertion_slices s))) ps.*1;
  so_origins : Forall (λ x, slice_insertion x ≠ LamportOps.MIN) (members (insertion_slices s)) ∧
    Forall (λ f, stamp f ≠ LamportOps.MIN) ps.*1;
  so_undos : tree_ok () (undo_map s) ∧ ksorted undo_key_cmp (tree_items (undo_map s));
  so_shown : Forall (λ f, visible f = shows (undone_in (undo_map s)) f) ps.*1 }.

(** The trees of the snapshot fit the stacks of cursors. *)
Record snapshot_low (s : BufferSnapshot) : Prop := {
  lo_visible : sliceable (visible_text s);
  lo_deleted : sliceable (deleted_text s);
  lo_fragments : (NodeOps.height (fragments s) < STACK_CAPACITY)%nat;
  lo_insertions : (NodeOps.height (insertions s) < STACK_CAPACITY)%nat;
  lo_slices : (NodeOps.height (insertion_slices s) < STACK_CAPACITY)%nat;
  lo_undos : (NodeOps.height (undo_map s) < STACK_CAPACITY)%nat }.

(** The parts [qs] follow from [ps] by the edit [ts]: without the edit the text
    is as before, and the units from before are in the same order. *)
Record follows (ts : Lamport) (ps qs : list part) : Prop := {
  fo_views (w : Lamport → bool) : w ts = true → view w qs = view w ps;
  fo_order : older ts qs = units ps;
  fo_stamps t : t ∈ stamps qs.*1 → t = ts ∨ t ∈ stamps ps.*1 }.

Lemma insertion_fragment_key f : insertion_key (FragmentOps.insertion_fragment f) = mkInsertionKey (stamp f) (insertion_offset f).
Proof. done. Qed.

Lemma ukey_key f g : ukey_of f = ukey_of g ↔
  insertion_key (FragmentOps.insertion_fragment f) = insertion_key (FragmentOps.insertion_fragment g).
Proof. unfold ukey_of. cbn. unfold insertion_key. cbn. split; by intros [= -> ->]. Qed.

Section finish.
Context (sort_insertions : list (KeyedTree.Edit InsertionFragment InsertionFragmentKey) → list (KeyedTree.Edit InsertionFragment InsertionFragmentKey)).
Context (sort_slices : list (KeyedTree.Edit (MapEntry InsertionSlice ()) (MapKey InsertionSlice)) →
  list (KeyedTree.Edit (MapEntry InsertionSlice ()) (MapKey InsertionSlice))).
Context (Hsi : Sorting (edit_le insertion_key_cmp) sort_insertions) (Hss : Sorting (edit_le (map_key_cmp insertion_slice_cmp)) sort_slices).
Implicit Types (s : BufferSnapshot) (ps nps : list part) (bd : Building) (kept pushed : list Fragment) (ts : Lamport).

(** The keys of what was written are distinct, so the batch is well formed. *)
Lemma pushed_keys ps nps kept pushed (n : N) ts : Forall part_ok nps → NoDup (units ps) → ts ∉ stamp <$> ps.*1 →
  units nps ≡ₚ units ps ++ units_of ts 0 n → nps.*1 ≡ₚ kept ++ pushed →
  NoDup (units nps) ∧ NoDup (ukey_of <$> (kept ++ pushed)).
Proof.
  intros Hp Hn Hts Hu Hperm. assert (NoDup (units nps)) as Hnd.
  { rewrite Hu. apply NoDup_app. split_and!; [done| |].
    - intros x Hx [E _]%elem_of_units_of. apply Hts. apply list_elem_of_join in Hx as (l & Hx & Hl).
      apply list_elem_of_fmap in Hl as (p & -> & Hpp). apply elem_of_units_of in Hx as [Ex _].
      rewrite <- E, Ex. by apply list_elem_of_fmap_2, list_elem_of_fmap_2.
    - apply NoDup_fmap_2_strong; [|apply NoDup_seq]. intros i j _ _ [= H]. lia. }
  split; [done|]. rewrite <- Hperm. by apply keys_NoDup.
Qed.

Lemma insert_keys pushed : KeyedOps.edit_key <$> (FragmentOps.insert_new <$> pushed) =
  (insertion_key ∘ FragmentOps.insertion_fragment) <$> pushed.
Proof. by rewrite <- list_fmap_compose. Qed.

Lemma NoDup_insert_keys pushed : NoDup (ukey_of <$> pushed) → NoDup (KeyedOps.edit_key <$> (FragmentOps.insert_new <$> pushed)).
Proof.
  rewrite insert_keys. induction pushed as [|f l IH]; [constructor|]. cbn [fmap list_fmap]. intros [Hf Hl]%NoDup_cons.
  constructor; [|by apply IH]. rewrite list_elem_of_fmap. intros (g & Hg%ukey_key & Hin). apply Hf.
  rewrite Hg. by apply list_elem_of_fmap_2.
Qed.

Lemma NoDup_slices ts (marked pushed : list Fragment) : sublist marked pushed → NoDup (ukey_of <$> pushed) →
  NoDup (FragmentOps.insertion_slice ts <$> marked).
Proof.
  intros Hm Hn. assert (NoDup (ukey_of <$> marked)) as Hk.
  { eapply sublist_NoDup; [exact Hn|by apply fmap_sublist]. }
  clear -Hk. induction marked as [|f l IH]; [constructor|]. cbn [fmap list_fmap] in *.
  apply NoDup_cons in Hk as [Hf Hl]. constructor; [|by apply IH]. rewrite list_elem_of_fmap.
  intros (g & Hg & Hin). apply Hf. apply list_elem_of_fmap. exists g. split; [|done].
  unfold FragmentOps.insertion_slice in Hg. injection Hg as H1 H2 H3 _. unfold ukey_of.
  destruct (stamp f), (stamp g). cbn in *. congruence.
Qed.
(** The tree of insertions has the entries of the new fragments. *)
Lemma insertions_ok s ps nps kept pushed : snapshot_ok s ps → snapshot_low s → nps.*1 ≡ₚ kept ++ pushed →
  NoDup (ukey_of <$> (kept ++ pushed)) → (∀ g, g ∈ kept → g ∈ ps.*1) →
  (∀ g, g ∈ ps.*1 → g ∈ kept ∨ ukey_of g ∈ ukey_of <$> pushed) →
  returns (KeyedOps.edit insertion_key_cmp () sort_insertions (insertions s) (FragmentOps.insert_new <$> pushed)) (λ '(u, _),
    tree_ok () u ∧ ksorted insertion_key_cmp (tree_items u) ∧
    ∀ x, x ∈ tree_items u ↔ x ∈ FragmentOps.insertion_fragment <$> nps.*1).
Proof.
  intros [] [] Hperm Hkeys Hkept Htouched. destruct so_insertions0 as (Hit & His & Him).
  rewrite fmap_app in Hkeys. apply NoDup_app in Hkeys as (_ & Hdisj & Hpk).
  eapply returns_mono.
  { apply (edit_members insertion_key_cmp () sort_insertions (insertions s) _ Hsi); [by split_and!|by apply NoDup_insert_keys]. }
  intros [u removed] (Hu & Hus & Hux). split_and!; [done|done|]. intros x. rewrite Hux, insert_keys, !list_elem_of_fmap. split.
  - intros [(f & Ef & Hf)|[Hx Hxk]].
    + injection Ef as ->. exists f. split; [done|]. rewrite Hperm. set_solver.
    + apply Him, list_elem_of_fmap in Hx as (g & -> & Hg). exists g. split; [done|]. rewrite Hperm.
      destruct (Htouched g Hg) as [?|(f & Ef & Hf)%list_elem_of_fmap]; [set_solver|]. destruct Hxk.
      exists f. split; [by apply ukey_key|done].
  - intros (f & -> & Hf). rewrite Hperm in Hf. apply elem_of_app in Hf as [Hf|Hf]; [right|left; by exists f].
    split; [by apply Him, list_elem_of_fmap_2, Hkept|]. intros (g & Eg & Hg). apply (Hdisj (ukey_of f)).
    + by apply list_elem_of_fmap_2.
    + apply list_elem_of_fmap. exists g. split; [by apply ukey_key|done].
Qed.

(** What has been written comes from the old insertions and the new one. *)
Lemma written_stamps ps nps (n : N) ts f : Forall part_ok nps → units nps ≡ₚ units ps ++ units_of ts 0 n → f ∈ nps.*1 →
  stamp f = ts ∨ ∃ g, g ∈ ps.*1 ∧ stamp g = stamp f.
Proof.
  intros Hp Hu (p & -> & Hin)%list_elem_of_fmap. rewrite Forall_forall in Hp.
  assert (ukey_of p.1 ∈ units nps) as Hk.
  { apply list_elem_of_join. exists (punits p). split; [by apply first_unit, Hp|by apply list_elem_of_fmap_2]. }
  rewrite Hu in Hk. apply elem_of_app in Hk as [Hk|[E _]%elem_of_units_of]; [right|by left].
  apply list_elem_of_join in Hk as (l & Hk & (q & -> & Hq)%list_elem_of_fmap). apply elem_of_units_of in Hk as [E _].
  exists q.1. split; [by apply list_elem_of_fmap_2|done].
Qed.

(** A finished edit gives a snapshot that is well formed. *)
Lemma built_finish s ps bd nps kept pushed ts :
  snapshot_ok s ps → snapshot_low s → ts ∉ stamp <$> ps.*1 → ts ≠ LamportOps.MIN →
  built (visible_text s) (deleted_text s) ts (undone_in (undo_map s)) (members (insertion_slices s)) ps.*1
    bd ps [] nps kept pushed →
  returns (finish sort_insertions sort_slices s bd) (λ s', snapshot_ok s' nps ∧ follows ts ps nps ∧
    undo_map s' = undo_map s ∧ sversion s' = sversion s ∧ remote_id s' = remote_id s ∧
    sreplica_id s' = sreplica_id s ∧ line_ending s' = line_ending s).
Proof.
  intros Hok Hlow Hts Hmin [[] Ht]. unfold finish.
  destruct (pushed_keys ps nps kept pushed (next_offset bd) ts) as [Hunits Hkeys]; [done|apply Hok|done..|].
  eapply returns_bind; [by apply (rope_builder_finish _ _ (lo_visible _ Hlow) (lo_deleted _ Hlow) _ _ _ _ Ht)|].
  intros [v d] (Hv & Hvt & Hd & Hdt). cbn [strips fmap list_fmap] in Hvt, Hdt. rewrite app_nil_r in Hvt, Hdt.
  destruct (to_sum_tree_ok _ _ bt_fragments0) as (t & -> & Htok & Hti). cbn [mbind option_bind].
  rewrite bt_insertions0. eapply returns_bind; [by apply (insertions_ok s ps nps kept pushed)|].
  intros [u removed] Hu. destruct bt_slices0 as (marked & Hm & Hms). rewrite Hms in *.
  destruct (so_slices _ _ Hok) as [Hst Hss'].
  destruct (set_extend_ok insertion_slice_cmp sort_slices (insertion_slices s) (FragmentOps.insertion_slice ts <$> marked))
    as (sl & -> & Hsl & Hslm); [done|by split_and!; [..|apply Hlow]| |].
  { apply (NoDup_slices ts marked pushed Hm). rewrite fmap_app in Hkeys. by apply NoDup_app in Hkeys as (_ & _ & ?). }
  cbn [mbind option_bind]. apply returns_ret. rewrite app_nil_r in bt_ids0. split_and!; try done.
  2: { split; [done| |done]. by rewrite bt_order0, older_all. }
  split; cbn [fragments Snapshot.insertions visible_text deleted_text insertion_slices undo_map]; try done.
  - eapply Forall_impl; [exact bt_covered0|]. intros f. apply covered_mono. intros x Hx. apply Hslm.
    apply elem_of_app in Hx as [?|?]; [by right|by left].
  - assert (Forall (λ f, stamp f ≠ LamportOps.MIN) nps.*1) as Hnew.
    { apply Forall_forall. intros f Hf. destruct (written_stamps ps nps _ ts f bt_parts0 bt_units0 Hf) as [->|(g & Hg & <-)]; [done|].
      destruct (so_origins _ _ Hok) as [_ H]. rewrite Forall_forall in H. by apply H. }
    split; [|done]. apply Forall_forall. intros x [Hx|Hx]%Hslm.
    + apply list_elem_of_fmap in Hx as (f & -> & Hf). rewrite slice_of_insertion. rewrite Forall_forall in Hnew. apply Hnew.
      rewrite bt_perm0. apply elem_of_app. right. eapply elem_of_sublist; [exact Hf|exact Hm].
    + destruct (so_origins _ _ Hok) as [H _]. rewrite Forall_forall in H. by apply H.
  - apply Hok.
Qed.
End finish.
