(* ===== verification/LocalEdit.v ===== *)
(** * Local edits: [BufferSnapshot::apply_edit_internal] of [crates/text/src/text.rs]

    The edits of a batch replace ranges of the visible text. The old fragments
    are read once, in order: untouched subtrees are kept, fragments at the
    ends of a range are split, those inside are marked as deleted, and the new
    text becomes new fragments. *)

From stdpp Require Import sets sorting.
From S2P Require Import Prelude Clock Locator Patch SumTree SumCursor CursorSpec CursorWalk KeyedTree TreeMap UndoMap Text Rope RopeText LineEnding Fragment Builders Snapshot SnapshotSpec History.
Import TreeOps BuildingOps.

#[local] Unset Default Proof Using.
#[local] Arguments Nat.mul : simpl never.
#[local] Open Scope N_scope.
#[local] Existing Instance LamportOps.cmp_total.

(** ** The operation *)

(** The variables of the loop. *)
Record EditState := mkEditState {
  building : Building;
  edits_patch : Patch;
  old_fragments : Cursor Fragment FragmentSummary FragmentTextSummary;
  fragment_start : N;
  edit_ranges : list (Range N);
  edit_texts : list str }.

Module LocalEditOps.
Section LocalEditOps.
Variable MAX_INSERTION_LEN : N.
Variable replace_all : str → str.
Variable timestamp : Lamport.
Implicit Types (st : EditState) (range : Range N) (new_text : str).

#[local] Abbreviation cx := (@None Global).

Definition visible_start (c : Cursor Fragment FragmentSummary FragmentTextSummary) : N := tvisible (CursorOps.start c).
Definition visible_end (c : Cursor Fragment FragmentSummary FragmentTextSummary) : option N :=
  tvisible <$> CursorOps.end_ cx c.

(** [old_fragments.item().unwrap()] *)
Definition current (c : Cursor Fragment FragmentSummary FragmentTextSummary) : option Fragment :=
  item ← CursorOps.item c; item.

(** The target of a [usize] in visible text. *)
Definition at_offset (offset : N) (d : FragmentTextSummary) : comparison := offset ?= tvisible d.

(** If the current fragment has been partially consumed, the rest of it is
    consumed and the cursor goes on. *)
Definition consume_rest st : option EditState :=
  if visible_start (old_fragments st) <? fragment_start st then
    fragment_end ← visible_end (old_fragments st);
    bd ← (if fragment_start st <? fragment_end then
            fragment ← current (old_fragments st);
            suffix ← cut fragment (fragment_start st) fragment_end (visible_start (old_fragments st));
            push_part (building st) suffix (visible suffix)
          else Some (building st));
    c ← CursorOps.next cx (old_fragments st);
    Some (mkEditState bd (edits_patch st) c (fragment_start st) (edit_ranges st) (edit_texts st))
  else Some st.

Definition skip_before st range : option EditState :=
  fragment_end ← visible_end (old_fragments st);
  if fragment_end <? start range then
    st ← consume_rest st;
    '(slice, c) ← CursorOps.slice cx (at_offset (start range)) BiasRight (old_fragments st);
    bd ← append_slice (building st) slice;
    Some (mkEditState bd (edits_patch st) c (visible_start c) (edit_ranges st) (edit_texts st))
  else Some st.

Definition keep_prefix st range : option EditState :=
  if fragment_start st <? start range then
    fragment ← current (old_fragments st);
    prefix ← cut fragment (fragment_start st) (start range) (visible_start (old_fragments st));
    let prefix := with_id prefix (LocatorOps.between (max_id (building st)) (fid prefix)) in
    bd ← push_part (building st) prefix (visible prefix);
    Some (mkEditState bd (edits_patch st) (old_fragments st) (start range) (edit_ranges st) (edit_texts st))
  else Some st.

Definition insert_text st new_text : option EditState :=
  if Str.length_utf8 new_text =? 0 then Some st
  else
    let new_start := tvisible (ftext (FragmentBuilderOps.summary (new_fragments (building st)))) in
    item ← CursorOps.item (old_fragments st);
    let next_fragment_id := match item with Some old_fragment => fid old_fragment | None => LocatorOps.max end in
    bd ← push_fragments_for_insertion MAX_INSERTION_LEN new_text timestamp next_fragment_id timestamp (building st);
    Some (mkEditState bd
      (PatchOps.push (edits_patch st) (mkEdit (fragment_start st ..: fragment_start st)
        (new_start ..: new_start + Str.length_utf8 new_text)))
      (old_fragments st) (fragment_start st) (edit_ranges st) (edit_texts st)).

(** The part of the fragment that is in the range, deleted if it was visible. *)
Definition intersect st (fragment : Fragment) (intersection_end : N) : option Fragment :=
  if visible fragment then
    piece ← cut fragment (fragment_start st) intersection_end (visible_start (old_fragments st));
    Some (deleted (with_id piece (LocatorOps.between (max_id (building st)) (fid piece))) timestamp)
  else Some fragment.

Definition push_intersection st (fragment intersection : Fragment) (intersection_end : N) : option EditState :=
  if 0 <? flen intersection then
    let removed := visible fragment && negb (visible intersection) in
    let new_start := tvisible (ftext (FragmentBuilderOps.summary (new_fragments (building st)))) in
    let patch := if removed then PatchOps.push (edits_patch st)
                   (mkEdit (fragment_start st ..: intersection_end) (new_start ..: new_start))
                 else edits_patch st in
    bd ← push_part (if removed then push_slice (building st) timestamp intersection else building st)
      intersection (visible fragment);
    Some (mkEditState bd patch (old_fragments st) intersection_end (edit_ranges st) (edit_texts st))
  else Some st.

(** One iteration of the loop over the fragments that intersect the range. *)
Definition delete_step range st : option (EditState + EditState) :=
  if fragment_start st <? stop range then
    fragment ← current (old_fragments st);
    fragment_end ← visible_end (old_fragments st);
    let intersection_end := N.min (stop range) fragment_end in
    intersection ← intersect st fragment intersection_end;
    st ← push_intersection st fragment intersection intersection_end;
    c ← (if fragment_end <=? stop range then CursorOps.next cx (old_fragments st) else Some (old_fragments st));
    Some (inl (mkEditState (building st) (edits_patch st) c (fragment_start st) (edit_ranges st) (edit_texts st)))
  else Some (inr st).

(** Every iteration but the last goes to the next fragment. *)
Definition delete_fuel st : nat := Datatypes.S (weight (tree (old_fragments st))).

(** The body of the loop over the edits. *)
Definition apply_one st (edit : Range N * str) : option EditState :=
  let '(range, new_text) := edit in
  let new_text := LineEndingOps.normalize replace_all new_text in
  st ← skip_before st range;
  let full_range_start := start range + tdeleted (CursorOps.start (old_fragments st)) in
  st ← keep_prefix st range;
  st ← insert_text st new_text;
  st ← iterate (delete_step range) (delete_fuel st) st;
  let full_range_end := stop range + tdeleted (CursorOps.start (old_fragments st)) in
  Some (mkEditState (building st) (edits_patch st) (old_fragments st) (fragment_start st)
    (edit_ranges st ++ [full_range_start ..: full_range_end]) (edit_texts st ++ [new_text])).

Fixpoint apply_all st (edits : list (Range N * str)) : option EditState :=
  match edits with
  | [] => Some st
  | edit :: edits => st ← apply_one st edit; apply_all st edits
  end.

(** The cursors and builders, with what is before the first edit. *)
Definition begin_edit (s : BufferSnapshot) (first_start : N) : option EditState :=
  v ← RopeOps.cursor (visible_text s) 0;
  d ← RopeOps.cursor (deleted_text s) 0;
  let new_ropes := RopeBuilderOps.new v d in
  '(slice, c) ← CursorOps.slice cx (at_offset first_start) BiasRight (CursorOps.new cx (fragments s));
  let new_fragments := FragmentBuilderOps.new slice in
  ropes ← RopeBuilderOps.append new_ropes (ftext (FragmentBuilderOps.summary new_fragments));
  Some (mkEditState (mkBuilding new_fragments ropes [] [] 0) [] c (visible_start c) [] []).

Definition finish_edit sort_insertions sort_slices (s : BufferSnapshot) st : option BufferSnapshot :=
  st ← consume_rest st;
  '(suffix, _) ← CursorOps.suffix cx (old_fragments st);
  bd ← append_slice (building st) suffix;
  finish sort_insertions sort_slices s bd.

Definition apply_edit_internal sort_insertions sort_slices (s : BufferSnapshot) (edits : list (Range N * str)) :
    option (BufferSnapshot * (EditOperation * Patch)) :=
  match edits with
  | [] => Some (s, (mkEditOperation timestamp (sversion s) [] [], []))
  | (first_range, _) :: _ =>
      st ← begin_edit s (start first_range);
      st ← apply_all st edits;
      s' ← finish_edit sort_insertions sort_slices s st;
      Some (s', (mkEditOperation timestamp (sversion s) (edit_ranges st) (edit_texts st), edits_patch st))
  end.

End LocalEditOps.
End LocalEditOps.
Import LocalEditOps.

(** ** Pieces of fragments *)

(** The parts that have been read when [u] has been read of the fragment [x]. *)
Definition before (b : list part) (x : Fragment) (u : str) : list part :=
  match u with [] => b | _ => b ++ [(x, u)] end.

(** [f] is the piece of [x] with the text [m], after [u]; it is marked when the
    edit deletes it. *)
Record piece_of (ts : Lamport) (x : Fragment) (u m : str) (mark : bool) (f : Fragment) : Prop := {
  pc_stamp : stamp f = stamp x;
  pc_offset : insertion_offset f = insertion_offset x + Str.length_utf8 u;
  pc_len : flen f = Str.length_utf8 m;
  pc_deletions : deletions f = deletions x ++ if mark then [ts] else [];
  pc_visible : visible f = visible x && negb mark }.

Section pieces.
Context (ts : Lamport).
Implicit Types (x f : Fragment) (b r nps : list part) (u m w : str).

Lemma side_before v b x u : side v (strips (before b x u)) = side v (strips b ++ [(visible x, u)]).
Proof.
  destruct u as [|c u]; cbn [before]; [|by rewrite strips_app].
  rewrite side_app, side_one. destruct (Bool.eqb _ _); by rewrite app_nil_r.
Qed.

Lemma side_before_app v b x u m :
  side v (strips (before b x (u ++ m))) = side v (strips (before b x u) ++ [(visible x, m)]).
Proof.
  rewrite side_before, side_app, (side_app v (strips (before _ _ _))), side_before, side_app, !side_one.
  destruct (Bool.eqb _ _); by rewrite <- ?app_assoc.
Qed.

Lemma units_before b x u : units (before b x u) = units b ++ punits (x, u).
Proof. destruct u; cbn [before]; [by rewrite app_nil_r|]. by rewrite units_app, units_one. Qed.

Lemma before_keys b x u m f g mark : m ≠ [] → piece_of ts x u m mark f → g ∈ (before b x (u ++ m)).*1 →
  g ∈ (before b x u).*1 ∨ ukey_of g = ukey_of f.
Proof.
  intros Hm []. destruct u as [|c u]; cbn [app before].
  - destruct m; [done|]. cbn [before]. rewrite fmap_app. intros [?| ->%list_elem_of_singleton]%elem_of_app; [by left|right].
    unfold ukey_of. rewrite pc_stamp0, pc_offset0. by rewrite N.add_0_r.
  - rewrite !fmap_app. by left.
Qed.

Lemma cut_piece x u m w (base : N) : part_ok (x, u ++ m ++ w) →
  returns (cut x (base + Str.length_utf8 u) (base + Str.length_utf8 (u ++ m)) base)
    (λ f, piece_of ts x u m false f ∧ fid f = fid x).
Proof.
  intros [Hl _ Hf _ _ _]. cbn [fst snd] in *. unfold cut. rewrite !length_utf8_app in *.
  rewrite !usize_sub_le by lia. cbn [mbind option_bind]. apply returns_ret.
  split; [|done]. split; cbn; [done| | |by rewrite app_nil_r|by rewrite andb_true_r].
  - rewrite u32_add_fits by lia. lia.
  - unfold as_u32. rewrite N.mod_small by lia. lia.
Qed.

Lemma piece_with_id x u m mark f i : piece_of ts x u m mark f → piece_of ts x u m mark (with_id f i).
Proof. by intros []. Qed.

Lemma piece_deleted x u m f : piece_of ts x u m false f → piece_of ts x u m true (deleted f ts).
Proof. intros []. split; cbn; [done..| |by rewrite andb_false_r]. by rewrite pc_deletions0, app_nil_r. Qed.

(** A piece inherits the slices and the visibility of its fragment. *)
Lemma piece_covered x u m w mark f sl : part_ok (x, u ++ m ++ w) → piece_of ts x u m mark f →
  covered sl x → covered (sl ++ marks ts mark f) f.
Proof.
  intros [Hl _ Hf _ _ _] [] Hc e He Hb. cbn [fst snd] in *. rewrite !length_utf8_app in Hl.
  rewrite pc_stamp0, pc_deletions0 in He.
  assert (e ∈ stamp x :: deletions x ∨ mark = true ∧ e = ts) as [Hx|[-> ->]].
  { destruct mark; [|left; by rewrite app_nil_r in He]. change (stamp x :: deletions x ++ [ts]) with ((stamp x :: deletions x) ++ [ts]) in He.
    apply elem_of_app in He as [?|?%list_elem_of_singleton]; auto. }
  - destruct (Hc e Hx Hb) as (y & Hy & Hye & Hyi & Hys & Hyt). exists y. split_and!; [set_solver|done|congruence|lia|lia].
  - exists (FragmentOps.insertion_slice ts f). rewrite slice_of_edit, slice_of_insertion.
    split_and!; [cbn; set_solver|done|done|done|]. cbn. rewrite u32_add_small; lia.
Qed.

(** An undone edit has not deleted the piece. *)
Lemma piece_view x u m mark f v : v ts = true → piece_of ts x u m mark f → shows v f = shows v x.
Proof.
  intros Hv []. unfold shows. rewrite pc_stamp0, pc_deletions0, forallb_app. destruct mark; cbn; by rewrite ?Hv, ?andb_true_r.
Qed.

Lemma view_before v b x u : view v (before b x u) = view v b ++ if shows v x then u else [].
Proof. destruct u; cbn [before]; [by destruct (shows v x); rewrite app_nil_r|]. by rewrite view_app, view_one. Qed.

Lemma piece_shown x u m mark f undone : undone ts = false → piece_of ts x u m mark f →
  visible x = shows undone x → visible f = shows undone f.
Proof.
  intros Hu [] Hx. rewrite pc_visible0, Hx. unfold shows. rewrite pc_stamp0, pc_deletions0, forallb_app.
  destruct mark; cbn; [by rewrite Hu, !andb_false_r|by rewrite !andb_true_r].
Qed.
End pieces.

(** ** Writing a piece of the current fragment *)

Section emit.
Context (rv rd : Rope) (Hrv : sliceable rv) (Hrd : sliceable rd).
Context (ts : Lamport) (undone : Lamport → bool) (Hts : undone ts = false) (old_slices : list InsertionSlice) (old : list Fragment).
Implicit Types (x f : Fragment) (b r nps : list part) (u m w : str) (bd : Building).

Abbreviation built := (built rv rd ts undone old_slices old).

Lemma emit bd b x u m w r wr nps kept pushed f (mark : bool) :
  built bd (before b x u) ((x, m ++ w) :: r) nps kept pushed → m ≠ [] →
  part_ok (x, u ++ m ++ w) → covered old_slices x → visible x = shows undone x → x ∈ old → piece_of ts x u m mark f →
  (wr = (x, w) :: r ∧ fid f = LocatorOps.between (BuildingOps.max_id bd) (fid x) ∨ wr = r ∧ w = [] ∧ fid f = fid x) →
  returns (push_part (if mark then push_slice bd ts f else bd) f (visible x)) (λ bd',
    built bd' (before b x (u ++ m)) wr (nps ++ [(f, m)]) kept (pushed ++ [f]) ∧ next_offset bd' = next_offset bd).
Proof.
  intros Hb Hm Hx Hcov Hshow Hold Hf Hwr. pose proof Hx as [Hxl _ Hxf Hxi Hxm Hxc]. cbn [fst snd] in *.
  rewrite !length_utf8_app in Hxl. pose proof (bt_shape _ _ _ _ _ _ _ _ _ _ _ _ Hb) as Hsh.
  assert (StronglySorted id_lt ((nps.*1 ++ [f]) ++ wr.*1) ∧ locator_ok (fid f) ∧ LocatorOps.cmp (fid f) LocatorOps.max = Lt)
    as (Hs & Hi & Hmax).
  { destruct Hwr as [[-> Hid]|(-> & -> & Hid)]; [by apply (shaped_between _ _ _ _ _ _ _ _ _ _ _ Hsh)|].
    rewrite Hid. split_and!; [|done..]. pose proof (bt_ids _ _ _ _ _ _ _ _ _ _ Hsh) as Hids. cbn [fmap list_fmap fst] in Hids.
    apply StronglySorted_app in Hids as (H1 & H2 & [H3 H4]%StronglySorted_cons). apply sorted_insert.
    - apply StronglySorted_app. split_and!; [|done|done]. intros y z Hy Hz. apply H1; [done|by right].
    - intros g Hg. unfold id_lt. rewrite Hid. apply H1; [done|by left].
    - intros g Hg. unfold id_lt. rewrite Hid. rewrite Forall_forall in H3. by apply H3. }
  pose proof Hf as [Hfs Hfo Hfl Hfd Hfv].
  apply (built_push rv rd Hrv Hrd ts undone old_slices old bd (before b x u) ((x, m ++ w) :: r)); [done|..].
  - intros v. change (strips ((x, m ++ w) :: r)) with ((visible x, m ++ w) :: strips r). rewrite !side_cons.
    destruct Hwr as [[-> _]|(-> & -> & _)]; [|by rewrite app_nil_r].
    change (strips ((x, w) :: r)) with ((visible x, w) :: strips r). rewrite side_cons.
    destruct (Bool.eqb _ _); [by rewrite <- !app_assoc|done].
  - intros v. apply side_before_app.
  - rewrite !units_before, <- app_assoc. unfold punits. cbn [fst snd]. rewrite length_utf8_app, units_of_add, Hfs, Hfo. done.
  - split; cbn [fst snd]; [done|done|lia|done|done|]. apply clean_app in Hxc as [_ [? _]%clean_app]. done.
  - done.
  - destruct Hwr as [[-> _]|(-> & -> & _)]; cbn [fmap list_fmap fst]; [done|]. intros g Hg. by right.
  - intros g. by apply (before_keys ts b x u m f g mark).
  - rewrite app_assoc. apply (piece_covered ts x u m w); [done|done|]. eapply covered_mono; [|exact Hcov]. set_solver.
  - by apply (piece_shown ts x u m mark).
  - intros v Hv. rewrite !view_before, view_one, (piece_view ts x u m mark f v Hv Hf), <- app_assoc. by destruct (shows v x).
  - intros t. rewrite Hfs, Hfd. intros [->|[Ht|Ht]%elem_of_app]%elem_of_cons.
    + right. apply elem_of_stamps. exists x. split; [done|by left].
    + right. apply elem_of_stamps. exists x. split; [done|by right].
    + left. destruct mark; [by apply list_elem_of_singleton in Ht|by apply elem_of_nil in Ht].
Qed.

(** Once all of it has been written, the fragment is left behind. *)
Lemma before_full b x s : s ≠ [] → before b x s = b ++ [(x, s)].
Proof. by destruct s. Qed.
End emit.

(** ** Seeking in visible text *)

Section seeking.
Context {D : Type} `{!Dimension D FragmentSummary (option Global)} (cx : option Global).
Context (μ : D → N) (Hμ : ∀ d (f : Fragment), μ d <= μ (dadd cx d (isummary cx f))).
Implicit Types (l r : list Fragment) (d : D).

Lemma measure_le d l : μ d <= μ (posn cx d l).
Proof.
  revert d. induction l as [|f l IH]; intros d; [done|].
  specialize (IH (dadd cx d (isummary cx f))). specialize (Hμ d f).
  change (posn cx d (f :: l)) with (posn cx (dadd cx d (isummary cx f)) l). lia.
Qed.

Lemma measure_skips v d bias : CursorOps.skips (λ d, v ?= μ d) bias d = true ↔ passes bias v (μ d).
Proof.
  unfold CursorOps.skips, passes. destruct (N.compare_spec v (μ d)), bias;
    rewrite ?bool_decide_eq_true; (split; [try done; lia|]; try done; lia).
Qed.

Lemma measure_monotone v bias d l : monotone cx (λ d, v ?= μ d) bias d l.
Proof.
  intros a k Ha _ Hin. rewrite posn_app. pose proof (measure_le (posn cx d a) k) as Hle.
  rewrite <- negb_false_iff, <- skips_inside in *. apply not_true_iff_false. intros Hs.
  apply not_true_iff_false in Hin. apply Hin. apply measure_skips in Hs. apply measure_skips.
  destruct bias; simpl in *; lia.
Qed.

(** Where seeking stops. *)
Lemma seek_split_measure v bias d l :
  let '(m, r) := seek_split cx (λ d, v ?= μ d) bias d l in
  l = m ++ r ∧ (m = [] ∨ passes bias v (μ (posn cx d m))) ∧
  match r with x :: _ => ¬ passes bias v (μ (posn cx d (m ++ [x]))) | [] => True end.
Proof.
  revert d. induction l as [|x l IH]; intros d; cbn [seek_split]; [by split_and!; [|left|]|].
  destruct (CursorOps.skips _ _ _) eqn:E.
  - specialize (IH (dadd cx d (isummary cx x))). destruct (seek_split _ _ _ _ _) as [m r].
    destruct IH as (-> & Hm & Hr). apply measure_skips in E. split_and!; [done| |done].
    right. by destruct Hm as [->|Hm].
  - split_and!; [done|by left|]. rewrite <- measure_skips. cbn [app]. intros H.
    change (posn cx d [x]) with (dadd cx d (isummary cx x)) in H. congruence.
Qed.
End seeking.

(** ** Editing a text *)

(** What the edits do to a text [z] that starts at the offset [o]. *)
Fixpoint splice (o : N) (z : str) (edits : list (Range N * str)) : option str :=
  match edits with
  | [] => Some z
  | (range, text) :: edits =>
      skipped ← usize_sub (start range) o;
      '(kept, z) ← Str.split_at z skipped;
      width ← usize_sub (stop range) (start range);
      '(_, z) ← Str.split_at z width;
      rest ← splice (stop range) z edits;
      Some (kept ++ unix_lines text ++ rest)
  end.

Definition new_texts (edits : list (Range N * str)) : list str := (λ e, unix_lines e.2) <$> edits.

Lemma splice_cons o z range text edits z' : splice o z ((range, text) :: edits) = Some z' →
  ∃ g d rest z'', range = (o + Str.length_utf8 g ..: o + Str.length_utf8 g + Str.length_utf8 d) ∧ z = g ++ d ++ rest ∧
    splice (o + Str.length_utf8 g + Str.length_utf8 d) rest edits = Some z'' ∧ z' = g ++ unix_lines text ++ z''.
Proof.
  cbn [splice]. unfold usize_sub. destruct (N.leb_spec o (start range)) as [Ho|]; [|done]. cbn [mbind option_bind].
  destruct (Str.split_at z _) as [[g z1]|] eqn:E1; [|done]. apply split_at_some in E1 as [-> Hg]. cbn [mbind option_bind].
  destruct (N.leb_spec (start range) (stop range)) as [Hr|]; [|done]. cbn [mbind option_bind].
  destruct (Str.split_at z1 _) as [[d rest]|] eqn:E2; [|done]. apply split_at_some in E2 as [-> Hd]. cbn [mbind option_bind].
  destruct (splice _ rest edits) as [z''|] eqn:E3; [|done]. intros [= <-]. exists g, d, rest, z''.
  rewrite Hg, Hd. replace (o + (start range - o)) with (start range) by lia.
  replace (start range + (stop range - start range)) with (stop range) by lia. by destruct range.
Qed.

Lemma splice_intro (o : N) g d rest range text edits z'' :
  range = (o + Str.length_utf8 g ..: o + Str.length_utf8 g + Str.length_utf8 d) →
  splice (o + Str.length_utf8 g + Str.length_utf8 d) rest edits = Some z'' →
  splice o (g ++ d ++ rest) ((range, text) :: edits) = Some (g ++ unix_lines text ++ z'').
Proof.
  intros -> Hz. cbn [splice start stop]. rewrite (usize_sub_le (o + _) o), N_add_sub_l by lia. cbn [mbind option_bind].
  rewrite split_at_app. cbn [mbind option_bind]. rewrite usize_sub_le, N_add_sub_l by lia. cbn [mbind option_bind].
  rewrite split_at_app. cbn [mbind option_bind]. by rewrite Hz.
Qed.

(** The text before the first edit can be set apart. *)
Lemma splice_after b k range text edits z : splice 0 (b ++ k) ((range, text) :: edits) = Some z →
  Str.length_utf8 b <= start range →
  ∃ z', z = b ++ z' ∧ splice (Str.length_utf8 b) k ((range, text) :: edits) = Some z'.
Proof.
  intros (g & d & rest & z1 & -> & Hg & Hz & ->)%splice_cons. cbn [start]. rewrite !N.add_0_l in *. intros Hle.
  destruct (prefix_cut _ _ _ _ Hg Hle) as (g' & -> & ->). exists (g' ++ unix_lines text ++ z1). rewrite <- app_assoc. split; [done|].
  rewrite length_utf8_app in *. by apply splice_intro.
Qed.
