(* ===== verification/LocalEditSpec.v ===== *)
(** * What a local edit does to a snapshot

    The blocks of [apply_edit_internal], each with the invariant of the loop
    ([edited]): the old fragments are read in order, what has been read and
    written gives the patch, and the texts follow. Together: a batch of edits
    gives a well-formed snapshot with the edited text. *)

From stdpp Require Import sets sorting.
From S2P Require Import Prelude Clock Locator Patch SumTree SumCursor CursorSpec CursorWalk KeyedTree TreeMap UndoMap Text Rope RopeText LineEnding Fragment Builders Snapshot Cells SnapshotSpec History LocalEdit.
Import TreeOps BuildingOps LocalEditOps.

#[local] Unset Default Proof Using.
#[local] Arguments Nat.mul : simpl never.
#[local] Open Scope N_scope.
#[local] Existing Instance LamportOps.cmp_total.

(** ** Pieces of parts as cells *)

Section pieces.
Variable ts : Lamport.
Implicit Types (x f : Fragment) (b r : list part) (u m w : str).

(** The cells of the text [m] of [x] that comes after [u]. *)
Definition inner x u m : list Cell := text_cells (stamp x) (fragment_marks x) (insertion_offset x + Str.length_utf8 u) m.

Lemma inner_app x u m w : inner x u (m ++ w) = inner x u m ++ inner x (u ++ m) w.
Proof. unfold inner. by rewrite text_cells_app, length_utf8_app, N.add_assoc. Qed.

Lemma part_inner x m : part_cells (x, m) = inner x [] m.
Proof. unfold inner. cbn. by rewrite N.add_0_r. Qed.

Lemma part_inner_app x u m : part_cells (x, u ++ m) = part_cells (x, u) ++ inner x u m.
Proof. by rewrite !part_inner, inner_app. Qed.

Lemma cells_before b x u : cells (before b x u) = cells b ++ part_cells (x, u).
Proof. destruct u; cbn [before]; [by rewrite app_nil_r|]. by rewrite cells_app, cells_one. Qed.

Lemma cells_before_app b x u m : cells (before b x (u ++ m)) = cells (before b x u) ++ inner x u m.
Proof. by rewrite !cells_before, part_inner_app, app_assoc. Qed.

Lemma inner_nil x u m : inner x u m = [] ↔ m = [].
Proof. split; [apply text_cells_nil|by intros ->]. Qed.

(** All of the part that the cursor is in. *)
Lemma cells_current b x u w : cells (b ++ [(x, u ++ w)]) = cells (before b x u) ++ inner x u w.
Proof. by rewrite cells_app, cells_one, part_inner_app, cells_before, app_assoc. Qed.

(** What a piece of [x] stands for. *)
Lemma piece_cells x u m f (mark : bool) : piece_of ts x u m mark f →
  part_cells (f, m) = if mark then Cells.mark ts <$> inner x u m else inner x u m.
Proof.
  intros []. clear pc_len. unfold part_cells, inner, fragment_marks. cbn [fst snd]. rewrite pc_stamp, pc_offset, pc_deletions.
  generalize (insertion_offset x + Str.length_utf8 u). intros o. destruct mark; [|by rewrite app_nil_r].
  revert o. induction m as [|c m IH]; intros o; [done|]. cbn [text_cells fmap list_fmap]. f_equal; [|apply IH].
  unfold Cells.mark. cbn. f_equal. by rewrite list_to_set_app_L, list_to_set_singleton_L, union_comm_L.
Qed.

(** What an edit makes of a cell in its range: [u] is what is undone. *)
Definition delete_shown (undone : Lamport → bool) (c : Cell) : Cell := if cell_shows undone c then Cells.mark ts c else c.

Lemma delete_shown_inner undone x u m : delete_shown undone <$> inner x u m =
  if shows undone x then Cells.mark ts <$> inner x u m else inner x u m.
Proof.
  unfold inner. generalize (insertion_offset x + Str.length_utf8 u). intros o.
  revert o. induction m as [|c m IH]; intros o; [by destruct (shows undone x)|]. cbn [text_cells fmap list_fmap]. rewrite IH.
  assert (cell_shows undone (mkCell (stamp x) o c (fragment_marks x)) = shows undone x) as E.
  { unfold cell_shows, shows. cbn [cstamp cmarks]. by rewrite marks_forall. }
  unfold delete_shown at 1. rewrite E. by destruct (shows undone x).
Qed.
End pieces.

(** ** The blocks of the loop *)

Section blocks.
Context (s : BufferSnapshot) (ps : list part) (Hok : snapshot_ok s ps) (Hlow : snapshot_low s).
Context (ts : Lamport) (Hts : undone_in (undo_map s) ts = false).
Implicit Types (b k r bu wr nps : list part) (x f : Fragment) (u w m a t g n : str) (st : EditState).

#[local] Abbreviation cx := (@None Global).
#[local] Abbreviation cursor := (Cursor Fragment FragmentSummary FragmentTextSummary).
Abbreviation built := (built (visible_text s) (deleted_text s) ts (undone_in (undo_map s))
  (members (insertion_slices s)) ps.*1).

Definition shown ps : str := side true (strips ps).

(** What is done to a cell in the range of an edit. *)
#[local] Abbreviation del := (delete_shown ts (undone_in (undo_map s))).

(** The cursor is in the old fragments after [bu] and before [wr]. *)
Inductive located (c : cursor) : list part → list part → Prop :=
| located_end : tree c = fragments s → cursor_at cx c (spot_of ps.*1 []) → located c ps []
| located_on b x u w r :
    tree c = fragments s → ps = b ++ (x, u ++ w) :: r → (visible x = false → u = []) →
    cursor_at cx c (On b.*1 x r.*1) → located c (before b x u) ((x, w) :: r).

(** The parts written so far, and the patch of the visible text. *)
Record wrote st bu wr nps (kept pushed : list Fragment) : Prop := {
  wr_built : built (building st) bu wr nps kept pushed;
  wr_patch : patched 0 0 (edits_patch st) (Str.as_bytes (shown bu)) (Str.as_bytes (shown nps));
  wr_separated : separated (edits_patch st) }.

(** The invariant of the loop. *)
Record edited st bu wr nps (kept pushed : list Fragment) : Prop := {
  ed_located : located (old_fragments st) bu wr;
  ed_start : fragment_start st = Str.length_utf8 (shown bu);
  ed_wrote : wrote st bu wr nps kept pushed }.

Lemma posn_text l : posn cx (dzero FragmentSummary cx) l = text_of l.
Proof.
  induction l as [|f l IH] using rev_ind; [done|]. rewrite posn_snoc, IH, text_of_app. cbn.
  unfold text_add. cbn. f_equal; lia.
Qed.

Lemma ps_parts b k : ps = b ++ k → Forall part_ok b ∧ Forall part_ok k.
Proof using Hok. intros ->. apply Forall_app, (so_parts _ _ Hok). Qed.

Lemma ps_known b x m r : ps = b ++ (x, m) :: r →
  part_ok (x, m) ∧ covered (members (insertion_slices s)) x ∧ visible x = shows (undone_in (undo_map s)) x ∧ x ∈ ps.*1.
Proof using Hok.
  clear Hlow Hts ts. intros E. pose proof (so_parts _ _ Hok) as H1. pose proof (so_covered _ _ Hok) as H2. pose proof (so_shown _ _ Hok) as H3.
  assert ((x, m) ∈ ps) as Hin by (rewrite E; set_solver).
  assert (x ∈ ps.*1) as Hf by exact (list_elem_of_fmap_2 fst ps (x, m) Hin).
  rewrite Forall_forall in H1. rewrite Forall_forall in H2. rewrite Forall_forall in H3.
  split_and!; [by apply H1|by apply H2|by apply H3|done].
Qed.

Lemma parts_visible b : Forall part_ok b → tvisible (text_of b.*1) = Str.length_utf8 (shown b).
Proof. intros Hb. by rewrite parts_text. Qed.

Lemma shown_before b x u : shown (before b x u) = shown b ++ if visible x then u else [].
Proof. unfold shown. rewrite side_before, side_app, side_one. by destruct (visible x). Qed.

Lemma shown_app b k : shown (b ++ k) = shown b ++ shown k.
Proof. unfold shown. by rewrite strips_app, side_app. Qed.

Lemma shown_cons x w r : shown ((x, w) :: r) = (if visible x then w else []) ++ shown r.
Proof. unfold shown. change (strips ((x, w) :: r)) with ((visible x, w) :: strips r). rewrite side_cons. by destruct (visible x). Qed.

Lemma shown_one x w : shown [(x, w)] = if visible x then w else [].
Proof. by rewrite shown_cons, app_nil_r. Qed.

(** What the cursor says about its place. *)
Lemma located_reads c bu wr : located c bu wr →
  visible_start c <= Str.length_utf8 (shown bu) ∧
  tree c = fragments s ∧
  match wr with
  | [] => bu = ps ∧ cursor_at cx c (spot_of ps.*1 []) ∧ visible_start c = Str.length_utf8 (shown ps) ∧
      visible_end c = Some (Str.length_utf8 (shown ps)) ∧ CursorOps.item c = Some None
  | (x, w) :: r => ∃ b u, bu = before b x u ∧ ps = b ++ (x, u ++ w) :: r ∧ (visible x = false → u = []) ∧
      cursor_at cx c (On b.*1 x r.*1) ∧ visible_start c = Str.length_utf8 (shown b) ∧
      visible_end c = Some (Str.length_utf8 (shown b) + if visible x then Str.length_utf8 (u ++ w) else 0) ∧
      CursorOps.item c = Some (Some x) ∧ current c = Some x
  end.
Proof.
  unfold visible_start, visible_end, current. intros [Ht Hat|b x u w r Ht Hps Hu Hat].
  - rewrite (start_ok cx c _ Hat), (end_ok cx c _ Hat), (item_ok cx c _ Hat) by done. cbn [spot_of spot_start spot_item option_list].
    rewrite app_nil_r, Ht, (so_items _ _ Hok), !posn_text, parts_visible by apply Hok.
    cbn [fmap option_fmap option_map]. rewrite parts_visible by apply Hok. by split_and!.
  - rewrite (start_ok cx c _ Hat), (end_ok cx c _ Hat), (item_ok cx c _ Hat) by done. cbn [spot_start spot_item option_list].
    destruct (ps_parts _ _ Hps) as [Hb Hk%Forall_cons]. destruct Hk as [[Hl _ _ _ _ _] _]. cbn [fst snd] in Hl.
    rewrite !posn_text, text_of_app. cbn [fmap option_fmap option_map mbind option_bind]. unfold text_add. cbn [tvisible].
    rewrite parts_visible by done. split; [|split; [done|]].
    + rewrite shown_before, length_utf8_app. lia.
    + exists b, u. split_and!; try done. f_equal. change (option_list (Some x)) with [x]. cbn [text_of]. unfold text_add, fragment_text. cbn [tvisible].
      destruct (visible x); cbn [tvisible]; lia.
Qed.

(** [c] is between the fragments of [b] and those of [k]. *)
Definition at_boundary (c : cursor) b k : Prop :=
  tree c = fragments s ∧ ps = b ++ k ∧ cursor_at cx c (spot_of b.*1 k.*1).

Lemma boundary_located c b k : at_boundary c b k → located c b k.
Proof.
  intros (Ht & Hps & Hat). destruct k as [|[x w] r].
  - rewrite app_nil_r in Hps. subst b. by apply located_end.
  - by apply (located_on c b x [] w r).
Qed.

Lemma boundary_next c b x u w r : located c (before b x u) ((x, w) :: r) → ps = b ++ (x, u ++ w) :: r →
  cursor_at cx c (On b.*1 x r.*1) →
  returns (CursorOps.next cx c) (λ c', at_boundary c' (b ++ [(x, u ++ w)]) r).
Proof.
  intros Hloc Hps Hat. destruct (located_reads _ _ _ Hloc) as (_ & Ht & _).
  eapply returns_mono; [apply (next_ok cx c _ _ _ Hat); rewrite Ht; apply Hlow|]. intros c' [Ht' Hat'].
  split_and!; [congruence|by rewrite <- app_assoc|]. by rewrite fmap_app.
Qed.
(** What a block leaves alone. *)
Definition same_op st st' : Prop :=
  edit_ranges st' = edit_ranges st ∧ edit_texts st' = edit_texts st ∧
  next_offset (building st') = next_offset (building st).

Lemma extend_patch p a n m : patched 0 0 p (Str.as_bytes a) (Str.as_bytes n) →
  patched 0 0 p (Str.as_bytes (a ++ m)) (Str.as_bytes (n ++ m)).
Proof. intros Hp. rewrite !as_bytes_app. by apply patched_extend. Qed.

(** A piece of the current fragment, not deleted, is written. *)
Lemma write_kept b x u m w r nps kept pushed bd f wr :
  ps = b ++ (x, u ++ m ++ w) :: r → built bd (before b x u) ((x, m ++ w) :: r) nps kept pushed → m ≠ [] →
  piece_of ts x u m false f →
  (wr = (x, w) :: r ∧ fid f = LocatorOps.between (BuildingOps.max_id bd) (fid x) ∨ wr = r ∧ w = [] ∧ fid f = fid x) →
  returns (push_part bd f (visible x)) (λ bd', built bd' (before b x (u ++ m)) wr (nps ++ [(f, m)]) kept (pushed ++ [f]) ∧
    next_offset bd' = next_offset bd ∧ cells (nps ++ [(f, m)]) = cells nps ++ inner x u m).
Proof.
  intros Hps Hb Hm Hf Hwr. destruct (ps_known _ _ _ _ Hps) as (Hx & Hc & Hv & Hin).
  eapply returns_mono.
  { by eapply (emit _ _ (lo_visible _ Hlow) (lo_deleted _ Hlow) ts _ Hts _ _ bd b x u m w r wr nps kept pushed f false). }
  intros bd' [Hb' Ho]. split_and!; [exact Hb'|exact Ho|]. by rewrite cells_app, cells_one, (piece_cells ts x u m f false Hf).
Qed.

(** What is left when the rest of the current fragment has been read. *)
Record rest_consumed st bu wr nps (kept : list Fragment) st' m b k nps' (pushed' : list Fragment) : Prop := {
  rc_wrote : wrote st' b k nps' kept pushed';
  rc_boundary : at_boundary (old_fragments st') b k;
  rc_same : same_op st st';
  rc_start : fragment_start st' = fragment_start st;
  rc_read : shown b = shown bu ++ m;
  rc_written : shown nps' = shown nps ++ m;
  rc_cells : ∃ g : list Cell, cells b = cells bu ++ g ∧ cells nps' = cells nps ++ g;
  rc_ahead : shown wr = m ++ shown k;
  rc_end : m = [] ∨ visible_end (old_fragments st) = Some (Str.length_utf8 (shown bu ++ m)) }.

Lemma consume_rest_ok st bu wr nps kept pushed : edited st bu wr nps kept pushed →
  returns (consume_rest st) (λ st', ∃ m b k nps' pushed', rest_consumed st bu wr nps kept st' m b k nps' pushed').
Proof.
  intros He. pose proof He as [Hloc Hst [Hb Hp Hsep]]. unfold consume_rest. rewrite Hst.
  pose proof (located_reads _ _ _ Hloc) as (_ & Ht & Hread). destruct wr as [|[x w] r].
  { destruct Hread as (-> & Hat & -> & _). rewrite N.ltb_irrefl. apply returns_ret. exists [], ps, [], nps, pushed.
    split; rewrite ?app_nil_r; try done; [by split_and!; rewrite ?app_nil_r|exists []; by rewrite !app_nil_r|by left]. }
  destruct Hread as (b & u & -> & Hps & Hinv & Hat & -> & Hend & Hitem & Hcur).
  destruct (decide (u = [])) as [->|Hu].
  { rewrite shown_before. replace (if visible x then [] else []) with (@nil N) by (by destruct (visible x)).
    rewrite app_nil_r, N.ltb_irrefl. apply returns_ret. exists [], b, ((x, w) :: r), nps, pushed.
    split; rewrite ?app_nil_r; try done; [exists []; by rewrite !app_nil_r|by left]. }
  assert (visible x = true) as Hv by (destruct (visible x); [done|by destruct Hu; auto]).
  rewrite shown_before, Hv in Hp |- *. rewrite Hv in Hend. rewrite length_utf8_app.
  assert (Str.length_utf8 u ≠ 0) by by rewrite length_utf8_zero.
  destruct (N.ltb_spec (Str.length_utf8 (shown b)) (Str.length_utf8 (shown b) + Str.length_utf8 u)); [|lia].
  rewrite Hend. cbn [mbind option_bind].
  eapply (returns_bind _ _ (λ bd', ∃ nps' pushed', built bd' (b ++ [(x, u ++ w)]) r nps' kept pushed' ∧
    next_offset bd' = next_offset (building st) ∧ shown nps' = shown nps ++ w ∧ cells nps' = cells nps ++ inner x u w)).
  - rewrite length_utf8_app. destruct (decide (w = [])) as [->|Hw].
    { cbn [Str.length_utf8]. rewrite !N.add_0_r, N.ltb_irrefl. apply returns_ret. exists nps, pushed.
      change (inner x u []) with (@nil Cell). rewrite !app_nil_r. split_and!; [|done..]. rewrite <- before_full by done. by eapply built_drop. }
    assert (Str.length_utf8 w ≠ 0) by by rewrite length_utf8_zero.
    destruct (N.ltb_spec (Str.length_utf8 (shown b) + Str.length_utf8 u) (Str.length_utf8 (shown b) + (Str.length_utf8 u + Str.length_utf8 w))); [|lia].
    rewrite Hcur. cbn [mbind option_bind]. eapply returns_bind.
    { rewrite <- (length_utf8_app u w). apply (cut_piece ts x u w []). rewrite app_nil_r. by apply (ps_known b x (u ++ w) r). }
    intros f [Hf Hid]. rewrite (pc_visible _ _ _ _ _ _ Hf), Hv. cbn [andb negb]. rewrite <- Hv. eapply returns_mono.
    { apply (write_kept b x u w [] r nps kept pushed (building st) f r); rewrite ?app_nil_r; try done. by right. }
    intros bd' (Hb' & Ho & Hn). exists (nps ++ [(f, w)]), (pushed ++ [f]). rewrite <- before_full by (by destruct u). split_and!; [done|done| |done].
    rewrite shown_app, shown_cons, (pc_visible _ _ _ _ _ _ Hf), Hv. cbn. by rewrite app_nil_r.
  - intros bd' (nps' & pushed' & Hb' & Ho & Hn & Hnc). eapply returns_bind; [by eapply boundary_next|]. intros c' Hc'.
    apply returns_ret. exists w, (b ++ [(x, u ++ w)]), r, nps', pushed'.
    assert (shown (b ++ [(x, u ++ w)]) = (shown b ++ u) ++ w) as Eb.
    { rewrite shown_app, shown_cons, Hv. unfold shown at 2. cbn. by rewrite app_nil_r, app_assoc. }
    split; cbn [old_fragments fragment_start]; rewrite ?shown_before, ?shown_cons, ?Hv; try done.
    + split; cbn [building edits_patch]; [done| |done]. rewrite Eb, Hn. by apply extend_patch.
    + by rewrite Hst, shown_before, Hv, length_utf8_app.
    + exists (inner x u w). split; [apply cells_current|done].
    + right. rewrite Hend, <- app_assoc. by rewrite !length_utf8_app.
Qed.

Lemma boundary_start c b k : at_boundary c b k → visible_start c = Str.length_utf8 (shown b).
Proof.
  intros Hc. pose proof (located_reads _ _ _ (boundary_located _ _ _ Hc)) as (_ & _ & H). destruct Hc as (_ & Hps & Hat).
  destruct k as [|[x w] r]; [by destruct H as (-> & _ & -> & _)|]. unfold visible_start.
  rewrite (start_ok cx c _ Hat), posn_text. by apply parts_visible, (ps_parts _ _ Hps).
Qed.

(** Seeking in the old fragments. *)
Lemma visible_slice c sp b k v : tree c = fragments s → ready cx c sp → ps = b ++ k →
  spot_start c sp = b.*1 → spot_rest c sp = k.*1 → Str.length_utf8 (shown b) <= v →
  returns (CursorOps.slice cx (at_offset v) BiasRight c) (λ '(t, c'), ∃ l r, k = l ++ r ∧
    tree_ok cx t ∧ tree_items t = l.*1 ∧ at_boundary c' (b ++ l) r ∧
    Str.length_utf8 (shown (b ++ l)) <= v ∧
    match r with p :: _ => v < Str.length_utf8 (shown (b ++ l ++ [p])) | [] => True end).
Proof.
  intros Ht Hr Hps Hsb Hsk Hv. pose proof (ps_parts _ _ Hps) as [Hb Hk].
  assert (∀ d (f : Fragment), tvisible d <= tvisible (dadd cx d (isummary cx f))) as Hμ by (intros; cbn; lia).
  eapply returns_mono.
  { apply (slice_ok cx (at_offset v) BiasRight c sp Hr).
    - change (position c) with (CursorOps.start c). rewrite (start_ok cx c sp (proj1 Hr)), Hsb, posn_text.
      unfold at_offset. rewrite parts_visible, N.compare_lt_iff by done. lia.
    - apply (measure_monotone cx tvisible Hμ v). }
  assert (∀ l q, k = l ++ q → tvisible (posn cx (posn cx (dzero FragmentSummary cx) b.*1) l.*1) =
    Str.length_utf8 (shown (b ++ l))) as Hread.
  { intros l q ->. rewrite <- posn_app, posn_text, <- fmap_app. apply parts_visible. apply Forall_app in Hk as [? _]. by apply Forall_app. }
  intros [t c']. rewrite Hsb, Hsk.
  pose proof (seek_split_measure cx tvisible v BiasRight (posn cx (dzero FragmentSummary cx) b.*1) k.*1) as Hsplit.
  change (at_offset v) with (λ d, v ?= tvisible d).
  destruct (seek_split _ _ _ _ _) as [m r]. destruct Hsplit as (Hk' & Hm & Hr'). intros (Htok & Hti & Htree & Hat).
  apply fmap_app_inv in Hk' as (l & q & -> & -> & ->). exists l, q.
  rewrite (Hread l q) in Hm by done. split_and!; try done.
  - split_and!; [congruence|by rewrite <- app_assoc|by rewrite fmap_app].
  - destruct Hm as [Hm|Hm]; [|done]. apply fmap_nil_inv in Hm as ->. by rewrite app_nil_r.
  - destruct q as [|p q]; [done|]. cbn [fmap list_fmap] in Hr'. change [fst p] with ([p].*1) in Hr'.
    rewrite <- fmap_app, (Hread (l ++ [p]) q) in Hr' by (by rewrite <- app_assoc). simpl in Hr'. lia.
Qed.

(** The text [g] that is ahead ends in the current fragment. *)
Definition near g wr : Prop := g = [] ∨ ∃ x w r, wr = (x, g ++ w) :: r ∧ visible x = true.

Lemma near_split b l q g d : shown (l ++ q) = g ++ d → Str.length_utf8 (shown (b ++ l)) <= Str.length_utf8 (shown b ++ g) →
  match q with p :: _ => Str.length_utf8 (shown b ++ g) < Str.length_utf8 (shown (b ++ l ++ [p])) | [] => True end →
  ∃ g', g = shown l ++ g' ∧ shown q = g' ++ d ∧ near g' q.
Proof.
  rewrite !shown_app, !length_utf8_app. intros Hg Hle Hnext.
  destruct (prefix_cut _ _ _ _ Hg) as (g' & -> & Hq); [lia|]. exists g'. split_and!; [done|done|].
  rewrite length_utf8_app in Hnext. destruct q as [|[x w] q].
  - left. by destruct g'.
  - rewrite !shown_app, !shown_cons, !length_utf8_app in *. change (shown []) with (@nil N) in Hnext. cbn [Str.length_utf8] in Hnext.
    destruct (visible x) eqn:Hv; [|cbn in Hnext; lia]. symmetry in Hq.
    destruct (prefix_cut _ _ _ _ Hq) as (w' & -> & _); [lia|]. right. by exists x, w', q.
Qed.

Lemma ps_segment b l q : ps = b ++ l ++ q →
  Forall part_ok l ∧ Forall (covered (members (insertion_slices s))) l.*1 ∧
  Forall (λ f, visible f = shows (undone_in (undo_map s)) f) l.*1 ∧ ∀ f, f ∈ l.*1 → f ∈ ps.*1.
Proof using Hok.
  clear Hlow Hts ts. intros E. pose proof (so_parts _ _ Hok) as H1. pose proof (so_covered _ _ Hok) as H2. pose proof (so_shown _ _ Hok) as H3.
  rewrite E in H1, H2, H3 |- *. rewrite !fmap_app in *. rewrite !Forall_app in *. split_and!; [apply H1|apply H2|apply H3|set_solver].
Qed.

(** Everything before the place [g] is kept, up to the fragment that has it. *)
Lemma skip_slice_ok st b k nps kept pushed g d : wrote st b k nps kept pushed →
  at_boundary (old_fragments st) b k → shown k = g ++ d →
  returns ('(slice, c) ← CursorOps.slice cx (at_offset (Str.length_utf8 (shown b ++ g))) BiasRight (old_fragments st);
    bd ← append_slice (building st) slice;
    Some (mkEditState bd (edits_patch st) c (visible_start c) (edit_ranges st) (edit_texts st)))
  (λ st', ∃ l q g', edited st' (b ++ l) q (nps ++ l) (kept ++ l.*1) pushed ∧ same_op st st' ∧
    g = shown l ++ g' ∧ shown q = g' ++ d ∧ near g' q).
Proof.
  intros [Hb Hp Hsep] (Ht & Hps & Hat) Hg. eapply returns_bind.
  { apply (visible_slice (old_fragments st) (spot_of b.*1 k.*1) b k); try done.
    - split_and!; [done|by destruct k|]. rewrite Ht. apply Hlow.
    - destruct k; [|done]. cbn. by rewrite Ht, (so_items _ _ Hok), Hps, app_nil_r.
    - by destruct k.
    - rewrite length_utf8_app. lia. }
  intros [t c] (l & q & -> & Htok & Hti & Hc & Hle & Hnext).
  destruct (near_split b l q g d Hg Hle Hnext) as (g' & -> & Hq & Hnear).
  destruct (ps_segment b l q Hps) as (H1 & H2 & H3 & H4). eapply returns_bind.
  { by eapply (built_append _ _ (lo_visible _ Hlow) (lo_deleted _ Hlow)). }
  intros bd [Hbd Ho]. apply returns_ret. exists l, q, g'. split_and!; [|by split_and!|done..].
  split; cbn [old_fragments fragment_start]; [by apply boundary_located|by eapply boundary_start|].
  split; cbn [building edits_patch]; [done| |done]. rewrite !shown_app. by apply extend_patch.
Qed.

(** A place that is not after the current fragment is in it. *)
Lemma near_here c bu wr g d e : located c bu wr → visible_end c = Some e →
  Str.length_utf8 (shown bu ++ g) <= e → shown wr = g ++ d → near g wr.
Proof.
  intros Hloc Hend Hle Hg. pose proof (located_reads _ _ _ Hloc) as (_ & _ & Hread). destruct wr as [|[x w] r].
  { left. by destruct g. }
  destruct Hread as (b & u & -> & _ & Hinv & _ & _ & Hend' & _). rewrite Hend in Hend'. injection Hend' as ->.
  rewrite shown_before, shown_cons, !length_utf8_app in *. destruct (visible x) eqn:Hv.
  - symmetry in Hg. destruct (prefix_cut _ _ _ _ Hg) as (w' & -> & _); [lia|]. right. by exists x, w', r.
  - left. apply length_utf8_zero. cbn [Str.length_utf8] in Hle. lia.
Qed.

(** [m] has been read, [n] has been written, and [a] is ahead; [how] is done to
    the cells. *)
Record brought (how : Cell → Cell) st bu nps st' a m n bu' wr' nps' (kept' pushed' : list Fragment) : Prop := {
  br_edited : edited st' bu' wr' nps' kept' pushed';
  br_same : same_op st st';
  br_read : shown bu' = shown bu ++ m;
  br_written : shown nps' = shown nps ++ n;
  br_cells : ∃ g : list Cell, cells bu' = cells bu ++ g ∧ cells nps' = cells nps ++ (how <$> g);
  br_ahead : shown wr' = a }.

Lemma skip_before_ok st bu wr nps kept pushed range g d : edited st bu wr nps kept pushed →
  shown wr = g ++ d → start range = Str.length_utf8 (shown bu ++ g) →
  returns (skip_before st range) (λ st', ∃ m g' bu' wr' nps' kept' pushed', g = m ++ g' ∧
    near g' wr' ∧ brought Datatypes.id st bu nps st' (g' ++ d) m m bu' wr' nps' kept' pushed').
Proof.
  intros He Hg Hs. unfold skip_before. pose proof He as [Hloc Hst Hw].
  assert (∃ e, visible_end (old_fragments st) = Some e) as [e Hend].
  { pose proof (located_reads _ _ _ Hloc) as (_ & _ & Hread).
    destruct wr as [|[x w] r]; [destruct Hread as (_ & _ & _ & -> & _)|destruct Hread as (b & u & _ & _ & _ & _ & _ & -> & _)]; eauto. }
  rewrite Hend. cbn [mbind option_bind]. destruct (N.ltb_spec e (start range)) as [Hlt|Hge].
  - eapply returns_bind; [by eapply consume_rest_ok|]. intros st' (m & b & k & nps' & pushed' & []).
    assert (Str.length_utf8 m <= Str.length_utf8 g) as Hmg.
    { destruct rc_end0 as [->|E]; [cbn; lia|]. rewrite Hend in E. injection E as ->. rewrite !length_utf8_app in *. lia. }
    rewrite rc_ahead0 in Hg. destruct (prefix_cut _ _ _ _ Hg Hmg) as (g1 & -> & Hk).
    rewrite Hs, app_assoc, <- rc_read0. eapply returns_mono; [by eapply skip_slice_ok|].
    intros st2 (l & q & g' & H1 & H2 & -> & H4 & H5). exists (m ++ shown l), g', (b ++ l), q, (nps' ++ l), (kept ++ l.*1), pushed'.
    split; [by rewrite <- app_assoc|]. split; [done|]. split; try done.
    + destruct rc_same0 as (? & ? & ?), H2 as (? & ? & ?). split_and!; congruence.
    + by rewrite shown_app, rc_read0, app_assoc.
    + by rewrite shown_app, rc_written0, app_assoc.
    + destruct rc_cells0 as (cg & E1 & E2). exists (cg ++ cells l). rewrite !cells_app, E1, E2, list_fmap_id, !app_assoc. done.
  - apply returns_ret. exists [], g, bu, wr, nps, kept, pushed. split; [done|].
    split; [|split; rewrite ?app_nil_r; try done; exists []; by rewrite !app_nil_r]. eapply near_here; [done..| |done]. lia.
Qed.

Lemma push_edit p a n del ins e : patched 0 0 p (Str.as_bytes a) (Str.as_bytes n) → separated p →
  e = mkEdit (Str.length_utf8 a ..: Str.length_utf8 (a ++ del)) (Str.length_utf8 n ..: Str.length_utf8 (n ++ ins)) →
  patched 0 0 (PatchOps.push p e) (Str.as_bytes (a ++ del)) (Str.as_bytes (n ++ ins)) ∧ separated (PatchOps.push p e).
Proof.
  intros Hp Hs ->. rewrite !as_bytes_app. apply push_patched; [done..|]. by rewrite !as_bytes_length, !length_utf8_app.
Qed.

Lemma keep_prefix_ok st bu wr nps kept pushed range g d : edited st bu wr nps kept pushed →
  shown wr = g ++ d → near g wr → start range = Str.length_utf8 (shown bu ++ g) →
  returns (keep_prefix st range) (λ st', old_fragments st' = old_fragments st ∧
    ∃ bu' wr' nps' pushed', brought Datatypes.id st bu nps st' d g g bu' wr' nps' kept pushed').
Proof.
  intros He Hg Hnear Hs. pose proof He as [Hloc Hst [Hb Hp Hsep]]. unfold keep_prefix. rewrite Hst, Hs, length_utf8_app.
  destruct (decide (g = [])) as [->|Hne].
  { cbn [Str.length_utf8]. rewrite N.add_0_r, N.ltb_irrefl. apply returns_ret. split; [done|]. exists bu, wr, nps, pushed.
    split; rewrite ?app_nil_r; try done. exists []. by rewrite !app_nil_r. }
  assert (Str.length_utf8 g ≠ 0) by by rewrite length_utf8_zero.
  destruct (N.ltb_spec (Str.length_utf8 (shown bu)) (Str.length_utf8 (shown bu) + Str.length_utf8 g)); [|lia].
  destruct Hnear as [|(x & w & r & -> & Hv)]; [done|].
  destruct (located_reads _ _ _ Hloc) as (_ & Ht & b & u & -> & Hps & Hinv & Hat & Hvs & _ & _ & Hcur).
  rewrite shown_cons, Hv, <- app_assoc in Hg. apply app_inv_head in Hg.
  rewrite Hcur, Hvs. cbn [mbind option_bind]. rewrite shown_before, Hv in *. rewrite length_utf8_app, <- N.add_assoc, <- length_utf8_app.
  eapply returns_bind; [by apply (cut_piece ts x u g w), (ps_known b x (u ++ g ++ w) r)|]. intros f [Hf Hid].
  cbn beta iota zeta. set (f' := with_id f _). apply (piece_with_id _ _ _ _ _ _ (fid f')) in Hf. change (with_id f (fid f')) with f' in Hf.
  pose proof (pc_visible _ _ _ _ _ _ Hf) as Hvf. rewrite andb_true_r in Hvf. rewrite Hvf. eapply returns_bind.
  { eapply (write_kept b x u g w r); [done..|exact Hf|]. left. split; [done|]. unfold f'. cbn. by rewrite Hid. }
  intros bd (Hbd & Ho & Hnc). apply returns_ret. split; [done|].
  exists (before b x (u ++ g)), ((x, w) :: r), (nps ++ [(f', g)]), (pushed ++ [f']).
  assert (shown (before b x (u ++ g)) = (shown b ++ u) ++ g) as Er by by rewrite shown_before, Hv, <- app_assoc.
  assert (shown (nps ++ [(f', g)]) = shown nps ++ g) as En by by rewrite shown_app, shown_one, Hvf, Hv.
  split; rewrite ?Er, ?En, ?shown_before, ?shown_cons, ?Hv; try done.
  2: { exists (inner x u g). rewrite list_fmap_id. split; [apply cells_before_app|done]. }
  split; cbn [old_fragments fragment_start]; rewrite ?Er.
  - apply located_on; rewrite <- ?app_assoc; [done..|by rewrite Hv|done].
  - by rewrite !length_utf8_app, N.add_assoc.
  - split; cbn [building edits_patch]; [done| |done]. rewrite Er, En. by apply extend_patch.
Qed.

Context (MAX_INSERTION_LEN : N) (Hmax : 4 <= MAX_INSERTION_LEN < u32_modulus).

Lemma insert_text_ok st bu wr nps kept pushed t : edited st bu wr nps kept pushed → scalars t → clean t →
  next_offset (building st) + Str.length_utf8 t < u32_modulus →
  returns (insert_text MAX_INSERTION_LEN ts st t) (λ st', old_fragments st' = old_fragments st ∧
    edit_ranges st' = edit_ranges st ∧ edit_texts st' = edit_texts st ∧
    next_offset (building st') = next_offset (building st) + Str.length_utf8 t ∧
    ∃ nps' pushed', edited st' bu wr nps' kept pushed' ∧ shown nps' = shown nps ++ t ∧
      cells nps' = cells nps ++ text_cells ts ∅ (next_offset (building st)) t).
Proof.
  intros [Hloc Hst [Hb Hp Hsep]] Hs Hc Hfits. unfold insert_text.
  destruct (N.eqb_spec (Str.length_utf8 t) 0) as [Hz|Hz].
  { apply returns_ret. apply length_utf8_zero in Hz as ->. rewrite N.add_0_r. split_and!; try done.
    exists nps, pushed. by rewrite !app_nil_r. }
  erewrite shaped_text by apply Hb. change (side true (strips nps)) with (shown nps).
  assert (∃ i, CursorOps.item (old_fragments st) = Some i ∧ before_ahead wr = match i with Some f => fid f | None => LocatorOps.max end) as (i & -> & Hi).
  { pose proof (located_reads _ _ _ Hloc) as (_ & _ & H). destruct wr as [|[x w] r]; [destruct H as (_ & _ & _ & _ & ->)|destruct H as (b & u & _ & _ & _ & _ & _ & _ & -> & _)]; by eexists. }
  cbn [mbind option_bind]. rewrite <- Hi. eapply returns_bind.
  { by eapply (built_insert _ _ (lo_visible _ Hlow) (lo_deleted _ Hlow)). }
  intros bd (qs & Hbd & Ho & Hqc & Hq). apply returns_ret. split_and!; try done. exists (nps ++ qs), (pushed ++ qs.*1).
  assert (shown (nps ++ qs) = shown nps ++ t) as En by (rewrite shown_app; f_equal; unfold shown; by rewrite Hq, side_one).
  split; [|split; [done|by rewrite cells_app, Hqc]]. destruct (push_edit (edits_patch st) (shown bu) (shown nps) [] t _ Hp Hsep eq_refl) as [Hp' Hsep'].
  rewrite Hst, <- length_utf8_app. rewrite app_nil_r in Hp', Hsep'. split; [done|done|]. split; cbn [building edits_patch]; [done| |done]. by rewrite En.
Qed.

(** *** Deleting *)

Definition ahead x w r : list part := match w with [] => r | _ => (x, w) :: r end.

Lemma shown_ahead x w r : shown (ahead x w r) = (if visible x then w else []) ++ shown r.
Proof. destruct w; [by destruct (visible x)|apply shown_cons]. Qed.

Lemma built_ahead bd bu x w r nps kept pushed : built bd bu ((x, w) :: r) nps kept pushed →
  built bd bu (ahead x w r) nps kept pushed.
Proof. destruct w; [apply built_drop|done]. Qed.

(** The cursor leaves the fragment when all of it has been read. *)
Lemma advance_ok c b x t w r bu wr (e v : N) : located c bu wr → tree c = fragments s →
  ps = b ++ (x, t ++ w) :: r → cursor_at cx c (On b.*1 x r.*1) → t ≠ [] →
  (visible x = false → w = []) → (w = [] ↔ e <= v) →
  returns (if e <=? v then CursorOps.next cx c else Some c) (λ c', located c' (before b x t) (ahead x w r)).
Proof.
  intros Hloc Ht Hps Hat Hne Hinv Hev. destruct w as [|ch w]; cbn [ahead].
  - destruct (N.leb_spec e v) as [_|]; [|by destruct Hev as [Hev _]; specialize (Hev eq_refl); lia].
    rewrite app_nil_r in Hps. eapply returns_mono; [eapply (boundary_next c b x [] t r); [|done..]|].
    { by apply (located_on c b x [] t r). }
    intros c' Hc'. rewrite before_full by done. by apply boundary_located.
  - destruct (N.leb_spec e v) as [Hle|_]; [by destruct Hev as [_ Hev]; specialize (Hev Hle)|].
    apply returns_ret. apply located_on; try done. intros Hv. by specialize (Hinv Hv).
Qed.

(** Two texts that begin the same text: one of them ends first. *)
Lemma overlap_text (w k d z : str) : w ++ k = d ++ z →
  ∃ m w' d', w = m ++ w' ∧ d = m ++ d' ∧ w' ++ k = d' ++ z ∧ (w' = [] ∨ d' = []).
Proof.
  intros (u & [[-> ->]|[-> ->]])%app_eq_app.
  - exists d, u, []. rewrite app_nil_r. by split_and!; [..|right].
  - exists w, [], u. rewrite app_nil_r. by split_and!; [..|left].
Qed.

(** What is written of the current fragment: the piece [m], marked if it was
    visible, or all of it. *)
Definition crossed bd x u m w f : Prop := piece_of ts x u m (visible x) f ∧
  if visible x then fid f = LocatorOps.between (BuildingOps.max_id bd) (fid x) else w = [] ∧ fid f = fid x.

Lemma intersect_ok st b x u m w r nps kept pushed : edited st (before b x u) ((x, m ++ w) :: r) nps kept pushed →
  ps = b ++ (x, u ++ m ++ w) :: r → visible_start (old_fragments st) = Str.length_utf8 (shown b) →
  (visible x = false → u = [] ∧ w = []) →
  returns (intersect ts st x (Str.length_utf8 (shown (before b x (u ++ m))))) (crossed (building st) x u m w).
Proof.
  intros [_ Hst _] Hps Hvs Hinv. unfold intersect, crossed. rewrite Hst, Hvs, !shown_before.
  pose proof (ps_known _ _ _ _ Hps) as (Hx & _). destruct (visible x) eqn:Hv.
  - rewrite !(length_utf8_app (shown b)). eapply returns_bind; [by apply (cut_piece ts x u m w)|]. intros f [Hf Hid].
    apply returns_ret. split; [|cbn; by rewrite Hid]. by apply piece_deleted, piece_with_id.
  - destruct (Hinv eq_refl) as [-> ->]. apply returns_ret. split; [|done].
    destruct Hx as [Hl _ _ _ _ _]. cbn [fst snd app] in Hl. rewrite app_nil_r in Hl.
    split; rewrite ?app_nil_r, ?Hv; try done. cbn. by rewrite N.add_0_r.
Qed.

Lemma push_intersection_ok st b x u m w r nps kept pushed f :
  edited st (before b x u) ((x, m ++ w) :: r) nps kept pushed → ps = b ++ (x, u ++ m ++ w) :: r →
  crossed (building st) x u m w f →
  returns (push_intersection ts st x f (Str.length_utf8 (shown (before b x (u ++ m))))) (λ st',
    old_fragments st' = old_fragments st ∧ same_op st st' ∧
    fragment_start st' = Str.length_utf8 (shown (before b x (u ++ m))) ∧
    ∃ nps' pushed', wrote st' (before b x (u ++ m)) (ahead x w r) nps' kept pushed' ∧ shown nps' = shown nps ∧
      cells nps' = cells nps ++ (del <$> inner x u m)).
Proof.
  intros [Hloc Hst [Hb Hp Hsep]] Hps [Hf Hid]. unfold push_intersection. rewrite (pc_len _ _ _ _ _ _ Hf).
  destruct (decide (m = [])) as [->|Hne].
  { rewrite app_nil_r. cbn [Str.length_utf8]. rewrite N.ltb_irrefl. apply returns_ret. split_and!; try done.
    exists nps, pushed. change (inner x u []) with (@nil Cell). rewrite app_nil_r. split; [|done]. split; [by apply built_ahead|done..]. }
  assert (Str.length_utf8 m ≠ 0) by by rewrite length_utf8_zero. destruct (N.ltb_spec 0 (Str.length_utf8 m)); [|lia].
  erewrite shaped_text by apply Hb. change (side true (strips nps)) with (shown nps).
  pose proof (pc_visible _ _ _ _ _ _ Hf) as Hvf. rewrite andb_negb_r in Hvf. rewrite Hvf. cbn [negb]. rewrite andb_true_r.
  destruct (ps_known _ _ _ _ Hps) as (Hx & Hc & Hs & Hin). eapply returns_bind.
  { eapply (emit _ _ (lo_visible _ Hlow) (lo_deleted _ Hlow) ts _ Hts _ _ (building st) b x u m w r
      (if visible x then (x, w) :: r else r) nps kept pushed f (visible x)); try done.
    destruct (visible x); [by left|right]. by destruct Hid. }
  intros bd [Hbd Ho]. apply returns_ret. split_and!; try done.
  exists (nps ++ [(f, m)]), (pushed ++ [f]).
  assert (shown (nps ++ [(f, m)]) = shown nps) as En by by rewrite shown_app, shown_one, Hvf, app_nil_r.
  split; [|split; [done|by rewrite cells_app, cells_one, (piece_cells ts x u m f _ Hf), delete_shown_inner, <- Hs]].
  rewrite shown_before in Hst. destruct (visible x) eqn:Hv.
  - edestruct (push_edit (edits_patch st) (shown b ++ u) (shown nps) m []) as [Hp' Hsep']; [by rewrite shown_before, Hv in Hp|done|done|].
    rewrite Hst, shown_before, Hv, app_assoc. rewrite app_nil_r in Hp', Hsep'.
    split; cbn [building edits_patch]; [by apply built_ahead| |done]. by rewrite En, shown_before, Hv, app_assoc.
  - destruct Hid as [-> _]. split; cbn [building edits_patch ahead]; [done| |done]. by rewrite En, !shown_before, Hv in *.
Qed.

(** The fragment at the cursor, cut where the range ends. *)
Lemma cut_at_end c bu wr d z : located c bu wr → shown wr = d ++ z → d ≠ [] →
  ∃ b x u m w r d', bu = before b x u ∧ wr = (x, m ++ w) :: r ∧ ps = b ++ (x, u ++ m ++ w) :: r ∧
    cursor_at cx c (On b.*1 x r.*1) ∧ current c = Some x ∧ visible_start c = Str.length_utf8 (shown b) ∧
    visible_end c = Some (Str.length_utf8 (shown (before b x (u ++ m ++ w)))) ∧ (visible x = false → u = [] ∧ w = []) ∧
    shown (before b x (u ++ m)) ++ d' = shown bu ++ d ∧ (w = [] ∨ d' = []) ∧ (u ++ m ≠ []) ∧
    shown (ahead x w r) = d' ++ z.
Proof.
  intros Hloc Hd Hne. destruct (located_reads _ _ _ Hloc) as (_ & _ & H). destruct wr as [|[x wx] r].
  { change (shown []) with (@nil N) in Hd. by destruct d. }
  destruct H as (b & u & -> & Hps & Hinv & Hat & Hvs & Hve & _ & Hcur). rewrite shown_cons in Hd.
  pose proof (ps_known _ _ _ _ Hps) as ([_ Hx _ _ _ _] & _). cbn [snd] in Hx. destruct (visible x) eqn:Hv.
  - destruct (overlap_text _ _ _ _ Hd) as (m & w & d' & -> & -> & Hz & Hend).
    exists b, x, u, m, w, r, d'. rewrite !shown_before, !shown_ahead, !Hv. split_and!; try done.
    + by rewrite Hve, (length_utf8_app (shown b)).
    + by rewrite <- !app_assoc.
    + destruct Hend as [->| ->]; [by rewrite app_nil_r in Hx|]. rewrite app_nil_r in Hne. by destruct u, m.
  - assert (u = []) as -> by auto. exists b, x, [], wx, [], r, d. rewrite !shown_before, !shown_ahead, !Hv, !app_nil_r in *.
    split_and!; try done; [|by left]. rewrite Hve. f_equal. lia.
Qed.

Lemma delete_step_ok st bu wr nps kept pushed range d z : edited st bu wr nps kept pushed → d ≠ [] →
  shown wr = d ++ z → stop range = Str.length_utf8 (shown bu ++ d) →
  returns (delete_step ts range st) (λ res, ∃ st' m d' bu' wr' nps' pushed', res = inl st' ∧ d = m ++ d' ∧
    brought del st bu nps st' (d' ++ z) m [] bu' wr' nps' kept pushed' ∧ (length wr' < length wr ∨ d' = [])%nat).
Proof.
  intros He Hne Hd Hs. pose proof He as [Hloc Hst _]. unfold delete_step.
  destruct (N.ltb_spec (fragment_start st) (stop range)) as [_|Hge].
  2: { rewrite Hst, Hs, length_utf8_app in Hge. destruct Hne. apply length_utf8_zero. lia. }
  destruct (located_reads _ _ _ Hloc) as (_ & Ht & _).
  destruct (cut_at_end _ _ _ d z Hloc Hd Hne) as (b & x & u & m & w & r & d' & -> & -> & Hps & Hat & Hcur & Hvs & Hve & Hinv & Hread & Hend & Hum & Hz).
  rewrite Hcur, Hve. cbn [mbind option_bind]. rewrite <- Hread in Hs.
  assert (Str.length_utf8 (shown (before b x (u ++ m ++ w))) = Str.length_utf8 (shown (before b x (u ++ m))) + if visible x then Str.length_utf8 w else 0) as Elen.
  { rewrite !shown_before, app_assoc. destruct (visible x); rewrite !length_utf8_app; cbn [Str.length_utf8]; lia. }
  rewrite length_utf8_app in Hs.
  replace (N.min _ _) with (Str.length_utf8 (shown (before b x (u ++ m)))).
  2: { destruct Hend as [->| ->]; cbn [Str.length_utf8] in *; destruct (visible x); cbn [Str.length_utf8] in *; lia. }
  eapply returns_bind; [by eapply intersect_ok|]. intros f Hf.
  eapply returns_bind; [by eapply push_intersection_ok|].
  intros st' (Ec & Hsame & Hst' & nps' & pushed' & Hw & Hn & Hnc). rewrite Ec. eapply returns_bind.
  { apply (advance_ok _ b x (u ++ m) w r _ _ _ _ Hloc); rewrite <- ?app_assoc; try done.
    - intros Hv. by apply Hinv.
    - rewrite Hs, Elen. split; [intros ->; destruct (visible x); cbn [Str.length_utf8]; lia|]. intros Hle.
      destruct Hend as [?| ->]; [done|]. destruct (visible x) eqn:Hv; [|by apply Hinv].
      apply length_utf8_zero. cbn [Str.length_utf8] in Hle. lia. }
  intros c' Hc'. apply returns_ret. set (m0 := if visible x then m else []).
  assert (shown (before b x (u ++ m)) = shown (before b x u) ++ m0) as Em.
  { rewrite !shown_before. unfold m0. destruct (visible x); by rewrite <- ?app_assoc, ?app_nil_r. }
  rewrite Em, <- app_assoc in Hread. apply app_inv_head in Hread as <-. eexists _, m0, d', _, _, _, _.
  split_and!; [done|done| |].
  - split; cbn [edit_ranges]; try done; [|by rewrite app_nil_r|exists (inner x u m); split; [apply cells_before_app|done]]. split; cbn [old_fragments fragment_start]; [done..|].
    destruct Hw. by split.
  - destruct Hend as [->| ->]; [left|by right]. cbn. lia.
Qed.

Lemma delete_done st bu wr nps kept pushed range (fuel : nat) : edited st bu wr nps kept pushed →
  stop range = Str.length_utf8 (shown bu) → iterate (delete_step ts range) (Datatypes.S fuel) st = Some st.
Proof. intros [_ Hst _] Hs. cbn [iterate]. unfold delete_step. by rewrite Hst, Hs, N.ltb_irrefl. Qed.

Lemma brought_trans how st bu nps st1 a (m n : str) bu1 wr1 nps1 kept1 pushed1 st2 a' m' n' bu2 wr2 nps2 kept2 pushed2 :
  brought how st bu nps st1 a m n bu1 wr1 nps1 kept1 pushed1 →
  brought how st1 bu1 nps1 st2 a' m' n' bu2 wr2 nps2 kept2 pushed2 →
  brought how st bu nps st2 a' (m ++ m') (n ++ n') bu2 wr2 nps2 kept2 pushed2.
Proof.
  intros [_ (? & ? & ?) H3 H4 (g1 & E1 & E2) _] [? (? & ? & ?) K3 K4 (g2 & F1 & F2) ?]. split; [done| | | | |done].
  - split_and!; congruence.
  - by rewrite K3, H3, app_assoc.
  - by rewrite K4, H4, app_assoc.
  - exists (g1 ++ g2). by rewrite F1, F2, E1, E2, fmap_app, !app_assoc.
Qed.

Lemma delete_loop_ok (n : nat) st bu wr nps kept pushed range d z : edited st bu wr nps kept pushed →
  shown wr = d ++ z → stop range = Str.length_utf8 (shown bu ++ d) → (length wr < n)%nat →
  returns (iterate (delete_step ts range) n st) (λ st', ∃ bu' wr' nps' pushed',
    brought del st bu nps st' z d [] bu' wr' nps' kept pushed').
Proof.
  revert st bu wr nps pushed d. induction n as [|n IH]; intros st bu wr nps pushed d He Hd Hs Hn; [lia|].
  destruct (decide (d = [])) as [->|Hne].
  { exists st. rewrite app_nil_r in Hs. split; [by eapply delete_done|]. exists bu, wr, nps, pushed.
    split; rewrite ?app_nil_r; try done. exists []. by rewrite !app_nil_r. }
  cbn [iterate]. eapply returns_bind; [by eapply delete_step_ok|].
  intros res (st1 & m & d' & bu1 & wr1 & nps1 & pushed1 & -> & -> & Hb & Hlt).
  rewrite app_assoc, <- (br_read _ _ _ _ _ _ _ _ _ _ _ _ _ Hb) in Hs. destruct Hlt as [Hlt| ->].
  - eapply returns_mono; [eapply (IH st1 bu1 wr1 nps1 pushed1 d'); [apply Hb|apply Hb|done|lia]|].
    intros st2 (bu2 & wr2 & nps2 & pushed2 & Hb2). exists bu2, wr2, nps2, pushed2. by eapply (brought_trans _ _ _ _ _ _ _ []).
  - destruct wr as [|p wr]; [change (shown []) with (@nil N) in Hd; by destruct m|]. destruct n as [|n]; [simpl in Hn; lia|].
    rewrite app_nil_r in Hs. exists st1. split; [eapply delete_done; [apply Hb|done]|].
    exists bu1, wr1, nps1, pushed1. by rewrite app_nil_r.
Qed.

Lemma located_length c bu wr : located c bu wr → (length wr <= length ps)%nat.
Proof. intros [_ _|b x u w r _ -> _ _]; rewrite ?length_app; cbn; lia. Qed.

Lemma delete_enough st bu wr nps kept pushed : edited st bu wr nps kept pushed → (length wr < delete_fuel st)%nat.
Proof.
  intros [Hloc _ _]. unfold delete_fuel. destruct (located_reads _ _ _ Hloc) as (_ & -> & _).
  pose proof (weight_items cx (fragments s) (so_fragments _ _ Hok)) as Hw. rewrite (so_items _ _ Hok), length_fmap in Hw.
  apply located_length in Hloc. lia.
Qed.

(** *** One edit *)

Context (replace_all : str → str) (Hrepl : LineSeparators replace_all).

(** The offset of a place in the text with all that is deleted. *)
Definition texts b : str := mjoin (snd <$> b).

Inductive split_parts : list part → list part → Prop :=
| split_end : split_parts ps []
| split_in b x u w r : ps = b ++ (x, u ++ w) :: r → (visible x = false → u = []) → split_parts (before b x u) ((x, w) :: r).

(** [n] is the full offset of a place at the offset [v] of the visible text. *)
Definition full_place (v n : N) : Prop := ∃ bu wr, split_parts bu wr ∧ v = Str.length_utf8 (shown bu) ∧ n = Str.length_utf8 (texts bu).

Lemma texts_sides b : Str.length_utf8 (texts b) = Str.length_utf8 (shown b) + Str.length_utf8 (side false (strips b)).
Proof.
  unfold texts, shown. induction b as [|[f m] b IH]; [done|]. change (strips ((f, m) :: b)) with ((visible f, m) :: strips b).
  cbn [fmap list_fmap snd]. change (mjoin (m :: ?l)) with (m ++ mjoin l). rewrite !side_cons, !length_utf8_app, IH.
  destruct (visible f); cbn [Bool.eqb Str.length_utf8]; lia.
Qed.

Lemma texts_cells b : Str.length_utf8 (texts b) = cells_width (cells b).
Proof.
  unfold cells_width, texts. f_equal. induction b as [|[f m] b IH]; [done|]. cbn [fmap list_fmap snd]. rewrite cells_cons, fmap_app.
  change (mjoin (m :: ?l)) with (m ++ mjoin l). rewrite IH. unfold part_cells. by rewrite text_cells_chars.
Qed.

Lemma located_full_start c bu wr : located c bu wr →
  split_parts bu wr ∧ Str.length_utf8 (shown bu) + tdeleted (CursorOps.start c) = Str.length_utf8 (texts bu).
Proof.
  intros Hloc. pose proof (so_parts _ _ Hok) as Hp. destruct Hloc as [Ht Hat|b x u w r Ht Hps Hu Hat].
  - split; [apply split_end|]. rewrite (start_ok cx c _ Hat). cbn [spot_of spot_start].
    by rewrite Ht, (so_items _ _ Hok), posn_text, parts_text, texts_sides.
  - split; [by apply split_in|]. rewrite (start_ok cx c _ Hat). cbn [spot_start].
    rewrite posn_text, parts_text, texts_sides by apply (ps_parts _ _ Hps). f_equal. cbn [tdeleted].
    rewrite side_before, side_app, side_one. destruct (visible x); [by rewrite app_nil_r|]. by rewrite Hu, app_nil_r.
Qed.

Lemma located_full c bu wr : located c bu wr →
  full_place (Str.length_utf8 (shown bu)) (Str.length_utf8 (shown bu) + tdeleted (CursorOps.start c)).
Proof. intros Hloc. destruct (located_full_start c bu wr Hloc) as [Hs ->]. by exists bu, wr. Qed.

Lemma located_width c bu wr : located c bu wr → Str.length_utf8 (shown bu) + tdeleted (CursorOps.start c) = cells_width (cells bu).
Proof. intros Hloc. rewrite <- texts_cells. by apply (located_full_start c bu wr). Qed.

Lemma located_cells c bu wr : located c bu wr → ∃ cs, cells ps = cells bu ++ cs.
Proof.
  intros [_ _|b x u w r _ -> _ _]; [exists []; by rewrite app_nil_r|]. exists (inner x u w ++ cells r).
  by rewrite cells_app, cells_cons, part_inner_app, cells_before, <- !app_assoc.
Qed.

(** The edit has replaced [d] by the text [t]; [g] is before it. *)
Record replaced st bu nps st' g d t z bu' wr' nps' (kept' pushed' : list Fragment) : Prop := {
  rp_edited : edited st' bu' wr' nps' kept' pushed';
  rp_read : shown bu' = shown bu ++ g ++ d;
  rp_written : shown nps' = shown nps ++ g ++ t;
  rp_ahead : shown wr' = z;
  rp_offset : next_offset (building st') = next_offset (building st) + Str.length_utf8 t;
  rp_texts : edit_texts st' = edit_texts st ++ [t];
  rp_ranges : ∃ full (cg cd : list Cell), edit_ranges st' = edit_ranges st ++ [full] ∧
    full_place (Str.length_utf8 (shown bu ++ g)) (start full) ∧ full_place (Str.length_utf8 (shown bu')) (stop full) ∧
    start full = cells_width (cells bu ++ cg) ∧ stop full = cells_width (cells bu') ∧ cells bu' = cells bu ++ cg ++ cd ∧
    cells nps' = cells nps ++ cg ++ text_cells ts ∅ (next_offset (building st)) t ++ (del <$> cd) }.

Lemma apply_one_ok st bu wr nps kept pushed range text g d z : edited st bu wr nps kept pushed →
  shown wr = g ++ d ++ z → range = (Str.length_utf8 (shown bu ++ g) ..: Str.length_utf8 (shown bu ++ g ++ d)) →
  scalars text → next_offset (building st) + Str.length_utf8 (unix_lines text) < u32_modulus →
  returns (apply_one MAX_INSERTION_LEN replace_all ts st (range, text)) (λ st', ∃ bu' wr' nps' kept' pushed',
    replaced st bu nps st' g d (unix_lines text) z bu' wr' nps' kept' pushed').
Proof.
  intros He Hw -> Hsc Hfits. unfold apply_one. cbn [start stop]. unfold LineEndingOps.normalize. rewrite (replace_separators (replace_all := replace_all)).
  eapply returns_bind; [by eapply (skip_before_ok st bu wr nps kept pushed _ g (d ++ z))|].
  intros st1 (m & g' & bu1 & wr1 & nps1 & kept1 & pushed1 & -> & Hnear & [He1 (Hr1 & Ht1 & Ho1) Hbu1 Hn1 (c1 & Ec1 & En1) Hw1]).
  rewrite app_assoc, <- Hbu1. eapply returns_bind; [by eapply (keep_prefix_ok st1 bu1 wr1 nps1 kept1 pushed1 _ g' (d ++ z))|].
  intros st2 (Ec2 & bu2 & wr2 & nps2 & pushed2 & [He2 (Hr2 & Ht2 & Ho2) Hbu2 Hn2 (c2 & Ecc2 & En2) Hw2]). rewrite <- Hbu2.
  eapply returns_bind.
  { apply (insert_text_ok st2 bu2 wr2 nps2 kept1 pushed2 (unix_lines text) He2); [by apply unix_lines_scalars|apply unix_lines_clean|].
    by rewrite Ho2, Ho1. }
  intros st3 (Ec3 & Hr3 & Ht3 & Ho3 & nps3 & pushed3 & He3 & Hn3 & En3). eapply returns_bind.
  { apply (delete_loop_ok (delete_fuel st3) st3 bu2 wr2 nps3 kept1 pushed3 _ d z He3 Hw2); [|by eapply delete_enough].
    cbn [stop]. by rewrite Hbu2, Hbu1, <- !app_assoc. }
  intros st4 (bu4 & wr4 & nps4 & pushed4 & [He4 (Hr4 & Ht4 & Ho4) Hbu4 Hn4 (c4 & Ec4 & En4) Hw4]). apply returns_ret.
  assert (shown bu4 = shown bu ++ (m ++ g') ++ d) as Hbu by by rewrite Hbu4, Hbu2, Hbu1, <- !app_assoc.
  exists bu4, wr4, nps4, kept1, pushed4. split; cbn [building edit_texts edit_ranges].
  - destruct He4 as [? ? []]. by split; [..|split].
  - done.
  - by rewrite Hn4, Hn3, Hn2, Hn1, app_nil_r, <- !app_assoc.
  - done.
  - by rewrite Ho4, Ho3, Ho2, Ho1.
  - by rewrite Ht4, Ht3, Ht2, Ht1.
  - rewrite list_fmap_id in En1, En2. assert (cells bu2 = cells bu ++ c1 ++ c2) as Ebu2 by by rewrite Ecc2, Ec1, app_assoc.
    eexists _, (c1 ++ c2), c4. split; [by rewrite Hr4, Hr3, Hr2, Hr1|]. cbn [start stop]. rewrite <- Ec2, app_assoc, <- Hbu1, <- Hbu2.
    split_and!.
    + eapply located_full, He2.
    + rewrite <- Hbu. eapply located_full, He4.
    + rewrite <- Ebu2. eapply located_width, He2.
    + rewrite <- Hbu. eapply located_width, He4.
    + by rewrite Ec4, Ebu2, <- !app_assoc.
    + by rewrite En4, En3, En2, En1, Ho2, Ho1, <- !app_assoc.
Qed.

Definition placed (e : Range N * str) (full : Range N) : Prop :=
  full_place (start e.1) (start full) ∧ full_place (stop e.1) (stop full).

Lemma apply_all_ok edits st bu wr nps kept pushed z : edited st bu wr nps kept pushed →
  splice (Str.length_utf8 (shown bu)) (shown wr) edits = Some z → Forall (λ e, scalars e.2) edits →
  next_offset (building st) + Str.length_utf8 (mjoin (new_texts edits)) < u32_modulus →
  returns (apply_all MAX_INSERTION_LEN replace_all ts st edits) (λ st', ∃ bu' wr' nps' kept' pushed' fulls,
    edited st' bu' wr' nps' kept' pushed' ∧ shown nps' ++ shown wr' = shown nps ++ z ∧
    edit_texts st' = edit_texts st ++ new_texts edits ∧
    edit_ranges st' = edit_ranges st ++ fulls ∧ Forall2 placed edits fulls ∧
    ∀ cs, cells ps = cells bu ++ cs → ∃ y cs', cells ps = cells bu' ++ cs' ∧ cells nps' = cells nps ++ y ∧
      spliced ts del (cells_width (cells bu)) (next_offset (building st)) (zip fulls (new_texts edits)) cs (y ++ cs')).
Proof.
  revert st bu wr nps kept pushed z. induction edits as [|[range text] edits IH]; intros st bu wr nps kept pushed z He Hz Hsc Hfits.
  { injection Hz as <-. apply returns_ret. exists bu, wr, nps, kept, pushed, []. cbn. rewrite !app_nil_r. split_and!; try done.
    intros cs Hcs. exists [], cs. rewrite app_nil_r. split_and!; [done|done|constructor]. }
  apply Forall_cons in Hsc as [Hsc Hscs]. cbn [snd] in Hsc. change (new_texts ((range, text) :: edits)) with (unix_lines text :: new_texts edits) in *.
  change (mjoin (?x :: ?l)) with (x ++ mjoin l) in Hfits. rewrite length_utf8_app in Hfits.
  apply splice_cons in Hz as (g & d & rest & z' & Hrange & Hg & Hz & ->). cbn [apply_all]. eapply returns_bind.
  { apply (apply_one_ok st bu wr nps kept pushed range text g d rest); [done|done|by rewrite Hrange, !length_utf8_app, N.add_assoc|done|lia]. }
  intros st1 (bu1 & wr1 & nps1 & kept1 & pushed1 & [He1 Hbu1 Hn1 <- Ho1 Ht1 (full & cg & cd & Hr1 & Hf1 & Hf2 & Hw1 & Hw2 & Hc1 & Hc2)]).
  assert (Str.length_utf8 (shown bu1) = Str.length_utf8 (shown bu) + Str.length_utf8 g + Str.length_utf8 d) as El.
  { by rewrite Hbu1, !length_utf8_app, N.add_assoc. }
  rewrite <- El in Hz.
  eapply returns_mono; [eapply (IH st1); [done|done|done|by rewrite Ho1, <- N.add_assoc]|].
  intros st2 (bu2 & wr2 & nps2 & kept2 & pushed2 & fulls & He2 & Hn2 & Ht2 & Hr2 & Hf & Hsp). exists bu2, wr2, nps2, kept2, pushed2, (full :: fulls).
  split_and!; [done| | | | |].
  - by rewrite Hn2, Hn1, <- !app_assoc.
  - by rewrite Ht2, Ht1, <- app_assoc.
  - by rewrite Hr2, Hr1, <- app_assoc.
  - constructor; [|done]. rewrite Hrange. split; cbn [fst start stop]; [by rewrite <- length_utf8_app|]. by rewrite <- El.
  - intros cs Hcs. destruct (located_cells _ _ _ (ed_located _ _ _ _ _ _ He1)) as [cs1 Hcs1].
    assert (cs = cg ++ cd ++ cs1) as ->.
    { rewrite Hcs, Hc1, <- !app_assoc in Hcs1. by apply app_inv_head in Hcs1. }
    destruct (Hsp cs1 Hcs1) as (y & cs' & E1 & E2 & Hsp'). eexists _, cs'. split; [exact E1|]. split; [by rewrite E2, Hc2, <- app_assoc|].
    rewrite <- !app_assoc. cbn [zip zip_with]. rewrite cells_width_app in Hw1.
    apply spliced_cons; [done|by rewrite Hw2, Hc1, Hw1, !cells_width_app, N.add_assoc|]. by rewrite Hw2, <- Ho1.
Qed.

Lemma begin_edit_ok v : returns (begin_edit s v) (λ st, ∃ b k,
  edited st b k b b.*1 [] ∧ at_boundary (old_fragments st) b k ∧ next_offset (building st) = 0 ∧
  edit_ranges st = [] ∧ edit_texts st = [] ∧ Str.length_utf8 (shown b) <= v).
Proof.
  unfold begin_edit. destruct (so_visible _ _ Hok) as [Hrv Htv], (so_deleted _ _ Hok) as [Hrd Htd].
  destruct (rope_builder_new _ _ (lo_visible _ Hlow) (lo_deleted _ Hlow) (strips ps) Hrv Hrd Htv Htd) as (ropes & E & Hropes).
  destruct (RopeOps.cursor (visible_text s) 0) as [cv|]; [|done]. cbn [mbind option_bind] in *.
  destruct (RopeOps.cursor (deleted_text s) 0) as [cd|]; [|done]. cbn [mbind option_bind] in *. injection E as ->.
  eapply returns_bind.
  { apply (visible_slice (CursorOps.new cx (fragments s)) Fresh [] ps v); try done; [|apply Hok|change (Str.length_utf8 _) with 0; lia].
    apply (new_ready cx); apply Hok || apply Hlow. }
  intros [t c] (b & k & Hps & Htok & Hti & Hc & Hle & _). destruct (ps_segment [] b k Hps) as (_ & H2 & H3 & H4).
  eapply returns_bind.
  { apply (built_begin _ _ (lo_visible _ Hlow) (lo_deleted _ Hlow) ts (undone_in (undo_map s)) (members (insertion_slices s)) ps.*1 b k t);
      rewrite <- ?Hps; try done; apply Hok. }
  intros ropes' Hb. apply returns_ret. exists b, k. split_and!; try done.
  split; cbn [old_fragments fragment_start]; [by apply boundary_located|by eapply boundary_start|].
  split; cbn [building edits_patch]; [done| |by intros [|]]. rewrite <- (app_nil_l (Str.as_bytes (shown b))). apply patched_extend. constructor.
Qed.

Context (sort_insertions : list (KeyedTree.Edit InsertionFragment InsertionFragmentKey) → list (KeyedTree.Edit InsertionFragment InsertionFragmentKey)).
Context (sort_slices : list (KeyedTree.Edit (MapEntry InsertionSlice ()) (MapKey InsertionSlice)) →
  list (KeyedTree.Edit (MapEntry InsertionSlice ()) (MapKey InsertionSlice))).
Context (Hsi : Sorting (edit_le insertion_key_cmp) sort_insertions) (Hss : Sorting (edit_le (map_key_cmp insertion_slice_cmp)) sort_slices).
Context (Hfresh : ts ∉ stamp <$> ps.*1) (Hmin : ts ≠ LamportOps.MIN).

Definition same_buffer s' : Prop := undo_map s' = undo_map s ∧ sversion s' = sversion s ∧ remote_id s' = remote_id s ∧
  sreplica_id s' = sreplica_id s ∧ line_ending s' = line_ending s.

Lemma located_shown c bu wr : located c bu wr → shown ps = shown bu ++ shown wr.
Proof.
  intros [_ _|b x u w r _ -> _ _]; [by rewrite app_nil_r|]. rewrite shown_app, shown_before, !shown_cons.
  destruct (visible x); by rewrite <- ?app_assoc, ?app_nil_r.
Qed.

Lemma finish_edit_ok st bu wr nps kept pushed : edited st bu wr nps kept pushed →
  returns (finish_edit sort_insertions sort_slices s st) (λ s', ∃ nps', snapshot_ok s' nps' ∧ follows ts ps nps' ∧ same_buffer s' ∧
    shown nps' = shown nps ++ shown wr ∧ patched 0 0 (edits_patch st) (Str.as_bytes (shown ps)) (Str.as_bytes (shown nps')) ∧
    separated (edits_patch st) ∧ ∀ cs, cells ps = cells bu ++ cs → cells nps' = cells nps ++ cs).
Proof.
  intros He. pose proof He as [Hloc _ [_ Hp Hsep]]. unfold finish_edit. eapply returns_bind; [by eapply consume_rest_ok|].
  intros st1 (m & b & k & nps1 & pushed1 & [[Hb1 _ _] (Ht & Hps & Hat) _ _ _ Hn1 (g & Ec1 & Ec2) Hw _]). eapply returns_bind.
  { apply (suffix_ok cx (old_fragments st1) (spot_of b.*1 k.*1)). split_and!; [done|by destruct k|]. rewrite Ht. apply Hlow. }
  intros [t c] (Htok & Hti & _ & _). assert (spot_rest (old_fragments st1) (spot_of b.*1 k.*1) = k.*1) as Er by by destruct k.
  rewrite Er in Hti. destruct (ps_segment b k []) as (H1 & H2 & H3 & H4); [by rewrite app_nil_r|].
  rewrite <- (app_nil_r k) in Hb1. eapply returns_bind.
  { by eapply (built_append _ _ (lo_visible _ Hlow) (lo_deleted _ Hlow)). }
  intros bd [Hbd _]. rewrite <- Hps in Hbd.
  eapply returns_mono; [by eapply (built_finish sort_insertions sort_slices Hsi Hss s ps bd)|]. intros s' (Hs' & Hfol & Hsame). exists (nps1 ++ k).
  assert (shown (nps1 ++ k) = shown nps ++ shown wr) as En by by rewrite shown_app, Hn1, Hw, app_assoc.
  split_and!; try done; try apply Hsame; [rewrite En, (located_shown _ _ _ Hloc); by apply extend_patch|].
  intros cs Hcs. rewrite Hps, cells_app, Ec1, <- app_assoc in Hcs. apply app_inv_head in Hcs as <-. by rewrite cells_app, Ec2, app_assoc.
Qed.

Lemma apply_edit_internal_ok edits z : splice 0 (shown ps) edits = Some z → Forall (λ e, scalars e.2) edits →
  Str.length_utf8 (mjoin (new_texts edits)) < u32_modulus →
  returns (apply_edit_internal MAX_INSERTION_LEN replace_all ts sort_insertions sort_slices s edits) (λ '(s', (op, patch)),
    ∃ nps, snapshot_ok s' nps ∧ follows ts ps nps ∧ same_buffer s' ∧ shown nps = z ∧
      patched 0 0 patch (Str.as_bytes (shown ps)) (Str.as_bytes z) ∧ separated patch ∧
      ∃ fulls, Forall2 placed edits fulls ∧ op = mkEditOperation ts (sversion s) fulls (new_texts edits) ∧
        spliced ts del 0 0 (zip fulls (new_texts edits)) (cells ps) (cells nps)).
Proof.
  intros Hz Hsc Hfits. unfold apply_edit_internal. destruct edits as [|[range text] edits].
  { injection Hz as <-. apply returns_ret. exists ps. split_and!; try done.
    - split; [done|by apply older_all|by right].
    - rewrite <- (app_nil_l (Str.as_bytes _)). apply patched_extend. constructor.
    - exists []. split_and!; [done|done|constructor]. }
  pose proof (splice_cons _ _ _ _ _ _ Hz) as (g & d & rest & z' & Hrange & Hg & _ & _).
  eapply returns_bind; [apply (begin_edit_ok (start range))|]. intros st (b & k & He & (_ & Hps & _) & Ho & Hr & Ht & Hle).
  rewrite Hps, shown_app in Hz. destruct (splice_after _ _ _ _ _ _ Hz Hle) as (z1 & -> & Hz1). eapply returns_bind.
  { apply (apply_all_ok ((range, text) :: edits) st b k b b.*1 []); [done|exact Hz1|done|by rewrite Ho]. }
  intros st1 (bu & wr & nps & kept & pushed & fulls & He1 & Hn1 & Ht1 & Hr1 & Hf & Hsp). eapply returns_bind; [by eapply finish_edit_ok|].
  intros s' (nps' & Hs' & Hfol & Hsame & Hn' & Hp' & Hsep & Hcells). apply returns_ret. rewrite Hn1 in Hn'. exists nps'. rewrite <- Hn'.
  split_and!; try done. exists fulls. split_and!; [done|by rewrite Hr1, Ht1, Hr, Ht|].
  destruct (Hsp (cells k)) as (y & cs' & E1 & E2 & Hsp'); [by rewrite Hps, cells_app|]. rewrite (Hcells cs' E1), E2, <- app_assoc.
  rewrite Ho in Hsp'. rewrite Hps, cells_app. by apply spliced_prefix.
Qed.
End blocks.
