(* ===== verification/VersionedOffset.v ===== *)
(** * Offsets at a version: [VersionedFullOffset] of [crates/text/src/text.rs]

    An operation of another replica refers to offsets in the text, deleted
    parts included, of the version at which it was made. A fragment that the
    version has not seen takes no room in it; a subtree of which it has seen only
    a part has no extent ([Invalid]), and a search descends into it. *)

From S2P Require Import Prelude Clock Locator SumTree SumCursor CursorSpec KeyedTree UndoMap Text Rope Fragment Builders.
Import NodeOps.

#[local] Unset Default Proof Using.
#[local] Open Scope N_scope.
#[local] Existing Instance LamportOps.cmp_total.

(** ** The dimension *)

Inductive VersionedFullOffset :=
  | Offset (offset : N)
  | Invalid.

#[export] Instance VersionedFullOffset_eq_dec : EqDecision VersionedFullOffset.
Proof. solve_decision. Defined.

Module VersionedOps.

(** It panics when the offset is invalid. *)
Definition full_offset (d : VersionedFullOffset) : option N :=
  match d with Offset position => Some position | Invalid => None end.

(** The context is always given; without it the source panics. *)
Definition add_summary (d : VersionedFullOffset) (summary : FragmentSummary) (cx : option Global) : VersionedFullOffset :=
  match d, cx with
  | Offset offset, Some version =>
      if GlobalOps.observed_all version (max_insertion_version summary) then
        Offset (offset + (tvisible (ftext summary) + tdeleted (ftext summary)))
      else if GlobalOps.observed_any version (min_insertion_version summary) then Invalid
      else d
  | _, _ => Invalid
  end.

(** [SeekTarget::cmp] of the target [Offset a], in the pair with an offset in
    the visible text. *)
Definition at_full (a : N) (d : VersionedFullOffset * N) : comparison :=
  match d.1 with Offset b => a ?= b | Invalid => Lt end.

End VersionedOps.
Import VersionedOps.

#[export] Instance versioned_dimension : Dimension VersionedFullOffset FragmentSummary (option Global) :=
  {| dzero _ := Offset 0; dadd cx d s := add_summary d s cx |}.

(** ** The context does not change trees *)

Section context.
Implicit Types (t : Node Fragment FragmentSummary) (l : list Fragment).

Lemma wf_context cx cx' h t : wf cx h t → wf cx' h t.
Proof. exact (λ H, H). Qed.

Lemma tree_ok_context cx cx' t : tree_ok cx t → tree_ok cx' t.
Proof. exact (λ H, H). Qed.

Lemma total_context cx cx' l : total cx l = total cx' l.
Proof. done. Qed.
End context.

(** ** What it measures *)

Section versioned.
Context (V : Global).
Implicit Types (f : Fragment) (l : list Fragment) (t : Lamport) (n v : N).

Abbreviation cx := (Some V).

Definition seen f : bool := GlobalOps.observed V (stamp f).

(** The extent of the fragments that the version has seen. *)
Fixpoint seen_width l : N :=
  match l with [] => 0 | f :: l => (if seen f then flen f else 0) + seen_width l end.

Lemma seen_width_app l k : seen_width (l ++ k) = seen_width l + seen_width k.
Proof. induction l as [|f l IH]; cbn [app seen_width]; lia. Qed.

Lemma get_observe_new t r :
  GlobalOps.get (GlobalOps.observe GlobalOps.new t) r = if replica_id t =? r then value t else 0.
Proof. rewrite get_observe, get_new. by destruct (_ =? _); [rewrite N.max_0_l|]. Qed.

Lemma observed_all_stamp t : GlobalOps.observed_all V (GlobalOps.observe GlobalOps.new t) = GlobalOps.observed V t.
Proof.
  apply eq_true_iff_eq. rewrite observed_all_iff, observed_iff by auto with zed. split.
  - intros H. specialize (H (replica_id t)). by rewrite get_observe_new, N.eqb_refl in H.
  - intros H r. rewrite get_observe_new. destruct (N.eqb_spec (replica_id t) r) as [<-|]; [done|lia].
Qed.

(** A fragment is seen as a whole or not at all. *)
Lemma versioned_item n f : dadd cx (Offset n) (isummary cx f) = Offset (n + if seen f then flen f else 0).
Proof.
  cbn. unfold seen. rewrite observed_all_stamp. destruct (GlobalOps.observed V (stamp f)) eqn:E.
  - unfold fragment_text. destruct (visible f); cbn [tvisible tdeleted]; f_equal; lia.
  - destruct (GlobalOps.observed_any _ _) eqn:Ea; [|by rewrite N.add_0_r].
    apply observed_any_iff in Ea as (r & H1 & H2). rewrite get_observe_new in H1, H2.
    destruct (N.eqb_spec (replica_id (stamp f)) r) as [Er|]; [|lia]. rewrite <- Er in H2. apply observed_iff in H2. congruence.
Qed.

Lemma versioned_posn n l : posn cx (Offset n) l = Offset (n + seen_width l).
Proof.
  revert n. induction l as [|f l IH]; intros n; [by rewrite N.add_0_r|]. cbn [seen_width].
  change (posn cx (Offset n) (f :: l)) with (posn cx (dadd cx (Offset n) (isummary cx f)) l).
  rewrite versioned_item, IH. f_equal. lia.
Qed.

(** *** Subtrees *)

Lemma total_snoc l f : total cx (l ++ [f]) = sadd cx (total cx l) (isummary cx f).
Proof. rewrite (total_app cx) by done. f_equal. apply (sadd_zero_l (cx := cx)). Qed.

Lemma total_max_insertion l f : f ∈ l → value (stamp f) <= GlobalOps.get (max_insertion_version (total cx l)) (replica_id (stamp f)).
Proof.
  induction l as [|g l IH] using rev_ind; [by intros ?%elem_of_nil|]. rewrite total_snoc.
  cbn [sadd fragment_summary_monoid max_insertion_version isummary fragment_item fragment_summary].
  rewrite get_join, get_observe_new. intros [Hf| ->%list_elem_of_singleton]%elem_of_app; [|rewrite N.eqb_refl; lia].
  specialize (IH Hf). lia.
Qed.

Lemma total_max_normal l : normal (max_insertion_version (total cx l)).
Proof. induction l as [|g l IH] using rev_ind; [by left|]. rewrite total_snoc. cbn. auto with zed. Qed.

Lemma total_min_insertion l f : Forall (λ f, 0 < value (stamp f)) l → f ∈ l →
  0 < GlobalOps.get (min_insertion_version (total cx l)) (replica_id (stamp f)) <= value (stamp f).
Proof.
  induction l as [|g l IH] using rev_ind; [by intros ? ?%elem_of_nil|]. rewrite total_snoc. intros [Hl Hg]%Forall_app.
  cbn [sadd fragment_summary_monoid min_insertion_version isummary fragment_item fragment_summary].
  rewrite Forall_singleton in Hg. rewrite get_meet, get_observe_new. unfold GlobalOps.meet_entry.
  intros [Hf| ->%list_elem_of_singleton]%elem_of_app; [specialize (IH Hl Hf)|rewrite N.eqb_refl]; cases_bool; lia.
Qed.

(** When a subtree has an extent, it is that of its fragments. *)
Lemma versioned_subtree n h (t : Node Fragment FragmentSummary) o : wf cx h t →
  Forall (λ f, 0 < value (stamp f)) (tree_items t) →
  dadd cx (Offset n) (NodeOps.summary t) = Offset o → Offset o = posn cx (Offset n) (tree_items t).
Proof.
  intros Ht Hpos. rewrite (wf_summary cx h t Ht), versioned_posn. generalize (tree_items t) Hpos. clear t Ht Hpos. intros l Hpos.
  cbn [dadd versioned_dimension add_summary]. destruct (GlobalOps.observed_all _ _) eqn:E.
  - intros <-. do 2 f_equal. rewrite observed_all_iff in E by apply total_max_normal.
    assert (∀ f, f ∈ l → seen f = true) as Hs.
    { intros f Hf. apply observed_iff. etrans; [by apply (total_max_insertion l f)|]. apply E. }
    clear E Hpos. rewrite (total_context cx None), total_text. induction l as [|f l IH]; [done|].
    cbn [text_of seen_width]. rewrite Hs by left. rewrite <- IH by (intros; apply Hs; by right).
    unfold text_add, fragment_text. destruct (visible f); cbn; lia.
  - destruct (GlobalOps.observed_any _ _) eqn:Ea; [done|]. intros [= <-]. f_equal.
    assert (∀ f, f ∈ l → seen f = false) as Hs.
    { intros f Hf. apply not_true_iff_false. intros Hs. apply observed_iff in Hs. apply not_true_iff_false in Ea. apply Ea, observed_any_iff.
      exists (replica_id (stamp f)). pose proof (total_min_insertion l f Hpos Hf). lia. }
    clear E Ea Hpos. induction l as [|f l IH]; [cbn; lia|]. cbn [seen_width]. rewrite Hs by left. apply IH. intros; apply Hs; by right.
Qed.

(** *** Seeking *)

(** Together with the offset in the visible text. *)
Lemma versioned_pair n v l : posn cx (Offset n, v) l = (Offset (n + seen_width l), v + tvisible (text_of l)).
Proof.
  revert n v. induction l as [|f l IH]; intros n v; [cbn; by rewrite !N.add_0_r|]. cbn [seen_width text_of].
  change (posn cx (Offset n, v) (f :: l)) with (posn cx (dadd cx (Offset n) (isummary cx f), v + tvisible (fragment_text f)) l).
  rewrite versioned_item, IH. unfold text_add. cbn [tvisible]. f_equal; [f_equal|]; lia.
Qed.

Lemma versioned_prunes a bias (all : list Fragment) : Forall (λ f, 0 < value (stamp f)) all →
  Prunes cx (at_full a) bias all.
Proof.
  intros Hall [[n|] v] h t b k Ht -> Hs; [|done]. apply Forall_app in Hall as [_ [Hpos _]%Forall_app].
  change (dadd cx (Offset n, v) (NodeOps.summary t)) with (dadd cx (Offset n) (NodeOps.summary t), dadd cx v (NodeOps.summary t)) in *.
  destruct (dadd cx (Offset n) (NodeOps.summary t)) as [o|] eqn:E; [|done]. rewrite versioned_pair.
  rewrite (versioned_subtree n h t o Ht Hpos E), versioned_posn. f_equal.
  rewrite (wf_summary cx h t Ht). cbn. by rewrite (total_context cx None), total_text.
Qed.

(** A number in place of the dimension: an invalid offset is after the target. *)
Definition full_measure (a : N) (d : VersionedFullOffset * N) : N := match d.1 with Offset b => b | Invalid => a + 1 end.

Lemma at_full_measure a d : at_full a d = (a ?= full_measure a d).
Proof. destruct d as [[b|] v]; [done|]. symmetry. apply N.compare_lt_iff. cbn. lia. Qed.

Lemma full_measure_le a d f : full_measure a d <= full_measure a (dadd cx d (isummary cx f)).
Proof.
  destruct d as [[b|] v]; [|done].
  change (dadd cx (Offset b, v) (isummary cx f)) with (dadd cx (Offset b) (isummary cx f), dadd cx v (isummary cx f)).
  rewrite versioned_item. cbn. lia.
Qed.

End versioned.
