(* ===== verification/RemoteEdit.v ===== *)
(** * Edits of other replicas: [Buffer::apply_remote_edit] of [crates/text/src/text.rs]

    The ranges of the operation are offsets at the version at which it was made.
    The old fragments are read once, in order; those that the version has not
    seen are concurrent: they are never cut, an insertion goes behind those of
    them that are newer, and a deletion leaves them alone. *)

From stdpp Require Import sets sorting.
From S2P Require Import Prelude Clock Locator Patch SumTree SumCursor CursorSpec KeyedTree TreeMap UndoMap Text Rope LineEnding Fragment Builders Snapshot SnapshotSpec History LocalEdit VersionedOffset.
Import TreeOps BuildingOps VersionedOps.

#[local] Unset Default Proof Using.
#[local] Open Scope N_scope.
#[local] Existing Instance LamportOps.cmp_total.

Abbreviation RemoteCursor := (Cursor Fragment FragmentSummary (VersionedFullOffset * N)).

(** The variables of the loop. *)
Record RemoteState := mkRemoteState {
  rbuilding : Building;
  rpatch : Patch;
  rold : RemoteCursor;
  rstart : N }.

Module RemoteEditOps.
Section RemoteEditOps.
Variable MAX_INSERTION_LEN : N.
Variable version : Global.
Variable undos : UndoMap.
Variable timestamp : Lamport.
Implicit Types (st : RemoteState) (range : Range N) (c : RemoteCursor).

#[local] Abbreviation cx := (Some version).

(** [old_fragments.start().0.full_offset()], and of [end]. *)
Definition full_start c : option N := full_offset (CursorOps.start c).1.
Definition full_end c : option N := e ← CursorOps.end_ cx c; full_offset e.1.

(** [old_fragments.item().unwrap()] *)
Definition current c : option Fragment := item ← CursorOps.item c; item.

(** A fragment is written as it is: its entry in the insertions stays. *)
Definition keep_part (bd : Building) (fragment : Fragment) : option Building :=
  ropes ← RopeBuilderOps.push_fragment (new_ropes bd) fragment (visible fragment);
  Some (mkBuilding (FragmentBuilderOps.push (new_fragments bd) fragment None) ropes
    (new_insertions bd) (new_slices bd) (next_offset bd)).

Definition consume_rest st : option RemoteState :=
  fragment_start ← full_start (rold st);
  if fragment_start <? rstart st then
    fragment_end ← full_end (rold st);
    bd ← (if rstart st <? fragment_end then
            fragment ← current (rold st);
            suffix ← cut fragment (rstart st) fragment_end fragment_start;
            push_part (rbuilding st) suffix (visible suffix)
          else Some (rbuilding st));
    c ← CursorOps.next cx (rold st);
    Some (mkRemoteState bd (rpatch st) c (rstart st))
  else Some st.

Definition skip_before st range : option RemoteState :=
  fragment_end ← full_end (rold st);
  if fragment_end <? start range then
    st ← consume_rest st;
    '(slice, c) ← CursorOps.slice cx (at_full (start range)) BiasLeft (rold st);
    bd ← append_slice (rbuilding st) slice;
    fragment_start ← full_start c;
    Some (mkRemoteState bd (rpatch st) c fragment_start)
  else Some st.

(** At the end of a fragment that is not concurrent, go on to the next one. *)
Definition finish_fragment st range : option RemoteState :=
  fragment_end ← full_end (rold st);
  if (fragment_end =? start range) && (rstart st <? fragment_end) then
    fragment ← current (rold st);
    fragment_start ← full_start (rold st);
    fragment ← cut fragment (rstart st) fragment_end fragment_start;
    bd ← push_part (rbuilding st) fragment (visible fragment);
    c ← CursorOps.next cx (rold st);
    fragment_start ← full_start c;
    Some (mkRemoteState bd (rpatch st) c fragment_start)
  else Some st.

(** [fragment.timestamp > timestamp] *)
Definition newer (t : Lamport) : bool := match LamportOps.cmp t timestamp with Gt => true | _ => false end.

(** One iteration of the loop over the concurrent insertions that are newer. *)
Definition skip_step range st : option (RemoteState + RemoteState) :=
  item ← CursorOps.item (rold st);
  match item with
  | Some fragment =>
      if (rstart st =? start range) && newer (stamp fragment) then
        bd ← keep_part (rbuilding st) fragment;
        c ← CursorOps.next cx (rold st);
        Some (inl (mkRemoteState bd (rpatch st) c (rstart st)))
      else Some (inr st)
  | None => Some (inr st)
  end.

Definition keep_prefix st range : option RemoteState :=
  if rstart st <? start range then
    fragment ← current (rold st);
    fragment_start ← full_start (rold st);
    prefix ← cut fragment (rstart st) (start range) fragment_start;
    let prefix := with_id prefix (LocatorOps.between (max_id (rbuilding st)) (fid prefix)) in
    bd ← push_part (rbuilding st) prefix (visible prefix);
    Some (mkRemoteState bd (rpatch st) (rold st) (start range))
  else Some st.

(** Where the place is in the visible text. *)
Definition visible_place st : option N :=
  fragment_start ← full_start (rold st);
  skipped ← usize_sub (rstart st) fragment_start;
  Some ((CursorOps.start (rold st)).2 + skipped).

Definition insert_text st (new_text : str) : option RemoteState :=
  if Str.length_utf8 new_text =? 0 then Some st
  else
    item ← CursorOps.item (rold st);
    old_start ← match item with
                | Some f => if visible f then visible_place st else Some (CursorOps.start (rold st)).2
                | None => Some (CursorOps.start (rold st)).2
                end;
    let new_start := tvisible (ftext (FragmentBuilderOps.summary (new_fragments (rbuilding st)))) in
    let next_fragment_id := match item with Some old_fragment => fid old_fragment | None => LocatorOps.max end in
    bd ← push_fragments_for_insertion MAX_INSERTION_LEN new_text timestamp next_fragment_id timestamp (rbuilding st);
    Some (mkRemoteState bd
      (PatchOps.push (rpatch st) (mkEdit (old_start ..: old_start) (new_start ..: new_start + Str.length_utf8 new_text)))
      (rold st) (rstart st)).

(** The part of the fragment that is in the range, and whether the edit deletes
    it: the version has seen it, and it was visible there. *)
Definition intersect st (fragment : Fragment) (intersection_end : N) : option (Fragment * bool) :=
  if GlobalOps.observed version (stamp fragment) then
    fragment_start ← full_start (rold st);
    piece ← cut fragment (rstart st) intersection_end fragment_start;
    let piece := with_id piece (LocatorOps.between (max_id (rbuilding st)) (fid piece)) in
    was ← FragmentOps.was_visible fragment version undos;
    Some (if was : bool then (deleted piece timestamp, true) else (piece, false))
  else Some (fragment, false).

Definition push_intersection st (fragment intersection : Fragment) (marked : bool) (intersection_end : N) :
    option RemoteState :=
  let bd := if marked then push_slice (rbuilding st) timestamp intersection else rbuilding st in
  if 0 <? flen intersection then
    patch ← (if visible fragment && negb (visible intersection) then
               old_start ← visible_place st;
               let new_start := tvisible (ftext (FragmentBuilderOps.summary (new_fragments (rbuilding st)))) in
               Some (PatchOps.push (rpatch st)
                 (mkEdit (old_start ..: old_start + flen intersection) (new_start ..: new_start)))
             else Some (rpatch st));
    bd ← push_part bd intersection (visible fragment);
    Some (mkRemoteState bd patch (rold st) intersection_end)
  else Some (mkRemoteState bd (rpatch st) (rold st) (rstart st)).

(** One iteration of the loop over the fragments that intersect the range. *)
Definition delete_step range st : option (RemoteState + RemoteState) :=
  if rstart st <? stop range then
    fragment ← current (rold st);
    fragment_end ← full_end (rold st);
    let intersection_end := N.min (stop range) fragment_end in
    '(intersection, marked) ← intersect st fragment intersection_end;
    st ← push_intersection st fragment intersection marked intersection_end;
    c ← (if fragment_end <=? stop range then CursorOps.next cx (rold st) else Some (rold st));
    Some (inl (mkRemoteState (rbuilding st) (rpatch st) c (rstart st)))
  else Some (inr st).

(** Every iteration but the last goes to the next fragment. *)
Definition remote_fuel st : nat := Datatypes.S (weight (tree (rold st))).

(** With the debug assertion before the prefix is kept. *)
Definition apply_one st (edit : Range N * str) : option RemoteState :=
  let '(range, new_text) := edit in
  st ← skip_before st range;
  st ← finish_fragment st range;
  st ← iterate (skip_step range) (remote_fuel st) st;
  if rstart st <=? start range then
    st ← keep_prefix st range;
    st ← insert_text st new_text;
    iterate (delete_step range) (remote_fuel st) st
  else None.

Fixpoint apply_all st (edits : list (Range N * str)) : option RemoteState :=
  match edits with
  | [] => Some st
  | edit :: edits => st ← apply_one st edit; apply_all st edits
  end.

Definition begin_edit (s : BufferSnapshot) (first_start : N) : option RemoteState :=
  v ← RopeOps.cursor (visible_text s) 0;
  d ← RopeOps.cursor (deleted_text s) 0;
  let new_ropes := RopeBuilderOps.new v d in
  '(slice, c) ← CursorOps.slice cx (at_full first_start) BiasLeft (CursorOps.new cx (fragments s));
  let new_fragments := FragmentBuilderOps.new slice in
  ropes ← RopeBuilderOps.append new_ropes (ftext (FragmentBuilderOps.summary new_fragments));
  fragment_start ← full_start c;
  Some (mkRemoteState (mkBuilding new_fragments ropes [] [] 0) [] c fragment_start).

Definition finish_edit sort_insertions sort_slices (s : BufferSnapshot) st : option BufferSnapshot :=
  st ← consume_rest st;
  '(suffix, _) ← CursorOps.suffix cx (rold st);
  bd ← append_slice (rbuilding st) suffix;
  finish sort_insertions sort_slices s bd.

End RemoteEditOps.

(** Without ranges nothing is done, and nothing is published. *)
Definition apply_remote_edit (MAX_INSERTION_LEN : N) sort_insertions sort_slices (s : BufferSnapshot)
    (version : Global) (ranges : list (Range N)) (new_text : list str) (timestamp : Lamport) :
    option (BufferSnapshot * option Patch) :=
  match ranges with
  | [] => Some (s, None)
  | first :: _ =>
      st ← begin_edit version s (start first);
      st ← apply_all MAX_INSERTION_LEN version (undo_map s) timestamp st (zip ranges new_text);
      s' ← finish_edit version sort_insertions sort_slices s st;
      Some (s', Some (rpatch st))
  end.

End RemoteEditOps.
