(* ===== verification/RemoteEditSpec.v ===== *)
(** * What the edit of another replica does to a snapshot

    The blocks of [apply_remote_edit], each with the invariant of the loop
    ([edited]): what has been read and written stands for cells, and the loop
    does on the cells what [integrate] does. Together: the operation gives a
    well-formed snapshot whose cells are those of [integrate], with a patch of
    the visible text. *)

From stdpp Require Import sets sorting.
From S2P Require Import Prelude Clock Locator Patch SumTree SumCursor CursorSpec CursorWalk KeyedTree TreeMap UndoMap Text Rope RopeText LineEnding Fragment Builders Snapshot Cells SnapshotSpec History LocalEdit LocalEditSpec VersionedOffset RemoteEdit.
Import TreeOps BuildingOps VersionedOps RemoteEditOps.

#[local] Unset Default Proof Using.
#[local] Arguments Nat.mul : simpl never.
#[local] Open Scope N_scope.
#[local] Existing Instance LamportOps.cmp_total.

(** ** Seeking with equal targets *)

Section targets.
Context {T S Cx D : Type} `{!Summary S Cx, !Item T S Cx, !Dimension D S Cx} (cx : Cx).
Context (t1 t2 : D → comparison) (Ht : ∀ d, t1 d = t2 d) (bias : Bias).
Implicit Types (l : list T) (d : D).

Lemma seek_split_ext d l : seek_split cx t1 bias d l = seek_split cx t2 bias d l.
Proof.
  revert d. induction l as [|x l IH]; intros d; [done|]. cbn [seek_split]. unfold CursorOps.skips. rewrite Ht.
  destruct (t2 _); rewrite ?IH; done.
Qed.

Lemma monotone_ext d l : monotone cx t2 bias d l → monotone cx t1 bias d l.
Proof. intros H a k. unfold target_in_child. rewrite !Ht. apply H. Qed.
End targets.

(** ** The cells of pieces *)

Section pieces.
Context (V : Global) (was : Lamport → bool) (ts : Lamport).
Implicit Types (x f : Fragment) (b r : list part) (u m w : str) (cs g : list Cell).

Lemma known_inner x u m : known_width V (inner x u m) = if seen V x then Str.length_utf8 m else 0.
Proof. apply known_text. Qed.

Lemma inner_known x u m : seen V x = true → Forall (λ c, known V c = true) (inner x u m).
Proof. intros Hx. apply Forall_forall. intros c [E _]%elem_of_text_cells. unfold known. by rewrite E. Qed.

Lemma parts_known b : Forall part_ok b → seen_width V b.*1 = known_width V (cells b).
Proof.
  induction 1 as [|[x m] b [Hl _ _ _ _ _] _ IH]; [done|]. cbn [fst snd] in Hl. rewrite cells_cons, known_width_app, <- IH.
  cbn [fmap list_fmap fst seen_width]. rewrite part_inner, known_inner, Hl. done.
Qed.

(** Which fragments the edit deletes. *)
Definition shown_then x : bool := showed (GlobalOps.observed V) was x.

Lemma cell_shown_then x (o c : N) : was_shown V was (mkCell (stamp x) o c (fragment_marks x)) = shown_then x.
Proof.
  unfold was_shown, shown_then, showed, known. cbn [cstamp cmarks]. by rewrite marks_forall.
Qed.

Lemma delete_inner x u m : delete_cell V was ts <$> inner x u m = if shown_then x then Cells.mark ts <$> inner x u m else inner x u m.
Proof.
  unfold inner. generalize (insertion_offset x + Str.length_utf8 u). intros o.
  revert o. induction m as [|c m IH]; intros o; [by destruct (shown_then x)|]. cbn [text_cells fmap list_fmap]. rewrite IH.
  unfold delete_cell. rewrite cell_shown_then. by destruct (shown_then x).
Qed.

Lemma take_newer_inner x u m cs : take_newer ts (inner x u m ++ cs) =
  if newer ts (stamp x) then (inner x u m ++ (take_newer ts cs).1, (take_newer ts cs).2)
  else match m with [] => take_newer ts cs | _ => ([], inner x u m ++ cs) end.
Proof.
  unfold inner. generalize (insertion_offset x + Str.length_utf8 u). intros o.
  revert o. induction m as [|c m IH]; intros o; cbn [text_cells app take_newer].
  { destruct (newer ts (stamp x)), (take_newer ts cs); done. }
  change (newer_cell ts (mkCell (stamp x) o c (fragment_marks x))) with (newer ts (stamp x)).
  rewrite IH. destruct (newer ts (stamp x)); [|done]. done.
Qed.
End pieces.

(** ** The blocks of the loop *)

Section blocks.
Context (s : BufferSnapshot) (ps : list part) (Hok : snapshot_ok s ps) (Hlow : snapshot_low s).
Context (ts : Lamport) (Hts : undone_in (undo_map s) ts = false).
Context (V : Global) (was : Lamport → bool).
Context (Hpos : Forall (λ f, 0 < value (stamp f)) ps.*1).
Implicit Types (b k r bu wr nps : list part) (x f : Fragment) (u w m : str) (cs g h d : list Cell) (st : RemoteState) (c : RemoteCursor).

#[local] Abbreviation cx := (Some V).
#[local] Abbreviation width := (known_width V).
Abbreviation built := (SnapshotSpec.built (visible_text s) (deleted_text s) ts (undone_in (undo_map s))
  (members (insertion_slices s)) ps.*1).

(** The cursor is in the old fragments after [bu] and before [wr]; it only
    stops inside fragments that the version has seen. *)
Inductive located c : list part → list part → Prop :=
| located_end : tree c = fragments s → cursor_at cx c (spot_of ps.*1 []) → located c ps []
| located_on b x u w r :
    tree c = fragments s → ps = b ++ (x, u ++ w) :: r → (seen V x = false → u = []) → w ≠ [] →
    cursor_at cx c (On b.*1 x r.*1) → located c (before b x u) ((x, w) :: r).

Record wrote bd patch bu wr nps (kept pushed : list Fragment) : Prop := {
  wr_built : built bd bu wr nps kept pushed;
  wr_patch : patched 0 0 patch (Str.as_bytes (shown bu)) (Str.as_bytes (shown nps));
  wr_separated : separated patch }.

(** The invariant of the loop; [cs] are the cells ahead. *)
Record edited st bu wr nps (kept pushed : list Fragment) cs : Prop := {
  ed_located : located (rold st) bu wr;
  ed_start : rstart st = width (cells bu);
  ed_wrote : wrote (rbuilding st) (rpatch st) bu wr nps kept pushed;
  ed_ahead : cells ps = cells bu ++ cs }.

(** [g] has been read, [n] has been written. *)
Record moved st bu nps st' g n bu' wr' nps' (kept' pushed' : list Fragment) cs' : Prop := {
  mv_edited : edited st' bu' wr' nps' kept' pushed' cs';
  mv_read : cells bu' = cells bu ++ g;
  mv_written : cells nps' = cells nps ++ n;
  mv_offset : next_offset (rbuilding st') = next_offset (rbuilding st) }.

Lemma moved_here st bu wr nps kept pushed cs : edited st bu wr nps kept pushed cs →
  moved st bu nps st [] [] bu wr nps kept pushed cs.
Proof. intros He. by split; rewrite ?app_nil_r. Qed.

Lemma moved_trans st bu nps st1 g n bu1 wr1 nps1 kept1 pushed1 cs1 st2 g' n' bu2 wr2 nps2 kept2 pushed2 cs2 :
  moved st bu nps st1 g n bu1 wr1 nps1 kept1 pushed1 cs1 → moved st1 bu1 nps1 st2 g' n' bu2 wr2 nps2 kept2 pushed2 cs2 →
  moved st bu nps st2 (g ++ g') (n ++ n') bu2 wr2 nps2 kept2 pushed2 cs2.
Proof.
  intros [_ H1 H2 H3] [? K1 K2 K3]. split; [done|by rewrite K1, H1, app_assoc|by rewrite K2, H2, app_assoc|by rewrite K3].
Qed.

Lemma fragment_positive b k : ps = b ++ k → Forall part_ok b ∧ Forall part_ok k.
Proof. apply (ps_parts s ps Hok). Qed.

Lemma pair_posn l : posn cx (dzero FragmentSummary cx) l = (Offset (seen_width V l), tvisible (text_of l)).
Proof. change (dzero FragmentSummary cx) with (Offset 0, 0). by rewrite versioned_pair, !N.add_0_l. Qed.

Lemma pair_parts b : Forall part_ok b →
  posn cx (dzero FragmentSummary cx) b.*1 = (Offset (width (cells b)), Str.length_utf8 (shown b)).
Proof. intros Hb. by rewrite pair_posn, parts_known, parts_visible. Qed.

(** What the cursor says about its place. *)
Lemma remote_located_reads c bu wr : located c bu wr →
  tree c = fragments s ∧
  match wr with
  | [] => bu = ps ∧ cursor_at cx c (spot_of ps.*1 []) ∧ full_start c = Some (width (cells ps)) ∧
      full_end V c = Some (width (cells ps)) ∧ (CursorOps.start c).2 = Str.length_utf8 (shown ps) ∧ CursorOps.item c = Some None
  | (x, w) :: r => ∃ b u, bu = before b x u ∧ ps = b ++ (x, u ++ w) :: r ∧ (seen V x = false → u = []) ∧ w ≠ [] ∧
      cursor_at cx c (On b.*1 x r.*1) ∧ full_start c = Some (width (cells b)) ∧
      full_end V c = Some (width (cells b) + if seen V x then Str.length_utf8 (u ++ w) else 0) ∧
      (CursorOps.start c).2 = Str.length_utf8 (shown b) ∧ CursorOps.item c = Some (Some x) ∧ RemoteEditOps.current c = Some x
  end.
Proof.
  unfold full_start, full_end, RemoteEditOps.current. intros [Ht Hat|b x u w r Ht Hps Hu Hw Hat]; (split; [done|]).
  - rewrite (end_ok cx c _ Hat), (item_ok cx c _ Hat), (start_ok cx c _ Hat) by done. cbn [spot_of spot_start spot_item option_list].
    rewrite app_nil_r, Ht, (so_items _ _ Hok), pair_parts by apply Hok. by split_and!.
  - destruct (fragment_positive _ _ Hps) as [Hb [[Hl _ _ _ _ _] _]%Forall_cons]. cbn [fst snd] in Hl.
    rewrite (end_ok cx c _ Hat), (item_ok cx c _ Hat), (start_ok cx c _ Hat) by done. cbn [spot_start spot_item option_list mbind option_bind].
    rewrite pair_parts by done. exists b, u. split_and!; try done.
    change (option_list (Some x)) with [x]. rewrite pair_posn, seen_width_app, parts_known by done. cbn [fst full_offset seen_width]. rewrite Hl. f_equal. lia.
Qed.

(** The cells ahead of a place. *)
Lemma ahead_cells b x u w r cs : ps = b ++ (x, u ++ w) :: r → cells ps = cells (before b x u) ++ cs → cs = inner x u w ++ cells r.
Proof.
  intros ->. rewrite cells_app, cells_cons, part_inner_app, cells_before, <- !app_assoc. intros H.
  by apply app_inv_head, app_inv_head in H.
Qed.

(** [c] is between the fragments of [b] and those of [k]. *)
Definition at_boundary c b k : Prop := tree c = fragments s ∧ ps = b ++ k ∧ cursor_at cx c (spot_of b.*1 k.*1).

Lemma remote_boundary_located c b k : at_boundary c b k → located c b k.
Proof.
  intros (Ht & Hps & Hat). destruct k as [|[x w] r].
  - rewrite app_nil_r in Hps. subst b. by apply located_end.
  - apply (located_on c b x [] w r); try done. destruct (fragment_positive _ _ Hps) as [_ [[_ Hw _ _ _ _] _]%Forall_cons]. done.
Qed.

Lemma remote_boundary_next c b x w r : tree c = fragments s → ps = b ++ (x, w) :: r → cursor_at cx c (On b.*1 x r.*1) →
  returns (CursorOps.next cx c) (λ c', at_boundary c' (b ++ [(x, w)]) r).
Proof.
  intros Ht Hps Hat. eapply returns_mono; [apply (next_ok cx c _ _ _ Hat); rewrite Ht; apply Hlow|]. intros c' [Ht' Hat'].
  split_and!; [congruence|by rewrite <- app_assoc|]. by rewrite fmap_app.
Qed.

Lemma remote_boundary_start c b k : at_boundary c b k → full_start c = Some (width (cells b)).
Proof.
  intros Hc. pose proof (proj2 (remote_located_reads _ _ _ (remote_boundary_located _ _ _ Hc))) as H. destruct Hc as (_ & Hps & Hat).
  destruct k as [|[x w] r]; [by destruct H as (-> & _ & -> & _)|]. unfold full_start.
  rewrite (start_ok cx c _ Hat). cbn [spot_of fmap list_fmap spot_start]. by rewrite pair_parts by apply (fragment_positive _ _ Hps).
Qed.

(** The patch after a piece that is deleted has been read. *)
Definition cross_patch patch x f (place new_start : N) : Patch :=
  if visible x && negb (visible f) then PatchOps.push patch (mkEdit (place ..: place + flen f) (new_start ..: new_start)) else patch.

(** A piece of the current fragment is written, marked or not. *)
Lemma write_crossed b x u m w r nps kept pushed bd patch f (mark : bool) wr :
  ps = b ++ (x, u ++ m ++ w) :: r → wrote bd patch (before b x u) ((x, m ++ w) :: r) nps kept pushed → m ≠ [] →
  piece_of ts x u m mark f →
  (wr = (x, w) :: r ∧ fid f = LocatorOps.between (BuildingOps.max_id bd) (fid x) ∨ wr = r ∧ w = [] ∧ fid f = fid x) →
  returns (push_part (if mark then push_slice bd ts f else bd) f (visible x)) (λ bd',
    wrote bd' (cross_patch patch x f (Str.length_utf8 (shown (before b x u))) (Str.length_utf8 (shown nps)))
      (before b x (u ++ m)) wr (nps ++ [(f, m)]) kept (pushed ++ [f]) ∧
    next_offset bd' = next_offset bd ∧
    cells (nps ++ [(f, m)]) = cells nps ++ if mark then Cells.mark ts <$> inner x u m else inner x u m).
Proof.
  intros Hps [Hb Hp Hsep] Hm Hf Hwr. destruct (ps_known s ps Hok b x _ _ Hps) as (Hx & Hc & Hs & Hin).
  eapply returns_mono.
  { eapply (emit _ _ (lo_visible _ Hlow) (lo_deleted _ Hlow) ts _ Hts _ _ bd b x u m w r wr nps kept pushed f mark); done. }
  intros bd' [Hb' Ho]. split; [|split; [done|by rewrite cells_app, cells_one, (piece_cells ts x u m f mark Hf)]].
  pose proof (pc_visible _ _ _ _ _ _ Hf) as Hv. unfold cross_patch.
  assert (shown (before b x (u ++ m)) = shown (before b x u) ++ if visible x then m else []) as Er.
  { rewrite !shown_before. destruct (visible x); by rewrite <- app_assoc. }
  assert (shown (nps ++ [(f, m)]) = shown nps ++ if visible f then m else []) as En by by rewrite shown_app, shown_one.
  rewrite Hv. destruct (visible x); cbn [andb].
  - rewrite (pc_len _ _ _ _ _ _ Hf), negb_involutive. destruct mark; cbn [andb negb] in *.
    + destruct (push_edit patch (shown (before b x u)) (shown nps) m [] _ Hp Hsep eq_refl) as [Hp' Hsep'].
      rewrite length_utf8_app, app_nil_r in Hp', Hsep'. rewrite Hv, app_nil_r in En. by split; [|rewrite Er, En|].
    + split; [done| |done]. rewrite Er, En, Hv. by apply extend_patch.
  - cbn [andb] in Hv. rewrite Hv, app_nil_r in En. rewrite app_nil_r in Er. by split; [|rewrite Er, En|].
Qed.

(** A piece that is not marked. *)
Lemma write_piece b x u m w r nps kept pushed bd patch f wr :
  ps = b ++ (x, u ++ m ++ w) :: r → wrote bd patch (before b x u) ((x, m ++ w) :: r) nps kept pushed → m ≠ [] →
  piece_of ts x u m false f →
  (wr = (x, w) :: r ∧ fid f = LocatorOps.between (BuildingOps.max_id bd) (fid x) ∨ wr = r ∧ w = [] ∧ fid f = fid x) →
  returns (push_part bd f (visible f)) (λ bd', wrote bd' patch (before b x (u ++ m)) wr (nps ++ [(f, m)]) kept (pushed ++ [f]) ∧
    next_offset bd' = next_offset bd ∧ cells (nps ++ [(f, m)]) = cells nps ++ inner x u m).
Proof.
  intros Hps Hw Hm Hf Hwr. pose proof (pc_visible _ _ _ _ _ _ Hf) as Hv. rewrite andb_true_r in Hv.
  pose proof (write_crossed b x u m w r nps kept pushed bd patch f false wr Hps Hw Hm Hf Hwr) as H.
  unfold cross_patch in H. rewrite Hv, andb_negb_r in H. by rewrite Hv.
Qed.

(** *** The rest of a fragment *)

(** What is left when the rest of the current fragment has been read. *)
Record rest_consumed st bu nps (kept : list Fragment) cs st' g b k nps' (pushed' : list Fragment) cs' : Prop := {
  rc_wrote : wrote (rbuilding st') (rpatch st') b k nps' kept pushed';
  rc_boundary : at_boundary (rold st') b k;
  rc_offset : next_offset (rbuilding st') = next_offset (rbuilding st);
  rc_patch : rpatch st' = rpatch st;
  rc_read : cells b = cells bu ++ g;
  rc_written : cells nps' = cells nps ++ g;
  rc_ahead : cs = g ++ cs';
  rc_known : Forall (λ e : Cell, known V e = true) g;
  rc_end : g = [] ∨ full_end V (rold st) = Some (width (cells b)) }.

(** All that is left of the current fragment is written, and the cursor goes on. *)
Lemma write_rest bd patch c b x u w r nps kept pushed : ps = b ++ (x, u ++ w) :: r → w ≠ [] → tree c = fragments s →
  cursor_at cx c (On b.*1 x r.*1) → wrote bd patch (before b x u) ((x, w) :: r) nps kept pushed →
  returns (suffix ← cut x (width (cells b) + Str.length_utf8 u) (width (cells b) + Str.length_utf8 (u ++ w)) (width (cells b));
    bd ← push_part bd suffix (visible suffix); c ← CursorOps.next cx c; Some (bd, c)) (λ '(bd', c'), ∃ nps' pushed',
    wrote bd' patch (b ++ [(x, u ++ w)]) r nps' kept pushed' ∧ next_offset bd' = next_offset bd ∧
    cells nps' = cells nps ++ inner x u w ∧ at_boundary c' (b ++ [(x, u ++ w)]) r).
Proof.
  intros Hps Hne Ht Hat Hw. eapply returns_bind.
  { apply (cut_piece ts x u w []). rewrite app_nil_r. by apply (ps_known s ps Hok b x (u ++ w) r). }
  intros f [Hf Hid]. eapply returns_bind.
  { eapply (write_piece b x u w [] r); rewrite ?app_nil_r; [done|exact Hw|done|exact Hf|]. by right. }
  intros bd' (Hw' & Ho & Hn). rewrite before_full in Hw' by (destruct u; [done|by destruct w]).
  eapply returns_bind; [by eapply remote_boundary_next|]. intros c' Hc'. apply returns_ret. by exists (nps ++ [(f, w)]), (pushed ++ [f]).
Qed.

Lemma remote_consume_rest_ok st bu wr nps kept pushed cs : edited st bu wr nps kept pushed cs →
  returns (consume_rest V st) (λ st', ∃ g b k nps' pushed' cs', rest_consumed st bu nps kept cs st' g b k nps' pushed' cs').
Proof.
  intros [Hloc Hst Hw Hcs]. unfold consume_rest. rewrite Hst.
  destruct (remote_located_reads _ _ _ Hloc) as [Ht Hread]. destruct wr as [|[x w] r].
  { destruct Hread as (-> & Hat & -> & _). cbn [mbind option_bind]. rewrite N.ltb_irrefl. apply returns_ret. exists [], ps, [], nps, pushed, cs.
    split; rewrite ?app_nil_r; try done; [by split_and!; rewrite ?app_nil_r|by left]. }
  destruct Hread as (b & u & -> & Hps & Hinv & Hne & Hat & -> & Hend & _ & Hitem & Hcur). cbn [mbind option_bind].
  destruct (decide (u = [])) as [->|Hu].
  { cbn [before]. rewrite N.ltb_irrefl. apply returns_ret. exists [], b, ((x, w) :: r), nps, pushed, cs.
    split; rewrite ?app_nil_r; try done; by left. }
  assert (seen V x = true) as Hv by (destruct (seen V x); [done|by destruct Hu; auto]).
  assert (Str.length_utf8 u ≠ 0) by by rewrite length_utf8_zero. assert (Str.length_utf8 w ≠ 0) by by rewrite length_utf8_zero.
  assert (width (cells (before b x u)) = width (cells b) + Str.length_utf8 u) as -> by by rewrite cells_before, known_width_app, part_inner, known_inner, Hv.
  rewrite Hv in Hend. destruct (N.ltb_spec (width (cells b)) (width (cells b) + Str.length_utf8 u)); [|lia].
  rewrite Hend. cbn [mbind option_bind].
  destruct (N.ltb_spec (width (cells b) + Str.length_utf8 u) (width (cells b) + Str.length_utf8 (u ++ w))) as [_|Hge];
    [|rewrite length_utf8_app in Hge; lia].
  rewrite Hcur. cbn [mbind option_bind].
  destruct (write_rest _ _ (rold st) b x u w r nps kept pushed Hps Hne Ht Hat Hw) as ([bd' c'] & E & nps' & pushed' & Hw' & Ho & Hn & Hc').
  destruct (cut _ _ _ _) as [f|]; [|done]. cbn [mbind option_bind] in *. destruct (push_part _ _ _) as [bd1|]; [|done]. cbn [mbind option_bind] in *.
  destruct (CursorOps.next _ _) as [c1|]; [|done]. injection E as <- <-. apply returns_ret.
  pose proof (cells_current b x u w) as Eb.
  exists (inner x u w), (b ++ [(x, u ++ w)]), r, nps', pushed', (cells r).
  split; cbn [rbuilding rpatch rold]; try done.
  - by apply (ahead_cells b x u w r).
  - by apply inner_known.
  - right. by rewrite Eb, known_width_app, cells_before, known_width_app, part_inner, !known_inner, Hv, <- N.add_assoc, <- length_utf8_app.
Qed.
(** *** Going to the range *)

(** Seeking in the old fragments: past those that end before the offset. *)
Lemma full_slice c sp b k (a : N) : tree c = fragments s → ready cx c sp → ps = b ++ k →
  spot_start c sp = b.*1 → spot_rest c sp = k.*1 → width (cells b) <= a →
  returns (CursorOps.slice cx (at_full a) BiasLeft c) (λ '(t, c'), ∃ l q, k = l ++ q ∧
    tree_ok None t ∧ tree_items t = l.*1 ∧ at_boundary c' (b ++ l) q ∧ (l = [] ∨ width (cells (b ++ l)) < a) ∧
    match q with p :: _ => a <= width (cells (b ++ l ++ [p])) | [] => True end).
Proof.
  intros Ht Hr Hps Hsb Hsk Ha. destruct (fragment_positive _ _ Hps) as [Hb Hk].
  pose proof (pair_parts b Hb) as Hpb.
  assert (Prunes cx (at_full a) BiasLeft (tree_items (tree c))) as Hprune.
  { apply versioned_prunes. by rewrite Ht, (so_items _ _ Hok). }
  eapply returns_mono.
  { apply (slice_ok cx (at_full a) BiasLeft c sp Hr).
    - change (position c) with (CursorOps.start c). rewrite (start_ok cx c sp (proj1 Hr)), Hsb, Hpb.
      cbn. rewrite N.compare_lt_iff. lia.
    - apply (monotone_ext cx _ _ (at_full_measure a)), (measure_monotone cx (full_measure a) (full_measure_le V a) a). }
  assert (∀ l q, k = l ++ q → full_measure a (posn cx (posn cx (dzero FragmentSummary cx) b.*1) l.*1) = width (cells (b ++ l))) as Hread.
  { intros l q ->. rewrite <- posn_app, <- fmap_app. apply Forall_app in Hk as [Hl _]. by rewrite pair_parts by (by apply Forall_app). }
  intros [t c']. rewrite Hsb, Hsk, (seek_split_ext cx _ _ (at_full_measure a)).
  pose proof (seek_split_measure cx (full_measure a) a BiasLeft (posn cx (dzero FragmentSummary cx) b.*1) k.*1) as Hsplit.
  destruct (seek_split _ _ _ _ _) as [m r]. destruct Hsplit as (Hk' & Hm & Hr'). intros (Htok & Hti & Htree & Hat).
  apply fmap_app_inv in Hk' as (l & q & -> & -> & ->). exists l, q.
  rewrite (Hread l q) in Hm by done. split_and!; [done|by apply (tree_ok_context cx)|done| | |].
  - split_and!; [congruence|by rewrite <- app_assoc|by rewrite fmap_app].
  - destruct Hm as [Hm|Hm]; [left; by apply fmap_nil_inv in Hm|by right].
  - destruct q as [|p q]; [done|]. cbn [fmap list_fmap] in Hr'. change [fst p] with ([p].*1) in Hr'.
    rewrite <- fmap_app, (Hread (l ++ [p]) q) in Hr' by (by rewrite <- app_assoc). simpl in Hr'. lia.
Qed.

(** The cells [g] end in the current fragment, which the version has seen. *)
Definition near g bu wr : Prop := g = [] ∨ ∃ b x u m w r, bu = before b x u ∧ wr = (x, m ++ w) :: r ∧
  ps = b ++ (x, u ++ m ++ w) :: r ∧ seen V x = true ∧ g = inner x u m.

(** The place is in the fragment at which seeking stops. *)
Lemma near_boundary b q g h cs (n : N) : ps = b ++ q → cells ps = cells b ++ cs → take_known V n cs = Some (g, h) →
  match q with p :: _ => width (cells b) + n <= width (cells (b ++ [p])) | [] => True end → near g b q.
Proof.
  intros Hps Hcs Hg Hn. rewrite Hps, cells_app in Hcs. apply app_inv_head in Hcs as <-.
  destruct q as [|[x w] r]; [destruct n; [|done]; injection Hg as <- <-; by left|].
  rewrite cells_cons in Hg. rewrite cells_app, cells_one, known_width_app in Hn.
  destruct (take_known_in V n _ _ _ _ Hg) as (a & Ea & ->); [lia|]. rewrite part_inner in Ea.
  destruct (text_cells_split _ _ _ _ _ _ Ea) as (m & w' & -> & -> & _).
  destruct (seen V x) eqn:Hv; [right; by exists b, x, [], m, w', r|]. left. rewrite part_inner, known_inner, Hv in Hn.
  assert (n = 0) as -> by lia. rewrite take_known_0 in Hg. congruence.
Qed.

(** A place that is not after the current fragment is in it. *)
Lemma near_current c bu wr cs g h (n e : N) : located c bu wr → cells ps = cells bu ++ cs → take_known V n cs = Some (g, h) →
  full_end V c = Some e → width (cells bu) + n <= e → near g bu wr.
Proof.
  intros Hloc Hcs Hg He Hle. destruct (remote_located_reads _ _ _ Hloc) as [_ Hread]. destruct wr as [|[x w] r].
  { destruct Hread as (-> & _). left. rewrite <- (app_nil_r (cells ps)) in Hcs at 1. apply app_inv_head in Hcs as <-.
    destruct n; [by injection Hg as <- _|done]. }
  destruct Hread as (b & u & -> & Hps & Hinv & Hne & _ & _ & Hend & _). rewrite He in Hend. injection Hend as ->.
  rewrite (ahead_cells b x u w r cs Hps Hcs) in Hg. rewrite cells_before, known_width_app, part_inner, known_inner in Hle.
  destruct (seen V x) eqn:Hv.
  - rewrite length_utf8_app in Hle. destruct (take_known_in V n _ _ _ _ Hg) as (a & Ea & ->); [rewrite known_inner, Hv; lia|].
    destruct (text_cells_split _ _ _ _ _ _ Ea) as (m & w' & -> & -> & _). right. by exists b, x, u, m, w', r.
  - assert (n = 0) as -> by lia. left. rewrite take_known_0 in Hg. congruence.
Qed.

(** The place at the offset [a]: behind the cells [g], and before [h]. *)
Record aims (a : N) bu cs g h : Prop := {
  am_le : width (cells bu) <= a;
  am_take : take_known V (a - width (cells bu)) cs = Some (g, h) }.

Lemma aims_over a bu bu' g0 cs g h : aims a bu (g0 ++ cs) g h → cells bu' = cells bu ++ g0 → 
  width (cells bu') < a ∨ width (cells bu') <= a ∧ Forall (λ e : Cell, known V e = true) g0 →
  ∃ g', g = g0 ++ g' ∧ aims a bu' cs g' h.
Proof.
  intros [Hle Hg] Hbu. rewrite Hbu, known_width_app. intros Hw.
  destruct (take_known_over V _ _ _ _ _ Hg) as (g' & -> & Hg'); [destruct Hw as [|[]]; [left|right; split]; (done || lia)|].
  exists g'. split; [done|]. split; rewrite Hbu, known_width_app; [lia|]. by rewrite N.sub_add_distr.
Qed.

Lemma remote_skip_before_ok st bu wr nps kept pushed cs range g h : edited st bu wr nps kept pushed cs →
  aims (start range) bu cs g h →
  returns (skip_before V st range) (λ st', ∃ g1 g2 bu' wr' nps' kept' pushed' cs', g = g1 ++ g2 ∧
    moved st bu nps st' g1 g1 bu' wr' nps' kept' pushed' cs' ∧ aims (start range) bu' cs' g2 h ∧ near g2 bu' wr').
Proof.
  intros He Ha. unfold skip_before. pose proof He as [Hloc Hst Hw Hcs].
  assert (∃ e, full_end V (rold st) = Some e) as [e Hend].
  { pose proof (proj2 (remote_located_reads _ _ _ Hloc)) as Hread.
    destruct wr as [|[x w] r]; [destruct Hread as (_ & _ & _ & -> & _)|destruct Hread as (b & u & _ & _ & _ & _ & _ & _ & -> & _)]; eauto. }
  rewrite Hend. cbn [mbind option_bind]. destruct (N.ltb_spec e (start range)) as [Hlt|Hge].
  2: { apply returns_ret. exists [], g, bu, wr, nps, kept, pushed, cs. split_and!; [done|by apply moved_here|done|].
       destruct Ha. eapply near_current; [done..|]. lia. }
  eapply returns_bind; [by eapply remote_consume_rest_ok|]. intros st1 (g1 & b & k & nps1 & pushed1 & cs1 & [[Hb1 Hp1 Hs1] (Ht1 & Hps & Hat) Ho1 _ Hr1 Hn1 -> Hk1 Hend1]).
  destruct (aims_over _ _ b g1 cs1 g h Ha Hr1) as (g2 & -> & Ha1).
  { right. split; [|done]. destruct Hend1 as [->|E]; [rewrite app_nil_r in Hr1; rewrite Hr1; apply Ha|]. rewrite Hend in E. injection E as ->. lia. }
  eapply returns_bind.
  { apply (full_slice (rold st1) (spot_of b.*1 k.*1) b k (start range)); try done; [| | |apply Ha1].
    - split_and!; [done|by destruct k|]. rewrite Ht1. apply Hlow.
    - destruct k; [|done]. cbn. by rewrite Ht1, (so_items _ _ Hok), Hps, app_nil_r.
    - by destruct k. }
  intros [t c] (l & q & -> & Htok & Hti & Hc & Hl & Hnext). destruct (ps_segment s ps Hok b l q Hps) as (H1 & H2 & H3 & H4).
  eapply returns_bind; [by eapply (built_append _ _ (lo_visible _ Hlow) (lo_deleted _ Hlow))|]. intros bd [Hbd Ho].
  rewrite (remote_boundary_start _ _ _ Hc). cbn [mbind option_bind]. apply returns_ret.
  assert (cs1 = cells l ++ cells q) as ->.
  { rewrite app_assoc, <- Hr1, Hps, cells_app in Hcs. apply app_inv_head in Hcs as <-. by rewrite cells_app. }
  destruct (aims_over _ _ (b ++ l) (cells l) (cells q) g2 h Ha1) as (g3 & -> & Ha2); [by rewrite cells_app| |].
  { destruct Hl as [->|Hl]; [right|by left]. rewrite app_nil_r. split; [apply Ha1|by constructor]. }
  exists (g1 ++ cells l), g3, (b ++ l), q, (nps1 ++ l), (kept ++ l.*1), pushed1, (cells q).
  assert (ps = (b ++ l) ++ q) as Hps2 by by rewrite <- app_assoc.
  split_and!; [by rewrite <- app_assoc| |done|].
  - split; cbn [rbuilding]; [|by rewrite cells_app, Hr1, app_assoc|by rewrite cells_app, Hn1, app_assoc|by rewrite Ho, Ho1].
    split; cbn [rold rstart rbuilding rpatch]; [by apply remote_boundary_located|done| |by rewrite Hps2, cells_app].
    split; [done| |done]. rewrite !shown_app. by apply extend_patch.
  - destruct Ha2 as [Hle2 Hg3]. eapply (near_boundary (b ++ l) q _ _ (cells q)); [done|by rewrite Hps2, cells_app|exact Hg3|].
    destruct q as [|p q]; [done|]. rewrite <- app_assoc. cbn in Hnext |- *. lia.
Qed.
(** The cells [g] end inside the current fragment. *)
Definition inside g bu wr : Prop := g = [] ∨ ∃ b x u m w r, bu = before b x u ∧ wr = (x, m ++ w) :: r ∧
  ps = b ++ (x, u ++ m ++ w) :: r ∧ seen V x = true ∧ g = inner x u m ∧ m ≠ [] ∧ w ≠ [].

Lemma aims_width a bu cs g h : aims a bu cs g h → a = width (cells bu) + width g ∧ cs = g ++ h.
Proof. intros [Hle Hg]. apply take_known_some in Hg as [-> Hw]. split; [lia|done]. Qed.

Lemma width_inner b x u m : seen V x = true → width (cells (before b x u)) + width (inner x u m) = width (cells b) + Str.length_utf8 (u ++ m).
Proof. intros Hv. rewrite cells_before, known_width_app, part_inner, !known_inner, Hv, length_utf8_app. lia. Qed.

(** A place is in one part only. *)
Lemma place_unique b b' x u u' w r : ps = b ++ (x, u ++ w) :: r → ps = b' ++ (x, u' ++ w) :: r → b = b' ∧ u = u'.
Proof.
  intros H1 H2. rewrite H1 in H2. apply app_inj_2 in H2 as [-> H]; [|done]. split; [done|].
  injection H as H. by apply app_inv_tail in H.
Qed.

Lemma full_end_some c bu wr : located c bu wr → ∃ e, full_end V c = Some e.
Proof.
  intros Hloc. pose proof (proj2 (remote_located_reads _ _ _ Hloc)) as Hread.
  destruct wr as [|[x w] r]; [destruct Hread as (_ & _ & _ & -> & _)|destruct Hread as (b & u & _ & _ & _ & _ & _ & _ & -> & _)]; eauto.
Qed.

Lemma finish_fragment_ok st bu wr nps kept pushed cs range g h : edited st bu wr nps kept pushed cs →
  aims (start range) bu cs g h → near g bu wr →
  returns (finish_fragment V st range) (λ st', ∃ g1 g2 bu' wr' nps' kept' pushed' cs', g = g1 ++ g2 ∧
    moved st bu nps st' g1 g1 bu' wr' nps' kept' pushed' cs' ∧ aims (start range) bu' cs' g2 h ∧ inside g2 bu' wr').
Proof.
  intros He Ha Hnear. pose proof He as [Hloc Hst Hw Hcs]. destruct (aims_width _ _ _ _ _ Ha) as [Hwa ->].
  assert (∀ e, full_end V (rold st) = Some e → g = [] ∨ e ≠ start range → inside g bu wr →
    returns (finish_fragment V st range) (λ st', ∃ g1 g2 bu' wr' nps' kept' pushed' cs', g = g1 ++ g2 ∧
      moved st bu nps st' g1 g1 bu' wr' nps' kept' pushed' cs' ∧ aims (start range) bu' cs' g2 h ∧ inside g2 bu' wr')) as Hstay.
  { intros e He' Hor Hin. unfold finish_fragment. rewrite He'. cbn [mbind option_bind].
    destruct ((e =? start range) && (rstart st <? e)) eqn:E.
    { apply andb_true_iff in E as [->%N.eqb_eq E2%N.ltb_lt]. destruct Hor as [->|]; [|done]. cbn [known_width] in Hwa. lia. }
    apply returns_ret. exists [], g, bu, wr, nps, kept, pushed, (g ++ h). split_and!; [done|by apply moved_here|done|done]. }
  destruct Hnear as [->|(b & x & u & m & w & r & -> & -> & Hps & Hv & ->)].
  { destruct (full_end_some _ _ _ Hloc) as [e Hend]. apply (Hstay e); [done|by left|by left]. }
  destruct (remote_located_reads _ _ _ Hloc) as (Ht & b' & u' & _ & Hps' & Hinv & Hne & Hat & Hstart & Hend & _ & _ & Hcur).
  destruct (place_unique _ _ _ _ _ _ _ Hps Hps') as [<- <-]. rewrite Hv in Hend. rewrite width_inner in Hwa by done.
  destruct (decide (m = [])) as [->|Hm]; [eapply Hstay; [done|by left|by left]|].
  assert (Str.length_utf8 m ≠ 0) by by rewrite length_utf8_zero.
  destruct (decide (w = [])) as [->|Hwne].
  2: { assert (Str.length_utf8 w ≠ 0) by by rewrite length_utf8_zero. eapply Hstay; [done|right|right; by exists b, x, u, m, w, r].
       rewrite app_assoc, length_utf8_app. lia. }
  unfold finish_fragment. rewrite Hend, app_nil_r in *. cbn [mbind option_bind]. rewrite Hwa, N.eqb_refl.
  assert (rstart st = width (cells b) + Str.length_utf8 u) as ->.
  { by rewrite Hst, cells_before, known_width_app, part_inner, known_inner, Hv. }
  destruct (N.ltb_spec (width (cells b) + Str.length_utf8 u) (width (cells b) + Str.length_utf8 (u ++ m))) as [_|Hge];
    [|rewrite length_utf8_app in Hge; lia].
  rewrite Hcur, Hstart. cbn [andb mbind option_bind].
  destruct (write_rest _ _ (rold st) b x u m r nps kept pushed Hps Hm Ht Hat Hw) as ([bd' c'] & E & nps' & pushed' & Hw' & Ho & Hn & Hc').
  destruct (cut _ _ _ _) as [f|]; [|done]. cbn [mbind option_bind] in *. destruct (push_part _ _ _) as [bd1|]; [|done]. cbn [mbind option_bind] in *.
  destruct (CursorOps.next _ _) as [c1|]; [|done]. injection E as <- <-. cbn [mbind option_bind].
  rewrite (remote_boundary_start _ _ _ Hc'). cbn [mbind option_bind]. apply returns_ret.
  pose proof (cells_current b x u m) as Eb.
  destruct (aims_over _ _ (b ++ [(x, u ++ m)]) (inner x u m) h (inner x u m) h Ha Eb) as (g2 & Eg & Ha2).
  { right. split; [|by apply inner_known]. rewrite Eb, known_width_app, width_inner by done. lia. }
  rewrite <- (app_nil_r (inner x u m)) in Eg at 1. apply app_inv_head in Eg as <-.
  exists (inner x u m), [], (b ++ [(x, u ++ m)]), r, nps', kept, pushed', h. rewrite app_nil_r.
  split_and!; [done| |by rewrite <- Hwa|by left]. split; cbn [rbuilding]; try done.
  split; cbn [rold rstart rbuilding rpatch]; [by apply remote_boundary_located|done|done|]. by rewrite Eb, <- app_assoc.
Qed.
(** *** Newer concurrent insertions *)

Lemma part_at b x w r : ps = b ++ (x, w) :: r → x ∈ ps.*1.
Proof. intros E. rewrite E, fmap_app. apply elem_of_app. right. left. Qed.

Context (Hold : Forall (λ f, seen V f = true → LamportOps.cmp (stamp f) ts = Lt) ps.*1).

Lemma seen_not_newer b x w r : ps = b ++ (x, w) :: r → seen V x = true → newer ts (stamp x) = false.
Proof.
  intros Hps Hv. unfold newer. pose proof (proj1 (Forall_forall _ _) Hold x (part_at _ _ _ _ Hps) Hv) as E. by rewrite E.
Qed.

Lemma inside_not_newer bu cs g h wr a : cells ps = cells bu ++ cs → aims a bu cs g h → inside g bu wr → g = [] ∨ take_newer ts h = ([], h).
Proof.
  intros Hcs Ha [->|(b & x & u & m & w & r & -> & -> & Hps & Hv & -> & Hm & Hw)]; [by left|right].
  destruct (aims_width _ _ _ _ _ Ha) as [_ ->]. apply (ahead_cells b x u (m ++ w) r) in Hcs; [|done].
  rewrite inner_app, <- app_assoc in Hcs. apply app_inv_head in Hcs as ->.
  rewrite take_newer_inner, (seen_not_newer b x (u ++ m ++ w) r) by done. by destruct w.
Qed.

Lemma keep_part_ok bd patch b x m r nps kept pushed : ps = b ++ (x, m) :: r →
  wrote bd patch b ((x, m) :: r) nps kept pushed →
  returns (keep_part bd x) (λ bd', wrote bd' patch (b ++ [(x, m)]) r (nps ++ [(x, m)]) (kept ++ [x]) pushed ∧ next_offset bd' = next_offset bd).
Proof.
  intros Hps [Hb Hp Hs]. destruct (ps_known s ps Hok b x m r Hps) as (Hx & Hc & Hv & Hin).
  eapply returns_mono; [by eapply (built_keep _ _ (lo_visible _ Hlow) (lo_deleted _ Hlow))|]. intros bd' [Hb' Ho].
  split; [|done]. split; [done| |done]. rewrite !shown_app. by apply extend_patch.
Qed.

Lemma skip_at st range item : CursorOps.item (rold st) = Some item → skip_step V ts range st =
  match item with
  | Some fragment =>
      if (rstart st =? start range) && newer ts (stamp fragment) then
        bd ← keep_part (rbuilding st) fragment;
        c ← CursorOps.next cx (rold st);
        Some (inl (mkRemoteState bd (rpatch st) c (rstart st)))
      else Some (inr st)
  | None => Some (inr st)
  end.
Proof. unfold skip_step. by intros ->. Qed.

Lemma skip_loop_ok (n : nat) st bu wr nps kept pushed cs range : edited st bu wr nps kept pushed cs →
  rstart st = start range → (length wr < n)%nat →
  returns (iterate (skip_step V ts range) n st) (λ st', ∃ bu' wr' nps' kept',
    moved st bu nps st' (take_newer ts cs).1 (take_newer ts cs).1 bu' wr' nps' kept' pushed (take_newer ts cs).2 ∧
    rstart st' = start range).
Proof.
  revert st bu wr nps kept cs. induction n as [|n IH]; intros st bu wr nps kept cs He Hr Hn; [lia|].
  pose proof He as [Hloc Hst Hw Hcs]. cbn [iterate]. destruct (remote_located_reads _ _ _ Hloc) as [Ht Hread].
  destruct wr as [|[x w] r].
  { destruct Hread as (-> & _ & _ & _ & _ & Hi). rewrite (skip_at _ _ _ Hi). rewrite <- (app_nil_r (cells ps)) in Hcs at 1. apply app_inv_head in Hcs as <-.
    apply returns_ret. exists ps, [], nps, kept. split; [by apply moved_here|done]. }
  destruct Hread as (b & u & -> & Hps & Hinv & Hne & Hat & _ & _ & _ & Hi & _). rewrite (skip_at _ _ _ Hi), Hr, N.eqb_refl.
  pose proof (ahead_cells b x u w r cs Hps Hcs) as ->. rewrite take_newer_inner. cbn [andb].
  destruct (newer ts (stamp x)) eqn:Hx; cbn [mbind option_bind].
  2: { destruct w; [done|]. apply returns_ret. exists (before b x u), ((x, n0 :: w) :: r), nps, kept. split; [by apply moved_here|done]. }
  assert (seen V x = false) as Hv.
  { apply not_true_iff_false. intros Hv. by rewrite (seen_not_newer b x (u ++ w) r) in Hx. }
  rewrite (Hinv Hv) in *. cbn [before app] in *.
  destruct (keep_part_ok _ _ b x w r nps kept pushed Hps Hw) as (bd' & -> & Hw' & Ho). cbn [mbind option_bind].
  destruct (remote_boundary_next (rold st) b x w r Ht Hps Hat) as (c' & -> & Hc'). cbn [mbind option_bind].
  assert (cells (b ++ [(x, w)]) = cells b ++ inner x [] w) as Eb by by rewrite cells_app, cells_one, part_inner.
  eapply returns_mono; [apply (IH _ (b ++ [(x, w)]) r (nps ++ [(x, w)]) (kept ++ [x]) (cells r))|].
  - split; cbn [rold rstart rbuilding rpatch]; [by apply remote_boundary_located| |done|by rewrite Eb, <- app_assoc].
    rewrite Eb, known_width_app, known_inner, Hv, N.add_0_r. congruence.
  - done.
  - cbn in Hn. lia.
  - intros st' (bu' & wr' & nps' & kept' & Hm & Hr'). exists bu', wr', nps', kept'. split; [|done]. cbn [fst snd].
    apply (moved_trans _ _ _ (mkRemoteState bd' (rpatch st) c' (start range)) (inner x [] w) (inner x [] w)
      (b ++ [(x, w)]) r (nps ++ [(x, w)]) (kept ++ [x]) pushed (cells r)); [|done].
    split; cbn [rbuilding]; [|done|by rewrite cells_app, cells_one, part_inner|done].
    split; cbn [rold rstart rbuilding rpatch]; [by apply remote_boundary_located| |done|by rewrite Eb, <- app_assoc].
    rewrite Eb, known_width_app, known_inner, Hv, N.add_0_r. congruence.
Qed.

Lemma remote_located_length c bu wr : located c bu wr → (length wr <= length ps)%nat.
Proof. intros [_ _|b x u w r _ -> _ _ _]; rewrite ?length_app; cbn; lia. Qed.

Lemma remote_enough st bu wr nps kept pushed cs : edited st bu wr nps kept pushed cs → (length wr < remote_fuel st)%nat.
Proof.
  intros [Hloc _ _]. unfold remote_fuel. destruct (remote_located_reads _ _ _ Hloc) as [-> _].
  pose proof (weight_items None (fragments s) (so_fragments _ _ Hok)) as Hw. rewrite (so_items _ _ Hok), length_fmap in Hw.
  apply remote_located_length in Hloc. lia.
Qed.

Lemma skip_newer_ok st bu wr nps kept pushed cs range g h : edited st bu wr nps kept pushed cs →
  aims (start range) bu cs g h → inside g bu wr →
  returns (iterate (skip_step V ts range) (remote_fuel st) st) (λ st', ∃ bu' wr' nps' kept' cs',
    moved st bu nps st' (take_newer ts h).1 (take_newer ts h).1 bu' wr' nps' kept' pushed cs' ∧
    aims (start range) bu' cs' g (take_newer ts h).2 ∧ inside g bu' wr' ∧ (g = [] ∨ take_newer ts h = ([], h))).
Proof.
  intros He Ha Hin. pose proof (remote_enough _ _ _ _ _ _ _ He) as Hn. pose proof He as [Hloc Hst _ Hcs].
  pose proof (inside_not_newer _ _ _ _ _ _ Hcs Ha Hin) as Hor. destruct (aims_width _ _ _ _ _ Ha) as [Hwa ->].
  destruct (decide (g = [])) as [->|Hg].
  - cbn [app known_width] in *. rewrite N.add_0_r in Hwa.
    eapply returns_mono; [apply (skip_loop_ok _ st bu wr nps kept pushed h range He); [congruence|done]|].
    intros st' (bu' & wr' & nps' & kept' & Hm & Hr). exists bu', wr', nps', kept', (take_newer ts h).2.
    split_and!; [done| |by left|by left]. destruct Hm as [[_ Hst' _ _] _ _ _]. split; [lia|].
    replace (_ - _) with 0 by lia. apply take_known_0.
  - destruct Hor as [|E]; [done|]. rewrite E. unfold remote_fuel in *. cbn [iterate fst snd].
    destruct Hin as [|(b & x & u & m & w & r & -> & -> & Hps & Hv & -> & Hm & Hw)]; [done|].
    destruct (remote_located_reads _ _ _ Hloc) as (_ & _ & _ & _ & _ & _ & _ & _ & _ & _ & _ & Hi & _). rewrite (skip_at _ _ _ Hi).
    assert (Str.length_utf8 m ≠ 0) by by rewrite length_utf8_zero. rewrite known_inner, Hv in Hwa.
    destruct (N.eqb_spec (rstart st) (start range)); [lia|]. apply returns_ret. eexists _, _, _, _, _.
    split_and!; [by apply moved_here|done| |by right]. right. by exists b, x, u, m, w, r.
Qed.
(** *** At the range *)

Lemma remote_keep_prefix_ok st bu wr nps kept pushed cs range g h : edited st bu wr nps kept pushed cs →
  aims (start range) bu cs g h → inside g bu wr →
  returns (keep_prefix st range) (λ st', ∃ bu' wr' nps' pushed', moved st bu nps st' g g bu' wr' nps' kept pushed' h ∧
    rstart st' = start range).
Proof.
  intros He Ha Hin. pose proof He as [Hloc Hst Hw Hcs]. destruct (aims_width _ _ _ _ _ Ha) as [Hwa ->]. unfold keep_prefix.
  destruct Hin as [->|(b & x & u & m & w & r & -> & -> & Hps & Hv & -> & Hm & Hne)].
  { cbn [known_width app] in *. rewrite Hst, N.add_0_r in *. rewrite <- Hwa, N.ltb_irrefl. apply returns_ret.
    exists bu, wr, nps, pushed. split; [by apply moved_here|congruence]. }
  destruct (remote_located_reads _ _ _ Hloc) as (Ht & b' & u' & _ & Hps' & Hinv & _ & Hat & Hstart & Hend & _ & _ & Hcur).
  destruct (place_unique _ _ _ _ _ _ _ Hps Hps') as [<- <-]. rewrite width_inner in Hwa by done.
  assert (Str.length_utf8 m ≠ 0) by by rewrite length_utf8_zero.
  assert (rstart st = width (cells b) + Str.length_utf8 u) as Hst'.
  { by rewrite Hst, cells_before, known_width_app, part_inner, known_inner, Hv. }
  rewrite Hwa, Hst'. rewrite length_utf8_app at 1. destruct (N.ltb_spec (width (cells b) + Str.length_utf8 u) (width (cells b) + (Str.length_utf8 u + Str.length_utf8 m))); [|lia].
  rewrite Hcur, Hstart. cbn [mbind option_bind]. eapply returns_bind; [by apply (cut_piece ts x u m w), (ps_known s ps Hok b x _ r)|].
  intros f [Hf Hid]. cbn beta iota zeta. set (f' := with_id f _). apply (piece_with_id _ _ _ _ _ _ (fid f')) in Hf. change (with_id f (fid f')) with f' in Hf.
  eapply returns_bind.
  { eapply (write_piece b x u m w r); [done|exact Hw|done|exact Hf|]. left. split; [done|]. unfold f'. cbn. by rewrite Hid. }
  intros bd (Hw' & Ho & Hn). apply returns_ret. exists (before b x (u ++ m)), ((x, w) :: r), (nps ++ [(f', m)]), (pushed ++ [f']).
  split; [|done]. split; cbn [rbuilding]; [|by rewrite cells_before_app|done|done].
  split; cbn [rold rstart rbuilding rpatch]; [|by rewrite cells_before_app, known_width_app, width_inner|done|by rewrite cells_before_app, <- app_assoc].
  apply located_on; rewrite <- ?app_assoc; try done. by rewrite Hv.
Qed.

(** The place in the visible text. *)
Lemma visible_place_ok st b x u w r cs nps kept pushed : edited st (before b x u) ((x, w) :: r) nps kept pushed cs →
  ps = b ++ (x, u ++ w) :: r → visible x = true → visible_place st = Some (Str.length_utf8 (shown (before b x u))).
Proof.
  intros [Hloc Hst _ _] Hps Hv. destruct (remote_located_reads _ _ _ Hloc) as (Ht & b' & u' & _ & Hps' & Hinv & _ & _ & Hstart & _ & Hvis & _).
  destruct (place_unique _ _ _ _ _ _ _ Hps Hps') as [<- <-]. unfold visible_place. rewrite Hstart. cbn [mbind option_bind].
  rewrite Hst, cells_before, known_width_app, part_inner, known_inner, usize_sub_le by lia. cbn [mbind option_bind].
  rewrite Hvis, shown_before, Hv, length_utf8_app, N_add_sub_l. destruct (seen V x) eqn:Hs; [done|]. by rewrite Hinv.
Qed.

Context (MAX_INSERTION_LEN : N) (Hmax : 4 <= MAX_INSERTION_LEN < u32_modulus).

Lemma remote_insert_text_ok st bu wr nps kept pushed cs (t : str) : edited st bu wr nps kept pushed cs → scalars t → clean t →
  next_offset (rbuilding st) + Str.length_utf8 t < u32_modulus →
  returns (insert_text MAX_INSERTION_LEN ts st t) (λ st', ∃ nps' pushed', edited st' bu wr nps' kept pushed' cs ∧
    cells nps' = cells nps ++ text_cells ts ∅ (next_offset (rbuilding st)) t ∧
    next_offset (rbuilding st') = next_offset (rbuilding st) + Str.length_utf8 t ∧ rstart st' = rstart st).
Proof.
  intros He Hs Hc Hfits. pose proof He as [Hloc Hst [Hb Hp Hsep] Hcs]. unfold insert_text.
  destruct (N.eqb_spec (Str.length_utf8 t) 0) as [Hz|Hz].
  { apply returns_ret. apply length_utf8_zero in Hz as ->. exists nps, pushed. rewrite N.add_0_r, app_nil_r. by split_and!. }
  erewrite shaped_text by apply Hb. change (side true (strips nps)) with (shown nps).
  assert (∃ i, CursorOps.item (rold st) = Some i ∧ before_ahead wr = (match i with Some f => fid f | None => LocatorOps.max end) ∧
    (match i with Some f => if visible f then visible_place st else Some (CursorOps.start (rold st)).2 | None => Some (CursorOps.start (rold st)).2 end) =
      Some (Str.length_utf8 (shown bu))) as (i & -> & Hi & Hplace).
  { destruct (remote_located_reads _ _ _ Hloc) as [Ht Hread]. destruct wr as [|[x w] r].
    - destruct Hread as (-> & _ & _ & _ & Hvis & ->). exists None. by rewrite Hvis.
    - destruct Hread as (b & u & -> & Hps & Hinv & _ & _ & _ & _ & Hvis & -> & _). exists (Some x). split_and!; [done..|].
      destruct (visible x) eqn:Hv; [by eapply visible_place_ok|]. by rewrite Hvis, shown_before, Hv, app_nil_r. }
  cbn [mbind option_bind]. rewrite Hplace. cbn [mbind option_bind]. rewrite <- Hi. eapply returns_bind.
  { by eapply (built_insert _ _ (lo_visible _ Hlow) (lo_deleted _ Hlow)). }
  intros bd (qs & Hbd & Ho & Hqc & Hq). apply returns_ret. exists (nps ++ qs), (pushed ++ qs.*1).
  assert (shown (nps ++ qs) = shown nps ++ t) as En by (rewrite shown_app; f_equal; unfold shown; by rewrite Hq, side_one).
  split_and!; [|by rewrite cells_app, Hqc|done|done].
  destruct (push_edit (rpatch st) (shown bu) (shown nps) [] t _ Hp Hsep eq_refl) as [Hp' Hsep'].
  rewrite app_nil_r in Hp', Hsep'. rewrite length_utf8_app in Hp', Hsep'.
  split; cbn [rold rstart rbuilding rpatch]; [done|done| |done]. by split; [|rewrite En|].
Qed.

(** *** Deleting *)

Context (Hwas : ∀ t, UndoMapOps.was_undone (undo_map s) t V = Some (was t)).

(** What the range takes of the current fragment: the piece [m], [d] are the
    cells of the range behind it. *)
Lemma take_current b x u w r (n : N) d h : n ≠ 0 → w ≠ [] → (seen V x = false → u = []) →
  take_known V n (inner x u w ++ cells r) = Some (d, h) →
  ∃ m w' d', w = m ++ w' ∧ d = inner x u m ++ d' ∧ m ≠ [] ∧
    take_known V (n - width (inner x u m)) (inner x (u ++ m) w' ++ cells r) = Some (d', h) ∧
    width (inner x u m) <= n ∧ (w' = [] ∨ seen V x = true ∧ width (inner x u m) = n ∧ d' = []) ∧
    (seen V x = false → w' = []).
Proof.
  intros Hn Hw Hu Ht. assert (Str.length_utf8 w ≠ 0) by by rewrite length_utf8_zero.
  destruct (decide (seen V x = true ∧ n <= Str.length_utf8 w)) as [[Hv Hle]|Hor].
  - destruct (take_known_in V n _ _ _ _ Ht) as (a & Ea & ->); [by rewrite known_inner, Hv|].
    destruct (take_known_some V n _ _ _ Ht) as [_ Hwd].
    destruct (text_cells_split _ _ _ _ _ _ Ea) as (m & w' & -> & -> & ->). change (text_cells _ _ _ m) with (inner x u m) in *.
    exists m, w', []. rewrite app_nil_r, <- Hwd, N.sub_diag. split_and!; try done; [|rewrite take_known_0|by right|by rewrite Hv].
    + intros ->. rewrite known_inner, Hv in Hwd. by destruct Hn.
    + do 3 f_equal. unfold inner. by rewrite length_utf8_app, N.add_assoc.
  - destruct (take_known_over V n _ _ _ _ Ht) as (d' & -> & Hd').
    { left. rewrite known_inner. destruct (seen V x); [|lia]. destruct (N.leb_spec n (Str.length_utf8 w)); [by destruct Hor|lia]. }
    exists w, [], d'. rewrite app_nil_r. split_and!; try done; [|by left].
    rewrite known_inner. destruct (seen V x); [|lia]. destruct (N.leb_spec n (Str.length_utf8 w)); [by destruct Hor|lia].
Qed.
(** What is written of the current fragment, and whether it is marked. *)
Record crossing bd x u m w f (mark : bool) : Prop := {
  cr_piece : piece_of ts x u m mark f;
  cr_mark : mark = shown_then V was x;
  cr_id : seen V x = true ∧ fid f = LocatorOps.between (BuildingOps.max_id bd) (fid x) ∨ seen V x = false ∧ u = [] ∧ w = [] ∧ fid f = fid x }.

Lemma remote_intersect_ok st b x u m w r nps kept pushed cs (e : N) : edited st (before b x u) ((x, m ++ w) :: r) nps kept pushed cs →
  ps = b ++ (x, u ++ m ++ w) :: r → (seen V x = false → u = [] ∧ w = []) →
  (seen V x = true → e = width (cells b) + Str.length_utf8 (u ++ m)) →
  returns (intersect V (undo_map s) ts st x e) (λ '(f, mark), crossing (rbuilding st) x u m w f mark).
Proof.
  intros [Hloc Hst _ _] Hps Hinv He. pose proof (ps_known s ps Hok b x _ r Hps) as (Hx & _).
  destruct (remote_located_reads _ _ _ Hloc) as (Ht & b' & u' & _ & Hps' & _ & _ & _ & Hstart & _).
  destruct (place_unique _ _ _ _ _ _ _ Hps Hps') as [<- <-]. unfold intersect. change (GlobalOps.observed V (stamp x)) with (seen V x).
  destruct (seen V x) eqn:Hv.
  - rewrite Hstart, He, Hst, cells_before, known_width_app, part_inner, known_inner, Hv by done. cbn [mbind option_bind].
    eapply returns_bind; [by apply (cut_piece ts x u m w)|]. intros f [Hf Hid].
    rewrite (was_visible_ok _ was V x) by done. cbn [mbind option_bind].
    assert (piece_of ts x u m false (with_id f (LocatorOps.between (BuildingOps.max_id (rbuilding st)) (fid f)))) as Hf' by by apply piece_with_id.
    change (showed (GlobalOps.observed V) was x) with (shown_then V was x). destruct (shown_then V was x) eqn:E; apply returns_ret.
    + split; [by apply piece_deleted|done|left; cbn; by rewrite Hid].
    + split; [done|done|left; cbn; by rewrite Hid].
  - destruct (Hinv eq_refl) as [-> ->]. apply returns_ret. cbn [app] in *. rewrite app_nil_r in *.
    split; [|unfold shown_then, showed; by rewrite (Hv : GlobalOps.observed V (stamp x) = false)|by right].
    destruct Hx as [Hl _ _ _ _ _]. cbn [fst snd] in Hl. split; rewrite ?app_nil_r, ?andb_true_r; try done. cbn. by rewrite N.add_0_r.
Qed.

Lemma remote_push_intersection_ok st b x u m w r nps kept pushed cs f (mark : bool) (e : N) :
  edited st (before b x u) ((x, m ++ w) :: r) nps kept pushed cs → ps = b ++ (x, u ++ m ++ w) :: r → m ≠ [] →
  crossing (rbuilding st) x u m w f mark →
  returns (push_intersection ts st x f mark e) (λ st', rold st' = rold st ∧ rstart st' = e ∧
    next_offset (rbuilding st') = next_offset (rbuilding st) ∧ ∃ nps' pushed',
    wrote (rbuilding st') (rpatch st') (before b x (u ++ m)) (LocalEditSpec.ahead x w r) nps' kept pushed' ∧
    cells nps' = cells nps ++ (delete_cell V was ts <$> inner x u m)).
Proof.
  intros He Hps Hm [Hf -> Hid]. pose proof He as [Hloc Hst Hw Hcs]. unfold push_intersection. cbv zeta. rewrite (pc_len _ _ _ _ _ _ Hf).
  assert (Str.length_utf8 m ≠ 0) by by rewrite length_utf8_zero. destruct (N.ltb_spec 0 (Str.length_utf8 m)); [|lia].
  pose proof (shaped_text _ _ _ _ _ _ _ _ _ _ (bt_shape _ _ _ _ _ _ _ _ _ _ _ _ (wr_built _ _ _ _ _ _ _ Hw))) as Htext.
  assert (new_fragments (if shown_then V was x then push_slice (rbuilding st) ts f else rbuilding st) = new_fragments (rbuilding st)) as Ef
    by by destruct (shown_then V was x).
  change (side true (strips nps)) with (shown nps) in Htext. rewrite Htext.
  eapply (returns_bind _ _ (λ patch, patch = cross_patch (rpatch st) x f (Str.length_utf8 (shown (before b x u))) (Str.length_utf8 (shown nps)))).
  { unfold cross_patch. destruct (visible x) eqn:Hv; [|by apply returns_ret]. rewrite (visible_place_ok st b x u (m ++ w) r cs nps kept pushed He Hps Hv).
    cbn [andb mbind option_bind]. destruct (negb (visible f)); apply returns_ret; [|done]. by rewrite (pc_len _ _ _ _ _ _ Hf). }
  intros patch ->. eapply returns_bind.
  { apply (write_crossed b x u m w r nps kept pushed (rbuilding st) (rpatch st) f _ (if seen V x then (x, w) :: r else r)); try done.
    destruct Hid as [[-> Hid]|(-> & _ & -> & Hid)]; [by left|by right]. }
  intros bd ([Hb Hp Hs] & Ho & Hn). apply returns_ret. split_and!; try done. exists (nps ++ [(f, m)]), (pushed ++ [f]).
  split; [|by rewrite delete_inner]. split; cbn [rbuilding rpatch]; [|done|done].
  destruct Hid as [[E _]|(E & _ & -> & _)]; rewrite E in Hb; [by apply built_ahead|done].
Qed.

Lemma remote_delete_step_ok st bu wr nps kept pushed cs range (n : N) d h : edited st bu wr nps kept pushed cs → n ≠ 0 →
  take_known V n cs = Some (d, h) → stop range = width (cells bu) + n →
  returns (delete_step V (undo_map s) ts range st) (λ res, ∃ st' g d' n' bu' wr' nps' pushed' cs', res = inl st' ∧ d = g ++ d' ∧
    moved st bu nps st' g (delete_cell V was ts <$> g) bu' wr' nps' kept pushed' cs' ∧
    take_known V n' cs' = Some (d', h) ∧ stop range = width (cells bu') + n' ∧ ((length wr' < length wr)%nat ∨ n' = 0)).
Proof.
  intros He Hn Ht Hs. pose proof He as [Hloc Hst Hw Hcs]. unfold delete_step. rewrite Hst.
  destruct (N.ltb_spec (width (cells bu)) (stop range)) as [_|]; [|lia].
  destruct (remote_located_reads _ _ _ Hloc) as [Htree Hread]. destruct wr as [|[x wx] r].
  { destruct Hread as (-> & _). rewrite <- (app_nil_r (cells ps)) in Hcs at 1. apply app_inv_head in Hcs as <-. by destruct n. }
  destruct Hread as (b & u & -> & Hps & Hinv & Hne & Hat & Hstart & Hend & _ & _ & Hcur).
  pose proof (ahead_cells b x u wx r cs Hps Hcs) as ->.
  destruct (take_current b x u wx r n d h Hn Hne Hinv Ht) as (m & w & d' & -> & -> & Hm & Ht' & Hle & Hor & Hun).
  rewrite Hcur, Hend. cbn [mbind option_bind].
  assert (cells (before b x (u ++ m)) = cells (before b x u) ++ inner x u m) as Eb by apply cells_before_app.
  assert (seen V x = false → u = [] ∧ w = []) as Hinv' by auto.
  set (e := N.min (stop range) _). assert (e = width (cells (before b x (u ++ m)))) as Ee.
  { unfold e. rewrite Eb, known_width_app. rewrite cells_before, known_width_app, part_inner, !known_inner in *.
    rewrite !length_utf8_app in *. destruct (seen V x) eqn:Hv; [|lia].
    destruct Hor as [->|(_ & E & _)]; cbn [Str.length_utf8]; lia. }
  eapply returns_bind.
  { apply (remote_intersect_ok st b x u m w r nps kept pushed (inner x u (m ++ w) ++ cells r) e He Hps Hinv'). intros Hv. by rewrite Ee, Eb, known_width_app, width_inner. }
  intros [f mark] Hcr. eapply returns_bind; [by eapply remote_push_intersection_ok|].
  intros st' (Ec & Hst' & Ho & nps' & pushed' & Hw' & Hn'). rewrite Ec.
  eapply (returns_bind _ _ (λ c', located c' (before b x (u ++ m)) (LocalEditSpec.ahead x w r))).
  { assert (w = [] ↔ width (cells b) + (if seen V x then Str.length_utf8 (u ++ m ++ w) else 0) <= stop range) as Hw0.
    { rewrite Hs, cells_before, known_width_app, part_inner, known_inner. rewrite known_inner in *. rewrite !length_utf8_app.
      destruct (seen V x) eqn:Hv; [|destruct Hinv' as [-> ->]; [done|split; [lia|done]]].
      split; [intros ->; cbn [Str.length_utf8]; lia|]. intros Hle'. destruct Hor as [|(_ & E & _)]; [done|]. apply length_utf8_zero. lia. }
    destruct w as [|ch w]; cbn [LocalEditSpec.ahead].
    - destruct (N.leb_spec (width (cells b) + (if seen V x then Str.length_utf8 (u ++ m ++ []) else 0)) (stop range)) as [_|]; [|by destruct Hw0 as [Hw0 _]; specialize (Hw0 eq_refl); lia].
      rewrite app_nil_r in *. rewrite before_full by (destruct u; [done|by destruct m]).
      eapply returns_mono; [by apply (remote_boundary_next _ b x (u ++ m) r)|]. intros c'. apply remote_boundary_located.
    - destruct (N.leb_spec (width (cells b) + (if seen V x then Str.length_utf8 (u ++ m ++ ch :: w) else 0)) (stop range)) as [Hle'|_]; [by destruct Hw0 as [_ Hw0]; specialize (Hw0 Hle')|].
      apply returns_ret. apply located_on; rewrite <- ?app_assoc; try done. intros Hv. by destruct (Hinv' Hv). }
  intros c' Hc'. apply returns_ret.
  eexists _, (inner x u m), d', (n - width (inner x u m)), _, _, nps', pushed', _.
  split_and!; [done|done| |exact Ht'|rewrite Eb, known_width_app; lia|].
  - split; cbn [rbuilding]; [|done|done|done]. split; cbn [rold rstart rbuilding rpatch]; [done|by rewrite Hst', Ee|done|].
    by rewrite Hcs, Eb, inner_app, <- !app_assoc.
  - destruct Hor as [->|(_ & E & _)]; [left; cbn; lia|right; lia].
Qed.
Lemma remote_delete_done st bu wr nps kept pushed cs range (fuel : nat) : edited st bu wr nps kept pushed cs →
  stop range = width (cells bu) → iterate (delete_step V (undo_map s) ts range) (Datatypes.S fuel) st = Some st.
Proof. intros [_ Hst _ _] Hs. cbn [iterate]. unfold delete_step. by rewrite Hst, Hs, N.ltb_irrefl. Qed.

Lemma remote_delete_loop_ok (fuel : nat) st bu wr nps kept pushed cs range (n : N) d h : edited st bu wr nps kept pushed cs →
  take_known V n cs = Some (d, h) → stop range = width (cells bu) + n → (length wr < fuel)%nat →
  returns (iterate (delete_step V (undo_map s) ts range) fuel st) (λ st', ∃ bu' wr' nps' pushed',
    moved st bu nps st' d (delete_cell V was ts <$> d) bu' wr' nps' kept pushed' h).
Proof.
  revert st bu wr nps pushed cs n d. induction fuel as [|fuel IH]; intros st bu wr nps pushed cs n d He Ht Hs Hf; [lia|].
  destruct (decide (n = 0)) as [->|Hne].
  { rewrite N.add_0_r in Hs. rewrite take_known_0 in Ht. injection Ht as <- <-. exists st. split; [by eapply remote_delete_done|].
    exists bu, wr, nps, pushed. by apply moved_here. }
  cbn [iterate]. eapply returns_bind; [by eapply remote_delete_step_ok|].
  intros res (st1 & g & d' & n' & bu1 & wr1 & nps1 & pushed1 & cs1 & -> & -> & Hm & Ht1 & Hs1 & Hlt).
  destruct (decide (n' = 0)) as [->|Hn'].
  - rewrite N.add_0_r in Hs1. rewrite take_known_0 in Ht1. injection Ht1 as <- <-.
    destruct wr as [|p wr].
    { exfalso. pose proof He as [Hloc _ _ Hcs]. destruct (remote_located_reads _ _ _ Hloc) as (_ & -> & _).
      rewrite <- (app_nil_r (cells ps)) in Hcs at 1. apply app_inv_head in Hcs as <-. by destruct n. }
    destruct fuel as [|fuel]; [cbn in Hf; lia|]. exists st1. split; [eapply remote_delete_done; [apply Hm|done]|].
    exists bu1, wr1, nps1, pushed1. by rewrite app_nil_r.
  - destruct Hlt as [Hlt|]; [|done]. eapply returns_mono; [eapply (IH st1 bu1 wr1 nps1 pushed1 cs1 n' d'); [apply Hm|done|done|lia]|].
    intros st2 (bu2 & wr2 & nps2 & pushed2 & Hm2). exists bu2, wr2, nps2, pushed2. rewrite fmap_app. by eapply moved_trans.
Qed.

(** *** One edit, and all *)

(** The edit at a place of the old cells; [z] are the new cells. *)
Lemma remote_apply_one_ok st bu wr nps kept pushed cs range (t : str) g cs1 d cs2 : edited st bu wr nps kept pushed cs →
  width (cells bu) <= start range → start range <= stop range →
  take_known V (start range - width (cells bu)) cs = Some (g, cs1) →
  take_known V (stop range - start range) (take_newer ts cs1).2 = Some (d, cs2) →
  scalars t → clean t → next_offset (rbuilding st) + Str.length_utf8 t < u32_modulus →
  returns (apply_one MAX_INSERTION_LEN V (undo_map s) ts st (range, t)) (λ st', ∃ bu' wr' nps' kept' pushed',
    edited st' bu' wr' nps' kept' pushed' cs2 ∧ width (cells bu') = stop range ∧
    cells nps' = cells nps ++ g ++ (take_newer ts cs1).1 ++ text_cells ts ∅ (next_offset (rbuilding st)) t ++ (delete_cell V was ts <$> d) ∧
    next_offset (rbuilding st') = next_offset (rbuilding st) + Str.length_utf8 t).
Proof.
  intros He Hle Hrange Hg Hd Hs Hc Hfits. unfold apply_one.
  eapply returns_bind; [by apply (remote_skip_before_ok st bu wr nps kept pushed cs range g cs1)|].
  intros st1 (g1 & g2 & bu1 & wr1 & nps1 & kept1 & pushed1 & c1 & -> & [He1 _ Hn1 Ho1] & Ha1 & Hnear).
  eapply returns_bind; [by apply (finish_fragment_ok st1 bu1 wr1 nps1 kept1 pushed1 c1 range g2 cs1)|].
  intros st2 (g3 & g4 & bu2 & wr2 & nps2 & kept2 & pushed2 & c2 & -> & [He2 _ Hn2 Ho2] & Ha2 & Hin).
  eapply returns_bind; [by apply (skip_newer_ok st2 bu2 wr2 nps2 kept2 pushed2 c2 range g4 cs1)|].
  intros st3 (bu3 & wr3 & nps3 & kept3 & c3 & [He3 _ Hn3 Ho3] & Ha3 & Hin3 & Hor).
  destruct (N.leb_spec (rstart st3) (start range)) as [_|Hgt]; [|pose proof (ed_start _ _ _ _ _ _ _ He3); destruct Ha3; lia].
  eapply returns_bind; [by apply (remote_keep_prefix_ok st3 bu3 wr3 nps3 kept3 pushed2 c3 range g4 (take_newer ts cs1).2)|].
  intros st4 (bu4 & wr4 & nps4 & pushed4 & [He4 _ Hn4 Ho4] & Hr4).
  assert (next_offset (rbuilding st4) = next_offset (rbuilding st)) as Ho by by rewrite Ho4, Ho3, Ho2, Ho1.
  eapply returns_bind; [apply (remote_insert_text_ok st4 bu4 wr4 nps4 kept3 pushed4 _ t He4 Hs Hc); by rewrite Ho|].
  intros st5 (nps5 & pushed5 & He5 & Hn5 & Ho5 & Hr5). pose proof (ed_start _ _ _ _ _ _ _ He5) as Hst5. rewrite Hr5, Hr4 in Hst5.
  assert (remote_fuel st5 = remote_fuel st4) as Hfuel.
  { unfold remote_fuel. pose proof (remote_located_reads _ _ _ (ed_located _ _ _ _ _ _ _ He5)) as [-> _].
    pose proof (remote_located_reads _ _ _ (ed_located _ _ _ _ _ _ _ He4)) as [-> _]. done. }
  eapply returns_mono.
  { apply (remote_delete_loop_ok (remote_fuel st5) st5 bu4 wr4 nps5 kept3 pushed5 _ range (stop range - start range) d cs2 He5 Hd); [lia|].
    by eapply remote_enough. }
  intros st6 (bu6 & wr6 & nps6 & pushed6 & [He6 Hb6 Hn6 Ho6]). exists bu6, wr6, nps6, kept3, pushed6. split_and!; [done| | |by rewrite Ho6, Ho5, Ho].
  - apply take_known_some in Hd as [_ Hwd]. rewrite Hb6, known_width_app, Hwd, <- Hst5. lia.
  - rewrite Hn6, Hn5, Hn4, Hn3, Hn2, Hn1, Ho, <- !app_assoc. do 3 f_equal.
    destruct Hor as [->|E]; [done|by rewrite E].
Qed.

Lemma remote_apply_all_ok edits st bu wr nps kept pushed cs z : edited st bu wr nps kept pushed cs →
  integrate_from V was ts (width (cells bu)) (next_offset (rbuilding st)) edits cs = Some z →
  Forall (λ e, scalars e.2 ∧ clean e.2) edits →
  next_offset (rbuilding st) + Str.length_utf8 (mjoin (snd <$> edits)) < u32_modulus →
  returns (apply_all MAX_INSERTION_LEN V (undo_map s) ts st edits) (λ st', ∃ bu' wr' nps' kept' pushed' cs',
    edited st' bu' wr' nps' kept' pushed' cs' ∧ cells nps' ++ cs' = cells nps ++ z).
Proof.
  revert st bu wr nps kept pushed cs z. induction edits as [|[range t] edits IH]; intros st bu wr nps kept pushed cs z He Hz Hall Hfits.
  { injection Hz as <-. apply returns_ret. by exists bu, wr, nps, kept, pushed, cs. }
  apply Forall_cons in Hall as [[Hs Hc] Hall]. change (mjoin (snd <$> (range, t) :: edits)) with (t ++ mjoin (snd <$> edits)) in Hfits.
  rewrite length_utf8_app in Hfits. cbn [snd] in Hs, Hc. cbn [integrate_from] in Hz. unfold usize_sub in Hz.
  destruct (N.leb_spec (width (cells bu)) (start range)) as [H1|]; [|done]. cbn [mbind option_bind] in Hz.
  destruct (take_known V _ cs) as [[g cs1]|] eqn:Hg; [|done]. cbn [mbind option_bind] in Hz.
  destruct (take_newer ts cs1) as [h cs1'] eqn:Hh.
  destruct (N.leb_spec (start range) (stop range)) as [H2|]; [|done]. cbn [mbind option_bind] in Hz.
  destruct (take_known V _ cs1') as [[d cs2]|] eqn:Hd; [|done]. cbn [mbind option_bind] in Hz.
  destruct (integrate_from _ _ _ _ _ edits cs2) as [rest|] eqn:Hrest; [|done]. injection Hz as <-.
  cbn [apply_all]. eapply returns_bind.
  { eapply (remote_apply_one_ok st bu wr nps kept pushed cs range t g cs1 d cs2); try done; [by rewrite Hh|lia]. }
  intros st1 (bu1 & wr1 & nps1 & kept1 & pushed1 & He1 & Hw1 & Hn1 & Ho1). rewrite <- Hw1, <- Ho1 in Hrest.
  eapply returns_mono; [eapply (IH st1); [done|done|done|lia]|].
  intros st2 (bu2 & wr2 & nps2 & kept2 & pushed2 & cs' & He2 & Hn2). exists bu2, wr2, nps2, kept2, pushed2, cs'. split; [done|].
  rewrite Hn2, Hn1, Hh, <- !app_assoc. done.
Qed.
(** *** The start and the end *)

Lemma integrate_after (o j : N) range (t : str) edits a cs z : integrate_from V was ts o j ((range, t) :: edits) (a ++ cs) = Some z →
  a = [] ∨ o + width a < start range →
  ∃ z', z = a ++ z' ∧ integrate_from V was ts (o + width a) j ((range, t) :: edits) cs = Some z'.
Proof.
  intros Hz [->|Hlt]; [exists z; cbn [known_width]; by rewrite N.add_0_r|]. cbn [integrate_from] in *.
  rewrite (usize_sub_le (start range) o) in Hz by lia. rewrite (usize_sub_le (start range) (o + _)) by lia. cbn [mbind option_bind] in *.
  destruct (take_known V _ (a ++ cs)) as [[g cs1]|] eqn:E; [|done]. apply take_known_over in E as (g' & -> & E); [|left; lia].
  rewrite N.sub_add_distr, E. cbn [mbind option_bind] in *. destruct (take_newer ts cs1) as [h cs1'].
  destruct (usize_sub _ _); [|done]. cbn [mbind option_bind] in *. destruct (take_known V _ cs1') as [[d cs2]|]; [|done]. cbn [mbind option_bind] in *.
  destruct (integrate_from _ _ _ _ _ edits cs2); [|done]. injection Hz as <-. eexists. split; [|done]. by rewrite <- app_assoc.
Qed.

Lemma remote_begin_edit_ok (v : N) : returns (begin_edit V s v) (λ st, ∃ b k,
  edited st b k b b.*1 [] (cells k) ∧ ps = b ++ k ∧ next_offset (rbuilding st) = 0 ∧ (b = [] ∨ width (cells b) < v)).
Proof.
  unfold begin_edit. destruct (so_visible _ _ Hok) as [Hrv Htv], (so_deleted _ _ Hok) as [Hrd Htd].
  destruct (rope_builder_new _ _ (lo_visible _ Hlow) (lo_deleted _ Hlow) (strips ps) Hrv Hrd Htv Htd) as (ropes & E & Hropes).
  destruct (RopeOps.cursor (visible_text s) 0) as [cv|]; [|done]. cbn [mbind option_bind] in *.
  destruct (RopeOps.cursor (deleted_text s) 0) as [cd|]; [|done]. cbn [mbind option_bind] in *. injection E as ->.
  eapply returns_bind.
  { apply (full_slice (CursorOps.new cx (fragments s)) Fresh [] ps v); try done; [|apply Hok|apply N.le_0_l].
    apply (new_ready cx); [apply (tree_ok_context None)|]; apply Hok || apply Hlow. }
  intros [t c] (b & k & Hps & Htok & Hti & Hc & Hb & _). destruct (ps_segment s ps Hok [] b k Hps) as (_ & H2 & H3 & H4).
  cbn [app] in *. eapply returns_bind.
  { apply (built_begin _ _ (lo_visible _ Hlow) (lo_deleted _ Hlow) ts (undone_in (undo_map s)) (members (insertion_slices s)) ps.*1 b k t);
      rewrite <- ?Hps; try done; apply Hok. }
  intros ropes' Hbt. rewrite (remote_boundary_start _ _ _ Hc). apply returns_ret. exists b, k. split_and!; [|done|done|done].
  split; cbn [rold rstart rbuilding rpatch]; [by apply remote_boundary_located|done| |by rewrite Hps, cells_app].
  split; [done| |by intros [|]]. rewrite <- (app_nil_l (Str.as_bytes (shown b))). apply patched_extend. constructor.
Qed.

Context (sort_insertions : list (KeyedTree.Edit InsertionFragment InsertionFragmentKey) → list (KeyedTree.Edit InsertionFragment InsertionFragmentKey)).
Context (sort_slices : list (KeyedTree.Edit (MapEntry InsertionSlice ()) (MapKey InsertionSlice)) →
  list (KeyedTree.Edit (MapEntry InsertionSlice ()) (MapKey InsertionSlice))).
Context (Hsi : Sorting (edit_le insertion_key_cmp) sort_insertions) (Hss : Sorting (edit_le (map_key_cmp insertion_slice_cmp)) sort_slices).
Context (Hfresh : ts ∉ stamp <$> ps.*1) (Hmin : ts ≠ LamportOps.MIN).

Lemma remote_finish_edit_ok st bu wr nps kept pushed cs : edited st bu wr nps kept pushed cs →
  returns (finish_edit V sort_insertions sort_slices s st) (λ s', ∃ nps', snapshot_ok s' nps' ∧ follows ts ps nps' ∧ same_buffer s s' ∧
    cells nps' = cells nps ++ cs ∧ patched 0 0 (rpatch st) (Str.as_bytes (shown ps)) (Str.as_bytes (shown nps')) ∧
    separated (rpatch st)).
Proof.
  intros He. pose proof He as [Hloc _ _ Hcs]. unfold finish_edit.
  eapply returns_bind; [by eapply remote_consume_rest_ok|].
  intros st1 (g & b & k & nps1 & pushed1 & cs1 & [[Hb1 Hp1 Hs1] (Ht & Hps & Hat) _ Ep Hr1 Hn1 -> _ _]).
  eapply returns_bind.
  { apply (suffix_items cx (rold st1) (spot_of b.*1 k.*1)). split_and!; [done|by destruct k|]. rewrite Ht. apply Hlow. }
  intros [t c] (Htok & Hti). assert (spot_rest (rold st1) (spot_of b.*1 k.*1) = k.*1) as Er by by destruct k.
  rewrite Er in Hti. destruct (ps_segment s ps Hok b k []) as (H1 & H2 & H3 & H4); [by rewrite app_nil_r|].
  rewrite <- (app_nil_r k) in Hb1. eapply returns_bind.
  { by eapply (built_append _ _ (lo_visible _ Hlow) (lo_deleted _ Hlow)). }
  intros bd [Hbd _]. rewrite <- Hps in Hbd.
  eapply returns_mono; [by eapply (built_finish sort_insertions sort_slices Hsi Hss s ps bd)|]. intros s' (Hs' & Hfol & Hsame). exists (nps1 ++ k).
  assert (cs1 = cells k) as ->.
  { rewrite app_assoc, <- Hr1, Hps, cells_app in Hcs. by apply app_inv_head in Hcs. }
  split_and!; try done; [by rewrite cells_app, Hn1, app_assoc| |by rewrite <- Ep].
  rewrite <- Ep, Hps, !shown_app. by apply extend_patch.
Qed.

(** The operation does on the cells what [integrate] does. *)
Lemma apply_remote_edit_ok ranges (texts : list str) z : length ranges = length texts →
  integrate V was ts (zip ranges texts) (cells ps) = Some z → Forall (λ t, scalars t ∧ clean t) texts →
  Str.length_utf8 (mjoin texts) < u32_modulus →
  returns (apply_remote_edit MAX_INSERTION_LEN sort_insertions sort_slices s V ranges texts ts) (λ '(s', patch),
    ∃ nps, snapshot_ok s' nps ∧ follows ts ps nps ∧ same_buffer s s' ∧ cells nps = z ∧
      patched 0 0 (default [] patch) (Str.as_bytes (shown ps)) (Str.as_bytes (shown nps)) ∧ separated (default [] patch)).
Proof.
  intros Hlen Hz Hall Hfits. unfold apply_remote_edit. destruct ranges as [|range ranges]; destruct texts as [|text texts]; try done.
  { injection Hz as <-. apply returns_ret. exists ps.
    split_and!; [done|split; [done|by apply older_all|by right]|done|done| |by intros [|]].
    rewrite <- (app_nil_l (Str.as_bytes _)). apply patched_extend. constructor. }
  cbn [zip zip_with] in *. eapply returns_bind; [apply (remote_begin_edit_ok (start range))|]. intros st (b & k & He & Hps & Ho & Hb).
  unfold integrate in Hz. rewrite Hps, cells_app in Hz.
  destruct (integrate_after 0 0 range text (zip ranges texts) (cells b) (cells k) z Hz) as (z' & -> & Hz').
  { destruct Hb as [->|Hb]; [by left|right]. by rewrite N.add_0_l. }
  rewrite N.add_0_l in Hz'. assert (snd <$> (range, text) :: zip ranges texts = text :: texts) as Etexts.
  { cbn [fmap list_fmap snd]. f_equal. apply snd_zip. injection Hlen. lia. }
  eapply returns_bind.
  { apply (remote_apply_all_ok ((range, text) :: zip ranges texts) st b k b b.*1 [] (cells k) z' He); [by rewrite Ho| |by rewrite Ho, Etexts].
    assert (Forall (λ t, scalars t ∧ clean t) (snd <$> (range, text) :: zip ranges texts)) as Hall' by by rewrite Etexts.
    by rewrite Forall_fmap in Hall'. }
  intros st1 (bu & wr & nps & kept & pushed & cs & He1 & Hn1). eapply returns_bind; [by eapply remote_finish_edit_ok|].
  intros s' (nps' & Hs' & Hfol & Hsame & Hn' & Hp' & Hsep). apply returns_ret. exists nps'. split_and!; try done. by rewrite Hn', Hn1.
Qed.
End blocks.
