(* ===== verification/ApplyUndo.v ===== *)
(** * Undoing edits: [Buffer::apply_undo] of [crates/text/src/text.rs]

    An undo changes the counts of some edits. The fragments that these edits
    made or deleted are found through the insertion slices; each is rewritten
    with the visibility that the new counts give it, and its text moves between
    the visible and the deleted rope. *)

From stdpp Require Import sets sorting.
From S2P Require Import Prelude Clock Locator Patch SumTree SumCursor KeyedTree TreeMap UndoMap Text Rope Fragment Builders Snapshot.
Import TreeOps.

#[local] Unset Default Proof Using.
#[local] Arguments Nat.mul : simpl never.
#[local] Open Scope N_scope.
#[local] Existing Instance LamportOps.cmp_total.

(** The key by which the slices are sorted: the end is reversed. *)
Definition slice_order (a b : InsertionSlice) : comparison :=
  then_with (LamportOps.cmp (slice_insertion a) (slice_insertion b))
    (then_with (start (srange a) ?= start (srange b)) (stop (srange b) ?= stop (srange a))).

(** [Option<&Locator>] in order: [None] is first. *)
Definition option_locator_cmp (a b : option Locator) : comparison :=
  match a, b with
  | None, None => Eq
  | None, Some _ => Lt
  | Some _, None => Gt
  | Some a, Some b => LocatorOps.cmp a b
  end.

(** [Iterator::take_while]. *)
Fixpoint take_while {A} (p : A → bool) (l : list A) : list A :=
  match l with [] => [] | x :: l => if p x then x :: take_while p l else [] end.

(** The variables of the loop of [apply_undo]. *)
Record UndoState := mkUndoState {
  undo_edits : Patch;
  undo_cursor : Cursor Fragment FragmentSummary (option Locator * N);
  undo_fragments : Node Fragment FragmentSummary;
  undo_ropes : RopeBuilder }.

Module ApplyUndoOps.
Section ApplyUndoOps.
Variable sort_slices_by_key : list InsertionSlice → list InsertionSlice.
Variable sort_ids : list Locator → list Locator.
Variable sort_undos : list (KeyedTree.Edit UndoMapEntry UndoMapKey) → list (KeyedTree.Edit UndoMapEntry UndoMapKey).
Implicit Types (s : BufferSnapshot).

#[local] Abbreviation cx := (@None Global).

(** The slices of an edit, from the least one on. *)
Definition slices_of_edit s (edit_id : Lamport) : option (list InsertionSlice) :=
  let first := mkInsertionSlice (value edit_id) (replica_id edit_id) (value LamportOps.MIN) (replica_id LamportOps.MIN) (0 ..: 0) in
  slices ← TreeSetOps.iter_from insertion_slice_cmp (insertion_slices s) first;
  Some (take_while (λ slice, bool_decide (slice_edit slice = edit_id)) slices).

(** The loop over the fragments of one slice. *)
Definition slice_step (slice : InsertionSlice) (st : Cursor InsertionFragment InsertionFragmentKey InsertionFragmentKey * list Locator) :
    option ((Cursor InsertionFragment InsertionFragmentKey InsertionFragmentKey * list Locator) +
            (Cursor InsertionFragment InsertionFragmentKey InsertionFragmentKey * list Locator)) :=
  let '(c, fragment_ids) := st in
  item ← CursorOps.item c;
  match item with
  | Some item =>
      if negb (bool_decide (istamp item = slice_insertion slice)) || (stop (srange slice) <=? split_offset item)
      then Some (inr (c, fragment_ids))
      else c ← CursorOps.next () c; Some (inl (c, fragment_ids ++ [fragment_id item]))
  | None => Some (inr (c, fragment_ids))
  end.

Definition visit_slice (slice : InsertionSlice) (st : Cursor InsertionFragment InsertionFragmentKey InsertionFragmentKey * list Locator) :
    option (Cursor InsertionFragment InsertionFragmentKey InsertionFragmentKey * list Locator) :=
  let '(c, fragment_ids) := st in
  let insertion_id := slice_insertion slice in
  c ← (if negb (bool_decide (insertion_id = kstamp (CursorOps.start c))) || (ksplit (CursorOps.start c) <? start (srange slice))
       then snd <$> CursorOps.seek_forward () (insertion_key_cmp (mkInsertionKey insertion_id (start (srange slice)))) BiasLeft c
       else Some c);
  iterate (slice_step slice) (Datatypes.S (weight (tree c))) (c, fragment_ids).

Fixpoint visit_slices (slices : list InsertionSlice) st :=
  match slices with
  | [] => Some st
  | slice :: slices => st ← visit_slice slice st; visit_slices slices st
  end.

Definition fragment_ids_for_edits s (edit_ids : list Lamport) : option (list Locator) :=
  slices ← mapM (slices_of_edit s) edit_ids;
  let insertion_slices := sort_slices_by_key (mjoin slices) in
  '(_, fragment_ids) ← visit_slices insertion_slices (CursorOps.new () (insertions s), []);
  Some (sort_ids fragment_ids).

(** The body of the loop over the identifiers. *)
Definition undo_fragment (undo_map : UndoMap) (timestamp : Lamport) (st : UndoState) (id : Locator) : option UndoState :=
  '(preceding_fragments, c) ← CursorOps.slice cx (λ d, option_locator_cmp (Some id) d.1) BiasLeft (undo_cursor st);
  ropes ← RopeBuilderOps.append (undo_ropes st) (ftext (NodeOps.summary preceding_fragments));
  fragments ← TreeOps.append cx (undo_fragments st) preceding_fragments;
  item ← CursorOps.item c;
  match item with
  | Some old =>
      visible_now ← FragmentOps.is_visible old undo_map;
      let fragment := mkFragment (fid old) (Fragment.stamp old) (insertion_offset old) (flen old) visible_now (deletions old)
        (GlobalOps.observe (max_undos old) timestamp) in
      let old_start := (CursorOps.start c).2 in
      let new_start := tvisible (ftext (NodeOps.summary fragments)) in
      let edits :=
        if visible old && negb (visible fragment) then
          PatchOps.push (undo_edits st) (mkEdit (old_start ..: old_start + flen fragment) (new_start ..: new_start))
        else if negb (visible old) && visible fragment then
          PatchOps.push (undo_edits st) (mkEdit (old_start ..: old_start) (new_start ..: new_start + flen fragment))
        else undo_edits st in
      ropes ← RopeBuilderOps.push_fragment ropes fragment (visible old);
      fragments ← TreeOps.push cx fragments fragment;
      c ← CursorOps.next cx c;
      Some (mkUndoState edits c fragments ropes)
  | None => Some (mkUndoState (undo_edits st) c fragments ropes)
  end.

Fixpoint undo_fragments_loop (undo_map : UndoMap) (timestamp : Lamport) (st : UndoState) (ids : list Locator) : option UndoState :=
  match ids with
  | [] => Some st
  | id :: ids => st ← undo_fragment undo_map timestamp st id; undo_fragments_loop undo_map timestamp st ids
  end.

Definition set_undo_map s (m : UndoMap) : BufferSnapshot :=
  mkSnapshot (visible_text s) (deleted_text s) (fragments s) (insertions s) (insertion_slices s) m (sversion s)
    (remote_id s) (sreplica_id s) (line_ending s).

(** The new snapshot and the patch for the subscriptions. *)
Definition apply_undo s (undo : UndoOperation) : option (BufferSnapshot * Patch) :=
  undo_map ← UndoMapOps.insert sort_undos (undo_map s) undo;
  let s := set_undo_map s undo_map in
  v ← RopeOps.cursor (visible_text s) 0;
  d ← RopeOps.cursor (deleted_text s) 0;
  ids ← fragment_ids_for_edits s (counts undo).*1;
  st ← undo_fragments_loop undo_map (timestamp undo)
    (mkUndoState [] (CursorOps.new cx (fragments s)) (TreeOps.new cx) (RopeBuilderOps.new v d)) ids;
  '(suffix, _) ← CursorOps.suffix cx (undo_cursor st);
  ropes ← RopeBuilderOps.append (undo_ropes st) (ftext (NodeOps.summary suffix));
  fragments ← TreeOps.append cx (undo_fragments st) suffix;
  '(visible_text, deleted_text) ← RopeBuilderOps.finish ropes;
  Some (mkSnapshot visible_text deleted_text fragments (insertions s) (insertion_slices s) undo_map (sversion s)
    (remote_id s) (sreplica_id s) (line_ending s), undo_edits st).

End ApplyUndoOps.
End ApplyUndoOps.
