(* ===== verification/ApplyUndoSpec.v ===== *)
(** * What undoing does to a snapshot

    The fragments that an undo visits are exactly those that its edits made or
    deleted; each gets the visibility of the new counts, and all others have it
    already. *)

From stdpp Require Import sets sorting.
From S2P Require Import Prelude Clock Locator Patch SumTree SumCursor CursorSpec CursorWalk KeyedTree TreeMap UndoMap Text Rope RopeText LineEnding Fragment Builders Snapshot SnapshotSpec LocalEditSpec ApplyUndo.
Import TreeOps ApplyUndoOps.

#[local] Unset Default Proof Using.
#[local] Arguments Nat.mul : simpl never.
#[local] Open Scope N_scope.
#[local] Existing Instance LamportOps.cmp_total.

(** ** The order of the slices *)

Definition slice_key (x : InsertionSlice) : InsertionFragmentKey := mkInsertionKey (slice_insertion x) (start (srange x)).

(** The fragment of [i] starts in the slice. *)
Definition hit (x : InsertionSlice) (i : InsertionFragment) : Prop :=
  istamp i = slice_insertion x ∧ start (srange x) <= split_offset i < stop (srange x).

Definition slice_le (a b : InsertionSlice) : Prop := slice_order a b ≠ Gt.

(** The order has an executable sort. *)
#[local] Instance reverse_range_total : TotalOrd (λ x y : Range N, then_with (start x ?= start y) (stop y ?= stop x)).
Proof.
  assert (TotalOrd (λ x y : N, y ?= x)) as Hrev.
  { split; [intros a b; rewrite N.compare_eq_iff; naive_solver|intros a b; apply N.compare_antisym|].
    intros a b c Hab Hbc. rewrite N.compare_lt_iff in *. lia. }
  apply (lex_total N.compare (λ x y, y ?= x) (start (T := N)) stop). intros [] []; simpl; congruence.
Qed.

Lemma slice_order_sorting : Sorting (λ a b, slice_order a b ≠ Gt) (merge_sort (λ a b, slice_order a b ≠ Gt)).
Proof.
  assert (TotalOrd (λ x y : Lamport * Range N, then_with (LamportOps.cmp x.1 y.1) (then_with (start x.2 ?= start y.2) (stop y.2 ?= stop x.2)))) as Ht.
  { apply (lex_total LamportOps.cmp (λ x y, then_with (start x ?= start y) (stop y ?= stop x)) fst snd). intros [] []; simpl; congruence. }
  exact (merge_sort_sorting _ (λ s, (slice_insertion s, srange s))).
Qed.

Lemma slice_le_key a b : slice_le a b → insertion_key_cmp (slice_key a) (slice_key b) ≠ Gt.
Proof.
  unfold slice_le, slice_order, insertion_key_cmp, slice_key. cbn.
  destruct (LamportOps.cmp _ _); cbn; [|done..]. by destruct (start (srange a) ?= start (srange b)).
Qed.

Lemma key_insertion a b : insertion_key_cmp a b ≠ Gt → LamportOps.cmp (kstamp a) (kstamp b) ≠ Gt.
Proof. unfold insertion_key_cmp. by destruct (LamportOps.cmp _ _). Qed.

Lemma hit_key x i : hit x i → insertion_key_cmp (slice_key x) (insertion_key i) ≠ Gt.
Proof.
  intros [E [Hle _]]. unfold insertion_key_cmp, slice_key, insertion_key. cbn. rewrite E, (ord_refl LamportOps.cmp). cbn.
  by apply N.compare_le_iff.
Qed.

(** Whether an item is in the slice, for the items from its key on. *)
Lemma hit_from x i : insertion_key_cmp (slice_key x) (insertion_key i) ≠ Gt →
  hit x i ↔ negb (bool_decide (istamp i = slice_insertion x)) || (stop (srange x) <=? split_offset i) = false.
Proof.
  unfold hit, insertion_key_cmp, slice_key, insertion_key. cbn. intros Hle. rewrite orb_false_iff, negb_false_iff, bool_decide_eq_true, N.leb_gt.
  split; [by intros (? & _ & ?)|]. intros [E Hlt]. split; [done|]. rewrite E, (ord_refl LamportOps.cmp) in Hle. cbn in Hle.
  apply N.compare_le_iff in Hle. done.
Qed.

(** ** Visiting the slices *)

Section visits.
Context (t : Node InsertionFragment InsertionFragmentKey) (Ht : keyed_ok insertion_key_cmp () t).
Implicit Types (b k m l pushed : list InsertionFragment) (i j : InsertionFragment) (x y : InsertionSlice) (xs : list InsertionSlice).
Implicit Types (c : Cursor InsertionFragment InsertionFragmentKey InsertionFragmentKey).

#[local] Abbreviation key_le a b := (insertion_key_cmp a b ≠ Gt).
#[local] Abbreviation key_less a b := (insertion_key_cmp a b = Lt).
#[local] Abbreviation between := (between insertion_key_cmp ()).

(** The cursor is after the items [b]; it may not have been used. *)
Definition place c b k : Prop := between t c b k ∨ c = CursorOps.new () t ∧ b = [] ∧ k = tree_items t.

(** The items [pushed] have been collected, and the slices [xs] come next. *)
Record visited c b k pushed xs : Prop := {
  vs_place : place c b k;
  vs_pushed : sublist pushed b;
  vs_before i : i ∈ b → i ∈ pushed ∨ ∀ x, x ∈ xs → key_less (insertion_key i) (slice_key x);
  vs_stamps i x : i ∈ pushed → x ∈ xs → LamportOps.cmp (istamp i) (slice_insertion x) ≠ Gt }.

Lemma place_items c b k : place c b k → tree_items t = b ++ k ∧ ksorted insertion_key_cmp (b ++ k) ∧
  CursorOps.start c = match list.last b with Some i => insertion_key i | None => mkInsertionKey LamportOps.MIN 0 end.
Proof.
  pose proof Ht as (_ & Hs & _). intros [((Hat & _) & <- & Hi & Hsort)|(-> & -> & ->)].
  - split_and!; [done|done|]. rewrite (start_ok () c _ Hat), spot_of_start by done.
    apply ksorted_app in Hsort as (Hb & _). by rewrite (pos_last insertion_key_cmp ()) by done.
  - by split_and!.
Qed.

(** After an item that is past the slice there is none in it. *)
Lemma past_slice x i j : key_le (slice_key x) (insertion_key i) → ¬ hit x i →
  key_less (insertion_key i) (insertion_key j) → ¬ hit x j.
Proof.
  unfold hit, insertion_key_cmp, slice_key, insertion_key. cbn. intros Hle Hi Hlt [Ej [Hs He]]. apply Hi. rewrite Ej in Hlt.
  destruct (LamportOps.cmp (slice_insertion x) (istamp i)) eqn:E; cbn in Hle; [| |done].
  - apply (ord_eq LamportOps.cmp) in E. rewrite <- E, (ord_refl LamportOps.cmp) in Hlt. cbn in Hlt.
    apply (proj1 (N.compare_le_iff _ _)) in Hle. apply (proj1 (N.compare_lt_iff _ _)) in Hlt. split; [done|lia].
  - apply (ord_gt_lt LamportOps.cmp) in E. rewrite E in Hlt. by cbn in Hlt.
Qed.

Lemma slice_step_at x c b k ids : between t c b k → slice_step x (c, ids) =
  match k with
  | [] => Some (inr (c, ids))
  | i :: _ => if negb (bool_decide (istamp i = slice_insertion x)) || (stop (srange x) <=? split_offset i)
              then Some (inr (c, ids)) else c ← CursorOps.next () c; Some (inl (c, ids ++ [fragment_id i]))
  end.
Proof. intros Hb. unfold slice_step. rewrite (between_item insertion_key_cmp () _ _ _ _ Hb). by destruct k. Qed.

Lemma slice_loop_ok (fuel : nat) x c b k pushed : between t c b k → (length k < fuel)%nat →
  Forall (λ i, key_le (slice_key x) (insertion_key i)) k →
  returns (iterate (slice_step x) fuel (c, fragment_id <$> pushed)) (λ '(c', ids), ∃ m k', k = m ++ k' ∧
    between t c' (b ++ m) k' ∧ ids = fragment_id <$> (pushed ++ m) ∧ Forall (hit x) m ∧ Forall (λ i, ¬ hit x i) k').
Proof.
  revert c b k pushed. induction fuel as [|fuel IH]; intros c b k pushed Hb Hf Hk; [lia|]. cbn [iterate].
  rewrite (slice_step_at x c b k _ Hb). destruct k as [|i k]; cbn [mbind option_bind].
  { apply returns_ret. exists [], []. rewrite !app_nil_r. by split_and!. }
  pose proof Hk as [Hi Hk']%Forall_cons. pose proof (hit_from x i Hi) as Hhit.
  destruct (negb _ || _) eqn:E; cbn [mbind option_bind].
  - apply returns_ret. exists [], (i :: k). rewrite !app_nil_r. split_and!; try done.
    assert (¬ hit x i) as Hni by by rewrite Hhit. constructor; [done|].
    destruct Hb as (_ & _ & _ & Hs). apply ksorted_app in Hs as (_ & [_ Hs]%StronglySorted_inv & _).
    eapply Forall_impl; [exact Hs|]. intros j Hj. by apply (past_slice x i j).
  - assert (hit x i) as Hhi by by apply Hhit. destruct (between_next insertion_key_cmp () _ _ _ _ _ Hb) as (c' & -> & Hb'). cbn [mbind option_bind].
    change ((fragment_id <$> pushed) ++ [fragment_id i]) with ((fragment_id <$> pushed) ++ (fragment_id <$> [i])). rewrite <- fmap_app.
    cbn [length] in Hf. eapply returns_mono; [apply (IH c' (b ++ [i]) k (pushed ++ [i]) Hb'); [lia|done]|].
    intros [c2 ids] (m & k' & -> & H1 & H2 & H3 & H4). exists (i :: m), k'. rewrite <- !app_assoc in *. split_and!; try done. by constructor.
Qed.

Lemma not_less_ge (a b : InsertionFragmentKey) : ¬ key_less a b → key_le b a.
Proof. intros H Hgt. apply H. by apply (ord_gt_lt insertion_key_cmp). Qed.

(** Seeking onwards from a place. *)
Lemma place_seek c b k (v : InsertionFragmentKey) : place c b k → (∀ i, i ∈ b → key_le (insertion_key i) v) →
  returns (snd <$> CursorOps.seek_forward () (insertion_key_cmp v) BiasLeft c) (λ c', ∃ m k', k = m ++ k' ∧
    between t c' (b ++ m) k' ∧ (∀ i, i ∈ m → key_less (insertion_key i) v) ∧ ∀ i, i ∈ k' → key_le v (insertion_key i)).
Proof.
  intros Hp Hb. destruct (place_items c b k Hp) as (Hi & Hs & _). pose proof Ht as (Htok & _ & Hcap).
  assert (∃ sp, ready () c sp ∧ tree c = t ∧ spot_start c sp = b ∧ spot_rest c sp = k) as (sp & Hr & Htree & Hsb & Hsk).
  { destruct Hp as [(Hr & <- & _)|(-> & -> & ->)].
    - exists (spot_of b k). split_and!; [done|done|by apply spot_of_start|apply spot_of_rest].
    - exists Fresh. split_and!; try done. by apply (new_ready ()). }
  eapply returns_fmap, returns_mono.
  { apply (seek_forward_ok () (insertion_key_cmp v) BiasLeft c sp Hr).
    - change (position c) with (CursorOps.start c). rewrite (start_ok () c sp (proj1 Hr)), Hsb.
      apply (target_not_lt insertion_key_cmp ()); [by apply ksorted_app in Hs as (? & _)|done].
    - rewrite Hsb, Hsk. apply (passed_monotone insertion_key_cmp ()). exact Hs. }
  pose proof (seek_split_key (T := InsertionFragment) (S := InsertionFragmentKey) insertion_key_cmp () BiasLeft v b k Hs) as Hsplit.
  intros [found c']. cbn zeta. rewrite Hsb, Hsk, Hsplit. intros (Htc & Hat & _). cbn [snd].
  pose proof (seek_split_app () (insertion_key_cmp v) BiasLeft (posn () (dzero InsertionFragmentKey ()) b) k) as Happ.
  rewrite Hsplit in Happ. cbn [fst snd] in Happ.
  eexists _, _. split; [by rewrite Happ|]. split; [|split].
  - unfold KeyedTree.between. rewrite <- app_assoc, Happ, Htc, Htree. split_and!; try done.
    apply (ready_spot_of ()); [done|by rewrite Htc, Htree].
  - intros i [Hin _]%list_elem_of_filter. by apply (passed_left insertion_key_cmp ()) in Hin.
  - intros i [Hin _]%list_elem_of_filter. apply not_less_ge. intros Hlt.
    assert (passed insertion_key_cmp BiasLeft v i = true) by by apply (passed_left insertion_key_cmp ()). congruence.
Qed.

(** The cursor goes to the first item that is not before the slice. *)
Lemma slice_place x xs c b k pushed : visited c b k pushed (x :: xs) → slice_insertion x ≠ LamportOps.MIN →
  returns (if negb (bool_decide (slice_insertion x = kstamp (CursorOps.start c))) || (ksplit (CursorOps.start c) <? start (srange x))
           then snd <$> CursorOps.seek_forward () (insertion_key_cmp (mkInsertionKey (slice_insertion x) (start (srange x)))) BiasLeft c
           else Some c) (λ c', ∃ m k', k = m ++ k' ∧ between t c' (b ++ m) k' ∧
    (∀ i, i ∈ m → key_less (insertion_key i) (slice_key x)) ∧ ∀ i, i ∈ k' → key_le (slice_key x) (insertion_key i)).
Proof.
  intros [Hp _ Hbefore Hstamps] Hmin. destruct (place_items c b k Hp) as (Hi & Hs & ->).
  destruct b as [|y b _] using rev_ind; cbn [list.last kstamp ksplit].
  { rewrite bool_decide_eq_false_2 by done. cbn [negb orb]. apply (place_seek c [] k); [done|]. by intros i ?%elem_of_nil. }
  rewrite last_snoc. cbn [insertion_key kstamp ksplit]. apply ksorted_app in Hs as (Hs & _ & Hsk).
  apply ksorted_app in Hs as (_ & _ & Hsb).
  destruct (negb _ || _) eqn:E.
  - apply (place_seek c (b ++ [y]) k); [done|]. change (mkInsertionKey _ _) with (slice_key x).
    assert (key_less (insertion_key y) (slice_key x)) as Hy.
    { destruct (Hbefore y ltac:(set_solver)) as [Hpush|H]; [|apply H; by left]. specialize (Hstamps y x Hpush ltac:(by left)).
      unfold insertion_key_cmp, slice_key, insertion_key. cbn. destruct (LamportOps.cmp (istamp y) (slice_insertion x)) eqn:El; [|done..].
      apply (ord_eq LamportOps.cmp) in El. rewrite El, bool_decide_eq_true_2 in E by done. cbn in E.
      apply N.ltb_lt in E. cbn. by apply N.compare_lt_iff. }
    intros i [Hib| ->%list_elem_of_singleton]%elem_of_app; [|by rewrite Hy].
    enough (key_less (insertion_key i) (slice_key x)) as -> by done.
    apply (ord_lt_trans insertion_key_cmp _ (insertion_key y)); [|done]. apply (Hsb i y Hib). by left.
  - apply returns_ret. exists [], k. rewrite app_nil_r. split_and!; [done| |by intros i ?%elem_of_nil|].
    + destruct Hp as [?|(_ & Hnil & _)]; [done|]. by destruct b.
    + apply orb_false_iff in E as [E1 E2]. apply negb_false_iff, bool_decide_eq_true in E1. apply N.ltb_ge in E2.
      assert (key_le (slice_key x) (insertion_key y)) as Hy.
      { unfold insertion_key_cmp, slice_key, insertion_key. cbn. rewrite E1, (ord_refl LamportOps.cmp). cbn. by apply N.compare_le_iff. }
      intros i Hik. specialize (Hsk y i ltac:(set_solver) Hik). unfold key_lt in Hsk. cbn [key insertion_keyed] in Hsk.
      enough (key_less (slice_key x) (insertion_key i)) as -> by done.
      by apply (ord_le_lt_trans insertion_key_cmp _ (insertion_key y)).
Qed.

Lemma visit_slice_ok x xs c b k pushed : visited c b k pushed (x :: xs) → Forall (slice_le x) xs → slice_insertion x ≠ LamportOps.MIN →
  returns (visit_slice x (c, fragment_id <$> pushed)) (λ '(c', ids), ∃ b' k' m, ids = fragment_id <$> (pushed ++ m) ∧
    visited c' b' k' (pushed ++ m) xs ∧ Forall (hit x) m ∧ ∀ i, i ∈ tree_items t → hit x i → i ∈ pushed ++ m).
Proof.
  intros Hvis Hle Hmin. pose proof Hvis as [Hp Hsub Hbefore Hstamps]. unfold visit_slice.
  destruct (place_items c b k Hp) as (Hi & _ & _). rewrite Forall_forall in Hle.
  eapply returns_bind; [by eapply slice_place|]. intros c' (m0 & k0 & -> & Hb & Hm0 & Hk0).
  pose proof Hb as (_ & Htree & Hitems & _). eapply returns_mono.
  { apply (slice_loop_ok (Datatypes.S (weight (tree c'))) x c' (b ++ m0) k0 pushed Hb); [|by apply Forall_forall].
    rewrite Htree. pose proof (weight_items () t (proj1 Ht)) as Hw. rewrite Hitems, length_app in Hw. lia. }
  intros [c2 ids] (m & k' & -> & Hb2 & -> & Hm & Hk'). exists ((b ++ m0) ++ m), k', m. split_and!; [done| |done|].
  - split; [by left|apply sublist_app; [by apply sublist_inserts_r|done]| |].
    + intros i [[Hib|Him0]%elem_of_app|Him]%elem_of_app; [| |left; set_solver].
      * destruct (Hbefore i Hib) as [?|H]; [left; set_solver|right]. intros x' Hx'. apply H. by right.
      * right. intros x' Hx'. apply (ord_lt_le_trans insertion_key_cmp _ (slice_key x)); [by apply Hm0|]. by apply slice_le_key, Hle.
    + intros i x' [Hip|Him]%elem_of_app Hx'; [apply Hstamps; [done|by right]|].
      rewrite Forall_forall in Hm. destruct (Hm i Him) as [-> _]. apply (key_insertion (slice_key x) (slice_key x')). by apply slice_le_key, Hle.
  - intros i Hit Hhit. rewrite Hi in Hit. pose proof (hit_key x i Hhit) as Hkey. apply elem_of_app.
    assert (¬ key_less (insertion_key i) (slice_key x)) as Hnl.
    { intros H. apply Hkey. by apply (ord_gt_lt insertion_key_cmp). }
    rewrite Forall_forall in Hk'. rewrite !elem_of_app in Hit. destruct Hit as [Hib|[Hi0|[Him|Hik]]].
    + destruct (Hbefore i Hib) as [?|H]; [by left|]. destruct Hnl. apply H. by left.
    + destruct Hnl. by apply Hm0.
    + by right.
    + by destruct (Hk' i Hik).
Qed.

Lemma visit_slices_ok xs c b k pushed : visited c b k pushed xs → StronglySorted slice_le xs →
  Forall (λ x, slice_insertion x ≠ LamportOps.MIN) xs →
  returns (visit_slices xs (c, fragment_id <$> pushed)) (λ '(_, ids), ∃ m, ids = fragment_id <$> (pushed ++ m) ∧
    sublist (pushed ++ m) (tree_items t) ∧ (∀ i, i ∈ m → ∃ x, x ∈ xs ∧ hit x i) ∧
    ∀ i x, i ∈ tree_items t → x ∈ xs → hit x i → i ∈ pushed ++ m).
Proof.
  revert c b k pushed. induction xs as [|x xs IH]; intros c b k pushed Hv Hs Hmin; cbn [visit_slices].
  { apply returns_ret. exists []. rewrite app_nil_r. split_and!; try done; [|by intros i ?%elem_of_nil|by intros ? ? _ ?%elem_of_nil].
    destruct Hv as [Hp Hsub _ _]. destruct (place_items c b k Hp) as (-> & _). by apply sublist_inserts_r. }
  apply StronglySorted_inv in Hs as [Hs Hx]. apply Forall_cons in Hmin as [Hmx Hmin].
  eapply returns_bind; [by eapply visit_slice_ok|]. intros [c' ids] (b' & k' & m & -> & Hv' & Hm & Hall).
  eapply returns_mono; [by eapply (IH c' b' k' (pushed ++ m))|]. intros [c2 ids] (m2 & -> & Hsub & Hm2 & Hall2).
  exists (m ++ m2). rewrite app_assoc. split_and!; [done|done| |].
  - intros i [Him|Him]%elem_of_app.
    + exists x. split; [by left|]. rewrite Forall_forall in Hm. by apply Hm.
    + destruct (Hm2 i Him) as (y & Hy & Hh). exists y. split; [by right|done].
  - intros i y Hi [->|Hy]%elem_of_cons Hh; [|by eapply Hall2]. apply elem_of_app. left. by apply Hall.
Qed.
End visits.

(** ** The slices of the edits *)

Lemma take_while_elem {A} (p : A → bool) (R : A → A → Prop) l x : StronglySorted R l → x ∈ l → p x = true →
  (∀ y, y ∈ l → R y x → p y = true) → x ∈ take_while p l.
Proof.
  intros Hs Hx Hp. induction Hs as [|y l Hs IH Hy]; [by apply elem_of_nil in Hx|]. intros Hb. cbn [take_while].
  apply elem_of_cons in Hx as [->|Hx]; [rewrite Hp; by left|]. rewrite Forall_forall in Hy.
  rewrite (Hb y ltac:(by left) (Hy x Hx)). right. apply IH; [done|]. intros z Hz. apply Hb. by right.
Qed.

Lemma take_while_inv {A} (p : A → bool) l x : x ∈ take_while p l → x ∈ l ∧ p x = true.
Proof.
  induction l as [|y l IH]; cbn [take_while]; [by intros ?%elem_of_nil|]. destruct (p y) eqn:E; [|by intros ?%elem_of_nil].
  intros [->|Hx]%elem_of_cons; [by split; [left|]|]. destruct (IH Hx). by split; [right|].
Qed.

Definition first_slice (e : Lamport) : InsertionSlice :=
  mkInsertionSlice (value e) (replica_id e) (value LamportOps.MIN) (replica_id LamportOps.MIN) (0 ..: 0).

Lemma slice_edit_first e : slice_edit (first_slice e) = e.
Proof. by destruct e. Qed.

Lemma first_slice_le e x : slice_edit x = e → insertion_slice_cmp (first_slice e) x ≠ Gt.
Proof.
  intros <-. unfold insertion_slice_cmp. rewrite slice_edit_first, (ord_refl LamportOps.cmp). cbn [then_with].
  pose proof (lamport_min_le (slice_insertion x)) as Hm. change (slice_insertion (first_slice _)) with LamportOps.MIN.
  destruct (LamportOps.cmp LamportOps.MIN (slice_insertion x)); cbn [then_with]; [|done..]. cbn.
  destruct (start (srange x)); cbn; [|done]. by destruct (stop (srange x)).
Qed.

Lemma slice_cmp_edit a b : insertion_slice_cmp a b ≠ Gt → LamportOps.cmp (slice_edit a) (slice_edit b) ≠ Gt.
Proof. unfold insertion_slice_cmp. by destruct (LamportOps.cmp _ _). Qed.

Lemma slices_of_edit_ok s e : map_ok insertion_slice_cmp (insertion_slices s) →
  returns (slices_of_edit s e) (λ l, ∀ x, x ∈ l ↔ x ∈ members (insertion_slices s) ∧ slice_edit x = e).
Proof.
  intros Hok. unfold slices_of_edit, TreeSetOps.iter_from. rewrite (iter_from_map insertion_slice_cmp) by done.
  cbn [mbind option_bind option_map]. apply returns_ret. intros x. fold (first_slice e).
  pose proof Hok as (_ & Hs & _). set (F := filter _ _).
  assert (List.map fst (List.map pair_of F) = ekey <$> F) as -> by exact (eq_sym (list_fmap_compose pair_of fst F)).
  assert (∀ y, y ∈ ekey <$> F ↔ y ∈ members (insertion_slices s) ∧ insertion_slice_cmp y (first_slice e) ≠ Lt) as HF.
  { intros y. unfold members, entries. change (List.map pair_of ?l) with (pair_of <$> l). rewrite <- list_fmap_compose, !list_elem_of_fmap.
    unfold F. setoid_rewrite list_elem_of_filter. cbn. naive_solver. }
  assert (StronglySorted (λ a b, insertion_slice_cmp a b = Lt) (ekey <$> F)) as HsF.
  { apply (StronglySorted_fmap ekey (key_lt (map_key_cmp insertion_slice_cmp))); [done|by apply ksorted_filter]. }
  split.
  - intros [Hx Hp]%take_while_inv. apply HF in Hx as [Hx _]. by apply bool_decide_eq_true in Hp.
  - intros [Hx He]. apply (take_while_elem _ _ _ _ HsF).
    + apply HF. split; [done|]. intros Hlt. apply (first_slice_le e x He). by apply (ord_gt_lt insertion_slice_cmp).
    + by apply bool_decide_eq_true.
    + intros y [_ Hy]%HF Hlt. apply bool_decide_eq_true. subst e.
      assert (insertion_slice_cmp (first_slice (slice_edit x)) y ≠ Gt) as H1%slice_cmp_edit.
      { intros H. apply Hy. by apply (ord_gt_lt insertion_slice_cmp). }
      rewrite slice_edit_first in H1. assert (LamportOps.cmp (slice_edit y) (slice_edit x) ≠ Gt) as H2.
      { apply slice_cmp_edit. by rewrite Hlt. }
      destruct (LamportOps.cmp (slice_edit x) (slice_edit y)) eqn:E; [by apply (ord_eq LamportOps.cmp) in E| |done].
      destruct H2. by apply (ord_gt_lt LamportOps.cmp).
Qed.

Lemma mapM_returns {A B} (f : A → option B) (P : A → B → Prop) l : (∀ x, x ∈ l → returns (f x) (P x)) →
  returns (mapM f l) (λ k, Forall2 P l k).
Proof.
  induction l as [|x l IH]; intros H; [by apply returns_ret|].
  change (mapM f (x :: l)) with (y ← f x; k ← mapM f l; mret (y :: k)).
  eapply returns_bind; [apply H; by left|]. intros y Hy. eapply returns_bind; [apply IH; intros z Hz; apply H; by right|].
  intros k Hk. apply returns_ret. by constructor.
Qed.

(** ** The fragments of the edits *)

Section fragment_ids.
Context (sort_slices_by_key : list InsertionSlice → list InsertionSlice) (sort_ids : list Locator → list Locator).
Context (Hsl : Sorting slice_le sort_slices_by_key) (Hid : Sorting (λ a b, LocatorOps.cmp a b ≠ Gt) sort_ids).
Context (s : BufferSnapshot) (ps : list part) (Hok : snapshot_ok s ps) (Hlow : snapshot_low s).
Implicit Types (es : list Lamport) (f g : Fragment) (x : InsertionSlice).

(** One of the edits made or deleted the fragment, as the slices say. *)
Definition touched es f : Prop := ∃ x, x ∈ members (insertion_slices s) ∧ slice_edit x ∈ es ∧ hit x (FragmentOps.insertion_fragment f).

Lemma insertions_keyed : keyed_ok insertion_key_cmp () (insertions s).
Proof. destruct (so_insertions _ _ Hok) as (H1 & H2 & _). split_and!; [done|done|apply Hlow]. Qed.

Lemma slices_map : map_ok insertion_slice_cmp (insertion_slices s).
Proof. destruct (so_slices _ _ Hok) as [H1 H2]. split_and!; [done|done|apply Hlow]. Qed.

Lemma fids_inj f g : f ∈ ps.*1 → g ∈ ps.*1 → fid f = fid g → f = g.
Proof.
  intros Hf Hg E. pose proof (so_ids _ _ Hok) as Hs.
  assert (id_lt f g ∨ f = g ∨ id_lt g f) as [H|[H|H]]; [|unfold id_lt in H; by rewrite E, (ord_refl LocatorOps.cmp) in H|done|unfold id_lt in H; by rewrite E, (ord_refl LocatorOps.cmp) in H].
  clear E. induction Hs as [|h l Hl IH Hh]; [by apply elem_of_nil in Hf|]. rewrite Forall_forall in Hh.
  apply elem_of_cons in Hf as [->|Hf], Hg as [->|Hg]; auto.
Qed.

Lemma collected_ids pushed : sublist pushed (tree_items (insertions s)) → NoDup (fragment_id <$> pushed).
Proof.
  intros Hsub. destruct (so_insertions _ _ Hok) as (_ & Hs & Hm).
  assert (NoDup (tree_items (insertions s))) as Hnd.
  { clear -Hs. induction Hs as [|i l Hl IH Hi]; constructor; [|done]. intros Hin. rewrite Forall_forall in Hi.
    specialize (Hi i Hin). unfold key_lt in Hi. by rewrite (ord_refl insertion_key_cmp) in Hi. }
  apply NoDup_fmap_2_strong; [|by eapply sublist_NoDup].
  intros i j Hi Hj E.
  pose proof (proj1 (Hm i) (elem_of_sublist _ _ _ Hi Hsub)) as (f & -> & Hf)%list_elem_of_fmap.
  pose proof (proj1 (Hm j) (elem_of_sublist _ _ _ Hj Hsub)) as (g & -> & Hg)%list_elem_of_fmap. by rewrite (fids_inj f g Hf Hg E).
Qed.

Lemma fragment_ids_ok es : returns (fragment_ids_for_edits sort_slices_by_key sort_ids s es) (λ ids,
  StronglySorted (λ a b, LocatorOps.cmp a b = Lt) ids ∧ ∀ id, id ∈ ids ↔ ∃ f, f ∈ ps.*1 ∧ fid f = id ∧ touched es f).
Proof.
  unfold fragment_ids_for_edits. eapply returns_bind.
  { apply mapM_returns. intros e _. apply (slices_of_edit_ok s e slices_map). }
  intros ls Hls. assert (∀ x, x ∈ mjoin ls ↔ x ∈ members (insertion_slices s) ∧ slice_edit x ∈ es) as Hall.
  { clear -Hls. induction Hls as [|e l es ls Hl _ IH]; intros x; [by split; [intros ?%elem_of_nil|intros [_ ?%elem_of_nil]]|].
    change (mjoin (l :: ls)) with (l ++ mjoin ls). rewrite elem_of_app, Hl, IH, elem_of_cons. naive_solver. }
  destruct (so_insertions _ _ Hok) as (_ & _ & Hm). destruct Hsl as [Hperm Hsorted].
  assert (∀ x, x ∈ sort_slices_by_key (mjoin ls) ↔ x ∈ members (insertion_slices s) ∧ slice_edit x ∈ es) as Hall'.
  { intros x. by rewrite Hperm. }
  eapply returns_bind.
  { apply (visit_slices_ok (insertions s) insertions_keyed (sort_slices_by_key (mjoin ls)) (CursorOps.new () (insertions s)) [] (tree_items (insertions s)) []);
      [|done|].
    - split; [by right|done|by intros i ?%elem_of_nil|by intros i x ?%elem_of_nil].
    - apply Forall_forall. intros x [Hx _]%Hall'. destruct (so_origins _ _ Hok) as [H _]. rewrite Forall_forall in H. by apply H. }
  intros [c ids] (m & -> & Hsub & Hhit & Hcomp). cbn [app] in *. apply returns_ret. destruct Hid as [Hperm' Hsorted'].
  split.
  - assert (NoDup (sort_ids (fragment_id <$> m))) as Hnd by (rewrite Hperm'; by apply collected_ids).
    specialize (Hsorted' (fragment_id <$> m)). induction Hsorted' as [|a l Hl IH Ha]; constructor.
    + apply IH. by apply NoDup_cons in Hnd as [_ ?].
    + apply NoDup_cons in Hnd as [Hnin _]. rewrite Forall_forall in Ha. apply Forall_forall. intros b Hb.
      specialize (Ha b Hb). destruct (LocatorOps.cmp a b) eqn:E; [|done..]. apply (ord_eq LocatorOps.cmp) in E. by subst b.
  - intros id. rewrite Hperm', list_elem_of_fmap. split.
    + intros (i & -> & Hi). destruct (Hhit i Hi) as (x & [Hx He]%Hall' & Hh). 
      pose proof (proj1 (Hm i) (elem_of_sublist _ _ _ Hi Hsub)) as (f & -> & Hf)%list_elem_of_fmap. exists f. split_and!; [done|done|]. by exists x.
    + intros (f & Hf & <- & x & Hx & He & Hh). exists (FragmentOps.insertion_fragment f). split; [done|].
      apply (Hcomp _ x); [|by apply Hall'|done]. apply Hm. by apply list_elem_of_fmap_2.
Qed.
End fragment_ids.

(** ** What an operation changes in the undo map *)

#[local] Abbreviation about id := (λ x, edit_id (ukey x) = id).

Lemma insert_other sort m u m' e : Sorting (edit_le undo_key_cmp) sort → undo_ok m → well_formed u →
  UndoMapOps.insert sort m u = Some m' → undo_ok m' → e ∉ (counts u).*1 → undone_in m' e = undone_in m e.
Proof.
  intros Hsort Hok Hwf Hins Hok' He. destruct (insert_ok sort Hsort m u Hok Hwf) as (m1 & Hm1 & Ht & Hs & Hx).
  rewrite Hins in Hm1. injection Hm1 as <-. pose proof Hok as (_ & Hsm & _).
  assert (filter (about e) (tree_items m') = filter (about e) (tree_items m)) as E.
  { apply (ksorted_ext undo_key_cmp ()); [by apply ksorted_filter..|]. intros x. rewrite !list_elem_of_filter, Hx. split.
    - intros [E [[_ Hr]|[Hin _]]]; [|done]. destruct He. rewrite <- E. by apply (list_elem_of_fmap_2 fst _ (edit_id (ukey x), entry_count x)).
    - intros [E Hin]. split; [done|]. right. split; [done|]. intros [_ Hk]. by rewrite E in Hk. }
  unfold undone_in, UndoMapOps.is_undone, UndoMapOps.undo_count. rewrite !count_ok by done. by rewrite E.
Qed.

(** ** Seeking a fragment by its identifier *)

Section seeking.
Context {D : Type} `{!Dimension D FragmentSummary (option Global)}.
Implicit Types (l k a b r : list Fragment) (f : Fragment) (id : Locator).

#[local] Abbreviation cx := (@None Global).
#[local] Abbreviation pos := (posn (D := option Locator * D) cx (dzero FragmentSummary cx)).
#[local] Abbreviation target id := (λ d : option Locator * D, option_locator_cmp (Some id) d.1).

Lemma last_id l f : list.last (fid <$> l ++ [f]) = Some (fid f).
Proof. rewrite fmap_app. apply last_snoc. Qed.

Lemma pos_last_id l : (pos l).1 = list.last (fid <$> l).
Proof.
  induction l as [|f l _] using rev_ind; [done|]. by rewrite posn_snoc, last_id.
Qed.

Lemma id_skips id l : CursorOps.skips (target id) BiasLeft (pos l) =
  match list.last (fid <$> l) with Some i => bool_decide (LocatorOps.cmp i id = Lt) | None => true end.
Proof.
  unfold CursorOps.skips. rewrite pos_last_id. destruct (list.last _) as [i|]; [|done]. cbn [option_locator_cmp].
  destruct (LocatorOps.cmp id i) eqn:E; symmetry.
  - apply (ord_eq LocatorOps.cmp) in E as ->. by rewrite (ord_refl LocatorOps.cmp).
  - apply bool_decide_eq_false. intros H. apply (ord_gt_lt LocatorOps.cmp) in H. congruence.
  - apply bool_decide_eq_true. by apply (ord_gt_lt LocatorOps.cmp).
Qed.

Lemma id_monotone id b l : StronglySorted id_lt (b ++ l) → monotone cx (target id) BiasLeft (pos b) l.
Proof.
  intros Hs a k Ha [r ->]. rewrite <- !posn_app, <- !negb_false_iff, <- !skips_inside, !id_skips.
  destruct a as [|f a _] using rev_ind; [done|]. destruct k as [|g k _] using rev_ind; [by rewrite !app_nil_r|].
  rewrite (app_assoc b a), (app_assoc (a ++ [f])), (app_assoc b), !last_id, !bool_decide_eq_false.
  intros Hf Hg. apply Hf. apply (ord_lt_trans LocatorOps.cmp _ (fid g)); [|done].
  apply (StronglySorted_app_1_elem_of id_lt (b ++ a ++ [f]) (k ++ [g] ++ r)); [|set_solver..].
  by rewrite <- !app_assoc in *.
Qed.

(** Seeking an identifier finds its fragment. *)
Lemma id_seek b l f r : StronglySorted id_lt (b ++ l ++ f :: r) →
  target (fid f) (pos b) ≠ Lt ∧ monotone cx (target (fid f)) BiasLeft (pos b) (l ++ f :: r) ∧
  seek_split cx (target (fid f)) BiasLeft (pos b) (l ++ f :: r) = (l, f :: r).
Proof.
  intros Hs. assert (∀ g, g ∈ b ++ l → LocatorOps.cmp (fid g) (fid f) = Lt) as Hlt.
  { intros g Hg. rewrite app_assoc in Hs. apply (StronglySorted_app_1_elem_of _ _ _ _ _ Hs Hg). by left. }
  assert (∀ m, m ≠ [] → (∀ g, g ∈ m → g ∈ b ++ l) → CursorOps.skips (target (fid f)) BiasLeft (pos m) = true) as Hskip.
  { intros m Hm Hin. rewrite id_skips. destruct m as [|g m _] using rev_ind; [done|]. rewrite last_id, bool_decide_eq_true. apply Hlt, Hin. set_solver. }
  split_and!; [|by apply id_monotone|].
  - cbn. rewrite pos_last_id. destruct b as [|g b _] using rev_ind; [done|]. rewrite last_id. cbn. assert (LocatorOps.cmp (fid g) (fid f) = Lt) as H by (apply Hlt; set_solver).
    apply (ord_gt_lt LocatorOps.cmp) in H. by rewrite H.
  - rewrite seek_split_skip; [|by apply id_monotone|].
    + cbn [seek_split]. rewrite <- posn_app. change (dadd cx ?d (isummary cx f)) with (posn cx d [f]). rewrite <- posn_app, id_skips.
      rewrite last_id, (ord_refl LocatorOps.cmp). cbn. by rewrite app_nil_r.
    + intros Hl. rewrite <- posn_app. apply Hskip; [by destruct b|done].
Qed.
End seeking.

(** ** Rewriting the fragments *)

Section undoing.
Context (s : BufferSnapshot) (ps : list part) (Hok : snapshot_ok s ps) (Hlow : snapshot_low s).
Context (um : UndoMap) (Hum : undo_ok um) (ts : Lamport) (ids : list Locator).
Implicit Types (b k l r nps : list part) (x f : Fragment) (m a n : str) (st : UndoState).

#[local] Abbreviation cx := (@None Global).
#[local] Abbreviation cursor := (Cursor Fragment FragmentSummary (option Locator * N)).

Definition retouch f : Fragment :=
  mkFragment (fid f) (stamp f) (insertion_offset f) (flen f) (shows (undone_in um) f) (deletions f)
    (GlobalOps.observe (max_undos f) ts).

Definition touch f : Fragment := if bool_decide (fid f ∈ ids) then retouch f else f.

(** The parts with the new visibilities. *)
Definition after b : list part := (λ p, (touch p.1, p.2)) <$> b.

Lemma after_app b k : after (b ++ k) = after b ++ after k.
Proof. apply fmap_app. Qed.

Lemma touch_id f : fid (touch f) = fid f.
Proof. unfold touch. by case_bool_decide. Qed.

Lemma after_untouched l : (∀ p, p ∈ l → fid p.1 ∉ ids) → after l = l.
Proof.
  intros H. unfold after. rewrite <- (list_fmap_id l) at 2. apply list_fmap_ext. intros i [f m] Hi. cbn. f_equal. unfold touch.
  rewrite bool_decide_eq_false_2; [done|]. apply (H (f, m)). by eapply list_elem_of_lookup_2.
Qed.

Lemma after_ok b : Forall part_ok b → Forall part_ok (after b).
Proof.
  intros Hb. unfold after. apply Forall_fmap. eapply Forall_impl; [exact Hb|]. intros [f m] []. cbn in *. unfold touch.
  by case_bool_decide.
Qed.

(** A text that becomes visible or deleted, in the patch. *)
Lemma toggle_patch p a n m (v w : bool) : patched 0 0 p (Str.as_bytes a) (Str.as_bytes n) → separated p →
  let p' := if v && negb w then PatchOps.push p (mkEdit (Str.length_utf8 a ..: Str.length_utf8 a + Str.length_utf8 m) (Str.length_utf8 n ..: Str.length_utf8 n))
            else if negb v && w then PatchOps.push p (mkEdit (Str.length_utf8 a ..: Str.length_utf8 a) (Str.length_utf8 n ..: Str.length_utf8 n + Str.length_utf8 m))
            else p in
  patched 0 0 p' (Str.as_bytes (a ++ if v then m else [])) (Str.as_bytes (n ++ if w then m else [])) ∧ separated p'.
Proof.
  intros Hp Hs. destruct v, w; cbn [andb negb]; rewrite <- ?length_utf8_app.
  - split; [by apply extend_patch|done].
  - apply (push_edit p a n m []); [done|done|]. by rewrite app_nil_r.
  - apply (push_edit p a n [] m); [done|done|]. by rewrite app_nil_r.
  - by rewrite !app_nil_r.
Qed.

(** The loop has rewritten the parts [b], has the parts [k] ahead, and visits
    those of [rest]. *)
Record undoing st b k (rest : list Locator) : Prop := {
  un_parts : ps = b ++ k;
  un_tree : tree (undo_cursor st) = fragments s;
  un_cursor : ∃ sp, ready cx (undo_cursor st) sp ∧ spot_start (undo_cursor st) sp = b.*1 ∧ spot_rest (undo_cursor st) sp = k.*1;
  un_fragments : tree_ok cx (undo_fragments st) ∧ tree_items (undo_fragments st) = (after b).*1;
  un_ropes : holds_texts (visible_text s) (deleted_text s) (undo_ropes st) (strips b) (strips k) (strips (after b));
  un_patch : patched 0 0 (undo_edits st) (Str.as_bytes (shown b)) (Str.as_bytes (shown (after b)));
  un_separated : separated (undo_edits st);
  un_rest p : p ∈ k → fid p.1 ∈ ids → fid p.1 ∈ rest;
  un_sorted : StronglySorted (λ i j, LocatorOps.cmp i j = Lt) rest;
  un_ahead i : i ∈ rest → i ∈ ids ∧ ∃ p, p ∈ k ∧ fid p.1 = i }.

Lemma all_parts b l : ps = b ++ l → Forall part_ok b ∧ Forall part_ok l.
Proof. intros ->. apply Forall_app, (so_parts _ _ Hok). Qed.

Lemma ids_sorted b l : ps = b ++ l → StronglySorted id_lt (b.*1 ++ l.*1).
Proof. intros E. pose proof (so_ids _ _ Hok) as H. by rewrite E, fmap_app in H. Qed.

Lemma pos_visible b : Forall part_ok b →
  (posn (D := option Locator * N) cx (dzero FragmentSummary cx) b.*1).2 = Str.length_utf8 (shown b).
Proof.
  intros Hb. rewrite <- (parts_visible b Hb). clear Hb. induction b as [|p b IH] using rev_ind; [done|].
  rewrite fmap_app. change [p].*1 with [p.1]. rewrite posn_snoc, text_of_app. change (snd (dadd cx ?d ?x)) with (snd d + tvisible (ftext x)).
  rewrite IH. cbn. lia.
Qed.

(** What is before the next identifier of the loop is not rewritten. *)
Lemma split_at_id st b k i rest : undoing st b k (i :: rest) →
  ∃ l p r, k = l ++ p :: r ∧ fid p.1 = i ∧ i ∈ ids ∧ after l = l ∧
    (∀ q, q ∈ r → fid q.1 ∈ ids → fid q.1 ∈ rest) ∧ (∀ j, j ∈ rest → j ∈ ids ∧ ∃ q, q ∈ r ∧ fid q.1 = j).
Proof.
  intros [Hps _ _ _ _ _ _ Hrest [Hi Hs]%StronglySorted_cons Hahead]. destruct (Hahead i) as (Hid & p & (l & r & ->)%list_elem_of_split & <-); [by left|].
  rewrite Forall_forall in Hi. assert (StronglySorted id_lt (b.*1 ++ l.*1 ++ p.1 :: r.*1)) as Hsort.
  { rewrite <- fmap_cons, <- fmap_app. by apply ids_sorted. }
  apply StronglySorted_app_1_r in Hsort. apply StronglySorted_app in Hsort as (Hl & _ & [Hr _]%StronglySorted_cons). rewrite Forall_forall in Hr.
  assert (∀ q, q ∈ l → LocatorOps.cmp (fid q.1) (fid p.1) = Lt) as Hl'.
  { intros q Hq. apply (Hl q.1 p.1); [by apply list_elem_of_fmap_2|by left]. }
  assert (∀ q, q ∈ l → fid q.1 ∉ rest) as Hout.
  { intros q Hq Hin. apply Hl' in Hq. apply Hi in Hin. pose proof (ord_lt_trans LocatorOps.cmp _ _ _ Hq Hin) as H. by rewrite (ord_refl LocatorOps.cmp) in H. }
  exists l, p, r. split_and!; [done..| | |].
  - apply after_untouched. intros q Hq Hin. assert (fid q.1 ∈ fid p.1 :: rest) as [E|E]%elem_of_cons by (apply Hrest; set_solver); [|by eapply Hout].
    apply Hl' in Hq. by rewrite E, (ord_refl LocatorOps.cmp) in Hq.
  - intros q Hq Hin. assert (fid q.1 ∈ fid p.1 :: rest) as [E|E]%elem_of_cons by (apply Hrest; set_solver); [|done].
    assert (LocatorOps.cmp (fid p.1) (fid q.1) = Lt) as H by (apply (Hr q.1); by apply list_elem_of_fmap_2).
    by rewrite E, (ord_refl LocatorOps.cmp) in H.
  - intros j Hj. destruct (Hahead j) as (Hjid & q & Hq & <-); [by right|]. split; [done|].
    apply elem_of_app in Hq as [Hq|[->|Hq]%elem_of_cons]; [by destruct (Hout q Hq)| |by exists q].
    apply Hi in Hj. by rewrite (ord_refl LocatorOps.cmp) in Hj.
Qed.

(** Subtrees that stay as they are are appended. *)
Lemma append_parts b l k ropes (t u : Node Fragment FragmentSummary) : ps = b ++ l ++ k → after l = l →
  holds_texts (visible_text s) (deleted_text s) ropes (strips b) (strips (l ++ k)) (strips (after b)) →
  tree_ok cx t → tree_items t = (after b).*1 → tree_ok cx u → tree_items u = l.*1 →
  returns (RopeBuilderOps.append ropes (ftext (NodeOps.summary u)))
    (λ ropes', holds_texts (visible_text s) (deleted_text s) ropes' (strips (b ++ l)) (strips k) (strips (after (b ++ l)))) ∧
  returns (TreeOps.append cx t u) (λ t', tree_ok cx t' ∧ tree_items t' = (after (b ++ l)).*1).
Proof.
  intros Hps Hl Hr Ht Hti Hu Hui. split.
  - rewrite (summary_ok cx u Hu), Hui, total_text, parts_text by (destruct (all_parts b (l ++ k) Hps) as [_ [? _]%Forall_app]; done).
    rewrite after_app, Hl, !strips_app in *. by apply (rope_builder_append _ _ (lo_visible _ Hlow) (lo_deleted _ Hlow)).
  - eapply returns_mono; [by apply (append_ok cx)|]. intros t' [Ht' ->]. by rewrite Hti, Hui, after_app, fmap_app, Hl.
Qed.

Lemma touched_fragment x : fid x ∈ ids → touch x = retouch x.
Proof. intros H. unfold touch. by rewrite bool_decide_eq_true_2. Qed.

Lemma after_one x m : after [(x, m)] = [(touch x, m)].
Proof. done. Qed.

Lemma undo_fragment_ok st b k i rest : undoing st b k (i :: rest) →
  returns (undo_fragment um ts st i) (λ st', ∃ b' k', undoing st' b' k' rest).
Proof.
  intros Hu. destruct (split_at_id st b k i rest Hu) as (l & [x m] & r & -> & <- & Hid & Hl & Hrest & Hahead).
  destruct Hu as [Hps Ht (sp & Hready & Hsb & Hsk) [Hf Hfi] Hr Hp Hsep _ [_ Hs]%StronglySorted_cons _]. cbn [fst] in *.
  assert (StronglySorted id_lt (b.*1 ++ l.*1 ++ x :: r.*1)) as Hsort.
  { pose proof (ids_sorted _ _ Hps) as H. by rewrite fmap_app in H. }
  destruct (id_seek (D := N) b.*1 l.*1 x r.*1 Hsort) as (Htarget & Hmono & Hsplit).
  rewrite fmap_app in Hsk. change (((x, m) :: r).*1) with (x :: r.*1) in Hsk.
  unfold undo_fragment. eapply returns_bind.
  { apply (slice_ok cx (λ d, option_locator_cmp (Some (fid x)) d.1) BiasLeft (undo_cursor st) sp Hready).
    - change (position (undo_cursor st)) with (CursorOps.start (undo_cursor st)). by rewrite (start_ok cx _ sp (proj1 Hready)), Hsb.
    - by rewrite Hsb, Hsk. }
  intros [t c]. rewrite Hsb, Hsk, Hsplit. intros (Htok & Hti & Htree & Hat). cbn [spot_of] in Hat.
  destruct (append_parts b l ((x, m) :: r) (undo_ropes st) (undo_fragments st) t Hps Hl Hr Hf Hfi Htok Hti) as [Hra Hta].
  eapply returns_bind; [exact Hra|]. intros ropes Hropes. eapply returns_bind; [exact Hta|]. intros fs [Hfs Hfsi].
  rewrite (item_ok cx c _ Hat) by done. cbn [mbind option_bind spot_item].
  rewrite (is_visible_ok um (undone_in um)) by (intros; by apply undone_in_ok). cbn [mbind option_bind]. fold (retouch x).
  destruct (all_parts (b ++ l) ((x, m) :: r)) as [Hbl [Hx Hrp]%Forall_cons]; [by rewrite <- app_assoc|].
  pose proof Hx as [Hxl Hxm _ _ _ _]. cbn [fst snd] in Hxl, Hxm.
  assert (0 < flen (retouch x)) as Hpos by (cbn; rewrite Hxl; assert (Str.length_utf8 m ≠ 0) by (by rewrite length_utf8_zero); lia).
  unfold RopeBuilderOps.push_fragment. rewrite (proj2 (N.ltb_lt _ _) Hpos). change (flen (retouch x)) with (flen x). rewrite Hxl.
  change (strips ((x, m) :: r)) with ((visible x, m) :: strips r) in Hropes. eapply returns_bind.
  { by apply (rope_builder_push _ _ (lo_visible _ Hlow) (lo_deleted _ Hlow) ropes (strips (b ++ l)) (strips r) (strips (after (b ++ l))) m (visible x) (visible (retouch x))). }
  intros ropes' Hropes'. eapply returns_bind; [exact (push_ok cx fs (retouch x) Hfs)|]. intros fs' [Hfs' Hfsi'].
  eapply returns_bind; [apply (next_ok cx c _ _ _ Hat); rewrite Htree, Ht; apply Hlow|]. intros c' [Htree' Hat'].
  apply returns_ret. exists ((b ++ l) ++ [(x, m)]), r.
  assert (after ((b ++ l) ++ [(x, m)]) = after (b ++ l) ++ [(retouch x, m)]) as Ea by by rewrite after_app, after_one, touched_fragment.
  assert (patched 0 0 (undo_edits st) (Str.as_bytes (shown (b ++ l))) (Str.as_bytes (shown (after (b ++ l))))) as Hp'.
  { rewrite after_app, Hl, !shown_app. by apply extend_patch. }
  rewrite (start_ok cx c _ Hat), (summary_ok cx fs Hfs), Hfsi, total_text. cbn [spot_start].
  rewrite <- fmap_app, pos_visible, parts_visible by (done || by apply after_ok).
  destruct (toggle_patch (undo_edits st) (shown (b ++ l)) (shown (after (b ++ l))) m (visible x) (visible (retouch x)) Hp' Hsep) as [Hp2 Hs2].
  split; cbn [undo_cursor undo_fragments undo_ropes undo_edits]; try done.
  - by rewrite <- !app_assoc.
  - congruence.
  - exists (spot_of ((b ++ l) ++ [(x, m)]).*1 r.*1). split_and!.
    + split_and!; [by rewrite !fmap_app|by destruct r|]. rewrite Htree', Htree, Ht. apply Hlow.
    + apply spot_of_start. rewrite Htree', Htree, Ht, (so_items _ _ Hok), Hps. by rewrite !fmap_app, <- !app_assoc.
    + apply spot_of_rest.
  - split; [done|]. by rewrite Hfsi', Hfsi, Ea, fmap_app.
  - by rewrite Ea, !strips_app in *.
  - rewrite Ea, !shown_app, !shown_one in *. done.
Qed.

Lemma undo_fragments_loop_ok rest st b k : undoing st b k rest →
  returns (undo_fragments_loop um ts st rest) (λ st', ∃ b' k', undoing st' b' k' []).
Proof.
  revert st b k. induction rest as [|i rest IH]; intros st b k Hu; cbn [undo_fragments_loop]; [apply returns_ret; by exists b, k|].
  eapply returns_bind; [by eapply undo_fragment_ok|]. intros st' (b' & k' & Hu'). by eapply IH.
Qed.

(** *** The new snapshot *)

Lemma undo_begin ropes : StronglySorted (λ i j, LocatorOps.cmp i j = Lt) ids → (∀ i, i ∈ ids → ∃ f, f ∈ ps.*1 ∧ fid f = i) →
  holds_texts (visible_text s) (deleted_text s) ropes [] (strips ps) [] →
  undoing (mkUndoState [] (CursorOps.new cx (fragments s)) (TreeOps.new cx) ropes) [] ps ids.
Proof.
  intros Hs Hi Hr. split; try done; cbn [undo_cursor undo_edits].
  - exists Fresh. split_and!; [apply (new_ready cx); [apply Hok|apply Hlow]|done|apply Hok].
  - split; [by left|done].
  - constructor.
  - intros i Hin. split; [done|]. destruct (Hi i Hin) as (f & (p & -> & Hp)%list_elem_of_fmap & <-). by exists p.
Qed.

Lemma undo_finish st b k : undoing st b k [] →
  returns ('(suffix, _) ← CursorOps.suffix cx (undo_cursor st);
           ropes ← RopeBuilderOps.append (undo_ropes st) (ftext (NodeOps.summary suffix));
           fragments ← TreeOps.append cx (undo_fragments st) suffix;
           '(visible_text, deleted_text) ← RopeBuilderOps.finish ropes;
           Some (visible_text, deleted_text, fragments))
    (λ '(v, d, t), tree_ok cx t ∧ tree_items t = (after ps).*1 ∧
      rope_ok v ∧ rope_text v = shown (after ps) ∧ rope_ok d ∧ rope_text d = side false (strips (after ps)) ∧
      patched 0 0 (undo_edits st) (Str.as_bytes (shown ps)) (Str.as_bytes (shown (after ps))) ∧ separated (undo_edits st)).
Proof.
  intros [Hps Ht (sp & Hready & Hsb & Hsk) [Hf Hfi] Hr Hp Hsep Hrest _ _].
  assert (after k = k) as Hk by (apply after_untouched; intros q Hq Hin; by apply Hrest, elem_of_nil in Hq).
  eapply returns_bind; [by apply (suffix_ok cx (undo_cursor st) sp)|]. intros [t c] (Htok & Hti & _ & _). rewrite Hsk in Hti.
  assert (ps = b ++ k ++ []) as Hps' by by rewrite app_nil_r.
  destruct (append_parts b k [] (undo_ropes st) (undo_fragments st) t Hps' Hk) as [Hra Hta]; [by rewrite app_nil_r|done..|].
  eapply returns_bind; [exact Hra|]. intros ropes Hropes. eapply returns_bind; [exact Hta|]. intros fs [Hfs Hfsi].
  eapply returns_bind; [by apply (rope_builder_finish _ _ (lo_visible _ Hlow) (lo_deleted _ Hlow) _ _ _ _ Hropes)|].
  intros [v d] (Hv & Hvt & Hd & Hdt). cbn [strips fmap list_fmap] in Hvt, Hdt. rewrite app_nil_r, <- Hps in *. apply returns_ret.
  split_and!; try done. rewrite Hps, after_app, Hk, !shown_app. by apply extend_patch.
Qed.

(** The fragment is the same but for what undos change. *)
Record retouched (p q : part) : Prop := {
  rt_text : q.2 = p.2;
  rt_id : fid q.1 = fid p.1;
  rt_stamp : Fragment.stamp q.1 = Fragment.stamp p.1;
  rt_offset : insertion_offset q.1 = insertion_offset p.1;
  rt_len : flen q.1 = flen p.1;
  rt_deletions : deletions q.1 = deletions p.1 }.

Lemma after_retouched b : Forall2 retouched b (after b).
Proof.
  unfold after. rewrite <- (list_fmap_id b) at 1. apply Forall2_fmap_2, Forall_Forall2_diag, Forall_forall. intros [f m] _.
  unfold touch. by case_bool_decide.
Qed.
End undoing.

(** *** What stays the same *)

Section retouched.
Implicit Types (ps qs : list part) (f g : Fragment).

Lemma retouched_fmap {A} (h : Fragment → A) ps qs : (∀ f g, fid g = fid f → Fragment.stamp g = Fragment.stamp f → insertion_offset g = insertion_offset f →
    flen g = flen f → deletions g = deletions f → h g = h f) → Forall2 retouched ps qs → h <$> qs.*1 = h <$> ps.*1.
Proof. intros Hh. induction 1 as [|p q ps qs [] _ IH]; [done|]. cbn [fmap list_fmap]. f_equal; [by apply Hh|done]. Qed.

Lemma retouched_units ps qs : Forall2 retouched ps qs → units qs = units ps.
Proof. induction 1 as [|p q ps qs [] _ IH]; [done|]. rewrite !units_cons, IH. f_equal. unfold punits. congruence. Qed.

Lemma retouched_parts ps qs : Forall2 retouched ps qs → Forall part_ok ps → Forall part_ok qs.
Proof.
  induction 1 as [|p q ps qs [Et Ei _ Eo El _] _ IH]; intros Hp; [constructor|]. apply Forall_cons in Hp as [[] Hps].
  constructor; [|by apply IH]. split; rewrite ?Et, ?Ei, ?Eo, ?El; done.
Qed.

Lemma shows_ext u v f : (∀ e, e ∈ stamp f :: deletions f → u e = v e) → shows u f = shows v f.
Proof.
  intros H. unfold shows. rewrite (H (stamp f)) by left. f_equal. assert (∀ e, e ∈ deletions f → u e = v e) as Hd by (intros e He; apply H; by right).
  clear H. induction (deletions f) as [|e l IH]; [done|]. cbn [forallb]. rewrite (Hd e) by left. f_equal. apply IH. intros e' He'. apply Hd. by right.
Qed.
End retouched.

(** ** The whole operation *)

Section applying.
Context (sort_slices_by_key : list InsertionSlice → list InsertionSlice) (sort_ids : list Locator → list Locator).
Context (sort_undos : list (KeyedTree.Edit UndoMapEntry UndoMapKey) → list (KeyedTree.Edit UndoMapEntry UndoMapKey)).
Context (Hsl : Sorting slice_le sort_slices_by_key) (Hid : Sorting (λ a b, LocatorOps.cmp a b ≠ Gt) sort_ids).
Context (Hsu : Sorting (edit_le undo_key_cmp) sort_undos).
Context (s : BufferSnapshot) (ps : list part) (Hok : snapshot_ok s ps) (Hlow : snapshot_low s).
Context (u : UndoOperation) (Hwf : well_formed u) (Hbase : base_stamp ∉ (counts u).*1).
Context (um : UndoMap) (Hins : UndoMapOps.insert sort_undos (undo_map s) u = Some um) (Hum : (NodeOps.height um < STACK_CAPACITY)%nat).
Implicit Types (f : Fragment) (ids : list Locator).

#[local] Abbreviation cx := (@None Global).

Lemma old_undos : undo_ok (undo_map s).
Proof. destruct (so_undos _ _ Hok) as [H1 H2]. split_and!; [done|done|apply Hlow]. Qed.

Lemma new_undos : undo_ok um.
Proof.
  destruct (insert_ok sort_undos Hsu (undo_map s) u old_undos Hwf) as (m & E & H1 & H2 & _). rewrite Hins in E. injection E as <-.
  by split_and!.
Qed.

(** A fragment that the slices do not lead to has the visibility already. *)
Lemma untouched_shown f : f ∈ ps.*1 → ¬ touched s (counts u).*1 f → visible f = shows (undone_in um) f.
Proof.
  intros Hf Ht. pose proof (so_shown _ _ Hok) as Hs. pose proof (so_covered _ _ Hok) as Hc. pose proof (so_parts _ _ Hok) as Hp.
  rewrite Forall_forall in Hs. rewrite Forall_forall in Hc. rewrite Forall_forall in Hp. rewrite (Hs f Hf). apply shows_ext.
  intros e He. symmetry. apply (insert_other sort_undos _ u); [done|apply old_undos|done|done|apply new_undos|].
  intros Hin. destruct (Hc f Hf e He) as (x & Hx & <- & Hi & Hle & Hge); [by intros ->|]. apply Ht. exists x. split_and!; [done|done|].
  apply list_elem_of_fmap in Hf as ([f' m] & -> & Hm). destruct (Hp _ Hm) as [Hl Hne _ _ _ _]. cbn [fst snd] in *.
  assert (Str.length_utf8 m ≠ 0) by by rewrite length_utf8_zero. split; [done|]. cbn [FragmentOps.insertion_fragment split_offset]. lia.
Qed.

Lemma after_shown ids : (∀ f, f ∈ ps.*1 → touched s (counts u).*1 f → fid f ∈ ids) →
  Forall (λ f, visible f = shows (undone_in um) f) (after um (timestamp u) ids ps).*1.
Proof.
  intros Hids. apply Forall_forall. intros g (p & -> & (q & -> & Hq)%list_elem_of_fmap)%list_elem_of_fmap. cbn [fst].
  assert (q.1 ∈ ps.*1) as Hf by by apply list_elem_of_fmap_2. unfold touch. case_bool_decide as H; [done|].
  apply untouched_shown; [done|]. intros Ht. by apply H, Hids.
Qed.

(** The parts with the new visibilities make a snapshot. *)
Lemma after_snapshot ids v d t : (∀ f, f ∈ ps.*1 → touched s (counts u).*1 f → fid f ∈ ids) →
  let qs := after um (timestamp u) ids ps in
  tree_ok cx t → tree_items t = qs.*1 → rope_ok v → rope_text v = shown qs → rope_ok d → rope_text d = side false (strips qs) →
  snapshot_ok (mkSnapshot v d t (insertions s) (insertion_slices s) um (sversion s) (remote_id s) (sreplica_id s) (line_ending s)) qs.
Proof.
  intros Hids qs Ht Hti Hv Hvt Hd Hdt. pose proof (after_retouched um (timestamp u) ids ps) as Hr. fold qs in Hr.
  pose proof Hok as [_ _ Hp _ _ Hi Hu Hin Hs Hc [Ho1 Ho2] _ _].
  split; cbn [fragments Snapshot.insertions visible_text deleted_text insertion_slices undo_map]; try done.
  - by eapply retouched_parts.
  - assert (fid <$> qs.*1 = fid <$> ps.*1) as E by by apply retouched_fmap.
    assert (∀ l, StronglySorted id_lt l ↔ StronglySorted (λ i j, LocatorOps.cmp i j = Lt) (fid <$> l)) as Hiff.
    { intros l. clear. induction l as [|f l IH]; [by split; constructor|]. cbn [fmap list_fmap]. rewrite !StronglySorted_cons, IH, Forall_fmap. done. }
    by rewrite Hiff, E, <- Hiff.
  - by rewrite (retouched_units ps qs).
  - destruct Hin as (H1 & H2 & H3). split_and!; [done|done|]. intros x. rewrite H3.
    assert (FragmentOps.insertion_fragment <$> qs.*1 = FragmentOps.insertion_fragment <$> ps.*1) as ->; [|done].
    apply retouched_fmap; [|done]. intros f g E1 E2 E3 E4 E5. unfold FragmentOps.insertion_fragment. by rewrite E1, E2, E3.
  - apply Forall_fmap. unfold qs, after. apply Forall_fmap. rewrite Forall_fmap in Hc. eapply Forall_impl; [exact Hc|].
    intros [f m]. cbn. unfold touch. by case_bool_decide.
  - split; [done|]. unfold qs, after. apply Forall_fmap, Forall_fmap. rewrite Forall_fmap in Ho2. eapply Forall_impl; [exact Ho2|].
    intros [f m]. cbn. unfold touch. by case_bool_decide.
  - pose proof new_undos as (H1 & H2 & _). done.
  - by apply after_shown.
Qed.

Lemma apply_undo_ok : returns (apply_undo sort_slices_by_key sort_ids sort_undos s u) (λ '(s', patch), ∃ qs,
  snapshot_ok s' qs ∧ Forall2 retouched ps qs ∧ undo_map s' = um ∧
  (insertions s' = insertions s ∧ insertion_slices s' = insertion_slices s ∧ sversion s' = sversion s ∧
   remote_id s' = remote_id s ∧ sreplica_id s' = sreplica_id s ∧ line_ending s' = line_ending s) ∧
  patched 0 0 patch (Str.as_bytes (shown ps)) (Str.as_bytes (shown qs)) ∧ separated patch).
Proof.
  unfold apply_undo. rewrite Hins. cbn [mbind option_bind]. cbn zeta. cbn [visible_text deleted_text fragments set_undo_map].
  destruct (so_visible _ _ Hok) as [Hrv Htv], (so_deleted _ _ Hok) as [Hrd Htd].
  destruct (rope_builder_new _ _ (lo_visible _ Hlow) (lo_deleted _ Hlow) (strips ps) Hrv Hrd Htv Htd) as (ropes & E & Hropes).
  destruct (RopeOps.cursor (visible_text s) 0) as [cv|]; [|done]. cbn [mbind option_bind] in *.
  destruct (RopeOps.cursor (deleted_text s) 0) as [cd|]; [|done]. cbn [mbind option_bind] in *. injection E as ->.
  change (fragment_ids_for_edits sort_slices_by_key sort_ids (set_undo_map s um)) with (fragment_ids_for_edits sort_slices_by_key sort_ids s).
  eapply returns_bind; [by apply (fragment_ids_ok sort_slices_by_key sort_ids Hsl Hid s ps Hok Hlow)|]. intros ids [Hs Hids].
  assert (∀ f, f ∈ ps.*1 → touched s (counts u).*1 f → fid f ∈ ids) as Hall by (intros f Hf Ht; apply Hids; by exists f).
  eapply returns_bind.
  { apply (undo_fragments_loop_ok s ps Hok Hlow um new_undos (timestamp u) ids ids _ [] ps). apply undo_begin; try done.
    intros i Hi. apply Hids in Hi as (f & Hf & <- & _). by exists f. }
  intros st (b & k & Hst). pose proof (undo_finish s ps Hok Hlow um (timestamp u) ids st b k Hst) as Hfin.
  destruct (CursorOps.suffix cx (undo_cursor st)) as [[suffix c]|]; [|by destruct Hfin as (? & ? & _)]. cbn [mbind option_bind] in *.
  destruct (RopeBuilderOps.append _ _) as [ropes'|]; [|by destruct Hfin as (? & ? & _)]. cbn [mbind option_bind] in *.
  destruct (TreeOps.append _ _ _) as [t|]; [|by destruct Hfin as (? & ? & _)]. cbn [mbind option_bind] in *.
  destruct (RopeBuilderOps.finish ropes') as [[v d]|]; [|by destruct Hfin as (? & ? & _)]. cbn [mbind option_bind] in *.
  destruct Hfin as ([[v2 d2] t2] & [= <- <- <-] & Ht & Hti & Hv & Hvt & Hd & Hdt & Hp & Hsep). apply returns_ret.
  exists (after um (timestamp u) ids ps). split_and!; try done; [by apply after_snapshot|apply after_retouched].
Qed.
End applying.
