(* ===== verification/Offsets.v ===== *)
(** * Positions in a buffer: the traits of [crates/text/src/text.rs] that convert them

    [ToOffset] and its relatives turn the positions that clients use into
    offsets of the visible text. A byte offset that is not at a character is an
    error in a debug build and is moved back in a release build, as are points;
    [debug_assertions] says which build it is. *)

From stdpp Require Import sets.
From S2P Require Import Prelude Clock Locator SumTree SumCursor KeyedTree TreeMap UndoMap Points Text Chunk Rope RopeText RopeSpec RopeClip LineEnding Fragment Builders Snapshot.
Import TreeOps PointOps.

#[local] Unset Default Proof Using.
#[local] Arguments Nat.mul : simpl never.
#[local] Open Scope N_scope.

Module OffsetOps.
Section OffsetOps.
Variable debug_assertions : bool.
Implicit Types (s : BufferSnapshot) (r : Rope) (offset row : N).

(** [Chunk::assert_char_boundary]; [None] is the panic. *)
Definition chunk_assert_char_boundary (PANIC : bool) (c : ChunkSlice) offset : option bool :=
  if ChunkOps.is_char_boundary c offset then Some true
  else if PANIC || debug_assertions then None else Some false.

(** [Rope::assert_char_boundary]. *)
Definition assert_char_boundary (PANIC : bool) r offset : option bool :=
  if NodeOps.is_empty (chunks r) && (offset =? 0) then Some true
  else
    let '(start, _, item) := find () (N.compare offset) BiasLeft (chunks r) in
    match item with
    | Some p => chunk_offset ← usize_sub offset start; chunk_assert_char_boundary PANIC (chunk p) chunk_offset
    | None => if PANIC then None else Some false
    end.

Definition len s : N := RopeOps.len (visible_text s).
Definition is_empty s : bool := len s =? 0.
Definition max_point s : Point := RopeOps.max_point (visible_text s).
Definition row_count s : N := row (max_point s) +u32 1.

Definition usize_to_offset offset s : option N :=
  b ← assert_char_boundary debug_assertions (visible_text s) offset;
  if negb b then RopeOps.floor_char_boundary (visible_text s) offset else Some offset.

End OffsetOps.

(** ** [ToOffset] and the other traits *)

Class ToOffset (A : Type) := to_offset : bool → A → BufferSnapshot → option N.
Class ToPoint (A : Type) := to_point : A → BufferSnapshot → option Point.
Class ToPointUtf16 (A : Type) := to_point_utf16 : bool → A → BufferSnapshot → option PointUtf16.
Class ToOffsetUtf16 (A : Type) := to_offset_utf16 : A → BufferSnapshot → option OffsetUtf16.

#[global] Instance offset_of_point : ToOffset Point := λ debug_assertions p s, RopeOps.point_to_offset debug_assertions (visible_text s) p.
#[global] Instance offset_of_usize : ToOffset N := usize_to_offset.
#[global] Instance offset_of_point_utf16 : ToOffset PointUtf16 :=
  λ debug_assertions p s, RopeOps.point_utf16_to_offset debug_assertions (visible_text s) p.
#[global] Instance offset_of_unclipped : ToOffset (Unclipped PointUtf16) :=
  λ debug_assertions p s, RopeOps.unclipped_point_utf16_to_offset debug_assertions (visible_text s) p.

#[global] Instance point_of_usize : ToPoint N := λ o s, RopeOps.offset_to_point (visible_text s) o.
#[global] Instance point_of_point : ToPoint Point := λ p _, Some p.
#[global] Instance point_of_unclipped : ToPoint (Unclipped PointUtf16) :=
  λ p s, RopeOps.unclipped_point_utf16_to_point (visible_text s) p.

#[global] Instance point_utf16_of_usize : ToPointUtf16 N := λ _ o s, RopeOps.offset_to_point_utf16 (visible_text s) o.
#[global] Instance point_utf16_of_point_utf16 : ToPointUtf16 PointUtf16 := λ _ p _, Some p.
#[global] Instance point_utf16_of_point : ToPointUtf16 Point :=
  λ debug_assertions p s, RopeOps.point_to_point_utf16 debug_assertions (visible_text s) p.

#[global] Instance offset_utf16_of_usize : ToOffsetUtf16 N := λ o s, RopeOps.offset_to_offset_utf16 (visible_text s) o.
#[global] Instance offset_utf16_of_offset_utf16 : ToOffsetUtf16 OffsetUtf16 := λ o _, Some o.

Section defaults.
Context {A : Type} `{!ToOffset A} (debug_assertions : bool).
Implicit Types (s : BufferSnapshot) (p : A) (r : Range A).

Definition to_next_offset p s : option N :=
  o ← to_offset debug_assertions p s; RopeOps.ceil_char_boundary (visible_text s) (o + 1).

(** [saturating_sub] is the subtraction of [N]. *)
Definition to_previous_offset p s : option N :=
  o ← to_offset debug_assertions p s; RopeOps.floor_char_boundary (visible_text s) (o - 1).

(** [OffsetRangeExt]. *)
Definition range_to_offset r s : option (Range N) :=
  a ← to_offset debug_assertions (start r) s; b ← to_offset debug_assertions (stop r) s; Some (a ..: b).
Definition range_to_point r s : option (Range Point) :=
  a ← to_offset debug_assertions (start r) s; a ← to_point a s;
  b ← to_offset debug_assertions (stop r) s; b ← to_point b s; Some (mkRange a b).
Definition range_to_point_utf16 r s : option (Range PointUtf16) :=
  a ← to_offset debug_assertions (start r) s; a ← to_point_utf16 debug_assertions a s;
  b ← to_offset debug_assertions (stop r) s; b ← to_point_utf16 debug_assertions b s; Some (mkRange a b).

Definition text_summary_for_range {D} `{!TextDimension D} s r : option D :=
  a ← to_offset debug_assertions (start r) s;
  c ← RopeOps.cursor (visible_text s) a;
  b ← to_offset debug_assertions (stop r) s;
  fst <$> RopeOps.summary_cursor c b.

End defaults.

(** The length of a row in bytes. *)
Definition line_len (debug_assertions : bool) (s : BufferSnapshot) (row_ : N) : option N :=
  row_start_offset ← to_offset debug_assertions (new row_ 0 : Point) s;
  row_end_offset ← (if row (max_point s) <=? row_ then Some (len s)
                    else to_previous_offset debug_assertions (new (row_ +u32 1) 0 : Point) s);
  n ← usize_sub row_end_offset row_start_offset;
  Some (as_u32 n).

End OffsetOps.
Import OffsetOps.

(** ** What the conversions give *)

Section offsets.
Implicit Types (s : BufferSnapshot) (r : Rope) (a b d : str) (debug_assertions : bool).

Lemma assert_boundary_ok debug_assertions r i : rope_ok r →
  assert_char_boundary debug_assertions debug_assertions r i =
    if Str.is_char_boundary (rope_text r) i then Some true else if debug_assertions then None else Some false.
Proof.
  intros Hok. pose proof (is_char_boundary_in r i Hok) as H. unfold RopeOps.is_char_boundary, assert_char_boundary in *.
  rewrite (is_empty_ok () _ (rope_tree _ Hok)) in *. case_bool_decide as He; cbn [andb].
  - injection H as H. rewrite <- H. destruct (N.eqb_spec i 0) as [->|Hi]; [done|].
    assert (rope_text r = []) as Ht by (unfold rope_text; by rewrite He).
    pose proof (offset_located r i Hok) as Hloc. destruct (find _ _ _ _) as [[start e] [p|]]; [|done].
    destruct Hloc as (b & z & E & -> & _ & Hle). rewrite Ht in E. destruct b; [|done]. cbn in E, Hle.
    destruct (ptext p); [cbn in Hle; lia|done].
  - destruct (find _ _ _ _) as [[start e] [p|]]; [|injection H as <-; by destruct debug_assertions].
    destruct (usize_sub i start) as [o|]; [|done]. cbn [mbind option_bind] in *. injection H as <-.
    unfold chunk_assert_char_boundary. destruct (ChunkOps.is_char_boundary _ _); [done|]. by destruct debug_assertions.
Qed.

(** An offset at a character stays; elsewhere it is an error or goes back. *)
Lemma usize_to_offset_ok debug_assertions s i : rope_ok (visible_text s) →
  to_offset debug_assertions i s =
    if Str.is_char_boundary (rope_text (visible_text s)) i then Some i
    else if debug_assertions then None else Some (Str.floor_char_boundary (rope_text (visible_text s)) i).
Proof.
  intros Hok. unfold to_offset, offset_of_usize, usize_to_offset. rewrite assert_boundary_ok by done.
  destruct (Str.is_char_boundary _ i); [done|]. destruct debug_assertions; [done|]. cbn [mbind option_bind negb]. by apply floor_in_rope.
Qed.
End offsets.
