(* ===== verification/Anchor.v ===== *)
(** * Anchors: [crates/text/src/anchor.rs], and what [crates/text/src/text.rs] does with them

    An anchor is a place in the text of an insertion, before or after a
    character. It is resolved through the fragment that has the character now:
    [insertions] leads to the fragment, and [fragments] to its offset. *)

From stdpp Require Import sets.
From S2P Require Import Prelude Clock Locator SumTree SumCursor KeyedTree TreeMap UndoMap Points Text Chunk Rope RopeText LineEnding Fragment Builders Snapshot ApplyUndo Offsets.
Import TreeOps.

#[local] Unset Default Proof Using.
#[local] Arguments Nat.mul : simpl never.
#[local] Open Scope N_scope.
#[local] Existing Instance LamportOps.cmp_total.

Record Anchor := mkAnchor {
  timestamp_replica_id : ReplicaId;
  timestamp_value : N;
  anchor_offset : N;
  anchor_bias : Bias;
  buffer_id : N }.

#[export] Instance Anchor_eq_dec : EqDecision Anchor.
Proof. solve_decision. Defined.

(** The derived [Ord] of [Bias]. *)
Definition bias_cmp (a b : Bias) : comparison :=
  match a, b with BiasLeft, BiasRight => Lt | BiasRight, BiasLeft => Gt | _, _ => Eq end.

Definition is_lt (c : comparison) : bool := match c with Lt => true | _ => false end.
Definition is_le (c : comparison) : bool := match c with Gt => false | _ => true end.

Definition u32_max : N := u32_modulus - 1.

Module AnchorOps.
Implicit Types (a self other : Anchor) (s : BufferSnapshot) (offset : N) (bias : Bias).

Definition new (timestamp : Lamport) offset bias (buffer_id : N) : Anchor :=
  mkAnchor (replica_id timestamp) (value timestamp) offset bias buffer_id.

Definition min_for_buffer (buffer_id : N) : Anchor :=
  mkAnchor (replica_id LamportOps.MIN) (value LamportOps.MIN) 0 BiasLeft buffer_id.
Definition max_for_buffer (buffer_id : N) : Anchor :=
  mkAnchor (replica_id LamportOps.MAX) (value LamportOps.MAX) u32_max BiasRight buffer_id.

Definition min_min_range_for_buffer (buffer_id : N) : Range Anchor := mkRange (min_for_buffer buffer_id) (min_for_buffer buffer_id).
Definition max_max_range_for_buffer (buffer_id : N) : Range Anchor := mkRange (max_for_buffer buffer_id) (max_for_buffer buffer_id).
Definition min_max_range_for_buffer (buffer_id : N) : Range Anchor := mkRange (min_for_buffer buffer_id) (max_for_buffer buffer_id).

Definition timestamp a : Lamport := mkLamport (timestamp_value a) (timestamp_replica_id a).

Definition is_min a : bool :=
  bool_decide (timestamp a = LamportOps.MIN) && (anchor_offset a =? 0) && bool_decide (anchor_bias a = BiasLeft).
Definition is_max a : bool :=
  bool_decide (timestamp a = LamportOps.MAX) && (anchor_offset a =? u32_max) && bool_decide (anchor_bias a = BiasRight).

Definition to_le_bytes (size : nat) (n : N) : list N := (λ i, N.shiftr n (8 * N.of_nat i) mod 256) <$> seq 0 size.

Definition opaque_id a : list N :=
  to_le_bytes 8 (buffer_id a) ++ to_le_bytes 4 (anchor_offset a) ++ to_le_bytes 4 (timestamp_value a) ++
  to_le_bytes 2 (timestamp_replica_id a) ++ [match anchor_bias a with BiasLeft => 0 | BiasRight => 1 end; 0].

(** *** Finding the fragment *)

Definition anchor_key a : InsertionFragmentKey := mkInsertionKey (timestamp a) (anchor_offset a).

(** The outer [option] is the panic of the search. *)
Definition try_find_fragment s a : option (option InsertionFragment) :=
  '(_, _, r) ← find_with_prev () (insertion_key_cmp (anchor_key a)) (anchor_bias a) (insertions s);
  match r with
  | Some (prev, insertion) =>
      let comparison := insertion_key_cmp (insertion_key insertion) (anchor_key a) in
      if bool_decide (comparison = Gt) ||
         (bool_decide (anchor_bias a = BiasLeft) && bool_decide (comparison = Eq) && (0 <? anchor_offset a))
      then Some prev
      else Some (Some insertion)
  | None => NodeOps.last (insertions s)
  end.

(** The place of a fragment with this identifier in the visible text. *)
Definition find_by_id s (id : Locator) : (option Locator * N) * (option Locator * N) * option Fragment :=
  find (D := option Locator * N) None (λ d, option_locator_cmp (Some id) d.1) BiasLeft (fragments s).

Section AnchorOps.
Variable debug_assertions : bool.

Definition try_fragment_id_for_anchor s a : option (option Locator) :=
  if is_min a then Some (Some LocatorOps.min)
  else if is_max a then Some (Some LocatorOps.max)
  else
    item ← try_find_fragment s a;
    Some (insertion ← item;
      if negb debug_assertions || bool_decide (istamp insertion = timestamp a) then Some (fragment_id insertion) else None).

(** [panic_bad_anchor] when there is none. *)
Definition fragment_id_for_anchor s a : option Locator :=
  id ← try_fragment_id_for_anchor s a; id.

Definition offset_for_anchor s a : option N :=
  if is_min a then Some 0
  else if is_max a then Some (RopeOps.len (visible_text s))
  else if debug_assertions && negb ((buffer_id a =? remote_id s) && GlobalOps.observed (sversion s) (timestamp a)) then None
  else
    item ← try_find_fragment s a;
    insertion ← item;
    if bool_decide (istamp insertion = timestamp a) then
      let '(start, _, item) := find_by_id s (fragment_id insertion) in
      fragment ← item;
      if visible fragment then
        n ← usize_sub (anchor_offset a) (split_offset insertion);
        Some (start.2 + n)
      else Some start.2
    else None.

Definition summary_for_anchor {D} `{!TextDimension D} s a : option D :=
  offset ← offset_for_anchor s a; OffsetOps.text_summary_for_range debug_assertions s (0 ..: offset).

(** *** Making anchors *)

Definition anchor_at_offset s offset bias : option Anchor :=
  if bool_decide (bias = BiasLeft) && (offset =? 0) then Some (min_for_buffer (remote_id s))
  else if bool_decide (bias = BiasRight) && ((negb debug_assertions && (OffsetOps.len s <=? offset)) || (offset =? OffsetOps.len s))
  then Some (max_for_buffer (remote_id s))
  else
    b ← OffsetOps.assert_char_boundary debug_assertions debug_assertions (visible_text s) offset;
    offset ← (if negb b then
                match bias with
                | BiasLeft => RopeOps.floor_char_boundary (visible_text s) offset
                | BiasRight => RopeOps.ceil_char_boundary (visible_text s) offset
                end
              else Some offset);
    let '(start, _, item) := find (D := N) None (N.compare offset) bias (fragments s) in
    match item with
    | Some fragment =>
        overshoot ← usize_sub offset start;
        Some (new (stamp fragment) (insertion_offset fragment +u32 as_u32 overshoot) bias (remote_id s))
    | None => if debug_assertions then None else Some (max_for_buffer (remote_id s))
    end.

Definition anchor_at {A} `{!OffsetOps.ToOffset A} s (position : A) bias : option Anchor :=
  offset ← OffsetOps.to_offset debug_assertions position s; anchor_at_offset s offset bias.
Definition anchor_before {A} `{!OffsetOps.ToOffset A} s (position : A) : option Anchor := anchor_at s position BiasLeft.
Definition anchor_after {A} `{!OffsetOps.ToOffset A} s (position : A) : option Anchor := anchor_at s position BiasRight.

Definition anchor_range_inside {A} `{!OffsetOps.ToOffset A} s (position : Range A) : option (Range Anchor) :=
  a ← anchor_after s (start position); b ← anchor_before s (stop position); Some (mkRange a b).
Definition anchor_range_outside {A} `{!OffsetOps.ToOffset A} s (position : Range A) : option (Range Anchor) :=
  a ← anchor_before s (start position); b ← anchor_after s (stop position); Some (mkRange a b).

Definition can_resolve s a : bool :=
  (remote_id s =? buffer_id a) && (is_min a || is_max a || GlobalOps.observed (sversion s) (timestamp a)).

(** *** Comparing *)

Definition cmp self other s : option comparison :=
  fragment_id_comparison ← (if bool_decide (timestamp self = timestamp other) then Some Eq
    else i ← fragment_id_for_anchor s self; j ← fragment_id_for_anchor s other; Some (LocatorOps.cmp i j));
  Some (then_with fragment_id_comparison
    (then_with (anchor_offset self ?= anchor_offset other) (bias_cmp (anchor_bias self) (anchor_bias other)))).

Definition min self other s : option Anchor :=
  c ← cmp self other s; Some (match c with Gt => other | _ => self end).
Definition max self other s : option Anchor :=
  c ← cmp self other s; Some (match c with Lt => other | _ => self end).

#[global] Instance offset_of_anchor : OffsetOps.ToOffset Anchor := λ _ a s, offset_for_anchor s a.

Definition bias_left self s : option Anchor :=
  match anchor_bias self with BiasLeft => Some self | BiasRight => anchor_before s self end.
Definition bias_right self s : option Anchor :=
  match anchor_bias self with BiasLeft => anchor_after s self | BiasRight => Some self end.
Definition bias self (b : Bias) s : option Anchor :=
  match b with BiasLeft => bias_left self s | BiasRight => bias_right self s end.

Definition is_valid self s : option bool :=
  if negb (buffer_id self =? remote_id s) then Some false
  else if is_min self || is_max self then Some true
  else
    id ← try_fragment_id_for_anchor s self;
    match id with
    | None => Some false
    | Some fragment_id =>
        let '(_, _, item) := find_by_id s fragment_id in
        Some (match item with Some fragment => visible fragment | None => false end)
    end.

(** *** Ranges of anchors *)

Definition range_cmp (self other : Range Anchor) s : option comparison :=
  ord ← cmp (start self) (start other) s;
  match ord with Eq => cmp (stop other) (stop self) s | ord => Some ord end.

(** [&&] does not look at the second comparison when the first says no. *)
Definition overlaps (self other : Range Anchor) s : option bool :=
  c ← cmp (start self) (stop other) s;
  if is_lt c then is_lt <$> cmp (start other) (stop self) s else Some false.

Definition contains_anchor (self : Range Anchor) other s : option bool :=
  c ← cmp (start self) other s;
  if is_le c then RopeOps.is_ge <$> cmp (stop self) other s else Some false.
End AnchorOps.

(** *** Many anchors in one pass *)

Section summaries.
Context {D : Type} `{!TextDimension D} {T : Type}.

Record AnchorsState := mkAnchorsState {
  fragment_cursor : Cursor Fragment FragmentSummary (option Locator * N);
  text_cursor : RopeOps.RopeCursor;
  aposition : D }.
Implicit Types (st : AnchorsState).

Definition next_summary s (st : AnchorsState) a : option (AnchorsState * D) :=
  if is_min a then Some (st, td_zero)
  else if is_max a then Some (st, from_text_summary (RopeOps.summary (visible_text s)))
  else
    item ← try_find_fragment s a;
    insertion ← item;
    if bool_decide (istamp insertion = timestamp a) then
      '(_, c) ← CursorOps.seek_forward None (λ d, option_locator_cmp (Some (fragment_id insertion)) d.1) BiasLeft (fragment_cursor st);
      item ← CursorOps.item c;
      fragment ← item;
      fragment_offset ← (if visible fragment then
                           n ← usize_sub (anchor_offset a) (split_offset insertion); Some ((CursorOps.start c).2 + n)
                         else Some (CursorOps.start c).2);
      '(d, text_cursor) ← RopeOps.summary_cursor (text_cursor st) fragment_offset;
      let position := td_add (aposition st) d in
      Some (mkAnchorsState c text_cursor position, position)
    else None.

Fixpoint summaries_loop s (st : AnchorsState) (anchors : list (Anchor * T)) : option (list (D * T)) :=
  match anchors with
  | [] => Some []
  | (anchor, payload) :: anchors =>
      '(st, d) ← next_summary s st anchor;
      rest ← summaries_loop s st anchors;
      Some ((d, payload) :: rest)
  end.

Definition summaries_for_anchors_with_payload s (anchors : list (Anchor * T)) : option (list (D * T)) :=
  c ← RopeOps.cursor (visible_text s) 0;
  summaries_loop s (mkAnchorsState (CursorOps.new None (fragments s)) c td_zero) anchors.
End summaries.

Definition summaries_for_anchors {D} `{!TextDimension D} s (anchors : list Anchor) : option (list D) :=
  (λ l : list (D * ()), fst <$> l) <$> summaries_for_anchors_with_payload (D := D) (T := ()) s ((λ a, (a, ())) <$> anchors).

End AnchorOps.
