(* ===== verification/Selection.v ===== *)
(** * Selections: [crates/text/src/selection.rs]

    A selection has two ends, one of which moves (the head). The operations keep
    the ends in order ([in_order]), all but one ([swap_head_tail]). *)

From S2P Require Import Prelude Clock SumTree Points Text Rope LineEnding Fragment Snapshot Offsets Anchor.

#[local] Unset Default Proof Using.

#[local] Open Scope N_scope.

(** The floating point numbers of the goals are never looked at. *)
Inductive SelectionGoal (f64 f32 : Type) :=
  | GoalNone
  | HorizontalPosition (x : f64)
  | HorizontalRange (start stop : f64)
  | WrappedHorizontalPosition (p : N * f32).
Arguments GoalNone {f64 f32}.

Record Selection (G T : Type) := mkSelection {
  sel_id : N;
  sel_start : T;
  sel_end : T;
  sel_reversed : bool;
  sel_goal : G }.
Arguments mkSelection {G T} _ _ _ _ _.
Arguments sel_id {G T} _.
Arguments sel_start {G T} _.
Arguments sel_end {G T} _.
Arguments sel_reversed {G T} _.
Arguments sel_goal {G T} _.

Module SelectionOps.
Section SelectionOps.
Context {f64 f32 : Type}.
#[local] Abbreviation Goal_ := (SelectionGoal f64 f32).
#[local] Abbreviation Selection := (Selection Goal_).

Section any.
Context {T : Type}.
Implicit Types (self : Selection T) (g : Goal_).

(** The place where the selection stops, and that where it was initiated. *)
Definition head self : T := if sel_reversed self then sel_start self else sel_end self.
Definition tail self : T := if sel_reversed self then sel_end self else sel_start self.

Definition map {S : Type} (f : T → S) self : Selection S :=
  mkSelection (sel_id self) (f (sel_start self)) (f (sel_end self)) (sel_reversed self) (sel_goal self).

Definition collapse_to self (point : T) g : Selection T := mkSelection (sel_id self) point point false g.

Definition swap_head_tail self : Selection T :=
  if sel_reversed self then mkSelection (sel_id self) (sel_start self) (sel_end self) false (sel_goal self)
  else mkSelection (sel_id self) (sel_end self) (sel_start self) (sel_reversed self) (sel_goal self).

Definition range self : Range T := mkRange (sel_start self) (sel_end self).
Definition from_offset (offset : T) : Selection T := mkSelection 0 offset offset false GoalNone.

Context `{!EqDecision T}.
Definition is_empty self : bool := bool_decide (sel_start self = sel_end self).
Definition equals self (offset_range : Range T) : bool :=
  bool_decide (sel_start self = start offset_range) && bool_decide (sel_end self = stop offset_range).
End any.

Section moving.
Context {T : Type} (cmp : T → T → comparison).
Implicit Types (self : Selection T) (g : Goal_) (h t : T).

Definition set_head self h g : Selection T :=
  match cmp h (tail self) with
  | Lt => mkSelection (sel_id self) h (if negb (sel_reversed self) then sel_start self else sel_end self) true g
  | _ => mkSelection (sel_id self) (if sel_reversed self then sel_end self else sel_start self) h false g
  end.

Definition set_tail self t g : Selection T :=
  match cmp t (head self) with
  | Gt => mkSelection (sel_id self) (if negb (sel_reversed self) then sel_end self else sel_start self) t true g
  | _ => mkSelection (sel_id self) t (if sel_reversed self then sel_start self else sel_end self) false g
  end.

Definition set_head_tail self h t g : Selection T :=
  match cmp h t with
  | Lt => mkSelection (sel_id self) h t true g
  | _ => mkSelection (sel_id self) t h false g
  end.

(** *** What they do *)

Context `{!TotalOrd cmp}.

Definition in_order self : Prop := cmp (sel_start self) (sel_end self) ≠ Gt.

(** The head or the tail moves, the other stays, and the ends are in order. *)
Lemma selection_moves self h t g :
  let s1 := set_head self h g in let s2 := set_tail self t g in let s3 := set_head_tail self h t g in
  (head s1 = h ∧ tail s1 = tail self ∧ in_order s1) ∧ (head s2 = head self ∧ tail s2 = t ∧ in_order s2) ∧
  (head s3 = h ∧ tail s3 = t ∧ in_order s3).
Proof.
  cbn zeta. assert (∀ a b, cmp a b ≠ Lt → cmp b a ≠ Gt) as Hge by (intros a b H Hgt; by apply H, (ord_gt_lt cmp)).
  unfold set_head, set_tail, set_head_tail, in_order, head, tail. destruct (sel_reversed self); cbn [negb].
  all: split; [|split]; (destruct (cmp _ _) eqn:E; cbn [sel_start sel_end sel_reversed]);
    (split_and!; [done|done|]); first [by rewrite E|by apply Hge; rewrite E].
Qed.
End moving.

(** It exchanges head and tail. *)
Lemma swap_swaps {T : Type} (self : Selection T) : head (swap_head_tail self) = tail self ∧ tail (swap_head_tail self) = head self.
Proof. unfold head, tail, swap_head_tail. by destruct (sel_reversed self) eqn:E; cbn; rewrite ?E. Qed.
End SelectionOps.

(** A selection that is not reversed loses the order of its ends. *)
Example swap_disorders : ¬ in_order N.compare (swap_head_tail (mkSelection (G := SelectionGoal N N) 0 1 2 false GoalNone)).
Proof. by intros H. Qed.

(** [resolve]: the ends of a selection of anchors. *)
Definition resolve {f64 f32 D} `{!TextDimension D} (debug_assertions : bool) (self : Selection (SelectionGoal f64 f32) Anchor)
    (s : BufferSnapshot) : option (Selection (SelectionGoal f64 f32) D) :=
  a ← AnchorOps.summary_for_anchor debug_assertions s (sel_start self);
  b ← AnchorOps.summary_for_anchor debug_assertions s (sel_end self);
  Some (mkSelection (sel_id self) a b (sel_reversed self) (sel_goal self)).
End SelectionOps.
