(* ===== verification/AnchorSpec.v ===== *)
(** * Where anchors resolve

    An anchor names a character ([anchored]), and resolves to the place before
    or after it in what shows of the list of characters, whatever the fragments
    are that hold it now ([anchor_resolves]). So replicas agree on anchors, and
    edits do not change their order. *)

From stdpp Require Import gmap sets sorting.
From S2P Require Import Prelude Clock Locator SumTree SumCursor CursorSpec KeyedTree TreeMap UndoMap Text Rope RopeText RopeClip LineEnding Fragment Builders Snapshot Cells SnapshotSpec LocalEditSpec ApplyUndo ApplyUndoSpec Offsets Anchor.
Import TreeOps AnchorOps.

#[local] Unset Default Proof Using.
#[local] Arguments Nat.mul : simpl never.
#[local] Open Scope N_scope.
#[local] Existing Instance LamportOps.cmp_total.

(** ** Fragments of insertions *)

Section parts.
Implicit Types (p q : part) (ps qs : list part) (f g : Fragment) (m : str) (c : Cell) (l r : list Cell) (u : Lamport → bool).

(** A byte is in one part only. *)
Lemma unit_part ps p q x : NoDup (units ps) → p ∈ ps → q ∈ ps → x ∈ punits p → x ∈ punits q → p = q.
Proof.
  assert (∀ p ps, p ∈ ps → x ∈ punits p → x ∈ units ps) as Hin.
  { clear. intros p ps Hp Hx. apply list_elem_of_join. exists (punits p). split; [done|by apply list_elem_of_fmap_2]. }
  induction ps as [|p' ps IH]; [by intros _ ?%elem_of_nil|]. rewrite units_cons. intros (_ & Hd & Hn)%NoDup_app Hp Hq Hxp Hxq.
  apply elem_of_cons in Hp as [->|Hp], Hq as [->|Hq]; [done| | |by apply IH].
  - destruct (Hd x Hxp). by apply (Hin q).
  - destruct (Hd x Hxq). by apply (Hin p).
Qed.

(** Parts of an insertion do not overlap. *)
Lemma parts_disjoint ps p q : Forall part_ok ps → NoDup (units ps) → p ∈ ps → q ∈ ps → stamp p.1 = stamp q.1 →
  insertion_offset p.1 < insertion_offset q.1 → insertion_offset p.1 + flen p.1 <= insertion_offset q.1.
Proof.
  intros Hps Hn Hp Hq Est Hlt. apply N.le_ngt. intros Hgt. rewrite Forall_forall in Hps. destruct (Hps p Hp) as [Hlen _ _ _ _ _].
  assert (p = q) as ->; [|lia]. apply (unit_part ps p q (ukey_of q.1)); [done..| |apply first_unit, (Hps q Hq)].
  apply elem_of_units_of. cbn [fst snd ukey_of]. split; [done|]. rewrite <- Hlen. lia.
Qed.

Lemma cells_split ps l c r : cells ps = l ++ c :: r →
  ∃ ps1 f m x w ps2, ps = ps1 ++ (f, m ++ x :: w) :: ps2 ∧ l = cells ps1 ++ text_cells (stamp f) (fragment_marks f) (insertion_offset f) m ∧
    c = mkCell (stamp f) (insertion_offset f + Str.length_utf8 m) x (fragment_marks f).
Proof.
  revert l. induction ps as [|[f y] ps IH]; intros l; [by destruct l|]. rewrite cells_cons. unfold part_cells. cbn [fst snd].
  intros (k & [[Hk Hr]|[-> Hk]])%app_eq_app.
  - destruct k as [|c' k].
    + rewrite app_nil_r in Hk. cbn [app] in Hr. destruct (IH [] (eq_sym Hr)) as (ps1 & f' & m & x & w & ps2 & -> & El & Ec).
      exists ((f, y) :: ps1), f', m, x, w, ps2. rewrite cells_cons. unfold part_cells. cbn [fst snd]. split_and!; [done| |done].
      rewrite <- app_assoc, <- El, app_nil_r. by rewrite Hk.
    + injection Hr as -> Hr. destruct (text_cells_split _ _ _ _ _ _ Hk) as (m & z & -> & -> & Ez). destruct z as [|x w]; [done|].
      cbn [text_cells] in Ez. injection Ez as -> _. by exists [], f, m, x, w, ps.
  - destruct (IH k Hk) as (ps1 & f' & m & x & w & ps2 & -> & -> & Ec). exists ((f, y) :: ps1), f', m, x, w, ps2.
    rewrite cells_cons, <- app_assoc. by split_and!.
Qed.
End parts.

(** ** Finding *)

Section finding.
Context (s : BufferSnapshot) (ps : list part) (Hok : snapshot_ok s ps).
Implicit Types (a : Anchor) (f g : Fragment) (m : str).

(** The anchor is at a character of the fragment. *)
Definition within a f : Prop :=
  stamp f = timestamp a ∧
  match anchor_bias a with
  | BiasRight => insertion_offset f <= anchor_offset a < insertion_offset f + flen f
  | BiasLeft => insertion_offset f < anchor_offset a <= insertion_offset f + flen f
  end.

Lemma insertion_item f m : (f, m) ∈ ps → FragmentOps.insertion_fragment f ∈ tree_items (insertions s).
Proof. intros Hp. apply (so_insertions _ _ Hok). apply list_elem_of_fmap_2. by apply (list_elem_of_fmap_2 fst ps (f, m)). Qed.

Lemma within_passed a f : within a f → passed insertion_key_cmp (anchor_bias a) (anchor_key a) (FragmentOps.insertion_fragment f) = true.
Proof.
  intros [Est Hr]. unfold passed, CursorOps.skips, insertion_key_cmp, anchor_key. cbn [KeyedTree.key insertion_keyed insertion_key kstamp ksplit istamp split_offset FragmentOps.insertion_fragment].
  rewrite Est, (ord_refl LamportOps.cmp). cbn [then_with].
  destruct (anchor_bias a), (N.compare_spec (anchor_offset a) (insertion_offset f)); done || lia.
Qed.

Lemma within_next a f m y : within a f → (f, m) ∈ ps → y ∈ tree_items (insertions s) →
  key_lt insertion_key_cmp (FragmentOps.insertion_fragment f) y →
  passed insertion_key_cmp (anchor_bias a) (anchor_key a) y = false ∧
  (insertion_key_cmp (insertion_key y) (anchor_key a) = Gt ∨
   insertion_key_cmp (insertion_key y) (anchor_key a) = Eq ∧ anchor_bias a = BiasLeft ∧ 0 < anchor_offset a).
Proof.
  intros [Est Hr] Hp Hy Hlt. apply (so_insertions _ _ Hok) in Hy as Hy'. apply list_elem_of_fmap in Hy' as (g & -> & Hg).
  apply list_elem_of_fmap in Hg as ([g' n] & -> & Hq). cbn [fst] in *.
  unfold key_lt, passed, CursorOps.skips, insertion_key_cmp, anchor_key in *.
  cbn [KeyedTree.key insertion_keyed insertion_key kstamp ksplit istamp split_offset FragmentOps.insertion_fragment] in *. rewrite Est in Hlt.
  destruct (LamportOps.cmp (timestamp a) (stamp g')) eqn:E; cbn [then_with] in Hlt; [|clear Hlt|done].
  - apply (ord_eq LamportOps.cmp) in E. rewrite <- E, (ord_refl LamportOps.cmp). cbn [then_with]. apply N.compare_lt_iff in Hlt.
    pose proof (parts_disjoint ps (f, m) (g', n) (so_parts _ _ Hok) (so_units _ _ Hok) Hp Hq ltac:(cbn; congruence) Hlt) as Hd. cbn [fst] in Hd.
    destruct (anchor_bias a), (N.compare_spec (anchor_offset a) (insertion_offset g')), (N.compare_spec (insertion_offset g') (anchor_offset a));
      try lia; split; auto; right; split_and!; [done|done|lia].
  - cbn [then_with]. split; [done|]. left. apply (ord_gt_lt LamportOps.cmp) in E. by rewrite E.
Qed.

Lemma try_find_ok a f m : within a f → (f, m) ∈ ps → try_find_fragment s a = Some (Some (FragmentOps.insertion_fragment f)).
Proof.
  intros Hw Hp. destruct (so_insertions _ _ Hok) as (Ht & Hs & _). pose proof (insertion_item f m Hp) as Hy.
  pose proof (last_ok () _ Ht) as Hlast.
  destruct Ht as [Et|[h Ht]]; [rewrite Et in Hy; by apply elem_of_nil in Hy|].
  apply list_elem_of_split in Hy as (b & k & E). set (y := FragmentOps.insertion_fragment f) in *.
  assert (tree_items (insertions s) = (b ++ [y]) ++ k) as E' by by rewrite <- app_assoc.
  assert (ksorted insertion_key_cmp ((b ++ [y]) ++ k)) as Hs' by by rewrite <- E'.
  assert (∀ x, x ∈ k → key_lt insertion_key_cmp y x) as Hlt.
  { apply ksorted_app in Hs' as (_ & _ & H). intros x Hx. apply H; [set_solver|done]. }
  assert (∀ x, x ∈ k → x ∈ tree_items (insertions s)) as Hin by (intros x Hx; rewrite E; set_solver).
  destruct (find_with_prev_split () (insertion_key_cmp (anchor_key a)) (anchor_bias a) h (insertions s) (b ++ [y]) k) as (p & e & Ef).
  - exact Ht.
  - exact E'.
  - by apply (passed_monotone insertion_key_cmp () (anchor_bias a) (anchor_key a) []).
  - intros _. rewrite (pos_snoc insertion_key_cmp ()) by by apply ksorted_app in Hs' as [? _].
    apply negb_true_iff. rewrite <- skips_inside. by apply within_passed.
  - destruct k as [|x k]; [done|]. rewrite (pos_snoc insertion_key_cmp ()).
    + apply negb_false_iff. rewrite <- skips_inside. apply (within_next a f m x Hw Hp); [apply Hin; by left|apply Hlt; by left].
    + rewrite (cons_middle x (b ++ [y]) k), app_assoc in Hs'. by apply ksorted_app in Hs' as [? _].
  - unfold try_find_fragment. rewrite Ef. cbn [mbind option_bind]. destruct k as [|x k].
    + rewrite Hlast, E. by rewrite last_snoc.
    + destruct (within_next a f m x Hw Hp) as [_ [Hg|(He & Hb & H0)]]; [apply Hin; by left|apply Hlt; by left| |].
      * rewrite Hg, bool_decide_eq_true_2 by done. cbn [orb]. by rewrite last_snoc.
      * rewrite He, Hb, (bool_decide_eq_false_2 (Eq = Gt)), !bool_decide_eq_true_2, (proj2 (N.ltb_lt _ _) H0) by done. cbn [orb andb]. by rewrite last_snoc.
Qed.

(** The fragment with an identifier. *)
Lemma find_by_id_ok ps1 f m ps2 : ps = ps1 ++ (f, m) :: ps2 →
  ∃ i e, find_by_id s (fid f) = ((i, Str.length_utf8 (shown ps1)), e, Some f).
Proof.
  intros E. pose proof (so_items _ _ Hok) as Hi. pose proof (so_ids _ _ Hok) as Hids. pose proof (so_parts _ _ Hok) as Hparts.
  rewrite E, fmap_app, fmap_cons in Hi, Hids. cbn [fst] in Hi, Hids.
  destruct (so_fragments _ _ Hok) as [Et|[h Ht]]; [rewrite Et in Hi; cbn in Hi; by destruct ps1|].
  unfold find_by_id. assert (∀ g, g ∈ ps1.*1 → LocatorOps.cmp (fid g) (fid f) = Lt) as Hlt.
  { intros g Hg. apply (StronglySorted_app_1_elem_of _ _ _ _ _ Hids Hg). by left. }
  rewrite (find_split (D := option Locator * N) None _ BiasLeft h (fragments s) ps1.*1 (f :: ps2.*1) Ht Hi) with (x := f) (r := ps2.*1).
  - rewrite <- (pos_visible ps1) by (rewrite E in Hparts; by apply Forall_app in Hparts as [? _]).
    change (dzero FragmentSummary None) with (@None Locator, 0). destruct (posn _ _ ps1.*1) as [i n]. by eexists _, _.
  - rewrite Hi. by apply (id_monotone (fid f) []).
  - intros Hne. apply negb_true_iff. rewrite <- skips_inside, id_skips. destruct ps1.*1 as [|g l _] using rev_ind; [done|].
    rewrite last_id, bool_decide_eq_true. apply Hlt. set_solver.
  - done.
  - apply negb_false_iff. rewrite <- skips_inside, id_skips, last_id. by rewrite (ord_refl LocatorOps.cmp).
Qed.
End finding.

(** ** What an anchor names *)

(** The anchor is before or after the character. *)
Definition anchored (a : Anchor) (c : Cell) : Prop :=
  cstamp c = timestamp a ∧
  anchor_offset a = match anchor_bias a with BiasRight => coffset c | BiasLeft => coffset c + Str.len_utf8 (cchar c) end.

(** The place of the anchor in what shows of the cells. *)
Definition anchor_place (u : Lamport → bool) (a : Anchor) (l : list Cell) (c : Cell) : N :=
  Str.length_utf8 (cell_text u l) + match anchor_bias a with BiasRight => 0 | BiasLeft => Str.length_utf8 (cell_text u [c]) end.

Section resolving.
Context (s : BufferSnapshot) (ps : list part) (Hok : snapshot_ok s ps).
Implicit Types (a : Anchor) (f g : Fragment) (m w : str) (l r : list Cell) (c : Cell).

#[local] Abbreviation u := (undone_in (undo_map s)).

Lemma anchored_within a ps1 f m x w ps2 : ps = ps1 ++ (f, m ++ x :: w) :: ps2 →
  anchored a (mkCell (stamp f) (insertion_offset f + Str.length_utf8 m) x (fragment_marks f)) → within a f.
Proof.
  intros E [Et Eo]. cbn [cstamp coffset cchar] in *. split; [done|].
  pose proof (so_parts _ _ Hok) as Hp. rewrite E in Hp. apply Forall_elt in Hp as [Hlen _ _ _ _ _]. cbn [fst snd] in Hlen.
  rewrite length_utf8_app in Hlen. cbn [Str.length_utf8] in Hlen. pose proof (len_utf8_bounds x).
  destruct (anchor_bias a); lia.
Qed.

Lemma anchored_not_min a l c r : cells ps = l ++ c :: r → anchored a c → is_min a = false.
Proof.
  intros E [Et _]. unfold is_min. rewrite bool_decide_eq_false_2; [done|]. rewrite <- Et. intros Em.
  destruct (elem_of_cells ps c) as (f & Hf & Es & _); [rewrite E; set_solver|].
  destruct (so_origins _ _ Hok) as [_ Ho]. rewrite Forall_forall in Ho. destruct (Ho f Hf). by rewrite <- Es.
Qed.

Lemma anchored_not_max a l c r : cells ps = l ++ c :: r → anchored a c → is_max a = false.
Proof.
  intros E [Et Eo]. unfold is_max. destruct (anchor_bias a) eqn:Eb; [by rewrite andb_false_r|].
  destruct (cells_split ps l c r E) as (ps1 & f & m & x & w & ps2 & Eps & _ & ->). cbn [coffset] in Eo.
  pose proof (so_parts _ _ Hok) as Hp. rewrite Eps in Hp. apply Forall_elt in Hp as [Hlen _ Hfit _ _ _]. cbn [fst snd] in *.
  rewrite length_utf8_app in Hlen. cbn [Str.length_utf8] in Hlen. pose proof (len_utf8_bounds x).
  destruct (N.eqb_spec (anchor_offset a) u32_max) as [Em|]; [|by rewrite andb_false_r].
  unfold u32_max in Em. lia.
Qed.

Lemma cells_shown ps1 ps2 : ps = ps1 ++ ps2 → cell_text u (cells ps1) = shown ps1.
Proof.
  intros ->. unfold shown. rewrite <- view_cells. apply view_shown. pose proof (so_shown _ _ Hok) as H.
  rewrite fmap_app in H. by apply Forall_app in H as [? _].
Qed.

(** From the place of the fragment to that of the anchor. *)
Lemma fragment_place a ps1 f m x w ps2 : ps = ps1 ++ (f, m ++ x :: w) :: ps2 →
  let l := cells ps1 ++ text_cells (stamp f) (fragment_marks f) (insertion_offset f) m in
  let c := mkCell (stamp f) (insertion_offset f + Str.length_utf8 m) x (fragment_marks f) in
  anchored a c → (if visible f then n ← usize_sub (anchor_offset a) (insertion_offset f); Some (Str.length_utf8 (shown ps1) + n)
                  else Some (Str.length_utf8 (shown ps1))) = Some (anchor_place u a l c).
Proof.
  intros Eps l c [_ Eo]. unfold anchor_place, l, c. rewrite cell_text_app, (cells_shown ps1 _ Eps), length_utf8_app, text_cells_text.
  assert (cell_text u [mkCell (stamp f) (insertion_offset f + Str.length_utf8 m) x (fragment_marks f)] =
    if cell_shows u (mkCell (stamp f) 0 0 (fragment_marks f)) then [x] else []) as -> by apply (text_cells_text _ _ _ _ [x]).
  assert (cell_shows u (mkCell (stamp f) 0 0 (fragment_marks f)) = visible f) as ->.
  { pose proof (so_shown _ _ Hok) as H. rewrite Eps, fmap_app, fmap_cons in H. apply Forall_elt in H. cbn [fst] in H. rewrite H.
    unfold cell_shows, shows. cbn [cstamp cmarks]. by rewrite marks_forall. }
  cbn [coffset cchar c] in Eo. destruct (visible f).
  - rewrite usize_sub_le by (rewrite Eo; destruct (anchor_bias a); lia). cbn [mbind option_bind]. f_equal. rewrite Eo.
    destruct (anchor_bias a); cbn [Str.length_utf8]; lia.
  - f_equal. destruct (anchor_bias a); cbn [Str.length_utf8]; lia.
Qed.

(** An anchor resolves to its place in what shows. *)
Lemma anchor_resolves debug_assertions a l c r : cells ps = l ++ c :: r → anchored a c →
  (debug_assertions = true → buffer_id a = remote_id s ∧ GlobalOps.observed (sversion s) (timestamp a) = true) →
  offset_for_anchor debug_assertions s a = Some (anchor_place u a l c).
Proof.
  intros E Ha Hd. unfold offset_for_anchor. rewrite (anchored_not_min a l c r), (anchored_not_max a l c r) by done.
  assert (debug_assertions && negb ((buffer_id a =? remote_id s) && GlobalOps.observed (sversion s) (timestamp a)) = false) as ->.
  { destruct debug_assertions; [|done]. destruct (Hd eq_refl) as [-> ->]. by rewrite N.eqb_refl. }
  destruct (cells_split ps l c r E) as (ps1 & f & m & x & w & ps2 & Eps & -> & ->).
  assert (within a f) as Hw by by eapply anchored_within.
  rewrite (try_find_ok s ps Hok a f (m ++ x :: w) Hw) by (rewrite Eps; set_solver). cbn [mbind option_bind].
  rewrite bool_decide_eq_true_2 by (by destruct Hw). destruct (find_by_id_ok s ps Hok ps1 f (m ++ x :: w) ps2 Eps) as (i & e & Ef).
  cbn [fragment_id split_offset FragmentOps.insertion_fragment]. rewrite Ef. cbn [mbind option_bind snd].
  by apply (fragment_place a ps1 f m x w ps2).
Qed.
End resolving.

(** ** Making anchors *)

(** The anchor is at a character that shows, or at an end of the text. *)
Inductive placed (u : Lamport → bool) (buffer : N) (cs : list Cell) : Anchor → N → Prop :=
  | placed_min : placed u buffer cs (min_for_buffer buffer) 0
  | placed_max : placed u buffer cs (max_for_buffer buffer) (Str.length_utf8 (cell_text u cs))
  | placed_at a l c r : cs = l ++ c :: r → anchored a c → buffer_id a = buffer → cell_shows u c = true →
      placed u buffer cs a (anchor_place u a l c).

(** What an offset stands for, between characters or not. *)
Definition clip_to (t : str) (b : Bias) (i : N) : N :=
  if Str.is_char_boundary t i then i
  else match b with BiasLeft => Str.floor_char_boundary t i | BiasRight => Str.ceil_char_boundary t i end.

Lemma clip_boundary t b i : Str.is_char_boundary t (clip_to t b i) = true.
Proof. unfold clip_to. destruct (Str.is_char_boundary t i) eqn:E; [done|]. destruct b; [apply floor_boundary|apply ceil_boundary]. Qed.

Section making.
Context (s : BufferSnapshot) (ps : list part) (Hok : snapshot_ok s ps).
Implicit Types (a : Anchor) (f g : Fragment) (m w x y : str) (l r : list Cell) (b : Bias) (debug_assertions : bool).

#[local] Abbreviation u := (undone_in (undo_map s)).
#[local] Abbreviation offset_of l := (posn (D := N) None (dzero FragmentSummary None) l).

Lemma shown_split qs x c y : shown qs = x ++ c :: y →
  ∃ ps1 f m w ps2, qs = ps1 ++ (f, m ++ c :: w) :: ps2 ∧ visible f = true ∧ x = shown ps1 ++ m.
Proof.
  revert x. induction qs as [|[f m] qs IH]; intros x; [by destruct x|]. rewrite shown_cons.
  destruct (visible f) eqn:Ev.
  2:{ intros H. destruct (IH x H) as (ps1 & f' & m' & w & ps2 & -> & Hv & ->). exists ((f, m) :: ps1), f', m', w, ps2. by rewrite shown_cons, Ev. }
  intros (k & [[Hk Hr]|[-> Hk]])%app_eq_app.
  - destruct k as [|c' k].
    + rewrite app_nil_r in Hk. subst m. cbn [app] in Hr. destruct (IH [] (eq_sym Hr)) as (ps1 & f' & m' & w & ps2 & -> & Hv & Em).
      exists ((f, x) :: ps1), f', m', w, ps2. rewrite shown_cons, Ev, <- app_assoc, <- Em. by rewrite app_nil_r.
    + injection Hr as -> Hr. exists [], f, x, k, qs. by rewrite Hk.
  - destruct (IH k Hk) as (ps1 & f' & m' & w & ps2 & -> & Hv & ->). exists ((f, m) :: ps1), f', m', w, ps2.
    by rewrite shown_cons, Ev, <- app_assoc.
Qed.

Lemma pos_offset qs : Forall part_ok qs → offset_of qs.*1 = Str.length_utf8 (shown qs).
Proof.
  intros Hq. rewrite <- (parts_visible qs Hq). clear Hq. induction qs as [|p qs IH] using rev_ind; [done|].
  rewrite fmap_app. change [p].*1 with [p.1]. rewrite posn_snoc, text_of_app. change (dadd None ?d ?t) with (d + tvisible (ftext t)).
  rewrite IH. cbn. lia.
Qed.

Lemma pos_offset_mono (fs gs : list Fragment) : offset_of fs <= offset_of (fs ++ gs).
Proof.
  induction gs as [|g gs IH] using rev_ind; [rewrite app_nil_r; done|]. rewrite app_assoc, posn_snoc.
  change (dadd None ?d ?t) with (d + tvisible (ftext t)). lia.
Qed.

Lemma fragment_offset_monotone i b (fs : list Fragment) : monotone (D := N) (S := FragmentSummary) None (N.compare i) b 0 fs.
Proof.
  intros fs1 fs2 _ _. pose proof (pos_offset_mono fs1 fs2) as H. change (dzero FragmentSummary None) with 0 in H.
  unfold target_in_child. destruct b, (N.compare_spec i (posn (S := FragmentSummary) None 0 fs1)), (N.compare_spec i (posn (S := FragmentSummary) None 0 (fs1 ++ fs2))); done || lia.
Qed.

(** The fragment that has the offset. *)
Lemma find_offset i b ps1 f m ps2 : ps = ps1 ++ (f, m) :: ps2 → visible f = true →
  match b with
  | BiasLeft => Str.length_utf8 (shown ps1) < i <= Str.length_utf8 (shown ps1) + Str.length_utf8 m
  | BiasRight => Str.length_utf8 (shown ps1) <= i < Str.length_utf8 (shown ps1) + Str.length_utf8 m
  end → ∃ e, find (D := N) None (N.compare i) b (fragments s) = (Str.length_utf8 (shown ps1), e, Some f).
Proof.
  intros E Hv Hi. pose proof (so_items _ _ Hok) as Hit. pose proof (so_parts _ _ Hok) as Hp. rewrite E in Hit, Hp.
  rewrite fmap_app, fmap_cons in Hit. cbn [fst] in Hit. rewrite cons_middle, app_assoc in Hp. apply Forall_app in Hp as [Hp _].
  pose proof (pos_offset _ Hp) as Hend. apply Forall_app in Hp as [Hp _]. pose proof (pos_offset _ Hp) as Hstart.
  rewrite fmap_app, shown_app, shown_cons, Hv, app_nil_r, length_utf8_app in Hend. change [(f, m)].*1 with [f] in Hend.
  destruct (so_fragments _ _ Hok) as [Et|[h Ht]]; [rewrite Et in Hit; by destruct ps1|].
  exists (offset_of (ps1.*1 ++ [f])). rewrite <- Hstart.
  apply (find_split (D := N) None (N.compare i) b h (fragments s) ps1.*1 (f :: ps2.*1) Ht Hit) with (r := ps2.*1).
  - apply fragment_offset_monotone.
  - intros _. rewrite Hstart. unfold target_in_child. destruct b, (N.compare_spec i (Str.length_utf8 (shown ps1))); done || lia.
  - done.
  - rewrite Hend. unfold target_in_child.
    destruct b, (N.compare_spec i (Str.length_utf8 (shown ps1) + Str.length_utf8 m)); done || lia.
Qed.
(** There is none at the end. *)
Lemma find_past i : Str.length_utf8 (shown ps) <= i →
  ∃ d e, find (D := N) None (N.compare i) BiasRight (fragments s) = (d, e, None).
Proof.
  intros Hi. rewrite (find_ok (D := N) None (N.compare i) BiasRight (fragments s) (so_fragments _ _ Hok)) by apply fragment_offset_monotone.
  unfold find_in_list. rewrite scan_none; [by eexists _, _|]. intros fs _ [gs E].
  pose proof (pos_offset_mono fs gs) as H. rewrite <- E, (so_items _ _ Hok), (pos_offset ps (so_parts _ _ Hok)) in H.
  unfold target_in_child. destruct (N.compare_spec i (offset_of fs)); done || lia.
Qed.

(** The anchor that is made in a fragment. *)
Lemma new_placed b ps1 f m c w ps2 : ps = ps1 ++ (f, m ++ c :: w) :: ps2 → visible f = true →
  let k := Str.length_utf8 m + match b with BiasLeft => Str.len_utf8 c | BiasRight => 0 end in
  placed u (remote_id s) (cells ps) (new (stamp f) (insertion_offset f +u32 as_u32 k) b (remote_id s)) (Str.length_utf8 (shown ps1) + k).
Proof.
  intros E Hv k. pose proof (so_parts _ _ Hok) as Hp. rewrite E in Hp. apply Forall_elt in Hp as [Hlen _ Hfit _ _ _]. cbn [fst snd] in *.
  rewrite length_utf8_app in Hlen. cbn [Str.length_utf8] in Hlen. rewrite u32_add_fits by (subst k; destruct b; lia).
  set (cell := mkCell (stamp f) (insertion_offset f + Str.length_utf8 m) c (fragment_marks f)).
  set (l := cells ps1 ++ text_cells (stamp f) (fragment_marks f) (insertion_offset f) m).
  assert (cell_shows u (mkCell (stamp f) 0 0 (fragment_marks f)) = true) as Hs.
  { pose proof (so_shown _ _ Hok) as H. rewrite E, fmap_app, fmap_cons in H. apply Forall_elt in H. cbn [fst] in H. rewrite Hv in H. rewrite H.
    unfold cell_shows, shows. cbn [cstamp cmarks]. by rewrite marks_forall. }
  set (a := new _ _ _ _). assert (anchor_place u a l cell = Str.length_utf8 (shown ps1) + k) as <-.
  { unfold anchor_place, l. rewrite cell_text_app, (cells_shown s ps Hok ps1 _ E), length_utf8_app, text_cells_text, Hs.
    pose proof (text_cells_text u (stamp f) (fragment_marks f) (insertion_offset f + Str.length_utf8 m) [c]) as Ec. rewrite Hs in Ec. cbn [text_cells] in Ec. fold cell in Ec. rewrite Ec.
    cbn [anchor_bias a new]. subst k. destruct b; cbn [Str.length_utf8]; lia. }
  apply (placed_at _ _ _ _ l cell (text_cells (stamp f) (fragment_marks f) (insertion_offset f + Str.length_utf8 m + Str.len_utf8 c) w ++ cells ps2)).
  - rewrite E, cells_app, cells_cons. unfold part_cells. cbn [fst snd]. rewrite text_cells_app. cbn [text_cells]. unfold l. by rewrite <- !app_assoc.
  - split; [unfold timestamp; cbn; by destruct (stamp f)|]. cbn [anchor_offset anchor_bias a new coffset cchar cell]. subst k. destruct b; lia.
  - done.
  - exact Hs.
Qed.

Lemma boundary_at_char b i : Str.is_char_boundary (shown ps) i = true →
  match b with BiasLeft => 0 < i | BiasRight => i < Str.length_utf8 (shown ps) end →
  ∃ ps1 f m c w ps2, ps = ps1 ++ (f, m ++ c :: w) :: ps2 ∧ visible f = true ∧
    i = Str.length_utf8 (shown ps1) + (Str.length_utf8 m + match b with BiasLeft => Str.len_utf8 c | BiasRight => 0 end).
Proof.
  intros (x & y & E & <- & _)%boundary_cut Hi. rewrite E, length_utf8_app in Hi. destruct b.
  - destruct x as [|c x _] using rev_ind; [cbn in Hi; lia|]. rewrite <- app_assoc in E.
    destruct (shown_split ps x c y E) as (ps1 & f & m & w & ps2 & Eps & Hv & ->). exists ps1, f, m, c, w, ps2. split_and!; [done..|].
    rewrite !length_utf8_app. cbn [Str.length_utf8]. lia.
  - destruct y as [|c y]; [cbn in Hi; lia|].
    destruct (shown_split ps x c y E) as (ps1 & f & m & w & ps2 & Eps & Hv & ->). exists ps1, f, m, c, w, ps2. split_and!; [done..|].
    rewrite !length_utf8_app. lia.
Qed.

(** Where the anchor is made that is not at an end. *)
Lemma anchor_in debug_assertions b i : Str.is_char_boundary (shown ps) i = true →
  match b with BiasLeft => 0 < i | BiasRight => i < Str.length_utf8 (shown ps) end →
  ∃ a, (let '(start, _, item) := find (D := N) None (N.compare i) b (fragments s) in
        match item with
        | Some fragment => overshoot ← usize_sub i start;
            Some (new (stamp fragment) (insertion_offset fragment +u32 as_u32 overshoot) b (remote_id s))
        | None => if debug_assertions then None else Some (max_for_buffer (remote_id s))
        end) = Some a ∧ anchor_bias a = b ∧ placed u (remote_id s) (cells ps) a i.
Proof.
  intros Hb Hi. destruct (boundary_at_char b i Hb Hi) as (ps1 & f & m & c & w & ps2 & E & Hv & Ei).
  pose proof (new_placed b ps1 f m c w ps2 E Hv) as Hp. cbn zeta in Hp. rewrite <- Ei in Hp. pose proof (len_utf8_bounds c).
  destruct (find_offset i b ps1 f (m ++ c :: w) ps2 E Hv) as [e ->].
  { rewrite length_utf8_app. cbn [Str.length_utf8]. destruct b; lia. }
  rewrite usize_sub_le by lia. cbn [mbind option_bind]. eexists. split_and!; [done|done|].
  by replace (i - Str.length_utf8 (shown ps1)) with (Str.length_utf8 m + match b with BiasLeft => Str.len_utf8 c | BiasRight => 0 end) by lia.
Qed.

Lemma anchor_at_placed debug_assertions i b :
  Str.is_char_boundary (shown ps) i = true ∨ debug_assertions = false ∧ (b = BiasLeft → 0 < clip_to (shown ps) b i) →
  ∃ a, anchor_at_offset debug_assertions s i b = Some a ∧ anchor_bias a = b ∧ placed u (remote_id s) (cells ps) a (clip_to (shown ps) b i).
Proof.
  intros Hi. destruct (so_visible _ _ Hok) as [Hrope Htext]. change (side true (strips ps)) with (shown ps) in Htext.
  assert (OffsetOps.len s = Str.length_utf8 (shown ps)) as Hlen by (unfold OffsetOps.len; rewrite rope_len by done; by rewrite Htext).
  assert (cell_text u (cells ps) = shown ps) as Hcells by (by apply (cells_shown s ps Hok ps []); rewrite app_nil_r).
  assert (∀ B (K : N → option B), (b' ← OffsetOps.assert_char_boundary debug_assertions debug_assertions (visible_text s) i;
      offset ← (if negb b' then match b with BiasLeft => RopeOps.floor_char_boundary (visible_text s) i
        | BiasRight => RopeOps.ceil_char_boundary (visible_text s) i end else Some i); K offset) = K (clip_to (shown ps) b i)) as Hclip.
  { intros B K. rewrite assert_boundary_ok, Htext by done. unfold clip_to. destruct (Str.is_char_boundary (shown ps) i); [done|].
    destruct Hi as [?|[-> _]]; [done|]. cbn [mbind option_bind negb]. destruct b; [by rewrite floor_in_rope, Htext|by rewrite ceil_in_rope, Htext]. }
  unfold anchor_at_offset. rewrite Hlen, Hclip. clear Hclip. pose proof (clip_boundary (shown ps) b i) as Hc.
  destruct b; cbn [andb].
  - rewrite (bool_decide_eq_true_2 (BiasLeft = BiasLeft)), (bool_decide_eq_false_2 (BiasLeft = BiasRight)) by done. cbn [andb].
    destruct (N.eqb_spec i 0) as [->|Hi0].
    { exists (min_for_buffer (remote_id s)). split_and!; [done|done|]. unfold clip_to. rewrite boundary_0. constructor. }
    apply anchor_in; [done|]. destruct Hi as [Hi|[_ Hi]]; [unfold clip_to; rewrite Hi; lia|by apply Hi].
  - rewrite (bool_decide_eq_true_2 (BiasRight = BiasRight)), (bool_decide_eq_false_2 (BiasRight = BiasLeft)) by done. cbn [andb].
    destruct (negb debug_assertions && _ || _) eqn:Eend.
    + assert (clip_to (shown ps) BiasRight i = Str.length_utf8 (shown ps)) as Hend.
      { destruct (N.eqb_spec i (Str.length_utf8 (shown ps))) as [->|Hne]; [unfold clip_to; by rewrite boundary_len|].
        rewrite orb_false_r, andb_true_iff, N.leb_le in Eend. destruct Eend as [_ Hle]. unfold clip_to.
        destruct (Str.is_char_boundary (shown ps) i) eqn:E; [apply boundary_le in E; lia|].
        apply ceil_past. lia. }
      exists (max_for_buffer (remote_id s)). split_and!; [done|done|]. rewrite Hend, <- Hcells. constructor.
    + apply orb_false_iff in Eend as [Eend Hne]. apply N.eqb_neq in Hne. pose proof (boundary_le _ _ Hc).
      destruct (N.eq_dec (clip_to (shown ps) BiasRight i) (Str.length_utf8 (shown ps))) as [Hend|]; [|apply anchor_in; [done|lia]].
      assert (debug_assertions = false) as ->.
      { destruct Hi as [Hi|[? _]]; [|done]. unfold clip_to in Hend. by rewrite Hi in Hend. }
      rewrite Hend. destruct (find_past (Str.length_utf8 (shown ps))) as (d & e & ->); [done|].
      exists (max_for_buffer (remote_id s)). split_and!; [done|done|]. rewrite <- Hcells. constructor.
Qed.
End making.

(** ** Anchors that have been made *)

Section placed.
Context (s : BufferSnapshot) (ps : list part) (Hok : snapshot_ok s ps).
Implicit Types (a : Anchor) (c : Cell) (l r : list Cell) (debug_assertions : bool).

#[local] Abbreviation u := (undone_in (undo_map s)).

(** An anchor is valid while its character shows. *)
Lemma cell_valid debug_assertions a l c r : cells ps = l ++ c :: r → anchored a c → buffer_id a = remote_id s →
  is_valid debug_assertions a s = Some (cell_shows u c).
Proof.
  intros E Ha Hb. unfold is_valid, try_fragment_id_for_anchor. rewrite Hb, N.eqb_refl, (anchored_not_min s ps Hok a l c r), (anchored_not_max s ps Hok a l c r) by done.
  cbn [negb orb]. destruct (cells_split ps l c r E) as (ps1 & f & m & x & w & ps2 & Eps & _ & Ec).
  assert (within a f) as Hw by (eapply (anchored_within s ps Hok); [exact Eps|by rewrite <- Ec]).
  rewrite (try_find_ok s ps Hok a f (m ++ x :: w) Hw) by (rewrite Eps; set_solver). cbn [mbind option_bind istamp fragment_id FragmentOps.insertion_fragment].
  rewrite bool_decide_eq_true_2 by (by destruct Hw). rewrite orb_true_r. destruct (find_by_id_ok s ps Hok ps1 f (m ++ x :: w) ps2 Eps) as (i & e & ->).
  f_equal. pose proof (so_shown _ _ Hok) as H. rewrite Eps, fmap_app, fmap_cons in H. apply Forall_elt in H. cbn [fst] in H. rewrite H, Ec.
  unfold cell_shows, shows. cbn [cstamp cmarks]. by rewrite marks_forall.
Qed.

Context (Hseen : ∀ f, f ∈ ps.*1 → GlobalOps.observed (sversion s) (stamp f) = true).

Lemma cell_observed a l c r : cells ps = l ++ c :: r → anchored a c → GlobalOps.observed (sversion s) (timestamp a) = true.
Proof. intros E [<- _]. destruct (elem_of_cells ps c) as (f & Hf & -> & _); [rewrite E; set_solver|]. by apply Hseen. Qed.

Lemma placed_resolves debug_assertions a i : placed u (remote_id s) (cells ps) a i →
  offset_for_anchor debug_assertions s a = Some i ∧ can_resolve s a = true ∧ is_valid debug_assertions a s = Some true.
Proof.
  destruct (so_visible _ _ Hok) as [Hrope Ht]. intros [| |a' l c r E Ha Hb Hs].
  - unfold can_resolve, is_valid. cbn [buffer_id min_for_buffer]. by rewrite N.eqb_refl.
  - unfold can_resolve, is_valid. cbn [buffer_id max_for_buffer]. rewrite N.eqb_refl. split_and!; [|done|done].
    unfold offset_for_anchor. cbn [is_min is_max]. rewrite rope_len, Ht, (cells_shown s ps Hok ps []) by (done || by rewrite app_nil_r). done.
  - split_and!.
    + apply (anchor_resolves s ps Hok debug_assertions a' l c r E Ha). intros _. split; [done|by apply (cell_observed a' l c r)].
    + unfold can_resolve. rewrite Hb, N.eqb_refl, (cell_observed a' l c r E Ha). by rewrite orb_true_r.
    + by rewrite (cell_valid debug_assertions a' l c r E Ha Hb), Hs.
Qed.
End placed.
