(* ===== verification/Buffer.v ===== *)
(** * Buffers: [Buffer] of [crates/text/src/text.rs]

    A buffer is a snapshot with its history, its clock and the subscriptions to
    its edits, and the operations that wait. Points in time are arguments. What the operating system, the
    unstable sorts, the hash maps and the build decide is in a [Platform], with
    what the code relies on in [PlatformLaws]. The tasks that wait for edits are
    not part of the state. *)

From stdpp Require Import gmap sets sorting.
From S2P Require Import Prelude Clock Locator Patch SumTree KeyedTree TreeMap UndoMap Text Rope LineEnding Fragment Builders Snapshot OperationQueue History LocalEdit RemoteEdit ApplyUndo Offsets.
Import TreeOps.

#[local] Unset Default Proof Using.
#[local] Arguments Nat.mul : simpl never.
#[local] Open Scope N_scope.

(** ** The platform *)

#[export] Instance operation_timestamped : Timestamped Operation := op_timestamp.

(** [count_entries] is the order in which a [HashMap] is iterated over. *)
Record Platform := mkPlatform {
  MAX_INSERTION_LEN : N;
  debug_assertions : bool;
  replace_all : str → str;
  sort_insertions : list (KeyedTree.Edit InsertionFragment InsertionFragmentKey) → list (KeyedTree.Edit InsertionFragment InsertionFragmentKey);
  sort_slices : list (KeyedTree.Edit (MapEntry InsertionSlice ()) (MapKey InsertionSlice)) →
    list (KeyedTree.Edit (MapEntry InsertionSlice ()) (MapKey InsertionSlice));
  sort_slices_by_key : list InsertionSlice → list InsertionSlice;
  sort_ids : list Locator → list Locator;
  sort_undos : list (KeyedTree.Edit UndoMapEntry UndoMapKey) → list (KeyedTree.Edit UndoMapEntry UndoMapKey);
  sort_ops : list Operation → list Operation;
  sort_queue : list (KeyedTree.Edit Operation Lamport) → list (KeyedTree.Edit Operation Lamport);
  count_entries : gmap Lamport N → list (Lamport * N) }.

Class PlatformLaws (P : Platform) : Prop := {
  platform_max : 4 <= MAX_INSERTION_LEN P < u32_modulus;
  platform_replace :: LineSeparators (replace_all P);
  platform_insertions :: Sorting (edit_le insertion_key_cmp) (sort_insertions P);
  platform_slices :: Sorting (edit_le (map_key_cmp insertion_slice_cmp)) (sort_slices P);
  platform_slices_by_key :: Sorting (λ a b, slice_order a b ≠ Gt) (sort_slices_by_key P);
  platform_ids :: Sorting (λ a b, LocatorOps.cmp a b ≠ Gt) (sort_ids P);
  platform_undos :: Sorting (edit_le undo_key_cmp) (sort_undos P);
  platform_ops :: Sorting (λ a b, LamportOps.cmp (op_timestamp a) (op_timestamp b) ≠ Gt) (sort_ops P);
  platform_queue :: Sorting (edit_le LamportOps.cmp) (sort_queue P);
  platform_entries m : count_entries P m ≡ₚ map_to_list m }.

(** ** Data *)

Record Buffer := mkBuffer {
  snapshot : BufferSnapshot;
  history : History;
  deferred_ops : Node Operation OperationSummary;
  deferred_replicas : gset ReplicaId;
  lamport_clock : Lamport;
  subscriptions : Topics }.

Record EditedBufferSnapshot := mkEditedBufferSnapshot {
  base_version : Global;
  edited_snapshot : BufferSnapshot;
  did_edit : bool }.

Definition set_version (s : BufferSnapshot) (v : Global) : BufferSnapshot :=
  mkSnapshot (visible_text s) (deleted_text s) (fragments s) (insertions s) (insertion_slices s) (undo_map s) v
    (remote_id s) (sreplica_id s) (line_ending s).

Module BufferOps.

(** *** Creation *)

Section creation.
Variable MAX_INSERTION_LEN : N.

(** The loop that cuts the base text into fragments. *)
Fixpoint base_loop (fuel : nat) (visible_text : Rope) (insertion_timestamp : Lamport) (insertion_offset text_offset : N)
    (prev_locator : Locator) (fragments : Node Fragment FragmentSummary)
    (insertions : Node InsertionFragment InsertionFragmentKey) :
    option (Node Fragment FragmentSummary * Node InsertionFragment InsertionFragmentKey) :=
  match fuel with
  | O => None
  | Datatypes.S fuel =>
      if text_offset <? RopeOps.len visible_text then
        let target_end := N.min (RopeOps.len visible_text) (text_offset + MAX_INSERTION_LEN) in
        chunk_end ← (if target_end =? RopeOps.len visible_text then Some target_end
                     else RopeOps.floor_char_boundary visible_text target_end);
        chunk_len ← usize_sub chunk_end text_offset;
        let fragment_id := LocatorOps.between prev_locator LocatorOps.max in
        let fragment := mkFragment fragment_id insertion_timestamp insertion_offset (as_u32 chunk_len) true [] GlobalOps.new in
        insertions ← TreeOps.push () insertions (FragmentOps.insertion_fragment fragment);
        fragments ← TreeOps.push None fragments fragment;
        base_loop fuel visible_text insertion_timestamp (insertion_offset +u32 as_u32 chunk_len) chunk_end fragment_id
          fragments insertions
      else Some (fragments, insertions)
  end.

Definition new_normalized (replica_id : ReplicaId) (remote_id : N) (line_ending : LineEnding) (normalized : Rope) : option Buffer :=
  let history := HistoryOps.new normalized in
  let visible_text := base_text history in
  let lamport_clock := LamportOps.new replica_id in
  '(fragments, insertions, lamport_clock, version) ←
    (if negb (RopeOps.is_empty visible_text) then
       let insertion_timestamp := LamportOps.new Replica.LOCAL in
       '(fragments, insertions) ← base_loop (Datatypes.S (N.to_nat (RopeOps.len visible_text))) visible_text insertion_timestamp
          0 0 LocatorOps.min (TreeOps.new None) (TreeOps.new ());
       Some (fragments, insertions, LamportOps.observe lamport_clock insertion_timestamp,
         GlobalOps.observe GlobalOps.new insertion_timestamp)
     else Some (TreeOps.new None, TreeOps.new (), lamport_clock, GlobalOps.new));
  Some (mkBuffer
    (mkSnapshot visible_text RopeOps.new fragments insertions (TreeOps.new ()) (TreeOps.new ()) version remote_id replica_id line_ending)
    history QueueOps.new ∅ lamport_clock (mkTopics [] [])).

Definition new (replace_all : str → str) (replica_id : ReplicaId) (remote_id : N) (text : str) : option Buffer :=
  line_ending ← LineEndingOps.detect text;
  normalized ← RopeOps.from (LineEndingOps.normalize replace_all text);
  new_normalized replica_id remote_id line_ending normalized.

End creation.

Implicit Types (b : Buffer) (h : History) (s : BufferSnapshot) (now : N) (transaction_id : Lamport).

Definition version b : Global := sversion (snapshot b).

(** A buffer of the same text with a history of its own. *)
Definition branch b : Buffer :=
  mkBuffer (snapshot b) (HistoryOps.new (base_text (history b))) QueueOps.new ∅ (LamportOps.new Replica.LOCAL_BRANCH) (mkTopics [] []).

Definition set_history b h : Buffer :=
  mkBuffer (snapshot b) h (deferred_ops b) (deferred_replicas b) (lamport_clock b) (subscriptions b).
Definition set_clock b clock : Buffer :=
  mkBuffer (snapshot b) (history b) (deferred_ops b) (deferred_replicas b) clock (subscriptions b).
Definition set_snapshot b s : Buffer :=
  mkBuffer s (history b) (deferred_ops b) (deferred_replicas b) (lamport_clock b) (subscriptions b).
Definition set_subscriptions b subs : Buffer :=
  mkBuffer (snapshot b) (history b) (deferred_ops b) (deferred_replicas b) (lamport_clock b) subs.

(** [self.snapshot.version.observe(timestamp)] *)
Definition observe_version b (timestamp : Lamport) : Buffer :=
  set_snapshot b (set_version (snapshot b) (GlobalOps.observe (version b) timestamp)).

Definition has_deferred_ops b : bool := negb (QueueOps.is_empty (deferred_ops b)).
Definition deferred_ops_len b : N := QueueOps.len (deferred_ops b).

(** [Buffer::subscribe], with the index of the subscription. *)
Definition subscribe b : Buffer * nat :=
  let '(i, subs) := TopicOps.subscribe (subscriptions b) in (set_subscriptions b subs, i).

Definition set_group_interval b (interval : N) : Buffer :=
  let h := history b in
  set_history b (mkHistory (base_text h) (operations h) (undo_stack h) (redo_stack h) (transaction_depth h) interval).

Definition set_line_ending b (e : LineEnding) : Buffer :=
  let s := snapshot b in
  set_snapshot b (mkSnapshot (visible_text s) (deleted_text s) (fragments s) (insertions s) (insertion_slices s) (undo_map s)
    (sversion s) (remote_id s) (sreplica_id s) e).

(** *** Transactions *)

Definition peek_undo_stack b : option HistoryEntry := list.last (undo_stack (history b)).
Definition peek_redo_stack b : option HistoryEntry := list.last (redo_stack (history b)).

Definition start_transaction_at b now : Buffer * option Lamport :=
  let '(h, clock, id) := HistoryOps.start_transaction (history b) (version b) now (lamport_clock b) in
  (set_clock (set_history b h) clock, id).

(** The [unwrap] of what [group] returns can panic. *)
Definition end_transaction_at b now : option (Buffer * option (Lamport * Global)) :=
  '(h, entry) ← HistoryOps.end_transaction (history b) now;
  match entry with
  | Some entry =>
      '(h, id) ← HistoryOps.group h;
      id ← id;
      Some (set_history b h, Some (id, tstart (transaction entry)))
  | None => Some (set_history b h, None)
  end.

Definition finalize_last_transaction b : Buffer * option Transaction :=
  let '(h, t) := HistoryOps.finalize_last_transaction (history b) in (set_history b h, t).
Definition group_until_transaction b transaction_id : option Buffer :=
  h ← HistoryOps.group_until (history b) transaction_id; Some (set_history b h).
Definition push_transaction b (t : Transaction) now : option Buffer :=
  h ← HistoryOps.push_transaction (history b) t now; Some (set_history b h).
Definition push_empty_transaction b now : option (Buffer * Lamport) :=
  '(h, clock, id) ← HistoryOps.push_empty_transaction (history b) (version b) now (lamport_clock b);
  Some (set_clock (set_history b h) clock, id).
Definition forget_transaction b transaction_id : option (Buffer * option Transaction) :=
  '(h, t) ← HistoryOps.forget (history b) transaction_id; Some (set_history b h, t).
Definition get_transaction b transaction_id : option Transaction := HistoryOps.get_transaction (history b) transaction_id.
Definition merge_transactions b (transaction destination : Lamport) : option Buffer :=
  h ← HistoryOps.merge_transactions (history b) transaction destination; Some (set_history b h).

Section operations.
Variable P : Platform.

(** *** Editing *)

Definition apply_local_edit {A} `{!OffsetOps.ToOffset A} b (edits : list (Range A * str)) (timestamp : Lamport) : option (Buffer * EditOperation) :=
  edits ← mapM (λ '(range, new_text),
    range ← OffsetOps.range_to_offset (debug_assertions P) range (snapshot b); Some (range, new_text)) edits;
  '(s, (edit_op, edits_patch)) ← LocalEditOps.apply_edit_internal (MAX_INSERTION_LEN P) (replace_all P) timestamp
    (sort_insertions P) (sort_slices P) (snapshot b) edits;
  subs ← TopicOps.publish (subscriptions b) edits_patch;
  Some (set_subscriptions (set_snapshot b s) subs, edit_op).

(** The transaction starts at [now] and ends at [now']. *)
Definition edit {A} `{!OffsetOps.ToOffset A} b (edits : list (Range A * str)) now now' : option (Buffer * Operation) :=
  let b := (start_transaction_at b now).1 in
  let '(timestamp, clock) := LamportOps.tick (lamport_clock b) in
  let b := set_clock b clock in
  '(b, edit_op) ← apply_local_edit b edits timestamp;
  let operation := OpEdit edit_op in
  h ← HistoryOps.push (history b) operation;
  h ← HistoryOps.push_undo h (op_timestamp operation);
  let b := observe_version (set_history b h) (op_timestamp operation) in
  '(b, _) ← end_transaction_at b now';
  Some (b, operation).

(** An edited snapshot, and the buffer with the clock that has moved on. *)
Definition snapshot_with_edits {A} `{!OffsetOps.ToOffset A} b (edits : list (Range A * str)) : option (Buffer * EditedBufferSnapshot) :=
  let s := snapshot b in
  let base := version b in
  edits ← mapM (λ '(range, new_text),
    range ← OffsetOps.range_to_offset (debug_assertions P) range s; Some (range, new_text)) edits;
  match edits with
  | [] => Some (b, mkEditedBufferSnapshot base s false)
  | _ :: _ =>
      let '(timestamp, clock) := LamportOps.tick (lamport_clock b) in
      '(s, _) ← LocalEditOps.apply_edit_internal (MAX_INSERTION_LEN P) (replace_all P) timestamp
        (sort_insertions P) (sort_slices P) s edits;
      Some (set_clock b clock, mkEditedBufferSnapshot base (set_version s (GlobalOps.observe (sversion s) timestamp)) true)
  end.

Definition fast_forward b (edited : EditedBufferSnapshot) : option Buffer :=
  if GlobalOps.changed_since (version b) (base_version edited) then None
  else Some (set_clock (set_snapshot b (edited_snapshot edited))
    (foldl LamportOps.observe (lamport_clock b) (GlobalOps.iter (sversion (edited_snapshot edited))))).

(** *** Operations of all replicas *)

Definition apply_remote_edit b (version : Global) (ranges : list (Range N)) (new_text : list str) (timestamp : Lamport) : option Buffer :=
  '(s, edits) ← RemoteEditOps.apply_remote_edit (MAX_INSERTION_LEN P) (sort_insertions P) (sort_slices P) (snapshot b)
    version ranges new_text timestamp;
  subs ← match edits with Some edits => TopicOps.publish (subscriptions b) edits | None => Some (subscriptions b) end;
  Some (set_subscriptions (set_snapshot b s) subs).

Definition apply_undo b (undo : UndoOperation) : option Buffer :=
  '(s, edits) ← ApplyUndoOps.apply_undo (sort_slices_by_key P) (sort_ids P) (sort_undos P) (snapshot b) undo;
  subs ← TopicOps.publish (subscriptions b) edits;
  Some (set_subscriptions (set_snapshot b s) subs).

(** What has been observed is not applied again. *)
Definition apply_op b (op : Operation) : option Buffer :=
  match op with
  | OpEdit edit =>
      if negb (GlobalOps.observed (version b) (edit_timestamp edit)) then
        b ← apply_remote_edit b (edit_version edit) (ranges edit) (new_text edit) (edit_timestamp edit);
        let b := observe_version b (edit_timestamp edit) in
        Some (set_clock b (LamportOps.observe (lamport_clock b) (edit_timestamp edit)))
      else Some b
  | OpUndo undo =>
      if negb (GlobalOps.observed (version b) (timestamp undo)) then
        b ← apply_undo b undo;
        let b := observe_version b (timestamp undo) in
        Some (set_clock b (LamportOps.observe (lamport_clock b) (timestamp undo)))
      else Some b
  end.

Definition set_deferred b (ops : Node Operation OperationSummary) (replicas : gset ReplicaId) : Buffer :=
  mkBuffer (snapshot b) (history b) ops replicas (lamport_clock b) (subscriptions b).

Definition can_apply_op b (op : Operation) : bool :=
  if bool_decide (op_replica_id op ∈ deferred_replicas b) then false else GlobalOps.observed_all (version b) (op_version op).

(** The body of the loops: the operation is applied, or put last in [deferred]. *)
Definition apply_or_defer b (deferred : list Operation) (op : Operation) : option (Buffer * list Operation) :=
  if can_apply_op b op then b ← apply_op b op; Some (b, deferred)
  else Some (set_deferred b (deferred_ops b) ({[op_replica_id op]} ∪ deferred_replicas b), deferred ++ [op]).

Definition defer_ops b (ops : list Operation) : option Buffer :=
  q ← QueueOps.insert (sort_ops P) (sort_queue P) (deferred_ops b) ops; Some (set_deferred b q (deferred_replicas b)).

Fixpoint flush_loop b (deferred ops : list Operation) : option (Buffer * list Operation) :=
  match ops with
  | [] => Some (b, deferred)
  | op :: ops => '(b, deferred) ← apply_or_defer b deferred op; flush_loop b deferred ops
  end.

Definition flush_deferred_ops b : option Buffer :=
  let '(drained, q) := QueueOps.drain (deferred_ops b) in
  ops ← QueueOps.iter drained;
  '(b, deferred) ← flush_loop (set_deferred b q ∅) [] ops;
  defer_ops b deferred.

Fixpoint receive_loop b (deferred ops : list Operation) : option (Buffer * list Operation) :=
  match ops with
  | [] => Some (b, deferred)
  | op :: ops =>
      h ← HistoryOps.push (history b) op;
      '(b, deferred) ← apply_or_defer (set_history b h) deferred op;
      receive_loop b deferred ops
  end.

Definition apply_ops b (ops : list Operation) : option Buffer :=
  '(b, deferred) ← receive_loop b [] ops;
  b ← defer_ops b deferred;
  flush_deferred_ops b.

(** *** Undoing *)

Definition undo_operations b (counts : gmap Lamport N) : option (Buffer * Operation) :=
  let '(timestamp, clock) := LamportOps.tick (lamport_clock b) in
  let v := version b in
  let b := observe_version (set_clock b clock) timestamp in
  let undo := mkUndoOperation timestamp v (count_entries P counts) in
  b ← apply_undo b undo;
  Some (b, OpUndo undo).

(** The loop of [undo_or_redo]; the sum of the [u32] saturates. *)
Fixpoint undo_counts b (edit_ids : list Lamport) (counts : gmap Lamport N) : option (gmap Lamport N) :=
  match edit_ids with
  | [] => Some counts
  | edit_id :: edit_ids =>
      c ← UndoMapOps.undo_count (undo_map (snapshot b)) edit_id;
      undo_counts b edit_ids (<[edit_id := N.min (c + 1) (u32_modulus - 1)]> counts)
  end.

Definition undo_or_redo b (t : Transaction) : option (Buffer * Operation) :=
  counts ← undo_counts b (edit_ids t) ∅;
  '(b, operation) ← undo_operations b counts;
  h ← HistoryOps.push (history b) operation;
  Some (set_history b h, operation).

Definition undo b : option (Buffer * option (Lamport * Operation)) :=
  '(h, entry) ← HistoryOps.pop_undo (history b);
  let b := set_history b h in
  match entry with
  | Some entry =>
      '(b, op) ← undo_or_redo b (transaction entry); Some (b, Some (id (transaction entry), op))
  | None => Some (b, None)
  end.

Definition redo b : option (Buffer * option (Lamport * Operation)) :=
  '(h, entry) ← HistoryOps.pop_redo (history b);
  let b := set_history b h in
  match entry with
  | Some entry =>
      '(b, op) ← undo_or_redo b (transaction entry); Some (b, Some (id (transaction entry), op))
  | None => Some (b, None)
  end.

Definition undo_transaction b transaction_id : option (Buffer * option Operation) :=
  '(h, entry) ← HistoryOps.remove_from_undo (history b) transaction_id;
  let b := set_history b h in
  match entry with
  | Some entry => '(b, op) ← undo_or_redo b (transaction entry); Some (b, Some op)
  | None => Some (b, None)
  end.

Fixpoint undo_or_redo_all b (transactions : list Transaction) : option (Buffer * list Operation) :=
  match transactions with
  | [] => Some (b, [])
  | t :: transactions =>
      '(b, op) ← undo_or_redo b t;
      '(b, ops) ← undo_or_redo_all b transactions;
      Some (b, op :: ops)
  end.

Definition undo_to_transaction b transaction_id : option (Buffer * list Operation) :=
  '(h, entries) ← HistoryOps.remove_from_undo_until (history b) transaction_id;
  undo_or_redo_all (set_history b h) (transaction <$> entries).

Definition redo_to_transaction b transaction_id : option (Buffer * list Operation) :=
  '(h, entries) ← HistoryOps.remove_from_redo (history b) transaction_id;
  undo_or_redo_all (set_history b h) (transaction <$> entries).

End operations.
End BufferOps.
