(* ===== verification/BufferSpec.v ===== *)
(** * What the operations on a buffer do

    A new buffer has a well-formed snapshot of its text. *)

From stdpp Require Import sets sorting.
From S2P Require Import Prelude Clock Locator Patch SumTree SumCursor CursorSpec CursorWalk KeyedTree TreeMap UndoMap Text Rope RopeText RopeClip LineEnding Fragment Builders Snapshot Cells SnapshotSpec OperationQueue History LocalEdit LocalEditSpec Buffer.
Import TreeOps.

#[local] Unset Default Proof Using.
#[local] Arguments Nat.mul : simpl never.
#[local] Open Scope N_scope.
#[local] Existing Instance LamportOps.cmp_total.

(** ** New buffers *)

Lemma length_le_utf8 (s : str) : N.of_nat (length s) <= Str.length_utf8 s.
Proof.
  induction s as [|c s IH]; [done|]. pose proof (len_utf8_bounds c).
  change (Str.length_utf8 (c :: s)) with (Str.len_utf8 c + Str.length_utf8 s). cbn [length]. lia.
Qed.

Lemma no_undos t : undone_in (TreeOps.new ()) t = false.
Proof.
  unfold undone_in, UndoMapOps.is_undone, UndoMapOps.undo_count.
  rewrite (count_ok (λ _, true) (TreeOps.new ()) t); [done|]. split; [by left|]. split; [constructor|].
  unfold STACK_CAPACITY. cbn. lia.
Qed.

Section base.
Context (MAX_INSERTION_LEN : N) (Hmax : 4 <= MAX_INSERTION_LEN < u32_modulus).
Implicit Types (ps : list part) (a d m : str) (r : Rope).

(** The parts [ps] of the text [a] have been made. *)
Record base_parts a ps (prev : Locator) (fs : Node Fragment FragmentSummary)
    (ins : Node InsertionFragment InsertionFragmentKey) : Prop := {
  bp_fragments : tree_ok None fs ∧ tree_items fs = ps.*1;
  bp_insertions : tree_ok () ins ∧ tree_items ins = FragmentOps.insertion_fragment <$> ps.*1;
  bp_sorted : ksorted insertion_key_cmp (tree_items ins);
  bp_parts : Forall part_ok ps;
  bp_loose : Forall (λ f, stamp f = base_stamp ∧ deletions f = [] ∧ visible f = true ∧ insertion_offset f < Str.length_utf8 a) ps.*1;
  bp_text : mjoin ps.*2 = a;
  bp_ids : StronglySorted id_lt ps.*1;
  bp_prev : prev = default LocatorOps.min (list.last (fid <$> ps.*1));
  bp_units : units ps = units_of base_stamp 0 (Str.length_utf8 a);
  bp_cells : cells ps = text_cells base_stamp ∅ 0 a }.

Lemma base_step a ps prev fs ins m : base_parts a ps prev fs ins → m ≠ [] → clean m →
  Str.length_utf8 (a ++ m) < u32_modulus →
  let f := mkFragment (LocatorOps.between prev LocatorOps.max) base_stamp (Str.length_utf8 a) (Str.length_utf8 m) true [] GlobalOps.new in
  returns (TreeOps.push () ins (FragmentOps.insertion_fragment f)) (λ ins', returns (TreeOps.push None fs f) (λ fs',
    base_parts (a ++ m) (ps ++ [(f, m)]) (fid f) fs' ins')).
Proof.
  intros [[Hf Hfi] [Hi Hii] Hs Hp Hl Ht Hids Hprev Hu Hcells] Hm Hc Hfits f. rewrite length_utf8_app in Hfits.
  assert (Str.length_utf8 m ≠ 0) as Hm0 by by rewrite length_utf8_zero.
  assert (Forall (λ g, locator_ok (fid g)) ps.*1 ∧ Forall (λ g, LocatorOps.cmp (fid g) LocatorOps.max = Lt) ps.*1) as [H1 H2].
  { split; apply Forall_fmap; (eapply Forall_impl; [exact Hp|]); by intros p []. }
  destruct (between_sorted ps.*1 f []) as (Hsort & Hlo & Hlm); rewrite ?app_nil_r; try done; [by cbn; rewrite Hprev|].
  rewrite app_nil_r in Hsort.
  eapply returns_mono; [by apply (push_ok ())|]. intros ins' [Hi' Hii']. eapply returns_mono; [by apply (push_ok None)|].
  intros fs' [Hf' Hfi'].
  split; rewrite ?fmap_app; try done.
  - by rewrite Hfi', Hfi.
  - by rewrite Hii', Hii.
  - rewrite Hii', Hii. apply ksorted_app. split_and!; [by rewrite <- Hii|by repeat constructor|].
    intros x y (g & -> & Hg)%list_elem_of_fmap ->%list_elem_of_singleton. rewrite Forall_forall in Hl.
    destruct (Hl g Hg) as (Hst & _ & _ & Ho). unfold key_lt. cbn. unfold insertion_key_cmp, insertion_key. cbn.
    rewrite Hst, (ord_refl LamportOps.cmp). cbn. by apply N.compare_lt_iff.
  - apply Forall_app. split; [done|]. constructor; [|constructor]. split; cbn [fst snd f flen insertion_offset fid]; try done.
  - apply Forall_app. split.
    + eapply Forall_impl; [exact Hl|]. intros g (? & ? & ? & ?). rewrite length_utf8_app. split_and!; try done. lia.
    + constructor; [|constructor]. rewrite length_utf8_app. split_and!; try done. cbn. lia.
  - rewrite join_app, Ht. change (mjoin [(f, m)].*2) with (m ++ []). by rewrite app_nil_r.
  - change (fid <$> [(f, m)].*1) with [fid f]. by rewrite last_snoc.
  - rewrite units_app, units_one, Hu, length_utf8_app, units_of_add. done.
  - rewrite cells_app, cells_one, Hcells, text_cells_app. done.
Qed.

Lemma base_loop_ok fuel r a d ps prev fs ins : rope_ok r → rope_text r = a ++ d → base_parts a ps prev fs ins → clean d →
  Str.length_utf8 (a ++ d) < u32_modulus → (length d < fuel)%nat →
  returns (BufferOps.base_loop MAX_INSERTION_LEN fuel r base_stamp (Str.length_utf8 a) (Str.length_utf8 a) prev fs ins)
    (λ '(fs', ins'), ∃ ps' prev', base_parts (a ++ d) ps' prev' fs' ins').
Proof.
  intros Hr. revert a d ps prev fs ins. induction fuel as [|fuel IH]; intros a d ps prev fs ins Ht Hb Hc Hfits Hfuel; [lia|].
  cbn [BufferOps.base_loop]. rewrite rope_len, Ht by done.
  destruct (N.ltb_spec (Str.length_utf8 a) (Str.length_utf8 (a ++ d))) as [Hlt|Hge].
  2: { assert (d = []) as -> by (rewrite length_utf8_app in Hge; apply length_utf8_zero; lia). apply returns_ret.
    rewrite app_nil_r. by exists ps, prev. }
  assert (d ≠ []) as Hne by (intros ->; rewrite app_nil_r in Hlt; lia).
  destruct (chunk_split a d MAX_INSERTION_LEN (proj1 Hmax) Hne) as (m & d' & -> & Hm & Hlen & Hend).
  set (e := N.min _ _) in *. eapply (returns_bind _ _ (λ n, n = Str.length_utf8 (a ++ m))).
  { rewrite <- Hend. destruct (e =? _); [by apply returns_ret|]. rewrite floor_in_rope, Ht by done. by apply returns_ret. }
  intros n ->. apply clean_app in Hc as [Hcm Hcd]. rewrite (length_utf8_app a m), usize_sub_le, N_add_sub_l by lia.
  cbn [mbind option_bind].
  assert (as_u32 (Str.length_utf8 m) = Str.length_utf8 m) as ->.
  { rewrite !length_utf8_app in Hfits. apply N.mod_small. lia. }
  rewrite app_assoc in Ht, Hfits |- *.
  eapply returns_bind; [apply (base_step a ps prev fs ins m Hb Hm Hcm); rewrite length_utf8_app in Hfits; lia|].
  intros ins' H. eapply returns_bind; [exact H|]. intros fs' Hb'.
  assert (Str.length_utf8 a +u32 Str.length_utf8 m = Str.length_utf8 (a ++ m)) as ->.
  { rewrite length_utf8_app. apply u32_add_small. rewrite !length_utf8_app in Hfits. lia. }
  rewrite <- (length_utf8_app a m). eapply (IH (a ++ m) d'); [exact Ht|exact Hb'|done|done|].
  assert (length m ≠ 0%nat) by by destruct m. rewrite length_app in Hfuel. lia.
Qed.

(** All of the text is inserted by the first operation. *)
Definition all_base ps : Prop := Forall (λ f, stamp f = base_stamp ∧ deletions f = [] ∧ visible f = true) ps.*1.

Lemma all_base_texts ps : all_base ps → shown ps = texts ps ∧ side false (strips ps) = [].
Proof.
  unfold all_base. induction ps as [|[f m] ps IH]; [done|]. intros [(_ & _ & Hv) Hps]%Forall_cons. cbn [fst] in Hv.
  destruct (IH Hps) as [H1 H2]. rewrite shown_cons, Hv, H1. split; [done|].
  change (strips ((f, m) :: ps)) with ((visible f, m) :: strips ps). by rewrite side_cons, H2, Hv.
Qed.

Lemma base_snapshot_ok r ps prev fs ins version remote replica e : rope_ok r → base_parts (rope_text r) ps prev fs ins →
  snapshot_ok (mkSnapshot r RopeOps.new fs ins (TreeOps.new ()) (TreeOps.new ()) version remote replica e) ps ∧
  all_base ps ∧ shown ps = rope_text r ∧ cells ps = text_cells base_stamp ∅ 0 (rope_text r).
Proof.
  intros Hr [[Hf Hfi] [Hi Hii] Hs Hp Hl Ht Hids Hprev Hu Hcells].
  assert (all_base ps) as Hb by (eapply Forall_impl; [exact Hl|]; by intros f (? & ? & ? & _)).
  destruct (all_base_texts ps Hb) as [Hsh Hd]. unfold texts in Hsh. rewrite Ht in Hsh.
  split; [|done]. split; cbn [fragments Snapshot.insertions visible_text deleted_text insertion_slices undo_map]; try done.
  - rewrite Hd. apply new_rope_ok.
  - rewrite Hu. apply NoDup_fmap_2_strong; [|apply NoDup_seq]. intros i j _ _ [= H]. lia.
  - rewrite Hii in *. done.
  - split; [by left|constructor].
  - eapply Forall_impl; [exact Hb|]. intros f (Hst & Hdel & _) t Hin Hne. rewrite Hst, Hdel in Hin.
    by apply list_elem_of_singleton in Hin.
  - split; [constructor|]. eapply Forall_impl; [exact Hb|]. intros f (Hst & _). by rewrite Hst.
  - split; [by left|constructor].
  - eapply Forall_impl; [exact Hb|]. intros f (_ & Hdel & Hv). unfold shows. by rewrite Hv, Hdel, no_undos.
Qed.

(** All that a new buffer has seen. *)
Lemma base_stamps ps t : all_base ps → t ∈ stamps ps.*1 → t = base_stamp.
Proof.
  intros H (f & Hf & Ht)%elem_of_stamps. unfold all_base in H. rewrite Forall_forall in H. destruct (H f Hf) as (Hs & Hd & _).
  rewrite Hs, Hd in Ht. by apply list_elem_of_singleton in Ht.
Qed.

(** What a new buffer has observed. *)
Definition base_observed (s : str) : Global :=
  match s with [] => GlobalOps.new | _ => GlobalOps.observe GlobalOps.new base_stamp end.

Lemma new_normalized_ok replica remote e r : rope_ok r → clean (rope_text r) → Str.length_utf8 (rope_text r) < u32_modulus →
  returns (BufferOps.new_normalized MAX_INSERTION_LEN replica remote e r) (λ b, ∃ ps, snapshot_ok (snapshot b) ps ∧
    all_base ps ∧ shown ps = rope_text r ∧ visible_text (snapshot b) = r ∧ line_ending (snapshot b) = e ∧
    replica_id (lamport_clock b) = replica ∧ (if decide (ps = []) then 1 else 2) <= value (lamport_clock b) ∧ history b = HistoryOps.new r ∧
    undo_map (snapshot b) = TreeOps.new () ∧ subscriptions b = mkTopics [] [] ∧
    cells ps = text_cells base_stamp ∅ 0 (rope_text r) ∧ sversion (snapshot b) = base_observed (rope_text r) ∧ deferred_ops b = QueueOps.new).
Proof.
  intros Hr Hc Hfits. unfold BufferOps.new_normalized, RopeOps.is_empty. cbn [base_text HistoryOps.new].
  rewrite rope_len by done. assert (base_parts [] [] LocatorOps.min (TreeOps.new None) (TreeOps.new ())) as H0.
  { split; try done; try constructor; [by left|done|by left|done]. }
  eapply (returns_bind _ _ (λ '(fs, ins, clock, version), replica_id clock = replica ∧ version = base_observed (rope_text r) ∧
    ∃ ps prev, base_parts (rope_text r) ps prev fs ins ∧ (if decide (ps = []) then 1 else 2) <= value clock)).
  - destruct (N.eqb_spec (Str.length_utf8 (rope_text r)) 0) as [Hz|Hz]; cbn [negb].
    { apply returns_ret. apply length_utf8_zero in Hz as ->. split_and!; [done|done|]. by exists [], LocatorOps.min. }
    eapply returns_bind.
    { apply (base_loop_ok (Datatypes.S (N.to_nat (Str.length_utf8 (rope_text r)))) r [] (rope_text r) [] _ _ _ Hr eq_refl H0 Hc Hfits).
      pose proof (length_le_utf8 (rope_text r)). lia. }
    intros [fs ins] (ps & prev & Hb). apply returns_ret. split_and!; [done|by destruct (rope_text r)|]. exists ps, prev. split; [done|]. case_decide; [change (1 <= 2); lia|done].
  - intros [[[fs ins] clock] version] (Hclock & Hversion & ps & prev & Hb & Hv). apply returns_ret. exists ps.
    destruct (base_snapshot_ok r ps prev fs ins version remote replica e Hr Hb) as (? & ? & ? & ?). by split_and!.
Qed.

Lemma buffer_new_ok (replace_all : str → str) `{!LineSeparators replace_all} replica remote s : scalars s →
  Str.length_utf8 (unix_lines s) < u32_modulus →
  returns (BufferOps.new MAX_INSERTION_LEN replace_all replica remote s) (λ b, ∃ ps, snapshot_ok (snapshot b) ps ∧
    all_base ps ∧ shown ps = unix_lines s ∧ Some (line_ending (snapshot b)) = LineEndingOps.detect s ∧
    replica_id (lamport_clock b) = replica ∧ (if decide (ps = []) then 1 else 2) <= value (lamport_clock b) ∧
    history b = HistoryOps.new (visible_text (snapshot b)) ∧ undo_map (snapshot b) = TreeOps.new () ∧ subscriptions b = mkTopics [] [] ∧
    cells ps = text_cells base_stamp ∅ 0 (unix_lines s) ∧ sversion (snapshot b) = base_observed (unix_lines s) ∧ deferred_ops b = QueueOps.new).
Proof.
  intros Hs Hfits. unfold BufferOps.new, LineEndingOps.normalize. rewrite (replace_separators (replace_all := replace_all)).
  destruct (detect_head s) as (h & r & _ & _ & ->). cbn [mbind option_bind].
  eapply returns_bind; [by apply (rope_from_ok (unix_lines s)), unix_lines_scalars|]. intros rp [Hr Ht].
  eapply returns_mono; [apply new_normalized_ok; [done|rewrite Ht; apply unix_lines_clean|by rewrite Ht]|].
  intros b (ps & H1 & H2 & H3 & H4 & H5 & H6 & H7 & H8 & H9 & H10 & H11 & H12 & H13). exists ps. rewrite <- Ht, H5, H4. by split_and!.
Qed.
End base.
