(* ===== verification/BufferInv.v ===== *)
(** * The invariant of a buffer

    What every operation keeps: the snapshot and the history are well formed,
    subscribers have patches to the current text, and the clock has passed all
    timestamps of its replica. The counts that an undo records flip the parity
    of its edits and leave all others alone. *)

From stdpp Require Import gmap sets sorting.
From S2P Require Import Prelude Clock Locator Patch SumTree SumCursor CursorSpec CursorWalk KeyedTree TreeMap UndoMap Text Rope RopeText RopeClip LineEnding Fragment Builders Snapshot Cells SnapshotSpec OperationQueue History LocalEdit LocalEditSpec ApplyUndo ApplyUndoSpec Offsets Buffer BufferSpec.
Import TreeOps.

#[local] Unset Default Proof Using.
#[local] Arguments Nat.mul : simpl never.
#[local] Open Scope N_scope.
#[local] Existing Instance LamportOps.cmp_total.

(** ** Counts *)

Section counts.
Implicit Types (m : UndoMap) (u : UndoOperation) (e : Lamport) (n : N).

Definition undo_count_of m e : N := default 0 (UndoMapOps.undo_count m e).

Lemma undo_count_ok m e : undo_ok m → UndoMapOps.undo_count m e = Some (undo_count_of m e) ∧
  highest (λ _, true) (tree_items m) e (undo_count_of m e).
Proof.
  intros Hm. unfold undo_count_of, UndoMapOps.undo_count. rewrite (count_ok _ m e Hm). split; [done|apply raise_highest].
Qed.

Lemma undone_count m e : undo_ok m → undone_in m e = (undo_count_of m e mod 2 =? 1).
Proof.
  intros Hm. unfold undone_in, UndoMapOps.is_undone. by rewrite (proj1 (undo_count_ok m e Hm)).
Qed.

Lemma highest_unique seen l e n k : highest seen l e n → highest seen l e k → n = k.
Proof.
  intros [H1 H2] [H3 H4]. apply N.le_antisymm.
  - destruct H2 as [->|(x & Hx & He & Hs & <-)]; [lia|]. by apply H3.
  - destruct H4 as [->|(x & Hx & He & Hs & <-)]; [lia|]. by apply H1.
Qed.

(** No count for an edit that the map does not mention. *)
Lemma unmentioned_count m e : undo_ok m → (∀ x, x ∈ tree_items m → edit_id (ukey x) ≠ e) → undo_count_of m e = 0.
Proof.
  intros Hm Hno. destruct (undo_count_ok m e Hm) as [_ H]. eapply highest_unique; [exact H|]. split; [|by left].
  intros x Hx He. by destruct (Hno x Hx).
Qed.

Lemma unmentioned_undone m e : undo_ok m → (∀ x, x ∈ tree_items m → edit_id (ukey x) ≠ e) → undone_in m e = false.
Proof. intros Hm Hno. by rewrite undone_count, unmentioned_count. Qed.

(** A count above all others is the new count. *)
Lemma insert_raises sort m u m' e n : Sorting (edit_le undo_key_cmp) sort → undo_ok m → well_formed u →
  UndoMapOps.insert sort m u = Some m' → undo_ok m' → (e, n) ∈ counts u → undo_count_of m e < n → undo_count_of m' e = n.
Proof.
  intros Hsort Hm Hwf Hins Hm' Hin Hlt. destruct (insert_ok sort Hsort m u Hm Hwf) as (m1 & Hm1 & Ht & Hs & Hx).
  rewrite Hins in Hm1. injection Hm1 as <-. destruct (undo_count_ok m e Hm) as [_ [Hle _]], (undo_count_ok m' e Hm') as [_ H].
  eapply highest_unique; [exact H|]. split.
  - intros x [[Ht' Hr]|[Hx' _]]%Hx He Hse; [|specialize (Hle x Hx' He eq_refl); lia].
    rewrite He in Hr. enough (entry_count x = n) by lia. unfold well_formed in Hwf.
    pose proof (NoDup_key_inj fst (counts u) _ _ Hwf Hr Hin eq_refl) as E. by injection E.
  - right. exists (mkUndoMapEntry (mkUndoMapKey e (timestamp u)) n). split_and!; try done. apply Hx. by left.
Qed.
End counts.

(** ** The counts of an undo *)

Section undo_counts.
Context (P : Platform) `{!PlatformLaws P}.
Implicit Types (b : Buffer) (es : list Lamport) (c : gmap Lamport N) (e : Lamport).

Definition raised b e : N := N.min (undo_count_of (undo_map (snapshot b)) e + 1) (u32_modulus - 1).

Lemma undo_counts_ok b es c : undo_ok (undo_map (snapshot b)) →
  returns (BufferOps.undo_counts b es c) (λ c', ∀ e, c' !! e = if decide (e ∈ es) then Some (raised b e) else c !! e).
Proof.
  intros Hu. revert c. induction es as [|e0 es IH]; intros c; cbn [BufferOps.undo_counts].
  { apply returns_ret. intros e. by rewrite decide_False by apply not_elem_of_nil. }
  rewrite (proj1 (undo_count_ok _ e0 Hu)). cbn [mbind option_bind]. eapply returns_mono; [apply IH|]. intros c' Hc' e. rewrite Hc'.
  destruct (decide (e ∈ es)) as [Hin|Hin]; [by rewrite decide_True by set_solver|].
  destruct (decide (e = e0)) as [->|Hne]; [by rewrite decide_True, lookup_insert_eq by set_solver|].
  by rewrite decide_False, lookup_insert_ne by set_solver.
Qed.

(** The operation that [undo_or_redo] makes of a transaction. *)
Definition undo_of b (t : Transaction) : option UndoOperation :=
  c ← BufferOps.undo_counts b (edit_ids t) ∅; Some (mkUndoOperation (lamport_clock b) (BufferOps.version b) (count_entries P c)).

Lemma undo_of_ok b t : undo_ok (undo_map (snapshot b)) → returns (undo_of b t) (λ u, timestamp u = lamport_clock b ∧
  UndoMap.version u = BufferOps.version b ∧ well_formed u ∧ (∀ e, e ∈ (counts u).*1 ↔ e ∈ edit_ids t) ∧
  ∀ e, e ∈ edit_ids t → (e, raised b e) ∈ counts u).
Proof.
  intros Hu. eapply returns_bind; [by apply undo_counts_ok|]. intros c Hc. apply returns_ret.
  pose proof (platform_entries c) as Hperm. cbn [timestamp UndoMap.version counts]. split_and!; [done|done| | |].
  - unfold well_formed. cbn [counts]. rewrite Hperm. apply NoDup_fst_map_to_list.
  - intros e. rewrite Hperm. rewrite list_elem_of_fmap. split.
    + intros ([e' n] & -> & Hin). apply elem_of_map_to_list in Hin. rewrite Hc in Hin. cbn. by case_decide.
    + intros He. exists (e, raised b e). split; [done|]. apply elem_of_map_to_list. by rewrite Hc, decide_True.
  - intros e He. rewrite Hperm. apply elem_of_map_to_list. by rewrite Hc, decide_True.
Qed.

(** The edits of the transaction change sides, the others stay. *)
Lemma undo_of_flips b t u um e : undo_ok (undo_map (snapshot b)) → undo_ok um → undo_of b t = Some u →
  UndoMapOps.insert (sort_undos P) (undo_map (snapshot b)) u = Some um →
  (e ∈ edit_ids t → undo_count_of (undo_map (snapshot b)) e + 1 < u32_modulus) →
  undo_count_of um e = undo_count_of (undo_map (snapshot b)) e + (if decide (e ∈ edit_ids t) then 1 else 0) ∧
  undone_in um e = xorb (undone_in (undo_map (snapshot b)) e) (bool_decide (e ∈ edit_ids t)).
Proof.
  intros Hm Hum Eu Hins Hlim. destruct (undo_of_ok b t Hm) as (u1 & E & _ & _ & Hwf & Hkeys & Hcounts).
  rewrite Eu in E. injection E as <-.
  assert (undo_count_of um e = undo_count_of (undo_map (snapshot b)) e + (if decide (e ∈ edit_ids t) then 1 else 0)) as Hc.
  { case_decide as He.
    - specialize (Hlim He). apply (insert_raises (sort_undos P) (undo_map (snapshot b)) u); try done; [apply _| |lia].
      assert (raised b e = undo_count_of (undo_map (snapshot b)) e + 1) as <- by (unfold raised; lia). by apply Hcounts.
    - rewrite N.add_0_r. rewrite <- Hkeys in He. destruct (undo_count_ok um e Hum) as [_ H1], (undo_count_ok _ e Hm) as [_ H2].
      destruct (insert_ok (sort_undos P) _ _ u Hm Hwf) as (m1 & Hm1 & Ht & Hs & Hx). rewrite Hins in Hm1. injection Hm1 as <-.
      eapply highest_unique; [exact H1|]. destruct H2 as [Hle Hex]. split.
      + intros x [[_ Hr]|[Hx' _]]%Hx Hxe Hse; [|by apply Hle]. destruct He. rewrite <- Hxe. by apply (list_elem_of_fmap_2 fst _ (edit_id (ukey x), entry_count x)).
      + destruct Hex as [->|(x & Hx' & Hxe & Hse & Hn)]; [by left|right]. exists x. split_and!; try done. apply Hx. right. split; [done|].
        rewrite Hxe. by intros [_ ?]. }
  split; [done|]. rewrite !undone_count, Hc by done. case_decide as He.
  - rewrite bool_decide_eq_true_2 by done. generalize (undo_count_of (undo_map (snapshot b)) e). intros n.
    pose proof (N.mod_upper_bound n 2 ltac:(lia)) as Hn.
    assert (∀ k : N, k < 2 → k = 0 ∨ k = 1) as H2 by (clear; intros; lia).
    destruct (H2 _ Hn) as [En|En]; rewrite En; rewrite N.Div0.add_mod, En; done.
  - rewrite bool_decide_eq_false_2 by done. rewrite N.add_0_r. by rewrite xorb_false_r.
Qed.
End undo_counts.

(** ** Clocks *)

Section clocks.
Implicit Types (c t : Lamport) (h : History).

Lemma passed_self c : value c + 1 < u32_modulus → passed_by (LamportOps.tick c).2 c.
Proof. intros Hc _. cbn. unfold u32_add. rewrite N.mod_small by done. lia. Qed.

Lemma passed_tick c t : value c + 1 < u32_modulus → passed_by c t → passed_by (LamportOps.tick c).2 t.
Proof. intros Hc Ht Hr. specialize (Ht Hr). cbn. unfold u32_add. rewrite N.mod_small by done. lia. Qed.

Lemma not_passed c : ¬ passed_by c c.
Proof. intros H. specialize (H eq_refl). lia. Qed.

Lemma tick_value c : value c + 1 < u32_modulus → value (LamportOps.tick c).2 = value c + 1.
Proof. intros Hc. cbn. unfold u32_add. by rewrite N.mod_small. Qed.

Lemma history_later h c c' : history_ok (h, c) → (∀ t, passed_by c t → passed_by c' t) → history_ok (h, c').
Proof. intros [] Hc. split; cbn [fst snd] in *; try done. eapply Forall_impl; [done|]. auto. Qed.

(** ** What the operations do to the recorded operations *)

Lemma push_records h c op h' : history_ok (h, c) → HistoryOps.push h op = Some h' →
  (∀ t, map_at t (operations h') = if decide (t = op_timestamp op) then Some op else map_at t (operations h)) ∧
  undo_stack h' = undo_stack h ∧ redo_stack h' = redo_stack h ∧ transaction_depth h' = transaction_depth h ∧
  map_built LamportOps.cmp (operations h').
Proof.
  intros Hok. pose proof (ok_operations _ Hok) as Hm. cbn [fst] in Hm. unfold HistoryOps.push, TreeMapOps.insert.
  destruct (insert_map_ok (map_key_cmp LamportOps.cmp) () (operations h) (mkMapEntry (op_timestamp op) op) Hm) as ([u o] & -> & Hu & Hus & _ & Hl).
  cbn [mbind option_bind fmap option_fmap option_map fst]. intros [= <-]. cbn [operations undo_stack redo_stack transaction_depth]. split_and!; try done.
  intros t. unfold map_at. rewrite Hl. cbn [key map_entry_key ekey]. case_decide as E.
  - injection E as ->. by rewrite decide_True.
  - rewrite decide_False by congruence. done.
Qed.

Lemma kept_fields h h' : kept h h' → operations h' = operations h.
Proof. by intros []. Qed.

Lemma start_transaction_ok h c v now : history_ok (h, c) → value c + 1 < u32_modulus →
  let '(h', c', _) := HistoryOps.start_transaction h v now c in
  history_ok (h', c') ∧ transaction_depth h' = transaction_depth h + 1 ∧ operations h' = operations h ∧
  stack_edits h' = stack_edits h ∧
  c' = if transaction_depth h =? 0 then (LamportOps.tick c).2 else c.
Proof.
  intros Hok Hc. destruct (run_event_ok (StartTransaction v now) h c Hok Hc) as ([h1 c1] & E & Hok').
  cbn [run_event] in E. injection E as E. unfold HistoryOps.start_transaction in *. cbn [transaction_depth HistoryOps.set_depth] in *.
  destruct (N.eqb_spec (transaction_depth h + 1) 1) as [E1|E1].
  - rewrite (proj2 (N.eqb_eq _ _)) by lia. cbn [LamportOps.tick] in *. injection E as <- <-.
    split_and!; try done. exact (opened_edits h c v now _).
  - rewrite (proj2 (N.eqb_neq _ _)) by lia. injection E as <- <-. by split_and!.
Qed.

Lemma group_some h k e : undo_stack h = k ++ [e] → ∃ i h', HistoryOps.group h = Some (h', Some i) ∧ transaction_depth h' = transaction_depth h.
Proof.
  intros Hu. destruct (group_count_ok (group_interval h) e (rev k)) as (a & x & b & Hl & Hc & _ & _).
  rewrite rev_involutive in Hl. unfold HistoryOps.group. rewrite Hu, rev_app_distr. cbn [rev app]. rewrite Hc.
  rewrite (group_trailing_ok h a x b) by by rewrite Hu, Hl. by eexists _, _.
Qed.

(** Ending a transaction: the history is well formed and has the same operations. *)
Lemma end_transaction_at_ok b now c : history_ok (history b, c) → transaction_depth (history b) ≠ 0 →
  returns (BufferOps.end_transaction_at b now) (λ '(b', _), ∃ h, b' = BufferOps.set_history b h ∧ history_ok (h, c) ∧
    operations h = operations (history b) ∧ transaction_depth h = transaction_depth (history b) - 1 ∧
    stack_edits h ⊆+ stack_edits (history b)).
Proof.
  intros Hok Hd. pose proof (ok_open _ Hok Hd) as Hu. cbn [fst] in Hu. unfold BufferOps.end_transaction_at.
  destruct (end_transaction_ok (history b) now Hd Hu) as (k & e & Hk & E).
  destruct (end_kept (history b) now Hd Hu) as ([h o] & E' & Hkept). rewrite E'. cbn [mbind option_bind].
  pose proof (kept_ok _ _ c Hok Hkept) as Hok'. pose proof (kept_fields _ _ Hkept) as Hops.
  assert (transaction_depth h = transaction_depth (history b) - 1 ∧ match o with Some e' => ∃ k', undo_stack h = k' ++ [e'] | None => True end) as [Hdep Hlast].
  { rewrite E in E'. destruct (N.eqb_spec (transaction_depth (history b)) 1) as [E1|E1].
    - destruct (edit_ids (transaction e)); injection E' as <- <-; cbn; rewrite E1; split; try done. by eexists.
    - by injection E' as <- <-. }
  pose proof (kept_edits _ _ Hkept) as Hed. destruct o as [e'|]; [|apply returns_ret; by exists h].
  destruct Hlast as (k' & Hk'). destruct (group_some h k' e' Hk') as (i & h' & Eg & Hd').
  destruct (group_kept h) as ([h2 j] & E2 & Hkept2); [intros _; rewrite Hk'; by destruct k'|]. rewrite Eg in E2. injection E2 as <- <-.
  rewrite Eg. cbn [mbind option_bind]. apply returns_ret. exists h'. split_and!; [done|by eapply kept_ok| |congruence|by etrans; [apply Hkept2|]].
  rewrite (kept_fields _ _ Hkept2). done.
Qed.
End clocks.

(** ** The invariant *)

Section invariant.
Implicit Types (b : Buffer) (ps : list part) (t : Lamport) (s : BufferSnapshot).

(** The timestamps that a buffer has seen. *)
Definition known b ps t : Prop :=
  t ∈ stamps ps.*1 ∨ (∃ x, x ∈ tree_items (undo_map (snapshot b)) ∧ edit_id (ukey x) = t) ∨
  is_Some (map_at t (operations (history b))).

Record buffer_ok b ps : Prop := {
  bo_snapshot : snapshot_ok (snapshot b) ps;
  bo_history : history_ok (history b, lamport_clock b);
  bo_subscriptions : ∃ seen, run_ok (mkRun (subscriptions b) (Str.as_bytes (shown ps)) seen);
  bo_clock t : known b ps t → passed_by (lamport_clock b) t;
  bo_base : ¬ is_edit (history b) base_stamp;
  bo_started : 1 <= value (lamport_clock b);
  bo_ticked : transaction_depth (history b) ≠ 0 → 2 <= value (lamport_clock b) }.

Lemma set_version_ok s ps v : snapshot_ok s ps → snapshot_ok (set_version s v) ps.
Proof. by intros []. Qed.

Lemma fresh_clock b ps t : buffer_ok b ps → (t = lamport_clock b ∨ passed_by t (lamport_clock b)) →
  replica_id t = replica_id (lamport_clock b) → ¬ known b ps t.
Proof.
  intros Hb Ht Hr Hk. apply (bo_clock _ _ Hb) in Hk. destruct Ht as [->|Ht]; [by eapply not_passed|].
  specialize (Ht (eq_sym Hr)). specialize (Hk Hr). lia.
Qed.
End invariant.

(** ** New buffers *)

Lemma new_buffer_ok (P : Platform) `{!PlatformLaws P} replica remote s : scalars s → Str.length_utf8 (unix_lines s) < u32_modulus →
  returns (BufferOps.new (MAX_INSERTION_LEN P) (replace_all P) replica remote s) (λ b, ∃ ps, buffer_ok b ps ∧ all_base ps ∧
    shown ps = unix_lines s ∧ Some (line_ending (snapshot b)) = LineEndingOps.detect s ∧
    replica_id (lamport_clock b) = replica ∧ history b = HistoryOps.new (visible_text (snapshot b)) ∧
    undo_map (snapshot b) = TreeOps.new () ∧ cells ps = text_cells base_stamp ∅ 0 (unix_lines s) ∧
    BufferOps.version b = base_observed (unix_lines s) ∧ deferred_ops b = QueueOps.new ∧
    (if decide (ps = []) then 1 else 2) <= value (lamport_clock b)).
Proof.
  intros Hs Hfits. eapply returns_mono; [by apply (buffer_new_ok (MAX_INSERTION_LEN P) platform_max (replace_all P))|].
  intros b (ps & Hok & Hb & Ht & He & Hr & Hv & Hh & Hu & Hsub & Hcells & Hver & Hdef). exists ps. split_and!; try done.
  assert (operations (history b) = TreeOps.new ()) as Ho by by rewrite Hh.
  assert (∀ t, map_at t (operations (history b)) = None) as Hnone by (intros t; by rewrite Ho).
  split; try done.
  - rewrite Hh. apply history_new_ok.
  - rewrite Hsub. exists []. by apply (steps_ok (Str.as_bytes (shown ps))).
  - intros t [Ht'|[(x & Hx & _)|Hx]].
    + assert (t = base_stamp) as -> by by apply (base_stamps ps).
      intros _. case_decide as E; [subst ps; by apply not_elem_of_nil in Ht'|]. cbn. lia.
    + rewrite Hu in Hx. by apply not_elem_of_nil in Hx.
    + rewrite Hnone in Hx. by destruct Hx.
  - intros [e Hx]. by rewrite Hnone in Hx.
  - case_decide; lia.
  - by rewrite Hh.
Qed.

(** ** Offsets of edits *)

Lemma splice_boundaries (o : N) (a z : str) edits z' : splice o z edits = Some z' → Str.length_utf8 a = o →
  Forall (λ e : Range N * str, Str.is_char_boundary (a ++ z) (start e.1) = true ∧ Str.is_char_boundary (a ++ z) (stop e.1) = true) edits.
Proof.
  revert o a z z'. induction edits as [|[range text] edits IH]; intros o a z z' Hz Ho; [constructor|].
  apply splice_cons in Hz as (g & d & rest & z'' & -> & -> & Hz & _). constructor; cbn [fst start stop].
  - rewrite <- Ho, <- length_utf8_app. split; [rewrite app_assoc; apply boundary_app|].
    rewrite <- length_utf8_app, (app_assoc g), (app_assoc a), (app_assoc a g d). apply boundary_app.
  - specialize (IH _ (a ++ g ++ d) rest z'' Hz). rewrite <- !app_assoc in IH. apply IH. by rewrite !length_utf8_app, Ho, N.add_assoc.
Qed.

Lemma mapM_same {A} (f : A → option A) l : Forall (λ x, f x = Some x) l → mapM f l = Some l.
Proof.
  induction 1 as [|x l Hx _ IH]; [done|]. change (mapM f (x :: l)) with (y ← f x; k ← mapM f l; mret (y :: k)). by rewrite Hx, IH.
Qed.

(** Offsets at characters are what they are. *)
Lemma edit_offsets debug_assertions s edits z : rope_ok (visible_text s) → splice 0 (rope_text (visible_text s)) edits = Some z →
  mapM (λ '(range, new_text), range ← OffsetOps.range_to_offset debug_assertions range s; Some (range, new_text)) edits = Some edits.
Proof.
  intros Hr Hz. pose proof (splice_boundaries 0 [] _ edits z Hz eq_refl) as Hb. cbn [app] in Hb. apply mapM_same.
  eapply Forall_impl; [exact Hb|]. intros [[i j] text] [Hi Hj]. cbn [fst start stop] in *. unfold OffsetOps.range_to_offset. cbn [start stop].
  rewrite !usize_to_offset_ok, Hi by done. cbn [mbind option_bind]. by rewrite Hj.
Qed.

(** ** Editing *)

Section editing.
Context (P : Platform) `{!PlatformLaws P}.
Implicit Types (b : Buffer) (ps : list part) (edits : list (Range N * str)) (z : str).

(** The recording of the operation, within [edit]. *)
Definition edit_pushes b edits now : option History :=
  let b := (BufferOps.start_transaction_at b now).1 in
  let '(timestamp, clock) := LamportOps.tick (lamport_clock b) in
  '(b, edit_op) ← BufferOps.apply_local_edit P (BufferOps.set_clock b clock) edits timestamp;
  HistoryOps.push (history b) (OpEdit edit_op).

(** The trees fit the stacks of cursors, and the numbers their types. *)
Record edit_fits b edits now : Prop := {
  ef_snapshot : snapshot_low (snapshot b);
  ef_clock : value (lamport_clock b) + 2 < u32_modulus;
  ef_text : Str.length_utf8 (mjoin (new_texts edits)) < u32_modulus;
  ef_operations h : edit_pushes b edits now = Some h → (NodeOps.height (operations h) < STACK_CAPACITY)%nat }.

Record edited_by b ps edits b' ps' (op : Operation) : Prop := {
  eb_ok : buffer_ok b' ps';
  eb_stamp : ¬ known b ps (op_timestamp op) ∧ replica_id (op_timestamp op) = replica_id (lamport_clock b) ∧
    value (lamport_clock b) <= value (op_timestamp op);
  eb_clock : replica_id (lamport_clock b') = replica_id (lamport_clock b) ∧ value (lamport_clock b) <= value (lamport_clock b');
  eb_follows : follows (op_timestamp op) ps ps';
  eb_op : ∃ fulls, op = OpEdit (mkEditOperation (op_timestamp op) (BufferOps.version b) fulls (new_texts edits)) ∧
    Forall2 (placed ps) edits fulls ∧
    spliced (op_timestamp op) (delete_shown (op_timestamp op) (undone_in (undo_map (snapshot b)))) 0 0 (zip fulls (new_texts edits)) (cells ps) (cells ps');
  eb_undos : undo_map (snapshot b') = undo_map (snapshot b);
  eb_version : BufferOps.version b' = GlobalOps.observe (BufferOps.version b) (op_timestamp op);
  eb_depth : transaction_depth (history b') = transaction_depth (history b);
  eb_edits t : t ∈ stack_edits (history b') → t = op_timestamp op ∨ t ∈ stack_edits (history b);
  eb_recorded t : map_at t (operations (history b')) = if decide (t = op_timestamp op) then Some op else map_at t (operations (history b));
  eb_deferred : deferred_ops b' = deferred_ops b ∧ deferred_replicas b' = deferred_replicas b }.

Lemma start_deferred b now : deferred_ops (BufferOps.start_transaction_at b now).1 = deferred_ops b ∧
  deferred_replicas (BufferOps.start_transaction_at b now).1 = deferred_replicas b.
Proof. unfold BufferOps.start_transaction_at. by destruct (HistoryOps.start_transaction _ _ _ _) as [[h c] o]. Qed.

Lemma edit_started b ps now : buffer_ok b ps → value (lamport_clock b) + 2 < u32_modulus →
  let b1 := (BufferOps.start_transaction_at b now).1 in
  let c := lamport_clock b1 in
  snapshot b1 = snapshot b ∧ subscriptions b1 = subscriptions b ∧ history_ok (history b1, (LamportOps.tick c).2) ∧ history_ok (history b1, c) ∧
  transaction_depth (history b1) = transaction_depth (history b) + 1 ∧ operations (history b1) = operations (history b) ∧
  stack_edits (history b1) = stack_edits (history b) ∧
  ¬ known b ps c ∧ replica_id c = replica_id (lamport_clock b) ∧ value (lamport_clock b) <= value c ∧ 2 <= value c ∧ value c + 1 < u32_modulus ∧
  ∀ t, known b ps t → passed_by c t.
Proof.
  intros Hb Hc. unfold BufferOps.start_transaction_at.
  pose proof (start_transaction_ok (history b) (lamport_clock b) (BufferOps.version b) now (bo_history _ _ Hb) ltac:(lia)) as H.
  destruct (HistoryOps.start_transaction _ _ _ _) as [[h c1] o]. destruct H as (Hok & Hd & Hops & Hed & Ec). cbn [fst]. cbn zeta.
  cbn [BufferOps.set_clock BufferOps.set_history snapshot subscriptions history lamport_clock].
  assert (replica_id c1 = replica_id (lamport_clock b) ∧ value (lamport_clock b) <= value c1 ∧ 2 <= value c1 ∧ value c1 + 1 < u32_modulus ∧
    (∀ t, known b ps t → passed_by c1 t) ∧ ¬ known b ps c1) as (Hr & Hle & Hv & Hv' & Hp & Hk).
  { pose proof (bo_started _ _ Hb) as H1. destruct (N.eqb_spec (transaction_depth (history b)) 0) as [Hz|Hz]; subst c1.
    - rewrite tick_value by lia. split_and!; [done|lia|lia|lia| |].
      + intros t Ht. apply passed_tick; [lia|]. by apply (bo_clock _ _ Hb).
      + apply (fresh_clock b ps); [done|right; apply passed_self; lia|done].
    - split_and!; [done|lia|by apply (bo_ticked _ _ Hb)|lia|apply Hb|]. apply (fresh_clock b ps); [done|by left|done]. }
  split_and!; try done. eapply history_later; [exact Hok|]. intros t. by apply passed_tick.
Qed.

Lemma local_edit_ok b ps edits z ts : snapshot_ok (snapshot b) ps → snapshot_low (snapshot b) → undone_in (undo_map (snapshot b)) ts = false →
  ts ∉ stamp <$> ps.*1 → ts ≠ LamportOps.MIN → (∃ seen, run_ok (mkRun (subscriptions b) (Str.as_bytes (shown ps)) seen)) →
  splice 0 (shown ps) edits = Some z → Forall (λ e, scalars e.2) edits → Str.length_utf8 (mjoin (new_texts edits)) < u32_modulus →
  returns (BufferOps.apply_local_edit P b edits ts) (λ '(b', op), ∃ s' ps' subs',
    b' = BufferOps.set_subscriptions (BufferOps.set_snapshot b s') subs' ∧ snapshot_ok s' ps' ∧ follows ts ps ps' ∧ shown ps' = z ∧
    same_buffer (snapshot b) s' ∧ (∃ seen, run_ok (mkRun subs' (Str.as_bytes z) seen)) ∧
    ∃ fulls, Forall2 (placed ps) edits fulls ∧ op = mkEditOperation ts (BufferOps.version b) fulls (new_texts edits) ∧
      spliced ts (delete_shown ts (undone_in (undo_map (snapshot b)))) 0 0 (zip fulls (new_texts edits)) (cells ps) (cells ps')).
Proof.
  intros Hok Hlow Hundone Hfresh Hmin [seen Hrun] Hz Hsc Hfits. destruct (so_visible _ _ Hok) as [Hr Ht]. unfold BufferOps.apply_local_edit.
  rewrite (edit_offsets _ _ edits z Hr) by by rewrite Ht. cbn [mbind option_bind]. eapply returns_bind.
  { apply (apply_edit_internal_ok (snapshot b) ps Hok Hlow ts Hundone (MAX_INSERTION_LEN P) platform_max (replace_all P)); try done; apply _. }
  intros [s' [op patch]] (nps & Hs' & Hfol & Hsame & Hn & Hp & _ & fulls & Hf & -> & Hsp).
  destruct (publish_ok _ patch (Str.as_bytes z) Hrun Hp) as (subs & Es & Hrun'). cbn [topics] in Es. rewrite Es. cbn [mbind option_bind]. apply returns_ret.
  exists s', nps, subs. split_and!; [done..|by eexists|by exists fulls].
Qed.

(** What the operation adds to what the buffer has seen. *)
Lemma known_after b ps b' ps' ts op h : follows ts ps ps' → undo_map (snapshot b') = undo_map (snapshot b) →
  (∀ t, map_at t (operations h) = if decide (t = ts) then Some op else map_at t (operations (history b))) →
  operations (history b') = operations h → ∀ t, known b' ps' t → t = ts ∨ known b ps t.
Proof.
  intros [_ _ Hst] Hum Hmap Eops t. unfold known. rewrite Hum, Eops. intros [Ht|[Ht|[o Ht]]].
  - apply Hst in Ht as [->|Ht]; [by left|right; by left].
  - right. right. by left.
  - rewrite Hmap in Ht. case_decide as E; [by left|right]. right. right. by exists o.
Qed.

Lemma fresh_not_undone b ps ts : buffer_ok b ps → snapshot_low (snapshot b) → ¬ known b ps ts → undone_in (undo_map (snapshot b)) ts = false.
Proof.
  intros Hb Hlow Hk. apply unmentioned_undone.
  - destruct (so_undos _ _ (bo_snapshot _ _ Hb)) as [H1 H2]. split_and!; [done|done|apply Hlow].
  - intros x Hx E. apply Hk. right. left. by exists x.
Qed.

Lemma buffer_edit_ok b ps edits z now now' : buffer_ok b ps → edit_fits b edits now →
  splice 0 (shown ps) edits = Some z → Forall (λ e, scalars e.2) edits →
  returns (BufferOps.edit P b edits now now') (λ '(b', op), ∃ ps', edited_by b ps edits b' ps' op ∧ shown ps' = z).
Proof.
  intros Hb [Hlow Hc Hfits Hops] Hz Hsc. unfold edit_pushes in Hops. unfold BufferOps.edit.
  destruct (edit_started b ps now Hb Hc) as (Es & Esub & Hh2 & Hh1 & Hd & Hopsb & Hedb & Hk & Hr & Hle & Hv & Hv' & Hp).
  set (b1 := (BufferOps.start_transaction_at b now).1) in *. cbn zeta in *. set (ts := lamport_clock b1) in *. cbn [LamportOps.tick] in *.
  set (b2 := BufferOps.set_clock b1 _) in *.
  assert (∀ t, t ∈ stamp <$> ps.*1 → t ∈ stamps ps.*1) as Hsub.
  { intros t (f & -> & Hf)%list_elem_of_fmap. apply elem_of_stamps. exists f. split; [done|by left]. }
  assert (ts ∉ stamp <$> ps.*1) as Hfresh by (intros Hin; apply Hk; left; by apply Hsub).
  assert (ts ≠ LamportOps.MIN) as Hmin by (intros E; rewrite E in Hv; cbn in Hv; lia).
  destruct (local_edit_ok b2 ps edits z ts) as ([b3 eop] & E3 & s' & ps' & subs' & -> & Hs' & Hfol & Hn & Hsame & Hseen & fulls & Hf & -> & Hsp); try done;
    cbn [b2 BufferOps.set_clock snapshot subscriptions]; rewrite ?Es, ?Esub; try done; [apply Hb|by apply (fresh_not_undone b ps)|apply Hb|].
  rewrite E3 in *. cbn [mbind option_bind history BufferOps.set_subscriptions BufferOps.set_snapshot] in *. cbn [op_timestamp edit_timestamp].
  set (op := OpEdit _) in *. assert (op_timestamp op = ts) as Eop by done.
  assert (map_at ts (operations (history b2)) = None) as Hnone.
  { destruct (map_at ts (operations (history b2))) eqn:E; [|done]. destruct Hk. right. right. rewrite <- Hopsb. by eexists. }
  change (history b2) with (history b1) in *.
  destruct (history_push_ok (history b1) ts op Hh1) as (h & Eh & Hh); [split; [left; by rewrite Eop|exact Hops]|].
  destruct (push_records _ _ _ _ Hh1 Eh) as (Hmap & Hu & Hre & Hdh & _). rewrite Eh. cbn [mbind option_bind]. rewrite Eop in *.
  destruct (push_undo_ok h ts ts Hh) as (h2 & E2 & Hh2').
  { split; [by rewrite Hdh, Hd; lia|]. intros Hin. pose proof (ok_recorded _ Hh1) as Hrec. rewrite Forall_forall in Hrec.
    destruct (Hrec ts) as (e & He); [|cbn [fst] in He; congruence]. cbn [fst]. unfold stacks in *. by rewrite Hu, Hre in Hin. }
  destruct (push_undo_edits h ts h2 E2) as (Eo2 & Ed2 & Hed2).
  rewrite E2. cbn [mbind option_bind]. set (b4 := BufferOps.observe_version _ _).
  destruct (end_transaction_at_ok b4 now' (LamportOps.tick ts).2) as ([b5 r] & E5 & h3 & -> & Hh3 & Eo3 & Ed3 & Hed3).
  { cbn. eapply history_later; [exact Hh2'|]. intros t. by apply passed_tick. }
  { cbn. rewrite Ed2, Hdh, Hd. lia. }
  rewrite E5. cbn [mbind option_bind]. apply returns_ret. exists ps'. split; [|done]. destruct Hsame as (Eum & Ever & _).
  cbn in Eo3, Ed3. assert (undo_map (snapshot (BufferOps.set_history b4 h3)) = undo_map (snapshot b)) as Eum'.
  { cbn. rewrite Eum. cbn. by rewrite Es. }
  assert (∀ t, map_at t (operations h3) = if decide (t = ts) then Some op else map_at t (operations (history b))) as Hmap3.
  { intros t. by rewrite Eo3, Eo2, Hmap, Hopsb. }
  assert (∀ t, known (BufferOps.set_history b4 h3) ps' t → t = ts ∨ known b ps t) as Hknown.
  { by apply (known_after b ps _ ps' ts op h3). }
  assert (transaction_depth h3 = transaction_depth (history b)) as Edep by (rewrite Ed3, Ed2, Hdh, Hd; lia).
  assert (value ts +u32 1 = value ts + 1) as Etick by exact (tick_value ts Hv').
  split; rewrite ?Eop; try done.
  - split; cbn [BufferOps.set_history snapshot history subscriptions lamport_clock b4 BufferOps.observe_version BufferOps.set_snapshot BufferOps.set_subscriptions b2 BufferOps.set_clock].
    + by apply set_version_ok.
    + exact Hh3.
    + by rewrite Hn.
    + intros t Ht. apply Hknown in Ht as [->|Ht]; [by apply passed_self|]. apply passed_tick; [done|]. by apply Hp.
    + intros (e & He). rewrite Hmap3 in He. case_decide as E; [rewrite <- E in Hv; cbn in Hv; lia|]. apply (bo_base _ _ Hb). by exists e.
    + cbn [value]. rewrite Etick. lia.
    + intros _. cbn [value]. rewrite Etick. lia.
  - cbn. fold ts. rewrite Etick. split; [done|lia].
  - exists fulls. unfold op. split; [|split; [done|by cbn in Hsp; rewrite Es in Hsp]]. do 2 f_equal. unfold BufferOps.version. cbn. by rewrite Es.
  - unfold BufferOps.version. cbn. unfold BufferOps.version. cbn. rewrite Ever. cbn. by rewrite Es.
  - intros t Ht. cbn in Ht. apply (elem_of_submseteq _ _ _ Ht) in Hed3. cbn in Hed3.
    assert (stack_edits h = stack_edits (history b)) as <- by (rewrite <- Hedb; unfold stack_edits, stacks; by rewrite Hu, Hre).
    unfold stack_edits in *. destruct Hed2 as [Hed2|Hed2]; rewrite Hed2 in Hed3; [by right|]. by apply elem_of_cons in Hed3.
  - unfold b4, b2. cbn. apply start_deferred.
Qed.
End editing.

(** ** Undoing *)

Section undoing.
Context (P : Platform) `{!PlatformLaws P}.
Implicit Types (b : Buffer) (ps : list part) (t : Transaction) (e : Lamport).

(** The recording of the operation, within [undo_or_redo]. *)
Definition undo_pushes b t : option History :=
  c ← BufferOps.undo_counts b (edit_ids t) ∅;
  '(b, op) ← BufferOps.undo_operations P b c;
  HistoryOps.push (history b) op.

Record undo_fits b t : Prop := {
  uf_snapshot : snapshot_low (snapshot b);
  uf_clock : value (lamport_clock b) + 1 < u32_modulus;
  uf_counts e : e ∈ edit_ids t → undo_count_of (undo_map (snapshot b)) e + 1 < u32_modulus;
  uf_undos u um : undo_of P b t = Some u → UndoMapOps.insert (sort_undos P) (undo_map (snapshot b)) u = Some um →
    (NodeOps.height um < STACK_CAPACITY)%nat;
  uf_operations h : undo_pushes b t = Some h → (NodeOps.height (operations h) < STACK_CAPACITY)%nat }.

(** The edits of [t] have changed sides. *)
Record toggled b ps t b' ps' (op : Operation) : Prop := {
  tg_ok : buffer_ok b' ps';
  tg_retouched : Forall2 retouched ps ps';
  tg_undone e : undone_in (undo_map (snapshot b')) e = xorb (undone_in (undo_map (snapshot b)) e) (bool_decide (e ∈ edit_ids t));
  tg_counts e : undo_count_of (undo_map (snapshot b')) e = undo_count_of (undo_map (snapshot b)) e + if decide (e ∈ edit_ids t) then 1 else 0;
  tg_op : ∃ u, op = OpUndo u ∧ undo_of P b t = Some u ∧ ¬ known b ps (timestamp u) ∧
    UndoMapOps.insert (sort_undos P) (undo_map (snapshot b)) u = Some (undo_map (snapshot b'));
  tg_stacks : undo_stack (history b') = undo_stack (history b) ∧ redo_stack (history b') = redo_stack (history b);
  tg_depth : transaction_depth (history b') = transaction_depth (history b);
  tg_edits e : is_edit (history b) e → is_edit (history b') e;
  tg_version : BufferOps.version b' = GlobalOps.observe (BufferOps.version b) (lamport_clock b) ∧
    lamport_clock b' = (LamportOps.tick (lamport_clock b)).2;
  tg_recorded (e : Lamport) : map_at e (operations (history b')) = if decide (e = op_timestamp op) then Some op else map_at e (operations (history b));
  tg_deferred : deferred_ops b' = deferred_ops b ∧ deferred_replicas b' = deferred_replicas b }.

Lemma retouched_view ps qs w : Forall2 retouched ps qs → view w qs = view w ps.
Proof.
  intros H. unfold view. f_equal. induction H as [|p q ps qs [Et _ Es _ _ Ed] _ IH]; [done|]. cbn [fmap list_fmap]. f_equal; [|done].
  unfold shows. by rewrite Et, Es, Ed.
Qed.

Lemma retouched_stamps ps qs : Forall2 retouched ps qs → stamps qs.*1 = stamps ps.*1.
Proof.
  intros H. unfold stamps. induction H as [|p q ps qs [_ _ Es _ _ Ed] _ IH]; [done|]. cbn [fmap list_fmap mbind list_bind]. by rewrite Es, Ed, IH.
Qed.

Lemma undo_or_redo_ok b ps t : buffer_ok b ps → undo_fits b t → Forall (is_edit (history b)) (edit_ids t) →
  returns (BufferOps.undo_or_redo P b t) (λ '(b', op), ∃ ps', toggled b ps t b' ps' op).
Proof.
  intros Hb [Hlow Hc Hcounts Hund Hops] Hedits. pose proof (bo_snapshot _ _ Hb) as Hok.
  assert (undo_ok (undo_map (snapshot b))) as Hm by (destruct (so_undos _ _ Hok) as [H1 H2]; split_and!; [done|done|apply Hlow]).
  destruct (undo_of_ok P b t Hm) as (u & Eu & Ets & Ever & Hwf & Hkeys & Hin). pose proof Eu as Eu'. unfold undo_of in Eu'. unfold BufferOps.undo_or_redo, undo_pushes in *.
  destruct (BufferOps.undo_counts b (edit_ids t) ∅) as [c|] eqn:Ecounts; [|done]. cbn [mbind option_bind] in *. injection Eu' as Eu'.
  unfold BufferOps.undo_operations in *. cbn [LamportOps.tick] in *. set (ts := lamport_clock b) in *. set (b1 := BufferOps.observe_version _ _) in *.
  rewrite Eu' in *. destruct (insert_ok (sort_undos P) _ _ u Hm Hwf) as (um & Eum & _ & _ & Hx). specialize (Hund u um Eu Eum).
  assert (base_stamp ∉ (counts u).*1) as Hbase.
  { rewrite Hkeys. intros Hi. rewrite Forall_forall in Hedits. by apply (bo_base _ _ Hb), Hedits. }
  destruct (apply_undo_ok (sort_slices_by_key P) (sort_ids P) (sort_undos P) _ _ _ (snapshot b1) ps (set_version_ok _ _ _ Hok) ltac:(by destruct Hlow) u Hwf Hbase um Eum Hund)
    as ([s' patch] & Es & qs & Hs' & Hre & Eums & (Eins & Esl & Evs & _) & Hp & _).
  destruct (bo_subscriptions _ _ Hb) as [seen Hrun]. destruct (publish_ok _ patch (Str.as_bytes (shown qs)) Hrun Hp) as (subs & Esubs & Hrun').
  cbn [topics] in Esubs. unfold BufferOps.apply_undo in *. rewrite Es in *. cbn [mbind option_bind] in *.
  change (subscriptions b1) with (subscriptions b) in *. rewrite Esubs in *. cbn [mbind option_bind] in *.
  cbn [history BufferOps.set_subscriptions BufferOps.set_snapshot b1 BufferOps.observe_version BufferOps.set_clock] in *.
  assert (known b ps ts → False) as Hk by (apply (fresh_clock b ps); [done|by left|done]).
  assert (map_at ts (operations (history b)) = None) as Hnone.
  { destruct (map_at ts (operations (history b))) eqn:E; [|done]. destruct Hk. right. right. by eexists. }
  set (op := OpUndo u) in *. assert (op_timestamp op = ts) as Eop by exact Ets.
  destruct (history_push_ok (history b) ts op (bo_history _ _ Hb)) as (h & Eh & Hh); [split; [left; by rewrite Eop|exact Hops]|].
  destruct (push_records _ _ _ _ (bo_history _ _ Hb) Eh) as (Hmap & Hu & Hred & Hdh & _). rewrite Eh. cbn [mbind option_bind]. rewrite Eop in *.
  apply returns_ret. exists qs.
  assert (undo_ok um) as Hum.
  { destruct (insert_ok (sort_undos P) _ _ u Hm Hwf) as (m1 & E1 & H1 & H2 & _). rewrite Eum in E1. injection E1 as <-. by split_and!. }
  assert (∀ e, undo_count_of um e = undo_count_of (undo_map (snapshot b)) e + (if decide (e ∈ edit_ids t) then 1 else 0) ∧
    undone_in um e = xorb (undone_in (undo_map (snapshot b)) e) (bool_decide (e ∈ edit_ids t))) as Hflip.
  { intros e. apply (undo_of_flips P b t u um e); try done. apply Hcounts. }
  set (b' := BufferOps.set_history _ h).
  assert (∀ t' : Lamport, known b' qs t' → t' = ts ∨ known b ps t') as Hknown.
  { intros t' [Ht|[(x & Hxin & Ht)|[o Ht]]].
    - right. left. by rewrite (retouched_stamps ps qs) in Ht.
    - right. cbn in Hxin. rewrite Eums in Hxin. apply Hx in Hxin as [[_ Hr]|[Hxin _]].
      + right. right. rewrite Forall_forall in Hedits. destruct (Hedits t') as (ed & Hed); [|by eexists].
        apply Hkeys. subst t'. by apply (list_elem_of_fmap_2 fst _ (edit_id (ukey x), entry_count x)).
      + right. left. by exists x.
    - cbn in Ht. rewrite Hmap in Ht. case_decide as E; [by left|right]. right. right. by exists o. }
  assert (value ts +u32 1 = value ts + 1) as Etick by exact (tick_value ts Hc).
  split; try done.
  - split; cbn [b' snapshot history subscriptions lamport_clock BufferOps.set_history BufferOps.set_snapshot BufferOps.set_subscriptions].
    + done.
    + eapply history_later; [exact Hh|]. intros t'. by apply passed_tick.
    + by exists seen.
    + intros t' Ht'. apply Hknown in Ht' as [->|Ht']; [by apply passed_self|]. apply passed_tick; [done|]. by apply (bo_clock _ _ Hb).
    + intros (e & He). rewrite Hmap in He. case_decide as E; [done|]. apply (bo_base _ _ Hb). by exists e.
    + cbn. fold ts. rewrite Etick. lia.
    + intros _. cbn. fold ts. rewrite Etick. pose proof (bo_started _ _ Hb) as H1. change (lamport_clock b) with ts in H1. lia.
  - intros e. cbn. rewrite Eums. apply Hflip.
  - intros e. cbn. rewrite Eums. apply Hflip.
  - exists u. split_and!; [done|done|by rewrite Ets|]. cbn. by rewrite Eums.
  - intros e (ed & He). exists ed. cbn. rewrite Hmap. rewrite decide_False; [done|]. intros ->. congruence.
  - intros e. cbn [b' history BufferOps.set_history]. by rewrite Hmap, Eop.
Qed.
End undoing.
