(* ===== verification/BufferRemote.v ===== *)
(** * Buffers receive what their replicas should

    A buffer holds, below its trees, a replica ([replica_of]). [apply_op] of
    [crates/text/src/text.rs] changes it as [receive] says, and keeps the
    invariant of buffers and what a buffer knows of its own version. *)

From stdpp Require Import gmap sets sorting.
From S2P Require Import Prelude Clock Locator Patch SumTree SumCursor CursorSpec KeyedTree TreeMap UndoMap Text Rope RopeText LineEnding Fragment Builders Snapshot Cells Convergence History Replica SnapshotSpec OperationQueue LocalEdit LocalEditSpec RemoteEdit RemoteEditSpec ApplyUndo ApplyUndoSpec Offsets Buffer BufferSpec BufferInv.
Import TreeOps.

#[local] Unset Default Proof Using.
#[local] Arguments Nat.mul : simpl never.
#[local] Open Scope N_scope.
#[local] Existing Instance LamportOps.cmp_total.

(** ** The replica of a buffer *)

Section replica.
Implicit Types (b : Buffer) (ps qs : list part) (m : UndoMap) (s : BufferSnapshot) (t e : Lamport) (x : UndoMapEntry).

Definition entry_of x : UndoEntry := (edit_id (ukey x), undo_id (ukey x), entry_count x).

Definition undos_of m : gset UndoEntry := list_to_set (entry_of <$> tree_items m).

Definition replica_of s ps : Replica := mkReplica (cells ps) (undos_of (undo_map s)).

Lemma highest_tops seen m e n : highest seen (tree_items m) e n → tops seen (undos_of m) e n.
Proof.
  unfold undos_of. intros [Hle Hex]. split.
  - intros u k Hin Hs. apply elem_of_list_to_set, list_elem_of_fmap in Hin as (x & [= -> -> ->] & Hx). by apply Hle.
  - destruct Hex as [->|(x & Hx & <- & Hs & <-)]; [by left|right]. exists (undo_id (ukey x)). split; [|done].
    apply elem_of_list_to_set. by apply (list_elem_of_fmap_2 entry_of _ x).
Qed.

Lemma top_count_undos seen m e : undo_ok m → UndoMapOps.count seen m e = Some (top_count seen (undos_of m) e).
Proof.
  intros Hm. rewrite (count_ok _ m e Hm). f_equal. eapply tops_unique; [|apply top_count_tops]. apply highest_tops, raise_highest.
Qed.

Lemma was_undone_replica m e V : undo_ok m → UndoMapOps.was_undone m e V = Some (was_at V (undos_of m) e).
Proof. intros Hm. unfold UndoMapOps.was_undone. by rewrite top_count_undos. Qed.

Lemma undone_in_replica m e : undo_ok m → undone_in m e = undone_at (undos_of m) e.
Proof. intros Hm. unfold undone_in, UndoMapOps.is_undone, UndoMapOps.undo_count. by rewrite top_count_undos. Qed.

Lemma snapshot_undos s ps : snapshot_ok s ps → snapshot_low s → undo_ok (undo_map s).
Proof. intros Hok Hlow. destruct (so_undos _ _ Hok) as [H1 H2]. split_and!; [done|done|apply Hlow]. Qed.

(** What the buffer shows, is what the replica shows. *)
Lemma shown_replica s ps : snapshot_ok s ps → undo_ok (undo_map s) → shown ps = replica_text (replica_of s ps).
Proof.
  intros Hok Hm. unfold replica_text, replica_of. cbn [rcells rundos].
  assert (shown ps = view (undone_in (undo_map s)) ps) as ->.
  { unfold shown, view, strips. f_equal. apply list_fmap_ext. intros i p Hp. f_equal. pose proof (so_shown _ _ Hok) as Hs.
    rewrite Forall_forall in Hs. apply Hs. apply list_elem_of_fmap_2. by eapply list_elem_of_lookup_2. }
  rewrite view_cells. unfold cell_text. f_equal. apply list_filter_iff. intros c. unfold cell_shows.
  rewrite (undone_in_replica _ _ Hm).
  assert (bool_decide (set_Forall (λ d, undone_in (undo_map s) d = true) (cmarks c)) =
    bool_decide (set_Forall (λ d, undone_at (undos_of (undo_map s)) d = true) (cmarks c))) as ->; [|done].
  apply bool_decide_ext. split; intros H d Hd; specialize (H d Hd); cbn in *.
  - by rewrite <- (undone_in_replica _ _ Hm).
  - by rewrite (undone_in_replica _ _ Hm).
Qed.

Lemma retouched_cells ps qs : Forall2 retouched ps qs → cells qs = cells ps.
Proof.
  induction 1 as [|p q ps qs [Et _ Es Eo _ Ed] _ IH]; [done|]. rewrite !cells_cons, IH. f_equal.
  unfold part_cells, fragment_marks. by rewrite Et, Es, Eo, Ed.
Qed.
End replica.

(** ** What a buffer knows of its version *)

Section versions.
Implicit Types (b : Buffer) (ps qs : list part) (t : Lamport) (V : Global).

Record versioned b ps : Prop := {
  ve_stamps t : t ∈ stamps ps.*1 → GlobalOps.observed (BufferOps.version b) t = true ∧ 0 < value t;
  ve_undos x : x ∈ tree_items (undo_map (snapshot b)) →
    GlobalOps.observed (BufferOps.version b) (edit_id (ukey x)) = true ∧ GlobalOps.observed (BufferOps.version b) (undo_id (ukey x)) = true;
  ve_clock r : GlobalOps.get (BufferOps.version b) r < value (lamport_clock b);
  ve_normal : normal (BufferOps.version b);
  ve_undo_map : undo_ok (undo_map (snapshot b)) }.

Lemma observed_self V t : GlobalOps.observed (GlobalOps.observe V t) t = true.
Proof. rewrite observed_iff, get_observe, N.eqb_refl. lia. Qed.

Lemma observed_more V t t' : GlobalOps.observed V t' = true → GlobalOps.observed (GlobalOps.observe V t) t' = true.
Proof. rewrite !observed_iff, get_observe. destruct (N.eqb_spec (replica_id t) (replica_id t')); lia. Qed.

Lemma observed_mono V W t : normal W → GlobalOps.observed_all V W = true → GlobalOps.observed W t = true → GlobalOps.observed V t = true.
Proof. intros Hn. rewrite observed_all_iff, !observed_iff by done. intros H Ht. specialize (H (replica_id t)). lia. Qed.

(** What a buffer has observed, its clock has passed. *)
Lemma versioned_passed b ps t : versioned b ps → GlobalOps.observed (BufferOps.version b) t = true → passed_by (lamport_clock b) t.
Proof. intros Hv Ht _. apply observed_iff in Ht. pose proof (ve_clock _ _ Hv (replica_id t)). lia. Qed.

End versions.

(** ** Applying an operation *)

Section applying.
Context (P : Platform) `{!PlatformLaws P}.
Implicit Types (b : Buffer) (ps qs : list part) (op : Operation) (t ts : Lamport) (c : Lamport).

(** What holds of the operations that replicas make. *)
Record op_valid op : Prop := {
  ov_value : 0 < value (op_timestamp op);
  ov_version : normal (op_version op);
  ov_made : op_made op;
  ov_data : match op with
    | OpEdit e => op_timestamp op ≠ base_stamp ∧ length (ranges e) = length (new_text e) ∧ Forall (λ s, scalars s ∧ clean s) (new_text e)
    | OpUndo u => well_formed u ∧ base_stamp ∉ (counts u).*1 ∧
        Forall (λ e, GlobalOps.observed (UndoMap.version u) e = true) (counts u).*1
    end }.

(** The trees fit the stacks of cursors, and the numbers their types. *)
Record op_fits b op : Prop := {
  of_snapshot : snapshot_low (snapshot b);
  of_clock : N.max (value (lamport_clock b)) (value (op_timestamp op)) + 1 < u32_modulus;
  of_data : match op with
    | OpEdit e => Str.length_utf8 (mjoin (new_text e)) < u32_modulus
    | OpUndo u => ∀ um, UndoMapOps.insert (sort_undos P) (undo_map (snapshot b)) u = Some um → (NodeOps.height um < STACK_CAPACITY)%nat
    end }.

(** The operation is new, and the buffer has what it builds on. Operations of
    the same replica are not ahead of its clock. *)
Record arrives b op : Prop := {
  ar_new : GlobalOps.observed (BufferOps.version b) (op_timestamp op) = false;
  ar_ready : GlobalOps.observed_all (BufferOps.version b) (op_version op) = true;
  ar_own : passed_by (lamport_clock b) (op_timestamp op) }.

Record received b ps op b' ps' (z : Replica) : Prop := {
  rc_ok : buffer_ok b' ps';
  rc_versioned : versioned b' ps';
  rc_replica : replica_of (snapshot b') ps' = z;
  rc_version : BufferOps.version b' = GlobalOps.observe (BufferOps.version b) (op_timestamp op);
  rc_clock : lamport_clock b' = LamportOps.observe (lamport_clock b) (op_timestamp op);
  rc_history : history b' = history b;
  rc_deferred : deferred_ops b' = deferred_ops b ∧ deferred_replicas b' = deferred_replicas b }.

Lemma observe_value c t : N.max (value c) (value t) + 1 < u32_modulus →
  value (LamportOps.observe c t) = N.max (value c) (value t) + 1.
Proof. intros H. cbn. unfold u32_add. by rewrite N.mod_small. Qed.

Lemma passed_observe c ts t : N.max (value c) (value ts) + 1 < u32_modulus → passed_by c t → passed_by (LamportOps.observe c ts) t.
Proof. intros Hc Ht Hr. specialize (Ht Hr). rewrite observe_value by done. lia. Qed.

(** The rest of a step that brings [ts]. *)
Lemma buffer_observe b ps s' ps' subs ts : buffer_ok b ps → versioned b ps → snapshot_ok s' ps' →
  (∃ seen, run_ok (mkRun subs (Str.as_bytes (shown ps')) seen)) → sversion s' = BufferOps.version b → undo_ok (undo_map s') →
  (∀ t, t ∈ stamps ps'.*1 → t = ts ∨ t ∈ stamps ps.*1) →
  (∀ x, x ∈ tree_items (undo_map s') → x ∈ tree_items (undo_map (snapshot b)) ∨
    GlobalOps.observed (BufferOps.version b) (edit_id (ukey x)) = true ∧ undo_id (ukey x) = ts) →
  passed_by (lamport_clock b) ts → 0 < value ts → N.max (value (lamport_clock b)) (value ts) + 1 < u32_modulus →
  let b' := BufferOps.set_clock (BufferOps.observe_version (BufferOps.set_subscriptions (BufferOps.set_snapshot b s') subs) ts)
    (LamportOps.observe (lamport_clock b) ts) in
  buffer_ok b' ps' ∧ versioned b' ps' ∧ BufferOps.version b' = GlobalOps.observe (BufferOps.version b) ts.
Proof.
  intros Hb Hv Hs Hsubs Ever Hum Hst Hun Hp Hpos Hc b'.
  assert (BufferOps.version b' = GlobalOps.observe (BufferOps.version b) ts) as Ev.
  { unfold BufferOps.version at 1. cbn. unfold BufferOps.version. cbn. by rewrite Ever. }
  pose proof (observe_value _ _ Hc) as Eval.
  assert (versioned b' ps') as Hv'.
  { split.
    - intros t [->|Ht]%Hst; rewrite Ev; [split; [apply observed_self|done]|]. destruct (ve_stamps _ _ Hv t Ht). split; [by apply observed_more|done].
    - intros x Hx. rewrite Ev. destruct (Hun x Hx) as [Hx'|[He ->]].
      + destruct (ve_undos _ _ Hv x Hx'). split; by apply observed_more.
      + split; [by apply observed_more|apply observed_self].
    - intros r. rewrite Ev, get_observe. cbn [b' lamport_clock BufferOps.set_clock]. rewrite Eval. pose proof (ve_clock _ _ Hv r) as Hown.
      destruct (N.eqb_spec (replica_id ts) r); lia.
    - rewrite Ev. apply normal_observe, Hv.
    - exact Hum. }
  split_and!; [|done|done]. destruct (bo_history _ _ Hb) as [Hh1 Hh2]. split.
  - by apply set_version_ok.
  - cbn. eapply history_later; [apply Hb|]. intros t. by apply passed_observe.
  - exact Hsubs.
  - intros t [Ht|[(x & Hx & Ht)|Ht]].
    + apply (versioned_passed b' ps'); [done|]. by apply (ve_stamps _ _ Hv').
    + apply (versioned_passed b' ps'); [done|]. subst t. by apply (ve_undos _ _ Hv').
    + apply passed_observe; [done|]. apply (bo_clock _ _ Hb). right. by right.
  - apply (bo_base _ _ Hb).
  - change (1 <= value (LamportOps.observe (lamport_clock b) ts)). rewrite Eval. lia.
  - intros _. change (2 <= value (LamportOps.observe (lamport_clock b) ts)). rewrite Eval. pose proof (bo_started _ _ Hb). lia.
Qed.

(** *** An edit *)

Lemma remote_edit_ok b ps e z : buffer_ok b ps → versioned b ps → op_valid (OpEdit e) → op_fits b (OpEdit e) → arrives b (OpEdit e) →
  receive (OpEdit e) (replica_of (snapshot b) ps) = Some z →
  returns (BufferOps.apply_op P b (OpEdit e)) (λ b', ∃ ps', received b ps (OpEdit e) b' ps' z).
Proof.
  intros Hb Hv [Hval Hnorm Hmade (_ & Hlen & Htexts)] [Hlow Hc Hlength] [Hnew Hready Hown] Hz. unfold op_made in Hmade. cbn [op_timestamp op_version] in *.
  pose proof (bo_snapshot _ _ Hb) as Hok. pose proof (snapshot_undos _ _ Hok Hlow) as Hm.
  assert (Forall (λ f, GlobalOps.observed (BufferOps.version b) (stamp f) = true ∧ 0 < value (stamp f)) ps.*1) as Hseen.
  { apply Forall_forall. intros f Hf. apply (ve_stamps _ _ Hv), elem_of_stamps. exists f. split; [done|by left]. }
  unfold BufferOps.apply_op, BufferOps.apply_remote_edit. rewrite Hnew. cbn [negb].
  cbn [receive] in Hz. destruct (integrate_op _ _) as [cs|] eqn:Ecs; [|done]. injection Hz as <-.
  destruct (apply_remote_edit_ok (snapshot b) ps Hok Hlow (edit_timestamp e)) with (V := edit_version e)
    (was := was_at (edit_version e) (undos_of (undo_map (snapshot b)))) (MAX_INSERTION_LEN := MAX_INSERTION_LEN P)
    (sort_insertions := sort_insertions P) (sort_slices := sort_slices P) (ranges := ranges e) (texts := new_text e) (z := cs)
    as ([s' patch] & E & nps & Hs' & [_ _ Hfol] & (Eum & Ever & _) & Hcells & Hp & _); try done.
  - apply unmentioned_undone; [done|]. intros x Hx Ex. destruct (ve_undos _ _ Hv x Hx) as [Ho _]. rewrite Ex in Ho. congruence.
  - eapply Forall_impl; [exact Hseen|]. by intros f [_ ?].
  - apply Forall_forall. intros f _ Hf. by apply Hmade.
  - apply platform_max.
  - intros t. by apply was_undone_replica.
  - apply platform_insertions.
  - apply platform_slices.
  - intros (f & Ef & Hf)%list_elem_of_fmap. rewrite Forall_forall in Hseen. destruct (Hseen f Hf) as [Ho _]. rewrite <- Ef in Ho. congruence.
  - intros Emin. rewrite Emin in Hval. cbn in Hval. lia.
  - rewrite E. cbn [mbind option_bind]. destruct (bo_subscriptions _ _ Hb) as [seen Hrun].
    assert (∃ subs, match patch with Some edits => TopicOps.publish (subscriptions b) edits | None => Some (subscriptions b) end = Some subs ∧
      run_ok (mkRun subs (Str.as_bytes (shown nps)) seen)) as (subs & -> & Hsubs).
    { destruct patch as [patch|]; cbn [default] in Hp.
      - destruct (publish_ok _ patch _ Hrun Hp) as (subs & Esubs & Hsubs). by exists subs.
      - apply patched_nil_inv in Hp. rewrite <- Hp. by exists (subscriptions b). }
    cbn [mbind option_bind]. apply returns_ret. exists nps.
    destruct (buffer_observe b ps s' nps subs (edit_timestamp e)) as (Hb' & Hv' & Ev); try done; [by exists seen|by rewrite Eum|by rewrite Eum; left|].
    split; try done. unfold replica_of. cbn. by rewrite Hcells, Eum.
Qed.

(** *** An undo *)

(** The map has the entries of the operation, and all that were there. *)
Lemma insert_fresh m u um x : undo_ok m → well_formed u → UndoMapOps.insert (sort_undos P) m u = Some um →
  (∀ y, y ∈ tree_items m → undo_id (ukey y) ≠ timestamp u) → x ∈ tree_items um ↔ records u x ∨ x ∈ tree_items m.
Proof.
  intros Hm Hwf Eum Hfresh. destruct (insert_ok (sort_undos P) platform_undos m u Hm Hwf) as (m1 & E1 & _ & _ & Hx).
  rewrite Eum in E1. injection E1 as <-. rewrite Hx. split; [intros [?|[? _]]; [by left|by right]|].
  intros [?|Hin]; [by left|right]. split; [done|]. intros [Hu _]. by apply (Hfresh x).
Qed.

Lemma undos_insert m u um : undo_ok m → well_formed u → UndoMapOps.insert (sort_undos P) m u = Some um →
  (∀ y, y ∈ tree_items m → undo_id (ukey y) ≠ timestamp u) → undos_of um = undos_of m ∪ undo_entries u.
Proof.
  intros Hm Hwf Eum Hfresh. apply set_eq. intros y. unfold undos_of, undo_entries. rewrite elem_of_union, !elem_of_list_to_set, !list_elem_of_fmap.
  setoid_rewrite (λ x, insert_fresh m u um x Hm Hwf Eum Hfresh). unfold records. split.
  - intros (x & -> & [[Hu Hr]|Hx]); [right|by left; exists x]. exists (edit_id (ukey x), entry_count x). split; [|done].
    unfold entry_of. cbn [fst snd]. by rewrite <- Hu.
  - intros [(x & -> & Hx)|([e n] & -> & Hr)]; [exists x; split; [done|by right]|].
    exists (mkUndoMapEntry (mkUndoMapKey e (timestamp u)) n). split; [done|by left].
Qed.

Lemma remote_undo_ok b ps u z : buffer_ok b ps → versioned b ps → op_valid (OpUndo u) → op_fits b (OpUndo u) → arrives b (OpUndo u) →
  receive (OpUndo u) (replica_of (snapshot b) ps) = Some z →
  returns (BufferOps.apply_op P b (OpUndo u)) (λ b', ∃ ps', received b ps (OpUndo u) b' ps' z).
Proof.
  intros Hb Hv [Hval Hnorm _ (Hwf & Hbase & Hedits)] [Hlow Hc Hheight] [Hnew Hready Hown] Hz. cbn [op_timestamp op_version] in *.
  injection Hz as <-. pose proof (bo_snapshot _ _ Hb) as Hok. pose proof (snapshot_undos _ _ Hok Hlow) as Hm.
  assert (∀ y, y ∈ tree_items (undo_map (snapshot b)) → undo_id (ukey y) ≠ timestamp u) as Hfresh.
  { intros y Hy Ey. destruct (ve_undos _ _ Hv y Hy) as [_ Ho]. rewrite Ey in Ho. congruence. }
  unfold BufferOps.apply_op, BufferOps.apply_undo. rewrite Hnew. cbn [negb].
  destruct (insert_ok (sort_undos P) platform_undos _ u Hm Hwf) as (um & Eum & _). specialize (Hheight um Eum).
  destruct (apply_undo_ok (sort_slices_by_key P) (sort_ids P) (sort_undos P) platform_slices_by_key platform_ids platform_undos (snapshot b) ps
    Hok Hlow u Hwf Hbase um Eum Hheight) as ([s' patch] & E & qs & Hs' & Hre & Eums & (_ & _ & Ever & _) & Hp & _).
  rewrite E. cbn [mbind option_bind]. destruct (bo_subscriptions _ _ Hb) as [seen Hrun].
  destruct (publish_ok _ patch _ Hrun Hp) as (subs & Esubs & Hsubs). cbn [topics] in Esubs. rewrite Esubs. cbn [mbind option_bind].
  apply returns_ret. exists qs.
  destruct (buffer_observe b ps s' qs subs (timestamp u)) as (Hb' & Hv' & Ev); try done.
  - by exists seen.
  - rewrite Eums. destruct (so_undos _ _ Hs') as [H1 H2]. rewrite Eums in H1, H2. by split_and!.
  - intros t Ht. right. by rewrite (retouched_stamps ps qs) in Ht.
  - intros x Hx. rewrite Eums in Hx. apply (insert_fresh _ _ _ _ Hm Hwf Eum Hfresh) in Hx as [[Hu Hr]|Hx]; [right|by left]. split; [|done].
    eapply observed_mono; [exact Hnorm|exact Hready|]. rewrite Forall_forall in Hedits. apply Hedits.
    by apply (list_elem_of_fmap_2 fst _ (edit_id (ukey x), entry_count x)).
  - split; try done. transitivity (mkReplica (cells qs) (undos_of (undo_map s'))); [done|].
    by rewrite (retouched_cells ps qs), Eums, (undos_insert (undo_map (snapshot b)) u um).
Qed.

(** The buffer does what the replica does. *)
Lemma apply_op_ok b ps op z : buffer_ok b ps → versioned b ps → op_valid op → op_fits b op → arrives b op →
  receive op (replica_of (snapshot b) ps) = Some z → returns (BufferOps.apply_op P b op) (λ b', ∃ ps', received b ps op b' ps' z).
Proof. destruct op; [apply remote_edit_ok|apply remote_undo_ok]. Qed.

(** What was observed is not applied again. *)
Lemma apply_op_again b op : GlobalOps.observed (BufferOps.version b) (op_timestamp op) = true → BufferOps.apply_op P b op = Some b.
Proof. destruct op; cbn; by intros ->. Qed.
End applying.

(** ** Operations of this replica *)

Section local.
Context (P : Platform) `{!PlatformLaws P}.
Implicit Types (b : Buffer) (ps : list part) (t : Lamport) (c : Cell) (edits : list (Range N * str)).

(** What was undone at the version of the buffer, is what is undone. *)
Lemma was_now b ps t : versioned b ps → undo_ok (undo_map (snapshot b)) →
  was_at (BufferOps.version b) (undos_of (undo_map (snapshot b))) t = undone_in (undo_map (snapshot b)) t.
Proof.
  intros Hv Hm. rewrite undone_in_replica by done. unfold was_at, undone_at. rewrite top_count_seen; [done|].
  intros e u k Hin. unfold undos_of in Hin. apply elem_of_list_to_set, list_elem_of_fmap in Hin as (x & [= -> -> ->] & Hx).
  by apply (ve_undos _ _ Hv).
Qed.

Lemma cells_observed b ps c t : versioned b ps → c ∈ cells ps → t = cstamp c ∨ t ∈ cmarks c → GlobalOps.observed (BufferOps.version b) t = true.
Proof.
  intros Hv Hc Ht. apply elem_of_cells in Hc as (f & Hf & Es & Em). apply (ve_stamps _ _ Hv), elem_of_stamps. exists f. split; [done|].
  rewrite Es, Em in Ht. unfold fragment_marks in Ht. rewrite elem_of_list_to_set in Ht. apply elem_of_cons. naive_solver.
Qed.

Lemma shown_now b ps c ts : versioned b ps → undo_ok (undo_map (snapshot b)) → c ∈ cells ps →
  delete_shown ts (undone_in (undo_map (snapshot b))) c =
  delete_cell (BufferOps.version b) (was_at (BufferOps.version b) (undos_of (undo_map (snapshot b)))) ts c.
Proof.
  intros Hv Hm Hc. unfold delete_shown, delete_cell. assert (∀ b1 b2 : bool, b1 = b2 → (if b1 then mark ts c else c) = if b2 then mark ts c else c) as Hif by by intros ? ? ->.
  apply Hif. unfold cell_shows, was_shown, Cells.known. rewrite (cells_observed b ps c) by auto. rewrite (was_now b ps) by done. cbn [andb]. f_equal.
  apply bool_decide_ext. split; intros H e He; specialize (H e He); cbn in *; rewrite (was_now b ps), (cells_observed b ps c) in * by auto; done.
Qed.

Lemma older_stamp b ps t ts : versioned b ps → value (lamport_clock b) <= value ts → GlobalOps.observed (BufferOps.version b) t = true →
  LamportOps.cmp t ts = Lt.
Proof.
  intros Hv Hle Ht. apply observed_iff in Ht. pose proof (ve_clock _ _ Hv (replica_id t)). unfold LamportOps.cmp.
  destruct (N.compare_spec (value t) (value ts)); [lia|done|lia].
Qed.

(** An edit of this replica is what its operation means. *)
Lemma local_edit_received b ps edits b' ps' op : edited_by b ps edits b' ps' op → buffer_ok b ps → versioned b ps → snapshot_low (snapshot b) →
  Forall (λ e, scalars e.2) edits →
  versioned b' ps' ∧ op_valid op ∧ op_version op = BufferOps.version b ∧
  receive op (replica_of (snapshot b) ps) = Some (replica_of (snapshot b') ps').
Proof.
  intros [Hb' (Hk & Hr & Hle) [Hr' Hle'] [_ _ Hst] (fulls & Eop & Hpl & Hsp) Hum Hver _ _ Hrec _] Hb Hv Hlow Hsc.
  pose proof (snapshot_undos _ _ (bo_snapshot _ _ Hb) Hlow) as Hm. set (ts := op_timestamp op) in *.
  assert (value ts < value (lamport_clock b')) as Hlt.
  { assert (passed_by (lamport_clock b') ts) as Hp; [|apply Hp; congruence]. apply (bo_clock _ _ Hb'). right. right. exists op. by rewrite Hrec, decide_True. }
  split_and!.
  - split.
    + intros t [->|Ht]%Hst; rewrite Hver.
      * split; [apply observed_self|]. pose proof (bo_started _ _ Hb). lia.
      * destruct (ve_stamps _ _ Hv t Ht). split; [by apply observed_more|done].
    + intros x Hx. rewrite Hum in Hx. rewrite Hver. destruct (ve_undos _ _ Hv x Hx). split; by apply observed_more.
    + intros r. rewrite Hver, get_observe. pose proof (ve_clock _ _ Hv r). destruct (_ =? r); lia.
    + rewrite Hver. apply normal_observe, Hv.
    + by rewrite Hum.
  - rewrite Eop. split; cbn [op_timestamp op_version edit_timestamp edit_version]; fold ts.
    + pose proof (bo_started _ _ Hb). lia.
    + apply Hv.
    + intros t Ht. by apply (older_stamp b ps).
    + split_and!.
      * intros E. apply (bo_base _ _ Hb'). rewrite <- E. eexists. rewrite Hrec, decide_True by done. by rewrite Eop.
      * cbn [ranges new_text]. unfold new_texts. rewrite length_fmap. symmetry. by eapply Forall2_length.
      * cbn [new_text]. unfold new_texts. apply Forall_fmap. eapply Forall_impl; [exact Hsc|]. intros e He. cbn.
        split; [by apply unix_lines_scalars|apply unix_lines_clean].
  - by rewrite Eop.
  - rewrite Eop. cbn [receive]. unfold integrate_op, integrate, edit_op.
    cbn [edit_version edit_timestamp ranges new_text replica_of rcells rundos Convergence.oversion oundone ostamp oedits].
    rewrite (spliced_integrate _ _ _ _ _ _ _ _ _ Hsp); [cbn [mbind option_bind]; unfold replica_of; by rewrite Hum|].
    apply Forall_forall. intros c Hc. split_and!.
    + unfold Cells.known. apply (cells_observed b ps c); auto.
    + unfold newer_cell. by rewrite (older_stamp b ps) by (done || apply (cells_observed b ps c); auto).
    + by apply shown_now with ps.
Qed.

(** So is an undo. *)
Lemma local_undo_received b ps tr b' ps' op : toggled P b ps tr b' ps' op → buffer_ok b ps → versioned b ps → snapshot_low (snapshot b) →
  Forall (is_edit (history b)) (edit_ids tr) → Forall (λ e, GlobalOps.observed (BufferOps.version b) e = true) (edit_ids tr) →
  value (lamport_clock b) + 1 < u32_modulus → (NodeOps.height (undo_map (snapshot b')) < STACK_CAPACITY)%nat →
  versioned b' ps' ∧ op_valid op ∧ op_version op = BufferOps.version b ∧
  receive op (replica_of (snapshot b) ps) = Some (replica_of (snapshot b') ps').
Proof.
  intros [Hb' Hre _ _ (u & -> & Eu & Hk & Eum) _ _ _ [Hver Hclock] _ _] Hb Hv Hlow Hedits Hobs Hc Hheight.
  pose proof (snapshot_undos _ _ (bo_snapshot _ _ Hb) Hlow) as Hm.
  destruct (undo_of_ok P b tr Hm) as (u' & Eu' & Ets & Evs & Hwf & Hkeys & _). rewrite Eu in Eu'. injection Eu' as <-.
  assert (∀ y, y ∈ tree_items (undo_map (snapshot b)) → undo_id (ukey y) ≠ timestamp u) as Hfresh.
  { intros y Hy E. destruct (ve_undos _ _ Hv y Hy) as [_ Ho]. rewrite E, Ets in Ho. apply (versioned_passed b ps) in Ho; [|done]. by eapply not_passed. }
  assert (value (lamport_clock b') = value (lamport_clock b) + 1) as Ev by by rewrite Hclock, tick_value.
  rewrite Forall_forall in Hobs. split_and!.
  - split.
    + intros t' Ht. rewrite (retouched_stamps ps ps') in Ht by done. rewrite Hver. destruct (ve_stamps _ _ Hv t' Ht). split; [by apply observed_more|done].
    + intros x Hx. rewrite Hver. apply (insert_fresh P _ _ _ _ Hm Hwf Eum Hfresh) in Hx as [[Hu Hr]|Hx].
      * split; [apply observed_more, Hobs, Hkeys; by apply (list_elem_of_fmap_2 fst _ (edit_id (ukey x), entry_count x))|].
        rewrite Hu, Ets. apply observed_self.
      * destruct (ve_undos _ _ Hv x Hx). split; by apply observed_more.
    + intros r. rewrite Hver, get_observe, Ev. pose proof (ve_clock _ _ Hv r). destruct (_ =? r); lia.
    + rewrite Hver. apply normal_observe, Hv.
    + destruct (so_undos _ _ (bo_snapshot _ _ Hb')) as [H1 H2]. by split_and!.
  - split; cbn [op_timestamp op_version].
    + rewrite Ets. pose proof (bo_started _ _ Hb). lia.
    + rewrite Evs. apply Hv.
    + intros t' Ht. unfold op_made in *. cbn [op_version op_timestamp] in *. rewrite Ets. rewrite Evs in Ht. by apply (older_stamp b ps).
    + split_and!; [done| |].
      * rewrite Hkeys. intros Hi. rewrite Forall_forall in Hedits. by apply (bo_base _ _ Hb), Hedits.
      * apply Forall_forall. intros e He. rewrite Evs. apply Hobs. by apply Hkeys.
  - exact Evs.
  - cbn [receive]. unfold replica_of. by rewrite (retouched_cells ps ps'), (undos_insert P (undo_map (snapshot b)) u (undo_map (snapshot b'))).
Qed.
End local.
