(* ===== verification/Delivery.v ===== *)
(** * Operations arrive in any order

    Operations of other replicas come in batches, out of order and more than
    once ([apply_ops] of [crates/text/src/text.rs]). What is not ready is
    deferred. Here: the operations that replicas have made ([made]), the state
    of a buffer that has some of them ([delivered]), and that batches keep it.
    When all have arrived, none is deferred and the buffer has the text that the
    operations have in the order in which they were made. *)

From stdpp Require Import gmap sets sorting.
From S2P Require Import Prelude Clock Locator Patch SumTree SumCursor CursorSpec SumIter KeyedTree TreeMap UndoMap Text Rope RopeText LineEnding Fragment Builders Snapshot Cells Convergence OperationQueue History Replica SnapshotSpec LocalEdit LocalEditSpec RemoteEdit RemoteEditSpec ApplyUndo ApplyUndoSpec Offsets Buffer BufferSpec BufferInv BufferRemote.
Import TreeOps.

#[local] Unset Default Proof Using.
#[local] Arguments Nat.mul : simpl never.
#[local] Open Scope N_scope.
#[local] Existing Instance LamportOps.cmp_total.

Lemma StronglySorted_filter {A} (R : relation A) (Q : A → Prop) `{!∀ x, Decision (Q x)} (l : list A) :
  StronglySorted R l → StronglySorted R (filter Q l).
Proof.
  induction 1 as [|x l _ IH Hx]; [constructor|]. rewrite filter_cons. case_decide; [|done]. constructor; [done|].
  rewrite Forall_forall in *. intros y [_ Hy]%list_elem_of_filter. by apply Hx.
Qed.

(** ** The operations that are made *)

(** All operations in an order in which they were made, from a replica [start]
    with the version [v0] on; [last] is the replica that has them all. A replica
    knows its own operations, and versions are made of operations. *)
Record made (start : Replica) (v0 : Global) (ops : list Operation) (last : Replica) : Prop := {
  ma_valid : Forall op_valid ops;
  ma_stamps : NoDup (op_timestamp <$> ops);
  ma_order : StronglySorted op_unaware ops;
  ma_last : receive_all ops start = Some last;
  ma_new o : o ∈ ops → GlobalOps.observed v0 (op_timestamp o) = false;
  ma_own o o' : o ∈ ops → o' ∈ ops → replica_id (op_timestamp o) = replica_id (op_timestamp o') →
    value (op_timestamp o) < value (op_timestamp o') → GlobalOps.observed (op_version o') (op_timestamp o) = true;
  ma_versions o r : o ∈ ops → GlobalOps.get (op_version o) r <= GlobalOps.get v0 r ∨
    ∃ o', o' ∈ ops ∧ op_timestamp o' = mkLamport (GlobalOps.get (op_version o) r) r }.

Section delivery.
Context (start : Replica) (v0 : Global) (U : list Operation) (last : Replica) (Hmade : made start v0 U last).
Implicit Types (b : Buffer) (ps : list part) (o : Operation) (done ops d : list Operation).

(** The buffer has the operations [done]. *)
Record delivered b ps done : Prop := {
  de_ok : buffer_ok b ps;
  de_versioned : versioned b ps;
  de_replica : receive_all done start = Some (replica_of (snapshot b) ps);
  de_members o : o ∈ done → o ∈ U;
  de_once : NoDup done;
  de_order : StronglySorted op_unaware done;
  de_closed o o' : o ∈ done → o' ∈ U → o' ∉ done → op_unaware o o';
  de_observed o : o ∈ U → GlobalOps.observed (BufferOps.version b) (op_timestamp o) = true ↔ o ∈ done;
  de_version r : GlobalOps.get v0 r <= GlobalOps.get (BufferOps.version b) r;
  de_known r : GlobalOps.get (BufferOps.version b) r <= GlobalOps.get v0 r ∨
    ∃ o, o ∈ done ∧ op_timestamp o = mkLamport (GlobalOps.get (BufferOps.version b) r) r;
  de_recorded t o : map_at t (operations (history b)) = Some o → o ∈ U ∧ op_timestamp o = t;
  de_edits t : t ∈ stack_edits (history b) → GlobalOps.observed (BufferOps.version b) t = true }.

(** An operation that can arrive: one of this replica has been made before. *)
Definition may_arrive b o : Prop := o ∈ U ∧ passed_by (lamport_clock b) (op_timestamp o).

Definition later_clock b b' : Prop :=
  replica_id (lamport_clock b') = replica_id (lamport_clock b) ∧ value (lamport_clock b) <= value (lamport_clock b').

Lemma may_arrive_later b b' o : later_clock b b' → may_arrive b o → may_arrive b' o.
Proof. intros [Er Hle] [Hin Hp]. split; [done|]. intros E. rewrite Er in E. specialize (Hp E). lia. Qed.

Lemma same_stamp o o' : o ∈ U → o' ∈ U → op_timestamp o = op_timestamp o' → o = o'.
Proof. intros H1 H2. apply (NoDup_key_inj op_timestamp U); [apply Hmade|done..]. Qed.

Lemma recorded_once b ps done o : delivered b ps done → o ∈ U → map_at (op_timestamp o) (operations (history b)) = None ∨
  map_at (op_timestamp o) (operations (history b)) = Some o.
Proof.
  intros Hd Hin. destruct (map_at _ _) as [o'|] eqn:E; [right|by left]. apply (de_recorded _ _ _ Hd) in E as [Hin' E]. by rewrite (same_stamp o' o).
Qed.

Lemma made_valid o : o ∈ U → op_valid o.
Proof. intros Ho. pose proof (ma_valid _ _ _ _ Hmade) as H. rewrite Forall_forall in H. by apply H. Qed.

(** What is to come after [done], and can come in the order of [U]. *)
Lemma to_come done : (∀ o, o ∈ done → o ∈ U) → NoDup done → StronglySorted op_unaware done →
  (∀ o o', o ∈ done → o' ∈ U → o' ∉ done → op_unaware o o') →
  U ≡ₚ done ++ filter (.∉ done) U ∧ StronglySorted op_unaware (done ++ filter (.∉ done) U) ∧
  receive_all (done ++ filter (.∉ done) U) start = Some last.
Proof.
  intros Hm Hn Ho Hc. assert (NoDup U) as HU by (apply (NoDup_fmap_1 op_timestamp), Hmade).
  assert (U ≡ₚ done ++ filter (.∉ done) U) as Hp.
  { apply NoDup_Permutation; [done| |].
    - apply NoDup_app. split_and!; [done| |by apply NoDup_filter]. intros o Hin [Hni _]%list_elem_of_filter. done.
    - intros o. rewrite elem_of_app, list_elem_of_filter. split; [|intros [Hin|[_ ?]]; [by apply Hm|done]].
      intros Hin. destruct (decide (o ∈ done)); [by left|by right]. }
  assert (StronglySorted op_unaware (done ++ filter (.∉ done) U)) as Hs.
  { apply StronglySorted_app. split_and!; [|done|apply StronglySorted_filter, Hmade].
    intros o o' Hin [Hni ?]%list_elem_of_filter. by apply Hc. }
  split_and!; [done|done|]. apply (receive_all_permuted U); try done; apply Hmade || (apply (Forall_impl op_valid); [apply Hmade|by intros o []]).
Qed.

(** An operation that is ready has a meaning. *)
Lemma ready_receives b ps done o : delivered b ps done → o ∈ U → o ∉ done →
  GlobalOps.observed_all (BufferOps.version b) (op_version o) = true →
  StronglySorted op_unaware (done ++ [o]) ∧ (∀ o1 o2, o1 ∈ done ++ [o] → o2 ∈ U → o2 ∉ done ++ [o] → op_unaware o1 o2) ∧
  ∃ z, receive o (replica_of (snapshot b) ps) = Some z.
Proof.
  intros [_ _ Hr Hm Hn Ho Hc Hobs _ _ _ _] Hin Hnew Hready.
  assert (∀ o2, o2 ∈ U → o2 ∉ done → op_unaware o o2) as Hun.
  { intros o2 Hin2 Hni. unfold op_unaware. destruct (GlobalOps.observed (op_version o) _) eqn:E; [|done]. exfalso. apply Hni, Hobs; [done|].
    eapply observed_mono; [|exact Hready|exact E]. by destruct (made_valid o Hin). }
  assert (StronglySorted op_unaware (done ++ [o])) as Hs.
  { apply StronglySorted_app. split_and!; [|done|by repeat constructor]. intros o1 o2 H1 ->%list_elem_of_singleton. by apply Hc. }
  assert (∀ o1 o2, o1 ∈ done ++ [o] → o2 ∈ U → o2 ∉ done ++ [o] → op_unaware o1 o2) as Hc'.
  { intros o1 o2 [H1| ->%list_elem_of_singleton]%elem_of_app H2 H3; [apply Hc|apply Hun]; set_solver. }
  split_and!; [done|done|].
  destruct (to_come (done ++ [o])) as (_ & _ & Hrec); [set_solver| |done|done|].
  { apply NoDup_app. split_and!; [done|set_solver|apply NoDup_singleton]. }
  unfold receive_all in *. rewrite !run_steps_app, Hr in Hrec. cbn [mbind option_bind run_steps] in Hrec.
  destruct (receive o _) as [z|]; [by exists z|done].
Qed.

(** The buffer after a step that brings [o]. *)
Lemma delivered_after b ps done o b' ps' : delivered b ps done → o ∈ U → o ∉ done →
  GlobalOps.observed_all (BufferOps.version b) (op_version o) = true → buffer_ok b' ps' → versioned b' ps' →
  receive o (replica_of (snapshot b) ps) = Some (replica_of (snapshot b') ps') →
  BufferOps.version b' = GlobalOps.observe (BufferOps.version b) (op_timestamp o) →
  (∀ t, map_at t (operations (history b')) = map_at t (operations (history b)) ∨
    t = op_timestamp o ∧ map_at t (operations (history b')) = Some o) →
  (∀ t, t ∈ stack_edits (history b') → t = op_timestamp o ∨ t ∈ stack_edits (history b)) →
  delivered b' ps' (done ++ [o]).
Proof.
  intros Hd Hin Hnew Hready Hb' Hv' Hz Ev Eh Hed. destruct (ready_receives b ps done o Hd Hin Hnew Hready) as (Hs & Hc & _).
  pose proof Hd as [Hb Hv Hr Hm Hn _ _ Hobs Hver Hknown Hrec Hedits]. pose proof (made_valid o Hin) as Hval. split; try done.
  - unfold receive_all in *. rewrite run_steps_app, Hr. cbn. by rewrite Hz.
  - set_solver.
  - apply NoDup_app. split_and!; [done|set_solver|apply NoDup_singleton].
  - intros o' Hin'. rewrite Ev. split; [|intros [?| ->%list_elem_of_singleton]%elem_of_app; [apply observed_more; by apply Hobs|apply observed_self]].
    intros Ho'. rewrite observed_iff, get_observe in Ho'. destruct (N.eqb_spec (replica_id (op_timestamp o)) (replica_id (op_timestamp o'))) as [E|E].
    2:{ apply elem_of_app. left. apply Hobs; [done|]. by apply observed_iff. }
    destruct (N.le_gt_cases (value (op_timestamp o')) (GlobalOps.get (BufferOps.version b) (replica_id (op_timestamp o')))) as [Hle|Hgt].
    { apply elem_of_app. left. apply Hobs; [done|]. by apply observed_iff. }
    apply elem_of_app. destruct (N.eq_dec (value (op_timestamp o')) (value (op_timestamp o))) as [E2|E2].
    + right. apply list_elem_of_singleton. apply same_stamp; [done|done|]. destruct (op_timestamp o), (op_timestamp o'). cbn in *. congruence.
    + left. apply Hobs; [done|]. eapply observed_mono; [|exact Hready|]; [by destruct Hval|].
      apply (ma_own _ _ _ _ Hmade); [done|done|done|lia].
  - intros r. rewrite Ev, get_observe. specialize (Hver r). destruct (_ =? _); lia.
  - intros r. rewrite Ev, get_observe. destruct (N.eqb_spec (replica_id (op_timestamp o)) r) as [<-|Hr'].
    2:{ destruct (Hknown r) as [?|(o' & ? & ?)]; [by left|right]. exists o'. set_solver. }
    destruct (N.max_spec (GlobalOps.get (BufferOps.version b) (replica_id (op_timestamp o))) (value (op_timestamp o))) as [[_ ->]|[_ ->]].
    + right. exists o. split; [set_solver|by destruct (op_timestamp o)].
    + destruct (Hknown (replica_id (op_timestamp o))) as [?|(o' & ? & ?)]; [by left|right]. exists o'. set_solver.
  - intros t o' E. destruct (Eh t) as [Et|[-> Et]]; rewrite Et in E; [by apply Hrec|]. by injection E as <-.
  - intros t [->|Ht]%Hed; rewrite Ev; [apply observed_self|by apply observed_more, Hedits].
Qed.

Context (P : Platform) `{!PlatformLaws P}.

(** An operation is applied. *)
Lemma deliver_one b ps done o : delivered b ps done → may_arrive b o → o ∉ done →
  GlobalOps.observed_all (BufferOps.version b) (op_version o) = true → op_fits P b o →
  returns (BufferOps.apply_op P b o) (λ b', ∃ ps', delivered b' ps' (done ++ [o]) ∧ history b' = history b ∧ later_clock b b' ∧
    deferred_ops b' = deferred_ops b ∧ deferred_replicas b' = deferred_replicas b).
Proof.
  intros Hd [Hin Hown] Hnew Hready Hfits. destruct (ready_receives b ps done o Hd Hin Hnew Hready) as (_ & _ & z & Hz).
  pose proof Hd as [Hb Hv _ _ _ _ _ Hobs _ _ _ _].
  assert (GlobalOps.observed (BufferOps.version b) (op_timestamp o) = false) as Hunseen.
  { destruct (GlobalOps.observed _ _) eqn:E; [|done]. by apply Hobs in E. }
  eapply returns_mono; [apply (apply_op_ok P b ps o z Hb Hv (made_valid o Hin) Hfits); [done|done]|].
  intros b' (ps' & [Hb' Hv' Hz' Ev Ec Eh [Ed1 Ed2]]). exists ps'. split.
  2: { split_and!; try done. unfold later_clock. rewrite Ec, observe_value by apply Hfits. split; [done|lia]. }
  apply (delivered_after b ps done o b' ps'); try done; [by rewrite Hz'|..]; intros t; rewrite Eh; [by left|by right].
Qed.

(** ** The loops *)

Definition grown b done b' ps' done' : Prop :=
  delivered b' ps' done' ∧ (∃ l, done' = done ++ l) ∧ deferred_ops b' = deferred_ops b ∧ later_clock b b'.

Lemma grown_here b ps done : delivered b ps done → grown b done b ps done.
Proof. intros Hd. split_and!; [done|exists []; by rewrite app_nil_r|done..]. Qed.

(** The trees fit when the operation is applied. *)
Definition apply_fits b o : Prop :=
  BufferOps.can_apply_op b o = true → GlobalOps.observed (BufferOps.version b) (op_timestamp o) = false → op_fits P b o.

Lemma set_deferred_delivered b ps done q r : delivered b ps done → delivered (BufferOps.set_deferred b q r) ps done.
Proof. intros [[] []]. by split. Qed.

Lemma apply_or_defer_ok b ps done d o : delivered b ps done → may_arrive b o → apply_fits b o →
  returns (BufferOps.apply_or_defer P b d o) (λ '(b', d'), ∃ ps' done', grown b done b' ps' done' ∧ history b' = history b ∧
    if BufferOps.can_apply_op b o then d' = d ∧ o ∈ done' ∧ deferred_replicas b' = deferred_replicas b
    else d' = d ++ [o] ∧ done' = done).
Proof.
  intros Hd Hin Hfits. unfold BufferOps.apply_or_defer, apply_fits in *. destruct (BufferOps.can_apply_op b o) eqn:Ecan.
  2:{ apply returns_ret. exists ps, done. split; [|by split_and!].
    split_and!; [by apply set_deferred_delivered|exists []; by rewrite app_nil_r|done|done]. }
  assert (GlobalOps.observed_all (BufferOps.version b) (op_version o) = true) as Hready.
  { unfold BufferOps.can_apply_op in Ecan. by case_bool_decide. }
  destruct (decide (o ∈ done)) as [Hold|Hnew].
  - rewrite apply_op_again by by apply (de_observed _ _ _ Hd); [apply Hin|]. apply returns_ret. exists ps, done. split; [by apply grown_here|by split_and!].
  - eapply returns_bind; [apply (deliver_one b ps done o Hd Hin Hnew Hready), Hfits; [done|]|].
    { destruct (GlobalOps.observed _ _) eqn:E; [|done]. by apply (de_observed _ _ _ Hd) in E; [|apply Hin]. }
    intros b' (ps' & Hd' & Eh & Hl & E1 & E2). apply returns_ret. exists ps', (done ++ [o]). split; [split_and!; [done|by exists [o]|done|done]|]. split_and!; [done|done|set_solver|done].
Qed.

Fixpoint flush_fits b d ops : Prop :=
  match ops with
  | [] => ∀ q, QueueOps.insert (sort_ops P) (sort_queue P) (deferred_ops b) d = Some q → (NodeOps.height q < STACK_CAPACITY)%nat
  | o :: ops => apply_fits b o ∧ ∀ b' d', BufferOps.apply_or_defer P b d o = Some (b', d') → flush_fits b' d' ops
  end.

Lemma grown_trans b done b1 ps1 done1 b2 ps2 done2 : grown b done b1 ps1 done1 → grown b1 done1 b2 ps2 done2 → grown b done b2 ps2 done2.
Proof.
  intros (_ & [l ->] & E1 & [R1 V1]) (H & [k ->] & E2 & [R2 V2]).
  split_and!; [done|exists (l ++ k); by rewrite app_assoc|congruence|split; [congruence|lia]].
Qed.

Lemma grown_arrive b done b' ps' done' ops : grown b done b' ps' done' → Forall (may_arrive b) ops → Forall (may_arrive b') ops.
Proof. intros (_ & _ & _ & Hl) H. eapply Forall_impl; [exact H|]. intros o. by apply may_arrive_later. Qed.

Lemma grown_in b done b' ps' done' o : grown b done b' ps' done' → o ∈ done → o ∈ done'.
Proof. intros (_ & [l ->] & _ & _) Ho. set_solver. Qed.

(** What the loops leave: each operation is applied or deferred. *)
Definition sorted_out b done ops d b' d' : Prop :=
  ∃ ps' done' k, grown b done b' ps' done' ∧ d' = d ++ k ∧ (∀ o, o ∈ k → o ∈ ops) ∧ ∀ o, o ∈ ops → o ∈ done' ∨ o ∈ k.

Lemma flush_loop_ok b ps done d ops : delivered b ps done → Forall (may_arrive b) ops → flush_fits b d ops →
  returns (BufferOps.flush_loop P b d ops) (λ '(b', d'), sorted_out b done ops d b' d' ∧ flush_fits b' d' []).
Proof.
  revert b ps done d. induction ops as [|o ops IH]; intros b ps done d Hd Hops Hfits; cbn [BufferOps.flush_loop].
  { apply returns_ret. split; [|done]. exists ps, done, [].
    split_and!; [by apply grown_here|by rewrite app_nil_r|done|by intros o ?%elem_of_nil]. }
  apply Forall_cons in Hops as [Hin Hops].
  destruct Hfits as [Hfit Hfits]. destruct (apply_or_defer_ok b ps done d o Hd Hin Hfit) as ([b1 d1] & E & ps1 & done1 & Hg & Eh & Hcase).
  rewrite E. cbn [mbind option_bind]. eapply returns_mono; [by apply (IH b1 ps1 done1 d1); [apply Hg|by eapply grown_arrive|apply Hfits]|].
  intros [b2 d2] [(ps2 & done2 & k & Hg2 & -> & Hk & Hall) Hend]. split; [|done]. pose proof (grown_trans _ _ _ _ _ _ _ _ Hg Hg2) as Hg'.
  destruct (BufferOps.can_apply_op b o).
  - destruct Hcase as (-> & Ho & _). exists ps2, done2, k. split_and!; [done|done|intros o' ?; right; by apply Hk|].
    intros o' [->|Ho']%elem_of_cons; [left; exact (grown_in _ _ _ _ _ _ Hg2 Ho)|by apply Hall].
  - destruct Hcase as (-> & ->). exists ps2, done2, (o :: k). split_and!; [done|by rewrite <- app_assoc| |].
    + intros o' [->|Ho']%elem_of_cons; [by left|right; by apply Hk].
    + intros o' [->|Ho']%elem_of_cons; [right; by left|]. destruct (Hall o' Ho'); [by left|right; by right].
Qed.

(** *** All at once *)

Lemma all_ready b ps done o : delivered b ps done → o ∈ U →
  (∀ o', o' ∈ U → LamportOps.cmp (op_timestamp o') (op_timestamp o) = Lt → o' ∈ done) →
  GlobalOps.observed_all (BufferOps.version b) (op_version o) = true.
Proof.
  intros Hd Hin Hall. destruct (made_valid o Hin) as [_ Hnorm Hmd _]. apply observed_all_iff; [done|]. intros r.
  destruct (ma_versions _ _ _ _ Hmade o r Hin) as [Hle|(o' & Hin' & Et)]; [pose proof (de_version _ _ _ Hd r); lia|].
  assert (o' ∈ done) as Ho'.
  { apply Hall; [done|]. apply Hmd, observed_iff. by rewrite Et. }
  apply (de_observed _ _ _ Hd o' Hin'), observed_iff in Ho'. by rewrite Et in Ho'.
Qed.

(** When nothing is missing, the loop in the order of timestamps applies all. *)
Lemma flush_all b ps done d ops : delivered b ps done → Forall (may_arrive b) ops → flush_fits b d ops → deferred_replicas b = ∅ →
  ksorted LamportOps.cmp ops → (∀ o, o ∈ U → o ∈ done ∨ o ∈ ops) →
  returns (BufferOps.flush_loop P b d ops) (λ '(b', d'), d' = d ∧ deferred_replicas b' = ∅ ∧
    ∃ ps' done', grown b done b' ps' done' ∧ ∀ o, o ∈ U → o ∈ done').
Proof.
  revert b ps done. induction ops as [|o ops IH]; intros b ps done Hd Hops Hfits Hrep Hs Hall; cbn [BufferOps.flush_loop].
  { apply returns_ret. split_and!; [done|done|]. exists ps, done. split; [by apply grown_here|].
    intros o Ho. by destruct (Hall o Ho) as [?| ?%elem_of_nil]. }
  apply Forall_cons in Hops as [Hin Hops]. apply StronglySorted_cons in Hs as [Hhd Hs]. destruct Hfits as [Hfit Hfits].
  assert (BufferOps.can_apply_op b o = true) as Ecan.
  { unfold BufferOps.can_apply_op. rewrite bool_decide_eq_false_2 by (rewrite Hrep; set_solver). apply (all_ready b ps done o Hd (proj1 Hin)).
    intros o' Hin' Hlt. destruct (Hall o' Hin') as [?|[->|Ho']%elem_of_cons]; [done| |].
    - by rewrite (ord_refl LamportOps.cmp) in Hlt.
    - rewrite Forall_forall in Hhd. specialize (Hhd o' Ho'). unfold key_lt in Hhd. cbn in Hhd. rewrite (ord_antisym LamportOps.cmp) in Hlt.
      unfold lamport_timestamp, operation_timestamped in Hhd. by rewrite Hhd in Hlt. }
  destruct (apply_or_defer_ok b ps done d o Hd Hin Hfit) as ([b1 d1] & E & ps1 & done1 & Hg & Eh & Hcase).
  rewrite Ecan in Hcase. destruct Hcase as (-> & Ho & Er). rewrite E. cbn [mbind option_bind].
  eapply returns_mono; [apply (IH b1 ps1 done1); [apply Hg|by eapply grown_arrive|by apply Hfits|congruence|done|]|].
  - intros o' Hin'. destruct (Hall o' Hin') as [Hd'|[->|?]%elem_of_cons]; [left; exact (grown_in _ _ _ _ _ _ Hg Hd')|by left|by right].
  - intros [b2 d2] (-> & Er2 & ps2 & done2 & Hg2 & Hall2). split_and!; [done|done|]. exists ps2, done2. split; [by eapply grown_trans|done].
Qed.

(** ** The queue *)

Definition waiting b : Prop := queue_ok (deferred_ops b) ∧ ∀ o, o ∈ tree_items (deferred_ops b) → may_arrive b o.

Lemma defer_ops_ok b d : waiting b → Forall (may_arrive b) d →
  (∀ q, QueueOps.insert (sort_ops P) (sort_queue P) (deferred_ops b) d = Some q → (NodeOps.height q < STACK_CAPACITY)%nat) →
  returns (BufferOps.defer_ops P b d) (λ b', ∃ q, b' = BufferOps.set_deferred b q (deferred_replicas b) ∧ waiting b' ∧
    ∀ o, o ∈ tree_items q ↔ o ∈ d ∨ o ∈ tree_items (deferred_ops b)).
Proof.
  intros [Hq Hin] Hd Hlow. rewrite Forall_forall in Hd. unfold BufferOps.defer_ops.
  destruct (@queue_insert_ok Operation operation_timestamped (sort_ops P) (sort_queue P) platform_ops platform_queue (deferred_ops b) d Hq) as (q & E & [Hok Hs] & H1 & H2 & H3 & _).
  rewrite E. apply returns_ret. exists q. split; [done|].
  assert (∀ o, o ∈ tree_items q → may_arrive b o) as HU by (intros o Ho; destruct (H1 o Ho) as [?|[? _]]; [by apply Hd|by apply Hin]).
  assert (∀ o, o ∈ d → o ∈ tree_items q) as H3'.
  { intros o Ho. pose proof (H3 o Ho) as (o' & Et & Ho')%list_elem_of_fmap. rewrite (same_stamp o o'); [done|by apply Hd|by apply HU|exact Et]. }
  split.
  - split; [split_and!; [done|done|by apply Hlow]|done].
  - intros o. split; [intros [?|[? _]]%H1; [by left|by right]|]. intros [Ho|Ho]; [by apply H3'|].
    destruct (decide (lamport_timestamp o ∈ lamport_timestamp <$> d)) as [(o' & Et & Ho')%list_elem_of_fmap|Hni]; [|by apply H2].
    rewrite (same_stamp o o'); [by apply H3'|by apply Hin|by apply Hd|exact Et].
Qed.

(** A step of the buffer with what waits. *)
Record progressed b done ops b' ps' done' : Prop := {
  pr_delivered : delivered b' ps' done';
  pr_grown : ∃ l, done' = done ++ l;
  pr_clock : later_clock b b';
  pr_waiting : waiting b';
  pr_kept o : o ∈ ops ∨ o ∈ tree_items (deferred_ops b) → o ∈ done' ∨ o ∈ tree_items (deferred_ops b');
  pr_arrived o : o ∈ tree_items (deferred_ops b') → o ∈ ops ∨ o ∈ tree_items (deferred_ops b) }.

Lemma new_queue_ok : queue_ok (TreeOps.new () : Node Operation OperationSummary).
Proof. split_and!; [apply tree_ok_new|constructor|apply Nat.ltb_lt; reflexivity]. Qed.

Lemma flush_deferred_ok b ps done : delivered b ps done → waiting b →
  flush_fits (BufferOps.set_deferred b (TreeOps.new ()) ∅) [] (tree_items (deferred_ops b)) →
  returns (BufferOps.flush_deferred_ops P b) (λ b', ∃ ps' done', progressed b done [] b' ps' done' ∧
    ((∀ o, o ∈ U → o ∈ done ∨ o ∈ tree_items (deferred_ops b)) → tree_items (deferred_ops b') = [] ∧ ∀ o, o ∈ U → o ∈ done')).
Proof.
  intros Hd [Hq Hin] Hfits. unfold BufferOps.flush_deferred_ops. cbn [QueueOps.drain].
  assert (QueueOps.iter (deferred_ops b) = Some (tree_items (deferred_ops b))) as -> by (destruct Hq as (H1 & H2 & H3); by apply (to_list_ok ())).
  cbn [mbind option_bind]. set (b0 := BufferOps.set_deferred b (TreeOps.new ()) ∅) in *.
  assert (delivered b0 ps done) as Hd0 by by apply set_deferred_delivered.
  assert (Forall (may_arrive b0) (tree_items (deferred_ops b))) as HU by by apply Forall_forall.
  destruct (flush_loop_ok b0 ps done [] _ Hd0 HU Hfits) as ([b1 d1] & E & (ps1 & done1 & k & (Hd1 & Hgrow & Eq & Hl) & -> & Hk & Hall) & Hend).
  rewrite E. cbn [mbind option_bind app] in *. assert (deferred_ops b1 = TreeOps.new ()) as Eq' by by rewrite Eq.
  destruct (defer_ops_ok b1 k) as (b2 & E2 & q & -> & Hw & Hiff); [split; rewrite Eq'; [apply new_queue_ok|by intros o ?%elem_of_nil]| |done|].
  { apply Forall_forall. intros o Ho. by apply (may_arrive_later b), Hin, Hk. }
  rewrite Eq' in Hiff. assert (∀ o, o ∈ tree_items q ↔ o ∈ k) as Hiff'.
  { intros o. rewrite Hiff. split; [|by left]. intros [?|H]; [done|]. by apply not_elem_of_nil in H. }
  exists (BufferOps.set_deferred b1 q (deferred_replicas b1)). split; [done|]. exists ps1, done1. split.
  - split; [by apply set_deferred_delivered|done|done|done| |].
    + intros o [?%elem_of_nil|Ho]; [done|]. destruct (Hall o Ho) as [?|?]; [by left|right]. by apply Hiff'.
    + intros o Ho%Hiff'. right. by apply Hk.
  - intros Hcomplete. destruct (flush_all b0 ps done [] _ Hd0 HU Hfits) as ([b1' d1'] & E' & -> & _ & ps2 & done2 & _ & Hall2); [done|apply Hq|done|].
    rewrite E in E'. injection E' as <- ->. cbn [deferred_ops BufferOps.set_deferred]. split.
    + destruct (tree_items q) as [|o l]; [done|]. destruct (proj1 (elem_of_nil o)). apply Hiff'. by left.
    + destruct Hgrow as [l ->]. intros o Ho. destruct (Hcomplete o Ho) as [?|Hit]; [set_solver|]. by destruct (Hall o Hit) as [?| ?%elem_of_nil].
Qed.

(** ** Batches *)

Lemma waiting_later b b' : deferred_ops b' = deferred_ops b → later_clock b b' → waiting b → waiting b'.
Proof. intros E Hl [Hq Hin]. unfold waiting. rewrite E. split; [done|]. intros o Ho. by apply (may_arrive_later b), Hin. Qed.

(** An operation of others is recorded. *)
Lemma push_delivered b ps done o : delivered b ps done → may_arrive b o →
  (∀ h, HistoryOps.push (history b) o = Some h → (NodeOps.height (operations h) < STACK_CAPACITY)%nat) →
  returns (HistoryOps.push (history b) o) (λ h, delivered (BufferOps.set_history b h) ps done).
Proof.
  intros Hd [Hin Hclock] Hlow. pose proof Hd as [Hb [Hv1 Hv2 Hv3 Hv4 Hv5] Hr Hm Hn Ho Hc Hobs Hver Hknown Hrec Hedits].
  destruct (history_push_ok (history b) (lamport_clock b) o (bo_history _ _ Hb)) as (h & E & Hh); [split; [by eapply recorded_once|done]|].
  rewrite E. apply returns_ret. destruct (push_records _ _ _ _ (bo_history _ _ Hb) E) as (Hmap & Hu & Hre & Hdep & _).
  split; try done.
  - pose proof Hb as [H1 _ H3 H4 H5 H6 H7]. split; try done.
    + intros t [Ht|[Ht|[o' Ht]]]; [apply H4; by left|apply H4; right; by left|]. cbn [BufferOps.set_history history] in Ht. rewrite Hmap in Ht.
      case_decide as Et; [by subst t|]. apply H4. right. right. by exists o'.
    + intros [e He]. cbn [BufferOps.set_history history] in He. rewrite Hmap in He. case_decide as Et; [|by apply H5; exists e].
      injection He as ->. destruct (made_valid _ Hin) as [_ _ _ [Hne _]]. done.
    + cbn. by rewrite Hdep.
  - intros t o'. cbn [BufferOps.set_history history]. rewrite Hmap. case_decide as Et; [|by apply Hrec]. by intros [= <-].
  - intros t. unfold stack_edits, stacks. cbn [BufferOps.set_history history]. rewrite Hu, Hre. apply Hedits.
Qed.

Fixpoint receive_fits b d ops : Prop :=
  match ops with
  | [] => ∀ b', BufferOps.defer_ops P b d = Some b' → (NodeOps.height (deferred_ops b') < STACK_CAPACITY)%nat ∧
      flush_fits (BufferOps.set_deferred b' (TreeOps.new ()) ∅) [] (tree_items (deferred_ops b'))
  | o :: ops => ∀ h, HistoryOps.push (history b) o = Some h → (NodeOps.height (operations h) < STACK_CAPACITY)%nat ∧
      apply_fits (BufferOps.set_history b h) o ∧
      ∀ b' d', BufferOps.apply_or_defer P (BufferOps.set_history b h) d o = Some (b', d') → receive_fits b' d' ops
  end.

Lemma receive_loop_ok b ps done d ops : delivered b ps done → Forall (may_arrive b) ops → receive_fits b d ops →
  returns (BufferOps.receive_loop P b d ops) (λ '(b', d'), sorted_out b done ops d b' d' ∧ receive_fits b' d' []).
Proof.
  revert b ps done d. induction ops as [|o ops IH]; intros b ps done d Hd Hops Hfits; cbn [BufferOps.receive_loop].
  { apply returns_ret. split; [|done]. exists ps, done, [].
    split_and!; [by apply grown_here|by rewrite app_nil_r|done|by intros o ?%elem_of_nil]. }
  apply Forall_cons in Hops as [Hin Hops].
  cbn [receive_fits] in Hfits. destruct (push_delivered b ps done o Hd Hin) as (h & Eh & Hdh); [by intros h Hh; destruct (Hfits h Hh)|].
  rewrite Eh. cbn [mbind option_bind]. destruct (Hfits h Eh) as (_ & Hfit & Hfits').
  destruct (apply_or_defer_ok _ ps done d o Hdh Hin Hfit) as ([b1 d1] & E & ps1 & done1 & Hg & _ & Hcase).
  rewrite E. cbn [mbind option_bind]. eapply returns_mono; [by apply (IH b1 ps1 done1 d1); [apply Hg|by apply (grown_arrive (BufferOps.set_history b h) done b1 ps1 done1)|apply Hfits']|].
  intros [b2 d2] [(ps2 & done2 & k & Hg2 & -> & Hk & Hall) Hend]. split; [|done]. pose proof (grown_trans _ _ _ _ _ _ _ _ Hg Hg2) as Hg'.
  destruct (BufferOps.can_apply_op _ o).
  - destruct Hcase as (-> & Ho & _). exists ps2, done2, k. split_and!; [done|done|intros o' ?; right; by apply Hk|].
    intros o' [->|Ho']%elem_of_cons; [left; exact (grown_in _ _ _ _ _ _ Hg2 Ho)|by apply Hall].
  - destruct Hcase as (-> & ->). exists ps2, done2, (o :: k). split_and!; [done|by rewrite <- app_assoc| |].
    + intros o' [->|Ho']%elem_of_cons; [by left|right; by apply Hk].
    + intros o' [->|Ho']%elem_of_cons; [right; by left|]. destruct (Hall o' Ho'); [by left|right; by right].
Qed.

(** A batch: all operations are applied, or wait; when none is missing, none waits. *)
Lemma batch_ok b ps done ops : delivered b ps done → waiting b → Forall (may_arrive b) ops → receive_fits b [] ops →
  returns (BufferOps.apply_ops P b ops) (λ b', ∃ ps' done', progressed b done ops b' ps' done' ∧
    ((∀ o, o ∈ U → o ∈ done ∨ o ∈ ops ∨ o ∈ tree_items (deferred_ops b)) → tree_items (deferred_ops b') = [] ∧ ∀ o, o ∈ U → o ∈ done')).
Proof.
  intros Hd Hw Hops Hfits. unfold BufferOps.apply_ops.
  destruct (receive_loop_ok b ps done [] ops Hd Hops Hfits) as ([b1 d1] & E & (ps1 & done1 & k & Hg & -> & Hk & Hall) & Hend).
  rewrite E. cbn [mbind option_bind app] in *. pose proof Hg as (Hd1 & Hgrow1 & Eq1 & Hl1).
  assert (waiting b1) as Hw1 by by apply (waiting_later b).
  assert (Forall (may_arrive b1) k) as HkU.
  { rewrite Forall_forall in Hops. apply Forall_forall. intros o Ho. by apply (may_arrive_later b), Hops, Hk. }
  destruct (defer_ops_ok b1 k Hw1 HkU) as (b2 & E2 & q & -> & Hw2 & Hiff).
  { intros q Eq. cbn [receive_fits] in Hend. unfold BufferOps.defer_ops in Hend. rewrite Eq in Hend. cbn [mbind option_bind] in Hend.
    by destruct (Hend _ eq_refl) as [Hlow _]. }
  rewrite E2. cbn [mbind option_bind]. destruct (Hend _ E2) as [_ Hflush].
  rewrite Eq1 in Hiff. set (b2 := BufferOps.set_deferred b1 q _) in *.
  destruct (flush_deferred_ok b2 ps1 done1) as (b3 & E3 & ps3 & done3 & [Hd3 Hgrow3 Hl3 Hw3 Hkept Harr] & Hfull); [by apply set_deferred_delivered|done|done|].
  exists b3. split; [done|]. exists ps3, done3. destruct Hgrow1 as [l1 ->], Hgrow3 as [l3 ->]. split.
  - split; try done; [exists (l1 ++ l3); by rewrite app_assoc|destruct Hl1 as [R1 V1], Hl3 as [R3 V3]; change (lamport_clock b2) with (lamport_clock b1) in *; split; [congruence|lia]|..].
    + intros o Ho. assert (o ∈ done ++ l1 ∨ o ∈ tree_items q) as [?|?]; [|left; set_solver|by apply Hkept; right].
      destruct Ho as [Ho|Ho]; [destruct (Hall o Ho) as [?|?]; [by left|right]|right]; apply Hiff; auto.
    + intros o Ho. apply Harr in Ho as [?%elem_of_nil|Ho]; [done|]. apply Hiff in Ho as [?|?]; [left; by apply Hk|by right].
  - intros Hcomplete. apply Hfull. intros o Ho. change (deferred_ops b2) with q. rewrite Hiff.
    destruct (Hcomplete o Ho) as [?|[Hin|?]]; [left; set_solver| |right; by right]. destruct (Hall o Hin); [by left|right; by left].
Qed.
End delivery.
