(* ===== verification/Places.v ===== *)
(** * The order of characters

    Operations neither reorder nor lose characters: what a replica has is kept,
    in its order, by all that it receives ([receive_all_keys]), and the
    characters of an insertion stay in the order of its text ([in_place]). *)

From stdpp Require Import gmap sets sorting.
From S2P Require Import Prelude Clock Text History Cells Convergence Replica Delivery.

#[local] Unset Default Proof Using.
#[local] Open Scope N_scope.
#[local] Existing Instance LamportOps.cmp_total.

(** What stays of a character: its insertion, its offset there, and itself. *)
Record place := mkPlace { pstamp : Lamport; poffset : N; pchar : N }.
Definition place_of (c : Cell) : place := mkPlace (cstamp c) (coffset c) (cchar c).
Definition places (cs : list Cell) : list place := place_of <$> cs.

(** The character ends where the other begins, or before. *)
Definition place_before (x y : place) : Prop := poffset x + Str.len_utf8 (pchar x) <= poffset y.

(** The characters of an insertion are in order. *)
Definition ordered_places (l : list place) : Prop := ∀ t, StronglySorted place_before (filter (λ x, pstamp x = t) l).
Definition in_place (cs : list Cell) : Prop := ordered_places (places cs).

Section places.
Implicit Types (t ts : Lamport) (ds : gset Lamport) (o k : N) (s : str) (c : Cell) (cs g h d : list Cell) (x y : place) (l : list place).

Lemma places_app cs g : places (cs ++ g) = places cs ++ places g.
Proof. apply fmap_app. Qed.

Lemma text_places_after t ds o s x : x ∈ places (text_cells t ds o s) → pstamp x = t ∧ o <= poffset x.
Proof.
  revert o. induction s as [|c s IH]; intros o; cbn [text_cells places fmap list_fmap]; [by intros ?%elem_of_nil|].
  intros [->|Hx]%elem_of_cons; [done|]. destruct (IH _ Hx). split; [done|lia].
Qed.

Lemma text_places_ordered t ds o s : StronglySorted place_before (places (text_cells t ds o s)).
Proof.
  revert o. induction s as [|c s IH]; intros o; cbn [text_cells places fmap list_fmap]; [constructor|]. constructor; [apply IH|].
  apply Forall_forall. intros x Hx. destruct (text_places_after _ _ _ _ _ Hx) as [_ Hle]. exact Hle.
Qed.

Lemma text_in_place t ds o s : in_place (text_cells t ds o s).
Proof. intros t'. apply StronglySorted_filter, text_places_ordered. Qed.

Lemma text_places_of t ds o s : places (text_cells t ds o s) = places (text_cells t ∅ o s).
Proof. revert o. induction s as [|c s IH]; intros o; [done|]. cbn [text_cells places fmap list_fmap]. f_equal. apply IH. Qed.

Lemma places_delete V (was : Lamport → bool) ts d : places (delete_cell V was ts <$> d) = places d.
Proof. unfold places. rewrite <- list_fmap_compose. apply list_fmap_ext. intros i c _. cbn. unfold delete_cell. by destruct (was_shown _ _ _). Qed.

Lemma places_other (Q : place → Prop) `{!∀ x, Decision (Q x)} cs : (∀ c, c ∈ cs → Q (place_of c)) → filter Q (places cs) = places cs.
Proof. intros HQ. apply filter_all. intros x (c & -> & Hc)%list_elem_of_fmap. by apply HQ. Qed.

Lemma no_places (Q : place → Prop) `{!∀ x, Decision (Q x)} l : (∀ x, x ∈ l → ¬ Q x) → filter Q l = [].
Proof. apply filter_none. Qed.

(** An edit adds its text, in its order, and keeps the rest. *)
Lemma integrate_keys V (was : Lamport → bool) ts o k edits cs z : integrate_from V was ts o k edits cs = Some z →
  (∀ c, c ∈ cs → cstamp c ≠ ts) →
  filter (λ x, pstamp x ≠ ts) (places z) = places cs ∧
  filter (λ x, pstamp x = ts) (places z) = places (text_cells ts ∅ k (mjoin edits.*2)).
Proof.
  revert o k cs z. induction edits as [|[r s] edits IH]; intros o k cs z; cbn [integrate_from].
  { intros [= ->] H. rewrite places_other, no_places; [done| |done]. intros x (c & -> & Hc)%list_elem_of_fmap. by apply H. }
  destruct (usize_sub (start r) o) as [n|]; [|done]. cbn [mbind option_bind].
  destruct (take_known V n cs) as [[g cs1]|] eqn:Eg; [|done]. cbn [mbind option_bind].
  pose proof (take_newer_app ts cs1) as Eh. destruct (take_newer ts cs1) as [h cs2]. cbn [fst snd] in Eh.
  destruct (usize_sub (stop r) (start r)) as [w|]; [|done]. cbn [mbind option_bind].
  destruct (take_known V w cs2) as [[d cs3]|] eqn:Ed; [|done]. cbn [mbind option_bind].
  destruct (integrate_from V was ts _ _ edits cs3) as [rest|] eqn:Er; [|done]. cbn [mbind option_bind]. intros [= <-] H.
  apply take_known_some in Eg as [-> _], Ed as [-> _]. subst cs1.
  destruct (IH _ _ _ _ Er) as [E1 E2]; [intros c Hc; apply H; set_solver|].
  assert (∀ l : list Cell, (∀ c, c ∈ l → c ∈ g ++ h ++ d ++ cs3) → filter (λ x, pstamp x ≠ ts) (places l) = places l ∧ filter (λ x, pstamp x = ts) (places l) = []) as Hold.
  { intros l Hl. split; [apply places_other; intros c Hc; by apply H, Hl|]. apply no_places. intros x (c & -> & Hc)%list_elem_of_fmap. by apply H, Hl. }
  rewrite !places_app, !filter_app, places_delete, E1, E2. 
  destruct (Hold g) as [-> ->]; [set_solver|]. destruct (Hold h) as [Hh1 Hh2]; [set_solver|]. destruct (Hold d) as [-> ->]; [set_solver|].
  rewrite Hh1, Hh2. split.
  - rewrite no_places; [done|]. intros x [Hx _]%text_places_after Hne. by apply Hne.
  - cbn [app fmap list_fmap mjoin list_join snd]. rewrite text_cells_app, places_app. f_equal.
    rewrite (places_other (λ x, pstamp x = ts)); [done|]. intros c [Hc _]%elem_of_text_cells. exact Hc.
Qed.
End places.

(** ** What operations keep *)

Section receiving.
Implicit Types (st z : Replica) (op o : Operation) (ops : list Operation) (t : Lamport) (l : list place).

(** The places of other insertions. *)
Lemma ordered_by_stamp t l : (∀ t', t' ≠ t → StronglySorted place_before (filter (λ x, pstamp x = t') (filter (λ x, pstamp x ≠ t) l))) →
  StronglySorted place_before (filter (λ x, pstamp x = t) l) → ordered_places l.
Proof.
  intros Hother Ht t'. destruct (decide (t' = t)) as [->|Hne]; [done|]. specialize (Hother t' Hne). rewrite list_filter_filter in Hother.
  erewrite list_filter_iff; [exact Hother|]. intros x. cbn. split; [|tauto]. intros E. split; [done|congruence].
Qed.

Lemma receive_keys op st z : receive op st = Some z → (∀ c, c ∈ rcells st → cstamp c ≠ op_timestamp op) →
  filter (λ x, pstamp x ≠ op_timestamp op) (places (rcells z)) = places (rcells st) ∧
  (in_place (rcells st) → in_place (rcells z)).
Proof.
  intros E Hnew. assert (∀ x, x ∈ places (rcells st) → pstamp x ≠ op_timestamp op) as Hp.
  { intros x (c & -> & Hc)%list_elem_of_fmap. by apply Hnew. }
  destruct op as [e|un]; cbn [receive op_timestamp] in *.
  - destruct (integrate_op _ _) as [cs|] eqn:Ei; [|done]. injection E as <-. cbn [rcells].
    destruct (integrate_keys _ _ _ _ _ _ _ _ Ei Hnew) as [E1 E2]. cbn [ostamp edit_op] in *. split; [done|]. intros Hin.
    apply (ordered_by_stamp (edit_timestamp e)); [intros t _; rewrite E1; apply Hin|]. rewrite E2. apply text_places_ordered.
  - injection E as <-. cbn [rcells]. split; [|done]. by apply filter_all.
Qed.

Lemma receive_all_keys ops st z : receive_all ops st = Some z → NoDup (op_timestamp <$> ops) →
  (∀ c, c ∈ rcells st → cstamp c ∉ op_timestamp <$> ops) →
  filter (λ x, pstamp x ∉ op_timestamp <$> ops) (places (rcells z)) = places (rcells st) ∧
  (in_place (rcells st) → in_place (rcells z)).
Proof.
  revert st. induction ops as [|op ops IH]; intros st E Hnd Hnew.
  { injection E as <-. split; [|done]. apply filter_all. intros x _. apply not_elem_of_nil. }
  unfold receive_all in *. cbn [run_steps] in E. destruct (receive op st) as [y|] eqn:Ey; [|done]. cbn [mbind option_bind] in E.
  rewrite fmap_cons in *. apply NoDup_cons in Hnd as [Hop Hnd].
  destruct (receive_keys op st y Ey) as [E1 H1]; [intros c Hc Ec; apply (Hnew c Hc); rewrite Ec; by left|].
  destruct (IH y E Hnd) as [E2 H2].
  { intros c Hc. destruct (decide (cstamp c = op_timestamp op)) as [->|Hne]; [done|].
    assert (place_of c ∈ places (rcells st)) as (c' & Ec & Hc')%list_elem_of_fmap.
    { rewrite <- E1. apply list_elem_of_filter. split; [done|]. by apply list_elem_of_fmap_2. }
    injection Ec as Ec _ _. rewrite Ec. intros Hin. apply (Hnew c' Hc'). by right. }
  split; [|by intros Hst; apply H2, H1]. rewrite <- E1, <- E2, list_filter_filter. apply list_filter_iff.
  intros x. rewrite not_elem_of_cons. tauto.
Qed.
End receiving.
