(* ===== verification/AnchorOrder.v ===== *)
(** * The order of anchors

    An anchor has a slot in the list of characters ([at_slot]): before or after
    a character, or at an end. [cmp] compares the slots ([cmp_slots]), offsets
    grow with them ([slot_offset]), and the slots of two anchors are in the same
    order where more has arrived ([slots_elsewhere]). *)

From stdpp Require Import gmap sets sorting.
From S2P Require Import Prelude Clock Locator SumTree SumCursor CursorSpec KeyedTree TreeMap UndoMap Text Rope RopeText RopeClip LineEnding Fragment Builders Snapshot Cells History Replica SnapshotSpec LocalEditSpec ApplyUndo ApplyUndoSpec Offsets Anchor AnchorSpec Delivery Places.
Import TreeOps AnchorOps.

#[local] Unset Default Proof Using.
#[local] Arguments Nat.mul : simpl never.
#[local] Open Scope N_scope.
#[local] Existing Instance LamportOps.cmp_total.

(** ** Lists *)

Lemma split_at_two {A} (l1 l2 r1 r2 : list A) x y : l1 ++ x :: r1 = l2 ++ y :: r2 →
  (l1 = l2 ∧ x = y ∧ r1 = r2) ∨ (∃ m, l2 = l1 ++ x :: m ∧ r1 = m ++ y :: r2) ∨ (∃ m, l1 = l2 ++ y :: m ∧ r2 = m ++ x :: r1).
Proof.
  intros (k & [[-> H]|[-> H]])%app_eq_app; destruct k as [|z k]; cbn in H.
  - injection H as -> ->. left. by rewrite app_nil_r.
  - injection H as -> ->. right. right. by exists k.
  - injection H as -> ->. left. by rewrite app_nil_r.
  - injection H as -> ->. right. left. by exists k.
Qed.

Lemma Forall_choice {A B} (Q : A → B → Prop) l : Forall (λ x, ∃ y, Q x y) l → ∃ k, Forall2 Q l k.
Proof.
  induction 1 as [|x l [y Hy] _ [k Hk]]; [by exists []|]. exists (y :: k). by constructor.
Qed.

Lemma Sorted_related {A B} (R : relation A) (R' : relation B) (Q : A → B → Prop) l k : Forall2 Q l k →
  (∀ x x' y y', Q x y → Q x' y' → R x x' → R' y y') → Sorted R l → Sorted R' k.
Proof.
  intros Hlk HR. induction Hlk as [|x y l k Hxy Hlk IH]; [constructor|]. intros [Hs Hle]%Sorted_inv. constructor; [by apply IH|].
  destruct Hlk as [|x' y' l k Hxy' _]; constructor. apply HdRel_inv in Hle. by apply (HR x x').
Qed.

Section ordered.
Implicit Types (x y : place) (l k : list place).

Lemma ordered_pair l x m y r : ordered_places (l ++ x :: m ++ y :: r) → pstamp x = pstamp y → place_before x y.
Proof.
  intros H E. specialize (H (pstamp x)). rewrite filter_app, filter_cons_True, filter_app, filter_cons_True in H by done.
  apply StronglySorted_app in H as (_ & _ & H). apply StronglySorted_inv in H as [_ H]. rewrite Forall_forall in H. apply H. set_solver.
Qed.

End ordered.

(** ** Slots *)

Definition half (b : Bias) : nat := match b with BiasLeft => 1 | BiasRight => 0 end.

(** Where the anchor is: at the start, before ([1 + 2 * i]) or after
    ([2 + 2 * i]) the character [i], or at the end. *)
Inductive at_slot (cs : list Cell) (a : Anchor) : nat → Prop :=
  | at_min : is_min a = true → at_slot cs a 0
  | at_max : is_max a = true → at_slot cs a (1 + 2 * length cs)
  | at_cell l c r : cs = l ++ c :: r → anchored a c → at_slot cs a (1 + 2 * length l + half (anchor_bias a)).

(** What shows before the slot. *)
Definition slot_offset (u : Lamport → bool) (cs : list Cell) (n : nat) : N := Str.length_utf8 (cell_text u (take (n / 2) cs)).

Section slots.
Context (s : BufferSnapshot) (ps : list part) (Hok : snapshot_ok s ps).
Implicit Types (a : Anchor) (c : Cell) (l r cs : list Cell) (n : nat) (u : Lamport → bool).

Lemma slot_offset_mono u cs n m : (n <= m)%nat → slot_offset u cs n <= slot_offset u cs m.
Proof.
  intros Hle. unfold slot_offset. assert (n / 2 <= m / 2)%nat as H by (apply Nat.Div0.div_le_mono; lia).
  assert (take (n / 2) cs = take (n / 2) (take (m / 2) cs)) as -> by (rewrite take_take; f_equal; lia).
  set (k := take (m / 2) cs). rewrite <- (take_drop (n / 2) k) at 2. rewrite cell_text_app, length_utf8_app. lia.
Qed.

Lemma slot_place u cs a l c r : cs = l ++ c :: r → slot_offset u cs (1 + 2 * length l + half (anchor_bias a)) = anchor_place u a l c.
Proof.
  intros ->. unfold slot_offset, anchor_place. destruct (anchor_bias a); cbn [half].
  - replace ((1 + 2 * length l + 1) / 2)%nat with (length l + 1)%nat by (replace (1 + 2 * length l + 1)%nat with ((length l + 1) * 2)%nat by lia; by rewrite Nat.div_mul).
    rewrite cons_middle, app_assoc, take_app_length'; [|rewrite length_app; cbn; lia]. rewrite cell_text_app, length_utf8_app. done.
  - replace ((1 + 2 * length l + 0) / 2)%nat with (length l) by (apply (Nat.div_unique _ 2 _ 1); lia).
    rewrite take_app_length. lia.
Qed.

Lemma min_is a : is_min a = true → timestamp a = LamportOps.MIN ∧ anchor_offset a = 0 ∧ anchor_bias a = BiasLeft.
Proof. unfold is_min. rewrite !andb_true_iff, !bool_decide_eq_true, N.eqb_eq. tauto. Qed.

Lemma max_is a : is_max a = true → timestamp a = LamportOps.MAX ∧ anchor_offset a = u32_max ∧ anchor_bias a = BiasRight.
Proof. unfold is_max. rewrite !andb_true_iff, !bool_decide_eq_true, N.eqb_eq. tauto. Qed.

Lemma fragment_id_for_min debug_assertions a : is_min a = true → fragment_id_for_anchor debug_assertions s a = Some LocatorOps.min.
Proof. unfold fragment_id_for_anchor, try_fragment_id_for_anchor. by intros ->. Qed.

Lemma fragment_id_for_max debug_assertions a : is_max a = true → fragment_id_for_anchor debug_assertions s a = Some LocatorOps.max.
Proof.
  intros Hm. unfold fragment_id_for_anchor, try_fragment_id_for_anchor. assert (is_min a = false) as ->; [|by rewrite Hm].
  unfold is_min. destruct (max_is _ Hm) as (-> & -> & ->). by vm_compute.
Qed.

Lemma fragment_id_for_cell debug_assertions a l c r : cells ps = l ++ c :: r → anchored a c →
  ∃ ps1 f m x w ps2, ps = ps1 ++ (f, m ++ x :: w) :: ps2 ∧ stamp f = timestamp a ∧ (length (cells ps1) <= length l < length (cells ps1) + length (m ++ x :: w))%nat ∧
    fragment_id_for_anchor debug_assertions s a = Some (fid f).
Proof.
  intros E Ha. destruct (cells_split ps l c r E) as (ps1 & f & m & x & w & ps2 & Eps & El & Ec).
  assert (within a f) as Hw by (eapply (anchored_within s ps Hok); [exact Eps|by rewrite <- Ec]).
  exists ps1, f, m, x, w, ps2. split_and!; [done|by destruct Hw| | |].
  - rewrite El, length_app. lia.
  - rewrite El, !length_app, text_cells_length. cbn. lia.
  - unfold fragment_id_for_anchor, try_fragment_id_for_anchor. rewrite (anchored_not_min s ps Hok a l c r), (anchored_not_max s ps Hok a l c r) by done.
    rewrite (try_find_ok s ps Hok a f (m ++ x :: w) Hw) by (rewrite Eps; set_solver). cbn [mbind option_bind].
    cbn [istamp fragment_id FragmentOps.insertion_fragment]. rewrite bool_decide_eq_true_2 by (by destruct Hw). by rewrite orb_true_r.
Qed.
Context (Hin : in_place (cells ps)).

Lemma slot_bound cs a n : at_slot cs a n → (n <= 1 + 2 * length cs)%nat.
Proof. intros [_|_|l c r -> _]; [lia|lia|]. rewrite length_app. cbn [length]. destruct (anchor_bias a); cbn [half]; lia. Qed.

Lemma cell_stamped a l c r : cells ps = l ++ c :: r → anchored a c → timestamp a ≠ LamportOps.MIN.
Proof.
  intros E [<- _] Em. destruct (elem_of_cells ps c) as (f & Hf & Es & _); [rewrite E; set_solver|].
  destruct (so_origins _ _ Hok) as [_ Ho]. rewrite Forall_forall in Ho. destruct (Ho f Hf). by rewrite <- Es.
Qed.

Lemma cell_bounded a l c r : cells ps = l ++ c :: r → anchored a c → anchor_offset a <= u32_max ∧ (anchor_bias a = BiasRight → anchor_offset a < u32_max).
Proof.
  intros E Ha. destruct (cells_split ps l c r E) as (ps1 & f & m & x & w & ps2 & Eps & _ & Ec). rewrite Ec in Ha.
  destruct (anchored_within s ps Hok a ps1 f m x w ps2 Eps Ha) as [_ Hw].
  pose proof (so_parts _ _ Hok) as Hp. rewrite Eps in Hp. apply Forall_elt in Hp as [_ _ Hfit _ _ _]. cbn [fst] in Hfit.
  change u32_max with (u32_modulus - 1). destruct (anchor_bias a); split; done || lia.
Qed.

(** A slot has one anchor only. *)
Lemma slot_same a1 a2 n1 n2 : at_slot (cells ps) a1 n1 → at_slot (cells ps) a2 n2 → n1 = n2 →
  timestamp a1 = timestamp a2 ∧ anchor_offset a1 = anchor_offset a2 ∧ anchor_bias a1 = anchor_bias a2.
Proof.
  intros [Hm1|Hm1|l1 c1 r1 E1 [Et1 Eo1]] [Hm2|Hm2|l2 c2 r2 E2 [Et2 Eo2]] En; try lia.
  - by destruct (min_is _ Hm1) as (-> & -> & ->), (min_is _ Hm2) as (-> & -> & ->).
  - by destruct (max_is _ Hm1) as (-> & -> & ->), (max_is _ Hm2) as (-> & -> & ->).
  - exfalso. rewrite E2, length_app in En. cbn [length] in En. destruct (anchor_bias a2); cbn [half] in En; lia.
  - exfalso. rewrite E1, length_app in En. cbn [length] in En. destruct (anchor_bias a1); cbn [half] in En; lia.
  - assert (length l1 = length l2) as El by (destruct (anchor_bias a1), (anchor_bias a2); cbn [half] in En; lia).
    rewrite E1 in E2. apply app_inj_1 in E2 as [-> [= -> ->]]; [|done].
    assert (anchor_bias a1 = anchor_bias a2) as Eb by (destruct (anchor_bias a1), (anchor_bias a2); cbn [half] in En; done || lia).
    rewrite Eo1, Eo2, <- Et1, <- Et2. by rewrite Eb.
Qed.

(** Anchors of the same insertion. *)
Lemma slot_offsets a1 a2 n1 n2 : at_slot (cells ps) a1 n1 → at_slot (cells ps) a2 n2 → timestamp a1 = timestamp a2 → (n1 < n2)%nat →
  anchor_offset a1 < anchor_offset a2 ∨ anchor_offset a1 = anchor_offset a2 ∧ anchor_bias a1 = BiasLeft ∧ anchor_bias a2 = BiasRight.
Proof.
  intros H1 H2 Et Hlt. pose proof (slot_bound _ _ _ H2) as Hb. destruct H1 as [Hm1|Hm1|l1 c1 r1 E1 Ha1]; [|lia|].
  - exfalso. destruct (min_is _ Hm1) as (Em & _). rewrite Et in Em. destruct H2 as [|Hm2|l2 c2 r2 E2 Ha2]; [lia| |by eapply cell_stamped].
    destruct (max_is _ Hm2) as (EM & _). rewrite EM in Em. by vm_compute in Em.
  - destruct H2 as [|Hm2|l2 c2 r2 E2 Ha2]; [lia| |].
    + destruct (max_is _ Hm2) as (_ & -> & ->), (cell_bounded a1 l1 c1 r1 E1 Ha1) as [Hle Hr]. destruct (anchor_bias a1); [|left; by apply Hr].
      destruct (N.eq_dec (anchor_offset a1) u32_max) as [->|]; [by right|left; lia].
    + destruct Ha1 as [Es1 Eo1], Ha2 as [Es2 Eo2]. rewrite E1 in E2. pose proof (len_utf8_bounds (cchar c1)). pose proof (len_utf8_bounds (cchar c2)).
      destruct (split_at_two _ _ _ _ _ _ E2) as [(-> & -> & _)|[(m & -> & Er)|(m & -> & _)]].
      * rewrite Eo1, Eo2. destruct (anchor_bias a1), (anchor_bias a2); cbn [half] in Hlt; lia.
      * assert (place_before (place_of c1) (place_of c2)) as Hp.
        { pose proof Hin as Hi. unfold in_place in Hi. rewrite E1, Er, places_app in Hi. cbn [places fmap list_fmap] in Hi.
          change (place_of <$> m ++ c2 :: r2) with (places (m ++ c2 :: r2)) in Hi. rewrite places_app in Hi.
          apply ordered_pair in Hi; [done|]. cbn. congruence. }
        unfold place_before in Hp. cbn [poffset pchar place_of] in Hp. rewrite Eo1, Eo2.
        destruct (anchor_bias a1), (anchor_bias a2); cbn [half] in Hlt; lia || (destruct (N.eq_dec (coffset c1 + Str.len_utf8 (cchar c1)) (coffset c2)); [by right|left; lia]).
      * rewrite length_app in Hlt. cbn [length] in Hlt. destruct (anchor_bias a1), (anchor_bias a2); cbn [half] in Hlt; lia.
Qed.

(** Anchors of different insertions. *)
Lemma slot_ids debug_assertions a1 a2 n1 n2 : at_slot (cells ps) a1 n1 → at_slot (cells ps) a2 n2 → timestamp a1 ≠ timestamp a2 → (n1 < n2)%nat →
  ∃ i j, fragment_id_for_anchor debug_assertions s a1 = Some i ∧ fragment_id_for_anchor debug_assertions s a2 = Some j ∧ LocatorOps.cmp i j = Lt.
Proof.
  intros H1 H2 Et Hlt. pose proof (slot_bound _ _ _ H2) as Hb. pose proof (so_parts _ _ Hok) as Hparts.
  destruct H1 as [Hm1|Hm1|l1 c1 r1 E1 Ha1]; [|lia|].
  - rewrite (fragment_id_for_min _ _ Hm1). destruct H2 as [|Hm2|l2 c2 r2 E2 Ha2]; [lia| |].
    + rewrite (fragment_id_for_max _ _ Hm2). by eexists _, _.
    + destruct (fragment_id_for_cell debug_assertions a2 l2 c2 r2 E2 Ha2) as (ps1 & f & m & x & w & ps2 & Eps & _ & _ & ->).
      eexists _, _. split_and!; [done|done|]. rewrite Eps in Hparts. apply Forall_elt in Hparts as [_ _ _ Hid _ _]. by apply min_lt.
  - destruct (fragment_id_for_cell debug_assertions a1 l1 c1 r1 E1 Ha1) as (ps1 & f & m & x & w & ps2 & Eps & Es1 & Hl1 & ->).
    destruct H2 as [|Hm2|l2 c2 r2 E2 Ha2]; [lia| |].
    + rewrite (fragment_id_for_max _ _ Hm2). eexists _, _. split_and!; [done|done|]. rewrite Eps in Hparts. by apply Forall_elt in Hparts as [_ _ _ _ Hid _].
    + destruct (fragment_id_for_cell debug_assertions a2 l2 c2 r2 E2 Ha2) as (qs1 & g & m' & y & w' & qs2 & Eqs & Es2 & Hl2 & ->).
      eexists _, _. split_and!; [done|done|]. pose proof (so_ids _ _ Hok) as Hids. rewrite Eps in Eqs.
      assert (length l1 <= length l2)%nat as Hle by (destruct (anchor_bias a1), (anchor_bias a2); cbn [half] in Hlt; lia).
      destruct (split_at_two _ _ _ _ _ _ Eqs) as [(-> & [= -> _] & _)|[(k & -> & Er)|(k & -> & Er)]].
      * by rewrite Es1 in Es2.
      * rewrite Eps, fmap_app in Hids. apply (StronglySorted_app_1_elem_of id_lt (ps1.*1 ++ [f]) ((k ++ (g, m' ++ y :: w') :: qs2).*1)); [|set_solver|].
        -- rewrite Er in Hids. by rewrite <- app_assoc.
        -- rewrite fmap_app, fmap_cons. set_solver.
      * exfalso. rewrite cells_app, cells_cons, !length_app in Hl1. unfold part_cells in Hl1. cbn [fst snd] in Hl1.
        rewrite text_cells_length, length_app in Hl1. rewrite length_app in Hl2. lia.
Qed.

Lemma cmp_slots debug_assertions a1 a2 n1 n2 : at_slot (cells ps) a1 n1 → at_slot (cells ps) a2 n2 →
  cmp debug_assertions a1 a2 s = Some (n1 ?= n2)%nat.
Proof.
  intros H1 H2. unfold cmp. case_bool_decide as Et; cbn [mbind option_bind then_with].
  - f_equal. destruct (Nat.compare_spec n1 n2) as [<-|Hlt|Hlt].
    + destruct (slot_same a1 a2 n1 n1 H1 H2 eq_refl) as (_ & -> & ->). rewrite N.compare_refl. by destruct (anchor_bias a2).
    + destruct (slot_offsets a1 a2 n1 n2 H1 H2 Et Hlt) as [Ho|(-> & -> & ->)]; [by rewrite (proj2 (N.compare_lt_iff _ _) Ho)|by rewrite N.compare_refl].
    + destruct (slot_offsets a2 a1 n2 n1 H2 H1 (eq_sym Et) Hlt) as [Ho|(-> & -> & ->)]; [by rewrite (proj2 (N.compare_gt_iff _ _) Ho)|by rewrite N.compare_refl].
  - destruct (Nat.compare_spec n1 n2) as [<-|Hlt|Hlt].
    + by destruct (slot_same a1 a2 n1 n1 H1 H2 eq_refl) as (Et' & _).
    + destruct (slot_ids debug_assertions a1 a2 n1 n2 H1 H2 Et Hlt) as (i & j & -> & -> & Hc). cbn [mbind option_bind]. by rewrite Hc.
    + destruct (slot_ids debug_assertions a2 a1 n2 n1 H2 H1 (not_eq_sym Et) Hlt) as (i & j & -> & -> & Hc). cbn [mbind option_bind].
      apply (ord_gt_lt LocatorOps.cmp) in Hc. by rewrite Hc.
Qed.

(** An anchor resolves to the text before its slot. *)
Lemma slot_resolves debug_assertions a n : at_slot (cells ps) a n → (∀ f, f ∈ ps.*1 → GlobalOps.observed (sversion s) (stamp f) = true) →
  (debug_assertions = true → buffer_id a = remote_id s) →
  offset_for_anchor debug_assertions s a = Some (slot_offset (undone_in (undo_map s)) (cells ps) n).
Proof using Hok.
  intros Hn Hseen Hd. destruct Hn as [Hm|Hm|l c r E Ha].
  - unfold offset_for_anchor. rewrite Hm. done.
  - assert (is_min a = false) as Hmin by (unfold is_min; destruct (max_is _ Hm) as (-> & -> & ->); by vm_compute).
    unfold offset_for_anchor. rewrite Hmin, Hm. destruct (so_visible _ _ Hok) as [Hrope Ht]. rewrite rope_len, Ht by done.
    f_equal. unfold slot_offset. replace ((1 + 2 * length (cells ps)) / 2)%nat with (length (cells ps)) by (apply (Nat.div_unique _ 2 _ 1); lia).
    rewrite firstn_all, (cells_shown s ps Hok ps []); [done|]. by rewrite app_nil_r.
  - rewrite (anchor_resolves s ps Hok debug_assertions a l c r E Ha) by (intros ?; split; [by apply Hd|by apply (cell_observed s ps Hok Hseen a l c r)]). f_equal. symmetry. by apply (slot_place _ _ _ _ _ r).
Qed.
End slots.

(** ** Slots of anchors that are made *)

Section made.
Implicit Types (a : Anchor) (c : Cell) (l r cs : list Cell) (n k : nat) (u : Lamport → bool).

#[local] Abbreviation before u cs k := (Str.length_utf8 (cell_text u (take k cs))).

Lemma before_mono u cs k m : (k <= m)%nat → before u cs k <= before u cs m.
Proof. intros H. pose proof (slot_offset_mono u cs (2 * k) (2 * m) ltac:(lia)) as Hs. unfold slot_offset in Hs. by rewrite !(Nat.mul_comm 2), !Nat.div_mul in Hs. Qed.

(** Left of an anchor that is made with a bias to the left, and right of one
    with a bias to the right, there is a character that shows, or an end. *)
Definition made_slot u cs a n i : Prop := at_slot cs a n ∧ ∃ k, i = before u cs k ∧
  match anchor_bias a with
  | BiasLeft => n = (2 * k)%nat ∧ (k = 0%nat ∨ before u cs (k - 1) < before u cs k)
  | BiasRight => n = (1 + 2 * k)%nat ∧ (k = length cs ∨ before u cs k < before u cs (k + 1))
  end.

Lemma placed_slot u buffer cs a i : placed u buffer cs a i → ∃ n, made_slot u cs a n i.
Proof.
  intros [| |a' l c r -> Ha _ Hs].
  - exists 0%nat. split; [by constructor|]. exists 0%nat. split; [done|]. cbn. auto.
  - exists (1 + 2 * length cs)%nat. split; [by constructor|]. exists (length cs). split; [by rewrite firstn_all|]. cbn. auto.
  - exists (1 + 2 * length l + half (anchor_bias a'))%nat. split; [by econstructor|].
    assert (cell_text u [c] = [cchar c]) as Ec by (unfold cell_text; rewrite filter_cons_True by done; done).
    assert (before u (l ++ c :: r) (length l) = Str.length_utf8 (cell_text u l)) as E1 by by rewrite take_app_length.
    assert (before u (l ++ c :: r) (length l + 1) = Str.length_utf8 (cell_text u l) + Str.length_utf8 (cell_text u [c])) as E2.
    { rewrite cons_middle, app_assoc, take_app_length'; [|rewrite length_app; cbn; lia]. by rewrite cell_text_app, length_utf8_app. }
    pose proof (len_utf8_bounds (cchar c)). rewrite Ec in E2. cbn [Str.length_utf8] in E2. unfold anchor_place. rewrite Ec.
    destruct (anchor_bias a'); cbn [half].
    + exists (length l + 1)%nat. split; [rewrite E2; cbn [Str.length_utf8]; lia|]. split; [lia|right]. rewrite Nat.add_sub. lia.
    + exists (length l). split; [rewrite E1; lia|]. split; [lia|right]. lia.
Qed.

Lemma made_slot_offset u cs a n i : made_slot u cs a n i → slot_offset u cs n = i.
Proof.
  intros (_ & k & -> & Hn). unfold slot_offset. do 3 f_equal. destruct (anchor_bias a); destruct Hn as [-> _].
  - by rewrite Nat.mul_comm, Nat.div_mul.
  - symmetry. apply (Nat.div_unique _ 2 _ 1); lia.
Qed.

Lemma made_slot_lt u cs a1 a2 n1 n2 i1 i2 : made_slot u cs a1 n1 i1 → made_slot u cs a2 n2 i2 → (n1 < n2)%nat →
  i1 < i2 ∨ i1 = i2 ∧ anchor_bias a1 = BiasLeft ∧ anchor_bias a2 = BiasRight.
Proof.
  intros [H1 (k1 & -> & Hn1)] [H2 (k2 & -> & Hn2)] Hlt. pose proof (slot_bound _ _ _ H2) as Hb.
  destruct (anchor_bias a1), (anchor_bias a2); destruct Hn1 as [-> Hs1], Hn2 as [-> Hs2].
  - left. destruct Hs2 as [->|Hs2]; [lia|]. pose proof (before_mono u cs k1 (k2 - 1) ltac:(lia)). lia.
  - pose proof (before_mono u cs k1 k2 ltac:(lia)). destruct (N.eq_dec (before u cs k1) (before u cs k2)); [by right|left; lia].
  - left. destruct Hs1 as [->|Hs1]; [lia|]. pose proof (before_mono u cs (k1 + 1) k2 ltac:(lia)). lia.
  - left. destruct Hs1 as [->|Hs1]; [lia|]. pose proof (before_mono u cs (k1 + 1) k2 ltac:(lia)). lia.
Qed.

(** Their slots are in the order of their offsets, and of their biases at one. *)
Lemma made_slots u cs a1 a2 n1 n2 i1 i2 : made_slot u cs a1 n1 i1 → made_slot u cs a2 n2 i2 →
  (n1 ?= n2)%nat = then_with (i1 ?= i2) (bias_cmp (anchor_bias a1) (anchor_bias a2)).
Proof.
  intros H1 H2. destruct (Nat.compare_spec n1 n2) as [<-|Hlt|Hlt].
  - rewrite <- (made_slot_offset _ _ _ _ _ H1), <- (made_slot_offset _ _ _ _ _ H2), N.compare_refl.
    destruct H1 as [_ (k1 & _ & Hn1)], H2 as [_ (k2 & _ & Hn2)]. destruct (anchor_bias a1), (anchor_bias a2); done || lia.
  - destruct (made_slot_lt _ _ _ _ _ _ _ _ H1 H2 Hlt) as [Ho|(-> & -> & ->)]; [by rewrite (proj2 (N.compare_lt_iff _ _) Ho)|by rewrite N.compare_refl].
  - destruct (made_slot_lt _ _ _ _ _ _ _ _ H2 H1 Hlt) as [Ho|(-> & -> & ->)]; [by rewrite (proj2 (N.compare_gt_iff _ _) Ho)|by rewrite N.compare_refl].
Qed.
End made.

(** ** Slots elsewhere *)

Section elsewhere.
Implicit Types (a : Anchor) (c : Cell) (l r cs : list Cell) (n : nat) (u : Lamport → bool).

Lemma places_cons_sublist c cs cs' : places (c :: cs) `sublist_of` places cs' →
  ∃ l' c' r', cs' = l' ++ c' :: r' ∧ place_of c' = place_of c ∧ places cs `sublist_of` places r'.
Proof.
  cbn [places fmap list_fmap]. intros (k1 & k2 & E & Hs)%sublist_cons_l. apply fmap_app_inv in E as (l' & k' & -> & E2 & ->).
  destruct k' as [|c' r']; [done|]. exists l', c', r'. rewrite fmap_cons in E2. split_and!; [done|congruence|].
  unfold places. by assert (place_of <$> r' = k2) as -> by congruence.
Qed.

Lemma anchored_place a c c' : place_of c' = place_of c → anchored a c → anchored a c'.
Proof.
  intros E [Hs Ho]. pose proof (f_equal pstamp E) as E1. pose proof (f_equal poffset E) as E2. pose proof (f_equal pchar E) as E3.
  cbn in E1, E2, E3. unfold anchored. by rewrite E1, E2, E3.
Qed.

Lemma places_later l cs cs' : places (l ++ cs) `sublist_of` places cs' → places cs `sublist_of` places cs'.
Proof. rewrite places_app. intros (k1 & k2 & -> & _ & Hs)%sublist_app_l. by apply sublist_inserts_l. Qed.

(** Where there is more, anchors have slots, too, in the same order. *)
Lemma slots_before cs cs' a1 a2 n1 n2 : places cs `sublist_of` places cs' → at_slot cs a1 n1 → at_slot cs a2 n2 → (n1 < n2)%nat →
  ∃ n1' n2', at_slot cs' a1 n1' ∧ at_slot cs' a2 n2' ∧ (n1' < n2')%nat.
Proof.
  intros Hsub H1 H2 Hlt. pose proof (slot_bound _ _ _ H2) as Hb. destruct H1 as [Hm1|Hm1|l1 c1 r1 E1 Ha1]; [|lia|].
  - exists 0%nat. destruct H2 as [|Hm2|l2 c2 r2 E2 Ha2]; [lia| |].
    + exists (1 + 2 * length cs')%nat. split_and!; [by constructor|by constructor|lia].
    + rewrite E2 in Hsub. apply places_later, places_cons_sublist in Hsub as (l' & c' & r' & -> & Ec & _). eexists. split_and!.
      * by constructor.
      * by apply (at_cell _ _ l' c' r'), (anchored_place a2 c2).
      * lia.
  - destruct H2 as [|Hm2|l2 c2 r2 E2 Ha2]; [lia| |].
    + rewrite E1 in Hsub. apply places_later, places_cons_sublist in Hsub as (l' & c' & r' & -> & Ec & _). eexists _, _. split_and!.
      * by apply (at_cell _ _ l' c' r'), (anchored_place a1 c1).
      * by apply at_max.
      * rewrite length_app. cbn [length]. destruct (anchor_bias a1); cbn [half]; lia.
    + rewrite E1 in E2, Hsub. apply places_later, places_cons_sublist in Hsub as (l' & c' & r' & -> & Ec & Hsub).
      destruct (split_at_two _ _ _ _ _ _ E2) as [(-> & -> & _)|[(m & -> & ->)|(m & -> & _)]].
      * eexists _, _. split_and!; [by apply (at_cell _ _ l' c' r'), (anchored_place a1 c2)|by apply (at_cell _ _ l' c' r'), (anchored_place a2 c2)|lia].
      * apply places_later, places_cons_sublist in Hsub as (l2' & c2' & r2' & -> & Ec2 & _). eexists _, _. split_and!.
        -- by apply (at_cell _ _ l' c' (l2' ++ c2' :: r2')), (anchored_place a1 c1).
        -- apply (at_cell _ _ (l' ++ c' :: l2') c2' r2'); [by rewrite <- app_assoc|by apply (anchored_place a2 c2)].
        -- rewrite length_app. cbn [length]. destruct (anchor_bias a1), (anchor_bias a2); cbn [half]; lia.
      * rewrite length_app in Hlt. cbn [length] in Hlt. destruct (anchor_bias a1), (anchor_bias a2); cbn [half] in Hlt; lia.
Qed.

Lemma slots_at cs cs' a1 a2 n1 n2 : places cs `sublist_of` places cs' → at_slot cs a1 n1 → at_slot cs a2 n2 → n1 = n2 →
  ∃ n', at_slot cs' a1 n' ∧ at_slot cs' a2 n'.
Proof.
  intros Hsub [Hm1|Hm1|l1 c1 r1 E1 Ha1] H2 En; pose proof (slot_bound _ _ _ H2) as Hb; destruct H2 as [Hm2|Hm2|l2 c2 r2 E2 Ha2]; try lia.
  - exists 0%nat. split; by constructor.
  - exists (1 + 2 * length cs')%nat. split; by constructor.
  - exfalso. rewrite E2, length_app in En. cbn [length] in En. destruct (anchor_bias a2); cbn [half] in En; lia.
  - exfalso. rewrite E1, length_app in En. cbn [length] in En. destruct (anchor_bias a1); cbn [half] in En; lia.
  - assert (length l1 = length l2) as El by (destruct (anchor_bias a1), (anchor_bias a2); cbn [half] in En; lia).
    rewrite E1 in E2. apply app_inj_1 in E2 as [-> [= -> ->]]; [|done].
    assert (half (anchor_bias a1) = half (anchor_bias a2)) as Eb by lia.
    rewrite E1 in Hsub. apply places_later, places_cons_sublist in Hsub as (l' & c' & r' & -> & Ec & _).
    exists (1 + 2 * length l' + half (anchor_bias a1))%nat. split; [|rewrite Eb]; by apply (at_cell _ _ l' c' r'), (anchored_place _ c2).
Qed.

Lemma slots_elsewhere cs cs' a1 a2 n1 n2 : places cs `sublist_of` places cs' → at_slot cs a1 n1 → at_slot cs a2 n2 →
  ∃ n1' n2', at_slot cs' a1 n1' ∧ at_slot cs' a2 n2' ∧ (n1' ?= n2')%nat = (n1 ?= n2)%nat.
Proof.
  intros Hsub H1 H2. destruct (Nat.compare_spec n1 n2) as [->|Hlt|Hlt].
  - destruct (slots_at cs cs' a1 a2 n2 n2) as (n' & ? & ?); [done..|]. exists n', n'. by rewrite Nat.compare_refl.
  - destruct (slots_before cs cs' a1 a2 n1 n2) as (n1' & n2' & ? & ? & ?); [done..|]. exists n1', n2'. by rewrite (proj2 (Nat.compare_lt_iff _ _)).
  - destruct (slots_before cs cs' a2 a1 n2 n1) as (n2' & n1' & ? & ? & ?); [done..|]. exists n1', n2'. by rewrite (proj2 (Nat.compare_gt_iff _ _)).
Qed.

(** Anchors that are made, in the order of their offsets and biases. *)
Lemma placed_elsewhere u buffer cs cs' a1 a2 i1 i2 : places cs `sublist_of` places cs' → placed u buffer cs a1 i1 → placed u buffer cs a2 i2 →
  ∃ n1 n2 m1 m2, at_slot cs a1 n1 ∧ at_slot cs a2 n2 ∧ at_slot cs' a1 m1 ∧ at_slot cs' a2 m2 ∧
    (n1 ?= n2)%nat = then_with (i1 ?= i2) (bias_cmp (anchor_bias a1) (anchor_bias a2)) ∧ (m1 ?= m2)%nat = (n1 ?= n2)%nat.
Proof.
  intros Hsub H1 H2. destruct (placed_slot _ _ _ _ _ H1) as (n1 & Hm1), (placed_slot _ _ _ _ _ H2) as (n2 & Hm2).
  pose proof (made_slots _ _ _ _ _ _ _ _ Hm1 Hm2) as Eo. destruct Hm1 as [Hn1 _], Hm2 as [Hn2 _].
  destruct (slots_elsewhere cs cs' a1 a2 n1 n2 Hsub Hn1 Hn2) as (m1 & m2 & Hm1 & Hm2 & Em). by exists n1, n2, m1, m2.
Qed.
End elsewhere.
