(* ===== verification/AnchorSummaries.v ===== *)
(** * Many anchors in one pass

    [summaries_for_anchors] of [crates/text/src/text.rs] goes over the fragments
    and over the text once, with two cursors. For anchors that are in order it
    gives what each of them has on its own ([loop_ok]). *)

From stdpp Require Import gmap sets sorting.
From S2P Require Import Prelude Clock Locator SumTree SumCursor CursorSpec KeyedTree TreeMap UndoMap Points Text Chunk Rope RopeText RopeSpec RopeClip LineEnding Fragment Builders Snapshot Cells SnapshotSpec LocalEditSpec ApplyUndo ApplyUndoSpec Offsets Anchor AnchorSpec Places AnchorOrder.
Import TreeOps AnchorOps.

#[local] Unset Default Proof Using.
#[local] Arguments Nat.mul : simpl never.
#[local] Open Scope N_scope.
#[local] Existing Instance LamportOps.cmp_total.

Section one_pass.
Context (s : BufferSnapshot) (ps : list part) (Hok : snapshot_ok s ps) (Hlow : snapshot_low s).
Context {D : Type} `{TextDimensionLaws D}.
Implicit Types (a : Anchor) (b k : list part) (x y m : str) (n : nat) (st : AnchorsState (D := D)).

#[local] Abbreviation cx := (@None Global).
#[local] Abbreviation u := (undone_in (undo_map s)).

(** The text before a slot. *)
Definition text_before n : str := cell_text u (take (n / 2) (cells ps)).

Lemma text_before_mono n n' : (n <= n')%nat → ∃ m, text_before n' = text_before n ++ m.
Proof.
  intros Hle. unfold text_before. assert (n / 2 <= n' / 2)%nat as Hd by (apply Nat.Div0.div_le_mono; lia).
  set (cs := take (n' / 2) (cells ps)). exists (cell_text u (drop (n / 2) cs)). rewrite <- cell_text_app.
  assert (take (n / 2) (cells ps) = take (n / 2) cs) as -> by (unfold cs; rewrite take_take; f_equal; lia). by rewrite take_drop.
Qed.

Lemma text_before_rest n : ∃ y, rope_text (visible_text s) = text_before n ++ y.
Proof.
  exists (cell_text u (drop (n / 2) (cells ps))). unfold text_before. rewrite <- cell_text_app, take_drop.
  destruct (so_visible _ _ Hok) as [_ ->]. symmetry. apply (cells_shown s ps Hok ps []). by rewrite app_nil_r.
Qed.

(** The cursors are before the parts [k], and after the text [x]. *)
Record reached st b k x y : Prop := {
  re_parts : ps = b ++ k;
  re_tree : tree (fragment_cursor st) = fragments s;
  re_cursor : ∃ sp, ready cx (fragment_cursor st) sp ∧ spot_start (fragment_cursor st) sp = b.*1 ∧ spot_rest (fragment_cursor st) sp = k.*1;
  re_rope : RopeOps.rope (text_cursor st) = visible_text s;
  re_text : rcursor_at (text_cursor st) x y;
  re_position : aposition st = measure x }.

(** They have not passed the slot. *)
Definition not_past n st : Prop := ∃ b k x y n', reached st b k x y ∧ (b = [] ∨ 1 + 2 * length (cells b) <= n)%nat ∧
  x = text_before n' ∧ (n' <= n)%nat.

Lemma not_past_later n n' st : (n <= n')%nat → not_past n st → not_past n' st.
Proof.
  intros Hle (b & k & x & y & n0 & Hr & Hb & Hx & Hn). exists b, k, x, y, n0. split_and!; [done| |done|lia]. destruct Hb; [by left|right; lia].
Qed.

(** The cursor goes on to the fragment with the character. *)
Lemma cursor_reaches st b k x y ps1 f t ps2 : reached st b k x y → ps = ps1 ++ (f, t) :: ps2 → (length (cells b) < length (cells (ps1 ++ [(f, t)])))%nat →
  returns (CursorOps.seek_forward cx (λ d : option Locator * N, option_locator_cmp (Some (fid f)) d.1) BiasLeft (fragment_cursor st)) (λ '(_, c),
    tree c = fragments s ∧ CursorOps.item c = Some (Some f) ∧ (CursorOps.start c).2 = Str.length_utf8 (shown ps1) ∧
    ∃ sp, ready cx c sp ∧ spot_start c sp = ps1.*1 ∧ spot_rest c sp = ((f, t) :: ps2).*1).
Proof.
  intros [Hps Ht (sp & Hr & Hs1 & Hs2) _ _ _] E Hlt.
  assert (∃ l, ps1 = b ++ l ∧ k = l ++ (f, t) :: ps2) as (l & -> & ->).
  { rewrite Hps in E. apply app_eq_app in E as (l & [[-> E]|[-> ->]]); [|by exists l]. destruct l as [|p l].
    - exists []. split; [by rewrite !app_nil_r|done].
    - exfalso. injection E as <- _. rewrite cons_middle, app_assoc, !cells_app, !length_app in Hlt. lia. }
  pose proof (so_ids _ _ Hok) as Hids. rewrite E, !fmap_app, fmap_cons, <- app_assoc in Hids. cbn [fst] in Hids.
  destruct (id_seek (D := N) b.*1 l.*1 f ps2.*1 Hids) as (Htarget & Hm & Hsp).
  pose proof Hr as (Hat & Hne & Hcap). pose proof (start_ok cx _ _ Hat) as Hstart. rewrite Hs1 in Hstart. rewrite fmap_app, fmap_cons in Hs2. cbn [fst] in Hs2.
  eapply returns_mono.
  { apply (seek_forward_ok cx (λ d : option Locator * N, option_locator_cmp (Some (fid f)) d.1) BiasLeft (fragment_cursor st) sp Hr).
    - change (position (fragment_cursor st)) with (CursorOps.start (fragment_cursor st)). by rewrite Hstart.
    - by rewrite Hs1, Hs2. }
  intros [found c]. cbn zeta. rewrite Hs1, Hs2, Hsp. intros (Htree & Hc & _). cbn [spot_of] in Hc.
  assert (Forall part_ok (b ++ l)) as Hparts by (pose proof (so_parts _ _ Hok) as Hp; rewrite E in Hp; by apply Forall_app in Hp as [? _]).
  split_and!.
  - congruence.
  - by rewrite (item_ok cx c _ Hc).
  - rewrite (start_ok cx c _ Hc). cbn [spot_start]. rewrite <- fmap_app. by rewrite pos_visible.
  - exists (On (b.*1 ++ l.*1) f ps2.*1). split_and!; [split_and!; [done|done|by rewrite Htree]|by rewrite fmap_app|done].
Qed.

Lemma next_summary_ok st a n : not_past n st → at_slot (cells ps) a n →
  returns (next_summary s st a) (λ '(st', d), d = measure (text_before n) ∧ not_past n st').
Proof.
  intros Hst Hn. unfold next_summary. destruct Hn as [Hm|Hm|l c r E Ha].
  - rewrite Hm. apply returns_ret. split; [|done]. unfold text_before. cbn. symmetry. apply measure_nil.
  - assert (is_min a = false) as -> by (unfold is_min; destruct (max_is _ Hm) as (-> & -> & ->); by vm_compute). rewrite Hm.
    apply returns_ret. split; [|done]. destruct (so_visible _ _ Hok) as [Hrope Ht]. rewrite summary_text by done. unfold measure. do 2 f_equal.
    unfold text_before. replace ((1 + 2 * length (cells ps)) / 2)%nat with (length (cells ps)) by (apply (Nat.div_unique _ 2 _ 1); lia).
    rewrite firstn_all, Ht. symmetry. apply (cells_shown s ps Hok ps []). by rewrite app_nil_r.
  - rewrite (anchored_not_min s ps Hok a l c r), (anchored_not_max s ps Hok a l c r) by done.
    destruct (cells_split ps l c r E) as (ps1 & f & m & x & w & ps2 & Eps & El & Ec).
    assert (within a f) as Hw by (eapply (anchored_within s ps Hok); [exact Eps|by rewrite <- Ec]).
    rewrite (try_find_ok s ps Hok a f (m ++ x :: w) Hw) by (rewrite Eps; set_solver). cbn [mbind option_bind istamp fragment_id split_offset FragmentOps.insertion_fragment].
    rewrite bool_decide_eq_true_2 by (by destruct Hw). destruct Hst as (b & k & x0 & y0 & n' & Hre & Hb & Hx0 & Hn').
    assert (length (cells ps1) <= length l < length (cells (ps1 ++ [(f, m ++ x :: w)])))%nat as Hl.
    { rewrite El, cells_app, cells_one, !length_app. unfold part_cells. cbn [fst snd]. rewrite !text_cells_length, length_app. cbn [length]. lia. }
    eapply returns_bind; [apply (cursor_reaches st b k x0 y0 ps1 f (m ++ x :: w) ps2 Hre Eps)|].
    { destruct Hb as [->|Hb]; [cbn; lia|]. destruct (anchor_bias a); cbn [half] in Hb; lia. }
    intros [found fc] (Ht & Hitem & Hstart & Hsp). rewrite Hitem. cbn [mbind option_bind]. rewrite Hstart.
    pose proof (fragment_place s ps Hok a ps1 f m x w ps2 Eps) as Hp. cbn zeta in Hp. rewrite <- El, <- Ec in Hp. rewrite (Hp Ha). clear Hp. cbn [mbind option_bind].
    rewrite <- (slot_place u (cells ps) a l c r E). set (slot := (1 + 2 * length l + half (anchor_bias a))%nat) in *.
    change (slot_offset u (cells ps) slot) with (Str.length_utf8 (text_before slot)).
    destruct (text_before_mono n' slot) as [m1 E1]; [lia|]. destruct (text_before_rest slot) as [y E2].
    pose proof (re_text _ _ _ _ _ Hre) as Hrt. assert (y0 = m1 ++ y) as ->.
    { pose proof (rc_text _ _ _ Hrt) as Ht0. rewrite (re_rope _ _ _ _ _ Hre), E2, E1, Hx0, <- app_assoc in Ht0. by apply app_inv_head in Ht0. }
    rewrite E1, <- Hx0. eapply returns_bind; [by apply (summary_cursor_ok (text_cursor st) x0 m1 y)|].
    intros [d tc] (-> & Hrope & Hrt'). apply returns_ret.
    assert (td_add (aposition st) (measure m1) = measure (x0 ++ m1)) as Em by by rewrite (re_position _ _ _ _ _ Hre), measure_app.
    split; [done|]. exists ps1, ((f, m ++ x :: w) :: ps2), (x0 ++ m1), y, slot. split_and!.
    + split; cbn [fragment_cursor text_cursor aposition]; try done. by rewrite Hrope, (re_rope _ _ _ _ _ Hre).
    + right. subst slot. lia.
    + by rewrite E1, Hx0.
    + done.
Qed.

Lemma loop_ok {T : Type} n0 st (anchors : list (Anchor * T)) ns : not_past n0 st →
  Forall2 (λ p n, at_slot (cells ps) p.1 n) anchors ns → Sorted Nat.le (n0 :: ns) →
  summaries_loop s st anchors = Some (zip_with (λ n p, (measure (text_before n), p.2)) ns anchors).
Proof.
  intros Hst Hns. revert n0 st Hst. induction Hns as [|[a t] n anchors ns Hn _ IH]; intros n0 st Hst Hs; [done|].
  apply Sorted_inv in Hs as [Hs Hle]. apply HdRel_inv in Hle. cbn [summaries_loop].
  destruct (next_summary_ok st a n) as ([st' d] & -> & -> & Hst'); [by apply (not_past_later n0)|done|].
  cbn [mbind option_bind]. by rewrite (IH n st' Hst' Hs).
Qed.

(** One pass gives what each of the anchors has on its own. *)
Lemma one_pass_ok {T : Type} (anchors : list (Anchor * T)) ns : Forall2 (λ p n, at_slot (cells ps) p.1 n) anchors ns → Sorted Nat.le ns →
  summaries_for_anchors_with_payload s anchors = Some (zip_with (λ n p, (measure (text_before n), p.2)) ns anchors).
Proof.
  intros Hns Hs. unfold summaries_for_anchors_with_payload. destruct (so_visible _ _ Hok) as [Hrope _].
  destruct (cursor_ok (visible_text s) [] (rope_text (visible_text s)) Hrope) as (c & Ec & Hr & Hc); [apply Hlow|done|].
  change (Str.length_utf8 []) with 0 in Ec. rewrite Ec. cbn [mbind option_bind].
  apply (loop_ok 0); [|done|].
  - exists [], ps, [], (rope_text (visible_text s)), 0%nat. split_and!; [|by left|done|done]. split; cbn [fragment_cursor text_cursor aposition]; try done.
    + exists Fresh. split_and!; [apply (new_ready cx); [apply Hok|apply Hlow]|done|]. cbn. apply (so_items _ _ Hok).
    + symmetry. apply measure_nil.
  - constructor; [done|]. destruct ns; constructor. lia.
Qed.

(** Each on its own. *)
Lemma summary_for_anchor_ok debug_assertions a n : at_slot (cells ps) a n → (∀ f, f ∈ ps.*1 → GlobalOps.observed (sversion s) (stamp f) = true) →
  (debug_assertions = true → buffer_id a = remote_id s) →
  summary_for_anchor debug_assertions s a = Some (measure (text_before n)).
Proof.
  intros Hn Hseen Hd. unfold summary_for_anchor. rewrite (slot_resolves s ps Hok debug_assertions a n Hn Hseen Hd). cbn [mbind option_bind].
  destruct (text_before_rest n) as [y E]. destruct (so_visible _ _ Hok) as [Hrope _].
  destruct (cursor_ok (visible_text s) [] (text_before n ++ y) Hrope) as (c & Ec & _ & Hc); [apply Hlow|done|].
  change (slot_offset u (cells ps) n) with (Str.length_utf8 (text_before n)). unfold OffsetOps.text_summary_for_range. cbn [start stop].
  assert (∀ x z, rope_text (visible_text s) = x ++ z → OffsetOps.to_offset debug_assertions (Str.length_utf8 x) s = Some (Str.length_utf8 x)) as Hto.
  { intros x z Ex. rewrite usize_to_offset_ok, Ex, boundary_app; done. }
  rewrite (Hto [] _ eq_refl : OffsetOps.to_offset debug_assertions 0 s = Some 0), (Hto _ _ E). cbn [mbind option_bind].
  change (Str.length_utf8 []) with 0 in Ec. rewrite Ec. cbn [mbind option_bind].
  destruct (summary_cursor_ok (D := D) c [] (text_before n) y Hc) as ([d c'] & Es & -> & _). cbn [app] in Es. by rewrite Es.
Qed.

(** Anchors that are in order have slots that are. *)
Lemma slots_in_order debug_assertions (anchors : list Anchor) : in_place (cells ps) → Forall (λ a, ∃ n, at_slot (cells ps) a n) anchors →
  Sorted (λ a1 a2, cmp debug_assertions a1 a2 s ≠ Some Gt) anchors → ∃ ns, Forall2 (at_slot (cells ps)) anchors ns ∧ Sorted Nat.le ns.
Proof using Hok.
  intros Hin [ns Hns]%Forall_choice Hs. exists ns. split; [done|]. apply (Sorted_related _ Nat.le _ _ _ Hns) in Hs; [done|].
  intros a1 a2 n1 n2 H1 H2. rewrite (cmp_slots s ps Hok Hin debug_assertions a1 a2 n1 n2 H1 H2). destruct (Nat.compare_spec n1 n2); [subst; done|lia|done].
Qed.
End one_pass.
