(* ===== verification/BufferRuns.v ===== *)
(** * Runs of operations on a buffer

    The calls that change a buffer on its own replica, when they may be made,
    and that they all return and keep the invariant; typing and undoing. *)

From stdpp Require Import gmap sets sorting relations.
From S2P Require Import Prelude Clock Locator Patch SumTree SumCursor CursorSpec CursorWalk KeyedTree TreeMap UndoMap Text Rope RopeText RopeClip LineEnding Fragment Builders Snapshot SnapshotSpec OperationQueue History LocalEdit LocalEditSpec ApplyUndo ApplyUndoSpec Offsets Buffer BufferSpec BufferInv.
Import TreeOps.

#[local] Unset Default Proof Using.
#[local] Arguments Nat.mul : simpl never.
#[local] Open Scope N_scope.
#[local] Existing Instance LamportOps.cmp_total.

(** ** The calls *)

Inductive Call :=
  | CallEdit (edits : list (Range N * str)) (now now' : N)
  | CallUndo
  | CallRedo
  | CallUndoTransaction (id : Lamport)
  | CallUndoToTransaction (id : Lamport)
  | CallRedoToTransaction (id : Lamport)
  | CallStartTransaction (now : N)
  | CallEndTransaction (now : N)
  | CallFinalizeLastTransaction
  | CallGroupUntilTransaction (id : Lamport)
  | CallPushTransaction (t : Transaction) (now : N)
  | CallPushEmptyTransaction (now : N)
  | CallForgetTransaction (id : Lamport)
  | CallMergeTransactions (transaction destination : Lamport)
  | CallSetLineEnding (e : LineEnding)
  | CallSetGroupInterval (interval : N)
  | CallSubscribe
  | CallConsume (subscription : nat).

Section calls.
Context (P : Platform) `{!PlatformLaws P}.
Implicit Types (b : Buffer) (ps : list part) (h : History) (e : HistoryEntry) (c : Lamport).

Definition call (e : Call) b : option Buffer :=
  match e with
  | CallEdit edits now now' => fst <$> BufferOps.edit P b edits now now'
  | CallUndo => fst <$> BufferOps.undo P b
  | CallRedo => fst <$> BufferOps.redo P b
  | CallUndoTransaction id => fst <$> BufferOps.undo_transaction P b id
  | CallUndoToTransaction id => fst <$> BufferOps.undo_to_transaction P b id
  | CallRedoToTransaction id => fst <$> BufferOps.redo_to_transaction P b id
  | CallStartTransaction now => Some (BufferOps.start_transaction_at b now).1
  | CallEndTransaction now => fst <$> BufferOps.end_transaction_at b now
  | CallFinalizeLastTransaction => Some (BufferOps.finalize_last_transaction b).1
  | CallGroupUntilTransaction id => BufferOps.group_until_transaction b id
  | CallPushTransaction t now => BufferOps.push_transaction b t now
  | CallPushEmptyTransaction now => fst <$> BufferOps.push_empty_transaction b now
  | CallForgetTransaction id => fst <$> BufferOps.forget_transaction b id
  | CallMergeTransactions t d => BufferOps.merge_transactions b t d
  | CallSetLineEnding e => Some (BufferOps.set_line_ending b e)
  | CallSetGroupInterval interval => Some (BufferOps.set_group_interval b interval)
  | CallSubscribe => Some (BufferOps.subscribe b).1
  | CallConsume i => '(_, subs) ← TopicOps.consume (subscriptions b) i; Some (BufferOps.set_subscriptions b subs)
  end.

(** Each undo of a list fits when its turn comes. *)
Fixpoint undos_fit b (ts : list Transaction) : Prop :=
  match ts with
  | [] => True
  | t :: ts => undo_fits P b t ∧ ∀ b' op, BufferOps.undo_or_redo P b t = Some (b', op) → undos_fit b' ts
  end.

Definition text_of b : str := rope_text (visible_text (snapshot b)).

(** When calls may be made: the ranges of edits are in order and between
    characters; the history is changed outside of transactions, as it asserts;
    nothing overflows. *)
Definition may (e : Call) b : Prop :=
  match e with
  | CallEdit edits now _ => edit_fits P b edits now ∧ is_Some (splice 0 (text_of b) edits) ∧ Forall (λ x : Range N * str, scalars x.2) edits
  | CallUndo => transaction_depth (history b) = 0 ∧
      ∀ h e, HistoryOps.pop_undo (history b) = Some (h, Some e) → undo_fits P (BufferOps.set_history b h) (transaction e)
  | CallRedo => transaction_depth (history b) = 0 ∧
      ∀ h e, HistoryOps.pop_redo (history b) = Some (h, Some e) → undo_fits P (BufferOps.set_history b h) (transaction e)
  | CallUndoTransaction id => transaction_depth (history b) = 0 ∧
      ∀ h e, HistoryOps.remove_from_undo (history b) id = Some (h, Some e) → undo_fits P (BufferOps.set_history b h) (transaction e)
  | CallUndoToTransaction id => transaction_depth (history b) = 0 ∧
      ∀ h es, HistoryOps.remove_from_undo_until (history b) id = Some (h, es) → undos_fit (BufferOps.set_history b h) (transaction <$> es)
  | CallRedoToTransaction id => transaction_depth (history b) = 0 ∧
      ∀ h es, HistoryOps.remove_from_redo (history b) id = Some (h, es) → undos_fit (BufferOps.set_history b h) (transaction <$> es)
  | CallStartTransaction _ => value (lamport_clock b) + 1 < u32_modulus
  | CallEndTransaction _ => transaction_depth (history b) ≠ 0
  | CallPushTransaction t now => allowed (PushTransaction t now) (history b, lamport_clock b)
  | CallPushEmptyTransaction _ => transaction_depth (history b) = 0 ∧ value (lamport_clock b) + 1 < u32_modulus
  | CallForgetTransaction _ | CallMergeTransactions _ _ => transaction_depth (history b) = 0
  | CallFinalizeLastTransaction | CallGroupUntilTransaction _ | CallSetLineEnding _ | CallSetGroupInterval _ | CallSubscribe => True
  | CallConsume i => is_Some (TopicOps.consume (subscriptions b) i)
  end.

Definition buffer_step b b' : Prop := ∃ ev, may ev b ∧ call ev b = Some b'.

(** ** The invariant *)

Lemma with_history b ps h c : buffer_ok b ps → operations h = operations (history b) → history_ok (h, c) →
  (∀ t, passed_by (lamport_clock b) t → passed_by c t) → 1 <= value c → (transaction_depth h ≠ 0 → 2 <= value c) →
  buffer_ok (BufferOps.set_clock (BufferOps.set_history b h) c) ps.
Proof.
  intros [Hs Hh Hsub Hc Hb H1 H2] Ho Hh' Hc' H1' H2'. split; cbn; try done.
  - intros t Ht. apply Hc', Hc. unfold known in *. cbn in Ht. by rewrite Ho in Ht.
  - unfold is_edit. by rewrite Ho.
Qed.

Lemma kept_buffer b ps h : buffer_ok b ps → kept (history b) h → buffer_ok (BufferOps.set_history b h) ps.
Proof.
  intros Hb Hk. apply (with_history b ps h (lamport_clock b) Hb); try done; [by destruct Hk|by eapply kept_ok, Hk; apply Hb|by apply Hb|].
  intros []%(kept_open _ _ Hk). by apply (bo_ticked _ _ Hb).
Qed.

Lemma kept_call {X} b ps (m : option (History * X)) : buffer_ok b ps → returns m (λ '(h, _), kept (history b) h) →
  returns ('(h, x) ← m; Some (BufferOps.set_history b h, x)) (λ '(b', _), buffer_ok b' ps).
Proof. intros Hb Hm. eapply returns_bind; [exact Hm|]. intros [h x] Hk. by apply returns_ret, kept_buffer. Qed.

Lemma start_buffer_ok b ps now : buffer_ok b ps → value (lamport_clock b) + 1 < u32_modulus →
  buffer_ok (BufferOps.start_transaction_at b now).1 ps.
Proof.
  intros Hb Hc. unfold BufferOps.start_transaction_at.
  pose proof (start_transaction_ok (history b) (lamport_clock b) (BufferOps.version b) now (bo_history _ _ Hb) Hc) as H.
  destruct (HistoryOps.start_transaction _ _ _ _) as [[h c] o]. destruct H as (Hok & Hd & Hops & _ & Ec). cbn [fst].
  pose proof (bo_started _ _ Hb) as H1. pose proof (bo_ticked _ _ Hb) as H2.
  apply with_history; try done; subst c; destruct (N.eqb_spec (transaction_depth (history b)) 0) as [Hz|Hz]; rewrite ?tick_value by done; try done; try lia.
  - intros t. by apply passed_tick.
Qed.

Lemma push_empty_buffer_ok b ps now : buffer_ok b ps → transaction_depth (history b) = 0 → value (lamport_clock b) + 1 < u32_modulus →
  returns (BufferOps.push_empty_transaction b now) (λ '(b', _), buffer_ok b' ps).
Proof.
  intros Hb Hd Hc. unfold BufferOps.push_empty_transaction, HistoryOps.push_empty_transaction. rewrite Hd, N.eqb_refl.
  cbn [LamportOps.tick mbind option_bind]. apply returns_ret.
  pose proof (opened_ok _ _ (BufferOps.version b) now (transaction_depth (history b)) (bo_history _ _ Hb) Hc) as Ho.
  pose proof (bo_started _ _ Hb) as H1. pose proof (tick_value _ Hc) as Ht. cbn in Ht. change (value (lamport_clock b) +u32 1 = value (lamport_clock b) + 1) in Ht.
  apply with_history; try done.
  - intros t. by apply passed_tick.
  - cbn. rewrite Ht. lia.
Qed.

Lemma line_ending_buffer_ok b ps (le : LineEnding) : buffer_ok b ps → buffer_ok (BufferOps.set_line_ending b le) ps.
Proof. intros [Hs Hh Hsub Hc Hb H1 H2]. split; try done. by destruct Hs. Qed.

Lemma subscriptions_buffer_ok b ps t' : buffer_ok b ps → (∀ r, run_ok r → text r = Str.as_bytes (shown ps) → topics r = subscriptions b →
    ∃ r', run_ok r' ∧ text r' = text r ∧ topics r' = t') → buffer_ok (BufferOps.set_subscriptions b t') ps.
Proof.
  intros [Hs Hh [seen Hsub] Hc Hb H1 H2] Hstep. split; try done.
  destruct (Hstep _ Hsub eq_refl eq_refl) as ([t x s'] & Hr & Et & Es). cbn in *. subst. by exists s'.
Qed.

Lemma interval_buffer_ok b ps n : buffer_ok b ps → buffer_ok (BufferOps.set_group_interval b n) ps.
Proof. intros [Hs [] Hsub Hc Hb H1 H2]. split; try done. Qed.

(** ** Undoing *)

(** The edits of entries are recorded. *)
Lemma entry_recorded h c e : history_ok (h, c) → e ∈ stacks h → Forall (is_edit h) (edit_ids (transaction e)).
Proof.
  intros Hok (a & z & Hs)%list_elem_of_split. pose proof (ok_recorded _ Hok) as H. cbn [fst] in H.
  rewrite Hs, edits_app, edits_cons, !Forall_app in H. by destruct H as (_ & ? & _).
Qed.

Lemma pop_undo_entry h h' e : HistoryOps.pop_undo h = Some (h', Some e) → e ∈ stacks h'.
Proof.
  unfold HistoryOps.pop_undo. destruct (_ =? 0); [|done]. destruct (pop _) as [[x l]|]; [|done]. intros [= <- <-].
  rewrite stacks_set. set_solver.
Qed.

Lemma pop_redo_entry h h' e : HistoryOps.pop_redo h = Some (h', Some e) → e ∈ stacks h'.
Proof.
  unfold HistoryOps.pop_redo. destruct (_ =? 0); [|done]. destruct (pop _) as [[x l]|]; [|done]. intros [= <- <-].
  rewrite stacks_set. set_solver.
Qed.

Lemma remove_undo_entry h h' id e : HistoryOps.remove_from_undo h id = Some (h', Some e) → e ∈ stacks h'.
Proof.
  unfold HistoryOps.remove_from_undo. destruct (_ =? 0); [|done]. destruct (rposition _ _); [|done].
  destruct (_ !! _) as [x|]; [|done]. cbn. intros [= <- <-]. rewrite stacks_set. set_solver.
Qed.

Lemma remove_until_entries h h' id es : HistoryOps.remove_from_undo_until h id = Some (h', es) → Forall (λ e, e ∈ stacks h') es.
Proof.
  unfold HistoryOps.remove_from_undo_until. destruct (_ =? 0); [|done]. destruct (HistoryOps.move_until _ _ _) as [u r]. intros [= <- <-].
  rewrite stacks_set. apply Forall_forall. intros x (i & _ & Hx%list_elem_of_lookup_2)%elem_of_drop. set_solver.
Qed.

Lemma remove_redo_entries h h' id es : HistoryOps.remove_from_redo h id = Some (h', es) → Forall (λ e, e ∈ stacks h') es.
Proof.
  unfold HistoryOps.remove_from_redo. destruct (_ =? 0); [|done]. destruct (HistoryOps.move_until _ _ _) as [u r]. intros [= <- <-].
  rewrite stacks_set. apply Forall_forall. intros x (i & _ & Hx%list_elem_of_lookup_2)%elem_of_drop. set_solver.
Qed.

(** The loop over transactions. *)
Lemma undo_all_ok b ps ts : buffer_ok b ps → undos_fit b ts → Forall (λ t, Forall (is_edit (history b)) (edit_ids t)) ts →
  returns (BufferOps.undo_or_redo_all P b ts) (λ '(b', _), ∃ ps', buffer_ok b' ps').
Proof.
  revert b ps. induction ts as [|t ts IH]; intros b ps Hb Hfits Hts; cbn [BufferOps.undo_or_redo_all].
  { apply returns_ret. by exists ps. }
  destruct Hfits as [Hf Hfits]. apply Forall_cons in Hts as [Ht Hts].
  destruct (undo_or_redo_ok P b ps t Hb Hf Ht) as ([b1 op] & E & ps1 & Htg). rewrite E. cbn [mbind option_bind].
  eapply returns_bind; [apply (IH b1 ps1)|].
  - apply Htg.
  - by apply (Hfits b1 op).
  - eapply Forall_impl; [exact Hts|]. intros t' Ht'. eapply Forall_impl; [exact Ht'|]. apply Htg.
  - intros [b2 ops] Hb2. by apply returns_ret.
Qed.

Lemma moved_ok b ps h e : buffer_ok b ps → kept (history b) h → e ∈ stacks h → undo_fits P (BufferOps.set_history b h) (transaction e) →
  returns (BufferOps.undo_or_redo P (BufferOps.set_history b h) (transaction e))
    (λ '(b', op), ∃ ps', toggled P (BufferOps.set_history b h) ps (transaction e) b' ps' op).
Proof.
  intros Hb Hk He Hf. pose proof (kept_buffer b ps h Hb Hk) as Hb1. apply (undo_or_redo_ok P _ ps _ Hb1 Hf).
  exact (entry_recorded _ _ e (bo_history _ _ Hb1) He).
Qed.

Lemma moved_all_ok b ps h es : buffer_ok b ps → kept (history b) h → Forall (λ e, e ∈ stacks h) es →
  undos_fit (BufferOps.set_history b h) (transaction <$> es) →
  returns (BufferOps.undo_or_redo_all P (BufferOps.set_history b h) (transaction <$> es)) (λ '(b', _), ∃ ps', buffer_ok b' ps').
Proof.
  intros Hb Hk Hes Hf. pose proof (kept_buffer b ps h Hb Hk) as Hb1. apply (undo_all_ok _ ps _ Hb1 Hf).
  apply Forall_fmap. eapply Forall_impl; [exact Hes|]. intros e He. exact (entry_recorded _ _ e (bo_history _ _ Hb1) He).
Qed.

Lemma push_transaction_buffer_ok b ps t now : buffer_ok b ps → allowed (PushTransaction t now) (history b, lamport_clock b) →
  returns (BufferOps.push_transaction b t now) (λ b', buffer_ok b' ps).
Proof.
  intros Hb Hall. destruct (push_transaction_ok _ _ t now (bo_history _ _ Hb) Hall) as (h & E & Hh). unfold BufferOps.push_transaction.
  rewrite E. apply returns_ret. unfold HistoryOps.push_transaction in E. destruct (_ =? 0) eqn:Ed; [|done]. injection E as <-. apply N.eqb_eq in Ed.
  apply (with_history b ps _ (lamport_clock b)); try done. by apply Hb.
Qed.

(** ** Every call *)

(** The calls that leave the text as it is. *)
Definition quiet (ev : Call) : bool :=
  match ev with
  | CallEdit _ _ _ | CallUndo | CallRedo | CallUndoTransaction _ | CallUndoToTransaction _ | CallRedoToTransaction _ => false
  | _ => true
  end.

Record steady b b' : Prop := {
  sy_undos : undo_map (snapshot b') = undo_map (snapshot b);
  sy_replica : replica_id (lamport_clock b') = replica_id (lamport_clock b);
  sy_clock : value (lamport_clock b) <= value (lamport_clock b') }.

(** What they leave of the rest. *)
Definition pushed_edits (ev : Call) : list Lamport :=
  match ev with CallPushTransaction t _ => edit_ids t | _ => [] end.

Record still ev b b' : Prop := {
  st_version : BufferOps.version b' = BufferOps.version b;
  st_operations : operations (history b') = operations (history b);
  st_deferred : deferred_ops b' = deferred_ops b ∧ deferred_replicas b' = deferred_replicas b;
  st_edits t : t ∈ stack_edits (history b') → t ∈ pushed_edits ev ∨ t ∈ stack_edits (history b) }.

Lemma fewer_still ev b h : operations h = operations (history b) → stack_edits h ⊆+ stack_edits (history b) →
  still ev b (BufferOps.set_history b h).
Proof. intros Ho He. split; try done. intros t Ht. right. by eapply elem_of_submseteq. Qed.

Lemma kept_still ev b h : kept (history b) h → still ev b (BufferOps.set_history b h).
Proof. intros Hk. by apply fewer_still; destruct Hk. Qed.

Lemma same_still ev b b' : BufferOps.version b' = BufferOps.version b → deferred_ops b' = deferred_ops b ∧ deferred_replicas b' = deferred_replicas b →
  operations (history b') = operations (history b) → stack_edits (history b') = stack_edits (history b) → still ev b b'.
Proof. intros Hv Hd Ho He. split; try done. intros t. rewrite He. by right. Qed.

Lemma quiet_ok ev b ps : buffer_ok b ps → may ev b → quiet ev → returns (call ev b) (λ b', buffer_ok b' ps ∧ steady b b' ∧ still ev b b').
Proof.
  intros Hb Hmay Hq. pose proof (ok_open _ (bo_history _ _ Hb)) as Hopen. cbn [fst] in Hopen.
  destruct ev; try done; cbn [call]; cbn [may] in Hmay; clear Hq.
  - apply returns_ret. split; [by apply start_buffer_ok|]. unfold BufferOps.start_transaction_at.
    pose proof (start_transaction_ok _ _ (BufferOps.version b) now (bo_history _ _ Hb) Hmay) as H. pose proof (tick_value _ Hmay) as Ht.
    destruct (HistoryOps.start_transaction _ _ _ _) as [[h c] o]. destruct H as (_ & _ & Ho & He & Ec).
    split; [split; cbn; [done|by rewrite Ec; case_match|rewrite Ec; case_match; lia]|by apply same_still].
  - apply returns_fmap. destruct (end_transaction_at_ok b now (lamport_clock b) (bo_history _ _ Hb) Hmay) as ([b' r] & E & h & -> & Hh & Ho & Hd & He).
    rewrite E. apply returns_ret. split; [|by split; [split|apply fewer_still]]. apply (with_history b ps h (lamport_clock b)); try done; [apply Hb|]. intros _. by apply (bo_ticked _ _ Hb).
  - apply returns_ret. unfold BufferOps.finalize_last_transaction. pose proof (finalize_kept _ Hopen) as Hk.
    destruct (HistoryOps.finalize_last_transaction _) as [h t]. split; [by apply kept_buffer|by split; [split|apply kept_still]].
  - destruct (group_until_kept _ id Hopen) as (h & E & Hk). unfold BufferOps.group_until_transaction. rewrite E. apply returns_ret.
    split; [by apply kept_buffer|by split; [split|apply kept_still]].
  - destruct (push_transaction_buffer_ok b ps t now Hb Hmay) as (b' & E & H). rewrite E. apply returns_ret. split; [done|].
    unfold BufferOps.push_transaction, HistoryOps.push_transaction in E. destruct (_ =? 0); [|done]. injection E as <-. split; [by split|]. split; try done.
    intros t'. unfold stack_edits, stacks. cbn [BufferOps.set_history history HistoryOps.set_undo undo_stack redo_stack]. rewrite <- app_assoc, !edits_app, edits_cons, !elem_of_app. intros [?|[[?|[]%not_elem_of_nil]|?]]; auto.
  - destruct Hmay as [Hd Hc]. apply returns_fmap. destruct (push_empty_buffer_ok b ps now Hb Hd Hc) as ([b' i] & E & H). rewrite E. apply returns_ret.
    split; [done|]. pose proof (tick_value _ Hc) as Ht. unfold BufferOps.push_empty_transaction, HistoryOps.push_empty_transaction in E. rewrite Hd in E.
    injection E as <- <-. split; [split; cbn; [done|done|unfold LamportOps.tick in Ht; cbn in Ht; lia]|]. apply same_still; try done.
    change (edits ((undo_stack (history b) ++ [HistoryOps.entry_at (mkTransaction (lamport_clock b) [] (BufferOps.version b)) now]) ++ redo_stack (history b)) =
      stack_edits (history b)). unfold stack_edits, stacks. by rewrite !edits_app, edits_cons, app_nil_r.
  - apply returns_fmap. eapply returns_bind; [by apply forget_kept|]. intros [h t] Hk. apply returns_ret. split; [by apply kept_buffer|by split; [split|apply kept_still]].
  - destruct (merge_kept _ transaction destination Hmay) as (h & E & Hk). unfold BufferOps.merge_transactions. rewrite E. apply returns_ret.
    split; [by apply kept_buffer|by split; [split|apply kept_still]].
  - apply returns_ret. split; [by apply line_ending_buffer_ok|by split; [split|apply same_still]].
  - apply returns_ret. split; [by apply interval_buffer_ok|by split; [split|apply same_still]].
  - apply returns_ret. split; [|by split; [split|apply same_still]]. apply (subscriptions_buffer_ok b ps); [done|]. intros r Hr _ <-.
    by eexists; split; [exact (step_ok r _ Hr (step_subscribe r))|].
  - destruct Hmay as [[p t'] E]. rewrite E. apply returns_ret. split; [|by split; [split|apply same_still]]. apply (subscriptions_buffer_ok b ps); [done|]. intros r Hr _ Et.
    rewrite <- Et in E. by eexists; split; [exact (step_ok r _ Hr (step_consume r _ p t' E))|].
Qed.

Lemma call_ok ev b ps : buffer_ok b ps → may ev b → returns (call ev b) (λ b', ∃ ps', buffer_ok b' ps').
Proof.
  intros Hb Hmay. destruct (quiet ev) eqn:Hq.
  { eapply returns_mono; [by apply (quiet_ok ev b ps); [..|rewrite Hq]|]. intros b' [H _]. by exists ps. }
  destruct ev; try done; clear Hq; cbn [call]; apply returns_fmap; cbn [may] in Hmay.
  - destruct Hmay as (Hf & [z Hz] & Hsc). destruct (so_visible _ _ (bo_snapshot _ _ Hb)) as [_ Et]. unfold text_of in Hz. rewrite Et in Hz.
    eapply returns_mono; [by apply (buffer_edit_ok P b ps edits z now now' Hb Hf)|]. intros [b' op] (ps' & [] & _). by exists ps'.
  - destruct Hmay as [Hd Hf]. unfold BufferOps.undo. destruct (pop_undo_kept _ Hd) as ([h [e|]] & E & Hk); rewrite E; cbn [mbind option_bind].
    + eapply returns_bind; [apply (moved_ok b ps h e Hb Hk); [by eapply pop_undo_entry|by apply Hf]|]. intros [b' op] (ps' & []). apply returns_ret. by exists ps'.
    + apply returns_ret. exists ps. by apply kept_buffer.
  - destruct Hmay as [Hd Hf]. unfold BufferOps.redo. destruct (pop_redo_kept _ Hd) as ([h [e|]] & E & Hk); rewrite E; cbn [mbind option_bind].
    + eapply returns_bind; [apply (moved_ok b ps h e Hb Hk); [by eapply pop_redo_entry|by apply Hf]|]. intros [b' op] (ps' & []). apply returns_ret. by exists ps'.
    + apply returns_ret. exists ps. by apply kept_buffer.
  - destruct Hmay as [Hd Hf]. unfold BufferOps.undo_transaction. destruct (remove_from_undo_kept _ id Hd) as ([h [e|]] & E & Hk); rewrite E; cbn [mbind option_bind].
    + eapply returns_bind; [apply (moved_ok b ps h e Hb Hk); [by eapply remove_undo_entry|by apply Hf]|]. intros [b' op] (ps' & []). apply returns_ret. by exists ps'.
    + apply returns_ret. exists ps. by apply kept_buffer.
  - destruct Hmay as [Hd Hf]. unfold BufferOps.undo_to_transaction. destruct (remove_from_undo_until_kept _ id Hd) as ([h es] & E & Hk). rewrite E. cbn [mbind option_bind].
    eapply returns_mono; [apply (moved_all_ok b ps h es Hb Hk); [by eapply remove_until_entries|by apply Hf]|]. by intros [].
  - destruct Hmay as [Hd Hf]. unfold BufferOps.redo_to_transaction. destruct (remove_from_redo_kept _ id Hd) as ([h es] & E & Hk). rewrite E. cbn [mbind option_bind].
    eapply returns_mono; [apply (moved_all_ok b ps h es Hb Hk); [by eapply remove_redo_entries|by apply Hf]|]. by intros [].
Qed.

Lemma run_calls_ok b ps b' : buffer_ok b ps → rtc buffer_step b b' → ∃ ps', buffer_ok b' ps'.
Proof.
  intros Hb Hrun. revert ps Hb. induction Hrun as [b|b b1 b2 (ev & Hmay & Hcall) _ IH]; intros ps Hb; [by exists ps|].
  destruct (call_ok ev b ps Hb Hmay) as (b1' & E & ps' & Hb'). rewrite Hcall in E. injection E as <-. by apply (IH ps').
Qed.

End calls.

(** ** Typing *)

Section typing.
Context (P : Platform) `{!PlatformLaws P}.
Implicit Types (b : Buffer) (ps : list part) (es : list Lamport) (w : Lamport → bool).

(** A run of edits, with other calls that leave the text as it is. *)
Inductive typed : Buffer → list Lamport → Buffer → Prop :=
  | typed_nil b : typed b [] b
  | typed_quiet ev b b1 es b2 : quiet ev → may P ev b → call P ev b = Some b1 → typed b1 es b2 → typed b es b2
  | typed_edit edits now now' b b1 op es b2 : may P (CallEdit edits now now') b → BufferOps.edit P b edits now now' = Some (b1, op) →
      typed b1 es b2 → typed b (op_timestamp op :: es) b2.

(** What a run of edits does to the parts. *)
Record typed_parts b ps es b' ps' : Prop := {
  tp_ok : buffer_ok b' ps';
  tp_steady : steady b b';
  tp_stamps t : t ∈ es → replica_id t = replica_id (lamport_clock b) ∧ value (lamport_clock b) <= value t ∧
    undone_in (undo_map (snapshot b)) t = false;
  tp_views w : (∀ t, t ∈ es → w t = true) → view w ps' = view w ps }.

Lemma edited_text b ps edits now now' : buffer_ok b ps → may P (CallEdit edits now now') b →
  returns (BufferOps.edit P b edits now now') (λ '(b', op), ∃ ps', edited_by b ps edits b' ps' op ∧
    splice 0 (text_of b) edits = Some (text_of b')).
Proof.
  intros Hb (Hf & [z Hz] & Hsc). destruct (so_visible _ _ (bo_snapshot _ _ Hb)) as [_ Et]. unfold text_of in *. pose proof Hz as Hz'. rewrite Et in Hz'.
  eapply returns_mono; [by apply (buffer_edit_ok P b ps edits z now now' Hb Hf)|]. intros [b' op] (ps' & Hed & Es). exists ps'. split; [done|].
  destruct (so_visible _ _ (bo_snapshot _ _ (eb_ok _ _ _ _ _ _ Hed))) as [_ Et']. rewrite Et'. unfold shown in Es. by rewrite Es.
Qed.

Lemma typed_ok b ps es b' : buffer_ok b ps → typed b es b' → ∃ ps', typed_parts b ps es b' ps'.
Proof.
  intros Hb Hrun. revert ps Hb. induction Hrun as [b|ev b b1 es b2 Hq Hmay Hcall _ IH|edits now now' b b1 op es b2 Hmay Hcall _ IH]; intros ps Hb.
  - exists ps. split; [done|by split|by intros t ?%not_elem_of_nil|done].
  - destruct (quiet_ok P ev b ps Hb Hmay Hq) as (b1' & E & Hb1 & [S1 S2 S3] & _). rewrite Hcall in E. injection E as <-.
    destruct (IH ps Hb1) as (ps' & [H1 [H2 H3 H4] H5 H6]). exists ps'. split; [done|split; [congruence|congruence|lia]| |done].
    intros t (Hr & Hv & Hu)%H5. rewrite S1 in Hu. split_and!; [congruence|lia|done].
  - destruct (edited_text b ps edits now now' Hb Hmay) as ([b1' op'] & E & ps1 & [E1 (Hk & Hr & Hv) [Hr' Hv'] Hfol _ Hum _ _ _ _ _] & _).
    rewrite Hcall in E. injection E as <- <-. destruct (IH ps1 E1) as (ps' & [H1 [H2 H3 H4] H5 H6]). exists ps'.
    split; [done|split; [congruence|congruence|lia]| |].
    + intros t [->|Ht]%elem_of_cons.
      * split_and!; [done|done|]. destruct Hmay as [[Hlow _ _ _] _]. by apply (fresh_not_undone b ps).
      * destruct (H5 t Ht) as (? & ? & Hu). rewrite Hum in Hu. split_and!; [congruence|lia|done].
    + intros w Hw. rewrite H6 by (intros t Ht; apply Hw; by right). apply Hfol, Hw. by left.
Qed.

Lemma typed_steps b es b' : typed b es b' → rtc (buffer_step P) b b'.
Proof.
  induction 1 as [b|ev b b1 es b2 Hq Hmay Hcall _ IH|edits now now' b b1 op es b2 Hmay Hcall _ IH]; [done|..].
  - eapply rtc_l; [|exact IH]. by exists ev.
  - eapply rtc_l; [|exact IH]. exists (CallEdit edits now now'). split; [done|]. cbn [call]. by rewrite Hcall.
Qed.

Lemma view_ext w w' ps : (∀ t, t ∈ stamps ps.*1 → w t = w' t) → view w ps = view w' ps.
Proof.
  intros H. unfold view. f_equal. apply list_fmap_ext. intros i p Hp. f_equal. apply shows_ext. intros t Ht. apply H.
  apply elem_of_stamps. exists p.1. split; [|set_solver]. apply (list_elem_of_fmap_2 fst), (list_elem_of_lookup_2 _ i), Hp.
Qed.

Lemma text_view b ps : buffer_ok b ps → text_of b = view (undone_in (undo_map (snapshot b))) ps.
Proof.
  intros Hb. destruct (so_visible _ _ (bo_snapshot _ _ Hb)) as [_ Et]. unfold text_of. rewrite Et. symmetry. apply view_shown, Hb.
Qed.

(** The text after undoing or redoing a transaction. *)
Lemma toggled_text b ps t b' ps' op : buffer_ok b ps → toggled P b ps t b' ps' op →
  text_of b' = view (λ e, xorb (undone_in (undo_map (snapshot b)) e) (bool_decide (e ∈ edit_ids t))) ps.
Proof.
  intros Hb [H1 Hre Hu _ _ _ _ _ _ _ _]. rewrite (text_view b' ps'), (retouched_view ps ps') by done. apply view_ext. intros e _. apply Hu.
Qed.

(** What was typed is not in the text before. *)
Lemma typed_undone b ps es b' ps' : buffer_ok b ps → typed_parts b ps es b' ps' →
  view (λ e, xorb (undone_in (undo_map (snapshot b')) e) (bool_decide (e ∈ es))) ps' = text_of b.
Proof.
  intros Hb [_ [Hu _ _] Hst Hv]. rewrite (text_view b ps) by done. rewrite Hv.
  - apply view_ext. intros t Ht. rewrite Hu. destruct (decide (t ∈ es)) as [Hin|Hin].
    + destruct (Hst t Hin) as (Hr & Hle & _). assert (known b ps t) as Hk by by left. apply (bo_clock _ _ Hb) in Hk. specialize (Hk Hr). lia.
    + rewrite bool_decide_eq_false_2 by done. apply xorb_false_r.
  - intros t Ht. destruct (Hst t Ht) as (_ & _ & Hn). by rewrite Hu, Hn, bool_decide_eq_true_2.
Qed.

End typing.
