(* ===== verification/Network.v ===== *)
(** * Networks of replicas

    Buffers of the same text that edit it, undo and redo, and send each other
    their operations, which arrive in batches, late, out of order and more than
    once. All calls return ([event_ok]); the operations that are sent make sense
    in the order in which they are made ([made_more]); and a buffer has those
    that its version has observed ([joined]). So replicas that have observed the
    same operations show the same text, and what they show is what the
    operations mean. *)

From stdpp Require Import gmap sets sorting relations.
From S2P Require Import Prelude Clock Locator Patch SumTree SumCursor CursorSpec KeyedTree TreeMap UndoMap Text Rope RopeText LineEnding Fragment Builders Snapshot Cells Convergence OperationQueue History Replica SnapshotSpec LocalEdit LocalEditSpec RemoteEdit RemoteEditSpec ApplyUndo ApplyUndoSpec Offsets Buffer BufferSpec BufferInv BufferRemote Delivery BufferRuns.
Import TreeOps.

#[local] Unset Default Proof Using.
#[local] Arguments Nat.mul : simpl never.
#[local] Open Scope N_scope.
#[local] Existing Instance LamportOps.cmp_total.

(** ** Operations that a buffer makes *)

Section making.
Context (start : Replica) (v0 : Global).
Implicit Types (b : Buffer) (ps : list part) (o op : Operation) (done ops U : list Operation) (t : Lamport).

#[local] Abbreviation delivered := (Delivery.delivered start v0).
#[local] Abbreviation made := (Delivery.made start v0).

(** A buffer of the network has the operations [done] of those that were sent. *)
Record joined U b ps done : Prop := {
  jo_delivered : delivered U b ps done;
  jo_waiting : waiting U b;
  jo_own o : o ∈ U → replica_id (op_timestamp o) = replica_id (lamport_clock b) → o ∈ done }.

(** The buffer has made [op], which means what has been done. *)
Record produced b ps op b' ps' : Prop := {
  pd_ok : buffer_ok b' ps';
  pd_versioned : versioned b' ps';
  pd_valid : op_valid op;
  pd_ready : op_version op = BufferOps.version b;
  pd_receive : receive op (replica_of (snapshot b) ps) = Some (replica_of (snapshot b') ps');
  pd_stamp : replica_id (op_timestamp op) = replica_id (lamport_clock b) ∧ value (lamport_clock b) <= value (op_timestamp op);
  pd_clock : later_clock b b';
  pd_version : BufferOps.version b' = GlobalOps.observe (BufferOps.version b) (op_timestamp op);
  pd_recorded t : map_at t (operations (history b')) = if decide (t = op_timestamp op) then Some op else map_at t (operations (history b));
  pd_edits t : t ∈ stack_edits (history b') → t = op_timestamp op ∨ t ∈ stack_edits (history b);
  pd_deferred : deferred_ops b' = deferred_ops b ∧ deferred_replicas b' = deferred_replicas b }.

(** A timestamp that is ahead of all of its replica. *)
Definition unused U t : Prop := GlobalOps.get v0 (replica_id t) < value t ∧
  ∀ o, o ∈ U → replica_id (op_timestamp o) = replica_id t → value (op_timestamp o) < value t.

Lemma unused_unseen U V t : unused U t →
  (∀ r, GlobalOps.get V r <= GlobalOps.get v0 r ∨ ∃ o, o ∈ U ∧ op_timestamp o = mkLamport (GlobalOps.get V r) r) →
  GlobalOps.observed V t = false.
Proof.
  intros [H0 H] HV. destruct (GlobalOps.observed V t) eqn:E; [|done]. apply observed_iff in E.
  destruct (HV (replica_id t)) as [?|(o & Ho & Et)]; [lia|]. specialize (H o Ho). rewrite Et in H. specialize (H eq_refl). cbn in H. lia.
Qed.

Lemma clock_unused U b ps done t : joined U b ps done → replica_id t = replica_id (lamport_clock b) → value (lamport_clock b) <= value t → unused U t.
Proof.
  intros [Hd _ Hown] Hr Hle. pose proof (ve_clock _ _ (de_versioned _ _ _ _ _ _ Hd) (replica_id t)) as Hc. split.
  - pose proof (de_version _ _ _ _ _ _ Hd (replica_id t)). lia.
  - intros o Ho Er. assert (o ∈ done) as Hin%(de_observed _ _ _ _ _ _ Hd o Ho)%observed_iff by by apply Hown; [|congruence].
    rewrite Er in Hin. lia.
Qed.

Lemma unused_stamp U o t : unused U t → o ∈ U → op_timestamp o ≠ t.
Proof. intros [_ H] Ho <-. specialize (H o Ho eq_refl). lia. Qed.

Section one.
Context (U : list Operation) (last : Replica) (Hmade : made U last) (op : Operation) (Hnew : unused U (op_timestamp op)).

Lemma older_unaware o : o ∈ U → op_unaware o op.
Proof. intros Ho. apply (unused_unseen U); [done|]. intros r. by apply (ma_versions _ _ _ _ Hmade). Qed.

Lemma op_not_in : op ∉ U.
Proof. intros Ho. by apply (unused_stamp U op (op_timestamp op)). Qed.

(** What was sent makes sense, and one more operation. *)
Lemma made_more b ps done b' ps' : joined U b ps done → produced b ps op b' ps' → ∃ last', made (U ++ [op]) last'.
Proof.
  intros [Hd _ Hown] [_ _ Hval Hready Hrec [Hr Hle] _ _ _ _ _].
  pose proof Hd as [Hb Hv Hall Hm Hn Hs Hc Hobs Hver Hknown _ _].
  destruct (to_come start v0 U last Hmade done Hm Hn Hs Hc) as (Hp & Hs' & Hlast).
  unfold receive_all in Hlast. rewrite run_steps_app in Hlast. unfold receive_all in Hall. rewrite Hall in Hlast. cbn [mbind option_bind] in Hlast.
  assert (∀ o, o ∈ U → o ∉ done → op_unaware op o) as Hun.
  { intros o Ho Hni. unfold op_unaware. rewrite Hready. destruct (GlobalOps.observed _ _) eqn:E; [|done]. by apply Hobs in E. }
  assert (is_Some (receive op last)) as [last' Hlast'].
  { eapply receive_beside; [|exact Hlast|exact Hrec]. apply Forall_forall. intros o [Hni Ho]%list_elem_of_filter. split_and!; [by apply (unused_stamp U)|by apply older_unaware|by apply Hun]. }
  exists last'. split.
  - apply Forall_app. split; [apply Hmade|by constructor].
  - rewrite fmap_app. apply NoDup_app. split_and!; [apply Hmade| |apply NoDup_singleton].
    intros t (o & -> & Ho)%list_elem_of_fmap ?%list_elem_of_singleton. by apply (unused_stamp U o (op_timestamp op)).
  - apply StronglySorted_app. split_and!; [|apply Hmade|by repeat constructor].
    intros o o' Ho ->%list_elem_of_singleton. by apply older_unaware.
  - unfold receive_all. rewrite run_steps_app. pose proof (ma_last _ _ _ _ Hmade) as E. unfold receive_all in E. rewrite E. cbn [mbind option_bind run_steps].
    by rewrite Hlast'.
  - intros o [Ho| ->%list_elem_of_singleton]%elem_of_app; [by apply (ma_new _ _ _ _ Hmade)|].
    apply (unused_unseen U); [done|]. intros r. by left.
  - intros o o' [Ho| ->%list_elem_of_singleton]%elem_of_app [Ho'| ->%list_elem_of_singleton]%elem_of_app Er Hlt.
    + by apply (ma_own _ _ _ _ Hmade).
    + rewrite Hready. apply Hobs; [done|]. apply Hown; [done|congruence].
    + destruct Hnew as [_ H]. specialize (H o' Ho' (eq_sym Er)). lia.
    + lia.
  - intros o r [Ho| ->%list_elem_of_singleton]%elem_of_app.
    + destruct (ma_versions _ _ _ _ Hmade o r Ho) as [?|(o' & ? & ?)]; [by left|right]. exists o'. set_solver.
    + rewrite Hready. destruct (Hknown r) as [?|(o' & Ho'%Hm & ?)]; [by left|right]. exists o'. set_solver.
Qed.

Lemma delivered_more b ps done : delivered U b ps done → delivered (U ++ [op]) b ps done.
Proof.
  intros [Hb Hv Hall Hm Hn Hs Hc Hobs Hver Hknown Hrec Hed]. split; try done.
  - set_solver.
  - intros o o' Ho [Ho'| ->%list_elem_of_singleton]%elem_of_app Hni; [by apply Hc|by apply older_unaware, Hm].
  - intros o [Ho| ->%list_elem_of_singleton]%elem_of_app; [by apply Hobs|].
    rewrite (unused_unseen U); [|done|]; [split; [done|]; intros Ho%Hm; by destruct op_not_in|].
    intros r. destruct (Hknown r) as [?|(o' & Ho'%Hm & ?)]; [by left|right]. by exists o'.
  - intros t o Ho%Hrec. set_solver.
Qed.

Lemma waiting_more b : waiting U b → waiting (U ++ [op]) b.
Proof. intros [Hq Hin]. split; [done|]. intros o Ho. destruct (Hin o Ho) as [? ?]. split; [set_solver|done]. Qed.

(** Other buffers do not have it yet. *)
Lemma joined_more b ps done : replica_id (op_timestamp op) ≠ replica_id (lamport_clock b) → joined U b ps done → joined (U ++ [op]) b ps done.
Proof.
  intros Hne [Hd Hw Hown]. split; [by apply delivered_more|by apply waiting_more|].
  intros o [Ho| ->%list_elem_of_singleton]%elem_of_app; [by apply Hown|done].
Qed.

(** The buffer that has made it has it. *)
Lemma joined_own b ps done b' ps' : joined U b ps done → produced b ps op b' ps' → joined (U ++ [op]) b' ps' (done ++ [op]).
Proof.
  intros Hj Hpd. destruct (made_more b ps done b' ps' Hj Hpd) as [last' Hmade']. pose proof Hj as [Hd Hw Hown].
  destruct Hpd as [Hb' Hv' Hval Hready Hrec _ Hl Hver Hmap Hed [Hq _]]. split.
  - apply (delivered_after start v0 (U ++ [op]) last' Hmade' b ps done op b' ps'); try done.
    + by apply delivered_more.
    + set_solver.
    + intros Ho%(de_members _ _ _ _ _ _ Hd). by destruct op_not_in.
    + rewrite Hready. by apply observed_all_iff; [apply Hd|].
    + intros t. rewrite Hmap. case_decide; [by right|by left].
  - apply (waiting_later (U ++ [op]) b b'); [done|done|by apply waiting_more].
  - destruct Hl as [Er _]. intros o [Ho| ->%list_elem_of_singleton]%elem_of_app E; [|set_solver].
    apply elem_of_app. left. apply Hown; [done|congruence].
Qed.
End one.

(** ** What others see of it *)

Record extends r U U' : Prop := {
  ex_made : ∃ last, made U' last;
  ex_joined b ps done : replica_id (lamport_clock b) ≠ r → joined U b ps done → joined U' b ps done;
  ex_delivered b ps done : delivered U b ps done → delivered U' b ps done;
  ex_senders o : o ∈ U' → o ∈ U ∨ replica_id (op_timestamp o) = r }.

Lemma extends_refl r U last : made U last → extends r U U.
Proof. intros H. split; [by exists last|done|done|by left]. Qed.

Lemma extends_trans r U1 U2 U3 : extends r U1 U2 → extends r U2 U3 → extends r U1 U3.
Proof.
  intros [_ H1 D1 S1] [H2 H3 D3 S3]. split; [done| | |].
  - intros b ps done Hne Hj. by apply H3, H1.
  - intros b ps done Hd. by apply D3, D1.
  - intros o [Ho|Ho]%S3; [by apply S1|by right].
Qed.

(** The buffer goes on, and sends operations. *)
Definition proceeds U b U' b' : Prop :=
  (∃ ps done, joined U' b' ps done) ∧ extends (replica_id (lamport_clock b)) U U' ∧ later_clock b b'.

Lemma proceeds_trans U1 b1 U2 b2 U3 b3 : proceeds U1 b1 U2 b2 → proceeds U2 b2 U3 b3 → proceeds U1 b1 U3 b3.
Proof.
  intros (_ & He1 & [R1 V1]) (Hj & He2 & [R2 V2]). split_and!; [done| |split; [congruence|lia]].
  rewrite R1 in He2. by eapply extends_trans.
Qed.

Lemma produced_proceeds U last b ps done op b' ps' : made U last → joined U b ps done → produced b ps op b' ps' → proceeds U b (U ++ [op]) b'.
Proof.
  intros Hmade Hj Hpd. pose proof Hpd as [_ _ _ _ _ [Hr Hle] Hl _ _ _ _].
  pose proof (clock_unused U b ps done (op_timestamp op) Hj Hr Hle) as Hnew. split_and!; [|split|done].
  - exists ps', (done ++ [op]). by apply (joined_own U last Hmade op Hnew b ps done b' ps').
  - by apply (made_more U last Hmade op Hnew b ps done b' ps').
  - intros b2 ps2 done2 Hne Hj2. apply (joined_more U last Hmade op Hnew); [congruence|done].
  - by apply (delivered_more U last Hmade op Hnew).
  - intros o [Ho| ->%list_elem_of_singleton]%elem_of_app; [by left|by right].
Qed.

(** Nothing is sent. *)
Lemma still_delivered U b ps done ev b' : delivered U b ps done → buffer_ok b' ps → steady b b' → still ev b b' →
  Forall (λ t, GlobalOps.observed (BufferOps.version b) t = true) (pushed_edits ev) → delivered U b' ps done.
Proof.
  intros [Hb [Hv1 Hv2 Hv3 Hv4 Hv5] Hr Hm Hn Ho Hc Hobs Hver Hknown Hrec Hed] Hb' [Eu Er Hle] [Ev Eo _ He] Hp.
  rewrite Forall_forall in Hp. split; rewrite ?Ev, ?Eo; try done.
  - split; rewrite ?Ev, ?Eu; try done. intros r. specialize (Hv3 r). lia.
  - rewrite Hr. unfold replica_of. by rewrite Eu.
  - intros t [Ht|Ht]%He; [by apply Hp|by apply Hed].
Qed.

Lemma still_joined U b ps done ev b' : joined U b ps done → buffer_ok b' ps → steady b b' → still ev b b' →
  Forall (λ t, GlobalOps.observed (BufferOps.version b) t = true) (pushed_edits ev) → joined U b' ps done.
Proof.
  intros [Hd Hw Hown] Hb' Hs Hst Hp. split; [by apply (still_delivered U b ps done ev)| |].
  - apply (waiting_later U b b'); [apply Hst|by destruct Hs|done].
  - intros o Ho E. apply Hown; [done|]. destruct Hs. congruence.
Qed.

Lemma kept_joined U b ps done h : joined U b ps done → kept (history b) h → joined U (BufferOps.set_history b h) ps done.
Proof.
  intros Hj Hk. apply (still_joined U b ps done CallSubscribe); [done| |done|by apply kept_still|constructor].
  apply kept_buffer; [apply Hj|done].
Qed.
End making.

(** ** What happens at a buffer *)

(** A call on the buffer, or operations that arrive. *)
Inductive NodeEvent :=
  | Called (ev : Call)
  | Arrived (ops : list Operation).

Section node.
Context (P : Platform) `{!PlatformLaws P}.
Context (start : Replica) (v0 : Global).
Implicit Types (b : Buffer) (ps : list part) (o op : Operation) (done ops U : list Operation) (t : Lamport) (e : NodeEvent) (h : History) (tr : Transaction).

#[local] Abbreviation delivered := (Delivery.delivered start v0).
#[local] Abbreviation made := (Delivery.made start v0).
#[local] Abbreviation joined := (Network.joined start v0).
#[local] Abbreviation extends := (Network.extends start v0).
#[local] Abbreviation proceeds := (Network.proceeds start v0).

(** A call, with the operations that it returns. *)
Definition local_step (ev : Call) b : option (Buffer * list Operation) :=
  match ev with
  | CallEdit edits now now' => '(b, op) ← BufferOps.edit P b edits now now'; Some (b, [op])
  | CallUndo => '(b, r) ← BufferOps.undo P b; Some (b, option_list (snd <$> r))
  | CallRedo => '(b, r) ← BufferOps.redo P b; Some (b, option_list (snd <$> r))
  | CallUndoTransaction id => '(b, r) ← BufferOps.undo_transaction P b id; Some (b, option_list r)
  | CallUndoToTransaction id => BufferOps.undo_to_transaction P b id
  | CallRedoToTransaction id => BufferOps.redo_to_transaction P b id
  | ev => b ← call P ev b; Some (b, [])
  end.

Definition event_step e b : option (Buffer * list Operation) :=
  match e with
  | Called ev => local_step ev b
  | Arrived ops => b ← BufferOps.apply_ops P b ops; Some (b, [])
  end.

(** When events may happen: calls when they may be made ([may]), and what arrives
    has been sent; the entries that are pushed on the undo stack have edits that
    the buffer has. *)
Definition event_may U e b : Prop :=
  match e with
  | Called ev => may P ev b ∧ Forall (λ t, GlobalOps.observed (BufferOps.version b) t = true) (pushed_edits ev)
  | Arrived ops => Forall (λ o, o ∈ U) ops ∧ receive_fits P b [] ops
  end.

Lemma local_step_call ev b : fst <$> local_step ev b = call P ev b.
Proof.
  destruct ev; cbn [local_step]; try (by destruct (call P _ b)); cbn [call]; try done.
  - by destruct (BufferOps.edit P b edits now now') as [[]|].
  - by destruct (BufferOps.undo P b) as [[]|].
  - by destruct (BufferOps.redo P b) as [[]|].
  - by destruct (BufferOps.undo_transaction P b id) as [[]|].
Qed.

(** *** Edits *)

Lemma typed_produced b ps edits now now' : buffer_ok b ps → versioned b ps → may P (CallEdit edits now now') b →
  returns (BufferOps.edit P b edits now now') (λ '(b', op), ∃ ps', produced b ps op b' ps').
Proof.
  intros Hb Hv Hmay. eapply returns_mono; [by apply (edited_text P b ps edits now now' Hb)|]. intros [b' op] (ps' & Hed & _). exists ps'.
  destruct Hmay as ([Hlow _ _ _] & _ & Hsc). destruct (local_edit_received b ps edits b' ps' op Hed Hb Hv Hlow Hsc) as (Hv' & Hval & Ev & Hz).
  destruct Hed as [Hb' (_ & Hr & Hle) Hl _ _ _ Hver _ Hed Hrec Hdef]. by split.
Qed.

(** *** Undos *)

Definition observed_in b t : Prop := GlobalOps.observed (BufferOps.version b) t = true.

Lemma toggled_produced b ps tr : buffer_ok b ps → versioned b ps → undo_fits P b tr → Forall (is_edit (history b)) (edit_ids tr) →
  Forall (observed_in b) (edit_ids tr) →
  returns (BufferOps.undo_or_redo P b tr) (λ '(b', op), ∃ ps', produced b ps op b' ps' ∧
    (∀ t, is_edit (history b) t → is_edit (history b') t) ∧ ∀ t, observed_in b t → observed_in b' t).
Proof.
  intros Hb Hv Hfits Hedits Hobs. eapply returns_mono; [by apply (undo_or_redo_ok P b ps tr)|]. intros [b' op] (ps' & Htg). exists ps'.
  pose proof Htg as [Hb' _ _ _ (u & Eop & Eu & _ & Eum) [Hu Hre] _ Hise [Hver Hclock] Hrec Hdef].
  destruct (local_undo_received P b ps tr b' ps' op Htg Hb Hv) as (Hv' & Hval & Ev & Hz); [apply Hfits|done|done|apply Hfits|by eapply Hfits|].
  assert (op_timestamp op = lamport_clock b) as Ets.
  { subst op. destruct (undo_of_ok P b tr (ve_undo_map _ _ Hv)) as (u' & Eu' & Ets & _). cbn. congruence. }
  split; [|split; [done|]].
  - split; rewrite ?Ets in *; try done.
    + unfold later_clock. rewrite Hclock, tick_value by apply Hfits. split; [done|lia].
    + intros t. unfold stack_edits, stacks. rewrite Hu, Hre. by right.
  - intros t Ht. unfold observed_in. rewrite Hver. by apply observed_more.
Qed.

Section sent.
Context (U : list Operation) (last : Replica) (Hmade : made U last).

Lemma still_proceeds b ps done b' : joined U b' ps done → later_clock b b' → proceeds U b U b'.
Proof. intros Hj Hl. split_and!; [by exists ps, done|by eapply extends_refl|done]. Qed.

(** The edits of entries have been observed. *)
Lemma entry_observed b ps done h (x : HistoryEntry) : joined U b ps done → kept (history b) h → x ∈ stacks h →
  Forall (observed_in b) (edit_ids (transaction x)).
Proof.
  intros [Hd _ _] Hk (l & r & E)%list_elem_of_split. apply Forall_forall. intros t Ht. apply (de_edits _ _ _ _ _ _ Hd).
  eapply elem_of_submseteq; [|by apply Hk]. rewrite E, edits_app, edits_cons, !elem_of_app. auto.
Qed.

Lemma entry_edits b ps done h (x : HistoryEntry) : joined U b ps done → kept (history b) h → x ∈ stacks h →
  Forall (is_edit h) (edit_ids (transaction x)).
Proof.
  intros [Hd _ _] Hk Hx. apply (entry_recorded h (lamport_clock b)); [|done].
  exact (bo_history _ _ (kept_buffer b ps h (de_ok _ _ _ _ _ _ Hd) Hk)).
Qed.
End sent.

Lemma undo_event U last b ps done tr : made U last → joined U b ps done → undo_fits P b tr →
  Forall (is_edit (history b)) (edit_ids tr) → Forall (observed_in b) (edit_ids tr) →
  returns (BufferOps.undo_or_redo P b tr) (λ '(b', op), proceeds U b (U ++ [op]) b' ∧
    (∀ t, is_edit (history b) t → is_edit (history b') t) ∧ ∀ t, observed_in b t → observed_in b' t).
Proof.
  intros Hmade Hj Hfits Hedits Hobs. pose proof (jo_delivered _ _ _ _ _ _ Hj) as [Hb Hv _ _ _ _ _ _ _ _ _ _].
  eapply returns_mono; [by apply (toggled_produced b ps tr)|]. intros [b' op] (ps' & Hpd & H). split; [|done].
  by apply (produced_proceeds start v0 U last b ps done op b' ps').
Qed.

(** The loop over transactions. *)
Lemma undo_all_event U last b ps done trs : made U last → joined U b ps done → undos_fit P b trs →
  Forall (λ tr, Forall (is_edit (history b)) (edit_ids tr)) trs → Forall (λ tr, Forall (observed_in b) (edit_ids tr)) trs →
  returns (BufferOps.undo_or_redo_all P b trs) (λ '(b', ops), proceeds U b (U ++ ops) b').
Proof.
  revert U last b ps done. induction trs as [|tr trs IH]; intros U last b ps done Hmade Hj Hfits Hedits Hobs; cbn [BufferOps.undo_or_redo_all].
  { apply returns_ret. rewrite app_nil_r. by apply (still_proceeds U last Hmade b ps done). }
  destruct Hfits as [Hf Hfits]. apply Forall_cons in Hedits as [He Hedits]. apply Forall_cons in Hobs as [Ho Hobs].
  destruct (undo_event U last b ps done tr Hmade Hj Hf He Ho) as ([b1 op] & E & Hp & H1 & H2). rewrite E. cbn [mbind option_bind].
  pose proof Hp as ((ps1 & done1 & Hj1) & [[last1 Hmade1] _] & _).
  eapply returns_bind; [apply (IH (U ++ [op]) last1 b1 ps1 done1 Hmade1 Hj1)|].
  - by apply (Hfits b1 op).
  - eapply Forall_impl; [exact Hedits|]. intros tr' H. exact (Forall_impl _ _ _ H H1).
  - eapply Forall_impl; [exact Hobs|]. intros tr' H. exact (Forall_impl _ _ _ H H2).
  - intros [b2 ops] Hp2. apply returns_ret. rewrite <- app_assoc in Hp2. cbn [app] in Hp2. by eapply proceeds_trans.
Qed.

(** An entry, or entries, that have been taken from the stacks. *)
Lemma popped_event U last b ps done (m : option (History * option HistoryEntry)) : made U last → joined U b ps done →
  returns m (λ '(h, _), kept (history b) h) →
  (∀ h x, m = Some (h, Some x) → x ∈ stacks h ∧ undo_fits P (BufferOps.set_history b h) (transaction x)) →
  returns ('(h, entry) ← m;
    let b := BufferOps.set_history b h in
    match entry with
    | Some entry => '(b, op) ← BufferOps.undo_or_redo P b (transaction entry); Some (b, Some op)
    | None => Some (b, None)
    end) (λ '(b', r), proceeds U b (U ++ option_list r) b').
Proof.
  intros Hmade Hj ([h [x|]] & E & Hk) Hall; rewrite E; cbn [mbind option_bind]; pose proof (kept_joined start v0 U b ps done h Hj Hk) as Hj1.
  - destruct (Hall h x E) as [Hx Hf]. eapply returns_bind; [apply (undo_event U last _ ps done (transaction x) Hmade Hj1 Hf)|].
    + exact (entry_edits U b ps done h x Hj Hk Hx).
    + exact (entry_observed U b ps done h x Hj Hk Hx).
    + intros [b' op] [Hp _]. by apply returns_ret.
  - apply returns_ret. cbn. rewrite app_nil_r. by apply (still_proceeds U last Hmade b ps done).
Qed.

Lemma popped_all_event U last b ps done (m : option (History * list HistoryEntry)) : made U last → joined U b ps done →
  returns m (λ '(h, _), kept (history b) h) →
  (∀ h es, m = Some (h, es) → Forall (λ x, x ∈ stacks h) es ∧ undos_fit P (BufferOps.set_history b h) (transaction <$> es)) →
  returns ('(h, entries) ← m; BufferOps.undo_or_redo_all P (BufferOps.set_history b h) (transaction <$> entries))
    (λ '(b', ops), proceeds U b (U ++ ops) b').
Proof.
  intros Hmade Hj ([h es] & E & Hk) Hall; rewrite E; cbn [mbind option_bind]. destruct (Hall h es E) as [Hes Hf].
  eapply returns_mono; [apply (undo_all_event U last _ ps done _ Hmade (kept_joined start v0 U b ps done h Hj Hk) Hf)|].
  - apply Forall_fmap. eapply Forall_impl; [exact Hes|]. intros x Hx. exact (entry_edits U b ps done h x Hj Hk Hx).
  - apply Forall_fmap. eapply Forall_impl; [exact Hes|]. intros x Hx. exact (entry_observed U b ps done h x Hj Hk Hx).
  - by intros [b' ops].
Qed.
(** [undo] and [redo] also give the id of the transaction. *)
Lemma named_event U last b ps done (m : option (History * option HistoryEntry)) : made U last → joined U b ps done →
  returns m (λ '(h, _), kept (history b) h) →
  (∀ h x, m = Some (h, Some x) → x ∈ stacks h ∧ undo_fits P (BufferOps.set_history b h) (transaction x)) →
  returns ('(h, entry) ← m;
    let b := BufferOps.set_history b h in
    match entry with
    | Some entry => '(b, op) ← BufferOps.undo_or_redo P b (transaction entry); Some (b, Some (id (transaction entry), op))
    | None => Some (b, None)
    end) (λ '(b', r), proceeds U b (U ++ option_list (snd <$> r)) b').
Proof.
  intros Hmade Hj Hm Hall. destruct (popped_event U last b ps done m Hmade Hj Hm Hall) as ([b' r] & E & Hp).
  destruct Hm as ([h [x|]] & Em & _); rewrite Em in *; cbn [mbind option_bind] in *; [|injection E as <- <-; by apply returns_ret].
  destruct (BufferOps.undo_or_redo P _ _) as [[b1 op]|]; [|done]. cbn [mbind option_bind] in *. injection E as <- <-. by apply returns_ret.
Qed.

(** *** Every event *)

Lemma local_ok U last b ps done ev : made U last → joined U b ps done → event_may U (Called ev) b →
  returns (local_step ev b) (λ '(b', ops), proceeds U b (U ++ ops) b').
Proof.
  intros Hmade Hj [Hmay Hp]. pose proof (jo_delivered _ _ _ _ _ _ Hj) as [Hb Hv _ _ _ _ _ _ _ _ _ _]. destruct (quiet ev) eqn:Hq.
  { destruct (quiet_ok P ev b ps Hb Hmay) as (b' & E & Hb' & Hs & Hst); [by rewrite Hq|].
    assert (local_step ev b = (b ← call P ev b; Some (b, []))) as -> by by destruct ev.
    rewrite E. apply returns_ret. rewrite app_nil_r. apply (still_proceeds U last Hmade b ps done); [|by destruct Hs].
    by apply (still_joined start v0 U b ps done ev). }
  destruct ev; try done; clear Hq Hp; cbn [local_step]; cbn [may] in Hmay.
  - eapply returns_bind; [by apply (typed_produced b ps)|]. intros [b' op] (ps' & Hpd). apply returns_ret.
    by apply (produced_proceeds start v0 U last b ps done op b' ps').
  - destruct Hmay as [Hd Hf]. eapply returns_bind; [apply (named_event U last b ps done _ Hmade Hj); [by apply pop_undo_kept|]|].
    + intros h x E. split; [by eapply pop_undo_entry|by apply Hf].
    + intros [b' r] H. by apply returns_ret.
  - destruct Hmay as [Hd Hf]. eapply returns_bind; [apply (named_event U last b ps done _ Hmade Hj); [by apply pop_redo_kept|]|].
    + intros h x E. split; [by eapply pop_redo_entry|by apply Hf].
    + intros [b' r] H. by apply returns_ret.
  - destruct Hmay as [Hd Hf]. eapply returns_bind; [apply (popped_event U last b ps done _ Hmade Hj); [by apply remove_from_undo_kept|]|].
    + intros h x E. split; [by eapply remove_undo_entry|by apply Hf].
    + intros [b' r] H. by apply returns_ret.
  - destruct Hmay as [Hd Hf]. apply (popped_all_event U last b ps done _ Hmade Hj); [by apply remove_from_undo_until_kept|].
    intros h es E. split; [by eapply remove_until_entries|by apply Hf].
  - destruct Hmay as [Hd Hf]. apply (popped_all_event U last b ps done _ Hmade Hj); [by apply remove_from_redo_kept|].
    intros h es E. split; [by eapply remove_redo_entries|by apply Hf].
Qed.

(** What has been sent can arrive. *)
Lemma sent_arrives U last b ps done o : made U last → joined U b ps done → o ∈ U → may_arrive U b o.
Proof.
  intros Hmade [Hd _ Hown] Ho. split; [done|]. intros E. apply (versioned_passed b ps); [apply Hd| |done].
  apply (de_observed _ _ _ _ _ _ Hd); [done|by apply Hown].
Qed.

(** A batch; when nothing is missing, none waits. *)
Lemma arrived_ok U last b ps done ops : made U last → joined U b ps done → event_may U (Arrived ops) b →
  returns (BufferOps.apply_ops P b ops) (λ b', ∃ ps' done', joined U b' ps' done' ∧ (∃ l, done' = done ++ l) ∧ later_clock b b' ∧
    ((∀ o, o ∈ U → o ∈ done ∨ o ∈ ops ∨ o ∈ tree_items (deferred_ops b)) → tree_items (deferred_ops b') = [] ∧ ∀ o, o ∈ U → o ∈ done')).
Proof.
  intros Hmade Hj [Hin Hfits]. pose proof Hj as [Hd Hw Hown].
  eapply returns_mono; [apply (batch_ok start v0 U last Hmade P b ps done ops Hd Hw); [|done]|].
  - eapply Forall_impl; [exact Hin|]. intros o. by apply (sent_arrives U last b ps done).
  - intros b' (ps' & done' & [Hd' [l ->] Hl Hw' _ _] & Hall). exists ps', (done ++ l). split_and!; [|by exists l|done|done].
    split; [done|done|]. destruct Hl as [Er _]. intros o Ho E. apply elem_of_app. left. apply Hown; [done|congruence].
Qed.

Lemma event_ok U last b ps done e : made U last → joined U b ps done → event_may U e b →
  returns (event_step e b) (λ '(b', ops), proceeds U b (U ++ ops) b').
Proof.
  intros Hmade Hj Hmay. destruct e as [ev|ops]; [by apply (local_ok U last b ps done)|]. cbn [event_step].
  eapply returns_bind; [by apply (arrived_ok U last b ps done)|]. intros b' (ps' & done' & Hj' & _ & Hl & _). apply returns_ret.
  rewrite app_nil_r. by apply (still_proceeds U last Hmade b ps' done').
Qed.
End node.

(** ** The text of a buffer *)

Section text.
Context (start : Replica) (v0 : Global) (U : list Operation) (last : Replica) (Hmade : made start v0 U last).
Implicit Types (b : Buffer) (ps : list part) (o : Operation) (done : list Operation).

(** The operations that the buffer has observed. *)
Definition observed_ops b : list Operation := filter (λ o, GlobalOps.observed (BufferOps.version b) (op_timestamp o) = true) U.

(** The buffer is the replica that they make, in the order in which they were made. *)
Lemma observed_replica b ps done : delivered start v0 U b ps done →
  receive_all (observed_ops b) start = Some (replica_of (snapshot b) ps).
Proof.
  intros Hd. pose proof Hd as [_ _ Hr Hm Hn Hs _ Hobs _ _ _ _]. apply (receive_all_permuted done); try done.
  - unfold observed_ops. apply NoDup_Permutation; [done| |].
    + apply NoDup_filter, (NoDup_fmap_1 op_timestamp), Hmade.
    + intros o. rewrite list_elem_of_filter. split; [intros Ho; pose proof (Hm o Ho); split; [by apply Hobs|done]|intros [Ho ?]; by apply Hobs].
  - apply NoDup_fmap_2_strong; [|done]. intros o o' Ho Ho'. apply (same_stamp start v0 U last Hmade); by apply Hm.
  - apply Forall_forall. intros o Ho. by destruct (made_valid start v0 U last Hmade o (Hm o Ho)).
  - apply StronglySorted_filter, Hmade.
Qed.

Lemma delivered_text b ps done : delivered start v0 U b ps done → text_of b = replica_text (replica_of (snapshot b) ps).
Proof.
  intros [Hb Hv _ _ _ _ _ _ _ _ _ _]. destruct (so_visible _ _ (bo_snapshot _ _ Hb)) as [_ Et]. unfold text_of. rewrite Et.
  apply shown_replica; [apply Hb|apply Hv].
Qed.
End text.

(** ** Networks *)

(** The replicas, and all operations that they have sent. *)
Record Net := mkNet { nodes : list Buffer; sent : list Operation }.

Section net.
Context (P : nat → Platform) `{!∀ i, PlatformLaws (P i)} (s : str).
Implicit Types (n : Net) (b : Buffer) (ps : list part) (done : list Operation).

(** Something happens at a replica; each has its own platform. *)
Inductive net_step n : Net → Prop :=
  | net_event i b e b' ops : nodes n !! i = Some b → event_may (P i) (sent n) e b → event_step (P i) e b = Some (b', ops) →
      net_step n (mkNet (<[i := b']> (nodes n)) (sent n ++ ops)).

(** All replicas start with new buffers of the same text. *)
Definition net_start n : Prop := sent n = [] ∧ NoDup ((λ b, replica_id (lamport_clock b)) <$> nodes n) ∧
  ∀ i b, nodes n !! i = Some b → ∃ replica remote, BufferOps.new (MAX_INSERTION_LEN (P i)) (replace_all (P i)) replica remote s = Some b.

(** The replica that all start from. *)
Definition base_replica : Replica := mkReplica (text_cells base_stamp ∅ 0 (unix_lines s)) ∅.
Definition base_version : Global := base_observed (unix_lines s).

#[local] Abbreviation joined := (Network.joined base_replica base_version).

Record net_ok n : Prop := {
  no_made : ∃ last, made base_replica base_version (sent n) last;
  no_ids : NoDup ((λ b, replica_id (lamport_clock b)) <$> nodes n);
  no_joined i b : nodes n !! i = Some b → ∃ ps done, joined (sent n) b ps done;
  no_senders o : o ∈ sent n → replica_id (op_timestamp o) ∈ (λ b, replica_id (lamport_clock b)) <$> nodes n }.

Lemma new_undos_ok : undo_ok (TreeOps.new () : UndoMap).
Proof. split_and!; [apply tree_ok_new|constructor|apply Nat.ltb_lt; reflexivity]. Qed.

Lemma base_observed_get (x : str) r : GlobalOps.get (base_observed x) r <= if decide (x = []) then 0 else 1.
Proof.
  unfold base_observed. destruct x; [by rewrite decide_True, get_new|]. rewrite decide_False by done.
  rewrite get_observe, get_new. by destruct (_ =? r).
Qed.

Lemma new_joined i replica remote : scalars s → Str.length_utf8 (unix_lines s) < u32_modulus →
  returns (BufferOps.new (MAX_INSERTION_LEN (P i)) (replace_all (P i)) replica remote s)
    (λ b, ∃ ps, joined [] b ps [] ∧ replica_id (lamport_clock b) = replica).
Proof.
  intros Hs Hlen. eapply returns_mono; [by apply (new_buffer_ok (P i) replica remote s Hs Hlen)|].
  intros b (ps & Hb & Hbase & Ht & _ & Er & Eh & Eu & Ec & Ev & Ed & Hle). exists ps. split; [|done].
  pose proof (so_parts _ _ (bo_snapshot _ _ Hb)) as Hparts.
  assert (ps ≠ [] → unix_lines s ≠ []) as Hne.
  { intros Hps E. destruct ps as [|p ps]; [done|]. apply Forall_cons in Hparts as [[_ Hp _ _ _ _] _].
    rewrite E, cells_cons in Ec. apply app_eq_nil in Ec as [Ec _]. by apply text_cells_nil in Ec. }
  assert (∀ r, GlobalOps.get (BufferOps.version b) r < value (lamport_clock b)) as Hclock.
  { intros r. rewrite Ev. pose proof (base_observed_get (unix_lines s) r). destruct (decide (ps = [])) as [->|]; [|case_decide; lia].
    cbn in Ht. rewrite <- Ht, decide_True in * by done. lia. }
  split; [split; try done| |by intros o ?%elem_of_nil].
  - split; [|intros x; rewrite Eu; by intros ?%elem_of_nil|done| |rewrite Eu; apply new_undos_ok].
    + intros t Ht'. rewrite (base_stamps ps t Hbase Ht'), Ev. split; [|by vm_compute].
      unfold base_observed. destruct (unix_lines s); [|apply observed_self]. destruct Hne; [|done]. intros ->. by apply elem_of_nil in Ht'.
    + rewrite Ev. unfold base_observed. destruct (unix_lines s); [|apply normal_observe]; apply normal_new.
  - cbn. unfold replica_of. by rewrite Eu, Ec.
  - constructor.
  - constructor.
  - by intros o ?%elem_of_nil.
  - intros r. by rewrite Ev.
  - intros r. left. by rewrite Ev.
  - intros t o. by rewrite Eh.
  - intros t. rewrite Eh. by intros ?%elem_of_nil.
  - split; rewrite Ed; [apply new_queue_ok|by intros o ?%elem_of_nil].
Qed.

Lemma net_start_ok n : scalars s → Str.length_utf8 (unix_lines s) < u32_modulus → net_start n → net_ok n.
Proof.
  intros Hs Hlen (Es & Hids & Hnew). split; [|done| |rewrite Es; by intros o ?%elem_of_nil].
  - exists base_replica. rewrite Es. split; [by apply Forall_nil|by apply NoDup_nil_2|apply SSorted_nil|done|by intros o ?%elem_of_nil|by intros o o' ?%elem_of_nil|by intros o r ?%elem_of_nil].
  - intros i b Hi. destruct (Hnew i b Hi) as (replica & remote & E). rewrite Es.
    destruct (new_joined i replica remote Hs Hlen) as (b' & E' & ps & Hj & _). rewrite E in E'. injection E' as <-. by exists ps, [].
Qed.

(** What is sent later changes nothing of what buffers have. *)
Definition grows n n' : Prop := ∀ b ps done, delivered base_replica base_version (sent n) b ps done → delivered base_replica base_version (sent n') b ps done.

(** Every event that may happen ends, and the network goes on. *)
Lemma net_event_ok n i b e : net_ok n → nodes n !! i = Some b → event_may (P i) (sent n) e b →
  returns (event_step (P i) e b) (λ '(b', ops), let n' := mkNet (<[i := b']> (nodes n)) (sent n ++ ops) in net_ok n' ∧ grows n n').
Proof.
  intros [[last Hmade] Hids Hj Hsend] Hi Hmay. destruct (Hj i b Hi) as (ps & done & Hb).
  eapply returns_mono; [by apply (event_ok (P i) base_replica base_version (sent n) last b ps done e)|].
  intros [b' ops] (Hb' & [Hmade' Hex Hd Hsend'] & [Er _]). split; [|exact Hd].
  assert ((λ b, replica_id (lamport_clock b)) <$> <[i := b']> (nodes n) = (λ b, replica_id (lamport_clock b)) <$> nodes n) as Eids.
  { rewrite list_fmap_insert, Er, list_insert_id; [done|]. by rewrite list_lookup_fmap, Hi. }
  split; cbn [nodes sent]; [done|by rewrite Eids| |].
  - intros k c Hk. destruct (decide (k = i)) as [->|Hne].
    + rewrite list_lookup_insert_eq in Hk by (by eapply lookup_lt_Some). by injection Hk as <-.
    + rewrite list_lookup_insert_ne in Hk by done. destruct (Hj k c Hk) as (ps' & done' & Hc). exists ps', done'.
      apply Hex; [|done]. intros E. apply Hne. rewrite NoDup_alt in Hids. apply (Hids _ _ (replica_id (lamport_clock b))); rewrite list_lookup_fmap.
      * by rewrite Hk; cbn; rewrite E.
      * by rewrite Hi.
  - intros o Ho. rewrite Eids. destruct (Hsend' o Ho) as [?| ->]; [by apply Hsend|].
    apply list_elem_of_fmap. exists b. split; [done|]. by eapply list_elem_of_lookup_2.
Qed.

Lemma net_step_ok n n' : net_ok n → net_step n n' → net_ok n' ∧ grows n n'.
Proof.
  intros Hn [i b e b' ops Hi Hmay E]. destruct (net_event_ok n i b e Hn Hi Hmay) as ([b1 ops1] & E1 & Hok). rewrite E in E1. by injection E1 as <- <-.
Qed.

Lemma net_run_grows n n' : net_ok n → rtc net_step n n' → net_ok n' ∧ grows n n'.
Proof.
  intros Hn Hrun. induction Hrun as [n1|n1 n2 n3 Hstep _ IH]; [split; [done|by intros b ps done]|]. destruct (net_step_ok n1 n2 Hn Hstep) as [Hn2 H2].
  destruct (IH Hn2) as [Hn3 H3]. split; [done|]. intros b ps done Hd. by apply H3, H2.
Qed.

Lemma net_run_ok n n' : net_ok n → rtc net_step n n' → net_ok n'.
Proof. intros Hn Hrun. by apply (net_run_grows n n'). Qed.

(** The text of a replica is what the operations mean that it has observed. *)
Lemma net_text n i b : net_ok n → nodes n !! i = Some b →
  ∃ z, receive_all (observed_ops (sent n) b) base_replica = Some z ∧ text_of b = replica_text z.
Proof.
  intros [[last Hmade] _ Hj _] Hi. destruct (Hj i b Hi) as (ps & done & [Hd _ _]). exists (replica_of (snapshot b) ps). split.
  - by apply (observed_replica base_replica base_version (sent n) last Hmade b ps done).
  - by apply (delivered_text base_replica base_version (sent n) b ps done).
Qed.
End net.
