(* ===== verification/BufferProps.v ===== *)
(** * Properties of buffers

    Creating a buffer, and editing its snapshot. *)

From stdpp Require Import gmap sets sorting relations.
From S2P Require Import Prelude Clock Locator Patch SumTree SumCursor CursorSpec CursorWalk KeyedTree TreeMap UndoMap Text Rope RopeText RopeClip LineEnding Fragment Builders Snapshot SnapshotSpec History LocalEdit LocalEditSpec ApplyUndo ApplyUndoSpec OperationQueue Offsets Buffer BufferSpec BufferInv BufferRuns.
Import TreeOps.

#[local] Unset Default Proof Using.
#[local] Arguments Nat.mul : simpl never.
#[local] Open Scope N_scope.
#[local] Existing Instance LamportOps.cmp_total.

(** ** Local edits *)

Section local_edits.
Context (MAX_INSERTION_LEN : N) (replace_all : str → str) (ts : Lamport).
Context (sort_insertions : list (KeyedTree.Edit InsertionFragment InsertionFragmentKey) → list (KeyedTree.Edit InsertionFragment InsertionFragmentKey)).
Context (sort_slices : list (KeyedTree.Edit (MapEntry InsertionSlice ()) (MapKey InsertionSlice)) →
  list (KeyedTree.Edit (MapEntry InsertionSlice ()) (MapKey InsertionSlice))).

(** C7: a batch of edits of the visible text, in order and between characters, does not panic and
    ends. The snapshot it leaves is well formed: its text is the text with the ranges replaced by
    the new texts with Unix line endings. The patch that goes to the subscriptions takes the old
    bytes to the new ones, with gaps between its edits, and the operation that goes to the other
    replicas has the version of the snapshot, the new texts, and the ranges as offsets in the text
    with all that is deleted. *)
Theorem local_edit s ps edits z (Hok : snapshot_ok s ps) (Hlow : snapshot_low s)
    (Hfresh : ts ∉ stamp <$> ps.*1) (Hmin : ts ≠ LamportOps.MIN) (Hundone : undone_in (undo_map s) ts = false)
    (Hmax : 4 <= MAX_INSERTION_LEN < u32_modulus) (Hrepl : LineSeparators replace_all)
    (Hsi : Sorting (edit_le insertion_key_cmp) sort_insertions)
    (Hss : Sorting (edit_le (map_key_cmp insertion_slice_cmp)) sort_slices)
    (Hz : splice 0 (rope_text (visible_text s)) edits = Some z) (Hsc : Forall (λ e, scalars e.2) edits)
    (Hfits : Str.length_utf8 (mjoin (new_texts edits)) < u32_modulus) :
  returns (LocalEditOps.apply_edit_internal MAX_INSERTION_LEN replace_all ts sort_insertions sort_slices s edits)
    (λ '(s', (op, patch)), (∃ ps', snapshot_ok s' ps') ∧ same_buffer s s' ∧ rope_text (visible_text s') = z ∧
      patched 0 0 patch (Str.as_bytes (rope_text (visible_text s))) (Str.as_bytes z) ∧ separated patch ∧
      ∃ fulls, Forall2 (placed ps) edits fulls ∧ op = mkEditOperation ts (sversion s) fulls (new_texts edits)).
Proof.
  destruct (so_visible _ _ Hok) as [_ Ht]. rewrite Ht in *.
  eapply returns_mono; [by apply (apply_edit_internal_ok s ps Hok Hlow ts)|].
  intros [s' [op patch]] (nps & Hnps & _ & Hsame & Htext & Hp & Hsep & fulls & Hf & Hop & _). destruct (so_visible _ _ Hnps) as [_ Ht'].
  split_and!; try done; [by exists nps|by rewrite Ht'|by exists fulls].
Qed.
End local_edits.

(** A buffer of two fragments. *)
Definition sample_text : str := [104; 233; 108; 108; 111; 13; 10; 119; 111; 114; 108; 100; 32; 8364; 44; 32; 98; 121; 101; 46].
Definition sample_buffer : option Buffer := BufferOps.new 16 unix_lines 8 1 sample_text.
Definition sample_edits : list (Range N * str) :=
  [((0 ..: 1), [72]); ((6 ..: 12), []); ((12 ..: 12), [13; 10]); ((21 ..: 22), [33; 33])].

Definition sample_edited : str := [72; 233; 108; 108; 111; 10; 32; 8364; 44; 32; 98; 121; 101; 33; 33].
#[local] Abbreviation sort_insertions := (merge_sort (edit_le insertion_key_cmp)).
#[local] Abbreviation sort_slices := (merge_sort (edit_le (map_key_cmp insertion_slice_cmp))).

(** The trees of the sample fit the stacks. *)
Definition low_sample (s : BufferSnapshot) : bool :=
  (length (tree_items (chunks (visible_text s))) <=? 1)%nat && (length (tree_items (chunks (deleted_text s))) <=? 1)%nat &&
  forallb (λ h, h <? STACK_CAPACITY)%nat [NodeOps.height (chunks (visible_text s)); NodeOps.height (chunks (deleted_text s));
    NodeOps.height (fragments s); NodeOps.height (insertions s); NodeOps.height (insertion_slices s); NodeOps.height (undo_map s)].

Lemma low_sample_ok s ps : snapshot_ok s ps → low_sample s = true → snapshot_low s.
Proof.
  intros Hok. destruct (so_visible _ _ Hok) as [Hv _], (so_deleted _ _ Hok) as [Hd _]. unfold low_sample. cbn [forallb].
  rewrite !andb_true_iff, !Nat.leb_le, !Nat.ltb_lt. intros [[H1 H2] (H3 & H4 & H5 & H6 & H7 & H8 & _)].
  split; [by apply single_sliceable|by apply single_sliceable|done..].
Qed.

Lemma sixteen_fits : 4 <= 16 < u32_modulus.
Proof. done. Qed.

Lemma sample_buffer_ok : returns sample_buffer (λ b, ∃ ps, snapshot_ok (snapshot b) ps ∧ all_base ps ∧ snapshot_low (snapshot b) ∧
  splice 0 (rope_text (visible_text (snapshot b))) sample_edits = Some sample_edited).
Proof.
  destruct (buffer_new_ok 16 ltac:(done) unix_lines 8 1 sample_text) as (b & E & ps & Hok & Hb & _); [by vm_compute..|].
  exists b. split; [exact E|]. exists ps. split_and!; [done|done| |].
  - apply (low_sample_ok _ ps Hok). change (match Some b with Some b => low_sample (snapshot b) = true | None => False end).
    rewrite <- E. vm_compute. reflexivity.
  - assert ((b ← sample_buffer; splice 0 (rope_text (visible_text (snapshot b))) sample_edits) = Some sample_edited) as H.
    { vm_compute. reflexivity. }
    unfold sample_buffer in H. by rewrite E in H.
Qed.

Lemma local_edit_witness :
  returns (b ← sample_buffer; LocalEditOps.apply_edit_internal 16 unix_lines (mkLamport 2 8) sort_insertions sort_slices (snapshot b) sample_edits)
    (λ '(s', (op, patch)), (∃ ps', snapshot_ok s' ps') ∧ rope_text (visible_text s') = sample_edited ∧
      new_text op = [[72]; []; [10]; [33; 33]]).
Proof.
  destruct sample_buffer_ok as (b & E & ps & Hok & Hb & Hlow & Hz).
  assert (undo_map (snapshot b) = TreeOps.new ()) as Hu.
  { change (match Some b with Some b => undo_map (snapshot b) = TreeOps.new () | None => False end). rewrite <- E. vm_compute. reflexivity. }
  assert (mkLamport 2 8 ∉ stamp <$> ps.*1) as Hfresh.
  { intros (f & Hf & Hin)%list_elem_of_fmap. unfold all_base in Hb. rewrite Forall_forall in Hb. destruct (Hb f Hin) as (Hst & _).
    rewrite Hst in Hf. by vm_compute in Hf. }
  assert (undone_in (undo_map (snapshot b)) (mkLamport 2 8) = false) as Hundone by (rewrite Hu; apply no_undos).
  assert (Forall (λ e : Range N * str, scalars e.2) sample_edits) as Hsc by by repeat constructor.
  assert (Str.length_utf8 (mjoin (new_texts sample_edits)) < u32_modulus) as Hfits by by vm_compute.
  pose proof (local_edit 16 unix_lines (mkLamport 2 8) sort_insertions sort_slices (snapshot b) ps sample_edits sample_edited
    Hok Hlow Hfresh ltac:(done) Hundone sixteen_fits _ (merge_sort_sorting insertion_key_cmp KeyedOps.edit_key)
    (merge_sort_sorting (map_key_cmp insertion_slice_cmp) KeyedOps.edit_key) Hz Hsc Hfits) as H.
  rewrite E. cbn [mbind option_bind]. eapply returns_mono; [exact H|].
  intros [s' [op patch]] (H1 & _ & H3 & _ & _ & fulls & _ & ->). by split_and!.
Defined.

(** ** Buffers *)

Section buffers.
Context (P : Platform) `{!PlatformLaws P}.

(** Creating a buffer from any text does not panic and ends: the buffer is well formed, and
    holds the text with Unix line endings, in fragments that the timestamp of the base text has
    inserted; it knows which line ending the text had, and has no history. *)
Theorem new_buffer replica remote s (Hs : scalars s) (Hfits : Str.length_utf8 (unix_lines s) < u32_modulus) :
  returns (BufferOps.new (MAX_INSERTION_LEN P) (replace_all P) replica remote s) (λ b, (∃ ps, buffer_ok b ps ∧ all_base ps) ∧
    text_of b = unix_lines s ∧ Some (line_ending (snapshot b)) = LineEndingOps.detect s ∧
    history b = HistoryOps.new (visible_text (snapshot b)) ∧ replica_id (lamport_clock b) = replica).
Proof.
  eapply returns_mono; [by apply (new_buffer_ok P)|]. intros b (ps & Hb & Ha & Ht & He & Hr & Hh & _). split_and!; try done; [by exists ps|].
  destruct (so_visible _ _ (bo_snapshot _ _ Hb)) as [_ Et]. unfold text_of. by rewrite Et.
Qed.

(** C8: from a new buffer on, whatever edits, transactions, undos, redos and subscriptions are made
    when they may be made, the next call does not panic and ends, and leaves a well-formed buffer:
    what it shows are the fragments that its undo map lets show, subscribers have patches to the
    text, all timestamps are distinct, and the clock is ahead of those of its replica. *)
Theorem buffer_runs replica remote s b0 b ev (Hs : scalars s) (Hfits : Str.length_utf8 (unix_lines s) < u32_modulus)
    (Hnew : BufferOps.new (MAX_INSERTION_LEN P) (replace_all P) replica remote s = Some b0)
    (Hrun : rtc (buffer_step P) b0 b) (Hmay : may P ev b) :
  returns (call P ev b) (λ b', ∃ ps, buffer_ok b' ps).
Proof.
  destruct (new_buffer_ok P replica remote s Hs Hfits) as (b1 & E & ps & Hb & _). rewrite Hnew in E. injection E as <-.
  destruct (run_calls_ok P b0 ps b Hb Hrun) as (ps' & Hb'). by apply (call_ok P ev b ps').
Qed.

(** C9: an edit replaces the ranges by the new texts with Unix line endings; the operation that it
    gives for other replicas has a timestamp that the buffer has not seen, the version before, the
    ranges as offsets in the text with all that is deleted and the new texts; it is recorded, and
    the version has observed it. With the operation undone the buffer would show the text before. *)
Theorem buffer_edit b ps edits now now' z (Hb : buffer_ok b ps) (Hfits : edit_fits P b edits now)
    (Hz : splice 0 (text_of b) edits = Some z) (Hsc : Forall (λ x : Range N * str, scalars x.2) edits) :
  returns (BufferOps.edit P b edits now now') (λ '(b', op), ∃ ps', buffer_ok b' ps' ∧ text_of b' = z ∧
    ¬ known b ps (op_timestamp op) ∧ map_at (op_timestamp op) (operations (history b')) = Some op ∧
    BufferOps.version b' = GlobalOps.observe (BufferOps.version b) (op_timestamp op) ∧
    (∃ fulls, Forall2 (placed ps) edits fulls ∧
      op = OpEdit (mkEditOperation (op_timestamp op) (BufferOps.version b) fulls (new_texts edits))) ∧
    view (λ t, bool_decide (t = op_timestamp op) || undone_in (undo_map (snapshot b)) t) ps' = text_of b).
Proof.
  eapply returns_mono; [apply (edited_text P b ps edits now now' Hb); by split_and!|].
  intros [b' op] (ps' & [H1 (H2 & H3 & H4) H5 Hf (fulls & Hop & Hpl & _) H8 H9 H10 _ H11 _] & Ht). rewrite Hz in Ht. injection Ht as ->.
  exists ps'. split_and!; try done; [by rewrite H11, decide_True|by exists fulls|]. rewrite (fo_views _ _ _ Hf) by by rewrite bool_decide_eq_true_2.
  rewrite (text_view b ps) by done. apply view_ext. intros t Ht. rewrite bool_decide_eq_false_2; [done|]. intros ->. apply H2. by left.
Qed.

(** C5: undoing what was typed gives back the text before, and redoing it the text after: for any
    run of edits, with transactions opened, closed and grouped in between, that ends outside of
    transactions with an entry of just these edits on top of the undo stack. *)
Theorem undo_restores b0 ps es b k e (Hb : buffer_ok b0 ps) (Hrun : typed P b0 es b)
    (Hdepth : transaction_depth (history b) = 0) (Hstack : undo_stack (history b) = k ++ [e])
    (Hids : ∀ t, t ∈ edit_ids (transaction e) ↔ t ∈ es) (Hmay : may P CallUndo b) :
  returns (BufferOps.undo P b) (λ '(b1, r), text_of b1 = text_of b0 ∧ fst <$> r = Some (tid e) ∧
    (may P CallRedo b1 → returns (BufferOps.redo P b1) (λ '(b2, r), text_of b2 = text_of b ∧ fst <$> r = Some (tid e)))).
Proof.
  destruct (typed_ok P b0 ps es b Hb Hrun) as (ps1 & Hty). pose proof (tp_ok _ _ _ _ _ Hty) as Hb1.
  pose proof (typed_undone b0 ps es b ps1 Hb Hty) as Hview. destruct Hmay as [_ Hfit]. unfold BufferOps.undo.
  destruct (pop_redo_undo (history b) k e Hdepth Hstack) as (h & Epop & Hu & Hr & _). rewrite Epop. cbn [mbind option_bind].
  destruct (pop_undo_kept _ Hdepth) as ([h' o] & Epop' & Hk). rewrite Epop in Epop'. injection Epop' as <- <-.
  destruct (moved_ok P b ps1 h e Hb1 Hk) as ([b1 op] & E & ps2 & Htg); [by eapply pop_undo_entry|by apply Hfit|]. rewrite E.
  cbn [mbind option_bind]. apply returns_ret. pose proof (toggled_text P _ ps1 _ b1 ps2 op (kept_buffer b ps1 h Hb1 Hk) Htg) as Ht1.
  pose proof Htg as [Hb2 Hre Hun _ _ [Hsu Hsr] Hdep _]. cbn [BufferOps.set_history snapshot history] in *.
  split_and!; [|done|].
  { rewrite Ht1, <- Hview. apply view_ext. intros t _. f_equal. by apply bool_decide_ext. }
  intros [Hdepth1 Hfit1]. unfold BufferOps.redo.
  destruct (pop_undo_redo (history b1) (redo_stack (history b)) e Hdepth1) as (h1 & Epop1 & Hu1 & Hr1 & _); [by rewrite Hsr|].
  rewrite Epop1. cbn [mbind option_bind].
  destruct (pop_redo_kept _ Hdepth1) as ([h' o] & Epop' & Hk1). rewrite Epop1 in Epop'. injection Epop' as <- <-.
  destruct (moved_ok P b1 ps2 h1 e Hb2 Hk1) as ([b2 op2] & E2 & ps3 & Htg2); [by eapply pop_redo_entry|by apply Hfit1|]. rewrite E2.
  cbn [mbind option_bind]. apply returns_ret. split; [|done].
  rewrite (toggled_text P _ ps2 _ b2 ps3 op2 (kept_buffer b1 ps2 h1 Hb2 Hk1) Htg2). cbn [BufferOps.set_history snapshot].
  rewrite (retouched_view ps1 ps2) by done. rewrite (text_view b ps1) by done. apply view_ext. intros t _. rewrite Hun. by destruct (undone_in _ t), (bool_decide _).
Qed.

(** Undoing or redoing two transactions in either order gives the same text: what shows only
    depends on how often each edit has been undone. *)
Theorem undo_order b ps t1 t2 b1 op1 b2 op2 (Hb : buffer_ok b ps) (Hf1 : undo_fits P b t1) (Hf2 : undo_fits P b t2)
    (Hr1 : Forall (is_edit (history b)) (edit_ids t1)) (Hr2 : Forall (is_edit (history b)) (edit_ids t2))
    (H1 : BufferOps.undo_or_redo P b t1 = Some (b1, op1)) (H2 : BufferOps.undo_or_redo P b t2 = Some (b2, op2))
    (Hf12 : undo_fits P b1 t2) (Hf21 : undo_fits P b2 t1) :
  ∃ b12 op12 b21 op21, BufferOps.undo_or_redo P b1 t2 = Some (b12, op12) ∧ BufferOps.undo_or_redo P b2 t1 = Some (b21, op21) ∧
    text_of b12 = text_of b21 ∧ ∀ t, undone_in (undo_map (snapshot b12)) t = undone_in (undo_map (snapshot b21)) t.
Proof.
  destruct (undo_or_redo_ok P b ps t1 Hb Hf1 Hr1) as ([b1' op1'] & E1 & ps1 & T1). rewrite H1 in E1. injection E1 as <- <-.
  destruct (undo_or_redo_ok P b ps t2 Hb Hf2 Hr2) as ([b2' op2'] & E2 & ps2 & T2). rewrite H2 in E2. injection E2 as <- <-.
  destruct (undo_or_redo_ok P b1 ps1 t2 (tg_ok _ _ _ _ _ _ _ T1) Hf12) as ([b12 op12] & E12 & ps12 & T12).
  { eapply Forall_impl; [exact Hr2|]. intros t. apply T1. }
  destruct (undo_or_redo_ok P b2 ps2 t1 (tg_ok _ _ _ _ _ _ _ T2) Hf21) as ([b21 op21] & E21 & ps21 & T21).
  { eapply Forall_impl; [exact Hr1|]. intros t. apply T2. }
  assert (∀ t, undone_in (undo_map (snapshot b12)) t = undone_in (undo_map (snapshot b21)) t) as Hsame.
  { intros t. rewrite (tg_undone _ _ _ _ _ _ _ T12), (tg_undone _ _ _ _ _ _ _ T21), (tg_undone _ _ _ _ _ _ _ T1), (tg_undone _ _ _ _ _ _ _ T2).
    by destruct (undone_in _ t), (bool_decide _), (bool_decide _). }
  exists b12, op12, b21, op21. split_and!; try done.
  rewrite (text_view b12 ps12), (text_view b21 ps21) by (by eapply tg_ok).
  rewrite (retouched_view ps1 ps12), (retouched_view ps ps1), (retouched_view ps2 ps21), (retouched_view ps ps2) by by eapply tg_retouched.
  apply view_ext. intros t _. apply Hsame.
Qed.

End buffers.

(** ** Samples *)

Definition sample_platform : Platform := mkPlatform 16 true unix_lines
  (merge_sort (edit_le insertion_key_cmp)) (merge_sort (edit_le (map_key_cmp insertion_slice_cmp)))
  (merge_sort (λ a b, slice_order a b ≠ Gt)) (merge_sort (λ a b, LocatorOps.cmp a b ≠ Gt))
  (merge_sort (edit_le undo_key_cmp)) (merge_sort (λ a b, LamportOps.cmp (op_timestamp a) (op_timestamp b) ≠ Gt))
  (merge_sort (edit_le LamportOps.cmp)) map_to_list.

#[local] Instance sample_laws : PlatformLaws sample_platform.
Proof.
  split; cbn; [done|apply _|..|done].
  - apply (merge_sort_sorting insertion_key_cmp KeyedOps.edit_key).
  - apply (merge_sort_sorting (map_key_cmp insertion_slice_cmp) KeyedOps.edit_key).
  - apply slice_order_sorting.
  - apply (merge_sort_sorting LocatorOps.cmp (λ x, x)).
  - apply (merge_sort_sorting undo_key_cmp KeyedOps.edit_key).
  - apply (merge_sort_sorting LamportOps.cmp op_timestamp).
  - apply (merge_sort_sorting LamportOps.cmp KeyedOps.edit_key).
Qed.

(** The hypotheses on sizes as tests. *)
Definition edit_fitsb (b : Buffer) (edits : list (Range N * str)) (now : N) : bool :=
  low_sample (snapshot b) && (value (lamport_clock b) + 2 <? u32_modulus) &&
  (Str.length_utf8 (mjoin (new_texts edits)) <? u32_modulus) &&
  match edit_pushes sample_platform b edits now with
  | Some h => NodeOps.height (operations h) <? STACK_CAPACITY
  | None => true
  end%nat.

Lemma edit_fitsb_ok b ps edits now : buffer_ok b ps → edit_fitsb b edits now = true → edit_fits sample_platform b edits now.
Proof.
  intros Hb. unfold edit_fitsb. rewrite !andb_true_iff, !N.ltb_lt. intros [[[H1 H2] H3] H4].
  split; [by apply (low_sample_ok _ ps); [apply Hb|]|done|done|]. intros h Hh. rewrite Hh in H4. by apply Nat.ltb_lt.
Qed.

Definition undo_fitsb (b : Buffer) (t : Transaction) : bool :=
  low_sample (snapshot b) && (value (lamport_clock b) + 1 <? u32_modulus) &&
  forallb (λ e, undo_count_of (undo_map (snapshot b)) e + 1 <? u32_modulus) (edit_ids t) &&
  match undo_of sample_platform b t with
  | Some u => match UndoMapOps.insert (sort_undos sample_platform) (undo_map (snapshot b)) u with
              | Some um => (NodeOps.height um <? STACK_CAPACITY)%nat
              | None => true
              end
  | None => true
  end &&
  match undo_pushes sample_platform b t with
  | Some h => NodeOps.height (operations h) <? STACK_CAPACITY
  | None => true
  end%nat.

Lemma undo_fitsb_ok b ps t : buffer_ok b ps → undo_fitsb b t = true → undo_fits sample_platform b t.
Proof.
  intros Hb. unfold undo_fitsb. rewrite !andb_true_iff, !N.ltb_lt. intros [[[[H1 H2] H3] H4] H5].
  split; [by apply (low_sample_ok _ ps); [apply Hb|]|done| | |].
  - intros e He. rewrite forallb_forall in H3. apply N.ltb_lt, H3. by apply list_elem_of_In.
  - intros u um Hu Hum. rewrite Hu, Hum in H4. by apply Nat.ltb_lt.
  - intros h Hh. rewrite Hh in H5. by apply Nat.ltb_lt.
Qed.

Lemma undo_may b ps : buffer_ok b ps → transaction_depth (history b) = 0 →
  match HistoryOps.pop_undo (history b) with
  | Some (h, Some e) => undo_fitsb (BufferOps.set_history b h) (transaction e)
  | _ => true
  end = true → may sample_platform CallUndo b.
Proof.
  intros Hb Hd H. split; [done|]. intros h e Hp. rewrite Hp in H. destruct (pop_undo_kept _ Hd) as ([h' o] & Hp' & Hk). rewrite Hp in Hp'.
  injection Hp' as <- <-. by apply (undo_fitsb_ok _ ps); [apply kept_buffer|].
Qed.

Lemma edit_may b ps edits now now' : buffer_ok b ps → edit_fitsb b edits now = true →
  match splice 0 (text_of b) edits with Some _ => true | None => false end = true →
  Forall (λ x : Range N * str, scalars x.2) edits → may sample_platform (CallEdit edits now now') b.
Proof.
  intros Hb Hf Hz Hs. split_and!; [by apply (edit_fitsb_ok b ps)| |done]. destruct (splice _ _ _); [by eexists|done].
Qed.

(** Two edits in a transaction. *)
Definition second_edits : list (Range N * str) := [((1 ..: 3), [101]); ((14 ..: 14), [8364])].
Definition sample_new : option Buffer := BufferOps.new 16 unix_lines 8 1 sample_text.
Definition sample_started : option Buffer := b ← sample_new; Some (BufferOps.start_transaction_at b 0).1.
Definition sample_first : option (Buffer * Operation) := b ← sample_started; BufferOps.edit sample_platform b sample_edits 1 2.
Definition sample_second : option (Buffer * Operation) := '(b, _) ← sample_first; BufferOps.edit sample_platform b second_edits 3 4.
Definition sample_ended : option Buffer := '(b, _) ← sample_second; fst <$> BufferOps.end_transaction_at b 5.

(** What computing shows of a value. *)
Lemma checked {A} (o : option A) (f : A → bool) a : o = Some a → from_option f false o = true → f a = true.
Proof. by intros ->. Qed.

Definition first_may (b : Buffer) : bool :=
  edit_fitsb b sample_edits 1 && match splice 0 (text_of b) sample_edits with Some _ => true | None => false end.
Definition second_may (b : Buffer) : bool :=
  edit_fitsb b second_edits 3 && match splice 0 (text_of b) second_edits with Some _ => true | None => false end.
Definition undo_mayb (b : Buffer) : bool :=
  (transaction_depth (history b) =? 0) &&
  match HistoryOps.pop_undo (history b) with
  | Some (h, Some e) => undo_fitsb (BufferOps.set_history b h) (transaction e)
  | _ => true
  end.

Lemma undo_mayb_ok b ps : buffer_ok b ps → undo_mayb b = true → may sample_platform CallUndo b.
Proof. intros Hb [Hd%N.eqb_eq H]%andb_true_iff. by apply (undo_may b ps). Qed.

Definition sample_entry : HistoryEntry :=
  mkHistoryEntry (mkTransaction (mkLamport 2 8) [mkLamport 3 8; mkLamport 4 8] (mkGlobal [1])) 0 5 false.

Lemma sample_typing : ∃ b0 b ps ps', sample_new = Some b0 ∧ sample_ended = Some b ∧ buffer_ok b0 ps ∧ buffer_ok b ps' ∧
  typed sample_platform b0 [mkLamport 3 8; mkLamport 4 8] b ∧ undo_stack (history b) = [sample_entry] ∧
  text_of b0 = unix_lines sample_text ∧ undo_mayb b = true.
Proof.
  destruct (new_buffer_ok sample_platform 8 1 sample_text ltac:(by vm_compute) ltac:(by vm_compute)) as (b0 & E0 & ps & Hb0 & _).
  change (sample_new = Some b0) in E0.
  assert (may sample_platform (CallStartTransaction 0) b0) as M0.
  { apply N.ltb_lt. change ((λ b, value (lamport_clock b) + 1 <? u32_modulus) b0 = true). apply (checked sample_new); [done|vm_compute; reflexivity]. }
  destruct (quiet_ok sample_platform (CallStartTransaction 0) b0 ps Hb0 M0 I) as (b1 & E1 & Hb1 & _).
  assert (sample_started = Some b1) as E1' by (unfold sample_started; by rewrite E0).
  assert (first_may b1 = true) as M1 by (apply (checked sample_started); [done|vm_compute; reflexivity]).
  apply andb_true_iff in M1 as [M1 M1']. apply (edit_may b1 ps _ 1 2) in M1; [|done|done|by repeat constructor].
  destruct (edited_text sample_platform b1 ps sample_edits 1 2 Hb1 M1) as ([b2 op1] & E2 & ps2 & Hed2 & _).
  assert (sample_first = Some (b2, op1)) as E2' by (unfold sample_first; by rewrite E1').
  assert (second_may b2 = true) as M2 by (apply (checked sample_first (second_may ∘ fst) (b2, op1)); [done|vm_compute; reflexivity]).
  pose proof (eb_ok _ _ _ _ _ _ Hed2) as Hb2.
  apply andb_true_iff in M2 as [M2 M2']. apply (edit_may b2 ps2 _ 3 4) in M2; [|done|done|by repeat constructor].
  destruct (edited_text sample_platform b2 ps2 second_edits 3 4 Hb2 M2) as ([b3 op2] & E3 & ps3 & Hed3 & _).
  assert (sample_second = Some (b3, op2)) as E3' by (unfold sample_second; by rewrite E2').
  pose proof (eb_ok _ _ _ _ _ _ Hed3) as Hb3.
  assert (may sample_platform (CallEndTransaction 5) b3) as M3.
  { apply N.eqb_neq, negb_true_iff. change (((λ b, negb (transaction_depth (history b) =? 0)) ∘ fst) (b3, op2) = true).
    apply (checked sample_second); [done|vm_compute; reflexivity]. }
  destruct (quiet_ok sample_platform (CallEndTransaction 5) b3 ps3 Hb3 M3 I) as (b4 & E4 & Hb4 & _).
  assert (sample_ended = Some b4) as E4' by (unfold sample_ended; by rewrite E3').
  assert (op_timestamp op1 = mkLamport 3 8) as T1.
  { assert (op_timestamp <$> (snd <$> sample_first) = Some (mkLamport 3 8)) as H by (vm_compute; reflexivity). rewrite E2' in H. by injection H. }
  assert (op_timestamp op2 = mkLamport 4 8) as T2.
  { assert (op_timestamp <$> (snd <$> sample_second) = Some (mkLamport 4 8)) as H by (vm_compute; reflexivity). rewrite E3' in H. by injection H. }
  exists b0, b4, ps, ps3. split_and!; [exact E0|exact E4'|exact Hb0|exact Hb4|..].
  - eapply (typed_quiet _ (CallStartTransaction 0)); [done|exact M0|exact E1|]. rewrite <- T1. eapply typed_edit; [exact M1|exact E2|].
    rewrite <- T2. eapply typed_edit; [exact M2|exact E3|]. eapply (typed_quiet _ (CallEndTransaction 5)); [done|exact M3|exact E4|constructor].
  - assert (undo_stack <$> (history <$> sample_ended) = Some [sample_entry]) as H by (vm_compute; reflexivity). rewrite E4' in H. by injection H.
  - assert (text_of <$> sample_new = Some (unix_lines sample_text)) as H by (vm_compute; reflexivity). rewrite E0 in H. by injection H.
  - apply (checked sample_ended); [done|vm_compute; reflexivity].
Qed.

Lemma new_buffer_witness : returns sample_new (λ b, (∃ ps, buffer_ok b ps ∧ all_base ps) ∧ text_of b = unix_lines sample_text).
Proof.
  assert (scalars sample_text) as Hs by by vm_compute. assert (Str.length_utf8 (unix_lines sample_text) < u32_modulus) as Hf by by vm_compute.
  pose proof (new_buffer sample_platform 8 1 sample_text Hs Hf) as H. eapply returns_mono; [exact H|]. by intros b (H1 & H2 & _).
Defined.

Lemma undo_restores_witness : returns (b ← sample_ended; BufferOps.undo sample_platform b) (λ '(b1, r), text_of b1 = unix_lines sample_text).
Proof.
  destruct sample_typing as (b0 & b & ps & ps' & E0 & E & Hb0 & Hb & Hty & Hu & Ht & Hm).
  assert (transaction_depth (history b) = 0) as Hd by by apply andb_true_iff in Hm as [?%N.eqb_eq _].
  assert (∀ t, t ∈ edit_ids (transaction sample_entry) ↔ t ∈ [mkLamport 3 8; mkLamport 4 8]) as Hids by done.
  pose proof (undo_restores sample_platform b0 ps _ b [] sample_entry Hb0 Hty Hd Hu Hids (undo_mayb_ok b ps' Hb Hm)) as H.
  rewrite E. cbn [mbind option_bind]. eapply returns_mono; [exact H|]. intros [b1 r] [H1 _]. by rewrite H1.
Defined.

Lemma buffer_edit_witness : returns (b ← sample_new; BufferOps.edit sample_platform b sample_edits 1 2)
  (λ '(b', op), text_of b' = sample_edited ∧ map_at (op_timestamp op) (operations (history b')) = Some op).
Proof.
  destruct sample_typing as (b0 & _ & ps & _ & E0 & _ & Hb0 & _). rewrite E0. cbn [mbind option_bind].
  assert (edit_fitsb b0 sample_edits 1 = true) as Hf by (apply (checked sample_new (λ b, edit_fitsb b sample_edits 1)); [done|vm_compute; reflexivity]).
  assert (splice 0 (text_of b0) sample_edits = Some sample_edited) as Hz.
  { assert ((b ← sample_new; splice 0 (text_of b) sample_edits) = Some sample_edited) as H by (vm_compute; reflexivity). by rewrite E0 in H. }
  assert (Forall (λ x : Range N * str, scalars x.2) sample_edits) as Hsc by by repeat constructor.
  pose proof (buffer_edit sample_platform b0 ps sample_edits 1 2 sample_edited Hb0 (edit_fitsb_ok b0 ps _ 1 Hb0 Hf) Hz Hsc) as H.
  eapply returns_mono; [exact H|]. intros [b' op] (ps' & _ & H1 & _ & H2 & _). by split.
Defined.

Lemma buffer_runs_witness : returns (b ← sample_ended; call sample_platform CallUndo b) (λ b', ∃ ps, buffer_ok b' ps).
Proof.
  destruct sample_typing as (b0 & b & ps & ps' & E0 & E & Hb0 & Hb & Hty & Hu & Ht & Hm). rewrite E. cbn [mbind option_bind].
  assert (scalars sample_text) as Hs by by vm_compute. assert (Str.length_utf8 (unix_lines sample_text) < u32_modulus) as Hf by by vm_compute.
  pose proof (buffer_runs sample_platform 8 1 sample_text b0 b CallUndo Hs Hf E0 (typed_steps sample_platform _ _ _ Hty) (undo_mayb_ok b ps' Hb Hm)) as H.
  exact H.
Defined.

Definition one_edit (n : N) : Transaction := mkTransaction (mkLamport 2 8) [mkLamport n 8] (mkGlobal [1]).
Definition recordedb (b : Buffer) (t : Transaction) : bool :=
  forallb (λ e, match map_at e (operations (history b)) with Some (OpEdit _) => true | _ => false end) (edit_ids t).

Lemma recordedb_ok b t : recordedb b t = true → Forall (is_edit (history b)) (edit_ids t).
Proof.
  intros H. apply Forall_forall. intros e He%list_elem_of_In. unfold recordedb in H. rewrite forallb_forall in H. specialize (H e He).
  unfold is_edit. destruct (map_at _ _) as [[edit|]|]; [by exists edit|done..].
Qed.

Definition undo_one (n : N) (o : option Buffer) : option Buffer := b ← o; fst <$> BufferOps.undo_or_redo sample_platform b (one_edit n).

Lemma undo_order_witness : ∃ b12 b21, undo_one 4 (undo_one 3 sample_ended) = Some b12 ∧ undo_one 3 (undo_one 4 sample_ended) = Some b21 ∧ text_of b12 = text_of b21.
Proof.
  destruct sample_typing as (_ & b & _ & ps & _ & E & _ & Hb & _).
  assert (∀ o n c qs, o = Some c → buffer_ok c qs → from_option (λ c, undo_fitsb c (one_edit n)) false o = true → undo_fits sample_platform c (one_edit n)) as Hfit.
  { intros o n c qs Ho Hc H. apply (undo_fitsb_ok c qs _ Hc). by apply (checked o (λ c, undo_fitsb c (one_edit n))). }
  assert (∀ n, from_option (λ c, recordedb c (one_edit n)) false sample_ended = true → Forall (is_edit (history b)) (edit_ids (one_edit n))) as Hrec.
  { intros n H. apply recordedb_ok. by apply (checked sample_ended (λ c, recordedb c (one_edit n))). }
  assert (undo_fits sample_platform b (one_edit 3)) as F1 by (apply (Hfit sample_ended 3 b ps E Hb); vm_compute; reflexivity).
  assert (undo_fits sample_platform b (one_edit 4)) as F2 by (apply (Hfit sample_ended 4 b ps E Hb); vm_compute; reflexivity).
  assert (Forall (is_edit (history b)) (edit_ids (one_edit 3))) as R1 by (apply Hrec; vm_compute; reflexivity).
  assert (Forall (is_edit (history b)) (edit_ids (one_edit 4))) as R2 by (apply Hrec; vm_compute; reflexivity).
  destruct (undo_or_redo_ok sample_platform b ps (one_edit 3) Hb F1 R1) as ([b1 op1] & E1 & ps1 & T1).
  destruct (undo_or_redo_ok sample_platform b ps (one_edit 4) Hb F2 R2) as ([b2 op2] & E2 & ps2 & T2).
  assert (undo_one 3 sample_ended = Some b1) as E1' by (unfold undo_one; rewrite E; cbn [mbind option_bind]; by rewrite E1).
  assert (undo_one 4 sample_ended = Some b2) as E2' by (unfold undo_one; rewrite E; cbn [mbind option_bind]; by rewrite E2).
  assert (undo_fits sample_platform b1 (one_edit 4)) as F12 by (apply (Hfit _ 4 b1 ps1 E1' (tg_ok _ _ _ _ _ _ _ T1)); vm_compute; reflexivity).
  assert (undo_fits sample_platform b2 (one_edit 3)) as F21 by (apply (Hfit _ 3 b2 ps2 E2' (tg_ok _ _ _ _ _ _ _ T2)); vm_compute; reflexivity).
  pose proof (undo_order sample_platform b ps (one_edit 3) (one_edit 4) b1 op1 b2 op2 Hb F1 F2 R1 R2 E1 E2 F12 F21) as (b12 & o12 & b21 & o21 & E12 & E21 & Ht & _).
  exists b12, b21. rewrite E1', E2'. unfold undo_one. cbn [mbind option_bind]. rewrite E12, E21. by split_and!.
Defined.

(** ** Branches *)

(** The branch of an edited branch gives out a timestamp that a fragment already has. *)
Definition edit_branch (o : option Buffer) : option (Buffer * Operation) :=
  b ← o; BufferOps.edit sample_platform (BufferOps.branch b) [((0 ..: 0), [33])] 0 0.

Example branch_of_branch : ∃ b1 op1 b2 op2, edit_branch sample_new = Some (b1, op1) ∧ edit_branch (Some b1) = Some (b2, op2) ∧
  op_timestamp op1 = mkLamport 2 Replica.LOCAL_BRANCH ∧ op_timestamp op2 = op_timestamp op1 ∧ text_of b2 = [33; 33] ++ unix_lines sample_text.
Proof.
  assert (match edit_branch sample_new with
    | Some (b1, op1) => match edit_branch (Some b1) with
        | Some (b2, op2) => bool_decide (op_timestamp op1 = mkLamport 2 Replica.LOCAL_BRANCH ∧ op_timestamp op2 = op_timestamp op1 ∧ text_of b2 = [33; 33] ++ unix_lines sample_text)
        | None => false
        end
    | None => false
    end = true) as H by (vm_compute; reflexivity).
  destruct (edit_branch sample_new) as [[b1 op1]|]; [|done]. destruct (edit_branch (Some b1)) as [[b2 op2]|] eqn:E; [|done].
  apply bool_decide_eq_true in H as (H1 & H2 & H3). exists b1, op1, b2, op2. by split_and!.
Qed.
