(* ===== verification/NetworkProps.v ===== *)
(** * Properties of networks of replicas *)

From stdpp Require Import gmap sets sorting relations.
From S2P Require Import Prelude Clock Locator Patch SumTree SumCursor CursorSpec KeyedTree TreeMap UndoMap Text Rope RopeText LineEnding Fragment Builders Snapshot Cells Convergence OperationQueue History Replica SnapshotSpec LocalEdit LocalEditSpec RemoteEdit RemoteEditSpec ApplyUndo ApplyUndoSpec Offsets Buffer BufferSpec BufferInv BufferRemote Delivery BufferRuns Network BufferProps.
Import TreeOps.

#[local] Unset Default Proof Using.
#[local] Arguments Nat.mul : simpl never.
#[local] Open Scope N_scope.
#[local] Existing Instance LamportOps.cmp_total.

(** ** Convergence *)

Section properties.
Context (P : nat → Platform) `{!∀ i, PlatformLaws (P i)} (s : str) (Hs : scalars s) (Hlen : Str.length_utf8 (unix_lines s) < u32_modulus).
Implicit Types (n : Net) (b : Buffer).

(** C1: strong eventual consistency. Replicas start with buffers of the same text; they edit it,
    open, close, group and merge transactions, undo and redo, and receive each other's operations
    in batches, late, out of order and more than once. Whenever two of them have observed the same
    of all the operations that have been sent, they show the same text. *)
Theorem replicas_agree n0 n i j b1 b2 (Hstart : net_start P s n0) (Hrun : rtc (net_step P) n0 n)
    (Hi : nodes n !! i = Some b1) (Hj : nodes n !! j = Some b2)
    (Hsame : ∀ o, o ∈ sent n → GlobalOps.observed (BufferOps.version b1) (op_timestamp o) =
      GlobalOps.observed (BufferOps.version b2) (op_timestamp o)) :
  text_of b1 = text_of b2.
Proof.
  pose proof (net_run_ok P s n0 n (net_start_ok P s n0 Hs Hlen Hstart) Hrun) as Hn.
  destruct (net_text s n i b1 Hn Hi) as (z1 & H1 & ->), (net_text s n j b2 Hn Hj) as (z2 & H2 & ->).
  assert (observed_ops (sent n) b1 = observed_ops (sent n) b2) as E by (apply filter_ext_in; intros o Ho; by rewrite Hsame).
  rewrite E in H1. congruence.
Qed.

(** C2: what a replica shows is what the operations mean that it has observed: of the text that
    all start from, seen as a list of characters with their insertions, each edit, in the order in
    which they were made, deletes what showed where it was made and inserts its texts at the places
    it had there, behind the concurrent texts of newer timestamps; a character shows when its
    insertion is not undone and its deletions are. *)
Theorem text_is_meaning n0 n i b (Hstart : net_start P s n0) (Hrun : rtc (net_step P) n0 n) (Hi : nodes n !! i = Some b) :
  ∃ z, receive_all (observed_ops (sent n) b) (base_replica s) = Some z ∧ text_of b = replica_text z.
Proof. by apply (net_text s n i b), Hi; apply (net_run_ok P s n0 n (net_start_ok P s n0 Hs Hlen Hstart) Hrun). Qed.

(** C4: whatever has happened, the next call that may be made on a replica and the next batch that
    arrives at it do not panic and end, and leave a well-formed buffer; what cannot be applied yet
    waits in a well-formed queue. *)
Theorem network_safe n0 n i b e (Hstart : net_start P s n0) (Hrun : rtc (net_step P) n0 n)
    (Hi : nodes n !! i = Some b) (Hmay : event_may (P i) (sent n) e b) :
  returns (event_step (P i) e b) (λ '(b', _), (∃ ps, buffer_ok b' ps) ∧ queue_ok (deferred_ops b')).
Proof.
  pose proof (net_run_ok P s n0 n (net_start_ok P s n0 Hs Hlen Hstart) Hrun) as Hn.
  eapply returns_mono; [by apply (net_event_ok P s n i b e Hn Hi)|]. intros [b' ops] [[_ _ Hj] _].
  destruct (Hj i b') as (ps & done & [Hd [Hq _] _]); [apply list_lookup_insert_eq; by eapply lookup_lt_Some|].
  split; [by exists ps; apply Hd|done].
Qed.

(** The assertion of [Global::observe], that a timestamp is not of the largest replica id, holds for
    all operations when no replica has that id. *)
Lemma observe_asserts n0 n o g debug_assertions (Hstart : net_start P s n0) (Hrun : rtc (net_step P) n0 n)
    (Hids : ∀ i b, nodes n !! i = Some b → replica_id (lamport_clock b) ≠ replica_id LamportOps.MAX) (Ho : o ∈ sent n) :
  GlobalOps.observe_asserting debug_assertions g (op_timestamp o) = Some (GlobalOps.observe g (op_timestamp o)).
Proof.
  pose proof (net_run_ok P s n0 n (net_start_ok P s n0 Hs Hlen Hstart) Hrun) as Hn.
  apply (no_senders _ _ Hn) in Ho as (b & E & [i Hi]%list_elem_of_lookup)%list_elem_of_fmap.
  unfold GlobalOps.observe_asserting. rewrite E. specialize (Hids i b Hi).
  destruct (N.eqb_spec (replica_id (lamport_clock b)) (replica_id LamportOps.MAX)); [done|]. by rewrite andb_false_r.
Qed.

(** C3: operations are not lost. When a batch brings all that a replica has not observed and that
    does not wait in its queue, then none waits afterwards, all operations that have been sent are
    observed, and the replica shows what all of them mean. *)
Theorem all_arrive n0 n i b ops (Hstart : net_start P s n0) (Hrun : rtc (net_step P) n0 n)
    (Hi : nodes n !! i = Some b) (Hmay : event_may (P i) (sent n) (Arrived ops) b)
    (Hall : ∀ o, o ∈ sent n → GlobalOps.observed (BufferOps.version b) (op_timestamp o) = true ∨ o ∈ ops ∨ o ∈ tree_items (deferred_ops b)) :
  returns (BufferOps.apply_ops (P i) b ops) (λ b', tree_items (deferred_ops b') = [] ∧
    (∀ o, o ∈ sent n → GlobalOps.observed (BufferOps.version b') (op_timestamp o) = true) ∧
    ∃ z, receive_all (sent n) (base_replica s) = Some z ∧ text_of b' = replica_text z).
Proof.
  pose proof (net_run_ok P s n0 n (net_start_ok P s n0 Hs Hlen Hstart) Hrun) as [[last Hmade] _ Hj].
  destruct (Hj i b Hi) as (ps & done & Hb). eapply returns_mono; [by apply (arrived_ok (P i) (base_replica s) (base_version s) (sent n) last b ps done ops)|].
  intros b' (ps' & done' & [Hd _ _] & _ & _ & Hfull). destruct Hfull as [Hq Hdone].
  { intros o Ho. destruct (Hall o Ho) as [Hobs|?]; [left|by right]. by apply (de_observed _ _ _ _ _ _ (jo_delivered _ _ _ _ _ _ Hb)). }
  assert (∀ o, o ∈ sent n → GlobalOps.observed (BufferOps.version b') (op_timestamp o) = true) as Hobs.
  { intros o Ho. by apply (de_observed _ _ _ _ _ _ Hd), Hdone. }
  split_and!; [done|done|]. exists (replica_of (snapshot b') ps'). split; [|by eapply delivered_text].
  pose proof (observed_replica _ _ _ _ Hmade b' ps' done' Hd) as Hr.
  assert (observed_ops (sent n) b' = sent n) as E; [|by rewrite E in Hr]. unfold observed_ops.
  by apply filter_all.
Qed.
End properties.

(** ** Operations of other replicas *)

Section remote.
Context (MAX_INSERTION_LEN : N) (Hmax : 4 <= MAX_INSERTION_LEN < u32_modulus).
Context (sort_insertions : list (KeyedTree.Edit InsertionFragment InsertionFragmentKey) → list (KeyedTree.Edit InsertionFragment InsertionFragmentKey)).
Context (sort_slices : list (KeyedTree.Edit (MapEntry InsertionSlice ()) (MapKey InsertionSlice)) →
  list (KeyedTree.Edit (MapEntry InsertionSlice ()) (MapKey InsertionSlice))).

(** C6: an edit of another replica does to the fragments, ropes and indices what it does to the
    list of characters: in each of its ranges, which count the characters known to its version, it
    marks those that showed there as deleted, and before each range it puts its text, behind the
    concurrent texts of newer timestamps. Neither panic nor endless loop; the snapshot it leaves is
    well formed, and the patch takes the old text to the new one. *)
Theorem remote_edit s ps ts V (was : Lamport → bool) ranges (texts : list str) z (Hok : snapshot_ok s ps) (Hlow : snapshot_low s)
    (Hundone : undone_in (undo_map s) ts = false) (Hpos : Forall (λ f, 0 < value (stamp f)) ps.*1)
    (Hold : ∀ t, GlobalOps.observed V t = true → LamportOps.cmp t ts = Lt)
    (Hwas : ∀ t, UndoMapOps.was_undone (undo_map s) t V = Some (was t))
    (Hsi : Sorting (edit_le insertion_key_cmp) sort_insertions)
    (Hss : Sorting (edit_le (map_key_cmp insertion_slice_cmp)) sort_slices)
    (Hfresh : ts ∉ stamp <$> ps.*1) (Hmin : ts ≠ LamportOps.MIN) (Hlen : length ranges = length texts)
    (Hz : integrate V was ts (zip ranges texts) (cells ps) = Some z) (Htexts : Forall (λ t, scalars t ∧ clean t) texts)
    (Hfits : Str.length_utf8 (mjoin texts) < u32_modulus) :
  returns (RemoteEditOps.apply_remote_edit MAX_INSERTION_LEN sort_insertions sort_slices s V ranges texts ts) (λ '(s', patch),
    ∃ nps, snapshot_ok s' nps ∧ same_buffer s s' ∧ cells nps = z ∧
      patched 0 0 (default [] patch) (Str.as_bytes (rope_text (visible_text s))) (Str.as_bytes (rope_text (visible_text s'))) ∧ separated (default [] patch)).
Proof.
  eapply returns_mono; [by apply (apply_remote_edit_ok s ps Hok Hlow ts Hundone V was Hpos); [apply Forall_forall; intros f _ Hf; by apply Hold|..]|].
  intros [s' patch] (nps & Hs' & _ & Hsame & Hc & Hp & Hsep). destruct (so_visible _ _ Hok) as [_ ->], (so_visible _ _ Hs') as [_ ->]. by exists nps.
Qed.
End remote.

(** C10: an operation that arrives after all that its version has observed does to the buffer what it
    does to the list of characters and the undos; the version has observed it then, the clock has
    passed it, and the history is as it was. When it arrives again, nothing happens. *)
Theorem apply_op_means (P : Platform) `{!PlatformLaws P} b ps op z (Hb : buffer_ok b ps) (Hv : versioned b ps) (Hval : op_valid op)
    (Hfits : op_fits P b op) (Harr : arrives b op) (Hz : receive op (replica_of (snapshot b) ps) = Some z) :
  returns (BufferOps.apply_op P b op) (λ b', (∃ ps', buffer_ok b' ps' ∧ versioned b' ps' ∧ replica_of (snapshot b') ps' = z) ∧
    text_of b' = replica_text z ∧ BufferOps.version b' = GlobalOps.observe (BufferOps.version b) (op_timestamp op) ∧
    lamport_clock b' = LamportOps.observe (lamport_clock b) (op_timestamp op) ∧ history b' = history b ∧
    BufferOps.apply_op P b' op = Some b').
Proof.
  eapply returns_mono; [by apply (apply_op_ok P b ps op z)|]. intros b' (ps' & [Hb' Hv' <- Ev Ec Eh _]). split_and!; try done.
  - by exists ps'.
  - destruct (so_visible _ _ (bo_snapshot _ _ Hb')) as [_ Et]. unfold text_of. rewrite Et. apply shown_replica; [apply Hb'|apply Hv'].
  - apply apply_op_again. rewrite Ev. apply observed_self.
Qed.

(** ** Checks

    What may happen, as tests: for buffers whose texts are single chunks. *)

Section checks.
Context (P : Platform) `{!PlatformLaws P}.
Implicit Types (b : Buffer) (ps : list part) (o : Operation) (d ops : list Operation).

Definition op_fitsb b o : bool :=
  low_sample (snapshot b) && (N.max (value (lamport_clock b)) (value (op_timestamp o)) + 1 <? u32_modulus) &&
  match o with
  | OpEdit e => Str.length_utf8 (mjoin (new_text e)) <? u32_modulus
  | OpUndo u => match UndoMapOps.insert (sort_undos P) (undo_map (snapshot b)) u with
                | Some um => (NodeOps.height um <? STACK_CAPACITY)%nat
                | None => true
                end
  end.

Lemma op_fitsb_ok b ps o : buffer_ok b ps → op_fitsb b o = true → op_fits P b o.
Proof.
  intros Hb. unfold op_fitsb. rewrite !andb_true_iff, N.ltb_lt. intros [[H1 H2] H3].
  split; [by apply (low_sample_ok _ ps); [apply Hb|]|done|]. destruct o as [e|u]; [by apply N.ltb_lt|].
  intros um Hum. rewrite Hum in H3. by apply Nat.ltb_lt.
Qed.

Definition apply_fitsb b o : bool :=
  negb (BufferOps.can_apply_op b o) || GlobalOps.observed (BufferOps.version b) (op_timestamp o) || op_fitsb b o.

Lemma apply_fitsb_ok b ps o : buffer_ok b ps → apply_fitsb b o = true → apply_fits P b o.
Proof.
  intros Hb H Hcan Hnew. unfold apply_fitsb in H. rewrite Hcan, Hnew in H. by apply (op_fitsb_ok b ps).
Qed.

Definition queue_fitsb b d : bool :=
  match QueueOps.insert (sort_ops P) (sort_queue P) (deferred_ops b) d with
  | Some q => (NodeOps.height q <? STACK_CAPACITY)%nat
  | None => true
  end.

Lemma queue_fitsb_ok b d q : queue_fitsb b d = true → QueueOps.insert (sort_ops P) (sort_queue P) (deferred_ops b) d = Some q →
  (NodeOps.height q < STACK_CAPACITY)%nat.
Proof. unfold queue_fitsb. intros H E. rewrite E in H. by apply Nat.ltb_lt. Qed.

Fixpoint flush_fitsb b d ops : bool :=
  match ops with
  | [] => queue_fitsb b d
  | o :: ops => apply_fitsb b o &&
      match BufferOps.apply_or_defer P b d o with Some (b, d) => flush_fitsb b d ops | None => true end
  end.

Fixpoint receive_fitsb b d ops : bool :=
  match ops with
  | [] => queue_fitsb b d &&
      match BufferOps.defer_ops P b d with
      | Some b => (NodeOps.height (deferred_ops b) <? STACK_CAPACITY)%nat &&
          flush_fitsb (BufferOps.set_deferred b (TreeOps.new ()) ∅) [] (tree_items (deferred_ops b))
      | None => true
      end
  | o :: ops =>
      match HistoryOps.push (history b) o with
      | Some h => (NodeOps.height (operations h) <? STACK_CAPACITY)%nat && apply_fitsb (BufferOps.set_history b h) o &&
          match BufferOps.apply_or_defer P (BufferOps.set_history b h) d o with Some (b, d) => receive_fitsb b d ops | None => true end
      | None => true
      end
  end.

Section sound.
Context (start : Replica) (v0 : Global) (U : list Operation) (last : Replica) (Hmade : made start v0 U last).
Implicit Types (done : list Operation).

Lemma flush_fitsb_ok b ps done d ops : delivered start v0 U b ps done → Forall (may_arrive U b) ops →
  flush_fitsb b d ops = true → flush_fits P b d ops.
Proof.
  revert b ps done d. induction ops as [|o ops IH]; intros b ps done d Hd Hops H; cbn [flush_fits flush_fitsb] in *.
  { intros q. by apply queue_fitsb_ok. }
  apply andb_true_iff in H as [H1 H2]. apply Forall_cons in Hops as [Ho Hops].
  assert (apply_fits P b o) as Hfit by (apply (apply_fitsb_ok b ps); [apply Hd|done]). split; [done|]. intros b' d' E.
  destruct (apply_or_defer_ok start v0 U last Hmade P b ps done d o Hd Ho Hfit) as ([b1 d1] & E1 & ps1 & done1 & Hg & _).
  rewrite E in E1. injection E1 as <- <-. rewrite E in H2. apply (IH b' ps1 done1); [apply Hg|by eapply grown_arrive|done].
Qed.

Lemma receive_fitsb_ok b ps done d ops : delivered start v0 U b ps done → waiting U b → Forall (may_arrive U b) d → Forall (may_arrive U b) ops →
  receive_fitsb b d ops = true → receive_fits P b d ops.
Proof.
  revert b ps done d. induction ops as [|o ops IH]; intros b ps done d Hd Hw Hdef Hops H; cbn [receive_fits receive_fitsb] in *.
  { apply andb_true_iff in H as [H1 H2]. intros b' E. rewrite E in H2. apply andb_true_iff in H2 as [H2 H3].
    split; [by apply Nat.ltb_lt|].
    destruct (defer_ops_ok start v0 U last Hmade P b d Hw Hdef) as (b1 & E1 & q & -> & [_ Hq] & _); [intros q; by apply queue_fitsb_ok|].
    rewrite E in E1. injection E1 as ->. apply (flush_fitsb_ok _ ps done); [by repeat apply set_deferred_delivered|by apply Forall_forall|done]. }
  apply Forall_cons in Hops as [Ho Hops]. intros h Eh. rewrite Eh in H. rewrite !andb_true_iff, Nat.ltb_lt in H. destruct H as [[H1 H2] H3].
  destruct (push_delivered start v0 U last Hmade b ps done o Hd Ho) as (h' & Eh' & Hdh); [intros h' Eh'; by simplify_eq|].
  rewrite Eh in Eh'. injection Eh' as <-.
  assert (apply_fits P (BufferOps.set_history b h) o) as Hfit by (apply (apply_fitsb_ok _ ps); [apply Hdh|done]).
  split_and!; [done|done|]. intros b' d' E.
  destruct (apply_or_defer_ok start v0 U last Hmade P (BufferOps.set_history b h) ps done d o Hdh Ho Hfit) as ([b1 d1] & E1 & ps1 & done1 & Hg & _ & Hcase).
  rewrite E in E1. injection E1 as <- <-. rewrite E in H3. pose proof Hg as (Hd1 & _ & Eq & Hl).
  apply (IH b' ps1 done1 d'); [done|by apply (waiting_later U b)| | |done].
  - assert (Forall (may_arrive U b') d) as Hd' by (eapply Forall_impl; [exact Hdef|]; intros o'; by apply may_arrive_later).
    destruct (BufferOps.can_apply_op _ _); [by destruct Hcase as [-> _]|]. destruct Hcase as [-> _].
    apply Forall_app. split; [done|]. constructor; [|done]. by apply (may_arrive_later U b).
  - eapply Forall_impl; [exact Hops|]. intros o'. by apply may_arrive_later.
Qed.
End sound.
End checks.

(** ** A network of two replicas *)

#[local] Abbreviation sort_insertions := (merge_sort (edit_le insertion_key_cmp)).
#[local] Abbreviation sort_slices := (merge_sort (edit_le (map_key_cmp insertion_slice_cmp))).

#[local] Abbreviation pf := (λ _ : nat, sample_platform).
#[local] Existing Instance sample_laws.

Definition event_mayb (U : list Operation) (e : NodeEvent) (b : Buffer) : bool :=
  match e with
  | Called (CallEdit edits now _) => edit_fitsb b edits now && forallb (λ x : Range N * str, bool_decide (scalars x.2)) edits &&
      match splice 0 (text_of b) edits with Some _ => true | None => false end
  | Called CallUndo => undo_mayb b
  | Arrived ops => forallb (λ o, bool_decide (o ∈ U)) ops && receive_fitsb sample_platform b [] ops
  | _ => false
  end.

Lemma event_mayb_ok s n i b e : net_ok s n → nodes n !! i = Some b → event_mayb (sent n) e b = true → event_may sample_platform (sent n) e b.
Proof.
  intros [[last Hmade] _ Hj] Hi H. destruct (Hj i b Hi) as (ps & done & Hb). pose proof (jo_delivered _ _ _ _ _ _ Hb) as Hd.
  pose proof (de_ok _ _ _ _ _ _ Hd) as Hok. destruct e as [[]|ops]; cbn [event_mayb event_may] in *; try done.
  - rewrite !andb_true_iff in H. destruct H as [[H1 H2] H3]. split; [|constructor]. apply (edit_may b ps); [done|done|done|].
    apply Forall_forall. intros x Hx. rewrite forallb_forall in H2. apply (bool_decide_eq_true_1 (scalars x.2)). apply H2. by apply list_elem_of_In.
  - split; [by apply (undo_mayb_ok b ps)|constructor].
  - apply andb_true_iff in H as [H1 H2]. assert (Forall (λ o, o ∈ sent n) ops) as Hin.
    { apply Forall_forall. intros o Ho. rewrite forallb_forall in H1. apply (bool_decide_eq_true_1 (o ∈ sent n)). apply H1. by apply list_elem_of_In. }
    split; [done|]. apply (receive_fitsb_ok sample_platform (base_replica s) (base_version s) (sent n) last Hmade b ps done); [done|apply Hb|constructor| |done].
    eapply Forall_impl; [exact Hin|]. intros o. by apply (sent_arrives (base_replica s) (base_version s) (sent n) last b ps done).
Qed.

(** Events, each at a replica, that may depend on what has been sent. *)
Fixpoint net_run (es : list (Net → nat * NodeEvent)) (n : Net) : option Net :=
  match es with
  | [] => Some n
  | e :: es =>
      let '(i, e) := e n in
      b ← nodes n !! i;
      if event_mayb (sent n) e b then
        '(b, ops) ← event_step sample_platform e b;
        net_run es (mkNet (<[i := b]> (nodes n)) (sent n ++ ops))
      else None
  end.

Lemma net_run_steps s es n n' : net_ok s n → net_run es n = Some n' → rtc (net_step pf) n n' ∧ net_ok s n'.
Proof.
  revert n. induction es as [|e es IH]; intros n Hn; cbn [net_run].
  { intros [= <-]. by split. }
  destruct (e n) as [i ev]. destruct (nodes n !! i) as [b|] eqn:Hi; [|done]. cbn [mbind option_bind].
  destruct (event_mayb (sent n) ev b) eqn:Hmay; [|done]. destruct (event_step sample_platform ev b) as [[b' ops]|] eqn:E; [|done]. cbn [mbind option_bind].
  intros Hrun. assert (net_step pf n (mkNet (<[i := b']> (nodes n)) (sent n ++ ops))) as Hstep.
  { apply (net_event pf n i b ev); [done| |done]. by apply (event_mayb_ok s n i b). }
  destruct (IH _ (proj1 (net_step_ok pf s n _ Hn Hstep)) Hrun) as [Hr Hn']. split; [by eapply rtc_l|done].
Qed.

Definition sample_replica (replica remote : N) : option Buffer := BufferOps.new 16 unix_lines replica remote sample_text.

(** Two edits of one replica, concurrent with one of the other that is undone. *)
Definition sample_start : option Net :=
  b1 ← sample_replica 8 1;
  b2 ← sample_replica 9 2;
  Some (mkNet [b1; b2] []).

Definition local (i : nat) (ev : Call) : Net → nat * NodeEvent := λ _, (i, Called ev).
Definition arrived (i : nat) (f : list Operation → list Operation) : Net → nat * NodeEvent := λ n, (i, Arrived (f (sent n))).

Definition sample_events : list (Net → nat * NodeEvent) :=
  [local 0 (CallEdit sample_edits 1 2);
   local 1 (CallEdit [((0 ..: 3), [87; 233])] 1 2);
   local 1 (CallEdit [((6 ..: 9), []); ((11 ..: 11), [8364; 13; 10])] 1000000000 1000000001);
   arrived 0 (drop 2);
   local 0 CallUndo;
   local 1 CallUndo].

(** All is sent to all, twice or in the wrong order. *)
Definition sample_exchange : list (Net → nat * NodeEvent) := sample_events ++ [arrived 0 (λ ops, ops ++ ops); arrived 1 (λ ops, rev ops)].

(** The network after the events. *)
Definition run_sample (es : list (Net → nat * NodeEvent)) : option Net := n ← sample_start; net_run es n.

Lemma sample_replica_new i replica remote : ∃ b, sample_replica replica remote = Some b ∧ replica_id (lamport_clock b) = replica ∧
  BufferOps.new (MAX_INSERTION_LEN (pf i)) (replace_all (pf i)) replica remote sample_text = Some b.
Proof.
  assert (scalars sample_text) as Hs by by vm_compute. assert (Str.length_utf8 (unix_lines sample_text) < u32_modulus) as Hf by by vm_compute.
  destruct (new_joined pf sample_text i replica remote Hs Hf) as (b & E & ps & _ & Er). exists b. by split_and!.
Qed.

Lemma sample_started_ok : ∃ n0, sample_start = Some n0 ∧ net_start pf sample_text n0 ∧ net_ok sample_text n0.
Proof.
  destruct (sample_replica_new 0 8 1) as (b1 & E1 & R1 & N1), (sample_replica_new 1 9 2) as (b2 & E2 & R2 & N2).
  exists (mkNet [b1; b2] []). assert (net_start pf sample_text (mkNet [b1; b2] [])) as Hstart.
  { split_and!; [done| |].
    - cbn [nodes fmap list_fmap]. rewrite R1, R2. apply (bool_decide_eq_true_1 (NoDup [8; 9])). reflexivity.
    - intros [|[|i]] b Hi; cbn in Hi; [injection Hi as <-; by exists 8, 1|injection Hi as <-; by exists 9, 2|done]. }
  split_and!; [|done|].
  - unfold sample_start. rewrite E1, E2. reflexivity.
  - apply (net_start_ok pf); [by vm_compute|by vm_compute|done].
Qed.

Lemma sample_net_ok es : is_Some (run_sample es) →
  ∃ n0 n, net_start pf sample_text n0 ∧ rtc (net_step pf) n0 n ∧ run_sample es = Some n ∧ net_ok sample_text n.
Proof.
  unfold run_sample. destruct sample_started_ok as (n0 & E & Hstart & Hok). rewrite E. cbn [mbind option_bind]. intros [n Hn]. exists n0, n.
  destruct (net_run_steps sample_text es n0 n Hok Hn) as [H1 H2]. split_and!; [exact Hstart|exact H1|exact Hn|exact H2].
Qed.

Definition node (i : nat) (o : option Net) : option Buffer := n ← o; nodes n !! i.

(** The parts of a network that has two replicas. *)
Lemma two_nodes o n : o = Some n → from_option (λ n, length (nodes n)) 0%nat o = 2%nat →
  ∃ b1 b2, nodes n !! 0%nat = Some b1 ∧ nodes n !! 1%nat = Some b2 ∧ node 0 o = Some b1 ∧ node 1 o = Some b2.
Proof.
  intros -> H. unfold node. cbn in *. destruct (nodes n) as [|b1 [|b2 [|]]]; try done. by exists b1, b2.
Qed.

Definition all_observed (n : Net) : bool :=
  forallb (λ b, forallb (λ o, GlobalOps.observed (BufferOps.version b) (op_timestamp o)) (sent n)) (nodes n).

Lemma all_observed_ok n i b o : all_observed n = true → nodes n !! i = Some b → o ∈ sent n →
  GlobalOps.observed (BufferOps.version b) (op_timestamp o) = true.
Proof.
  intros H Hi Ho. unfold all_observed in H. rewrite forallb_forall in H.
  specialize (H b ltac:(apply list_elem_of_In; by eapply list_elem_of_lookup_2)). rewrite forallb_forall in H. apply H. by apply list_elem_of_In.
Qed.

Lemma replicas_agree_witness : ∃ b1 b2, node 0 (run_sample sample_exchange) = Some b1 ∧ node 1 (run_sample sample_exchange) = Some b2 ∧ text_of b1 = text_of b2.
Proof.
  assert (is_Some (run_sample sample_exchange)) as H by (vm_compute; by eexists).
  destruct (sample_net_ok _ H) as (n0 & n & Hstart & Hrun & E & _).
  destruct (two_nodes (run_sample sample_exchange) n E ltac:(vm_compute; reflexivity)) as (b1 & b2 & H1 & H2 & N1 & N2).
  assert (all_observed n = true) as Hobs by (apply (checked (run_sample sample_exchange) all_observed n E); vm_compute; reflexivity).
  assert (scalars sample_text) as Hs by by vm_compute. assert (Str.length_utf8 (unix_lines sample_text) < u32_modulus) as Hf by by vm_compute.
  assert (∀ o, o ∈ sent n → GlobalOps.observed (BufferOps.version b1) (op_timestamp o) = GlobalOps.observed (BufferOps.version b2) (op_timestamp o)) as Hsame.
  { intros o Ho. by rewrite (all_observed_ok n 0 b1 o Hobs H1 Ho), (all_observed_ok n 1 b2 o Hobs H2 Ho). }
  pose proof (replicas_agree pf sample_text Hs Hf n0 n 0 1 b1 b2 Hstart Hrun H1 H2 Hsame) as Ht.
  exists b1, b2. split; [exact N1|]. split; [exact N2|exact Ht].
Defined.

Lemma text_is_meaning_witness : ∃ n b z, (run_sample sample_events) = Some n ∧ node 0 (run_sample sample_events) = Some b ∧
  receive_all (observed_ops (sent n) b) (base_replica sample_text) = Some z ∧ text_of b = replica_text z.
Proof.
  assert (is_Some (run_sample sample_events)) as H by (vm_compute; by eexists).
  destruct (sample_net_ok _ H) as (n0 & n & Hstart & Hrun & E & _).
  destruct (two_nodes (run_sample sample_events) n E ltac:(vm_compute; reflexivity)) as (b1 & b2 & H1 & _ & N1 & _).
  assert (scalars sample_text) as Hs by by vm_compute. assert (Str.length_utf8 (unix_lines sample_text) < u32_modulus) as Hf by by vm_compute.
  pose proof (text_is_meaning pf sample_text Hs Hf n0 n 0 b1 Hstart Hrun H1) as (z & Hz & Ht).
  exists n, b1, z. split; [exact E|]. split; [exact N1|]. split; [exact Hz|exact Ht].
Defined.

(** Everything arrives at the first replica, in the wrong order. *)
Definition last_batch (n : Net) : NodeEvent := Arrived (rev (sent n)).
Definition last_may (n : Net) : bool := match nodes n !! 0%nat with Some b => event_mayb (sent n) (last_batch n) b | None => false end.

Lemma last_may_ok n b : net_ok sample_text n → (run_sample sample_events) = Some n → nodes n !! 0%nat = Some b → event_may sample_platform (sent n) (last_batch n) b.
Proof.
  intros Hok E Hi. apply (event_mayb_ok sample_text n 0 b); [exact Hok|exact Hi|].
  assert (last_may n = true) as H by (apply (checked (run_sample sample_events) last_may n E); vm_compute; reflexivity). unfold last_may in H. by rewrite Hi in H.
Qed.

Lemma network_safe_witness : returns (n ← (run_sample sample_events); b ← nodes n !! 0%nat; event_step sample_platform (last_batch n) b) (λ '(b, _), ∃ ps, buffer_ok b ps).
Proof.
  assert (is_Some (run_sample sample_events)) as H by (vm_compute; by eexists).
  destruct (sample_net_ok _ H) as (n0 & n & Hstart & Hrun & E & Hok).
  destruct (two_nodes (run_sample sample_events) n E ltac:(vm_compute; reflexivity)) as (b1 & b2 & H1 & _ & N1 & _).
  assert (scalars sample_text) as Hs by by vm_compute. assert (Str.length_utf8 (unix_lines sample_text) < u32_modulus) as Hf by by vm_compute.
  pose proof (network_safe pf sample_text Hs Hf n0 n 0 b1 (last_batch n) Hstart Hrun H1 (last_may_ok n b1 Hok E H1)) as Hres.
  rewrite E. cbn [mbind option_bind]. rewrite H1. cbn [mbind option_bind]. eapply returns_mono; [exact Hres|]. intros [b' ops] [Hb _]. exact Hb.
Defined.

Lemma all_arrive_witness : returns (n ← (run_sample sample_events); b ← nodes n !! 0%nat; BufferOps.apply_ops sample_platform b (rev (sent n)))
  (λ b', tree_items (deferred_ops b') = []).
Proof.
  assert (is_Some (run_sample sample_events)) as H by (vm_compute; by eexists).
  destruct (sample_net_ok _ H) as (n0 & n & Hstart & Hrun & E & Hok).
  destruct (two_nodes (run_sample sample_events) n E ltac:(vm_compute; reflexivity)) as (b1 & b2 & H1 & _ & N1 & _).
  assert (scalars sample_text) as Hs by by vm_compute. assert (Str.length_utf8 (unix_lines sample_text) < u32_modulus) as Hf by by vm_compute.
  assert (∀ o, o ∈ sent n → GlobalOps.observed (BufferOps.version b1) (op_timestamp o) = true ∨ o ∈ rev (sent n) ∨ o ∈ tree_items (deferred_ops b1)) as Hall.
  { intros o Ho. right. left. apply list_elem_of_In, in_rev. rewrite rev_involutive. by apply list_elem_of_In. }
  pose proof (all_arrive pf sample_text Hs Hf n0 n 0 b1 (rev (sent n)) Hstart Hrun H1 (last_may_ok n b1 Hok E H1) Hall) as Hres.
  rewrite E. cbn [mbind option_bind]. rewrite H1. cbn [mbind option_bind]. eapply returns_mono; [exact Hres|]. intros b' [Hq _]. exact Hq.
Defined.

(** The first edit of the second replica arrives at the first. *)
Definition second_op (n : Net) : option Operation := sent n !! 1%nat.
Definition second_may (n : Net) : bool :=
  match nodes n !! 0%nat, second_op n with
  | Some b, Some op => op_fitsb sample_platform b op && GlobalOps.observed_all (BufferOps.version b) (op_version op) &&
      negb (GlobalOps.observed (BufferOps.version b) (op_timestamp op))
  | _, _ => false
  end.

Lemma apply_op_means_witness : returns (n ← run_sample (take 3 sample_events); b ← nodes n !! 0%nat; op ← second_op n; BufferOps.apply_op sample_platform b op)
  (λ b', ∃ ps', buffer_ok b' ps').
Proof.
  assert (is_Some (run_sample (take 3 sample_events))) as H by (vm_compute; by eexists).
  destruct (sample_net_ok _ H) as (n0 & n & Hstart & Hrun & E & [[last Hmade] _ Hj]).
  assert (second_may n = true) as Hmay by (apply (checked _ second_may n E); vm_compute; reflexivity). unfold second_may in Hmay.
  destruct (nodes n !! 0%nat) as [b|] eqn:Hi; [|done]. destruct (second_op n) as [op|] eqn:Hop; [|done].
  apply andb_true_iff in Hmay as [[Hf Hready]%andb_true_iff Hnew%negb_true_iff].
  destruct (Hj 0%nat b Hi) as (ps & done & Hb). pose proof (jo_delivered _ _ _ _ _ _ Hb) as Hd.
  assert (op ∈ sent n) as Hin by by eapply list_elem_of_lookup_2.
  assert (op ∉ done) as Hni by by intros Ho%(de_observed _ _ _ _ _ _ Hd op Hin); rewrite Ho in Hnew.
  destruct (ready_receives _ _ _ _ Hmade b ps done op Hd Hin Hni Hready) as (_ & _ & z & Hz).
  assert (arrives b op) as Harr.
  { split; [exact Hnew|exact Hready|]. by destruct (sent_arrives (base_replica sample_text) (base_version sample_text) (sent n) last b ps done op Hmade Hb Hin). }
  pose proof (apply_op_means sample_platform b ps op z (de_ok _ _ _ _ _ _ Hd) (de_versioned _ _ _ _ _ _ Hd)
    (made_valid _ _ _ _ Hmade op Hin) (op_fitsb_ok _ b ps op (de_ok _ _ _ _ _ _ Hd) Hf) Harr Hz) as Hres.
  rewrite E. cbn [mbind option_bind]. rewrite Hi. cbn [mbind option_bind]. rewrite Hop. cbn [mbind option_bind].
  eapply returns_mono; [exact Hres|]. intros b' [(ps' & Hb' & _) _]. exists ps'. exact Hb'.
Defined.

(** An edit on a new buffer that replaces three bytes and inserts. *)
Definition remote_ranges : list (Range N) := [(0 ..: 3); (8 ..: 8)].
Definition remote_texts : list str := [[87; 233]; [8364; 10]].
Definition remote_cells : option (list Cell) :=
  integrate (base_version sample_text) (λ _, false) (mkLamport 3 9) (zip remote_ranges remote_texts) (rcells (base_replica sample_text)).

Lemma remote_edit_witness : returns (b ← sample_replica 8 1;
    RemoteEditOps.apply_remote_edit 16 sort_insertions sort_slices (snapshot b) (base_version sample_text) remote_ranges remote_texts (mkLamport 3 9))
  (λ '(s', patch), ∃ nps z, snapshot_ok s' nps ∧ remote_cells = Some z ∧ cells nps = z).
Proof.
  assert (scalars sample_text) as Hs by by vm_compute. assert (Str.length_utf8 (unix_lines sample_text) < u32_modulus) as Hf by by vm_compute.
  destruct (new_buffer_ok sample_platform 8 1 sample_text Hs Hf) as (b & E & ps & Hb & Hbase & _ & _ & _ & _ & Eu & Ec & _).
  change (sample_replica 8 1 = Some b) in E. pose proof (bo_snapshot _ _ Hb) as Hok.
  assert (low_sample (snapshot b) = true) as Hl by (apply (checked _ (λ b, low_sample (snapshot b)) b E); vm_compute; reflexivity).
  assert (undone_in (undo_map (snapshot b)) (mkLamport 3 9) = false) as Hundone by (rewrite Eu; apply no_undos).
  assert (∀ f, f ∈ ps.*1 → stamp f = base_stamp) as Hst.
  { intros f Hin. unfold all_base in Hbase. rewrite Forall_forall in Hbase. by destruct (Hbase f Hin). }
  assert (Forall (λ f, 0 < value (stamp f)) ps.*1) as Hpos by (apply Forall_forall; intros f Hin; by rewrite (Hst f Hin)).
  assert (∀ t, GlobalOps.observed (base_version sample_text) t = true → LamportOps.cmp t (mkLamport 3 9) = Lt) as Hold.
  { intros t Ht%observed_iff. pose proof (base_observed_get (unix_lines sample_text) (replica_id t)) as Hle. unfold base_version in Ht. rewrite decide_False in Hle by done.
    unfold LamportOps.cmp. cbn [value]. destruct (N.compare_spec (value t) 3); [lia|done|lia]. }
  assert (∀ t, UndoMapOps.was_undone (undo_map (snapshot b)) t (base_version sample_text) = Some ((λ _, false) t)) as Hwas.
  { intros t. rewrite Eu, (was_undone_replica _ _ _ new_undos_ok). by vm_compute. }
  assert (mkLamport 3 9 ∉ stamp <$> ps.*1) as Hfresh.
  { intros (f & Ef & Hin)%list_elem_of_fmap. rewrite (Hst f Hin) in Ef. by vm_compute in Ef. }
  assert (is_Some remote_cells) as [z Ez] by (vm_compute; by eexists).
  assert (integrate (base_version sample_text) (λ _, false) (mkLamport 3 9) (zip remote_ranges remote_texts) (cells ps) = Some z) as Hz by (rewrite Ec; exact Ez).
  assert (Forall (λ t, scalars t ∧ clean t) remote_texts) as Htexts by by repeat constructor.
  assert (Str.length_utf8 (mjoin remote_texts) < u32_modulus) as Hlen by by vm_compute.
  pose proof (remote_edit 16 sixteen_fits sort_insertions sort_slices (snapshot b) ps (mkLamport 3 9) (base_version sample_text) (λ _, false)
    remote_ranges remote_texts z Hok (low_sample_ok _ _ Hok Hl) Hundone Hpos Hold Hwas (merge_sort_sorting insertion_key_cmp KeyedOps.edit_key)
    (merge_sort_sorting (map_key_cmp insertion_slice_cmp) KeyedOps.edit_key) Hfresh ltac:(done) eq_refl Hz Htexts Hlen) as Hres.
  rewrite E. cbn [mbind option_bind]. eapply returns_mono; [exact Hres|].
  intros [s' patch] (nps & Hs' & _ & Hc & _). exists nps, z. split; [exact Hs'|]. split; [exact Ez|exact Hc].
Defined.
