(* ===== verification/AnchorProps.v ===== *)
(** * Properties of anchors *)

From stdpp Require Import gmap sets sorting relations.
From S2P Require Import Prelude Clock Locator Patch SumTree SumCursor CursorSpec KeyedTree TreeMap UndoMap Points Text Rope RopeText RopeSpec RopeClip LineEnding Fragment Builders Snapshot Cells Convergence OperationQueue History Replica SnapshotSpec LocalEdit LocalEditSpec ApplyUndo ApplyUndoSpec Offsets Anchor AnchorSpec Buffer BufferSpec BufferInv BufferRemote Delivery Places AnchorOrder AnchorSummaries BufferRuns Network BufferProps NetworkProps.
Import TreeOps AnchorOps.

#[local] Unset Default Proof Using.
#[local] Arguments Nat.mul : simpl never.
#[local] Open Scope N_scope.
#[local] Existing Instance LamportOps.cmp_total.

(** ** What replicas have of each other's characters *)

Section having.
Context (start : Replica) (v0 : Global) (U : list Operation) (last : Replica) (Hmade : made start v0 U last).
Context (Hstart : ∀ c, c ∈ rcells start → GlobalOps.observed v0 (cstamp c) = true) (Hin : in_place (rcells start)).
Implicit Types (b : Buffer) (ps : list part) (done : list Operation).

Lemma stamps_once done : NoDup done → (∀ o, o ∈ done → o ∈ U) → NoDup (op_timestamp <$> done).
Proof using Hmade.
  intros Hn Hm. apply NoDup_fmap_2_strong; [|done]. intros o o' Ho Ho'. apply (same_stamp start v0 U last Hmade); by apply Hm.
Qed.

Lemma delivered_in_place b ps done : delivered start v0 U b ps done → in_place (cells ps).
Proof using All.
  intros [_ _ Hr Hm Hn _ _ _ _ _ _ _]. destruct (receive_all_keys done start _ Hr) as [_ H]; [by apply stamps_once| |by apply H].
  intros c Hc (o & E & Ho)%list_elem_of_fmap. pose proof (ma_new _ _ _ _ Hmade o (Hm o Ho)) as Hnew. rewrite <- E, Hstart in Hnew; done.
Qed.

(** The characters of a buffer are those of the operations that it has. *)
Lemma delivered_places b ps done : delivered start v0 U b ps done →
  places (cells ps) = filter (λ x, pstamp x ∉ op_timestamp <$> filter (.∉ done) U) (places (rcells last)).
Proof using Hmade.
  intros Hd. pose proof Hd as [_ Hv Hr Hm Hn Hs Hc Hobs _ _ _ _].
  destruct (to_come start v0 U last Hmade done Hm Hn Hs Hc) as (_ & _ & Hall). unfold receive_all in *.
  rewrite run_steps_app, Hr in Hall. cbn [mbind option_bind] in Hall. symmetry.
  apply (receive_all_keys (filter (.∉ done) U) (replica_of (snapshot b) ps) last Hall).
  - apply stamps_once; [apply NoDup_filter, (NoDup_fmap_1 op_timestamp), Hmade|]. by intros o [_ ?]%list_elem_of_filter.
  - intros c Hc' (o & E & [Ho Hu]%list_elem_of_filter)%list_elem_of_fmap. apply Ho, Hobs; [done|]. rewrite <- E.
    destruct (elem_of_cells ps c Hc') as (f & Hf & -> & _). apply Hv, elem_of_stamps. exists f. split; [done|by left].
Qed.

(** Whoever has more operations has more characters, in the same order. *)
Lemma delivered_more_places b1 ps1 done1 b2 ps2 done2 : delivered start v0 U b1 ps1 done1 → delivered start v0 U b2 ps2 done2 →
  (∀ o, o ∈ done1 → o ∈ done2) → places (cells ps1) `sublist_of` places (cells ps2).
Proof using Hmade.
  intros H1 H2 Hmore. rewrite (delivered_places _ _ _ H1), (delivered_places _ _ _ H2).
  set (K := places (rcells last)). assert (∀ x, pstamp x ∉ op_timestamp <$> filter (.∉ done1) U → pstamp x ∉ op_timestamp <$> filter (.∉ done2) U) as H.
  { intros x Hx (o & E & [Ho Hu]%list_elem_of_filter)%list_elem_of_fmap. apply Hx. rewrite E. apply list_elem_of_fmap_2, list_elem_of_filter.
    split; [by intros ?%Hmore|done]. }
  replace (filter (λ x, pstamp x ∉ op_timestamp <$> filter (.∉ done1) U) K) with
    (filter (λ x, pstamp x ∉ op_timestamp <$> filter (.∉ done1) U) (filter (λ x, pstamp x ∉ op_timestamp <$> filter (.∉ done2) U) K)).
  - apply sublist_filter.
  - rewrite list_filter_filter. apply list_filter_iff. intros x. split; [by intros [? _]|intros Hx; split; [done|by apply H]].
Qed.
End having.

(** ** In networks *)

(** The buffer has seen all that its text is made of. *)
Lemma versioned_seen b ps : versioned b ps → ∀ f, f ∈ ps.*1 → GlobalOps.observed (sversion (snapshot b)) (stamp f) = true.
Proof. intros Hv f Hf. apply (ve_stamps _ _ Hv), elem_of_stamps. exists f. split; [done|by left]. Qed.

Section properties.
Context (P : nat → Platform) `{!∀ i, PlatformLaws (P i)} (s : str) (Hs : scalars s) (Hlen : Str.length_utf8 (unix_lines s) < u32_modulus).
Implicit Types (n : Net) (b : Buffer) (ps : list part) (a : Anchor).

#[local] Abbreviation delivered := (Delivery.delivered (base_replica s) (base_version s)).
#[local] Abbreviation undone b := (undone_in (undo_map (snapshot b))).

Lemma base_seen c : c ∈ rcells (base_replica s) → GlobalOps.observed (base_version s) (cstamp c) = true.
Proof.
  cbn. intros Hc. destruct (elem_of_text_cells _ _ _ _ _ Hc) as [-> _]. unfold base_version, base_observed.
  destruct (unix_lines s); [by apply elem_of_nil in Hc|apply observed_self].
Qed.

Lemma base_in_place : in_place (rcells (base_replica s)).
Proof. apply text_in_place. Qed.

(** Where anchors are made in a buffer. *)
Lemma node_anchor U b ps done debug_assertions i (bi : Bias) : delivered U b ps done →
  Str.is_char_boundary (text_of b) i = true ∨ debug_assertions = false ∧ (bi = BiasLeft → 0 < clip_to (text_of b) bi i) →
  ∃ a, anchor_at_offset debug_assertions (snapshot b) i bi = Some a ∧ anchor_bias a = bi ∧
    placed (undone b) (remote_id (snapshot b)) (cells ps) a (clip_to (text_of b) bi i).
Proof.
  intros Hd Hi. pose proof (bo_snapshot _ _ (de_ok _ _ _ _ _ _ Hd)) as Hok. unfold text_of in *.
  destruct (so_visible _ _ Hok) as [_ Et]. rewrite Et in *. by apply (anchor_at_placed (snapshot b) ps Hok).
Qed.

(** C13: an anchor made at a place between characters of a replica's text, with either bias, resolves to
    that place as long as nothing is edited; it can be resolved, and is valid. Within a character it
    goes to the boundary before or after it, by its bias; there it panics with debug assertions. *)
Theorem anchor_round_trip n0 n i b debug_assertions offset (bi : Bias) (Hstart : net_start P s n0) (Hrun : rtc (net_step P) n0 n)
    (Hi : nodes n !! i = Some b)
    (Hoffset : Str.is_char_boundary (text_of b) offset = true ∨ debug_assertions = false ∧ (bi = BiasLeft → 0 < clip_to (text_of b) bi offset)) :
  ∃ a, anchor_at_offset debug_assertions (snapshot b) offset bi = Some a ∧ anchor_bias a = bi ∧
    offset_for_anchor debug_assertions (snapshot b) a = Some (clip_to (text_of b) bi offset) ∧
    can_resolve (snapshot b) a = true ∧ is_valid debug_assertions a (snapshot b) = Some true.
Proof.
  pose proof (net_run_ok P s n0 n (net_start_ok P s n0 Hs Hlen Hstart) Hrun) as [_ _ Hj].
  destruct (Hj i b Hi) as (ps & done & [Hd _ _]). destruct (node_anchor _ b ps done debug_assertions offset bi Hd Hoffset) as (a & Ha & Hb & Hp).
  exists a. split; [done|]. split; [done|]. apply (placed_resolves (snapshot b) ps); [apply Hd|by apply versioned_seen, Hd|done].
Qed.

(** Operations observed by one and then by the other. *)
Lemma observed_places n0 n n' i j b b' : net_start P s n0 → rtc (net_step P) n0 n → rtc (net_step P) n n' →
  nodes n !! i = Some b → nodes n' !! j = Some b' →
  (∀ o, o ∈ sent n → GlobalOps.observed (BufferOps.version b) (op_timestamp o) = true → GlobalOps.observed (BufferOps.version b') (op_timestamp o) = true) →
  ∃ ps done ps' done', delivered (sent n') b ps done ∧ delivered (sent n') b' ps' done' ∧
    places (cells ps) `sublist_of` places (cells ps') ∧ in_place (cells ps) ∧ in_place (cells ps') ∧
    receive_all (observed_ops (sent n) b) (base_replica s) = Some (replica_of (snapshot b) ps) ∧
    receive_all (observed_ops (sent n') b') (base_replica s) = Some (replica_of (snapshot b') ps').
Proof.
  intros Hstart Hrun Hrun' Hi Hj Hmore. pose proof (net_run_ok P s n0 n (net_start_ok P s n0 Hs Hlen Hstart) Hrun) as Hn.
  destruct (net_run_grows P s n n' Hn Hrun') as [[[last Hmade] _ Hj2] Hgrow]. destruct (no_joined _ _ Hn i b Hi) as (ps & done & [Hd _ _]).
  destruct (Hj2 j b' Hj) as (ps' & done' & [Hd' _ _]). exists ps, done, ps', done'. pose proof (Hgrow _ _ _ Hd) as Hd2. split_and!; [done|done| | | | |].
  - apply (delivered_more_places (base_replica s) (base_version s) (sent n') last Hmade b ps done b' ps' done'); [done..|].
    intros o Ho. pose proof (de_members _ _ _ _ _ _ Hd o Ho) as Hin. pose proof (de_members _ _ _ _ _ _ Hd2 o Ho) as Hin'.
    apply (de_observed _ _ _ _ _ _ Hd'); [done|]. apply Hmore; [done|]. by apply (de_observed _ _ _ _ _ _ Hd).
  - by apply (delivered_in_place (base_replica s) (base_version s) (sent n') last Hmade base_seen base_in_place b ps done).
  - by apply (delivered_in_place (base_replica s) (base_version s) (sent n') last Hmade base_seen base_in_place b' ps' done').
  - destruct (no_made _ _ Hn) as [last0 Hmade0]. by apply (observed_replica (base_replica s) (base_version s) (sent n) last0 Hmade0 b ps done).
  - by apply (observed_replica (base_replica s) (base_version s) (sent n') last Hmade b' ps' done').
Qed.

(** What a replica shows of some of its cells. *)
Definition replica_shows (z : Replica) (k : Cell) : bool := cell_shows (undone_at (rundos z)) k.
Definition shown_of (z : Replica) (cs : list Cell) : str := cell_text (undone_at (rundos z)) cs.

Lemma shown_cells b ps cs : undo_ok (undo_map (snapshot b)) → cell_text (undone b) cs = shown_of (replica_of (snapshot b) ps) cs.
Proof. intros Hm. apply cell_text_ext. intros t. by apply undone_in_replica. Qed.

Lemma shown_of_split z l k r : shown_of z (l ++ k :: r) = shown_of z l ++ (if replica_shows z k then [cchar k] else []) ++ shown_of z r.
Proof.
  unfold shown_of. rewrite (cons_middle k), !cell_text_app. do 2 f_equal. unfold cell_text, replica_shows. rewrite filter_cons.
  by destruct (cell_shows _ k) eqn:E; case_decide.
Qed.

(** An anchor that is not at an end of the text is at a character. *)
Lemma placed_cell u buffer cs a o : placed u buffer cs a o →
  match anchor_bias a with BiasLeft => 0 < o | BiasRight => o < Str.length_utf8 (cell_text u cs) end →
  ∃ l k r, cs = l ++ k :: r ∧ anchored a k ∧ buffer_id a = buffer ∧ cell_shows u k = true ∧ o = anchor_place u a l k.
Proof. intros [| |a' l k r E Ha Hb Hv] Ho; [cbn in Ho; lia|cbn in Ho; lia|]. by exists l, k, r. Qed.

Lemma anchor_place_shown b ps a l k : undo_ok (undo_map (snapshot b)) → anchor_place (undone b) a l k =
  Str.length_utf8 (shown_of (replica_of (snapshot b) ps) (match anchor_bias a with BiasLeft => l ++ [k] | BiasRight => l end)).
Proof.
  intros Hm. rewrite <- (shown_cells b ps) by done. unfold anchor_place. destruct (anchor_bias a); [by rewrite cell_text_app, length_utf8_app|lia].
Qed.

Lemma shows_replica b ps k : undo_ok (undo_map (snapshot b)) → cell_shows (undone b) k = replica_shows (replica_of (snapshot b) ps) k.
Proof. intros Hm. apply cell_shows_ext. intros t. by apply undone_in_replica. Qed.

Lemma delivered_shown U b ps done l k r : delivered U b ps done → cells ps = l ++ k :: r →
  let z := replica_of (snapshot b) ps in
  text_of b = shown_of z l ++ (if replica_shows z k then [cchar k] else []) ++ shown_of z r.
Proof. intros Hd E z. rewrite (delivered_text _ _ _ _ _ _ Hd), <- shown_of_split, <- E. done. Qed.

(** C11: anchors keep their order. Of two anchors made at places of a replica's text, the one at the
    smaller offset comes first, and at one place that with the bias to the left. All replicas that
    have observed what it had then, whatever they edit, undo and receive, compare the anchors so;
    both resolve there, and to offsets in that order. *)
Theorem anchors_keep_order n0 n n' i j b b' debug_assertions o1 o2 (d1 d2 : Bias) (Hstart : net_start P s n0) (Hrun : rtc (net_step P) n0 n)
    (Hlater : rtc (net_step P) n n') (Hi : nodes n !! i = Some b) (Hj : nodes n' !! j = Some b')
    (Hmore : ∀ o, o ∈ sent n → GlobalOps.observed (BufferOps.version b) (op_timestamp o) = true → GlobalOps.observed (BufferOps.version b') (op_timestamp o) = true)
    (Hremote : remote_id (snapshot b') = remote_id (snapshot b) ∨ debug_assertions = false)
    (H1 : Str.is_char_boundary (text_of b) o1 = true) (H2 : Str.is_char_boundary (text_of b) o2 = true) :
  ∃ a1 a2 p1 p2, anchor_at_offset debug_assertions (snapshot b) o1 d1 = Some a1 ∧ anchor_at_offset debug_assertions (snapshot b) o2 d2 = Some a2 ∧
    let order := then_with (o1 ?= o2) (bias_cmp d1 d2) in
    cmp debug_assertions a1 a2 (snapshot b) = Some order ∧ cmp debug_assertions a1 a2 (snapshot b') = Some order ∧
    offset_for_anchor debug_assertions (snapshot b') a1 = Some p1 ∧ offset_for_anchor debug_assertions (snapshot b') a2 = Some p2 ∧
    match order with Lt => p1 <= p2 | Eq => p1 = p2 | Gt => p2 <= p1 end.
Proof.
  destruct (observed_places n0 n n' i j b b') as (ps & ops & ps' & ops' & Hd & Hd' & Hsub & Hin & Hin' & Hz & Hz'); [done..|].
  pose proof (bo_snapshot _ _ (de_ok _ _ _ _ _ _ Hd)) as Hok. pose proof (bo_snapshot _ _ (de_ok _ _ _ _ _ _ Hd')) as Hok'.
  destruct (node_anchor _ b ps ops debug_assertions o1 d1 Hd) as (a1 & Ha1 & Hb1 & Hp1); [by left|].
  destruct (node_anchor _ b ps ops debug_assertions o2 d2 Hd) as (a2 & Ha2 & Hb2 & Hp2); [by left|].
  unfold clip_to in Hp1, Hp2. rewrite H1 in Hp1. rewrite H2 in Hp2.
  destruct (placed_elsewhere _ _ _ _ _ _ _ _ Hsub Hp1 Hp2) as (n1 & n2 & m1 & m2 & Hn1 & Hn2 & Hm1 & Hm2 & Eo & Em). rewrite Hb1, Hb2 in Eo.
  assert (∀ a k o, at_slot (cells ps') a k → placed (undone b) (remote_id (snapshot b)) (cells ps) a o →
    offset_for_anchor debug_assertions (snapshot b') a = Some (slot_offset (undone b') (cells ps') k)) as Hres.
  { intros a k o Hk Hp. apply (slot_resolves (snapshot b') ps' Hok' debug_assertions a k Hk); [by apply versioned_seen, Hd'|].
    intros ->. destruct Hremote as [->|]; [|done]. by destruct Hp. }
  exists a1, a2, (slot_offset (undone b') (cells ps') m1), (slot_offset (undone b') (cells ps') m2).
  split; [done|]. split; [done|]. cbn zeta. rewrite <- Eo. split_and!.
  - by apply (cmp_slots (snapshot b) ps Hok Hin).
  - rewrite <- Em. by apply (cmp_slots (snapshot b') ps' Hok' Hin').
  - by apply (Hres a1 m1 o1).
  - by apply (Hres a2 m2 o2).
  - rewrite <- Em. destruct (Nat.compare_spec m1 m2) as [->|Hlt|Hlt]; [done|by apply slot_offset_mono; lia|by apply slot_offset_mono; lia].
Qed.

(** C12: anchors stick to characters. An anchor made before (bias to the right) or after (bias to the
    left) a character of a replica's text is an anchor of that character ([k], of the characters that
    the observed operations make) on all replicas that have observed what it had then: it is valid exactly
    when the character shows there, and resolves to the place before or after it, or if it does not
    show, to the place between the characters around it. *)
Theorem anchors_stick n0 n n' i j b b' debug_assertions offset (bi : Bias) (Hstart : net_start P s n0) (Hrun : rtc (net_step P) n0 n)
    (Hlater : rtc (net_step P) n n') (Hi : nodes n !! i = Some b) (Hj : nodes n' !! j = Some b')
    (Hmore : ∀ o, o ∈ sent n → GlobalOps.observed (BufferOps.version b) (op_timestamp o) = true → GlobalOps.observed (BufferOps.version b') (op_timestamp o) = true)
    (Hremote : remote_id (snapshot b') = remote_id (snapshot b)) (Hoffset : Str.is_char_boundary (text_of b) offset = true)
    (Hinside : match bi with BiasLeft => 0 < offset | BiasRight => offset < Str.length_utf8 (text_of b) end) :
  ∃ a z l k r z' l' k' r', anchor_at_offset debug_assertions (snapshot b) offset bi = Some a ∧
    receive_all (observed_ops (sent n) b) (base_replica s) = Some z ∧ rcells z = l ++ k :: r ∧ replica_shows z k = true ∧
    text_of b = shown_of z l ++ [cchar k] ++ shown_of z r ∧
    offset = Str.length_utf8 (shown_of z (match bi with BiasLeft => l ++ [k] | BiasRight => l end)) ∧
    receive_all (observed_ops (sent n') b') (base_replica s) = Some z' ∧ rcells z' = l' ++ k' :: r' ∧ place_of k' = place_of k ∧
    text_of b' = shown_of z' l' ++ (if replica_shows z' k' then [cchar k] else []) ++ shown_of z' r' ∧
    is_valid debug_assertions a (snapshot b') = Some (replica_shows z' k') ∧
    offset_for_anchor debug_assertions (snapshot b') a =
      Some (Str.length_utf8 (shown_of z' (match bi with BiasLeft => l' ++ [k'] | BiasRight => l' end))).
Proof.
  destruct (observed_places n0 n n' i j b b') as (ps & ops & ps' & ops' & Hd & Hd' & Hsub & _ & _ & Hz & Hz'); [done..|].
  pose proof (bo_snapshot _ _ (de_ok _ _ _ _ _ _ Hd')) as Hok'.
  pose proof (ve_undo_map _ _ (de_versioned _ _ _ _ _ _ Hd)) as Hm. pose proof (ve_undo_map _ _ (de_versioned _ _ _ _ _ _ Hd')) as Hm'.
  destruct (node_anchor _ b ps ops debug_assertions offset bi Hd) as (a & Ha & Hb & Hp); [by left|].
  unfold clip_to in Hp. rewrite Hoffset in Hp.
  destruct (placed_cell _ _ _ _ _ Hp) as (l & k & r & E & Hac & Hbuf & Hvis & Eo).
  { rewrite Hb, (shown_cells b ps) by done. by rewrite (delivered_text _ _ _ _ _ _ Hd) in Hinside. }
  assert (place_of k ∈ places (cells ps')) as (k' & Ek & (l' & r' & E')%list_elem_of_split)%list_elem_of_fmap.
  { eapply elem_of_sublist; [|exact Hsub]. rewrite E. apply list_elem_of_fmap_2. set_solver. }
  pose proof (anchored_place a k k' (eq_sym Ek) Hac) as Hac'. pose proof (f_equal pchar Ek) as Ech. cbn in Ech.
  rewrite (shows_replica b ps) in Hvis by done. rewrite (anchor_place_shown b ps), Hb in Eo by done.
  pose proof (delivered_shown _ b ps ops l k r Hd E) as Et. cbv zeta in Et. rewrite Hvis in Et.
  pose proof (delivered_shown _ b' ps' ops' l' k' r' Hd' E') as Et'.
  exists a, (replica_of (snapshot b) ps), l, k, r, (replica_of (snapshot b') ps'), l', k', r'. split_and!; try done.
  - by rewrite Ech.
  - rewrite <- (shows_replica b') by done. apply (cell_valid (snapshot b') ps' Hok' debug_assertions a l' k' r' E' Hac'). congruence.
  - rewrite <- Hb, <- (anchor_place_shown b') by done. apply (anchor_resolves (snapshot b') ps' Hok' debug_assertions a l' k' r' E' Hac').
    intros _. split; [congruence|]. apply (cell_observed (snapshot b') ps' Hok' (versioned_seen b' ps' ltac:(apply Hd')) a l' k' r' E' Hac').
Qed.

(** Anchors made in one buffer, in order, in another. *)
Lemma node_anchors b ps ops b' ps' ops' debug_assertions U (points : list (N * Bias)) : delivered U b ps ops → delivered U b' ps' ops' →
  places (cells ps) `sublist_of` places (cells ps') → in_place (cells ps') →
  Forall (λ p : N * Bias, Str.is_char_boundary (text_of b) p.1 = true) points →
  Sorted (λ p q : N * Bias, then_with (p.1 ?= q.1) (bias_cmp p.2 q.2) ≠ Gt) points →
  ∃ anchors, mapM (λ p : N * Bias, anchor_at_offset debug_assertions (snapshot b) p.1 p.2) points = Some anchors ∧
    Forall (λ a, (∃ m, at_slot (cells ps') a m) ∧ buffer_id a = remote_id (snapshot b)) anchors ∧
    Sorted (λ a1 a2, cmp debug_assertions a1 a2 (snapshot b') ≠ Some Gt) anchors.
Proof.
  intros Hd Hd' Hsub Hin' Hpoints Hsorted. pose proof (bo_snapshot _ _ (de_ok _ _ _ _ _ _ Hd')) as Hok'.
  set (made p a := anchor_at_offset debug_assertions (snapshot b) p.1 p.2 = Some a ∧ anchor_bias a = p.2 ∧
    placed (undone b) (remote_id (snapshot b)) (cells ps) a p.1 : Prop).
  destruct (Forall_choice made points) as [anchors Hmade].
  { eapply Forall_impl; [exact Hpoints|]. intros p Hp. destruct (node_anchor _ b ps ops debug_assertions p.1 p.2 Hd) as (a & Ha & Hb & Hpl); [by left|].
    unfold clip_to in Hpl. cbn in Hp. rewrite Hp in Hpl. by exists a. }
  exists anchors. split_and!.
  - apply mapM_Some. eapply Forall2_impl; [exact Hmade|]. by intros p a (? & _).
  - eapply Forall2_Forall_r; [exact Hmade|]. apply Forall_forall. intros p _ a (_ & _ & Hpl). split; [|by destruct Hpl].
    destruct (placed_elsewhere _ _ _ _ _ _ _ _ Hsub Hpl Hpl) as (_ & _ & m & _ & _ & _ & Hm & _). by exists m.
  - eapply (Sorted_related _ _ _ _ _ Hmade); [|exact Hsorted]. intros p q a1 a2 (_ & Hb1 & H1) (_ & Hb2 & H2).
    destruct (placed_elsewhere _ _ _ _ _ _ _ _ Hsub H1 H2) as (n1 & n2 & m1 & m2 & _ & _ & Hm1 & Hm2 & Eo & Em).
    rewrite (cmp_slots (snapshot b') ps' Hok' Hin' debug_assertions a1 a2 m1 m2 Hm1 Hm2), Em, Eo, Hb1, Hb2. congruence.
Qed.

(** C14: many anchors at once are as each on its own. For anchors made at places of a replica's text, in
    their order, one pass over the fragments and the text of a replica that has observed what the
    first had then gives for each the summary that it has by itself. It does not panic. *)
Theorem one_pass_agrees {D} `{TextDimensionLaws D} n0 n n' i j b b' debug_assertions (points : list (N * Bias))
    (Hstart : net_start P s n0) (Hrun : rtc (net_step P) n0 n) (Hlater : rtc (net_step P) n n') (Hi : nodes n !! i = Some b) (Hj : nodes n' !! j = Some b')
    (Hmore : ∀ o, o ∈ sent n → GlobalOps.observed (BufferOps.version b) (op_timestamp o) = true → GlobalOps.observed (BufferOps.version b') (op_timestamp o) = true)
    (Hremote : remote_id (snapshot b') = remote_id (snapshot b) ∨ debug_assertions = false) (Hlow : snapshot_low (snapshot b'))
    (Hpoints : Forall (λ p : N * Bias, Str.is_char_boundary (text_of b) p.1 = true) points)
    (Hsorted : Sorted (λ p q : N * Bias, then_with (p.1 ?= q.1) (bias_cmp p.2 q.2) ≠ Gt) points) :
  ∃ anchors summaries, mapM (λ p : N * Bias, anchor_at_offset debug_assertions (snapshot b) p.1 p.2) points = Some anchors ∧
    mapM (summary_for_anchor debug_assertions (snapshot b')) anchors = Some summaries ∧
    summaries_for_anchors (D := D) (snapshot b') anchors = Some summaries.
Proof.
  destruct (observed_places n0 n n' i j b b') as (ps & ops & ps' & ops' & Hd & Hd' & Hsub & _ & Hin' & _ & _); [done..|].
  pose proof (bo_snapshot _ _ (de_ok _ _ _ _ _ _ Hd')) as Hok'.
  destruct (node_anchors b ps ops b' ps' ops' debug_assertions _ points Hd Hd' Hsub Hin' Hpoints Hsorted) as (anchors & Ea & Hslots & Hs').
  destruct (slots_in_order (snapshot b') ps' Hok' debug_assertions anchors Hin') as (ns & Hns & Hle).
  { eapply Forall_impl; [exact Hslots|]. by intros a [? _]. }
  { done. }
  exists anchors, (measure <$> (text_before (snapshot b') ps' <$> ns)). split_and!; [done| |].
  - apply mapM_Some. rewrite !Forall2_fmap_r. clear Hle Hs' Ea. induction Hns as [|a k anchors ns Hk _ IH]; constructor.
    + apply Forall_cons in Hslots as [[_ Hbuf] _]. apply (summary_for_anchor_ok (snapshot b') ps' Hok' Hlow debug_assertions a k Hk); [by apply versioned_seen, Hd'|].
      intros ->. destruct Hremote as [->|]; done.
    + by apply IH; apply Forall_cons in Hslots as [_ ?].
  - unfold summaries_for_anchors. rewrite (one_pass_ok (snapshot b') ps' Hok' Hlow _ ns); [|by apply Forall2_fmap_l|done].
    cbn [fmap option_fmap option_map]. f_equal. clear Hle Hs' Ea Hslots. induction Hns as [|a k anchors ns _ _ IH]; [done|]. cbn. f_equal. exact IH.
Qed.
End properties.

(** ** In the network of two replicas *)

#[local] Abbreviation pf := (λ _ : nat, sample_platform).
#[local] Existing Instance sample_laws.

Lemma net_run_app es es' n : net_run (es ++ es') n = n' ← net_run es n; net_run es' n'.
Proof.
  revert n. induction es as [|e es IH]; intros n; [done|]. cbn [app net_run]. destruct (e n) as [i ev].
  destruct (nodes n !! i) as [b|]; [|done]. cbn [mbind option_bind]. destruct (event_mayb (sent n) ev b); [|done].
  destruct (event_step sample_platform ev b) as [[b' ops]|]; [|done]. cbn [mbind option_bind]. apply IH.
Qed.

Lemma sample_net_later es es' : is_Some (run_sample (es ++ es')) →
  ∃ n0 n n', net_start pf sample_text n0 ∧ rtc (net_step pf) n0 n ∧ rtc (net_step pf) n n' ∧ run_sample es = Some n ∧ run_sample (es ++ es') = Some n'.
Proof.
  unfold run_sample. destruct sample_started_ok as (n0 & E & Hstart & Hok). rewrite E. cbn [mbind option_bind]. rewrite net_run_app. intros [n' Hn'].
  destruct (net_run es n0) as [n|] eqn:En; [|done]. cbn [mbind option_bind] in *.
  destruct (net_run_steps sample_text es n0 n Hok En) as [H1 Hok']. destruct (net_run_steps sample_text es' n n' Hok' Hn') as [H2 _].
  exists n0, n, n'. split_and!; [exact Hstart|exact H1|exact H2|done|exact Hn'].
Qed.

(** The first replica before and after everything has been exchanged. *)
Definition sample_early : option Buffer := node 0 (run_sample sample_events).
Definition sample_late : option Buffer := node 0 (run_sample sample_exchange).
Definition early_check (b : Buffer) : bool :=
  (remote_id (snapshot b) =? 1) && Str.is_char_boundary (text_of b) 1 && Str.is_char_boundary (text_of b) 9 && (9 <? Str.length_utf8 (text_of b)).
Definition late_check (b : Buffer) : bool := (remote_id (snapshot b) =? 1) && low_sample (snapshot b).

Record sample_setting (n0 n n' : Net) (b b' : Buffer) : Prop := {
  ss_start : net_start pf sample_text n0;
  ss_run : rtc (net_step pf) n0 n;
  ss_later : rtc (net_step pf) n n';
  ss_first : nodes n !! 0%nat = Some b;
  ss_second : nodes n' !! 0%nat = Some b';
  ss_early : sample_early = Some b;
  ss_late : sample_late = Some b';
  ss_more o : o ∈ sent n → GlobalOps.observed (BufferOps.version b) (op_timestamp o) = true → GlobalOps.observed (BufferOps.version b') (op_timestamp o) = true;
  ss_early_check : early_check b = true;
  ss_late_check : late_check b' = true }.

Lemma sample_setting_ok : ∃ n0 n n' b b', sample_setting n0 n n' b b'.
Proof.
  assert (is_Some (run_sample sample_exchange)) as H by (vm_compute; by eexists).
  destruct (sample_net_later sample_events [arrived 0 (λ ops, ops ++ ops); arrived 1 (λ ops, rev ops)] H) as (n0 & n & n' & Hstart & Hrun & Hlater & E & E').
  destruct (two_nodes (run_sample sample_events) n E ltac:(vm_compute; reflexivity)) as (b & _ & Hb & _ & Nb & _).
  destruct (two_nodes (run_sample sample_exchange) n' E' ltac:(vm_compute; reflexivity)) as (b' & _ & Hb' & _ & Nb' & _).
  exists n0, n, n', b, b'. split; [exact Hstart|exact Hrun|exact Hlater|exact Hb|exact Hb'|exact Nb|exact Nb'| | |].
  - intros o Ho _. set (all b := forallb (λ o, GlobalOps.observed (BufferOps.version b) (op_timestamp o)) (from_option sent [] (run_sample sample_events))).
    assert (all b' = true) as Hall by (apply (checked sample_late all b' Nb'); vm_compute; reflexivity).
    unfold all in Hall. rewrite E in Hall. rewrite forallb_forall in Hall. apply Hall. by apply list_elem_of_In.
  - apply (checked sample_early early_check b Nb). vm_compute. reflexivity.
  - apply (checked sample_late late_check b' Nb'). vm_compute. reflexivity.
Qed.

Lemma early_facts b : early_check b = true → remote_id (snapshot b) = 1 ∧ Str.is_char_boundary (text_of b) 1 = true ∧
  Str.is_char_boundary (text_of b) 9 = true ∧ 9 < Str.length_utf8 (text_of b).
Proof. unfold early_check. rewrite !andb_true_iff, N.eqb_eq, N.ltb_lt. tauto. Qed.

Lemma late_facts n0 n n' b b' : sample_setting n0 n n' b b' → remote_id (snapshot b') = 1 ∧ snapshot_low (snapshot b').
Proof.
  intros [Hstart Hrun Hlater _ Hj _ _ _ _ Hc]. unfold late_check in Hc. rewrite andb_true_iff, N.eqb_eq in Hc. destruct Hc as [Hc1 Hc2]. split; [exact Hc1|].
  assert (scalars sample_text) as Hs by by vm_compute. assert (Str.length_utf8 (unix_lines sample_text) < u32_modulus) as Hf by by vm_compute.
  assert (rtc (net_step pf) n0 n') as Hall by by etrans.
  destruct (no_joined _ _ (net_run_ok pf sample_text n0 n' (net_start_ok pf sample_text n0 Hs Hf Hstart) Hall) 0%nat b' Hj) as (ps & ops & [Hd _ _]).
  exact (low_sample_ok (snapshot b') ps (bo_snapshot _ _ (de_ok _ _ _ _ _ _ Hd)) Hc2).
Qed.

Lemma anchor_round_trip_witness : ∃ b a, sample_early = Some b ∧ anchor_at_offset true (snapshot b) 9 BiasLeft = Some a ∧
  offset_for_anchor true (snapshot b) a = Some 9 ∧ is_valid true a (snapshot b) = Some true.
Proof.
  destruct sample_setting_ok as (n0 & n & n' & b & b' & [Hstart Hrun _ Hi _ He _ _ Hc _]). destruct (early_facts b Hc) as (_ & _ & H9 & _).
  assert (scalars sample_text) as Hs by by vm_compute. assert (Str.length_utf8 (unix_lines sample_text) < u32_modulus) as Hf by by vm_compute.
  pose proof (anchor_round_trip pf sample_text Hs Hf n0 n 0 b true 9 BiasLeft Hstart Hrun Hi (or_introl H9)) as (a & Ha & _ & Ho & _ & Hv).
  unfold clip_to in Ho. rewrite H9 in Ho. exists b, a. split; [exact He|]. split; [exact Ha|]. split; [exact Ho|exact Hv].
Defined.

Lemma anchors_keep_order_witness : ∃ b b' a1 a2, sample_early = Some b ∧ sample_late = Some b' ∧
  anchor_at_offset true (snapshot b) 1 BiasRight = Some a1 ∧ anchor_at_offset true (snapshot b) 9 BiasLeft = Some a2 ∧ cmp true a1 a2 (snapshot b') = Some Lt.
Proof.
  destruct sample_setting_ok as (n0 & n & n' & b & b' & Hset). destruct (late_facts _ _ _ _ _ Hset) as [Hr' _].
  destruct Hset as [Hstart Hrun Hlater Hi Hj He Hl Hmore Hc _]. destruct (early_facts b Hc) as (Hr & H1 & H9 & _).
  assert (scalars sample_text) as Hs by by vm_compute. assert (Str.length_utf8 (unix_lines sample_text) < u32_modulus) as Hf by by vm_compute.
  assert (remote_id (snapshot b') = remote_id (snapshot b)) as Hremote by (rewrite Hr', Hr; reflexivity).
  pose proof (anchors_keep_order pf sample_text Hs Hf n0 n n' 0 0 b b' true 1 9 BiasRight BiasLeft Hstart Hrun Hlater Hi Hj Hmore
    (or_introl Hremote) H1 H9) as (a1 & a2 & p1 & p2 & Ha1 & Ha2 & _ & Hcmp & _).
  exists b, b', a1, a2. split; [exact He|]. split; [exact Hl|]. split; [exact Ha1|]. split; [exact Ha2|exact Hcmp].
Defined.

(** Whether an anchor of the early buffer is valid in the late one, and where it resolves: the
    characters at 0 and 1 have been replaced, the one at 3 has not. *)
Definition sticking (offset : N) : option (bool * N) :=
  b ← sample_early; b' ← sample_late;
  a ← anchor_at_offset true (snapshot b) offset BiasRight;
  valid ← is_valid true a (snapshot b'); place ← offset_for_anchor true (snapshot b') a; Some (valid, place).

Example sample_sticking : sticking <$> [0; 1; 3; 5] = [Some (false, 3); Some (false, 3); Some (true, 3); Some (true, 5)].
Proof. by vm_compute. Qed.

Lemma anchors_stick_witness : ∃ b b' a z l k r, sample_early = Some b ∧ sample_late = Some b' ∧
  anchor_at_offset true (snapshot b) 1 BiasRight = Some a ∧
  text_of b' = shown_of z l ++ (if replica_shows z k then [cchar k] else []) ++ shown_of z r ∧
  is_valid true a (snapshot b') = Some (replica_shows z k) ∧
  offset_for_anchor true (snapshot b') a = Some (Str.length_utf8 (shown_of z l)).
Proof.
  destruct sample_setting_ok as (n0 & n & n' & b & b' & Hset). destruct (late_facts _ _ _ _ _ Hset) as [Hr' _].
  destruct Hset as [Hstart Hrun Hlater Hi Hj He Hl Hmore Hc _]. destruct (early_facts b Hc) as (Hr & H1 & _ & Hlt).
  assert (scalars sample_text) as Hs by by vm_compute. assert (Str.length_utf8 (unix_lines sample_text) < u32_modulus) as Hf by by vm_compute.
  assert (remote_id (snapshot b') = remote_id (snapshot b)) as Hremote by (rewrite Hr', Hr; reflexivity).
  assert (1 < Str.length_utf8 (text_of b)) as Hin by lia.
  pose proof (anchors_stick pf sample_text Hs Hf n0 n n' 0 0 b b' true 1 BiasRight Hstart Hrun Hlater Hi Hj Hmore Hremote H1 Hin) as
    (a & _ & _ & k & _ & z & l & k' & r & Ha & _ & _ & _ & _ & _ & _ & _ & Ek & Et & Hv & Ho).
  pose proof (f_equal pchar Ek) as Ech. cbn in Ech. rewrite <- Ech in Et.
  exists b, b', a, z, l, k', r. split; [exact He|]. split; [exact Hl|]. split; [exact Ha|]. split; [exact Et|]. split; [exact Hv|exact Ho].
Defined.

Lemma one_pass_agrees_witness : ∃ b b' anchors summaries, sample_early = Some b ∧ sample_late = Some b' ∧
  mapM (λ p : N * Bias, anchor_at_offset true (snapshot b) p.1 p.2) [(1, BiasLeft); (1, BiasRight); (9, BiasRight)] = Some anchors ∧
  summaries_for_anchors (D := Point) (snapshot b') anchors = Some summaries ∧ length summaries = 3%nat.
Proof.
  destruct sample_setting_ok as (n0 & n & n' & b & b' & Hset). destruct (late_facts _ _ _ _ _ Hset) as [Hr' Hlow].
  destruct Hset as [Hstart Hrun Hlater Hi Hj He Hl Hmore Hc _]. destruct (early_facts b Hc) as (Hr & H1 & H9 & _).
  assert (scalars sample_text) as Hs by by vm_compute. assert (Str.length_utf8 (unix_lines sample_text) < u32_modulus) as Hf by by vm_compute.
  assert (remote_id (snapshot b') = remote_id (snapshot b)) as Hremote by (rewrite Hr', Hr; reflexivity).
  set (points := [(1, BiasLeft); (1, BiasRight); (9, BiasRight)]).
  assert (Forall (λ p : N * Bias, Str.is_char_boundary (text_of b) p.1 = true) points) as Hp.
  { apply Forall_cons. split; [exact H1|]. apply Forall_cons. split; [exact H1|]. apply Forall_cons. split; [exact H9|constructor]. }
  assert (Sorted (λ p q : N * Bias, then_with (p.1 ?= q.1) (bias_cmp p.2 q.2) ≠ Gt) points) as Hsorted by (repeat constructor; discriminate).
  pose proof (one_pass_agrees (D := Point) pf sample_text Hs Hf n0 n n' 0 0 b b' true points Hstart Hrun Hlater Hi Hj Hmore (or_introl Hremote) Hlow Hp Hsorted) as
    (anchors & summaries & Ha & Hm & Hone).
  exists b, b', anchors, summaries. split; [exact He|]. split; [exact Hl|]. split; [exact Ha|]. split; [exact Hone|].
  apply length_mapM in Ha, Hm. rewrite <- Hm, <- Ha. reflexivity.
Defined.
